(* ===== verification/_CoqProject ===== *)
-Q . S2P
Prelude.v
Text.v
Wire.v
Sort.v
Uri.v
Huffman.v
Hpack.v
H2Frame.v
H2Conn.v
H3Frame.v
Qpack.v
FcgiProto.v
LimitReq.v
LimitConn.v
Upstream.v
Request.v
Date.v
Lexer.v
Ast.v
Matching.v
Files.v
Cache.v
Preread.v
Vars.v
Response.v
Model.v
Ctx.v
Handler.v
Fcache.v
Mime.v
Autoindex.v
Static.v
ReadBody.v
Conn.v
ProxyReq.v
Proxy.v
Addr.v
Args.v
Layer.v
Level.v
Listen.v
Blocks.v
Server.v
Http.v
Build.v
FastCgi.v
H3Conn.v
Udp.v
StreamProxy.v
Master.v
Msgpack.v
Log.v
Stats.v
H2Stream.v
Waf.v
Entry.v
Status.v
Transport.v
Worker.v
Quic.v
