(* ===== verification/Prelude.v ===== *)
(** * A verification library for the OxiServe web server

    OxiServe (src/) is an nginx-compatible web server in Rust.  This library
    models what of it computes - its wire formats, its parsers, its tables and
    counters, its connections, the request handler and the modules that answer,
    the configuration, the master process - as executable definitions translated
    function by function from the source, and proves what makes each part
    correct.  Everything that is not a theorem is a definition that can be
    evaluated; nothing is assumed.

    ** The program and its files here

    A byte stream from a client is HTTP/1, HTTP/2 or HTTP/3; each yields the
    same request value, whose path is decoded and normalised, whose host picks
    a server and whose path picks a location; the location's handler answers
    from a file, a FastCGI application or an upstream peer, after the rate and
    connection limits; a configuration file describes all of it.

    - Foundations: [Prelude] (bytes, machine integers, results, big-endian
      integers, the [len] and [oxi] automation), [Text] (the pieces of Rust's
      [str]: ASCII case, splitting, trimming, numbers, UTF-8), [Wire] (the class
      [WireFormat]: what a framing layer promises to the layer above).
    - [Uri]: src/src/http/uri.rs, percent-decoding and path normalisation.
    - [Huffman], [Hpack]: src/src/http2/huffman.rs and hpack.rs, header
      compression with the decoder's dynamic table.
    - [H2Frame], [H2Conn]: src/src/http2/frame.rs and conn.rs.  [Conn] is the
      locals of [read_loop] with the [Flow] it shares with the stream tasks,
      [step] one iteration of its loop, [on_data], [on_headers], ... the arms of
      its match, [pump_once] one turn of a task's body loop, [reachable] every
      interleaving of frames and task steps, [serve] the whole connection.
    - [H3Frame], [Qpack]: src/src/http3/frame.rs and qpack.rs.
    - [FcgiProto]: src/src/server/fcgi_proto.rs, records and parameters.
    - [LimitReq], [LimitConn]: src/src/server/limit_req.rs and limit_conn.rs
      over shared memory (shm.rs): transition systems whose steps are single
      atomic operations of any number of worker processes.
    - [Upstream]: src/src/server/upstream.rs, peer health, balancing, the pool
      of idle connections.
    - [Request]: src/src/http/request.rs, the request head and its framing.
    - [Date]: src/src/http/date.rs, the calendar and the cached clock.
    - [Lexer], [Ast]: src/src/config/lexer.rs and ast.rs, configuration text to
      directive trees and back.
    - [Matching]: the location and server tables of src/src/config/model.rs.
    - [Files]: src/src/server/files.rs, ranges and validators.
    - [Sort]: the stable sort the caches evict with.
    - [Cache]: src/src/server/cache.rs, entries on disk as inodes and names,
      writers as interleaved steps ([sys_step]), the index, the manager, the
      fetch locks.
    - [Preread]: src/src/server/preread.rs, the TLS hello in front of a stream.
    - [Vars]: src/src/config/vars.rs, variables and compiled templates.
    - [Response]: src/src/http/response.rs, status.rs and server/reply.rs.
    - [Model]: the data of src/src/config/model.rs and the defaults.
    - [Ctx]: src/src/server/ctx.rs, the request context and its variables.
    - [Handler]: src/src/server/handler.rs over the class [World], which is what
      the handler asks of the modules below it; [Static] discharges its law.
    - [Fcache], [Mime], [Autoindex], [Static]: src/src/server/fcache.rs,
      src/src/mime.rs, autoindex.rs and the rest of files.rs.
    - [ReadBody]: the request bodies of src/src/server/conn.rs.
    - [Conn]: the rest of src/src/server/conn.rs, an HTTP/1 connection from the
      first byte to the close: the head reader, the keep-alive loop, the reply
      of each of the four body kinds, the relay of an upstream stream, the
      tunnel, and the pool of idle upstream connections.
    - [ProxyReq], [Proxy]: src/src/server/proxy.rs, the request sent upstream
      (URI, fields, framing, sticky cookies) and the attempts over the peers
      with the cache in front, over the class [Net] of what they ask of sockets.
      [with_proxy] makes of it the proxy of a [World] for [Handler].
    - The configuration builder, src/src/config/build.rs, from directive trees
      to the configuration the server runs on, over the class [Crates] of what
      it asks of the regex crate, the resolver and the file system.  A result is
      an [outcome]: a value, an error with its place, or a panic.  [Addr] is the
      address syntax of std::net; [Args] the arguments, sizes, times and rates;
      [Layer] the settings of a block and their inheritance; [Level] the table
      [arms] of the directives of a block, one arm per directive; [Listen] the
      listen lines and the sockets they are grouped into; [Blocks] the upstream,
      map and zone blocks; [Server] server and location, recursive as the tree
      is; [Http] the http block and its checks; [Build] the stream block and
      [build], the whole file.
    - [FastCgi]: src/src/server/fastcgi.rs, the client of an application: its
      request, the records of the answer under any cut, the CGI head, a body
      sent whole or as it comes.
    - [H3Conn]: src/src/http3/conn.rs, the streams of an HTTP/3 connection.
      [H2Stream]: the task of one HTTP/2 stream, in src/src/http2/conn.rs.
    - [StreamProxy], [Udp]: src/src/server/stream.rs and udp.rs, the proxying
      of TCP sessions and of datagrams.
    - [Master]: src/src/server/mod.rs, the master process as a transition
      system over signals, forks and the ends of workers, the sockets that a
      generation takes over and gives its workers, the certificate by name.
    - [Msgpack], [Log]: src/src/server/msgpack.rs and log.rs, the records and
      lines of a request, and the files they go to under rotation.
    - [Stats], [Status]: src/src/server/stats.rs, the shared counters and their
      pages, in text and in JSON.
    - [Waf]: src/src/waf.rs and src/src/server/modsec.rs, the shim around the
      rule engine of a build with the [modsecurity] feature, over an [Engine]
      that answers as it likes; [with_waf] puts it in a [World].
    - [Entry]: src/src/main.rs and src/src/config/mod.rs, from the command line
      to the configuration that is served ([load] is [Ast] and [Build] in turn).
    - [Transport]: src/src/server/transport.rs, client and upstream sockets: an
      accepted one is registered with the reactor when a call would block, over
      the class [Kernel] of what its calls have to do with the plain ones.
    - [Worker]: src/src/server/mod.rs, a worker from its fork to its end: its
      signals, tasks, accept loops and drain.  [Quic]: the TLS and QUIC
      configurations of its listeners, src/src/server/quic.rs, and the start
      of an HTTP/3 connection.
    ** Conventions

    A [u8] is a [byte], a string or slice is a list of bytes, a wider integer is
    a [Z] with its wrap-around or check written where the code has one; a
    [Result] is [result], an [Option] is [option]; a [HashMap] is a [gmap]; a
    panic is [None] (or a constructor of its own), so that its absence is a
    theorem.  Mutable state is passed and returned.  Code outside src/ is a
    parameter: the [httparse], [regex] and [httpdate] crates, the clock, the
    file system and [glob]; what is relied on of them is a named hypothesis.

    Loops that are not structural take fuel: the length of the input they
    consume, or of the list they walk.  For each there is a theorem that this is
    enough - [serve_total], [serve_terminates], [handle_terminates],
    [run_total], [take_messages_fuel], [utf8_go_fuel], [section_loop_fuel],
    [decode_loop_total] - so no statement holds only because fuel ran out.
    The native stack is a bound of its own kind: the configuration parser and
    [$document_root] recurse on it without a limit, so [parse_file] has a stack
    argument and ends where the stack holds the nesting ([parse_file_total],
    [deep_blocks_overflow]), and a variable resolves where no root names itself.
    A write ([Conn.Write]) is taken, refused, or waits: of a peer that neither
    reads nor leaves it waits for ever, since no write of the program has a
    timeout, and the operations that wait have an outcome for it ([Hung],
    [Stalled], [Unread], [Never]).
    The builder's only fuel is the stack of [uses_preread_var]: ten calls and
    the longest chain of map sources are enough ([preread_search_ends]).

    ** What the theorems show

    - Safety on any input: an HTTP/2 connection never panics and keeps its
      invariant in every interleaving; a decoded path never leaves the root;
      HPACK and QPACK decoders stay within their limits; what is a
      chunked and what a measured body is told from the fields that
      [body_framing] names.
    - Round trips: HPACK, QPACK and Huffman coding, HTTP/2, HTTP/3 and FastCGI
      framing under any cut of the stream, FastCGI parameters, path encoding,
      the configuration dump, ranges and entity tags.
    - Equivalence with a reference: location and server choice against nginx's
      documented order, normalisation against split-resolve-join, request heads
      against the well-formed ones, the calendar against counting days.
    - The configuration: a setting has the value of the innermost block that
      sets it ([nearest_level_wins]); listen lines become one socket per address
      ([listeners_group_by_address], [every_line_is_bound]); what is named is
      declared ([zones_declared]); reading the files of a configuration ends
      where their nesting fits the stack ([parse_file_total]), and loading never
      panics but for the named defects ([load_never_aborts]); what passes [-t] is what is served
      ([test_tells_the_start]).
    - Composition: a request on the wire of HTTP/1, HTTP/2 or HTTP/3 reaches the
      handler and its reply is framed as the protocol asks ([request_served],
      [request_delivered], [h2_reply_framed], [reply_framed]); an upstream's answer of
      the length it announces, and an application's in well-formed records, is
      what the client gets ([upstream_answer_delivered], [response_delivered]);
      rules that only watch change no reply whose body can be read to its end
      ([watching_changes_nothing]).
    - Ends: a connection is closed, or waits for a silent peer, or the worker
      panics, and nothing else ([serve_terminates]); the same of a FastCGI
      request, a proxied one and a stream session
      ([failures_are_gateway_errors], [proxy_terminates],
      [session_transparent]).
    - Processes: the master keeps one worker per number and a reload leaves no
      gap ([master_supervises], [reload_leaves_no_gap]); no line of a log is
      doubled, or lost but by a failing disk ([lines_are_kept]); the counters are exact
      ([counters_exact]); every worker serves every listener
      ([generation_served]), a drain ends ([worker_leaves]), and a socket that
      is registered late answers as one registered at once
      ([laziness_unseen]).
    - Concurrency: the limiters' counts are exact, keys are not evicted while
      live, and what a slot admits is bounded by the rate, the burst and how far
      the clock of its requests moves forward ([rate_bound]), for any
      interleaving of workers.
    - Defects, proved where they can be: see the theorems that exhibit one
      ([abandoned_streams_wedge], [peer_setting_resizes_decoder],
      [large_burst_never_rejects], [probe_can_panic],
      [limit_exceeded_by_race], [fallback_prefers_probe_down],
      [dump_breaks_bare_words], [wildcard_misses_bare_domain],
      [empty_file_suffix_range], [shared_pid_tears], [malformed_hello_stalls], [root_names_itself],
      [cookie_hidden], [server_auth_skipped], [error_redirect_keeps_status],
      [range_is_compressed], [colon_name_is_a_scheme],
      [truncation_cuts_entities], [alias_escapes], [chunk_size_aborts],
      [blank_size_ends_body], [short_file_keeps_connection],
      [truncated_upstream_keeps_connection], [chunked_relay_waits],
      [chunked_to_http10], [gzip_breaks_preset_length], [decoded_uri_injects],
      [unslashed_part_drops_the_rest], [listed_status_forgotten],
      [dead_reuse_is_502], [overlong_answer_spills],
      [time_product_wraps], [time_sum_panics], [rate_wraps], [burst_wraps],
      [buffer_factors_reset], [charset_off_inherits], [empty_return_panics],
      [bad_number_ignored], [bad_weight_is_one], [ipv6only_of_first_line],
      [inner_zone_unchecked], [cyclic_maps_overflow], [access_log_forms],
      [cut_head_leaks], [broken_answer_is_complete], [configured_param_is_shadowed],
      [control_stream_holds_the_rest], [reset_request_is_served],
      [broken_body_is_finished], [last_reply_drops_the_queue],
      [stop_can_be_missed], [failed_fork_leaks], [quick_reloads_collapse],
      [error_log_stderr_is_a_file], [idle_counts_as_reading],
      [broken_body_ends_the_stream], [unmatched_is_not_inspected],
      [compressed_before_inspection], [complete_body_waits],
      [inspected_surplus_is_sent], [negative_pid_is_everyone],
      [failed_registration_panics], [early_stop_is_lost],
      [stream_nodelay_never_set], [last_worker_has_the_path],
      [weights_can_vanish], [full_disk_tears], [silent_client_waits],
      [unread_request_waits], [stalled_session], [deep_blocks_overflow],
      [field_value_injects], [clock_that_steps_back]).

    ** Not modelled

    What only calls the system or a library: socket options and the binding of
    sockets (an outcome in [Worker]), the handshakes of rustls and quinn, the
    runtime's timers, the mapping of shared memory (shm.rs; its words are the
    slots of the limiters), the pid file's removal, the compiling of rules
    (libmodsecurity), the sockets of the health probes (what they conclude is in
    [Upstream]), the local time zone.
    A read or a write is an event of a list, a poll is what it finds, a clock
    or a file's content an argument.  What remains of the code lines not mapped
    is of these kinds, and tests. *)
From Stdlib Require Export Strings.Byte ZArith Lia.
From stdpp Require Export base tactics list option gmap strings.

Declare Scope oxi_scope.
Delimit Scope oxi_scope with oxi.

(** ** Bytes

    A Rust [u8] is a [byte]; [u8] reads it as an integer and [of_u8] is the
    truncating cast [x as u8]. A [&str], a [String] and a [&[u8]] are all
    lists of bytes: text is UTF-8 encoded, as it is in the program. *)

Abbreviation bytes := (list byte).

Definition u8 (b : byte) : Z := Z.of_N (Byte.to_N b).

Definition of_u8 (z : Z) : byte :=
  default x00 (Byte.of_N (Z.to_N (z mod 256))).

#[export] Instance byte_eq_dec : EqDecision byte := Byte.byte_eq_dec.

#[export] Program Instance byte_countable : Countable byte :=
  inj_countable Byte.to_N Byte.of_N _.
Next Obligation. intros b. apply Byte.of_to_N. Qed.

(** A byte literal's text: [str "GET"] is Rust's [b"GET"]. *)
Definition str (s : string) : bytes := String.list_byte_of_string s.
Arguments str s%_string_scope.

Lemma u8_range b : (0 <= u8 b < 256)%Z.
Proof.
  unfold u8. split; [apply N2Z.is_nonneg |].
  change 256%Z with (Z.of_N 256). apply N2Z.inj_lt.
  apply N.le_lt_trans with 255%N; [apply Byte.to_N_bounded | lia].
Qed.

Lemma u8_of_u8 z : u8 (of_u8 z) = (z mod 256)%Z.
Proof.
  unfold u8, of_u8.
  assert (0 <= z mod 256 < 256)%Z as Hz by (apply Z.mod_pos_bound; lia).
  destruct (Byte.of_N (Z.to_N (z mod 256))) as [b|] eqn:E.
  - apply Byte.to_of_N in E. cbn. rewrite E, Z2N.id by lia. done.
  - apply Byte.of_N_None_iff in E. lia.
Qed.

Lemma of_u8_u8 b : of_u8 (u8 b) = b.
Proof.
  unfold of_u8. rewrite Z.mod_small by apply u8_range.
  unfold u8. rewrite N2Z.id, Byte.of_to_N. done.
Qed.

#[export] Instance u8_inj : Inj (=) (=) u8.
Proof. intros a b H. rewrite <-(of_u8_u8 a), <-(of_u8_u8 b), H. done. Qed.

Lemma of_u8_mod z : of_u8 (z mod 256) = of_u8 z.
Proof. apply u8_inj. rewrite !u8_of_u8, Z.mod_mod by lia. done. Qed.

Lemma u8_of_u8_small z : (0 <= z < 256)%Z → u8 (of_u8 z) = z.
Proof. intros. rewrite u8_of_u8. apply Z.mod_small; lia. Qed.

(** ** Fallible results: Rust's [Result<A, E>] *)

Inductive result (E A : Type) :=
  | Ok (a : A)
  | Err (e : E).
Arguments Ok {E A} a.
Arguments Err {E A} e.

#[export] Instance result_eq_dec {E A} `{EqDecision E} `{EqDecision A} :
  EqDecision (result E A).
Proof.
  intros [a|e] [b|f]; try (by right).
  - destruct (decide (a = b)); [left | right]; congruence.
  - destruct (decide (e = f)); [left | right]; congruence.
Defined.

#[export] Instance result_ret {E} : MRet (result E) := λ A a, Ok a.
#[export] Instance result_bind {E} : MBind (result E) := λ A B k r,
  match r with Ok a => k a | Err e => Err e end.
#[export] Instance result_fmap {E} : FMap (result E) := λ A B f r,
  match r with Ok a => Ok (f a) | Err e => Err e end.

(** [o.ok_or(e)] *)
Definition ok_or {E A} (e : E) (o : option A) : result E A :=
  match o with Some a => Ok a | None => Err e end.

(** [r.map_err(f)] *)
Definition map_err {E F A} (f : E → F) (r : result E A) : result F A :=
  match r with Ok a => Ok a | Err e => Err (f e) end.

Definition is_ok {E A} (r : result E A) : bool :=
  match r with Ok _ => true | Err _ => false end.

Lemma result_bind_ok {E A B} (k : A → result E B) r b :
  (r ≫= k) = Ok b ↔ ∃ a, r = Ok a ∧ k a = Ok b.
Proof.
  destruct r as [a|e]; cbn; split.
  - intros H. by exists a.
  - by intros (a' & [= ->] & H).
  - done.
  - by intros (a & ? & _).
Qed.

Lemma ok_or_ok {E A} (e : E) (o : option A) a : ok_or e o = Ok a ↔ o = Some a.
Proof. destruct o; cbn; split; congruence. Qed.

(** ** Machine integers

    A [w]-bit unsigned integer is a [Z]; the wrap-around is written where
    the code lets one happen. *)

Definition wrap (w z : Z) : Z := z mod 2 ^ w.
Definition u64_max : Z := 2 ^ 64 - 1.

(** [a.checked_add(b)] on [u64] *)
Definition checked_add64 (a b : Z) : option Z :=
  if bool_decide (a + b ≤ u64_max)%Z then Some (a + b)%Z else None.

(** [a.saturating_sub(b)] on an unsigned type *)
Definition saturating_sub (a b : Z) : Z := Z.max 0 (a - b).
Notation "a ∸ b" := (saturating_sub a b) (at level 50, left associativity) : oxi_scope.

(** ** Big-endian integers: [to_be_bytes] and [from_be_bytes] *)

Fixpoint to_be (n : nat) (z : Z) : bytes :=
  match n with
  | O => []
  | S m => of_u8 (z / 256 ^ Z.of_nat m) :: to_be m z
  end.

Fixpoint from_be (l : bytes) : Z :=
  match l with
  | [] => 0
  | b :: r => u8 b * 256 ^ Z.of_nat (length r) + from_be r
  end%Z.

Lemma length_to_be n z : length (to_be n z) = n.
Proof. induction n; cbn; lia. Qed.

Lemma pow256_pos n : (0 < 256 ^ Z.of_nat n)%Z.
Proof. apply Z.pow_pos_nonneg; lia. Qed.

Lemma pow256_S n : (256 ^ Z.of_nat (S n) = 256 * 256 ^ Z.of_nat n)%Z.
Proof. rewrite Nat2Z.inj_succ, Z.pow_succ_r by lia. done. Qed.

Lemma from_be_range l : (0 ≤ from_be l < 256 ^ Z.of_nat (length l))%Z.
Proof.
  induction l as [|b l IH]; [cbn; lia |].
  change (length (b :: l)) with (S (length l)). rewrite pow256_S. cbn [from_be].
  pose proof (u8_range b). pose proof (pow256_pos (length l)). nia.
Qed.

Lemma from_be_to_be n z : (from_be (to_be n z) = z mod 256 ^ Z.of_nat n)%Z.
Proof.
  induction n as [|n IH]; [cbn; rewrite Z.mod_1_r; done |].
  cbn [to_be from_be]. rewrite IH, length_to_be, u8_of_u8, pow256_S.
  pose proof (pow256_pos n).
  rewrite (Z.mul_comm 256), Z.rem_mul_r by lia. lia.
Qed.

Lemma from_be_to_be_small n z :
  (0 ≤ z < 256 ^ Z.of_nat n)%Z → from_be (to_be n z) = z.
Proof. intros. rewrite from_be_to_be. apply Z.mod_small; lia. Qed.

Lemma to_be_plus_mul n z k :
  to_be n (z + k * 256 ^ Z.of_nat n) = to_be n z.
Proof.
  revert k. induction n as [|n IH]; intros k; [done |].
  cbn [to_be]. rewrite pow256_S. pose proof (pow256_pos n).
  replace (k * (256 * 256 ^ Z.of_nat n))%Z with ((k * 256) * 256 ^ Z.of_nat n)%Z by lia.
  rewrite IH, Z.div_add by lia. f_equal.
  apply u8_inj. rewrite !u8_of_u8, Z.mod_add by lia. done.
Qed.

Lemma to_be_from_be l : to_be (length l) (from_be l) = l.
Proof.
  induction l as [|b l IH]; [done |]. cbn [length to_be from_be].
  pose proof (from_be_range l) as Hr. pose proof (pow256_pos (length l)).
  rewrite Z.div_add_l, Z.div_small, Z.add_0_r, of_u8_u8 by lia.
  f_equal. rewrite Z.add_comm, to_be_plus_mul. done.
Qed.

Lemma from_be_app l k :
  (from_be (l ++ k) = from_be l * 256 ^ Z.of_nat (length k) + from_be k)%Z.
Proof.
  induction l as [|b l IH]; [cbn; lia |].
  cbn [app from_be]. rewrite IH, length_app, Nat2Z.inj_add, Z.pow_add_r by lia. lia.
Qed.

Lemma to_be_inj n a b :
  (0 ≤ a < 256 ^ Z.of_nat n)%Z → (0 ≤ b < 256 ^ Z.of_nat n)%Z →
  to_be n a = to_be n b → a = b.
Proof.
  intros Ha Hb H. rewrite <-(from_be_to_be_small n a), H, from_be_to_be_small; done.
Qed.

(** ** Bit operations: the few facts the codecs share *)

Lemma land_disjoint a b n :
  (0 ≤ n)%Z → (0 ≤ b < 2 ^ n)%Z → Z.land (a * 2 ^ n) b = 0%Z.
Proof.
  intros Hn Hb. rewrite <-Z.shiftl_mul_pow2 by done.
  apply Z.bits_inj'; intros i Hi. rewrite Z.land_spec, Z.bits_0.
  destruct (Z.ltb_spec i n).
  - rewrite Z.shiftl_spec_low by lia. done.
  - apply andb_false_intro2. destruct (decide (b = 0)%Z) as [->|]; [apply Z.bits_0 |].
    apply Z.bits_above_log2; [lia |].
    apply Z.lt_le_trans with n; [apply Z.log2_lt_pow2; lia | lia].
Qed.

Lemma lor_disjoint a b n :
  (0 ≤ n)%Z → (0 ≤ b < 2 ^ n)%Z → Z.lor (a * 2 ^ n) b = (a * 2 ^ n + b)%Z.
Proof.
  intros Hn Hb. pose proof (Z.add_lor_land (a * 2 ^ n) b) as H.
  rewrite land_disjoint in H by done. lia.
Qed.

Lemma land_mask a n : (0 ≤ n)%Z → Z.land a (2 ^ n - 1) = (a mod 2 ^ n)%Z.
Proof.
  intros. rewrite <-Z.land_ones by done. by rewrite Z.ones_equiv.
Qed.

(** [lia] over quotients and remainders by constants. *)
Ltac zdiv := Z.to_euclidean_division_equations; lia.

(** A single bit, as a mask and as a quotient. *)
Lemma land_pow2 n p : (0 ≤ p)%Z → Z.land n (2 ^ p) = 0%Z ↔ Z.odd (n / 2 ^ p) = false.
Proof.
  intros Hp. rewrite <-Z.shiftr_div_pow2, <-Z.testbit_odd by done. split.
  - intros H. apply (f_equal (λ z, Z.testbit z p)) in H.
    rewrite Z.land_spec, Z.pow2_bits_true, Z.bits_0, andb_true_r in H by done. done.
  - intros H. apply Z.bits_inj'. intros i Hi. rewrite Z.land_spec, Z.bits_0.
    destruct (decide (i = p)) as [->|]; [by rewrite H |].
    rewrite Z.pow2_bits_false by done. apply andb_false_r.
Qed.

Lemma join_cons {A} (x : list A) l : mjoin (x :: l) = x ++ mjoin l.
Proof. reflexivity. Qed.

Lemma fmap_cons_eq {A B} (f : A → B) x l : f <$> (x :: l) = f x :: (f <$> l).
Proof. reflexivity. Qed.

Lemma list_find_snoc {A} (P : A → Prop) `{∀ x, Decision (P x)} l x :
  list_find P (l ++ [x]) =
  match list_find P l with
  | Some y => Some y
  | None => if decide (P x) then Some (length l, x) else None
  end.
Proof.
  induction l as [|y l IH]; cbn [app list_find length].
  - by destruct (decide (P x)).
  - destruct (decide (P y)); [done |]. rewrite IH.
    destruct (list_find P l) as [[i z]|]; [done |]. by destruct (decide (P x)).
Qed.

Lemma head_filter_find {A} (P : A → Prop) `{∀ x, Decision (P x)} l :
  head (filter P l) = snd <$> list_find P l.
Proof.
  induction l as [|y l IH]; [done |]. rewrite filter_cons. cbn [list_find].
  destruct (decide (P y)); [done |]. rewrite IH. by destruct (list_find P l) as [[]|].
Qed.

Lemma list_find_ext' {A} (P Q : A → Prop) `{∀ x, Decision (P x)} `{∀ x, Decision (Q x)} l :
  (∀ x, x ∈ l → P x ↔ Q x) → list_find P l = list_find Q l.
Proof.
  induction l as [|y l IH]; intros Heq; [done |]. cbn [list_find].
  rewrite IH by (intros; apply Heq; set_solver).
  pose proof (Heq y ltac:(set_solver)). destruct (decide (P y)), (decide (Q y)); tauto || done.
Qed.

Lemma head_fmap {A B} (f : A → B) l : head (f <$> l) = f <$> head l.
Proof. by destruct l. Qed.

Lemma filter_all {A} (P : A → Prop) `{∀ x, Decision (P x)} l : Forall P l → filter P l = l.
Proof.
  intros Hl. induction Hl as [|x l Hx _ IH]; [done |]. by rewrite filter_cons_True, IH.
Qed.

(** ** Automation

    [len] computes the length of a byte string built from the program's
    primitives, and [len_lia] closes what is arithmetic after that; [oxi]
    holds the ranges every byte and every decoded integer satisfies. *)
Create HintDb oxi.
#[export] Hint Resolve u8_range pow256_pos from_be_range : oxi.

#[export] Hint Rewrite @length_app @length_take @length_drop @length_replicate @length_fmap
  length_to_be : len.
Ltac len_lia := cbn [length app] in *; autorewrite with len in *; cbn [length] in *; lia.
