(* ===== verification/Text.v ===== *)
(** * Text: the parts of Rust's [str] and [char] the program uses

    Everything here models the Rust standard library: ASCII classes, prefix
    and split operations, decimal formatting and parsing, and UTF-8
    ([String::from_utf8], [String::from_utf8_lossy]). *)
From S2P Require Import Prelude.

Open Scope Z_scope.

(** ** ASCII *)

Definition in_range (lo hi : Z) (b : byte) : bool :=
  bool_decide (lo ≤ u8 b ∧ u8 b ≤ hi).

Definition is_ascii_digit : byte → bool := in_range 48 57.
Definition is_ascii_uppercase : byte → bool := in_range 65 90.
Definition is_ascii_lowercase : byte → bool := in_range 97 122.
Definition is_ascii_alphanumeric (b : byte) : bool :=
  is_ascii_digit b || is_ascii_uppercase b || is_ascii_lowercase b.

Definition to_ascii_lowercase (b : byte) : byte :=
  if is_ascii_uppercase b then of_u8 (u8 b + 32) else b.
Definition to_ascii_uppercase (b : byte) : byte :=
  if is_ascii_lowercase b then of_u8 (u8 b - 32) else b.

Definition lowercase (s : bytes) : bytes := to_ascii_lowercase <$> s.

Definition eq_ignore_ascii_case (a b : bytes) : bool :=
  bool_decide (lowercase a = lowercase b).

Lemma eq_ignore_ascii_case_spec a b :
  eq_ignore_ascii_case a b = true ↔ lowercase a = lowercase b.
Proof. apply bool_decide_eq_true. Qed.

(** ** Prefixes, searching and splitting *)

(** [s.strip_prefix(p)] *)
Fixpoint strip_prefix (p s : bytes) : option bytes :=
  match p, s with
  | [], _ => Some s
  | c :: p', d :: s' => if decide (c = d) then strip_prefix p' s' else None
  | _ :: _, [] => None
  end.

Definition starts_with (p s : bytes) : bool :=
  match strip_prefix p s with Some _ => true | None => false end.

Definition ends_with (p s : bytes) : bool :=
  bool_decide (length p ≤ length s)%nat &&
  bool_decide (drop (length s - length p) s = p).

(** [iter().position(p)] on a byte slice *)
Fixpoint position (p : byte → bool) (s : bytes) : option nat :=
  match s with
  | [] => None
  | c :: r => if p c then Some O else S <$> position p r
  end.

(** [s.split_once(c)] for an ASCII character *)
Fixpoint split_once (c : byte) (s : bytes) : option (bytes * bytes) :=
  match s with
  | [] => None
  | d :: r =>
      if decide (d = c) then Some ([], r)
      else '(a, b) ← split_once c r; Some (d :: a, b)
  end.

(** [s.split(c)]: at least one piece, the separators dropped *)
Fixpoint split (c : byte) (s : bytes) : list bytes :=
  match s with
  | [] => [[]]
  | d :: r =>
      if decide (d = c) then [] :: split c r
      else match split c r with
           | p :: ps => (d :: p) :: ps
           | [] => [[d]]
           end
  end.

Lemma strip_prefix_Some p s r : strip_prefix p s = Some r ↔ s = p ++ r.
Proof.
  revert s. induction p as [|c p IH]; intros s; [cbn; split; congruence |].
  destruct s as [|d s]; cbn; [done |].
  destruct (decide (c = d)) as [->|Hne]; [rewrite IH; split; congruence |].
  split; [done | congruence].
Qed.

Lemma starts_with_spec p s : starts_with p s = true ↔ ∃ r, s = p ++ r.
Proof.
  unfold starts_with. destruct (strip_prefix p s) as [r|] eqn:E.
  - split; [|done]. intros _. exists r. by apply strip_prefix_Some.
  - split; [done |]. intros [r Hr]. apply strip_prefix_Some in Hr. congruence.
Qed.

Lemma split_once_app c a b :
  c ∉ a → split_once c (a ++ c :: b) = Some (a, b).
Proof.
  induction a as [|d a IH]; intros Hn; cbn.
  - by rewrite decide_True.
  - apply not_elem_of_cons in Hn as [? ?]. rewrite decide_False by done.
    by rewrite IH.
Qed.

Lemma split_once_Some_inv c s a b :
  split_once c s = Some (a, b) → s = a ++ c :: b ∧ c ∉ a.
Proof.
  revert a. induction s as [|d s IH]; intros a; cbn; [done |].
  destruct (decide (d = c)) as [->|Hne].
  - intros [= <- <-]. split; [done | apply not_elem_of_nil].
  - destruct (split_once c s) as [[a' b']|]; cbn; [|done].
    intros [= <- <-]. destruct (IH a' eq_refl) as [-> Hn].
    split; [done |]. by apply not_elem_of_cons.
Qed.

Lemma split_once_None c s : c ∉ s → split_once c s = None.
Proof.
  induction s as [|d s IH]; cbn; [done |].
  intros [Hd Hs]%not_elem_of_cons. rewrite decide_False by done. by rewrite IH.
Qed.

Lemma split_once_None_inv c s : split_once c s = None → c ∉ s.
Proof.
  induction s as [|b s IH]; cbn; [set_solver |]. case_decide; [done |].
  destruct (split_once c s) as [[]|]; [done |]. set_solver.
Qed.

Lemma split_nonempty c s : split c s ≠ [].
Proof. destruct s; cbn; [done |]. repeat case_match; done. Qed.

Lemma split_clean c s : c ∉ s → split c s = [s].
Proof.
  induction s as [|d s IH]; cbn; [done |].
  intros [Hd Hs]%not_elem_of_cons. rewrite decide_False by done. by rewrite IH.
Qed.

Lemma split_app c a s : c ∉ a → split c (a ++ c :: s) = a :: split c s.
Proof.
  induction a as [|d a IH]; intros Hn; cbn.
  - by rewrite decide_True.
  - apply not_elem_of_cons in Hn as [? ?]. rewrite decide_False by done.
    by rewrite IH.
Qed.

(** No piece contains the separator. *)
Lemma split_pieces c s : Forall (λ p, c ∉ p) (split c s).
Proof.
  induction s as [|d s IH]; cbn; [repeat constructor; apply not_elem_of_nil |].
  destruct (decide (d = c)); [constructor; [apply not_elem_of_nil | done] |].
  destruct (split c s) as [|p ps] eqn:E; [by apply split_nonempty in E |].
  apply Forall_cons in IH as [? ?]. constructor; [|done].
  by apply not_elem_of_cons.
Qed.

Lemma position_Some p s i :
  position p s = Some i →
  ∃ c, s !! i = Some c ∧ p c = true ∧ ∀ j d, (j < i)%nat → s !! j = Some d → p d = false.
Proof.
  revert i. induction s as [|c s IH]; intros i; cbn; [done |].
  destruct (p c) eqn:Hc.
  - intros [= <-]. exists c. split; [done |]. split; [done | lia].
  - destruct (position p s) as [k|]; cbn; [|done]. intros [= <-].
    destruct (IH k eq_refl) as (d & Hd & Hp & Hlt).
    exists d. split; [done |]. split; [done |].
    intros [|j] e Hj; cbn; [congruence |]. apply Hlt. lia.
Qed.

Lemma position_None p s : position p s = None → Forall (λ c, p c = false) s.
Proof.
  induction s as [|c s IH]; cbn; [constructor |].
  destruct (p c) eqn:Hc; [done |].
  destruct (position p s); cbn; [done |]. intros _. constructor; auto.
Qed.

(** ** UTF-8

    [utf8_head] recognises one encoded scalar value at the front of a byte
    string and returns its length, following the table of well-formed
    sequences that [core::str::from_utf8] accepts. *)

Definition cont : byte → bool := in_range 128 191.

Definition utf8_head (s : bytes) : option nat :=
  match s with
  | [] => None
  | a :: r =>
      if in_range 0 127 a then Some 1%nat
      else if in_range 194 223 a then
        match r with
        | b :: _ => if cont b then Some 2%nat else None
        | _ => None
        end
      else if in_range 224 239 a then
        match r with
        | b :: c :: _ =>
            let lo := if decide (u8 a = 224) then 160 else 128 in
            let hi := if decide (u8 a = 237) then 159 else 191 in
            if in_range lo hi b && cont c then Some 3%nat else None
        | _ => None
        end
      else if in_range 240 244 a then
        match r with
        | b :: c :: d :: _ =>
            let lo := if decide (u8 a = 240) then 144 else 128 in
            let hi := if decide (u8 a = 244) then 143 else 191 in
            if in_range lo hi b && cont c && cont d then Some 4%nat else None
        | _ => None
        end
      else None
  end.

(** Validity, with the string's length as fuel: every scalar is at least one
    byte, so the fuel is never short ([utf8_fuel]). *)
Fixpoint utf8_go (fuel : nat) (s : bytes) : bool :=
  match s with
  | [] => true
  | _ =>
      match fuel, utf8_head s with
      | S f, Some n => utf8_go f (drop n s)
      | _, _ => false
      end
  end.

Definition utf8_valid (s : bytes) : bool := utf8_go (length s) s.

(** [String::from_utf8] *)
Definition from_utf8 (s : bytes) : option bytes :=
  if utf8_valid s then Some s else None.

(** The length of the ill-formed prefix [from_utf8_lossy] replaces at once:
    the longest prefix of a well-formed sequence, at least one byte. *)
Definition bad_len (s : bytes) : nat :=
  match s with
  | a :: b :: r =>
      if in_range 224 239 a then
        let lo := if decide (u8 a = 224) then 160 else 128 in
        let hi := if decide (u8 a = 237) then 159 else 191 in
        if in_range lo hi b then 2%nat else 1%nat
      else if in_range 240 244 a then
        let lo := if decide (u8 a = 240) then 144 else 128 in
        let hi := if decide (u8 a = 244) then 143 else 191 in
        if in_range lo hi b then
          match r with
          | c :: _ => if cont c then 3%nat else 2%nat
          | [] => 2%nat
          end
        else 1%nat
      else 1%nat
  | _ => 1%nat
  end.

(** U+FFFD *)
Definition replacement : bytes := [xef; xbf; xbd].

Fixpoint lossy_go (fuel : nat) (s : bytes) : bytes :=
  match fuel, s with
  | _, [] => []
  | O, _ => []
  | S f, _ =>
      match utf8_head s with
      | Some n => take n s ++ lossy_go f (drop n s)
      | None => replacement ++ lossy_go f (drop (bad_len s) s)
      end
  end.

(** [String::from_utf8_lossy] *)
Definition from_utf8_lossy (s : bytes) : bytes := lossy_go (length s) s.

Lemma in_range_true lo hi b : in_range lo hi b = true ↔ lo ≤ u8 b ≤ hi.
Proof. unfold in_range. by rewrite bool_decide_eq_true. Qed.

Lemma utf8_head_bound s n :
  utf8_head s = Some n → (1 ≤ n ≤ 4)%nat ∧ (n ≤ length s)%nat.
Proof.
  unfold utf8_head. intros H. repeat case_match; simplify_eq; cbn; lia.
Qed.

Lemma utf8_head_app s t n : utf8_head s = Some n → utf8_head (s ++ t) = Some n.
Proof.
  intros H. destruct s as [|a [|b [|c [|d s]]]]; cbn [app utf8_head] in *;
    repeat (case_match; try discriminate); simplify_eq; done.
Qed.

Lemma utf8_go_fuel f g s :
  (length s ≤ f)%nat → (length s ≤ g)%nat → utf8_go f s = utf8_go g s.
Proof.
  revert g s. induction f as [|f IH]; intros g s Hf Hg.
  - destruct s; [|cbn in Hf; lia]. by destruct g.
  - destruct s as [|a s]; [by destruct g |].
    destruct g as [|g]; [cbn in Hg; lia |].
    change (match utf8_head (a :: s) with Some n => utf8_go f (drop n (a :: s)) | None => false end
          = match utf8_head (a :: s) with Some n => utf8_go g (drop n (a :: s)) | None => false end).
    destruct (utf8_head (a :: s)) as [n|] eqn:E; [|done].
    apply utf8_head_bound in E. cbn [length] in *.
    apply IH; rewrite length_drop; cbn [length]; lia.
Qed.

Lemma utf8_valid_head s n :
  utf8_head s = Some n → utf8_valid s = utf8_valid (drop n s).
Proof.
  intros H. unfold utf8_valid. destruct s as [|a s]; [done |].
  cbn [length utf8_go]. rewrite H. apply utf8_head_bound in H.
  apply utf8_go_fuel; rewrite length_drop; cbn [length] in *; lia.
Qed.

Lemma utf8_valid_nil : utf8_valid [] = true.
Proof. done. Qed.

(** Induction over a valid string, one scalar value at a time. *)
Lemma utf8_valid_ind (P : bytes → Prop) :
  P [] →
  (∀ s n, utf8_head s = Some n → utf8_valid (drop n s) = true → P (drop n s) → P s) →
  ∀ s, utf8_valid s = true → P s.
Proof.
  intros H0 HS s. remember (length s) as k eqn:Hk.
  revert s Hk. induction k as [k IH] using lt_wf_ind. intros s Hk Hv.
  destruct s as [|a s]; [done |].
  destruct (utf8_head (a :: s)) as [n|] eqn:E.
  - rewrite (utf8_valid_head _ _ E) in Hv. apply (HS _ n E Hv).
    apply utf8_head_bound in E. eapply IH; [|reflexivity|done].
    rewrite length_drop. lia.
  - unfold utf8_valid in Hv. cbn [length utf8_go] in Hv. by rewrite E in Hv.
Qed.

Lemma utf8_valid_app s t :
  utf8_valid s = true → utf8_valid (s ++ t) = utf8_valid t.
Proof.
  intros Hs. pattern s. apply utf8_valid_ind; [done | | done].
  clear. intros s n E _ IH. rewrite (utf8_valid_head _ n).
  - rewrite drop_app_le; [done |]. apply utf8_head_bound in E; lia.
  - by apply utf8_head_app.
Qed.

Lemma utf8_valid_ascii s :
  Forall (λ b, u8 b < 128) s → utf8_valid s = true.
Proof.
  induction 1 as [|b s Hb _ IH]; [done |].
  rewrite (utf8_valid_head _ 1%nat); [done |].
  cbn. rewrite (proj2 (in_range_true 0 127 b)); [done |].
  pose proof (u8_range b). lia.
Qed.

Lemma utf8_valid_cons_ascii b s :
  u8 b < 128 → utf8_valid (b :: s) = utf8_valid s.
Proof.
  intros. change (b :: s) with ([b] ++ s). apply utf8_valid_app.
  apply utf8_valid_ascii. by constructor.
Qed.

(** A byte of a scalar value after its first is not ASCII, so a valid string
    cut at an ASCII character gives two valid strings. *)
Lemma utf8_head_tail s n i x :
  utf8_head s = Some n → (1 ≤ i < n)%nat → s !! i = Some x → 128 ≤ u8 x.
Proof.
  destruct s as [|a [|b [|c [|d s]]]]; cbn [utf8_head]; intros H Hi Hx;
    repeat (case_match; simplify_eq); try done; try lia;
    repeat match goal with
           | H : _ && _ = true |- _ => apply andb_prop in H as [? ?]
           | H : in_range _ _ _ = true |- _ => apply in_range_true in H
           | H : cont _ = true |- _ => apply in_range_true in H
           end;
    (destruct i as [|[|[|[|i]]]]; [lia | ..]; try lia; cbn in Hx; simplify_eq);
    repeat case_decide; lia.
Qed.

Lemma utf8_head_prefix s t n :
  utf8_head (s ++ t) = Some n → (n ≤ length s)%nat → utf8_head s = Some n.
Proof.
  destruct s as [|a [|b [|c [|d s]]]]; cbn [app utf8_head length]; intros H Hn;
    repeat (case_match; simplify_eq); try done; try lia.
  apply utf8_head_bound in H. lia.
Qed.

Lemma utf8_valid_split s b t :
  u8 b < 128 → utf8_valid (s ++ b :: t) = true → utf8_valid s = true ∧ utf8_valid t = true.
Proof.
  intros Hb H. enough (utf8_valid s = true) as Hs.
  { split; [done |]. by rewrite utf8_valid_app, utf8_valid_cons_ascii in H. }
  remember (s ++ b :: t) as w eqn:Ew. revert s Ew.
  pattern w. apply utf8_valid_ind; [by intros [] | | done].
  clear w H. intros w n E _ IH s ->. destruct (utf8_head_bound _ _ E) as [Hn Hl].
  destruct (decide (s = [])) as [->|Hs]; [done |].
  destruct (decide (n ≤ length s)%nat) as [Hle|].
  - rewrite (utf8_valid_head s n) by eauto using utf8_head_prefix.
    apply IH. by rewrite drop_app_le.
  - exfalso. destruct s as [|a s]; [done |].
    enough (128 ≤ u8 b) by lia. apply (utf8_head_tail _ n (length (a :: s)) b E).
    + cbn [length] in *. lia.
    + by apply list_lookup_middle.
Qed.

Lemma lossy_go_fuel f s :
  utf8_valid s = true → (length s ≤ f)%nat → lossy_go f s = s.
Proof.
  intros Hs. revert f. pattern s. apply utf8_valid_ind; [by intros [] | | done].
  clear. intros s n E _ IH f Hf. pose proof (utf8_head_bound _ _ E) as [? ?].
  destruct f as [|f]; [lia |].
  destruct s as [|a s]; [done |]. cbn [lossy_go]. rewrite E, IH.
  - apply take_drop.
  - rewrite length_drop. lia.
Qed.

(** Lossy decoding changes nothing that is already text. *)
Lemma from_utf8_lossy_valid s : utf8_valid s = true → from_utf8_lossy s = s.
Proof. intros. by apply lossy_go_fuel. Qed.

Lemma from_utf8_Some s t : from_utf8 s = Some t ↔ s = t ∧ utf8_valid s = true.
Proof. unfold from_utf8. destruct (utf8_valid s); naive_solver. Qed.

(** ** Decimal integers *)

Fixpoint digits_go (fuel : nat) (n : Z) (acc : bytes) : bytes :=
  match fuel with
  | O => acc
  | S f => if bool_decide (0 < n) then digits_go f (n / 10) (of_u8 (48 + n mod 10) :: acc)
           else acc
  end.

(** [n.to_string()] for a [u64]; twenty digits hold any of them. *)
Definition fmt_u64 (n : Z) : bytes :=
  if bool_decide (n = 0) then str "0" else digits_go 20 n [].

Fixpoint parse_digits (max acc : Z) (s : bytes) : option Z :=
  match s with
  | [] => Some acc
  | c :: r =>
      if is_ascii_digit c then
        let v := acc * 10 + (u8 c - 48) in
        if bool_decide (v ≤ max) then parse_digits max v r else None
      else None
  end.

(** [s.parse::<uN>()], where [max] is the type's largest value: one optional
    leading plus sign, then digits, at least one, with overflow an error. *)
Definition parse_uint (max : Z) (s : bytes) : option Z :=
  match s with
  | [] => None
  | c :: r =>
      if decide (c = "+"%byte) then
        match r with [] => None | _ => parse_digits max 0 r end
      else parse_digits max 0 s
  end.

Lemma digit_of_u8 d : 0 ≤ d < 10 → u8 (of_u8 (48 + d)) = 48 + d.
Proof. intros. apply u8_of_u8_small. lia. Qed.

Lemma is_ascii_digit_of d : 0 ≤ d < 10 → is_ascii_digit (of_u8 (48 + d)) = true.
Proof. intros. apply in_range_true. rewrite digit_of_u8; lia. Qed.

Lemma parse_digits_go max fuel n acc :
  0 ≤ n ≤ max → n < 10 ^ Z.of_nat fuel →
  parse_digits max 0 (digits_go fuel n acc) = parse_digits max n acc.
Proof.
  revert n acc. induction fuel as [|f IH]; intros n acc Hn Hlt; cbn [digits_go].
  - replace n with 0 by (cbn in Hlt; lia). done.
  - case_bool_decide; [|by replace n with 0 by lia].
    rewrite Nat2Z.inj_succ, Z.pow_succ_r in Hlt by lia.
    pose proof (Z.mod_pos_bound n 10). pose proof (Z.div_mod n 10).
    rewrite IH by (split || idtac; try apply Z.div_lt_upper_bound; lia).
    cbn [parse_digits]. rewrite is_ascii_digit_of, digit_of_u8 by lia.
    replace (n / 10 * 10 + (48 + n mod 10 - 48)) with n by lia.
    by rewrite bool_decide_eq_true_2 by lia.
Qed.

Lemma digits_go_digits fuel n acc :
  0 ≤ n → Forall (λ c, is_ascii_digit c = true) acc →
  Forall (λ c, is_ascii_digit c = true) (digits_go fuel n acc).
Proof.
  revert n acc. induction fuel as [|f IH]; intros n acc Hn Hacc; cbn; [done |].
  case_bool_decide; [|done]. pose proof (Z.mod_pos_bound n 10).
  apply IH; [apply Z.div_pos; lia |].
  constructor; [apply is_ascii_digit_of; lia | done].
Qed.

Lemma digits_go_length fuel n acc : (length acc ≤ length (digits_go fuel n acc))%nat.
Proof.
  revert n acc. induction fuel as [|f IH]; intros n acc; cbn; [lia |].
  case_bool_decide; [|lia]. etrans; [|apply IH]. cbn. lia.
Qed.

Lemma digits_go_nonempty f n : 0 < n → digits_go (S f) n [] ≠ [].
Proof.
  intros Hn E. cbn [digits_go] in E. rewrite bool_decide_eq_true_2 in E by lia.
  pose proof (digits_go_length f (n / 10) [of_u8 (48 + n mod 10)]) as Hl.
  rewrite E in Hl. cbn in Hl. lia.
Qed.

Lemma fmt_u64_digits n :
  0 ≤ n → Forall (λ c, is_ascii_digit c = true) (fmt_u64 n) ∧ fmt_u64 n ≠ [].
Proof.
  intros Hn. unfold fmt_u64. case_bool_decide as Hz; [by repeat constructor |].
  split; [apply digits_go_digits; [lia | constructor] |].
  apply (digits_go_nonempty 19). lia.
Qed.

Lemma parse_uint_digits max s :
  Forall (λ c, is_ascii_digit c = true) s → s ≠ [] →
  parse_uint max s = parse_digits max 0 s.
Proof.
  intros Hd Hne. destruct s as [|c r]; [done |]. cbn [parse_uint].
  apply Forall_cons in Hd as [Hc _].
  rewrite decide_False; [done |]. intros ->. by vm_compute in Hc.
Qed.

(** Formatting and parsing are inverse. *)
Lemma parse_fmt_u64 max n :
  0 ≤ n ≤ max → n < 2 ^ 64 → parse_uint max (fmt_u64 n) = Some n.
Proof.
  intros Hn Hlt. destruct (fmt_u64_digits n) as [Hd Hne]; [lia |].
  rewrite parse_uint_digits by done. unfold fmt_u64.
  case_bool_decide as Hz.
  - subst. cbn. by rewrite bool_decide_eq_true_2 by lia.
  - rewrite parse_digits_go; [done | lia |].
    transitivity (2 ^ 64); [lia | reflexivity].
Qed.

(** What [parse] returns is in range. *)
Lemma parse_digits_range max a s v :
  0 ≤ a ≤ max → parse_digits max a s = Some v → 0 ≤ v ≤ max.
Proof.
  revert a. induction s as [|c s IH]; intros a Ha; cbn; [intros; simplify_eq; lia |].
  destruct (is_ascii_digit c) eqn:Hc; [|done].
  apply in_range_true in Hc. case_bool_decide; [|done]. apply IH. lia.
Qed.

Lemma parse_uint_range max s v : 0 ≤ max → parse_uint max s = Some v → 0 ≤ v ≤ max.
Proof.
  intros Hm H. destruct s as [|c r]; [done |]. cbn [parse_uint] in H.
  repeat case_match; try done;
    (eapply parse_digits_range; [|exact H]); lia.
Qed.

(** ** Trimming

    [s.trim()] removes [White_Space] characters of Unicode, which are one to
    three bytes long in UTF-8. *)

Definition white_space : list bytes :=
  ((λ n, [of_u8 n]) <$> [9; 10; 11; 12; 13; 32]) ++
  [[xc2; x85]; [xc2; xa0]; [xe1; x9a; x80]; [xe2; x80; xa8]; [xe2; x80; xa9]; [xe2; x80; xaf];
   [xe2; x81; x9f]; [xe3; x80; x80]] ++
  ((λ n, [xe2; x80; of_u8 (128 + Z.of_nat n)]) <$> seq 0 11).

(** Removes one white-space character at the front. *)
Definition trim_one (ws : list bytes) (s : bytes) : option bytes :=
  head (omap (λ w, strip_prefix w s) ws).

Fixpoint trim_go (fuel : nat) (ws : list bytes) (s : bytes) : bytes :=
  match fuel with
  | O => s
  | S f => match trim_one ws s with Some r => trim_go f ws r | None => s end
  end.

Definition trim_start (s : bytes) : bytes := trim_go (length s) white_space s.
Definition trim_end (s : bytes) : bytes :=
  reverse (trim_go (length s) (reverse <$> white_space) (reverse s)).
Definition trim (s : bytes) : bytes := trim_end (trim_start s).

(** [s.rfind(c)] for an ASCII character, as a byte index *)
Definition rfind (c : byte) (s : bytes) : option nat :=
  (λ i, length s - 1 - i)%nat <$> position (λ b, bool_decide (b = c)) (reverse s).

Definition find (c : byte) (s : bytes) : option nat := position (λ b, bool_decide (b = c)) s.

(** Printable ASCII has nothing to trim. *)
Definition graphic (c : byte) : Prop := 33 ≤ u8 c ≤ 126.

Lemma white_space_heads :
  forallb (λ w, match w with c :: _ => negb (in_range 33 126 c) | [] => false end)
    (white_space ++ (reverse <$> white_space)) = true.
Proof. by vm_compute. Qed.

Lemma trim_one_graphic ws c s :
  (∀ w, w ∈ ws → w ∈ white_space ++ (reverse <$> white_space)) → graphic c → trim_one ws (c :: s) = None.
Proof.
  intros Hws Hc. unfold trim_one. pose proof white_space_heads as H. rewrite forallb_forall in H.
  assert (omap (λ w, strip_prefix w (c :: s)) ws = []) as ->; [|done].
  induction ws as [|w ws IH]; [done |]. cbn [omap list_omap].
  assert (strip_prefix w (c :: s) = None) as ->.
  { specialize (H w ltac:(apply list_elem_of_In, Hws; set_solver)).
    destruct w as [|d w]; [done |]. cbn [strip_prefix]. rewrite decide_False; [done |]. intros ->.
    unfold graphic in Hc. apply negb_true_iff in H. assert (in_range 33 126 c = true) by (by apply in_range_true).
    congruence. }
  apply IH. intros w' Hw'. apply Hws. set_solver.
Qed.

Lemma trim_go_graphic fuel ws c s :
  (∀ w, w ∈ ws → w ∈ white_space ++ (reverse <$> white_space)) → graphic c →
  trim_go fuel ws (c :: s) = c :: s.
Proof. intros. destruct fuel; [done |]. cbn [trim_go]. by rewrite trim_one_graphic. Qed.

Lemma trim_start_graphic s : Forall graphic s → trim_start s = s.
Proof.
  unfold trim_start. intros [|c r Hc _]; [done |].
  apply trim_go_graphic; [intros; apply elem_of_app; by left | done].
Qed.

(** A leading space goes. *)
Lemma trim_start_space s : trim_start (str " " ++ s) = trim_start s.
Proof. reflexivity. Qed.

Lemma trim_graphic s : Forall graphic s → trim s = s.
Proof.
  intros Hs. pose proof (trim_start_graphic s Hs) as E.
  unfold trim. rewrite E. unfold trim_end.
  assert (trim_go (length s) (reverse <$> white_space) (reverse s) = reverse s) as ->.
  { assert (Forall graphic (reverse s)) as Hr by by apply Forall_reverse.
    destruct Hr as [|c r Hc _]; [by destruct (length s) |].
    apply trim_go_graphic; [intros; apply elem_of_app; by right | done]. }
  apply reverse_involutive.
Qed.

Lemma digits_graphic s : Forall (λ c, is_ascii_digit c = true) s → Forall graphic s.
Proof.
  intros H. eapply Forall_impl; [exact H |]. intros c Hc%in_range_true. unfold graphic. lia.
Qed.

(** ** Patterns of several bytes: [s.split_once(p)], [s.split(p)] *)

Fixpoint split_once_str (p s : bytes) : option (bytes * bytes) :=
  match strip_prefix p s with
  | Some r => Some ([], r)
  | None =>
      match s with
      | [] => None
      | c :: s => '(a, b) ← split_once_str p s; Some (c :: a, b)
      end
  end.

(** Each piece takes the pattern away, so the length is enough fuel for a
    pattern that is not empty. *)
Fixpoint split_str_go (fuel : nat) (p s : bytes) : list bytes :=
  match split_once_str p s, fuel with
  | Some (a, b), S fuel => a :: split_str_go fuel p b
  | _, _ => [s]
  end.

Definition split_str (p s : bytes) : list bytes := split_str_go (length s) p s.

Lemma split_once_str_app c p a b :
  c ∉ a → split_once_str (c :: p) (a ++ c :: p ++ b) = Some (a, b).
Proof.
  intros Ha. induction a as [|d a IH].
  - cbn [app split_once_str]. by rewrite (proj2 (strip_prefix_Some (c :: p) _ b)).
  - cbn [app split_once_str]. destruct (strip_prefix _ _) as [r|] eqn:E.
    + apply strip_prefix_Some in E. set_solver.
    + rewrite IH by set_solver. done.
Qed.

Lemma split_once_str_None c p s : c ∉ s → split_once_str (c :: p) s = None.
Proof.
  intros Hs. induction s as [|d s IH]; [done |]. cbn [split_once_str].
  destruct (strip_prefix _ _) as [r|] eqn:E; [apply strip_prefix_Some in E; set_solver |].
  rewrite IH by set_solver. done.
Qed.

Lemma split_once_str_Some p s a b : split_once_str p s = Some (a, b) → s = a ++ p ++ b.
Proof.
  revert a. induction s as [|c s IH]; intros a; cbn [split_once_str].
  - destruct (strip_prefix p []) as [r|] eqn:E; [|done]. intros [= <- <-].
    by apply strip_prefix_Some in E.
  - destruct (strip_prefix p (c :: s)) as [r|] eqn:E.
    + intros [= <- <-]. by apply strip_prefix_Some in E.
    + destruct (split_once_str p s) as [[a' b']|]; [|done]. intros [= <- <-].
      cbn. f_equal. by apply IH.
Qed.

Lemma split_str_go_fuel p s f g :
  p ≠ [] → (length s <= f)%nat → (length s <= g)%nat → split_str_go f p s = split_str_go g p s.
Proof.
  intros Hp. revert g s. induction f as [|f IH]; intros g s Hf Hg.
  - destruct s; [|cbn in Hf; lia]. destruct p, g; done.
  - cbn [split_str_go]. destruct (split_once_str p s) as [[a b]|] eqn:E.
    + apply split_once_str_Some in E as Es. subst s. rewrite !length_app in Hf, Hg.
      destruct g as [|g]; [destruct p; [done | cbn in Hg; lia] |].
      cbn [split_str_go]. rewrite E. f_equal. destruct p; [done |]. cbn in Hf, Hg. apply IH; lia.
    + destruct g; cbn [split_str_go]; by rewrite E.
Qed.

Lemma split_str_app c p a s :
  c ∉ a → split_str (c :: p) (a ++ c :: p ++ s) = a :: split_str (c :: p) s.
Proof.
  intros Ha. unfold split_str. rewrite length_app. cbn [length]. rewrite length_app, Nat.add_succ_r.
  cbn [split_str_go]. rewrite split_once_str_app by done. f_equal.
  apply split_str_go_fuel; [done | lia | lia].
Qed.

(** ** The last occurrence *)

Lemma position_first c a b : c ∉ a → position (λ d, bool_decide (d = c)) (a ++ c :: b) = Some (length a).
Proof.
  induction a as [|x a IH]; cbn; [by rewrite bool_decide_true |].
  intros [Hx Ha]%not_elem_of_cons. rewrite bool_decide_false by done. by rewrite IH.
Qed.

Lemma position_absent c a : c ∉ a → position (λ d, bool_decide (d = c)) a = None.
Proof.
  induction a as [|x a IH]; cbn; [done |].
  intros [Hx Ha]%not_elem_of_cons. rewrite bool_decide_false by done. by rewrite IH.
Qed.

Lemma rfind_last c a b : c ∉ b → rfind c (a ++ c :: b) = Some (length a).
Proof.
  intros Hb. unfold rfind. rewrite reverse_app, reverse_cons, <-(assoc_L (++)). cbn [app].
  rewrite position_first by (by rewrite elem_of_reverse). cbn. f_equal.
  rewrite length_app, length_reverse. cbn. lia.
Qed.

Lemma rfind_absent c a : c ∉ a → rfind c a = None.
Proof. intros Ha. unfold rfind. by rewrite position_absent by (by rewrite elem_of_reverse). Qed.
