(* ===== verification/Wire.v ===== *)
(** * Wire formats: what a framing layer promises to the layer above

    HTTP/2 frames, HTTP/3 frame headers and FastCGI records are written one
    after the other onto a byte stream, and a reader that knows nothing of how
    the stream was cut takes them off again.  [WireFormat] is what that needs of
    one kind of message; each framing file gives its instance, and a
    component that writes a stream of messages is proved against the class. *)
From S2P Require Import Prelude.

(** A message's encoding, and a decoder for the front of a buffer that says
    how many bytes it took; [None] is "not yet, or not a message". *)
Class WireFormat (A : Type) := {
  wf_valid : A → Prop;
  wf_encode : A → bytes;
  wf_decode : bytes → option (A * nat);
  wf_takes buf x n : wf_decode buf = Some (x, n) → (0 < n <= length buf)%nat;
  wf_stable buf more x n : wf_decode buf = Some (x, n) → wf_decode (buf ++ more) = Some (x, n);
  wf_roundtrip x : wf_valid x → wf_decode (wf_encode x) = Some (x, length (wf_encode x))
}.

Section stream.
Context {A : Type} `{WireFormat A}.

(** The reader's loop: messages until the front of the buffer is none. A
    message takes a byte at least, so the buffer's length is enough fuel. *)
Fixpoint take_messages (fuel : nat) (buf : bytes) : list A * bytes :=
  match fuel with
  | O => ([], buf)
  | S fuel =>
      match wf_decode buf with
      | Some (x, n) => let '(l, rest) := take_messages fuel (drop n buf) in (x :: l, rest)
      | None => ([], buf)
      end
  end.

Definition messages (buf : bytes) : list A * bytes := take_messages (S (length buf)) buf.

(** A connection's reader: what arrives is appended to what is left over. *)
Definition arrive (chunk : bytes) (st : list A * bytes) : list A * bytes :=
  let '(l, rest) := messages (snd st ++ chunk) in (fst st ++ l, rest).

Definition stream_of (l : list A) : bytes := mjoin (wf_encode <$> l).

Lemma take_messages_fuel fuel more buf :
  (length buf < fuel)%nat → take_messages (fuel + more) buf = take_messages fuel buf.
Proof.
  revert buf. induction fuel as [|fuel IH]; intros buf Hf; [lia |].
  cbn [take_messages Nat.add]. destruct (wf_decode buf) as [[x n]|] eqn:E; [|done].
  apply wf_takes in E as Hn. by rewrite IH by len_lia.
Qed.

Lemma take_messages_enough fuel buf :
  (length buf < fuel)%nat → take_messages fuel buf = messages buf.
Proof.
  intros. replace fuel with (S (length buf) + (fuel - S (length buf)))%nat by lia.
  apply take_messages_fuel. lia.
Qed.

Lemma messages_eq buf :
  messages buf =
  match wf_decode buf with
  | Some (x, n) => let '(l, rest) := messages (drop n buf) in (x :: l, rest)
  | None => ([], buf)
  end.
Proof.
  unfold messages at 1. cbn [take_messages]. destruct (wf_decode buf) as [[x n]|] eqn:E; [|done].
  apply wf_takes in E as Hn. by rewrite take_messages_enough by len_lia.
Qed.

Lemma decode_encode x rest :
  wf_valid x → wf_decode (wf_encode x ++ rest) = Some (x, length (wf_encode x)).
Proof. intros. by apply wf_stable, wf_roundtrip. Qed.

(** What was written is what is read, and what follows is left over. *)
Lemma messages_stream l rest :
  Forall wf_valid l →
  messages (stream_of l ++ rest) = (l ++ fst (messages rest), snd (messages rest)).
Proof.
  intros Hl. induction Hl as [|x l Hx _ IH]; [change (stream_of [] ++ rest) with rest; by destruct (messages rest) |].
  unfold stream_of in *. rewrite fmap_cons_eq, join_cons, <-app_assoc, messages_eq.
  rewrite decode_encode, drop_app_length by done. by rewrite IH.
Qed.

(** The reader is indifferent to how the stream was cut. *)
Lemma messages_app buf more :
  messages (buf ++ more) =
  (fst (messages buf) ++ fst (messages (snd (messages buf) ++ more)),
   snd (messages (snd (messages buf) ++ more))).
Proof.
  remember (length buf) as k eqn:Hk. revert buf Hk.
  induction (lt_wf k) as [k _ IH]. intros buf ->.
  rewrite (messages_eq buf). destruct (wf_decode buf) as [[x n]|] eqn:E.
  - rewrite messages_eq, (wf_stable _ more _ _ E). apply wf_takes in E as Hn.
    specialize (IH (length (drop n buf)) ltac:(len_lia) (drop n buf) eq_refl).
    rewrite drop_app_le, IH by lia.
    by destruct (messages (drop n buf)).
  - cbn [fst snd app]. by destruct (messages (buf ++ more)).
Qed.

Lemma arrive_all chunks l rest :
  messages rest = ([], rest) →
  foldl (λ st c, arrive c st) (l, rest) chunks =
  (l ++ fst (messages (rest ++ mjoin chunks)), snd (messages (rest ++ mjoin chunks))).
Proof.
  revert l rest. induction chunks as [|c chunks IH]; intros l rest Hq.
  - cbn [foldl]. change (mjoin []) with (@nil byte). by rewrite app_nil_r, Hq, app_nil_r.
  - rewrite join_cons, app_assoc. cbn [foldl]. unfold arrive at 2. cbn [fst snd].
    pose proof (messages_app (rest ++ c) []) as Hrest. rewrite app_nil_r in Hrest.
    destruct (messages (rest ++ c)) as [l1 r1] eqn:E. cbn [fst snd] in Hrest.
    rewrite app_nil_r in Hrest.
    assert (messages r1 = ([], r1)) as Hr1.
    { destruct (messages r1) as [l2 r2]. cbn in Hrest. injection Hrest as H1 H2.
      f_equal; [|done]. by apply (app_inv_head l1); rewrite app_nil_r. }
    rewrite IH by done. rewrite (messages_app (rest ++ c)), E. cbn [fst snd].
    by rewrite app_assoc.
Qed.

(** So valid messages, cut anywhere, are all read and nothing is left. *)
Lemma reassemble l chunks :
  Forall wf_valid l → mjoin chunks = stream_of l →
  foldl (λ st c, arrive c st) ([], []) chunks = (l, []).
Proof.
  intros Hl Hc. assert (messages [] = ([], @nil byte)) as Hnil.
  { rewrite messages_eq. destruct (wf_decode []) as [[x n]|] eqn:E; [|done].
    apply wf_takes in E. cbn in E. lia. }
  rewrite arrive_all by done. cbn [app]. change ([] ++ mjoin chunks) with (mjoin chunks).
  rewrite Hc, <-(app_nil_r (stream_of l)), messages_stream, Hnil by done. cbn. by rewrite app_nil_r.
Qed.

(** Two streams of valid messages are equal only if the messages are. *)
Lemma stream_of_inj l k :
  Forall wf_valid l → Forall wf_valid k → stream_of l = stream_of k → l = k.
Proof.
  intros Hl Hk Heq. pose proof (messages_stream l [] Hl) as H1.
  pose proof (messages_stream k [] Hk) as H2. rewrite Heq, H2 in H1.
  by apply (f_equal fst) in H1; apply app_inv_tail in H1.
Qed.

Lemma stream_app l k : stream_of (l ++ k) = stream_of l ++ stream_of k.
Proof. unfold stream_of. by rewrite fmap_app, join_app. Qed.
End stream.
