(* ===== verification/Sort.v ===== *)
(** * Stable sorting: [sort_by], [sort_by_key]

    Rust's slice sorts, by insertion: the order decides, and equal elements
    keep the order they had. *)
From Stdlib Require Import Sorting.Sorted.
From S2P Require Import Prelude.

Section sort.
Context {A : Type} (le : A → A → bool).

Fixpoint insert_by (x : A) (l : list A) : list A :=
  match l with
  | [] => [x]
  | y :: l' => if le x y then x :: l else y :: insert_by x l'
  end.

Definition sort_by (l : list A) : list A := foldr insert_by [] l.

(** Every element is at most those behind it. *)
Definition sorted_by : list A → Prop := StronglySorted (λ x y, le x y = true).

Lemma insert_by_elem x l y : y ∈ insert_by x l ↔ y = x ∨ y ∈ l.
Proof.
  induction l as [|z l IH]; cbn [insert_by]; [set_solver |]. destruct (le x z); set_solver.
Qed.

Lemma insert_by_perm x l : insert_by x l ≡ₚ x :: l.
Proof.
  induction l as [|y l IH]; cbn [insert_by]; [done |]. destruct (le x y); [done |].
  rewrite IH. constructor.
Qed.

Lemma sort_by_perm l : sort_by l ≡ₚ l.
Proof.
  induction l as [|x l IH]; cbn [sort_by foldr]; [done |]. rewrite insert_by_perm.
  fold (sort_by l). by rewrite IH.
Qed.

Lemma sort_by_elem l y : y ∈ sort_by l ↔ y ∈ l.
Proof. by rewrite sort_by_perm. Qed.

Lemma sort_by_sorted l :
  (∀ a b, le a b = true ∨ le b a = true) → (∀ a b c, le a b = true → le b c = true → le a c = true) →
  sorted_by (sort_by l).
Proof.
  intros Htot Htr. induction l as [|x l IH]; cbn [sort_by foldr]; [constructor |].
  fold (sort_by l). induction IH as [|y s Hs IH Hy]; cbn [insert_by]; [repeat constructor |].
  destruct (le x y) eqn:Exy.
  - constructor; [by constructor |]. constructor; [done |].
    eapply Forall_impl; [exact Hy |]. cbn. eauto.
  - constructor; [done |]. apply Forall_forall. intros z [-> | Hz]%insert_by_elem.
    + destruct (Htot x y); congruence.
    + rewrite Forall_forall in Hy. auto.
Qed.

(** Of a sorted list, what is in front is at most what is behind. *)
Lemma sorted_by_app l k a b :
  sorted_by (l ++ k) → a ∈ l → b ∈ k → le a b = true.
Proof.
  induction l as [|x l IH]; cbn; intros Hs Ha Hb; [by apply not_elem_of_nil in Ha |].
  apply StronglySorted_inv in Hs as [Hs' Hx]. apply elem_of_cons in Ha as [-> | Ha]; [|by apply IH].
  rewrite Forall_forall in Hx. apply Hx. set_solver.
Qed.
End sort.

Arguments sorted_by {A} le l.

(** [sort_by_key] of an integer key *)
Definition by_key {A} (key : A → Z) (a b : A) : bool := bool_decide (key a ≤ key b)%Z.

Definition sort_by_key {A} (key : A → Z) (l : list A) : list A := sort_by (by_key key) l.

Lemma sort_by_key_sorted {A} (key : A → Z) l : sorted_by (by_key key) (sort_by_key key l).
Proof.
  apply sort_by_sorted; unfold by_key.
  - intros a b. rewrite !bool_decide_eq_true. lia.
  - intros a b c. rewrite !bool_decide_eq_true. lia.
Qed.
