(* ===== verification/Uri.v ===== *)
(** * [src/http/uri.rs]: URI decoding and path normalisation

    The code's [normalize] walks the path with an index and keeps the output
    bytes and the offsets at which segments start; here the index is the
    suffix [b[i..]] still to be read and the offset vector is a list with its
    top first.  [spec_normalize] is the specification: split, decode each
    segment, resolve the dot segments over a stack, join. *)
From S2P Require Import Prelude.
From S2P Require Import Text.

Open Scope Z_scope.

(** ** The code *)

(** Splits a request target into (path, query). *)
Definition split_query (target : bytes) : bytes * bytes :=
  match position (λ b, bool_decide (b = "?"%byte)) target with
  | Some i => (take i target, drop (i + 1) target)
  | None => (target, [])
  end.

Inductive UriError := Invalid | NotAbsolute.

#[export] Instance UriError_eq_dec : EqDecision UriError.
Proof. solve_decision. Defined.

Definition hex (c : byte) : option Z :=
  if in_range 48 57 c then Some (u8 c - 48)
  else if in_range 97 102 c then Some (u8 c - 97 + 10)
  else if in_range 65 70 c then Some (u8 c - 65 + 10)
  else None.

(** The [while] loop of [normalize]: collects one segment, decoding as it
    goes; [seg] is what has been pushed so far. *)
Fixpoint collect (b seg : bytes) : result UriError (bytes * bytes) :=
  match b with
  | [] => Ok (seg, [])
  | c :: r =>
      if decide (c = "/"%byte) then Ok (seg, b)
      else if decide (c = "%"%byte) then
        match r with
        | h :: l :: r' =>
            h ← ok_or Invalid (hex h);
            l ← ok_or Invalid (hex l);
            let d := of_u8 (Z.lor (Z.shiftl h 4) l) in
            if decide (d = x00 ∨ d = "/"%byte) then Err Invalid
            else collect r' (seg ++ [d])
        | _ => Err Invalid
        end
      else if decide (c = x00) then Err Invalid
      else collect r (seg ++ [c])
  end.

(** The effect of one collected segment on [(out, starts)]. *)
Definition apply_seg (seg out : bytes) (starts : list nat) :
    result UriError (bytes * list nat) :=
  if decide (seg = [] ∨ seg = str ".") then Ok (out, starts)
  else if decide (seg = str "..") then
    match starts with
    | [] => Err Invalid
    | last :: rest => Ok (take last out, rest)
    end
  else Ok (out ++ seg ++ str "/", length out :: starts).

(** The outer [loop]. Every turn but the last consumes a slash, so the
    length of the path is enough fuel ([norm_loop_spec]). *)
Fixpoint norm_loop (fuel : nat) (b out : bytes) (starts : list nat) :
    result UriError bytes :=
  '(seg, b) ← collect b [];
  '(out, starts) ← apply_seg seg out starts;
  match b, fuel with
  | [], _ => Ok out
  | _ :: b, S fuel => norm_loop fuel b out starts
  | _ :: _, O => Err Invalid
  end.

Definition slow_normalize (b : bytes) : result UriError bytes :=
  let trailing_slash :=
    bool_decide (1 < length b)%nat && bool_decide (last b = Some "/"%byte) in
  out ← norm_loop (length b) (drop 1 b) (str "/") [];
  let out := if negb trailing_slash && bool_decide (1 < length out)%nat
             then take (length out - 1) out else out in
  ok_or Invalid (from_utf8 out).

(** The scan of [is_already_normal]; [prev] is [b[i - 1]]. *)
Fixpoint normal_from (prev : byte) (b : bytes) : bool :=
  match b with
  | [] => true
  | c :: r =>
      if decide (c = "%"%byte) then false
      else if decide (c = "/"%byte ∧ prev = "/"%byte) then false
      else if decide (c = "."%byte ∧ prev = "/"%byte) then false
      else if decide (c = x00) then false
      else normal_from c r
  end.

Definition is_already_normal (b : bytes) : bool :=
  match b with
  | [] => true
  | c :: r => normal_from c r
  end.

Definition normalize (path : bytes) : result UriError bytes :=
  if negb (starts_with (str "/") path) then Err NotAbsolute
  else if is_already_normal path then Ok path
  else slow_normalize path.

Definition HEX : bytes := str "0123456789ABCDEF".

Definition is_path_safe (c : byte) : bool :=
  is_ascii_alphanumeric c || bool_decide (c ∈ str "-_.~/@:+$,;=").

(** Percent-encodes a path for a [Location] header or a listing's link. *)
Fixpoint encode_path (s : bytes) : bytes :=
  match s with
  | [] => []
  | c :: r =>
      (if is_path_safe c then [c]
       else ["%"%byte; nth (Z.to_nat (Z.shiftr (u8 c) 4)) HEX x00;
             nth (Z.to_nat (Z.land (u8 c) 15)) HEX x00])
      ++ encode_path r
  end.

(** Escapes text for HTML.  The escaped characters are ASCII, so escaping
    the encoded bytes is escaping the characters. *)
Fixpoint escape_html (s : bytes) : bytes :=
  match s with
  | [] => []
  | c :: r =>
      (if decide (c = "&"%byte) then str "&amp;"
       else if decide (c = "<"%byte) then str "&lt;"
       else if decide (c = ">"%byte) then str "&gt;"
       else if decide (c = x22) then str "&quot;"
       else if decide (c = x27) then str "&#39;"
       else [c]) ++ escape_html r
  end.

Definition query_pair (pair : bytes) : bytes * bytes :=
  match split_once "="%byte pair with Some kv => kv | None => (pair, []) end.

(** Finds a named parameter in a query string. *)
Definition query_param (query name : bytes) : option bytes :=
  (λ p : nat * bytes, snd (query_pair (snd p))) <$>
    list_find (λ p : bytes, fst (query_pair p) = name) (split "&"%byte query).

(** ** Specification *)

(** Percent-decoding, whatever the bytes mean. *)
Fixpoint pct_decode (s : bytes) : option bytes :=
  match s with
  | [] => Some []
  | c :: r =>
      if decide (c = "%"%byte) then
        match r with
        | h :: l :: r' =>
            h ← hex h; l ← hex l; d ← pct_decode r'; Some (of_u8 (h * 16 + l) :: d)
        | _ => None
        end
      else d ← pct_decode r; Some (c :: d)
  end.

(** A segment decodes to text with neither a separator nor a NUL. *)
Definition segment (s : bytes) : result UriError bytes :=
  match pct_decode s with
  | Some d => if decide (x00 ∈ d ∨ "/"%byte ∈ d) then Err Invalid else Ok d
  | None => Err Invalid
  end.

(** Dot segments over a stack of segments, top first. *)
Definition resolve (d : bytes) (stk : list bytes) : result UriError (list bytes) :=
  if decide (d = [] ∨ d = str ".") then Ok stk
  else if decide (d = str "..") then
    match stk with [] => Err Invalid | _ :: stk => Ok stk end
  else Ok (d :: stk).

Fixpoint walk (ps stk : list bytes) : result UriError (list bytes) :=
  match ps with
  | [] => Ok stk
  | p :: ps => d ← segment p; stk ← resolve d stk; walk ps stk
  end.

(** The text of a stack, each segment followed by a slash. *)
Fixpoint render (stk : list bytes) : bytes :=
  match stk with
  | [] => str "/"
  | s :: stk => render stk ++ s ++ str "/"
  end.

Definition finish (trailing : bool) (out : bytes) : bytes :=
  if negb trailing && bool_decide (1 < length out)%nat
  then take (length out - 1) out else out.

Definition ends_in_slash (b : bytes) : bool :=
  bool_decide (1 < length b)%nat && bool_decide (last b = Some "/"%byte).

Definition spec_normalize (b : bytes) : result UriError bytes :=
  stk ← walk (split "/"%byte (drop 1 b)) [];
  ok_or Invalid (from_utf8 (finish (ends_in_slash b) (render stk))).

(** A segment of a normal path, and the normal paths. *)
Definition safe_seg (s : bytes) : Prop :=
  s ≠ [] ∧ s ≠ str "." ∧ s ≠ str ".." ∧ "/"%byte ∉ s ∧ x00 ∉ s.

Definition join (segs : list bytes) (trailing : bool) : bytes :=
  finish trailing (render (reverse segs)).

Definition safe_path (b : bytes) : Prop :=
  ∃ segs trailing, Forall safe_seg segs ∧ b = join segs trailing.

(** ** The walk implements the specification *)

Fixpoint offsets (stk : list bytes) : list nat :=
  match stk with
  | [] => []
  | _ :: stk => length (render stk) :: offsets stk
  end.

Lemma hex_range c h : hex c = Some h → 0 ≤ h < 16.
Proof.
  unfold hex. intros H. repeat case_match; simplify_eq;
    repeat match goal with H : in_range _ _ _ = true |- _ => apply in_range_true in H end; lia.
Qed.

Lemma hex_pair h l : 0 ≤ h < 16 → 0 ≤ l < 16 → Z.lor (Z.shiftl h 4) l = h * 16 + l.
Proof. intros. rewrite Z.shiftl_mul_pow2 by lia. apply (lor_disjoint h l 4); lia. Qed.

(** What [segment] does at its first decoded byte. *)
Definition seg_cons (d : byte) (r : bytes) : result UriError bytes :=
  if decide (d = x00 ∨ d = "/"%byte) then Err Invalid else (cons d <$> segment r).

Lemma segment_nil : segment [] = Ok [].
Proof. reflexivity. Qed.

Lemma seg_cons_spec d r :
  match (ds ← pct_decode r; Some (d :: ds)) with
  | Some d => if decide (x00 ∈ d ∨ "/"%byte ∈ d) then Err Invalid else Ok d
  | None => Err Invalid
  end = seg_cons d r.
Proof.
  unfold seg_cons, segment. destruct (pct_decode r) as [ds|]; cbn.
  - pose proof (elem_of_cons ds x00 d). pose proof (elem_of_cons ds "/"%byte d).
    repeat case_decide; cbn; naive_solver.
  - by case_decide.
Qed.

Lemma segment_plain c r : c ≠ "%"%byte → segment (c :: r) = seg_cons c r.
Proof.
  intros Hc. rewrite <-seg_cons_spec. unfold segment. cbn [pct_decode].
  by rewrite decide_False by done.
Qed.

Lemma segment_pct h l r vh vl :
  hex h = Some vh → hex l = Some vl →
  segment ("%"%byte :: h :: l :: r) = seg_cons (of_u8 (vh * 16 + vl)) r.
Proof.
  intros Hh Hl. rewrite <-seg_cons_spec. unfold segment. cbn [pct_decode].
  by rewrite decide_True, Hh, Hl by done.
Qed.

Lemma segment_pct_short s : (length s < 2)%nat → segment ("%"%byte :: s) = Err Invalid.
Proof. destruct s as [|? [|? ?]]; cbn; [done | done | lia]. Qed.

Lemma segment_pct_bad h l r :
  hex h = None ∨ hex l = None → segment ("%"%byte :: h :: l :: r) = Err Invalid.
Proof.
  intros H. unfold segment. cbn [pct_decode]. rewrite decide_True by done.
  destruct (hex h); [|done]. destruct H as [|Hl]; [done |]. by rewrite Hl.
Qed.

(** The inner loop on a piece that ends the path or is followed by a slash. *)
Lemma collect_spec p rest acc :
  "/"%byte ∉ p → (rest = [] ∨ ∃ r, rest = "/"%byte :: r) →
  collect (p ++ rest) acc =
    match segment p with Ok d => Ok (acc ++ d, rest) | Err e => Err e end.
Proof.
  remember (length p) as n eqn:Hn. revert p acc Hn.
  induction n as [n IH] using lt_wf_ind. intros p acc -> Hp Hrest.
  assert (∀ d r, (length r < length p)%nat → "/"%byte ∉ r →
    (if decide (d = x00 ∨ d = "/"%byte) then Err Invalid
     else collect (r ++ rest) (acc ++ [d])) =
    match seg_cons d r with Ok d => Ok (acc ++ d, rest) | Err e => Err e end) as Hstep.
  { intros d r Hl Hr. unfold seg_cons. case_decide; [done |].
    rewrite (IH _ Hl r _ eq_refl Hr Hrest).
    destruct (segment r); cbn; [by rewrite <-app_assoc | done]. }
  destruct p as [|c r].
  { rewrite segment_nil, app_nil_r. by destruct Hrest as [-> | [r ->]]. }
  apply not_elem_of_cons in Hp as [Hc Hr]. cbn [app collect].
  rewrite decide_False by done. case_decide as Hpct.
  - subst c. destruct r as [|h [|l r']].
    + rewrite segment_pct_short by (cbn; lia).
      destruct Hrest as [-> | [[|l r] ->]]; done.
    + rewrite segment_pct_short by (cbn; lia).
      destruct Hrest as [-> | [r ->]]; cbn; [done | by destruct (hex h)].
    + apply not_elem_of_cons in Hr as [_ [_ Hr]%not_elem_of_cons]. cbn [app].
      destruct (hex h) as [vh|] eqn:Eh; [|by rewrite segment_pct_bad by auto].
      destruct (hex l) as [vl|] eqn:El; [|by rewrite segment_pct_bad by auto].
      cbn. rewrite (segment_pct _ _ _ _ _ Eh El).
      rewrite hex_pair by eauto using hex_range. apply Hstep; [cbn; lia | done].
  - rewrite segment_plain by done. rewrite <-Hstep by (cbn; lia || done).
    repeat case_decide; naive_solver.
Qed.

Lemma apply_seg_spec d stk :
  apply_seg d (render stk) (offsets stk) =
    (λ stk, (render stk, offsets stk)) <$> resolve d stk.
Proof.
  unfold apply_seg, resolve. repeat case_decide; [done | | done].
  destruct stk as [|s stk]; cbn; [done |]. by rewrite take_app_length.
Qed.

Lemma norm_loop_spec fuel b stk :
  (length b ≤ fuel)%nat →
  norm_loop fuel b (render stk) (offsets stk) = render <$> walk (split "/"%byte b) stk.
Proof.
  revert b stk. induction fuel as [fuel IH] using lt_wf_ind. intros b stk Hf.
  assert (∀ p rest, b = p ++ rest → "/"%byte ∉ p →
    (rest = [] ∨ ∃ r, rest = "/"%byte :: r) →
    norm_loop fuel b (render stk) (offsets stk) =
    (d ← segment p; stk ← resolve d stk;
     match rest, fuel with
     | [], _ => Ok (render stk)
     | _ :: r, S f => norm_loop f r (render stk) (offsets stk)
     | _ :: _, O => Err Invalid
     end)) as Hgo.
  { intros p rest -> Hp Hrest. destruct fuel; cbn [norm_loop];
      rewrite (collect_spec p rest []) by done;
      (destruct (segment p) as [d|]; cbn; [|done]); rewrite apply_seg_spec;
      (destruct (resolve d stk); cbn; [|done]); by destruct rest. }
  destruct (decide ("/"%byte ∈ b)) as [Hin|Hni].
  - apply list_elem_of_split_l in Hin as (p & r & -> & Hp).
    rewrite (Hgo p ("/"%byte :: r) eq_refl Hp) by eauto.
    rewrite split_app by done. cbn [walk]. rewrite length_app in Hf. cbn [length] in Hf.
    destruct (segment p) as [d|]; cbn; [|done]. destruct (resolve d stk) as [stk'|]; cbn; [|done].
    destruct fuel as [|f]; [lia |]. apply IH; lia.
  - rewrite (Hgo b [] (eq_sym (app_nil_r b)) Hni) by auto.
    rewrite split_clean by done. cbn [walk].
    destruct (segment b) as [d|]; cbn; [|done]. by destruct (resolve d stk).
Qed.

Lemma slow_normalize_spec_aux b : slow_normalize b = spec_normalize b.
Proof.
  unfold slow_normalize, spec_normalize.
  pose proof (norm_loop_spec (length b) (drop 1 b) []) as H. cbn [render offsets] in H.
  rewrite H by len_lia.
  destruct (walk _ _); done.
Qed.

(** ** Normal paths are fixed by the walk *)

Lemma seg_cons_ok c r d :
  seg_cons c r = Ok d ↔ c ≠ x00 ∧ c ≠ "/"%byte ∧ ∃ ds, segment r = Ok ds ∧ d = c :: ds.
Proof.
  unfold seg_cons. case_decide; [naive_solver |].
  destruct (segment r) as [ds|]; cbn; naive_solver.
Qed.

(** A clean segment without an escape decodes to itself. *)
Lemma segment_id s : "%"%byte ∉ s → "/"%byte ∉ s → x00 ∉ s → segment s = Ok s.
Proof.
  induction s as [|c s IH]; [done |].
  intros [? ?]%not_elem_of_cons [? ?]%not_elem_of_cons [? ?]%not_elem_of_cons.
  rewrite segment_plain by done. apply seg_cons_ok. naive_solver.
Qed.

(** A decoded segment is free of separators and NULs. *)
Lemma segment_clean s d : segment s = Ok d → "/"%byte ∉ d ∧ x00 ∉ d.
Proof.
  unfold segment. destruct (pct_decode s); [|done]. case_decide; [done |]. naive_solver.
Qed.

Lemma resolve_push d stk : safe_seg d → resolve d stk = Ok (d :: stk).
Proof.
  intros (? & ? & ? & _). unfold resolve. by rewrite !decide_False by naive_solver.
Qed.

Lemma resolve_safe d stk stk' :
  "/"%byte ∉ d → x00 ∉ d → Forall safe_seg stk → resolve d stk = Ok stk' →
  Forall safe_seg stk'.
Proof.
  intros Hs Hz Hstk. unfold resolve, safe_seg in *. repeat case_decide.
  - naive_solver.
  - destruct stk; [done |]. apply Forall_cons in Hstk as [_ ?]. naive_solver.
  - intros [= <-]. apply Forall_cons. naive_solver.
Qed.

Lemma walk_safe ps stk stk' :
  Forall safe_seg stk → walk ps stk = Ok stk' → Forall safe_seg stk'.
Proof.
  revert stk. induction ps as [|p ps IH]; cbn; intros stk Hstk H; [naive_solver |].
  apply result_bind_ok in H as (d & Hd & H).
  apply result_bind_ok in H as (stk1 & Hr & H).
  apply segment_clean in Hd as [? ?]. eapply IH; [|exact H].
  by eapply resolve_safe.
Qed.

(** Pieces that decode to safe segments are pushed in order; a last empty
    piece is the trailing slash. *)
Lemma walk_push ps ds stk (tr : bool) :
  Forall2 (λ p d, segment p = Ok d) ps ds → Forall safe_seg ds →
  walk (ps ++ if tr then [[]] else []) stk = Ok (reverse ds ++ stk).
Proof.
  intros H. revert stk. induction H as [|p d ps ds Hp _ IH]; intros stk Hs.
  - by destruct tr.
  - apply Forall_cons in Hs as [Hd Hs]. cbn [app walk]. rewrite Hp. cbn [mbind result_bind].
    rewrite resolve_push by done. cbn [mbind result_bind]. rewrite IH by done.
    by rewrite reverse_cons, <-app_assoc.
Qed.

Definition slashed (segs : list bytes) : bytes := mjoin ((λ s, s ++ str "/") <$> segs).

Lemma render_slashed segs : render (reverse segs) = "/"%byte :: slashed segs.
Proof.
  induction segs as [|s segs IH] using rev_ind; [done |].
  rewrite reverse_app. cbn. rewrite IH. unfold slashed.
  rewrite fmap_app, join_app. cbn. by rewrite app_nil_r.
Qed.

Lemma finish_snoc (tr : bool) out :
  out ≠ [] → finish tr (out ++ str "/") = out ++ if tr then str "/" else [].
Proof.
  intros Hne. unfold finish. destruct tr; cbn [negb andb]; [done |].
  rewrite bool_decide_eq_true_2, length_app, Nat.add_sub, take_app_length, app_nil_r.
  - done.
  - rewrite length_app. destruct out; cbn; [done | lia].
Qed.

(** The pieces of a joined path are its segments, and an empty piece for a
    trailing slash. *)
Lemma split_slashed segs :
  Forall (λ s, "/"%byte ∉ s) segs → split "/"%byte (slashed segs) = segs ++ [[]].
Proof.
  induction 1 as [|s segs Hs _ IH]; [done |].
  cbn. rewrite <-app_assoc. cbn [app str String.list_byte_of_string].
  rewrite split_app by done. f_equal. exact IH.
Qed.

Lemma slashed_snoc segs s : slashed (segs ++ [s]) = slashed segs ++ s ++ str "/".
Proof. unfold slashed. rewrite fmap_app, join_app. cbn. by rewrite app_nil_r. Qed.

Lemma split_slashed_snoc segs s :
  Forall (λ s, "/"%byte ∉ s) segs → "/"%byte ∉ s →
  split "/"%byte (slashed segs ++ s) = segs ++ [s].
Proof.
  intros H Hs. induction H as [|t segs Ht _ IH]; [by apply split_clean |].
  cbn. rewrite <-!app_assoc. cbn [app str String.list_byte_of_string].
  rewrite split_app by done. f_equal. exact IH.
Qed.

Lemma join_snoc segs s (tr : bool) :
  join (segs ++ [s]) tr = "/"%byte :: slashed segs ++ s ++ if tr then str "/" else [].
Proof.
  unfold join. rewrite render_slashed, slashed_snoc.
  replace ("/"%byte :: slashed segs ++ s ++ str "/")
    with (("/"%byte :: slashed segs ++ s) ++ str "/") by (by list_simplifier).
  rewrite finish_snoc by done. by list_simplifier.
Qed.

Lemma ends_in_slash_snoc p s (tr : bool) :
  s ≠ [] → "/"%byte ∉ s →
  ends_in_slash ("/"%byte :: p ++ s ++ if tr then str "/" else []) = tr.
Proof.
  intros Hne Hs. unfold ends_in_slash.
  replace ("/"%byte :: p ++ s ++ if tr then str "/" else [])
    with (("/"%byte :: p ++ s) ++ if tr then str "/" else []) by (by list_simplifier).
  destruct (exists_last Hne) as (s' & c & ->).
  assert (c ≠ "/"%byte) by (rewrite elem_of_app, list_elem_of_singleton in Hs; naive_solver).
  rewrite bool_decide_eq_true_2; [|cbn; rewrite !length_app; cbn; lia].
  rewrite andb_true_l. destruct tr.
  - apply bool_decide_eq_true_2. apply last_snoc.
  - apply bool_decide_eq_false_2. rewrite app_nil_r, app_assoc, app_comm_cons, last_snoc. naive_solver.
Qed.

(** Encoded segments joined by slashes normalise to the decoded ones joined. *)
Lemma slow_normalize_join es segs tr :
  Forall2 (λ e s, segment e = Ok s ∧ "/"%byte ∉ e) es segs → Forall safe_seg segs →
  spec_normalize (join es tr) = ok_or Invalid (from_utf8 (join segs tr)).
Proof.
  intros H2 Hs. destruct (decide (segs = [])) as [->|Hne].
  { apply Forall2_nil_inv_r in H2 as ->. by destruct tr. }
  destruct (exists_last Hne) as (segs' & s & ->).
  apply Forall2_app_inv_r in H2 as (es' & l & H2 & Hl & ->).
  apply Forall2_cons_inv_r in Hl as (e & ? & [He Hslash] & ->%Forall2_nil_inv_r & ->).
  assert (Forall (λ e, "/"%byte ∉ e) es') as Hclean.
  { clear -H2. induction H2; constructor; naive_solver. }
  assert (e ≠ []) as Hnil.
  { intros ->. rewrite segment_nil in He. injection He as <-.
    apply Forall_app in Hs as [_ [(? & _) _]%Forall_cons]. done. }
  unfold spec_normalize. rewrite join_snoc, ends_in_slash_snoc by done.
  cbn [drop]. rewrite drop_0.
  assert (split "/"%byte (slashed es' ++ e ++ if tr then str "/" else []) =
          (es' ++ [e]) ++ if tr then [[]] else []) as ->.
  { destruct tr.
    - rewrite <-slashed_snoc. apply split_slashed.
      apply Forall_app. split; [done | by constructor].
    - rewrite !app_nil_r. by apply split_slashed_snoc. }
  rewrite (walk_push _ (segs' ++ [s])), app_nil_r; [done | | done].
  apply Forall2_app; [|by repeat constructor].
  clear -H2. induction H2; constructor; naive_solver.
Qed.

Lemma segment_ids segs :
  Forall safe_seg segs → Forall (λ s, "%"%byte ∉ s) segs →
  Forall2 (λ e s, segment e = Ok s ∧ "/"%byte ∉ e) segs segs.
Proof.
  rewrite !Forall_forall. intros Hs Hp. apply Forall_Forall2_diag, Forall_forall.
  intros s Hin. destruct (Hs s Hin) as (_ & _ & _ & ? & ?).
  split; [by apply segment_id; auto | done].
Qed.

Lemma elem_of_join c s segs tr :
  s ∈ segs → c ∈ s → "/"%byte ∉ s → c ∈ join segs tr.
Proof.
  intros Hin Hc Hs. destruct (decide (segs = [])) as [->|Hne]; [by apply elem_of_nil in Hin |].
  destruct (exists_last Hne) as (segs' & l & ->). rewrite join_snoc.
  apply elem_of_cons. right. apply elem_of_app.
  apply elem_of_app in Hin as [Hin | ->%list_elem_of_singleton].
  - left. unfold slashed. apply list_elem_of_join. exists (s ++ str "/").
    split; [by apply elem_of_app; left | by apply (list_elem_of_fmap_2 (λ s, s ++ str "/"))].
  - right. apply elem_of_app. by left.
Qed.

(** A safe path without escapes is its own normal form. *)
Lemma slow_normalize_id b :
  safe_path b → "%"%byte ∉ b → utf8_valid b = true → slow_normalize b = Ok b.
Proof.
  intros (segs & tr & Hs & ->) Hp Hu. rewrite slow_normalize_spec_aux.
  rewrite (slow_normalize_join segs segs); [|apply segment_ids; [done |] | done].
  - apply ok_or_ok, from_utf8_Some. done.
  - apply Forall_forall. intros s Hin Hc. apply Hp.
    eapply elem_of_join; [done | done |]. rewrite Forall_forall in Hs.
    by apply Hs in Hin as (_ & _ & _ & ? & _).
Qed.

Lemma slow_normalize_safe b out : slow_normalize b = Ok out → safe_path out.
Proof.
  rewrite slow_normalize_spec_aux. unfold spec_normalize.
  intros (stk & Hw & [<- _]%ok_or_ok%from_utf8_Some)%result_bind_ok.
  exists (reverse stk), (ends_in_slash b). unfold join. rewrite reverse_involutive.
  split; [|done]. apply Forall_reverse. eapply walk_safe; [|exact Hw]. constructor.
Qed.

Lemma slow_normalize_utf8 b out : slow_normalize b = Ok out → utf8_valid out = true.
Proof.
  unfold slow_normalize. intros (o & _ & H)%result_bind_ok.
  by apply ok_or_ok, from_utf8_Some in H as [<- ?].
Qed.

(** ** The fast path *)

(** What the scan knows about a run without slashes. *)
Lemma normal_from_run prev p rest :
  "/"%byte ∉ p → (rest = [] ∨ ∃ r, rest = "/"%byte :: r) →
  normal_from prev (p ++ rest) = true →
  "%"%byte ∉ p ∧ x00 ∉ p ∧ (prev = "/"%byte → head p ≠ Some "."%byte) ∧
  match rest with
  | [] => True
  | _ :: r => (prev ≠ "/"%byte ∨ p ≠ []) ∧ normal_from "/"%byte r = true
  end.
Proof.
  intros Hp Hrest. revert prev. induction p as [|c p IH]; intros prev; cbn [app normal_from].
  - intros H. split; [apply not_elem_of_nil |]. split; [apply not_elem_of_nil |].
    destruct Hrest as [-> | [r ->]]; [done |].
    destruct (decide (prev = "/"%byte)) as [->|]; [done |].
    cbn [app normal_from] in H. repeat case_decide; naive_solver.
  - apply not_elem_of_cons in Hp as [Hc Hp]. repeat case_decide; try done.
    intros H'. apply (IH Hp) in H' as (? & ? & _ & Hr).
    rewrite !not_elem_of_cons. split; [done |]. split; [done |].
    split; [cbn; naive_solver |]. destruct rest; [done |].
    destruct Hr as [_ Hr]. split; [by right | done].
Qed.

Lemma run_safe_seg p :
  p ≠ [] → "/"%byte ∉ p → x00 ∉ p → head p ≠ Some "."%byte → safe_seg p.
Proof.
  intros Hne Hs Hz Hd. unfold safe_seg. split; [done |].
  split; [by intros -> |]. by split; [intros -> |].
Qed.

Lemma normal_from_safe b :
  normal_from "/"%byte b = true →
  ∃ segs l, b = slashed segs ++ l ∧ Forall safe_seg segs ∧ (l = [] ∨ safe_seg l) ∧ "%"%byte ∉ b.
Proof.
  remember (length b) as n eqn:Hn. revert b Hn.
  induction n as [n IH] using lt_wf_ind. intros b -> H.
  destruct (decide ("/"%byte ∈ b)) as [Hin|Hni].
  - apply list_elem_of_split_l in Hin as (p & r & -> & Hp).
    destruct (normal_from_run _ _ _ Hp (or_intror (ex_intro _ r eq_refl)) H)
      as (? & ? & Hd & [[?|?] Hr]); [done |].
    destruct (IH (length r)) with (b := r) as (segs & l & -> & Hs & Hl & Hpct);
      [rewrite length_app; cbn; lia | done | done |].
    exists (p :: segs), l. split; [cbn; by list_simplifier |].
    split; [constructor; [apply run_safe_seg; auto | done] |].
    split; [done |]. rewrite elem_of_app, elem_of_cons. naive_solver.
  - rewrite <-(app_nil_r b) in H.
    destruct (normal_from_run _ _ _ Hni (or_introl eq_refl) H) as (? & ? & Hd & _).
    exists [], b. split; [done |]. split; [done |]. split; [|done].
    destruct (decide (b = [])); [by left | right; apply run_safe_seg; auto].
Qed.

Lemma slashed_safe_path segs l :
  Forall safe_seg segs → l = [] ∨ safe_seg l → safe_path ("/"%byte :: slashed segs ++ l).
Proof.
  intros Hs [->|Hl].
  - destruct (decide (segs = [])) as [->|Hne]; [by exists [], true |].
    destruct (exists_last Hne) as (segs' & s & ->). exists (segs' ++ [s]), true.
    split; [done |]. rewrite join_snoc, app_nil_r. by rewrite slashed_snoc.
  - exists (segs ++ [l]), false. split; [by apply Forall_app; auto |].
    rewrite join_snoc. by rewrite app_nil_r.
Qed.

Lemma already_normal_safe b :
  starts_with (str "/") b = true → is_already_normal b = true →
  safe_path b ∧ "%"%byte ∉ b.
Proof.
  intros [r ->]%starts_with_spec Hn. cbn in Hn.
  apply normal_from_safe in Hn as (segs & l & -> & Hs & Hl & Hp).
  split; [by apply slashed_safe_path |]. by apply not_elem_of_cons.
Qed.

Lemma normalize_slow p :
  starts_with (str "/") p = true → utf8_valid p = true → normalize p = slow_normalize p.
Proof.
  intros Hs Hu. unfold normalize. rewrite Hs. cbn [negb].
  destruct (is_already_normal p) eqn:Hn; [|done].
  destruct (already_normal_safe p Hs Hn). by rewrite slow_normalize_id.
Qed.

(** ** Percent-encoding *)

Lemma nibble_hex n : 0 ≤ n < 16 → hex (nth (Z.to_nat n) HEX x00) = Some n.
Proof.
  intros Hn. assert (∃ k, (k < 16)%nat ∧ n = Z.of_nat k) as (k & Hk & ->)
    by (exists (Z.to_nat n); lia).
  rewrite Nat2Z.id. do 16 (destruct k as [|k]; [reflexivity |]). lia.
Qed.

Lemma byte_split c : u8 c = Z.shiftr (u8 c) 4 * 16 + Z.land (u8 c) 15.
Proof.
  pose proof (u8_range c). change 15 with (2 ^ 4 - 1).
  rewrite land_mask, Z.shiftr_div_pow2 by lia. change (2 ^ 4) with 16. zdiv.
Qed.

Lemma nibbles c : 0 ≤ Z.shiftr (u8 c) 4 < 16 ∧ 0 ≤ Z.land (u8 c) 15 < 16.
Proof.
  pose proof (u8_range c). change 15 with (2 ^ 4 - 1).
  rewrite land_mask, Z.shiftr_div_pow2 by lia. change (2 ^ 4) with 16. zdiv.
Qed.

Lemma is_path_safe_spec c :
  is_path_safe c = true → c ≠ "%"%byte ∧ u8 c < 128.
Proof. by destruct c; vm_compute. Qed.

Lemma is_path_safe_slash : is_path_safe "/"%byte = true.
Proof. reflexivity. Qed.

Lemma encode_path_app a b : encode_path (a ++ b) = encode_path a ++ encode_path b.
Proof. induction a as [|c a IH]; cbn; [done |]. by rewrite IH, app_assoc. Qed.

Lemma nibble_digit n :
  0 ≤ n < 16 → nth (Z.to_nat n) HEX x00 ≠ "/"%byte ∧ u8 (nth (Z.to_nat n) HEX x00) < 128.
Proof.
  intros Hn. pose proof (nibble_hex n Hn) as H.
  assert (∀ c, is_Some (hex c) → c ≠ "/"%byte ∧ u8 c < 128) as Hall
    by (intros []; vm_compute; intros [? ?]; done).
  apply Hall. eauto.
Qed.

(** Encoding a segment is undone by decoding it, and introduces no separator. *)
Lemma encode_segment s :
  "/"%byte ∉ s → x00 ∉ s →
  segment (encode_path s) = Ok s ∧ "/"%byte ∉ encode_path s.
Proof.
  induction s as [|c s IH]; [by cbn |].
  intros [? ?]%not_elem_of_cons [? ?]%not_elem_of_cons.
  destruct IH as [IH1 IH2]; [done | done |]. cbn [encode_path].
  destruct (is_path_safe c) eqn:Hc; cbn [app].
  - apply is_path_safe_spec in Hc as [? _]. rewrite segment_plain by done.
    rewrite seg_cons_ok, not_elem_of_cons. naive_solver.
  - destruct (nibbles c) as [Hh Hl].
    rewrite (segment_pct _ _ _ _ _ (nibble_hex _ Hh) (nibble_hex _ Hl)).
    rewrite <-byte_split, of_u8_u8, seg_cons_ok, !not_elem_of_cons.
    pose proof (nibble_digit _ Hh). pose proof (nibble_digit _ Hl). naive_solver.
Qed.

Lemma encode_path_ascii s : Forall (λ c, u8 c < 128) (encode_path s).
Proof.
  induction s as [|c s IH]; cbn; [constructor |]. apply Forall_app. split; [|done].
  destruct (is_path_safe c) eqn:Hc; [by constructor; [apply is_path_safe_spec in Hc as []|] |].
  destruct (nibbles c). repeat constructor; by apply nibble_digit.
Qed.

Lemma encode_slashed segs : encode_path (slashed segs) = slashed (encode_path <$> segs).
Proof.
  induction segs as [|s segs IH]; [done |]. cbn.
  rewrite !encode_path_app. f_equal. exact IH.
Qed.

Lemma encode_join segs tr : encode_path (join segs tr) = join (encode_path <$> segs) tr.
Proof.
  destruct (decide (segs = [])) as [->|Hne]; [by destruct tr |].
  destruct (exists_last Hne) as (segs' & s & ->). rewrite fmap_app. cbn [fmap list_fmap].
  rewrite !join_snoc. cbn [encode_path]. rewrite is_path_safe_slash, !encode_path_app.
  rewrite encode_slashed. by destruct tr.
Qed.

(** ** Properties *)

(** C4. [normalize] implements its specification: on any absolute path that
    is text, the fast path included, the result is that of splitting the
    path at its slashes, percent-decoding each piece (refusing an encoded
    separator or NUL), resolving the dot segments over a stack (refusing to
    climb above the root) and joining what is left. *)
Theorem normalize_spec p :
  starts_with (str "/") p = true → utf8_valid p = true → normalize p = spec_normalize p.
Proof. intros. rewrite <-slow_normalize_spec_aux. by apply normalize_slow. Qed.

Lemma normalize_spec_witness :
  normalize (str "/a/./b%2e/../%C3%BC//c/") = Ok (str "/a/" ++ [xc3; xbc] ++ str "/c/") ∧
  normalize (str "/a/./b%2e/../%C3%BC//c/") = spec_normalize (str "/a/./b%2e/../%C3%BC//c/").
Proof. split; [reflexivity | apply normalize_spec; reflexivity]. Defined.

(** C3. No traversal: whatever a client sends, a path [normalize] accepts
    starts with a slash and is made of non-empty segments, none of them [.]
    or [..], none holding a separator or a NUL. *)
Theorem normalize_safe p out : normalize p = Ok out → safe_path out.
Proof.
  unfold normalize. destruct (starts_with (str "/") p) eqn:Hs; cbn [negb]; [|done].
  destruct (is_already_normal p) eqn:Hn; [|apply slow_normalize_safe].
  intros [= <-]. by apply already_normal_safe.
Qed.

Lemma normalize_safe_witness : safe_path (str "/b/c").
Proof. apply (normalize_safe (str "/a/../b//c")). reflexivity. Defined.

(** Re-normalising a result without a percent sign changes nothing, so a
    path that is normalised twice is not decoded twice. *)
Theorem normalize_idempotent p out :
  utf8_valid p = true → normalize p = Ok out → "%"%byte ∉ out → normalize out = Ok out.
Proof.
  intros Hu H Hp.
  assert (safe_path out) as Hsafe.
  { revert H. unfold normalize. destruct (starts_with (str "/") p) eqn:Hs; cbn [negb]; [|done].
    destruct (is_already_normal p) eqn:Hn; [|apply slow_normalize_safe].
    intros [= <-]. by apply already_normal_safe. }
  assert (utf8_valid out = true) as Hout.
  { revert H. unfold normalize. repeat case_match; try done; [congruence |].
    apply slow_normalize_utf8. }
  rewrite normalize_slow; [by apply slow_normalize_id | | done].
  destruct Hsafe as (segs & tr & _ & ->).
  destruct (decide (segs = [])) as [->|Hne]; [by destruct tr |].
  destruct (exists_last Hne) as (segs' & s & ->). by rewrite join_snoc.
Qed.

Lemma normalize_idempotent_witness : normalize (str "/b/c") = Ok (str "/b/c").
Proof.
  apply (normalize_idempotent (str "/a/../b//%63")); [reflexivity | reflexivity |].
  by apply (bool_decide_unpack _).
Defined.

(** [encode_path] and [normalize] are a round trip: a normal path put in
    a [Location] header or a listing comes back as the same path. *)
Theorem normalize_encode_path p :
  safe_path p → utf8_valid p = true → normalize (encode_path p) = Ok p.
Proof.
  intros (segs & tr & Hs & ->) Hu. rewrite normalize_slow.
  - rewrite slow_normalize_spec_aux, encode_join, (slow_normalize_join _ segs); [|clear Hu|done].
    + by apply ok_or_ok, from_utf8_Some.
    + apply Forall2_fmap_l, Forall_Forall2_diag, Forall_forall. rewrite Forall_forall in Hs.
      intros s Hin. destruct (Hs s Hin) as (_ & _ & _ & ? & ?). by apply encode_segment.
  - rewrite encode_join. generalize (encode_path <$> segs). clear. intros segs.
    destruct (decide (segs = [])) as [->|Hne]; [by destruct tr |].
    destruct (exists_last Hne) as (segs' & s & ->). by rewrite join_snoc.
  - apply utf8_valid_ascii, encode_path_ascii.
Qed.

Lemma normalize_encode_path_witness :
  normalize (encode_path (str "/a b/%41/?")) = Ok (str "/a b/%41/?").
Proof.
  apply normalize_encode_path; [|reflexivity].
  exists [str "a b"; str "%41"; str "?"], false. split; [|reflexivity].
  repeat constructor; try done; by apply (bool_decide_unpack _).
Defined.
