(* ===== verification/Huffman.v ===== *)
(** * [src/http2/huffman.rs]: the Huffman code of HPACK

    The code table, the encoder with its bit accumulator, the decoding tree
    built from the table, and the decoder that walks it.  The central result
    is that the decoder accepts exactly the encoder's outputs
    ([decode_exact]): one encoding per string, nothing lost. *)
From S2P Require Import Prelude.

Open Scope Z_scope.

(** ** The code *)

(** [(code, bit length)] for symbols 0..=255, then EOS at index 256. *)
Definition TABLE : list (Z * Z) := [
    (0x1ff8, 13); (0x7fffd8, 23); (0xfffffe2, 28); (0xfffffe3, 28);
    (0xfffffe4, 28); (0xfffffe5, 28); (0xfffffe6, 28); (0xfffffe7, 28);
    (0xfffffe8, 28); (0xffffea, 24); (0x3ffffffc, 30); (0xfffffe9, 28);
    (0xfffffea, 28); (0x3ffffffd, 30); (0xfffffeb, 28); (0xfffffec, 28);
    (0xfffffed, 28); (0xfffffee, 28); (0xfffffef, 28); (0xffffff0, 28);
    (0xffffff1, 28); (0xffffff2, 28); (0x3ffffffe, 30); (0xffffff3, 28);
    (0xffffff4, 28); (0xffffff5, 28); (0xffffff6, 28); (0xffffff7, 28);
    (0xffffff8, 28); (0xffffff9, 28); (0xffffffa, 28); (0xffffffb, 28);
    (0x14, 6); (0x3f8, 10); (0x3f9, 10); (0xffa, 12);
    (0x1ff9, 13); (0x15, 6); (0xf8, 8); (0x7fa, 11);
    (0x3fa, 10); (0x3fb, 10); (0xf9, 8); (0x7fb, 11);
    (0xfa, 8); (0x16, 6); (0x17, 6); (0x18, 6);
    (0x0, 5); (0x1, 5); (0x2, 5); (0x19, 6);
    (0x1a, 6); (0x1b, 6); (0x1c, 6); (0x1d, 6);
    (0x1e, 6); (0x1f, 6); (0x5c, 7); (0xfb, 8);
    (0x7ffc, 15); (0x20, 6); (0xffb, 12); (0x3fc, 10);
    (0x1ffa, 13); (0x21, 6); (0x5d, 7); (0x5e, 7);
    (0x5f, 7); (0x60, 7); (0x61, 7); (0x62, 7);
    (0x63, 7); (0x64, 7); (0x65, 7); (0x66, 7);
    (0x67, 7); (0x68, 7); (0x69, 7); (0x6a, 7);
    (0x6b, 7); (0x6c, 7); (0x6d, 7); (0x6e, 7);
    (0x6f, 7); (0x70, 7); (0x71, 7); (0x72, 7);
    (0xfc, 8); (0x73, 7); (0xfd, 8); (0x1ffb, 13);
    (0x7fff0, 19); (0x1ffc, 13); (0x3ffc, 14); (0x22, 6);
    (0x7ffd, 15); (0x3, 5); (0x23, 6); (0x4, 5);
    (0x24, 6); (0x5, 5); (0x25, 6); (0x26, 6);
    (0x27, 6); (0x6, 5); (0x74, 7); (0x75, 7);
    (0x28, 6); (0x29, 6); (0x2a, 6); (0x7, 5);
    (0x2b, 6); (0x76, 7); (0x2c, 6); (0x8, 5);
    (0x9, 5); (0x2d, 6); (0x77, 7); (0x78, 7);
    (0x79, 7); (0x7a, 7); (0x7b, 7); (0x7ffe, 15);
    (0x7fc, 11); (0x3ffd, 14); (0x1ffd, 13); (0xffffffc, 28);
    (0xfffe6, 20); (0x3fffd2, 22); (0xfffe7, 20); (0xfffe8, 20);
    (0x3fffd3, 22); (0x3fffd4, 22); (0x3fffd5, 22); (0x7fffd9, 23);
    (0x3fffd6, 22); (0x7fffda, 23); (0x7fffdb, 23); (0x7fffdc, 23);
    (0x7fffdd, 23); (0x7fffde, 23); (0xffffeb, 24); (0x7fffdf, 23);
    (0xffffec, 24); (0xffffed, 24); (0x3fffd7, 22); (0x7fffe0, 23);
    (0xffffee, 24); (0x7fffe1, 23); (0x7fffe2, 23); (0x7fffe3, 23);
    (0x7fffe4, 23); (0x1fffdc, 21); (0x3fffd8, 22); (0x7fffe5, 23);
    (0x3fffd9, 22); (0x7fffe6, 23); (0x7fffe7, 23); (0xffffef, 24);
    (0x3fffda, 22); (0x1fffdd, 21); (0xfffe9, 20); (0x3fffdb, 22);
    (0x3fffdc, 22); (0x7fffe8, 23); (0x7fffe9, 23); (0x1fffde, 21);
    (0x7fffea, 23); (0x3fffdd, 22); (0x3fffde, 22); (0xfffff0, 24);
    (0x1fffdf, 21); (0x3fffdf, 22); (0x7fffeb, 23); (0x7fffec, 23);
    (0x1fffe0, 21); (0x1fffe1, 21); (0x3fffe0, 22); (0x1fffe2, 21);
    (0x7fffed, 23); (0x3fffe1, 22); (0x7fffee, 23); (0x7fffef, 23);
    (0xfffea, 20); (0x3fffe2, 22); (0x3fffe3, 22); (0x3fffe4, 22);
    (0x7ffff0, 23); (0x3fffe5, 22); (0x3fffe6, 22); (0x7ffff1, 23);
    (0x3ffffe0, 26); (0x3ffffe1, 26); (0xfffeb, 20); (0x7fff1, 19);
    (0x3fffe7, 22); (0x7ffff2, 23); (0x3fffe8, 22); (0x1ffffec, 25);
    (0x3ffffe2, 26); (0x3ffffe3, 26); (0x3ffffe4, 26); (0x7ffffde, 27);
    (0x7ffffdf, 27); (0x3ffffe5, 26); (0xfffff1, 24); (0x1ffffed, 25);
    (0x7fff2, 19); (0x1fffe3, 21); (0x3ffffe6, 26); (0x7ffffe0, 27);
    (0x7ffffe1, 27); (0x3ffffe7, 26); (0x7ffffe2, 27); (0xfffff2, 24);
    (0x1fffe4, 21); (0x1fffe5, 21); (0x3ffffe8, 26); (0x3ffffe9, 26);
    (0xffffffd, 28); (0x7ffffe3, 27); (0x7ffffe4, 27); (0x7ffffe5, 27);
    (0xfffec, 20); (0xfffff3, 24); (0xfffed, 20); (0x1fffe6, 21);
    (0x3fffe9, 22); (0x1fffe7, 21); (0x1fffe8, 21); (0x7ffff3, 23);
    (0x3fffea, 22); (0x3fffeb, 22); (0x1ffffee, 25); (0x1ffffef, 25);
    (0xfffff4, 24); (0xfffff5, 24); (0x3ffffea, 26); (0x7ffff4, 23);
    (0x3ffffeb, 26); (0x7ffffe6, 27); (0x3ffffec, 26); (0x3ffffed, 26);
    (0x7ffffe7, 27); (0x7ffffe8, 27); (0x7ffffe9, 27); (0x7ffffea, 27);
    (0x7ffffeb, 27); (0xffffffe, 28); (0x7ffffec, 27); (0x7ffffed, 27);
    (0x7ffffee, 27); (0x7ffffef, 27); (0x7fffff0, 27); (0x3ffffee, 26);
    (0x3fffffff, 30)
  ].

Definition EOS : Z := 256.

(** [TABLE[b as usize]] *)
Definition table_at (b : byte) : Z * nat :=
  let '(code, len) := nth (Z.to_nat (u8 b)) TABLE (0, 0) in (code, Z.to_nat len).

Definition encoded_len (input : bytes) : nat :=
  let bits := sum_list ((λ b, snd (table_at b)) <$> input) in
  (bits + 7) / 8.

(** [while n >= 8 { n -= 8; out.push((acc >> n) as u8) }] with fuel; [n] drops
    by eight each turn, so [n] itself is enough. *)
Fixpoint flush (fuel : nat) (acc : Z) (n : nat) (out : bytes) : nat * bytes :=
  match fuel with
  | O => (n, out)
  | S fuel =>
      if decide (8 ≤ n)%nat then
        let n := (n - 8)%nat in
        flush fuel acc n (out ++ [of_u8 (Z.shiftr acc (Z.of_nat n))])
      else (n, out)
  end.

(** The loop over the input; [acc] is a [u64], so the shift drops its top. *)
Fixpoint encode_loop (input : bytes) (acc : Z) (n : nat) (out : bytes) : Z * nat * bytes :=
  match input with
  | [] => (acc, n, out)
  | b :: input =>
      let '(code, len) := table_at b in
      let acc := Z.lor (wrap 64 (Z.shiftl acc (Z.of_nat len))) code in
      let '(n, out) := flush (n + len) acc (n + len) out in
      encode_loop input acc n out
  end.

Definition encode (input out : bytes) : bytes :=
  let '(acc, n, out) := encode_loop input 0 O out in
  if decide (0 < n)%nat then
    let pad := Z.of_nat (8 - n) in
    out ++ [of_u8 (Z.land (Z.lor (Z.shiftl acc pad) (Z.shiftl 1 pad - 1)) 255)]
  else out.

Definition NONE : Z := 65535.

Record Node := mkNode { child : Z * Z; symbol : option Z }.

Definition leafless : Node := mkNode (NONE, NONE) None.

Definition get_child (nd : Node) (bit : Z) : Z :=
  if decide (bit = 0) then fst (child nd) else snd (child nd).

Definition set_child (bit k : Z) (nd : Node) : Node :=
  mkNode (if decide (bit = 0) then (k, snd (child nd)) else (fst (child nd), k)) (symbol nd).

Definition set_symbol (sym : Z) (nd : Node) : Node := mkNode (child nd) (Some sym).

Definition node_at (nodes : list Node) (k : Z) : Node := nth (Z.to_nat k) nodes leafless.

(** [for i in (0..len).rev()]: follows or creates the path of one code, and
    labels its last node. *)
Fixpoint add_code (code : Z) (len : nat) (sym : Z) (nodes : list Node) (cur : Z) :
    list Node :=
  match len with
  | O => alter (set_symbol sym) (Z.to_nat cur) nodes
  | S i =>
      let bit := Z.land (Z.shiftr code (Z.of_nat i)) 1 in
      let nodes :=
        if decide (get_child (node_at nodes cur) bit = NONE)
        then alter (set_child bit (Z.of_nat (length nodes))) (Z.to_nat cur) (nodes ++ [leafless])
        else nodes in
      add_code code i sym nodes (get_child (node_at nodes cur) bit)
  end.

Fixpoint build_tree (sym : Z) (table : list (Z * Z)) (nodes : list Node) : list Node :=
  match table with
  | [] => nodes
  | (code, len) :: table => build_tree (sym + 1) table (add_code code (Z.to_nat len) sym nodes 0)
  end.

Definition tree : list Node := build_tree 0 TABLE [leafless].

Inductive HuffmanError := HuffmanErr.

(** The decoder's locals: [node], [consumed_bits] and [out]. *)
Record DecodeState := mkDecode { node : Z; consumed_bits : nat; output : bytes }.

(** The body of the inner loop, one bit at a time. *)
Definition decode_bit (tree : list Node) (limit : nat) (bit : Z) (st : DecodeState) :
    result HuffmanError DecodeState :=
  let next := get_child (node_at tree (node st)) bit in
  if decide (next = NONE) then Err HuffmanErr
  else match symbol (node_at tree next) with
       | Some sym =>
           if decide (sym = EOS) then Err HuffmanErr
           else if decide (limit ≤ length (output st))%nat then Err HuffmanErr
           else Ok (mkDecode 0 O (output st ++ [of_u8 sym]))
       | None => Ok (mkDecode next (S (consumed_bits st)) (output st))
       end.

(** [for shift in (0..8).rev()] *)
Fixpoint decode_byte (tree : list Node) (limit : nat) (b : byte) (shift : nat) (st : DecodeState) :
    result HuffmanError DecodeState :=
  match shift with
  | O => Ok st
  | S s =>
      st ← decode_bit tree limit (Z.land (Z.shiftr (u8 b) (Z.of_nat s)) 1) st;
      decode_byte tree limit b s st
  end.

Fixpoint decode_loop (tree : list Node) (limit : nat) (input : bytes) (st : DecodeState) :
    result HuffmanError DecodeState :=
  match input with
  | [] => Ok st
  | b :: input => st ← decode_byte tree limit b 8 st; decode_loop tree limit input st
  end.

(** [is_all_ones_prefix], with the size of the tree as fuel: the chain of
    right children ends after 31 nodes. *)
Fixpoint ones_from (tree : list Node) (fuel : nat) (cur nd : Z) : bool :=
  if decide (cur = nd) then true
  else match fuel with
       | O => false
       | S fuel =>
           let next := snd (child (node_at tree cur)) in
           if decide (next = NONE) then false else ones_from tree fuel next nd
       end.

Definition is_all_ones_prefix (nd : Z) : bool := ones_from tree 600 0 nd.

Definition decode (input : bytes) (limit : nat) (out : bytes) : result HuffmanError bytes :=
  st ← decode_loop tree limit input (mkDecode 0 O out);
  if decide (7 < consumed_bits st)%nat then Err HuffmanErr
  else if bool_decide (0 < consumed_bits st)%nat && negb (is_all_ones_prefix (node st))
       then Err HuffmanErr
  else Ok (output st).

(** ** Bits *)

(** The low [n] bits of [z], most significant first. *)
Fixpoint zbits (n : nat) (z : Z) : list bool :=
  match n with
  | O => []
  | S m => Z.testbit z (Z.of_nat m) :: zbits m z
  end.

Definition byte_bits (b : byte) : list bool := zbits 8 (u8 b).
Definition bits_of (s : bytes) : list bool := mjoin (byte_bits <$> s).

(** The bits of a symbol's code, and of a string's codes. *)
Definition code_bits (b : byte) : list bool :=
  let '(code, len) := table_at b in zbits len code.
Definition codes (s : bytes) : list bool := mjoin (code_bits <$> s).

Lemma zbits_length n z : length (zbits n z) = n.
Proof. induction n; cbn; congruence. Qed.

Lemma zbits_ext n a b :
  (∀ i, 0 ≤ i < Z.of_nat n → Z.testbit a i = Z.testbit b i) → zbits n a = zbits n b.
Proof.
  induction n as [|n IH]; intros H; cbn [zbits]; [done |].
  rewrite H by lia. f_equal. apply IH. intros. apply H. lia.
Qed.

Lemma zbits_inj n a b i :
  zbits n a = zbits n b → 0 ≤ i < Z.of_nat n → Z.testbit a i = Z.testbit b i.
Proof.
  induction n as [|n IH]; intros H Hi; [lia |]. injection H as Hh Ht.
  destruct (decide (i = Z.of_nat n)) as [->|]; [done |]. apply IH; [done | lia].
Qed.

Lemma zbits_app n m z : zbits (n + m) z = zbits n (Z.shiftr z (Z.of_nat m)) ++ zbits m z.
Proof.
  induction n as [|n IH]; cbn [zbits Nat.add app]; [done |].
  rewrite IH, Z.shiftr_spec by lia. do 2 f_equal. lia.
Qed.

Lemma zbits_mod n w z : (n <= w)%nat → zbits n (z mod 2 ^ Z.of_nat w) = zbits n z.
Proof. intros. apply zbits_ext. intros. apply Z.mod_pow2_bits_low. lia. Qed.

Lemma byte_bits_of z : byte_bits (of_u8 z) = zbits 8 z.
Proof. unfold byte_bits. rewrite u8_of_u8. apply (zbits_mod 8 8). lia. Qed.

Lemma byte_bits_inj a b : byte_bits a = byte_bits b → a = b.
Proof.
  intros H. apply u8_inj. apply Z.bits_inj'. intros i Hi.
  pose proof (u8_range a). pose proof (u8_range b).
  destruct (decide (i < 8)); [by eapply zbits_inj; [exact H | lia] |].
  rewrite <-(Z.mod_small (u8 a) (2 ^ 8)), <-(Z.mod_small (u8 b) (2 ^ 8)) by lia.
  rewrite !Z.mod_pow2_bits_high by lia. done.
Qed.

Lemma bits_of_app s t : bits_of (s ++ t) = bits_of s ++ bits_of t.
Proof. unfold bits_of. by rewrite fmap_app, join_app. Qed.

Lemma bits_of_length s : length (bits_of s) = (8 * length s)%nat.
Proof.
  induction s as [|b s IH]; [done |]. change (bits_of (b :: s)) with (byte_bits b ++ bits_of s).
  rewrite length_app, IH. unfold byte_bits. rewrite zbits_length. cbn [length]. lia.
Qed.

Lemma bits_of_inj s t : bits_of s = bits_of t → s = t.
Proof.
  revert t. induction s as [|a s IH]; intros [|b t] H; try done.
  change (byte_bits a ++ bits_of s = byte_bits b ++ bits_of t) in H.
  apply app_inj_1 in H as [Ha Ht]; [|by unfold byte_bits; rewrite !zbits_length].
  by apply byte_bits_inj in Ha as ->; apply IH in Ht as ->.
Qed.

Lemma zbits_ones n a : zbits n (Z.lor a (Z.ones (Z.of_nat n))) = replicate n true.
Proof.
  assert (∀ m, (m <= n)%nat → zbits m (Z.lor a (Z.ones (Z.of_nat n))) = replicate m true) as H;
    [|by apply H].
  induction m as [|m IH]; intros Hm; cbn [zbits replicate]; [done |].
  rewrite IH by lia. rewrite Z.lor_spec, Z.ones_spec_low by lia. by rewrite orb_true_r.
Qed.

Lemma shiftl_1_pred n : Z.shiftl 1 n - 1 = Z.ones n.
Proof. unfold Z.ones. lia. Qed.

(** ** The encoder writes the codes, padded with ones *)

(** All the table's codes fit their lengths, and no length exceeds 30. *)
Lemma table_ok :
  forallb (λ '(code, len), bool_decide (0 ≤ code ∧ code < 2 ^ len ∧ 0 ≤ len ∧ len ≤ 30)) TABLE
  = true.
Proof. vm_compute. reflexivity. Qed.

Lemma table_at_ok b :
  let '(code, len) := table_at b in 0 ≤ code < 2 ^ Z.of_nat len ∧ (len <= 30)%nat.
Proof.
  unfold table_at. destruct (nth_in_or_default (Z.to_nat (u8 b)) TABLE (0, 0)) as [Hin | ->];
    [|cbn; lia].
  pose proof (proj1 (forallb_forall _ _) table_ok _ Hin) as H.
  destruct (nth _ _ _) as [code len]. apply bool_decide_eq_true in H.
  rewrite Z2Nat.id by lia. lia.
Qed.

Lemma flush_spec fuel acc n out n' out' :
  (n <= fuel)%nat → flush fuel acc n out = (n', out') →
  (n' < 8)%nat ∧ bits_of out' ++ zbits n' acc = bits_of out ++ zbits n acc.
Proof.
  revert n out. induction fuel as [|fuel IH]; intros n out Hn; cbn [flush].
  - intros [= <- <-]. split; [lia | done].
  - case_decide as H8; [|intros [= <- <-]; split; [lia | done]].
    intros H. apply IH in H as [Hlt ->]; [|lia]. split; [done |].
    rewrite bits_of_app, <-app_assoc. f_equal.
    replace n with (8 + (n - 8))%nat at 3 by lia. rewrite zbits_app.
    unfold bits_of. cbn [fmap list_fmap mjoin list_join]. by rewrite app_nil_r, byte_bits_of.
Qed.

Lemma zbits_shift_in n len acc code :
  (n + len <= 64)%nat → 0 ≤ code < 2 ^ Z.of_nat len →
  zbits (n + len) (Z.lor (wrap 64 (Z.shiftl acc (Z.of_nat len))) code) =
  zbits n acc ++ zbits len code.
Proof.
  intros Hl Hc. rewrite zbits_app. unfold wrap. f_equal; apply zbits_ext; intros i Hi.
  - rewrite Z.shiftr_spec, Z.lor_spec, Z.mod_pow2_bits_low, Z.shiftl_spec by lia.
    replace (i + Z.of_nat len - Z.of_nat len) with i by lia.
    rewrite <-(Z.mod_small code (2 ^ Z.of_nat len)) by lia.
    rewrite Z.mod_pow2_bits_high by lia. by rewrite orb_false_r.
  - rewrite Z.lor_spec, Z.mod_pow2_bits_low, Z.shiftl_spec_low by lia. done.
Qed.

Lemma encode_loop_spec input acc n out acc' n' out' :
  (n < 8)%nat → encode_loop input acc n out = (acc', n', out') →
  (n' < 8)%nat ∧
  bits_of out' ++ zbits n' acc' = bits_of out ++ zbits n acc ++ codes input.
Proof.
  revert acc n out. induction input as [|b input IH]; intros acc n out Hn.
  - cbn. intros [= <- <- <-]. split; [done |]. by rewrite app_nil_r.
  - cbn [encode_loop]. pose proof (table_at_ok b) as Hok.
    unfold codes. cbn [fmap list_fmap mjoin list_join]. fold (codes input).
    change (mjoin (code_bits <$> input)) with (codes input).
    unfold code_bits at 1. destruct (table_at b) as [code len]. destruct Hok as [Hc Hl].
    destruct (flush _ _ _ _) as [n1 out1] eqn:Hf.
    apply flush_spec in Hf as [Hn1 Hf]; [|lia]. intros H.
    apply IH in H as [Hn' H]; [|done]. split; [done |].
    rewrite H, app_assoc, Hf, zbits_shift_in by lia. by rewrite <-!app_assoc.
Qed.

Lemma flush_app fuel acc n out :
  flush fuel acc n out = let '(n, o) := flush fuel acc n [] in (n, out ++ o).
Proof.
  revert n out. induction fuel as [|fuel IH]; intros n out; cbn [flush].
  - by rewrite app_nil_r.
  - case_decide; [|by rewrite app_nil_r].
    rewrite IH, (IH _ ([] ++ _)). destruct (flush _ _ _ []). by rewrite <-app_assoc.
Qed.

Lemma encode_loop_app input acc n out :
  encode_loop input acc n out =
  let '(acc, n, o) := encode_loop input acc n [] in (acc, n, out ++ o).
Proof.
  revert acc n out. induction input as [|b input IH]; intros acc n out; cbn [encode_loop].
  - by rewrite app_nil_r.
  - destruct (table_at b) as [code len]. rewrite flush_app, (flush_app _ _ _ []).
    destruct (flush _ _ _ []) as [n1 o1]. rewrite IH, (IH _ _ ([] ++ _)).
    destruct (encode_loop _ _ _ []) as [[? ?] ?]. by rewrite <-app_assoc.
Qed.

(** The encoder only appends. *)
Lemma encode_app s out : encode s out = out ++ encode s [].
Proof.
  unfold encode. rewrite encode_loop_app. destruct (encode_loop s 0 0 []) as [[acc n] o].
  case_decide; by rewrite <-?app_assoc.
Qed.

Lemma encode_bits s :
  ∃ p, (p < 8)%nat ∧ bits_of (encode s []) = codes s ++ replicate p true.
Proof.
  unfold encode. destruct (encode_loop s 0 0 []) as [[acc n] out] eqn:H.
  apply encode_loop_spec in H as [Hn H]; [|lia]. cbn in H.
  case_decide.
  - exists (8 - n)%nat. split; [lia |]. rewrite bits_of_app, <-H, <-app_assoc. f_equal.
    unfold bits_of. cbn [fmap list_fmap mjoin list_join]. rewrite app_nil_r, byte_bits_of.
    replace 8%nat with (n + (8 - n))%nat at 1 by lia.
    rewrite zbits_app. change 255 with (2 ^ 8 - 1). rewrite land_mask by lia.
    rewrite (zbits_mod _ 8) by lia. f_equal.
    + apply zbits_ext. intros i Hi.
      rewrite Z.shiftr_spec, Z.mod_pow2_bits_low, Z.lor_spec, Z.shiftl_spec by lia.
      rewrite shiftl_1_pred, Z.ones_spec_high by lia.
      rewrite orb_false_r. f_equal. lia.
    + by rewrite shiftl_1_pred, zbits_ones.
  - exists O. split; [lia |]. rewrite <-H. assert (n = O) as -> by lia.
    cbn [zbits replicate]. by rewrite !app_nil_r.
Qed.

(** ** The decoder, one bit at a time *)

Definition bit_of (b : bool) : Z := if b then 1 else 0.

Fixpoint decode_bits (tree : list Node) (limit : nat) (bs : list bool) (st : DecodeState) :
    result HuffmanError DecodeState :=
  match bs with
  | [] => Ok st
  | b :: bs => st ← decode_bit tree limit (bit_of b) st; decode_bits tree limit bs st
  end.

Lemma bit_at z s : Z.land (Z.shiftr z (Z.of_nat s)) 1 = bit_of (Z.testbit z (Z.of_nat s)).
Proof.
  change 1 with (Z.ones 1) at 1. rewrite Z.land_ones by lia. change (2 ^ 1) with 2.
  rewrite <-Z.bit0_mod, Z.shiftr_spec, Z.add_0_l by lia. by destruct (Z.testbit _ _).
Qed.

Lemma decode_bits_app tree limit a b st :
  decode_bits tree limit (a ++ b) st =
  (st ← decode_bits tree limit a st; decode_bits tree limit b st).
Proof.
  revert st. induction a as [|x a IH]; intros st; cbn [app decode_bits]; [done |].
  destruct (decode_bit _ _ _ _); cbn; [apply IH | done].
Qed.

Lemma decode_byte_bits tree limit b s st :
  decode_byte tree limit b s st = decode_bits tree limit (zbits s (u8 b)) st.
Proof.
  revert st. induction s as [|s IH]; intros st; cbn [decode_byte zbits decode_bits]; [done |].
  rewrite bit_at. destruct (decode_bit _ _ _ _); cbn; [apply IH | done].
Qed.

Lemma decode_loop_bits tree limit input st :
  decode_loop tree limit input st = decode_bits tree limit (bits_of input) st.
Proof.
  revert st. induction input as [|b input IH]; intros st; cbn [decode_loop]; [done |].
  change (bits_of (b :: input)) with (byte_bits b ++ bits_of input).
  rewrite decode_bits_app, decode_byte_bits. unfold byte_bits.
  destruct (decode_bits _ _ _ _); cbn; [apply IH | done].
Qed.

(** ** The tree, checked against the table

    [paths] lists, for each node of the tree, the bits that lead to it;
    [tree_ok] checks that every child extends its parent's path by one bit
    and that a symbol's node lies at the end of the symbol's code. *)

Definition add_paths (nodes : list Node) (ps : list (list bool)) (k : nat) : list (list bool) :=
  let go b ps :=
    let c := get_child (node_at nodes (Z.of_nat k)) (bit_of b) in
    if decide (c = NONE) then ps else <[Z.to_nat c := nth k ps [] ++ [b]]> ps in
  go true (go false ps).

Definition paths_of (nodes : list Node) : list (list bool) :=
  foldl (add_paths nodes) (replicate (length nodes) []) (seq 0 (length nodes)).

Definition edge_ok (nodes : list Node) (ps : list (list bool)) (k : nat) (b : bool) : bool :=
  let c := get_child (node_at nodes (Z.of_nat k)) (bit_of b) in
  bool_decide (c = NONE) ||
  (bool_decide (0 ≤ c) && bool_decide (nth (Z.to_nat c) ps [] = nth k ps [] ++ [b]) &&
   match symbol (node_at nodes c) with
   | None => true
   | Some s =>
       bool_decide (s = EOS) || bool_decide (nth (Z.to_nat c) ps [] = code_bits (of_u8 s))
   end).

(** Walking a path from a node, without passing a symbol before its end. *)
Fixpoint walk (nodes : list Node) (bs : list bool) (nd : Z) : option Z :=
  match bs with
  | [] => None
  | b :: bs =>
      let next := get_child (node_at nodes nd) (bit_of b) in
      if decide (next = NONE) then None
      else match symbol (node_at nodes next), bs with
           | Some s, [] => Some s
           | Some _, _ :: _ => None
           | None, _ => walk nodes bs next
           end
  end.

Definition all_bytes : bytes := of_u8 <$> seqZ 0 256.

Definition ones_ok (nodes : list Node) (p : nat) : bool :=
  match decode_bits nodes 0 (replicate p true) (mkDecode 0 O []) with
  | Ok st => bool_decide (consumed_bits st = p ∧ output st = []) &&
             ones_from nodes 600 0 (node st)
  | Err _ => false
  end.

Definition tree_ok (nodes : list Node) : bool :=
  let ps := paths_of nodes in
  forallb (λ k, edge_ok nodes ps k false && edge_ok nodes ps k true) (seq 0 (length nodes)) &&
  bool_decide (nth 0 ps [] = []) &&
  forallb (λ b, bool_decide (walk nodes (code_bits b) 0 = Some (u8 b))) all_bytes &&
  forallb (ones_ok nodes) (seq 0 8).

Lemma tree_checked : tree_ok tree = true.
Proof. vm_compute. reflexivity. Qed.

Section Tree.
(** Everything below needs of the tree only that it passes the check. *)
Context (T : list Node) (HT : tree_ok T = true).

Definition path (nd : Z) : list bool := nth (Z.to_nat nd) (paths_of T) [].

Lemma in_all_bytes b : b ∈ all_bytes.
Proof.
  unfold all_bytes. rewrite <-(of_u8_u8 b). apply list_elem_of_fmap_2, elem_of_seqZ.
  pose proof (u8_range b). lia.
Qed.

Lemma tree_facts :
  (∀ k b, (k < length T)%nat → edge_ok T (paths_of T) k b = true) ∧
  path 0 = [] ∧
  (∀ b, walk T (code_bits b) 0 = Some (u8 b)) ∧
  (∀ p, (p < 8)%nat → ones_ok T p = true).
Proof.
  pose proof HT as H. unfold tree_ok in H.
  apply andb_true_iff in H as [H Hones]. apply andb_true_iff in H as [H Hwalk].
  apply andb_true_iff in H as [Hedge Hroot].
  rewrite forallb_forall in Hedge, Hwalk, Hones. split; [|split; [|split]].
  - intros k b Hk. assert (In k (seq 0 (length T))) as Hin by (apply in_seq; lia).
    apply Hedge, andb_true_iff in Hin as [? ?]. by destruct b.
  - by apply bool_decide_eq_true in Hroot.
  - intros b. specialize (Hwalk b (proj1 (list_elem_of_In _ _) (in_all_bytes b))).
    by apply bool_decide_eq_true in Hwalk.
  - intros p Hp. apply Hones, in_seq. lia.
Qed.

Lemma get_child_outside nodes nd b :
  ¬ (Z.to_nat nd < length nodes)%nat → get_child (node_at nodes nd) b = NONE.
Proof.
  intros H. unfold node_at. rewrite nth_overflow by lia. unfold get_child. by case_decide.
Qed.

(** One edge of the tree. *)
Lemma edge nd b next :
  0 ≤ nd → get_child (node_at T nd) (bit_of b) = next → next ≠ NONE →
  0 ≤ next ∧ path next = path nd ++ [b] ∧
  ∀ s, symbol (node_at T next) = Some s → s ≠ EOS → path next = code_bits (of_u8 s).
Proof.
  intros Hnd Hn Hne. destruct (decide (Z.to_nat nd < length T)%nat) as [Hk|Hk];
    [|by rewrite get_child_outside in Hn by done].
  destruct tree_facts as [Hedge _]. specialize (Hedge _ b Hk). unfold edge_ok in Hedge.
  rewrite Z2Nat.id, Hn in Hedge by done. fold (path next) (path nd) in Hedge.
  apply orb_true_iff in Hedge as [H|H]; [by apply bool_decide_eq_true in H |].
  apply andb_true_iff in H as [H Hsym]. apply andb_true_iff in H as [H1 H2].
  apply bool_decide_eq_true in H1, H2. split; [done |]. split; [done |].
  intros s Hs Hse. rewrite Hs in Hsym.
  apply orb_true_iff in Hsym as [H|H]; by apply bool_decide_eq_true in H.
Qed.

(** What has been read is the codes of the output and the path to the node. *)
Definition decode_inv (limit : nat) (read : list bool) (st : DecodeState) : Prop :=
  0 ≤ node st ∧ read = codes (output st) ++ path (node st) ∧
  consumed_bits st = length (path (node st)) ∧ (length (output st) <= limit)%nat.

Lemma codes_snoc s b : codes (s ++ [b]) = codes s ++ code_bits b.
Proof. unfold codes. rewrite fmap_app, join_app. cbn. by rewrite app_nil_r. Qed.

Lemma decode_bit_inv limit read b st st' :
  decode_inv limit read st → decode_bit T limit (bit_of b) st = Ok st' →
  decode_inv limit (read ++ [b]) st'.
Proof.
  destruct tree_facts as (_ & Hroot & _). unfold decode_bit.
  intros (H0 & -> & Hc & Hl).
  case_decide as Hn; [done |]. destruct (edge _ b _ H0 eq_refl Hn) as (Hpos & Hp & Hs).
  destruct (symbol _) as [s|] eqn:Hsym.
  - case_decide; [done |]. case_decide; [done |]. intros [= <-].
    unfold decode_inv. cbn [node output consumed_bits]. rewrite Hroot, app_nil_r.
    rewrite codes_snoc, <-(Hs s eq_refl), Hp, app_assoc by done.
    rewrite length_app. cbn [length]. split; [lia |]. split; [done |]. split; [done | lia].
  - intros [= <-]. unfold decode_inv. cbn [node output consumed_bits].
    rewrite Hp, app_assoc, length_app. cbn [length].
    split; [lia |]. split; [done |]. split; [lia | done].
Qed.

Lemma decode_bits_inv limit bs read st st' :
  decode_inv limit read st → decode_bits T limit bs st = Ok st' →
  decode_inv limit (read ++ bs) st'.
Proof.
  revert read st. induction bs as [|b bs IH]; intros read st Hinv; cbn [decode_bits].
  - intros [= <-]. by rewrite app_nil_r.
  - intros (st1 & H1 & H)%result_bind_ok. rewrite cons_middle, app_assoc.
    eapply IH; [|exact H]. by eapply decode_bit_inv.
Qed.

(** A node on the chain of right children has a path of ones. *)
Lemma ones_from_path fuel cur nd n :
  0 ≤ cur → path cur = replicate n true → ones_from T fuel cur nd = true →
  ∃ m, path nd = replicate m true.
Proof.
  revert cur n. induction fuel as [|fuel IH]; intros cur n Hc Hp; cbn [ones_from];
    (case_decide as Heq; [subst; eauto |]); [done |].
  case_decide as Hn; [done |].
  destruct (edge cur true _ Hc eq_refl Hn) as (Hpos & Hpath & _).
  apply (IH _ (S n) Hpos). rewrite <-(Nat.add_1_r n), replicate_add, <-Hp. exact Hpath.
Qed.

(** A walk that ends at a symbol emits it. *)
Lemma walk_decode limit bs nd c out s :
  walk T bs nd = Some s → s ≠ EOS → (length out < limit)%nat →
  decode_bits T limit bs (mkDecode nd c out) = Ok (mkDecode 0 O (out ++ [of_u8 s])).
Proof.
  intros Hw Hs Hl. revert nd c Hw. induction bs as [|b bs IH]; intros nd c; cbn [walk]; [done |].
  cbn [decode_bits]. unfold decode_bit. cbn [node output consumed_bits].
  case_decide; [done |]. destruct (symbol _).
  - destruct bs; [|done]. intros [= ->]. rewrite !decide_False by (done || lia). done.
  - intros. cbn [mbind result_bind]. by apply IH.
Qed.

Lemma decode_codes limit s out :
  (length out + length s <= limit)%nat →
  decode_bits T limit (codes s) (mkDecode 0 O out) = Ok (mkDecode 0 O (out ++ s)).
Proof.
  destruct tree_facts as (_ & _ & Hwalk & _).
  revert out. induction s as [|b s IH]; intros out Hl; cbn [length] in Hl.
  - by rewrite app_nil_r.
  - change (codes (b :: s)) with (code_bits b ++ codes s).
    rewrite decode_bits_app, (walk_decode _ _ _ _ _ _ (Hwalk b)).
    + cbn [mbind result_bind]. rewrite IH, of_u8_u8, <-app_assoc by (rewrite length_app; cbn; lia).
      done.
    + pose proof (u8_range b). unfold EOS. lia.
    + lia.
Qed.

(** With no room for output, bits that decode emit nothing. *)
Lemma decode_quiet limit bs nd c out st :
  decode_bits T 0 bs (mkDecode nd c []) = Ok st →
  decode_bits T limit bs (mkDecode nd c out) = Ok (mkDecode (node st) (consumed_bits st) out).
Proof.
  revert nd c. induction bs as [|b bs IH]; intros nd c; cbn [decode_bits].
  - by intros [= <-].
  - unfold decode_bit. cbn [node output consumed_bits].
    case_decide; [done |]. destruct (symbol _); [|apply IH].
    case_decide; [done |]. rewrite decide_True by (cbn; lia). done.
Qed.
End Tree.

(** ** Exactness *)

Lemma codes_pad s t p q :
  codes s ++ replicate p true = codes t ++ replicate q true → s = t → p = q.
Proof.
  intros H ->. apply app_inv_head in H. apply (f_equal length) in H.
  by rewrite !length_replicate in H.
Qed.

(** The decoder accepts a byte string exactly when it is the encoding of a
    string within the limit. *)
Lemma decode_exact_aux input limit s :
  decode input limit [] = Ok s ↔ input = encode s [] ∧ (length s <= limit)%nat.
Proof.
  unfold decode, is_all_ones_prefix. generalize tree tree_checked. intros T HT.
  destruct (encode_bits s) as (p & Hp & Henc).
  destruct (tree_facts T HT) as (_ & Hroot & _ & Hones). rewrite decode_loop_bits. split.
  - intros (st & Hd & H)%result_bind_ok.
    case_decide as H7; [done |]. destruct (_ && _) eqn:Hpad; [done |]. injection H as <-.
    apply (decode_bits_inv T HT _ _ []) in Hd as (H0 & Hr & Hc & Hl);
      [|unfold decode_inv; cbn [node output consumed_bits]; rewrite Hroot;
        repeat split; cbn; lia].
    split; [|done]. cbn [app] in Hr.
    assert (∃ q, path T (node st) = replicate q true) as [q Hq].
    { apply andb_false_iff in Hpad as [Hz|Ho].
      - apply bool_decide_eq_false in Hz. exists O. apply nil_length_inv. lia.
      - apply negb_false_iff in Ho. eapply (ones_from_path T HT _ 0 _ 0); [lia | done | exact Ho]. }
    rewrite Hq in *. rewrite length_replicate in Hc.
    apply bits_of_inj. rewrite Henc, Hr. do 2 f_equal.
    apply (f_equal length) in Hr, Henc.
    rewrite bits_of_length, length_app, length_replicate in Hr, Henc. lia.
  - intros [-> Hl]. rewrite Henc, decode_bits_app, decode_codes by done.
    cbn [mbind result_bind app]. specialize (Hones p Hp). unfold ones_ok in Hones.
    destruct (decode_bits T 0 (replicate p true) _) as [st|] eqn:Hd; [|done].
    apply (decode_quiet T limit _ _ _ s) in Hd. rewrite Hd.
    cbn [mbind result_bind consumed_bits node output].
    apply andb_true_iff in Hones as [Hc Ho]. apply bool_decide_eq_true in Hc as [Hc _].
    rewrite Ho, Hc, decide_False by lia. cbn [negb]. by rewrite andb_false_r.
Qed.

Lemma encoded_len_aux s : encoded_len s = length (encode s []).
Proof.
  destruct (encode_bits s) as (p & Hp & Henc). apply (f_equal length) in Henc.
  rewrite bits_of_length, length_app, length_replicate in Henc.
  unfold encoded_len. cut (sum_list ((λ b, snd (table_at b)) <$> s) = length (codes s)).
  - intros ->. rewrite <-(Nat.div_unique (length (codes s) + 7) 8 (length (encode s [])) (7 - p));
      lia.
  - clear. induction s as [|b s IH]; [done |].
    change (codes (b :: s)) with (code_bits b ++ codes s).
    rewrite length_app, <-IH. cbn [fmap list_fmap sum_list sum_list_with].
    unfold code_bits. destruct (table_at b) as [c l]. rewrite zbits_length. done.
Qed.

(** ** Properties *)

(** C12. The decoder is exact: it accepts a byte string if and only if that
    string is what the encoder writes for the decoded text, and the text is
    within the limit.  So every string survives encoding and decoding, no two
    encodings decode to the same text, and a decode never exceeds its cap,
    whatever the peer sends. *)
Theorem decode_exact input limit s :
  decode input limit [] = Ok s ↔ input = encode s [] ∧ (length s <= limit)%nat.
Proof. apply decode_exact_aux. Qed.

(** [encoded_len] is the length of the encoding, so the choice the HPACK
    encoder makes on it, and the length it writes, are right. *)
Theorem encoded_len_exact s : encoded_len s = length (encode s []).
Proof. apply encoded_len_aux. Qed.
