(* ===== verification/Hpack.v ===== *)
(** * [src/http2/hpack.rs]: HPACK header compression

    The static table, the decoder with its dynamic table, the prefixed
    integers and string literals, and the encoder.  A decoding loop's turn is
    [field]; it fails without touching the decoder, so a failed block leaves
    the table as the last complete field left it, as in the code. *)
From S2P Require Import Prelude.
From S2P Require Import Text.
From S2P Require Huffman.

Open Scope Z_scope.

(** ** The code *)

Definition STATIC : list (bytes * bytes) := [
    (str ":authority", str "");
    (str ":method", str "GET");
    (str ":method", str "POST");
    (str ":path", str "/");
    (str ":path", str "/index.html");
    (str ":scheme", str "http");
    (str ":scheme", str "https");
    (str ":status", str "200");
    (str ":status", str "204");
    (str ":status", str "206");
    (str ":status", str "304");
    (str ":status", str "400");
    (str ":status", str "404");
    (str ":status", str "500");
    (str "accept-charset", str "");
    (str "accept-encoding", str "gzip, deflate");
    (str "accept-language", str "");
    (str "accept-ranges", str "");
    (str "accept", str "");
    (str "access-control-allow-origin", str "");
    (str "age", str "");
    (str "allow", str "");
    (str "authorization", str "");
    (str "cache-control", str "");
    (str "content-disposition", str "");
    (str "content-encoding", str "");
    (str "content-language", str "");
    (str "content-length", str "");
    (str "content-location", str "");
    (str "content-range", str "");
    (str "content-type", str "");
    (str "cookie", str "");
    (str "date", str "");
    (str "etag", str "");
    (str "expect", str "");
    (str "expires", str "");
    (str "from", str "");
    (str "host", str "");
    (str "if-match", str "");
    (str "if-modified-since", str "");
    (str "if-none-match", str "");
    (str "if-range", str "");
    (str "if-unmodified-since", str "");
    (str "last-modified", str "");
    (str "link", str "");
    (str "location", str "");
    (str "max-forwards", str "");
    (str "proxy-authenticate", str "");
    (str "proxy-authorization", str "");
    (str "range", str "");
    (str "referer", str "");
    (str "refresh", str "");
    (str "retry-after", str "");
    (str "server", str "");
    (str "set-cookie", str "");
    (str "strict-transport-security", str "");
    (str "transfer-encoding", str "");
    (str "user-agent", str "");
    (str "vary", str "");
    (str "via", str "");
    (str "www-authenticate", str "")
  ].

Definition ENTRY_OVERHEAD : Z := 32.
Definition MAX_STRING : nat := Z.to_nat (64 * 1024).

Inductive HpackError := Compression | TooLarge.

#[export] Instance HpackError_eq_dec : EqDecision HpackError.
Proof. solve_decision. Defined.

Record Header := mkHeader { name : bytes; value : bytes }.

#[export] Instance Header_eq_dec : EqDecision Header.
Proof. solve_decision. Defined.

(** The decoder; [dynamic] has the most recent entry first, and the field
    [size] is [table_size] here. *)
Record Decoder := mkDecoder {
  dynamic : list Header;
  table_size : Z;
  max_size : Z;
  settings_max : Z
}.

Definition new (max_size : Z) : Decoder := mkDecoder [] 0 max_size max_size.

Definition entry_size (h : Header) : Z :=
  Z.of_nat (length (name h)) + Z.of_nat (length (value h)) + ENTRY_OVERHEAD.

(** [while size > max_size { pop_back }], with the table's length as fuel. *)
Fixpoint evict_loop (fuel : nat) (max : Z) (l : list Header) (sz : Z) : list Header * Z :=
  if decide (max < sz) then
    match last l, fuel with
    | Some h, S fuel => evict_loop fuel max (take (length l - 1) l) (sz - entry_size h)
    | _, _ => (l, 0)
    end
  else (l, sz).

Definition evict (d : Decoder) : Decoder :=
  let '(l, sz) := evict_loop (length (dynamic d)) (max_size d) (dynamic d) (table_size d) in
  mkDecoder l sz (max_size d) (settings_max d).

Definition set_max_size (d : Decoder) (n : Z) : Decoder :=
  let d := mkDecoder (dynamic d) (table_size d) (max_size d) n in
  if decide (n < max_size d) then evict (mkDecoder (dynamic d) (table_size d) n n) else d.

Definition insert (d : Decoder) (h : Header) : Decoder :=
  let cost := entry_size h in
  if decide (max_size d < cost) then mkDecoder [] 0 (max_size d) (settings_max d)
  else evict (mkDecoder (h :: dynamic d) (table_size d + cost) (max_size d) (settings_max d)).

(** Adds a header to the running list total, refusing once it passes the cap. *)
Definition charge (listed : Z) (h : Header) (max : Z) : result HpackError Z :=
  let n := Z.min u64_max (listed + entry_size h) in
  if decide (max < n) then Err TooLarge else Ok n.

(** The continuation bytes of [int]. *)
Fixpoint int_loop (buf : bytes) (value shift : Z) : result HpackError (Z * bytes) :=
  match buf with
  | [] => Err Compression
  | b :: buf =>
      if decide (63 ≤ shift) then Err Compression
      else
        value ← ok_or Compression
          (checked_add64 value (wrap 64 (Z.shiftl (Z.land (u8 b) 127) shift)));
        if decide (Z.land (u8 b) 128 = 0) then Ok (value, buf)
        else int_loop buf value (shift + 7)
  end.

(** RFC 7541 section 5.1 prefixed integer. *)
Definition int (buf : bytes) (prefix : Z) : result HpackError (Z * bytes) :=
  let mask := Z.shiftl 1 prefix - 1 in
  match buf with
  | [] => Err Compression
  | b :: rest =>
      let first := Z.land (u8 b) mask in
      if decide (first < mask) then Ok (first, rest) else int_loop rest mask 0
  end.

(** RFC 7541 section 5.2 string literal. *)
Definition string (buf : bytes) : result HpackError (bytes * bytes) :=
  match buf with
  | [] => Err Compression
  | b :: _ =>
      let huffman_coded := negb (bool_decide (Z.land (u8 b) 128 = 0)) in
      '(len, rest) ← int buf 7;
      if decide (Z.of_nat (length rest) < len) then Err Compression
      else
        let raw := take (Z.to_nat len) rest in
        let rest := drop (Z.to_nat len) rest in
        bs ← (if huffman_coded
              then map_err (λ _, Compression) (Huffman.decode raw MAX_STRING [])
              else Ok raw);
        (λ s, (s, rest)) <$> ok_or Compression (from_utf8 bs)
  end.

(** Resolves an index across the static table and then the dynamic one. *)
Definition lookup (d : Decoder) (idx : Z) : result HpackError Header :=
  if decide (idx = 0) then Err Compression
  else if decide (idx ≤ Z.of_nat (length STATIC)) then
    let '(n, v) := nth (Z.to_nat (idx - 1)) STATIC ([], []) in Ok (mkHeader n v)
  else ok_or Compression (dynamic d !! Z.to_nat (idx - Z.of_nat (length STATIC) - 1)).

(** Reads a literal field's name (indexed or inline) and its value. *)
Definition literal (d : Decoder) (idx : Z) (buf : bytes) :
    result HpackError (Header * bytes) :=
  '(n, buf) ← (if decide (idx = 0) then string buf
               else h ← lookup d idx; Ok (name h, buf));
  '(v, buf) ← string buf;
  Ok (mkHeader n v, buf).

(** The locals of [Decoder::decode], the decoder included. *)
Record Block := mkBlock {
  decoder : Decoder;
  buf : bytes;
  listed : Z;
  seen_field : bool;
  out : list Header
}.

(** One turn of the loop of [decode], on a block whose first byte is [first]. *)
Definition field (max_list : Z) (first : byte) (st : Block) : result HpackError Block :=
  let bit m := negb (bool_decide (Z.land (u8 first) m = 0)) in
  let d := decoder st in
  if bit 128 then
    '(idx, rest) ← int (buf st) 7;
    h ← lookup d idx;
    listed ← charge (listed st) h max_list;
    Ok (mkBlock d rest listed true (out st ++ [h]))
  else if bit 64 then
    '(idx, rest) ← int (buf st) 6;
    '(h, rest) ← literal d idx rest;
    listed ← charge (listed st) h max_list;
    Ok (mkBlock (insert d h) rest listed true (out st ++ [h]))
  else if bit 32 then
    if seen_field st then Err Compression
    else
      '(n, rest) ← int (buf st) 5;
      if decide (settings_max d < n) then Err Compression
      else Ok (mkBlock (evict (mkDecoder (dynamic d) (table_size d) n (settings_max d)))
                 rest (listed st) false (out st))
  else
    '(idx, rest) ← int (buf st) 4;
    '(h, rest) ← literal d idx rest;
    listed ← charge (listed st) h max_list;
    Ok (mkBlock d rest listed true (out st ++ [h])).

(** The loop; every turn consumes a byte, so the block's length is enough
    fuel ([decode_loop_fuel]). *)
Fixpoint decode_loop (fuel : nat) (max_list : Z) (st : Block) : Block * result HpackError unit :=
  match buf st, fuel with
  | [], _ => (st, Ok tt)
  | first :: _, S fuel =>
      match field max_list first st with
      | Err e => (st, Err e)
      | Ok st => decode_loop fuel max_list st
      end
  | _ :: _, O => (st, Err Compression)
  end.

(** [Decoder::decode]: the decoder and the header list afterwards, and the
    verdict. *)
Definition decode (d : Decoder) (block : bytes) (max_list : Z) (hs : list Header) :
    Decoder * list Header * result HpackError unit :=
  let '(st, r) := decode_loop (length block) max_list (mkBlock d block 0 false hs) in
  (decoder st, out st, r).

(** *** The encoder *)

Record Encoder := mkEncoder { peer_max : Z; announced : bool }.

Definition new_encoder (peer_max : Z) : Encoder := mkEncoder peer_max false.

Definition set_peer_max (e : Encoder) (n : Z) : Encoder :=
  if decide (n ≠ peer_max e) then mkEncoder n false else e.

(** [while v >= 0x80], for [v : u64]: ten septets hold any of them. *)
Fixpoint write_septets (fuel : nat) (v : Z) : bytes :=
  match fuel with
  | S fuel =>
      if decide (128 ≤ v)
      then of_u8 (Z.lor (Z.land v 127) 128) :: write_septets fuel (Z.shiftr v 7)
      else [of_u8 v]
  | O => [of_u8 v]
  end.

Definition write_int (v prefix flags : Z) : bytes :=
  let mask := Z.shiftl 1 prefix - 1 in
  if decide (v < mask) then [of_u8 (Z.lor flags v)]
  else of_u8 (Z.lor flags mask) :: write_septets 10 (v - mask).

Definition write_string (s : bytes) : bytes :=
  let hlen := Huffman.encoded_len s in
  if decide (hlen < length s)%nat
  then Huffman.encode s (write_int (Z.of_nat hlen) 7 128)
  else write_int (Z.of_nat (length s)) 7 0 ++ s.

Definition begin_block (e : Encoder) (out : bytes) : Encoder * bytes :=
  if announced e then (e, out)
  else (mkEncoder (peer_max e) true, out ++ write_int 0 5 32).

(** [Encoder::encode]: the bytes appended. *)
Definition encode (n v : bytes) : bytes :=
  match list_find (λ e, e = (n, v)) STATIC with
  | Some (i, _) => write_int (Z.of_nat i + 1) 7 128
  | None =>
      (match list_find (λ e, fst e = n) STATIC with
       | Some (i, _) => write_int (Z.of_nat i + 1) 4 0
       | None => x00 :: write_string n
       end) ++ write_string v
  end.

(** ** Prefixed integers *)

Lemma mask_pos prefix : 1 ≤ prefix ≤ 8 → Z.shiftl 1 prefix - 1 = 2 ^ prefix - 1 ∧ 1 ≤ 2 ^ prefix - 1 ≤ 255.
Proof.
  intros Hp. rewrite Z.shiftl_1_l. split; [done |].
  pose proof (Z.pow_le_mono_r 2 1 prefix). pose proof (Z.pow_le_mono_r 2 prefix 8). lia.
Qed.

(** What an integer decoder consumes and returns. *)
Lemma int_loop_ok b value shift v rest :
  0 ≤ value → int_loop b value shift = Ok (v, rest) →
  value ≤ v ≤ u64_max ∧ ∃ pre, b = pre ++ rest ∧ pre ≠ [].
Proof.
  revert value shift. induction b as [|c b IH]; intros value shift Hv; cbn [int_loop]; [done |].
  case_decide as Hsh; [done |]. intros (w & Hw & H)%result_bind_ok.
  apply ok_or_ok in Hw. unfold checked_add64 in Hw. case_bool_decide as Hadd; [|done].
  injection Hw as <-. unfold wrap in *.
  pose proof (Z.mod_pos_bound (Z.shiftl (Z.land (u8 c) 127) shift) (2 ^ 64)).
  case_decide as Hb.
  - injection H as <- <-. split; [lia |]. by exists [c].
  - apply IH in H as (? & pre & -> & ?); [|lia]. split; [lia |]. by exists (c :: pre).
Qed.

Lemma int_ok b prefix v rest :
  1 ≤ prefix ≤ 8 → int b prefix = Ok (v, rest) →
  0 ≤ v ≤ u64_max ∧ ∃ pre, b = pre ++ rest ∧ pre ≠ [].
Proof.
  intros Hp. destruct (mask_pos _ Hp) as [Hm Hmr]. unfold int. rewrite Hm.
  destruct b as [|c b]; [done |]. case_decide as Hlt.
  - intros [= <- <-]. split; [|by exists [c]].
    assert (0 ≤ Z.land (u8 c) (2 ^ prefix - 1)).
    { apply Z.land_nonneg. right. lia. }
    unfold u64_max. lia.
  - intros H. apply int_loop_ok in H as (? & pre & -> & ?); [|lia].
    split; [lia |]. by exists (c :: pre).
Qed.

Lemma septet v : 0 ≤ v →
  Z.land (u8 (of_u8 (Z.lor (Z.land v 127) 128))) 127 = v mod 128 ∧
  Z.land (u8 (of_u8 (Z.lor (Z.land v 127) 128))) 128 ≠ 0.
Proof.
  intros Hv. change 127 with (2 ^ 7 - 1). rewrite !land_mask by lia.
  rewrite (Z.lor_comm _ 128). change 128 with (1 * 2 ^ 7).
  pose proof (Z.mod_pos_bound v (2 ^ 7)).
  rewrite lor_disjoint, u8_of_u8_small by lia. split; [|].
  - rewrite Z.add_comm, Z.mod_add, Z.mod_mod by lia. done.
  - rewrite <-(lor_disjoint 1 _ 7), Z.land_lor_distr_l by lia.
    rewrite Z.land_diag. intros [E _]%Z.lor_eq_0_iff. done.
Qed.

Lemma small_septet v : 0 ≤ v < 128 →
  Z.land (u8 (of_u8 v)) 127 = v ∧ Z.land (u8 (of_u8 v)) 128 = 0.
Proof.
  intros Hv. rewrite u8_of_u8_small by lia. change 127 with (2 ^ 7 - 1).
  rewrite land_mask, Z.mod_small by lia. split; [done |].
  rewrite Z.land_comm. change 128 with (1 * 2 ^ 7). apply land_disjoint; lia.
Qed.

Lemma septet_room v shift :
  0 ≤ shift < 63 → 0 ≤ v < 2 ^ (63 - shift) →
  0 ≤ v * 2 ^ shift < 2 ^ 63.
Proof.
  intros Hs Hv. replace (2 ^ 63) with (2 ^ (63 - shift) * 2 ^ shift).
  - pose proof (Z.pow_pos_nonneg 2 shift). nia.
  - rewrite <-Z.pow_add_r by lia. f_equal. lia.
Qed.

(** The arithmetic of one septet: what is left fits what is left of 63 bits. *)
Lemma septet_next v shift :
  0 ≤ shift < 63 → 128 ≤ v < 2 ^ (63 - shift) →
  shift + 7 < 63 ∧ 0 ≤ v / 128 < 2 ^ (63 - (shift + 7)) ∧
  0 ≤ v mod 128 < 2 ^ (63 - shift) ∧
  v mod 128 * 2 ^ shift + v / 128 * 2 ^ (shift + 7) = v * 2 ^ shift.
Proof.
  intros Hs Hv.
  assert (7 < 63 - shift) as H7.
  { apply (Z.pow_lt_mono_r_iff 2); [lia | lia |]. change (2 ^ 7) with 128. lia. }
  pose proof (Z.div_mod v 128). pose proof (Z.mod_pos_bound v 128).
  pose proof (Z.pow_pos_nonneg 2 shift).
  split; [lia |]. split; [|split; [lia |]].
  - split; [apply Z.div_pos; lia | apply Z.div_lt_upper_bound; [lia |]].
    replace (63 - shift) with (7 + (63 - (shift + 7))) in Hv by lia.
    rewrite Z.pow_add_r in Hv by lia. exact (proj2 Hv).
  - rewrite Z.pow_add_r by lia. change (2 ^ 7) with 128. nia.
Qed.

Lemma write_septets_round fuel v value shift rest :
  0 ≤ value → 0 ≤ shift < 63 → 0 ≤ v < 2 ^ (63 - shift) →
  63 ≤ shift + 7 * Z.of_nat (S fuel) → value + v * 2 ^ shift ≤ u64_max →
  int_loop (write_septets fuel v ++ rest) value shift = Ok (value + v * 2 ^ shift, rest).
Proof.
  revert v value shift. induction fuel as [|fuel IH]; intros v value shift Hval Hs Hv Hf Hmax.
  - assert (v < 128) as Hsmall.
    { eapply Z.lt_le_trans; [apply Hv |]. change 128 with (2 ^ 7).
      apply Z.pow_le_mono_r; lia. }
    cbn [write_septets app int_loop]. rewrite decide_False by lia.
    destruct (small_septet v) as [-> ->]; [lia |]. pose proof (septet_room v shift Hs Hv).
    unfold wrap, checked_add64. rewrite Z.shiftl_mul_pow2, Z.mod_small by lia.
    by rewrite bool_decide_eq_true_2 by lia.
  - cbn [write_septets]. case_decide as H128; cbn [app int_loop]; rewrite decide_False by lia.
    + destruct (septet v) as [-> Hcont]; [lia |].
      destruct (septet_next v shift Hs) as (Hs' & Hq & Hr & Heq); [lia |].
      pose proof (septet_room (v mod 128) shift Hs Hr).
      pose proof (septet_room _ (shift + 7) ltac:(lia) Hq).
      unfold wrap, checked_add64. rewrite Z.shiftl_mul_pow2, Z.mod_small by lia.
      rewrite bool_decide_eq_true_2 by lia. cbn [ok_or mbind result_bind].
      rewrite decide_False by done. rewrite Z.shiftr_div_pow2 by lia.
      change (2 ^ 7) with 128. rewrite IH by lia. do 2 f_equal. lia.
    + destruct (small_septet v) as [-> ->]; [lia |]. pose proof (septet_room v shift Hs Hv).
      unfold wrap, checked_add64. rewrite Z.shiftl_mul_pow2, Z.mod_small by lia.
      by rewrite bool_decide_eq_true_2 by lia.
Qed.

(** The first byte: flags above the prefix, value below it. *)
Lemma prefix_byte prefix flags v :
  1 ≤ prefix ≤ 8 → 0 ≤ flags < 2 ^ (8 - prefix) → 0 ≤ v < 2 ^ prefix →
  u8 (of_u8 (Z.lor (flags * 2 ^ prefix) v)) = flags * 2 ^ prefix + v ∧
  Z.land (u8 (of_u8 (Z.lor (flags * 2 ^ prefix) v))) (2 ^ prefix - 1) = v.
Proof.
  intros Hp Hf Hv. rewrite lor_disjoint by lia.
  assert (flags * 2 ^ prefix + v < 256).
  { replace 256 with (2 ^ (8 - prefix) * 2 ^ prefix).
    - nia.
    - rewrite <-Z.pow_add_r by lia. by replace (8 - prefix + prefix) with 8 by lia. }
  rewrite u8_of_u8_small by nia. split; [done |].
  rewrite land_mask, Z.add_comm, Z.mod_add, Z.mod_small by lia. done.
Qed.

Lemma int_write_int v prefix flags rest :
  1 ≤ prefix ≤ 8 → 0 ≤ flags < 2 ^ (8 - prefix) →
  0 ≤ v → v - (2 ^ prefix - 1) < 2 ^ 63 →
  int (write_int v prefix (flags * 2 ^ prefix) ++ rest) prefix = Ok (v, rest).
Proof.
  intros Hp Hf Hv Hmax. destruct (mask_pos _ Hp) as [Hm Hmr].
  unfold int, write_int. rewrite Hm. case_decide as Hlt; cbn [app].
  - destruct (prefix_byte prefix flags v) as [_ ->]; [lia | lia | lia |].
    by rewrite decide_True by lia.
  - destruct (prefix_byte prefix flags (2 ^ prefix - 1)) as [_ ->]; [lia | lia | lia |].
    rewrite decide_False by lia.
    rewrite write_septets_round; unfold u64_max; try lia.
    do 2 f_equal. lia.
Qed.

(** ** The dynamic table *)

Definition table_cost (l : list Header) : Z := foldr (λ h, Z.add (entry_size h)) 0 l.

(** The decoder's invariant: the byte count is exact, and within both limits. *)
Definition decoder_ok (d : Decoder) : Prop :=
  table_size d = table_cost (dynamic d) ∧ table_size d ≤ max_size d ≤ settings_max d.

Arguments entry_size : simpl never.
Arguments table_cost : simpl never.

Lemma table_cost_cons h l : table_cost (h :: l) = entry_size h + table_cost l.
Proof. reflexivity. Qed.

Lemma entry_size_pos h : 32 ≤ entry_size h.
Proof. unfold entry_size, ENTRY_OVERHEAD. lia. Qed.

Lemma table_cost_nonneg l : 0 ≤ table_cost l.
Proof.
  induction l as [|h l IH]; [done |]. rewrite table_cost_cons.
  pose proof (entry_size_pos h). lia.
Qed.

Lemma table_cost_app a b : table_cost (a ++ b) = table_cost a + table_cost b.
Proof.
  induction a as [|h a IH]; [done |]. cbn [app]. rewrite !table_cost_cons. lia.
Qed.

Lemma evict_loop_spec fuel max l :
  0 ≤ max → (length l <= fuel)%nat →
  ∃ k, evict_loop fuel max l (table_cost l) = (take k l, table_cost (take k l)) ∧
       table_cost (take k l) ≤ max.
Proof.
  intros Hmax. revert l. induction fuel as [|fuel IH]; intros l Hl.
  - destruct l; [|cbn in Hl; lia]. exists O. cbn [evict_loop take last].
    change (table_cost []) with 0. by rewrite decide_False by lia.
  - cbn [evict_loop]. case_decide as Hover.
    + destruct l as [|h l _] using rev_ind; [change (table_cost []) with 0 in Hover; lia |].
      rewrite last_snoc, length_app, Nat.add_sub, take_app_length, table_cost_app.
      replace (table_cost l + table_cost [h] - entry_size h) with (table_cost l)
        by (rewrite table_cost_cons; change (table_cost []) with 0; lia).
      rewrite length_app in Hl. cbn in Hl.
      destruct (IH l) as (k & -> & Hk); [lia |]. exists (k `min` length l)%nat.
      by rewrite take_app_le, <-take_take, firstn_all by lia.
    + exists (length l). rewrite firstn_all. split; [done | lia].
Qed.

(** A header whose strings are text. *)
Definition header_text (h : Header) : Prop :=
  utf8_valid (name h) = true ∧ utf8_valid (value h) = true.

Definition dynamic_text (d : Decoder) : Prop := Forall header_text (dynamic d).

Lemma evict_spec d :
  table_size d = table_cost (dynamic d) → 0 ≤ max_size d ≤ settings_max d →
  decoder_ok (evict d) ∧ max_size (evict d) = max_size d ∧
  settings_max (evict d) = settings_max d ∧ ∃ k, dynamic (evict d) = take k (dynamic d).
Proof.
  intros Hs Hm. unfold evict. rewrite Hs.
  destruct (evict_loop_spec (length (dynamic d)) (max_size d) (dynamic d)) as (k & -> & Hk);
    [lia | lia |].
  unfold decoder_ok. cbn [dynamic table_size max_size settings_max].
  split; [split; [done | lia] |]. split; [done |]. split; [done |]. by exists k.
Qed.

Lemma decoder_ok_pos d : decoder_ok d → 0 ≤ max_size d ≤ settings_max d.
Proof. intros [H1 H2]. pose proof (table_cost_nonneg (dynamic d)). lia. Qed.

Lemma insert_spec d h :
  decoder_ok d →
  decoder_ok (insert d h) ∧ settings_max (insert d h) = settings_max d ∧
  ∃ k, dynamic (insert d h) = take k (h :: dynamic d).
Proof.
  intros Hd. pose proof (decoder_ok_pos d Hd) as Hp. destruct Hd as [Hs Hm].
  unfold insert. case_decide as Hbig.
  - unfold decoder_ok. cbn [dynamic table_size max_size settings_max].
    split; [by split; [|lia] |]. split; [done |]. by exists O.
  - match goal with |- context [evict ?x] => destruct (evict_spec x) as (Hok & _ & Hset & Hk) end;
      cbn [dynamic table_size max_size settings_max] in *.
    + rewrite table_cost_cons, Hs. lia.
    + lia.
    + done.
Qed.

Lemma set_max_size_spec d n :
  decoder_ok d → 0 ≤ n → decoder_ok (set_max_size d n).
Proof.
  intros Hd Hn. pose proof (decoder_ok_pos d Hd) as Hp. destruct Hd as [Hs Hm].
  unfold set_max_size. case_decide.
  - apply evict_spec; cbn; lia || done.
  - unfold decoder_ok. cbn in *. lia.
Qed.

Lemma set_max_size_limit d n : decoder_ok d → 0 ≤ n → settings_max (set_max_size d n) = n.
Proof.
  intros Hd Hn. pose proof (decoder_ok_pos d Hd). unfold set_max_size. case_decide; [|done].
  cbn [dynamic table_size max_size settings_max].
  destruct (evict_spec (mkDecoder (dynamic d) (table_size d) n n)) as (_ & _ & Hs & _);
    [by destruct Hd | cbn; lia | done].
Qed.

Lemma set_max_size_text d n :
  decoder_ok d → 0 ≤ n → dynamic_text d → dynamic_text (set_max_size d n).
Proof.
  intros Hd Hn Ht. pose proof (decoder_ok_pos d Hd). unfold set_max_size. case_decide; [|done].
  destruct (evict_spec (mkDecoder (dynamic d) (table_size d) n n)) as (_ & _ & _ & k & Hk);
    [by destruct Hd | cbn; lia |]. unfold dynamic_text in *.
  cbn [dynamic table_size settings_max max_size] in *. rewrite Hk. by apply Forall_take.
Qed.

Lemma new_ok n : 0 ≤ n → decoder_ok (new n).
Proof. intros. unfold decoder_ok, new. cbn. change (table_cost []) with 0. lia. Qed.

Lemma static_text : Forall (λ e, header_text (mkHeader (fst e) (snd e))) STATIC.
Proof. by repeat constructor. Qed.

Lemma lookup_text d idx h : dynamic_text d → lookup d idx = Ok h → header_text h.
Proof.
  intros Hd. unfold lookup. case_decide; [done |]. case_decide.
  - destruct (nth_in_or_default (Z.to_nat (idx - 1)) STATIC ([], [])) as [Hin | ->];
      [|by intros [= <-]].
    destruct (nth _ _ _) as [n v]. intros [= <-].
    pose proof static_text as Hst. rewrite List.Forall_forall in Hst. by apply Hst in Hin.
  - intros Hl%ok_or_ok. unfold dynamic_text in Hd. rewrite Forall_lookup in Hd. eauto.
Qed.

Lemma string_ok b s rest :
  string b = Ok (s, rest) →
  utf8_valid s = true ∧ ∃ pre, b = pre ++ rest ∧ pre ≠ [].
Proof.
  unfold string. destruct b as [|c b]; [done |].
  intros ([len r] & Hi & H)%result_bind_ok. apply int_ok in Hi as (Hlen & pre & Heq & Hne); [|lia].
  case_decide; [done |]. apply result_bind_ok in H as (bs & _ & H).
  destruct (from_utf8 bs) as [t|] eqn:Hu; [|done]. cbn in H. injection H as <- <-.
  apply from_utf8_Some in Hu as [<- Hu]. split; [done |].
  exists (pre ++ take (Z.to_nat len) r). rewrite <-app_assoc, take_drop. split; [done |].
  by destruct pre.
Qed.

Lemma literal_ok d idx b h rest :
  dynamic_text d → literal d idx b = Ok (h, rest) →
  header_text h ∧ ∃ pre, b = pre ++ rest.
Proof.
  intros Hd. unfold literal. intros ([n b1] & Hn & H)%result_bind_ok.
  apply result_bind_ok in H as ([v b2] & Hv & [= <- <-]).
  apply string_ok in Hv as (Hv & pre & -> & _). case_decide.
  - apply string_ok in Hn as (Hn & pre' & -> & _). split; [done |].
    exists (pre' ++ pre). by rewrite <-app_assoc.
  - apply result_bind_ok in Hn as (h & Hl & [= <- ->]). apply lookup_text in Hl as [? ?]; [|done].
    split; [done |]. by exists pre.
Qed.

(** The invariant of the decoding loop. *)
Definition block_ok (max_list smax : Z) (st : Block) : Prop :=
  decoder_ok (decoder st) ∧ settings_max (decoder st) = smax ∧ dynamic_text (decoder st) ∧
  listed st = table_cost (out st) ∧ listed st ≤ max_list ∧ Forall header_text (out st).

Lemma charge_ok l h max l' :
  0 ≤ max < u64_max → charge l h max = Ok l' → l' = l + entry_size h ∧ l' ≤ max.
Proof. intros Hm. unfold charge. case_decide; [done |]. intros [= <-]. lia. Qed.

Lemma dynamic_text_take d h d' k :
  dynamic_text d → header_text h → dynamic d' = take k (h :: dynamic d) → dynamic_text d'.
Proof. intros Hd Hh Heq. unfold dynamic_text. rewrite Heq. apply Forall_take. by constructor. Qed.

Lemma block_ok_push max_list smax st d rest l h :
  0 ≤ max_list < u64_max → block_ok max_list smax st → charge (listed st) h max_list = Ok l →
  header_text h → decoder_ok d → settings_max d = smax → dynamic_text d →
  block_ok max_list smax (mkBlock d rest l true (out st ++ [h])).
Proof.
  intros Hm (_ & _ & _ & Hl & _ & Ht) [-> Hle]%charge_ok ? ? ? ?; [|done].
  unfold block_ok. cbn [decoder listed out]. rewrite table_cost_app, table_cost_cons.
  change (table_cost []) with 0. split_and!; try done; [lia |].
  apply Forall_app. by split; [|constructor].
Qed.

Lemma field_ok max_list smax first st st' :
  0 ≤ max_list < u64_max → block_ok max_list smax st → field max_list first st = Ok st' →
  block_ok max_list smax st' ∧ (length (buf st') < length (buf st))%nat.
Proof.
  intros Hm Hinv. pose proof Hinv as (Hd & Hset & Htxt & Hl & Hle & Ho). unfold field.
  assert (∀ p v rest, 1 ≤ p ≤ 8 → int (buf st) p = Ok (v, rest) →
    0 ≤ v ∧ (length rest < length (buf st))%nat) as Hint.
  { intros p v rest Hp Hi. apply int_ok in Hi as (? & pre & -> & ?); [|done].
    rewrite length_app. destruct pre; [done | cbn; lia]. }
  repeat case_match; try done.
  - intros ([idx rest] & Hi & H')%result_bind_ok. apply result_bind_ok in H' as (h & Hk & H').
    apply result_bind_ok in H' as (l & Hc & [= <-]). apply Hint in Hi as [_ Hlen]; [|lia].
    split; [|done]. apply block_ok_push; eauto using lookup_text.
  - intros ([idx rest] & Hi & H')%result_bind_ok. apply result_bind_ok in H' as ([h r2] & Hk & H').
    apply result_bind_ok in H' as (l & Hc & [= <-]). apply Hint in Hi as [_ Hlen]; [|lia].
    apply literal_ok in Hk as (Hh & pre & ->); [|done].
    destruct (insert_spec (decoder st) h Hd) as (Hok & Hs & k & Hk).
    rewrite length_app in Hlen. cbn [buf]. split; [|lia].
    apply block_ok_push; try done; [congruence | by eapply dynamic_text_take].
  - intros ([n rest] & Hi & H')%result_bind_ok. apply Hint in Hi as [Hn Hlen]; [|lia].
    case_decide; [done |]. injection H' as <-. split; [|done].
    match goal with |- context [evict ?x] => destruct (evict_spec x) as (Hok & _ & Hs & k & Hk) end;
      cbn [dynamic table_size max_size settings_max] in *; [by destruct Hd | lia |].
    unfold block_ok. cbn [decoder listed out]. split_and!; try done; [congruence |].
    unfold dynamic_text in *.
  cbn [dynamic table_size settings_max max_size] in *. rewrite Hk. by apply Forall_take.
  - intros ([idx rest] & Hi & H')%result_bind_ok. apply result_bind_ok in H' as ([h r2] & Hk & H').
    apply result_bind_ok in H' as (l & Hc & [= <-]). apply Hint in Hi as [_ Hlen]; [|lia].
    apply literal_ok in Hk as (Hh & pre & ->); [|done].
    rewrite length_app in Hlen. cbn [buf]. split; [|lia]. by apply block_ok_push.
Qed.

Lemma decode_loop_ok fuel max_list smax st :
  0 ≤ max_list < u64_max → block_ok max_list smax st →
  block_ok max_list smax (fst (decode_loop fuel max_list st)).
Proof.
  intros Hm. revert st. induction fuel as [|fuel IH]; intros st Hinv; cbn [decode_loop];
    destruct (buf st) as [|first b] eqn:Hb; try done.
  destruct (field max_list first st) as [st'|e] eqn:Hf; [|done].
  apply IH. by eapply field_ok.
Qed.

(** ** The encoder's output decodes *)

(** The first byte of a prefixed integer. *)
Lemma write_int_head v prefix flags :
  1 ≤ prefix ≤ 8 → 0 ≤ flags < 2 ^ (8 - prefix) → 0 ≤ v →
  ∃ b rest, write_int v prefix (flags * 2 ^ prefix) = b :: rest ∧
            flags * 2 ^ prefix ≤ u8 b < (flags + 1) * 2 ^ prefix.
Proof.
  intros Hp Hf Hv. destruct (mask_pos _ Hp) as [Hm Hmr]. unfold write_int. rewrite Hm.
  case_decide.
  - eexists _, _. split; [done |].
    destruct (prefix_byte prefix flags v) as [-> _]; [lia | lia | lia | nia].
  - eexists _, _. split; [done |].
    destruct (prefix_byte prefix flags (2 ^ prefix - 1)) as [-> _]; [lia | lia | lia | nia].
Qed.

(** The class of a field by the range of its first byte. *)
Lemma first_bits b :
  (128 ≤ u8 b → Z.land (u8 b) 128 ≠ 0) ∧ (u8 b < 128 → Z.land (u8 b) 128 = 0) ∧
  (u8 b < 64 → Z.land (u8 b) 64 = 0) ∧ (32 ≤ u8 b < 64 → Z.land (u8 b) 32 ≠ 0) ∧
  (u8 b < 32 → Z.land (u8 b) 32 = 0).
Proof. destruct b; vm_compute; intuition discriminate. Qed.

Lemma string_write_string s rest :
  utf8_valid s = true → (length s <= MAX_STRING)%nat →
  string (write_string s ++ rest) = Ok (s, rest).
Proof.
  intros Hu Hmax. unfold write_string. rewrite Huffman.encoded_len_aux.
  assert (Z.of_nat (length s) ≤ 65536) by (unfold MAX_STRING in Hmax; lia).
  assert (∀ flags body, flags = 0 ∨ flags = 1 → (length body <= length s)%nat →
    string ((write_int (Z.of_nat (length body)) 7 (flags * 2 ^ 7) ++ body) ++ rest) =
    (bs ← (if decide (flags = 0) then Ok body
           else map_err (λ _, Compression) (Huffman.decode body MAX_STRING []));
     (λ s, (s, rest)) <$> ok_or Compression (from_utf8 bs))) as Hgen.
  { intros flags body Hf Hl. rewrite <-app_assoc.
    destruct (write_int_head (Z.of_nat (length body)) 7 flags) as (b & tl & Heq & Hb); [lia..|].
    pose proof (int_write_int (Z.of_nat (length body)) 7 flags (body ++ rest)) as Hi.
    specialize (Hi ltac:(lia) ltac:(lia) ltac:(lia) ltac:(lia)).
    rewrite Heq in *. cbn [app] in *. unfold string. rewrite Hi. cbn [mbind result_bind].
    rewrite decide_False by len_lia.
    rewrite Nat2Z.id, take_app_length, drop_app_length.
    destruct (first_bits b) as (H1 & H0 & _). destruct Hf as [-> | ->].
    - rewrite H0 by lia. done.
    - rewrite bool_decide_eq_false_2 by (apply H1; lia). done. }
  case_decide as Hshort.
  - rewrite Huffman.encode_app. rewrite (Hgen 1) by (auto; lia). rewrite decide_False by lia.
    assert (Huffman.decode (Huffman.encode s []) MAX_STRING [] = Ok s) as ->
      by (by apply Huffman.decode_exact_aux).
    cbn [map_err mbind result_bind]. unfold from_utf8. by rewrite Hu.
  - rewrite (Hgen 0) by auto. rewrite decide_True by done.
    cbn [mbind result_bind]. unfold from_utf8. by rewrite Hu.
Qed.

Definition encodable (h : Header) : Prop :=
  header_text h ∧ (length (name h) <= MAX_STRING)%nat ∧ (length (value h) <= MAX_STRING)%nat.

Lemma static_index i e : STATIC !! i = Some e → 0 ≤ Z.of_nat i < 61.
Proof. intros H%lookup_lt_Some. cbn in H. lia. Qed.

Lemma static_lookup d i n v :
  STATIC !! i = Some (n, v) → lookup d (Z.of_nat i + 1) = Ok (mkHeader n v).
Proof.
  intros H. pose proof (static_index _ _ H). unfold lookup.
  rewrite decide_False, decide_True by (cbn [length STATIC]; lia).
  replace (Z.to_nat (Z.of_nat i + 1 - 1)) with i by lia.
  rewrite nth_lookup, H. done.
Qed.

(** A field the encoder writes, seen by the decoder. *)
Lemma field_encode d listed0 seen hs n v rest l max_list :
  encodable (mkHeader n v) → charge listed0 (mkHeader n v) max_list = Ok l →
  ∃ first tl, encode n v ++ rest = first :: tl ∧
    field max_list first (mkBlock d (encode n v ++ rest) listed0 seen hs) =
    Ok (mkBlock d rest l true (hs ++ [mkHeader n v])).
Proof.
  intros ([Hn Hv] & Hln & Hlv) Hc. cbn [name value] in *. unfold encode.
  destruct (list_find (λ e, e = (n, v)) STATIC) as [[i e]|] eqn:Hfull.
  { apply list_find_Some in Hfull as (Hi & -> & _). pose proof (static_index _ _ Hi).
    destruct (write_int_head (Z.of_nat i + 1) 7 1) as (b & tl & Heq & Hb); [lia..|].
    pose proof (int_write_int (Z.of_nat i + 1) 7 1 rest ltac:(lia) ltac:(lia) ltac:(lia) ltac:(lia))
      as Hint.
    change (1 * 2 ^ 7) with 128 in *. exists b, (tl ++ rest). rewrite Heq in *. split; [done |].
    unfold field. cbn [decoder buf listed out]. destruct (first_bits b) as (H1 & _).
    rewrite bool_decide_eq_false_2 by (apply H1; lia). cbn [negb].
    rewrite Hint. cbn [mbind result_bind]. rewrite (static_lookup _ _ _ _ Hi). cbn [mbind result_bind].
    by rewrite Hc. }
  clear Hfull.
  assert (∀ idx (nm : bytes), 0 ≤ idx < 128 →
    literal d idx (nm ++ write_string v ++ rest) = Ok (mkHeader n v, rest) →
    ∃ first tl, (write_int idx 4 0 ++ nm) ++ write_string v ++ rest = first :: tl ∧
      field max_list first
        (mkBlock d ((write_int idx 4 0 ++ nm) ++ write_string v ++ rest) listed0 seen hs) =
      Ok (mkBlock d rest l true (hs ++ [mkHeader n v]))) as Hgen.
  { intros idx nm Hidx Hlit. rewrite <-app_assoc.
    destruct (write_int_head idx 4 0) as (b & tl & Heq & Hb); [lia..|].
    pose proof (int_write_int idx 4 0 (nm ++ write_string v ++ rest)
      ltac:(lia) ltac:(lia) ltac:(lia) ltac:(lia)) as Hint.
    change (0 * 2 ^ 4) with 0 in *. exists b, (tl ++ nm ++ write_string v ++ rest).
    rewrite Heq in *. split; [done |]. unfold field. cbn [decoder buf listed out].
    destruct (first_bits b) as (_ & H128 & H64 & _ & H32).
    change ((0 + 1) * 2 ^ 4) with 16 in Hb. rewrite H128, H64, H32 by lia. cbn [bool_decide negb].
    rewrite Hint. cbn [mbind result_bind]. rewrite Hlit. cbn [mbind result_bind]. by rewrite Hc. }
  destruct (list_find (λ e, fst e = n) STATIC) as [[i [n' v']]|] eqn:Hname.
  - apply list_find_Some in Hname as (Hi & Hfst & _). cbn in Hfst. subst n'.
    pose proof (static_index _ _ Hi).
    destruct (Hgen (Z.of_nat i + 1) []) as (first & tl & H1 & H2).
    + lia.
    + unfold literal. rewrite decide_False by lia. rewrite (static_lookup _ _ _ _ Hi).
      cbn [mbind result_bind app name]. rewrite string_write_string by done. done.
    + rewrite app_nil_r in *. rewrite <-app_assoc. eauto.
  - destruct (Hgen 0 (write_string n)) as (first & tl & H1 & H2).
    + lia.
    + unfold literal. rewrite decide_True by done. rewrite string_write_string by done.
      cbn [mbind result_bind]. rewrite string_write_string by done. done.
    + change (write_int 0 4 0) with [x00] in *. cbn [app] in *. rewrite <-app_assoc. eauto.
Qed.

Definition encode_all (hs : list Header) : bytes :=
  mjoin ((λ h, encode (name h) (value h)) <$> hs).

Lemma decode_loop_encode_all fuel d max_list l seen acc hs :
  (length (encode_all hs) <= fuel)%nat → 0 ≤ l → max_list < u64_max →
  Forall encodable hs → l + table_cost hs ≤ max_list →
  decode_loop fuel max_list (mkBlock d (encode_all hs) l seen acc) =
  (mkBlock d [] (l + table_cost hs) (match hs with [] => seen | _ => true end) (acc ++ hs), Ok tt).
Proof.
  intros Hf Hl Hm Henc. revert fuel l seen acc Hf Hl.
  induction Henc as [|h hs Hh _ IH]; intros fuel l seen acc Hf Hl Hmax.
  - change (table_cost []) with 0. rewrite Z.add_0_r, app_nil_r. by destruct fuel.
  - change (encode_all (h :: hs)) with (encode (name h) (value h) ++ encode_all hs) in *.
    rewrite table_cost_cons in *. pose proof (table_cost_nonneg hs).
    destruct h as [n v]. cbn [name value] in *.
    destruct (field_encode d l seen acc n v (encode_all hs) (l + entry_size (mkHeader n v)) max_list)
      as (first & tl & Heq & Hfield); [done | |].
    { unfold charge. rewrite decide_False by lia. f_equal. pose proof (entry_size_pos (mkHeader n v)). lia. }
    destruct fuel as [|fuel]; [rewrite Heq in Hf; cbn in Hf; lia |].
    cbn [decode_loop buf]. rewrite Heq at 1. rewrite Hfield.
    pose proof (entry_size_pos (mkHeader n v)).
    assert (length (encode n v) > 0)%nat.
    { pose proof (f_equal length Heq) as Hlen. rewrite length_app in Hlen, Hf.
      destruct (encode n v) as [|c e] eqn:He; [|cbn; lia]. exfalso.
      unfold encode in He. repeat case_match; try done; unfold write_int in He; repeat case_match; done. }
    rewrite length_app in Hf. rewrite IH by lia.
    rewrite <-app_assoc, Z.add_assoc. cbn [app]. f_equal. f_equal. by destruct hs.
Qed.

(** The block's length is enough fuel: more changes nothing. *)
Lemma decode_loop_fuel fuel extra max_list smax st :
  0 ≤ max_list < u64_max → block_ok max_list smax st → (length (buf st) <= fuel)%nat →
  decode_loop (fuel + extra) max_list st = decode_loop fuel max_list st.
Proof.
  intros Hm. revert st. induction fuel as [|fuel IH]; intros st Hinv Hf; cbn [decode_loop Nat.add].
  - destruct (buf st) as [|? ?] eqn:Hb; [|cbn in Hf; lia].
    destruct extra; cbn [decode_loop]; by rewrite Hb.
  - destruct (buf st) as [|first b] eqn:Hb; [done |].
    destruct (field max_list first st) as [st'|e] eqn:Hfd; [|done].
    apply (field_ok max_list smax) in Hfd as [Hinv' Hlen]; [|done|done].
    apply IH; [done |]. rewrite Hb in Hlen. cbn in *. lia.
Qed.

Lemma block_ok_start d block max_list :
  0 ≤ max_list → decoder_ok d → dynamic_text d →
  block_ok max_list (settings_max d) (mkBlock d block 0 false []).
Proof. intros. unfold block_ok. cbn. by split_and!. Qed.

(** Decoding keeps the decoder's invariant and bounds the header list. *)
Lemma decode_ok d block max_list d' hs r :
  0 ≤ max_list < u64_max → decoder_ok d → dynamic_text d →
  decode d block max_list [] = (d', hs, r) →
  decoder_ok d' ∧ settings_max d' = settings_max d ∧ dynamic_text d' ∧
  table_cost hs ≤ max_list ∧ Forall header_text hs.
Proof.
  intros Hm Hd Ht. unfold decode.
  pose proof (decode_loop_ok (length block) _ _ _ Hm
    (block_ok_start d block max_list ltac:(lia) Hd Ht)) as Hok.
  destruct (decode_loop _ _ _) as [st r']. intros [= <- <- <-]. cbn [fst] in Hok.
  destruct Hok as (? & ? & ? & Hl & Hle & ?). rewrite Hl in Hle. by split_and!.
Qed.

(** The size update the encoder announces. *)
Lemma field_size_update d rest l acc max_list :
  0 ≤ settings_max d →
  field max_list x20 (mkBlock d (x20 :: rest) l false acc) =
  Ok (mkBlock (evict (mkDecoder (dynamic d) (table_size d) 0 (settings_max d))) rest l false acc).
Proof.
  intros Hs. unfold field. cbn [decoder buf listed out seen_field].
  change (Z.land (u8 x20) 128) with 0. change (Z.land (u8 x20) 64) with 0.
  change (Z.land (u8 x20) 32) with 32.
  change (int (x20 :: rest) 5) with (Ok (E := HpackError) (0, rest)).
  rewrite !bool_decide_eq_true_2, bool_decide_eq_false_2 by done.
  cbn [negb mbind result_bind]. by rewrite decide_False by lia.
Qed.

(** What the response writer sends: a block's start and its fields. *)
Definition header_block (e : Encoder) (hs : list Header) : Encoder * bytes :=
  let '(e, out) := begin_block e [] in (e, out ++ encode_all hs).

(** The peer's decoder on such a block. *)
Lemma header_block_decodes e d hs max_list :
  decoder_ok d → Forall encodable hs → table_cost hs ≤ max_list < u64_max →
  decode d (snd (header_block e hs)) max_list [] =
  (if announced e then d else mkDecoder [] 0 0 (settings_max d), hs, Ok tt).
Proof.
  intros Hd Henc Hmax. pose proof (decoder_ok_pos d Hd) as Hpos.
  unfold decode, header_block, begin_block. pose proof (table_cost_nonneg hs).
  destruct (announced e); cbn [snd app].
  - rewrite decode_loop_encode_all by (done || lia). done.
  - change (write_int 0 5 32) with [x20]. cbn [app length decode_loop buf].
    rewrite field_size_update by lia.
    assert (evict (mkDecoder (dynamic d) (table_size d) 0 (settings_max d)) =
            mkDecoder [] 0 0 (settings_max d)) as ->.
    { destruct (evict_spec (mkDecoder (dynamic d) (table_size d) 0 (settings_max d)))
        as ([Hs Hsm] & Hm & Hset & _); cbn in *; [by destruct Hd | lia |].
      destruct (evict _) as [l sz m sm]. cbn in *. subst m sm.
      destruct l as [|h l]; [|].
      - subst sz. done.
      - rewrite table_cost_cons in Hs. pose proof (entry_size_pos h).
        pose proof (table_cost_nonneg l). lia. }
    rewrite decode_loop_encode_all by (done || lia). done.
Qed.

(** ** Properties *)

(** A prefixed integer written at any prefix, under any flags, reads back
    as itself, up to the decoder's limit of 63 bits past the prefix. *)
Theorem int_roundtrip v prefix flags rest :
  1 ≤ prefix ≤ 8 → 0 ≤ flags < 2 ^ (8 - prefix) → 0 ≤ v < 2 ^ prefix - 1 + 2 ^ 63 →
  int (write_int v prefix (flags * 2 ^ prefix) ++ rest) prefix = Ok (v, rest).
Proof. intros. apply int_write_int; lia. Qed.

Lemma int_roundtrip_witness :
  int (write_int 1337 5 (2 * 2 ^ 5) ++ str "x") 5 = Ok (1337, str "x").
Proof. apply int_roundtrip; lia. Defined.

(** The decoder's invariant survives any block a peer can send, accepted
    or not: the byte count of the dynamic table is exact and within both the
    peer's limit and the one we advertised.  The header list never exceeds
    its cap, counted at 32 bytes a header over its text (no decompression
    bomb), all of it is valid UTF-8, and the loop ends: the block's length is
    enough fuel for it. *)
Theorem decode_bounded d block max_list :
  0 ≤ max_list < u64_max → decoder_ok d → dynamic_text d →
  let '(d', hs, r) := decode d block max_list [] in
  decoder_ok d' ∧ settings_max d' = settings_max d ∧ dynamic_text d' ∧
  table_cost hs ≤ max_list ∧ Forall header_text hs ∧
  ∀ extra, decode_loop (length block + extra) max_list (mkBlock d block 0 false []) =
           decode_loop (length block) max_list (mkBlock d block 0 false []).
Proof.
  intros Hm Hd Ht. destruct (decode d block max_list []) as [[d' hs] r] eqn:E.
  apply decode_ok in E as (? & ? & ? & ? & ?); [|done..]. split_and!; try done. intros extra.
  apply (decode_loop_fuel _ extra _ (settings_max d)); [done | | done].
  apply block_ok_start; done || lia.
Qed.

(** A block that lowers the table, adds an entry and is then refused. *)
Lemma decode_bounded_witness :
  let block := write_int 100 5 32 ++ [x40] ++ write_string (str "a") ++ write_string (str "b")
               ++ write_int 62 7 128 ++ [x80] in
  let '(d', hs, r) := decode (new 4096) block 1000 [] in
  (decoder_ok d' ∧ settings_max d' = settings_max (new 4096) ∧ dynamic_text d' ∧
   table_cost hs ≤ 1000 ∧ Forall header_text hs ∧
   ∀ extra, decode_loop (length block + extra) 1000 (mkBlock (new 4096) block 0 false []) =
            decode_loop (length block) 1000 (mkBlock (new 4096) block 0 false [])) ∧
  r = Err Compression ∧ length hs = 2%nat.
Proof.
  intros block. pose proof (decode_bounded (new 4096) block 1000) as H.
  assert (decode (new 4096) block 1000 [] =
    (mkDecoder [mkHeader (str "a") (str "b")] 34 100 4096,
     [mkHeader (str "a") (str "b"); mkHeader (str "a") (str "b")], Err Compression)) as E
    by reflexivity.
  rewrite E in *. split; [|done].
  apply H; [unfold u64_max; lia | apply new_ok; lia | constructor].
Defined.

(** C30. Compression is transparent: whatever the state of the peer's decoder,
    the block our encoder writes for a list of headers decodes to exactly
    that list, in order, and the decoder's dynamic table afterwards is empty
    if the block announced it and unchanged otherwise. *)
Theorem encoder_decoder_roundtrip e d hs max_list :
  decoder_ok d → Forall encodable hs → table_cost hs ≤ max_list < u64_max →
  decode d (snd (header_block e hs)) max_list [] =
  (if announced e then d else mkDecoder [] 0 0 (settings_max d), hs, Ok tt).
Proof. apply header_block_decodes. Qed.

Lemma encoder_decoder_roundtrip_witness :
  let hs := [mkHeader (str ":status") (str "200"); mkHeader (str "server") (str "oxiserve");
             mkHeader (str "x-custom") (str "www.example.com")] in
  decode (new 4096) (snd (header_block (new_encoder 4096) hs)) 16384 [] =
  (mkDecoder [] 0 0 4096, hs, Ok tt).
Proof.
  apply (encoder_decoder_roundtrip (new_encoder 4096) (new 4096)).
  - apply new_ok. lia.
  - unfold encodable, MAX_STRING.
    repeat (apply Forall_cons; split; [split; [by split | cbn [name value length]; split; cbn; lia] |]).
    constructor.
  - by vm_compute.
Defined.
