(* ===== verification/H2Frame.v ===== *)
(** * [src/http2/frame.rs]: HTTP/2 framing

    Frame headers, padding and the small fixed-shape frames.  No state. *)
From S2P Require Import Prelude Wire.

Open Scope Z_scope.

(** ** The code *)

Definition HEADER_LEN : nat := 9.
Definition DEFAULT_MAX_FRAME : Z := 16384.
Definition MAX_FRAME_LIMIT : Z := 16777215.
Definition DEFAULT_WINDOW : Z := 65535.
Definition MAX_WINDOW : Z := 2147483647.

Module kind.
Definition DATA : Z := 0.
Definition HEADERS : Z := 1.
Definition PRIORITY : Z := 2.
Definition RST_STREAM : Z := 3.
Definition SETTINGS : Z := 4.
Definition PUSH_PROMISE : Z := 5.
Definition PING : Z := 6.
Definition GOAWAY : Z := 7.
Definition WINDOW_UPDATE : Z := 8.
Definition CONTINUATION : Z := 9.
End kind.

Module flag.
Definition END_STREAM : Z := 1.
Definition ACK : Z := 1.
Definition END_HEADERS : Z := 4.
Definition PADDED : Z := 8.
Definition PRIORITY : Z := 32.
End flag.

Inductive Code :=
  | NoError | Protocol | Internal | FlowControl | SettingsTimeout | StreamClosed | FrameSize
  | RefusedStream | Cancel | CompressionError | Connect | EnhanceYourCalm
  | InadequateSecurity | Http11Required.

#[export] Instance Code_eq_dec : EqDecision Code.
Proof. solve_decision. Defined.

(** [code as u32] *)
Definition code_u32 (c : Code) : Z :=
  match c with
  | NoError => 0 | Protocol => 1 | Internal => 2 | FlowControl => 3 | SettingsTimeout => 4
  | StreamClosed => 5 | FrameSize => 6 | RefusedStream => 7 | Cancel => 8
  | CompressionError => 9 | Connect => 10 | EnhanceYourCalm => 11
  | InadequateSecurity => 12 | Http11Required => 13
  end.

Module setting.
Definition HEADER_TABLE_SIZE : Z := 1.
Definition ENABLE_PUSH : Z := 2.
Definition MAX_CONCURRENT_STREAMS : Z := 3.
Definition INITIAL_WINDOW_SIZE : Z := 4.
Definition MAX_FRAME_SIZE : Z := 5.
Definition MAX_HEADER_LIST_SIZE : Z := 6.
End setting.

Record Head := mkHead { len : Z; head_kind : Z; flags : Z; stream : Z }.

#[export] Instance Head_eq_dec : EqDecision Head.
Proof. solve_decision. Defined.

(** [Head::parse], on the nine bytes of a frame header. *)
Definition parse (b : bytes) : Head :=
  mkHead (from_be (x00 :: take 3 b)) (u8 (nth 3 b x00)) (u8 (nth 4 b x00))
    (Z.land (from_be (take 4 (drop 5 b))) 2147483647).

Definition has (h : Head) (f : Z) : bool := negb (bool_decide (Z.land (flags h) f = 0)).

Definition write (h : Head) : bytes :=
  drop 1 (to_be 4 (len h)) ++ [of_u8 (head_kind h); of_u8 (flags h)] ++ to_be 4 (stream h).

Definition write_frame (kind flags stream : Z) (payload : bytes) : bytes :=
  write (mkHead (wrap 32 (Z.of_nat (length payload))) kind flags stream) ++ payload.

(** Strips the padding from a DATA or HEADERS payload. *)
Definition unpad (payload : bytes) (padded : bool) : option bytes :=
  if negb padded then Some payload
  else match payload with
       | [] => None
       | p :: rest =>
           let pad := Z.to_nat (u8 p) in
           if decide (length rest < pad)%nat then None
           else Some (take (length rest - pad) rest)
       end.

Definition goaway (last_stream : Z) (code : Code) (debug : bytes) : bytes :=
  write_frame kind.GOAWAY 0 0 (to_be 4 last_stream ++ to_be 4 (code_u32 code) ++ debug).

Definition rst (stream : Z) (code : Code) : bytes :=
  write_frame kind.RST_STREAM 0 stream (to_be 4 (code_u32 code)).

Definition window_update (stream increment : Z) : bytes :=
  write_frame kind.WINDOW_UPDATE 0 stream (to_be 4 increment).

Definition settings (pairs : list (Z * Z)) : bytes :=
  write_frame kind.SETTINGS 0 0 (mjoin ((λ '(id, v), to_be 2 id ++ to_be 4 v) <$> pairs)).

Definition settings_ack : bytes := write_frame kind.SETTINGS flag.ACK 0 [].

Definition u32_at (b : bytes) (off : nat) : option Z :=
  if decide (off + 4 <= length b)%nat then Some (from_be (take 4 (drop off b))) else None.

(** ** Lemmas *)

Lemma to_be_drop1 z : drop 1 (to_be 4 z) = to_be 3 z.
Proof. reflexivity. Qed.

Lemma write_length h : length (write h) = HEADER_LEN.
Proof. unfold write. rewrite to_be_drop1. reflexivity. Qed.

Lemma u32_at_to_be z rest : 0 ≤ z < 2 ^ 32 → u32_at (to_be 4 z ++ rest) 0 = Some z.
Proof.
  intros Hz. unfold u32_at. rewrite decide_True by (rewrite length_app, length_to_be; lia).
  rewrite drop_0. f_equal. rewrite take_app_le, take_ge by (rewrite length_to_be; lia).
  by apply from_be_to_be_small.
Qed.

Lemma parse_write h :
  0 ≤ len h < 2 ^ 24 → 0 ≤ head_kind h < 256 → 0 ≤ flags h < 256 → 0 ≤ stream h < 2 ^ 32 →
  parse (write h) = mkHead (len h) (head_kind h) (flags h) (stream h mod 2 ^ 31).
Proof.
  intros Hl Hk Hf Hs. unfold parse, write. rewrite to_be_drop1.
  change (take 3 (to_be 3 (len h) ++ ?r)) with (to_be 3 (len h)).
  change (nth 3 (to_be 3 (len h) ++ [?a; ?b] ++ ?r) x00) with a.
  change (nth 4 (to_be 3 (len h) ++ [?a; ?b] ++ ?r) x00) with b.
  change (take 4 (drop 5 (to_be 3 (len h) ++ [?a; ?b] ++ to_be 4 (stream h))))
    with (to_be 4 (stream h)).
  rewrite !u8_of_u8_small by lia. f_equal.
  - change (from_be (x00 :: to_be 3 (len h))) with (0 + from_be (to_be 3 (len h))).
    rewrite Z.add_0_l. by apply from_be_to_be_small.
  - rewrite from_be_to_be_small by done. by apply (land_mask _ 31).
Qed.

(** ** The frame stream

    A frame taken off the front of a buffer once all of it is there: what the
    connection's two [read_exact]s, of the header and of the payload, do. *)
Definition next_frame (buf : bytes) : option (Head * bytes * nat) :=
  if decide (length buf < HEADER_LEN)%nat then None
  else
    let h := parse (take HEADER_LEN buf) in
    let rest := drop HEADER_LEN buf in
    if decide (length rest < Z.to_nat (len h))%nat then None
    else Some (h, take (Z.to_nat (len h)) rest, (HEADER_LEN + Z.to_nat (len h))%nat).

Definition frame_valid (f : Head * bytes) : Prop :=
  let '(h, payload) := f in
  len h = Z.of_nat (length payload) ∧ len h ≤ MAX_FRAME_LIMIT ∧
  0 ≤ head_kind h < 256 ∧ 0 ≤ flags h < 256 ∧ 0 ≤ stream h < 2 ^ 31.

Lemma next_frame_app buf more f n :
  next_frame buf = Some (f, n) → next_frame (buf ++ more) = Some (f, n).
Proof.
  unfold next_frame. case_decide as H1; [done |]. case_decide as H2; [done |]. intros <-.
  rewrite take_app_le, drop_app_le, !decide_False by len_lia.
  by rewrite take_app_le by lia.
Qed.

Lemma next_frame_takes buf f n : next_frame buf = Some (f, n) → (0 < n <= length buf)%nat.
Proof.
  unfold next_frame, HEADER_LEN. case_decide as H1; [done |]. case_decide as H2; [done |].
  rewrite length_drop in H2. set (k := Z.to_nat _) in *. clearbody k. intros [= _ <-]. lia.
Qed.

Lemma next_frame_write f :
  frame_valid f → next_frame (write (fst f) ++ snd f) = Some (f, length (write (fst f) ++ snd f)).
Proof.
  destruct f as [h p]. intros (Hl & Hm & Hk & Hf & Hs). cbn [fst snd]. unfold MAX_FRAME_LIMIT in Hm.
  unfold next_frame. pose proof (write_length h) as Hw.
  rewrite length_app, Hw, decide_False by lia. rewrite <-Hw, take_app_length, drop_app_length.
  rewrite parse_write by lia. cbn [len]. rewrite Hl, Nat2Z.id, decide_False, firstn_all by lia.
  rewrite (Z.mod_small (stream h)), <-Hl by lia. by destruct h.
Qed.

#[export] Instance frame_wire : WireFormat (Head * bytes) := {
  wf_valid := frame_valid;
  wf_encode f := write (fst f) ++ snd f;
  wf_decode := next_frame;
  wf_takes := next_frame_takes;
  wf_stable := next_frame_app;
  wf_roundtrip := next_frame_write
}.

(** A message's bytes are what [write_frame] writes. *)
Definition written (f : Head * bytes) : bytes :=
  write_frame (head_kind (fst f)) (flags (fst f)) (stream (fst f)) (snd f).

Lemma encode_written f : frame_valid f → wf_encode f = written f.
Proof.
  destruct f as [h p]. intros (Hl & Hm & _). unfold MAX_FRAME_LIMIT in Hm. cbn.
  unfold written, write_frame, wrap. cbn [fst snd]. rewrite Z.mod_small, <-Hl by lia. by destruct h.
Qed.

Lemma stream_written fs : Forall frame_valid fs → stream_of fs = mjoin (written <$> fs).
Proof.
  intros Hfs. unfold stream_of. f_equal. apply Forall_fmap_ext.
  eapply Forall_impl; [exact Hfs | apply encode_written].
Qed.

(** ** Properties *)

(** Framing is a round trip over a stream: frames written one after the
    other with [write_frame] are read back as they were - length, kind,
    flags, stream and payload - however the bytes are cut on their way, with
    nothing left over. *)
Theorem frames_reassemble fs chunks :
  Forall frame_valid fs → mjoin chunks = mjoin (written <$> fs) →
  foldl (λ st c, arrive c st) ([], []) chunks = (fs, []).
Proof.
  intros Hfs Hc. apply reassemble; [done |]. by rewrite stream_written.
Qed.

Lemma frames_reassemble_witness :
  foldl (λ st c, arrive c st) ([], [])
    [take 5 (rst 3 Cancel); drop 5 (rst 3 Cancel) ++ take 10 (settings_ack ++ window_update 0 7);
     drop 10 (settings_ack ++ window_update 0 7)] =
  ([(mkHead 4 3 0 3, to_be 4 8); (mkHead 0 4 1 0, []); (mkHead 4 8 0 0, to_be 4 7)], []).
Proof.
  apply frames_reassemble; [|reflexivity].
  repeat constructor; unfold MAX_FRAME_LIMIT; cbn; lia.
Defined.

(** [unpad] accepts a padded payload exactly when it is a pad length,
    some data and that many bytes of padding, and returns the data. *)
Theorem unpad_exact payload data :
  unpad payload true = Some data ↔
  ∃ p padding, payload = p :: data ++ padding ∧ Z.of_nat (length padding) = u8 p.
Proof.
  unfold unpad. cbn [negb]. split.
  - destruct payload as [|p rest]; [done |]. case_decide as Hp; [done |]. intros [= <-].
    exists p, (drop (length rest - Z.to_nat (u8 p)) rest). rewrite take_drop.
    split; [done |]. rewrite length_drop. pose proof (u8_range p). lia.
  - intros (p & padding & -> & Hp). rewrite length_app, decide_False by lia.
    f_equal. replace (length data + length padding - Z.to_nat (u8 p))%nat with (length data) by lia.
    apply take_app_length.
Qed.
