(* ===== verification/H2Conn.v ===== *)
(** * [src/http2/conn.rs]: an HTTP/2 connection

    The reader loop is a state machine: [Conn] is its locals and the flow
    state it shares with the stream tasks, [on_frame] is the handling of one
    frame (the [match] on its kind, early returns and [continue]s included),
    [dispatch] the step at the bottom of the loop, and [step] their
    composition.  Stream tasks run beside it and touch the connection in
    three ways, which are steps of their own: they finish ([task_done]), they
    spend window on DATA ([pump_once]), and what they send goes through [tx].
    The handler, the socket and the timers are not modelled: a request handed
    to [spawn_stream] is an entry of [spawned]. *)
From S2P Require Import Prelude Wire.
From S2P Require Import Text.
From S2P Require Import Hpack.
From S2P Require Import H2Frame.

Open Scope Z_scope.

(** ** The code: state *)

Definition OUR_INITIAL_WINDOW : Z := 1024 * 1024.
Definition MAX_CONCURRENT : Z := 128.
Definition MAX_HEADER_LIST : Z := 64 * 1024.
Definition WINDOW_REFILL_AT : Z := OUR_INITIAL_WINDOW / 2.

(** [ConnErr(Code, &'static str)] *)
Record ConnErr := mkConnErr { err_code : Code; err_why : bytes }.

Inductive State := Open | HalfClosedRemote | Reset.

#[export] Instance State_eq_dec : EqDecision State.
Proof. solve_decision. Defined.

(** A stream, with its [StreamFlow] ([window], [reset], [done]). *)
Record Stream := mkStream {
  state : State;
  window : Z;
  reset : bool;
  done : bool;
  pending : bytes;
  pending_is_trailers : bool;
  headers : list Header;
  headers_done : bool;
  body : bytes;
  content_length : option Z;
  dispatched : bool
}.

Definition set_state (v : State) (r : Stream) : Stream :=
  mkStream v (window r) (reset r) (done r) (pending r) (pending_is_trailers r) (headers r) (headers_done r) (body r) (content_length r) (dispatched r).
Definition set_window (v : Z) (r : Stream) : Stream :=
  mkStream (state r) v (reset r) (done r) (pending r) (pending_is_trailers r) (headers r) (headers_done r) (body r) (content_length r) (dispatched r).
Definition set_reset (v : bool) (r : Stream) : Stream :=
  mkStream (state r) (window r) v (done r) (pending r) (pending_is_trailers r) (headers r) (headers_done r) (body r) (content_length r) (dispatched r).
Definition set_done (v : bool) (r : Stream) : Stream :=
  mkStream (state r) (window r) (reset r) v (pending r) (pending_is_trailers r) (headers r) (headers_done r) (body r) (content_length r) (dispatched r).
Definition set_pending (v : bytes) (r : Stream) : Stream :=
  mkStream (state r) (window r) (reset r) (done r) v (pending_is_trailers r) (headers r) (headers_done r) (body r) (content_length r) (dispatched r).
Definition set_pending_is_trailers (v : bool) (r : Stream) : Stream :=
  mkStream (state r) (window r) (reset r) (done r) (pending r) v (headers r) (headers_done r) (body r) (content_length r) (dispatched r).
Definition set_headers (v : list Header) (r : Stream) : Stream :=
  mkStream (state r) (window r) (reset r) (done r) (pending r) (pending_is_trailers r) v (headers_done r) (body r) (content_length r) (dispatched r).
Definition set_body (v : bytes) (r : Stream) : Stream :=
  mkStream (state r) (window r) (reset r) (done r) (pending r) (pending_is_trailers r) (headers r) (headers_done r) v (content_length r) (dispatched r).
Definition set_dispatched (v : bool) (r : Stream) : Stream :=
  mkStream (state r) (window r) (reset r) (done r) (pending r) (pending_is_trailers r) (headers r) (headers_done r) (body r) (content_length r) v.

Definition new_stream (initial_window : Z) : Stream :=
  mkStream Open initial_window false false [] false [] false [] None false.

(** What the reader sends, by the function that builds it. *)
Inductive Out :=
  | OutSettings (pairs : list (Z * Z))
  | OutSettingsAck
  | OutWindowUpdate (stream increment : Z)
  | OutRst (stream : Z) (code : Code)
  | OutPing (payload : bytes)
  | OutData (stream : Z) (payload : bytes) (end_stream : bool)
  | OutGoaway (last : Z) (code : Code) (debug : bytes).

(** Its bytes. *)
Definition wire (o : Out) : bytes :=
  match o with
  | OutSettings pairs => H2Frame.settings pairs
  | OutSettingsAck => H2Frame.settings_ack
  | OutWindowUpdate s n => H2Frame.window_update s n
  | OutRst s c => H2Frame.rst s c
  | OutPing p => H2Frame.write_frame H2Frame.kind.PING H2Frame.flag.ACK 0 p
  | OutData s p e =>
      H2Frame.write_frame H2Frame.kind.DATA (if e then H2Frame.flag.END_STREAM else 0) s p
  | OutGoaway l c d => H2Frame.goaway l c d
  end.

(** The locals of [read_loop] and the [Flow] shared with the tasks; [tx] is
    everything sent so far and [spawned] every request handed to a task. *)
Record Conn := mkConn {
  dec : Decoder;
  streams : gmap Z Stream;
  peer_initial_window : Z;
  recv_window : Z;
  highest : Z;
  expect_continuation : option Z;
  conn_window : Z;
  max_frame : Z;
  tx : list Out;
  spawned : list (Z * list Header * bytes)
}.

Definition set_dec (v : Decoder) (c : Conn) : Conn :=
  mkConn v (streams c) (peer_initial_window c) (recv_window c) (highest c) (expect_continuation c) (conn_window c) (max_frame c) (tx c) (spawned c).
Definition set_streams (v : gmap Z Stream) (c : Conn) : Conn :=
  mkConn (dec c) v (peer_initial_window c) (recv_window c) (highest c) (expect_continuation c) (conn_window c) (max_frame c) (tx c) (spawned c).
Definition set_peer_initial_window (v : Z) (c : Conn) : Conn :=
  mkConn (dec c) (streams c) v (recv_window c) (highest c) (expect_continuation c) (conn_window c) (max_frame c) (tx c) (spawned c).
Definition set_recv_window (v : Z) (c : Conn) : Conn :=
  mkConn (dec c) (streams c) (peer_initial_window c) v (highest c) (expect_continuation c) (conn_window c) (max_frame c) (tx c) (spawned c).
Definition set_highest (v : Z) (c : Conn) : Conn :=
  mkConn (dec c) (streams c) (peer_initial_window c) (recv_window c) v (expect_continuation c) (conn_window c) (max_frame c) (tx c) (spawned c).
Definition set_expect_continuation (v : option Z) (c : Conn) : Conn :=
  mkConn (dec c) (streams c) (peer_initial_window c) (recv_window c) (highest c) v (conn_window c) (max_frame c) (tx c) (spawned c).
Definition set_conn_window (v : Z) (c : Conn) : Conn :=
  mkConn (dec c) (streams c) (peer_initial_window c) (recv_window c) (highest c) (expect_continuation c) v (max_frame c) (tx c) (spawned c).
Definition set_max_frame (v : Z) (c : Conn) : Conn :=
  mkConn (dec c) (streams c) (peer_initial_window c) (recv_window c) (highest c) (expect_continuation c) (conn_window c) v (tx c) (spawned c).
Definition set_tx (v : list Out) (c : Conn) : Conn :=
  mkConn (dec c) (streams c) (peer_initial_window c) (recv_window c) (highest c) (expect_continuation c) (conn_window c) (max_frame c) v (spawned c).
Definition set_spawned (v : list (Z * list Header * bytes)) (c : Conn) : Conn :=
  mkConn (dec c) (streams c) (peer_initial_window c) (recv_window c) (highest c) (expect_continuation c) (conn_window c) (max_frame c) (tx c) v.

(** [let _ = tx.send(o)] *)
Definition send (o : Out) (c : Conn) : Conn := set_tx (tx c ++ [o]) c.

(** The frames [read_loop] opens with. *)
Definition greeting : list Out :=
  [OutSettings [(setting.MAX_CONCURRENT_STREAMS, MAX_CONCURRENT);
                (setting.INITIAL_WINDOW_SIZE, OUR_INITIAL_WINDOW);
                (setting.ENABLE_PUSH, 0);
                (setting.MAX_HEADER_LIST_SIZE, MAX_HEADER_LIST)];
   OutWindowUpdate 0 (OUR_INITIAL_WINDOW - DEFAULT_WINDOW)].

Definition init : Conn :=
  mkConn (Hpack.new 4096) ∅ DEFAULT_WINDOW OUR_INITIAL_WINDOW 0 None DEFAULT_WINDOW
    DEFAULT_MAX_FRAME greeting [].

Inductive Where := WIdle | WOpen | WHalfClosed | WClosed | WReset.

#[export] Instance Where_eq_dec : EqDecision Where.
Proof. solve_decision. Defined.

Definition state_of (streams : gmap Z Stream) (id highest : Z) : Where :=
  match streams !! id with
  | Some s =>
      match state s with
      | Open => WOpen
      | HalfClosedRemote => if dispatched s then WClosed else WHalfClosed
      | Reset => WReset
      end
  | None => if decide (id ≤ highest) then WClosed else WIdle
  end.

Definition reset_state (s : Stream) : Stream :=
  set_done true (set_reset true (set_state Reset s)).

Definition reset_stream (id : Z) (code : Code) (c : Conn) : Conn :=
  let c := send (OutRst id code) c in
  set_streams (alter reset_state id (streams c)) c.

Definition replenish (c : Conn) : Conn :=
  let used := OUR_INITIAL_WINDOW - recv_window c in
  if decide (WINDOW_REFILL_AT ≤ used) then
    set_recv_window OUR_INITIAL_WINDOW (send (OutWindowUpdate 0 used) c)
  else c.

Definition content_length_of (hs : list Header) : option Z :=
  match list_find (λ h, name h = str "content-length") hs with
  | Some (_, h) => parse_uint u64_max (value h)
  | None => None
  end.

(** [finish_block]: decodes a completed header block.  The nested result of
    the code is never [Ok(Err(_))]. *)
Definition finish_block (id : Z) (c : Conn) : result ConnErr Conn :=
  match streams c !! id with
  | None => Ok c
  | Some st =>
      let block := pending st in
      let trailers := pending_is_trailers st in
      let '(d, out, r) := Hpack.decode (dec c) block MAX_HEADER_LIST [] in
      let st := set_pending [] st in
      let c := set_dec d (set_streams (<[id := st]> (streams c)) c) in
      match r with
      | Err Compression => Err (mkConnErr CompressionError (str "hpack decoding error"))
      | Err TooLarge => Ok (reset_stream id EnhanceYourCalm c)
      | Ok tt =>
          if trailers then
            if existsb (λ h, starts_with (str ":") (name h)) out
            then Ok (reset_stream id Protocol c) else Ok c
          else
            let st := mkStream (state st) (window st) (reset st) (done st) (pending st)
                        (pending_is_trailers st) out true (body st) (content_length_of out)
                        (dispatched st) in
            Ok (set_streams (<[id := st]> (streams c)) c)
      end
  end.

(** How the handling of a frame ends: at the dispatch step below the [match],
    at the next turn of the loop, out of it, or in an [expect]. *)
Inductive Next :=
  | Fall (c : Conn)
  | Continue (c : Conn)
  | Stop (c : Conn) (r : result ConnErr unit)
  | Panic.

Definition fail (c : Conn) (code : Code) (why : String.string) : Next := Stop c (Err (mkConnErr code (str why))).

Definition finish_or (id : Z) (c : Conn) : Next :=
  match finish_block id c with Ok c => Fall c | Err e => Stop c (Err e) end.

(** [kind::DATA]; [max_body] is [core.client_max_body_size]. *)
Definition on_data (max_body : Z) (h : Head) (payload : bytes) (c : Conn) : Next :=
  if decide (stream h = 0) then fail c Protocol "DATA on stream 0"
  else
    let c := set_recv_window (recv_window c - len h) c in
    match unpad payload (has h flag.PADDED) with
    | None => fail c Protocol "bad padding"
    | Some data =>
        let c := replenish c in
        match state_of (streams c) (stream h) (highest c) with
        | WIdle => fail c Protocol "DATA on an idle stream"
        | WClosed => fail c StreamClosed "DATA on a closed stream"
        | WReset | WHalfClosed => Continue (reset_stream (stream h) StreamClosed c)
        | WOpen =>
            match streams c !! stream h with
            | None => Panic (* [expect("open implies present")] *)
            | Some st =>
                if decide (max_body < Z.of_nat (length (body st) + length data)) then
                  Continue (reset_stream (stream h) EnhanceYourCalm c)
                else
                  let st := set_body (body st ++ data) st in
                  let st := if has h flag.END_STREAM then set_state HalfClosedRemote st else st in
                  Fall (set_streams (<[stream h := st]> (streams c)) c)
            end
        end
    end.

(** The entries of finished tasks are dropped when a new stream opens. *)
Definition prune (m : gmap Z Stream) : gmap Z Stream :=
  filter (λ p, ¬ (dispatched (snd p) = true ∧ done (snd p) = true)) m.

Definition active (m : gmap Z Stream) : Z :=
  Z.of_nat (size (filter (λ p, done (snd p) = false) m)).

(** The end of [kind::HEADERS], once the block is attached to its stream. *)
Definition open_block (h : Head) (c : Conn) : Next :=
  if has h flag.END_HEADERS then finish_or (stream h) c
  else Fall (set_expect_continuation (Some (stream h)) c).

(** A header block that opens a stream. *)
Definition on_new_stream (h : Head) (block : bytes) (c : Conn) : Next :=
  if decide (stream h ≤ highest c) then fail c Protocol "stream id went backwards"
  else
    let c := set_highest (stream h) c in
    let c := set_streams (prune (streams c)) c in
    if decide (MAX_CONCURRENT ≤ active (streams c)) then
      Fall (send (OutRst (stream h) RefusedStream) c)
    else
      let st := set_state (if has h flag.END_STREAM then HalfClosedRemote else Open)
                  (new_stream (peer_initial_window c)) in
      let st := set_pending block st in
      open_block h (set_streams (<[stream h := st]> (streams c)) c).

(** A second block on a live stream: trailers, which must end it. *)
Definition on_trailers (h : Head) (block : bytes) (c : Conn) : Next :=
  if negb (has h flag.END_STREAM) then Fall (reset_stream (stream h) Protocol c)
  else
    open_block h (set_streams
      (alter (λ st, set_state HalfClosedRemote (set_pending_is_trailers true (set_pending block st)))
         (stream h) (streams c)) c).

Definition on_headers (h : Head) (payload : bytes) (c : Conn) : Next :=
  if decide (stream h = 0) then fail c Protocol "HEADERS on stream 0"
  else if decide (stream h mod 2 = 0) then fail c Protocol "even client stream id"
  else match unpad payload (has h flag.PADDED) with
  | None => fail c Protocol "bad padding"
  | Some block =>
      let go block :=
        match state_of (streams c) (stream h) (highest c) with
        | WOpen | WHalfClosed => on_trailers h block c
        | WClosed | WReset => fail c StreamClosed "HEADERS on a closed stream"
        | WIdle => on_new_stream h block c
        end in
      if has h flag.PRIORITY then
        if decide (length block < 5)%nat then fail c FrameSize "short priority field"
        else
          let dep := Z.land (default 0 (u32_at block 0)) 0x7fffffff in
          if decide (dep = stream h) then Continue (send (OutRst (stream h) Protocol) c)
          else go (drop 5 block)
      else go block
  end.

Definition on_continuation (h : Head) (payload : bytes) (c : Conn) : Next :=
  if decide (expect_continuation c ≠ Some (stream h)) then
    fail c Protocol "CONTINUATION without an open block"
  else match streams c !! stream h with
  | None => Panic (* [expect("checked")] *)
  | Some st =>
      if decide (MAX_HEADER_LIST * 2 < Z.of_nat (length (pending st) + length payload)) then
        fail c Protocol "header block too large"
      else
        let c := set_streams (<[stream h := set_pending (pending st ++ payload) st]> (streams c)) c in
        if has h flag.END_HEADERS then finish_or (stream h) (set_expect_continuation None c)
        else Fall c
  end.

Definition on_priority (h : Head) (payload : bytes) (c : Conn) : Next :=
  if decide (len h ≠ 5) then fail c FrameSize "bad PRIORITY length"
  else if decide (stream h = 0) then fail c Protocol "PRIORITY on stream 0"
  else
    let dep := Z.land (default 0 (u32_at payload 0)) 0x7fffffff in
    Fall (if decide (dep = stream h) then send (OutRst (stream h) Protocol) c else c).

Definition on_rst_stream (h : Head) (c : Conn) : Next :=
  if decide (stream h = 0) then fail c Protocol "RST_STREAM on stream 0"
  else if decide (len h ≠ 4) then fail c FrameSize "bad RST_STREAM length"
  else if decide (state_of (streams c) (stream h) (highest c) = WIdle) then
    fail c Protocol "RST_STREAM on an idle stream"
  else Fall (set_streams (alter (λ st, set_reset true (set_state Reset st)) (stream h) (streams c)) c).

(** One [(id, value)] pair of a SETTINGS frame. *)
Definition apply_setting (id v : Z) (c : Conn) : result ConnErr Conn :=
  let err code why := Err (mkConnErr code (str why)) in
  if decide (id = setting.INITIAL_WINDOW_SIZE) then
    if decide (MAX_WINDOW < v) then err FlowControl "window too large"
    else Ok (set_peer_initial_window v c)
  else if decide (id = setting.MAX_FRAME_SIZE) then
    if decide (¬ (DEFAULT_MAX_FRAME ≤ v ∧ v ≤ MAX_FRAME_LIMIT)) then err Protocol "bad MAX_FRAME_SIZE"
    else Ok (set_max_frame v c)
  else if decide (id = setting.ENABLE_PUSH) then
    if decide (1 < v) then err Protocol "bad ENABLE_PUSH" else Ok c
  else if decide (id = setting.HEADER_TABLE_SIZE) then Ok (set_dec (set_max_size (dec c) v) c)
  else Ok c.

(** [payload.chunks_exact(6)] *)
Fixpoint apply_settings (payload : bytes) (c : Conn) : result ConnErr Conn :=
  match payload with
  | a :: b :: x :: y :: z :: w :: rest =>
      match apply_setting (from_be [a; b]) (from_be [x; y; z; w]) c with
      | Ok c => apply_settings rest c
      | Err e => Err e
      end
  | _ => Ok c
  end.

Definition on_settings (h : Head) (payload : bytes) (c : Conn) : Next :=
  if decide (stream h ≠ 0) then fail c Protocol "SETTINGS on a stream"
  else if has h flag.ACK then
    if decide (len h ≠ 0) then fail c FrameSize "SETTINGS ack with payload" else Continue c
  else if decide (len h mod 6 ≠ 0) then fail c FrameSize "SETTINGS length not a multiple of 6"
  else
    let old_initial := peer_initial_window c in
    match apply_settings payload c with
    | Err e => Stop c (Err e)
    | Ok c =>
        let delta := peer_initial_window c - old_initial in
        let c := set_streams ((λ s, set_window (window s + delta) s) <$> streams c) c in
        Fall (send OutSettingsAck c)
    end.

Definition on_ping (h : Head) (payload : bytes) (c : Conn) : Next :=
  if decide (stream h ≠ 0) then fail c Protocol "PING on a stream"
  else if decide (len h ≠ 8) then fail c FrameSize "bad PING length"
  else Fall (if negb (has h flag.ACK) then send (OutPing payload) c else c).

Definition on_window_update (h : Head) (payload : bytes) (c : Conn) : Next :=
  if decide (len h ≠ 4) then fail c FrameSize "bad WINDOW_UPDATE length"
  else if decide (stream h ≠ 0 ∧ state_of (streams c) (stream h) (highest c) = WIdle) then
    fail c Protocol "WINDOW_UPDATE on an idle stream"
  else
    let inc := Z.land (default 0 (u32_at payload 0)) 0x7fffffff in
    if decide (inc = 0) then
      if decide (stream h = 0) then fail c Protocol "zero connection window update"
      else Continue (reset_stream (stream h) Protocol c)
    else if decide (stream h = 0) then
      let w := conn_window c + inc in
      if decide (MAX_WINDOW < w) then fail c FlowControl "connection window overflow"
      else Fall (set_conn_window w c)
    else match streams c !! stream h with
    | Some s =>
        let w := window s + inc in
        if decide (MAX_WINDOW < w) then Continue (reset_stream (stream h) FlowControl c)
        else Fall (set_streams (<[stream h := set_window w s]> (streams c)) c)
    | None => Fall c
    end.

(** The handling of one frame whose payload has been read. *)
Definition on_frame (max_body : Z) (h : Head) (payload : bytes) (c : Conn) : Next :=
  let k := head_kind h in
  match expect_continuation c with
  | Some open =>
      if decide (k ≠ kind.CONTINUATION ∨ stream h ≠ open) then
        fail c Protocol "expected CONTINUATION"
      else on_continuation h payload c
  | None =>
      if decide (k = kind.DATA) then on_data max_body h payload c
      else if decide (k = kind.HEADERS) then on_headers h payload c
      else if decide (k = kind.CONTINUATION) then on_continuation h payload c
      else if decide (k = kind.PRIORITY) then on_priority h payload c
      else if decide (k = kind.RST_STREAM) then on_rst_stream h c
      else if decide (k = kind.SETTINGS) then on_settings h payload c
      else if decide (k = kind.PING) then on_ping h payload c
      else if decide (k = kind.WINDOW_UPDATE) then on_window_update h payload c
      else if decide (k = kind.GOAWAY) then Stop c (Ok tt)
      else if decide (k = kind.PUSH_PROMISE) then fail c Protocol "PUSH_PROMISE from a client"
      else Fall c
  end.

(** The dispatch step: a complete request is handed to a task, once. *)
Definition ready (s : Stream) : bool :=
  negb (dispatched s) && headers_done s && bool_decide (state s = HalfClosedRemote).

Definition spawn_stream (id : Z) (st : Stream) (c : Conn) : Conn :=
  set_spawned (spawned c ++ [(id, headers st, body st)])
    (set_streams (<[id := set_body [] (set_headers [] st)]> (streams c)) c).

(** [None] is the [expect("just listed")]. *)
Definition dispatch_one (id : Z) (c : Conn) : option Conn :=
  st ← streams c !! id;
  let st := set_dispatched true st in
  Some match content_length st with
  | Some n =>
      if decide (n ≠ Z.of_nat (length (body st))) then
        reset_stream id Protocol (set_streams (<[id := set_done true st]> (streams c)) c)
      else spawn_stream id st c
  | None => spawn_stream id st c
  end.

Definition ready_ids (m : gmap Z Stream) : list Z :=
  (map_to_list (filter (λ p, ready (snd p) = true) m)).*1.

Fixpoint dispatch_all (ids : list Z) (c : Conn) : option Conn :=
  match ids with
  | [] => Some c
  | id :: ids => c ← dispatch_one id c; dispatch_all ids c
  end.

Definition dispatch (c : Conn) : option Conn := dispatch_all (ready_ids (streams c)) c.

(** One turn of the loop, from a frame's header on.  The code refuses an
    oversized frame before it reads the payload. *)
Definition step (max_body : Z) (h : Head) (payload : bytes) (c : Conn) : Next :=
  if decide (DEFAULT_MAX_FRAME < len h) then fail c FrameSize "frame exceeds max size"
  else match on_frame max_body h payload c with
  | Fall c => match dispatch c with Some c => Continue c | None => Panic end
  | next => next
  end.

(** *** The stream tasks *)

(** [DoneGuard::drop] of the task of stream [id]. *)
Definition task_done (id : Z) (c : Conn) : Conn :=
  set_streams (alter (set_done true) id (streams c)) c.

(** One turn of [pump] for [data] still to be sent on stream [id]: the
    connection and what is left; nothing is sent while a window is closed. *)
Definition pump_once (id : Z) (data : bytes) (c : Conn) : Conn * bytes :=
  match streams c !! id with
  | None => (c, data)
  | Some st =>
      if reset st then (c, data)
      else
        let allowed := Z.max (Z.min (conn_window c) (window st)) 0 in
        let n := Z.min (Z.min allowed (max_frame c)) (Z.of_nat (length data)) in
        if decide (allowed = 0 ∨ data = []) then (c, data)
        else
          let c := send (OutData id (take (Z.to_nat n) data) false) c in
          let c := set_conn_window (conn_window c - n) c in
          (set_streams (<[id := set_window (window st - n) st]> (streams c)) c,
           drop (Z.to_nat n) data)
  end.

(** *** [serve]: the whole byte stream a client sends *)

Definition PREFACE : bytes := str "PRI * HTTP/2.0" ++ [x0d; x0a; x0d; x0a] ++ str "SM" ++ [x0d; x0a; x0d; x0a].

(** The loop over a client's bytes, all of which have arrived; every turn
    takes nine bytes or more, so the length is enough fuel.  [Buf::take_opt]
    answers a clean end only between frames.  [None] is a panic (or fuel run
    out), which [read_loop_total] excludes. *)
Fixpoint read_loop (fuel : nat) (max_body : Z) (input : bytes) (c : Conn) :
    option (Conn * result ConnErr unit) :=
  match fuel with
  | O => None
  | S fuel =>
      match input with
      | [] => Some (c, Ok tt)
      | _ =>
          let truncated := Err (mkConnErr Protocol (str "truncated frame")) in
          if decide (length input < HEADER_LEN)%nat then Some (c, truncated)
          else
            let h := H2Frame.parse (take HEADER_LEN input) in
            let rest := drop HEADER_LEN input in
            if decide (len h ≤ DEFAULT_MAX_FRAME ∧ Z.of_nat (length rest) < len h)
            then Some (c, truncated)
            else match step max_body h (take (Z.to_nat (len h)) rest) c with
                 | Fall c | Continue c => read_loop fuel max_body (drop (Z.to_nat (len h)) rest) c
                 | Stop c r => Some (c, r)
                 | Panic => None
                 end
      end
  end.

(** The GOAWAY [serve] ends with. *)
Definition goodbye (c : Conn) (r : result ConnErr unit) : Conn :=
  match r with
  | Ok tt => send (OutGoaway (highest c) NoError []) c
  | Err e => send (OutGoaway (highest c) (err_code e) (err_why e)) c
  end.

Definition serve (max_body : Z) (input : bytes) : option Conn :=
  '(c, r) ←
    (if decide (length input < length PREFACE)%nat then
       Some (set_tx [] init, Err (mkConnErr Protocol (str "truncated frame")))
     else if decide (take (length PREFACE) input ≠ PREFACE) then
       Some (set_tx [] init, Err (mkConnErr Protocol (str "bad preface")))
     else
       let rest := drop (length PREFACE) input in
       read_loop (S (length rest)) max_body rest init);
  Some (goodbye c r).

(** *** Requests and responses *)

(** The pseudo-headers plus the ordinary ones, validated. *)
Record Parsed := mkParsed {
  method : bytes;
  path : bytes;
  authority : bytes;
  ordinary : list (bytes * bytes)
}.

(** [Parsed::headers]: [:authority] becomes [host]. *)
Definition parsed_headers (p : Parsed) : list (bytes * bytes) :=
  (str "host", authority p) :: ordinary p.

(** The four [Option]s [parse_headers] fills. *)
Record Slots := mkSlots {
  s_method : option bytes;
  s_path : option bytes;
  s_authority : option bytes;
  s_scheme : option bytes
}.

(** [let slot = match name { .. }; if slot.is_some() { return Err }; *slot = Some(v)] *)
Definition fill (name v : bytes) (s : Slots) : result Code Slots :=
  let once o k := match o with Some _ => Err Protocol | None => Ok k end in
  if decide (name = str "method") then
    once (s_method s) (mkSlots (Some v) (s_path s) (s_authority s) (s_scheme s))
  else if decide (name = str "path") then
    once (s_path s) (mkSlots (s_method s) (Some v) (s_authority s) (s_scheme s))
  else if decide (name = str "authority") then
    once (s_authority s) (mkSlots (s_method s) (s_path s) (Some v) (s_scheme s))
  else if decide (name = str "scheme") then
    once (s_scheme s) (mkSlots (s_method s) (s_path s) (s_authority s) (Some v))
  else Err Protocol.

Definition connection_specific : list bytes :=
  [str "connection"; str "keep-alive"; str "proxy-connection"; str "transfer-encoding"; str "upgrade"].

(** The checks on an ordinary field. *)
Definition field_allowed (h : Header) : bool :=
  negb (existsb is_ascii_uppercase (name h) || bool_decide (name h = [])) &&
  negb (bool_decide (name h ∈ connection_specific)) &&
  negb (bool_decide (name h = str "te") && negb (bool_decide (value h = str "trailers"))).

Fixpoint parse_fields (hs : list Header) (slots : Slots) (ordinary : list (bytes * bytes))
    (seen_ordinary : bool) : result Code (Slots * list (bytes * bytes)) :=
  match hs with
  | [] => Ok (slots, ordinary)
  | h :: hs =>
      match strip_prefix (str ":") (name h) with
      | Some n =>
          if seen_ordinary then Err Protocol
          else slots ← fill n (value h) slots; parse_fields hs slots ordinary false
      | None =>
          if field_allowed h then parse_fields hs slots (ordinary ++ [(name h, value h)]) true
          else Err Protocol
      end
  end.

Definition parse_headers (hs : list Header) : result Code Parsed :=
  '(s, ordinary) ← parse_fields hs (mkSlots None None None None) [] false;
  method ← ok_or Protocol (s_method s);
  path ← ok_or Protocol (s_path s);
  if decide (method = str "CONNECT") then Err Protocol
  else
    _ ← ok_or Protocol (s_scheme s);
    if decide (path = []) then Err Protocol
    else Ok (mkParsed method path (default [] (s_authority s)) ordinary).

(** The header block of [send_response]: [resp_headers] is [resp.iter()] and
    [framing] the length of [Framing::Length].  A fresh encoder per response. *)
Definition response_fields (status : Z) (resp_headers : list (bytes * bytes)) (framing : option Z) :
    list Header :=
  mkHeader (str ":status") (fmt_u64 status) ::
  ((λ '(n, v), mkHeader (lowercase n) v) <$>
     filter (λ '(n, _), lowercase n ∉ connection_specific) resp_headers) ++
  match framing with Some n => [mkHeader (str "content-length") (fmt_u64 n)] | None => [] end.

Definition response_block (status : Z) (resp_headers : list (bytes * bytes)) (framing : option Z) : bytes :=
  snd (Hpack.header_block (Hpack.new_encoder 4096) (response_fields status resp_headers framing)).

(** The HEADERS frame that carries it, always a single frame. *)
Definition response_head (id status : Z) (resp_headers : list (bytes * bytes)) (framing : option Z)
    (empty : bool) : bytes :=
  H2Frame.write_frame H2Frame.kind.HEADERS
    (Z.lor flag.END_HEADERS (if empty then flag.END_STREAM else 0)) id
    (response_block status resp_headers framing).

(** [pump] without an interruption: until the data or a window runs out. *)
Fixpoint pump (fuel : nat) (id : Z) (data : bytes) (c : Conn) : Conn * bytes :=
  match fuel with
  | O => (c, data)
  | S fuel =>
      let '(c', rest) := pump_once id data c in
      if decide (rest = data) then (c', rest) else pump fuel id rest c'
  end.

(** [write_body] of a body held in memory: [None] while it waits for a
    window.  A stream that was reset stops the pump but not the last frame. *)
Definition write_bytes (id : Z) (data : bytes) (c : Conn) : option Conn :=
  let '(c, rest) := pump (length data) id data c in
  match streams c !! id with
  | Some st =>
      if decide (reset st = false ∧ rest ≠ []) then None else Some (send (OutData id [] true) c)
  | None => Some (send (OutData id [] true) c)
  end.

(** ** The invariant

    What every stream satisfies on a connection whose peer currently asks for
    an initial window of [piw]. *)
Record stream_ok (max_body piw : Z) (s : Stream) : Prop := mkStreamOk {
  so_length : headers_done s = true → dispatched s = false →
    content_length s = content_length_of (headers s);
  so_text : Forall header_text (headers s);
  so_body : Z.of_nat (length (body s)) ≤ max_body;
  so_pending : Z.of_nat (length (pending s)) ≤ MAX_HEADER_LIST * 2;
  so_window : - MAX_WINDOW ≤ window s - piw ≤ MAX_WINDOW
}.

Definition streams_ok (max_body piw hi : Z) (m : gmap Z Stream) : Prop :=
  ∀ id s, m !! id = Some s → Z.odd id = true ∧ 0 < id ≤ hi ∧ stream_ok max_body piw s.

(** A request handed to a task: its declared length is its body's. *)
Definition request_ok (max_body : Z) (r : Z * list Header * bytes) : Prop :=
  let '(_, hs, b) := r in
  Forall header_text hs ∧ Z.of_nat (length b) ≤ max_body ∧
  ∀ n, content_length_of hs = Some n → n = Z.of_nat (length b).

Definition ids (l : list (Z * list Header * bytes)) : list Z := (λ r, fst (fst r)) <$> l.

(** Each stream id is dispatched at most once. *)
Record spawned_ok (max_body hi : Z) (l : list (Z * list Header * bytes)) (m : gmap Z Stream) : Prop :=
  mkSpawnedOk {
    sp_once : NoDup (ids l);
    sp_requests : Forall (request_ok max_body) l;
    sp_marked : ∀ id, id ∈ ids l → id ≤ hi ∧ ∀ s, m !! id = Some s → dispatched s = true
  }.

(** What is put on the wire is legal. *)
Definition out_ok (o : Out) : Prop :=
  match o with
  | OutSettings pairs => (length pairs <= 8)%nat
  | OutSettingsAck => True
  | OutWindowUpdate s n => s = 0 ∧ 0 < n ≤ MAX_WINDOW
  | OutRst s _ => 0 < s < 2 ^ 31
  | OutPing p => length p = 8%nat
  | OutData s p _ => 0 < s < 2 ^ 31 ∧ Z.of_nat (length p) ≤ MAX_FRAME_LIMIT
  | OutGoaway _ _ d => (length d <= 64)%nat
  end.

Record conn_ok (max_body : Z) (c : Conn) : Prop := mkConnOk {
  co_dec : decoder_ok (dec c) ∧ dynamic_text (dec c);
  co_streams : streams_ok max_body (peer_initial_window c) (highest c) (streams c);
  co_highest : 0 ≤ highest c < 2 ^ 31;
  co_open : ∀ id, expect_continuation c = Some id → is_Some (streams c !! id);
  co_recv : WINDOW_REFILL_AT < recv_window c ≤ OUR_INITIAL_WINDOW;
  co_piw : 0 ≤ peer_initial_window c ≤ MAX_WINDOW;
  co_conn : 0 ≤ conn_window c ≤ MAX_WINDOW;
  co_frame : DEFAULT_MAX_FRAME ≤ max_frame c ≤ MAX_FRAME_LIMIT;
  co_active : active (streams c) ≤ MAX_CONCURRENT;
  co_tx : Forall out_ok (tx c);
  co_spawned : spawned_ok max_body (highest c) (spawned c) (streams c)
}.

(** A frame as the reader presents it. *)
Definition frame_ok (h : Head) (payload : bytes) : Prop :=
  0 ≤ stream h < 2 ^ 31 ∧ len h = Z.of_nat (length payload).

(** Entries only move towards [done] and [dispatched]. *)
Definition mono (m m' : gmap Z Stream) : Prop :=
  ∀ i s', m' !! i = Some s' → ∃ s, m !! i = Some s ∧
    (done s = true → done s' = true) ∧ (dispatched s = true → dispatched s' = true).

Lemma active_mono m m' : mono m m' → active m' ≤ active m.
Proof.
  intros H. unfold active. rewrite <-!size_dom. apply inj_le, subseteq_size.
  intros i. rewrite !elem_of_dom. intros [s' [Hs' Hd]%map_lookup_filter_Some]. cbn in Hd.
  destruct (H _ _ Hs') as (s & Hs & Hdone & _). exists s. apply map_lookup_filter_Some. cbn.
  split; [done |]. destruct (done s); [|done]. by rewrite Hdone in Hd.
Qed.

Lemma spawned_mono mb hi hi' l m m' :
  hi ≤ hi' → mono m m' → spawned_ok mb hi l m → spawned_ok mb hi' l m'.
Proof.
  intros Hhi Hm [H1 H2 H3]. split; [done | done |]. intros id [Hle Hd]%H3. split; [lia |].
  intros s' Hs'. destruct (Hm _ _ Hs') as (s & Hs & _ & Hmono). eauto.
Qed.

Lemma mono_insert m id s s' :
  m !! id = Some s → (done s = true → done s' = true) →
  (dispatched s = true → dispatched s' = true) → mono m (<[id := s']> m).
Proof.
  intros Hs Hd Hp i t. destruct (decide (i = id)) as [->|].
  - rewrite lookup_insert_eq. intros [= <-]. eauto.
  - rewrite lookup_insert_ne by done. eauto.
Qed.

Lemma streams_insert mb piw hi m id s' :
  streams_ok mb piw hi m → Z.odd id = true → 0 < id ≤ hi → stream_ok mb piw s' →
  streams_ok mb piw hi (<[id := s']> m).
Proof.
  intros H Ho Hid Hs' i t. destruct (decide (i = id)) as [->|].
  - rewrite lookup_insert_eq. by intros [= <-].
  - rewrite lookup_insert_ne by done. apply H.
Qed.

Lemma conn_ok_streams mb c m :
  conn_ok mb c → mono (streams c) m →
  streams_ok mb (peer_initial_window c) (highest c) m →
  (∀ id, expect_continuation c = Some id → is_Some (m !! id)) →
  conn_ok mb (set_streams m c).
Proof.
  intros [] Hm Hs He. split; cbn; try done.
  - etrans; [by apply active_mono | done].
  - eapply spawned_mono; [reflexivity | exact Hm | done].
Qed.

(** Replacing one stream's entry. *)
Lemma conn_ok_insert mb c id s s' :
  conn_ok mb c → streams c !! id = Some s →
  (done s = true → done s' = true) → (dispatched s = true → dispatched s' = true) →
  (stream_ok mb (peer_initial_window c) s → stream_ok mb (peer_initial_window c) s') →
  conn_ok mb (set_streams (<[id := s']> (streams c)) c).
Proof.
  intros Hok Hs Hd Hp Hso. pose proof Hok as []. destruct (co_streams0 _ _ Hs) as (? & ? & ?).
  apply conn_ok_streams; [done | by eapply mono_insert | by apply streams_insert; auto |].
  intros i Hi. destruct (decide (i = id)) as [->|].
  - rewrite lookup_insert_eq. eauto.
  - rewrite lookup_insert_ne by done. auto.
Qed.

Lemma alter_present (f : Stream → Stream) (m : gmap Z Stream) id s :
  m !! id = Some s → alter f id m = <[id := f s]> m.
Proof.
  intros Hs. apply map_eq. intros i. destruct (decide (i = id)) as [->|].
  - by rewrite lookup_alter_eq, Hs, lookup_insert_eq.
  - by rewrite lookup_alter_ne, lookup_insert_ne by done.
Qed.

Lemma alter_absent (f : Stream → Stream) (m : gmap Z Stream) id :
  m !! id = None → alter f id m = m.
Proof.
  intros Hs. apply map_eq. intros i. destruct (decide (i = id)) as [->|].
  - by rewrite lookup_alter_eq, Hs.
  - by rewrite lookup_alter_ne by done.
Qed.

Lemma conn_ok_alter mb c id (f : Stream → Stream) :
  conn_ok mb c →
  (∀ s, (done s = true → done (f s) = true) ∧ (dispatched s = true → dispatched (f s) = true) ∧
    (stream_ok mb (peer_initial_window c) s → stream_ok mb (peer_initial_window c) (f s))) →
  conn_ok mb (set_streams (alter f id (streams c)) c).
Proof.
  intros Hok Hf. destruct (streams c !! id) as [s|] eqn:Hs.
  - rewrite (alter_present f _ _ _ Hs). destruct (Hf s) as (? & ? & ?). by eapply conn_ok_insert.
  - rewrite alter_absent by done. by destruct c.
Qed.

Lemma conn_ok_send mb c o : conn_ok mb c → out_ok o → conn_ok mb (send o c).
Proof. intros [] Ho. split; cbn; try done. apply Forall_app; auto. Qed.

Lemma conn_ok_dec mb c d :
  conn_ok mb c → decoder_ok d → dynamic_text d → conn_ok mb (set_dec d c).
Proof. intros [] ? ?. by split. Qed.

Lemma conn_ok_reset mb c id code :
  conn_ok mb c → 0 < id < 2 ^ 31 → conn_ok mb (reset_stream id code c).
Proof.
  intros Hok Hid. unfold reset_stream. apply (conn_ok_alter mb (send _ c)).
  - by apply conn_ok_send.
  - intros s. split_and!; [done | done |]. intros []. by split.
Qed.

Lemma finish_block_ok mb c id :
  conn_ok mb c → 0 < id < 2 ^ 31 →
  match finish_block id c with Ok c' => conn_ok mb c' | Err _ => True end.
Proof.
  intros Hok Hid. unfold finish_block. destruct (streams c !! id) as [st|] eqn:Hst; [|done].
  destruct (Hpack.decode _ _ _ _) as [[d out] r] eqn:Hdec.
  destruct (co_dec _ _ Hok) as [Hd1 Hd2].
  apply decode_ok in Hdec as (Hd & _ & Ht & _ & Hout); [|by unfold MAX_HEADER_LIST, u64_max; lia | done | done].
  assert (conn_ok mb (set_dec d (set_streams (<[id := set_pending [] st]> (streams c)) c))) as Hok'.
  { apply conn_ok_dec; [|done | done]. eapply conn_ok_insert; [done | done | done | done |].
    intros []. by split. }
  destruct r as [[]|[]]; [| done | by apply conn_ok_reset].
  destruct (pending_is_trailers st).
  - destruct (existsb _ _); [by apply conn_ok_reset | done].
  - eapply (conn_ok_insert mb (set_dec d _) id (set_pending [] st)); [done | apply lookup_insert_eq | done | done |].
    intros []. by split.
Qed.

(** What the handling of one frame guarantees. *)
Definition next_ok (mb : Z) (before : Conn) (n : Next) : Prop :=
  match n with
  | Fall c | Continue c => conn_ok mb c
  | Stop c _ => spawned c = spawned before
  | Panic => False
  end.

Lemma finish_or_ok mb c0 c id :
  spawned c = spawned c0 → conn_ok mb c → 0 < id < 2 ^ 31 → next_ok mb c0 (finish_or id c).
Proof.
  intros Hsp Hok Hid. pose proof (finish_block_ok mb c id Hok Hid) as H. unfold finish_or.
  by destruct (finish_block id c).
Qed.

Lemma conn_ok_open mb c id :
  conn_ok mb c → is_Some (streams c !! id) → conn_ok mb (set_expect_continuation (Some id) c).
Proof. intros [] ?. split; try done. cbn. by intros ? [= <-]. Qed.

Lemma open_block_ok mb c0 c h :
  spawned c = spawned c0 → conn_ok mb c → 0 < stream h < 2 ^ 31 → is_Some (streams c !! stream h) →
  next_ok mb c0 (open_block h c).
Proof.
  intros. unfold open_block. case_match; [by apply finish_or_ok | by apply conn_ok_open].
Qed.

Lemma replenish_ok mb c n :
  conn_ok mb c → 0 ≤ n ≤ DEFAULT_MAX_FRAME →
  conn_ok mb (replenish (set_recv_window (recv_window c - n) c)).
Proof.
  intros [] Hn. unfold replenish, DEFAULT_MAX_FRAME, WINDOW_REFILL_AT, OUR_INITIAL_WINDOW in *.
  change (1024 * 1024 / 2) with 524288 in *.
  cbn [recv_window set_recv_window]. case_decide.
  - split; cbn; try done. apply Forall_app. split; [done |]. constructor; [|done].
    cbn. unfold MAX_WINDOW. lia.
  - split; try done. cbn [recv_window set_recv_window].
    unfold WINDOW_REFILL_AT, OUR_INITIAL_WINDOW. change (1024 * 1024 / 2) with 524288. lia.
Qed.

Lemma replenish_same c n :
  let c' := replenish (set_recv_window n c) in
  streams c' = streams c ∧ spawned c' = spawned c ∧ highest c' = highest c.
Proof. unfold replenish. by case_decide. Qed.

Lemma state_of_open m id hi : state_of m id hi = WOpen → is_Some (m !! id).
Proof. unfold state_of. destruct (m !! id) as [s|]; [eauto |]. by case_decide. Qed.

Lemma unpad_length payload padded data :
  unpad payload padded = Some data → (length data ≤ length payload)%nat.
Proof.
  unfold unpad. destruct padded; [|by intros [= <-]]. destruct payload as [|p rest]; [done |].
  repeat case_match; intros; simplify_eq; cbn; rewrite ?length_take; lia.
Qed.

Lemma on_data_ok mb h payload c :
  conn_ok mb c → frame_ok h payload → len h ≤ DEFAULT_MAX_FRAME →
  next_ok mb c (on_data mb h payload c).
Proof.
  intros Hok [Hs Hl] Hmax. unfold on_data. case_decide as H0; [done |].
  assert (0 < stream h < 2 ^ 31) by lia.
  destruct (unpad _ _) as [data|]; [|done].
  pose proof (replenish_ok mb c (len h) Hok ltac:(lia)) as Hok'.
  destruct (replenish_same c (recv_window c - len h)) as (Hst & Hsp & Hhi).
  destruct (replenish _) as [dec' st' piw' rw' hi' ec' cw' mf' tx' sp'] eqn:E. rewrite <-E in *.
  destruct (state_of _ _ _) eqn:Hw; cbn [next_ok fail];
    [done | | by apply conn_ok_reset | done | by apply conn_ok_reset].
  destruct (state_of_open _ _ _ Hw) as [st Hlk]. rewrite Hlk.
  case_decide; [by apply conn_ok_reset |].
  eapply conn_ok_insert; [done | done | by case_match | by case_match |].
  intros [].
  case_match; split; cbn [body set_body set_state pending headers window headers_done dispatched content_length];
    rewrite ?length_app; try done; lia.
Qed.

Lemma mono_prune m : mono m (prune m).
Proof. intros i s' [Hs' _]%map_lookup_filter_Some. eauto. Qed.

Lemma active_insert m id s : active (<[id := s]> m) ≤ active m + 1.
Proof.
  unfold active. rewrite map_filter_insert. case_match.
  - rewrite map_size_insert. destruct (filter _ m !! id); unfold Datatypes.id; lia.
  - rewrite map_filter_delete, map_size_delete.
    destruct (filter _ m !! id); unfold Datatypes.id; lia.
Qed.

(** A new entry whose id was never used. *)
Lemma conn_ok_fresh mb c id s :
  conn_ok mb c → Z.odd id = true → highest c < id < 2 ^ 31 → expect_continuation c = None →
  active (prune (streams c)) < MAX_CONCURRENT →
  stream_ok mb (peer_initial_window c) s →
  conn_ok mb (set_streams (<[id := s]> (prune (streams c))) (set_highest id c)).
Proof.
  intros [] Hodd Hid He Hact Hs. split; cbn; try done; try lia.
  - apply streams_insert; try done; try lia. intros i t Ht.
    apply mono_prune in Ht as Ht'. destruct Ht' as (t' & Ht' & _).
    apply map_lookup_filter_Some in Ht as [Ht _]. destruct (co_streams0 _ _ Ht) as (? & ? & ?).
    split_and!; done || lia.
  - rewrite He. done.
  - pose proof (active_insert (prune (streams c)) id s). lia.
  - destruct co_spawned0 as [H1 H2 H3]. split; [done | done |]. intros i [Hi Hdis]%H3.
    split; [lia |]. intros t. rewrite lookup_insert_ne by lia.
    intros [Ht _]%map_lookup_filter_Some. auto.
Qed.

Lemma conn_ok_advance mb c id :
  conn_ok mb c → highest c < id < 2 ^ 31 → expect_continuation c = None →
  conn_ok mb (set_streams (prune (streams c)) (set_highest id c)).
Proof.
  intros [] Hid He. split; cbn; try done; try lia.
  - intros i t [Ht _]%map_lookup_filter_Some. destruct (co_streams0 _ _ Ht) as (? & ? & ?).
    split_and!; done || lia.
  - rewrite He. done.
  - etrans; [apply active_mono, mono_prune | done].
  - eapply spawned_mono; [|apply mono_prune | done]. lia.
Qed.

Lemma on_new_stream_ok mb h block c :
  conn_ok mb c → 0 ≤ mb → 0 < stream h < 2 ^ 31 → Z.odd (stream h) = true → expect_continuation c = None →
  Z.of_nat (length block) ≤ DEFAULT_MAX_FRAME →
  next_ok mb c (on_new_stream h block c).
Proof.
  intros Hok Hmb H0 Hodd He Hb. unfold on_new_stream. case_decide; [done |].
  case_decide as Ha; cbn [streams set_streams set_highest] in Ha.
  - apply conn_ok_send; [|done]. refine (conn_ok_advance mb c _ Hok _ He). lia.
  - apply open_block_ok; [done | | done | cbn; rewrite lookup_insert_eq; eauto].
    refine (conn_ok_fresh mb c _ _ Hok Hodd _ He _ _); [lia | lia |].
    pose proof (co_piw _ _ Hok). unfold MAX_WINDOW, DEFAULT_MAX_FRAME, MAX_HEADER_LIST in *.
    split; cbn; try done; unfold MAX_WINDOW, MAX_HEADER_LIST; lia.
Qed.

Lemma on_trailers_ok mb h block c :
  conn_ok mb c → 0 < stream h < 2 ^ 31 → is_Some (streams c !! stream h) →
  Z.of_nat (length block) ≤ DEFAULT_MAX_FRAME →
  next_ok mb c (on_trailers h block c).
Proof.
  intros Hok H0 [s Hs] Hb. unfold on_trailers. case_match; [by apply conn_ok_reset |].
  apply open_block_ok; [done | | done |].
  - apply conn_ok_alter; [done |]. intros t. split_and!; [done | done |]. intros [].
    split; try done. cbn. unfold DEFAULT_MAX_FRAME, MAX_HEADER_LIST in *. lia.
  - cbn. rewrite lookup_alter_eq, Hs. eauto.
Qed.

Lemma state_of_present m id hi :
  match state_of m id hi with
  | WOpen | WHalfClosed | WReset => is_Some (m !! id)
  | WIdle => m !! id = None
  | WClosed => True
  end.
Proof.
  unfold state_of. destruct (m !! id) as [s|]; [|by case_decide].
  destruct (state s), (dispatched s); eauto.
Qed.

Lemma on_headers_ok mb h payload c :
  conn_ok mb c → 0 ≤ mb → frame_ok h payload → len h ≤ DEFAULT_MAX_FRAME →
  expect_continuation c = None → next_ok mb c (on_headers h payload c).
Proof.
  intros Hok Hmb [Hs Hl] Hmax He. unfold on_headers. case_decide; [done |].
  assert (0 < stream h < 2 ^ 31) by lia. case_decide as Heven; [done |].
  assert (Z.odd (stream h) = true) as Hodd by (rewrite Zmod_odd in Heven; by destruct (Z.odd _)).
  destruct (unpad _ _) as [block|] eqn:Hu; [|done]. apply unpad_length in Hu.
  assert (∀ b : bytes, (length b ≤ length block)%nat →
    next_ok mb c match state_of (streams c) (stream h) (highest c) with
        | WOpen | WHalfClosed => on_trailers h b c
        | WClosed | WReset => fail c StreamClosed "HEADERS on a closed stream"
        | WIdle => on_new_stream h b c
        end) as Hgo.
  { intros b Hb. pose proof (state_of_present (streams c) (stream h) (highest c)) as Hp.
    destruct (state_of _ _ _); try done;
      [apply on_new_stream_ok | apply on_trailers_ok | apply on_trailers_ok]; try done; lia. }
  destruct (has h flag.PRIORITY); [|by apply Hgo]. case_decide; [done |].
  case_decide; [by apply conn_ok_send |]. apply Hgo. rewrite length_drop. lia.
Qed.

Lemma on_continuation_ok mb h payload c :
  conn_ok mb c → 0 < stream h < 2 ^ 31 → next_ok mb c (on_continuation h payload c).
Proof.
  intros Hok H0. unfold on_continuation. case_decide as He; [done |].
  destruct (co_open _ _ Hok _ He) as [st Hst]. rewrite Hst. case_decide; [done |].
  assert (conn_ok mb (set_streams (<[stream h := set_pending (pending st ++ payload) st]> (streams c)) c))
    as Hok'.
  { eapply conn_ok_insert; [done | done | done | done |]. intros [].
    split; try done. cbn [pending set_pending]. rewrite length_app. lia. }
  case_match; [|done]. apply finish_or_ok; [done | | done]. destruct Hok'. by split.
Qed.

(** While a SETTINGS frame is applied, the streams' windows still stand at
    the old initial window [w0]. *)
Definition settings_ok (mb w0 : Z) (c : Conn) : Prop :=
  conn_ok mb (set_peer_initial_window w0 c) ∧ 0 ≤ peer_initial_window c ≤ MAX_WINDOW.

Lemma apply_setting_ok mb w0 id v c :
  0 ≤ v → settings_ok mb w0 c →
  match apply_setting id v c with
  | Ok c' => settings_ok mb w0 c' ∧ spawned c' = spawned c
  | Err _ => True
  end.
Proof.
  intros Hv [Hc Hw]. unfold apply_setting. repeat case_decide; try done.
  - split; [|done]. split; [done |]. cbn. lia.
  - split; [|done]. split; [|done]. destruct Hc. by split.
  - split; [|done]. split; [|done]. destruct Hc as [[]]. split; try done.
    split; [by apply set_max_size_spec | by apply set_max_size_text].
Qed.

Lemma apply_settings_ok mb w0 payload c :
  settings_ok mb w0 c →
  match apply_settings payload c with
  | Ok c' => settings_ok mb w0 c' ∧ spawned c' = spawned c
  | Err _ => True
  end.
Proof.
  remember (length payload) as n eqn:Hn. revert payload c Hn.
  induction (lt_wf n) as [n _ IH]. intros p c -> Hc.
  destruct p as [|a [|b [|x [|y [|z [|w rest]]]]]]; try done. cbn [apply_settings].
  pose proof (apply_setting_ok mb w0 (from_be [a; b]) (from_be [x; y; z; w]) c
    ltac:(apply from_be_range) Hc) as H1.
  destruct (apply_setting _ _ _) as [c1|]; [|done]. destruct H1 as [H1 E1].
  specialize (IH (length rest) ltac:(cbn; lia) rest c1 eq_refl H1).
  destruct (apply_settings rest c1); [|done]. by rewrite <-E1.
Qed.

Lemma conn_ok_shift mb w0 c :
  settings_ok mb w0 c →
  conn_ok mb (set_streams
    ((λ s, set_window (window s + (peer_initial_window c - w0)) s) <$> streams c) c).
Proof.
  intros [[] Hw]. cbn in *. split; try done; cbn.
  - intros id s'. rewrite lookup_fmap, fmap_Some. intros (s & Hs & ->).
    destruct (co_streams0 _ _ Hs) as (? & ? & []). split_and!; try done || lia.
    split; try done. cbn. lia.
  - intros id Hid. rewrite lookup_fmap, fmap_is_Some. auto.
  - etrans; [|done]. apply active_mono. intros i s'. rewrite lookup_fmap, fmap_Some.
    intros (s & Hs & ->). eauto.
  - refine (spawned_mono _ _ _ _ _ _ (Z.le_refl _) _ co_spawned0). intros i s'. rewrite lookup_fmap, fmap_Some.
    intros (s & Hs & ->). eauto.
Qed.

Lemma on_settings_ok mb h payload c :
  conn_ok mb c → next_ok mb c (on_settings h payload c).
Proof.
  intros Hok. unfold on_settings. case_decide; [done |]. case_match; [by case_decide |].
  case_decide; [done |].
  assert (settings_ok mb (peer_initial_window c) c) as Hs.
  { split; [|apply Hok]. by destruct c. }
  pose proof (apply_settings_ok _ _ payload _ Hs) as H'.
  destruct (apply_settings payload c) as [c'|]; [|done]. destruct H' as [H' _].
  apply conn_ok_send; [|done]. by apply conn_ok_shift.
Qed.

Lemma land_nonneg a b : 0 ≤ b → 0 ≤ Z.land a b.
Proof. intros. apply Z.land_nonneg. by right. Qed.

Lemma on_window_update_ok mb h payload c :
  conn_ok mb c → 0 ≤ stream h < 2 ^ 31 → next_ok mb c (on_window_update h payload c).
Proof.
  intros Hok Hs31. unfold on_window_update. case_decide; [done |]. case_decide; [done |].
  pose proof (land_nonneg (default 0 (u32_at payload 0)) 0x7fffffff ltac:(lia)) as Hinc.
  set (inc := Z.land _ _) in *. clearbody inc.
  pose proof (co_conn _ _ Hok). pose proof (co_piw _ _ Hok).
  case_decide; [case_decide; [done | apply conn_ok_reset; [done | lia]] |].
  case_decide.
  - case_decide; [done |]. destruct Hok. split; try done. cbn. lia.
  - destruct (streams c !! stream h) as [s|] eqn:Hs; [|done].
    case_decide; [apply conn_ok_reset; [done | lia] |].
    eapply conn_ok_insert; [done | done | done | done |].
    intros []. split; try done. cbn. lia.
Qed.

Lemma on_rst_stream_ok mb h c : conn_ok mb c → next_ok mb c (on_rst_stream h c).
Proof.
  intros Hok. unfold on_rst_stream. repeat case_decide; try done.
  apply conn_ok_alter; [done |]. intros s. split_and!; [done | done |]. intros []. by split.
Qed.

Lemma on_frame_ok mb h payload c :
  conn_ok mb c → 0 ≤ mb → frame_ok h payload → len h ≤ DEFAULT_MAX_FRAME →
  next_ok mb c (on_frame mb h payload c).
Proof.
  intros Hok Hmb Hf Hl. unfold on_frame.
  destruct (expect_continuation c) as [id|] eqn:He.
  - case_decide as Hk; [done |]. apply on_continuation_ok; [done |].
    destruct (co_open _ _ Hok _ He) as [s Hs].
    destruct (co_streams _ _ Hok _ _ Hs) as (_ & ? & _).
    pose proof (co_highest _ _ Hok). lia.
  - repeat case_decide; try done.
    + by apply on_data_ok.
    + by apply on_headers_ok.
    + unfold on_continuation. by rewrite He, decide_True.
    + destruct Hf. unfold on_priority. repeat case_decide; try done. apply conn_ok_send; [done | cbn; lia].
    + by apply on_rst_stream_ok.
    + by apply on_settings_ok.
    + unfold on_ping. repeat case_decide; try done. destruct Hf. cbn. destruct (negb _); [apply conn_ok_send; [done | cbn; lia] | done].
    + apply on_window_update_ok; [done | apply Hf].
Qed.

(** *** Dispatch *)

Lemma ready_spec s :
  ready s = true ↔ dispatched s = false ∧ headers_done s = true ∧ state s = HalfClosedRemote.
Proof. unfold ready. rewrite !andb_true_iff, negb_true_iff, bool_decide_eq_true. tauto. Qed.

Lemma ids_app l l' : ids (l ++ l') = ids l ++ ids l'.
Proof. apply fmap_app. Qed.

(** A request is handed over at most once, with the length it declared. *)
Lemma spawn_stream_ok mb c id s :
  conn_ok mb c → streams c !! id = Some s → ready s = true →
  (∀ n, content_length s = Some n → n = Z.of_nat (length (body s))) →
  conn_ok mb (spawn_stream id (set_dispatched true s) c).
Proof.
  intros Hok Hs (Hdis & Hdone & _)%ready_spec Hlen.
  destruct (co_streams _ _ Hok _ _ Hs) as (? & ? & Hso).
  assert (conn_ok mb (set_streams
    (<[id := set_body [] (set_headers [] (set_dispatched true s))]> (streams c)) c)) as [].
  { eapply conn_ok_insert; [done | done | done | done |]. intros [].
    split; try done. cbn. lia. }
  unfold spawn_stream. split; try done. cbn in *. destruct co_spawned0 as [H1 H2 H3]. split.
  - rewrite ids_app, NoDup_app. split_and!; [done | | apply NoDup_singleton].
    intros i Hi ->%list_elem_of_singleton. destruct (sp_marked _ _ _ _ (co_spawned _ _ Hok) _ Hi) as [_ Hm].
    apply Hm in Hs. congruence.
  - apply Forall_app. split; [done |]. constructor; [|done]. destruct Hso.
    split_and!; [done | done |]. cbn. rewrite <-so_length0 by done. done.
  - intros i. rewrite ids_app, elem_of_app. intros [Hi | ->%list_elem_of_singleton]; [by apply H3 |].
    split; [cbn; lia |]. cbn. rewrite lookup_insert_eq. by intros ? [= <-].
Qed.

Lemma dispatch_one_ok mb c id s :
  conn_ok mb c → streams c !! id = Some s → ready s = true →
  ∃ c', dispatch_one id c = Some c' ∧ conn_ok mb c' ∧
    (∀ j, j ≠ id → streams c' !! j = streams c !! j) ∧
    (∃ s', streams c' !! id = Some s' ∧ ready s' = false).
Proof.
  intros Hok Hs Hr. pose proof Hr as (Hdis & Hdone & Hst)%ready_spec.
  destruct (co_streams _ _ Hok _ _ Hs) as (Hodd & ? & Hso). pose proof (co_highest _ _ Hok).
  unfold dispatch_one. rewrite Hs. cbn [mbind option_bind].
  assert (∀ c', c' = spawn_stream id (set_dispatched true s) c →
    (∀ j, j ≠ id → streams c' !! j = streams c !! j) ∧
    (∃ s', streams c' !! id = Some s' ∧ ready s' = false)) as Hspawn.
  { intros ? ->. cbn. split; [intros; by rewrite lookup_insert_ne |].
    rewrite lookup_insert_eq. eexists. split; [done |]. done. }
  eexists. split; [reflexivity |].
  destruct (content_length (set_dispatched true s)) as [n|] eqn:Hcl; cbn in Hcl.
  1: case_decide as Hn.
  - split_and!.
    + apply conn_ok_reset; [|lia]. eapply conn_ok_insert; [done | done | done | done |].
      intros []. by split.
    + intros j Hj. cbn. by rewrite lookup_alter_ne, lookup_insert_ne by done.
    + cbn. rewrite lookup_alter_eq, lookup_insert_eq. by eexists.
  - split; [|by apply Hspawn]. apply spawn_stream_ok; try done. intros m Hm. cbn in Hn.
    rewrite Hcl in Hm. injection Hm as <-. lia.
  - split; [|by apply Hspawn]. apply spawn_stream_ok; try done. intros m Hm. congruence.
Qed.

(** No complete request is waiting. *)
Definition none_ready (c : Conn) : Prop :=
  ∀ id s, streams c !! id = Some s → ready s = false.

Lemma dispatch_all_ok mb l c :
  conn_ok mb c → NoDup l → (∀ id, id ∈ l → ∃ s, streams c !! id = Some s ∧ ready s = true) →
  (∀ id s, streams c !! id = Some s → ready s = true → id ∈ l) →
  ∃ c', dispatch_all l c = Some c' ∧ conn_ok mb c' ∧ none_ready c'.
Proof.
  intros Hok Hnd. revert c Hok. induction Hnd as [|id l Hid Hnd IH]; intros c Hok Hall Hcomp.
  - exists c. split_and!; [done | done |]. intros id s Hs. destruct (ready s) eqn:Hr; [|done].
    by apply Hcomp in Hs; [apply not_elem_of_nil in Hs |].
  - destruct (Hall id) as (s & Hs & Hr); [set_solver |].
    destruct (dispatch_one_ok mb c id s Hok Hs Hr) as (c1 & Hc1 & Hok1 & Hsame & s' & Hs' & Hr').
    cbn [dispatch_all]. rewrite Hc1. cbn [mbind option_bind]. apply IH; [done | |].
    + intros j Hj. rewrite Hsame by set_solver. apply Hall. set_solver.
    + intros j t Ht Htr. destruct (decide (j = id)) as [->|]; [congruence |].
      rewrite Hsame in Ht by done. pose proof (Hcomp _ _ Ht Htr). set_solver.
Qed.

Lemma elem_of_ready_ids m id :
  id ∈ ready_ids m ↔ ∃ s, m !! id = Some s ∧ ready s = true.
Proof.
  unfold ready_ids. rewrite list_elem_of_fmap. split.
  - intros ([i s] & -> & Hin%elem_of_map_to_list). apply map_lookup_filter_Some in Hin as [].
    by exists s.
  - intros (s & Hs & Hr). exists (id, s). split; [done |]. apply elem_of_map_to_list.
    by apply map_lookup_filter_Some.
Qed.

Lemma dispatch_ok mb c :
  conn_ok mb c → ∃ c', dispatch c = Some c' ∧ conn_ok mb c' ∧ none_ready c'.
Proof.
  intros Hok. apply dispatch_all_ok; [done | apply NoDup_fst_map_to_list | |].
  - intros id. apply elem_of_ready_ids.
  - intros id s Hs Hr. apply elem_of_ready_ids. eauto.
Qed.

(** A frame that skips the dispatch step completes no request. *)
Lemma none_ready_reset id code c : none_ready c → none_ready (reset_stream id code c).
Proof.
  intros H i s. cbn. destruct (decide (i = id)) as [->|].
  - rewrite lookup_alter_eq. destruct (streams c !! id); [|done]. intros [= <-].
    unfold ready. cbn. apply andb_false_r.
  - rewrite lookup_alter_ne by done. apply H.
Qed.

Lemma finish_or_falls id c c' : finish_or id c ≠ Continue c'.
Proof. unfold finish_or. by destruct (finish_block id c). Qed.

Lemma open_block_falls h c c' : open_block h c ≠ Continue c'.
Proof. unfold open_block. case_match; [apply finish_or_falls | done]. Qed.

Lemma on_new_stream_falls h b c c' : on_new_stream h b c ≠ Continue c'.
Proof. unfold on_new_stream. repeat case_decide; done || apply open_block_falls. Qed.

Lemma on_trailers_falls h b c c' : on_trailers h b c ≠ Continue c'.
Proof. unfold on_trailers. case_match; done || apply open_block_falls. Qed.

Lemma on_headers_continues h payload c c' :
  none_ready c → on_headers h payload c = Continue c' → none_ready c'.
Proof.
  intros Hn. unfold on_headers. do 2 (case_decide; [done |]). destruct (unpad _ _) as [b|]; [|done].
  assert (∀ b, match state_of (streams c) (stream h) (highest c) with
        | WOpen | WHalfClosed => on_trailers h b c
        | WClosed | WReset => fail c StreamClosed "HEADERS on a closed stream"
        | WIdle => on_new_stream h b c
        end ≠ Continue c') as Hgo.
  { intros. destruct (state_of _ _ _); done || apply on_new_stream_falls || apply on_trailers_falls. }
  destruct (has h flag.PRIORITY); [|by intros ?%Hgo]. case_decide; [done |].
  case_decide; [|by intros ?%Hgo]. by intros [= <-].
Qed.

Lemma on_data_continues mb h payload c c' :
  none_ready c → on_data mb h payload c = Continue c' → none_ready c'.
Proof.
  intros Hn. unfold on_data. case_decide; [done |]. destruct (unpad _ _); [|done].
  destruct (replenish_same c (recv_window c - len h)) as (Hst & _).
  assert (none_ready (replenish (set_recv_window (recv_window c - len h) c))) as Hr.
  { unfold none_ready. by rewrite Hst. }
  destruct (state_of _ _ _); try done; try (by intros [= <-]; apply none_ready_reset).
  case_match; [|done]. case_decide; [|done]. intros [= <-]. by apply none_ready_reset.
Qed.

Lemma on_continuation_falls h payload c c' : on_continuation h payload c ≠ Continue c'.
Proof. unfold on_continuation. repeat (case_match || case_decide); done || apply finish_or_falls. Qed.

Lemma on_frame_continues mb h payload c c' :
  none_ready c → on_frame mb h payload c = Continue c' → none_ready c'.
Proof.
  intros Hn. unfold on_frame. destruct (expect_continuation c).
  { case_decide; [done |]. by intros ?%on_continuation_falls. }
  case_decide; [by apply on_data_continues |]. case_decide; [by apply on_headers_continues |].
  case_decide; [by intros ?%on_continuation_falls |].
  case_decide; [unfold on_priority; by repeat case_decide |].
  case_decide; [unfold on_rst_stream; by repeat case_decide |].
  case_decide.
  { unfold on_settings. repeat case_match; try done. by intros [= <-]. }
  case_decide; [unfold on_ping; by repeat case_decide |].
  case_decide; [|by repeat case_decide].
  unfold on_window_update. repeat case_match; try done; intros [= <-]; by apply none_ready_reset.
Qed.

(** One frame: no panic, the invariant is kept, and every complete request
    has been handed over. *)
Lemma step_ok mb h payload c :
  conn_ok mb c → none_ready c → 0 ≤ mb → frame_ok h (payload) →
  match step mb h payload c with
  | Fall _ | Panic => False
  | Continue c' => conn_ok mb c' ∧ none_ready c'
  | Stop c' _ => spawned c' = spawned c
  end.
Proof.
  intros Hok Hn Hmb Hf. unfold step. case_decide; [done |].
  pose proof (on_frame_ok mb h payload c Hok Hmb Hf ltac:(lia)) as H1.
  pose proof (on_frame_continues mb h payload c) as H2.
  destruct (on_frame mb h payload c) as [c1|c1|c1 r|]; cbn in H1; [| by eauto | done | done].
  destruct (dispatch_ok mb c1 H1) as (c2 & -> & ? & ?). done.
Qed.

(** *** The connection as a transition system *)

Inductive conn_step (mb : Z) : Conn → Conn → Prop :=
  | step_frame h payload c c' :
      frame_ok h payload → step mb h payload c = Continue c' → conn_step mb c c'
  | step_done id c : id ∈ ids (spawned c) → conn_step mb c (task_done id c)
  | step_pump id data c : id ∈ ids (spawned c) → conn_step mb c (fst (pump_once id data c)).

Definition reachable (mb : Z) : Conn → Prop := rtc (conn_step mb) init.

Lemma conn_init_ok mb : 0 ≤ mb → conn_ok mb init ∧ none_ready init.
Proof.
  intros Hmb. split; [|done]. unfold init. split; cbn; try done.
  - split; [by apply new_ok | constructor].
  - repeat (constructor; try done).
  - split; cbn; [constructor | constructor |]. intros id H. by apply not_elem_of_nil in H.
Qed.

Lemma none_ready_alter id (f : Stream → Stream) c :
  none_ready c → (∀ s, ready (f s) = ready s) → none_ready (set_streams (alter f id (streams c)) c).
Proof.
  intros Hn Hf i s. cbn. destruct (decide (i = id)) as [->|].
  - rewrite lookup_alter_eq. destruct (streams c !! id) eqn:E; [|done]. intros [= <-].
    rewrite Hf. by eapply Hn.
  - rewrite lookup_alter_ne by done. apply Hn.
Qed.

Lemma task_done_ok mb id c :
  conn_ok mb c → none_ready c → conn_ok mb (task_done id c) ∧ none_ready (task_done id c).
Proof.
  intros Hok Hn. split; [|by apply none_ready_alter].
  apply conn_ok_alter; [done |]. intros s. split_and!; [done | done |]. intros []. by split.
Qed.

Lemma pump_once_ok mb id data c :
  conn_ok mb c → none_ready c →
  conn_ok mb (fst (pump_once id data c)) ∧ none_ready (fst (pump_once id data c)).
Proof.
  intros Hok Hn. unfold pump_once. destruct (streams c !! id) as [st|] eqn:Hst; [|done].
  destruct (reset st); [done |]. case_decide as Hd; [done |]. cbn [fst].
  set (n := Z.min _ _). pose proof (co_frame _ _ Hok) as Hfr. pose proof (co_conn _ _ Hok) as Hcw.
  pose proof (co_piw _ _ Hok) as Hp. unfold DEFAULT_MAX_FRAME, MAX_FRAME_LIMIT in Hfr.
  destruct (co_streams _ _ Hok _ _ Hst) as (_ & Hid & _). pose proof (co_highest _ _ Hok) as Hhi.
  assert (0 ≤ n ∧ n ≤ conn_window c ∧ n ≤ window st ∧ n ≤ max_frame c ∧ n ≤ Z.of_nat (length data))
    as (? & ? & ? & ? & ?) by lia.
  split.
  - eapply (conn_ok_insert mb (set_conn_window _ (send _ c)) id st); [|done | done | done |].
    + assert (conn_ok mb (send (OutData id (take (Z.to_nat n) data) false) c)) as [].
      { apply conn_ok_send; [done |]. cbn. rewrite length_take. unfold MAX_FRAME_LIMIT. split; lia. }
      split; try done. cbn in *. lia.
    + intros []. split; try done. cbn in *. lia.
  - intros i s. cbn. destruct (decide (i = id)) as [->|].
    + rewrite lookup_insert_eq. intros [= <-]. by apply (Hn id st).
    + rewrite lookup_insert_ne by done. apply Hn.
Qed.

Lemma reachable_inv mb c : 0 ≤ mb → reachable mb c → conn_ok mb c ∧ none_ready c.
Proof.
  intros Hmb Hr. unfold reachable in Hr. revert c Hr. apply rtc_ind_r.
  - by apply conn_init_ok.
  - intros ? ? _ Hstep [Hok Hn]. destruct Hstep as [h p c c' Hf Hs| |].
    + pose proof (step_ok mb h p c Hok Hn Hmb Hf) as H. by rewrite Hs in H.
    + by apply task_done_ok.
    + by apply pump_once_ok.
Qed.

(** *** The whole connection *)

Lemma land31 a : 0 ≤ Z.land a 2147483647 < 2 ^ 31.
Proof. change 2147483647 with (2 ^ 31 - 1). rewrite (land_mask a 31) by lia. apply Z.mod_pos_bound. lia. Qed.

Lemma parse_frame_ok input :
  (HEADER_LEN ≤ length input)%nat → 0 ≤ stream (H2Frame.parse (take HEADER_LEN input)) < 2 ^ 31 ∧
  0 ≤ len (H2Frame.parse (take HEADER_LEN input)).
Proof.
  intros _. unfold H2Frame.parse. cbn [stream len]. split.
  - apply land31.
  - apply from_be_range.
Qed.

Lemma read_loop_ok mb fuel input c :
  0 ≤ mb → conn_ok mb c → none_ready c → (length input < fuel)%nat →
  ∃ c' r, read_loop fuel mb input c = Some (c', r) ∧
    NoDup (ids (spawned c')) ∧ Forall (request_ok mb) (spawned c').
Proof.
  intros Hmb. revert input c. induction fuel as [|fuel IH]; intros input c Hok Hn Hf; [lia |].
  cbn [read_loop]. pose proof (co_spawned _ _ Hok) as [Hsp1 Hsp2 _].
  destruct input as [|b0 input0]; [by eauto 10 |]. set (input := b0 :: input0) in *.
  case_decide as Hshort; [by eauto 10 |].
  destruct (parse_frame_ok input ltac:(lia)) as [Hs Hl].
  set (h := H2Frame.parse _) in *. case_decide as Htrunc; [by eauto 10 |].
  set (payload := take _ _).
  destruct (decide (DEFAULT_MAX_FRAME < len h)) as [Hbig | Hsmall].
  { unfold step. rewrite decide_True by done. cbn. by eauto 10. }
  assert (frame_ok h payload) as Hfr.
  { split; [done |]. unfold payload. rewrite length_take. lia. }
  pose proof (step_ok mb h payload c Hok Hn Hmb Hfr) as Hstep.
  destruct (step mb h payload c) as [|c'|c' r|]; [done | | | done].
  - destruct Hstep as [Hok' Hn']. apply IH; [done | done |].
    rewrite !length_drop. unfold HEADER_LEN in *. lia.
  - exists c', r. rewrite Hstep. done.
Qed.

(** *** Request headers *)

Definition is_pseudo (h : Header) : Prop :=
  name h ∈ [str ":method"; str ":path"; str ":authority"; str ":scheme"].

(** The value of a pseudo-header: that of the first field of its name. *)
Fixpoint pseudo (hs : list Header) (n : bytes) : option bytes :=
  match hs with
  | [] => None
  | h :: hs => if decide (name h = n) then Some (value h) else pseudo hs n
  end.

Definition slots_of (hs : list Header) : Slots :=
  mkSlots (pseudo hs (str ":method")) (pseudo hs (str ":path")) (pseudo hs (str ":authority"))
    (pseudo hs (str ":scheme")).

Definition ordinary_ok (h : Header) : Prop :=
  strip_prefix (str ":") (name h) = None ∧ field_allowed h = true.

Lemma pseudo_snoc ps h n :
  pseudo (ps ++ [h]) n =
  match pseudo ps n with Some v => Some v | None => if decide (name h = n) then Some (value h) else None end.
Proof. induction ps as [|p ps IH]; cbn [pseudo app]; [reflexivity |]. destruct (decide (name p = n)); [done | apply IH]. Qed.

Ltac fill_slot ps n full :=
  change (x3a :: n) with full;
  destruct (pseudo ps full) eqn:?;
  [ rewrite decide_False by naive_solver; done
  | rewrite decide_True by (split; [set_solver | done]); cbn;
    repeat (case_match; simplify_eq; try done) ].

(** Filling a slot with the next header: all four slots stay in step. *)
Lemma fill_spec ps h n :
  strip_prefix (str ":") (name h) = Some n →
  fill n (value h) (slots_of ps) =
  if decide (is_pseudo h ∧ pseudo ps (name h) = None) then Ok (slots_of (ps ++ [h])) else Err Protocol.
Proof.
  intros Hn%strip_prefix_Some. unfold fill, is_pseudo, slots_of. rewrite !pseudo_snoc, Hn.
  cbn [s_method s_path s_authority s_scheme].
  change (str ":" ++ n) with (x3a :: n).
  destruct (decide (n = str "method")) as [->|N1]; [fill_slot ps (str "method") (str ":method") |].
  destruct (decide (n = str "path")) as [->|N2]; [fill_slot ps (str "path") (str ":path") |].
  destruct (decide (n = str "authority")) as [->|N3]; [fill_slot ps (str "authority") (str ":authority") |].
  destruct (decide (n = str "scheme")) as [->|N4]; [fill_slot ps (str "scheme") (str ":scheme") |].
  rewrite decide_False; [done |]. intros [Hin _].
  repeat (apply elem_of_cons in Hin as [Hin|Hin]; [by injection Hin as Hin |]).
  by apply not_elem_of_nil in Hin.
Qed.

Lemma pseudo_None ps n : pseudo ps n = None ↔ n ∉ (name <$> ps).
Proof.
  induction ps as [|p ps IH]; cbn [pseudo]; [cbn; set_solver |].
  rewrite fmap_cons_eq, not_elem_of_cons. destruct (decide (name p = n)); naive_solver.
Qed.

Lemma is_pseudo_colon h : is_pseudo h → ∃ n, strip_prefix (str ":") (name h) = Some n.
Proof.
  unfold is_pseudo. intros Hin.
  repeat (apply elem_of_cons in Hin as [->|Hin]; [by eexists |]). by apply not_elem_of_nil in Hin.
Qed.

Definition pair_of (h : Header) : bytes * bytes := (name h, value h).

(** A list the loop accepts: pseudo-headers, each once, then ordinary fields. *)
Definition split_fields (ps : list Header) (seen : bool) (hs ps' os : list Header) : Prop :=
  hs = ps' ++ os ∧ (seen = true → ps' = []) ∧ Forall is_pseudo ps' ∧ NoDup (name <$> (ps ++ ps')) ∧
  Forall ordinary_ok os.

Lemma split_fields_nil ps seen ps' os : split_fields ps seen [] ps' os → ps' = [] ∧ os = [].
Proof. intros (H & _). by symmetry in H; apply app_eq_nil in H. Qed.

Lemma split_fields_pseudo ps seen h n hs ps' os :
  strip_prefix (str ":") (name h) = Some n → NoDup (name <$> ps) →
  split_fields ps seen (h :: hs) ps' os ↔
  seen = false ∧ is_pseudo h ∧ pseudo ps (name h) = None ∧
  ∃ ps'', ps' = h :: ps'' ∧ split_fields (ps ++ [h]) false hs ps'' os.
Proof.
  intros Hn Hnd. rewrite pseudo_None. unfold split_fields. split.
  - intros (He & Hseen & H1 & H2 & H3). destruct ps' as [|h' ps'].
    { cbn in He. subst os. apply Forall_cons in H3 as [[H3 _] _]. congruence. }
    injection He as <- ->. apply Forall_cons in H1 as [Hh H1].
    split_and!; [destruct seen; naive_solver | done | | exists ps'; by rewrite <-app_assoc].
    rewrite fmap_app, NoDup_app in H2. intros Hin. destruct H2 as (_ & H2 & _).
    apply (H2 _ Hin). cbn. set_solver.
  - intros (-> & Hh & Hnew & ps'' & -> & -> & _ & H1 & H2 & H3). rewrite <-app_assoc in H2.
    by split_and!; try constructor.
Qed.

Lemma split_fields_ordinary ps seen h hs ps' os :
  strip_prefix (str ":") (name h) = None →
  split_fields ps seen (h :: hs) ps' os ↔
  field_allowed h = true ∧ ps' = [] ∧ ∃ os', os = h :: os' ∧ split_fields ps true hs [] os'.
Proof.
  intros Hn. unfold split_fields. split.
  - intros (He & Hseen & H1 & H2 & H3). destruct ps' as [|h' ps'].
    + cbn in He. subst os. apply Forall_cons in H3 as [[_ ?] H3]. by eauto 10.
    + injection He as <- ->. apply Forall_cons in H1 as [[? ?]%is_pseudo_colon _]. congruence.
  - intros (Hf & -> & os' & -> & -> & _ & H1 & H2 & H3). by split_and!; try constructor.
Qed.

Lemma parse_fields_spec hs ps ord seen r :
  NoDup (name <$> ps) →
  parse_fields hs (slots_of ps) ord seen = Ok r ↔
  ∃ ps' os, split_fields ps seen hs ps' os ∧ r = (slots_of (ps ++ ps'), ord ++ (pair_of <$> os)).
Proof.
  revert ps ord seen. induction hs as [|h hs IH]; intros ps ord seen Hnd; cbn [parse_fields].
  { split.
    - intros [= <-]. exists [], []. unfold split_fields. rewrite !app_nil_r. by split_and!.
    - intros (ps' & os & [-> ->]%split_fields_nil & ->). by rewrite !app_nil_r. }
  destruct (strip_prefix (str ":") (name h)) as [n|] eqn:Hn.
  - setoid_rewrite (split_fields_pseudo _ _ _ n); [|done..]. destruct seen; [naive_solver |].
    rewrite (fill_spec ps h n Hn). case_decide as Hd; cbn [mbind result_bind]; [|naive_solver].
    rewrite IH; [|rewrite fmap_app; apply NoDup_app; split_and!; [done | | apply NoDup_singleton]].
    2: { intros x Hx ->%list_elem_of_singleton. destruct Hd as [_ Hd%pseudo_None]. done. }
    split.
    + intros (ps' & os & Hs & ->). exists (h :: ps'), os. rewrite <-app_assoc. naive_solver.
    + intros (ps' & os & (_ & _ & _ & ps'' & -> & Hs) & ->). exists ps'', os. by rewrite <-app_assoc.
  - setoid_rewrite split_fields_ordinary; [|done]. destruct (field_allowed h); [|naive_solver].
    rewrite IH by done. split.
    + intros (ps' & os & Hs & ->). pose proof Hs as (_ & Hps & _). rewrite Hps in * by done.
      exists [], (h :: os). rewrite <-app_assoc. naive_solver.
    + intros (ps' & os & (_ & -> & os' & -> & Hs) & ->). exists [], os'. by rewrite <-app_assoc.
Qed.

(** *** Pumping *)

Lemma pump_once_spec mb id data c st :
  conn_ok mb c → streams c !! id = Some st → reset st = false →
  let n := Z.min (Z.min (Z.max (Z.min (conn_window c) (window st)) 0) (max_frame c))
             (Z.of_nat (length data)) in
  pump_once id data c =
  if decide (n = 0) then (c, data)
  else (set_streams (<[id := set_window (window st - n) st]> (streams c))
          (set_conn_window (conn_window c - n) (send (OutData id (take (Z.to_nat n) data) false) c)),
        drop (Z.to_nat n) data).
Proof.
  intros Hok Hst Hr n. unfold pump_once. rewrite Hst, Hr. fold n.
  pose proof (co_frame _ _ Hok) as Hf. unfold DEFAULT_MAX_FRAME in Hf.
  destruct data as [|b data]; cbn [length] in n; case_decide as H1; case_decide as H2;
    try done; exfalso.
  - lia.
  - by apply H1; right.
  - destruct H1 as [|]; [lia | done].
  - apply H1. left. lia.
Qed.

Lemma pump_exact_aux mb id fuel data c st :
  conn_ok mb c → none_ready c → streams c !! id = Some st → reset st = false →
  (length data ≤ fuel)%nat →
  let n := Z.min (Z.of_nat (length data)) (Z.max (Z.min (conn_window c) (window st)) 0) in
  ∃ chunks,
    pump fuel id data c =
      (set_tx (tx c ++ ((λ p, OutData id p false) <$> chunks))
         (set_conn_window (conn_window c - n)
            (set_streams (<[id := set_window (window st - n) st]> (streams c)) c)),
       drop (Z.to_nat n) data) ∧
    mjoin chunks = take (Z.to_nat n) data ∧
    Forall (λ p, 0 < Z.of_nat (length p) ≤ max_frame c) chunks.
Proof.
  revert data c st. induction fuel as [|fuel IH]; intros data c st Hok Hn Hst Hr Hf n.
  - destruct data; [|cbn in Hf; lia]. exists []. cbn [length] in n. cbn [pump fmap list_fmap].
    assert (n = 0) as -> by lia. rewrite !Z.sub_0_r, app_nil_r, drop_0, take_0.
    rewrite insert_id by (rewrite Hst; by destruct st). by destruct c.
  - cbn [pump]. pose proof (pump_once_ok mb id data c Hok Hn) as [Hok1 Hn1].
    rewrite (pump_once_spec mb id data c st Hok Hst Hr) in *.
    pose proof (co_frame _ _ Hok) as Hfr. unfold DEFAULT_MAX_FRAME in Hfr.
    set (k := Z.min (Z.min _ _) _) in *. destruct (decide (k = 0)) as [Hk|Hk].
    + rewrite decide_True by done. exists []. assert (n = 0) as -> by lia.
      cbn [fmap list_fmap]. rewrite !Z.sub_0_r, app_nil_r, drop_0, take_0.
      rewrite insert_id by (rewrite Hst; by destruct st). by destruct c.
    + cbn [fst] in Hok1, Hn1.
      assert (length (drop (Z.to_nat k) data) < length data)%nat as Hlt by len_lia.
      rewrite decide_False by (intros E; rewrite E in Hlt; lia).
      edestruct IH as (chunks & -> & Hj & Hc); [exact Hok1 | exact Hn1 | apply lookup_insert_eq | exact Hr | lia |].
      exists (take (Z.to_nat k) data :: chunks).
      cbn [conn_window window set_window streams set_streams set_conn_window send set_tx tx max_frame] in *.
      rewrite length_drop in *.
      set (n' := Z.min (Z.of_nat (length data - Z.to_nat k)) _) in *.
      assert (n = k + n') as -> by lia. split_and!.
      * f_equal.
        -- unfold set_tx, set_conn_window, set_streams. cbn. f_equal; try lia.
           ++ rewrite insert_insert_eq. f_equal. unfold set_window. cbn. f_equal. lia.
           ++ by rewrite <-app_assoc.
        -- rewrite drop_drop. f_equal. lia.
      * rewrite join_cons, Hj.
        replace (Z.to_nat (k + n')) with (Z.to_nat k + Z.to_nat n')%nat by lia.
        by rewrite <-take_take_drop.
      * constructor; [|done]. rewrite length_take. lia.
Qed.

(** *** A request, frame by frame *)

(** Frames one after the other, while the connection goes on. *)
Fixpoint feed (mb : Z) (fs : list (Head * bytes)) (c : Conn) : option Conn :=
  match fs with
  | [] => Some c
  | (h, p) :: fs => match step mb h p c with Continue c => feed mb fs c | _ => None end
  end.

Definition mk (k f id : Z) (p : bytes) : Head * bytes := (mkHead (Z.of_nat (length p)) k f id, p).

Definition request_frames (id : Z) (block : bytes) (chunks : list bytes) (last : bytes) :
    list (Head * bytes) :=
  mk kind.HEADERS flag.END_HEADERS id block ::
  (mk kind.DATA 0 id <$> chunks) ++ [mk kind.DATA flag.END_STREAM id last].

(** The stream while its body arrives. *)
Definition receiving (hs : list Header) (b : bytes) (st : Stream) : Prop :=
  state st = Open ∧ headers_done st = true ∧ dispatched st = false ∧ headers st = hs ∧
  content_length st = content_length_of hs ∧ body st = b.

Lemma receiving_not_ready hs b st : receiving hs b st → ready st = false.
Proof. intros (Ho & _). unfold ready. rewrite Ho. apply andb_false_r. Qed.

Lemma dispatch_none c : none_ready c → dispatch c = Some c.
Proof.
  intros Hn. unfold dispatch. destruct (ready_ids (streams c)) as [|id l] eqn:E; [done |].
  assert (id ∈ ready_ids (streams c)) as (s & Hs & Hr)%elem_of_ready_ids by (rewrite E; set_solver).
  by rewrite (Hn _ _ Hs) in Hr.
Qed.

Lemma dispatch_single c id s :
  streams c !! id = Some s → ready s = true →
  (∀ j t, j ≠ id → streams c !! j = Some t → ready t = false) →
  dispatch c = dispatch_one id c.
Proof.
  intros Hs Hr Hothers. unfold dispatch.
  assert (ready_ids (streams c) = [id]) as ->.
  { assert (∀ j, j ∈ ready_ids (streams c) → j = id) as Hall.
    { intros j (t & Ht & Htr)%elem_of_ready_ids. destruct (decide (j = id)); [done |].
      by rewrite (Hothers j t) in Htr. }
    assert (id ∈ ready_ids (streams c)) as Hin by (apply elem_of_ready_ids; eauto).
    assert (NoDup (ready_ids (streams c))) as Hnd by apply NoDup_fst_map_to_list.
    destruct (ready_ids (streams c)) as [|a [|b l]]; [by apply not_elem_of_nil in Hin | |].
    - f_equal. apply Hall. set_solver.
    - assert (a = id) as -> by (apply Hall; set_solver).
      assert (b = id) as -> by (apply Hall; set_solver).
      apply NoDup_cons in Hnd as [Hnd _]. set_solver. }
  cbn [dispatch_all]. by destruct (dispatch_one id c).
Qed.

Lemma feed_headers mb c id block d hs :
  conn_ok mb c → none_ready c → 0 ≤ mb → expect_continuation c = None →
  Z.odd id = true → highest c < id < 2 ^ 31 → active (prune (streams c)) < MAX_CONCURRENT →
  Z.of_nat (length block) ≤ DEFAULT_MAX_FRAME →
  Hpack.decode (dec c) block MAX_HEADER_LIST [] = (d, hs, Ok tt) →
  ∃ c' st, feed mb [mk kind.HEADERS flag.END_HEADERS id block] c = Some c' ∧
    conn_ok mb c' ∧ none_ready c' ∧ spawned c' = spawned c ∧ expect_continuation c' = None ∧
    streams c' !! id = Some st ∧ receiving hs [] st.
Proof.
  intros Hok Hn Hmb He Hodd Hhi Hact Hlen Hdec. pose proof (co_highest _ _ Hok) as Hh0.
  pose proof (co_streams _ _ Hok) as Hsok.
  set (h := fst (mk kind.HEADERS flag.END_HEADERS id block)).
  assert (∃ c' st, on_frame mb h block c = Fall c' ∧ none_ready c' ∧ spawned c' = spawned c ∧
    expect_continuation c' = None ∧ streams c' !! id = Some st ∧ receiving hs [] st)
    as (c' & st & Hf & Hn' & Hsp & He' & Hst & Hrec).
  { unfold on_frame. rewrite He. cbn [h mk fst head_kind]. rewrite decide_False, decide_True by done.
    unfold on_headers. cbn [stream flags h mk fst].
    rewrite decide_False by lia. rewrite decide_False by (rewrite Zmod_odd, Hodd; lia).
    change (has _ flag.PADDED) with false. change (has _ flag.PRIORITY) with false. cbn [unpad negb].
    assert (streams c !! id = None) as Habs.
    { destruct (streams c !! id) eqn:E; [|done]. apply Hsok in E as (_ & ? & _). lia. }
    unfold state_of. rewrite Habs, decide_False by lia.
    unfold on_new_stream. cbn [stream h mk fst]. rewrite decide_False by lia.
    cbn [streams set_streams set_highest peer_initial_window]. rewrite decide_False by lia.
    unfold open_block. change (has _ flag.END_HEADERS) with true. change (has _ flag.END_STREAM) with false.
    unfold finish_or, finish_block. cbn [streams set_streams set_highest stream h mk fst dec].
    rewrite lookup_insert_eq. cbn [pending set_pending set_state new_stream pending_is_trailers].
    rewrite Hdec. cbn [set_pending].
    eexists _, _. split; [reflexivity |]. cbn.
    split_and!; [| done | done | by rewrite lookup_insert_eq |]; [|by repeat split].
    intros j t. cbn. destruct (decide (j = id)) as [->|].
    - rewrite lookup_insert_eq. by intros [= <-].
    - rewrite !lookup_insert_ne by done. intros [Ht _]%map_lookup_filter_Some. eauto. }
  pose proof (on_frame_ok mb h block c Hok Hmb) as Hok'. rewrite Hf in Hok'.
  exists c', st. split_and!; try done.
  - change (feed mb _ c) with (match step mb h block c with Continue c => Some c | _ => None end).
    unfold step. rewrite decide_False by (cbn; lia). by rewrite Hf, dispatch_none.
  - apply Hok'; [split; cbn; lia | cbn; lia].
Qed.

(** A DATA frame on an open stream, within the body limit. *)
Lemma on_data_open mb c id f data st :
  conn_ok mb c → expect_continuation c = None → streams c !! id = Some st → state st = Open →
  f = 0 ∨ f = flag.END_STREAM →
  Z.of_nat (length (body st) + length data) ≤ mb →
  let st' := set_body (body st ++ data)
               (if decide (f = 0) then st else set_state HalfClosedRemote st) in
  ∃ c', on_frame mb (fst (mk kind.DATA f id data)) data c = Fall c' ∧ spawned c' = spawned c ∧
    streams c' = <[id := st']> (streams c) ∧ expect_continuation c' = None.
Proof.
  intros Hok He Hst Hopen Hfl Hlen st'. destruct (co_streams _ _ Hok _ _ Hst) as (_ & Hid & _).
  unfold on_frame. rewrite He. cbn [mk fst head_kind]. rewrite decide_True by done.
  unfold on_data. cbn [stream H2Frame.len]. rewrite decide_False by lia.
  assert (has (mkHead (Z.of_nat (length data)) kind.DATA f id) flag.PADDED = false) as ->
    by (destruct Hfl as [-> | ->]; done).
  assert (has (mkHead (Z.of_nat (length data)) kind.DATA f id) flag.END_STREAM =
          negb (bool_decide (f = 0))) as -> by (destruct Hfl as [-> | ->]; done).
  cbn [unpad negb].
  set (n := recv_window c - _). destruct (replenish_same c n) as (E1 & E2 & E3).
  assert (expect_continuation (replenish (set_recv_window n c)) = None) as E4
    by (unfold replenish; by case_decide).
  unfold state_of. rewrite E1, Hst, Hopen. rewrite decide_False by lia.
  eexists. split; [reflexivity |]. cbn. split_and!; [done | | done]. f_equal. unfold st'.
  by destruct Hfl as [-> | ->].
Qed.

Lemma feed_data mb c id data st hs b :
  conn_ok mb c → none_ready c → 0 ≤ mb → expect_continuation c = None →
  streams c !! id = Some st → receiving hs b st →
  Z.of_nat (length data) ≤ DEFAULT_MAX_FRAME → Z.of_nat (length b + length data) ≤ mb →
  ∃ c' st', step mb (fst (mk kind.DATA 0 id data)) data c = Continue c' ∧
    conn_ok mb c' ∧ none_ready c' ∧ spawned c' = spawned c ∧ expect_continuation c' = None ∧
    streams c' !! id = Some st' ∧ receiving hs (b ++ data) st'.
Proof.
  intros Hok Hn Hmb He Hst Hrec Hlen Hmax. pose proof Hrec as (Hopen & ? & ? & ? & ? & Hb). subst b.
  destruct (on_data_open mb c id 0 data st Hok He Hst Hopen) as (c' & Hf & Hsp & Hs' & He');
    [by left | done |].
  assert (none_ready c') as Hn'.
  { intros j t. rewrite Hs'. destruct (decide (j = id)) as [->|].
    - rewrite lookup_insert_eq. intros [= <-]. by apply (Hn id st).
    - rewrite lookup_insert_ne by done. apply Hn. }
  destruct (co_streams _ _ Hok _ _ Hst) as (_ & Hid & _). pose proof (co_highest _ _ Hok).
  pose proof (on_frame_ok mb (fst (mk kind.DATA 0 id data)) data c Hok Hmb) as Hok'. rewrite Hf in Hok'.
  eexists c', _. split_and!; [| apply Hok' | done | done | done | by rewrite Hs', lookup_insert_eq | ].
  - unfold step. rewrite decide_False by (cbn; lia). by rewrite Hf, dispatch_none.
  - split; cbn; lia.
  - cbn; lia.
  - by split_and!.
Qed.

Lemma feed_chunks mb id chunks fs c st hs b :
  conn_ok mb c → none_ready c → 0 ≤ mb → expect_continuation c = None →
  streams c !! id = Some st → receiving hs b st →
  Forall (λ p, Z.of_nat (length p) ≤ DEFAULT_MAX_FRAME) chunks →
  Z.of_nat (length b + length (mjoin chunks)) ≤ mb →
  ∃ c' st', feed mb ((mk kind.DATA 0 id <$> chunks) ++ fs) c = feed mb fs c' ∧
    conn_ok mb c' ∧ none_ready c' ∧ spawned c' = spawned c ∧ expect_continuation c' = None ∧
    streams c' !! id = Some st' ∧ receiving hs (b ++ mjoin chunks) st'.
Proof.
  intros Hok Hn Hmb He Hst Hrec Hall. revert c st b Hok Hn He Hst Hrec.
  induction Hall as [|p chunks Hp _ IH]; intros c st b Hok Hn He Hst Hrec Hmax.
  - exists c, st. cbn. rewrite app_nil_r. by split_and!.
  - rewrite join_cons, length_app in Hmax.
    destruct (feed_data mb c id p st hs b) as (c1 & st1 & Hf & Hok1 & Hn1 & Hsp1 & He1 & Hst1 & Hrec1);
      [done.. | lia |].
    destruct (IH c1 st1 (b ++ p)) as (c2 & st2 & Hf2 & Hrest); [done.. | len_lia |].
    exists c2, st2. rewrite join_cons, app_assoc, <-Hsp1. split; [|done].
    rewrite fmap_cons_eq. cbn [app feed mk] in *. cbn [mk fst] in Hf. rewrite Hf. apply Hf2.
Qed.

Lemma feed_last mb c id data st hs b :
  conn_ok mb c → none_ready c → expect_continuation c = None →
  streams c !! id = Some st → receiving hs b st →
  Z.of_nat (length data) ≤ DEFAULT_MAX_FRAME → Z.of_nat (length b + length data) ≤ mb →
  (∀ n, content_length_of hs = Some n → n = Z.of_nat (length (b ++ data))) →
  ∃ c', feed mb [mk kind.DATA flag.END_STREAM id data] c = Some c' ∧
    spawned c' = spawned c ++ [(id, hs, b ++ data)].
Proof.
  intros Hok Hn He Hst (Hopen & Hdone & Hdis & Hhs & Hcl & Hb) Hlen Hmax Hdecl. subst b.
  destruct (on_data_open mb c id flag.END_STREAM data st Hok He Hst Hopen) as (c' & Hf & Hsp & Hs' & He');
    [by right | done |].
  rewrite decide_False in Hs' by done.
  set (st' := set_body _ _) in Hs'.
  assert (streams c' !! id = Some st') as Hst' by (by rewrite Hs', lookup_insert_eq).
  assert (dispatch c' = dispatch_one id c') as Hd.
  { apply (dispatch_single c' id st'); [done | |].
    - apply ready_spec. done.
    - intros j t Hj. rewrite Hs', lookup_insert_ne by done. apply Hn. }
  unfold dispatch_one in Hd. rewrite Hst' in Hd. cbn [mbind option_bind] in Hd.
  change (content_length (set_dispatched true st')) with (content_length st) in Hd. rewrite Hcl in Hd.
  change (feed mb _ c) with (match step mb (fst (mk kind.DATA flag.END_STREAM id data)) data c with
    Continue c => Some c | _ => None end).
  unfold step. rewrite decide_False by (cbn; lia). rewrite Hf, Hd.
  eexists. split; [reflexivity |].
  assert (∀ c2, c2 = spawn_stream id (set_dispatched true st') c' →
    spawned c2 = spawned c ++ [(id, hs, body st ++ data)]) as Hfin.
  { intros ? ->. cbn. by rewrite Hsp, Hhs. }
  destruct (content_length_of hs) as [n|]; [|by apply Hfin].
  rewrite decide_False; [by apply Hfin |]. cbn. specialize (Hdecl n eq_refl). lia.
Qed.

(** *** A client that cancels what it opens

    [abandon id] opens a stream and cancels it; the connection after [n] of
    them is explicit. *)
Definition abandon (id : Z) : list (Head * bytes) :=
  [mk kind.HEADERS flag.END_HEADERS id []; mk kind.RST_STREAM 0 id [x00; x00; x00; x08]].

Definition abandoned (n : nat) : list (Head * bytes) :=
  mjoin ((λ i, abandon (2 * Z.of_nat i + 1)) <$> seq 0 n).

Definition cancelled : Stream :=
  mkStream Reset DEFAULT_WINDOW true false [] false [] true [] None false.

Fixpoint cancelled_map (n : nat) : gmap Z Stream :=
  match n with O => ∅ | S n => <[2 * Z.of_nat n + 1 := cancelled]> (cancelled_map n) end.

Definition abandoned_conn (n : nat) : Conn :=
  mkConn (Hpack.new 4096) (cancelled_map n) DEFAULT_WINDOW OUR_INITIAL_WINDOW
    (Z.max 0 (2 * Z.of_nat n - 1)) None DEFAULT_WINDOW DEFAULT_MAX_FRAME greeting [].

Lemma cancelled_map_lookup n id s :
  cancelled_map n !! id = Some s → s = cancelled ∧ id ≤ 2 * Z.of_nat n - 1.
Proof.
  induction n as [|n IH]; cbn [cancelled_map]; [by rewrite lookup_empty |].
  destruct (decide (id = 2 * Z.of_nat n + 1)) as [->|].
  - rewrite lookup_insert_eq. intros [= <-]. split; [done | lia].
  - rewrite lookup_insert_ne by done. intros [? ?]%IH. split; [done | lia].
Qed.

Lemma cancelled_map_fresh n id : 2 * Z.of_nat n - 1 < id → cancelled_map n !! id = None.
Proof.
  intros. destruct (cancelled_map n !! id) eqn:E; [|done]. apply cancelled_map_lookup in E. lia.
Qed.

Lemma cancelled_map_prune n : prune (cancelled_map n) = cancelled_map n.
Proof.
  apply map_filter_id. intros i s [-> _]%cancelled_map_lookup. cbn. by intros [].
Qed.

Lemma cancelled_map_active n : active (cancelled_map n) = Z.of_nat n.
Proof.
  unfold active. rewrite map_filter_id by (by intros i s [-> _]%cancelled_map_lookup).
  f_equal. induction n as [|n IH]; [done |]. cbn [cancelled_map].
  rewrite map_size_insert_None by (apply cancelled_map_fresh; lia). by rewrite IH.
Qed.

Lemma cancelled_map_not_ready n m : streams m = cancelled_map n → none_ready m.
Proof. intros E id s. rewrite E. by intros [-> _]%cancelled_map_lookup. Qed.

Lemma step_settled mb h payload c c' :
  len h ≤ DEFAULT_MAX_FRAME → on_frame mb h payload c = Fall c' → none_ready c' →
  step mb h payload c = Continue c'.
Proof. intros Hl Hf Hn. unfold step. rewrite decide_False by lia. by rewrite Hf, dispatch_none. Qed.

Lemma abandon_headers mb n :
  (n < 128)%nat → let id := 2 * Z.of_nat n + 1 in
  step mb (fst (mk kind.HEADERS flag.END_HEADERS id [])) [] (abandoned_conn n) =
  Continue (set_highest id (set_streams
    (<[id := set_reset false (set_state Open cancelled)]> (cancelled_map n)) (abandoned_conn n))).
Proof.
  intros Hlt id. assert (Z.odd id = true) as Hodd by (unfold id; by rewrite Z.add_comm, Z.odd_add_mul_2).
  apply step_settled; [by cbn | |].
  - unfold on_frame. cbn [abandoned_conn expect_continuation]. rewrite decide_False, decide_True by done.
    unfold on_headers. cbn [mk fst stream]. rewrite decide_False by lia.
    rewrite decide_False by (rewrite Zmod_odd, Hodd; lia).
    change (has _ flag.PADDED) with false. change (has _ flag.PRIORITY) with false. cbn [unpad negb].
    unfold state_of, abandoned_conn. cbn [streams highest].
    rewrite cancelled_map_fresh, decide_False by lia.
    unfold on_new_stream. cbn [stream highest]. rewrite decide_False by lia.
    cbn [streams set_streams set_highest peer_initial_window].
    rewrite cancelled_map_prune, cancelled_map_active, decide_False by (unfold MAX_CONCURRENT; lia).
    unfold open_block. change (has _ flag.END_HEADERS) with true. change (has _ flag.END_STREAM) with false.
    unfold finish_or, finish_block. cbn [streams set_streams stream]. rewrite lookup_insert_eq.
    cbn [pending set_pending set_state new_stream pending_is_trailers dec].
    change (Hpack.decode (Hpack.new 4096) [] MAX_HEADER_LIST []) with
      (Hpack.new 4096, @nil Header, @Ok HpackError unit tt).
    cbn. rewrite !insert_insert_eq. done.
  - intros j s. cbn. destruct (decide (j = id)) as [->|].
    + rewrite lookup_insert_eq. by intros [= <-].
    + rewrite lookup_insert_ne by done. by intros [-> _]%cancelled_map_lookup.
Qed.

Lemma abandon_one mb n fs :
  (n < 128)%nat →
  feed mb (abandon (2 * Z.of_nat n + 1) ++ fs) (abandoned_conn n) = feed mb fs (abandoned_conn (S n)).
Proof.
  intros Hlt. set (id := 2 * Z.of_nat n + 1). cbn [abandon app feed mk].
  pose proof (abandon_headers mb n Hlt) as H. cbn [mk fst] in H. fold id in H. rewrite H. clear H.
  set (c := set_highest _ _).
  assert (step mb (mkHead (Z.of_nat (length [x00; x00; x00; x08])) kind.RST_STREAM 0 id)
    [x00; x00; x00; x08] c = Continue (abandoned_conn (S n))) as ->; [|done].
  assert (0 < id) by (unfold id; lia).
  apply step_settled; [done | |by apply cancelled_map_not_ready with (n := S n)].
  unfold on_frame, c. cbn [expect_continuation set_highest set_streams abandoned_conn].
  do 4 rewrite decide_False by done. rewrite decide_True by done.
  unfold on_rst_stream. cbn [stream H2Frame.len length]. rewrite decide_False by lia.
  rewrite decide_False by (intros E; apply E; done).
  unfold state_of. cbn [streams set_highest set_streams]. rewrite lookup_insert_eq.
  cbn [state set_reset set_state cancelled]. rewrite decide_False by done.
  cbn [streams set_highest set_streams]. unfold abandoned_conn, set_streams, set_highest. cbn.
  do 2 f_equal; [|unfold id; lia].
  rewrite (alter_present _ _ _ _ (lookup_insert_eq _ _ _)), insert_insert_eq. done.
Qed.

Lemma abandoned_reach mb n k :
  (n + k ≤ 128)%nat →
  feed mb (mjoin ((λ i, abandon (2 * Z.of_nat i + 1)) <$> seq n k)) (abandoned_conn n) =
  Some (abandoned_conn (n + k)).
Proof.
  revert n. induction k as [|k IH]; intros n Hk; cbn [seq].
  - by rewrite Nat.add_0_r.
  - rewrite fmap_cons_eq, join_cons, abandon_one by lia. rewrite IH by lia. f_equal. f_equal. lia.
Qed.

Lemma feed_app mb fs gs c : feed mb (fs ++ gs) c = feed mb fs c ≫= feed mb gs.
Proof.
  revert c. induction fs as [|[h p] fs IH]; intros c; [done |]. cbn [app feed].
  by destruct (step mb h p c).
Qed.

(** *** The byte stream *)

(** The frame a message travels in. *)
Definition out_frame (o : Out) : Head * bytes :=
  let f k fl s p := (mkHead (Z.of_nat (length p)) k fl s, p) in
  match o with
  | OutSettings pairs => f kind.SETTINGS 0 0 (mjoin ((λ '(id, v), to_be 2 id ++ to_be 4 v) <$> pairs))
  | OutSettingsAck => f kind.SETTINGS flag.ACK 0 []
  | OutWindowUpdate s n => f kind.WINDOW_UPDATE 0 s (to_be 4 n)
  | OutRst s c => f kind.RST_STREAM 0 s (to_be 4 (code_u32 c))
  | OutPing p => f kind.PING flag.ACK 0 p
  | OutData s p e => f kind.DATA (if e then flag.END_STREAM else 0) s p
  | OutGoaway l c d => f kind.GOAWAY 0 0 (to_be 4 l ++ to_be 4 (code_u32 c) ++ d)
  end.

Lemma wire_written o : wire o = H2Frame.written (out_frame o).
Proof. by destruct o as [| | | | |? ? []|]. Qed.

Lemma settings_length (pairs : list (Z * Z)) :
  length (mjoin ((λ '(id, v), to_be 2 id ++ to_be 4 v) <$> pairs)) = (6 * length pairs)%nat.
Proof.
  induction pairs as [|[id v] pairs IH]; [done |].
  rewrite fmap_cons_eq, join_cons, length_app, IH. cbn [length app]. rewrite length_app, !length_to_be. lia.
Qed.

Lemma out_frame_valid o : out_ok o → wf_valid (out_frame o).
Proof.
  intros Ho. destruct o as [pairs| |s n|s c|p|s p e|l c d]; cbn in Ho |- *;
    unfold H2Frame.frame_valid, MAX_FRAME_LIMIT, kind.DATA, kind.SETTINGS, kind.RST_STREAM, kind.PING,
      kind.GOAWAY, kind.WINDOW_UPDATE, flag.END_STREAM, flag.ACK in *;
    rewrite ?settings_length, ?length_app, ?length_to_be; cbn; try lia.
  destruct e; lia.
Qed.

(** ** Properties *)

(** C2. The connection's invariant, in every state reachable by frames from
    the peer and by steps of the stream tasks: the header decoder is well
    formed, every stream id is odd and below the highest seen, at most 128
    streams are unfinished, an open header block has its stream, windows and
    buffers are within their bounds (so no [i64] can overflow), only legal
    frames were sent, each request was handed over at most once, with a body
    as long as it declared, and no complete request is left waiting. *)
Theorem conn_invariant mb c : 0 ≤ mb → reachable mb c → conn_ok mb c ∧ none_ready c.
Proof. apply reachable_inv. Qed.

Lemma conn_invariant_witness :
  let c := send (OutPing (str "12345678")) init in conn_ok 1000 c ∧ none_ready c.
Proof.
  apply conn_invariant; [lia |]. apply rtc_once.
  apply (step_frame 1000 (mkHead 8 kind.PING 0 0) (str "12345678")); [by split | reflexivity].
Defined.

(** What the server puts on the wire is a legal frame stream: in every
    reachable state the bytes sent so far are taken apart by a reader of
    frames into exactly the frames that were meant, however the transport
    cuts them, and every one of them has a legal size, kind and stream. *)
Theorem wire_parses mb c chunks :
  0 ≤ mb → reachable mb c → mjoin chunks = mjoin (wire <$> tx c) →
  foldl (λ st p, arrive p st) ([], []) chunks = (out_frame <$> tx c, []) ∧
  Forall H2Frame.frame_valid (out_frame <$> tx c).
Proof.
  intros Hmb Hr Hc. destruct (reachable_inv mb c Hmb Hr) as [Hok _].
  assert (Forall H2Frame.frame_valid (out_frame <$> tx c)) as Hv.
  { apply Forall_fmap. eapply Forall_impl; [apply (co_tx _ _ Hok) | apply out_frame_valid]. }
  split; [|done]. apply reassemble; [done |]. rewrite H2Frame.stream_written by done.
  rewrite Hc, <-list_fmap_compose. f_equal. apply list_fmap_ext. intros. apply wire_written.
Qed.

Lemma wire_parses_witness :
  let c := send (OutPing (str "12345678")) init in
  foldl (λ st p, arrive p st) ([], []) [mjoin (wire <$> tx c)] = (out_frame <$> tx c, []).
Proof.
  apply (wire_parses 1000); [lia | | apply app_nil_r].
  apply rtc_once.
  apply (step_frame 1000 (mkHead 8 kind.PING 0 0) (str "12345678")); [by split | reflexivity].
Defined.

(** C1. No input makes a connection panic or loop: whatever bytes a client
    sends, [serve] ends with a GOAWAY (every [expect] of the reader holds),
    and the requests it handed to tasks are on distinct streams, decoded to
    text, within [client_max_body_size], and as long as their
    [content-length] says. *)
Theorem serve_total mb input :
  0 ≤ mb →
  ∃ c last code why, serve mb input = Some c ∧ list.last (tx c) = Some (OutGoaway last code why) ∧
    NoDup (ids (spawned c)) ∧ Forall (request_ok mb) (spawned c).
Proof.
  intros Hmb. unfold serve.
  assert (∀ c r, NoDup (ids (spawned c)) → Forall (request_ok mb) (spawned c) →
    ∃ c' last code why, Some (goodbye c r) = Some c' ∧
      list.last (tx c') = Some (OutGoaway last code why) ∧
      NoDup (ids (spawned c')) ∧ Forall (request_ok mb) (spawned c')) as Hbye.
  { intros c [[]|e] H1 H2; eexists _, _, _, _; (split; [reflexivity |]); cbn; by rewrite last_snoc. }
  repeat case_decide; cbn [mbind option_bind]; [apply Hbye; cbn; constructor.. |].
  destruct (conn_init_ok mb Hmb) as [Hok Hn].
  destruct (read_loop_ok mb (S (length (drop (length PREFACE) input))) (drop (length PREFACE) input)
    init Hmb Hok Hn ltac:(lia)) as (c & r & -> & H1 & H2). cbn [mbind option_bind]. by apply Hbye.
Qed.

Lemma serve_total_witness :
  ∃ c last code why, serve 1000 PREFACE = Some c ∧ list.last (tx c) = Some (OutGoaway last code why) ∧
    NoDup (ids (spawned c)) ∧ Forall (request_ok 1000) (spawned c).
Proof. apply serve_total. lia. Defined.

(** C23. A request is delivered as it was sent: on a connection with room for
    a stream, HEADERS followed by DATA frames within the limits hand the
    decoded headers and the concatenated data to one task, when the declared
    length, if any, is the real one. *)
Theorem request_delivered mb c id block d hs chunks last :
  0 ≤ mb → reachable mb c → expect_continuation c = None →
  Z.odd id = true → highest c < id < 2 ^ 31 → active (prune (streams c)) < MAX_CONCURRENT →
  Z.of_nat (length block) ≤ DEFAULT_MAX_FRAME →
  Hpack.decode (dec c) block MAX_HEADER_LIST [] = (d, hs, Ok tt) →
  Forall (λ p, Z.of_nat (length p) ≤ DEFAULT_MAX_FRAME) (chunks ++ [last]) →
  Z.of_nat (length (mjoin chunks ++ last)) ≤ mb →
  (∀ n, content_length_of hs = Some n → n = Z.of_nat (length (mjoin chunks ++ last))) →
  ∃ c', feed mb (request_frames id block chunks last) c = Some c' ∧
    spawned c' = spawned c ++ [(id, hs, mjoin chunks ++ last)].
Proof.
  intros Hmb Hr He Hodd Hhi Hact Hlen Hdec Hall Hmax Hdecl.
  destruct (reachable_inv mb c Hmb Hr) as [Hok Hn].
  apply Forall_app in Hall as [Hall Hlast]. apply Forall_cons in Hlast as [Hlast _].
  rewrite length_app in Hmax.
  destruct (feed_headers mb c id block d hs) as (c1 & st1 & H1 & Hok1 & Hn1 & Hsp1 & He1 & Hst1 & Hrec1);
    [done.. |].
  destruct (feed_chunks mb id chunks [mk kind.DATA flag.END_STREAM id last] c1 st1 hs [])
    as (c2 & st2 & H2 & Hok2 & Hn2 & Hsp2 & He2 & Hst2 & Hrec2); [done.. | cbn; lia |].
  change ([] ++ mjoin chunks) with (mjoin chunks) in Hrec2.
  destruct (feed_last mb c2 id last st2 hs (mjoin chunks)) as (c3 & H3 & Hsp3); [done.. |].
  exists c3. rewrite Hsp3, Hsp2, Hsp1. split; [|done].
  change (request_frames id block chunks last) with
    ([mk kind.HEADERS flag.END_HEADERS id block] ++
     (mk kind.DATA 0 id <$> chunks) ++ [mk kind.DATA flag.END_STREAM id last]).
  rewrite feed_app, H1. cbn [mbind option_bind]. by rewrite H2, H3.
Qed.

Lemma request_delivered_witness :
  let hs := [mkHeader (str ":method") (str "POST"); mkHeader (str "content-length") (str "5")] in
  ∃ c', feed 1000 (request_frames 1 (Hpack.encode_all hs) [str "he"] (str "llo")) init = Some c' ∧
    spawned c' = [(1, hs, str "hello")].
Proof.
  intros hs. apply (request_delivered 1000 init 1 (Hpack.encode_all hs) (Hpack.new 4096) hs [str "he"] (str "llo"));
    [lia | apply rtc_refl | reflexivity | reflexivity | split; reflexivity | reflexivity | | | | |].
  - by vm_compute.
  - by vm_compute.
  - repeat constructor; by vm_compute.
  - by vm_compute.
  - intros n Hn. vm_compute in Hn. injection Hn as <-. reflexivity.
Defined.

(** [parse_headers] accepts exactly the well-formed request heads: first
    pseudo-headers, of the four known names and each at most once, then
    fields with lowercase names, none connection-specific and [te] only as
    [trailers]; [:method], [:path] and [:scheme] present, no CONNECT, a path
    that is not empty.  What it answers is those values, unchanged. *)
Theorem parse_headers_spec hs p :
  parse_headers hs = Ok p ↔
  ∃ ps os, hs = ps ++ os ∧ Forall is_pseudo ps ∧ NoDup (name <$> ps) ∧ Forall ordinary_ok os ∧
    pseudo ps (str ":method") = Some (method p) ∧ method p ≠ str "CONNECT" ∧
    pseudo ps (str ":path") = Some (path p) ∧ path p ≠ [] ∧
    is_Some (pseudo ps (str ":scheme")) ∧
    authority p = default [] (pseudo ps (str ":authority")) ∧
    ordinary p = pair_of <$> os.
Proof.
  unfold parse_headers. rewrite result_bind_ok. setoid_rewrite (parse_fields_spec hs [] [] false); [|by constructor].
  split.
  - intros ([s o] & (ps & os & (-> & _ & H1 & H2 & H3) & [= -> ->]) & Hk).
    cbn [slots_of s_method s_path s_authority s_scheme] in Hk. change ([] ++ ps) with ps in *.
    apply result_bind_ok in Hk as (m & Hm%ok_or_ok & Hk).
    apply result_bind_ok in Hk as (pt & Hp%ok_or_ok & Hk). case_decide; [done |].
    apply result_bind_ok in Hk as (sc & Hs%ok_or_ok & Hk). case_decide; [done |]. injection Hk as <-.
    exists ps, os. cbn. split_and!; eauto.
  - intros (ps & os & -> & H1 & H2 & H3 & Hm & Hc & Hp & Hne & [sc Hs] & Ha & Ho).
    eexists. split; [exists ps, os; split; [|reflexivity]; by split_and! |].
    cbn [slots_of s_method s_path s_authority s_scheme]. change ([] ++ ps) with ps.
    rewrite Hm, Hp, Hs. cbn [mbind result_bind ok_or]. rewrite !decide_False by done.
    destruct p; cbn in *. by rewrite Ha, Ho.
Qed.

(** [pump] sends exactly what flow control allows: the longest prefix of
    the data that the connection's window and the stream's window cover, in
    order, in frames of at most the peer's maximum size; both windows shrink
    by its length, and nothing else changes. *)
Theorem pump_exact mb c id st data :
  0 ≤ mb → reachable mb c → streams c !! id = Some st → reset st = false →
  let n := Z.min (Z.of_nat (length data)) (Z.max (Z.min (conn_window c) (window st)) 0) in
  ∃ chunks,
    pump (length data) id data c =
      (set_tx (tx c ++ ((λ p, OutData id p false) <$> chunks))
         (set_conn_window (conn_window c - n)
            (set_streams (<[id := set_window (window st - n) st]> (streams c)) c)),
       drop (Z.to_nat n) data) ∧
    mjoin chunks = take (Z.to_nat n) data ∧
    Forall (λ p, 0 < Z.of_nat (length p) ≤ max_frame c) chunks.
Proof.
  intros Hmb [Hok Hn]%reachable_inv Hst Hr n; [|done].
  by apply (pump_exact_aux mb id (length data) data c st).
Qed.

Lemma pump_exact_witness :
  let st := set_reset false (set_state Open cancelled) in
  let c := set_highest 1 (set_streams (<[1 := st]> ∅) (abandoned_conn 0)) in
  let n := 5 in
  ∃ chunks,
    pump (length (str "hello")) 1 (str "hello") c =
      (set_tx (tx c ++ ((λ p, OutData 1 p false) <$> chunks))
         (set_conn_window (conn_window c - n)
            (set_streams (<[1 := set_window (window st - n) st]> (streams c)) c)),
       drop (Z.to_nat n) (str "hello")) ∧
    mjoin chunks = take (Z.to_nat n) (str "hello") ∧
    Forall (λ p, 0 < Z.of_nat (length p) ≤ max_frame c) chunks.
Proof.
  intros st c n. apply (pump_exact 1000 c 1 st (str "hello")); [lia | | reflexivity | reflexivity].
  apply rtc_once, (step_frame 1000 (fst (mk kind.HEADERS flag.END_HEADERS 1 [])) []); [by split |].
  apply (abandon_headers 1000 0). lia.
Defined.

(** A response head reaches the client: whatever the state of its
    decoder, the block decodes to the status, the response's headers in
    lowercase and in order, less the connection-specific ones, and the
    content length. *)
Theorem response_block_decodes d status hs framing max_list :
  decoder_ok d → Forall encodable (response_fields status hs framing) →
  table_cost (response_fields status hs framing) ≤ max_list < u64_max →
  Hpack.decode d (response_block status hs framing) max_list [] =
    (mkDecoder [] 0 0 (settings_max d), response_fields status hs framing, Ok tt) ∧
  Forall (λ h, name h ∉ connection_specific) (response_fields status hs framing).
Proof.
  intros Hd Henc Hcost. split.
  - unfold response_block. by rewrite header_block_decodes.
  - unfold response_fields. constructor; [by vm_compute; set_solver |]. apply Forall_app. split.
    + apply Forall_fmap, Forall_forall. intros [n v] [Hn _]%list_elem_of_filter. done.
    + destruct framing; constructor; [|done]. cbn. by vm_compute; set_solver.
Qed.

Lemma response_block_decodes_witness :
  let hs := [(str "Server", str "oxiserve"); (str "Connection", str "keep-alive")] in
  let out := [mkHeader (str ":status") (str "200"); mkHeader (str "server") (str "oxiserve");
              mkHeader (str "content-length") (str "5")] in
  Hpack.decode (Hpack.new 4096) (response_block 200 hs (Some 5)) 16384 [] =
    (mkDecoder [] 0 0 4096, out, Ok tt) ∧
  Forall (λ h, name h ∉ connection_specific) out.
Proof.
  apply (response_block_decodes (Hpack.new 4096) 200
    [(str "Server", str "oxiserve"); (str "Connection", str "keep-alive")] (Some 5)).
  - apply new_ok. lia.
  - unfold encodable, MAX_STRING.
    change (response_fields _ _ _) with
      [mkHeader (str ":status") (str "200"); mkHeader (str "server") (str "oxiserve");
       mkHeader (str "content-length") (str "5")].
    repeat (apply Forall_cons; split; [split; [by split | cbn [name value length]; split; cbn; lia] |]).
    constructor.
  - by vm_compute.
Defined.

(** The peer's SETTINGS_HEADER_TABLE_SIZE, which limits the table of the
    encoder that writes to the peer, is applied to the decoder that reads
    from it: whatever the connection's state, one SETTINGS frame makes any
    32-bit size the limit of the server's own table, and a zero empties it
    although the client's encoder still refers to its entries. *)
Theorem peer_setting_resizes_decoder mb c v :
  0 ≤ mb → reachable mb c → expect_continuation c = None → 0 ≤ v < 2 ^ 32 →
  ∃ c', feed mb [mk kind.SETTINGS 0 0 (to_be 2 setting.HEADER_TABLE_SIZE ++ to_be 4 v)] c = Some c' ∧
    settings_max (dec c') = v ∧ (v = 0 → dynamic (dec c') = []).
Proof.
  intros Hmb [Hok Hn]%reachable_inv He Hv; [|done].
  set (c1 := set_dec (set_max_size (dec c) v) c).
  assert (apply_settings (to_be 2 setting.HEADER_TABLE_SIZE ++ to_be 4 v) c = Ok c1) as Happ.
  { change (to_be 2 setting.HEADER_TABLE_SIZE) with [x00; x01].
    pose proof (from_be_to_be_small 4 v ltac:(done)) as Hb. remember (to_be 4 v) as b eqn:E.
    pose proof (length_to_be 4 v) as Hl. rewrite <-E in Hl.
    destruct b as [|b1 [|b2 [|b3 [|b4 [|]]]]]; try done. cbn [app apply_settings]. rewrite Hb. done. }
  set (c2 := send OutSettingsAck (set_streams
    ((λ s, set_window (window s + (peer_initial_window c1 - peer_initial_window c)) s) <$> streams c1) c1)).
  exists c2. split.
  - cbn [feed mk]. rewrite (step_settled mb _ _ c c2); [done | | |].
    + cbn [H2Frame.len]. rewrite length_app, !length_to_be. done.
    + unfold on_frame. rewrite He. cbn [head_kind]. do 5 rewrite decide_False by done.
      rewrite decide_True by done. unfold on_settings. cbn [stream]. rewrite decide_False by (intros E; by apply E).
      change (has _ flag.ACK) with false. cbn [H2Frame.len]. rewrite length_app, !length_to_be.
      rewrite decide_False by (intros E; by apply E). by rewrite Happ.
    + intros id s. cbn. rewrite lookup_fmap, fmap_Some. intros (t & Ht & ->). by apply (Hn id t).
  - destruct (co_dec _ _ Hok) as [Hd _]. pose proof (set_max_size_spec (dec c) v Hd ltac:(lia)) as Hd'.
    cbn. pose proof (set_max_size_limit (dec c) v Hd ltac:(lia)) as Hmax.
    split; [done |]. intros ->. pose proof (decoder_ok_pos _ Hd') as Hp. destruct Hd' as [H1 H2].
    destruct (dynamic _) as [|h l]; [done |]. rewrite table_cost_cons in H1.
    pose proof (entry_size_pos h). pose proof (table_cost_nonneg l). lia.
Qed.

Lemma peer_setting_resizes_decoder_witness :
  ∃ c', feed 1000 [mk kind.SETTINGS 0 0 (to_be 2 setting.HEADER_TABLE_SIZE ++ to_be 4 4294967295)] init = Some c' ∧
    settings_max (dec c') = 4294967295 ∧ (4294967295 = 0 → dynamic (dec c') = []).
Proof. apply peer_setting_resizes_decoder; [lia | apply rtc_refl | reflexivity | lia]. Defined.

(** A client that opens 128 streams and cancels each before its request
    is complete is refused every later stream of the connection: entries of
    cancelled streams are never marked done, are never pruned, and still
    count as concurrent. *)
Theorem abandoned_streams_wedge mb id f block :
  Z.odd id = true → 255 < id → Z.of_nat (length block) ≤ DEFAULT_MAX_FRAME →
  f = flag.END_HEADERS ∨ f = Z.lor flag.END_HEADERS flag.END_STREAM →
  ∃ c, feed mb (abandoned 128 ++ [mk kind.HEADERS f id block]) init = Some c ∧
    tx c = greeting ++ [OutRst id RefusedStream] ∧ spawned c = [].
Proof.
  intros Hodd Hid Hlen Hf. rewrite feed_app. unfold abandoned. change init with (abandoned_conn 0).
  rewrite (abandoned_reach mb 0 128) by lia. cbn [mbind option_bind Nat.add feed mk].
  exists (send (OutRst id RefusedStream) (set_highest id (abandoned_conn 128))). split; [|done].
  erewrite step_settled; [reflexivity | done | |by apply cancelled_map_not_ready with (n := 128%nat)].
  unfold on_frame. cbn [abandoned_conn expect_continuation head_kind]. rewrite decide_False, decide_True by done.
  unfold on_headers. cbn [stream]. rewrite decide_False by lia.
  rewrite decide_False by (rewrite Zmod_odd, Hodd; lia).
  assert (∀ n, has (mkHead n kind.HEADERS f id) flag.PADDED = false ∧
          has (mkHead n kind.HEADERS f id) flag.PRIORITY = false) as Hfl
    by (destruct Hf as [-> | ->]; done).
  destruct (Hfl (Z.of_nat (length block))) as [-> ->]. cbn [unpad negb].
  unfold state_of, abandoned_conn. cbn [streams highest].
  rewrite cancelled_map_fresh, decide_False by lia.
  unfold on_new_stream. cbn [stream highest]. rewrite decide_False by lia.
  cbn [streams set_streams set_highest peer_initial_window].
  rewrite cancelled_map_prune, cancelled_map_active, decide_True by (unfold MAX_CONCURRENT; lia). done.
Qed.

Lemma abandoned_streams_wedge_witness :
  ∃ c, feed 1000 (abandoned 128 ++ [mk kind.HEADERS 5 257 [x82; x86; x84]]) init = Some c ∧
    tx c = greeting ++ [OutRst 257 RefusedStream] ∧ spawned c = [].
Proof. apply abandoned_streams_wedge; [reflexivity | lia | by vm_compute | by right]. Defined.
