(* ===== verification/H3Frame.v ===== *)
(** * [src/http3/frame.rs]: QUIC varints and HTTP/3 framing

    A reader gets a prefix of what the peer will send, so every parse here is
    total and says "not yet" on a short buffer. *)
From S2P Require Import Prelude Wire.

Open Scope Z_scope.

(** ** The code *)

Module kind.
Definition DATA : Z := 0.
Definition HEADERS : Z := 1.
Definition CANCEL_PUSH : Z := 3.
Definition SETTINGS : Z := 4.
Definition PUSH_PROMISE : Z := 5.
Definition GOAWAY : Z := 7.
Definition MAX_PUSH_ID : Z := 13.
End kind.

Module stream_type.
Definition CONTROL : Z := 0.
Definition PUSH : Z := 1.
Definition QPACK_ENCODER : Z := 2.
Definition QPACK_DECODER : Z := 3.
End stream_type.

Module setting.
Definition QPACK_MAX_TABLE_CAPACITY : Z := 1.
Definition MAX_FIELD_SECTION_SIZE : Z := 6.
Definition QPACK_BLOCKED_STREAMS : Z := 7.
End setting.

Module code.
Definition NO_ERROR : Z := 256.
Definition GENERAL_PROTOCOL_ERROR : Z := 257.
Definition INTERNAL_ERROR : Z := 258.
Definition STREAM_CREATION_ERROR : Z := 259.
Definition CLOSED_CRITICAL_STREAM : Z := 260.
Definition FRAME_UNEXPECTED : Z := 261.
Definition FRAME_ERROR : Z := 262.
Definition EXCESSIVE_LOAD : Z := 263.
Definition ID_ERROR : Z := 264.
Definition SETTINGS_ERROR : Z := 265.
Definition MISSING_SETTINGS : Z := 266.
Definition REQUEST_INCOMPLETE : Z := 269.
Definition MESSAGE_ERROR : Z := 270.
Definition VERSION_FALLBACK : Z := 272.
Definition QPACK_DECOMPRESSION_FAILED : Z := 512.
End code.

(** [FrameError(pub u64)] is its code. *)
Definition FrameError : Type := Z.

Definition VARINT_MAX : Z := 2 ^ 62 - 1.

Definition varint_len (v : Z) : nat :=
  if decide (v ≤ 0x3f) then 1
  else if decide (v ≤ 0x3fff) then 2
  else if decide (v ≤ 0x3fffffff) then 4
  else 8.

Definition put_varint (v : Z) : bytes :=
  match varint_len v with
  | 1%nat => [of_u8 v]
  | 2%nat => to_be 2 (Z.lor (wrap 16 v) 0x4000)
  | 4%nat => to_be 4 (Z.lor (wrap 32 v) 0x80000000)
  | _ => to_be 8 (Z.lor v 0xc000000000000000)
  end.

(** [v = (v << 8) | b] over the bytes after the first; at most seven of them
    on six bits, so nothing is shifted out. *)
Definition push_bytes (v : Z) (bs : bytes) : Z :=
  foldl (λ v b, Z.lor (Z.shiftl v 8) (u8 b)) v bs.

Definition get_varint (buf : bytes) : option (Z * nat) :=
  match buf with
  | [] => None
  | first :: rest =>
      let len := Z.to_nat (Z.shiftl 1 (Z.shiftr (u8 first) 6)) in
      if decide (length buf < len)%nat then None
      else Some (push_bytes (Z.land (u8 first) 63) (take (len - 1) rest), len)
  end.

Record Head := mkHead { head_kind : Z; len : Z; head_len : nat }.

(** The frame types RFC 9114 reserves because HTTP/2 used them. *)
Definition is_reserved_h2 (kind : Z) : bool := bool_decide (kind ∈ [2; 6; 8; 9]).

Definition is_grease (v : Z) : bool :=
  bool_decide (33 ≤ v) && bool_decide ((v - 33) mod 31 = 0).

Definition parse_head (buf : bytes) : result FrameError (option Head) :=
  match get_varint buf with
  | None => Ok None
  | Some (kind, a) =>
      match get_varint (drop a buf) with
      | None => Ok None
      | Some (len, b) =>
          if is_reserved_h2 kind then Err code.FRAME_UNEXPECTED
          else Ok (Some (mkHead kind len (a + b)))
      end
  end.

Definition put_frame (kind : Z) (payload : bytes) : bytes :=
  put_varint kind ++ put_varint (Z.of_nat (length payload)) ++ payload.

Definition put_data_head (len : Z) : bytes := put_varint kind.DATA ++ put_varint len.

Record Settings := mkSettings {
  qpack_max_table_capacity : Z;
  qpack_blocked_streams : Z;
  max_field_section_size : Z
}.

Definition default : Settings := mkSettings 0 0 (64 * 1024).

Definition encode (s : Settings) : bytes :=
  mjoin ((λ '(id, v), put_varint id ++ put_varint v) <$>
    [(setting.QPACK_MAX_TABLE_CAPACITY, qpack_max_table_capacity s);
     (setting.QPACK_BLOCKED_STREAMS, qpack_blocked_streams s);
     (setting.MAX_FIELD_SECTION_SIZE, max_field_section_size s)]).

(** The effect of one setting. *)
Definition set_setting (id v : Z) (s : Settings) : Settings :=
  if decide (id = setting.QPACK_MAX_TABLE_CAPACITY) then
    mkSettings v (qpack_blocked_streams s) (max_field_section_size s)
  else if decide (id = setting.QPACK_BLOCKED_STREAMS) then
    mkSettings (qpack_max_table_capacity s) v (max_field_section_size s)
  else if decide (id = setting.MAX_FIELD_SECTION_SIZE) then
    mkSettings (qpack_max_table_capacity s) (qpack_blocked_streams s) v
  else s.

(** [while !buf.is_empty()]; every turn consumes two varints, so the
    payload's length is enough fuel ([decode_loop_total]). *)
Fixpoint decode_loop (fuel : nat) (buf : bytes) (s : Settings) : result FrameError Settings :=
  match buf, fuel with
  | [], _ => Ok s
  | _ :: _, O => Err code.SETTINGS_ERROR
  | _ :: _, S fuel =>
      '(id, n) ← ok_or code.SETTINGS_ERROR (get_varint buf);
      let buf := drop n buf in
      '(v, n) ← ok_or code.SETTINGS_ERROR (get_varint buf);
      let buf := drop n buf in
      if decide (2 ≤ id ∧ id ≤ 5) then Err code.SETTINGS_ERROR
      else decode_loop fuel buf (set_setting id v s)
  end.

Definition decode (buf : bytes) : result FrameError Settings :=
  decode_loop (length buf) buf default.

(** ** Varints *)

Lemma push_bytes_be v bs :
  0 ≤ v → push_bytes v bs = v * 256 ^ Z.of_nat (length bs) + from_be bs.
Proof.
  revert v. induction bs as [|b bs IH]; intros v Hv; [cbn; lia |].
  unfold push_bytes in *. cbn [foldl]. pose proof (u8_range b).
  rewrite Z.shiftl_mul_pow2, (lor_disjoint v (u8 b) 8) by lia.
  rewrite IH by lia. change (length (b :: bs)) with (S (length bs)).
  rewrite pow256_S. cbn [from_be]. change (2 ^ 8) with 256. ring.
Qed.

(** The two length bits of the first byte, and the six below them. *)
Lemma first_byte b :
  Z.shiftr (u8 b) 6 = u8 b / 64 ∧ Z.land (u8 b) 63 = u8 b mod 64.
Proof.
  rewrite Z.shiftr_div_pow2 by lia. split; [done |]. by apply (land_mask (u8 b) 6).
Qed.

(** A complete varint: [2^k] bytes whose first carries [k] in its top bits. *)
Lemma get_varint_be k n z rest :
  0 ≤ k < 4 → n = Z.to_nat (2 ^ k) → 0 ≤ z < 64 * 256 ^ Z.of_nat (n - 1) →
  get_varint (to_be n (k * 64 * 256 ^ Z.of_nat (n - 1) + z) ++ rest) = Some (z, n).
Proof.
  intros Hk Hn Hz.
  assert (∃ m, n = S m) as [m Hm].
  { exists (n - 1)%nat. pose proof (Z.pow_pos_nonneg 2 k). lia. }
  rewrite Hm in *. replace (S m - 1)%nat with m in * by lia.
  pose proof (pow256_pos m) as Hp.
  assert (0 ≤ z / 256 ^ Z.of_nat m < 64) as Hq.
  { split; [apply Z.div_pos; lia | apply Z.div_lt_upper_bound; lia]. }
  rewrite (Z.add_comm _ z). cbn [to_be app get_varint]. rewrite to_be_plus_mul.
  set (first := of_u8 _).
  assert (u8 first = k * 64 + z / 256 ^ Z.of_nat m) as Hf.
  { unfold first. rewrite Z.div_add by lia. rewrite Z.add_comm. apply u8_of_u8_small. lia. }
  destruct (first_byte first) as [-> ->]. rewrite Hf.
  rewrite Z.div_add_l, (Z.div_small (z / _)), Z.add_0_r by lia.
  rewrite (Z.add_comm (k * 64)), Z.mod_add, (Z.mod_small (z / _)) by lia.
  rewrite Z.shiftl_1_l, <-Hn. replace (S m - 1)%nat with m by lia.
  rewrite decide_False by (cbn; rewrite length_app, length_to_be; lia).
  rewrite take_app_le, take_ge by (rewrite length_to_be; lia).
  rewrite push_bytes_be, length_to_be, from_be_to_be by lia. do 2 f_equal.
  pose proof (Z.div_mod z (256 ^ Z.of_nat m)). lia.
Qed.

Lemma lor_flags v k n : 0 ≤ n → 0 ≤ v < 2 ^ n → Z.lor v (k * 2 ^ n) = k * 2 ^ n + v.
Proof. intros. rewrite Z.lor_comm. by apply lor_disjoint. Qed.

Lemma put_varint_be v :
  0 ≤ v ≤ VARINT_MAX →
  ∃ k, 0 ≤ k < 4 ∧ varint_len v = Z.to_nat (2 ^ k) ∧
       v < 64 * 256 ^ Z.of_nat (varint_len v - 1) ∧
       put_varint v =
       to_be (varint_len v) (k * 64 * 256 ^ Z.of_nat (varint_len v - 1) + v).
Proof.
  unfold VARINT_MAX. intros Hv. unfold put_varint, varint_len, wrap.
  repeat case_decide.
  - exists 0. split_and!; [lia | lia | done | cbn; lia |]. cbn. by rewrite Z.div_1_r.
  - exists 1. split_and!; [lia | lia | done | cbn; lia |].
    rewrite Z.mod_small by lia. change 0x4000 with (1 * 2 ^ 14).
    by rewrite lor_flags by lia.
  - exists 2. split_and!; [lia | lia | done | cbn; lia |].
    rewrite Z.mod_small by lia. change 0x80000000 with (2 * 2 ^ 30).
    by rewrite lor_flags by lia.
  - exists 3. split_and!; [lia | lia | done | cbn; lia |]. change 0xc000000000000000 with (3 * 2 ^ 62).
    by rewrite lor_flags by lia.
Qed.

Lemma get_put_varint v rest :
  0 ≤ v ≤ VARINT_MAX → get_varint (put_varint v ++ rest) = Some (v, varint_len v).
Proof.
  intros Hv. destruct (put_varint_be v Hv) as (k & Hk & Hn & Hlt & ->).
  apply get_varint_be; [done | done | lia].
Qed.

Lemma put_varint_length v : 0 ≤ v ≤ VARINT_MAX → length (put_varint v) = varint_len v.
Proof.
  intros Hv. destruct (put_varint_be v Hv) as (k & _ & _ & _ & ->). apply length_to_be.
Qed.

Lemma get_varint_bound buf v n :
  get_varint buf = Some (v, n) → 0 ≤ v ≤ VARINT_MAX ∧ (1 <= n <= length buf)%nat ∧ (n <= 8)%nat.
Proof.
  destruct buf as [|first rest]; [done |]. unfold get_varint.
  destruct (first_byte first) as [-> ->]. pose proof (u8_range first) as Hr.
  assert (∃ k, u8 first / 64 = k ∧ 0 ≤ k < 4) as (k & -> & Hk)
    by (eexists; split; [done | zdiv]).
  assert (0 ≤ u8 first mod 64 < 64) as Hlow by zdiv.
  assert (k = 0 ∨ k = 1 ∨ k = 2 ∨ k = 3) as Hcase by lia.
  case_decide as Hlen; [done |]. intros [= <- <-].
  rewrite push_bytes_be by lia. set (m := (_ - 1)%nat).
  assert (length (take m rest) = m) as Htk.
  { rewrite length_take. unfold m in *. cbn [length] in Hlen. lia. }
  pose proof (from_be_range (take m rest)) as Hb. rewrite Htk in *.
  assert (m <= 7)%nat 
    by (clear -Hcase; unfold m; destruct Hcase as [-> | [-> | [-> | ->]]]; vm_compute; lia).
  assert (256 ^ Z.of_nat m ≤ 256 ^ 7) by (apply Z.pow_le_mono_r; lia).
  unfold VARINT_MAX. change (2 ^ 62) with (64 * 256 ^ 7). split; [nia |].
  clear -Hcase Hlen. cbn [length] in *.
  assert (1 <= Z.to_nat (Z.shiftl 1 k) <= 8)%nat; [|lia].
  destruct Hcase as [-> | [-> | [-> | ->]]]; vm_compute; lia.
Qed.

(** A parse that has its answer keeps it when more bytes arrive. *)
Lemma get_varint_app buf more v n :
  get_varint buf = Some (v, n) → get_varint (buf ++ more) = Some (v, n).
Proof.
  destruct buf as [|first rest]; [done |]. cbn [app]. unfold get_varint.
  case_decide as H; [done |]. rewrite decide_False by len_lia.
  cbn [length] in H. by rewrite take_app_le by lia.
Qed.

(** ** Settings *)

Lemma drop_put_varint v rest :
  0 ≤ v ≤ VARINT_MAX → drop (varint_len v) (put_varint v ++ rest) = rest.
Proof. intros Hv. rewrite <-(put_varint_length v Hv). apply drop_app_length. Qed.

Lemma put_varint_cons v rest :
  0 ≤ v ≤ VARINT_MAX → ∃ c t, put_varint v ++ rest = c :: t.
Proof.
  intros Hv. pose proof (put_varint_length v Hv) as Hl. destruct (put_varint v) as [|c t].
  - unfold varint_len in Hl. repeat case_decide; done.
  - cbn. eauto.
Qed.

Lemma decode_loop_put fuel id v rest s :
  0 ≤ id ≤ VARINT_MAX → ¬ (2 ≤ id ∧ id ≤ 5) → 0 ≤ v ≤ VARINT_MAX →
  decode_loop (S fuel) (put_varint id ++ put_varint v ++ rest) s =
  decode_loop fuel rest (set_setting id v s).
Proof.
  intros Hid Hres Hv.
  destruct (put_varint_cons id (put_varint v ++ rest) Hid) as (c & t & Heq).
  cbn [decode_loop]. rewrite Heq, <-Heq.
  rewrite get_put_varint by done. cbn [ok_or mbind result_bind].
  rewrite drop_put_varint by done.
  rewrite get_put_varint by done. cbn [ok_or mbind result_bind].
  rewrite drop_put_varint by done. by rewrite decide_False by done.
Qed.

(** Every turn consumes input, so the payload's length is enough fuel. *)
Lemma decode_loop_total fuel extra buf s :
  (length buf <= fuel)%nat → decode_loop (fuel + extra) buf s = decode_loop fuel buf s.
Proof.
  revert buf s. induction fuel as [|fuel IH]; intros buf s Hf.
  - destruct buf; [by destruct extra | cbn in Hf; lia].
  - cbn [decode_loop Nat.add]. destruct buf as [|c b]; [done |].
    destruct (get_varint (c :: b)) as [[id n]|] eqn:H1; [|done]. cbn [ok_or mbind result_bind].
    destruct (get_varint (drop n (c :: b))) as [[v m]|] eqn:H2; [|done].
    cbn [ok_or mbind result_bind]. case_decide; [done |].
    apply get_varint_bound in H1, H2. apply IH. rewrite !length_drop. cbn [length] in *. lia.
Qed.

Definition settings_ok (s : Settings) : Prop :=
  0 ≤ qpack_max_table_capacity s ≤ VARINT_MAX ∧ 0 ≤ qpack_blocked_streams s ≤ VARINT_MAX ∧
  0 ≤ max_field_section_size s ≤ VARINT_MAX.

(** ** The frame stream

    A frame taken off the front of a buffer once its head and all of its
    payload are there. *)
Definition h3_next_frame (buf : bytes) : option (Z * bytes * nat) :=
  match parse_head buf with
  | Ok (Some h) =>
      let rest := drop (head_len h) buf in
      if decide (length rest < Z.to_nat (len h))%nat then None
      else Some (head_kind h, take (Z.to_nat (len h)) rest, (head_len h + Z.to_nat (len h))%nat)
  | _ => None
  end.

Definition h3_frame_valid (f : Z * bytes) : Prop :=
  let '(k, p) := f in
  0 ≤ k ≤ VARINT_MAX ∧ is_reserved_h2 k = false ∧ Z.of_nat (length p) ≤ VARINT_MAX.

Lemma parse_head_bound buf h :
  parse_head buf = Ok (Some h) → (0 < head_len h <= length buf)%nat ∧ 0 ≤ len h.
Proof.
  unfold parse_head. destruct (get_varint buf) as [[k a]|] eqn:H1; [|done].
  destruct (get_varint (drop a buf)) as [[l b]|] eqn:H2; [|done]. case_match; [done |].
  intros [= <-]. cbn. apply get_varint_bound in H1, H2. rewrite length_drop in H2. lia.
Qed.

Lemma parse_head_app buf more h :
  parse_head buf = Ok (Some h) → parse_head (buf ++ more) = Ok (Some h).
Proof.
  unfold parse_head. destruct (get_varint buf) as [[k' a]|] eqn:H1; [|done].
  destruct (get_varint (drop a buf)) as [[l b]|] eqn:H2; [|done].
  rewrite (get_varint_app _ _ _ _ H1). apply get_varint_bound in H1.
  rewrite drop_app_le by lia. by rewrite (get_varint_app _ _ _ _ H2).
Qed.

Lemma parse_head_put k p rest :
  0 ≤ k ≤ VARINT_MAX → Z.of_nat (length p) ≤ VARINT_MAX →
  parse_head (put_frame k p ++ rest) =
  if is_reserved_h2 k then Err code.FRAME_UNEXPECTED
  else Ok (Some (mkHead k (Z.of_nat (length p)) (varint_len k + varint_len (Z.of_nat (length p))))).
Proof.
  intros Hk Hl. unfold parse_head, put_frame. rewrite <-!app_assoc.
  by rewrite get_put_varint, drop_put_varint, get_put_varint by lia.
Qed.

Lemma h3_next_frame_takes buf f n : h3_next_frame buf = Some (f, n) → (0 < n <= length buf)%nat.
Proof.
  unfold h3_next_frame. destruct (parse_head buf) as [[h|]|] eqn:E; [|done|done].
  apply parse_head_bound in E. case_decide as Hl; [done |]. rewrite length_drop in Hl.
  set (k := Z.to_nat _) in *. clearbody k. intros [= _ <-]. lia.
Qed.

Lemma h3_next_frame_app buf more f n :
  h3_next_frame buf = Some (f, n) → h3_next_frame (buf ++ more) = Some (f, n).
Proof.
  unfold h3_next_frame. destruct (parse_head buf) as [[h|]|] eqn:E; [|done|done].
  rewrite (parse_head_app _ more _ E). apply parse_head_bound in E.
  case_decide as Hl; [done |]. intros <-.
  rewrite drop_app_le, decide_False by len_lia. by rewrite take_app_le by lia.
Qed.

Lemma h3_next_frame_put f :
  h3_frame_valid f →
  h3_next_frame (put_frame (fst f) (snd f)) = Some (f, length (put_frame (fst f) (snd f))).
Proof.
  destruct f as [k p]. intros (Hk & Hr & Hp). cbn [fst snd]. unfold h3_next_frame.
  rewrite <-(app_nil_r (put_frame k p)) at 1. rewrite parse_head_put, Hr by done.
  cbn [head_len len head_kind]. rewrite Nat2Z.id. unfold put_frame.
  rewrite <-drop_drop, !drop_put_varint, decide_False, firstn_all by lia.
  rewrite !length_app, !put_varint_length by lia. by rewrite Nat.add_assoc.
Qed.

#[export] Instance h3_frame_wire : WireFormat (Z * bytes) := {
  wf_valid := h3_frame_valid;
  wf_encode f := put_frame (fst f) (snd f);
  wf_decode := h3_next_frame;
  wf_takes := h3_next_frame_takes;
  wf_stable := h3_next_frame_app;
  wf_roundtrip := h3_next_frame_put
}.

(** ** Properties *)

(** A varint reads back as itself with the number of bytes it was
    written in, whatever follows it. *)
Theorem varint_roundtrip v rest :
  0 ≤ v ≤ VARINT_MAX →
  get_varint (put_varint v ++ rest) = Some (v, length (put_varint v)).
Proof. intros Hv. rewrite put_varint_length by done. by apply get_put_varint. Qed.

Lemma varint_roundtrip_witness :
  get_varint (put_varint 15293 ++ str "x") = Some (15293, length (put_varint 15293)).
Proof. apply varint_roundtrip. unfold VARINT_MAX. lia. Defined.

(** HTTP/3 framing is a round trip over a stream: frames written one
    after the other with [put_frame] are read back as they were, however the
    bytes are cut on their way - a cut inside a variable-length integer
    included - and a reserved HTTP/2 frame type in front is refused, not
    skipped. *)
Theorem h3_frames_reassemble fs chunks :
  Forall h3_frame_valid fs → mjoin chunks = mjoin ((λ f, put_frame (fst f) (snd f)) <$> fs) →
  foldl (λ st c, arrive c st) ([], []) chunks = (fs, []) ∧
  ∀ k p rest, 0 ≤ k ≤ VARINT_MAX → is_reserved_h2 k = true → Z.of_nat (length p) ≤ VARINT_MAX →
    parse_head (put_frame k p ++ rest) = Err code.FRAME_UNEXPECTED.
Proof.
  intros Hfs Hc. split.
  - by apply reassemble.
  - intros k p rest Hk Hr Hp. by rewrite parse_head_put, Hr.
Qed.

Lemma h3_frames_reassemble_witness :
  let w := put_frame kind.SETTINGS (encode default) ++ put_frame kind.HEADERS (str "abc") ++
           put_frame kind.DATA [] in
  foldl (λ st c, arrive c st) ([], []) [take 1 w; take 3 (drop 1 w); drop 4 w] =
  ([(4, encode default); (1, str "abc"); (0, [])], []).
Proof.
  apply (h3_frames_reassemble [(4, encode default); (1, str "abc"); (0, [])]); [|reflexivity].
  repeat constructor; unfold VARINT_MAX; try reflexivity; try (cbn; lia); by vm_compute.
Defined.

(** The SETTINGS we send are the ones a peer running this decoder reads,
    for any values; and decoding any payload terminates, its length being
    enough fuel for the loop. *)
Theorem settings_roundtrip s :
  settings_ok s → decode (encode s) = Ok s ∧
  ∀ buf extra, decode_loop (length buf + extra) buf default = decode buf.
Proof.
  intros (H1 & H2 & H3). split; [|intros; by apply decode_loop_total].
  unfold decode. rewrite <-(decode_loop_total _ 3) by done. rewrite Nat.add_comm.
  unfold encode. cbn [fmap list_fmap mjoin list_join Nat.add]. rewrite app_nil_r.
  assert (0 ≤ 7 ≤ VARINT_MAX) by (unfold VARINT_MAX; lia).
  rewrite <-!app_assoc. unfold setting.QPACK_MAX_TABLE_CAPACITY,
    setting.QPACK_BLOCKED_STREAMS, setting.MAX_FIELD_SECTION_SIZE.
  rewrite !decode_loop_put by lia.
  rewrite <-(app_nil_r (put_varint (max_field_section_size s))), decode_loop_put by lia.
  by destruct s, (length _).
Qed.

Lemma settings_roundtrip_witness : decode (encode (mkSettings 0 16 65536)) = Ok (mkSettings 0 16 65536).
Proof.
  apply (settings_roundtrip (mkSettings 0 16 65536)).
  unfold settings_ok, VARINT_MAX; cbn; lia.
Defined.
