(* ===== verification/Qpack.v ===== *)
(** * [src/http3/qpack.rs]: QPACK with the static table only

    The same prefixed integers and Huffman code as HPACK ([Hpack.int],
    [Hpack.write_int], [Huffman]), another table and other opcodes. *)
From S2P Require Import Prelude.
From S2P Require Import Text.
From S2P Require Huffman.
From S2P Require Import Hpack.
From S2P Require H3Frame.

Open Scope Z_scope.

(** ** The code *)

Definition MAX_STRING : nat := Z.to_nat (32 * 1024).
Definition FIELD_OVERHEAD : Z := 32.

(** [QpackError(pub u64)] is the code to close with; [from_hpack] is
    [impl From<HpackError>]. *)
Definition QpackError : Type := Z.
Definition from_hpack (_ : HpackError) : QpackError := H3Frame.code.QPACK_DECOMPRESSION_FAILED.

Definition STATIC : list (bytes * bytes) := [
    (str ":authority", str "");
    (str ":path", str "/");
    (str "age", str "0");
    (str "content-disposition", str "");
    (str "content-length", str "0");
    (str "cookie", str "");
    (str "date", str "");
    (str "etag", str "");
    (str "if-modified-since", str "");
    (str "if-none-match", str "");
    (str "last-modified", str "");
    (str "link", str "");
    (str "location", str "");
    (str "referer", str "");
    (str "set-cookie", str "");
    (str ":method", str "CONNECT");
    (str ":method", str "DELETE");
    (str ":method", str "GET");
    (str ":method", str "HEAD");
    (str ":method", str "OPTIONS");
    (str ":method", str "POST");
    (str ":method", str "PUT");
    (str ":scheme", str "http");
    (str ":scheme", str "https");
    (str ":status", str "103");
    (str ":status", str "200");
    (str ":status", str "304");
    (str ":status", str "404");
    (str ":status", str "503");
    (str "accept", str "*/*");
    (str "accept", str "application/dns-message");
    (str "accept-encoding", str "gzip, deflate, br");
    (str "accept-ranges", str "bytes");
    (str "access-control-allow-headers", str "cache-control");
    (str "access-control-allow-headers", str "content-type");
    (str "access-control-allow-origin", str "*");
    (str "cache-control", str "max-age=0");
    (str "cache-control", str "max-age=2592000");
    (str "cache-control", str "max-age=604800");
    (str "cache-control", str "no-cache");
    (str "cache-control", str "no-store");
    (str "cache-control", str "public, max-age=31536000");
    (str "content-encoding", str "br");
    (str "content-encoding", str "gzip");
    (str "content-type", str "application/dns-message");
    (str "content-type", str "application/javascript");
    (str "content-type", str "application/json");
    (str "content-type", str "application/x-www-form-urlencoded");
    (str "content-type", str "image/gif");
    (str "content-type", str "image/jpeg");
    (str "content-type", str "image/png");
    (str "content-type", str "text/css");
    (str "content-type", str "text/html; charset=utf-8");
    (str "content-type", str "text/plain");
    (str "content-type", str "text/plain;charset=utf-8");
    (str "range", str "bytes=0-");
    (str "strict-transport-security", str "max-age=31536000");
    (str "strict-transport-security", str "max-age=31536000; includesubdomains");
    (str "strict-transport-security", str "max-age=31536000; includesubdomains; preload");
    (str "vary", str "accept-encoding");
    (str "vary", str "origin");
    (str "x-content-type-options", str "nosniff");
    (str "x-xss-protection", str "1; mode=block");
    (str ":status", str "100");
    (str ":status", str "204");
    (str ":status", str "206");
    (str ":status", str "302");
    (str ":status", str "400");
    (str ":status", str "403");
    (str ":status", str "421");
    (str ":status", str "425");
    (str ":status", str "500");
    (str "accept-language", str "");
    (str "access-control-allow-credentials", str "FALSE");
    (str "access-control-allow-credentials", str "TRUE");
    (str "access-control-allow-headers", str "*");
    (str "access-control-allow-methods", str "get");
    (str "access-control-allow-methods", str "get, post, options");
    (str "access-control-allow-methods", str "options");
    (str "access-control-expose-headers", str "content-length");
    (str "access-control-request-headers", str "content-type");
    (str "access-control-request-method", str "get");
    (str "access-control-request-method", str "post");
    (str "alt-svc", str "clear");
    (str "authorization", str "");
    (str "content-security-policy", str "script-src 'none'; object-src 'none'; base-uri 'none'");
    (str "early-data", str "1");
    (str "expect-ct", str "");
    (str "forwarded", str "");
    (str "if-range", str "");
    (str "origin", str "");
    (str "purpose", str "prefetch");
    (str "server", str "");
    (str "timing-allow-origin", str "*");
    (str "upgrade-insecure-requests", str "1");
    (str "user-agent", str "");
    (str "x-forwarded-for", str "");
    (str "x-frame-options", str "deny");
    (str "x-frame-options", str "sameorigin")
  ].

Definition begin_section : bytes := [x00; x00].

Definition write_string (s : bytes) (prefix flags : Z) : bytes :=
  let huff := wrap 8 (Z.shiftl 1 prefix) in
  let hlen := Huffman.encoded_len s in
  if decide (hlen < length s)%nat
  then Huffman.encode s (write_int (Z.of_nat hlen) prefix (Z.lor flags huff))
  else write_int (Z.of_nat (length s)) prefix flags ++ s.

(** [encode]: the bytes appended for one field line. *)
Definition encode (n v : bytes) : bytes :=
  match list_find (λ e, e = (n, v)) STATIC with
  | Some (i, _) => write_int (Z.of_nat i) 6 0xc0
  | None =>
      (match list_find (λ e, fst e = n) STATIC with
       | Some (i, _) => write_int (Z.of_nat i) 4 0x50
       | None => write_string n 3 0x20
       end) ++ write_string v 7 0x00
  end.

(** A reference to the dynamic table: impossible with a capacity of zero. *)
Definition dynamic_reference : QpackError := H3Frame.code.QPACK_DECOMPRESSION_FAILED.

Definition static_at (i : Z) : result QpackError (bytes * bytes) :=
  ok_or H3Frame.code.QPACK_DECOMPRESSION_FAILED (STATIC !! Z.to_nat i).

(** [int(..)?]: the conversion the question mark applies. *)
Definition int' (buf : bytes) (prefix : Z) : result QpackError (Z * bytes) :=
  map_err from_hpack (int buf prefix).

Definition read_string (buf : bytes) (prefix : Z) : result QpackError (bytes * bytes) :=
  match buf with
  | [] => Err H3Frame.code.QPACK_DECOMPRESSION_FAILED
  | first :: _ =>
      let huffman_coded := negb (bool_decide (Z.land (u8 first) (Z.shiftl 1 prefix) = 0)) in
      '(len, rest) ← int' buf prefix;
      if decide (Z.of_nat (length rest) < len) then Err H3Frame.code.QPACK_DECOMPRESSION_FAILED
      else
        let raw := take (Z.to_nat len) rest in
        let rest := drop (Z.to_nat len) rest in
        bs ← (if huffman_coded
              then map_err (λ _, H3Frame.code.QPACK_DECOMPRESSION_FAILED)
                     (Huffman.decode raw MAX_STRING [])
              else Ok raw);
        (λ s, (s, rest)) <$> ok_or H3Frame.code.QPACK_DECOMPRESSION_FAILED (from_utf8 bs)
  end.

Definition read_prefix (buf : bytes) : result QpackError bytes :=
  '(required_insert_count, rest) ← int' buf 8;
  if decide (required_insert_count ≠ 0) then Err dynamic_reference
  else '(_, rest) ← int' rest 7; Ok rest.

(** The field line at the front of [rest], whose first byte is [b]. *)
Definition field_line (b : byte) (rest : bytes) : result QpackError (Header * bytes) :=
  let bit m := negb (bool_decide (Z.land (u8 b) m = 0)) in
  if bit 0x80 then
    if negb (bit 0x40) then Err dynamic_reference
    else
      '(i, r) ← int' rest 6;
      '(n, v) ← static_at i;
      Ok (mkHeader n v, r)
  else if bit 0x40 then
    if negb (bit 0x10) then Err dynamic_reference
    else
      '(i, r) ← int' rest 4;
      '(n, _) ← static_at i;
      '(v, r) ← read_string r 7;
      Ok (mkHeader n v, r)
  else if bit 0x20 then
    '(n, r) ← read_string rest 3;
    '(v, r) ← read_string r 7;
    Ok (mkHeader n v, r)
  else Err dynamic_reference.

(** [while !rest.is_empty()]; a field line is at least a byte, so the
    section's length is enough fuel ([section_loop_fuel]). *)
Fixpoint decode_loop (fuel : nat) (max_section : Z) (rest : bytes) (size : Z)
    (out : list Header) : result QpackError (list Header) :=
  match rest, fuel with
  | [], _ => Ok out
  | _ :: _, O => Err dynamic_reference
  | b :: _, S fuel =>
      '(h, rest) ← field_line b rest;
      let size := size + (Z.of_nat (length (name h)) + Z.of_nat (length (value h)) + FIELD_OVERHEAD) in
      if decide (max_section < size) then Err H3Frame.code.EXCESSIVE_LOAD
      else decode_loop fuel max_section rest size (out ++ [h])
  end.

Definition decode (buf : bytes) (max_section : Z) : result QpackError (list Header) :=
  rest ← read_prefix buf;
  decode_loop (length rest) max_section rest 0 [].

(** ** Lemmas *)

Lemma int'_ok b prefix v rest :
  1 ≤ prefix ≤ 8 → int' b prefix = Ok (v, rest) → (length rest < length b)%nat.
Proof.
  intros Hp H. unfold int' in H. destruct (int b prefix) as [[w r]|] eqn:Hi; [|done].
  cbn in H. injection H as -> ->. apply int_ok in Hi as (_ & pre & -> & ?); [|done].
  rewrite length_app. destruct pre; [done | cbn; lia].
Qed.

Lemma read_string_ok b prefix s rest :
  1 ≤ prefix ≤ 8 → read_string b prefix = Ok (s, rest) →
  utf8_valid s = true ∧ (length rest < length b)%nat.
Proof.
  intros Hp. unfold read_string. destruct b as [|c b]; [done |].
  intros ([len r] & Hi & H)%result_bind_ok. apply int'_ok in Hi; [|done].
  case_decide; [done |]. apply result_bind_ok in H as (bs & _ & H).
  destruct (from_utf8 bs) as [t|] eqn:Hu; [|done]. cbn in H. injection H as <- <-.
  apply from_utf8_Some in Hu as [<- Hu]. split; [done |].
  rewrite length_drop. lia.
Qed.

Lemma qstatic_text : Forall (λ e, header_text (mkHeader (fst e) (snd e))) STATIC.
Proof. by repeat constructor. Qed.

Lemma static_at_text i n v : static_at i = Ok (n, v) → header_text (mkHeader n v).
Proof.
  unfold static_at. intros H%ok_or_ok. pose proof qstatic_text as Hs.
  rewrite Forall_lookup in Hs. by apply Hs in H.
Qed.

Lemma field_line_ok b buf h rest :
  field_line b buf = Ok (h, rest) → header_text h ∧ (length rest < length buf)%nat.
Proof.
  unfold field_line. intros H. repeat case_match; try done;
  repeat match goal with
  | H : (_ ≫= _) = Ok _ |- _ => apply result_bind_ok in H as ([? ?] & ? & H)
  | H : int' _ _ = Ok _ |- _ => apply int'_ok in H; [|lia]
  | H : read_string _ _ = Ok _ |- _ => apply read_string_ok in H as [? ?]; [|lia]
  | H : static_at _ = Ok _ |- _ => apply static_at_text in H as [? ?]
  | H : Ok _ = Ok _ |- _ => injection H as <- <-
  end; (split; [by split | lia]).
Qed.

Lemma section_loop_fuel fuel extra max_section rest size out :
  (length rest <= fuel)%nat →
  decode_loop (fuel + extra) max_section rest size out =
  decode_loop fuel max_section rest size out.
Proof.
  revert rest size out. induction fuel as [|fuel IH]; intros rest size out Hf.
  - destruct rest; [by destruct extra | cbn in Hf; lia].
  - cbn [decode_loop Nat.add]. destruct rest as [|b r]; [done |].
    destruct (field_line b (b :: r)) as [[h rest']|] eqn:Hl; [|done].
    cbn [mbind result_bind]. case_decide; [done |].
    apply field_line_ok in Hl as [_ Hl]. apply IH. cbn [length] in *. lia.
Qed.

Lemma section_loop_ok fuel max_section rest size out hs :
  size = table_cost out → size ≤ max_section → Forall header_text out →
  decode_loop fuel max_section rest size out = Ok hs →
  table_cost hs ≤ max_section ∧ Forall header_text hs.
Proof.
  revert rest size out. induction fuel as [|fuel IH]; intros rest size out Hs Hm Ht;
    (destruct rest as [|b r]; cbn [decode_loop]; [intros [= <-]; split; [lia | done] |]); [done |].
  intros ([h rest'] & Hl & H)%result_bind_ok. apply field_line_ok in Hl as [Hh _].
  case_decide; [done |]. assert (Forall header_text (out ++ [h])) by (apply Forall_app; by split; [|constructor]).
  eapply IH; [| | done | exact H]; [|lia].
  rewrite table_cost_app, table_cost_cons. change (table_cost []) with 0.
  unfold entry_size, ENTRY_OVERHEAD, FIELD_OVERHEAD in *. lia.
Qed.

(** The Huffman bit sits just above the prefix. *)
Lemma huff_flags f prefix :
  1 ≤ prefix ≤ 7 → 0 ≤ f →
  Z.lor (2 * f * 2 ^ prefix) (wrap 8 (Z.shiftl 1 prefix)) = (2 * f + 1) * 2 ^ prefix.
Proof.
  intros Hp Hf. pose proof (Z.pow_pos_nonneg 2 prefix ltac:(lia) ltac:(lia)).
  unfold wrap. rewrite Z.shiftl_1_l, (Z.mod_small (2 ^ prefix)).
  - replace (2 * f * 2 ^ prefix) with (f * 2 ^ (prefix + 1)) by (rewrite Z.pow_add_r by lia; lia).
    rewrite (lor_disjoint f (2 ^ prefix) (prefix + 1)); rewrite ?Z.pow_add_r by lia; lia.
  - split; [lia |]. apply Z.pow_lt_mono_r; lia.
Qed.

(** A string literal reads back, at any prefix and under any flags above the
    Huffman bit. *)
Lemma read_write_string s prefix f rest :
  1 ≤ prefix ≤ 7 → 0 ≤ f < 2 ^ (7 - prefix) →
  utf8_valid s = true → (length s <= MAX_STRING)%nat →
  read_string (write_string s prefix (2 * f * 2 ^ prefix) ++ rest) prefix = Ok (s, rest).
Proof.
  intros Hp Hf Hu Hmax. unfold write_string. rewrite Huffman.encoded_len_aux.
  assert (Z.of_nat (length s) ≤ 32768) as Hlen by (unfold MAX_STRING in Hmax; lia).
  assert (2 ^ (8 - prefix) = 2 * 2 ^ (7 - prefix)) as H2.
  { rewrite <-Z.pow_succ_r by lia. f_equal. lia. }
  pose proof (Z.pow_pos_nonneg 2 prefix ltac:(lia) ltac:(lia)) as Hpow.
  assert (∀ h body, h = 0 ∨ h = 1 → (length body <= length s)%nat →
    read_string ((write_int (Z.of_nat (length body)) prefix ((2 * f + h) * 2 ^ prefix) ++ body) ++ rest)
      prefix =
    (bs ← (if decide (h = 0) then Ok body
           else map_err (λ _, H3Frame.code.QPACK_DECOMPRESSION_FAILED)
                  (Huffman.decode body MAX_STRING []));
     (λ s, (s, rest)) <$> ok_or H3Frame.code.QPACK_DECOMPRESSION_FAILED (from_utf8 bs))) as Hgen.
  { intros h body Hh Hl. rewrite <-app_assoc.
    destruct (write_int_head (Z.of_nat (length body)) prefix (2 * f + h)) as (b & tl & Heq & Hb);
      [lia..|].
    pose proof (int_write_int (Z.of_nat (length body)) prefix (2 * f + h) (body ++ rest)) as Hi.
    specialize (Hi ltac:(lia) ltac:(lia) ltac:(lia) ltac:(lia)).
    rewrite Heq in *. cbn [app] in *. unfold read_string, int'. rewrite Hi.
    cbn [map_err mbind result_bind].
    rewrite decide_False by len_lia.
    rewrite Nat2Z.id, take_app_length, drop_app_length, Z.shiftl_1_l.
    assert (u8 b / 2 ^ prefix = 2 * f + h) as Hq by (symmetry; apply (Z.div_unique _ _ _ (u8 b - (2 * f + h) * 2 ^ prefix)); lia).
    destruct (land_pow2 (u8 b) prefix ltac:(lia)) as [Hz1 Hz2]. rewrite Hq in Hz1, Hz2.
    destruct Hh as [-> | ->].
    - rewrite Hz2; [done |]. rewrite Z.add_0_r, Z.odd_mul. done.
    - rewrite bool_decide_eq_false_2; [done |]. intros E. apply Hz1 in E.
      rewrite Z.odd_add, Z.odd_mul in E. done. }
  case_decide as Hshort.
  - rewrite Huffman.encode_app. rewrite huff_flags by lia.
    rewrite (Hgen 1) by (auto; lia). rewrite decide_False by lia.
    assert (Huffman.decode (Huffman.encode s []) MAX_STRING [] = Ok s) as ->
      by (by apply Huffman.decode_exact_aux).
    cbn [map_err mbind result_bind]. unfold from_utf8. by rewrite Hu.
  - replace (2 * f * 2 ^ prefix) with ((2 * f + 0) * 2 ^ prefix) by lia.
    rewrite (Hgen 0) by auto. rewrite decide_True by done.
    cbn [mbind result_bind]. unfold from_utf8. by rewrite Hu.
Qed.

(** The first byte of a string literal carries its flags. *)
Lemma write_string_head s prefix f :
  1 ≤ prefix ≤ 7 → 0 ≤ f < 2 ^ (7 - prefix) →
  ∃ b tl, write_string s prefix (2 * f * 2 ^ prefix) = b :: tl ∧
          2 * f * 2 ^ prefix ≤ u8 b < (2 * f + 2) * 2 ^ prefix.
Proof.
  intros Hp Hf.
  assert (2 ^ (8 - prefix) = 2 * 2 ^ (7 - prefix)) as H2.
  { rewrite <-Z.pow_succ_r by lia. f_equal. lia. }
  pose proof (Z.pow_pos_nonneg 2 prefix ltac:(lia) ltac:(lia)) as Hpow.
  unfold write_string. case_decide.
  - rewrite Huffman.encode_app. rewrite huff_flags by lia.
    destruct (write_int_head (Z.of_nat (Huffman.encoded_len s)) prefix (2 * f + 1))
      as (b & tl & -> & Hb); [lia..|].
    cbn [app]. eexists b, _. split; [done | lia].
  - destruct (write_int_head (Z.of_nat (length s)) prefix (2 * f)) as (b & tl & -> & Hb); [lia..|].
    cbn [app]. eexists b, _. split; [done | lia].
Qed.

Definition encodable (h : Header) : Prop :=
  header_text h ∧ (length (name h) <= MAX_STRING)%nat ∧ (length (value h) <= MAX_STRING)%nat.

Lemma qstatic_index i e : STATIC !! i = Some e → 0 ≤ Z.of_nat i < 99.
Proof. intros H%lookup_lt_Some. cbn in H. lia. Qed.

(** The opcode bits by the range of a field line's first byte. *)
Lemma opcode_bits b :
  (192 ≤ u8 b → Z.land (u8 b) 128 ≠ 0 ∧ Z.land (u8 b) 64 ≠ 0) ∧
  (80 ≤ u8 b < 96 → Z.land (u8 b) 128 = 0 ∧ Z.land (u8 b) 64 ≠ 0 ∧ Z.land (u8 b) 16 ≠ 0) ∧
  (32 ≤ u8 b < 48 → Z.land (u8 b) 128 = 0 ∧ Z.land (u8 b) 64 = 0 ∧ Z.land (u8 b) 32 ≠ 0).
Proof. destruct b; vm_compute; intuition discriminate. Qed.

Lemma value_string v rest :
  utf8_valid v = true → (length v <= MAX_STRING)%nat →
  read_string (write_string v 7 0 ++ rest) 7 = Ok (v, rest).
Proof. intros. apply (read_write_string v 7 0 rest); done || lia. Qed.

Lemma field_line_encode n v rest :
  encodable (mkHeader n v) →
  ∃ first tl, encode n v ++ rest = first :: tl ∧
    field_line first (encode n v ++ rest) = Ok (mkHeader n v, rest).
Proof.
  intros ([Hn Hv] & Hln & Hlv). cbn [name value] in *. unfold encode.
  destruct (list_find (λ e, e = (n, v)) STATIC) as [[i e]|] eqn:Hfull.
  { apply list_find_Some in Hfull as (Hi & -> & _). pose proof (qstatic_index _ _ Hi).
    destruct (write_int_head (Z.of_nat i) 6 3) as (b & tl & Heq & Hb); [lia..|].
    pose proof (int_write_int (Z.of_nat i) 6 3 rest ltac:(lia) ltac:(lia) ltac:(lia) ltac:(lia)) as Hint.
    change (3 * 2 ^ 6) with 0xc0 in *. exists b, (tl ++ rest). rewrite Heq in *. split; [done |].
    destruct (opcode_bits b) as (H1 & _). destruct H1 as [H1 H2]; [lia |].
    unfold field_line, int'.
    rewrite (bool_decide_eq_false_2 _ H1), (bool_decide_eq_false_2 _ H2). cbn [negb].
    rewrite Hint. cbn [map_err mbind result_bind].
    unfold static_at. by rewrite Nat2Z.id, Hi. }
  clear Hfull. destruct (list_find (λ e, fst e = n) STATIC) as [[i [n' v']]|] eqn:Hname.
  - apply list_find_Some in Hname as (Hi & Hfst & _). cbn in Hfst. subst n'.
    pose proof (qstatic_index _ _ Hi). rewrite <-app_assoc.
    destruct (write_int_head (Z.of_nat i) 4 5) as (b & tl & Heq & Hb); [lia..|].
    pose proof (int_write_int (Z.of_nat i) 4 5 (write_string v 7 0 ++ rest)
      ltac:(lia) ltac:(lia) ltac:(lia) ltac:(lia)) as Hint.
    change (5 * 2 ^ 4) with 0x50 in *. exists b, (tl ++ write_string v 7 0 ++ rest).
    rewrite Heq in *. split; [done |].
    destruct (opcode_bits b) as (_ & H1 & _). destruct H1 as (H1 & H2 & H3); [lia |].
    unfold field_line, int'. 
    rewrite (bool_decide_eq_true_2 _ H1), (bool_decide_eq_false_2 _ H2), (bool_decide_eq_false_2 _ H3).
    cbn [negb].
    rewrite Hint. cbn [map_err mbind result_bind].
    unfold static_at. rewrite Nat2Z.id, Hi. cbn [ok_or mbind result_bind].
    by rewrite value_string.
  - rewrite <-app_assoc.
    destruct (write_string_head n 3 2) as (b & tl & Heq & Hb); [lia..|].
    pose proof (read_write_string n 3 2 (write_string v 7 0 ++ rest)
      ltac:(lia) ltac:(lia) Hn Hln) as Hstr.
    change (2 * 2 * 2 ^ 3) with 0x20 in *. exists b, (tl ++ write_string v 7 0 ++ rest).
    rewrite Heq in *. split; [done |].
    destruct (opcode_bits b) as (_ & _ & H1). destruct H1 as (H1 & H2 & H3); [lia |].
    unfold field_line. 
    rewrite (bool_decide_eq_true_2 _ H1), (bool_decide_eq_true_2 _ H2), (bool_decide_eq_false_2 _ H3).
    cbn [negb].
    rewrite Hstr. cbn [mbind result_bind]. by rewrite value_string.
Qed.

Definition encode_all (hs : list Header) : bytes :=
  mjoin ((λ h, encode (name h) (value h)) <$> hs).

Lemma section_loop_encode_all fuel max_section size acc hs :
  (length (encode_all hs) <= fuel)%nat → Forall encodable hs →
  size + table_cost hs ≤ max_section →
  decode_loop fuel max_section (encode_all hs) size acc = Ok (acc ++ hs).
Proof.
  intros Hf Henc. revert fuel size acc Hf.
  induction Henc as [|h hs Hh _ IH]; intros fuel size acc Hf Hmax.
  - rewrite app_nil_r. by destruct fuel.
  - change (encode_all (h :: hs)) with (encode (name h) (value h) ++ encode_all hs) in *.
    rewrite table_cost_cons in *. pose proof (table_cost_nonneg hs). destruct h as [n v].
    cbn [name value] in *. destruct (field_line_encode n v (encode_all hs) Hh) as (first & tl & Heq & Hl).
    pose proof (proj2 (field_line_ok _ _ _ _ Hl)) as Hshort.
    destruct fuel as [|fuel]; [rewrite Heq in Hf; cbn in Hf; lia |].
    cbn [decode_loop]. rewrite Heq, <-Heq. rewrite Hl. cbn [mbind result_bind name value].
    unfold entry_size, ENTRY_OVERHEAD in Hmax. cbn [name value] in Hmax. unfold FIELD_OVERHEAD.
    rewrite decide_False by lia. rewrite IH by lia. by rewrite <-app_assoc.
Qed.

(** ** Properties *)

(** C24. A field section our encoder writes decodes to exactly the headers it
    was written for, in order, where their names and values are text of a length
    the decoder takes and the section is within the size it advertises. *)
Theorem section_roundtrip hs max_section :
  Forall encodable hs → table_cost hs ≤ max_section →
  decode (begin_section ++ encode_all hs) max_section = Ok hs.
Proof.
  intros Henc Hmax. unfold decode.
  change (read_prefix (begin_section ++ encode_all hs)) with (Ok (E := QpackError) (encode_all hs)).
  cbn [mbind result_bind]. by rewrite section_loop_encode_all by (done || lia).
Qed.

Lemma section_roundtrip_witness :
  let hs := [mkHeader (str ":status") (str "200"); mkHeader (str "content-type") (str "text/x-oxi");
             mkHeader (str "x-custom") (str "www.example.com")] in
  decode (begin_section ++ encode_all hs) 65536 = Ok hs.
Proof.
  apply section_roundtrip; [|by vm_compute].
  unfold encodable, MAX_STRING.
  repeat (apply Forall_cons; split; [split; [by split | cbn [name value length]; split; cbn; lia] |]).
  constructor.
Defined.

(** Whatever a peer sends, a section that decodes stays within the size
    we advertised and is UTF-8 text, and the loop ends: the section's length
    is enough fuel. *)
Theorem section_bounded buf max_section hs :
  0 ≤ max_section → decode buf max_section = Ok hs →
  table_cost hs ≤ max_section ∧ Forall header_text hs ∧
  ∀ rest extra, decode_loop (length rest + extra) max_section rest 0 [] =
                decode_loop (length rest) max_section rest 0 [].
Proof.
  intros Hm (rest & _ & H)%result_bind_ok.
  apply section_loop_ok in H as [? ?]; [|done|done|constructor].
  split_and!; [done | done |]. intros. by apply section_loop_fuel.
Qed.

Lemma section_bounded_witness :
  table_cost [mkHeader (str ":path") (str "/")] ≤ 100.
Proof.
  apply (section_bounded (begin_section ++ encode (str ":path") (str "/")) 100
    [mkHeader (str ":path") (str "/")]); [lia | reflexivity].
Defined.
