(* ===== verification/FcgiProto.v ===== *)
(** * [src/server/fcgi_proto.rs]: the FastCGI record protocol

    Records, name/value pairs and the streams cut into records, written and
    parsed back. *)
From S2P Require Import Prelude Wire.
From S2P Require Import Text.

Open Scope Z_scope.

(** ** The code *)

Definition HEADER_LEN : nat := 8.
Definition VERSION : Z := 1.
Definition MAX_CONTENT : Z := 0xFFFF.
Definition REQUEST_ID : Z := 1.

Inductive RecordType :=
  | BeginRequest | AbortRequest | EndRequest | Params | Stdin | Stdout | Stderr | Data
  | GetValues | GetValuesResult | UnknownType.

#[export] Instance RecordType_eq_dec : EqDecision RecordType.
Proof. solve_decision. Defined.

(** [ty as u8] *)
Definition to_u8 (ty : RecordType) : Z :=
  match ty with
  | BeginRequest => 1 | AbortRequest => 2 | EndRequest => 3 | Params => 4 | Stdin => 5
  | Stdout => 6 | Stderr => 7 | Data => 8 | GetValues => 9 | GetValuesResult => 10
  | UnknownType => 11
  end.

Definition from_u8 (v : Z) : option RecordType :=
  match v with
  | 1 => Some BeginRequest | 2 => Some AbortRequest | 3 => Some EndRequest
  | 4 => Some Params | 5 => Some Stdin | 6 => Some Stdout | 7 => Some Stderr
  | 8 => Some Data | 9 => Some GetValues | 10 => Some GetValuesResult
  | 11 => Some UnknownType
  | _ => None
  end.

Definition ROLE_RESPONDER : Z := 1.
Definition FLAG_KEEP_CONN : Z := 1.

Definition push_header (ty : RecordType) (content_len padding : Z) : bytes :=
  [of_u8 VERSION; of_u8 (to_u8 ty)] ++ to_be 2 REQUEST_ID ++ to_be 2 (wrap 16 content_len)
  ++ [of_u8 padding; x00].

(** [push_record]: the bytes appended. *)
Definition push_record (ty : RecordType) (body : bytes) : bytes :=
  let padding := (8 - Z.of_nat (length body) mod 8) mod 8 in
  push_header ty (Z.of_nat (length body)) padding ++ body ++ replicate (Z.to_nat padding) x00.

Definition push_begin_request (keep_conn : bool) : bytes :=
  push_record BeginRequest
    (to_be 2 ROLE_RESPONDER ++ [of_u8 (if keep_conn then FLAG_KEEP_CONN else 0)]
     ++ replicate 5 x00).

Definition push_len (n : Z) : bytes :=
  if decide (n < 128) then [of_u8 n] else to_be 4 (Z.lor (wrap 32 n) 0x80000000).

Definition push_nv_pair (name value : bytes) : bytes :=
  push_len (Z.of_nat (length name)) ++ push_len (Z.of_nat (length value)) ++ name ++ value.

(** [params.chunks(n)]; a chunk is not empty, so the length is enough fuel. *)
Fixpoint chunks_loop (fuel n : nat) (s : bytes) : list bytes :=
  match s, fuel with
  | [], _ | _, O => []
  | _ :: _, S fuel => take n s :: chunks_loop fuel n (drop n s)
  end.

Definition chunks (s : bytes) : list bytes := chunks_loop (length s) (Z.to_nat MAX_CONTENT) s.

Definition push_params (params : bytes) : bytes :=
  mjoin (push_record Params <$> chunks params) ++ push_record Params [].

Definition push_stdin (body : bytes) : bytes :=
  mjoin (push_record Stdin <$> chunks body) ++ push_record Stdin [].

Record FcgiRecord := mkRecord { ty : RecordType; request_id : Z; body : bytes; total : nat }.

Inductive ParseError := Incomplete | Malformed.

#[export] Instance ParseError_eq_dec : EqDecision ParseError.
Proof. solve_decision. Defined.

Definition at_ (buf : bytes) (i : nat) : byte := nth i buf x00.

Definition parse_record (buf : bytes) : result ParseError FcgiRecord :=
  if decide (length buf < HEADER_LEN)%nat then Err Incomplete
  else if decide (u8 (at_ buf 0) ≠ VERSION) then Err Malformed
  else match from_u8 (u8 (at_ buf 1)) with
       | None => Err Malformed
       | Some ty =>
           let request_id := from_be [at_ buf 2; at_ buf 3] in
           let content_len := Z.to_nat (from_be [at_ buf 4; at_ buf 5]) in
           let padding := Z.to_nat (u8 (at_ buf 6)) in
           let total := (HEADER_LEN + content_len + padding)%nat in
           if decide (length buf < total)%nat then Err Incomplete
           else Ok (mkRecord ty request_id (take content_len (drop HEADER_LEN buf)) total)
       end.

Definition end_request_status (body : bytes) : option (Z * Z) :=
  if decide (length body < 8)%nat then None
  else Some (from_be [at_ body 0; at_ body 1; at_ body 2; at_ body 3], u8 (at_ body 4)).

Definition http_param_name (name : bytes) : bytes :=
  str "HTTP_" ++ ((λ b, if decide (b = "-"%byte) then "_"%byte else to_ascii_uppercase b) <$> name).

(** ** Records *)

Lemma from_to_u8 t : from_u8 (to_u8 t) = Some t.
Proof. by destruct t. Qed.

Lemma to_u8_range t : 1 ≤ to_u8 t ≤ 11.
Proof. destruct t; cbn; lia. Qed.

Definition padding_of (body : bytes) : nat := Z.to_nat ((8 - Z.of_nat (length body) mod 8) mod 8).

Lemma padding_bound body : (padding_of body < 8)%nat.
Proof. unfold padding_of. pose proof (Z.mod_pos_bound (8 - Z.of_nat (length body) mod 8) 8). lia. Qed.

Lemma push_record_length t body :
  length (push_record t body) = (HEADER_LEN + length body + padding_of body)%nat.
Proof. unfold push_record, HEADER_LEN. rewrite !length_app, length_replicate. reflexivity. Qed.

(** A record is aligned to eight bytes. *)
Lemma push_record_aligned t body : Z.of_nat (length (push_record t body)) mod 8 = 0.
Proof.
  rewrite push_record_length. unfold padding_of, HEADER_LEN. zdiv.
Qed.

Lemma header_fields t n p tl :
  let buf := push_header t n p ++ tl in
  at_ buf 0 = of_u8 VERSION ∧ at_ buf 1 = of_u8 (to_u8 t) ∧
  [at_ buf 2; at_ buf 3] = to_be 2 REQUEST_ID ∧ [at_ buf 4; at_ buf 5] = to_be 2 (wrap 16 n) ∧
  at_ buf 6 = of_u8 p ∧ drop HEADER_LEN buf = tl.
Proof. by split_and!. Qed.

Lemma parse_push_record t body rest :
  Z.of_nat (length body) ≤ MAX_CONTENT →
  parse_record (push_record t body ++ rest) =
  Ok (mkRecord t REQUEST_ID body (length (push_record t body))).
Proof.
  intros Hb. unfold MAX_CONTENT in Hb.
  pose proof (push_record_length t body) as Hlen. pose proof (padding_bound body) as Hpad.
  pose proof (to_u8_range t).
  destruct (header_fields t (Z.of_nat (length body)) (Z.of_nat (padding_of body))
    (body ++ replicate (padding_of body) x00 ++ rest)) as (H0 & H1 & H2 & H4 & H6 & Hd).
  assert (push_record t body ++ rest =
    push_header t (Z.of_nat (length body)) (Z.of_nat (padding_of body)) ++
    (body ++ replicate (padding_of body) x00 ++ rest)) as Hbuf.
  { unfold push_record. fold (padding_of body). unfold padding_of at 2.
    rewrite Z2Nat.id by (apply Z.mod_pos_bound; lia). by rewrite <-!app_assoc. }
  pose proof (f_equal length Hbuf) as Hl. rewrite length_app in Hl.
  rewrite Hbuf. unfold parse_record. rewrite <-Hl, H0, H1, H2, H4, H6, Hd.
  unfold HEADER_LEN, wrap in *. rewrite decide_False by lia.
  rewrite !u8_of_u8_small by (unfold VERSION; lia).
  rewrite decide_False, from_to_u8 by (unfold VERSION; lia).
  rewrite (from_be_to_be_small 2 REQUEST_ID) by (unfold REQUEST_ID; lia).
  rewrite Z.mod_small, from_be_to_be_small by lia. rewrite !Nat2Z.id.
  rewrite decide_False by lia. by rewrite take_app_length, Hlen.
Qed.

(** ** Streams *)

(** What the reading side does with a run of records: parse one, advance by
    [total], stop at an empty body. *)
Fixpoint read_stream (fuel : nat) (t : RecordType) (buf : bytes) :
    option (bytes * bytes) :=
  match fuel with
  | O => None
  | S fuel =>
      match parse_record buf with
      | Ok r =>
          if decide (ty r = t) then
            let rest := drop (total r) buf in
            match body r with
            | [] => Some ([], rest)
            | b => '(more, rest) ← read_stream fuel t rest; Some (b ++ more, rest)
            end
          else None
      | Err _ => None
      end
  end.

Lemma read_stream_record fuel t body rest :
  Z.of_nat (length body) ≤ MAX_CONTENT → body ≠ [] →
  read_stream (S fuel) t (push_record t body ++ rest) =
  ('(more, r) ← read_stream fuel t rest; Some (body ++ more, r)).
Proof.
  intros Hb Hne. cbn [read_stream]. rewrite parse_push_record by done.
  cbn [ty total]. rewrite decide_True, drop_app_length by done.
  by destruct body as [|c b].
Qed.

Lemma chunks_loop_spec fuel n s :
  (0 < n)%nat → (length s <= fuel)%nat →
  mjoin (chunks_loop fuel n s) = s ∧
  Forall (λ c, c ≠ [] ∧ (length c <= n)%nat) (chunks_loop fuel n s).
Proof.
  intros Hn. revert s. induction fuel as [|fuel IH]; intros s Hs.
  - destruct s; [done | cbn in Hs; lia].
  - destruct s as [|c s]; [done |]. cbn [chunks_loop].
    destruct (IH (drop n (c :: s))) as [H1 H2].
    { rewrite length_drop. cbn [length] in *. lia. }
    rewrite join_cons, H1, take_drop. split; [done |]. constructor; [|done].
    split; [destruct n; [lia | done] | rewrite length_take; lia].
Qed.

Lemma chunks_spec s :
  mjoin (chunks s) = s ∧
  Forall (λ c, c ≠ [] ∧ Z.of_nat (length c) ≤ MAX_CONTENT) (chunks s).
Proof.
  unfold chunks. destruct (chunks_loop_spec (length s) (Z.to_nat MAX_CONTENT) s) as [H1 H2];
    [unfold MAX_CONTENT; lia | done |].
  split; [done |]. eapply Forall_impl; [exact H2 |].
  intros c [? ?]. split; [done |]. unfold MAX_CONTENT in *. lia.
Qed.

Lemma read_stream_chunks t cs rest fuel :
  Forall (λ c, c ≠ [] ∧ Z.of_nat (length c) ≤ MAX_CONTENT) cs → (length cs < fuel)%nat →
  read_stream fuel t (mjoin (push_record t <$> cs) ++ push_record t [] ++ rest) =
  Some (mjoin cs, rest).
Proof.
  intros Hcs. revert fuel. induction Hcs as [|c cs [Hne Hc] _ IH]; intros fuel Hf.
  - destruct fuel; [lia |]. cbn [fmap list_fmap mjoin list_join app read_stream].
    rewrite parse_push_record by (unfold MAX_CONTENT; cbn; lia).
    cbn [ty total body]. by rewrite decide_True, drop_app_length by done.
  - destruct fuel; [cbn in Hf; lia |]. cbn [length] in Hf.
    rewrite fmap_cons_eq, !join_cons, <-app_assoc, read_stream_record by done.
    by rewrite IH by lia.
Qed.

(** ** The record stream

    Records as messages; what follows a record is read from its [total]. *)
Definition next_record (buf : bytes) : option (RecordType * bytes * nat) :=
  match parse_record buf with
  | Ok r => Some (ty r, body r, total r)
  | Err _ => None
  end.

Lemma parse_record_Ok buf r :
  parse_record buf = Ok r →
  (HEADER_LEN <= total r <= length buf)%nat ∧ ∀ more, parse_record (buf ++ more) = Ok r.
Proof.
  unfold parse_record, HEADER_LEN. case_decide as H1; [done |]. case_decide as H2; [done |].
  destruct (from_u8 (u8 (at_ buf 1))) as [t|] eqn:Ht; [|done]. cbv zeta.
  set (n := Z.to_nat (from_be _)). set (p := Z.to_nat (u8 _)).
  case_decide as H3; [done |]. intros H. injection H as <-. split; [cbn [total]; lia |]. intros more.
  assert (∀ i, (i < 8)%nat → at_ (buf ++ more) i = at_ buf i) as Hat
    by (intros; unfold at_; apply app_nth1; lia).
  rewrite !Hat by lia. rewrite Ht. fold n p. rewrite !decide_False by (rewrite ?length_app; lia || done).
  by rewrite drop_app_le, take_app_le by len_lia.
Qed.

Lemma next_record_takes buf x n : next_record buf = Some (x, n) → (0 < n <= length buf)%nat.
Proof.
  unfold next_record. destruct (parse_record buf) as [r|] eqn:E; [|done]. intros [= _ <-].
  apply parse_record_Ok in E as [? _]. unfold HEADER_LEN in *. lia.
Qed.

Lemma next_record_app buf more x n :
  next_record buf = Some (x, n) → next_record (buf ++ more) = Some (x, n).
Proof.
  unfold next_record. destruct (parse_record buf) as [r|] eqn:E; [|done].
  apply parse_record_Ok in E as [_ ->]. done.
Qed.

Lemma next_record_push x :
  Z.of_nat (length (snd x)) ≤ MAX_CONTENT →
  next_record (push_record (fst x) (snd x)) = Some (x, length (push_record (fst x) (snd x))).
Proof.
  destruct x as [t b]. cbn [fst snd]. intros Hb. unfold next_record.
  by rewrite <-(app_nil_r (push_record t b)), parse_push_record, app_nil_r.
Qed.

#[export] Instance record_wire : WireFormat (RecordType * bytes) := {
  wf_valid x := Z.of_nat (length (snd x)) ≤ MAX_CONTENT;
  wf_encode x := push_record (fst x) (snd x);
  wf_decode := next_record;
  wf_takes := next_record_takes;
  wf_stable := next_record_app;
  wf_roundtrip := next_record_push
}.

(** What an upstream answers, cut anywhere, is the records it sent. *)
Theorem records_reassemble rs cuts :
  Forall wf_valid rs → mjoin cuts = stream_of rs →
  foldl (λ st c, arrive c st) ([], []) cuts = (rs, []).
Proof.
  apply reassemble.
Qed.

(** ** Name/value pairs *)

(** The decoder of the FastCGI specification, section 3.4. *)
Definition read_len (buf : bytes) : option (Z * bytes) :=
  match buf with
  | [] => None
  | b :: rest =>
      if decide (u8 b < 128) then Some (u8 b, rest)
      else if decide (length buf < 4)%nat then None
      else Some (Z.land (from_be (take 4 buf)) 0x7fffffff, drop 4 buf)
  end.

Definition read_nv_pair (buf : bytes) : option (bytes * bytes * bytes) :=
  '(n, buf) ← read_len buf;
  '(v, buf) ← read_len buf;
  if decide (Z.of_nat (length buf) < n + v) then None
  else Some (take (Z.to_nat n) buf, take (Z.to_nat v) (drop (Z.to_nat n) buf),
             drop (Z.to_nat v) (drop (Z.to_nat n) buf)).

Lemma read_push_len n rest : 0 ≤ n < 2 ^ 31 → read_len (push_len n ++ rest) = Some (n, rest).
Proof.
  intros Hn. unfold push_len. case_decide as Hs.
  - cbn [app read_len]. rewrite u8_of_u8_small by lia. by rewrite decide_True.
  - unfold wrap. rewrite Z.mod_small by lia. change 0x80000000 with (1 * 2 ^ 31).
    rewrite Z.lor_comm, lor_disjoint by lia.
    pose proof (length_to_be 4 (1 * 2 ^ 31 + n)) as Hlen.
    pose proof (from_be_to_be_small 4 (1 * 2 ^ 31 + n) ltac:(lia)) as Hval.
    destruct (to_be 4 (1 * 2 ^ 31 + n)) as [|b tl] eqn:E; [done |].
    cbn [app read_len]. rewrite decide_False.
    + rewrite decide_False by len_lia.
      rewrite app_comm_cons. rewrite take_app_le, take_ge by lia.
      rewrite Hval. rewrite drop_app_ge, Hlen by lia. cbn [Nat.sub drop].
      do 2 f_equal. change 0x7fffffff with (2 ^ 31 - 1). rewrite land_mask by lia.
      rewrite Z.add_comm, Z.mod_add, Z.mod_small by lia. done.
    + cbn [to_be] in E. injection E as <- _.
      rewrite u8_of_u8_small; change (256 ^ Z.of_nat 3) with (2 ^ 24); zdiv.
Qed.

Lemma read_push_nv_pair name value rest :
  Z.of_nat (length name) < 2 ^ 31 → Z.of_nat (length value) < 2 ^ 31 →
  read_nv_pair (push_nv_pair name value ++ rest) = Some (name, value, rest).
Proof.
  intros Hn Hv. unfold read_nv_pair, push_nv_pair. rewrite <-!app_assoc.
  rewrite read_push_len by lia. cbn [mbind option_bind].
  rewrite read_push_len by lia. cbn [mbind option_bind].
  rewrite decide_False by (rewrite !length_app; lia).
  by rewrite !Nat2Z.id, take_app_length, drop_app_length, take_app_length, drop_app_length.
Qed.

Fixpoint read_pairs (fuel : nat) (buf : bytes) : option (list (bytes * bytes)) :=
  match buf, fuel with
  | [], _ => Some []
  | _, O => None
  | _, S fuel =>
      '(n, v, buf) ← read_nv_pair buf;
      l ← read_pairs fuel buf;
      Some ((n, v) :: l)
  end.

(** ** Properties *)

(** A record parses back to its type and body, with the bytes it took as
    its total, whatever follows it; a record is a whole number of eight-byte
    words. *)
Theorem record_roundtrip t body rest :
  Z.of_nat (length body) ≤ MAX_CONTENT →
  parse_record (push_record t body ++ rest) =
  Ok (mkRecord t REQUEST_ID body (length (push_record t body))) ∧
  Z.of_nat (length (push_record t body)) mod 8 = 0.
Proof. intros. split; [by apply parse_push_record | apply push_record_aligned]. Qed.

Lemma record_roundtrip_witness :
  parse_record (push_record Stdin (str "abc") ++ str "x") = Ok (mkRecord Stdin 1 (str "abc") 16).
Proof. apply (record_roundtrip Stdin (str "abc") (str "x")). done. Defined.

(** A body of any length, sent on STDIN, is read back whole by an
    application that parses records until an empty one: no byte is lost at a
    chunk boundary and the end-of-stream record is never a chunk. *)
Theorem stdin_stream_roundtrip data rest :
  read_stream (S (length (chunks data))) Stdin (push_stdin data ++ rest) = Some (data, rest).
Proof.
  destruct (chunks_spec data) as [Hj Hf]. unfold push_stdin. rewrite <-app_assoc.
  rewrite read_stream_chunks by (done || lia). by rewrite Hj.
Qed.

(** The parameters of a request survive encoding: the name/value pairs,
    cut into PARAMS records, read back as the same list. *)
Theorem params_roundtrip ps rest :
  Forall (λ p, Z.of_nat (length (fst p)) < 2 ^ 31 ∧ Z.of_nat (length (snd p)) < 2 ^ 31) ps →
  let blob := mjoin ((λ p, push_nv_pair (fst p) (snd p)) <$> ps) in
  read_stream (S (length (chunks blob))) Params (push_params blob ++ rest) = Some (blob, rest) ∧
  read_pairs (length ps) blob = Some ps.
Proof.
  intros Hps blob. split.
  - destruct (chunks_spec blob) as [Hj Hf]. unfold push_params. rewrite <-app_assoc.
    rewrite read_stream_chunks by (done || lia). by rewrite Hj.
  - subst blob. induction Hps as [|[n v] ps [Hn Hv] _ IH]; [done |].
    rewrite fmap_cons_eq, join_cons. cbn [length fst snd] in *.
    assert (push_nv_pair n v ≠ []) as Hne.
    { unfold push_nv_pair, push_len. repeat case_decide; done. }
    pose proof (read_push_nv_pair n v (mjoin ((λ p, push_nv_pair p.1 p.2) <$> ps)) Hn Hv) as Hr.
    destruct (push_nv_pair n v ++ _) as [|c tl] eqn:E;
      [by apply app_eq_nil in E as [? _] |].
    cbn [read_pairs]. rewrite Hr. cbn [mbind option_bind]. by rewrite IH.
Qed.

Lemma params_roundtrip_witness :
  let blob := push_nv_pair (str "SCRIPT_NAME") (str "/a.php") ++ push_nv_pair (str "X") [] in
  read_pairs 2 blob = Some [(str "SCRIPT_NAME", str "/a.php"); (str "X", [])].
Proof.
  apply (params_roundtrip [(str "SCRIPT_NAME", str "/a.php"); (str "X", [])] []).
  repeat constructor; done.
Defined.
