(* ===== verification/LimitReq.v ===== *)
(** * [src/server/limit_req.rs]: the request rate limiter

    [step] is the leaky bucket; [bump_word] is what one request does to a
    bucket's packed state word; the table around it is a transition system in
    the manner of [LimitConn], one atomic operation a step. *)
From S2P Require Import Prelude.

Open Scope oxi_scope.
Open Scope Z_scope.

(** ** The code *)

Definition SCALE : Z := 1000.

Inductive Decision := Pass | Delay (ms : Z) | Reject.

#[export] Instance Decision_eq_dec : EqDecision Decision.
Proof. solve_decision. Defined.

Definition i128_max : Z := 2 ^ 127 - 1.

(** The pure leaky-bucket step. *)
Definition step (prev_excess elapsed_ms rate burst : Z) (nodelay : bool) (delay_after : Z) :
    Z * Decision :=
  let drained := Z.min (rate * elapsed_ms) i128_max / SCALE in
  let excess := wrap 64 (Z.max (prev_excess - drained + SCALE) 0) in
  if decide (burst < excess) then (prev_excess, Reject)
  else if decide (excess = 0 ∨ nodelay = true ∨ excess ≤ delay_after) then (excess, Pass)
  else
    let delay := Z.min ((excess ∸ delay_after) * SCALE) u64_max / Z.max rate 1 in
    (excess, Delay delay).

Definition PROBE : nat := 16.
Definition EXCESS_BITS : Z := 24.
Definition EXCESS_MASK : Z := Z.shiftl 1 EXCESS_BITS - 1.
Definition MS_MASK : Z := Z.shiftl 1 39 - 1.
Definition PRESENT : Z := Z.shiftl 1 63.

Definition pack (last_ms excess : Z) : Z :=
  Z.lor (Z.lor PRESENT (wrap 64 (Z.shiftl (Z.land last_ms MS_MASK) EXCESS_BITS)))
    (Z.min excess EXCESS_MASK).

Definition unpack (w : Z) : Z * Z :=
  (Z.land (Z.shiftr w EXCESS_BITS) MS_MASK, Z.land w EXCESS_MASK).

(** The parameters of a check: the zone's rate, the location's settings and
    the request's arrival. *)
Record request := mkRequest {
  hash : Z;
  now_ms : Z;
  rate : Z;
  burst : Z;
  nodelay : bool;
  delay_after : Z
}.

Definition FRESH : Z := u64_max / SCALE.

(** [step] as the bucket word [cur] asks for it: a word of zero is an empty
    bucket. *)
Definition bump_step (r : request) (cur : Z) : Z * Decision :=
  let '(prev_excess, elapsed) :=
    if decide (cur = 0) then (0, FRESH)
    else let '(last, excess) := unpack cur in (excess, (now_ms r ∸ last)) in
  step prev_excess elapsed (rate r) (burst r) (nodelay r) (delay_after r).

(** The word a request leaves in its bucket, and its answer; a rejected
    request leaves the bucket alone. *)
Definition bump_word (r : request) (cur : Z) : Z * Decision :=
  let '(excess, decision) := bump_step r cur in
  if decide (decision = Reject) then (cur, decision) else (pack (now_ms r) excess, decision).

(** What a request evicted from its slot is answered. *)
Definition evicted (r : request) : Decision :=
  snd (step 0 FRESH (rate r) (burst r) (nodelay r) (delay_after r)).

(** FNV-1a over the seed and the key; zero marks an empty slot. *)
Definition hash_key (seed : Z) (key : bytes) : Z :=
  let h := foldl (λ h b, wrap 64 (Z.lxor h (u8 b) * 0x100000001b3))
             (Z.lxor 0xcbf29ce484222325 seed) key in
  if decide (h = 0) then 1 else h.

(** Where a request stands, between two atomic operations: in [check]'s
    probe, claiming an empty slot, clearing a claimed or evicted slot's
    state, or in [bump]. *)
Inductive pc :=
  | Probe (p : nat) (stalest : option (nat * Z))
  | ProbeState (p i : nat) (stalest : option (nat * Z))
  | Claim (p : nat) (stalest : option (nat * Z))
  | Evict (i : nat)
  | Clear (i : nat)
  | BumpHash (i : nat)
  | BumpLoad (i : nat)
  | BumpCas (i : nat) (cur : Z)
  | Done (d : Decision)
  | Panicked.

#[export] Instance pc_eq_dec : EqDecision pc.
Proof. solve_decision. Defined.

Record thread := mkThread { t_req : request; t_pc : pc }.

(** The zone's memory: a hash and a state a slot. *)
Record memory := mkMemory { hashes : list Z; states : list Z }.

Definition slot_index (m : memory) (h : Z) (p : nat) : nat :=
  let mask := Z.of_nat (length (hashes m)) - 1 in
  Z.to_nat (Z.land (wrap 64 (h + Z.of_nat p)) mask).

(** The end of a turn of the probe loop; after the last one, the [expect] on
    the stalest slot seen. *)
Definition next_probe (p : nat) (stalest : option (nat * Z)) : pc :=
  if decide (S p < PROBE)%nat then Probe (S p) stalest
  else match stalest with Some (i, _) => Evict i | None => Panicked end.

Definition thread_step (m : memory) (t : thread) : pc * memory :=
  let r := t_req t in
  match t_pc t with
  | Probe p stalest =>
      let i := slot_index m (hash r) p in
      let eh := nth i (hashes m) 0 in
      if decide (eh = hash r) then (BumpHash i, m)
      else if decide (eh = 0) then (Claim p stalest, m)
      else (ProbeState p i stalest, m)
  | Claim p stalest =>
      let i := slot_index m (hash r) p in
      let eh := nth i (hashes m) 0 in
      if decide (eh = 0) then (Clear i, mkMemory (<[i := hash r]> (hashes m)) (states m))
      else if decide (eh = hash r) then (BumpHash i, m)
      else (next_probe p stalest, m)
  | ProbeState p i stalest =>
      let '(last, _) := unpack (nth i (states m) 0) in
      let stalest :=
        match stalest with
        | Some (_, l) => if decide (last < l) then Some (i, last) else stalest
        | None => Some (i, last)
        end in
      (next_probe p stalest, m)
  | Evict i => (Clear i, mkMemory (<[i := hash r]> (hashes m)) (states m))
  | Clear i => (BumpHash i, mkMemory (hashes m) (<[i := 0]> (states m)))
  | BumpHash i =>
      if decide (nth i (hashes m) 0 ≠ hash r) then (Done (evicted r), m) else (BumpLoad i, m)
  | BumpLoad i =>
      let cur := nth i (states m) 0 in
      let '(_, decision) := bump_step r cur in
      if decide (decision = Reject) then (Done Reject, m) else (BumpCas i cur, m)
  | BumpCas i cur =>
      if decide (nth i (states m) 0 = cur) then
        let '(next, decision) := bump_word r cur in
        (Done decision, mkMemory (hashes m) (<[i := next]> (states m)))
      else (BumpHash i, m)
  | Done d => (Done d, m)
  | Panicked => (Panicked, m)
  end.

(** [Zone::tracked] *)
Definition tracked (m : memory) : nat := length (filter (λ h, h ≠ 0) (hashes m)).

(** ** Packing *)

Lemma pack_fields last excess :
  0 ≤ last < 2 ^ 39 → 0 ≤ excess →
  pack last excess ≠ 0 ∧ unpack (pack last excess) = (last, Z.min excess EXCESS_MASK).
Proof.
  intros Hl He. unfold unpack, pack, wrap.
  change EXCESS_MASK with (2 ^ 24 - 1). change MS_MASK with (2 ^ 39 - 1).
  change PRESENT with (2 ^ 63). change EXCESS_BITS with 24.
  rewrite !land_mask, (Z.mod_small last) by lia. set (e := Z.min excess (2 ^ 24 - 1)).
  assert (0 ≤ e < 2 ^ 24) by (unfold e; lia).
  rewrite Z.shiftl_mul_pow2, Z.mod_small by lia.
  replace (Z.lor (2 ^ 63) (last * 2 ^ 24)) with ((2 ^ 39 + last) * 2 ^ 24).
  2: { replace (2 ^ 63) with (1 * 2 ^ 63) by lia. rewrite lor_disjoint by lia. lia. }
  rewrite lor_disjoint by lia. split; [lia |]. f_equal.
  - rewrite Z.shiftr_div_pow2, Z.div_add_l, Z.div_small by lia.
    replace (2 ^ 39 + last + 0) with (last + 1 * 2 ^ 39) by lia.
    rewrite Z.mod_add, Z.mod_small by lia. done.
  - rewrite (Z.add_comm _ e), Z.mod_add, Z.mod_small by lia. done.
Qed.

(** ** The rate a bucket admits *)

(** Requests admitted one after another against one bucket word. *)
Inductive admitted : Z → list request → Z → Prop :=
  | admitted_nil w : admitted w [] w
  | admitted_snoc w l w' r w'' d :
      admitted w l w' → bump_word r w' = (w'', d) → d ≠ Reject → admitted w (l ++ [r]) w''.

(** The requests share a zone and a location, and their times fit the packed
    word. *)
Definition same_limits (rt b : Z) (l : list request) : Prop :=
  Forall (λ r, rate r = rt ∧ burst r = b ∧ 0 ≤ now_ms r < 2 ^ 39) l.

Lemma step_excess prev el rt b nd da excess d :
  0 ≤ prev < 2 ^ 32 → 0 ≤ rt < 2 ^ 64 → 0 ≤ el < 2 ^ 55 → b < 2 ^ 32 →
  step prev el rt b nd da = (excess, d) → d ≠ Reject →
  0 ≤ excess ≤ b ∧ prev - rt * el / 1000 + 1000 ≤ excess.
Proof.
  intros Hp Hr He Hb. unfold step, wrap, i128_max, SCALE.
  assert (0 ≤ rt * el < 2 ^ 119) by nia.
  rewrite Z.min_l by lia. assert (0 ≤ rt * el / 1000) by (apply Z.div_pos; lia).
  rewrite Z.mod_small by lia.
  repeat case_decide; intros [= <- <-]; try done; lia.
Qed.

(** The excess a bucket word stands for, and the time it was written. *)
Definition excess_of (w : Z) : Z := if decide (w = 0) then 0 else snd (unpack w).
Definition last_of (w : Z) : Z := fst (unpack w).

Lemma bump_word_spec r w w' d :
  bump_word r w = (w', d) → d ≠ Reject → 0 ≤ rate r < 2 ^ 64 → burst r ≤ EXCESS_MASK →
  0 ≤ now_ms r < 2 ^ 39 → (w = 0 ∨ 0 ≤ last_of w ∧ 0 ≤ excess_of w ≤ EXCESS_MASK) →
  w' ≠ 0 ∧ last_of w' = now_ms r ∧ 0 ≤ excess_of w' ≤ burst r ∧
  (w ≠ 0 → excess_of w - rate r * (now_ms r ∸ last_of w) / 1000 + 1000 ≤ excess_of w').
Proof.
  intros Hb Hd Hrt Hburst Hnow Hw. change EXCESS_MASK with (2 ^ 24 - 1) in *.
  unfold bump_word, bump_step in Hb.
  assert (∀ prev el excess dd, step prev el (rate r) (burst r) (nodelay r) (delay_after r) = (excess, dd) →
    (let '(e, x) := (excess, dd) in
      if decide (x = Reject) then (w, x) else (pack (now_ms r) e, x)) = (w', d) →
    0 ≤ prev < 2 ^ 32 → 0 ≤ el < 2 ^ 55 →
    w' ≠ 0 ∧ last_of w' = now_ms r ∧ 0 ≤ excess_of w' ≤ burst r ∧
    prev - rate r * el / 1000 + 1000 ≤ excess_of w') as Hgen.
  { intros prev el excess dd Hs Heq Hp Hel. case_decide; [naive_solver |]. injection Heq as <- <-.
    apply step_excess in Hs as [He1 He2]; [|lia|lia|lia|lia|done].
    destruct (pack_fields (now_ms r) excess) as [Hne Hun]; [done | lia |].
    unfold last_of, excess_of. rewrite Hun, decide_False by done. cbn [fst snd].
    change EXCESS_MASK with (2 ^ 24 - 1). split_and!; try done; lia. }
  destruct (decide (w = 0)) as [Hz|Hz].
  - destruct (step 0 FRESH _ _ _ _) as [e dd] eqn:Hs.
    destruct (Hgen _ _ _ _ Hs Hb) as (? & ? & ? & _); [lia | change FRESH with 18446744073709551; lia |].
    split_and!; done || lia.
  - destruct Hw as [|[Hl He]]; [done |].
    assert (excess_of w = snd (unpack w)) as Hex by (unfold excess_of; by rewrite decide_False).
    rewrite Hex in *. unfold last_of in Hl |- * at 2.
    destruct (unpack w) as [last excess]. cbn [fst snd] in *.
    destruct (step excess _ _ _ _ _) as [e dd] eqn:Hs.
    destruct (Hgen _ _ _ _ Hs Hb) as (? & ? & ? & ?); [lia | unfold saturating_sub; lia |].
    split_and!; done || lia.
Qed.

Fixpoint in_order (t : Z) (l : list request) : Prop :=
  match l with
  | [] => True
  | r :: l => t ≤ now_ms r ∧ in_order (now_ms r) l
  end.

Definition last_time (t : Z) (l : list request) : Z := default t (now_ms <$> last l).

(** How far the requests' clock moves forward, each step back left out: it is
    what the bucket takes for the time they need. *)
Fixpoint forward (t : Z) (l : list request) : Z :=
  match l with
  | [] => 0
  | r :: l => Z.max 0 (now_ms r - t) + forward (now_ms r) l
  end.

Lemma last_time_cons t r l : last_time t (r :: l) = last_time (now_ms r) l.
Proof. unfold last_time. rewrite last_cons. by destruct (last l). Qed.

Lemma forward_snoc t l r : forward t (l ++ [r]) = forward t l + Z.max 0 (now_ms r - last_time t l).
Proof.
  revert t. induction l as [|x l IH]; intros t; [cbn; lia |].
  cbn [app forward]. rewrite IH, last_time_cons. lia.
Qed.

Lemma forward_in_order t l : in_order t l → forward t l = last_time t l - t.
Proof.
  revert t. induction l as [|x l IH]; intros t; [cbn; lia |].
  intros [Hx Hl]. cbn [forward]. rewrite IH, last_time_cons by done. lia.
Qed.

Lemma last_time_in_range rt b t l : same_limits rt b l → 0 ≤ t → 0 ≤ last_time t l.
Proof.
  unfold last_time, same_limits. intros Hl Ht. destruct (last l) as [r|] eqn:E; [|done].
  apply last_Some in E as [l' ->]. apply Forall_app in Hl as [_ Hl].
  apply Forall_cons in Hl as [(_ & _ & ?) _]. cbn. lia.
Qed.

(** The heart of the bound: admitting [n] requests costs [n] times 1000 of
    excess, paid by the drain over the time they take and by the burst. *)
Lemma admitted_bound rt b w l w' t :
  admitted w l w' → same_limits rt b l →
  0 ≤ rt < 2 ^ 64 → b ≤ EXCESS_MASK →
  w ≠ 0 → last_of w = t → 0 ≤ t → 0 ≤ excess_of w ≤ EXCESS_MASK →
  w' ≠ 0 ∧ last_of w' = last_time t l ∧ 0 ≤ excess_of w' ≤ EXCESS_MASK ∧
  (l ≠ [] → excess_of w' ≤ b) ∧
  1000 * (1000 * Z.of_nat (length l)) + 1000 * excess_of w ≤
    1000 * excess_of w' + rt * forward t l.
Proof.
  intros Ha Hs Hrt Hb Hw Ht Htpos He.
  induction Ha as [w|w l w1 r w2 d Ha IH Hbw Hd].
  - unfold last_time. cbn. split_and!; try done; lia.
  - apply Forall_app in Hs as [Hs Hr]. apply Forall_cons in Hr as [(Hr1 & Hr2 & Hr3) _].
    destruct IH as (Hne & Hlast & He1 & _ & Hsum); [done..|].
    pose proof (last_time_in_range rt b t l Hs Htpos).
    destruct (bump_word_spec r w1 w2 d Hbw Hd) as (Hne2 & Hl2 & He2 & Hstep);
      [lia | lia | done | right; lia |].
    specialize (Hstep Hne). rewrite Hlast, Hr1 in Hstep. unfold saturating_sub in Hstep.
    assert (last_time t (l ++ [r]) = now_ms r) as -> by (unfold last_time; by rewrite last_snoc).
    rewrite forward_snoc, length_app. cbn [length].
    pose proof (Z.mul_div_le (rt * Z.max 0 (now_ms r - last_time t l)) 1000 ltac:(lia)).
    split_and!; try done; try lia.
Qed.

Lemma admitted_cons_inv w r l w2 :
  admitted w (r :: l) w2 →
  ∃ w1 d, bump_word r w = (w1, d) ∧ d ≠ Reject ∧ admitted w1 l w2.
Proof.
  intros H. remember (r :: l) as rl eqn:E. revert r l E.
  induction H as [w|w l1 w1 r1 w2 d1 Ha IH Hb Hd]; intros r l E; [done |].
  destruct l1 as [|r' l1].
  - cbn in E. injection E as -> <-. inversion Ha; subst; [|by destruct l].
    exists w2, d1. split_and!; [done | done | constructor].
  - cbn in E. injection E as -> <-. destruct (IH r l1 eq_refl) as (w' & d & H1 & H2 & H3).
    exists w', d. split_and!; [done | done |]. by eapply admitted_snoc.
Qed.

(** ** The table under concurrency *)

Record system := mkSystem { mem : memory; threads : list thread }.

Definition run_thread (k : nat) (s : system) : system :=
  match threads s !! k with
  | Some t =>
      let '(pc, m) := thread_step (mem s) t in
      mkSystem m (<[k := mkThread (t_req t) pc]> (threads s))
  | None => s
  end.

Inductive sys_step : system → system → Prop :=
  | step_arrive s r : sys_step s (mkSystem (mem s) (threads s ++ [mkThread r (Probe 0 None)]))
  | step_run s k : sys_step s (run_thread k s).

Definition empty_memory (slots : nat) : memory := mkMemory (replicate slots 0) (replicate slots 0).
Definition init (slots : nat) : system := mkSystem (empty_memory slots) [].
Definition reachable (slots : nat) (s : system) : Prop := rtc sys_step (init slots) s.

(** What the turn of thread [k] does to a bucket: a slot that changes hands is
    emptied, and a request is admitted on one. *)
Definition happens (k : nat) (s : system) : list (nat * option request) :=
  match threads s !! k with
  | Some t =>
      match t_pc t with
      | Clear i => [(i, None)]
      | BumpCas i cur => if decide (nth i (states (mem s)) 0 = cur) then [(i, Some (t_req t))] else []
      | _ => []
      end
  | None => []
  end.

(** A run of the table: a request arrives, or a thread takes a turn. *)
Inductive event := Arrives (r : request) | Turn (k : nat).

Definition react (s : system) (e : event) : system :=
  match e with
  | Arrives r => mkSystem (mem s) (threads s ++ [mkThread r (Probe 0 None)])
  | Turn k => run_thread k s
  end.

Definition seen (s : system) (e : event) : list (nat * option request) :=
  match e with Arrives _ => [] | Turn k => happens k s end.

Fixpoint history (es : list event) (s : system) : list (nat * option request) :=
  match es with
  | [] => []
  | e :: es => seen s e ++ history es (react s e)
  end.

(** The requests admitted on slot [i] since it was last emptied, in the order
    of their exchanges. *)
Definition note (i : nat) (l : list request) (h : nat * option request) : list request :=
  if decide (fst h = i) then match snd h with Some r => l ++ [r] | None => [] end else l.

Definition admitted_on (i n : nat) (es : list event) : list request :=
  foldl (note i) [] (history es (init n)).

(** A thread about to exchange has computed an admission. *)
Definition thread_ok (t : thread) : Prop :=
  match t_pc t with
  | BumpCas _ cur => snd (bump_step (t_req t) cur) ≠ Reject
  | _ => True
  end.

Lemma thread_step_ok m t pc m' :
  thread_ok t → thread_step m t = (pc, m') → thread_ok (mkThread (t_req t) pc).
Proof.
  intros Ht. unfold thread_step, thread_ok, next_probe in *.
  destruct (t_pc t) as [| | | | | |i| | |];
    try (repeat case_match; intros; simplify_eq; done).
  destruct (bump_step _ _) as [e d] eqn:Hb. case_decide; intros [= <- <-]; cbn; [done |].
  by rewrite Hb.
Qed.

Lemma react_ok s e : Forall thread_ok (threads s) → Forall thread_ok (threads (react s e)).
Proof.
  intros Hs. destruct e as [r|k]; cbn.
  - apply Forall_app. split; [done |]. by repeat constructor.
  - unfold run_thread. destruct (threads s !! k) as [t|] eqn:Hk; [|done].
    destruct (thread_step (mem s) t) as [pc m] eqn:Hstep. cbn. apply Forall_insert; [done |].
    eapply thread_step_ok; [|exact Hstep]. by eapply Forall_lookup_1.
Qed.

Lemma history_reachable_ok n s : reachable n s → Forall thread_ok (threads s).
Proof.
  unfold reachable. intros H. cut (Forall thread_ok (threads (init n)) → Forall thread_ok (threads s));
    [intros Hc; apply Hc; constructor |].
  induction H as [|x y z Hxy _ IH]; [done |]. intros Hx. apply IH.
  destruct Hxy as [s r|s k]; [by apply (react_ok s (Arrives r)) | by apply (react_ok s (Turn k))].
Qed.

Lemma bump_word_of_step r cur w d :
  bump_word r cur = (w, d) → snd (bump_step r cur) ≠ Reject → d ≠ Reject.
Proof.
  unfold bump_word. destruct (bump_step r cur) as [e d']. cbn. intros Hb Hd.
  rewrite decide_False in Hb by done. by injection Hb as _ <-.
Qed.

(** The word of a slot is what the requests admitted on it since it was last
    emptied make of an empty bucket. *)
Lemma word_of_admissions i s e l :
  (i < length (states (mem s)))%nat → Forall thread_ok (threads s) → admitted 0 l (nth i (states (mem s)) 0) →
  admitted 0 (foldl (note i) l (seen s e)) (nth i (states (mem (react s e))) 0) ∧
  length (states (mem (react s e))) = length (states (mem s)).
Proof.
  intros Hi Hok Ha. destruct e as [r|k]; [done |]. cbn [seen react]. unfold happens, run_thread.
  destruct (threads s !! k) as [t|] eqn:Hk; [|done].
  pose proof (Forall_lookup_1 _ _ _ _ Hok Hk) as Ht. unfold thread_ok in Ht.
  assert (∀ j v, nth i (<[j:=v]> (states (mem s))) 0 = if decide (j = i) then v else nth i (states (mem s)) 0) as Hins.
  { intros j v. rewrite !nth_lookup. case_decide; subst; [by rewrite list_lookup_insert_eq |].
    by rewrite list_lookup_insert_ne. }
  unfold thread_step. destruct (t_pc t) as [| | | |j| | |j cur| |] eqn:Hpc;
    try (repeat case_match; simplify_eq; done).
  - cbn [mem states foldl]. unfold note. cbn [fst snd]. rewrite Hins, length_insert. split; [|done].
    case_decide; [constructor | done].
  - destruct (decide (nth j (states (mem s)) 0 = cur)) as [Hc|Hc]; [|done].
    destruct (bump_word (t_req t) cur) as [w d] eqn:Hb. cbn [mem states foldl]. unfold note. cbn [fst snd].
    rewrite Hins, length_insert. split; [|done]. case_decide; [subst j | done].
    rewrite <- Hc in *. eapply admitted_snoc; [done | done |]. by eapply bump_word_of_step.
Qed.

Lemma history_admitted i n es : (i < n)%nat → ∃ w, admitted 0 (admitted_on i n es) w.
Proof.
  intros Hi. unfold admitted_on.
  cut (∀ s l, (i < length (states (mem s)))%nat → Forall thread_ok (threads s) →
    admitted 0 l (nth i (states (mem s)) 0) → ∃ w, admitted 0 (foldl (note i) l (history es s)) w).
  { intros H. apply H; cbn; [by rewrite length_replicate | constructor |].
    rewrite nth_lookup, lookup_replicate_2 by done. constructor. }
  induction es as [|e es IH]; intros s l Hs Hok Ha; [by eexists |].
  cbn [history]. rewrite foldl_app. destruct (word_of_admissions i s e l Hs Hok Ha) as [Ha' Hlen].
  apply IH; [by rewrite Hlen | by apply react_ok | done].
Qed.

(** A request that is let through is either in the history of its slot, or it
    was evicted from it before it could be counted. *)
Lemma admission_is_seen k s t d :
  threads s !! k = Some t → (∀ d', t_pc t ≠ Done d') → Forall thread_ok (threads s) →
  t_pc <$> threads (run_thread k s) !! k = Some (Done d) → d ≠ Reject →
  (∃ i, happens k s = [(i, Some (t_req t))]) ∨ d = evicted (t_req t).
Proof.
  intros Hk Hnew Hok. pose proof (lookup_lt_Some _ _ _ Hk) as Hlt.
  pose proof (Forall_lookup_1 _ _ _ _ Hok Hk) as Ht. unfold thread_ok in Ht.
  unfold run_thread, happens. rewrite Hk. destruct (thread_step (mem s) t) as [pc m] eqn:E. cbn [threads].
  rewrite list_lookup_insert_eq by done. cbn. intros [= ->] Hd. unfold thread_step, next_probe in E.
  destruct (t_pc t) as [| | | | |i|i|i cur|d'|] eqn:Hpc; try (repeat case_match; simplify_eq; done).
  - case_decide; simplify_eq. by right.
  - destruct (decide (nth i (states (mem s)) 0 = cur)); [|by simplify_eq]. left. by exists i.
  - by destruct (Hnew d').
Qed.

(** ** Properties *)

(** C35. The rate of a slot. Whatever the workers interleave, of the requests
    that a slot of the table has admitted since it was last emptied - all of
    one rate and burst, the burst at most the 16777.215 requests that fit the
    packed word - there are at most one, plus the burst, plus what the rate
    drains in the time their clock moves forward, in milli-requests
    [1000 * (n - 1) <= burst + rate * forward / 1000]. When their times are in
    order that time is the last less the first; out of order it is more
    ([clock_that_steps_back]), and a larger burst is no limit at all
    ([large_burst_never_rejects]). *)
Theorem rate_bound i n es rt b r l :
  (i < n)%nat → admitted_on i n es = r :: l → same_limits rt b (r :: l) →
  0 ≤ rt < 2 ^ 64 → 0 ≤ b ≤ EXCESS_MASK →
  1000 * (1000 * Z.of_nat (length l)) ≤ 1000 * b + rt * forward (now_ms r) l ∧
  (in_order (now_ms r) l → forward (now_ms r) l = last_time (now_ms r) l - now_ms r).
Proof.
  intros Hi Hl Hs Hrt Hb. split; [|apply forward_in_order].
  destruct (history_admitted i n es Hi) as [w' Ha]. rewrite Hl in Ha.
  apply admitted_cons_inv in Ha as (w1 & d & Hbw & Hd & Ha).
  apply Forall_cons in Hs as [(Hr1 & Hr2 & Hr3) Hs].
  destruct (bump_word_spec r 0 w1 d Hbw Hd) as (Hne & Hlast & He & _); [lia | lia | done | by left |].
  destruct (admitted_bound rt b w1 l w' (now_ms r)) as (_ & _ & _ & Hle & Hsum); try done; try lia.
  destruct l as [|r' l]; [cbn; lia |]. specialize (Hle ltac:(done)). lia.
Qed.

(** Ten requests a second with a burst of two: of five at once three are
    admitted. *)
Definition five_at_once : list event :=
  mjoin (replicate 5 [Arrives (mkRequest 1 5 10000 2000 true 0)]) ++
  mjoin ((λ k, [Turn k; Turn k; Turn k; Turn k; Turn k; Turn k]) <$> seq 0 5).

Lemma rate_bound_witness :
  let r := mkRequest 1 5 10000 2000 true 0 in
  admitted_on 1 64 five_at_once = [r; r; r] ∧ 1000 * (1000 * 2) ≤ 1000 * 2000 + 10000 * forward 5 [r; r].
Proof.
  intros r. assert (admitted_on 1 64 five_at_once = [r; r; r]) as H by (vm_compute; reflexivity). split; [exact H |].
  assert (same_limits 10000 2000 [r; r; r]) as Hs 
    by (unfold same_limits; rewrite !Forall_cons, Forall_nil; cbn; lia).
  destruct (rate_bound 1 64 five_at_once 10000 2000 r [r; r] ltac:(lia) H Hs) as [Hb _]; [by split | by split |].
  exact Hb.
Defined.

(** A request whose time is before that of the last admitted moves the clock of
    its bucket back, and what was drained is drained again: of requests that
    come, from two workers, at 11 and 10 milliseconds in turn, eleven are
    admitted where a millisecond and the burst are good for seven. *)
Definition there_and_back : list event :=
  mjoin ((λ k, [Arrives (mkRequest 1 (if Nat.even k then 11 else 10) 1000000 5000 true 0);
                Turn k; Turn k; Turn k; Turn k; Turn k; Turn k]) <$> seq 0 11).

Example clock_that_steps_back :
  length (admitted_on 1 64 there_and_back) = 11%nat ∧
  (1000 * 5000 + 1000000 * (11 - 10)) / 1000000 + 1 = 7.
Proof. vm_compute. done. Qed.

(** Accounting is exact under races: whatever the interleaving, a bucket
    word changes only by being cleared when its slot changes hands, or by the
    leaky-bucket step of a request that is then answered with that step's
    admission. *)
Theorem bucket_changes n s k t :
  reachable n s → threads s !! k = Some t →
  let '(pc, m) := thread_step (mem s) t in
  states m = states (mem s) ∨
  (∃ i, t_pc t = Clear i ∧ states m = <[i := 0]> (states (mem s))) ∨
  (∃ i w d, bump_word (t_req t) (nth i (states (mem s)) 0) = (w, d) ∧ d ≠ Reject ∧
            pc = Done d ∧ states m = <[i := w]> (states (mem s))).
Proof.
  intros Hr Hk. apply history_reachable_ok in Hr. pose proof (Forall_lookup_1 _ _ _ _ Hr Hk) as Ht.
  unfold thread_ok in Ht. destruct (thread_step (mem s) t) as [pc m] eqn:E. unfold thread_step in E.
  destruct (t_pc t) as [| | | |i| | |i cur| |];
    try (left; repeat case_match; simplify_eq; done).
  - injection E as <- <-. right; left. by exists i.
  - case_decide as Hc; [|left; by simplify_eq].
    destruct (bump_word (t_req t) cur) as [w d] eqn:Hb. injection E as <- <-.
    right; right. exists i, w, d. rewrite Hc. split_and!; try done.
    unfold bump_word in Hb. destruct (bump_step _ _) as [e dd]. cbn in Ht. case_decide; [done |].
    by injection Hb as _ <-.
Qed.

Lemma bucket_changes_witness :
  let r := mkRequest 5 7 1000 0 true 0 in
  let s := Nat.iter 5 (run_thread 0) (mkSystem (empty_memory 64) [mkThread r (Probe 0 None)]) in
  t_pc <$> threads s !! O = Some (BumpCas 5 0) ∧
  let '(pc, m) := thread_step (mem s) (mkThread r (BumpCas 5 0)) in
  states m = states (mem s) ∨
  (∃ i, BumpCas 5 0 = Clear i ∧ states m = <[i := 0]> (states (mem s))) ∨
  (∃ i w d, bump_word r (nth i (states (mem s)) 0) = (w, d) ∧ d ≠ Reject ∧
            pc = Done d ∧ states m = <[i := w]> (states (mem s))).
Proof.
  intros r s. split; [reflexivity |].
  apply (bucket_changes 64 s O (mkThread r (BumpCas 5 0))); [|reflexivity].
  unfold reachable, s. cbn [Nat.iter]. do 5 (eapply rtc_r; [|apply step_run]).
  eapply rtc_r; [|apply (step_arrive (init 64) r)]. apply rtc_refl.
Defined.

(** A burst of 16,778 requests or more switches the limit off: the
    excess is clamped to 24 bits when it is stored, so it never passes the
    burst, and any number of requests is admitted in one millisecond. *)
Theorem large_burst_never_rejects r n :
  EXCESS_MASK + SCALE ≤ burst r < 2 ^ 64 → nodelay r = true → 0 ≤ rate r < 2 ^ 64 →
  0 ≤ now_ms r < 2 ^ 39 → ∃ w, admitted 0 (replicate n r) w.
Proof.
  intros Hb Hnd Hrt Hnow.
  assert (∀ w, (w = 0 ∨ last_of w = now_ms r ∧ 0 ≤ excess_of w ≤ EXCESS_MASK) →
    ∃ w', bump_word r w = (w', Pass) ∧ last_of w' = now_ms r ∧ 0 ≤ excess_of w' ≤ EXCESS_MASK) as Hgo.
  { intros w Hw. unfold bump_word, bump_step.
    assert (∀ prev el, 0 ≤ prev ≤ EXCESS_MASK → 0 ≤ el < 2 ^ 55 →
      ∃ e, step prev el (rate r) (burst r) (nodelay r) (delay_after r) = (e, Pass) ∧ 0 ≤ e) as Hstep.
    { intros prev el Hp He. unfold step, wrap, SCALE, i128_max in *. change EXCESS_MASK with (2 ^ 24 - 1) in *.
      assert (0 ≤ Z.min (rate r * el) (2 ^ 127 - 1) / 1000) by (apply Z.div_pos; nia).
      rewrite Z.mod_small by lia. rewrite decide_False by lia.
      rewrite decide_True by auto. eexists. split; [done | lia]. }
    destruct (decide (w = 0)) as [Hz|Hz].
    - destruct (Hstep 0 FRESH) as (e & -> & He); [done | by vm_compute |].
      rewrite (decide_False (P := Pass = Reject)) by done.
      destruct (pack_fields (now_ms r) e) as [Hne Hu]; [done | done |].
      eexists. split; [done |]. unfold last_of, excess_of. rewrite decide_False, Hu by done.
      cbn [fst snd]. split; [done |]. change EXCESS_MASK with (2 ^ 24 - 1). lia.
    - destruct Hw as [|[Hl He]]; [done |]. unfold excess_of, last_of in *.
      rewrite decide_False in He by done. destruct (unpack w) as [last excess]. cbn [fst snd] in *.
      destruct (Hstep excess (now_ms r ∸ last)) as (e & -> & He');
        [done | unfold saturating_sub; lia |].
      rewrite (decide_False (P := Pass = Reject)) by done.
      destruct (pack_fields (now_ms r) e) as [Hne Hu]; [done | done |].
      eexists. split; [done |]. rewrite decide_False, Hu by done.
      cbn [fst snd]. split; [done |]. change EXCESS_MASK with (2 ^ 24 - 1). lia. }
  cut (∃ w, admitted 0 (replicate n r) w ∧
    (w = 0 ∨ last_of w = now_ms r ∧ 0 ≤ excess_of w ≤ EXCESS_MASK)); [naive_solver |].
  induction n as [|n (w & Hw & Hinv)]; [exists 0; split; [constructor | by left] |].
  destruct (Hgo w Hinv) as (w' & Hb' & Hinv'). exists w'. split; [|by right].
  rewrite replicate_S_end. by eapply admitted_snoc.
Qed.

Lemma large_burst_never_rejects_witness :
  ∃ w, admitted 0 (replicate (Z.to_nat 20000) (mkRequest 1 0 1000 (20000 * SCALE) true 0)) w.
Proof. apply large_burst_never_rejects; by vm_compute. Defined.

(** ** A race the probe does not survive *)

(** A request (thread 16) whose every claim in its window is lost to another
    key never sees an occupied slot's state, so it has no stalest slot. *)
Definition lost_claims : system :=
  let arrive k s := mkSystem (mem s) (threads s ++ [mkThread (mkRequest (Z.of_nat k) 0 1000 0 true 0) (Probe 0 None)]) in
  let s := foldl (λ s k, arrive (128 + k)%nat s) (init 64) (seq 0 16) in
  foldl (λ s k, run_thread 16 (run_thread k (run_thread k (run_thread 16 s)))) (arrive 64%nat s) (seq 0 16).

(** The [expect] at the end of the probe ("PROBE > 0 means at least one
    candidate") can fail: a worker that loses the race for every empty slot
    of its window has seen no candidate, and panics. *)
Theorem probe_can_panic :
  reachable 64 lost_claims ∧ t_pc <$> threads lost_claims !! 16%nat = Some Panicked.
Proof.
  split; [|by vm_compute].
  assert (∀ (l : list nat) f s, (∀ s k, reachable 64 s → reachable 64 (f s k)) → reachable 64 s →
    reachable 64 (foldl f s l)) as Hfold.
  { intros l f. induction l as [|x l IH]; intros s Hf Hs; cbn; [done |]. apply IH; eauto. }
  assert (∀ s k, reachable 64 s → reachable 64 (run_thread k s)) as Hrun.
  { intros s k Hs. eapply rtc_r; [exact Hs | apply step_run]. }
  unfold lost_claims. apply Hfold; [eauto |].
  eapply rtc_r; [|apply step_arrive]. apply Hfold; [|apply rtc_refl].
  intros s k Hs. eapply rtc_r; [exact Hs | apply step_arrive].
Qed.
