(* ===== verification/LimitConn.v ===== *)
(** * [src/server/limit_conn.rs] and [src/server/shm.rs]: the connection limiter

    A zone is a shared array of 64-bit words, one slot a key: 48 bits of tag
    over 16 bits of count.  Workers race on it, so the model is a transition
    system: a thread is one request, its program counter says between which
    two atomic operations it stands, and a step is one atomic load or
    compare-exchange on one word together with the local code up to the next
    one.  Every operation is on a single word, and each word's operations are
    totally ordered, so interleaving them is what the hardware does. *)
From S2P Require Import Prelude.

Open Scope Z_scope.

(** ** The code *)

Definition PROBE : nat := 16.
Definition MAX_CONNS : Z := 65535.
Definition COUNT_BITS : Z := 16.
Definition COUNT_MASK : Z := Z.shiftl 1 COUNT_BITS - 1.

Definition pack (tag count : Z) : Z :=
  Z.lor (wrap 64 (Z.shiftl tag COUNT_BITS)) (Z.land count COUNT_MASK).
Definition tag_of (w : Z) : Z := Z.shiftr w COUNT_BITS.
Definition count_of (w : Z) : Z := Z.land w COUNT_MASK.

(** [n.next_power_of_two()], for the sizes a zone may have. *)
Definition next_power_of_two (n : Z) : Z := 2 ^ Z.log2_up n.

(** The number of slots [Zone::new] maps, all of them zero ([Shared::new]). *)
Definition slots_for (max_entries : Z) : Z := Z.max (next_power_of_two max_entries) 64.

Definition new (max_entries : Z) : list Z := replicate (Z.to_nat (slots_for max_entries)) 0.

Definition FNV_PRIME : Z := 0x100000001b3.

(** FNV-1a over the seed and the key, folded into 48 bits. *)
Definition fnv (seed : Z) (key : bytes) : Z :=
  foldl (λ h b, wrap 64 (Z.lxor h (u8 b) * FNV_PRIME)) (Z.lxor 0xcbf29ce484222325 seed) key.

Definition tag (seed : Z) (key : bytes) : Z :=
  let h := fnv seed key in
  let t := Z.land (Z.lxor h (Z.shiftr h 48)) (Z.shiftl 1 48 - 1) in
  if decide (t = 0) then 1 else t.

(** Where a request stands: in [acquire]'s probe (about to load, or about to
    claim an empty slot), in [increment], in the takeover, holding its guard,
    in [release], or done. *)
Inductive pc :=
  | Probe (p : nat) (reusable : option nat)
  | Claim (p : nat) (reusable : option nat)
  | IncLoad (i : nat)
  | IncCas (i : nat) (w : Z)
  | TakeLoad (i : nat)
  | TakeCas (i : nat) (w : Z)
  | Holding (i : nat)
  | RelLoad (i : nat)
  | RelCas (i : nat) (w : Z)
  | Refused
  | Released.

#[export] Instance pc_eq_dec : EqDecision pc.
Proof. solve_decision. Defined.

Record thread := mkThread { t_tag : Z; t_limit : Z; t_pc : pc }.

(** A request for [key] enters [acquire]; [limit.min(MAX_CONNS)]. *)
Definition start_acquire (tg limit : Z) : thread :=
  mkThread tg (Z.min limit MAX_CONNS) (Probe 0 None).

Definition load (mem : list Z) (i : nat) : Z := nth i mem 0.

Definition slot_index (mem : list Z) (tg : Z) (p : nat) : nat :=
  let mask := Z.of_nat (length mem) - 1 in
  let start := Z.land tg mask in
  Z.to_nat (Z.land (start + Z.of_nat p) mask).

(** The end of a turn of the probe loop. *)
Definition next_probe (p : nat) (reusable : option nat) : pc :=
  if decide (S p < PROBE)%nat then Probe (S p) reusable
  else match reusable with Some i => TakeLoad i | None => Refused end.

(** One atomic step of a thread: its new program counter and the memory. *)
Definition step (mem : list Z) (t : thread) : pc * list Z :=
  let tg := t_tag t in
  match t_pc t with
  | Probe p reusable =>
      let i := slot_index mem tg p in
      let w := load mem i in
      if decide (w = 0) then (Claim p reusable, mem)
      else if decide (tag_of w = tg) then (IncLoad i, mem)
      else
        let reusable :=
          if decide (reusable = None ∧ count_of w = 0) then Some i else reusable in
        (next_probe p reusable, mem)
  | Claim p reusable =>
      let i := slot_index mem tg p in
      let w := load mem i in
      if decide (w = 0) then (Holding i, <[i := pack tg 1]> mem)
      else if decide (tag_of w = tg) then (IncLoad i, mem)
      else (next_probe p reusable, mem)
  | IncLoad i =>
      let w := load mem i in
      if decide (w ≠ 0 ∧ tag_of w ≠ tg) then (Refused, mem)
      else if decide (t_limit t ≤ count_of w ∨ COUNT_MASK ≤ count_of w) then (Refused, mem)
      else (IncCas i w, mem)
  | IncCas i w =>
      if decide (load mem i = w) then (Holding i, <[i := pack tg (count_of w + 1)]> mem)
      else (IncLoad i, mem)
  | TakeLoad i =>
      let w := load mem i in
      if decide (count_of w = 0) then (TakeCas i w, mem) else (Refused, mem)
  | TakeCas i w =>
      if decide (load mem i = w) then (Holding i, <[i := pack tg 1]> mem) else (Refused, mem)
  | Holding i => (RelLoad i, mem)
  | RelLoad i =>
      let w := load mem i in
      if decide (tag_of w ≠ tg ∨ count_of w = 0) then (Released, mem) else (RelCas i w, mem)
  | RelCas i w =>
      if decide (load mem i = w) then (Released, <[i := pack tg (count_of w - 1)]> mem)
      else (RelLoad i, mem)
  | Refused => (Refused, mem)
  | Released => (Released, mem)
  end.

Record system := mkSystem { mem : list Z; threads : list thread }.

(** Thread [k] runs to its next atomic operation. *)
Definition run_thread (k : nat) (s : system) : system :=
  match threads s !! k with
  | Some t =>
      let '(pc, m) := step (mem s) t in
      mkSystem m (<[k := mkThread (t_tag t) (t_limit t) pc]> (threads s))
  | None => s
  end.

(** Any request may arrive at any time, and any thread may run next. *)
Inductive sys_step : system → system → Prop :=
  | step_spawn s tg limit :
      1 ≤ tg < 2 ^ 48 →
      sys_step s (mkSystem (mem s) (threads s ++ [start_acquire tg limit]))
  | step_run s k : sys_step s (run_thread k s).

Definition init (max_entries : Z) : system := mkSystem (new max_entries) [].

(** [Zone::count]: what a quiet zone reports for a tag. *)
Fixpoint count_loop (n : nat) (p : nat) (m : list Z) (tg : Z) : Z :=
  match n with
  | O => 0
  | S n =>
      let w := load m (slot_index m tg p) in
      if decide (w = 0) then 0
      else if decide (tag_of w = tg) then count_of w
      else count_loop n (S p) m tg
  end.

Definition count (m : list Z) (tg : Z) : Z := count_loop PROBE 0 m tg.

(** [Zone::active] *)
Definition active (m : list Z) : nat := length (filter (λ w, count_of w ≠ 0) m).

(** ** Words *)

Lemma count_mask : COUNT_MASK = 2 ^ 16 - 1.
Proof. reflexivity. Qed.

Lemma count_of_mod w : count_of w = w mod 2 ^ 16.
Proof. unfold count_of. rewrite count_mask. by apply land_mask. Qed.

Lemma pack_word tg c :
  0 ≤ tg < 2 ^ 48 → 0 ≤ c ≤ COUNT_MASK →
  tag_of (pack tg c) = tg ∧ count_of (pack tg c) = c.
Proof.
  rewrite count_mask. intros Ht Hc. rewrite count_of_mod. unfold pack, tag_of, COUNT_BITS, wrap.
  rewrite count_mask, land_mask, (Z.mod_small c) by lia.
  rewrite Z.shiftl_mul_pow2, Z.mod_small by lia.
  rewrite lor_disjoint, Z.shiftr_div_pow2 by lia. split.
  - rewrite Z.div_add_l, Z.div_small by lia. lia.
  - rewrite Z.add_comm, Z.mod_add, Z.mod_small by lia. done.
Qed.

Lemma tag_range seed key : 1 ≤ tag seed key < 2 ^ 48.
Proof.
  unfold tag. case_decide as H; [lia |]. change (Z.shiftl 1 48 - 1) with (2 ^ 48 - 1) in *.
  rewrite land_mask in * by lia. pose proof (Z.mod_pos_bound (Z.lxor (fnv seed key)
    (Z.shiftr (fnv seed key) 48)) (2 ^ 48)). lia.
Qed.

Lemma count_of_range w : 0 ≤ count_of w ≤ COUNT_MASK.
Proof. rewrite count_of_mod, count_mask. pose proof (Z.mod_pos_bound w (2 ^ 16)). lia. Qed.

(** ** The invariant *)

(** The slot whose count a thread has incremented and not yet given back. *)
Definition holds (t : thread) : option nat :=
  match t_pc t with
  | Holding i | RelLoad i | RelCas i _ => Some i
  | _ => None
  end.

Definition holders (i : nat) (ts : list thread) : nat := length (filter (λ t, holds t = Some i) ts).

(** What a thread knows of the word it is about to exchange. *)
Definition thread_ok (n : nat) (t : thread) : Prop :=
  1 ≤ t_tag t < 2 ^ 48 ∧
  match t_pc t with
  | IncCas i w =>
      (i < n)%nat ∧ (w = 0 ∨ tag_of w = t_tag t) ∧ count_of w < t_limit t ∧ count_of w < COUNT_MASK
  | TakeCas i w => (i < n)%nat ∧ count_of w = 0
  | RelCas i w => (i < n)%nat ∧ tag_of w = t_tag t ∧ 0 < count_of w
  | IncLoad i | TakeLoad i | Holding i | RelLoad i => (i < n)%nat
  | Probe _ (Some i) | Claim _ (Some i) => (i < n)%nat
  | _ => True
  end.

Definition sys_ok (s : system) : Prop :=
  (∃ k, Z.of_nat (length (mem s)) = 2 ^ k ∧ 0 ≤ k) ∧
  Forall (thread_ok (length (mem s))) (threads s) ∧
  (∀ i, (i < length (mem s))%nat →
     count_of (load (mem s) i) = Z.of_nat (holders i (threads s))) ∧
  (∀ t i, t ∈ threads s → holds t = Some i → tag_of (load (mem s) i) = t_tag t).

Definition at_slot (t : thread) (i : nat) : nat := if decide (holds t = Some i) then 1 else 0.

Lemma holders_app i a b : holders i (a ++ b) = (holders i a + holders i b)%nat.
Proof. unfold holders. by rewrite filter_app, length_app. Qed.

Lemma holders_one i t : holders i [t] = at_slot t i.
Proof. unfold holders, at_slot. rewrite filter_cons, filter_nil. by case_decide. Qed.

(** Replacing one thread changes the holders by that thread alone. *)
Lemma holders_update i ts k t t' :
  ts !! k = Some t →
  (holders i (<[k := t']> ts) + at_slot t i = holders i ts + at_slot t' i)%nat.
Proof.
  intros Hk. pose proof (take_drop_middle _ _ _ Hk) as Hs. rewrite <-Hs.
  assert (k < length ts)%nat as Hlt by by eapply lookup_lt_Some.
  rewrite insert_app_r_alt by (rewrite length_take; lia).
  rewrite length_take, Nat.min_l, Nat.sub_diag by lia. cbn [list_insert].
  rewrite !holders_app. change (t' :: ?l) with ([t'] ++ l).
  change (<[0%nat := t']> (t :: drop (S k) ts)) with ([t'] ++ drop (S k) ts).
  change (t :: drop (S k) ts) with ([t] ++ drop (S k) ts).
  rewrite !holders_app, !holders_one. lia.
Qed.

Lemma load_insert m i v j :
  (i < length m)%nat → load (<[i := v]> m) j = if decide (j = i) then v else load m j.
Proof.
  intros Hi. unfold load. rewrite !nth_lookup. case_decide as H.
  - subst. by rewrite list_lookup_insert_eq.
  - by rewrite list_lookup_insert_ne.
Qed.

Lemma at_slot_idle t i : holds t = None → at_slot t i = O.
Proof. intros H. unfold at_slot. rewrite H. by case_decide. Qed.

Lemma at_slot_holders ts k t i : ts !! k = Some t → (at_slot t i <= holders i ts)%nat.
Proof.
  intros Hk. pose proof (holders_update i ts k t (mkThread 1 0 Refused) Hk) as H.
  rewrite (at_slot_idle (mkThread 1 0 Refused)) in H by done. lia.
Qed.

Lemma two_holders ts k k' t t' i :
  ts !! k = Some t → ts !! k' = Some t' → k ≠ k' →
  (at_slot t i + at_slot t' i <= holders i ts)%nat.
Proof.
  intros Hk Hk' Hne. pose proof (holders_update i ts k t (mkThread 1 0 Refused) Hk) as H.
  rewrite (at_slot_idle (mkThread 1 0 Refused)) in H by done.
  assert (<[k := mkThread 1 0 Refused]> ts !! k' = Some t') as Hi
    by (by rewrite list_lookup_insert_ne).
  apply (at_slot_holders _ _ _ i) in Hi. lia.
Qed.

(** A thread's step keeps the invariant when it moves the count of each slot
    by what the thread itself starts or stops holding there, and changes a
    tag only where nobody else holds. *)
Lemma set_thread_ok s k t t' m' :
  sys_ok s → threads s !! k = Some t → length m' = length (mem s) →
  thread_ok (length (mem s)) t' →
  (∀ j, (j < length (mem s))%nat →
     count_of (load m' j) + Z.of_nat (at_slot t j) =
     count_of (load (mem s) j) + Z.of_nat (at_slot t' j)) →
  (∀ j, holds t' = Some j → tag_of (load m' j) = t_tag t') →
  (∀ j, (j < length (mem s))%nat →
     tag_of (load m' j) = tag_of (load (mem s) j) ∨
     count_of (load (mem s) j) = Z.of_nat (at_slot t j)) →
  sys_ok (mkSystem m' (<[k := t']> (threads s))).
Proof.
  intros (Hpow & Hts & Hcnt & Htag) Hk Hlen Ht' Hdelta Hself Hother.
  unfold sys_ok. cbn [mem threads]. rewrite Hlen. split_and!; [done | | |].
  - by apply Forall_insert.
  - intros i Hi. pose proof (holders_update i _ _ _ t' Hk). pose proof (Hcnt i Hi).
    pose proof (Hdelta i Hi). lia.
  - intros u j Hu Hj. apply list_elem_of_lookup in Hu as [k' Hk'].
    destruct (decide (k' = k)) as [->|Hne].
    + rewrite list_lookup_insert_eq in Hk' by (by eapply lookup_lt_Some).
      injection Hk' as <-. by apply Hself.
    + rewrite list_lookup_insert_ne in Hk' by done.
      assert (u ∈ threads s) as Hin by by eapply list_elem_of_lookup_2.
      assert (j < length (mem s))%nat as Hjn.
      { rewrite Forall_forall in Hts. apply Hts in Hin as [_ Hpc]. unfold holds in Hj.
        destruct (t_pc u); try done; injection Hj as ->; naive_solver. }
      rewrite <-(Htag u j Hin Hj). destruct (Hother j Hjn) as [|Hzero]; [done |].
      pose proof (two_holders _ _ _ _ _ j Hk Hk' (not_eq_sym Hne)) as H2. rewrite Hcnt in Hzero by done.
      unfold at_slot at 2 in H2. rewrite decide_True in H2 by done. lia.
Qed.

Lemma slot_index_lt m tg p :
  (∃ k, Z.of_nat (length m) = 2 ^ k ∧ 0 ≤ k) → (slot_index m tg p < length m)%nat.
Proof.
  intros (k & Hn & Hk). unfold slot_index. rewrite Hn, !land_mask by done.
  pose proof (Z.mod_pos_bound (tg mod 2 ^ k + Z.of_nat p) (2 ^ k)).
  pose proof (Z.pow_pos_nonneg 2 k). lia.
Qed.

(** Steps that read, or fail to exchange, only move the program counter. *)
Lemma quiet_ok s k t pc' :
  sys_ok s → threads s !! k = Some t →
  holds (mkThread (t_tag t) (t_limit t) pc') = holds t →
  thread_ok (length (mem s)) (mkThread (t_tag t) (t_limit t) pc') →
  sys_ok (mkSystem (mem s) (<[k := mkThread (t_tag t) (t_limit t) pc']> (threads s))).
Proof.
  intros Hok Hk Hh Ht. apply (set_thread_ok s k t); try done.
  - intros j Hj. unfold at_slot. by rewrite Hh.
  - intros j Hj. rewrite Hh in Hj. destruct Hok as (_ & _ & _ & Htag). cbn [t_tag].
    apply Htag; [by eapply list_elem_of_lookup_2 | done].
  - intros j Hj. by left.
Qed.

(** A successful exchange that takes slot [i], with [c] its new count. *)
Lemma take_ok s k t i w c :
  sys_ok s → threads s !! k = Some t → holds t = None →
  1 ≤ t_tag t < 2 ^ 48 → (i < length (mem s))%nat →
  load (mem s) i = w → c = count_of w + 1 → c ≤ COUNT_MASK →
  count_of w = 0 ∨ tag_of w = t_tag t →
  sys_ok (mkSystem (<[i := pack (t_tag t) c]> (mem s))
            (<[k := mkThread (t_tag t) (t_limit t) (Holding i)]> (threads s))).
Proof.
  intros Hok Hk Hnone Htg Hi Hw -> Hc Hcase. pose proof (count_of_range w).
  destruct (pack_word (t_tag t) (count_of w + 1)) as [Hp1 Hp2]; [lia | lia |].
  assert (∀ j, at_slot t j = O) as Hz by (intros; by apply at_slot_idle).
  apply (set_thread_ok s k t); try done.
  - apply length_insert.
  - intros j Hj. rewrite load_insert, Hz by done. unfold at_slot, holds. cbn [t_pc].
    repeat case_decide; try congruence; subst; lia.
  - intros j [= <-]. rewrite load_insert by done. by rewrite decide_True.
  - intros j Hj. rewrite load_insert, Hz by done. case_decide; [|by left]. subst j.
    rewrite Hw, Hp1. destruct Hcase as [->| ->]; [by right | by left].
Qed.

(** A successful exchange that gives slot [i] back. *)
Lemma release_ok s k t i w :
  sys_ok s → threads s !! k = Some t → t_pc t = RelCas i w →
  load (mem s) i = w → thread_ok (length (mem s)) t →
  sys_ok (mkSystem (<[i := pack (t_tag t) (count_of w - 1)]> (mem s))
            (<[k := mkThread (t_tag t) (t_limit t) Released]> (threads s))).
Proof.
  intros Hok Hk Hpc Hw [Htg Ht]. rewrite Hpc in Ht. destruct Ht as (Hi & Htag & Hpos).
  pose proof (count_of_range w).
  destruct (pack_word (t_tag t) (count_of w - 1)) as [Hp1 Hp2]; [lia | lia |].
  assert (∀ j, at_slot t j = if decide (j = i) then 1%nat else O) as Hat.
  { intros j. unfold at_slot, holds. rewrite Hpc. repeat case_decide; congruence. }
  apply (set_thread_ok s k t); try done.
  - apply length_insert.
  - intros j Hj. rewrite load_insert, Hat by done. unfold at_slot, holds. cbn [t_pc].
    repeat case_decide; try congruence; subst; lia.
  - intros j Hj. rewrite load_insert by done. case_decide; [|by left]. left. congruence.
Qed.

Lemma next_probe_ok n tg l p r :
  1 ≤ tg < 2 ^ 48 → match r with Some i => (i < n)%nat | None => True end →
  thread_ok n (mkThread tg l (next_probe p r)) ∧ holds (mkThread tg l (next_probe p r)) = None.
Proof.
  intros Ht Hr. unfold next_probe, thread_ok, holds. case_decide; cbn [t_tag t_pc].
  - by destruct r.
  - destruct r; by cbn.
Qed.

Lemma run_thread_ok s k : sys_ok s → sys_ok (run_thread k s).
Proof.
  intros Hok. unfold run_thread. destruct (threads s !! k) as [t|] eqn:Hk; [|done].
  pose proof Hok as (Hpow & Hts & Hcnt & Htag).
  pose proof (proj1 (Forall_lookup _ _) Hts _ _ Hk) as Ht.
  pose proof Ht as [Htg Hpc]. unfold step.
  assert (∀ i, (i < length (mem s))%nat → holds t = Some i → t_tag t = tag_of (load (mem s) i) ∧
    0 < count_of (load (mem s) i)) as Hheld.
  { intros i Hi Hh. split; [symmetry; apply Htag; [by eapply list_elem_of_lookup_2 | done] |].
    rewrite Hcnt by done. pose proof (at_slot_holders _ _ _ i Hk) as Hle. unfold at_slot in Hle.
    rewrite decide_True in Hle by done. lia. }
  destruct (t_pc t) as [p r|p r|i|i w|i|i w|i|i|i w| |] eqn:E;
    [.. | apply quiet_ok; [done | done | unfold holds; by rewrite E | by split]
        | apply quiet_ok; [done | done | unfold holds; by rewrite E | by split]]; unfold holds in Hheld; rewrite E in Hheld.
  - pose proof (slot_index_lt (mem s) (t_tag t) p Hpow) as Hi.
    assert (holds t = None) as Hn by (unfold holds; by rewrite E).
    case_decide; [apply quiet_ok; [done | done | by rewrite Hn | by split] |].
    case_decide; [apply quiet_ok; [done | done | by rewrite Hn | by split] |].
    match goal with |- context [next_probe p ?x] =>
      destruct (next_probe_ok (length (mem s)) (t_tag t) (t_limit t) p x) as [H1 H2] end;
      [done | case_decide; [done | by destruct r] |].
    apply quiet_ok; [done | done | by rewrite Hn | done].
  - pose proof (slot_index_lt (mem s) (t_tag t) p Hpow) as Hi.
    assert (holds t = None) as Hn by (unfold holds; by rewrite E).
    case_decide as Hw.
    + apply (take_ok s k t _ 0); done || (by left) || lia.
    + case_decide; [apply quiet_ok; [done | done | by rewrite Hn | by split] |].
      destruct (next_probe_ok (length (mem s)) (t_tag t) (t_limit t) p r) as [H1 H2];
        [done | by destruct r |]. apply quiet_ok; [done | done | by rewrite Hn | done].
  - assert (holds t = None) as Hn by (unfold holds; by rewrite E).
    repeat case_decide; (apply quiet_ok; [done | done | by rewrite Hn | split; [done |]]); try done.
    cbn. split_and!; [done | | lia | lia].
    destruct (decide (load (mem s) i = 0)); [by left | right].
    destruct (decide (tag_of (load (mem s) i) = t_tag t)); naive_solver.
  - assert (holds t = None) as Hn by (unfold holds; by rewrite E).
    destruct Hpc as (Hi & Hw & Hlim & Hmax). case_decide as Hl.
    + apply (take_ok s k t i w); try done; [lia |]. by destruct Hw as [->|]; auto.
    + by apply quiet_ok; [.. | rewrite Hn | split].
  - assert (holds t = None) as Hn by (unfold holds; by rewrite E).
    case_decide; by apply quiet_ok; [.. | rewrite Hn | split].
  - assert (holds t = None) as Hn by (unfold holds; by rewrite E).
    destruct Hpc as [Hi Hw]. case_decide as Hl.
    + apply (take_ok s k t i w); done || (by left) || (unfold COUNT_MASK, COUNT_BITS; lia).
    + by apply quiet_ok; [.. | rewrite Hn | split].
  - apply quiet_ok; [done | done | unfold holds; by rewrite E | by split].
  - destruct (Hheld i Hpc eq_refl) as [Htg' Hc]. rewrite decide_False by (intros [|]; [congruence | lia]).
    apply quiet_ok; [done | done | unfold holds; by rewrite E | by split].
  - case_decide as Hl; [by apply (release_ok s k t i w) |].
    apply quiet_ok; [done | done | unfold holds; by rewrite E | by split; [|apply Hpc]].
Qed.

Lemma load_zeroed n i : load (replicate n 0) i = 0.
Proof.
  unfold load. rewrite nth_lookup. destruct (replicate n 0 !! i) as [w|] eqn:E; [|done].
  by apply lookup_replicate in E as [-> _].
Qed.

Lemma spawn_ok s tg limit :
  1 ≤ tg < 2 ^ 48 → sys_ok s →
  sys_ok (mkSystem (mem s) (threads s ++ [start_acquire tg limit])).
Proof.
  intros Htg (Hpow & Hts & Hcnt & Htag). unfold sys_ok. cbn [mem threads]. split_and!; [done | | |].
  - apply Forall_app. split; [done |]. constructor; [by split | constructor].
  - intros i Hi. rewrite holders_app, holders_one, at_slot_idle by done.
    rewrite Hcnt by done. lia.
  - intros t i Hin Hh. apply elem_of_app in Hin as [Hin | ->%list_elem_of_singleton]; [eauto | done].
Qed.

Lemma sys_step_ok s s' : sys_step s s' → sys_ok s → sys_ok s'.
Proof. destruct 1; [by apply spawn_ok | apply run_thread_ok]. Qed.

Lemma init_ok n : sys_ok (init n).
Proof.
  unfold sys_ok, init, new. cbn [mem threads]. rewrite length_replicate. split_and!.
  - unfold slots_for, next_power_of_two. pose proof (Z.log2_up_nonneg n).
    pose proof (Z.pow_pos_nonneg 2 (Z.log2_up n)).
    destruct (Z.max_spec (2 ^ Z.log2_up n) 64) as [[_ ->]|[_ ->]];
      [exists 6 | exists (Z.log2_up n)]; split; lia.
  - constructor.
  - intros i Hi. by rewrite load_zeroed.
  - intros t i Hin. by apply elem_of_nil in Hin.
Qed.

Definition reachable (n : Z) (s : system) : Prop := rtc sys_step (init n) s.

Lemma reachable_ok n s : reachable n s → sys_ok s.
Proof.
  unfold reachable. intros H. cut (sys_ok (init n) → sys_ok s); [intros Hc; apply Hc, init_ok |].
  induction H; [done |]. intros. eauto using sys_step_ok.
Qed.

(** ** Bounds *)

Definition limits_ok (L : Z) (s : system) : Prop :=
  Forall (λ t, t_limit t ≤ L ∧ match t_pc t with
                               | IncCas _ w => count_of w < t_limit t
                               | _ => True end) (threads s) ∧
  ∀ i, count_of (load (mem s) i) ≤ L.

Lemma load_outside m i : ¬ (i < length m)%nat → load m i = 0.
Proof. intros. unfold load. apply nth_overflow. lia. Qed.

Lemma load_insert_count m i v j :
  count_of (load (<[i := v]> m) j) = count_of v ∨
  count_of (load (<[i := v]> m) j) = count_of (load m j).
Proof.
  destruct (decide (i < length m)%nat).
  - rewrite load_insert by done. case_decide; auto.
  - rewrite list_insert_ge by lia. by right.
Qed.

Lemma limits_step L s k :
  1 ≤ L → sys_ok s → limits_ok L s → limits_ok L (run_thread k s).
Proof.
  intros HL Hok [Hts Hc]. unfold run_thread.
  destruct (threads s !! k) as [t|] eqn:Hk; [|done].
  pose proof (proj1 (Forall_lookup _ _) Hts _ _ Hk) as [Hlim Hpc].
  destruct Hok as (_ & Hall & _). pose proof (proj1 (Forall_lookup _ _) Hall _ _ Hk) as [Htg Hok].
  assert (∀ pc' m', (match pc' with IncCas _ w => count_of w < t_limit t | _ => True end) →
    (∀ i, count_of (load m' i) ≤ L) →
    limits_ok L (mkSystem m' (<[k := mkThread (t_tag t) (t_limit t) pc']> (threads s)))) as Hgo.
  { intros pc' m' H1 H2. split; [|done]. cbn [threads]. by apply Forall_insert. }
  assert (∀ c i, 0 ≤ c ≤ L → c ≤ COUNT_MASK → ∀ j,
    count_of (load (<[i := pack (t_tag t) c]> (mem s)) j) ≤ L) as Hput.
  { intros c i Hcl Hm j. destruct (load_insert_count (mem s) i (pack (t_tag t) c) j) as [-> | ->];
      [|apply Hc]. rewrite (proj2 (pack_word (t_tag t) c ltac:(lia) ltac:(lia))). lia. }
  assert (1 ≤ COUNT_MASK) by done.
  unfold step. destruct (t_pc t) as [p r|p r|i|i w|i|i w|i|i|i w| |] eqn:E.
  - unfold next_probe. repeat case_match; simplify_eq; by apply Hgo.
  - unfold next_probe. repeat case_match; simplify_eq; apply Hgo; done || (apply Hput; lia).
  - repeat case_match; simplify_eq; apply Hgo; done || lia.
  - pose proof (count_of_range w). case_decide; apply Hgo; try done. apply Hput; lia.
  - case_decide; by apply Hgo.
  - case_decide; apply Hgo; done || (apply Hput; lia).
  - by apply Hgo.
  - case_decide; by apply Hgo.
  - case_decide as Hw; apply Hgo; try done. pose proof (count_of_range w).
    pose proof (Hc i). rewrite Hw in *. apply Hput; destruct Hok as (_ & _ & ?); lia.
  - by apply Hgo.
  - by apply Hgo.
Qed.

(** Runs in which every request asks for at most [L]. *)
Inductive run_within (L : Z) (n : Z) : system → Prop :=
  | run_init : run_within L n (init n)
  | run_spawn s tg limit :
      run_within L n s → 1 ≤ tg < 2 ^ 48 → limit ≤ L →
      run_within L n (mkSystem (mem s) (threads s ++ [start_acquire tg limit]))
  | run_run s k : run_within L n s → run_within L n (run_thread k s).

Lemma run_within_ok L n s : 1 ≤ L → run_within L n s → sys_ok s ∧ limits_ok L s.
Proof.
  intros HL. induction 1 as [|s tg limit _ [IH1 IH2] Htg Hl|s k _ [IH1 IH2]].
  - split; [apply init_ok |]. split; [constructor |]. intros i. cbn [init mem]. unfold new.
    rewrite load_zeroed. change (count_of 0) with 0. lia.
  - split; [by apply spawn_ok |]. destruct IH2 as [IH2 Hc]. split; [|done]. cbn [threads].
    apply Forall_app. split; [done |]. constructor; [|constructor]. cbn. split; [lia | done].
  - split; [by apply run_thread_ok | by apply limits_step].
Qed.

Lemma filter_none {A} (P : A → Prop) `{∀ x, Decision (P x)} l :
  (∀ x, x ∈ l → ¬ P x) → length (filter P l) = O.
Proof.
  induction l as [|x l IH]; intros Hn; [done |]. rewrite filter_cons.
  rewrite decide_False by (apply Hn; left). apply IH. intros. apply Hn. by right.
Qed.

Lemma active_zero m :
  (∀ i, (i < length m)%nat → count_of (load m i) = 0) → active m = O.
Proof.
  intros H. apply filter_none. intros w [i Hi]%list_elem_of_lookup.
  pose proof (lookup_lt_Some _ _ _ Hi) as Hlt. specialize (H i Hlt).
  unfold load in H. rewrite nth_lookup, Hi in H. naive_solver.
Qed.

Lemma holders_zero i ts : (∀ t, t ∈ ts → holds t = None) → holders i ts = O.
Proof. intros H. apply filter_none. intros t Ht. rewrite H by done. done. Qed.

(** ** Properties *)

(** C34. Releases are exact, under every interleaving of any number of
    workers: in each slot the count is the number of live guards on it, the
    tag is theirs, and once no guard is left every count is zero, so nothing
    leaks. *)
Theorem releases_exact n s :
  reachable n s →
  (∀ i, (i < length (mem s))%nat →
     count_of (load (mem s) i) = Z.of_nat (holders i (threads s))) ∧
  (∀ t i, t ∈ threads s → holds t = Some i → tag_of (load (mem s) i) = t_tag t) ∧
  ((∀ t, t ∈ threads s → holds t = None) → active (mem s) = O).
Proof.
  intros H. apply reachable_ok in H as (_ & _ & Hc & Ht). split_and!; [done | done |].
  intros Hnone. apply active_zero. intros i Hi. rewrite Hc by done.
  by rewrite (holders_zero i (threads s)).
Qed.

(** A request for a key, admitted, answered, and its guard dropped. *)
Definition one_request : system :=
  Nat.iter 5 (run_thread 0) (mkSystem (new 64) [start_acquire (tag 7 (str "1.2.3.4")) 10]).

Lemma releases_exact_witness :
  reachable 64 one_request ∧ map t_pc (threads one_request) = [Released] ∧
  active (mem one_request) = O.
Proof.
  assert (reachable 64 one_request) as Hr.
  { unfold reachable, one_request. apply rtc_l with
      (mkSystem (new 64) [start_acquire (tag 7 (str "1.2.3.4")) 10]).
    - apply (step_spawn (init 64)). apply tag_range.
    - cbn [Nat.iter]. do 5 (eapply rtc_r; [|apply step_run]). apply rtc_refl. }
  split; [done |]. split; [reflexivity |]. apply (releases_exact 64 one_request Hr).
  intros t Ht. assert (threads one_request = [mkThread (tag 7 (str "1.2.3.4")) 10 Released]) as E
    by reflexivity.
  rewrite E in Ht. by apply list_elem_of_singleton in Ht as ->.
Defined.

(** A slot with a live count is never stolen: whatever step any worker
    takes, the slot keeps its key. *)
Theorem live_slot_keeps_key n s s' i :
  reachable n s → sys_step s s' → 0 < count_of (load (mem s) i) →
  tag_of (load (mem s') i) = tag_of (load (mem s) i).
Proof.
  intros Hr Hs Hpos. apply reachable_ok in Hr as (Hpow & Hts & _).
  destruct Hs as [|s k]; [done |]. unfold run_thread.
  destruct (threads s !! k) as [t|] eqn:Hk; [|done].
  pose proof (proj1 (Forall_lookup _ _) Hts _ _ Hk) as [Htg Ht].
  assert (∀ j c, 0 ≤ c ≤ COUNT_MASK → (i = j → tag_of (load (mem s) i) = t_tag t) →
    tag_of (load (<[j := pack (t_tag t) c]> (mem s)) i) = tag_of (load (mem s) i)) as Hput.
  { intros j c Hc Hj. destruct (decide (j < length (mem s))%nat).
    - rewrite load_insert by done. case_decide; [|done]. rewrite Hj by done.
      by apply pack_word; lia.
    - by rewrite list_insert_ge by lia. }
  assert (count_of 0 = 0) by done.
  unfold step. destruct (t_pc t) as [p r|p r|j|j w|j|j w|j|j|j w| |]; cbn [mem].
  - by repeat case_decide.
  - case_decide as Hw; [|by repeat case_decide]. cbn [mem].
    apply Hput; [done |]. intros ->. rewrite Hw in Hpos. lia.
  - by repeat case_decide.
  - destruct Ht as (_ & Hw & _ & Hm). case_decide as Hl; [|done]. cbn [mem].
    pose proof (count_of_range w). apply Hput; [lia |]. intros ->. rewrite Hl in *.
    destruct Hw as [->|]; [lia | done].
  - by case_decide.
  - destruct Ht as (_ & Hw). case_decide as Hl; [|done]. cbn [mem].
    apply Hput; [done |]. intros ->. rewrite Hl in Hpos. lia.
  - done.
  - by case_decide.
  - destruct Ht as (_ & Hw & Hc). case_decide as Hl; [|done]. cbn [mem].
    pose proof (count_of_range w). apply Hput; [lia |]. intros ->. by rewrite Hl.
  - done.
  - done.
Qed.

Lemma live_slot_keeps_key_witness :
  let s := Nat.iter 2 (run_thread 0) (mkSystem (new 64) [start_acquire 5 10; start_acquire 69 10]) in
  tag_of (load (mem (run_thread 1 s)) 5) = 5.
Proof.
  intros s. assert (tag_of (load (mem s) 5) = 5) as E by reflexivity. rewrite <-E.
  apply (live_slot_keeps_key 64).
  - unfold reachable, s. cbn [Nat.iter]. do 2 (eapply rtc_r; [|apply step_run]).
    eapply rtc_r; [|apply (step_spawn (mkSystem (new 64) [start_acquire 5 10]) 69 10); lia].
    eapply rtc_r; [|apply (step_spawn (init 64) 5 10); lia]. apply rtc_refl.
  - apply step_run.
  - by vm_compute.
Defined.

(** No slot ever counts more than the limit its requests ask for, nor
    more than sixteen bits hold, whatever the interleaving. *)
Theorem slot_count_bounded L n s i :
  1 ≤ L → run_within L n s → 0 ≤ count_of (load (mem s) i) ≤ Z.min L MAX_CONNS.
Proof.
  intros HL H. apply run_within_ok in H as [_ [_ Hc]]; [|done].
  specialize (Hc i). pose proof (count_of_range (load (mem s) i)).
  change COUNT_MASK with 65535 in *. unfold MAX_CONNS. lia.
Qed.

Lemma slot_count_bounded_witness :
  let s := Nat.iter 2 (run_thread 0) (mkSystem (new 64) [start_acquire 5 1]) in
  count_of (load (mem s) 5) = 1 ∧ 0 ≤ count_of (load (mem s) 5) ≤ Z.min 1 MAX_CONNS.
Proof.
  intros s. split; [reflexivity |]. apply (slot_count_bounded 1 64); [lia |].
  unfold s. cbn [Nat.iter]. do 2 apply run_run. apply (run_spawn 1 64 (init 64) 5 1); [|lia|lia].
  apply run_init.
Defined.

(** ** A race the limit does not survive *)

Inductive action := Arrive (tg limit : Z) | Run (k n : nat).

Definition act (a : action) (s : system) : system :=
  match a with
  | Arrive tg limit => mkSystem (mem s) (threads s ++ [start_acquire tg limit])
  | Run k n => Nat.iter n (run_thread k) s
  end.

Definition legal (L : Z) (a : action) : bool :=
  match a with
  | Arrive tg limit => bool_decide (1 ≤ tg ∧ tg < 2 ^ 48 ∧ limit ≤ L)
  | Run _ _ => true
  end.

Lemma act_within L n a s : legal L a = true → run_within L n s → run_within L n (act a s).
Proof.
  destruct a as [tg limit|k m]; cbn.
  - intros (? & ? & ?)%bool_decide_eq_true ?. by apply run_spawn.
  - intros _ H. induction m; cbn; [done | by apply run_run].
Qed.

Lemma acts_within L n l s :
  forallb (legal L) l = true → run_within L n s → run_within L n (foldl (λ s a, act a s) s l).
Proof.
  revert s. induction l as [|a l IH]; intros s; cbn; [done |].
  intros [Ha Hl]%andb_true_iff Hs. apply IH; [done |]. by apply act_within.
Qed.

(** Sixteen keys fill the window that starts at slot 0.  A request for a
    seventeenth key ([k = 17]) settles on the idle slot 3; before it takes it,
    slot 3's key is busy again and slot 5 falls idle, so a second request for
    the same key ([k = 19]) takes slot 5; then slot 3 is idle once more and
    the first request takes that. *)
Definition race : list action :=
  ((λ k, Arrive (64 * Z.of_nat (S k)) 1) <$> seq 0 16) ++
  ((λ k, Run k (k + 2)) <$> seq 0 16) ++
  [Run 3 3; Arrive (64 * 17) 1; Run 16 16;
   Arrive (64 * 4) 1; Run 17 6; Run 5 3;
   Arrive (64 * 17) 1; Run 18 18; Run 17 3; Run 16 2].

Definition after_race : system := foldl (λ s a, act a s) (init 64) race.

(** A limit of one, and two requests for one key in flight: when a full
    window makes two workers take over different idle slots for the same key,
    the per-slot limit holds and the key's limit does not. *)
Theorem limit_exceeded_by_race :
  run_within 1 64 after_race ∧
  threads after_race !! 16%nat = Some (mkThread (64 * 17) 1 (Holding 3)) ∧
  threads after_race !! 18%nat = Some (mkThread (64 * 17) 1 (Holding 5)).
Proof.
  split; [|by vm_compute]. apply acts_within; [by vm_compute | apply run_init].
Qed.
