(* ===== verification/Upstream.v ===== *)
(** * [src/server/upstream.rs]: peers, balancing, health and the idle pool

    Peer health is a record of the code's atomics, every method a state
    transition; an [Upstream] is the configuration and the health vector
    beside it.  Sockets are a parameter: a connection is an abstract value
    with the one test the pool makes of it. *)
From S2P Require Import Prelude.
From S2P Require Import Text.

Open Scope oxi_scope.
Open Scope Z_scope.

(** ** The code *)

Record PeerHealth := mkHealth {
  fails : Z;
  down_until_ms : Z;
  window_start_ms : Z;
  in_flight : Z;
  probe_fails : Z;
  probe_passes : Z;
  probe_down : bool
}.

Definition healthy : PeerHealth := mkHealth 0 0 0 0 0 0 false.

Definition is_down (h : PeerHealth) (now_ms : Z) : bool :=
  if probe_down h then true
  else negb (bool_decide (down_until_ms h = 0)) && bool_decide (now_ms < down_until_ms h).

Definition record_probe (ok : bool) (fails_at passes_at : Z) (h : PeerHealth) : PeerHealth :=
  if ok then
    let p := wrap 32 (probe_passes h + 1) in
    let h := mkHealth (fails h) (down_until_ms h) (window_start_ms h) (in_flight h)
               0 p (probe_down h) in
    if decide (Z.max passes_at 1 ≤ p) then
      mkHealth 0 0 (window_start_ms h) (in_flight h) 0 p false
    else h
  else
    let f := wrap 32 (probe_fails h + 1) in
    mkHealth (fails h) (down_until_ms h) (window_start_ms h) (in_flight h) f 0
      (if decide (Z.max fails_at 1 ≤ f) then true else probe_down h).

Definition record_failure (now_ms max_fails fail_timeout_ms : Z) (h : PeerHealth) : PeerHealth :=
  if decide (max_fails = 0) then h
  else
    let start := window_start_ms h in
    let counting := bool_decide (0 < fails h) in
    let '(n, start) :=
      if negb counting || bool_decide (fail_timeout_ms < (now_ms ∸ start))
      then (1, now_ms) else (wrap 32 (fails h + 1), start) in
    let until := if decide (max_fails ≤ n) then now_ms + fail_timeout_ms else down_until_ms h in
    mkHealth n until start (in_flight h) (probe_fails h) (probe_passes h) (probe_down h).

Definition record_success (h : PeerHealth) : PeerHealth :=
  mkHealth 0 0 0 (in_flight h) (probe_fails h) (probe_passes h) (probe_down h).

(** [InFlightGuard::enter] and its [drop]. *)
Definition enter (h : PeerHealth) : PeerHealth :=
  mkHealth (fails h) (down_until_ms h) (window_start_ms h) (wrap 32 (in_flight h + 1))
    (probe_fails h) (probe_passes h) (probe_down h).
Definition leave (h : PeerHealth) : PeerHealth :=
  mkHealth (fails h) (down_until_ms h) (window_start_ms h) (wrap 32 (in_flight h - 1))
    (probe_fails h) (probe_passes h) (probe_down h).

Inductive LbMethod := RoundRobin | LeastConn | IpHash | Random.

Record UpstreamServer := mkServer {
  addr : bytes;
  sticky_id : bytes;
  weight : Z;
  backup : bool;
  down : bool
}.

Record Upstream := mkUpstream {
  servers : list UpstreamServer;
  health : list PeerHealth;
  method : LbMethod;
  sticky : bool
}.

(** [up.servers[i]] and [up.health[i]]; the vectors are parallel. *)
Definition server_at (up : Upstream) (i : nat) : UpstreamServer :=
  nth i (servers up) (mkServer [] [] 0 false true).
Definition health_at (up : Upstream) (i : nat) : PeerHealth := nth i (health up) healthy.

(** [iter().min_by_key(f)]: the first of the minima. *)
Fixpoint min_by_key (f : nat → Z) (l : list nat) : option nat :=
  match l with
  | [] => None
  | i :: l =>
      match min_by_key f l with
      | Some j => if decide (f j < f i) then Some j else Some i
      | None => Some i
      end
  end.

Definition weight_of (up : Upstream) (i : nat) : Z := Z.max (weight (server_at up i)) 1.

(** The walk of the weighted round robin. *)
Fixpoint rr_walk (up : Upstream) (l : list nat) (slot : Z) : option nat :=
  match l with
  | [] => None
  | i :: l => if decide (slot < weight_of up i) then Some i else rr_walk up l (slot - weight_of up i)
  end.

(** The sum of the weights, in 32 bits: it wraps. *)
Definition rr_total (up : Upstream) (candidates : list nat) : Z :=
  foldl (λ total i, wrap 32 (total + weight_of up i)) 0 candidates.

(** [pick_from], on candidates that are not empty. *)
Definition pick_from (up : Upstream) (candidates : list nat) (hash : option Z) (rr_cursor : Z) : nat :=
  let n := Z.of_nat (length candidates) in
  match method up with
  | IpHash =>
      let h := match hash with Some h => h | None => 0 end in
      nth (Z.to_nat (h mod n)) candidates O
  | LeastConn =>
      match min_by_key (λ i, in_flight (health_at up i) * 1000 / weight_of up i) candidates with
      | Some i => i
      | None => O
      end
  | Random => nth (Z.to_nat (rr_cursor mod n)) candidates O
  | RoundRobin =>
      let total := rr_total up candidates in
      let slot := wrap 32 rr_cursor mod Z.max total 1 in
      match rr_walk up candidates slot with
      | Some i => i
      | None => nth O candidates O
      end
  end.

Definition candidate (up : Upstream) (now_ms : Z) (want_backup : bool) (exclude : list nat) (i : nat) : bool :=
  let s := server_at up i in
  negb (down s) && bool_decide (backup s = want_backup)
  && negb (is_down (health_at up i) now_ms) && negb (bool_decide (i ∈ exclude)).

Definition candidates_of (up : Upstream) (now_ms : Z) (want_backup : bool) (exclude : list nat) : list nat :=
  List.filter (candidate up now_ms want_backup exclude) (seq 0 (length (servers up))).

Definition select_excluding (up : Upstream) (now_ms : Z) (hash : option Z) (rr_cursor : Z)
    (exclude : list nat) : option nat :=
  match candidates_of up now_ms false exclude with
  | (_ :: _) as c => Some (pick_from up c hash rr_cursor)
  | [] =>
      match candidates_of up now_ms true exclude with
      | (_ :: _) as c => Some (pick_from up c hash rr_cursor)
      | [] =>
          min_by_key (λ i, down_until_ms (health_at up i))
            (List.filter (λ i, negb (down (server_at up i)) && negb (bool_decide (i ∈ exclude)))
               (seq 0 (length (servers up))))
      end
  end.

Definition select (up : Upstream) (now_ms : Z) (hash : option Z) (rr_cursor : Z) : option nat :=
  select_excluding up now_ms hash rr_cursor [].

Definition sticky_peer (up : Upstream) (now_ms : Z) (cookie : option bytes) (exclude : list nat) :
    option nat :=
  id ← cookie;
  if sticky up then
    '(i, _) ← list_find (λ s, sticky_id s = id) (servers up);
    if negb (down (server_at up i)) && negb (is_down (health_at up i) now_ms)
       && negb (bool_decide (i ∈ exclude))
    then Some i else None
  else None.

(** The status code of a probe's answer; the line is split at a carriage
    return or a line feed, then at spaces. *)
Definition parse_status (buf : bytes) : option Z :=
  let line := match position (λ b, bool_decide (b = x0d ∨ b = x0a)) buf with
              | Some i => take i buf
              | None => buf
              end in
  match split " "%byte line with
  | version :: rest =>
      if negb (starts_with (str "HTTP/") version) then None
      else match rest with
           | p :: _ => if utf8_valid p then parse_uint 65535 p else None
           | [] => None
           end
  | [] => None
  end.

(** ** The idle pool *)

Definition MAX_IDLE : Z := 30000.

Section Pool.
(** Connections, and the liveness test of [transport.rs]. *)
Context {stream : Type} (is_reusable : stream → bool).

(** [Idle] is a connection and when it was returned, in milliseconds; [POOL]
    is this worker's idle connections by peer address. *)
Abbreviation Idle := (stream * Z)%type.
Abbreviation POOL := (gmap bytes (list Idle)).

(** The [while let Some(idle) = entries.pop()] loop; the newest entry is the
    last, so the walk is over the reversed vector. *)
Fixpoint take_loop (now : Z) (newest_first : list Idle) : option stream * list Idle :=
  match newest_first with
  | [] => (None, [])
  | (s, since) :: older =>
      if decide (MAX_IDLE ≤ now - since) then (None, [])
      else if is_reusable s then (Some s, older)
      else take_loop now older
  end.

Definition take_conn (now : Z) (a : bytes) (pool : POOL) : option stream * POOL :=
  match pool !! a with
  | None => (None, pool)
  | Some entries =>
      let '(r, rest) := take_loop now (reverse entries) in (r, <[a := reverse rest]> pool)
  end.

Definition put_conn (now : Z) (a : bytes) (s : stream) (keepalive : nat) (pool : POOL) : POOL :=
  if decide (keepalive = O) then pool
  else
    let entries := match pool !! a with Some l => l | None => [] end in
    let entries := if decide (keepalive <= length entries)%nat then drop 1 entries else entries in
    <[a := entries ++ [(s, now)]]> pool.
End Pool.

(** ** Round robin *)

Lemma weight_of_pos up i : 1 ≤ weight_of up i.
Proof. unfold weight_of. lia. Qed.

(** The sum of the weights as it is meant *)
Definition weights (up : Upstream) (l : list nat) : Z := foldr (λ i, Z.add (weight_of up i)) 0 l.

Lemma weights_cons up i l : weights up (i :: l) = weight_of up i + weights up l.
Proof. reflexivity. Qed.

Lemma weights_nonneg up l : 0 ≤ weights up l.
Proof.
  induction l as [|i l IH]; [done |]. rewrite weights_cons. pose proof (weight_of_pos up i). lia.
Qed.

Lemma rr_total_wraps up l : rr_total up l = weights up l mod 2 ^ 32.
Proof.
  assert (∀ n, 0 ≤ n < 2 ^ 32 → foldl (λ total i, wrap 32 (total + weight_of up i)) n l = (n + weights up l) mod 2 ^ 32) as H;
    [| unfold rr_total; rewrite H by lia; by rewrite Z.add_0_l].
  induction l as [|i l IH]; intros n Hn; [by rewrite Z.add_0_r, Z.mod_small |]. cbn [foldl]. rewrite IH.
  - unfold wrap. rewrite Zplus_mod_idemp_l, weights_cons. f_equal. lia.
  - unfold wrap. by apply Z.mod_pos_bound.
Qed.

(** Weights that come to 2^32 count for nothing: every request goes to the
    first candidate. *)
Theorem weights_can_vanish up c hash cur : method up = RoundRobin → weights up c = 2 ^ 32 →
  pick_from up c hash cur = nth O c O.
Proof.
  intros Hm Hw. unfold pick_from. rewrite Hm, rr_total_wraps, Hw. change (Z.max (2 ^ 32 mod 2 ^ 32) 1) with 1.
  rewrite Z.mod_1_r. destruct c as [|i c]; [done |]. cbn [rr_walk nth]. pose proof (weight_of_pos up i).
  by rewrite decide_True by lia.
Qed.

(** One period of the cursor: each candidate, as many times as its weight. *)
Definition rr_schedule (up : Upstream) (l : list nat) : list nat :=
  mjoin ((λ i, replicate (Z.to_nat (weight_of up i)) i) <$> l).

Lemma rr_schedule_length up l : Z.of_nat (length (rr_schedule up l)) = weights up l.
Proof.
  induction l as [|i l IH]; [done |]. unfold rr_schedule in *.
  rewrite fmap_cons_eq, join_cons, length_app, length_replicate.
  rewrite weights_cons. pose proof (weight_of_pos up i). lia.
Qed.

Lemma rr_walk_schedule up l slot :
  0 ≤ slot → rr_walk up l slot = rr_schedule up l !! Z.to_nat slot.
Proof.
  revert slot. induction l as [|i l IH]; intros slot Hs; [done |]. cbn [rr_walk].
  unfold rr_schedule. rewrite fmap_cons_eq, join_cons. fold (rr_schedule up l).
  pose proof (weight_of_pos up i). case_decide.
  - rewrite lookup_app_l by (rewrite length_replicate; lia).
    symmetry. apply lookup_replicate_2. lia.
  - rewrite lookup_app_r by (rewrite length_replicate; lia). rewrite length_replicate, IH by lia.
    f_equal. lia.
Qed.

Lemma rr_walk_some up l slot :
  0 ≤ slot < weights up l → is_Some (rr_walk up l slot).
Proof.
  intros Hs. rewrite rr_walk_schedule by lia. apply lookup_lt_is_Some.
  pose proof (rr_schedule_length up l). lia.
Qed.

Lemma rr_walk_elem up l slot i : rr_walk up l slot = Some i → i ∈ l.
Proof.
  revert slot. induction l as [|j l IH]; intros slot; cbn; [done |].
  case_decide; [intros [= ->]; left | intros ?%IH; by right].
Qed.

Lemma min_by_key_spec f l :
  match min_by_key f l with
  | Some i => i ∈ l ∧ ∀ j, j ∈ l → f i ≤ f j
  | None => l = []
  end.
Proof.
  induction l as [|i l IH]; cbn; [done |]. destruct (min_by_key f l) as [j|].
  - destruct IH as [Hj Hm]. case_decide.
    + split; [by right |]. intros k [->|Hk]%elem_of_cons; [lia | auto].
    + split; [left |]. intros k [->|Hk]%elem_of_cons; [lia |]. specialize (Hm k Hk). lia.
  - subst l. split; [left |]. intros k [->|Hk]%elem_of_cons; [lia |]. by apply elem_of_nil in Hk.
Qed.

Lemma pick_from_elem up c hash cur : c ≠ [] → pick_from up c hash cur ∈ c.
Proof.
  intros Hne. unfold pick_from.
  assert (0 < Z.of_nat (length c)) as Hlen by (destruct c; [done | cbn; lia]).
  assert (∀ z, nth (Z.to_nat (z mod Z.of_nat (length c))) c O ∈ c) as Hnth.
  { intros z. apply list_elem_of_In, nth_In.
    pose proof (Z.mod_pos_bound z (Z.of_nat (length c))). lia. }
  destruct (method up); [| | apply Hnth | apply Hnth].
  - destruct (rr_walk up c _) as [i|] eqn:E; [by eapply rr_walk_elem |].
    destruct c; [done | left].
  - pose proof (min_by_key_spec (λ i, in_flight (health_at up i) * 1000 / weight_of up i) c) as H.
    destruct (min_by_key _ _); [by destruct H | done].
Qed.

Lemma candidates_spec up now b ex i :
  i ∈ candidates_of up now b ex ↔
  (i < length (servers up))%nat ∧ down (server_at up i) = false ∧
  backup (server_at up i) = b ∧ is_down (health_at up i) now = false ∧ i ∉ ex.
Proof.
  unfold candidates_of, candidate. rewrite list_elem_of_In, filter_In, in_seq.
  rewrite !andb_true_iff, !negb_true_iff, bool_decide_eq_true, bool_decide_eq_false. naive_solver lia.
Qed.

(** ** Probes *)

(** The last run of equal results. *)
Definition streak (b : bool) (rs : list bool) : Z :=
  foldl (λ n r, if Bool.eqb r b then n + 1 else 0) 0 rs.

Definition probes (fails_at passes_at : Z) (rs : list bool) (h : PeerHealth) : PeerHealth :=
  foldl (λ h r, record_probe r fails_at passes_at h) h rs.

Lemma streak_snoc b rs r :
  streak b (rs ++ [r]) = if Bool.eqb r b then streak b rs + 1 else 0.
Proof. unfold streak. by rewrite foldl_app. Qed.

Lemma streak_nonneg b rs : 0 ≤ streak b rs ≤ Z.of_nat (length rs).
Proof.
  induction rs as [|r rs IH] using rev_ind; [done |]. rewrite streak_snoc, length_app.
  cbn [length]. case_match; lia.
Qed.

Lemma probes_snoc f p rs r h : probes f p (rs ++ [r]) h = record_probe r f p (probes f p rs h).
Proof. unfold probes. by rewrite foldl_app. Qed.

(** Whether the probes say down: the specification, from the history. *)
Fixpoint probed_down (fails_at passes_at : Z) (rev_history : list bool) : bool :=
  match rev_history with
  | [] => false
  | r :: older =>
      if r then if decide (Z.max passes_at 1 ≤ streak true (reverse rev_history)) then false
                else probed_down fails_at passes_at older
      else if decide (Z.max fails_at 1 ≤ streak false (reverse rev_history)) then true
           else probed_down fails_at passes_at older
  end.

Lemma probes_state f p rs :
  Z.of_nat (length rs) < 2 ^ 32 →
  probe_fails (probes f p rs healthy) = streak false rs ∧
  probe_passes (probes f p rs healthy) = streak true rs ∧
  probe_down (probes f p rs healthy) = probed_down f p (reverse rs).
Proof.
  induction rs as [|r rs IH] using rev_ind; intros Hlen; [done |].
  rewrite length_app in Hlen. cbn [length] in Hlen. destruct IH as (H1 & H2 & H3); [lia |].
  rewrite probes_snoc, reverse_snoc, !streak_snoc. cbn [probed_down].
  rewrite <-reverse_snoc, reverse_involutive, !streak_snoc.
  pose proof (streak_nonneg true rs). pose proof (streak_nonneg false rs).
  unfold record_probe, wrap. destruct r; cbn [Bool.eqb].
  - rewrite H2, Z.mod_small by lia. case_decide; cbn; done.
  - rewrite H1, Z.mod_small by lia. case_decide; cbn; done.
Qed.

(** ** Passive failures *)

Definition failures (max_fails fail_timeout : Z) (ts : list Z) (h : PeerHealth) : PeerHealth :=
  foldl (λ h t, record_failure t max_fails fail_timeout h) h ts.

(** Failures inside one window are counted from its start; the penalty runs
    from the last of them once there are enough. *)
Lemma failures_window mf ft t0 ts :
  0 < mf → 0 ≤ ft → 0 < t0 → Forall (λ t, t0 ≤ t ≤ t0 + ft) ts →
  Z.of_nat (length ts) + 1 < 2 ^ 32 →
  let h := failures mf ft (t0 :: ts) healthy in
  fails h = Z.of_nat (length ts) + 1 ∧ window_start_ms h = t0 ∧ probe_down h = false ∧
  down_until_ms h =
    if decide (mf ≤ Z.of_nat (length ts) + 1) then default t0 (last ts) + ft else 0.
Proof.
  intros Hm Hf Ht0. induction ts as [|t ts IH] using rev_ind; intros Hts Hlen h.
  - unfold h, failures. cbn [foldl]. unfold record_failure. rewrite decide_False by lia.
    cbn. split_and!; try done; repeat case_decide; done || lia.
  - apply Forall_app in Hts as [Hts [Ht _]%Forall_cons]. rewrite length_app in Hlen. cbn [length] in Hlen.
    destruct IH as (H1 & H2 & H3 & H4); [done | lia |].
    assert (h = record_failure t mf ft (failures mf ft (t0 :: ts) healthy)) as ->
      by (unfold h, failures; by rewrite app_comm_cons, foldl_app).
    set (g := failures mf ft (t0 :: ts) healthy) in *.
    unfold record_failure. rewrite decide_False by lia. rewrite H1, H2.
    rewrite bool_decide_eq_true_2 by lia. cbn [negb orb].
    rewrite bool_decide_eq_false_2 by (unfold saturating_sub; lia).
    unfold wrap. rewrite Z.mod_small by lia. cbn [fails window_start_ms probe_down down_until_ms].
    rewrite length_app, last_snoc. cbn [length default]. split_and!; [lia | done | done |].
    rewrite H4. repeat case_decide; try lia; done.
Qed.

(** ** Properties *)

(** Weighted round robin is exactly fair: over any whole period of the
    cursor the candidates are served in order, each exactly as many times as
    its weight. *)
Theorem round_robin_fair up c hash k :
  method up = RoundRobin → c ≠ [] → 0 ≤ k → weights up c < 2 ^ 32 → (k + 1) * weights up c ≤ 2 ^ 32 →
  (λ j, pick_from up c hash (k * weights up c + j)) <$> seqZ 0 (weights up c) =
  rr_schedule up c.
Proof.
  intros Hm Hne Hk Hw Hmax. pose proof (rr_schedule_length up c) as Hlen.
  assert (0 < weights up c) as Hpos.
  { destruct c as [|i c]; [done |]. rewrite weights_cons.
    pose proof (weight_of_pos up i). pose proof (weights_nonneg up c). lia. }
  apply list_eq_same_length with (length (rr_schedule up c)); [done | |].
  { rewrite length_fmap, length_seqZ. lia. }
  intros i x y Hi Hx Hy. rewrite list_lookup_fmap in Hx.
  destruct (seqZ 0 (weights up c) !! i) as [j|] eqn:Hj; [|done]. injection Hx as <-.
  apply lookup_seqZ in Hj as [-> Hj]. unfold pick_from. rewrite Hm, rr_total_wraps. unfold wrap.
  rewrite Z.add_0_l, (Z.mod_small (weights up c)), Z.max_l, (Z.mod_small _ (2 ^ 32)) by nia.
  rewrite Z.add_comm, Z.mod_add, Z.mod_small by lia.
  by rewrite rr_walk_schedule, Nat2Z.id, Hy by lia.
Qed.

Lemma round_robin_fair_witness :
  let sv w := mkServer [] [] w false false in
  let up := mkUpstream [sv 1; sv 3] [healthy; healthy] RoundRobin false in
  (λ j, pick_from up [0; 1]%nat None (8 + j)) <$> seqZ 0 4 = [0; 1; 1; 1]%nat.
Proof.
  intros sv up. apply (round_robin_fair up [0; 1]%nat None 2); [done | done | lia | by vm_compute | by vm_compute].
Defined.

(** A chosen peer is one of the servers, and not an excluded one. *)
Lemma select_chosen up now hash cur ex i :
  select_excluding up now hash cur ex = Some i → (i < length (servers up))%nat ∧ i ∉ ex.
Proof.
  unfold select_excluding. destruct (candidates_of up now false ex) as [|p ps] eqn:Hp.
  - destruct (candidates_of up now true ex) as [|b bs] eqn:Hb.
    + intros H. set (l := List.filter _ _) in *. pose proof (min_by_key_spec (λ i, down_until_ms (health_at up i)) l) as Hm.
      rewrite H in Hm. destruct Hm as [Hm _]. revert Hm. unfold l.
      rewrite list_elem_of_In, filter_In, in_seq, andb_true_iff, !negb_true_iff, bool_decide_eq_false. naive_solver lia.
    + intros [= <-]. pose proof (pick_from_elem up (b :: bs) hash cur ltac:(done)) as H.
      rewrite <-Hb in H at 2. apply candidates_spec in H as (? & ? & ? & ? & ?). done.
  - intros [= <-]. pose proof (pick_from_elem up (p :: ps) hash cur ltac:(done)) as H.
    rewrite <-Hp in H at 2. apply candidates_spec in H as (? & ? & ? & ? & ?). done.
Qed.

(** Out of service: held down by the active checks, or within a penalty. *)
Definition resting (h : PeerHealth) (now : Z) : Prop :=
  probe_down h = true ∨ down_until_ms h ≠ 0 ∧ now < down_until_ms h.

(** What may be asked at all *)
Definition eligible (up : Upstream) (ex : list nat) (i : nat) : Prop :=
  (i < length (servers up))%nat ∧ down (server_at up i) = false ∧ i ∉ ex.

(** What should be asked, among the primaries or among the backups *)
Definition fit (up : Upstream) (now : Z) (ex : list nat) (b : bool) (i : nat) : Prop :=
  eligible up ex i ∧ backup (server_at up i) = b ∧ ¬ resting (health_at up i) now.

Lemma is_down_resting h now : is_down h now = true ↔ resting h now.
Proof.
  unfold is_down, resting. destruct (probe_down h); [by split; [left |] |].
  rewrite andb_true_iff, negb_true_iff, bool_decide_eq_false, bool_decide_eq_true. naive_solver.
Qed.

Lemma candidates_fit up now b ex i : i ∈ candidates_of up now b ex ↔ fit up now ex b i.
Proof.
  rewrite candidates_spec. unfold fit, eligible. rewrite <-is_down_resting, not_true_iff_false. naive_solver.
Qed.

Lemma none_fit up now b ex : candidates_of up now b ex = [] → ∀ i, ¬ fit up now ex b i.
Proof. intros He i Hi%candidates_fit. rewrite He in Hi. by apply elem_of_nil in Hi. Qed.

Lemma picked_fit up now b ex hash cur : candidates_of up now b ex ≠ [] →
  fit up now ex b (pick_from up (candidates_of up now b ex) hash cur).
Proof. intros He. by apply candidates_fit, pick_from_elem. Qed.

(** C36. A peer that is chosen exists, is not marked down and has not been tried
    for this request. It is a primary in service where there is one; else a
    backup in service where there is one; else, of those that may be asked,
    one with the least recorded end of a penalty. None is chosen only when
    every peer is marked down or has been tried. *)
Theorem select_sound_complete up now hash cur ex :
  match select_excluding up now hash cur ex with
  | Some i =>
      eligible up ex i ∧
      ((∃ j, fit up now ex false j) → fit up now ex false i) ∧
      ((¬ ∃ j, fit up now ex false j) → (∃ j, fit up now ex true j) → fit up now ex true i) ∧
      ((¬ ∃ j, fit up now ex false j) → (¬ ∃ j, fit up now ex true j) →
       ∀ j, eligible up ex j → down_until_ms (health_at up i) ≤ down_until_ms (health_at up j))
  | None => ∀ i, ¬ eligible up ex i
  end.
Proof.
  unfold select_excluding. pose proof (picked_fit up now false ex hash cur) as Hf. pose proof (picked_fit up now true ex hash cur) as Ht.
  pose proof (none_fit up now false ex) as Nf. pose proof (none_fit up now true ex) as Nt.
  destruct (candidates_of up now false ex) as [|p ps]; [destruct (candidates_of up now true ex) as [|b bs] |].
  - set (l := List.filter _ _). pose proof (min_by_key_spec (λ i, down_until_ms (health_at up i)) l) as H.
    assert (∀ i, i ∈ l ↔ eligible up ex i) as Hl.
    { intros i. unfold l, eligible. rewrite list_elem_of_In, filter_In, in_seq, andb_true_iff, !negb_true_iff, bool_decide_eq_false. naive_solver lia. }
    destruct (min_by_key _ _) as [i|]; [| intros i Hi%Hl; rewrite H in Hi; by apply elem_of_nil in Hi].
    destruct H as [Hi Hm]. split_and!; [by apply Hl | by intros [j []%Nf] | by intros _ [j []%Nt] | intros _ _ j Hj%Hl; by apply Hm].
  - specialize (Ht ltac:(done)). split_and!; [apply Ht | by intros [j []%Nf] | done | intros _ []; by eexists].
  - specialize (Hf ltac:(done)). split_and!; [apply Hf | done | intros []; by eexists | intros []; by eexists].
Qed.

(** The second primary rests, the first has been tried. *)
Example backup_is_asked :
  let sv b := mkServer [] [] 1 b false in
  select_excluding (mkUpstream [sv false; sv false; sv true] [healthy; mkHealth 3 900 0 0 0 0 false; healthy] RoundRobin false)
    500 None 0 [0%nat] = Some 2%nat.
Proof. reflexivity. Qed.

(** Active checks have hysteresis: the state they keep is a function of
    the probe history alone, in which a peer goes down only at the end of
    [fails] failures in a row and comes back only at the end of [passes]
    successes in a row. *)
Theorem probe_hysteresis f p rs :
  Z.of_nat (length rs) < 2 ^ 32 →
  probe_down (probes f p rs healthy) = probed_down f p (reverse rs).
Proof. intros H. by apply probes_state. Qed.

Lemma probe_hysteresis_witness :
  probe_down (probes 2 2 [false; true; false; false; true] healthy) = true.
Proof. rewrite (probe_hysteresis 2 2); [reflexivity | by vm_compute]. Defined.

(** Passive ejection: [max_fails] failures inside one [fail_timeout]
    window take a peer out, for that long after the last of them, and fewer
    leave it in. *)
Theorem passive_ejection mf ft t0 ts now :
  0 < mf → 0 ≤ ft → 0 < t0 → Forall (λ t, t0 ≤ t ≤ t0 + ft) ts →
  Z.of_nat (length ts) + 1 < 2 ^ 32 →
  is_down (failures mf ft (t0 :: ts) healthy) now =
  bool_decide (mf ≤ Z.of_nat (length ts) + 1 ∧ now < default t0 (last ts) + ft).
Proof.
  intros Hm Hf Ht0 Hts Hlen. destruct (failures_window mf ft t0 ts) as (_ & _ & Hp & Hd); [done..|].
  unfold is_down. rewrite Hp, Hd. case_decide as Hc.
  - assert (0 < default t0 (last ts)) as Hl.
    { destruct (last ts) as [t|] eqn:E; [|done]. cbn. apply last_Some_elem_of in E.
      rewrite Forall_forall in Hts. specialize (Hts t E). lia. }
    rewrite bool_decide_eq_false_2 by lia. cbn [negb andb]. apply bool_decide_ext. tauto.
  - rewrite bool_decide_eq_true_2 by done. cbn [negb andb]. symmetry. apply bool_decide_eq_false_2. tauto.
Qed.

Lemma passive_ejection_witness :
  is_down (failures 3 10000 [100; 200; 300] healthy) 5000 = true.
Proof.
  rewrite (passive_ejection 3 10000 100 [200; 300] 5000);
    [reflexivity | lia | lia | lia | repeat constructor; lia | by vm_compute].
Defined.

(** The idle pool never holds more than [keepalive] connections a peer,
    and hands out only connections that are reusable and younger than the
    idle limit. *)
Theorem pool_bounded {stream : Type} (is_reusable : stream → bool) now a (s : stream) keepalive pool :
  (∀ b l, pool !! b = Some l → (length l <= keepalive)%nat) →
  (∀ b l, put_conn now a s keepalive pool !! b = Some l → (length l <= keepalive)%nat) ∧
  (let '(r, pool') := take_conn is_reusable now a pool in
   (∀ b l, pool' !! b = Some l → (length l <= keepalive)%nat) ∧
   ∀ t, r = Some t → is_reusable t = true ∧
     ∃ l since, pool !! a = Some l ∧ (t, since) ∈ l ∧ now - since < MAX_IDLE).
Proof.
  intros Hinv. split.
  - intros b l. unfold put_conn. case_decide; [apply Hinv |].
    destruct (decide (b = a)) as [->|]; [|rewrite lookup_insert_ne by done; apply Hinv].
    rewrite lookup_insert_eq. intros [= <-]. rewrite length_app. cbn [length].
    destruct (pool !! a) as [l0|] eqn:E.
    + pose proof (Hinv a l0 E). case_decide; [rewrite length_drop|]; lia.
    + case_decide; cbn; lia.
  - unfold take_conn. destruct (pool !! a) as [l|] eqn:E; [|by split].
    assert (∀ rl r rest, take_loop is_reusable now rl = (r, rest) →
      (length rest <= length rl)%nat ∧
      ∀ t, r = Some t → is_reusable t = true ∧ ∃ since, (t, since) ∈ rl ∧ now - since < MAX_IDLE) as Hloop.
    { induction rl as [|[t since] rl IH]; cbn [take_loop]; intros r rest.
      - intros [= <- <-]. split; [cbn; lia | done].
      - case_decide; [intros [= <- <-]; split; [cbn; lia | done] |].
        destruct (is_reusable t) eqn:Hr.
        + intros [= <- <-]. split; [cbn; lia |]. intros ? [= <-]. split; [done |].
          exists since. split; [left | lia].
        + intros [Hl Ht]%IH. split; [cbn; lia |]. intros t' Ht'.
          destruct (Ht t' Ht') as (? & since' & ? & ?). split; [done |]. exists since'.
          split; [by right | done]. }
    destruct (take_loop is_reusable now (reverse l)) as [r rest] eqn:El. apply Hloop in El as [Hl Ht].
    split.
    + intros b l'. destruct (decide (b = a)) as [->|]; [|rewrite lookup_insert_ne by done; apply Hinv].
      rewrite lookup_insert_eq. intros [= <-]. rewrite length_reverse in *. specialize (Hinv a l E). lia.
    + intros t Hr. destruct (Ht t Hr) as (? & since & Hin & ?). split; [done |]. exists l, since.
      split; [done |]. split; [by apply elem_of_reverse | done].
Qed.

Lemma pool_bounded_witness :
  let pool := put_conn 5 (str "a") 7%nat 2 {[ str "a" := [(1%nat, 0); (2%nat, 1)] ]} in
  pool !! str "a" = Some [(2%nat, 1); (7%nat, 5)] ∧ (length [(2%nat, 1%Z); (7%nat, 5%Z)] <= 2)%nat.
Proof.
  split; [reflexivity |].
  assert (∀ b l, put_conn 5 (str "a") 7%nat 2 {[ str "a" := [(1%nat, 0); (2%nat, 1)] ]} !! b = Some l →
    (length l <= 2)%nat) as H.
  { apply (pool_bounded (λ _ : nat, true) 5 (str "a") 7%nat 2 {[ str "a" := [(1%nat, 0); (2%nat, 1)] ]}).
    intros b l [<- <-]%lookup_singleton_Some. done. }
  apply (H (str "a")). reflexivity.
Defined.

(** When every peer is out, the fallback looks only at the passive
    penalty: a peer the active checks hold down, which has no expiry, is
    preferred over one whose penalty is about to end. *)
Theorem fallback_prefers_probe_down :
  let sv := mkServer [] [] 1 false false in
  let probed := mkHealth 0 0 0 0 1 0 true in
  let ejected := mkHealth 1 1001 0 0 0 0 false in
  select (mkUpstream [sv; sv] [ejected; probed] RoundRobin false) 1000 None 0 = Some 1%nat.
Proof. reflexivity. Qed.
