(* ===== verification/Request.v ===== *)
(** * [src/http/request.rs]: the request head

    A request is byte ranges into the connection's buffer plus an index of
    its frequent headers.  [Req::parse] runs the [httparse] crate over the
    buffer; the crate is a parameter here ([httparse]), with what its
    documentation promises of a complete parse as [httparse_ok].
    [Req::from_parts] builds the same structure for HTTP/2 and HTTP/3.  The
    reference definition of header lookup is [first_header], a linear scan;
    the index is shown to agree with it. *)
From S2P Require Import Prelude.
From S2P Require Import Text.
From S2P Require Import Uri.

Open Scope Z_scope.

(** ** The code *)

Inductive Method := Get | HeadM | Post | Put | Delete | Options | Patch | Connect | Trace | Other.

#[export] Instance Method_eq_dec : EqDecision Method.
Proof. solve_decision. Defined.

Definition as_str (m : Method) : bytes :=
  match m with
  | Get => str "GET" | HeadM => str "HEAD" | Post => str "POST" | Put => str "PUT"
  | Delete => str "DELETE" | Options => str "OPTIONS" | Patch => str "PATCH"
  | Connect => str "CONNECT" | Trace => str "TRACE" | Other => []
  end.

Definition method_parse (s : bytes) : Method :=
  if decide (s = str "GET") then Get
  else if decide (s = str "HEAD") then HeadM
  else if decide (s = str "POST") then Post
  else if decide (s = str "PUT") then Put
  else if decide (s = str "DELETE") then Delete
  else if decide (s = str "OPTIONS") then Options
  else if decide (s = str "PATCH") then Patch
  else if decide (s = str "CONNECT") then Connect
  else if decide (s = str "TRACE") then Trace
  else Other.

Definition is_safe (m : Method) : bool :=
  match m with Get | HeadM => true | _ => false end.

(** Headers with an index slot; [hot_slot] is [h as usize]. *)
Inductive Hot :=
  | Host | Connection | ContentLength | TransferEncoding | AcceptEncoding | IfNoneMatch
  | IfModifiedSince | IfMatch | IfUnmodifiedSince | IfRange | RangeH | UserAgent | Referer | Cookie
  | Expect | XForwardedFor | ContentType | Upgrade | Authorization.

#[export] Instance Hot_eq_dec : EqDecision Hot.
Proof. solve_decision. Defined.

Definition hot_slot (h : Hot) : nat :=
  match h with
  | Host => 0 | Connection => 1 | ContentLength => 2 | TransferEncoding => 3 | AcceptEncoding => 4
  | IfNoneMatch => 5 | IfModifiedSince => 6 | IfMatch => 7 | IfUnmodifiedSince => 8 | IfRange => 9
  | RangeH => 10 | UserAgent => 11 | Referer => 12 | Cookie => 13 | Expect => 14
  | XForwardedFor => 15 | ContentType => 16 | Upgrade => 17 | Authorization => 18
  end%nat.

Definition HOT_COUNT : nat := 19.

(** The arms of [hot_of], in order: a length and a name. *)
Definition hot_arms : list (nat * bytes * Hot) :=
  [(4, str "host", Host); (5, str "range", RangeH); (6, str "cookie", Cookie);
   (6, str "expect", Expect); (7, str "referer", Referer); (7, str "upgrade", Upgrade);
   (8, str "if-match", IfMatch); (8, str "if-range", IfRange); (10, str "connection", Connection);
   (10, str "user-agent", UserAgent); (12, str "content-type", ContentType);
   (13, str "if-none-match", IfNoneMatch); (13, str "authorization", Authorization);
   (14, str "content-length", ContentLength); (15, str "accept-encoding", AcceptEncoding);
   (15, str "x-forwarded-for", XForwardedFor); (17, str "if-modified-since", IfModifiedSince);
   (17, str "transfer-encoding", TransferEncoding);
   (19, str "if-unmodified-since", IfUnmodifiedSince)]%nat.

Fixpoint match_arms (arms : list (nat * bytes * Hot)) (name : bytes) : option Hot :=
  match arms with
  | [] => None
  | (n, s, h) :: arms =>
      if bool_decide (length name = n) && eq_ignore_ascii_case name s then Some h
      else match_arms arms name
  end.

Definition hot_of (name : bytes) : option Hot := match_arms hot_arms name.

(** [Range<usize>] *)
Record Range := mkRange { start : nat; stop : nat }.

Definition span (buf : bytes) (r : Range) : bytes := take (stop r - start r) (drop (start r) buf).

Record HeaderRef := mkHeaderRef { name : Range; value : Range }.

Inductive Body := NoBody | Length (n : Z) | Chunked.

#[export] Instance Body_eq_dec : EqDecision Body.
Proof. solve_decision. Defined.

Record Req := mkReq {
  method : Method;
  method_raw : Range;
  target : Range;
  path : Range;
  query : Range;
  minor : Z;
  headers : list HeaderRef;
  hot : list Z;
  head_len : nat;
  body : Body;
  keep_alive : bool
}.

Definition NO_HEADER : Z := 65535.
Definition MAX_HEADERS : nat := 96.

Inductive ParseResult := Partial | Complete | Error (code : Z).

Definition new_req : Req :=
  mkReq Get (mkRange 0 0) (mkRange 0 0) (mkRange 0 0) (mkRange 0 0) 1 []
    (replicate HOT_COUNT NO_HEADER) 0 NoBody true.

Definition reset (r : Req) : Req :=
  mkReq (method r) (method_raw r) (target r) (path r) (query r) (minor r) []
    (replicate HOT_COUNT NO_HEADER) 0 NoBody true.

Definition with_body (b : Body) (r : Req) : Req :=
  mkReq (method r) (method_raw r) (target r) (path r) (query r) (minor r) (headers r) (hot r)
    (head_len r) b (keep_alive r).
Definition with_keep_alive (k : bool) (r : Req) : Req :=
  mkReq (method r) (method_raw r) (target r) (path r) (query r) (minor r) (headers r) (hot r)
    (head_len r) (body r) k.

(** [slice]: the text of a range, empty when it is not UTF-8. *)
Definition slice (buf : bytes) (r : Range) : bytes := default [] (from_utf8 (span buf r)).

(** Appends a header and updates the index, keeping the first occurrence;
    [idx as u16] truncates. *)
Definition push_header (name value : Range) (buf : bytes) (r : Req) : Req :=
  let idx := length (headers r) in
  let hot' :=
    match hot_of (span buf name) with
    | Some h =>
        if decide (hot r !! hot_slot h = Some NO_HEADER)
        then <[hot_slot h := wrap 16 (Z.of_nat idx)]> (hot r) else hot r
    | None => hot r
    end in
  mkReq (method r) (method_raw r) (target r) (path r) (query r) (minor r)
    (headers r ++ [mkHeaderRef name value]) hot' (head_len r) (body r) (keep_alive r).

Definition hot_value (buf : bytes) (h : Hot) (r : Req) : option bytes :=
  i ← hot r !! hot_slot h;
  if decide (i = NO_HEADER) then None
  else hr ← headers r !! Z.to_nat i; Some (slice buf (value hr)).

(** Case-insensitive lookup. *)
Definition header (buf : bytes) (n : bytes) (r : Req) : option bytes :=
  match hot_of n with
  | Some h => hot_value buf h r
  | None =>
      '(_, hr) ← list_find (λ hr, eq_ignore_ascii_case (span buf (name hr)) n = true) (headers r);
      Some (slice buf (value hr))
  end.

(** True when a comma-separated header value contains [token]. *)
Definition header_has_token (value token : bytes) : bool :=
  existsb (λ p, eq_ignore_ascii_case (trim (default [] (head (split ";"%byte p)))) token)
    (split ","%byte value).

(** [host]: the [Host] header without its port. *)
Definition host (buf : bytes) (r : Req) : bytes :=
  let h := default [] (hot_value buf Host r) in
  if starts_with (str "[") h then
    match find "]"%byte h with Some i => take (i + 1) h | None => h end
  else match rfind ":"%byte h with Some i => take i h | None => h end.

Definition accepts_gzip (buf : bytes) (r : Req) : bool :=
  match hot_value buf AcceptEncoding r with Some v => header_has_token v (str "gzip") | None => false end.

Definition expects_continue (buf : bytes) (r : Req) : bool :=
  match hot_value buf Expect r with Some v => eq_ignore_ascii_case v (str "100-continue") | None => false end.

(** *** [Req::from_parts] *)

(** The closure [put]: appends a string and returns where it went. *)
Definition put (buf s : bytes) : bytes * Range :=
  (buf ++ s, mkRange (length buf) (length buf + length s)).

Fixpoint put_headers (hs : list (bytes * bytes)) (buf : bytes) (r : Req) : bytes * Req :=
  match hs with
  | [] => (buf, r)
  | (n, v) :: hs =>
      let '(buf, nr) := put buf n in
      let '(buf, vr) := put buf v in
      put_headers hs buf (push_header nr vr buf r)
  end.

Definition from_parts (m t : bytes) (hs : list (bytes * bytes)) : bytes * Req :=
  let '(buf, mr) := put [] m in
  let '(buf, tr) := put buf t in
  let '(p, q) := split_query t in
  let s := start tr in
  let query :=
    if decide (q = []) then mkRange s s else mkRange (s + length p + 1) (s + length t) in
  put_headers hs buf
    (mkReq (method_parse m) mr tr (mkRange s (s + length p)) query 1 []
       (replicate HOT_COUNT NO_HEADER) 0 NoBody true).

(** *** [Req::parse] *)

Inductive HttparseError := TooManyHeaders | Version | OtherError.

(** [httparse::Request] after a parse: slices of the buffer, as ranges. *)
Record Head := mkHead {
  h_method : option Range;
  h_path : option Range;
  h_version : option Z;
  h_headers : list (Range * Range)
}.

(** The loop over the parsed headers, which stops at an empty name. *)
Fixpoint push_all (buf : bytes) (hs : list (Range * Range)) (r : Req) : Req :=
  match hs with
  | [] => r
  | (n, v) :: hs =>
      if decide (span buf n = []) then r else push_all buf hs (push_header n v buf r)
  end.

(** Keep-alive by version and [Connection]. *)
Definition decide_keep_alive (buf : bytes) (r : Req) : bool :=
  match hot_value buf Connection r with
  | Some v =>
      if header_has_token v (str "close") then false
      else if header_has_token v (str "keep-alive") then true
      else bool_decide (minor r = 1)
  | None => bool_decide (minor r = 1)
  end.

(** The body's framing: [None] is the early [Error(400)]. *)
Definition framing (buf : bytes) (r : Req) : option Body :=
  match hot_value buf TransferEncoding r, hot_value buf ContentLength r with
  | Some te, cl =>
      if negb (eq_ignore_ascii_case te (str "chunked")) then None
      else match cl with Some _ => None | None => Some Chunked end
  | None, Some cl =>
      let dups := length (filter (λ h, eq_ignore_ascii_case (span buf (name h)) (str "content-length") = true)
                            (headers r)) in
      if decide (1 < dups)%nat then None
      else Length <$> parse_uint u64_max (trim cl)
  | None, None => Some NoBody
  end.

Section parse.
  Context (httparse : bytes → result HttparseError (option (nat * Head))).

(** The request line, once the version is known to be [minor]. *)
Definition request_line (buf : bytes) (head_len : nat) (mr tr : Range) (minor : Z) : Req :=
  let '(p, q) := split_query (span buf tr) in
  let pr := mkRange (start tr) (start tr + length p) in
  let qr := if decide (q = []) then mkRange (stop tr) (stop tr)
            else mkRange (start tr + length p + 1) (start tr + length p + 1 + length q) in
  mkReq (method_parse (span buf mr)) mr tr pr qr minor [] (replicate HOT_COUNT NO_HEADER)
    head_len NoBody true.

(** What is left in [self] after an error is not used: the connection is
    closed; it is [reset self] here. *)
Definition parse (buf : bytes) (self : Req) : Req * ParseResult :=
  let self := reset self in
  match httparse buf with
  | Err TooManyHeaders => (self, Error 431)
  | Err Version => (self, Error 505)
  | Err OtherError => (self, Error 400)
  | Ok None => (self, Partial)
  | Ok (Some (n, p)) =>
      match h_method p, h_path p with
      | Some mr, Some tr =>
          if decide (h_version p = Some 0 ∨ h_version p = Some 1) then
            let r := request_line buf n mr tr (default 0 (h_version p)) in
            let r := push_all buf (h_headers p) r in
            let r := with_keep_alive (decide_keep_alive buf r) r in
            match framing buf r with
            | None => (self, Error 400)
            | Some b =>
                let r := with_body b r in
                if decide (minor r = 1 ∧ hot r !! hot_slot Host = Some NO_HEADER)
                then (self, Error 400) else (r, Complete)
            end
          else (self, Error 505)
      | _, _ => (self, Error 400)
      end
  end.

End parse.

(** ** The index against a linear scan *)

Definition hot_name (h : Hot) : bytes :=
  match h with
  | Host => str "host" | Connection => str "connection" | ContentLength => str "content-length"
  | TransferEncoding => str "transfer-encoding" | AcceptEncoding => str "accept-encoding"
  | IfNoneMatch => str "if-none-match" | IfModifiedSince => str "if-modified-since"
  | IfMatch => str "if-match" | IfUnmodifiedSince => str "if-unmodified-since"
  | IfRange => str "if-range" | RangeH => str "range" | UserAgent => str "user-agent"
  | Referer => str "referer" | Cookie => str "cookie" | Expect => str "expect"
  | XForwardedFor => str "x-forwarded-for" | ContentType => str "content-type"
  | Upgrade => str "upgrade" | Authorization => str "authorization"
  end.

(** The values of every header of a name, in order, whatever its case. *)
Definition named (buf n : bytes) (hr : HeaderRef) : Prop :=
  lowercase (span buf (name hr)) = lowercase n.

#[export] Instance named_dec buf n hr : Decision (named buf n hr).
Proof. unfold named. apply _. Defined.

Definition values (buf n : bytes) (hs : list HeaderRef) : list bytes :=
  (λ hr, slice buf (value hr)) <$> filter (named buf n) hs.

Lemma lowercase_length s : length (lowercase s) = length s.
Proof. apply length_fmap. Qed.

Lemma to_ascii_lowercase_idem b : to_ascii_lowercase (to_ascii_lowercase b) = to_ascii_lowercase b.
Proof. by destruct b. Qed.

Lemma lowercase_idem s : lowercase (lowercase s) = lowercase s.
Proof.
  unfold lowercase. rewrite <-list_fmap_compose. apply list_fmap_ext.
  intros i x _. apply to_ascii_lowercase_idem.
Qed.

Lemma match_arms_lowercase arms n : match_arms arms (lowercase n) = match_arms arms n.
Proof.
  induction arms as [|[[k s] h] arms IH]; [done |]. cbn [match_arms].
  unfold eq_ignore_ascii_case. by rewrite lowercase_idem, lowercase_length, IH.
Qed.

Lemma hot_name_lower h : lowercase (hot_name h) = hot_name h.
Proof. by destruct h. Qed.

(** [hot_of] is case-insensitive comparison with the names of the slots. *)
Lemma hot_of_spec n h : hot_of n = Some h ↔ lowercase n = hot_name h.
Proof.
  split.
  - unfold hot_of.
    assert (Forall (λ '(_, s, h), lowercase s = hot_name h) hot_arms) as Harms by by repeat constructor.
    induction Harms as [|[[k s] h'] arms Hs _ IH]; [done |]. cbn [match_arms].
    destruct (_ && _) eqn:E; [|done]. intros [= ->].
    apply andb_true_iff in E as [_ E%eq_ignore_ascii_case_spec]. congruence.
  - intros Hn. unfold hot_of. rewrite <-match_arms_lowercase, Hn. by destruct h.
Qed.

Lemma named_hot buf h hr : named buf (hot_name h) hr ↔ hot_of (span buf (name hr)) = Some h.
Proof. unfold named. by rewrite hot_of_spec, hot_name_lower. Qed.

(** What the index of a list of headers is. *)
Definition slot_value (buf : bytes) (hs : list HeaderRef) (h : Hot) : Z :=
  match list_find (named buf (hot_name h)) hs with
  | Some (i, _) => Z.of_nat i
  | None => NO_HEADER
  end.

Definition hot_ok (buf : bytes) (r : Req) : Prop :=
  (length (headers r) ≤ Z.to_nat NO_HEADER)%nat ∧
  ∀ h, hot r !! hot_slot h = Some (slot_value buf (headers r) h).

Lemma hot_slot_inj h h' : hot_slot h = hot_slot h' → h = h'.
Proof. by destruct h, h'. Qed.

Lemma slot_value_fresh buf hs h :
  (length hs ≤ Z.to_nat NO_HEADER)%nat →
  slot_value buf hs h = NO_HEADER ↔ list_find (named buf (hot_name h)) hs = None.
Proof.
  intros Hl. unfold slot_value. destruct (list_find _ _) as [[i hr]|] eqn:E; [|done].
  apply list_find_Some in E as (Hi%lookup_lt_Some & _). unfold NO_HEADER in *. split; [lia | done].
Qed.

Lemma push_header_ok n v buf r :
  hot_ok buf r → (length (headers r) < Z.to_nat NO_HEADER)%nat → hot_ok buf (push_header n v buf r).
Proof.
  intros [Hl Hh] Hlt. split; [cbn; rewrite length_app; cbn; lia |]. intros h. unfold push_header. cbn [hot headers].
  unfold slot_value. rewrite list_find_snoc. fold (slot_value buf (headers r) h).
  set (hr := mkHeaderRef n v).
  assert (∀ g, hot_of (span buf n) = Some g ↔ named buf (hot_name g) hr) as Hnamed
    by (intros; symmetry; apply named_hot).
  pose proof (slot_value_fresh buf (headers r) h Hl) as Hfr.
  destruct (hot_of (span buf n)) as [g|] eqn:Hg.
  - rewrite (Hh g). destruct (decide (h = g)) as [->|Hne].
    + rewrite (decide_True (P := named _ _ _)) by (by apply Hnamed).
      destruct (list_find _ (headers r)) as [[i x]|] eqn:Hf.
      * rewrite decide_False by (intros [= E%Hfr]; done).
        rewrite Hh. unfold slot_value. by rewrite Hf.
      * rewrite decide_True by (f_equal; by apply Hfr).
        rewrite list_lookup_insert_eq; [|by apply lookup_lt_is_Some_1; rewrite Hh].
        f_equal. unfold wrap, NO_HEADER in *. apply Z.mod_small. lia.
    + rewrite (decide_False (P := named _ _ _)).
      2: { intros E%Hnamed. congruence. }
      assert ((if decide (Some (slot_value buf (headers r) g) = Some NO_HEADER)
        then <[hot_slot g := wrap 16 (Z.of_nat (length (headers r)))]> (hot r) else hot r) !! hot_slot h
        = hot r !! hot_slot h) as ->.
      { case_decide; [|done]. apply list_lookup_insert_ne. intros E%hot_slot_inj. congruence. }
      rewrite Hh. unfold slot_value. by destruct (list_find _ (headers r)) as [[]|].
  - rewrite (decide_False (P := named _ _ _)) by (intros E%Hnamed; congruence).
    rewrite Hh. unfold slot_value. by destruct (list_find _ (headers r)) as [[]|].
Qed.

Lemma hot_value_spec buf h r :
  hot_ok buf r → hot_value buf h r = head (values buf (hot_name h) (headers r)).
Proof.
  intros [Hl Hh]. unfold hot_value, values. rewrite Hh. cbn [mbind option_bind].
  rewrite head_fmap, head_filter_find. pose proof (slot_value_fresh buf (headers r) h Hl) as Hfr.
  unfold slot_value in *. destruct (list_find _ _) as [[i hr]|] eqn:E.
  - rewrite decide_False by (intros C%Hfr; done). rewrite Nat2Z.id.
    apply list_find_Some in E as (-> & _). done.
  - by rewrite decide_True.
Qed.

Lemma values_lowercase buf n n' hs : lowercase n = lowercase n' → values buf n hs = values buf n' hs.
Proof.
  intros Hn. unfold values. f_equal. apply list_filter_iff. intros hr. unfold named. by rewrite Hn.
Qed.

Lemma header_spec buf n r :
  hot_ok buf r → header buf n r = head (values buf n (headers r)).
Proof.
  intros Hok. unfold header. destruct (hot_of n) as [h|] eqn:Hn.
  - rewrite hot_value_spec by done. apply hot_of_spec in Hn. f_equal. apply values_lowercase.
    by rewrite <-Hn, lowercase_idem.
  - unfold values. rewrite head_fmap, head_filter_find.
    rewrite (list_find_ext' _ (named buf n)).
    + by destruct (list_find _ _) as [[]|].
    + intros hr _. apply eq_ignore_ascii_case_spec.
Qed.

(** *** Building from parts *)

Definition in_bounds (buf : bytes) (r : Range) : Prop := (start r ≤ stop r ≤ length buf)%nat.

Lemma span_app buf x r : (stop r ≤ length buf)%nat → span (buf ++ x) r = span buf r.
Proof.
  intros Hr. unfold span. destruct (decide (start r ≤ length buf)%nat).
  - rewrite drop_app_le by lia. apply take_app_le. rewrite length_drop. lia.
  - replace (stop r - start r)%nat with O by lia. done.
Qed.

Lemma span_put buf s : span (fst (put buf s)) (snd (put buf s)) = s.
Proof.
  unfold span, put. cbn. rewrite drop_app_length.
  replace (length buf + length s - length buf)%nat with (length s) by lia. by rewrite firstn_all.
Qed.

Definition pair_at (buf : bytes) (hr : HeaderRef) : bytes * bytes :=
  (span buf (name hr), span buf (value hr)).

Definition bounded (buf : bytes) (r : Req) : Prop :=
  Forall (λ hr, in_bounds buf (name hr) ∧ in_bounds buf (value hr)) (headers r).

Lemma hot_ok_app buf x r : bounded buf r → hot_ok buf r → hot_ok (buf ++ x) r.
Proof.
  intros Hb [Hl Hh]. split; [done |]. intros h. rewrite Hh. f_equal. unfold slot_value.
  rewrite (list_find_ext' _ (named (buf ++ x) (hot_name h))); [done |].
  intros hr Hin. unfold bounded in Hb. rewrite Forall_forall in Hb. destruct (Hb hr Hin) as [[_ ?] _].
  unfold named. by rewrite span_app.
Qed.

Lemma in_bounds_app buf x r : in_bounds buf r → in_bounds (buf ++ x) r.
Proof. unfold in_bounds. rewrite length_app. lia. Qed.

Lemma bounded_app buf x r : bounded buf r → bounded (buf ++ x) r.
Proof.
  unfold bounded. intros Hb. eapply Forall_impl; [exact Hb |].
  intros hr []. split; by apply in_bounds_app.
Qed.

(** The loop of [from_parts] over the headers. *)
Lemma put_headers_ok hs buf r :
  hot_ok buf r → bounded buf r → (length (headers r) + length hs < Z.to_nat NO_HEADER)%nat →
  ∃ tail hrs, let '(buf', r') := put_headers hs buf r in
    buf' = buf ++ tail ∧
    r' = mkReq (method r) (method_raw r) (target r) (path r) (query r) (minor r) (headers r ++ hrs)
           (hot r') (head_len r) (body r) (keep_alive r) ∧
    pair_at buf' <$> hrs = hs ∧ hot_ok buf' r' ∧ bounded buf' r'.
Proof.
  revert buf r. induction hs as [|[n v] hs IH]; intros buf r Hok Hb Hlen; cbn [put_headers put].
  { exists [], []. rewrite !app_nil_r. split_and!; try done. by destruct r. }
  set (nr := mkRange _ _). set (vr := mkRange _ _).
  set (r1 := push_header nr vr ((buf ++ n) ++ v) r).
  assert (hot_ok ((buf ++ n) ++ v) r1) as Hok1.
  { apply push_header_ok; [|cbn in Hlen; lia].
    apply hot_ok_app; [by apply bounded_app | by apply hot_ok_app]. }
  assert (bounded ((buf ++ n) ++ v) r1) as Hb1.
  { unfold bounded. cbn [headers r1 push_header]. apply Forall_app. split.
    - by do 2 apply (bounded_app _ _ r).
    - constructor; [|done]. unfold in_bounds. cbn. rewrite !length_app. lia. }
  destruct (IH ((buf ++ n) ++ v) r1 Hok1 Hb1) as (tail & hrs & Hrest).
  { cbn [headers r1 push_header]. rewrite length_app. cbn in *. lia. }
  destruct (put_headers hs _ r1) as [buf' r']. destruct Hrest as (-> & Hr' & Hhs & Hok' & Hb').
  exists ((n ++ v) ++ tail), (mkHeaderRef nr vr :: hrs). split_and!; try done.
  - by rewrite !app_assoc.
  - rewrite Hr'. unfold r1, push_header. cbn. by rewrite <-app_assoc.
  - rewrite fmap_cons_eq, Hhs. f_equal. unfold pair_at. cbn [name value]. f_equal.
    + unfold nr. rewrite span_app, span_app by (cbn; rewrite !length_app; lia).
      apply (span_put buf n).
    + unfold vr. rewrite span_app by (cbn; rewrite !length_app; lia).
      apply (span_put (buf ++ n) v).
Qed.

(** *** Parsing *)

(** What [httparse] documents of a complete parse: its slices lie in the
    buffer, and there are at most as many headers as the array holds. *)
Definition httparse_ok (httparse : bytes → result HttparseError (option (nat * Head))) : Prop :=
  ∀ buf n p, httparse buf = Ok (Some (n, p)) →
    (n ≤ length buf)%nat ∧ (length (h_headers p) ≤ MAX_HEADERS)%nat ∧
    (∀ r, h_method p = Some r ∨ h_path p = Some r → in_bounds buf r) ∧
    Forall (λ '(a, b), in_bounds buf a ∧ in_bounds buf b) (h_headers p).

Lemma push_all_ok buf hs r :
  hot_ok buf r → bounded buf r → Forall (λ '(a, b), in_bounds buf a ∧ in_bounds buf b) hs →
  (length (headers r) + length hs < Z.to_nat NO_HEADER)%nat →
  let r' := push_all buf hs r in
  hot_ok buf r' ∧ bounded buf r' ∧ target r' = target r ∧ path r' = path r ∧ query r' = query r ∧
  minor r' = minor r.
Proof.
  intros Hok Hb Hall. revert r Hok Hb.
  induction Hall as [|[n v] hs [Hn Hv] _ IH]; intros r Hok Hb Hlen; [done |].
  cbn [push_all length] in *. case_decide; [done |].
  apply (IH (push_header n v buf r)).
  - apply push_header_ok; [done | lia].
  - unfold bounded. cbn. apply Forall_app. split; [done |]. by constructor.
  - cbn. rewrite length_app. cbn. lia.
Qed.

Lemma empty_hot buf r :
  headers r = [] → hot r = replicate HOT_COUNT NO_HEADER → hot_ok buf r.
Proof.
  intros Hh Ht. split; rewrite Hh; [cbn; lia |]. intros h. rewrite Ht. by destruct h.
Qed.

Lemma split_query_spec t :
  let '(p, q) := split_query t in
  t = p ++ (if decide (length p = length t) then [] else "?"%byte :: q) ∧
  (length p = length t → q = []) ∧ "?"%byte ∉ p.
Proof.
  unfold split_query. destruct (position _ t) as [i|] eqn:E.
  - apply position_Some in E as (c & Hc & Hq & Hbefore). apply bool_decide_eq_true in Hq as ->.
    pose proof (lookup_lt_Some _ _ _ Hc) as Hi. rewrite length_take.
    rewrite decide_False by lia. split_and!.
    + rewrite Nat.add_1_r. by rewrite (take_drop_middle t i _ Hc).
    + lia.
    + intros Hin%list_elem_of_lookup. destruct Hin as (j & Hj). apply lookup_take_Some in Hj as [Hj Hlt].
      specialize (Hbefore j _ Hlt Hj). by apply bool_decide_eq_false in Hbefore.
  - apply position_None in E. rewrite decide_True, app_nil_r by done. split_and!; [done | done |].
    rewrite Forall_forall in E. intros Hin. apply E in Hin. by apply bool_decide_eq_false in Hin.
Qed.

Lemma span_length buf r : in_bounds buf r → length (span buf r) = (stop r - start r)%nat.
Proof. unfold in_bounds, span. rewrite length_take, length_drop. lia. Qed.

Lemma span_sub buf r a b :
  in_bounds buf r → (a ≤ b ≤ stop r - start r)%nat →
  span buf (mkRange (start r + a) (start r + b)) = take (b - a) (drop a (span buf r)).
Proof.
  intros Hr Hab. unfold span. cbn [start stop]. rewrite skipn_firstn_comm, drop_drop, take_take. f_equal. lia.
Qed.

(** The path and the query of a target, as ranges. *)
Lemma split_ranges buf tr p q :
  in_bounds buf tr → split_query (span buf tr) = (p, q) →
  span buf (mkRange (start tr) (start tr + length p)) = p ∧
  (q ≠ [] → span buf (mkRange (start tr + length p + 1) (stop tr)) = q ∧
            (start tr + length p + 1 + length q = stop tr)%nat).
Proof.
  intros Hb Hs. pose proof (span_length buf tr Hb) as Hlen.
  pose proof (split_query_spec (span buf tr)) as Hspec. rewrite Hs in Hspec.
  destruct Hspec as (Ht & Hq & _). pose proof (f_equal length Ht) as Hl. rewrite length_app in Hl. split.
  - replace (start tr) with (start tr + 0)%nat at 1 by lia. rewrite span_sub by (done || lia).
    rewrite drop_0, Nat.sub_0_r, Ht. apply take_app_length.
  - intros Hne. rewrite decide_False in Ht, Hl by (intros E; by apply Hne, Hq). cbn [length] in Hl.
    destruct Hb as [Hb1 Hb2]. split; [|lia].
    replace (mkRange (start tr + length p + 1) (stop tr)) with
      (mkRange (start tr + (length p + 1)) (start tr + (stop tr - start tr))) by (f_equal; lia).
    rewrite span_sub by (done || lia). rewrite Ht.
    replace (length p + 1)%nat with (length (p ++ ["?"%byte])) by (rewrite length_app; done).
    replace (p ++ "?"%byte :: q) with ((p ++ ["?"%byte]) ++ q) by (by rewrite <-app_assoc).
    rewrite drop_app_length, length_app. cbn [length]. apply take_ge. lia.
Qed.

(** What a complete parse has gone through. *)
Lemma parse_complete_inv httparse buf self r :
  httparse_ok httparse → parse httparse buf self = (r, Complete) →
  ∃ n p mr tr r1 b, httparse buf = Ok (Some (n, p)) ∧ h_method p = Some mr ∧ h_path p = Some tr ∧
    (h_version p = Some 0 ∨ h_version p = Some 1) ∧
    r1 = push_all buf (h_headers p) (request_line buf n mr tr (default 0 (h_version p))) ∧
    hot_ok buf r1 ∧ bounded buf r1 ∧ in_bounds buf tr ∧
    framing buf (with_keep_alive (decide_keep_alive buf r1) r1) = Some b ∧
    r = with_body b (with_keep_alive (decide_keep_alive buf r1) r1) ∧
    ¬ (minor r1 = 1 ∧ hot r1 !! hot_slot Host = Some NO_HEADER).
Proof.
  intros Hh. unfold parse. destruct (httparse buf) as [[[n p]|]|[]] eqn:E; try done.
  destruct (Hh _ _ _ E) as (_ & Hlen & Hr & Hall).
  destruct (h_method p) as [mr|] eqn:Em; [|done]. destruct (h_path p) as [tr|] eqn:Ep; [|done].
  case_decide as Hv; [|done]. set (r0 := request_line buf n mr tr (default 0 (h_version p))).
  assert (headers r0 = [] ∧ hot r0 = replicate HOT_COUNT NO_HEADER) as [E1 E2]
    by (unfold r0, request_line; by destruct (split_query _)).
  destruct (push_all_ok buf (h_headers p) r0) as (Hok & Hb & _).
  - by apply empty_hot.
  - unfold bounded. by rewrite E1.
  - done.
  - rewrite E1. unfold MAX_HEADERS, NO_HEADER in *. cbn [length]. lia.
  - set (r1 := push_all _ _ _) in *. destruct (framing _ _) as [b|] eqn:Ef; [|done].
    case_decide as Hhost; [done |]. intros [= <-].
    exists n, p, mr, tr, r1, b. split_and!; try done. apply Hr. by right.
Qed.

(** ** Properties *)

(** C22. How the body of an accepted request is framed. It is chunked only if
    the first [Transfer-Encoding] is [chunked] - later ones are not looked at -
    and there is no [Content-Length] at all; it has a length only if there is
    exactly one [Content-Length], which [u64::from_str] reads as that number -
    so with a plus sign too - and no [Transfer-Encoding]; it has no body only if
    neither header is there. An HTTP/1.1 request has a [Host], and the connection
    persists as the version and the first [Connection] header say. *)
Theorem body_framing httparse buf self r :
  httparse_ok httparse → parse httparse buf self = (r, Complete) →
  let vals := λ n, values buf (str n) (headers r) in
  match body r with
  | Chunked => (∃ te, head (vals "transfer-encoding"%string) = Some te ∧
                  lowercase te = str "chunked") ∧ vals "content-length"%string = []
  | Length n => vals "transfer-encoding"%string = [] ∧
                ∃ v, vals "content-length"%string = [v] ∧ parse_uint u64_max (trim v) = Some n
  | NoBody => vals "transfer-encoding"%string = [] ∧ vals "content-length"%string = []
  end ∧
  (minor r = 1 → vals "host"%string ≠ []) ∧
  keep_alive r = match head (vals "connection"%string) with
                 | Some v => if header_has_token v (str "close") then false
                             else if header_has_token v (str "keep-alive") then true
                             else bool_decide (minor r = 1)
                 | None => bool_decide (minor r = 1)
                 end.
Proof.
  intros Hh (n & p & mr & tr & r1 & b & _ & _ & _ & _ & _ & Hok & _ & _ & Hf & -> & Hhost)%parse_complete_inv;
    [|done].
  cbn [with_body with_keep_alive body headers minor keep_alive]. split_and!.
  - revert Hf. unfold framing. cbn [headers with_keep_alive].
    change (hot_value buf ?h (with_keep_alive ?k r1)) with (hot_value buf h r1).
    rewrite !hot_value_spec by done. cbn [hot_name].
    destruct (values buf (str "transfer-encoding") _) as [|te tes]; cbn [head].
    + destruct (values buf (str "content-length") _) as [|cl cls] eqn:Ecl; cbn [head]; [by intros [= <-] |].
      case_decide as Hd; [done |]. intros (x & Hx & ->)%fmap_Some. split; [done |]. exists cl.
      split; [|done]. destruct cls as [|cl2 cls]; [done |]. exfalso. apply Hd.
      apply (f_equal length) in Ecl. unfold values in Ecl. rewrite length_fmap in Ecl. cbn [length] in Ecl.
      erewrite list_filter_iff; [rewrite Ecl; lia |].
      intros hr. unfold named. apply eq_ignore_ascii_case_spec.
    + destruct (eq_ignore_ascii_case te (str "chunked")) eqn:Ete; [|done]. cbn [negb].
      destruct (values buf (str "content-length") _) as [|cl cls]; cbn [head]; [|done].
      intros [= <-]. split; [|done]. exists te. split; [done |].
      by apply eq_ignore_ascii_case_spec in Ete.
  - intros Hm Hv. apply Hhost. split; [done |]. destruct Hok as [Hl Hs]. rewrite Hs. f_equal.
    apply slot_value_fresh; [done |]. cbn [hot_name].
    assert (head (filter (named buf (str "host")) (headers r1)) = None) as Hnone.
    { unfold values in Hv. apply fmap_nil_inv in Hv. by rewrite Hv. }
    rewrite head_filter_find in Hnone. by destruct (list_find _ _) as [[]|].
  - unfold decide_keep_alive. by rewrite hot_value_spec.
Qed.

(** A parsed request reads back as it was sent: every range lies in the
    buffer, path and query are the two halves of the target, and [header] -
    through the index or not - is the first header of that name in the
    request, whatever its case. *)
Theorem parse_lookup httparse buf self r :
  httparse_ok httparse → parse httparse buf self = (r, Complete) →
  bounded buf r ∧ in_bounds buf (target r) ∧
  (span buf (path r), span buf (query r)) = split_query (span buf (target r)) ∧
  ∀ n, header buf n r = head (values buf n (headers r)).
Proof.
  intros Hh (n & p & mr & tr & r1 & b & E & _ & _ & _ & Hr1 & Hok & Hb & Htr & Hf & -> & _)%parse_complete_inv;
    [|done].
  destruct (Hh _ _ _ E) as (_ & Hlen & _ & Hall).
  set (r0 := request_line buf n mr tr (default 0 (h_version p))) in *.
  assert (headers r0 = [] ∧ hot r0 = replicate HOT_COUNT NO_HEADER ∧ target r0 = tr) as (E1 & E2 & E3)
    by (unfold r0, request_line; by destruct (split_query _)).
  destruct (push_all_ok buf (h_headers p) r0) as (_ & _ & Et & Ep & Eq & _);
    [by apply empty_hot | unfold bounded; by rewrite E1 | done |
     rewrite E1; unfold MAX_HEADERS, NO_HEADER in *; cbn [length]; lia |].
  rewrite <-Hr1 in Et, Ep, Eq. cbn [with_body with_keep_alive target path query].
  split_and!; [done | by rewrite Et, E3 | | intros m; by apply header_spec].
  rewrite Et, Ep, Eq, E3. unfold r0, request_line.
  destruct (split_query (span buf tr)) as [pp q] eqn:Hs. cbn [path query].
  destruct (split_ranges buf tr pp q Htr Hs) as [-> Hq]. f_equal. case_decide as Hne.
  - subst q. unfold span. cbn. by rewrite Nat.sub_diag.
  - destruct (Hq Hne) as [<- Hst]. by rewrite Hst.
Qed.

(** A concrete parser, of one request. *)
Definition sample_buf : bytes :=
  str "POST /a?b HTTP/1.1" ++ [x0d; x0a] ++ str "Host: x" ++ [x0d; x0a] ++
  str "Content-Length: 5" ++ [x0d; x0a; x0d; x0a].

Definition sample_head : Head :=
  mkHead (Some (mkRange 0 4)) (Some (mkRange 5 9)) (Some 1)
    [(mkRange 20 24, mkRange 26 27); (mkRange 29 43, mkRange 45 46)].

Definition sample_httparse (b : bytes) : result HttparseError (option (nat * Head)) :=
  if decide (b = sample_buf) then Ok (Some (50%nat, sample_head)) else Err OtherError.

Lemma sample_httparse_ok : httparse_ok sample_httparse.
Proof.
  intros b n p. unfold sample_httparse. case_decide as E; [|done]. subst b. intros [= <- <-].
  unfold in_bounds, MAX_HEADERS. split_and!; try (cbn; lia).
  - intros r [[= <-] | [= <-]]; cbn; lia.
  - repeat constructor; cbn; lia.
Defined.

Definition sample_req : Req :=
  mkReq Post (mkRange 0 4) (mkRange 5 9) (mkRange 5 7) (mkRange 8 9) 1
    [mkHeaderRef (mkRange 20 24) (mkRange 26 27); mkHeaderRef (mkRange 29 43) (mkRange 45 46)]
    (<[0%nat := 0]> (<[2%nat := 1]> (replicate HOT_COUNT NO_HEADER))) 50 (Length 5) true.

Lemma body_framing_witness :
  values sample_buf (str "transfer-encoding") (headers sample_req) = [] ∧
  ∃ v, values sample_buf (str "content-length") (headers sample_req) = [v] ∧
       parse_uint u64_max (trim v) = Some 5.
Proof. apply (body_framing sample_httparse sample_buf new_req sample_req sample_httparse_ok). reflexivity. Defined.

Lemma parse_lookup_witness :
  header sample_buf (str "HOST") sample_req = head (values sample_buf (str "HOST") (headers sample_req)) ∧
  (span sample_buf (path sample_req), span sample_buf (query sample_req)) = (str "/a", str "b").
Proof.
  destruct (parse_lookup sample_httparse sample_buf new_req sample_req sample_httparse_ok eq_refl)
    as (_ & _ & H1 & H2). split; [apply H2 | exact H1].
Defined.

(** A request built from decoded HTTP/2 or HTTP/3 fields is the request
    an HTTP/1 parse would give: method, target, path, query and every header
    read back as given, and looking a header up by name finds the first
    field of that name. *)
Theorem from_parts_exact m t hs :
  Forall (λ '(n, v), utf8_valid v = true) hs → (length hs < Z.to_nat NO_HEADER)%nat →
  let '(buf, r) := from_parts m t hs in
  span buf (method_raw r) = m ∧ span buf (target r) = t ∧
  (span buf (path r), span buf (query r)) = split_query t ∧
  pair_at buf <$> headers r = hs ∧ body r = NoBody ∧ keep_alive r = true ∧
  ∀ n, header buf n r = snd <$> head (filter (λ h, lowercase (fst h) = lowercase n) hs).
Proof.
  intros Hu Hlen. unfold from_parts, put. cbn [start app].
  destruct (split_query t) as [p q] eqn:Hs.
  set (tr := mkRange (length m) (length m + length t)).
  set (r0 := mkReq _ _ _ _ _ _ _ _ _ _ _).
  destruct (put_headers_ok hs (m ++ t) r0) as (tail & hrs & H); [by apply empty_hot | constructor | cbn; lia |].
  destruct (put_headers hs (m ++ t) r0) as [buf r]. destruct H as (-> & Hr & Hhs & Hok & Hb).
  change (headers r0) with (@nil HeaderRef) in Hr. cbn [app] in Hr.
  assert (in_bounds ((m ++ t) ++ tail) tr) as Htr.
  { unfold in_bounds, tr. cbn. rewrite !length_app. lia. }
  assert (span ((m ++ t) ++ tail) tr = t) as Ht.
  { rewrite span_app by (cbn; rewrite length_app; lia). apply (span_put m t). }
  assert (headers r = hrs) as Hhrs by (by rewrite Hr).
  split_and!; try (rewrite Hr; done).
  - rewrite Hr. cbn [method_raw r0]. rewrite <-app_assoc, span_app by (cbn; lia). apply (span_put [] m).
  - rewrite Hr. cbn [path query r0].
    destruct (split_ranges ((m ++ t) ++ tail) tr p q Htr) as [Hp Hq]; [by rewrite Ht |].
    cbn [start stop tr] in Hp, Hq. change (start _) with (length m). rewrite Hp. f_equal. case_decide as Hne.
    + subst q. unfold span. cbn. by rewrite Nat.sub_diag.
    + destruct (Hq Hne) as [Hq' _]. exact Hq'.
  - intros n. rewrite header_spec by done. unfold values. rewrite !head_fmap, Hhrs.
    rewrite <-Hhs, !head_filter_find. clear -Hu Hhs. subst hs.
    induction hrs as [|hr hrs IH]; [done |]. rewrite fmap_cons_eq in *. apply Forall_cons in Hu as [Hv Hu].
    cbn [list_find]. unfold named at 1. cbn [fst pair_at].
    destruct (decide (lowercase (span _ (name hr)) = lowercase n)).
    + cbn. f_equal. unfold slice, from_utf8. cbn in Hv. by rewrite Hv.
    + specialize (IH Hu). do 2 destruct (list_find _ _) as [[]|]; done.
Qed.

Lemma from_parts_exact_witness :
  let hs := [(str "host", str "x"); (str "Accept", str "a/b"); (str "accept", str "c")] in
  let '(buf, r) := from_parts (str "GET") (str "/a?b=1") hs in
  span buf (method_raw r) = str "GET" ∧ span buf (target r) = str "/a?b=1" ∧
  (span buf (path r), span buf (query r)) = split_query (str "/a?b=1") ∧
  pair_at buf <$> headers r = hs ∧ body r = NoBody ∧ keep_alive r = true ∧
  ∀ n, header buf n r = snd <$> head (filter (λ h, lowercase (fst h) = lowercase n) hs).
Proof.
  apply (from_parts_exact (str "GET") (str "/a?b=1")
    [(str "host", str "x"); (str "Accept", str "a/b"); (str "accept", str "c")]).
  - repeat constructor.
  - unfold NO_HEADER. cbn [length]. lia.
Defined.
