(* ===== verification/Date.v ===== *)
(** * [src/http/date.rs]: HTTP dates and cached time formatting

    The civil calendar of [civil_from_days] is an arithmetic formula; the
    reference it is checked against is the calendar itself: the day after
    (year, month, day), with leap years by the Gregorian rule.  The cache of
    formatted times is a record refreshed when the second changes; the
    [httpdate] crate and [localtime_r] are parameters. *)
From S2P Require Import Prelude.
From S2P Require Import Text.

Open Scope Z_scope.

(** ** The code *)

(** [x as i32] of an [i64] *)
Definition as_i32 (x : Z) : Z := (x + 2 ^ 31) mod 2 ^ 32 - 2 ^ 31.

(** Days since the epoch to (year, month, day); all quotients are of
    non-negative numbers except the two Euclidean ones. *)
Definition civil_from_days (z : Z) : Z * Z * Z :=
  let z := z + 719468 in
  let era := z / 146097 in
  let doe := z mod 146097 in
  let yoe := (doe - doe / 1460 + doe / 36524 - doe / 146096) / 365 in
  let y := yoe + era * 400 in
  let doy := doe - (365 * yoe + yoe / 4 - yoe / 100) in
  let mp := (5 * doy + 2) / 153 in
  let d := doy - (153 * mp + 2) / 5 + 1 in
  let m := if decide (mp < 10) then mp + 3 else mp - 9 in
  (as_i32 (y + (if decide (m ≤ 2) then 1 else 0)), m, d).

Definition DAYS : list bytes :=
  [str "Sun"; str "Mon"; str "Tue"; str "Wed"; str "Thu"; str "Fri"; str "Sat"].

Definition MONTHS : list bytes :=
  [str "Jan"; str "Feb"; str "Mar"; str "Apr"; str "May"; str "Jun"; str "Jul"; str "Aug";
   str "Sep"; str "Oct"; str "Nov"; str "Dec"].

Definition pad2 (n : Z) : bytes := (if decide (n < 10) then str "0" else []) ++ fmt_u64 n.

(** [y.to_string()] for a year, which is an [i32] *)
Definition fmt_year (y : Z) : bytes := if decide (y < 0) then str "-" ++ fmt_u64 (- y) else fmt_u64 y.

(** [MONTHS[(m as usize - 1).min(11)]] *)
Definition month_name (m : Z) : bytes := nth (Nat.min (Z.to_nat m - 1) 11) MONTHS [].

(** [append_http_date_of] at [secs] seconds after the epoch (zero before it). *)
Definition append_http_date_of (secs : Z) : bytes :=
  let days := secs / 86400 in
  let rem := secs mod 86400 in
  let '(y, m, d) := civil_from_days days in
  let dow := Z.to_nat ((days + 4) mod 7) in
  nth dow DAYS [] ++ str ", " ++ pad2 d ++ str " " ++ month_name m ++ str " " ++ fmt_year y ++
  str " " ++ pad2 (rem / 3600) ++ str ":" ++ pad2 (rem mod 3600 / 60) ++ str ":" ++
  pad2 (rem mod 60) ++ str " GMT".

Record LocalTime := mkLocalTime {
  year : Z;
  mon : Z;
  day : Z;
  hour : Z;
  min : Z;
  sec : Z;
  off : Z
}.

Definition fmt_offset (off : Z) (colon : bool) : bytes :=
  (if decide (off < 0) then str "-" else str "+") ++ pad2 (Z.abs off / 3600) ++
  (if colon then str ":" else []) ++ pad2 (Z.abs off mod 3600 / 60).

Definition fmt_clf (t : LocalTime) : bytes :=
  pad2 (day t) ++ str "/" ++ month_name (mon t) ++ str "/" ++ fmt_year (year t) ++ str ":" ++
  pad2 (hour t) ++ str ":" ++ pad2 (min t) ++ str ":" ++ pad2 (sec t) ++ str " " ++
  fmt_offset (off t) false.

Definition fmt_iso (t : LocalTime) : bytes :=
  fmt_year (year t) ++ str "-" ++ pad2 (mon t) ++ str "-" ++ pad2 (day t) ++ str "T" ++
  pad2 (hour t) ++ str ":" ++ pad2 (min t) ++ str ":" ++ pad2 (sec t) ++ fmt_offset (off t) true.

(** The thread-local [CACHE]. *)
Record Cache := mkCache { secs : Z; http : bytes; local : bytes; iso : bytes }.

Definition empty_cache : Cache := mkCache 0 [] [] [].

Section cache.
  Context (fmt_http_date : Z → bytes) (local_time : Z → LocalTime).

Definition refresh (now : Z) : Cache :=
  mkCache now (fmt_http_date now) (fmt_clf (local_time now)) (fmt_iso (local_time now)).

(** The three [append_*] functions differ in the field they read. *)
Definition lookup_cached (field : Cache → bytes) (now : Z) (c : Cache) : Cache * bytes :=
  let c := if decide (secs c ≠ now) then refresh now else c in (c, field c).

Definition append_http_date : Z → Cache → Cache * bytes := lookup_cached http.
Definition append_time_local : Z → Cache → Cache * bytes := lookup_cached local.
Definition append_time_iso8601 : Z → Cache → Cache * bytes := lookup_cached iso.

End cache.

(** ** The calendar *)

Definition is_leap (y : Z) : bool :=
  bool_decide (y mod 4 = 0) && (negb (bool_decide (y mod 100 = 0)) || bool_decide (y mod 400 = 0)).

Definition days_in_month (y m : Z) : Z :=
  if decide (m = 2) then (if is_leap y then 29 else 28)
  else if decide (m = 4 ∨ m = 6 ∨ m = 9 ∨ m = 11) then 30 else 31.

Definition next_day (date : Z * Z * Z) : Z * Z * Z :=
  let '(y, m, d) := date in
  if decide (d < days_in_month y m) then (y, m, d + 1)
  else if decide (m < 12) then (y, m + 1, 1)
  else (y + 1, 1, 1).

(** The first day of year [y] of an era, years starting in March. *)
Definition year_start (y : Z) : Z := 365 * y + y / 4 - y / 100.

Definition year_of (doe : Z) : Z := (doe - doe / 1460 + doe / 36524 - doe / 146096) / 365.

(** The month and day of a day of such a year. *)
Definition month_day (doy : Z) : Z * Z :=
  let mp := (5 * doy + 2) / 153 in
  (if decide (mp < 10) then mp + 3 else mp - 9, doy - (153 * mp + 2) / 5 + 1).

Lemma year_of_step d : 0 ≤ d < 146096 → year_of d ≤ year_of (d + 1).
Proof.
  intros Hd. unfold year_of. apply Z.div_le_mono; [lia |].
  assert ((d + 1) / 1460 ≤ d / 1460 + 1) by zdiv.
  assert (d / 36524 ≤ (d + 1) / 36524) by (apply Z.div_le_mono; lia).
  destruct (decide (d + 1 = 146096)) as [E|].
  - assert (d = 146095) as -> by lia. by vm_compute.
  - assert ((d + 1) / 146096 = 0) by zdiv. assert (d / 146096 = 0) by zdiv. lia.
Qed.

Lemma year_of_mono d k : 0 ≤ d → d + Z.of_nat k ≤ 146096 → year_of d ≤ year_of (d + Z.of_nat k).
Proof.
  intros Hd. induction k as [|k IH]; intros Hk; [rewrite Z.add_0_r; lia |].
  etrans; [apply IH; lia |].
  replace (d + Z.of_nat (S k)) with (d + Z.of_nat k + 1) by lia. apply year_of_step. lia.
Qed.

(** The formula is right at both ends of each of the 400 years. *)
Lemma year_ends_table :
  forallb (λ k, let y := Z.of_nat k in
    let last := if decide (y = 399) then 146096 else year_start (y + 1) - 1 in
    bool_decide (year_of (year_start y) = y ∧ year_of last = y)) (seq 0 400) = true.
Proof. by vm_compute. Qed.

Lemma year_ends y : 0 ≤ y < 400 →
  year_of (year_start y) = y ∧
  year_of (if decide (y = 399) then 146096 else year_start (y + 1) - 1) = y.
Proof.
  intros Hy. pose proof year_ends_table as H. rewrite forallb_forall in H.
  specialize (H (Z.to_nat y)). cbv zeta in H. rewrite Z2Nat.id in H by lia.
  apply bool_decide_eq_true in H; [done |]. apply in_seq. lia.
Qed.

Lemma year_of_between y d :
  0 ≤ y < 400 → year_start y ≤ d → d ≤ (if decide (y = 399) then 146096 else year_start (y + 1) - 1) →
  year_of d = y.
Proof.
  intros Hy H1 H2. destruct (year_ends y Hy) as [E1 E2].
  assert (0 ≤ year_start y) by (unfold year_start; zdiv).
  assert ((if decide (y = 399) then 146096 else year_start (y + 1) - 1) ≤ 146096) as Hmax.
  { case_decide; [lia |]. unfold year_start. zdiv. }
  set (last := if decide _ then _ else _) in *. clearbody last. apply Z.le_antisymm.
  - rewrite <-E2. replace last with (d + Z.of_nat (Z.to_nat (last - d))) by lia.
    apply year_of_mono; lia.
  - rewrite <-E1 at 1. replace d with (year_start y + Z.of_nat (Z.to_nat (d - year_start y))) by lia.
    apply year_of_mono; lia.
Qed.

(** The last day of year [y] of an era: the era's last year is a leap year. *)
Definition year_last (y : Z) : Z := if decide (y = 399) then 146096 else year_start (y + 1) - 1.

Lemma year_exists doe : 0 ≤ doe ≤ 146096 →
  ∃ y, 0 ≤ y < 400 ∧ year_start y ≤ doe ≤ year_last y ∧ year_of doe = y.
Proof.
  intros Hd.
  assert (∀ k : nat, Z.of_nat k ≤ 400 → (k = 400%nat ∨ doe < year_start (Z.of_nat k)) →
    ∃ y, 0 ≤ y < 400 ∧ year_start y ≤ doe ≤ year_last y) as H.
  { intros k. induction k as [|k IH]; intros Hk Hlt.
    - destruct Hlt as [?|Hlt]; [done |]. change (year_start (Z.of_nat 0)) with 0 in Hlt. lia.
    - destruct (decide (doe < year_start (Z.of_nat k))); [apply IH; lia |].
      exists (Z.of_nat k). unfold year_last. split; [lia |]. split; [lia |].
      destruct Hlt as [?|Hlt]; [rewrite decide_True by lia; lia |]. case_decide; [lia |].
      replace (Z.of_nat k + 1) with (Z.of_nat (S k)) by lia. lia. }
  destruct (H 400%nat) as (y & Hy & H1 & H2); [lia | by left |].
  exists y. split_and!; try lia. by apply year_of_between.
Qed.

(** A year's length, by the year its February is in. *)
Lemma year_length y : 0 ≤ y < 400 →
  year_last y - year_start y = if is_leap (y + 1) then 365 else 364.
Proof.
  intros Hy. unfold year_last, is_leap, year_start.
  repeat case_bool_decide; cbn [negb orb andb]; case_decide; subst; zdiv || done.
Qed.

(** The months of a year that starts in March. *)
Definition month_ok (doy : Z) : bool :=
  let '(m, d) := month_day doy in
  let '(m', d') := month_day (doy + 1) in
  let len := if decide (m = 2) then 29 else days_in_month 1 m in
  bool_decide (1 ≤ m ≤ 12 ∧ 1 ≤ d ≤ len) &&
  (if decide (d < len) then bool_decide (m' = m ∧ d' = d + 1)
   else bool_decide (m ≠ 2 ∧ d' = 1 ∧ m' = if decide (m = 12) then 1 else m + 1)).

Lemma month_table : forallb (λ k, month_ok (Z.of_nat k)) (seq 0 365) = true.
Proof. by vm_compute. Qed.

Lemma february_table :
  forallb (λ k, let '(m, d) := month_day (Z.of_nat k) in
    bool_decide (m = 2 ∧ d = 28 ↔ Z.of_nat k = 364)) (seq 0 365) = true.
Proof. by vm_compute. Qed.

Lemma month_step doy : 0 ≤ doy < 365 → month_ok doy = true ∧
  (let '(m, d) := month_day doy in m = 2 ∧ d = 28 ↔ doy = 364).
Proof.
  intros Hd. pose proof month_table as H1. pose proof february_table as H2.
  rewrite forallb_forall in H1, H2. specialize (H1 (Z.to_nat doy)). specialize (H2 (Z.to_nat doy)).
  rewrite Z2Nat.id in H1, H2 by lia. split; [apply H1, in_seq; lia |].
  destruct (month_day doy). apply bool_decide_eq_true in H2; [done |]. apply in_seq; lia.
Qed.

(** The date of day [doy] of year [y] of an era, before the cast of the year. *)
Definition civil_of (era y doy : Z) : Z * Z * Z :=
  let '(m, d) := month_day doy in (y + era * 400 + (if decide (m ≤ 2) then 1 else 0), m, d).

Definition cast_year (date : Z * Z * Z) : Z * Z * Z := let '(y, m, d) := date in (as_i32 y, m, d).

Lemma civil_from_days_eq z era y doe :
  z + 719468 = era * 146097 + doe → 0 ≤ y < 400 → year_start y ≤ doe ≤ year_last y →
  civil_from_days z = cast_year (civil_of era y (doe - year_start y)).
Proof.
  intros Hz Hy Hd.
  assert (0 ≤ doe ≤ 146096) as Hdoe.
  { unfold year_last, year_start in *. case_decide; zdiv. }
  unfold civil_from_days. cbv zeta. rewrite Hz.
  replace ((era * 146097 + doe) / 146097) with era
    by (rewrite Z.div_add_l, Z.div_small by lia; lia).
  replace ((era * 146097 + doe) mod 146097) with doe
    by (rewrite Z.add_comm, Z.mod_add, Z.mod_small by lia; lia).
  fold (year_of doe). rewrite (year_of_between y doe) by apply Hd || done.
  fold (year_start y). unfold civil_of, month_day. reflexivity.
Qed.

Lemma is_leap_era y era : is_leap (y + era * 400) = is_leap y.
Proof.
  unfold is_leap.
  assert (∀ k n, n ≠ 0 → era * 400 = k * n → (y + era * 400) mod n = y mod n) as H
    by (intros k n Hn ->; by apply Z.mod_add).
  by rewrite (H (era * 100) 4), (H (era * 4) 100), (H era 400) by lia.
Qed.

Lemma civil_within era y doy :
  0 ≤ y < 400 → 0 ≤ doy → doy < year_last y - year_start y →
  civil_of era y (doy + 1) = next_day (civil_of era y doy).
Proof.
  intros Hy Hd Hlt. rewrite year_length in Hlt by done.
  assert (0 ≤ doy < 365) as Hr by (destruct (is_leap (y + 1)); lia).
  destruct (month_step doy Hr) as [Hok Hfeb]. unfold month_ok, civil_of in *.
  destruct (month_day doy) as [m d]. destruct (month_day (doy + 1)) as [m' d'].
  apply andb_true_iff in Hok as [Hb%bool_decide_eq_true Hok]. unfold next_day, days_in_month in *.
  destruct (decide (m = 2)) as [->|Hm].
  - rewrite (decide_True (P := 2 ≤ 2)) by lia.
    replace (y + era * 400 + 1) with (y + 1 + era * 400) by lia. rewrite is_leap_era.
    assert (d < 29) by (destruct (is_leap (y + 1)), (decide (d < 29)); try lia;
      apply bool_decide_eq_true in Hok; naive_solver).
    rewrite (decide_True (P := d < 29)) in Hok by lia. apply bool_decide_eq_true in Hok as [-> ->].
    rewrite (decide_True (P := 2 ≤ 2)) by lia. rewrite decide_True; [f_equal; f_equal; lia |].
    destruct (is_leap (y + 1)); [done |]. destruct (decide (d = 28)); [|lia].
    assert (doy = 364) by (by apply Hfeb). lia.
  - set (len := if decide (_ ∨ _) then _ else _) in *. case_decide.
    + apply bool_decide_eq_true in Hok as [-> ->]. done.
    + apply bool_decide_eq_true in Hok as (_ & -> & ->).
      destruct (decide (m = 12)) as [->|].
      { rewrite (decide_True (P := 1 ≤ 2)), (decide_False (P := 12 ≤ 2)), (decide_False (P := 12 < 12)) by lia.
        f_equal. f_equal. lia. }
      rewrite (decide_True (P := m < 12)) by lia. f_equal. f_equal.
      destruct (decide (m ≤ 2)), (decide (m + 1 ≤ 2)); lia.
Qed.

(** The last day of a year is the last of February. *)
Lemma civil_last era y :
  0 ≤ y < 400 →
  next_day (civil_of era y (year_last y - year_start y)) = (y + 1 + era * 400, 3, 1).
Proof.
  intros Hy. rewrite year_length by done. pose proof (is_leap_era (y + 1) era) as Hl.
  unfold civil_of. destruct (is_leap (y + 1)).
  - change (month_day 365) with (2, 29). cbn [next_day]. unfold days_in_month.
    rewrite (decide_True (P := 2 ≤ 2)), (decide_True (P := 2 = 2)) by lia.
    replace (y + era * 400 + 1) with (y + 1 + era * 400) by lia. by rewrite Hl.
  - change (month_day 364) with (2, 28). cbn [next_day]. unfold days_in_month.
    rewrite (decide_True (P := 2 ≤ 2)), (decide_True (P := 2 = 2)) by lia.
    replace (y + era * 400 + 1) with (y + 1 + era * 400) by lia. by rewrite Hl.
Qed.

(** The date of a day, without the cast, and its successor. *)
Lemma civil_exists z : ∃ date,
  civil_from_days z = cast_year date ∧ civil_from_days (z + 1) = cast_year (next_day date) ∧
  ∃ era y doy, date = civil_of era y doy ∧ 0 ≤ y < 400 ∧ 0 ≤ doy ≤ 365 ∧ era = (z + 719468) / 146097.
Proof.
  set (era := (z + 719468) / 146097). set (doe := (z + 719468) mod 146097).
  assert (z + 719468 = era * 146097 + doe) as Hz by (unfold era, doe; zdiv).
  assert (0 ≤ doe ≤ 146096) as Hdoe by (unfold doe; zdiv).
  destruct (year_exists doe Hdoe) as (y & Hy & Hb & _).
  exists (civil_of era y (doe - year_start y)). split; [by apply civil_from_days_eq |]. split.
  - destruct (decide (doe < year_last y)) as [Hlt|Hge].
    + rewrite (civil_from_days_eq _ era y (doe + 1)) by lia.
      rewrite <-civil_within by lia. do 2 f_equal. lia.
    + replace doe with (year_last y) in * by lia. rewrite civil_last by done.
      destruct (decide (y = 399)) as [->|Hne].
      * change (year_last 399) with 146096 in *.
        rewrite (civil_from_days_eq _ (era + 1) 0 0) by (done || lia).
        unfold civil_of. change (month_day (0 - year_start 0)) with (3, 1). unfold cast_year.
        rewrite (decide_False (P := 3 ≤ 2)) by lia. do 3 f_equal. lia.
      * rewrite (civil_from_days_eq _ era (y + 1) (year_start (y + 1))).
        -- rewrite Z.sub_diag. unfold civil_of. change (month_day 0) with (3, 1). unfold cast_year.
           rewrite (decide_False (P := 3 ≤ 2)) by lia. do 3 f_equal. lia.
        -- unfold year_last in *. rewrite decide_False in * by done. lia.
        -- lia.
        -- split; [lia |]. unfold year_last, year_start. case_decide; zdiv.
  - pose proof (year_length y Hy) as Hlen. exists era, y, (doe - year_start y).
    split_and!; try done; destruct (is_leap (y + 1)); lia.
Qed.

Lemma as_i32_small y : - 2 ^ 31 ≤ y < 2 ^ 31 → as_i32 y = y.
Proof. intros. unfold as_i32. rewrite Z.mod_small by lia. lia. Qed.

(** Days for which the year fits in an [i32]. *)
Definition day_bound : Z := 780000000000.

Lemma civil_step z :
  - day_bound ≤ z ≤ day_bound → civil_from_days (z + 1) = next_day (civil_from_days z).
Proof.
  intros Hz. unfold day_bound in Hz.
  destruct (civil_exists z) as (date & -> & -> & era & y & doy & -> & Hy & Hdoy & Hera).
  assert (- 5338930 ≤ era ≤ 5338930) as He by (subst era; zdiv).
  unfold civil_of. destruct (month_day doy) as [m d]. unfold next_day.
  set (Y := y + era * 400 + _). assert (- 2147483000 ≤ Y ≤ 2147483000) by (unfold Y; case_decide; lia).
  assert (∀ m d, cast_year (Y, m, d) = (Y, m, d)) as E1 by (intros; cbn; by rewrite as_i32_small by lia).
  rewrite E1. repeat case_decide; rewrite ?E1; try done.
  unfold cast_year. by rewrite as_i32_small by lia.
Qed.

Example http_date_sample : append_http_date_of 784111777 = str "Sun, 06 Nov 1994 08:49:37 GMT".
Proof. by vm_compute. Qed.

Example leap_day_sample : civil_from_days 11016 = (2000, 2, 29).
Proof. reflexivity. Qed.

(** A cache is empty or holds the texts of its own second. *)
Definition cache_ok fmt_http_date local_time (c : Cache) : Prop :=
  c = empty_cache ∨ c = refresh fmt_http_date local_time (secs c).

(** A run of lookups at the times the clock showed. *)
Fixpoint lookups fmt_http_date local_time (calls : list ((Cache → bytes) * Z)) (c : Cache) : list bytes :=
  match calls with
  | [] => []
  | (field, now) :: calls =>
      let '(c, out) := lookup_cached fmt_http_date local_time field now c in
      out :: lookups fmt_http_date local_time calls c
  end.

Lemma lookup_cached_ok fmt lt field now c :
  cache_ok fmt lt c → now ≠ 0 →
  lookup_cached fmt lt field now c = (refresh fmt lt now, field (refresh fmt lt now)).
Proof.
  intros Hc Hn. unfold lookup_cached. case_decide as Hd; [done |].
  destruct Hc as [-> | ->]; [by cbn in Hd |]. by cbn in Hd |- *; subst.
Qed.

(** ** Properties *)

(** The date formula is the Gregorian calendar: the date of day [n] after
    the epoch is what [n] steps of the calendar reach from 1 January 1970. *)
Theorem civil_from_days_counts n :
  Z.of_nat n ≤ day_bound → civil_from_days (Z.of_nat n) = Nat.iter n next_day (1970, 1, 1).
Proof.
  induction n as [|n IH]; intros Hn; [reflexivity |].
  replace (Z.of_nat (S n)) with (Z.of_nat n + 1) by lia.
  rewrite civil_step, IH by (unfold day_bound in *; lia). done.
Qed.

Lemma civil_from_days_counts_witness :
  civil_from_days (Z.of_nat 59) = Nat.iter 59 next_day (1970, 1, 1) ∧
  civil_from_days (Z.of_nat 59) = (1970, 3, 1).
Proof. split; [apply civil_from_days_counts; unfold day_bound; lia | reflexivity]. Defined.

(** The cache of formatted times is invisible: whatever sequence of
    times the clock shows and whatever formats are asked for, each answer is
    the text formatted afresh for that second. *)
Theorem cached_time_is_fresh fmt_http_date local_time calls :
  Forall (λ '(_, now), now ≠ 0) calls →
  lookups fmt_http_date local_time calls empty_cache =
  (λ '(field, now), field (refresh fmt_http_date local_time now)) <$> calls.
Proof.
  intros Hall. assert (cache_ok fmt_http_date local_time empty_cache) as Hc by by left.
  revert Hc. generalize empty_cache. induction Hall as [|[field now] calls Hn _ IH]; intros c Hc; [done |].
  cbn [lookups]. rewrite lookup_cached_ok by done. rewrite fmap_cons_eq, IH; [done |]. by right.
Qed.

Lemma cached_time_is_fresh_witness :
  let fmt := append_http_date_of in
  let lt := λ s, mkLocalTime 1970 1 1 0 0 s 0 in
  lookups fmt lt [(http, 5); (iso, 5); (http, 7); (local, 5)] empty_cache =
  [http (refresh fmt lt 5); iso (refresh fmt lt 5); http (refresh fmt lt 7); local (refresh fmt lt 5)].
Proof. apply (cached_time_is_fresh append_http_date_of (λ s, mkLocalTime 1970 1 1 0 0 s 0)
  [(http, 5); (iso, 5); (http, 7); (local, 5)]). repeat constructor; done. Defined.
