(* ===== verification/Lexer.v ===== *)
(** * [src/config/lexer.rs]: the tokenizer of configuration files

    [tokenize] turns the bytes of a file into words, braces and semicolons.
    The cursor of the code is the remaining input here, so that
    [self.b[self.i]] is its head.  [unescape] and the two word scanners are
    proved to invert the quoting of [Ast.dump] in [Ast]. *)
From S2P Require Import Prelude.
From S2P Require Import Text.

Open Scope Z_scope.

(** ** The code *)

Inductive Tok := Word (w : bytes) | Open | Close | Semi.

#[export] Instance Tok_eq_dec : EqDecision Tok.
Proof. solve_decision. Defined.

Record Token := mkToken { tok : Tok; line : Z; quoted : bool }.

(** The file of an error is the one being read. *)
Record LexError := mkLexError { lex_msg : bytes; lex_line : Z }.

Definition is_delim (c : byte) : bool :=
  bool_decide (c ∈ [" "%byte; x09; x0d; x0a; ";"%byte; "{"%byte; "}"%byte]).

Definition backslash : byte := x5c.
Definition newline : byte := x0a.
Definition dquote : byte := x22.
Definition squote : byte := x27.
Definition hash : byte := x23.

(** [skip_trivia]; [comment] is the inner loop, up to a newline. *)
Fixpoint skip_trivia (comment : bool) (s : bytes) (line : Z) : bytes * Z :=
  match s with
  | [] => ([], line)
  | c :: r =>
      if decide (c = newline) then skip_trivia false r (line + 1)
      else if comment then skip_trivia true r line
      else if bool_decide (c ∈ [" "%byte; x09; x0d]) then skip_trivia false r line
      else if decide (c = hash) then skip_trivia true r line
      else (s, line)
  end.

(** Resolves backslash escapes. *)
Fixpoint unescape_bytes (raw : bytes) : bytes :=
  match raw with
  | [] => []
  | c :: r =>
      if decide (c = backslash) then
        match r with
        | d :: r' =>
            if bool_decide (d ∈ [dquote; squote; backslash]) then d :: unescape_bytes r'
            else if decide (d = "t"%byte) then x09 :: unescape_bytes r'
            else if decide (d = "r"%byte) then x0d :: unescape_bytes r'
            else if decide (d = "n"%byte) then x0a :: unescape_bytes r'
            else c :: unescape_bytes r
        | [] => [c]
        end
      else c :: unescape_bytes r
  end.

Definition unescape (raw : bytes) : bytes := from_utf8_lossy (unescape_bytes raw).

(** The loop of [quoted_word]: the raw bytes before the closing quote, what
    follows it, and the line; an error, with the last line, when the input
    ends first. *)
Fixpoint scan_quoted (quote : byte) (s : bytes) (line : Z) : result Z (bytes * bytes * Z) :=
  match s with
  | [] => Err line
  | c :: r =>
      if decide (c = backslash) then
        match r with
        | d :: r' =>
            '(raw, rest, line) ←
              scan_quoted quote r' (if decide (d = newline) then line + 1 else line);
            Ok (c :: d :: raw, rest, line)
        | [] => Err line
        end
      else if decide (c = quote) then Ok ([], r, line)
      else
        '(raw, rest, line) ← scan_quoted quote r (if decide (c = newline) then line + 1 else line);
        Ok (c :: raw, rest, line)
  end.

(** [quoted_word], after the opening quote. *)
Definition quoted_word (quote : byte) (s : bytes) (line : Z) : result LexError (bytes * bytes * Z) :=
  match scan_quoted quote s line with
  | Err line => Err (mkLexError (str "unterminated quoted string") line)
  | Ok (raw, rest, line) =>
      match rest with
      | c :: _ =>
          if is_delim c then Ok (unescape raw, rest, line)
          else Err (mkLexError (str "unexpected character after quoted string") line)
      | [] => Ok (unescape raw, rest, line)
      end
  end.

(** The loop of [bare_word]. *)
Fixpoint scan_bare (s : bytes) : bytes * bytes :=
  match s with
  | [] => ([], [])
  | c :: r =>
      if decide (c = backslash) then
        match r with
        | d :: r' => let '(raw, rest) := scan_bare r' in (c :: d :: raw, rest)
        | [] => ([c], [])
        end
      else if is_delim c then ([], s)
      else let '(raw, rest) := scan_bare r in (c :: raw, rest)
  end.

Definition bare_word (s : bytes) (line : Z) : result LexError (bytes * bytes) :=
  let '(raw, rest) := scan_bare s in
  if decide (raw = []) then 
    Err (mkLexError (str "unexpected character '" ++ take 1 s ++ str "'") line)
  else Ok (unescape raw, rest).

(** [run]: every turn consumes a byte, so the input's length is enough fuel;
    [None] is fuel run out. *)
Fixpoint run (fuel : nat) (s : bytes) (line : Z) (out : list Token) :
    option (result LexError (list Token)) :=
  match fuel with
  | O => None
  | S fuel =>
      let '(s, line) := skip_trivia false s line in
      match s with
      | [] => Some (Ok out)
      | c :: r =>
          if decide (c = "{"%byte) then run fuel r line (out ++ [mkToken Open line false])
          else if decide (c = "}"%byte) then run fuel r line (out ++ [mkToken Close line false])
          else if decide (c = ";"%byte) then run fuel r line (out ++ [mkToken Semi line false])
          else if decide (c = dquote ∨ c = squote) then
            match quoted_word c r line with
            | Ok (w, rest, line') => run fuel rest line' (out ++ [mkToken (Word w) line true])
            | Err e => Some (Err e)
            end
          else
            match bare_word s line with
            | Ok (w, rest) => run fuel rest line (out ++ [mkToken (Word w) line false])
            | Err e => Some (Err e)
            end
      end
  end.

Definition tokenize (src : bytes) : option (result LexError (list Token)) :=
  run (S (length src)) src 1 [].

(** ** Lemmas *)

Lemma skip_trivia_length c s n : (length (fst (skip_trivia c s n)) ≤ length s)%nat.
Proof.
  revert c n. induction s as [|x s IH]; intros c n; cbn [skip_trivia]; [done |].
  repeat case_match; cbn [fst length]; try lia; (etrans; [apply IH | lia]).
Qed.

Lemma scan_quoted_length q s n raw rest n' :
  scan_quoted q s n = Ok (raw, rest, n') → (length rest < length s)%nat.
Proof.
  remember (length s) as k eqn:Hk. revert s n raw n' Hk.
  induction (lt_wf k) as [k _ IH]. intros s n raw n' ->.
  destruct s as [|c s]; cbn [scan_quoted]; [done |]. case_decide.
  - destruct s as [|d s]; [done |]. destruct (scan_quoted q s _) as [[[a b] m]|] eqn:E; [|done].
    cbn. intros [= <- <- <-]. apply (IH (length s)) in E; cbn; lia.
  - case_decide; [intros [= <- <- <-]; cbn; lia |].
    destruct (scan_quoted q s _) as [[[a b] m]|] eqn:E; [|done].
    cbn. intros [= <- <- <-]. apply (IH (length s)) in E; cbn; lia.
Qed.

Lemma scan_bare_length s :
  (length (fst (scan_bare s)) + length (snd (scan_bare s)) = length s)%nat.
Proof.
  remember (length s) as k eqn:Hk. revert s Hk. induction (lt_wf k) as [k _ IH]. intros s ->.
  destruct s as [|c s]; cbn [scan_bare]; [done |]. case_decide.
  - destruct s as [|d s]; [done |]. specialize (IH (length s) ltac:(cbn; lia) s eq_refl).
    destruct (scan_bare s). cbn in *. lia.
  - case_match; [done |]. specialize (IH (length s) ltac:(cbn; lia) s eq_refl).
    destruct (scan_bare s). cbn in *. lia.
Qed.

Lemma bare_word_length s n w rest :
  bare_word s n = Ok (w, rest) → (length rest < length s)%nat.
Proof.
  unfold bare_word. pose proof (scan_bare_length s). destruct (scan_bare s) as [raw r].
  case_decide; [done |]. intros [= _ ->]. cbn in *. destruct raw; [done | cbn in *; lia].
Qed.

Lemma quoted_word_length q s n w rest n' :
  quoted_word q s n = Ok (w, rest, n') → (length rest < length s)%nat.
Proof.
  unfold quoted_word. destruct (scan_quoted q s n) as [[[raw r] m]|] eqn:E; [|done].
  apply scan_quoted_length in E. repeat case_match; intros [=]; subst; done.
Qed.

(** The tokenizer always ends. *)
Lemma run_total fuel s n out :
  (length s < fuel)%nat → ∃ r, run fuel s n out = Some r.
Proof.
  revert s n out. induction fuel as [|fuel IH]; intros s n out Hf; [lia |]. cbn [run].
  pose proof (skip_trivia_length false s n). destruct (skip_trivia false s n) as [s' n'].
  cbn [fst] in *. destruct s' as [|c r]; [by eexists |]. cbn [length] in *.
  repeat case_decide; try (apply IH; lia).
  - destruct (quoted_word c r n') as [[[w rest] m]|] eqn:E; [|by eexists].
    apply quoted_word_length in E. apply IH. lia.
  - destruct (bare_word (c :: r) n') as [[w rest]|] eqn:E; [|by eexists].
    apply bare_word_length in E. cbn in E. apply IH. lia.
Qed.
