(* ===== verification/Ast.v ===== *)
(** * [src/config/ast.rs]: directive trees, includes and their dump

    The parser runs over the tokens of one file and splices included files
    in place; the file system and [glob] are parameters ([FileSystem]).
    [dump] renders a tree back to text, and [dump_parses] shows that parsing
    it gives the tree again, for the words it renders faithfully. *)
From S2P Require Import Prelude.
From S2P Require Import Text.
From S2P Require Import Lexer.

Open Scope Z_scope.

(** ** The code *)

Inductive Directive :=
  mkDirective (name : bytes) (args : list bytes) (block : option (list Directive)) (line : Z)
    (file : bytes).

Definition name (d : Directive) : bytes := let 'mkDirective n _ _ _ _ := d in n.
Definition args (d : Directive) : list bytes := let 'mkDirective _ a _ _ _ := d in a.
Definition block_of (d : Directive) : option (list Directive) := let 'mkDirective _ _ b _ _ := d in b.
Definition line_of (d : Directive) : Z := let 'mkDirective _ _ _ l _ := d in l.
Definition file_of (d : Directive) : bytes := let 'mkDirective _ _ _ _ f := d in f.

Definition arg (d : Directive) (i : nat) : option bytes := args d !! i.
Definition children (d : Directive) : list Directive := default [] (block_of d).
Definition find_child (d : Directive) (n : bytes) : option Directive :=
  snd <$> list_find (λ c, name c = n) (children d).
Definition find_all (d : Directive) (n : bytes) : list Directive := filter (λ c, name c = n) (children d).

Record ParseError := mkParseError { msg : bytes; err_line : Z; err_file : bytes }.

Definition MAX_INCLUDE_DEPTH : nat := 32.

(** What the parser asks of the file system: the content of a file or the
    text of the error, canonical paths, the directory of a path, and the
    files matching a pattern, sorted. *)
Record FileSystem := mkFileSystem {
  read_to_string : bytes → result bytes bytes;
  canonicalize : bytes → bytes;
  parent : bytes → bytes;
  glob : bytes → result bytes (list bytes)
}.

(** [base.join(pat)], when [pat] is not absolute *)
Definition path_join (base pat : bytes) : bytes :=
  if decide (base = []) then pat
  else if ends_with (str "/") base then base ++ pat else base ++ str "/" ++ pat.

(** Results that thread the set of files being read. The parser recurses on
    the native stack, once for every block within a block and for every file
    within a file, and nothing bounds the blocks: [None] is a stack that has
    overflowed, which ends the process. *)
Definition parsed (A : Type) : Type := option (result ParseError (A * gset bytes)).

Definition ok {A} (a : A) (seen : gset bytes) : parsed A := Some (Ok (a, seen)).
Definition fail {A} (e : ParseError) : parsed A := Some (Err e).

Definition andthen {A B} (r : parsed A) (k : A → gset bytes → parsed B) : parsed B :=
  match r with
  | Some (Ok (a, seen)) => k a seen
  | Some (Err e) => Some (Err e)
  | None => None
  end.

(** The name, arguments and terminator of a directive. *)
Inductive Ending := EndSemi | EndOpen | EndClose | EndEof.

Fixpoint take_args (t : list Token) : list bytes * Ending * list Token :=
  match t with
  | [] => ([], EndEof, [])
  | tk :: t' =>
      match tok tk with
      | Word w => let '(a, e, r) := take_args t' in (w :: a, e, r)
      | Semi => ([], EndSemi, t')
      | Open => ([], EndOpen, t')
      | Close => ([], EndClose, t)
      end
  end.

(** A text between double quotes *)
Definition q (s : bytes) : bytes := [dquote] ++ s ++ [dquote].

Section parser.
  Context (file : bytes) (eof_line : Z) (expand_include : nat → Directive → gset bytes → parsed (list Directive)).

(** [Parser::line] at the token the parser is on *)
Definition line_at (t : list Token) : Z := match t with tk :: _ => line tk | [] => eof_line end.

Definition error_at (t : list Token) (m : bytes) : ParseError := mkParseError m (line_at t) file.

(** [block] and [directive], which it inlines: the directives up to the
    closing brace, or to the end at the top level, and what follows. The fuel
    is for the loop, and a token more than there are is enough; [stack] is how
    many more calls the stack holds. *)
Fixpoint block (fuel stack : nat) (top : bool) (t : list Token) (seen : gset bytes) :
    parsed (list Directive * list Token) :=
  match fuel with
  | O => None
  | S fuel =>
      match t with
      | [] =>
          if top then ok ([], []) seen
          else fail (error_at t (str "unexpected end of file, expecting " ++ q (str "}")))
      | tk :: t' =>
          match tok tk with
          | Close => if top then fail (error_at t (str "unexpected " ++ q (str "}"))) else ok ([], t') seen
          | Semi => fail (error_at t (str "unexpected " ++ q (str ";")))
          | Open => fail (error_at t (str "unexpected " ++ q (str "{")))
          | Word n =>
              let '(a, e, r) := take_args t' in
              andthen
                match e with
                | EndEof => fail (error_at r (str "unexpected end of file, expecting " ++ q (str ";") ++
                             str " or " ++ q (str "}") ++ str " after " ++ q n))
                | EndClose => fail (error_at r (str "directive " ++ q n ++ str " is not terminated by " ++ q (str ";")))
                | EndSemi => ok (mkDirective n a None (line tk) file, r) seen
                | EndOpen =>
                    match stack with
                    | O => None
                    | S stack =>
                        andthen (block fuel stack false r seen) (λ '(b, r) seen,
                          ok (mkDirective n a (Some b) (line tk) file, r) seen)
                    end
                end
                (λ '(d, r) seen,
                  andthen
                    (if decide (name d = str "include" ∧ block_of d = None)
                     then expand_include stack d seen else ok [d] seen)
                    (λ ds seen,
                      andthen (block fuel stack top r seen) (λ '(out, r) seen, ok (ds ++ out, r) seen)))
          end
      end
  end.

End parser.

Section include.
  Context (fs : FileSystem).

(** The paths an [include] names. *)
Definition include_paths (base pat : bytes) : result bytes (list bytes) :=
  let abs := if starts_with (str "/") pat then pat else path_join base pat in
  if existsb (λ c, bool_decide (c ∈ ["*"%byte; "?"%byte; "["%byte])) abs
  then map_err (λ e, str "bad include pattern: " ++ e) (glob fs abs)
  else Ok [abs].

(** Reads every included file in turn; a missing one is reported where it
    is included. *)
Fixpoint include_all (read : bytes → gset bytes → parsed (list Directive)) (d : Directive)
    (paths : list bytes) (seen : gset bytes) : parsed (list Directive) :=
  match paths with
  | [] => ok [] seen
  | p :: paths =>
      andthen
        match read p seen with
        | Some (Err e) =>
            if decide (err_line e = 0 ∧ starts_with (str "cannot read") (msg e) = true)
            then fail (mkParseError (msg e ++ str " (included here)") (line_of d) (file_of d))
            else fail e
        | r => r
        end
        (λ sub seen, andthen (include_all read d paths seen) (λ out seen, ok (sub ++ out) seen))
  end.

(** [expand_include] in a file whose directory is [base]. *)
Definition expand_include (read : bytes → gset bytes → parsed (list Directive)) (base : bytes)
    (d : Directive) (seen : gset bytes) : parsed (list Directive) :=
  match args d with
  | [pat] =>
      match include_paths base pat with
      | Err m => fail (mkParseError m (line_of d) (file_of d))
      | Ok paths => include_all read d paths seen
      end
  | _ => fail (mkParseError (str "invalid number of arguments in " ++ q (str "include") ++ str " directive")
                (line_of d) (file_of d))
  end.

(** The tokens of one file, parsed. *)
Definition parse_tokens (path : bytes) (expand : nat → Directive → gset bytes → parsed (list Directive)) (stack : nat)
    (tokens : list Token) (seen : gset bytes) : parsed (list Directive) :=
  let eof_line := match last tokens with Some tk => line tk | None => 0 end in
  andthen (block path eof_line expand (S (length tokens)) stack true tokens seen)
    (λ '(out, _) seen, ok out seen).

(** [parse_file_inner]: the depth limit bounds the files within files, so
    that [MAX_INCLUDE_DEPTH] and two more are fuel enough. *)
Fixpoint parse_file_inner (fuel stack depth : nat) (path : bytes) (seen : gset bytes) : parsed (list Directive) :=
  match fuel, stack with
  | O, _ | _, O => None
  | S fuel, S stack =>
      let canon := canonicalize fs path in
      if decide (MAX_INCLUDE_DEPTH < depth)%nat then
        fail (mkParseError (str "include nesting too deep (cycle?)") 0 path)
      else if decide (canon ∈ seen) then
        fail (mkParseError (str "recursive include of " ++ path) 0 path)
      else
        match read_to_string fs path with
        | Err e => fail (mkParseError (str "cannot read config: " ++ e) 0 path)
        | Ok src =>
            match tokenize src with
            | None => None
            | Some (Err e) => fail (mkParseError (lex_msg e) (lex_line e) path)
            | Some (Ok tokens) =>
                andthen
                  (parse_tokens path
                     (λ stack, expand_include (parse_file_inner fuel stack (S depth)) (parent fs path))
                     stack tokens ({[canon]} ∪ seen))
                  (λ out seen, ok out (seen ∖ {[canon]}))
            end
        end
  end.

Definition parse_file (stack : nat) (path : bytes) : option (result ParseError (list Directive)) :=
  match parse_file_inner (MAX_INCLUDE_DEPTH + 2) stack 0 path ∅ with
  | Some (Ok (ds, _)) => Some (Ok ds)
  | Some (Err e) => Some (Err e)
  | None => None
  end.

End include.

(** *** [dump] *)

(** [c.is_whitespace()] for some character of the word: in UTF-8 text, a
    white-space sequence at some place of its bytes. *)
Fixpoint has_whitespace (a : bytes) : bool :=
  match a with
  | [] => false
  | _ :: r => match trim_one white_space a with Some _ => true | None => has_whitespace r end
  end.

Definition needs_quotes (a : bytes) : bool :=
  bool_decide (a = []) || has_whitespace a ||
  existsb (λ c, bool_decide (c ∈ [";"%byte; "{"%byte; "}"%byte])) a.

(** [a.replace('\\', "\\\\").replace('"', "\\\"")] *)
Fixpoint escape (a : bytes) : bytes :=
  match a with
  | [] => []
  | c :: r =>
      if decide (c = backslash) then backslash :: backslash :: escape r
      else if decide (c = dquote) then backslash :: dquote :: escape r
      else c :: escape r
  end.

Definition dump_arg (a : bytes) : bytes :=
  str " " ++ (if needs_quotes a then [dquote] ++ escape a ++ [dquote] else a).

Definition indentation (n : nat) : bytes := mjoin (replicate n (str "    ")).

Fixpoint dump_one (indent : nat) (d : Directive) : bytes :=
  match d with
  | mkDirective n a blk _ _ =>
      indentation indent ++ n ++ mjoin (dump_arg <$> a) ++
      match blk with
      | Some b =>
          str " {" ++ [newline] ++ flat_map (dump_one (S indent)) b ++ indentation indent ++
          str "}" ++ [newline]
      | None => str ";" ++ [newline]
      end
  end.

Definition dump (dirs : list Directive) (indent : nat) : bytes := flat_map (dump_one indent) dirs.

(** ** Reading back a dump *)

(** A word that is written bare and lexes to itself. *)
Fixpoint bare_body (a : bytes) : bool :=
  match a with
  | [] => true
  | c :: r =>
      (if decide (c = backslash) then
         match r with
         | [] => false
         | d :: _ => negb (bool_decide (d ∈ [dquote; squote; backslash; "t"%byte; "r"%byte; "n"%byte]))
         end
       else negb (is_delim c)) && bare_body r
  end.

Definition bare_ok (a : bytes) : bool :=
  match a with
  | [] => false
  | c :: _ => negb (bool_decide (c ∈ [dquote; squote; hash])) && bare_body a
  end.

(** A word [dump] renders faithfully. *)
Definition word_ok (a : bytes) : bool := utf8_valid a && (needs_quotes a || bare_ok a).

Fixpoint tree_ok (d : Directive) : bool :=
  match d with
  | mkDirective n a blk _ _ =>
      utf8_valid n && bare_ok n && forallb word_ok a &&
      match blk with
      | Some b => forallb tree_ok b
      | None => negb (bool_decide (n = str "include"))
      end
  end.

(** Trees up to the positions of their directives. *)
Fixpoint same_tree (d d' : Directive) : Prop :=
  match d, d' with
  | mkDirective n a blk _ _, mkDirective n' a' blk' _ _ =>
      n = n' ∧ a = a' ∧
      match blk, blk' with
      | Some b, Some b' =>
          (fix all (l l' : list Directive) : Prop :=
             match l, l' with
             | [], [] => True
             | x :: l, x' :: l' => same_tree x x' ∧ all l l'
             | _, _ => False
             end) b b'
      | None, None => True
      | _, _ => False
      end
  end.

Definition same_trees : list Directive → list Directive → Prop := Forall2 same_tree.

Section directive_ind.
  Context (P : Directive → Prop).
  Context (Hleaf : ∀ n a l f, P (mkDirective n a None l f)).
  Context (Hnode : ∀ n a b l f, Forall P b → P (mkDirective n a (Some b) l f)).

Fixpoint directive_ind (d : Directive) : P d :=
  match d with
  | mkDirective n a None l f => Hleaf n a l f
  | mkDirective n a (Some b) l f =>
      Hnode n a b l f
        ((fix all (b : list Directive) : Forall P b :=
            match b with
            | [] => Forall_nil_2 P
            | x :: b => Forall_cons_2 P x b (directive_ind x) (all b)
            end) b)
  end.
End directive_ind.

Lemma same_tree_block n a b l f n' a' b' l' f' :
  same_tree (mkDirective n a (Some b) l f) (mkDirective n' a' (Some b') l' f') ↔
  n = n' ∧ a = a' ∧ same_trees b b'.
Proof.
  cbn. unfold same_trees. do 2 f_equiv. revert b'. induction b as [|x b IH]; intros [|x' b'].
  - by split; [constructor |].
  - by split; [|intros H; inversion H].
  - by split; [|intros H; inversion H].
  - rewrite IH. split; [intros []; by constructor | by intros [? ?]%Forall2_cons].
Qed.

(** The tokens of a tree. *)
Fixpoint toks (d : Directive) : list Tok :=
  match d with
  | mkDirective n a blk _ _ =>
      Word n :: (Word <$> a) ++
      match blk with
      | Some b => Open :: flat_map toks b ++ [Close]
      | None => [Semi]
      end
  end.

(** [lexes s ts rest]: from [s] the tokenizer reads the tokens [ts] and goes
    on at [rest]. *)
Definition lexes (s : bytes) (ts : list Tok) (rest : bytes) : Prop :=
  ∀ fuel n out, (length s < fuel)%nat →
    ∃ fuel' n' out', run fuel s n out = run fuel' rest n' out' ∧ (length rest < fuel')%nat ∧
      tok <$> out' = (tok <$> out) ++ ts.

Lemma lexes_nil s : lexes s [] s.
Proof. intros fuel n out Hf. exists fuel, n, out. by rewrite app_nil_r. Qed.

Lemma lexes_app s ts r us t : lexes s ts r → lexes r us t → lexes s (ts ++ us) t.
Proof.
  intros H1 H2 fuel n out Hf. destruct (H1 fuel n out Hf) as (f1 & n1 & o1 & -> & Hf1 & Ho1).
  destruct (H2 f1 n1 o1 Hf1) as (f2 & n2 & o2 & -> & Hf2 & Ho2). exists f2, n2, o2.
  by rewrite Ho2, Ho1, app_assoc.
Qed.

(** White space in front of a token. *)
Definition blank (w : bytes) : Prop := Forall (λ c, c = " "%byte ∨ c = newline) w.

Lemma skip_blank w s n : blank w → ∃ n', skip_trivia false (w ++ s) n = skip_trivia false s n'.
Proof.
  intros Hw. revert n. induction Hw as [|c w [-> | ->] _ IH]; intros n; cbn [app]; [by exists n | |].
  - apply (IH n).
  - apply (IH (n + 1)).
Qed.

Lemma lexes_blank w s ts r : blank w → lexes s ts r → ts ≠ [] → lexes (w ++ s) ts r.
Proof.
  intros Hw H Hts fuel n out Hf. rewrite length_app in Hf.
  destruct (skip_blank w s n Hw) as [n' Hskip].
  destruct (H fuel n' out ltac:(lia)) as (f1 & n1 & o1 & Hr & Hf1 & Ho1). exists f1, n1, o1.
  split; [|done]. rewrite <-Hr. destruct fuel as [|fuel]; [lia |]. cbn [run]. by rewrite Hskip.
Qed.

(** What may follow a word. *)
Definition starts_delim (s : bytes) : Prop := match s with c :: _ => is_delim c = true | [] => True end.

Lemma scan_bare_ok a rest : bare_body a = true → starts_delim rest → scan_bare (a ++ rest) = (a, rest).
Proof.
  intros Ha Hr. remember (length a) as k eqn:Hk. revert a Ha Hk.
  induction (lt_wf k) as [k _ IH]. intros a Ha ->. destruct a as [|c a]; cbn [app].
  - destruct rest as [|c rest]; [done |]. cbn [scan_bare]. cbn in Hr.
    rewrite decide_False by (intros ->; done). by rewrite Hr.
  - cbn [bare_body] in Ha. cbn [scan_bare]. apply andb_true_iff in Ha as [Hc Ha]. case_decide.
    + destruct a as [|d a]; [done |]. cbn [app]. rewrite (IH (length a)); [done | cbn; lia | | done].
      cbn [bare_body] in Ha. by apply andb_true_iff in Ha as [_ Ha].
    + apply negb_true_iff in Hc. rewrite Hc. by rewrite (IH (length a)) by (cbn; done || lia).
Qed.

Lemma unescape_bare a : bare_body a = true → unescape_bytes a = a.
Proof.
  induction a as [|c a IH]; [done |]. cbn [bare_body unescape_bytes].
  intros [Hc Ha]%andb_true_iff. case_decide; [|by rewrite IH].
  destruct a as [|d a]; [done |]. apply negb_true_iff, bool_decide_eq_false in Hc.
  rewrite bool_decide_eq_false_2 by (intros H'; apply Hc; set_solver).
  do 3 rewrite decide_False by (intros ->; apply Hc; set_solver). by rewrite IH.
Qed.

Lemma scan_quoted_escape a rest n :
  ∃ n', scan_quoted dquote (escape a ++ dquote :: rest) n = Ok (escape a, rest, n').
Proof.
  revert n. induction a as [|c a IH]; intros n; cbn [escape].
  - cbn. eauto.
  - case_decide as H1; [|case_decide as H2]; cbn [app].
    + cbn [scan_quoted]. rewrite decide_True by done.
      destruct (IH (if decide (backslash = newline) then n + 1 else n)) as [n' ->]. cbn. eauto.
    + cbn [scan_quoted]. rewrite decide_True by done.
      destruct (IH (if decide (dquote = newline) then n + 1 else n)) as [n' ->]. cbn. eauto.
    + cbn [scan_quoted]. rewrite !decide_False by done.
      destruct (IH (if decide (c = newline) then n + 1 else n)) as [n' ->]. cbn. eauto.
Qed.

Lemma unescape_escape a : unescape_bytes (escape a) = a.
Proof.
  induction a as [|c a IH]; [done |]. cbn [escape]. case_decide as H1; [|case_decide as H2].
  - subst. cbn. by rewrite IH.
  - subst. cbn. by rewrite IH.
  - cbn [unescape_bytes]. rewrite decide_False by done. by rewrite IH.
Qed.

Lemma lexes_punct c t s :
  (c, t) ∈ [("{"%byte, Open); ("}"%byte, Close); (";"%byte, Semi)] → lexes (c :: s) [t] s.
Proof.
  intros Hin fuel n out Hf. destruct fuel as [|fuel]; [lia |]. cbn [length] in Hf.
  exists fuel, n, (out ++ [mkToken t n false]). rewrite fmap_app. split; [|split; [lia | done]].
  repeat (apply elem_of_cons in Hin as [[= -> ->]|Hin]; [reflexivity |]). by apply not_elem_of_nil in Hin.
Qed.

Lemma bare_head c a :
  bare_ok (c :: a) = true →
  c ∉ [" "%byte; x09; x0d; newline; hash; dquote; squote; "{"%byte; "}"%byte; ";"%byte].
Proof.
  cbn [bare_ok bare_body]. intros [Hc [Hd _]%andb_true_iff]%andb_true_iff.
  apply negb_true_iff, bool_decide_eq_false in Hc. intros Hin.
  destruct (decide (c = backslash)) as [->|].
  - repeat (apply elem_of_cons in Hin as [Hin|Hin]; [done |]). by apply not_elem_of_nil in Hin.
  - apply negb_true_iff, bool_decide_eq_false in Hd. set_solver.
Qed.

Lemma lexes_bare w rest :
  utf8_valid w = true → bare_ok w = true → starts_delim rest → lexes (w ++ rest) [Word w] rest.
Proof.
  intros Hu Hw Hr fuel n out Hf. destruct fuel as [|fuel]; [lia |]. rewrite length_app in Hf.
  destruct w as [|c w]; [done |]. pose proof (bare_head c w Hw) as Hc. cbn [length] in Hf.
  exists fuel, n, (out ++ [mkToken (Word (c :: w)) n false]). rewrite fmap_app.
  split; [|split; [lia | done]]. cbn [run app skip_trivia].
  rewrite decide_False by (intros ->; apply Hc; set_solver).
  rewrite bool_decide_eq_false_2 by (intros ?; apply Hc; set_solver).
  do 5 rewrite decide_False by (intros E; apply Hc; set_solver).
  unfold bare_word. change (c :: w ++ rest) with ((c :: w) ++ rest).
  assert (bare_body (c :: w) = true) as Hb by (cbn [bare_ok] in Hw; by apply andb_true_iff in Hw as [_ ?]).
  rewrite scan_bare_ok by done. rewrite decide_False by done. unfold unescape.
  by rewrite unescape_bare, from_utf8_lossy_valid by done.
Qed.

Lemma lexes_quoted a rest :
  utf8_valid a = true → starts_delim rest → lexes (dquote :: escape a ++ dquote :: rest) [Word a] rest.
Proof.
  intros Hu Hr fuel n out Hf. destruct fuel as [|fuel]; [lia |].
  cbn [length] in Hf. rewrite length_app in Hf. cbn [length] in Hf.
  destruct (scan_quoted_escape a rest n) as [n' Hs].
  exists fuel, n', (out ++ [mkToken (Word a) n true]). rewrite fmap_app.
  split; [|split; [lia | done]]. cbn [run skip_trivia].
  change (bool_decide (dquote ∈ [" "%byte; x09; x0d])) with false. cbn [dquote].
  do 5 rewrite decide_False by done. rewrite decide_True by (by left).
  unfold quoted_word. rewrite Hs. unfold unescape. rewrite unescape_escape, from_utf8_lossy_valid by done.
  destruct rest as [|c rest]; [done |]. cbn in Hr. by rewrite Hr.
Qed.

Lemma blank_indentation i : blank (indentation i).
Proof.
  unfold indentation. induction i as [|i IH]; cbn [replicate]; [constructor |].
  rewrite join_cons. apply Forall_app. split; [|exact IH]. repeat (constructor; [by left |]). constructor.
Qed.

Lemma blank_app w w' : blank w → blank w' → blank (w ++ w').
Proof. apply Forall_app_2. Qed.

Lemma lexes_arg a rest :
  word_ok a = true → starts_delim rest → lexes (dump_arg a ++ rest) [Word a] rest.
Proof.
  intros [Hu Ha]%andb_true_iff Hr. unfold dump_arg. rewrite <-app_assoc.
  apply lexes_blank; [by repeat (constructor; [by left |]) | | done].
  destruct (needs_quotes a) eqn:Hq.
  - rewrite <-!app_assoc. by apply lexes_quoted.
  - apply lexes_bare; [done | done | done].
Qed.

Lemma lexes_args l rest :
  forallb word_ok l = true → starts_delim rest →
  lexes (mjoin (dump_arg <$> l) ++ rest) (Word <$> l) rest.
Proof.
  intros Hl Hr. induction l as [|a l IH]; [apply lexes_nil |].
  cbn [forallb] in Hl. apply andb_true_iff in Hl as [Ha Hl].
  rewrite fmap_cons_eq, join_cons, <-app_assoc.
  apply (lexes_app _ [Word a] (mjoin (dump_arg <$> l) ++ rest)); [|by apply IH].
  apply lexes_arg; [done |]. destruct l as [|a' l]; [done |]. done.
Qed.

(** From the name to what ends a directive's head. *)
Lemma lexes_head n a i c t rest :
  utf8_valid n = true → bare_ok n = true → forallb word_ok a = true →
  (c, t) ∈ [("{"%byte, Open); ("}"%byte, Close); (";"%byte, Semi)] →
  ∀ w, blank w → (is_delim (default c (head w)) = true) →
  lexes (indentation i ++ n ++ mjoin (dump_arg <$> a) ++ w ++ c :: rest) (Word n :: (Word <$> a) ++ [t]) rest.
Proof.
  intros Hu Hn Ha Ht w Hw Hd. apply lexes_blank; [apply blank_indentation | | done].
  set (tail := w ++ c :: rest).
  assert (starts_delim tail) as Hs by (unfold tail; by destruct w).
  apply (lexes_app _ [Word n] (mjoin (dump_arg <$> a) ++ tail)).
  - apply lexes_bare; [done | done |]. by destruct a.
  - apply (lexes_app _ (Word <$> a) tail); [by apply lexes_args |].
    apply lexes_blank; [done | by apply lexes_punct | done].
Qed.

Lemma lexes_dump d : tree_ok d = true → ∀ i rest,
  lexes (dump_one i d ++ rest) (toks d) (newline :: rest).
Proof.
  induction d as [n a l f | n a b l f IH] using directive_ind; intros Hok i rest;
    cbn [tree_ok] in Hok; repeat (apply andb_true_iff in Hok as [Hok ?]); cbn [dump_one toks].
  - rewrite <-!app_assoc. apply (lexes_head n a i ";"%byte Semi (newline :: rest)) with (w := []);
      [done | done | done | set_solver | constructor | done].
  - set (inner := flat_map (dump_one (S i)) b). rewrite <-!app_assoc.
    change (Word n :: (Word <$> a) ++ Open :: flat_map toks b ++ [Close]) with
      (Word n :: (Word <$> a) ++ [Open] ++ flat_map toks b ++ [Close]).
    rewrite (app_assoc (Word <$> a)), app_comm_cons.
    apply (lexes_app _ _ ([newline] ++ inner ++ indentation i ++ str "}" ++ [newline] ++ rest)).
    { apply (lexes_head n a i "{"%byte Open) with (w := [" "%byte]);
        [done | done | done | set_solver | by repeat (constructor; [by left |]) | done]. }
    set (close := indentation i ++ str "}" ++ [newline] ++ rest).
    assert (∀ w, blank w → ∃ w', blank w' ∧ lexes (w ++ inner ++ close) (flat_map toks b) (w' ++ close))
      as Hinner.
    { unfold inner. clear inner. induction IH as [|x b Hx _ IHb]; intros w Hw; cbn [flat_map].
      - exists w. split; [done | apply lexes_nil].
      - cbn [forallb] in *. match goal with H : _ && _ = true |- _ => apply andb_true_iff in H as [Hx' Hb'] end.
        destruct (IHb Hb' [newline]) as (w' & Hw' & H'); [by repeat (constructor; [by right |]) |].
        exists w'. split; [done |]. rewrite <-app_assoc.
        apply (lexes_app _ (toks x) ([newline] ++ flat_map (dump_one (S i)) b ++ close)); [|done].
        apply lexes_blank; [done | by apply Hx | by destruct x]. }
    destruct (Hinner [newline]) as (w' & Hw' & H'); [by repeat (constructor; [by right |]) |].
    eapply lexes_app; [exact H' |]. unfold close. rewrite app_assoc.
    apply lexes_blank; [apply blank_app; [done | apply blank_indentation] | | done].
    apply lexes_punct. set_solver.
Qed.

Lemma lexes_dump_all ds rest w :
  forallb tree_ok ds = true → blank w →
  ∃ w', blank w' ∧ lexes (w ++ dump ds 0 ++ rest) (flat_map toks ds) (w' ++ rest).
Proof.
  intros Hok. revert w. induction ds as [|d ds IH]; intros w Hw; cbn [dump flat_map].
  - exists w. split; [done | apply lexes_nil].
  - cbn [forallb] in Hok. apply andb_true_iff in Hok as [Hd Hok].
    destruct (IH Hok [newline]) as (w' & Hw' & H'); [by repeat (constructor; [by right |]) |].
    exists w'. split; [done |]. rewrite <-app_assoc.
    apply (lexes_app _ (toks d) ([newline] ++ dump ds 0 ++ rest)); [|done].
    apply lexes_blank; [done | by apply lexes_dump | by destruct d].
Qed.

Lemma tokenize_dump ds :
  forallb tree_ok ds = true →
  ∃ t, tokenize (dump ds 0) = Some (Ok t) ∧ tok <$> t = flat_map toks ds.
Proof.
  intros Hok. destruct (lexes_dump_all ds [] [] Hok) as (w & Hw & H); [constructor |].
  rewrite !app_nil_r in H. cbn [app] in H. unfold tokenize.
  destruct (H (S (length (dump ds 0))) 1 [] ltac:(lia)) as (f & n & out & -> & Hf & Hout).
  exists out. split; [|done]. destruct f as [|f]; [lia |]. cbn [run].
  destruct (skip_blank w [] n Hw) as [n' Hs]. rewrite app_nil_r in Hs. rewrite Hs. done.
Qed.

(** *** Parsing the tokens of a tree *)

Lemma take_args_words ta l tk r :
  tok <$> ta = Word <$> l →
  take_args (ta ++ tk :: r) =
  match tok tk with
  | Word w => let '(a, e, r) := take_args r in (l ++ w :: a, e, r)
  | Semi => (l, EndSemi, r)
  | Open => (l, EndOpen, r)
  | Close => (l, EndClose, tk :: r)
  end.
Proof.
  revert l. induction ta as [|x ta IH]; intros [|w l] H; try discriminate H; cbn [app take_args].
  - destruct (tok tk); [|done..]. by destruct (take_args r) as [[]].
  - rewrite !fmap_cons_eq in H. injection H as Hx H. rewrite Hx. rewrite (IH l H).
    destruct (tok tk); [|done..]. by destruct (take_args r) as [[]].
Qed.

(** What the parser may stop at. *)
Definition closes (top : bool) (t : list Token) : Prop :=
  if top then t = [] else ∃ tk r, t = tk :: r ∧ tok tk = Close.

Lemma block_end file eof expand fuel stack top t seen :
  closes top t → block file eof expand (S fuel) stack top t seen = ok ([], tail t) seen.
Proof.
  unfold closes. destruct top; [by intros -> |]. intros (tk & r & -> & Ht). cbn [block]. by rewrite Ht.
Qed.

Lemma fmap_app_split {A B} (f : A → B) l k1 k2 :
  f <$> l = k1 ++ k2 → ∃ l1 l2, l = l1 ++ l2 ∧ f <$> l1 = k1 ∧ f <$> l2 = k2.
Proof. intros H. apply fmap_app_inv in H as (? & ? & ? & ? & ?). eauto 10. Qed.

(** How many blocks a directive has within one another. *)
Fixpoint depth (d : Directive) : nat :=
  match d with
  | mkDirective _ _ None _ _ => 0
  | mkDirective _ _ (Some b) _ _ => S (foldr (λ d n, Nat.max (depth d) n) 0%nat b)
  end.

Lemma depth_block n a b l f k : (depth (mkDirective n a (Some b) l f) ≤ S k)%nat → Forall (λ d, depth d ≤ k)%nat b.
Proof. cbn [depth]. induction b as [|x b IH]; cbn [foldr]; [constructor | constructor; [lia | apply IH; lia]]. Qed.

Lemma block_toks file eof expand ds fuel stack top t1 t2 seen :
  forallb tree_ok ds = true → Forall (λ d, depth d ≤ stack)%nat ds → tok <$> t1 = flat_map toks ds → closes top t2 →
  (length (t1 ++ t2) < fuel)%nat →
  ∃ ds', same_trees ds ds' ∧
    block file eof expand fuel stack top (t1 ++ t2) seen = ok (ds', tail t2) seen.
Proof.
  remember (length t1) as k eqn:Hk. revert ds fuel stack top t1 t2 Hk.
  induction (lt_wf k) as [k _ IH]. intros ds fuel stack top t1 t2 -> Hok Hdp Ht Hc Hf.
  destruct fuel as [|fuel]; [lia |].
  destruct ds as [|d ds].
  { apply fmap_nil_inv in Ht as ->. exists []. split; [constructor |]. by apply block_end. }
  cbn [flat_map forallb] in *. apply andb_true_iff in Hok as [Hd Hok]. apply Forall_cons in Hdp as [Hdd Hdp].
  apply fmap_app_split in Ht as (td & t3 & -> & Htd & Ht3).
  destruct d as [n a [b|] l f]; cbn [toks tree_ok] in *;
    repeat (apply andb_true_iff in Hd as [Hd ?]).
  - destruct td as [|tk td]; [done |]. rewrite fmap_cons_eq in Htd. injection Htd as Htk Htd.
    apply fmap_app_split in Htd as (ta & tb & -> & Hta & Htb).
    destruct tb as [|to tb]; [done |]. rewrite fmap_cons_eq in Htb. injection Htb as Hto Htb.
    apply fmap_app_split in Htb as (ti & tc & -> & Hti & Htc).
    destruct tc as [|tcl [|]]; try done. injection Htc as Htcl.
    rewrite <-!app_assoc, <-app_comm_cons, <-!app_assoc. cbn [app block]. rewrite Htk.
    rewrite (take_args_words ta a) by done. rewrite Hto.
    repeat (rewrite ?length_app in Hf; cbn [length app] in Hf).
    destruct stack as [|stack]; [cbn in Hdd; lia |].
    destruct (IH (length ti)) with (ds := b) (fuel := fuel) (stack := stack) (top := false) (t1 := ti) (t2 := tcl :: t3 ++ t2)
      as (b' & Hb' & Hblk); [repeat (rewrite length_app; cbn [length]); lia |
      done | done | by eapply depth_block | done | by exists tcl, (t3 ++ t2) | rewrite length_app; cbn [length]; len_lia |].
    cbn [tail] in Hblk. rewrite <-(app_assoc ti). cbn [app].
    rewrite Hblk. cbn [andthen ok].
    rewrite decide_False by (cbn; by intros []). cbn [andthen ok].
    destruct (IH (length t3)) with (ds := ds) (fuel := fuel) (stack := S stack) (top := top) (t1 := t3) (t2 := t2)
      as (ds' & Hds' & ->); [rewrite length_app; cbn [length]; lia | done | done | done | done | done |
      len_lia |].
    cbn [andthen ok]. eexists. split; [|reflexivity]. constructor; [by apply same_tree_block | done].
  - destruct td as [|tk td]; [done |]. rewrite fmap_cons_eq in Htd. injection Htd as Htk Htd.
    apply fmap_app_split in Htd as (ta & tb & -> & Hta & Htb).
    destruct tb as [|ts [|]]; try done. injection Htb as Hts.
    rewrite <-!app_assoc, <-app_comm_cons, <-!app_assoc. cbn [app block]. rewrite Htk.
    rewrite (take_args_words ta a) by done. rewrite Hts.
    repeat (rewrite ?length_app in Hf; cbn [length app] in Hf).
    cbn [andthen ok].
    rewrite decide_False.
    2: { cbn. intros [-> _]. match goal with H : negb _ = true |- _ => by vm_compute in H end. }
    cbn [andthen ok].
    destruct (IH (length t3)) with (ds := ds) (fuel := fuel) (stack := stack) (top := top) (t1 := t3) (t2 := t2)
      as (ds' & Hds' & ->); [rewrite length_app; cbn [length]; lia | done | done | done | done | done |
      len_lia |].
    cbn [andthen ok]. eexists. split; [|reflexivity]. constructor; [done | done].
Qed.

(** *** Termination *)

Lemma take_args_length t : (length (snd (take_args t)) ≤ length t)%nat.
Proof.
  induction t as [|tk t IH]; cbn [take_args]; [done |].
  destruct (tok tk); cbn [snd length]; try lia. destruct (take_args t) as [[]]. cbn in *. lia.
Qed.

(** A result that is not fuel run out, and satisfies [Q] when it is a value. *)
Definition settles {A} (Q : A → Prop) (r : parsed A) : Prop :=
  match r with Some (Ok (a, _)) => Q a | Some (Err _) => True | None => False end.

Lemma settles_andthen {A B} (Q : A → Prop) (R : B → Prop) r k :
  settles Q r → (∀ a seen, Q a → settles R (k a seen)) → settles R (andthen r k).
Proof. destruct r as [[[a s]|e]|]; cbn; auto. Qed.

Lemma settles_weaken {A} (Q R : A → Prop) r : settles Q r → (∀ a, Q a → R a) → settles R r.
Proof. destruct r as [[[a s]|e]|]; cbn; auto. Qed.

(** How deep the braces of a file go below where it starts. *)
Fixpoint nesting (t : list Token) : nat :=
  match t with
  | [] => 0
  | tk :: t => match tok tk with Open => S (nesting t) | Close => pred (nesting t) | _ => nesting t end
  end.

Lemma take_args_nesting t :
  let '(_, e, r) := take_args t in nesting t = match e with EndOpen => S (nesting r) | _ => nesting r end.
Proof.
  induction t as [|tk t IH]; cbn [take_args nesting]; [done |].
  destruct (tok tk) eqn:E; [by destruct (take_args t) as [[a []] r] | done | cbn [nesting]; by rewrite E | done].
Qed.

(** A stack that holds the blocks of the tokens, and [m] calls more for what is
    included from the deepest of them. *)
Lemma block_total file eof expand m fuel stack top t seen :
  (∀ k d s, (m ≤ k)%nat → settles (λ _, True) (expand k d s)) → (length t < fuel)%nat → (m + nesting t ≤ stack)%nat →
  settles (λ '(_, r), (length r ≤ length t)%nat ∧ (nesting r ≤ S (nesting t))%nat ∧ (top = true → r = []))
    (block file eof expand fuel stack top t seen).
Proof.
  intros He. revert stack top t seen. induction fuel as [|fuel IH]; intros stack top t seen Hf Hst; [lia |].
  destruct t as [|tk t]; cbn [block]; [destruct top; cbn; [auto | exact I] |].
  cbn [nesting] in *. destruct (tok tk) as [n| | |] eqn:Etk; [|exact I | destruct top; cbn; [exact I | split_and!; [lia.. | done]] | exact I].
  pose proof (take_args_length t) as Hl. pose proof (take_args_nesting t) as Hn.
  destruct (take_args t) as [[a e] r]. cbn [snd length] in *.
  apply (settles_andthen (λ '(_, r'), (length r' ≤ length r)%nat ∧ (nesting r' ≤ nesting t)%nat)).
  - destruct e; try done; [cbn; lia |]. destruct stack as [|stack]; [lia |].
    eapply settles_andthen; [apply IH; lia |]. intros [b r'] s (Hr & Hr' & _). cbn. lia.
  - intros [d r'] s [Hr Hr']. apply (settles_andthen (λ _, True)).
    + case_decide; [apply He; lia | done].
    + intros ds s' _. eapply settles_andthen; [apply (IH stack top r'); lia |].
      intros [out r2] s2 (Hr2 & Hn2 & Ht2). cbn. split_and!; [lia | lia | done].
Qed.

Lemma include_all_total read d paths seen :
  (∀ p s, settles (λ _, True) (read p s)) → settles (λ _, True) (include_all read d paths seen).
Proof.
  intros Hr. revert seen. induction paths as [|p paths IH]; intros seen; [done |]. cbn [include_all].
  apply (settles_andthen (λ _, True)).
  - specialize (Hr p seen). destruct (read p seen) as [[[]|e]|]; [done | | done]. by case_decide.
  - intros sub s _. eapply settles_andthen; [apply IH | done].
Qed.

(** No file's blocks are nested deeper than this. *)
Definition nested_within (fs : FileSystem) (K : nat) : Prop :=
  ∀ p src tokens, read_to_string fs p = Ok src → tokenize src = Some (Ok tokens) → (nesting tokens ≤ K)%nat.

Lemma parse_file_inner_total fs K fuel stack depth path seen :
  nested_within fs K →
  (depth ≤ MAX_INCLUDE_DEPTH + 1)%nat → (MAX_INCLUDE_DEPTH + 2 ≤ depth + fuel)%nat → (S K * fuel ≤ stack)%nat →
  settles (λ _, True) (parse_file_inner fs fuel stack depth path seen).
Proof.
  intros HK. revert stack depth path seen. induction fuel as [|fuel IH]; intros stack depth path seen Hd Hf Hst; [lia |].
  destruct stack as [|stack]; [lia |]. cbn [parse_file_inner]. do 2 (case_decide; [done |]).
  destruct (read_to_string fs path) as [src|] eqn:Er; [|done].
  destruct (run_total (S (length src)) src 1 [] ltac:(lia)) as [[tokens|e] Ht];
    unfold tokenize at 1; rewrite Ht; [|done]. specialize (HK path src tokens Er Ht).
  apply (settles_andthen (λ _, True)); [|done]. unfold parse_tokens.
  eapply settles_andthen; [apply (block_total _ _ _ (S K * fuel)); [|lia..] | intros []; done].
  intros k d s Hk. unfold expand_include. destruct (args d) as [|pat [|]]; try done.
  destruct (include_paths fs _ pat); [|done]. apply include_all_total.
  intros p s'. apply IH; lia.
Qed.

(** ** Properties *)


Definition sample : list Directive :=
  [mkDirective (str "user") [str "www"] None 1 [];
   mkDirective (str "location") [str "~"; str "\.php$"]
     (Some [mkDirective (str "add_header") [str "X-A"; str "a; b \ c"] None 3 []]) 2 []].


(** C15. How reading a configuration ends. Whatever the files hold - files
    that include themselves, directly, through each other or through a
    pattern, broken tokens, braces left open - reading them ends in a tree or
    in an error, when the stack holds what the nesting of their blocks needs:
    where no file nests its blocks deeper than [K], thirty-four times one call
    more than that. Without that nothing stops the parser
    ([deep_blocks_overflow]). *)
Theorem parse_file_total fs K stack path :
  nested_within fs K → (S K * (MAX_INCLUDE_DEPTH + 2) ≤ stack)%nat → ∃ r, parse_file fs stack path = Some r.
Proof.
  intros HK Hst.
  pose proof (parse_file_inner_total fs K (MAX_INCLUDE_DEPTH + 2) stack 0 path ∅ HK ltac:(lia) ltac:(lia) Hst) as H.
  unfold parse_file. by destruct (parse_file_inner _ _ _ _ _ _) as [[[]|]|]; eauto.
Qed.

(** A file that includes itself under two names, one block deep. *)
Definition looped_fs : FileSystem :=
  mkFileSystem (λ _, Ok (str "a { b; } include two;")) id (λ _, str "/etc") (λ _, Ok []).

Lemma parse_file_total_witness :
  ∃ r, parse_file looped_fs 68 (str "/etc/one") = Some r ∧
    match r with Err e => msg e = str "recursive include of /etc/two" | Ok _ => False end.
Proof.
  destruct (parse_file_total looped_fs 1 68 (str "/etc/one")) as [r Hr].
  - intros p src tokens [= <-] Ht. vm_compute in Ht. injection Ht as <-. cbn. lia.
  - cbn. lia.
  - exists r. split; [exact Hr |]. vm_compute in Hr. injection Hr as <-. reflexivity.
Defined.

(** Nothing bounds how deep the blocks of a file go: for every stack there is
    a file that overflows it, before anything is found wrong with it. *)
Theorem deep_blocks_overflow path expand stack seen n :
  (stack < n)%nat →
  parse_tokens path expand stack (mjoin (replicate n [mkToken (Word (str "a")) 1 false; mkToken Open 1 false])) seen = None.
Proof.
  intros Hn. unfold parse_tokens. cbv zeta. match goal with |- context [match last ?l with _ => _ end] => generalize (match last l with Some tk => line tk | None => 0 end) as eof end. intros eof.
  set (tokens := λ n, mjoin (replicate n [mkToken (Word (str "a")) 1 false; mkToken Open 1 false])).
  assert (Hlen : ∀ n, length (tokens n) = (2 * n)%nat).
  { unfold tokens. induction n0 as [|k IH]; [done |]. cbn [replicate]. rewrite join_cons, length_app, IH. cbn. lia. }
  assert (H : ∀ top fuel, (2 * n < fuel)%nat → block path eof expand fuel stack top (tokens n) seen = None).
  2: { fold (tokens n). rewrite H; [done |]. rewrite Hlen. lia. }
  clear Hlen. unfold tokens. revert n Hn seen.
  induction stack as [|stack IH]; intros [|n] Hn seen top [|fuel] Hf; try lia; cbn [replicate]; rewrite join_cons;
    cbn [app block tok take_args]; [done |]. by rewrite IH by lia.
Qed.

(** A dump does not always read back: a word that starts with a quote or
    a hash, or that ends in a backslash, is printed bare; here the dump of a
    valid tree is no longer a configuration. *)
Theorem dump_breaks_bare_words expand :
  let d := mkDirective (str "return") [str "200"; str "#ok"] None 1 [] in
  ∃ tokens, tokenize (dump [d] 0) = Some (Ok tokens) ∧
    ∃ e, parse_tokens (str "x.conf") expand 8 tokens ∅ = Some (Err e).
Proof.
  exists [mkToken (Word (str "return")) 1 false; mkToken (Word (str "200")) 1 false].
  split; [reflexivity |]. eexists. reflexivity.
Qed.
