(* ===== verification/Matching.v ===== *)
(** * [src/config/model.rs], [src/config/build.rs]: which location, which server

    [LocSet::find] searches locations that [loc_set] sorted by kind; the
    reference is nginx's documented order over the locations as written
    ([nginx_find]).  [Listener::match_host] picks a server by host name.
    Regular expressions (the [regex] crate) are parameters. *)
From Stdlib Require Import Sorting.Sorted.
From S2P Require Import Prelude.
From S2P Require Import Text.
From S2P Require Import Sort.

Open Scope Z_scope.

(** ** The code *)

(** [str] comparison: bytes in order. *)
Fixpoint str_cmp (a b : bytes) : comparison :=
  match a, b with
  | [], [] => Eq
  | [], _ :: _ => Lt
  | _ :: _, [] => Gt
  | x :: a, y :: b => match u8 x ?= u8 y with Eq => str_cmp a b | c => c end
  end.

(** *** Servers by host name *)

Section hosts.
  Context {HostRegex Server : Type}.
  Context (compile_regex : bytes → bool → option HostRegex) (is_match : HostRegex → bytes → bool).

Inductive ServerName :=
  | ExactName (n : bytes)
  | LeadingWildcard (suffix : bytes)
  | TrailingWildcard (pre : bytes)
  | RegexName (re : HostRegex)
  | EmptyName.

(** [build.rs], [server_name]; [None] is a regular expression that does not
    compile. *)
Definition server_name (a : bytes) : option ServerName :=
  if decide (a = [] ∨ a = [x22; x22]) then Some EmptyName
  else match strip_prefix (str "~*") a, strip_prefix (str "~") a with
  | Some re, _ => RegexName <$> compile_regex re true
  | None, Some re => RegexName <$> compile_regex re false
  | None, None =>
      match strip_prefix (str "*.") a with
      | Some suffix => Some (LeadingWildcard suffix)
      | None =>
          if ends_with (str ".*") a then Some (TrailingWildcard (take (length a - 2) a))
          else Some (ExactName (lowercase a))
      end
  end.

(** A [ServerConf]: its names, and what tells it apart. *)
Record ServerConf := mkServerConf { names : list ServerName; conf : Server }.

(** [host.trim_end_matches('.')] *)
Fixpoint drop_dots (r : bytes) : bytes :=
  match r with c :: r' => if decide (c = "."%byte) then drop_dots r' else r | [] => [] end.
Definition trim_dots (host : bytes) : bytes := reverse (drop_dots (reverse host)).

Definition leading_matches (host suffix : bytes) : bool :=
  bool_decide (length suffix < length host)%nat &&
  bool_decide (host !! (length host - length suffix - 1)%nat = Some "."%byte) &&
  eq_ignore_ascii_case (drop (length host - length suffix) host) suffix.

Definition trailing_matches (host pre : bytes) : bool :=
  bool_decide (length pre < length host)%nat &&
  bool_decide (host !! length pre = Some "."%byte) &&
  eq_ignore_ascii_case (take (length pre) host) pre.

(** [best.map_or(true, |(l, _)| len > l)] *)
Definition better (len : nat) (best : option (nat * ServerConf)) : bool :=
  match best with None => true | Some (l, _) => bool_decide (l < len)%nat end.

(** The two nested loops, over every (server, name) in turn: an exact hit
    returns at once ([inl]), the wildcards keep the best so far. *)
Fixpoint scan_names (host : bytes) (l : list (ServerConf * ServerName))
    (lead trail : option (nat * ServerConf)) :
    ServerConf + option (nat * ServerConf) * option (nat * ServerConf) :=
  match l with
  | [] => inr (lead, trail)
  | (s, n) :: l =>
      match n with
      | ExactName e =>
          if eq_ignore_ascii_case host e then inl s else scan_names host l lead trail
      | LeadingWildcard suffix =>
          scan_names host l
            (if leading_matches host suffix && better (length suffix) lead
             then Some (length suffix, s) else lead) trail
      | TrailingWildcard pre =>
          scan_names host l lead
            (if trailing_matches host pre && better (length pre) trail
             then Some (length pre, s) else trail)
      | EmptyName => if decide (host = []) then inl s else scan_names host l lead trail
      | RegexName _ => scan_names host l lead trail
      end
  end.

Definition all_names (servers : list ServerConf) : list (ServerConf * ServerName) :=
  flat_map (λ s, (λ n, (s, n)) <$> names s) servers.

Definition regex_hit (host : bytes) (p : ServerConf * ServerName) : bool :=
  match snd p with RegexName re => is_match re host | _ => false end.

Definition match_host (servers : list ServerConf) (default_server : nat) (host : bytes) :
    option ServerConf :=
  let host := trim_dots host in
  match scan_names host (all_names servers) None None with
  | inl s => Some s
  | inr (Some (_, s), _) => Some s
  | inr (None, Some (_, s)) => Some s
  | inr (None, None) =>
      match list_find (λ p, regex_hit host p = true) (all_names servers) with
      | Some (_, (s, _)) => Some s
      | None => servers !! default_server
      end
  end.

(** ** nginx's precedence of host names *)

Definition exact_hit (host : bytes) (n : ServerName) : bool :=
  match n with
  | ExactName e => eq_ignore_ascii_case host e
  | EmptyName => bool_decide (host = [])
  | _ => false
  end.

Definition leading_score (host : bytes) (n : ServerName) : option nat :=
  match n with
  | LeadingWildcard suffix => if leading_matches host suffix then Some (length suffix) else None
  | _ => None
  end.

Definition trailing_score (host : bytes) (n : ServerName) : option nat :=
  match n with
  | TrailingWildcard pre => if trailing_matches host pre then Some (length pre) else None
  | _ => None
  end.

(** The first of the pairs with the highest score. *)
Fixpoint longest_of (score : ServerName → option nat) (l : list (ServerConf * ServerName)) :
    option (nat * ServerConf) :=
  match l with
  | [] => None
  | (s, n) :: l =>
      match score n, longest_of score l with
      | Some k, Some (k', s') => if decide (k < k')%nat then Some (k', s') else Some (k, s)
      | Some k, None => Some (k, s)
      | None, r => r
      end
  end.

(** The first of the options that is there. *)
Definition first_of {A} (l : list (option A)) : option A := head (omap id l).

Definition nginx_host (servers : list ServerConf) (default_server : nat) (host : bytes) :
    option ServerConf :=
  let host := trim_dots host in
  let ns := all_names servers in
  first_of
    [fst ∘ snd <$> list_find (λ p, exact_hit host (snd p) = true) ns;
     snd <$> longest_of (leading_score host) ns;
     snd <$> longest_of (trailing_score host) ns;
     fst ∘ snd <$> list_find (λ p, regex_hit host p = true) ns;
     servers !! default_server].

Definition merge (best r : option (nat * ServerConf)) : option (nat * ServerConf) :=
  match best, r with
  | Some (k, s), Some (k', s') => if decide (k < k')%nat then Some (k', s') else Some (k, s)
  | None, r => r
  | b, None => b
  end.

Lemma merge_step k s best r :
  merge (if better k best then Some (k, s) else best) r =
  merge best (match r with
              | Some (k', s') => if decide (k < k')%nat then Some (k', s') else Some (k, s)
              | None => Some (k, s)
              end).
Proof.
  unfold better, merge. destruct best as [[b t]|], r as [[k' s']|]; try done.
  - case_bool_decide; repeat (case_decide; try done); lia.
  - case_bool_decide; case_decide; done || lia.
Qed.

Lemma scan_names_spec host l lead trail :
  scan_names host l lead trail =
  match fst ∘ snd <$> list_find (λ p, exact_hit host (snd p) = true) l with
  | Some s => inl s
  | None => inr (merge lead (longest_of (leading_score host) l),
                 merge trail (longest_of (trailing_score host) l))
  end.
Proof.
  assert (∀ b : option (nat * ServerConf), merge b None = b) as Hnone by (by intros [[]|]).
  revert lead trail. induction l as [|[s n] l IH]; intros lead trail.
  - cbn. by rewrite !Hnone.
  - assert (∀ (o : option (nat * (ServerConf * ServerName))),
      (fst ∘ snd <$> (prod_map S id <$> o)) = (fst ∘ snd <$> o)) as Hsnd by (by intros [[? []]|]).
    cbn [scan_names list_find longest_of]. destruct n as [e|suffix|pre|re|]; cbn [exact_hit snd leading_score trailing_score].
    + destruct (eq_ignore_ascii_case host e); [by rewrite decide_True |].
      rewrite decide_False, Hsnd by done. apply IH.
    + rewrite decide_False, Hsnd by done. rewrite IH. destruct (leading_matches host suffix); [|done].
      cbn [andb]. by rewrite merge_step.
    + rewrite decide_False, Hsnd by done. rewrite IH. destruct (trailing_matches host pre); [|done].
      cbn [andb]. by rewrite merge_step.
    + rewrite decide_False, Hsnd by done. apply IH.
    + case_decide as Hh.
      * subst. by rewrite decide_True by done.
      * rewrite decide_False, Hsnd; [apply IH |]. by rewrite bool_decide_eq_true.
Qed.

(** Only a server of the listener is chosen. *)
Lemma scan_names_elem host l (P : ServerConf → Prop) : ∀ lead trail,
  (∀ p, p ∈ l → P (fst p)) → (∀ p, lead = Some p → P (snd p)) → (∀ p, trail = Some p → P (snd p)) →
  match scan_names host l lead trail with
  | inl s => P s
  | inr (a, b) => (∀ p, a = Some p → P (snd p)) ∧ (∀ p, b = Some p → P (snd p))
  end.
Proof.
  induction l as [|[s n] l IH]; intros lead trail Hl Ha Hb; cbn [scan_names]; [done |].
  assert (Hs : P s) by (apply (Hl (s, n)); left). assert (Hl' : ∀ p, p ∈ l → P (fst p)) by (intros p Hp; apply Hl; by right).
  assert (Hk : ∀ b k (o : option (nat * ServerConf)), (∀ p, o = Some p → P (snd p)) →
    ∀ p, (if b : bool then Some (k, s) else o) = Some p → P (snd p)) by (intros [] k o Ho p; [by intros [= <-] | apply Ho]).
  destruct n as [e|e|e|re|]; [destruct (eq_ignore_ascii_case host e) | | | |destruct (decide (host = []))];
    try exact Hs; apply IH; try done; by apply Hk.
Qed.

Lemma match_host_elem servers default_server host s :
  match_host servers default_server host = Some s → s ∈ servers.
Proof.
  assert (Hall : ∀ p, p ∈ all_names servers → fst p ∈ servers).
  { intros [t n] (u & Hu & Hn)%list_elem_of_In%in_flat_map. apply list_elem_of_In in Hu, Hn.
    apply list_elem_of_fmap in Hn as (m & [= -> ->] & _). done. }
  unfold match_host. pose proof (scan_names_elem (trim_dots host) (all_names servers) (.∈ servers) None None) as H.
  specialize (H Hall). destruct (scan_names _ _ _ _) as [t|[[[k a]|] [[k' b]|]]].
  all: try (intros [= <-]; by apply H || (apply H; done)).
  all: try (intros [= <-]; destruct H as [H1 H2]; [done..|]; by (apply (H1 _ eq_refl) || apply (H2 _ eq_refl))).
  destruct (list_find _ _) as [[i [t n]]|] eqn:E.
  - intros [= <-]. apply list_find_Some in E as (E & _). apply list_elem_of_lookup_2 in E. by apply (Hall (_, n)).
  - apply list_elem_of_lookup_2.
Qed.

Lemma match_host_default servers default_server host s :
  servers !! default_server = Some s → match_host servers default_server host ≠ None.
Proof.
  intros Hs. unfold match_host. destruct (scan_names _ _ _ _) as [t|[[[k a]|] [[k' b]|]]]; try done.
  by destruct (list_find _ _) as [[i [t n]]|]; [|rewrite Hs].
Qed.

(** The one pass of the code is a search for each kind of name in turn. *)
Lemma match_host_by_kinds servers default_server host :
  match_host servers default_server host = nginx_host servers default_server host.
Proof.
  unfold match_host, nginx_host, first_of. rewrite scan_names_spec. cbn [merge].
  destruct (list_find (λ p, exact_hit _ _ = true) _) as [[i [s n]]|]; [done |].
  cbn [fmap option_fmap option_map omap list_omap id].
  destruct (longest_of (leading_score _) _) as [[k s]|]; [done |].
  destruct (longest_of (trailing_score _) _) as [[k s]|]; [done |]. cbn.
  destruct (list_find _ _) as [[i [s n]]|]; [done |]. cbn. by destruct (servers !! default_server).
Qed.

(** *** Which names cover a host, and which of them goes first *)

(** A host name is a name up to case; a wildcard stands for what is before the
    dot of [.suffix], or behind that of [prefix.]: at least the dot is there. *)
Definition covers (host : bytes) (n : ServerName) : Prop :=
  match n with
  | ExactName e => lowercase host = lowercase e
  | EmptyName => host = []
  | LeadingWildcard suffix => ∃ x, lowercase host = x ++ str "." ++ lowercase suffix
  | TrailingWildcard pre => ∃ x, lowercase host = lowercase pre ++ str "." ++ x
  | RegexName re => is_match re host = true
  end.

(** The order of the kinds, and the length of what a wildcard fixes. *)
Definition rank (n : ServerName) : nat :=
  match n with ExactName _ | EmptyName => 0 | LeadingWildcard _ => 1 | TrailingWildcard _ => 2 | RegexName _ => 3 end.
Definition fixed (n : ServerName) : nat :=
  match n with LeadingWildcard w | TrailingWildcard w => length w | _ => 0 end.
Definition precedes (n n' : ServerName) : Prop := (rank n < rank n' ∨ rank n = rank n' ∧ fixed n' < fixed n)%nat.

(** The name at [i]: it covers the host, none that covers it goes before it,
    and of those that are its equals it is the first in the file. *)
Definition chosen_name (host : bytes) (l : list (ServerConf * ServerName)) (i : nat) (s : ServerConf) (n : ServerName) : Prop :=
  l !! i = Some (s, n) ∧ covers host n ∧
  ∀ j s' n', l !! j = Some (s', n') → covers host n' → ¬ precedes n' n ∧ (¬ precedes n n' → i ≤ j)%nat.

Lemma lowercase_dot c : to_ascii_lowercase c = "."%byte ↔ c = "."%byte.
Proof. by destruct c. Qed.

Lemma dot_lookup host i : lowercase host !! i = Some "."%byte ↔ host !! i = Some "."%byte.
Proof.
  unfold lowercase. rewrite list_lookup_fmap. destruct (host !! i) as [c|]; [|done]. cbn. split; intros [= H]; f_equal; by apply lowercase_dot.
Qed.

Lemma length_lowercase s : length (lowercase s) = length s.
Proof. apply length_fmap. Qed.

Lemma leading_covers host suffix : leading_matches host suffix = true ↔ covers host (LeadingWildcard suffix).
Proof.
  unfold leading_matches. rewrite !andb_true_iff, !bool_decide_eq_true, eq_ignore_ascii_case_spec, <-dot_lookup. cbn [covers].
  unfold lowercase. rewrite fmap_drop. fold (lowercase host) (lowercase suffix). rewrite <-(length_lowercase host), <-(length_lowercase suffix).
  generalize (lowercase host) as h, (lowercase suffix) as f. intros h f. split.
  - intros [[Hl Hd] Hs]. exists (take (length h - length f - 1) h). rewrite <-Hs at 2.
    rewrite <-(take_drop (length h - length f - 1) h) at 1. f_equal.
    rewrite (drop_S _ _ _ Hd). cbn. f_equal. f_equal. lia.
  - intros [x ->]. change (str ".") with ["."%byte]. cbn [app]. rewrite !length_app. cbn [length]. split_and!; [lia | |].
    + replace (length x + S (length f) - length f - 1)%nat with (length x) by lia. by rewrite list_lookup_middle.
    + replace (length x + S (length f) - length f)%nat with (length (x ++ ["."%byte])) by (rewrite length_app; cbn; lia).
      change (x ++ "."%byte :: f) with (x ++ ["."%byte] ++ f). by rewrite app_assoc, drop_app_length.
Qed.

Lemma trailing_covers host pre : trailing_matches host pre = true ↔ covers host (TrailingWildcard pre).
Proof.
  unfold trailing_matches. rewrite !andb_true_iff, !bool_decide_eq_true, eq_ignore_ascii_case_spec, <-dot_lookup. cbn [covers].
  unfold lowercase. rewrite fmap_take. fold (lowercase host) (lowercase pre). rewrite <-(length_lowercase host), <-(length_lowercase pre).
  generalize (lowercase host) as h, (lowercase pre) as f. intros h f. split.
  - intros [[Hl Hd] Hs]. exists (drop (S (length f)) h). rewrite <-Hs at 1.
    rewrite <-(take_drop (length f) h) at 1. f_equal. by rewrite (drop_S _ _ _ Hd).
  - intros [x ->]. change (str ".") with ["."%byte]. cbn [app]. rewrite !length_app. cbn [length]. split_and!; [lia | by rewrite list_lookup_middle | by rewrite take_app_length].
Qed.

Lemma exact_covers host n : exact_hit host n = true ↔ covers host n ∧ rank n = 0%nat.
Proof. destruct n; cbn [exact_hit covers rank]; rewrite ?eq_ignore_ascii_case_spec, ?bool_decide_eq_true; naive_solver. Qed.

Lemma score_covers host n k :
  (leading_score host n = Some k ↔ covers host n ∧ rank n = 1%nat ∧ fixed n = k) ∧
  (trailing_score host n = Some k ↔ covers host n ∧ rank n = 2%nat ∧ fixed n = k).
Proof.
  split; destruct n; cbn [leading_score trailing_score rank fixed]; try (split; [done | by intros (_ & [=] & _)]).
  - rewrite <-leading_covers. destruct (leading_matches _ _); naive_solver.
  - rewrite <-trailing_covers. destruct (trailing_matches _ _); naive_solver.
Qed.

(** The first of the highest score. *)
Lemma longest_of_spec (score : ServerName → option nat) l :
  match longest_of score l with
  | Some (k, s) => ∃ i n, l !! i = Some (s, n) ∧ score n = Some k ∧
      ∀ j s' n' k', l !! j = Some (s', n') → score n' = Some k' → (k' ≤ k ∧ (k' = k → i ≤ j))%nat
  | None => ∀ j s' n', l !! j = Some (s', n') → score n' = None
  end.
Proof.
  induction l as [|[s n] l IH]; cbn [longest_of]; [done |].
  destruct (score n) as [k|] eqn:Ek.
  - destruct (longest_of score l) as [[k' s']|].
    + destruct IH as (i & m & Hi & Hm & Hall). case_decide as Hk.
      * exists (S i), m. split_and!; [done.. |]. intros [|j] s2 n2 k2 Hj Hs2; [injection Hj as <- <-; rewrite Ek in Hs2; injection Hs2 as <-; lia |].
        destruct (Hall j s2 n2 k2 Hj Hs2). lia.
      * exists 0%nat, n. split_and!; [done.. |]. intros [|j] s2 n2 k2 Hj Hs2; [injection Hj as <- <-; rewrite Ek in Hs2; injection Hs2 as <-; lia |].
        destruct (Hall j s2 n2 k2 Hj Hs2). lia.
    + exists 0%nat, n. split_and!; [done.. |]. intros [|j] s2 n2 k2 Hj Hs2; [injection Hj as <- <-; rewrite Ek in Hs2; injection Hs2 as <-; lia |].
      by rewrite (IH j s2 n2 Hj) in Hs2.
  - destruct (longest_of score l) as [[k' s']|].
    + destruct IH as (i & m & Hi & Hm & Hall). exists (S i), m. split_and!; [done.. |].
      intros [|j] s2 n2 k2 Hj Hs2; [injection Hj as <- <-; congruence |]. destruct (Hall j s2 n2 k2 Hj Hs2). lia.
    + intros [|j] s2 n2 Hj; [by injection Hj as <- <- | by eapply IH].
Qed.

Lemma drop_dots_spec r : ∃ k, r = replicate k "."%byte ++ drop_dots r ∧ head (drop_dots r) ≠ Some "."%byte.
Proof.
  induction r as [|c r (k & Hk & Hh)]; [by exists 0%nat |]. cbn [drop_dots]. case_decide as Hc.
  - exists (S k). cbn [replicate app]. by rewrite Hc, <-Hk.
  - exists 0%nat. split; [done |]. by intros [= ->].
Qed.

(** The dots at the end do not count. *)
Lemma trim_dots_spec h : ∃ k, h = trim_dots h ++ replicate k "."%byte ∧ last (trim_dots h) ≠ Some "."%byte.
Proof.
  unfold trim_dots. destruct (drop_dots_spec (reverse h)) as (k & Hk & Hh). exists k.
  rewrite last_reverse. split; [|done]. apply (f_equal reverse) in Hk. rewrite reverse_involutive, reverse_app, reverse_replicate in Hk. done.
Qed.


End hosts.

Section locations.
  Context {Regex Captures Conf : Type} (captures : Regex → bytes → option Captures).

Inductive LocMatch :=
  | Exact (p : bytes)
  | Prefix (p : bytes)
  | PrefixNoRegex (p : bytes)
  | RegexLoc (re : Regex) (ci : bool)
  | Named (n : bytes).

(** A [Location]: how it was written, where ([raw_line] tells apart locations
    written alike), and what it configures, which the search only carries. *)
Record Location := mkLocation { matcher : LocMatch; raw_line : Z; payload : Conf }.

Definition prefix_of (l : Location) : bytes :=
  match matcher l with Exact p | Prefix p | PrefixNoRegex p => p | _ => [] end.

Record LocSet := mkLocSet {
  exact : list Location;
  prefix : list Location;
  regex : list Location;
  named : list (bytes * Location)
}.

Definition by_path (a b : Location) : bool :=
  match str_cmp (prefix_of a) (prefix_of b) with Gt => false | _ => true end.

(** [sort_by_key(Reverse(len))] *)
Definition longest_first (a b : Location) : bool :=
  bool_decide (length (prefix_of b) ≤ length (prefix_of a))%nat.

Definition is_exact (l : Location) : bool := match matcher l with Exact _ => true | _ => false end.
Definition is_prefix (l : Location) : bool :=
  match matcher l with Prefix _ | PrefixNoRegex _ => true | _ => false end.
Definition is_regex (l : Location) : bool := match matcher l with RegexLoc _ _ => true | _ => false end.

(** [loc_set], over locations already built; a later [@name] replaces an
    earlier one. *)
Definition loc_set (ls : list Location) : LocSet :=
  mkLocSet (sort_by by_path (filter (λ l, is_exact l = true) ls))
    (sort_by longest_first (filter (λ l, is_prefix l = true) ls))
    (filter (λ l, is_regex l = true) ls)
    (reverse (omap (λ l, match matcher l with Named n => Some (n, l) | _ => None end) ls)).

(** [slice::binary_search_by] on a sorted slice, as the standard library
    writes it: the half-open range shrinks to one element. *)
Fixpoint search_loop (fuel : nat) (cmp : Location → comparison) (l : list Location) (base size : nat) : nat :=
  match fuel with
  | O => base
  | S fuel =>
      if decide (size ≤ 1)%nat then base
      else
        let half := (size / 2)%nat in
        let mid := (base + half)%nat in
        let base := match cmp <$> l !! mid with Some Gt => base | _ => mid end in
        search_loop fuel cmp l base (size - half)
  end.

Definition binary_search_by (cmp : Location → comparison) (l : list Location) : option nat :=
  let base := search_loop (length l) cmp l 0 (length l) in
  match cmp <$> l !! base with Some Eq => Some base | _ => None end.

(** The first regex location, in configuration order, that matches. *)
Fixpoint first_regex (ls : list Location) (uri : bytes) : option (Location * option Captures) :=
  match ls with
  | [] => None
  | l :: ls =>
      match matcher l with
      | RegexLoc re _ =>
          match captures re uri with Some c => Some (l, Some c) | None => first_regex ls uri end
      | _ => first_regex ls uri
      end
  end.

Definition find (s : LocSet) (uri : bytes) : option (Location * option Captures) :=
  match binary_search_by (λ l, str_cmp (prefix_of l) uri) (exact s) with
  | Some i => (λ l, (l, None)) <$> exact s !! i
  | None =>
      let best_prefix := snd <$> list_find (λ l, starts_with (prefix_of l) uri = true) (prefix s) in
      let rest :=
        match first_regex (regex s) uri with
        | Some r => Some r
        | None => (λ l, (l, None)) <$> best_prefix
        end in
      match best_prefix with
      | Some l => match matcher l with PrefixNoRegex _ => Some (l, None) | _ => rest end
      | None => rest
      end
  end.

(** ** nginx's order, over the locations as written *)

(** The longest prefix that matches, the first of those written twice. *)
Fixpoint longest_prefix (ls : list Location) (uri : bytes) : option Location :=
  match ls with
  | [] => None
  | l :: ls =>
      let rest := longest_prefix ls uri in
      if is_prefix l && starts_with (prefix_of l) uri then
        match rest with
        | Some b => if decide (length (prefix_of l) < length (prefix_of b))%nat then Some b else Some l
        | None => Some l
        end
      else rest
  end.

Definition exact_at (uri : bytes) (l : Location) : bool :=
  match matcher l with Exact p => bool_decide (p = uri) | _ => false end.

Definition nginx_find (ls : list Location) (uri : bytes) : option (Location * option Captures) :=
  match list_find (λ l, exact_at uri l = true) ls with
  | Some (_, l) => Some (l, None)
  | None =>
      match longest_prefix ls uri with
      | Some l =>
          match matcher l with
          | PrefixNoRegex _ => Some (l, None)
          | _ => match first_regex ls uri with Some r => Some r | None => Some (l, None) end
          end
      | None => first_regex ls uri
      end
  end.

(** ** Lemmas *)

Lemma str_cmp_refl a : str_cmp a a = Eq.
Proof. induction a as [|x a IH]; cbn; [done |]. by rewrite Z.compare_refl. Qed.

Lemma str_cmp_eq a b : str_cmp a b = Eq ↔ a = b.
Proof.
  split; [|intros ->; apply str_cmp_refl]. revert b.
  induction a as [|x a IH]; intros [|y b]; cbn; try done.
  destruct (Z.compare_spec (u8 x) (u8 y)) as [E|E|E]; try done. apply u8_inj in E as ->.
  intros H. f_equal. by apply IH.
Qed.

Lemma str_cmp_trans a b c o :
  str_cmp a b ≠ Gt → str_cmp b c = o → o ≠ Gt → str_cmp a c ≠ Gt ∧ (o = Lt → str_cmp a c = Lt).
Proof.
  revert b c. induction a as [|x a IH]; intros [|y b] [|z c]; cbn; try (intros; subst; done).
  destruct (Z.compare_spec (u8 x) (u8 y)), (Z.compare_spec (u8 y) (u8 z)),
    (Z.compare_spec (u8 x) (u8 z)); intros; subst; try done; try lia. by eapply IH.
Qed.

Lemma str_cmp_flip a b : str_cmp b a = CompOpp (str_cmp a b).
Proof.
  revert b. induction a as [|x a IH]; intros [|y b]; cbn; try done.
  rewrite (Z.compare_antisym (u8 x) (u8 y)). destruct (u8 x ?= u8 y); cbn; [apply IH | done | done].
Qed.

Lemma by_path_le a b : by_path a b = true ↔ str_cmp (prefix_of a) (prefix_of b) ≠ Gt.
Proof. unfold by_path. by destruct (str_cmp _ _). Qed.

Lemma exact_sorted l : sorted_by by_path (sort_by by_path l).
Proof.
  apply sort_by_sorted.
  - intros a b. rewrite !by_path_le, (str_cmp_flip (prefix_of a)).
    destruct (str_cmp _ _); [by left | by left | by right].
  - intros a b c. rewrite !by_path_le. intros H1 H2. by eapply str_cmp_trans.
Qed.

Lemma prefix_sorted l : sorted_by longest_first (sort_by longest_first l).
Proof.
  apply sort_by_sorted; unfold longest_first.
  - intros a b. rewrite !bool_decide_eq_true. lia.
  - intros a b c. rewrite !bool_decide_eq_true. lia.
Qed.

(** *** Binary search *)

(** How a sorted list compares with a key: first [Lt], then [Eq], then [Gt]. *)
Definition ordered (cmp : Location → comparison) (l : list Location) : Prop :=
  ∀ i j a b, (i ≤ j)%nat → l !! i = Some a → l !! j = Some b →
    (cmp a = Gt → cmp b = Gt) ∧ (cmp b = Lt → cmp a = Lt).

Lemma search_loop_spec fuel cmp l base size :
  ordered cmp l → (base + size ≤ length l)%nat → (size ≤ fuel)%nat → (0 < size)%nat →
  (∀ k a, l !! k = Some a → cmp a = Eq →
     ∃ k' a', (base ≤ k' < base + size)%nat ∧ l !! k' = Some a' ∧ cmp a' = Eq) →
  (∃ k a, l !! k = Some a ∧ cmp a = Eq) →
  ∃ a, l !! search_loop fuel cmp l base size = Some a ∧ cmp a = Eq.
Proof.
  intros Ho. revert base size. induction fuel as [|fuel IH]; intros base size Hb Hf Hs Hin Hex; [lia |].
  cbn [search_loop]. case_decide as H1.
  { destruct Hex as (k & a & Hk & Ha). destruct (Hin k a Hk Ha) as (k' & a' & Hk' & Hl & Ha').
    replace k' with base in Hl by lia. eauto. }
  assert (0 < size / 2 < size)%nat as Hhalf
    by (split; [apply Nat.div_str_pos; lia | apply Nat.div_lt; lia]).
  pose proof (Nat.Div0.mul_div_le size 2) as Hle.
  destruct (l !! (base + size / 2)%nat) as [m|] eqn:Hm; [|apply lookup_ge_None in Hm; lia].
  cbn [fmap option_fmap option_map]. apply IH; try done; try lia; [case_match; lia |].
  intros k a Hk Ha. destruct (Hin k a Hk Ha) as (k' & a' & Hk' & Hl' & Ha').
  destruct (decide (k' < base + size / 2)%nat) as [Hlt|Hge].
  - destruct (Ho k' (base + size / 2)%nat a' m ltac:(lia) Hl' Hm) as [_ H2].
    destruct (cmp m) eqn:Em.
    + exists (base + size / 2)%nat, m. split; [lia | done].
    + rewrite H2 in Ha' by done. done.
    + exists k', a'. split; [lia | done].
  - destruct (Ho (base + size / 2)%nat k' m a' ltac:(lia) Hm Hl') as [H1' _].
    destruct (cmp m) eqn:Em.
    + exists k', a'. split; [lia | done].
    + exists k', a'. split; [lia | done].
    + rewrite H1' in Ha' by done. done.
Qed.

Lemma binary_search_spec cmp l :
  ordered cmp l →
  match binary_search_by cmp l with
  | Some i => ∃ a, l !! i = Some a ∧ cmp a = Eq
  | None => ∀ a, a ∈ l → cmp a ≠ Eq
  end.
Proof.
  intros Ho. unfold binary_search_by. set (i := search_loop _ _ _ _ _).
  destruct (l !! i) as [a|] eqn:Hi; cbn.
  - destruct (cmp a) eqn:Ha; [by exists a | |];
      intros b [k Hk]%list_elem_of_lookup Hb;
      (destruct (search_loop_spec (length l) cmp l 0 (length l)) as (a' & Hl & Ha');
        [done | lia | lia | apply lookup_lt_Some in Hk; lia | |by eauto |]; 
        [intros k' c Hk' Hc; exists k', c; apply lookup_lt_Some in Hk' as ?; split; [lia | done] |
         fold i in Hl; congruence]).
  - intros b [k Hk]%list_elem_of_lookup Hb.
    destruct (search_loop_spec (length l) cmp l 0 (length l)) as (a' & Hl & Ha');
      [done | lia | lia | apply lookup_lt_Some in Hk; lia | | by eauto |].
    + intros k' c Hk' Hc. exists k', c. apply lookup_lt_Some in Hk' as ?. split; [lia | done].
    + fold i in Hl. congruence.
Qed.

(** *** The parts of [find] against the locations as written *)

Lemma exact_ordered ls uri :
  ordered (λ l, str_cmp (prefix_of l) uri) (sort_by by_path ls).
Proof.
  intros i j a b Hij Ha Hb.
  assert (i = j ∨ by_path a b = true) as [-> | Hab].
  { destruct (decide (i = j)); [by left | right].
    pose proof (exact_sorted ls) as Hs. revert i j Hij Ha Hb n.
    induction Hs as [|x s Hs IH Hx]; intros i j Hij Ha Hb Hne; [done |].
    destruct j as [|j]; [lia |]. destruct i as [|i].
    - injection Ha as ->. rewrite Forall_forall in Hx. apply Hx. by eapply list_elem_of_lookup_2.
    - eapply (IH i j); [lia | done | done | lia]. }
  - rewrite Ha in Hb. injection Hb as ->. done.
  - apply by_path_le in Hab. split.
    + intros HGt. destruct (str_cmp (prefix_of b) uri) eqn:E; [| |done];
        destruct (str_cmp_trans _ _ _ _ Hab E ltac:(done)); congruence.
    + intros HLt. destruct (str_cmp_trans _ _ _ _ Hab HLt ltac:(done)) as [_ H]. auto.
Qed.

(** The first location of a list whose path starts [uri]. *)
Definition first_match (uri : bytes) (l : list Location) : option Location :=
  head (filter (λ l, starts_with (prefix_of l) uri = true) l).

Lemma first_match_cons uri x l :
  first_match uri (x :: l) =
  if starts_with (prefix_of x) uri then Some x else first_match uri l.
Proof.
  unfold first_match. rewrite filter_cons. case_decide as E; [by rewrite E |].
  by destruct (starts_with _ _).
Qed.

Lemma first_match_elem uri l x : first_match uri l = Some x → x ∈ l.
Proof.
  unfold first_match. intros H. assert (x ∈ filter (λ l, starts_with (prefix_of l) uri = true) l) as Hx.
  { destruct (filter _ l) as [|y r]; [done |]. injection H as ->. set_solver. }
  by apply list_elem_of_filter in Hx as [_ ?].
Qed.

Lemma find_longest_insert x s uri :
  sorted_by longest_first s →
  first_match uri (insert_by longest_first x s) =
  if starts_with (prefix_of x) uri then
    match first_match uri s with
    | Some b => if decide (length (prefix_of x) < length (prefix_of b))%nat then Some b else Some x
    | None => Some x
    end
  else first_match uri s.
Proof.
  intros Hs. induction Hs as [|y s Hs IH Hy]; cbn [insert_by].
  - rewrite first_match_cons. by destruct (starts_with _ _).
  - destruct (longest_first x y) eqn:Hxy.
    + rewrite first_match_cons. destruct (starts_with (prefix_of x) uri); [|done].
      destruct (first_match uri (y :: s)) as [b|] eqn:Eb; [|done]. rewrite decide_False; [done |].
      apply first_match_elem in Eb. apply bool_decide_eq_true in Hxy.
      apply elem_of_cons in Eb as [-> | Hb]; [lia |].
      rewrite Forall_forall in Hy. specialize (Hy b Hb). apply bool_decide_eq_true in Hy. lia.
    + apply bool_decide_eq_false in Hxy. rewrite !first_match_cons, IH.
      destruct (starts_with (prefix_of y) uri), (starts_with (prefix_of x) uri); try done.
      by rewrite decide_True by lia.
Qed.

Lemma longest_prefix_spec ls uri :
  snd <$> list_find (λ l, starts_with (prefix_of l) uri = true)
            (sort_by longest_first (filter (λ l, is_prefix l = true) ls)) =
  longest_prefix ls uri.
Proof.
  rewrite <-head_filter_find. fold (first_match uri (sort_by longest_first (filter (λ l, is_prefix l = true) ls))).
  induction ls as [|x ls IH]; [done |]. rewrite filter_cons. cbn [longest_prefix].
  destruct (is_prefix x); [|by rewrite decide_False].
  rewrite decide_True by done. cbn [sort_by foldr andb].
  fold (sort_by longest_first (filter (λ l, is_prefix l = true) ls)).
  rewrite find_longest_insert by apply prefix_sorted. by rewrite IH.
Qed.

Lemma first_regex_filter ls uri :
  first_regex (filter (λ l, is_regex l = true) ls) uri = first_regex ls uri.
Proof.
  induction ls as [|x ls IH]; [done |]. rewrite filter_cons. cbn [first_regex].
  destruct (decide (is_regex x = true)) as [E|E].
  - cbn [first_regex]. unfold is_regex in E. destruct (matcher x); try done.
    destruct (captures re uri); [done | apply IH].
  - rewrite IH. unfold is_regex in E. by destruct (matcher x).
Qed.

Lemma exact_at_spec uri l : exact_at uri l = true ↔ is_exact l = true ∧ prefix_of l = uri.
Proof.
  unfold exact_at, is_exact, prefix_of. destruct (matcher l); try (by split; [|intros []]).
  rewrite bool_decide_eq_true. naive_solver.
Qed.

(** The search among the [=] locations, when no path is written twice. *)
Lemma find_exact ls uri :
  NoDup (prefix_of <$> filter (λ l, is_exact l = true) ls) →
  (binary_search_by (λ l, str_cmp (prefix_of l) uri)
     (sort_by by_path (filter (λ l, is_exact l = true) ls)) ≫=
   λ i, sort_by by_path (filter (λ l, is_exact l = true) ls) !! i) =
  snd <$> list_find (λ l, exact_at uri l = true) ls.
Proof.
  intros Hnd. set (ex := filter (λ l, is_exact l = true) ls) in *.
  pose proof (binary_search_spec _ _ (exact_ordered ex uri)) as Hb.
  destruct (binary_search_by _ _) as [i|].
  - destruct Hb as (a & Hi & Ha). cbn [mbind option_bind]. rewrite Hi. apply str_cmp_eq in Ha.
    assert (a ∈ ex) as Hin by (apply (sort_by_elem by_path); by eapply list_elem_of_lookup_2).
    apply list_elem_of_filter in Hin as Hin'. destruct Hin' as [Hea Hla].
    destruct (list_find _ ls) as [[k l]|] eqn:E.
    + apply list_find_Some in E as (Hk & Hl & _). apply exact_at_spec in Hl as [Hel Hpl]. cbn. f_equal.
      assert (l ∈ ex) as Hlin by (apply list_elem_of_filter; split; [done | by eapply list_elem_of_lookup_2]).
      apply list_elem_of_lookup in Hin as [p Hp]. apply list_elem_of_lookup in Hlin as [r Hr].
      assert (p = r) as <-; [|congruence].
      eapply (NoDup_lookup _ _ _ uri Hnd); rewrite list_lookup_fmap, ?Hp, ?Hr; cbn; congruence.
    + apply list_find_None in E. rewrite Forall_forall in E. exfalso. apply (E a Hla).
      by apply exact_at_spec.
  - cbn. destruct (list_find _ ls) as [[k l]|] eqn:E; [|done]. exfalso.
    apply list_find_Some in E as (Hk & Hl & _). apply exact_at_spec in Hl as [Hel Hpl].
    apply (Hb l); [|by apply str_cmp_eq].
    apply sort_by_elem, list_elem_of_filter. split; [done | by eapply list_elem_of_lookup_2].
Qed.

(** ** Properties *)

(** C19. Location lookup is nginx's: over the sorted tables that [loc_set]
    builds, [find] gives what the documented order gives over the locations
    as written - an exact match, else the longest prefix if it is [^~], else
    the first regular expression, else the longest prefix. *)
Theorem find_is_nginx_order ls uri :
  NoDup (prefix_of <$> filter (λ l, is_exact l = true) ls) →
  find (loc_set ls) uri = nginx_find ls uri.
Proof.
  intros Hnd. pose proof (find_exact ls uri Hnd) as Hex.
  unfold find, nginx_find, loc_set. cbn [exact prefix regex].
  rewrite longest_prefix_spec, first_regex_filter.
  destruct (binary_search_by _ _) as [i|] eqn:Hb; cbn [mbind option_bind] in Hex.
  - rewrite Hex. destruct (list_find _ ls) as [[k l]|]; [done |].
    pose proof (binary_search_spec _ _ (exact_ordered (filter (λ l, is_exact l = true) ls) uri)) as Hs.
    rewrite Hb in Hs. destruct Hs as (a & Ha & _). by rewrite Ha in Hex.
  - destruct (list_find _ ls) as [[k l]|]; [done |].
    destruct (longest_prefix ls uri) as [l|]; [|by destruct (first_regex ls uri)].
    destruct (matcher l), (first_regex ls uri); done.
Qed.

Lemma first_regex_elem ls uri l g : first_regex ls uri = Some (l, g) → l ∈ ls.
Proof.
  induction ls as [|x ls IH]; cbn [first_regex]; [done |].
  destruct (matcher x); try (intros H%IH; set_solver).
  destruct (captures re uri); [intros [= <- _]; set_solver | intros H%IH; set_solver].
Qed.

(** What is found is one of the set. *)
Lemma find_elem s uri l g : find s uri = Some (l, g) → l ∈ exact s ++ prefix s ++ regex s.
Proof.
  unfold find. rewrite !elem_of_app. destruct (binary_search_by _ _) as [i|].
  { destruct (exact s !! i) as [x|] eqn:E; [|done]. intros [= -> _]. left.
    by apply list_elem_of_lookup_2 in E. }
  assert (∀ x, snd <$> list_find (λ l, starts_with (prefix_of l) uri = true) (prefix s) = Some x →
    x ∈ prefix s) as Hp.
  { intros x H. apply fmap_Some in H as ([j y] & (Hy & _)%list_find_Some & ->).
    by apply list_elem_of_lookup_2 in Hy. }
  assert (∀ o, first_regex (regex s) uri = o → ∀ b, (∀ x, b = Some x → x ∈ prefix s) →
    match o with Some r => Some r | None => (λ l, (l, None)) <$> b end = Some (l, g) →
    l ∈ exact s ∨ l ∈ prefix s ∨ l ∈ regex s) as Hrest.
  { intros [[x gx]|] Er b Hb; [intros [= -> _]; eauto using first_regex_elem |].
    destruct b; [|done]. intros [= -> _]. auto. }
  destruct (snd <$> _) as [x|]; [|by eapply Hrest].
  destruct (matcher x); try (by eapply Hrest). intros [= -> _]. auto.
Qed.

End locations.

(** [find] on regular expressions that are plain prefixes. *)
Definition sample_captures (re uri : bytes) : option unit := if starts_with re uri then Some tt else None.

Definition sample_locations : list (Location (Regex := bytes)) :=
  [mkLocation (Prefix (str "/")) 1 tt; mkLocation (Exact (str "/a")) 2 tt; mkLocation (Prefix (str "/img")) 3 tt;
   mkLocation (PrefixNoRegex (str "/img/x")) 4 tt; mkLocation (RegexLoc (str "/img") false) 5 tt].

Lemma find_is_nginx_order_witness :
  find sample_captures (loc_set sample_locations) (str "/img/xy") =
    nginx_find sample_captures sample_locations (str "/img/xy") ∧
  nginx_find sample_captures sample_locations (str "/img/xy") =
    Some (mkLocation (PrefixNoRegex (str "/img/x")) 4 tt, None).
Proof.
  split; [|reflexivity]. apply (find_is_nginx_order sample_captures sample_locations (str "/img/xy")).
  cbn. apply NoDup_singleton.
Defined.

(** A leading wildcard does not match the bare domain, against the
    comments on [ServerName::LeadingWildcard] and in [match_host]: with
    [*.example.com] configured, a request for [example.com] goes to the
    default server. *)
Theorem wildcard_misses_bare_domain :
  let other := mkServerConf [ExactName (str "other.org")] 0 in
  let wild := mkServerConf [LeadingWildcard (HostRegex := bytes) (str "example.com")] 1 in
  server_name (λ re _, Some re) (str "*.example.com") = Some (LeadingWildcard (str "example.com")) ∧
  match_host starts_with [other; wild] 0 (str "a.example.com") = Some wild ∧
  match_host starts_with [other; wild] 0 (str "example.com") = Some other.
Proof. cbv zeta. split_and!; reflexivity. Qed.
