(* ===== verification/Files.v ===== *)
(** * [src/server/files.rs]: ranges, entity tags and preconditions

    The decisions of the static file handler: which bytes a [Range] header
    selects, the entity tag of a file, and when a conditional request is
    answered without a body.  Opening, mapping and reading files is I/O and
    not modelled; [httpdate]'s parser is a parameter. *)
From S2P Require Import Prelude.
From S2P Require Import Text.

Open Scope oxi_scope.
Open Scope Z_scope.

(** ** The code *)

Inductive RangeSpec := NoRange | Unsatisfiable | One (start stop : Z).

#[export] Instance RangeSpec_eq_dec : EqDecision RangeSpec.
Proof. solve_decision. Defined.

(** [size] is the file's length; [n + 1] wraps in a release build. *)
Definition parse_range (h : bytes) (size : Z) : RangeSpec :=
  match strip_prefix (str "bytes=") (trim h) with
  | None => NoRange
  | Some spec =>
      match split ","%byte spec with
      | [first] =>
          match split_once "-"%byte (trim first) with
          | None => NoRange
          | Some (a, b) =>
              if decide (a = []) then
                match parse_uint u64_max b with
                | None => NoRange
                | Some n =>
                    if decide (n = 0) then Unsatisfiable else One (size ∸ n) size
                end
              else
                match parse_uint u64_max a with
                | None => NoRange
                | Some start =>
                    if decide (size ≤ start) then Unsatisfiable
                    else
                      match (if decide (b = []) then Some size
                             else (λ n, Z.min (wrap 64 (n + 1)) size) <$> parse_uint u64_max b) with
                      | None => NoRange
                      | Some stop => if decide (stop ≤ start) then Unsatisfiable else One start stop
                      end
                end
          end
      | _ => NoRange
      end
  end.

(** The [Content-Range] of a partial response; [r.end - 1] wraps. *)
Definition content_range (start stop size : Z) : bytes :=
  str "bytes " ++ fmt_u64 start ++ str "-" ++ fmt_u64 (wrap 64 (stop - 1)) ++ str "/" ++ fmt_u64 size.

Definition hex_digits : bytes := str "0123456789abcdef".

Fixpoint push_hex_loop (fuel : nat) (n : Z) (acc : bytes) : bytes :=
  match fuel with
  | O => acc
  | S fuel =>
      if decide (0 < n) then
        push_hex_loop fuel (Z.shiftr n 4) (nth (Z.to_nat (Z.land n 15)) hex_digits x00 :: acc)
      else acc
  end.

(** Sixteen digits hold any [u64]. *)
Definition push_hex (n : Z) : bytes := if decide (n = 0) then str "0" else push_hex_loop 16 n [].

(** [secs] is the modification time in whole seconds, zero before 1970. *)
Definition make_etag (secs size : Z) : bytes :=
  [x22] ++ push_hex secs ++ str "-" ++ push_hex size ++ [x22].

Fixpoint trim_weak_loop (fuel : nat) (s : bytes) : bytes :=
  match fuel with
  | O => s
  | S fuel => match strip_prefix (str "W/") s with Some r => trim_weak_loop fuel r | None => s end
  end.

(** [s.trim_start_matches("W/")] *)
Definition trim_weak (s : bytes) : bytes := trim_weak_loop (length s) s.

Definition etag_list_matches (list etag : bytes) (weak : bool) : bool :=
  let target := trim_weak etag in
  existsb (λ c, let c := trim c in
                let c := if weak then trim_weak c else c in bool_decide (c = target))
    (split ","%byte list).

(** The conditional headers of a request. *)
Record Conditions := mkConditions {
  if_match : option bytes;
  if_unmodified_since : option bytes;
  if_none_match : option bytes;
  if_modified_since : option bytes;
  if_range : option bytes
}.

(** The [if_modified_since] directive *)
Inductive Ims := ImsOff | ImsExact | ImsBefore.

Section preconditions.
  Context (parse_http_date : bytes → option Z).

(** Times are nanoseconds since 1970; [secs] truncates, and is zero before. *)
Definition secs (t : Z) : Z := Z.max 0 (t / 10 ^ 9).

Definition evaluate_preconditions (c : Conditions) (ims : Ims) (etag : bytes) (mtime : Z) : option Z :=
  let gate :=
    match if_match c with
    | Some v => negb (bool_decide (trim v = str "*")) && negb (etag_list_matches v etag false)
    | None =>
        match if_unmodified_since c ≫= parse_http_date with
        | Some t => bool_decide (t < mtime)
        | None => false
        end
    end in
  if gate then Some 412
  else match if_none_match c with
  | Some v =>
      if bool_decide (trim v = str "*") || etag_list_matches v etag true then Some 304 else None
  | None =>
      match ims with
      | ImsOff => None
      | _ =>
          match if_modified_since c ≫= parse_http_date with
          | None => None
          | Some t =>
              let unmodified := match ims with ImsBefore => bool_decide (mtime < t)
                                             | _ => bool_decide (mtime ≤ t) end in
              if unmodified || bool_decide (secs mtime = secs t) then Some 304 else None
          end
      end
  end.

Definition if_range_matches (c : Conditions) (etag : bytes) (mtime : Z) : bool :=
  match if_range c with
  | None => true
  | Some v =>
      let v := trim v in
      if starts_with [x22] v || starts_with (str "W/") v then bool_decide (v = etag)
      else match parse_http_date v with
           | Some t => bool_decide (secs mtime = secs t)
           | None => false
           end
  end.

(** What a request for the whole file becomes: [Err] is a response without a
    body, [Ok None] the entire file, [Ok (Some r)] one range of it. *)
Definition select_range (c : Conditions) (ims : Ims) (range : option bytes) (max_ranges_off : bool)
    (mtime size : Z) : result Z (option (Z * Z)) :=
  let etag := make_etag (secs mtime) size in
  match evaluate_preconditions c ims etag mtime with
  | Some status => Err status
  | None =>
      match range with
      | Some h =>
          if negb max_ranges_off && if_range_matches c etag mtime then
            match parse_range h size with
            | NoRange => Ok None
            | Unsatisfiable => Err 416
            | One s e => Ok (Some (s, e))
            end
          else Ok None
      | None => Ok None
      end
  end.

End preconditions.

(** ** Lemmas *)

Definition u64 (n : Z) : Prop := 0 ≤ n ≤ u64_max.

Lemma digit_not s c : Forall (λ c, is_ascii_digit c = true) s → is_ascii_digit c = false → c ∉ s.
Proof. intros Hs Hc Hin. rewrite Forall_forall in Hs. specialize (Hs c Hin). congruence. Qed.

Lemma fmt_digits n : u64 n → Forall (λ c, is_ascii_digit c = true) (fmt_u64 n) ∧ fmt_u64 n ≠ [].
Proof. intros [? ?]. by apply fmt_u64_digits. Qed.

Lemma parse_fmt n : u64 n → parse_uint u64_max (fmt_u64 n) = Some n.
Proof. intros [? ?]. apply parse_fmt_u64; unfold u64_max in *; lia. Qed.

(** A well-formed single range, up to the numbers. *)
Lemma parse_range_shape a b size :
  Forall (λ c, is_ascii_digit c = true) a → Forall (λ c, is_ascii_digit c = true) b →
  parse_range (str "bytes=" ++ a ++ str "-" ++ b) size =
  if decide (a = []) then
    match parse_uint u64_max b with
    | None => NoRange
    | Some n => if decide (n = 0) then Unsatisfiable else One (size ∸ n) size
    end
  else
    match parse_uint u64_max a with
    | None => NoRange
    | Some start =>
        if decide (size ≤ start) then Unsatisfiable
        else
          match (if decide (b = []) then Some size
                 else (λ n, Z.min (wrap 64 (n + 1)) size) <$> parse_uint u64_max b) with
          | None => NoRange
          | Some stop => if decide (stop ≤ start) then Unsatisfiable else One start stop
          end
    end.
Proof.
  intros Ha Hb. unfold parse_range.
  assert (Forall graphic (str "-")) as Hdash by (constructor; [by vm_compute | constructor]).
  rewrite trim_graphic.
  2: { apply Forall_app. split; [repeat (constructor; [by vm_compute |]); constructor |].
       apply Forall_app. split; [by apply digits_graphic |]. apply Forall_app.
       split; [done | by apply digits_graphic]. }
  assert (strip_prefix (str "bytes=") (str "bytes=" ++ a ++ str "-" ++ b) = Some (a ++ str "-" ++ b)) as ->
    by (by apply strip_prefix_Some).
  rewrite split_clean.
  2: { rewrite !not_elem_of_app. split_and!; [by eapply digit_not | | by eapply digit_not].
       by apply not_elem_of_cons; split; [|apply not_elem_of_nil]. }
  rewrite trim_graphic.
  2: { apply Forall_app. split; [by apply digits_graphic |]. apply Forall_app.
       split; [done | by apply digits_graphic]. }
  change (a ++ str "-" ++ b) with (a ++ "-"%byte :: b).
  rewrite split_once_app by (by eapply digit_not). done.
Qed.

Lemma push_hex_loop_app fuel n acc : push_hex_loop fuel n acc = push_hex_loop fuel n [] ++ acc.
Proof.
  revert n acc. induction fuel as [|fuel IH]; intros n acc; cbn [push_hex_loop]; [done |].
  case_decide; [|done]. rewrite IH, (IH _ [_]), <-app_assoc. done.
Qed.

(** The value of hexadecimal text, with the most significant digit first. *)
Definition hex_value (s : bytes) : Z :=
  foldl (λ v c, v * 16 + Z.of_nat (default O (fst <$> list_find (λ d, d = c) hex_digits))) 0 s.

Lemma hex_digit_value d : 0 ≤ d < 16 →
  Z.of_nat (default O (fst <$> list_find (λ x, x = nth (Z.to_nat d) hex_digits x00) hex_digits)) = d.
Proof.
  intros Hd. assert (∃ n, d = Z.of_nat n ∧ (n < 16)%nat) as (n & -> & Hn) by (exists (Z.to_nat d); lia).
  rewrite Nat2Z.id. do 16 (destruct n as [|n]; [by vm_compute |]). lia.
Qed.

Lemma nibble n : 0 ≤ n → Z.land n 15 = n mod 16 ∧ Z.shiftr n 4 = n / 16 ∧ 0 ≤ n / 16.
Proof.
  intros Hn. change 15 with (2 ^ 4 - 1). rewrite land_mask, Z.shiftr_div_pow2 by lia.
  change (2 ^ 4) with 16. split_and!; [done | done | apply Z.div_pos; lia].
Qed.

Lemma push_hex_loop_value fuel n :
  0 ≤ n < 16 ^ Z.of_nat fuel → hex_value (push_hex_loop fuel n []) = n.
Proof.
  revert n. induction fuel as [|fuel IH]; intros n Hn; cbn [push_hex_loop].
  - change (16 ^ Z.of_nat 0) with 1 in Hn. cbn. lia.
  - case_decide; [|cbn; lia]. destruct (nibble n) as (-> & -> & ?); [lia |].
    rewrite push_hex_loop_app. unfold hex_value in *. rewrite foldl_snoc.
    replace (Z.of_nat (S fuel)) with (Z.of_nat fuel + 1) in Hn by lia.
    rewrite Z.pow_add_r in Hn by lia. change (16 ^ 1) with 16 in Hn.
    rewrite IH by (split; [done | apply Z.div_lt_upper_bound; lia]).
    rewrite hex_digit_value by zdiv. zdiv.
Qed.

Lemma push_hex_value n : u64 n → hex_value (push_hex n) = n.
Proof.
  intros [H1 H2]. unfold push_hex, u64_max in *. case_decide as E; [by subst |].
  apply push_hex_loop_value. change (16 ^ Z.of_nat 16) with (2 ^ 64). lia.
Qed.

(** Every byte of a hexadecimal number is one of the sixteen digits. *)
Lemma push_hex_digits n : 0 ≤ n → Forall (λ c, c ∈ hex_digits) (push_hex n).
Proof.
  intros Hn. unfold push_hex. case_decide.
  { constructor; [|constructor]. by apply list_elem_of_lookup; exists O. }
  clear H. generalize 16%nat. intros fuel. revert n Hn.
  induction fuel as [|fuel IH]; intros n Hn; cbn [push_hex_loop]; [constructor |].
  case_decide; [|constructor]. destruct (nibble n Hn) as (-> & -> & Hd).
  rewrite push_hex_loop_app. apply Forall_app. split; [by apply IH |]. constructor; [|constructor].
  apply list_elem_of_In, nth_In. assert (n mod 16 < 16) by zdiv. assert (0 ≤ n mod 16) by zdiv.
  change (length hex_digits) with 16%nat. lia.
Qed.

Lemma hex_digits_graphic : Forall (λ c, graphic c ∧ c ≠ "-"%byte ∧ c ≠ x22 ∧ c ≠ ","%byte) hex_digits.
Proof. repeat (constructor; [split_and!; by vm_compute |]). constructor. Qed.

Lemma push_hex_graphic n :
  u64 n → Forall (λ c, graphic c ∧ c ≠ "-"%byte ∧ c ≠ x22 ∧ c ≠ ","%byte) (push_hex n).
Proof.
  intros [Hn _]. pose proof hex_digits_graphic as H. rewrite Forall_forall in H.
  eapply Forall_impl; [by apply push_hex_digits |]. exact H.
Qed.

Lemma etag_graphic t size :
  u64 t → u64 size → Forall (λ c, graphic c ∧ c ≠ ","%byte) (make_etag t size).
Proof.
  intros Ht Hs. unfold make_etag.
  assert (∀ n, u64 n → Forall (λ c, graphic c ∧ c ≠ ","%byte) (push_hex n)) as Hh
    by (intros n Hn; eapply Forall_impl; [by apply push_hex_graphic | naive_solver]).
  repeat (apply Forall_app; split); try by apply Hh.
  all: constructor; [split; by vm_compute | constructor].
Qed.

Lemma trim_weak_loop_id fuel s : starts_with (str "W") s = false → trim_weak_loop fuel s = s.
Proof.
  destruct fuel as [|fuel]; [done |]. cbn [trim_weak_loop].
  destruct (strip_prefix (str "W/") s) as [r|] eqn:E; [|done].
  apply strip_prefix_Some in E as ->. done.
Qed.

(** A list of tags, as a client joins them. *)
Definition join_tags (tags : list bytes) : bytes :=
  match tags with [] => [] | t :: ts => t ++ mjoin ((λ u, str "," ++ u) <$> ts) end.

Lemma split_tags tags :
  tags ≠ [] → Forall (λ t, ","%byte ∉ t) tags → split ","%byte (join_tags tags) = tags.
Proof.
  intros Hne Hall. destruct tags as [|t ts]; [done |]. clear Hne. apply Forall_cons in Hall as [Ht Hts].
  revert t Ht. induction Hts as [|u ts Hu _ IH]; intros t Ht; cbn [join_tags].
  - cbn. rewrite app_nil_r. by apply split_clean.
  - rewrite fmap_cons_eq, join_cons. change (str "," ++ u) with (","%byte :: u). cbn [app].
    rewrite split_app by done. f_equal. apply (IH u Hu).
Qed.

Lemma parse_range_sound h size s e :
  0 < size ≤ u64_max → parse_range h size = One s e → 0 ≤ s ∧ s < e ∧ e ≤ size.
Proof.
  intros Hs. unfold parse_range, saturating_sub. destruct (strip_prefix _ _); [|done].
  destruct (split _ _) as [|first [|]]; try done. destruct (split_once _ _) as [[a b]|]; [|done].
  assert (0 ≤ u64_max) as Hmax by (unfold u64_max; lia).
  case_decide as Ea.
  - destruct (parse_uint u64_max b) as [n|] eqn:En; [|done].
    apply parse_uint_range in En; [|done]. case_decide; [done |]. intros [= <- <-]. lia.
  - destruct (parse_uint u64_max a) as [n|] eqn:En; [|done].
    apply parse_uint_range in En; [|done]. case_decide; [done |].
    assert (∀ stop, stop ≤ size →
      (if decide (stop ≤ n) then Unsatisfiable else One n stop) = One s e → 0 ≤ s ∧ s < e ∧ e ≤ size) as Hfin.
    { intros stop Hst. case_decide; [done |]. intros [= <- <-]. lia. }
    case_decide; [apply Hfin; lia |].
    destruct (parse_uint u64_max b) as [m|]; cbn [fmap option_fmap option_map]; [|done]. apply Hfin. lia.
Qed.

(** ** Properties *)

(** A [Range] header selects the bytes it names: whatever the header, a
    selected range is a non-empty part of a non-empty file; and a well-formed
    single range gives exactly the bytes RFC 9110 assigns to [a-b], [a-] and
    [-n], unsatisfiable when there are none. *)
Theorem parse_range_exact size :
  0 < size ≤ u64_max →
  (∀ h s e, parse_range h size = One s e → 0 ≤ s ∧ s < e ∧ e ≤ size) ∧
  (∀ a b, u64 a → u64 b → b < u64_max →
     parse_range (str "bytes=" ++ fmt_u64 a ++ str "-" ++ fmt_u64 b) size =
     if decide (a < size ∧ a ≤ b) then One a (Z.min (b + 1) size) else Unsatisfiable) ∧
  (∀ a, u64 a →
     parse_range (str "bytes=" ++ fmt_u64 a ++ str "-") size =
     if decide (a < size) then One a size else Unsatisfiable) ∧
  (∀ n, u64 n →
     parse_range (str "bytes=-" ++ fmt_u64 n) size =
     if decide (0 < n) then One (Z.max 0 (size - n)) size else Unsatisfiable).
Proof.
  intros Hs. split; [intros h s e; by apply parse_range_sound |]. split_and!.
  - intros a b Ha Hb Hlt. destruct (fmt_digits a Ha) as [Hda Hna]. destruct (fmt_digits b Hb) as [Hdb Hnb].
    rewrite parse_range_shape by done. rewrite (decide_False (P := fmt_u64 a = [])) by done.
    rewrite parse_fmt by done. destruct Ha, Hb. case_decide; [by rewrite decide_False by lia |].
    rewrite (decide_False (P := fmt_u64 b = [])) by done. rewrite parse_fmt by done.
    cbn [fmap option_fmap option_map]. unfold wrap. rewrite Z.mod_small by (unfold u64_max in *; lia).
    repeat case_decide; done || lia.
  - intros a Ha. destruct (fmt_digits a Ha) as [Hda Hna].
    pose proof (parse_range_shape (fmt_u64 a) [] size Hda ltac:(constructor)) as Hp.
    rewrite app_nil_r in Hp. rewrite Hp. rewrite (decide_False (P := fmt_u64 a = [])) by done.
    rewrite parse_fmt by done. rewrite (decide_True (P := ([] : bytes) = [])) by done.
    repeat case_decide; done || lia.
  - intros n Hn. destruct (fmt_digits n Hn) as [Hdn Hnn].
    change (str "bytes=-" ++ fmt_u64 n) with (str "bytes=" ++ [] ++ str "-" ++ fmt_u64 n).
    rewrite parse_range_shape by (done || constructor). rewrite decide_True by done.
    rewrite parse_fmt by done. unfold saturating_sub. destruct Hn. repeat case_decide; done || lia.
Qed.

Lemma parse_range_exact_witness :
  parse_range (str "bytes=2-4") 10 = One 2 5 ∧ parse_range (str "bytes=-3") 10 = One 7 10.
Proof.
  assert (0 < 10 ≤ u64_max) as Hs by (unfold u64_max; lia).
  destruct (parse_range_exact 10 Hs) as (_ & H1 & _ & H2).
  split.
  - change (str "bytes=2-4") with (str "bytes=" ++ fmt_u64 2 ++ str "-" ++ fmt_u64 4).
    rewrite H1 by (unfold u64, u64_max; lia). reflexivity.
  - change (str "bytes=-3") with (str "bytes=-" ++ fmt_u64 3).
    rewrite H2 by (unfold u64, u64_max; lia). reflexivity.
Defined.

(** An entity tag identifies the version of a file by its modification
    second and size, and a client that sends the tag back in
    [If-None-Match], alone or in a list, weak or not, is answered 304. *)
Theorem etag_revalidates parse_http_date t size before tag after ims mtime :
  u64 t → u64 size → Forall (λ t, ","%byte ∉ t) (before ++ after) →
  tag = make_etag t size ∨ tag = str "W/" ++ make_etag t size →
  (∀ t' size', u64 t' → u64 size' → make_etag t' size' = make_etag t size → t' = t ∧ size' = size) ∧
  evaluate_preconditions parse_http_date
    (mkConditions None None (Some (join_tags (before ++ tag :: after))) None None)
    ims (make_etag t size) mtime = Some 304.
Proof.
  intros Ht Hs Hall Htag. pose proof (etag_graphic t size Ht Hs) as Hg. split.
  - intros t' size' Ht' Hs' E. unfold make_etag in E. apply app_inv_head in E.
    rewrite (app_assoc (push_hex t')), (app_assoc (push_hex t)) in E.
    rewrite !(app_assoc _ (push_hex _) [x22]) in E. apply app_inv_tail in E. rewrite <-!app_assoc in E.
    assert (∀ n, u64 n → "-"%byte ∉ push_hex n) as Hnd.
    { intros n Hn Hin. pose proof (push_hex_graphic n Hn) as Hf. rewrite Forall_forall in Hf.
      by destruct (Hf _ Hin) as (_ & ? & _). }
    apply (f_equal (split_once "-"%byte)) in E. change (str "-") with ["-"%byte] in E. cbn [app] in E.
    rewrite !split_once_app in E by auto. injection E as E1 E2.
    apply (f_equal hex_value) in E1, E2. rewrite !push_hex_value in E1, E2 by done. done.
  - unfold evaluate_preconditions. cbn [if_match if_unmodified_since if_none_match mbind option_bind].
    assert (etag_list_matches (join_tags (before ++ tag :: after)) (make_etag t size) true = true) as ->;
      [|by rewrite orb_true_r].
    assert (Forall graphic tag ∧ ","%byte ∉ tag ∧ trim_weak tag = make_etag t size) as (Htg & Hc & Hw).
    { assert (Forall graphic (make_etag t size)) by (eapply Forall_impl; [exact Hg | naive_solver]).
      assert (","%byte ∉ make_etag t size).
      { intros Hin. rewrite Forall_forall in Hg. by destruct (Hg _ Hin). }
      destruct Htag as [-> | ->]; [done |]. split; [|split].
      - apply Forall_app. split; [repeat (constructor; [by vm_compute |]); constructor | done].
      - rewrite not_elem_of_app. split; [|done]. by repeat (apply not_elem_of_cons; split; [done |]); apply not_elem_of_nil.
      - unfold trim_weak. rewrite length_app. change (length (str "W/")) with 2%nat.
        cbn [Nat.add trim_weak_loop].
        assert (strip_prefix (str "W/") (str "W/" ++ make_etag t size) = Some (make_etag t size)) as E
          by (by apply strip_prefix_Some).
        rewrite E. by apply (trim_weak_loop_id (S (length (make_etag t size)))). }
    unfold etag_list_matches. rewrite split_tags.
    + apply existsb_exists. exists tag. split; [apply in_or_app; right; by left |].
      apply bool_decide_eq_true. rewrite trim_graphic by done. rewrite Hw.
      unfold trim_weak. by rewrite trim_weak_loop_id.
    + by destruct before.
    + apply Forall_app in Hall as [? ?]. apply Forall_app. split; [done |]. by constructor.
Qed.

Lemma etag_revalidates_witness :
  (∀ t' size', u64 t' → u64 size' → make_etag t' size' = make_etag 1700000000 512 →
     t' = 1700000000 ∧ size' = 512) ∧
  evaluate_preconditions (λ _, None)
    (mkConditions None None (Some (join_tags ([[x22; x61; x22]] ++ make_etag 1700000000 512 :: []))) None None)
    ImsExact (make_etag 1700000000 512) 1700000000000000000 = Some 304.
Proof.
  apply (etag_revalidates (λ _, None) 1700000000 512 [[x22; x61; x22]] (make_etag 1700000000 512) []);
    [unfold u64, u64_max; lia.. | | by left].
  constructor; [|constructor]. by repeat (apply not_elem_of_cons; split; [done |]); apply not_elem_of_nil.
Defined.

(** A suffix range of an empty file is accepted although there is
    nothing to select, and in a release build the response announces a range
    that ends at the largest 64-bit number. *)
Theorem empty_file_suffix_range :
  parse_range (str "bytes=-5") 0 = One 0 0 ∧
  content_range 0 0 0 = str "bytes 0-18446744073709551615/0".
Proof. split; reflexivity. Qed.
