(* ===== verification/Cache.v ===== *)
(** * [src/server/cache.rs]: the response cache

    Entries as bytes on disk, digests and paths, storing and loading over a
    file system, the index, the manager's pass and the fetch locks.  The clock
    and the directory walk are inputs. *)
From S2P Require Import Prelude.
From S2P Require Import Text.
From S2P Require Import Sort.
From S2P Require Files.

Open Scope oxi_scope.
Open Scope Z_scope.

(** ** Entries *)

Definition MAGIC : bytes := str "OXCH".
Definition VERSION : Z := 1.
Definition HEADER_LEN : nat := 4 + 1 + 2 + 8 + 8 + 2 + 4 + 8.

Inductive CacheStatus := Miss | Hit | Expired | Bypass | Stale | Revalidated.

Definition as_str (s : CacheStatus) : bytes :=
  match s with
  | Miss => str "MISS" | Hit => str "HIT" | Expired => str "EXPIRED"
  | Bypass => str "BYPASS" | Stale => str "STALE" | Revalidated => str "REVALIDATED"
  end.

Notation Header := (bytes * bytes)%type.

Definition header_line (h : Header) : bytes := fst h ++ str ": " ++ snd h ++ [x0d; x0a].

(** [now] is the clock, [ttl] the duration's seconds. *)
Definition encode_entry (now : Z) (key : bytes) (status : Z) (headers : list Header)
    (body : bytes) (ttl : Z) : bytes :=
  let hdr := mjoin (header_line <$> headers) in
  MAGIC ++ [of_u8 VERSION] ++ to_be 2 status ++ to_be 8 now ++ to_be 8 (wrap 64 (now + ttl)) ++
  to_be 2 (wrap 16 (Z.of_nat (length key))) ++ to_be 4 (wrap 32 (Z.of_nat (length hdr))) ++
  to_be 8 (Z.of_nat (length body)) ++ key ++ hdr ++ body.

Record Decoded := mkDecoded {
  status : Z; headers : list Header; body : bytes; expires : Z; created : Z
}.

Inductive DecodeError := NotAnEntry | Truncated | KeyMismatch.

(** [&buf[a..b]]: [None] is the panic of a range out of bounds. *)
Definition slice (buf : bytes) (a b : nat) : option bytes :=
  if decide (a <= b <= length buf)%nat then Some (take (b - a) (drop a buf)) else None.

Definition parse_headers (text : bytes) : list Header :=
  omap (split_once_str (str ": "))
    (filter (λ l, l ≠ []) (split_str [x0d; x0a] (default [] (from_utf8 text)))).

(** A field of the fixed header. *)
Definition field (buf : bytes) (a b : nat) : option Z := from_be <$> slice buf a b.

(** The outer [option] is a panic. *)
Definition decode_entry (buf key : bytes) : option (result DecodeError Decoded) :=
  if decide (length buf < HEADER_LEN)%nat then Some (Err Truncated)
  else
    magic ← slice buf 0 4; version ← slice buf 4 5;
    if decide (magic ≠ MAGIC ∨ from_be version ≠ VERSION) then Some (Err NotAnEntry)
    else
      status ← field buf 5 7; created ← field buf 7 15; expires ← field buf 15 23;
      key_len ← field buf 23 25; hdr_len ← field buf 25 29; body_len ← field buf 29 37;
      match (t ← checked_add64 (Z.of_nat HEADER_LEN) key_len;
             t ← checked_add64 t hdr_len; checked_add64 t body_len) with
      | None => Some (Err Truncated)
      | Some total =>
          if decide (Z.of_nat (length buf) < total) then Some (Err Truncated)
          else
            let h_start := (HEADER_LEN + Z.to_nat key_len)%nat in
            let b_start := (h_start + Z.to_nat hdr_len)%nat in
            stored_key ← slice buf HEADER_LEN h_start;
            if decide (stored_key ≠ key) then Some (Err KeyMismatch)
            else
              hdr ← slice buf h_start b_start;
              body ← slice buf b_start (b_start + Z.to_nat body_len);
              Some (Ok (mkDecoded status (parse_headers hdr) body expires created))
      end.

(** ** Digests and paths *)

Notation KeyHash := (Z * Z)%type.

Definition FNV_PRIME : Z := 0x100000001b3.

Definition rotate_left5 (z : Z) : Z := Z.lor (wrap 64 (Z.shiftl z 5)) (Z.shiftr z 59).

Definition hash_byte (h : KeyHash) (b : byte) : KeyHash :=
  let '(a, c) := h in
  (wrap 64 (Z.lxor a (u8 b) * FNV_PRIME), wrap 64 (Z.lxor (rotate_left5 c) (u8 b) * FNV_PRIME)).

Definition hash_of (key : bytes) : KeyHash :=
  foldl hash_byte (0xcbf29ce484222325, 0x9e3779b97f4a7c15) key.

(** [{:016x}] *)
Fixpoint hex_fixed (n : nat) (z : Z) : bytes :=
  match n with
  | O => []
  | S n => nth (Z.to_nat (Z.shiftr z (4 * Z.of_nat n) mod 16)) Files.hex_digits x00 :: hex_fixed n z
  end.

Definition to_hex (h : KeyHash) : bytes := hex_fixed 16 (fst h) ++ hex_fixed 16 (snd h).

(** A [PathBuf] as its components.  [push("")] only adds a separator. *)
Definition push (p : list bytes) (s : bytes) : list bytes :=
  match s with [] => p | _ => p ++ [s] end.

Fixpoint level_dirs (hex : bytes) (stop : nat) (levels : list nat) (p : list bytes) : list bytes :=
  match levels with
  | [] => p
  | n :: levels =>
      let start := (stop - n)%nat in
      level_dirs hex start levels (push p (take (stop - start) (drop start hex)))
  end.

Definition path (h : KeyHash) (root : list bytes) (levels : list nat) : list bytes :=
  let hex := to_hex h in
  push (level_dirs hex (length hex) levels root) hex.

Definition hash_ok (h : KeyHash) : Prop := 0 ≤ fst h < 2 ^ 64 ∧ 0 ≤ snd h < 2 ^ 64.

#[export] Instance hash_ok_dec h : Decision (hash_ok h).
Proof. unfold hash_ok. apply _. Defined.

(** ** The file system and the writers

    A name leads to an inode; an open file is an inode, so that truncating,
    writing and renaming act as they do on a Unix file system. *)
Record Fs := mkFs { names : gmap (list bytes) nat; inodes : list bytes }.

Definition read_file (p : list bytes) (fs : Fs) : option bytes := i ← names fs !! p; inodes fs !! i.

Definition remove_file (p : list bytes) (fs : Fs) : Fs := mkFs (delete p (names fs)) (inodes fs).

(** [open] with [O_CREAT | O_TRUNC], the first half of [fs::write]. *)
Definition create_file (p : list bytes) (fs : Fs) : nat * Fs :=
  match names fs !! p with
  | Some i => (i, mkFs (names fs) (<[i := []]> (inodes fs)))
  | None => (length (inodes fs), mkFs (<[p := length (inodes fs)]> (names fs)) (inodes fs ++ [[]]))
  end.

(** [pwrite] of a chunk at an offset; a gap would read as zeros. *)
Definition write_at (i off : nat) (chunk : bytes) (fs : Fs) : Fs :=
  mkFs (names fs)
    (alter (λ c, take off (c ++ replicate (off - length c) x00) ++ chunk ++ drop (off + length chunk) c)
       i (inodes fs)).

Definition rename_file (p q : list bytes) (fs : Fs) : option Fs :=
  i ← names fs !! p; Some (mkFs (<[q := i]> (delete p (names fs))) (inodes fs)).

(** [with_extension]: what follows the last dot of the file name, unless the
    dot is its first byte, gives way. *)
Definition file_stem (f : bytes) : bytes :=
  match split_once "."%byte (rev f) with
  | Some (_, []) | None => f
  | Some (_, r) => rev r
  end.

Definition with_extension (p : list bytes) (ext : bytes) : list bytes :=
  match last p with
  | Some f => removelast p ++ [file_stem f ++ str "." ++ ext]
  | None => p
  end.

Definition tmp_path (p : list bytes) (pid : Z) : list bytes := with_extension p (str "tmp" ++ fmt_u64 pid).

(** Where a worker is inside [store]; it serves one request at a time between
    awaits, and [store] has none. *)
Inductive writer_pc :=
  | Idle
  | Create (target : list bytes) (data : bytes)
  | Write (target : list bytes) (data : bytes) (inode off : nat).

Record Writer := mkWriter { pid : Z; wpc : writer_pc }.

Definition set_wpc (w : Writer) (c : writer_pc) : Writer := mkWriter (pid w) c.

(** One system call of [store]; [n] is how much a [write] takes. *)
Definition writer_step (n : nat) (w : Writer) (fs : Fs) : Writer * Fs :=
  match wpc w with
  | Idle => (w, fs)
  | Create p data =>
      let '(i, fs) := create_file (tmp_path p (pid w)) fs in (set_wpc w (Write p data i 0), fs)
  | Write p data i off =>
      if decide (off < length data)%nat then
        let chunk := take n (drop off data) in
        (set_wpc w (Write p data i (off + length chunk)), write_at i off chunk fs)
      else
        match rename_file (tmp_path p (pid w)) p fs with
        | Some fs => (set_wpc w Idle, fs)
        | None => (set_wpc w Idle, fs)
        end
  end.

Record Zone := mkZone {
  name : bytes; root : list bytes; levels : list nat; max_entries : nat; max_size : Z; inactive : Z
}.

Definition entry_path (z : Zone) (h : KeyHash) : list bytes := path h (root z) (levels z).

Record System := mkSystem { fs : Fs; writers : list Writer; begun : list (KeyHash * bytes) }.

(** Any worker begins a [store], makes a system call, or fails and drops what
    it was doing; any file may be removed at any time, by [load] or by the
    manager of some worker. *)
Inductive sys_step (z : Zone) : System → System → Prop :=
  | sys_begin k w h data s :
      writers s !! k = Some w → wpc w = Idle → hash_ok h →
      sys_step z s (mkSystem (fs s) (<[k := set_wpc w (Create (entry_path z h) data)]> (writers s))
                     ((h, data) :: begun s))
  | sys_run k w n w' fs' s :
      writers s !! k = Some w → writer_step n w (fs s) = (w', fs') →
      sys_step z s (mkSystem fs' (<[k := w']> (writers s)) (begun s))
  | sys_fail k w s :
      writers s !! k = Some w →
      sys_step z s (mkSystem (fs s) (<[k := set_wpc w Idle]> (writers s)) (begun s))
  | sys_remove p s :
      sys_step z s (mkSystem (remove_file p (fs s)) (writers s) (begun s)).

(** ** The index *)

Record Entry := mkEntry { e_expires : Z; e_size : Z; uses : Z; last_used : Z }.

Notation Index := (gmap (bytes * KeyHash) Entry).

Definition fresh_entry (now : Z) : Entry := mkEntry 0 0 0 now.

(** The count, and the new index. *)
Definition note_use (now : Z) (z : Zone) (h : KeyHash) (idx : Index) : Z * Index :=
  let e := default (fresh_entry now) (idx !! (name z, h)) in
  let e := mkEntry (e_expires e) (e_size e) (Z.min (uses e + 1) (2 ^ 32 - 1)) now in
  (uses e, <[(name z, h) := e]> idx).

(** [iter] is the order in which the map is walked. *)
Definition victims (iter : list ((bytes * KeyHash) * Entry)) (zone : bytes) : list ((bytes * KeyHash) * Z) :=
  sort_by_key snd ((λ '(k, e), (k, last_used e)) <$> filter (λ '(k, _), fst k = zone) iter).

Definition evict (iter : list ((bytes * KeyHash) * Entry)) (zone : bytes) (idx : Index) : Index :=
  foldl (λ idx k, delete k idx) idx
    (fst <$> take (Nat.max (size idx / 10) 1) (victims iter zone)).

(** The index half of [store]. *)
Definition store_index (iter : list ((bytes * KeyHash) * Entry)) (now : Z) (z : Zone) (h : KeyHash)
    (len : Z) (idx : Index) : Index :=
  let idx := if decide (Nat.max (max_entries z) 1 <= size idx)%nat then evict iter (name z) idx else idx in
  let e := default (fresh_entry now) (idx !! (name z, h)) in
  <[(name z, h) := mkEntry (e_expires e) len (uses e) now]> idx.

(** ** Loading *)

Definition TOUCH_INTERVAL : Z := 60.

(** Whether a hit moves the file's timestamp. *)
Definition touch_due (now mtime : Z) : bool := bool_decide (TOUCH_INTERVAL ≤ now ∸ mtime).

(** The outer [option] is a panic. *)
Definition load (now : Z) (z : Zone) (key : bytes) (h : KeyHash) (fs : Fs) (idx : Index) :
    option (option (Decoded * CacheStatus) * Fs * Index) :=
  match read_file (entry_path z h) fs with
  | None => Some (None, fs, idx)
  | Some buf =>
      r ← decode_entry buf key;
      match r with
      | Ok d =>
          let status := if decide (expires d ≤ now) then Expired else Hit in
          Some (Some (d, status), fs,
                alter (λ e, mkEntry (expires d) (Z.of_nat (length buf)) (uses e) (last_used e)) (name z, h) idx)
      | Err _ => Some (None, remove_file (entry_path z h) fs, idx)
      end
  end.

(** ** The manager *)

Record OnDisk := mkOnDisk { d_path : list bytes; d_size : Z; d_mtime : Z }.

Record ManagerStats := mkStats {
  entries : nat; st_bytes : Z; removed_inactive : nat; removed_oversize : nat; removed_temp : nat
}.

(** A directory tree. *)
Inductive Node :=
  | File (file_name : bytes) (size mtime : Z)
  | Dir (dir_name : bytes) (children : list Node).

Definition extension (f : bytes) : option bytes :=
  match split_once "."%byte (rev f) with
  | Some (_, []) | None => None
  | Some (e, _) => Some (rev e)
  end.

Definition is_temp (f : bytes) : bool :=
  match extension f with Some e => starts_with (str "tmp") e | None => false end.

(** [collect]: the entries and the leftover temporary files under [dir]. *)
Fixpoint collect (dir : list bytes) (n : Node) : list OnDisk * list (list bytes) :=
  match n with
  | File f size mtime =>
      if is_temp f then ([], [dir ++ [f]]) else ([mkOnDisk (dir ++ [f]) size mtime], [])
  | Dir d children =>
      (fix go l := match l with
                   | [] => ([], [])
                   | n :: l => let '(e1, t1) := collect (dir ++ [d]) n in
                               let '(e2, t2) := go l in (e1 ++ e2, t1 ++ t2)
                   end) children
  end.

(** [prune_empty_dirs], on what a directory holds. *)
Fixpoint prune_node (n : Node) : list Node :=
  match n with
  | File f size mtime => [File f size mtime]
  | Dir d children =>
      match (fix go l := match l with [] => [] | n :: l => prune_node n ++ go l end) children with
      | [] => []
      | l => [Dir d l]
      end
  end.

Definition prune_empty_dirs (children : list Node) : list Node := mjoin (prune_node <$> children).

(** [removable p] is whether removing [p] succeeds. *)
Section manager.
Context (removable : list bytes → bool).

Fixpoint drop_inactive (now inactive : Z) (l : list OnDisk) (st : ManagerStats) :
    list OnDisk * ManagerStats :=
  match l with
  | [] => ([], st)
  | e :: l =>
      if bool_decide (inactive < now ∸ d_mtime e) && removable (d_path e) then
        drop_inactive now inactive l
          (mkStats (entries st) (st_bytes st ∸ d_size e) (S (removed_inactive st)) (removed_oversize st)
             (removed_temp st))
      else let '(k, st) := drop_inactive now inactive l st in (e :: k, st)
  end.

(** The entries removed, oldest first, until the target is met. *)
Fixpoint trim (target : Z) (l : list OnDisk) (st : ManagerStats) : list OnDisk * ManagerStats :=
  match l with
  | [] => ([], st)
  | e :: l =>
      if decide (st_bytes st ≤ target) then ([], st)
      else if removable (d_path e) then
        let '(r, st) := trim target l
          (mkStats (entries st) (st_bytes st ∸ d_size e) (removed_inactive st) (S (removed_oversize st))
             (removed_temp st)) in (e :: r, st)
      else trim target l st
  end.

(** [manager_pass] over what [collect] found: the entries kept by the first
    rule, those the second removes, and the statistics. *)
Definition manager_pass (now : Z) (z : Zone) (found : list OnDisk) (temps : nat) :
    list OnDisk * list OnDisk * ManagerStats :=
  let st := mkStats 0 (foldr Z.add 0 (d_size <$> found)) 0 0 temps in
  let '(kept, st) := if decide (0 < inactive z) then drop_inactive now (inactive z) found st else (found, st) in
  let '(kept, removed, st) :=
    if decide (0 < max_size z ∧ max_size z < st_bytes st) then
      let kept := sort_by_key d_mtime kept in
      let '(removed, st) := trim (max_size z - max_size z / 10) kept st in (kept, removed, st)
    else (kept, [], st) in
  (kept, removed,
   mkStats (length kept - removed_oversize st) (st_bytes st) (removed_inactive st) (removed_oversize st)
     (removed_temp st)).
End manager.

(** ** Fetch locks *)

Notation LockKey := (bytes * KeyHash)%type.

Definition try_lock (k : LockKey) (fetching : gset LockKey) : bool * gset LockKey :=
  if decide (k ∈ fetching) then (false, fetching) else (true, {[k]} ∪ fetching).

(** [FetchLock]'s drop *)
Definition unlock (k : LockKey) (fetching : gset LockKey) : gset LockKey := fetching ∖ {[k]}.

Definition is_locked (k : LockKey) (fetching : gset LockKey) : bool := bool_decide (k ∈ fetching).

(** The set, and the guards alive. *)
Inductive lock_step : gset LockKey * list LockKey → gset LockKey * list LockKey → Prop :=
  | lock_try k f live b f' :
      try_lock k f = (b, f') → lock_step (f, live) (f', if b then k :: live else live)
  | lock_drop k f l1 l2 : lock_step (f, l1 ++ k :: l2) (unlock k f, l1 ++ l2).

(** ** Stale entries *)

Inductive StaleWhen := SError | STimeout | SInvalidHeader | SUpdating | SStatus (code : Z).

#[export] Instance StaleWhen_eq_dec : EqDecision StaleWhen.
Proof. solve_decision. Defined.

Definition parse_stale (s : bytes) : option StaleWhen :=
  if decide (s = str "error") then Some SError
  else if decide (s = str "timeout") then Some STimeout
  else if decide (s = str "invalid_header") then Some SInvalidHeader
  else if decide (s = str "updating") then Some SUpdating
  else if decide (s = str "off") then None
  else rest ← strip_prefix (str "http_") s; SStatus <$> parse_uint 65535 rest.

Definition stale_allowed (conds : list StaleWhen) (outcome : StaleWhen) : bool :=
  existsb (λ c, bool_decide (c = outcome)) conds.

(** ** Lemmas on entries *)

Lemma slice_mid buf p m q a b :
  buf = p ++ m ++ q → length p = a → (a + length m)%nat = b → slice buf a b = Some m.
Proof.
  intros -> <- <-. unfold slice. rewrite decide_True by len_lia.
  rewrite drop_app_length, Nat.add_comm, Nat.add_sub. by rewrite take_app_length.
Qed.

Lemma field_mid buf p n v q a b :
  buf = p ++ to_be n v ++ q → length p = a → (a + n)%nat = b → 0 ≤ v < 256 ^ Z.of_nat n →
  field buf a b = Some v.
Proof.
  intros E Ha Hb Hv. unfold field. rewrite (slice_mid buf p (to_be n v) q); [|done..|by rewrite length_to_be].
  cbn. by rewrite from_be_to_be_small.
Qed.

Lemma slice_Some buf a b : (a <= b <= length buf)%nat → ∃ m, slice buf a b = Some m ∧
  ∃ p q, buf = p ++ m ++ q ∧ length p = a ∧ (a + length m = b)%nat.
Proof.
  intros H. unfold slice. rewrite decide_True by done. eexists. split; [done |].
  exists (take a buf), (drop b buf). split_and!; [|len_lia|len_lia].
  rewrite <-(take_drop a buf) at 1. f_equal. rewrite <-(take_drop (b - a) (drop a buf)) at 1.
  f_equal. rewrite drop_drop. f_equal. lia.
Qed.

(** The 37 bytes in front of an entry. *)
Definition fixed_head (st cr ex kl hl bl : Z) : bytes :=
  MAGIC ++ [of_u8 VERSION] ++ to_be 2 st ++ to_be 8 cr ++ to_be 8 ex ++
  to_be 2 kl ++ to_be 4 hl ++ to_be 8 bl.

Lemma fixed_head_length st cr ex kl hl bl : length (fixed_head st cr ex kl hl bl) = HEADER_LEN.
Proof. reflexivity. Qed.

Record head_range (st cr ex kl hl bl : Z) : Prop := {
  hr_st : 0 ≤ st < 2 ^ 16; hr_cr : 0 ≤ cr < 2 ^ 64; hr_ex : 0 ≤ ex < 2 ^ 64;
  hr_kl : 0 ≤ kl < 2 ^ 16; hr_hl : 0 ≤ hl < 2 ^ 32; hr_bl : 0 ≤ bl < 2 ^ 64
}.

(** What [decode_entry] does behind a well-formed head. *)
Definition decode_tail (st cr ex : Z) (kl hl bl : nat) (buf key : bytes) :
    option (result DecodeError Decoded) :=
  if decide (Z.of_nat (length buf) < Z.of_nat (HEADER_LEN + kl + hl + bl)) then Some (Err Truncated)
  else
    stored_key ← slice buf HEADER_LEN (HEADER_LEN + kl);
    if decide (stored_key ≠ key) then Some (Err KeyMismatch)
    else
      hdr ← slice buf (HEADER_LEN + kl) (HEADER_LEN + kl + hl);
      body ← slice buf (HEADER_LEN + kl + hl) (HEADER_LEN + kl + hl + bl);
      Some (Ok (mkDecoded st (parse_headers hdr) body ex cr)).

Lemma decode_head st cr ex kl hl bl rest key :
  head_range st cr ex kl hl bl → 37 + kl + hl + bl ≤ u64_max →
  decode_entry (fixed_head st cr ex kl hl bl ++ rest) key =
  decode_tail st cr ex (Z.to_nat kl) (Z.to_nat hl) (Z.to_nat bl) (fixed_head st cr ex kl hl bl ++ rest) key.
Proof.
  intros [] Hsum. set (buf := fixed_head _ _ _ _ _ _ ++ rest).
  assert (∀ p m q, fixed_head st cr ex kl hl bl = p ++ m ++ q → buf = p ++ m ++ (q ++ rest)) as Hcut.
  { intros p m q E. unfold buf. rewrite E. by rewrite <-!app_assoc. }
  assert (HEADER_LEN <= length buf)%nat as Hlen
    by (unfold buf; rewrite length_app, fixed_head_length; lia).
  unfold decode_entry. rewrite decide_False by lia.
  rewrite (slice_mid buf [] MAGIC _ 0 4 (Hcut [] _ _ eq_refl)) by done.
  rewrite (slice_mid buf MAGIC [of_u8 VERSION] _ 4 5 (Hcut MAGIC _ _ eq_refl)) by done.
  cbn [mbind option_bind]. rewrite decide_False by (intros [?|E]; [done | by vm_compute in E]).
  set (h1 := MAGIC ++ [of_u8 VERSION]).
  rewrite (field_mid buf h1 2 st _ 5 7 (Hcut h1 _ _ eq_refl)) by done.
  set (h2 := h1 ++ to_be 2 st).
  rewrite (field_mid buf h2 8 cr _ 7 15 (Hcut h2 _ _ eq_refl)) by done.
  set (h3 := h2 ++ to_be 8 cr).
  rewrite (field_mid buf h3 8 ex _ 15 23 (Hcut h3 _ _ eq_refl)) by done.
  set (h4 := h3 ++ to_be 8 ex).
  rewrite (field_mid buf h4 2 kl _ 23 25 (Hcut h4 _ _ eq_refl)) by done.
  set (h5 := h4 ++ to_be 2 kl).
  rewrite (field_mid buf h5 4 hl _ 25 29 (Hcut h5 _ _ eq_refl)) by done.
  set (h6 := h5 ++ to_be 4 hl).
  rewrite (field_mid buf h6 8 bl _ 29 37 (Hcut h6 (to_be 8 bl) [] eq_refl)) by done.
  cbn [mbind option_bind]. change (Z.of_nat HEADER_LEN) with 37. unfold checked_add64.
  rewrite !bool_decide_eq_true_2 by lia. cbn [mbind option_bind].
  rewrite !bool_decide_eq_true_2 by lia. cbn [mbind option_bind].
  rewrite !bool_decide_eq_true_2 by lia. cbn [mbind option_bind].
  unfold decode_tail. replace (Z.of_nat (HEADER_LEN + Z.to_nat kl + Z.to_nat hl + Z.to_nat bl))
    with (37 + kl + hl + bl); [done |]. unfold HEADER_LEN. lia.
Qed.

(** Header text that reads back: no line break inside, no colon in a name. *)
Definition header_clean (h : Header) : Prop :=
  ":"%byte ∉ fst h ∧ x0d ∉ fst h ∧ x0d ∉ snd h.

Lemma header_lines_back hs :
  Forall header_clean hs →
  omap (split_once_str (str ": ")) (filter (λ l, l ≠ []) (split_str [x0d; x0a] (mjoin (header_line <$> hs))))
  = hs.
Proof.
  intros H. induction H as [|[n v] hs (Hn & Hn' & Hv) _ IH]; [done |].
  rewrite fmap_cons_eq, join_cons. unfold header_line at 1. cbn [fst snd] in *.
  rewrite <-!app_assoc. change ([x0d; x0a] ++ ?r) with (x0d :: [x0a] ++ r).
  rewrite !app_assoc, split_str_app, <-!app_assoc; [|rewrite !not_elem_of_app; split_and!; [done | | done]].
  2: { cbn. rewrite !not_elem_of_cons. split_and!; [done | done | apply not_elem_of_nil]. }
  rewrite filter_cons_True by (destruct n; done). cbn [omap list_omap].
  change (str ": ") with (":"%byte :: [" "%byte]) at 2. cbn [app].
  change (":"%byte :: " "%byte :: v) with (":"%byte :: [" "%byte] ++ v).
  change (str ": ") with (":"%byte :: [" "%byte]).
  rewrite split_once_str_app by done. f_equal. exact IH.
Qed.

Lemma encode_entry_eq now key st hs b ttl :
  encode_entry now key st hs b ttl =
  fixed_head st now (wrap 64 (now + ttl)) (wrap 16 (Z.of_nat (length key)))
    (wrap 32 (Z.of_nat (length (mjoin (header_line <$> hs))))) (Z.of_nat (length b)) ++
  key ++ mjoin (header_line <$> hs) ++ b.
Proof. unfold encode_entry, fixed_head. by rewrite <-!app_assoc. Qed.

(** An entry [encode_entry] can write whole. *)
Record entry_ok (now : Z) (key : bytes) (st : Z) (hs : list Header) (b : bytes) (ttl : Z) : Prop := {
  eo_now : 0 ≤ now; eo_ttl : 0 ≤ ttl; eo_end : now + ttl < 2 ^ 64;
  eo_status : 0 ≤ st < 2 ^ 16;
  eo_key : Z.of_nat (length key) < 2 ^ 16;
  eo_headers : Forall header_clean hs;
  eo_text : utf8_valid (mjoin (header_line <$> hs)) = true;
  eo_hdr : Z.of_nat (length (mjoin (header_line <$> hs))) < 2 ^ 32;
  eo_body : Z.of_nat (length b) < 2 ^ 63
}.

(** What a reader of the first [n] bytes of an entry gets. *)
Lemma decode_prefix now key st hs b ttl n key' :
  entry_ok now key st hs b ttl → (n <= length (encode_entry now key st hs b ttl))%nat →
  decode_entry (take n (encode_entry now key st hs b ttl)) key' =
  Some (if decide (n < length (encode_entry now key st hs b ttl))%nat then Err Truncated
        else if decide (key = key') then Ok (mkDecoded st hs b (now + ttl) now)
        else Err KeyMismatch).
Proof.
  intros []. rewrite encode_entry_eq. unfold wrap. rewrite !Z.mod_small by lia.
  set (hdr := mjoin (header_line <$> hs)) in *.
  set (h := fixed_head _ _ _ _ _ _). intros Hn.
  assert (length h = HEADER_LEN) as Hh by apply fixed_head_length.
  destruct (decide (n < HEADER_LEN)%nat) as [Hs|Hs].
  { unfold decode_entry. rewrite decide_True by len_lia. rewrite decide_True; [done | len_lia]. }
  rewrite take_app_ge by lia. unfold h at 1. rewrite decode_head; [|split; lia | unfold u64_max; lia].
  fold h. unfold decode_tail. rewrite !Nat2Z.id, !length_app, length_take, Hh, !length_app.
  autorewrite with len in Hn. rewrite Hh in Hn.
  case_decide as Ht; [by rewrite decide_True by lia |]. rewrite decide_False by lia.
  rewrite take_ge by len_lia.
  rewrite (slice_mid _ h key (hdr ++ b) HEADER_LEN) by done.
  cbn [mbind option_bind].
  destruct (decide (key = key')) as [<-|Hk]; [|by rewrite decide_True by done].
  rewrite decide_False by (intros []; done).
  rewrite (slice_mid _ (h ++ key) hdr b (HEADER_LEN + length key)) by (by rewrite <-?app_assoc, ?length_app, ?Hh).
  cbn [mbind option_bind].
  rewrite (slice_mid _ (h ++ key ++ hdr) b []); [| |len_lia|done].
  2: { by rewrite app_nil_r, <-!app_assoc. }
  cbn [mbind option_bind]. unfold parse_headers, from_utf8. rewrite eo_text0.
  do 3 f_equal. by apply header_lines_back.
Qed.

Ltac err := eexists; split; [reflexivity | by intros].

(** No entry file, however damaged, makes [decode_entry] read out of bounds,
    and what it accepts is an entry of that very key. *)
Lemma decode_total buf key :
  Z.of_nat (length buf) ≤ u64_max →
  ∃ r, decode_entry buf key = Some r ∧
  ∀ d, r = Ok d → ∃ h hdr tl, length h = HEADER_LEN ∧ take 4 h = MAGIC ∧
    buf = h ++ key ++ hdr ++ body d ++ tl ∧ headers d = parse_headers hdr.
Proof.
  intros Hbuf. unfold decode_entry. case_decide as H0; [by err |]. change HEADER_LEN with 37%nat in *.
  assert (∀ a b, (a <= b <= 37)%nat → ∃ v, field buf a b = Some v ∧ 0 ≤ v) as Hf.
  { intros a b Hab. unfold field. destruct (slice_Some buf a b) as (m & -> & _); [lia |].
    cbn. eexists. split; [done | apply from_be_range]. }
  destruct (slice_Some buf 0 4) as (magic & -> & p0 & q0 & Eb & Hp0 & Hm); [lia |].
  destruct (slice_Some buf 4 5) as (ver & -> & _); [lia |]. cbn [mbind option_bind].
  case_decide as Hmv; [by err |].
  destruct (Hf 5 7)%nat as (st & -> & _); [lia |]. destruct (Hf 7 15)%nat as (cr & -> & _); [lia |].
  destruct (Hf 15 23)%nat as (ex & -> & _); [lia |]. destruct (Hf 23 25)%nat as (kl & -> & Hkl); [lia |].
  destruct (Hf 25 29)%nat as (hl & -> & Hhl); [lia |]. destruct (Hf 29 37)%nat as (bl & -> & Hbl); [lia |].
  cbn [mbind option_bind]. unfold checked_add64 at 3. case_bool_decide as H1; [|by err].
  cbn [mbind option_bind]. unfold checked_add64 at 2. case_bool_decide as H2; [|by err].
  cbn [mbind option_bind]. unfold checked_add64. case_bool_decide as H3; [|by err].
  case_decide as H4; [by err |].
  destruct (slice_Some buf 37 (37 + Z.to_nat kl)) as (k & -> & p & q & E1 & Hp & Hk); [lia |].
  cbn [mbind option_bind]. case_decide as Hkey; [by err |]. subst k.
  set (hs := (37 + Z.to_nat kl)%nat) in *. set (bs := (hs + Z.to_nat hl)%nat) in *.
  destruct (slice_Some buf hs bs) as (hd & -> & p2 & q2 & E2 & Hp2 & Hk2); [lia |].
  destruct (slice_Some buf bs (bs + Z.to_nat bl)) as (bd & -> & p3 & q3 & E3 & Hp3 & Hk3); [lia |].
  cbn [mbind option_bind]. eexists. split; [done |]. intros d [= <-]. cbn [body headers].
  assert (p2 = p ++ key ∧ hd ++ q2 = q) as [-> <-].
  { apply app_inj_1; [len_lia |]. by rewrite <-E2, <-app_assoc. }
  assert (p3 = (p ++ key) ++ hd ∧ bd ++ q3 = q2) as [-> <-].
  { apply app_inj_1; [len_lia |]. by rewrite <-E3, <-app_assoc. }
  exists p, hd, q3. split_and!; [done | | by rewrite E1 | done].
  assert (take 4 buf = magic) as Hmg.
  { rewrite Eb. destruct p0; [|done]. cbn [app]. by rewrite take_app_le, take_ge by lia. }
  rewrite E1, take_app_le in Hmg by lia. rewrite Hmg. by apply dec_stable; intros ?; apply Hmv; left.
Qed.

(** ** Lemmas on digests and paths *)

Definition hex_text (s : bytes) : Prop := s ≠ [] ∧ Forall (λ c, c ∈ Files.hex_digits) s.

Lemma hex_nibble z : nth (Z.to_nat (z mod 16)) Files.hex_digits x00 ∈ Files.hex_digits.
Proof.
  pose proof (Z.mod_pos_bound z 16 ltac:(lia)). apply list_elem_of_In, nth_In.
  change (length Files.hex_digits) with 16%nat. lia.
Qed.

Lemma hex_fixed_digits n z : Forall (λ c, c ∈ Files.hex_digits) (hex_fixed n z).
Proof. induction n; cbn [hex_fixed]; constructor; [apply hex_nibble | done]. Qed.

Lemma hex_fixed_length n z : length (hex_fixed n z) = n.
Proof. induction n; cbn; lia. Qed.

Lemma hex_fixed_mod n a b :
  hex_fixed n a = hex_fixed n b → a mod 16 ^ Z.of_nat n = b mod 16 ^ Z.of_nat n.
Proof.
  induction n as [|n IH]; intros E; [by rewrite !Z.mod_1_r |].
  cbn [hex_fixed] in E. set (u := nth _ _ _) in E. set (v := nth _ _ _) in E.
  injection E as E1 E2. subst u v. specialize (IH E2).
  rewrite !Z.shiftr_div_pow2 in E1 by lia.
  assert (∀ d, 0 ≤ d mod 16 < 16) as Hd by (intros; apply Z.mod_pos_bound; lia).
  set (x := _ mod 16) in E1. set (y := _ mod 16) in E1.
  assert (x = y) as Exy.
  { rewrite <-(Files.hex_digit_value x), <-(Files.hex_digit_value y) by apply Hd. by rewrite E1. }
  subst x y.
  rewrite Nat2Z.inj_succ, Z.pow_succ_r, (Z.mul_comm 16) by lia.
  rewrite !Z.rem_mul_r by (try apply Z.pow_nonzero; try apply Z.pow_pos_nonneg; lia).
  rewrite (Z.pow_mul_r 2 4) in Exy by lia. change (2 ^ 4) with 16 in Exy. by rewrite IH, Exy.
Qed.

Lemma hash_of_ok key : hash_ok (hash_of key).
Proof.
  unfold hash_of. assert (∀ h, hash_ok h → hash_ok (foldl hash_byte h key)) as H; [|by apply H].
  induction key as [|b key IH]; intros h Hh; [done |]. cbn [foldl]. apply IH.
  destruct h. split; apply Z.mod_pos_bound; lia.
Qed.

Lemma to_hex_inj h k : hash_ok h → hash_ok k → to_hex h = to_hex k → h = k.
Proof.
  intros [H1 H2] [K1 K2] E. unfold to_hex in E.
  apply app_inj_1 in E as [E1%hex_fixed_mod E2%hex_fixed_mod]; [|by rewrite !hex_fixed_length].
  change (16 ^ Z.of_nat 16) with (2 ^ 64) in *. rewrite !Z.mod_small in E1, E2 by done.
  destruct h, k; cbn in *. by subst.
Qed.

Lemma to_hex_text h : hex_text (to_hex h).
Proof.
  split; [done |]. apply Forall_app. split; apply hex_fixed_digits.
Qed.

Lemma level_dirs_spec hex stop levels p :
  Forall (λ c, c ∈ Files.hex_digits) hex →
  ∃ dirs, level_dirs hex stop levels p = p ++ dirs ∧ Forall hex_text dirs.
Proof.
  intros Hh. revert stop p. induction levels as [|n levels IH]; intros stop p; cbn [level_dirs].
  - exists []. by rewrite app_nil_r.
  - set (d := take _ (drop _ hex)). assert (Forall (λ c, c ∈ Files.hex_digits) d) as Hd
      by (by apply Forall_take, Forall_drop).
    destruct (IH (stop - n)%nat (push p d)) as (dirs & -> & Hdirs).
    unfold push. destruct d as [|c d]; [by exists dirs |].
    exists ((c :: d) :: dirs). rewrite <-app_assoc. split; [done |]. by constructor.
Qed.

Lemma path_shape h root levels :
  ∃ dirs, path h root levels = root ++ dirs ++ [to_hex h] ∧ Forall hex_text dirs.
Proof.
  destruct (level_dirs_spec (to_hex h) (length (to_hex h)) levels root) as (dirs & Hd & Hh);
    [apply (proj2 (to_hex_text h)) |].
  exists dirs. split; [|done]. unfold path. rewrite Hd.
  destruct (to_hex_text h) as [Hne _]. destruct (to_hex h); [done |]. cbn [push].
  by rewrite <-app_assoc.
Qed.

Lemma path_inj h k root levels root' levels' :
  hash_ok h → hash_ok k → path h root levels = path k root' levels' → h = k.
Proof.
  intros Hh Hk E. destruct (path_shape h root levels) as (d & E1 & _).
  destruct (path_shape k root' levels') as (d' & E2 & _). rewrite E1, E2 in E.
  apply (f_equal last) in E. rewrite !app_assoc, !last_snoc in E.
  apply (inj Some) in E. by apply to_hex_inj.
Qed.

(** ** Storing is atomic *)

Lemma file_stem_clean f : "."%byte ∉ f → file_stem f = f.
Proof.
  intros H. unfold file_stem. rewrite split_once_None; [done |].
  by intros Hin%list_elem_of_In%in_rev%list_elem_of_In.
Qed.

Lemma hex_no_dot h : "."%byte ∉ to_hex h.
Proof.
  intros Hin. destruct (to_hex_text h) as [_ H]. rewrite Forall_forall in H. apply H in Hin.
  apply (bool_decide_eq_true_2 ("."%byte ∈ Files.hex_digits)) in Hin. by vm_compute in Hin.
Qed.

Lemma to_hex_length h : length (to_hex h) = 32%nat.
Proof. unfold to_hex. by rewrite length_app, !hex_fixed_length. Qed.

Lemma tmp_path_shape z h a :
  last (tmp_path (entry_path z h) a) = Some (to_hex h ++ str ".tmp" ++ fmt_u64 a).
Proof.
  destruct (path_shape h (root z) (levels z)) as (d & E & _). unfold tmp_path, with_extension, entry_path.
  rewrite E, !app_assoc, last_snoc, last_snoc, file_stem_clean by apply hex_no_dot.
  by rewrite <-!app_assoc.
Qed.

Lemma entry_path_shape z h : last (entry_path z h) = Some (to_hex h).
Proof.
  destruct (path_shape h (root z) (levels z)) as (d & E & _). unfold entry_path.
  by rewrite E, app_assoc, last_snoc.
Qed.

Lemma entry_path_inj z h k :
  hash_ok h → hash_ok k → entry_path z h = entry_path z k → h = k.
Proof. apply path_inj. Qed.

Definition pid_ok (a : Z) : Prop := 0 ≤ a ≤ u64_max.

Lemma tmp_path_inj z h k a b :
  hash_ok h → hash_ok k → pid_ok a → pid_ok b →
  tmp_path (entry_path z h) a = tmp_path (entry_path z k) b → h = k ∧ a = b.
Proof.
  intros Hh Hk Ha Hb E. apply (f_equal last) in E. rewrite !tmp_path_shape in E.
  apply (inj Some) in E. apply app_inj_1 in E as [E1 E2]; [|by rewrite !to_hex_length].
  split; [by apply to_hex_inj |]. apply (app_inv_head (str ".tmp")) in E2.
  apply (f_equal (parse_uint u64_max)) in E2. unfold pid_ok, u64_max in *.
  rewrite !parse_fmt_u64 in E2 by lia. congruence.
Qed.

Lemma tmp_not_entry z h k a : tmp_path (entry_path z h) a ≠ entry_path z k.
Proof.
  intros E. apply (f_equal last) in E. rewrite tmp_path_shape, entry_path_shape in E.
  apply (inj Some), (f_equal length) in E. rewrite length_app, !to_hex_length in E. cbn in E. lia.
Qed.

(** The inode a writer has open. *)
Definition open_inode (w : Writer) : option nat :=
  match wpc w with Write _ _ i _ => Some i | _ => None end.

Section store.
Context (z : Zone).

(** An open file is the writer's alone: no name leads to it but its own
    temporary one, and it holds what was written so far. *)
Definition writer_ok (f : Fs) (bg : list (KeyHash * bytes)) (w : Writer) : Prop :=
  match wpc w with
  | Idle => True
  | Create p d => ∃ h, hash_ok h ∧ p = entry_path z h ∧ (h, d) ∈ bg
  | Write p d i off =>
      (∃ h, hash_ok h ∧ p = entry_path z h ∧ (h, d) ∈ bg) ∧ (off <= length d)%nat ∧
      inodes f !! i = Some (take off d) ∧
      (∀ q, names f !! q = Some i → q = tmp_path p (pid w)) ∧
      ∀ j, names f !! tmp_path p (pid w) = Some j → j = i
  end.

(** No hard links, no dangling names. *)
Record fs_ok (f : Fs) : Prop := {
  fo_inj : ∀ p q i, names f !! p = Some i → names f !! q = Some i → p = q;
  fo_lt : ∀ p i, names f !! p = Some i → (i < length (inodes f))%nat
}.

Record sys_ok (f0 : Fs) (s : System) : Prop := {
  so_fs : fs_ok (fs s);
  so_pids : NoDup (pid <$> writers s) ∧ Forall pid_ok (pid <$> writers s);
  so_writers : ∀ k w, writers s !! k = Some w → writer_ok (fs s) (begun s) w;
  so_open : ∀ k l v w i, writers s !! k = Some v → writers s !! l = Some w →
    open_inode v = Some i → open_inode w = Some i → k = l;
  so_entries : ∀ h i, hash_ok h → names (fs s) !! entry_path z h = Some i →
    ∃ c, inodes (fs s) !! i = Some c ∧ (read_file (entry_path z h) f0 = Some c ∨ (h, c) ∈ begun s)
}.

(** Two writers with the same temporary name are one. *)
Lemma same_writer f0 s k l v w h h' :
  sys_ok f0 s → writers s !! k = Some v → writers s !! l = Some w → hash_ok h → hash_ok h' →
  tmp_path (entry_path z h) (pid v) = tmp_path (entry_path z h') (pid w) → k = l.
Proof.
  intros [_ [Hnd Hp] _ _ _] Hv Hw Hh Hh' E. rewrite Forall_fmap, Forall_lookup in Hp.
  apply tmp_path_inj in E as [_ E]; [|done|done|by eapply Hp|by eapply Hp].
  eapply NoDup_lookup; [exact Hnd | |]; rewrite list_lookup_fmap; [by rewrite Hv | rewrite Hw; cbn; congruence].
Qed.

Lemma pids_insert (ws : list Writer) k v w :
  ws !! k = Some v → pid w = pid v → pid <$> <[k := w]> ws = pid <$> ws.
Proof.
  intros Hk E. rewrite list_fmap_insert, E. apply list_insert_id. by rewrite list_lookup_fmap, Hk.
Qed.

(** A writer's state changes and the files do not. *)
Lemma sys_ok_set f0 s k v w bg :
  sys_ok f0 s → writers s !! k = Some v → pid w = pid v → open_inode w = None →
  begun s ⊆ bg → writer_ok (fs s) bg w →
  sys_ok f0 (mkSystem (fs s) (<[k := w]> (writers s)) bg).
Proof.
  intros [Hf Hp Hw Ho He] Hk E Hopen Hbg Hok. split; cbn.
  - done.
  - by erewrite pids_insert.
  - intros l u. rewrite list_lookup_insert_Some. intros [(<- & <- & _)|[_ Hl]]; [done |].
    specialize (Hw l u Hl). unfold writer_ok in *. destruct (wpc u); [done | |];
      [destruct Hw as (h & ? & ? & ?) | destruct Hw as ((h & ? & ? & ?) & ?)]; eauto 10.
  - intros l m u u' i. rewrite !list_lookup_insert_Some.
    intros [(<- & <- & _)|[_ Hl]] [(<- & <- & _)|[_ Hm]]; try congruence. by apply Ho.
  - intros h i Hh Hi. destruct (He h i Hh Hi) as (c & Hc & [H|H]); eauto.
Qed.

(** The inode of another name or of another writer is not touched. *)
Lemma writer_ok_frame f f' bg w i :
  writer_ok f bg w → open_inode w ≠ Some i →
  (∀ j, j ≠ i → inodes f' !! j = inodes f !! j ∨ inodes f !! j = None) →
  (∀ q j, j ≠ i → names f' !! q = Some j → names f !! q = Some j) →
  (∀ p d j off, wpc w = Write p d j off → names f' !! tmp_path p (pid w) = names f !! tmp_path p (pid w)) →
  writer_ok f' bg w.
Proof.
  unfold writer_ok, open_inode. intros Hw Hi Hn Hq Ht. destruct (wpc w) as [|p d|p d j off]; [done | done |].
  destruct Hw as (Hh & Ho & Hd & Hq1 & Ht1). assert (j ≠ i) as Hne by congruence.
  split_and!; [done | done | | |].
  - by destruct (Hn j Hne) as [-> | ?]; congruence.
  - intros q Hq'. by eapply Hq1, Hq.
  - intros k Hk. erewrite Ht in Hk by done. auto.
Qed.

Lemma create_fs_ok p f i f' :
  fs_ok f → create_file p f = (i, f') →
  fs_ok f' ∧ inodes f' !! i = Some [] ∧ names f' = <[p := i]> (names f) ∧
  (∀ j, j ≠ i → inodes f' !! j = inodes f !! j) ∧
  (names f !! p = Some i ∨ names f !! p = None ∧ ∀ q, names f !! q ≠ Some i).
Proof.
  intros [Hinj Hlt]. unfold create_file. destruct (names f !! p) as [j|] eqn:E; intros [= <- <-]; cbn.
  - pose proof (Hlt p j E) as Hj. split_and!.
    + split; cbn; [done |]. intros q k. rewrite length_insert. apply Hlt.
    + by rewrite list_lookup_insert_eq.
    + by rewrite insert_id.
    + intros k Hk. by rewrite list_lookup_insert_ne.
    + by left.
  - split_and!.
    + split; cbn.
      * intros q r k. rewrite !lookup_insert_Some.
        intros [[<- <-]|[_ Hq]] [[<- Er]|[_ Hr]]; [done | | |by eapply Hinj].
        -- apply Hlt in Hr. lia.
        -- subst. apply Hlt in Hq. lia.
      * intros q k. rewrite length_app, lookup_insert_Some. cbn.
        intros [[_ <-]|[_ Hq%Hlt]]; lia.
    + by rewrite lookup_app_r, Nat.sub_diag by lia.
    + done.
    + intros k Hk. destruct (decide (k < length (inodes f))%nat).
      * by rewrite lookup_app_l.
      * rewrite !lookup_ge_None_2; [done | lia | rewrite length_app; cbn; lia].
    + right. split; [done |]. intros q Hq%Hlt. lia.
Qed.

Lemma create_ok f0 s k v p d i f' :
  sys_ok f0 s → writers s !! k = Some v → wpc v = Create p d →
  create_file (tmp_path p (pid v)) (fs s) = (i, f') →
  sys_ok f0 (mkSystem f' (<[k := set_wpc v (Write p d i 0)]> (writers s)) (begun s)).
Proof.
  intros Hok Hv Hpc Hc. pose proof Hok as [Hf Hp Hw Ho He].
  pose proof (Hw k v Hv) as Hwv. unfold writer_ok in Hwv. rewrite Hpc in Hwv.
  destruct Hwv as (h & Hh & -> & Hbg).
  destruct (create_fs_ok _ _ _ _ Hf Hc) as (Hf' & Hi & Hnm & Hfr & Hold).
  assert (∀ l w, writers s !! l = Some w → l ≠ k → open_inode w ≠ Some i) as Hother.
  { intros l w Hl Hlk Hwi. unfold open_inode in Hwi. pose proof (Hw l w Hl) as Hwl. unfold writer_ok in Hwl.
    destruct (wpc w) as [|p' d'|p' d' i' off']; [done | done |]. injection Hwi as ->.
    destruct Hwl as ((h' & Hh' & -> & _) & _ & Hd & Hq & _). destruct Hold as [Hold|[Hnone Hnew]].
    - apply Hlk. apply Hq in Hold. eapply (same_writer f0 s l k w v h' h); done.
    - assert (i = length (inodes (fs s))) as ->.
      { unfold create_file in Hc. rewrite Hnone in Hc. by injection Hc. }
      apply lookup_lt_Some in Hd. lia. }
  split; cbn.
  - done.
  - by erewrite pids_insert.
  - intros l w. rewrite list_lookup_insert_Some. intros [(<- & <- & _)|[Hl Hlw]].
    + unfold writer_ok. cbn. split_and!; [by eauto | lia | done | |].
      * intros q. rewrite Hnm, lookup_insert_Some. intros [[<- _]|[Hne Hq]]; [done |].
        destruct Hold as [Hold|[_ Hnew]]; [by eapply (fo_inj _ Hf) | by apply Hnew in Hq].
      * intros j. rewrite Hnm, lookup_insert_eq. by intros [= <-].
    + eapply (writer_ok_frame (fs s)); [by apply (Hw l) | by eapply Hother | | |].
      * intros j Hj. left. by apply Hfr.
      * intros q j Hj. rewrite Hnm, lookup_insert_Some. intros [[_ ?]|[_ ?]]; congruence.
      * intros p' d' j off' E. rewrite Hnm, lookup_insert_ne; [done |]. intros Et.
        pose proof (Hw l w Hlw) as Hwl. unfold writer_ok in Hwl. rewrite E in Hwl.
        destruct Hwl as ((h' & Hh' & -> & _) & _).
        apply Hl. eapply (same_writer f0 s k l v w h h'); done.
  - intros l m u u' j. rewrite !list_lookup_insert_Some.
    intros [(<- & <- & _)|[Hl Hlu]] [(<- & <- & _)|[Hm Hmu]] H1 H2; [done | | |by eapply Ho].
    + cbn in H1. injection H1 as <-. by eapply Hother in Hmu.
    + cbn in H2. injection H2 as <-. by eapply Hother in Hlu.
  - intros h' j Hh' Hj. rewrite Hnm, lookup_insert_ne in Hj by apply tmp_not_entry.
    destruct (He h' j Hh' Hj) as (c & Hcj & H). exists c. split; [|done].
    rewrite Hfr; [done |]. intros ->. destruct Hold as [Hold|[_ Hnew]].
    + apply (tmp_not_entry z h h' (pid v)). by eapply (fo_inj _ Hf).
    + by apply Hnew in Hj.
Qed.

Lemma write_content (off n : nat) (d : bytes) :
  (off <= length d)%nat →
  let c := take off d in let chunk := take n (drop off d) in
  take off (c ++ replicate (off - length c) x00) ++ chunk ++ drop (off + length chunk) c =
  take (off + length chunk) d.
Proof.
  intros Ho c chunk. assert (length c = off) as Hc by (unfold c; len_lia).
  rewrite Hc, Nat.sub_diag. cbn [replicate]. rewrite app_nil_r, take_ge, (drop_ge c), app_nil_r by lia.
  unfold c, chunk. rewrite length_take, length_drop.
  rewrite <-(take_drop off d) at 4. rewrite take_app_ge by len_lia. f_equal.
  rewrite length_take. replace (off + n `min` (length d - off) - off `min` length d)%nat
    with (n `min` (length d - off))%nat by lia.
  destruct (decide (n <= length d - off)%nat); [by rewrite Nat.min_l by lia |].
  rewrite Nat.min_r, !take_ge by len_lia. done.
Qed.

Lemma write_ok f0 s k v p d i off n :
  sys_ok f0 s → writers s !! k = Some v → wpc v = Write p d i off → 
  let chunk := take n (drop off d) in
  sys_ok f0 (mkSystem (write_at i off chunk (fs s))
    (<[k := set_wpc v (Write p d i (off + length chunk))]> (writers s)) (begun s)).
Proof.
  intros Hok Hv Hpc chunk. pose proof Hok as [Hf Hp Hw Ho He].
  pose proof (Hw k v Hv) as Hwv. unfold writer_ok in Hwv. rewrite Hpc in Hwv.
  destruct Hwv as (Hh & Hoff & Hd & Hq & Ht).
  split; cbn.
  - split; cbn; [exact (fo_inj _ Hf) |]. intros q j. rewrite length_alter. exact (fo_lt _ Hf q j).
  - by erewrite pids_insert.
  - intros l w. rewrite list_lookup_insert_Some. intros [(<- & <- & _)|[Hl Hlw]].
    + unfold writer_ok. cbn. split_and!; [done | unfold chunk; len_lia | | done | done].
      rewrite list_lookup_alter_eq, Hd. cbn. f_equal. by apply write_content.
    + eapply (writer_ok_frame (fs s) _ _ _ i); [by apply (Hw l) | | | done | done].
      * intros Hwi. apply Hl. eapply (Ho k l v w i); try done. unfold open_inode. by rewrite Hpc.
      * intros j Hj. left. cbn. by rewrite list_lookup_alter_ne.
  - intros l m u u' j. rewrite !list_lookup_insert_Some. unfold open_inode.
    intros [(<- & <- & _)|[Hl Hlu]] [(<- & <- & _)|[Hm Hmu]] H1 H2; [done | | |by eapply Ho].
    + cbn in H1. injection H1 as <-. eapply (Ho k m v u' i); try done. unfold open_inode. by rewrite Hpc.
    + cbn in H2. injection H2 as <-. eapply (Ho l k u v i); try done. unfold open_inode. by rewrite Hpc.
  - intros h j Hhj Hj. destruct (He h j Hhj Hj) as (c & Hc & H). exists c. split; [|done].
    rewrite list_lookup_alter_ne; [done |]. intros ->. destruct Hh as (h' & Hh' & -> & _).
    apply Hq in Hj. symmetry in Hj. by apply tmp_not_entry in Hj.
Qed.

(** Fewer names. *)
Lemma names_drop f0 s f' :
  sys_ok f0 s → inodes f' = inodes (fs s) → (∀ q i, names f' !! q = Some i → names (fs s) !! q = Some i) →
  sys_ok f0 (mkSystem f' (writers s) (begun s)).
Proof.
  intros [Hf Hp Hw Ho He] Hi Hn. split; cbn; try done.
  - split; [intros p q i ?%Hn ?%Hn; by eapply (fo_inj _ Hf) |].
    intros p i ?%Hn. rewrite Hi. by eapply (fo_lt _ Hf).
  - intros k w Hk. specialize (Hw k w Hk). unfold writer_ok in *. destruct (wpc w); [done | done |].
    rewrite Hi. destruct Hw as (? & ? & ? & ? & ?). split_and!; eauto.
  - intros h i Hh Hj. rewrite Hi. by eapply He, Hn.
Qed.

Lemma rename_ok f0 s k v p d i off f' :
  sys_ok f0 s → writers s !! k = Some v → wpc v = Write p d i off → (length d <= off)%nat →
  rename_file (tmp_path p (pid v)) p (fs s) = Some f' →
  sys_ok f0 (mkSystem f' (<[k := set_wpc v Idle]> (writers s)) (begun s)).
Proof.
  intros Hok Hv Hpc Hend Hr.
  pose proof (sys_ok_set f0 s k v (set_wpc v Idle) (begun s) Hok Hv eq_refl eq_refl (λ _ H, H) I) as Hset.
  pose proof Hok as [Hf Hp Hw Ho He].
  pose proof (Hw k v Hv) as Hwv. unfold writer_ok in Hwv. rewrite Hpc in Hwv.
  destruct Hwv as ((h & Hh & -> & Hbg) & Hoff & Hd & Hq & Ht).
  unfold rename_file in Hr. destruct (names (fs s) !! _) as [j|] eqn:Ej; [|done].
  apply (inj Some) in Hr as <-. pose proof (Ht _ eq_refl) as ->.
  apply (names_drop f0 _ (mkFs (delete (tmp_path (entry_path z h) (pid v)) (names (fs s))) (inodes (fs s)))) in Hset;
    [|done |]. 2: { intros q j. cbn [names fs]. rewrite lookup_delete_Some. by intros [_ ?]. }
  destruct Hset as [Hf' Hp' Hw' Ho' He']. cbn [names inodes fs writers begun] in *.
  assert (∀ q, delete (tmp_path (entry_path z h) (pid v)) (names (fs s)) !! q ≠ Some i) as Hfree.
  { intros q Hqi. apply lookup_delete_Some in Hqi as [Hne Hqi]. apply Hq in Hqi. congruence. }
  split; cbn; [| done | | done |].
  - split; cbn.
    + intros q r j. rewrite !lookup_insert_Some.
      intros [[<- <-]|[? H1]] [[<- Er]|[? H2]]; [done | | |by eapply (fo_inj _ Hf')].
      * by apply Hfree in H2.
      * subst. by apply Hfree in H1.
    + intros q j. rewrite lookup_insert_Some. intros [[_ <-]|[_ H1]]; [|by eapply (fo_lt _ Hf')].
      by eapply (fo_lt _ Hf).
  - intros l w Hl. specialize (Hw' l w Hl) as Hwl. unfold writer_ok in *. destruct (wpc w) eqn:Ew; [done | done |].
    cbn in *. destruct Hwl as ((h' & Hh' & -> & Hb') & Ho1 & Hd1 & Hq1 & Ht1).
    split_and!; [by eauto | done | done | |].
    + intros q. rewrite lookup_insert_Some. intros [[<- Ei]|[_ ?]]; [|by apply Hq1].
      exfalso. subst. apply list_lookup_insert_Some in Hl as [(<- & <- & _)|[Hlk Hl]]; [done |].
      apply Hlk. eapply (Ho k l v w); [done | done | |]; unfold open_inode; by rewrite ?Hpc, ?Ew.
    + intros j. rewrite lookup_insert_ne by (symmetry; apply tmp_not_entry). apply Ht1.
  - intros h' j Hh'. rewrite lookup_insert_Some. intros [[E <-]|[_ Hj]]; [|by apply He'].
    apply entry_path_inj in E as <-; [|done|done]. exists d. split; [|by right].
    by rewrite Hd, take_ge by lia.
Qed.

Lemma store_step_ok f0 s s' : sys_ok f0 s → sys_step z s s' → sys_ok f0 s'.
Proof.
  intros Hok Hstep. destruct Hstep as [k w h data s Hw Hidle Hh|k w n w' f' s Hw Hs|k w s Hw|p s].
  - eapply sys_ok_set; try done; [set_solver |]. unfold writer_ok. cbn. eexists. split_and!; [done | done | set_solver].
  - unfold writer_step in Hs. destruct (wpc w) as [|p d|p d i off] eqn:Hpc.
    + injection Hs as <- <-. rewrite list_insert_id by done. by destruct s.
    + destruct (create_file _ _) as [i f1] eqn:Hc. injection Hs as <- <-. by eapply create_ok.
    + case_decide as Ho; [injection Hs as <- <-; by apply write_ok |].
      destruct (rename_file _ _ _) as [f1|] eqn:Hr; injection Hs as <- <-.
      * eapply rename_ok; try done. lia.
      * by eapply sys_ok_set.
  - by eapply sys_ok_set.
  - apply names_drop; [done | done |]. intros q i. cbn. rewrite lookup_delete_Some. by intros [_ ?].
Qed.

(** A file system without hard links, and idle writers in processes of their
    own. *)
Definition start_ok (f : Fs) (ws : list Writer) : Prop :=
  fs_ok f ∧ NoDup (pid <$> ws) ∧ Forall (λ w, pid_ok (pid w) ∧ wpc w = Idle) ws.

Lemma start_sys_ok f ws : start_ok f ws → sys_ok f (mkSystem f ws []).
Proof.
  intros (Hf & Hnd & Hws). rewrite Forall_lookup in Hws. split; cbn.
  - done.
  - split; [done |]. rewrite Forall_fmap, Forall_lookup. intros k w Hk. by destruct (Hws k w Hk).
  - intros k w Hk. unfold writer_ok. by destruct (Hws k w Hk) as [_ ->].
  - intros k l v w i Hv Hw Hi. unfold open_inode in Hi. destruct (Hws k v Hv) as [_ E]. by rewrite E in Hi.
  - intros h i Hh Hi. destruct (lookup_lt_is_Some_2 (inodes f) i) as [c Hc]; [by eapply (fo_lt _ Hf) |].
    exists c. split; [done |]. left. unfold read_file. by rewrite Hi.
Qed.

Lemma sys_reachable_ok f ws s : start_ok f ws → rtc (sys_step z) (mkSystem f ws []) s → sys_ok f s.
Proof.
  intros Hs Hr. assert (∀ a, rtc (sys_step z) a s → sys_ok f a → sys_ok f s) as H.
  { induction 1; [done |]. intros. eauto using store_step_ok. }
  by apply (H _ Hr), start_sys_ok.
Qed.
End store.

(** No step writes to an inode that an entry's name leads to. *)
Lemma entry_inode_stable z f0 s s' h i :
  sys_ok z f0 s → sys_step z s s' → hash_ok h → names (fs s) !! entry_path z h = Some i →
  inodes (fs s') !! i = inodes (fs s) !! i.
Proof.
  intros Hok Hstep Hh Hi. pose proof Hok as [Hf Hp Hw Ho He].
  destruct Hstep as [| k w n w' f' s Hk Hs | |]; [done | | done | done]. cbn [fs].
  specialize (Hw k w Hk). unfold writer_ok in Hw. unfold writer_step in Hs.
  destruct (wpc w) as [|p d|p d j off] eqn:Hpc.
  - by injection Hs as <- <-.
  - destruct Hw as (h' & Hh' & -> & _).
    destruct (create_file _ _) as [j f1] eqn:Hc. injection Hs as <- <-.
    destruct (create_fs_ok _ _ _ _ Hf Hc) as (_ & _ & _ & Hfr & Hold). apply Hfr. intros ->.
    destruct Hold as [Hold|[_ Hnew]]; [|by apply Hnew in Hi].
    apply (tmp_not_entry z h' h (pid w)). by eapply (fo_inj _ Hf).
  - destruct Hw as ((h' & Hh' & -> & _) & _ & _ & Hq & _).
    case_decide; [injection Hs as <- <- | destruct (rename_file _ _ _) as [f1|] eqn:Hr; injection Hs as <- <-].
    + cbn. rewrite list_lookup_alter_ne; [done |]. intros ->.
      apply Hq in Hi. symmetry in Hi. by apply tmp_not_entry in Hi.
    + unfold rename_file in Hr. destruct (names (fs s) !! _); [|done]. by apply (inj Some) in Hr as <-.
    + done.
Qed.

(** What a response was stored as. *)
Definition stored (bg : list (KeyHash * bytes)) (key : bytes) (d : Decoded) : Prop :=
  ∃ ttl, expires d = created d + ttl ∧ entry_ok (created d) key (status d) (headers d) (body d) ttl ∧
    (hash_of key, encode_entry (created d) key (status d) (headers d) (body d) ttl) ∈ bg.

(** Everything the workers store are entries under their key's digest. *)
Definition entries_only (bg : list (KeyHash * bytes)) : Prop :=
  ∀ h data, (h, data) ∈ bg → ∃ now key st hs b ttl,
    entry_ok now key st hs b ttl ∧ h = hash_of key ∧ data = encode_entry now key st hs b ttl.

Lemma decode_whole now key st hs b ttl key' :
  entry_ok now key st hs b ttl →
  decode_entry (encode_entry now key st hs b ttl) key' =
  Some (if decide (key = key') then Ok (mkDecoded st hs b (now + ttl) now) else Err KeyMismatch).
Proof.
  intros Hok. rewrite <-(take_ge (encode_entry now key st hs b ttl) (length (encode_entry now key st hs b ttl))) at 1
    by lia.
  rewrite decode_prefix, decide_False by (done || lia). done.
Qed.

Lemma load_sound z f0 s now key idx :
  sys_ok z f0 s → entries_only (begun s) → read_file (entry_path z (hash_of key)) f0 = None →
  ∃ r f' idx', load now z key (hash_of key) (fs s) idx = Some (r, f', idx') ∧
  match r with
  | Some (d, status) => stored (begun s) key d ∧ f' = fs s ∧ (status = Hit ↔ now < expires d) ∧
                        (status = Expired ↔ expires d ≤ now)
  | None => True
  end.
Proof.
  intros Hok Hbg H0. unfold load.
  destruct (read_file (entry_path z (hash_of key)) (fs s)) as [buf|] eqn:Hr; [|eexists None, _, _; split; [reflexivity | done]].
  unfold read_file in Hr. destruct (names (fs s) !! _) as [i|] eqn:Hi; [|done].
  change (inodes (fs s) !! i = Some buf) in Hr.
  destruct (so_entries _ _ _ Hok _ _ (hash_of_ok key) Hi) as (c & Hc & [Hc0|Hin]); [congruence |].
  assert (buf = c) as -> by congruence.
  destruct (Hbg _ _ Hin) as (t & k & st & hs & b & ttl & He & Hh & ->).
  rewrite decode_whole by done. cbn [mbind option_bind]. case_decide as Hk; [|eexists None, _, _; split; [reflexivity | done]].
  subst k. eexists _, _, _. split; [reflexivity |]. cbn. split_and!; [|done | |].
  - by exists ttl.
  - case_decide; split; intros; done || lia.
  - case_decide; split; intros; done || lia.
Qed.

(** *** Locks *)

Definition locks_ok (s : gset LockKey * list LockKey) : Prop :=
  NoDup (snd s) ∧ ∀ k, k ∈ fst s ↔ k ∈ snd s.

Lemma lock_step_ok s s' : locks_ok s → lock_step s s' → locks_ok s'.
Proof.
  intros [Hnd Hs] Hstep. destruct Hstep as [k f live b f' Ht | k f l1 l2]; cbn in *.
  - unfold try_lock in Ht. case_decide as Hk; injection Ht as <- <-; [done |].
    split; cbn; [constructor; [by rewrite <-Hs | done] | set_solver].
  - apply NoDup_app in Hnd as (H1 & H2 & H3%NoDup_cons). destruct H3 as [H3 H4].
    split; cbn.
    + apply NoDup_app. split_and!; [done | set_solver | done].
    + intros j. unfold unlock. rewrite elem_of_difference, Hs, elem_of_singleton, !elem_of_app, elem_of_cons.
      split; [tauto |]. intros Hj. split; [tauto |]. intros ->. destruct Hj as [Hj|Hj]; [|done].
      apply (H2 k Hj). by left.
Qed.

Lemma locks_reachable_ok s : rtc lock_step (∅, []) s → locks_ok s.
Proof.
  intros H. assert (∀ a, rtc lock_step a s → locks_ok a → locks_ok s) as Hgen.
  { induction 1; [done |]. eauto using lock_step_ok. }
  apply (Hgen _ H). split; cbn; [constructor | set_solver].
Qed.

(** *** The index *)

Lemma foldl_delete_lookup (ks : list (bytes * KeyHash)) (idx : Index) k :
  foldl (λ idx k, delete k idx) idx ks !! k = if decide (k ∈ ks) then None else idx !! k.
Proof.
  revert idx. induction ks as [|j ks IH]; intros idx; cbn [foldl]; [done |]. rewrite IH.
  destruct (decide (k = j)) as [->|Hne].
  - rewrite lookup_delete_eq, (decide_True (P := j ∈ j :: ks)) by set_solver. by case_decide.
  - rewrite lookup_delete_ne by done. repeat case_decide; set_solver.
Qed.

Lemma size_foldl_delete (ks : list (bytes * KeyHash)) (idx : Index) :
  NoDup ks → (∀ k, k ∈ ks → is_Some (idx !! k)) →
  size (foldl (λ idx k, delete k idx) idx ks) = (size idx - length ks)%nat.
Proof.
  intros Hnd. revert idx. induction Hnd as [|k ks Hk _ IH]; intros idx Hin; cbn [foldl length]; [lia |].
  rewrite IH.
  - rewrite map_size_delete. destruct (Hin k) as [e He]; [set_solver |]. rewrite He. lia.
  - intros j Hj. rewrite lookup_delete_ne by set_solver. apply Hin. set_solver.
Qed.

Lemma victims_elem (iter : list ((bytes * KeyHash) * Entry)) (zone : bytes) (idx : Index) (k : bytes * KeyHash) (t : Z) :
  iter ≡ₚ map_to_list idx →
  (k, t) ∈ victims iter zone ↔ fst k = zone ∧ ∃ e, idx !! k = Some e ∧ last_used e = t.
Proof.
  intros Hp. unfold victims, sort_by_key. rewrite sort_by_elem, list_elem_of_fmap. split.
  - intros ([j e] & [= -> ->] & [Hz Hin]%list_elem_of_filter). rewrite Hp in Hin.
    apply elem_of_map_to_list in Hin. eauto.
  - intros (Hz & e & He & <-). exists (k, e). split; [done |]. apply list_elem_of_filter.
    split; [done |]. rewrite Hp. by apply elem_of_map_to_list.
Qed.

Lemma victims_nodup (iter : list ((bytes * KeyHash) * Entry)) (zone : bytes) (idx : Index) :
  iter ≡ₚ map_to_list idx → NoDup (fst <$> victims iter zone).
Proof.
  intros Hp. unfold victims, sort_by_key. rewrite sort_by_perm, <-list_fmap_compose.
  rewrite (list_fmap_ext _ fst) by (by intros ? [? ?]).
  assert (NoDup (fst <$> iter)) as Hnd by (rewrite Hp; apply NoDup_fst_map_to_list).
  clear Hp. induction iter as [|[k e] iter IH]; [constructor |].
  apply NoDup_cons in Hnd as [Hk Hnd]. rewrite filter_cons. case_decide; [|by apply IH].
  rewrite fmap_cons_eq. constructor; [|by apply IH]. intros Hin. apply Hk.
  apply list_elem_of_fmap in Hin as (x & -> & [_ Hx]%list_elem_of_filter).
  apply list_elem_of_fmap. eauto.
Qed.

Lemma evict_size (iter : list ((bytes * KeyHash) * Entry)) (zone : bytes) (idx : Index) :
  iter ≡ₚ map_to_list idx →
  size (evict iter zone idx) =
  (size idx - Nat.min (Nat.max (size idx / 10) 1) (length (victims iter zone)))%nat.
Proof.
  intros Hp. unfold evict. rewrite size_foldl_delete; [by rewrite length_fmap, length_take | |].
  - eapply sublist_NoDup; [by eapply victims_nodup |]. rewrite fmap_take. apply sublist_take.
  - intros k Hk. apply list_elem_of_fmap in Hk as ([j t] & -> & Hin).
    apply elem_of_take in Hin as (i & Hi & _). apply list_elem_of_lookup_2 in Hi.
    apply (victims_elem _ _ idx) in Hi as (_ & e & He & _); [|done]. eauto.
Qed.

Lemma evict_lookup (iter : list ((bytes * KeyHash) * Entry)) (zone : bytes) (idx : Index) k :
  evict iter zone idx !! k =
  if decide (k ∈ fst <$> take (Nat.max (size idx / 10) 1) (victims iter zone)) then None else idx !! k.
Proof. apply foldl_delete_lookup. Qed.

(** *** The manager *)

Definition total (l : list OnDisk) : Z := foldr Z.add 0 (d_size <$> l).

Lemma total_app l k : total (l ++ k) = total l + total k.
Proof. unfold total. rewrite fmap_app. induction l; cbn; lia. Qed.

Lemma total_perm l k : l ≡ₚ k → total l = total k.
Proof. intros H. unfold total. induction H; cbn; lia. Qed.

Definition sizes_ok (l : list OnDisk) : Prop := Forall (λ e, 0 ≤ d_size e) l.

Lemma total_nonneg l : sizes_ok l → 0 ≤ total l.
Proof. induction 1; unfold total in *; cbn; lia. Qed.

Section manager_ok.
Context (removable : list bytes → bool) (Hrem : ∀ p, removable p = true).

Lemma drop_inactive_spec now lim l st :
  sizes_ok l → total l ≤ st_bytes st →
  let kept := filter (λ e, ¬ lim < now ∸ d_mtime e) l in
  drop_inactive removable now lim l st =
  (kept, mkStats (entries st) (st_bytes st - (total l - total kept))
           (removed_inactive st + (length l - length kept)) (removed_oversize st) (removed_temp st)).
Proof.
  intros Hl. revert st. induction Hl as [|e l He Hl IH]; intros st Hst; cbn [drop_inactive].
  - destruct st. cbn. f_equal. f_equal; [unfold total; cbn; lia | lia].
  - rewrite Hrem, andb_true_r. change (total (e :: l)) with (d_size e + total l) in *.
    pose proof (total_nonneg l Hl). cbv zeta in IH |- *.
    pose proof (length_filter (λ e, ¬ lim < now ∸ d_mtime e) l).
    rewrite filter_cons. case_bool_decide as Hd.
    + rewrite decide_False by tauto.
      assert (st_bytes st ∸ d_size e = st_bytes st - d_size e) as Hsub by (unfold saturating_sub; lia).
      rewrite Hsub, IH by (cbn; lia). cbn. f_equal. f_equal; lia.
    + rewrite decide_True, IH by (done || lia). cbn [length].
      change (total (e :: ?k)) with (d_size e + total k). f_equal. f_equal; lia.
Qed.

Lemma trim_spec target l st :
  sizes_ok l → total l = st_bytes st → 0 ≤ target →
  ∃ removed rest, l = removed ++ rest ∧ total rest ≤ target ∧
    trim removable target l st =
    (removed, mkStats (entries st) (total rest) (removed_inactive st)
                (removed_oversize st + length removed) (removed_temp st)).
Proof.
  intros Hl. revert st. induction Hl as [|e l He Hl IH]; intros st Hst Ht; cbn [trim].
  - exists [], []. split_and!; [done | done |]. rewrite Hst, Nat.add_0_r. by destruct st.
  - change (total (e :: l)) with (d_size e + total l) in Hst. pose proof (total_nonneg l Hl).
    case_decide as Hd.
    + exists [], (e :: l). change (total (e :: l)) with (d_size e + total l). rewrite Hst.
      split_and!; [done | done |]. rewrite Nat.add_0_r. by destruct st.
    + rewrite Hrem.
      assert (st_bytes st ∸ d_size e = st_bytes st - d_size e) as Hsub by (unfold saturating_sub; lia).
      rewrite Hsub. destruct (IH (mkStats (entries st) (st_bytes st - d_size e) (removed_inactive st)
        (S (removed_oversize st)) (removed_temp st))) as (removed & rest & -> & Hle & ->); [cbn; lia | done |].
      exists (e :: removed), rest. split_and!; [done | done |]. cbn. do 2 f_equal. lia.
Qed.
End manager_ok.

Definition sample_headers : list Header := [(str "Content-Type", str "text/html"); (str "ETag", str "W/a: b")].

Lemma sample_entry_ok : entry_ok 1000 (str "http/host/path") 200 sample_headers (str "hello") 60.
Proof.
  split; try lia; try by vm_compute.
  repeat constructor; unfold header_clean; cbn; rewrite ?not_elem_of_cons; repeat split; try done;
    apply not_elem_of_nil.
Qed.

(** *** The directory walk *)

Lemma Node_nested (P : Node → Prop) :
  (∀ f size mtime, P (File f size mtime)) → (∀ d l, Forall P l → P (Dir d l)) → ∀ n, P n.
Proof.
  intros HF HD. fix IH 1. intros [f size mtime|d l]; [apply HF | apply HD].
  induction l as [|n l IHl]; constructor; [apply IH | exact IHl].
Qed.

Fixpoint no_empty_dir (n : Node) : Prop :=
  match n with
  | File _ _ _ => True
  | Dir _ l => l ≠ [] ∧ (fix go l := match l with [] => True | n :: l => no_empty_dir n ∧ go l end) l
  end.

Definition collect_all (dir : list bytes) (l : list Node) : list OnDisk * list (list bytes) :=
  (mjoin (fst ∘ collect dir <$> l), mjoin (snd ∘ collect dir <$> l)).

Lemma collect_dir dir d l : collect dir (Dir d l) = collect_all (dir ++ [d]) l.
Proof.
  cbn [collect]. induction l as [|n l IH]; [done |]. rewrite IH. unfold collect_all.
  rewrite !fmap_cons_eq, !join_cons. cbn. by destruct (collect (dir ++ [d]) n).
Qed.

Lemma prune_dir d l :
  prune_node (Dir d l) = match prune_empty_dirs l with [] => [] | k => [Dir d k] end.
Proof.
  cbn [prune_node]. enough ((fix go l := match l with [] => [] | n :: l => prune_node n ++ go l end) l =
    prune_empty_dirs l) as -> by done.
  induction l as [|n l IH]; [done |]. unfold prune_empty_dirs in *. by rewrite fmap_cons_eq, join_cons, IH.
Qed.

Lemma no_empty_dir_all d l : no_empty_dir (Dir d l) ↔ l ≠ [] ∧ Forall no_empty_dir l.
Proof.
  cbn [no_empty_dir]. enough ((fix go l := match l with [] => True | n :: l => no_empty_dir n ∧ go l end) l ↔
    Forall no_empty_dir l) as -> by done.
  induction l as [|n l IH]; [split; constructor |]. by rewrite IH, Forall_cons.
Qed.

Lemma collect_all_app dir l k :
  collect_all dir (l ++ k) =
  (fst (collect_all dir l) ++ fst (collect_all dir k), snd (collect_all dir l) ++ snd (collect_all dir k)).
Proof. unfold collect_all. by rewrite !fmap_app, !join_app. Qed.

Lemma collect_all_one dir n : collect_all dir [n] = collect dir n.
Proof. unfold collect_all. cbn. rewrite !app_nil_r. by destruct (collect dir n). Qed.

(** Pruning keeps every file where it is and leaves no empty directory. *)
Lemma prune_node_ok n : ∀ dir,
  collect_all dir (prune_node n) = collect dir n ∧ Forall no_empty_dir (prune_node n).
Proof.
  induction n as [f size mtime|d l IH] using Node_nested; intros dir.
  - split; [apply collect_all_one | by repeat constructor].
  - assert (∀ dir, collect_all dir (prune_empty_dirs l) = collect_all dir l ∧
                   Forall no_empty_dir (prune_empty_dirs l)) as Hl.
    { clear dir. intros dir. induction IH as [|n l Hn _ IHl]; [done |]. destruct (Hn dir) as [H1 H2], IHl as [H3 H4].
      unfold prune_empty_dirs in *. rewrite fmap_cons_eq, join_cons. split.
      - rewrite collect_all_app, H1, H3, <-collect_all_one. symmetry. apply (collect_all_app dir [n] l).
      - by apply Forall_app. }
    rewrite prune_dir. destruct (Hl (dir ++ [d])) as [H1 H2]. rewrite collect_dir, <-H1.
    destruct (prune_empty_dirs l) as [|n k] eqn:E; [done |]. split.
    + by rewrite collect_all_one, collect_dir.
    + constructor; [|done]. by apply no_empty_dir_all.
Qed.

(** *** Schedules *)

Inductive action := ABegin (k : nat) (h : KeyHash) (data : bytes) | ARun (k n : nat).

Definition act (z : Zone) (s : System) (a : action) : System :=
  match a with
  | ABegin k h data =>
      match writers s !! k with
      | Some w =>
          match wpc w with
          | Idle =>
              if decide (hash_ok h) then
                mkSystem (fs s) (<[k := set_wpc w (Create (entry_path z h) data)]> (writers s))
                  ((h, data) :: begun s)
              else s
          | _ => s
          end
      | None => s
      end
  | ARun k n =>
      match writers s !! k with
      | Some w => let '(w', f) := writer_step n w (fs s) in mkSystem f (<[k := w']> (writers s)) (begun s)
      | None => s
      end
  end.

Lemma acts_reachable z s l : rtc (sys_step z) s (foldl (act z) s l).
Proof.
  revert s. induction l as [|a l IH]; intros s; cbn [foldl]; [apply rtc_refl |].
  assert (act z s a = s ∨ sys_step z s (act z s a)) as [-> | H]; [|apply IH | by eapply rtc_l, IH].
  destruct a as [k h data|k n]; cbn; destruct (writers s !! k) as [w|] eqn:E; [|by left | |by left].
  - destruct (wpc w) eqn:Hw; [|by left|by left]. case_decide as Hc; [right | by left]. by apply sys_begin.
  - destruct (writer_step n w (fs s)) as [w' f] eqn:Es. right. by eapply sys_run.
Qed.

Definition sample_zone : Zone := mkZone (str "z") [str "/cache"] [1; 2]%nat 100 1000 60.

Definition sample_key : bytes := str "http/host/path".

Definition sample_data : bytes := encode_entry 1000 sample_key 200 sample_headers (str "hello") 60.

Definition empty_fs : Fs := mkFs ∅ [].

Definition store_acts (k : nat) : list action :=
  [ABegin k (hash_of sample_key) sample_data; ARun k 0; ARun k 20; ARun k 1000; ARun k 0].

Definition two_workers : list Writer := [mkWriter 7 Idle; mkWriter 8 Idle].

Definition after_store : System := foldl (act sample_zone) (mkSystem empty_fs two_workers []) (store_acts 1).

Lemma empty_start_ok ws :
  NoDup (pid <$> ws) → Forall (λ w, pid_ok (pid w) ∧ wpc w = Idle) ws → start_ok empty_fs ws.
Proof. intros. split_and!; [|done|done]. split; cbn; intros; by rewrite lookup_empty in *. Qed.

Lemma two_workers_ok : start_ok empty_fs two_workers.
Proof.
  apply empty_start_ok; [|by repeat constructor]. cbn. apply NoDup_cons. split; [set_solver |].
  apply NoDup_singleton.
Qed.

Lemma after_store_entries : entries_only (begun after_store).
Proof.
  assert (begun after_store = [(hash_of sample_key, sample_data)]) as -> by (by vm_compute).
  intros h data Hin. apply list_elem_of_singleton in Hin as [= -> ->].
  exists 1000, sample_key, 200, sample_headers, (str "hello"), 60. split_and!; [|done|done].
  apply sample_entry_ok.
Qed.

(** ** Properties *)

(** An entry survives the disk and never answers for another URL: what
    [encode_entry] writes reads back, under its own key, as the status,
    headers, body and times it was written with; under any other key it is
    refused; and a file cut short anywhere is recognised as truncated. *)
Theorem entry_roundtrip now key st hs b ttl :
  entry_ok now key st hs b ttl →
  let enc := encode_entry now key st hs b ttl in
  decode_entry enc key = Some (Ok (mkDecoded st hs b (now + ttl) now)) ∧
  (∀ key', key' ≠ key → decode_entry enc key' = Some (Err KeyMismatch)) ∧
  (∀ n key', (n < length enc)%nat → decode_entry (take n enc) key' = Some (Err Truncated)).
Proof.
  intros Hok enc. split_and!.
  - unfold enc. by rewrite decode_whole, decide_True.
  - intros key' Hne. unfold enc. by rewrite decode_whole, decide_False.
  - intros n key' Hn. unfold enc in *. rewrite decode_prefix; [|done|lia]. by rewrite decide_True.
Qed.

Lemma entry_roundtrip_witness :
  decode_entry (encode_entry 1000 (str "http/host/path") 200 sample_headers (str "hello") 60)
    (str "http/host/path") =
  Some (Ok (mkDecoded 200 sample_headers (str "hello") 1060 1000)).
Proof. apply (entry_roundtrip _ _ _ _ _ _ sample_entry_ok). Defined.

(** No file makes [decode_entry] panic: every slice it takes of a buffer
    is in bounds, whatever lengths the file claims, and an accepted file holds
    the very key that was asked for. *)
Theorem decode_entry_safe buf key :
  Z.of_nat (length buf) ≤ u64_max →
  ∃ r, decode_entry buf key = Some r ∧
  ∀ d, r = Ok d → ∃ h hdr tl, length h = HEADER_LEN ∧ take 4 h = MAGIC ∧
    buf = h ++ key ++ hdr ++ body d ++ tl ∧ headers d = parse_headers hdr.
Proof. apply decode_total. Qed.

Lemma decode_entry_safe_witness :
  ∃ r, decode_entry (MAGIC ++ [x01] ++ replicate 32 xff ++ str "x") (str "k") = Some r.
Proof.
  destruct (decode_entry_safe (MAGIC ++ [x01] ++ replicate 32 xff ++ str "x") (str "k")) as (r & H & _);
    [by vm_compute | by exists r].
Defined.

(** C31. Storing is atomic: with any number of worker processes writing,
    failing and removing files in any interleaving of their system calls, the
    name of an entry leads either to what was there at the start or to a whole
    entry some worker began to store under that digest - never to a partial
    write - and no step changes a file an entry's name leads to, so a reader
    that has opened it reads it whole. *)
Theorem store_atomic z f ws s h i :
  start_ok f ws → rtc (sys_step z) (mkSystem f ws []) s → hash_ok h →
  names (fs s) !! entry_path z h = Some i →
  (∃ c, inodes (fs s) !! i = Some c ∧
    (read_file (entry_path z h) f = Some c ∨ (h, c) ∈ begun s)) ∧
  ∀ s', sys_step z s s' → inodes (fs s') !! i = inodes (fs s) !! i.
Proof.
  intros Hs Hr Hh Hi. pose proof (sys_reachable_ok z f ws s Hs Hr) as Hok. split.
  - by apply (so_entries _ _ _ Hok).
  - intros s' Hstep. by eapply entry_inode_stable.
Qed.

Lemma store_atomic_witness :
  ∃ c, inodes (fs after_store) !! 0%nat = Some c ∧
    (read_file (entry_path sample_zone (hash_of sample_key)) empty_fs = Some c ∨
     (hash_of sample_key, c) ∈ begun after_store).
Proof.
  apply (store_atomic sample_zone empty_fs two_workers after_store (hash_of sample_key) 0).
  - apply two_workers_ok.
  - apply acts_reachable.
  - apply hash_of_ok.
  - by vm_compute.
Defined.

(** C32. What the cache answers was stored for that key: in any reachable
    state of the workers, over a directory that began empty, [load] does not
    panic, and a hit or an expired answer is exactly a response that was
    stored under the requested key, a hit if and only if it is still fresh. *)
Theorem load_returns_stored z f ws s now key idx :
  start_ok f ws → rtc (sys_step z) (mkSystem f ws []) s → entries_only (begun s) →
  names f = ∅ →
  ∃ r f' idx', load now z key (hash_of key) (fs s) idx = Some (r, f', idx') ∧
  match r with
  | Some (d, status) => stored (begun s) key d ∧ f' = fs s ∧ (status = Hit ↔ now < expires d) ∧
                        (status = Expired ↔ expires d ≤ now)
  | None => True
  end.
Proof.
  intros Hs Hr Hbg Hf. eapply load_sound; [by eapply sys_reachable_ok | done |].
  unfold read_file. by rewrite Hf, lookup_empty.
Qed.

Lemma load_returns_stored_witness :
  ∃ r f' idx', load 1030 sample_zone sample_key (hash_of sample_key) (fs after_store) ∅ = Some (r, f', idx').
Proof.
  destruct (load_returns_stored sample_zone empty_fs two_workers after_store 1030 sample_key ∅
    two_workers_ok (acts_reachable _ _ _) after_store_entries eq_refl) as (r & f' & idx' & H & _).
  by exists r, f', idx'.
Defined.

(** The answer is the stored response. *)
Example load_hits :
  (λ x, fst (fst x)) <$> load 1030 sample_zone sample_key (hash_of sample_key) (fs after_store) ∅ =
  Some (Some (mkDecoded 200 sample_headers (str "hello") 1060 1000, Hit)).
Proof. by vm_compute. Qed.

(** The fetch locks exclude and never stay behind: in every reachable
    state at most one guard of a key is alive, a key is locked exactly while
    its guard is, and so a key whose guard was dropped - on an error path or
    not - can be locked again. *)
Theorem locks_exclusive f live k :
  rtc lock_step (∅, []) (f, live) →
  NoDup live ∧ (is_locked k f = true ↔ k ∈ live) ∧
  (fst (try_lock k f) = true ↔ k ∉ live) ∧
  (k ∈ live → ∃ f' live', lock_step (f, live) (f', live') ∧ fst (try_lock k f') = true).
Proof.
  intros Hr. pose proof (locks_reachable_ok _ Hr) as Hok. pose proof Hok as [Hnd Hs]. cbn in Hnd, Hs.
  assert (∀ g, fst (try_lock k g) = true ↔ k ∉ g) as Htry by (intros g; unfold try_lock; by case_decide).
  split_and!; [done | by unfold is_locked; rewrite bool_decide_eq_true | by rewrite Htry, Hs |].
  intros (l1 & l2 & ->)%list_elem_of_split. exists (unlock k f), (l1 ++ l2). split; [constructor |].
  apply Htry. unfold unlock. set_solver.
Qed.

Lemma locks_exclusive_witness :
  let k := (str "zone", (1, 2)) in
  NoDup [k] ∧ is_locked k {[k]} = true.
Proof.
  intros k. assert (rtc lock_step (∅, []) ({[k]}, [k])) as Hr.
  { apply rtc_once. apply (lock_try k ∅ [] true). unfold try_lock. rewrite decide_False by set_solver.
    by rewrite union_empty_r_L. }
  destruct (locks_exclusive _ _ k Hr) as (H1 & H2 & _). split; [exact H1 |]. apply H2. set_solver.
Defined.

(** The manager keeps the cache within its limit, oldest first: when its
    removals succeed, what stays is the entries used within [inactive], less
    the oldest ones, [max_size] is respected afterwards, nothing is trimmed
    from a cache already within it, and the statistics count exactly what is
    left on disk. *)
Theorem manager_keeps_limit removable now z found temps kept removed st :
  (∀ p, removable p = true) → sizes_ok found → 0 ≤ max_size z →
  manager_pass removable now z found temps = (kept, removed, st) →
  ∃ rest, kept = removed ++ rest ∧
    kept ≡ₚ filter (λ e, ¬ (0 < inactive z ∧ inactive z < now ∸ d_mtime e)) found ∧
    (∀ a b, a ∈ removed → b ∈ rest → d_mtime a ≤ d_mtime b) ∧
    (0 < max_size z → total rest ≤ max_size z) ∧
    (removed ≠ [] → 0 < max_size z < total kept) ∧
    st = mkStats (length rest) (total rest) (length found - length kept) (length removed) temps.
Proof.
  intros Hrem Hsz Hmax. unfold manager_pass. change (foldr Z.add 0 (d_size <$> found)) with (total found).
  set (st0 := mkStats 0 (total found) 0 0 temps). set (keep := filter _ found).
  assert ((if decide (0 < inactive z) then drop_inactive removable now (inactive z) found st0 else (found, st0))
    = (keep, mkStats 0 (total keep) (length found - length keep) 0 temps)) as ->.
  { subst keep. case_decide as Hin.
    - rewrite drop_inactive_spec by done.
      rewrite (list_filter_iff _ (λ e, ¬ (0 < inactive z ∧ inactive z < now ∸ d_mtime e))) by tauto.
      cbn. do 2 f_equal. lia.
    - rewrite filter_all; [by rewrite Nat.sub_diag |]. apply Forall_forall. tauto. }
  cbn [st_bytes]. case_decide as Hbig.
  - set (sorted := sort_by_key d_mtime keep).
    assert (sorted ≡ₚ keep) as Hp by apply sort_by_perm.
    destruct (trim_spec removable Hrem (max_size z - max_size z / 10) sorted
      (mkStats 0 (total keep) (length found - length keep) 0 temps)) as (rm & rest & Es & Hle & ->).
    { apply Forall_forall. intros e He. rewrite Hp in He. apply list_elem_of_filter in He as [_ He].
      unfold sizes_ok in Hsz. rewrite Forall_forall in Hsz. by apply Hsz. }
    { by apply total_perm. }
    { pose proof (Z.div_le_upper_bound (max_size z) 10 (max_size z)). lia. }
    cbn. intros [= <- <- <-]. exists rest. split_and!; [done | done | | | |].
    + intros a b Ha Hb. assert (sorted_by (by_key d_mtime) sorted) as Hs by apply sort_by_key_sorted.
      rewrite Es in Hs. pose proof (sorted_by_app _ _ _ _ _ Hs Ha Hb) as H. by apply bool_decide_eq_true in H.
    + intros _. pose proof (Z.div_pos (max_size z) 10). lia.
    + intros _. by rewrite (total_perm _ _ Hp).
    + pose proof (Permutation_length Hp) as Hl. apply (f_equal length) in Es. rewrite length_app in Es.
      f_equal; lia.
  - intros [= <- <- <-]. exists keep. split_and!; [done | done | | lia | done |].
    + intros a b Ha. by apply not_elem_of_nil in Ha.
    + cbn. by rewrite Nat.sub_0_r.
Qed.

Definition sample_found : list OnDisk :=
  [mkOnDisk [str "a"] 400 990; mkOnDisk [str "b"] 400 970; mkOnDisk [str "c"] 400 980; mkOnDisk [str "d"] 9 900].

Lemma manager_keeps_limit_witness :
  ∃ rest, [mkOnDisk [str "b"] 400 970; mkOnDisk [str "c"] 400 980; mkOnDisk [str "a"] 400 990] =
          [mkOnDisk [str "b"] 400 970] ++ rest ∧ total rest ≤ 1000.
Proof.
  destruct (manager_keeps_limit (λ _, true) 1000 sample_zone sample_found 0
    [mkOnDisk [str "b"] 400 970; mkOnDisk [str "c"] 400 980; mkOnDisk [str "a"] 400 990]
    [mkOnDisk [str "b"] 400 970] (mkStats 2 800 1 1 0)) as (rest & H & _ & _ & H2 & _).
  - done.
  - repeat constructor; cbn; lia.
  - cbn; lia.
  - by vm_compute.
  - exists rest. split; [exact H | apply H2; cbn; lia].
Defined.

(** Eviction is least-recently-used within the zone: only entries of the
    zone go, as many as a tenth of the index but at least one while the zone
    has any, and none that goes was used after one that stays. *)
Theorem evict_lru (iter : list ((bytes * KeyHash) * Entry)) (zone : bytes) (idx : Index) :
  iter ≡ₚ map_to_list idx →
  let idx' := evict iter zone idx in
  (∀ k e, idx' !! k = Some e → idx !! k = Some e) ∧
  (∀ k e, idx !! k = Some e → idx' !! k = None → fst k = zone ∧
     ∀ j e', fst j = zone → idx' !! j = Some e' → last_used e ≤ last_used e') ∧
  size idx' = (size idx - Nat.min (Nat.max (size idx / 10) 1) (length (victims iter zone)))%nat.
Proof.
  intros Hp idx'. unfold idx'. split_and!; [| |by apply evict_size].
  - intros k e. rewrite evict_lookup. by case_decide.
  - intros k e He. rewrite evict_lookup. case_decide as Hin; [intros _ | congruence].
    apply list_elem_of_fmap in Hin as ([k' t] & -> & Hin). set (n := Nat.max _ _) in *. cbn [fst] in *.
    assert ((k', t) ∈ victims iter zone) as Hv.
    { apply elem_of_take in Hin as (i & Hi & _). by apply list_elem_of_lookup_2 in Hi. }
    apply (victims_elem _ _ idx) in Hv as (Hz & e1 & He1 & Ht); [|done]. split; [done |].
    intros j e' Hj. rewrite evict_lookup. fold n. case_decide as Hjn; [done |]. intros He'.
    assert ((j, last_used e') ∈ victims iter zone) as Hvj by (apply (victims_elem _ _ idx); eauto).
    rewrite <-(take_drop n) in Hvj. apply elem_of_app in Hvj as [Hvj|Hvj].
    { exfalso. apply Hjn. apply list_elem_of_fmap. by exists (j, last_used e'). }
    assert (sorted_by (by_key snd) (victims iter zone)) as Hs by apply sort_by_key_sorted.
    rewrite <-(take_drop n) in Hs. pose proof (sorted_by_app _ _ _ _ _ Hs Hin Hvj) as H.
    apply bool_decide_eq_true in H. cbn in H. congruence || (simplify_eq; lia).
Qed.

(** With two threads of one process the temporary names coincide, and a
    partial write is renamed into place. *)
Definition torn : System :=
  foldl (act sample_zone) (mkSystem empty_fs [mkWriter 7 Idle; mkWriter 7 Idle] [])
    [ABegin 0 (hash_of sample_key) sample_data; ABegin 1 (hash_of sample_key) sample_data;
     ARun 0 0; ARun 0 1000; ARun 1 0; ARun 1 20; ARun 0 0].

Theorem shared_pid_tears :
  rtc (sys_step sample_zone) (mkSystem empty_fs [mkWriter 7 Idle; mkWriter 7 Idle] []) torn ∧
  read_file (entry_path sample_zone (hash_of sample_key)) (fs torn) = Some (take 20 sample_data).
Proof. split; [apply acts_reachable | by vm_compute]. Qed.

(** [prune_empty_dirs] moves and loses no file, and no directory it leaves is
    empty, at any depth. *)
Theorem prune_exact dir children :
  collect_all dir (prune_empty_dirs children) = collect_all dir children ∧
  Forall no_empty_dir (prune_empty_dirs children).
Proof.
  induction children as [|n l [IH1 IH2]]; [done |]. destruct (prune_node_ok n dir) as [H1 H2].
  unfold prune_empty_dirs in *. rewrite fmap_cons_eq, join_cons. split; [|by apply Forall_app].
  rewrite collect_all_app, H1, IH1, <-collect_all_one. symmetry. apply (collect_all_app dir [n] l).
Qed.
