(* ===== verification/Preread.v ===== *)
(** * [src/server/preread.rs]: reading a TLS ClientHello

    The cursor, the record walk, the handshake message and its extensions.
    A cursor is what is left of its buffer. *)
From S2P Require Import Prelude.
From S2P Require Import Text.

Open Scope Z_scope.

(** ** The code *)

Record Hello := mkHello { server_name : bytes; alpn : list bytes; protocol : bytes }.

Inductive Preread := IsHello (h : Hello) | Incomplete | NotTls.

(** [self.alpn.join(",")] *)
Fixpoint join_with (sep : bytes) (l : list bytes) : bytes :=
  match l with
  | [] => []
  | [x] => x
  | x :: l => x ++ sep ++ join_with sep l
  end.

Definition alpn_list (h : Hello) : bytes := join_with (str ",") (alpn h).

Definition REC_HANDSHAKE : Z := 22.
Definition MSG_CLIENT_HELLO : Z := 1.
Definition EXT_SERVER_NAME : Z := 0.
Definition EXT_ALPN : Z := 16.
Definition EXT_SUPPORTED_VERSIONS : Z := 43.
Definition MAX_RECORD : Z := 16384.

(** [Cur::take] *)
Definition take_n (n : nat) (c : bytes) : option (bytes * bytes) :=
  if decide (length c < n)%nat then None else Some (take n c, drop n c).

(** [Cur::u8], [Cur::u16], [Cur::u24] *)
Definition take_int (n : nat) (c : bytes) : option (Z * bytes) :=
  '(s, c) ← take_n n c; Some (from_be s, c).

Definition take_len (n : nat) (c : bytes) : option (nat * bytes) :=
  '(v, c) ← take_int n c; Some (Z.to_nat v, c).

Definition is_grease (v : Z) : bool :=
  bool_decide (Z.land v 0x0f0f = 0x0a0a) && bool_decide (Z.shiftr v 8 = Z.land v 0xff).

Definition version_name (v : Z) : bytes :=
  if decide (v = 0x0300) then str "SSLv3"
  else if decide (v = 0x0301) then str "TLSv1"
  else if decide (v = 0x0302) then str "TLSv1.1"
  else if decide (v = 0x0303) then str "TLSv1.2"
  else if decide (v = 0x0304) then str "TLSv1.3"
  else [].

(** The loops take at least a byte a turn, so the length of what they walk is
    enough fuel. *)
Fixpoint server_name_loop (fuel : nat) (c : bytes) : option bytes :=
  match c, fuel with
  | [], _ | _, O => None
  | _, S fuel =>
      '(ty, c) ← take_int 1 c;
      '(len, c) ← take_len 2 c;
      '(name, c) ← take_n len c;
      if decide (ty = 0) then n ← from_utf8 name; if decide (n = []) then None else Some n
      else server_name_loop fuel c
  end.

Definition parse_server_name (data : bytes) : option bytes :=
  '(list_len, c) ← take_len 2 data;
  '(l, _) ← take_n list_len c;
  server_name_loop (length l) l.

Fixpoint alpn_loop (fuel : nat) (c : bytes) (out : list bytes) : option (list bytes) :=
  match c, fuel with
  | [], _ | _, O => Some out
  | _, S fuel =>
      '(len, c) ← take_len 1 c;
      '(p, c) ← take_n len c;
      alpn_loop fuel c
        (if decide (p = []) then out
         else match from_utf8 p with Some s => out ++ [s] | None => out end)
  end.

Definition parse_alpn (data : bytes) : option (list bytes) :=
  '(list_len, c) ← take_len 2 data;
  '(l, _) ← take_n list_len c;
  alpn_loop (length l) l [].

Fixpoint best_loop (fuel : nat) (c : bytes) (best : Z) : option Z :=
  match c, fuel with
  | [], _ | _, O => Some best
  | _, S fuel =>
      '(v, c) ← take_int 2 c;
      best_loop fuel c (if is_grease v then best else if decide (best < v) then v else best)
  end.

Definition best_version (data : bytes) : option bytes :=
  '(len, c) ← take_len 1 data;
  if decide (Nat.odd len) then None
  else
    '(l, _) ← take_n len c;
    best ← best_loop (length l) l 0;
    if decide (version_name best = []) then None else Some (version_name best).

(** One extension's effect. *)
Definition apply_ext (ty : Z) (data : bytes) (h : Hello) : Hello :=
  if decide (ty = EXT_SERVER_NAME) then
    match parse_server_name data with
    | Some n => mkHello n (alpn h) (protocol h)
    | None => h
    end
  else if decide (ty = EXT_ALPN) then
    match parse_alpn data with
    | Some l => mkHello (server_name h) l (protocol h)
    | None => h
    end
  else if decide (ty = EXT_SUPPORTED_VERSIONS) then
    match best_version data with
    | Some v => mkHello (server_name h) (alpn h) v
    | None => h
    end
  else h.

Fixpoint ext_loop (fuel : nat) (c : bytes) (h : Hello) : option Hello :=
  match c, fuel with
  | [], _ | _, O => Some h
  | _, S fuel =>
      '(ty, c) ← take_int 2 c;
      '(len, c) ← take_len 2 c;
      '(data, c) ← take_n len c;
      ext_loop fuel c (apply_ext ty data h)
  end.

(** [None] is "truncated, come back with more". *)
Definition handshake (b : bytes) : option Preread :=
  '(kind, c) ← take_int 1 b;
  if decide (kind ≠ MSG_CLIENT_HELLO) then Some NotTls
  else
    '(len, c) ← take_len 3 c;
    '(c, _) ← take_n len c;
    '(legacy, c) ← take_int 2 c;
    '(_, c) ← take_n 32 c;
    '(sid_len, c) ← take_len 1 c;
    '(_, c) ← take_n sid_len c;
    '(cs_len, c) ← take_len 2 c;
    if decide (Nat.odd cs_len) then Some NotTls
    else
      '(_, c) ← take_n cs_len c;
      '(comp_len, c) ← take_len 1 c;
      '(_, c) ← take_n comp_len c;
      let out := mkHello [] [] (version_name legacy) in
      match c with
      | [] => Some (IsHello out)
      | _ =>
          '(ext_len, c) ← take_len 2 c;
          '(exts, _) ← take_n ext_len c;
          IsHello <$> ext_loop (length exts) exts out
      end.

(** The length the message claims, over the record payloads it spans. *)
Definition declared_len (parts : list bytes) : option nat :=
  match mjoin parts with
  | _ :: a :: b :: c :: _ => Some (Z.to_nat (from_be [a; b; c]) + 4)%nat
  | _ => None
  end.

Fixpoint records_loop (fuel : nat) (c : bytes) (parts : list bytes) : result Preread (list bytes) :=
  match fuel with
  | O => Err Incomplete
  | S fuel =>
      '(kind, c) ← ok_or Incomplete (take_int 1 c);
      if decide (kind ≠ REC_HANDSHAKE) then Err NotTls
      else
        '(major, c) ← ok_or Incomplete (take_int 1 c);
        '(_, c) ← ok_or Incomplete (take_int 1 c);
        if decide (major ≠ 3) then Err NotTls
        else
          '(len, c) ← ok_or Incomplete (take_len 2 c);
          if decide (len = 0%nat ∨ MAX_RECORD < Z.of_nat len) then Err NotTls
          else
            '(payload, c) ← ok_or Incomplete (take_n len c);
            let parts := parts ++ [payload] in
            let more := match c with [] => Err Incomplete | _ => records_loop fuel c parts end in
            match declared_len parts with
            | Some need => if decide (need <= length (mjoin parts))%nat then Ok parts else more
            | None => more
            end
  end.

Definition records (buf : bytes) : result Preread (list bytes) := records_loop (S (length buf)) buf [].

Definition parse (buf : bytes) : Preread :=
  match buf with
  | [] => Incomplete
  | b :: _ =>
      if decide (u8 b ≠ REC_HANDSHAKE) then NotTls
      else match records buf with
           | Ok parts => default Incomplete (handshake (mjoin parts))
           | Err e => e
           end
  end.

(** ** The cursor *)

Lemma take_n_app n a c : length a = n → take_n n (a ++ c) = Some (a, c).
Proof.
  intros <-. unfold take_n. rewrite decide_False by len_lia.
  by rewrite take_app_length, drop_app_length.
Qed.

Lemma take_n_Some n c a r : take_n n c = Some (a, r) ↔ c = a ++ r ∧ length a = n.
Proof.
  split; [|intros [-> ?]; by apply take_n_app].
  unfold take_n. case_decide; [done |]. intros [= <- <-]. rewrite take_drop. split; [done | len_lia].
Qed.

Lemma take_int_Some n c v r :
  take_int n c = Some (v, r) ↔ ∃ a, c = a ++ r ∧ length a = n ∧ v = from_be a.
Proof.
  unfold take_int. split.
  - destruct (take_n n c) as [[a r']|] eqn:E; [|done]. apply take_n_Some in E as [-> Hl].
    cbn. intros [= <- <-]. eauto.
  - intros (a & -> & Hl & ->). by rewrite take_n_app.
Qed.

Lemma take_len_Some n c v r :
  take_len n c = Some (v, r) ↔ ∃ a, c = a ++ r ∧ length a = n ∧ v = Z.to_nat (from_be a).
Proof.
  unfold take_len. split.
  - destruct (take_int n c) as [[a r']|] eqn:E; [|done]. apply take_int_Some in E as (x & -> & Hl & ->).
    cbn. intros [= <- <-]. eauto.
  - intros (a & -> & Hl & ->). by rewrite (proj2 (take_int_Some n (a ++ r) (from_be a) r)) by eauto.
Qed.

Lemma take_int_to_be n v c : 0 ≤ v < 256 ^ Z.of_nat n → take_int n (to_be n v ++ c) = Some (v, c).
Proof.
  intros. apply take_int_Some. exists (to_be n v). by rewrite length_to_be, from_be_to_be_small.
Qed.

Lemma take_len_to_be n k c :
  Z.of_nat k < 256 ^ Z.of_nat n → take_len n (to_be n (Z.of_nat k) ++ c) = Some (k, c).
Proof. intros. unfold take_len. rewrite take_int_to_be by lia. cbn. by rewrite Nat2Z.id. Qed.

(** More bytes behind what was read change nothing. *)
Lemma take_n_more n c a r m : take_n n c = Some (a, r) → take_n n (c ++ m) = Some (a, r ++ m).
Proof. intros [-> Hl]%take_n_Some. rewrite <-app_assoc. by apply take_n_app. Qed.

Lemma take_int_more n c v r m : take_int n c = Some (v, r) → take_int n (c ++ m) = Some (v, r ++ m).
Proof. intros (a & -> & ? & ->)%take_int_Some. apply take_int_Some. exists a. by rewrite <-app_assoc. Qed.

Lemma take_len_more n c v r m : take_len n c = Some (v, r) → take_len n (c ++ m) = Some (v, r ++ m).
Proof. intros (a & -> & ? & ->)%take_len_Some. apply take_len_Some. exists a. by rewrite <-app_assoc. Qed.

(** ** Records *)

(** One turn of the loop. *)
Definition next_record (c : bytes) : result Preread (bytes * bytes) :=
  '(kind, c) ← ok_or Incomplete (take_int 1 c);
  if decide (kind ≠ REC_HANDSHAKE) then Err NotTls
  else
    '(major, c) ← ok_or Incomplete (take_int 1 c);
    '(_, c) ← ok_or Incomplete (take_int 1 c);
    if decide (major ≠ 3) then Err NotTls
    else
      '(len, c) ← ok_or Incomplete (take_len 2 c);
      if decide (len = 0%nat ∨ MAX_RECORD < Z.of_nat len) then Err NotTls
      else ok_or Incomplete (take_n len c).

Lemma records_loop_S fuel c parts :
  records_loop (S fuel) c parts =
  ('(payload, c) ← next_record c;
   let parts := parts ++ [payload] in
   let more := match c with [] => Err Incomplete | _ => records_loop fuel c parts end in
   match declared_len parts with
   | Some need => if decide (need <= length (mjoin parts))%nat then Ok parts else more
   | None => more
   end).
Proof.
  unfold next_record. cbn [records_loop].
  destruct (take_int 1 c) as [[k c1]|]; [|done]. cbn [ok_or mbind result_bind]. case_decide; [done |].
  destruct (take_int 1 c1) as [[mj c2]|]; [|done]. cbn [ok_or mbind result_bind].
  destruct (take_int 1 c2) as [[mn c3]|]; [|done]. cbn [ok_or mbind result_bind]. case_decide; [done |].
  destruct (take_len 2 c3) as [[len c4]|]; [|done]. cbn [ok_or mbind result_bind]. case_decide; [done |].
  by destruct (take_n len c4) as [[p c5]|].
Qed.

Lemma next_record_more c m :
  match next_record c with
  | Ok (p, r) => next_record (c ++ m) = Ok (p, r ++ m) ∧ (length r < length c)%nat
  | Err NotTls => next_record (c ++ m) = Err NotTls
  | Err _ => next_record c = Err Incomplete
  end.
Proof.
  unfold next_record.
  destruct (take_int 1 c) as [[k c1]|] eqn:E1; [|done]. rewrite (take_int_more _ _ _ _ m E1).
  cbn [ok_or mbind result_bind]. case_decide; [done |].
  destruct (take_int 1 c1) as [[mj c2]|] eqn:E2; [|done]. rewrite (take_int_more _ _ _ _ m E2).
  cbn [ok_or mbind result_bind].
  destruct (take_int 1 c2) as [[mn c3]|] eqn:E3; [|done]. rewrite (take_int_more _ _ _ _ m E3).
  cbn [ok_or mbind result_bind]. case_decide; [done |].
  destruct (take_len 2 c3) as [[len c4]|] eqn:E4; [|done]. rewrite (take_len_more _ _ _ _ m E4).
  cbn [ok_or mbind result_bind]. case_decide; [done |].
  destruct (take_n len c4) as [[p c5]|] eqn:E5; [|done]. rewrite (take_n_more _ _ _ _ m E5).
  cbn [ok_or]. split; [done |].
  apply take_int_Some in E1 as (? & -> & ? & _), E2 as (? & -> & ? & _), E3 as (? & -> & ? & _).
  apply take_len_Some in E4 as (? & -> & ? & _). apply take_n_Some in E5 as [-> ?]. len_lia.
Qed.

(** Enough fuel is enough, and a settled walk stays settled. *)
Lemma records_loop_more fuel g c m parts :
  (length c < fuel)%nat → (length (c ++ m) < g)%nat →
  match records_loop fuel c parts with
  | Ok ps => records_loop g (c ++ m) parts = Ok ps
  | Err NotTls => records_loop g (c ++ m) parts = Err NotTls
  | Err e => e = Incomplete
  end.
Proof.
  revert g c parts. induction fuel as [|fuel IH]; intros g c parts Hf Hg; [lia |].
  destruct g as [|g]; [lia |]. rewrite !records_loop_S.
  pose proof (next_record_more c m) as Hn. destruct (next_record c) as [[p r]|e].
  2: { destruct e; [done | done | by rewrite Hn]. }
  destruct Hn as [-> Hr]. cbn [mbind result_bind].
  assert (match (match r with [] => Err Incomplete | _ => records_loop fuel r (parts ++ [p]) end) with
    | Ok ps => match r ++ m with [] => Err Incomplete | _ => records_loop g (r ++ m) (parts ++ [p]) end = Ok ps
    | Err NotTls => match r ++ m with [] => Err Incomplete | _ => records_loop g (r ++ m) (parts ++ [p]) end
                    = Err NotTls
    | Err e => e = Incomplete
    end) as Hmore.
  { destruct r as [|b r]; [done |]. cbn [app].
    specialize (IH g (b :: r) (parts ++ [p]) ltac:(lia)). cbn [app] in IH. apply IH. len_lia. }
  destruct (declared_len (parts ++ [p])) as [need|]; [|exact Hmore].
  case_decide; [done | exact Hmore].
Qed.

Lemma records_more buf m :
  match records buf with
  | Ok ps => records (buf ++ m) = Ok ps
  | Err NotTls => records (buf ++ m) = Err NotTls
  | Err e => e = Incomplete
  end.
Proof. apply records_loop_more; lia. Qed.

Lemma handshake_not_incomplete b : handshake b ≠ Some Incomplete.
Proof.
  unfold handshake. intros H.
  repeat match type of H with
  | (mbind _ ?x) = _ => destruct x as [[? ?]|]; cbn [mbind option_bind] in H; [|done]
  | (if ?d then _ else _) = _ => destruct d; [done |]
  | match ?c with [] => _ | _ => _ end = _ => destruct c; [done |]
  | _ <$> ?x = _ => by destruct x
  end.
Qed.

(** ** What a client sends

    A ClientHello as RFC 8446 lays it out, with the extensions this module
    reads and any others between them. *)
Inductive Ext :=
  | Sni (name : bytes)
  | Alpn (protocols : list bytes)
  | Versions (vs : list Z)
  | OtherExt (ty : Z) (data : bytes).

Definition ext_type (e : Ext) : Z :=
  match e with
  | Sni _ => EXT_SERVER_NAME | Alpn _ => EXT_ALPN | Versions _ => EXT_SUPPORTED_VERSIONS
  | OtherExt ty _ => ty
  end.

Definition vec (n : nat) (data : bytes) : bytes := to_be n (Z.of_nat (length data)) ++ data.

Definition ext_data (e : Ext) : bytes :=
  match e with
  | Sni name => vec 2 ([x00] ++ vec 2 name)
  | Alpn l => vec 2 (mjoin (vec 1 <$> l))
  | Versions vs => vec 1 (mjoin (to_be 2 <$> vs))
  | OtherExt _ data => data
  end.

Definition encode_ext (e : Ext) : bytes := to_be 2 (ext_type e) ++ vec 2 (ext_data e).

Record ClientHello := mkClientHello {
  legacy_version : Z; random : bytes; session_id : bytes; suites : bytes; compression : bytes;
  extensions : list Ext
}.

Definition hello_body (ch : ClientHello) : bytes :=
  to_be 2 (legacy_version ch) ++ random ch ++ vec 1 (session_id ch) ++ vec 2 (suites ch) ++
  vec 1 (compression ch) ++
  match extensions ch with [] => [] | l => vec 2 (mjoin (encode_ext <$> l)) end.

Definition encode_hello (ch : ClientHello) : bytes := [x01] ++ vec 3 (hello_body ch).

(** The message in records, cut anywhere. *)
Definition encode_record (minor : byte) (payload : bytes) : bytes := [x16; x03; minor] ++ vec 2 payload.

Definition best_of (vs : list Z) : Z :=
  foldl (λ b v, if is_grease v then b else Z.max b v) 0 vs.

(** What it says. *)
Definition ext_meaning (h : Hello) (e : Ext) : Hello :=
  match e with
  | Sni name => mkHello name (alpn h) (protocol h)
  | Alpn l => mkHello (server_name h) l (protocol h)
  | Versions vs =>
      if decide (version_name (best_of vs) = []) then h
      else mkHello (server_name h) (alpn h) (version_name (best_of vs))
  | OtherExt _ _ => h
  end.

Definition hello_meaning (ch : ClientHello) : Hello :=
  foldl ext_meaning (mkHello [] [] (version_name (legacy_version ch))) (extensions ch).

Definition ext_ok (e : Ext) : Prop :=
  Z.of_nat (length (ext_data e)) < 2 ^ 16 ∧
  match e with
  | Sni name => name ≠ [] ∧ utf8_valid name = true ∧ Z.of_nat (length name) < 2 ^ 16 - 3
  | Alpn l =>
      Forall (λ p, p ≠ [] ∧ utf8_valid p = true ∧ Z.of_nat (length p) < 256) l ∧
      Z.of_nat (length (mjoin (vec 1 <$> l))) < 2 ^ 16
  | Versions vs => Forall (λ v, 0 ≤ v < 2 ^ 16) vs ∧ Z.of_nat (length vs) < 128
  | OtherExt ty _ => 0 ≤ ty < 2 ^ 16 ∧ ty ∉ [EXT_SERVER_NAME; EXT_ALPN; EXT_SUPPORTED_VERSIONS]
  end.

Record client_ok (ch : ClientHello) : Prop := {
  ck_legacy : 0 ≤ legacy_version ch < 2 ^ 16;
  ck_random : length (random ch) = 32%nat;
  ck_sid : Z.of_nat (length (session_id ch)) < 2 ^ 8;
  ck_suites : Z.of_nat (length (suites ch)) < 2 ^ 16 ∧ Nat.Even (length (suites ch));
  ck_comp : Z.of_nat (length (compression ch)) < 2 ^ 8;
  ck_exts : Forall ext_ok (extensions ch) ∧ Z.of_nat (length (mjoin (encode_ext <$> extensions ch))) < 2 ^ 16
}.

Lemma take_vec_len n data c :
  Z.of_nat (length data) < 256 ^ Z.of_nat n →
  take_len n (vec n data ++ c) = Some (length data, data ++ c).
Proof. intros. unfold vec. rewrite <-app_assoc. by apply take_len_to_be. Qed.

Lemma vec_length n data : length (vec n data) = (n + length data)%nat.
Proof. unfold vec. len_lia. Qed.

Lemma loop_cons {A} (c : bytes) (x y : A) : c ≠ [] → match c with [] => x | _ => y end = y.
Proof. by destruct c. Qed.

Lemma parse_sni name :
  name ≠ [] → utf8_valid name = true → Z.of_nat (length name) < 2 ^ 16 - 3 →
  parse_server_name (ext_data (Sni name)) = Some name.
Proof.
  intros Hne Hu Hl. unfold parse_server_name. cbn [ext_data].
  rewrite <-(app_nil_r (vec 2 ([x00] ++ vec 2 name))), take_vec_len
    by (rewrite length_app, vec_length; cbn; lia).
  cbn [mbind option_bind]. rewrite take_n_app by done. cbn [mbind option_bind].
  cbn [app length server_name_loop]. change (x00 :: vec 2 name) with (to_be 1 0 ++ vec 2 name).
  rewrite take_int_to_be by lia. cbn [mbind option_bind].
  rewrite <-(app_nil_r (vec 2 name)), take_vec_len by lia. cbn [mbind option_bind].
  rewrite take_n_app by done. cbn [mbind option_bind]. rewrite decide_True by done.
  unfold from_utf8. rewrite Hu. cbn. by rewrite decide_False.
Qed.

Lemma alpn_loop_spec l out fuel :
  Forall (λ p, p ≠ [] ∧ utf8_valid p = true ∧ Z.of_nat (length p) < 256) l →
  (length (mjoin (vec 1 <$> l)) <= fuel)%nat →
  alpn_loop fuel (mjoin (vec 1 <$> l)) out = Some (out ++ l).
Proof.
  intros Hl. revert out fuel. induction Hl as [|p l (Hne & Hu & Hp) _ IH]; intros out fuel Hf.
  - rewrite app_nil_r. by destruct fuel.
  - rewrite fmap_cons_eq, join_cons in *. rewrite length_app, vec_length in Hf.
    destruct fuel as [|fuel]; [lia |].
    destruct (vec 1 p ++ mjoin (vec 1 <$> l)) as [|b c] eqn:E; [done |]. rewrite <-E. clear b c E.
    cbn [alpn_loop]. rewrite loop_cons by done. rewrite take_vec_len by done. cbn [mbind option_bind].
    rewrite take_n_app by done. cbn [mbind option_bind]. rewrite decide_False by done.
    unfold from_utf8. rewrite Hu, IH by lia. by rewrite <-app_assoc.
Qed.

Lemma parse_alpn_spec l :
  Forall (λ p, p ≠ [] ∧ utf8_valid p = true ∧ Z.of_nat (length p) < 256) l →
  Z.of_nat (length (mjoin (vec 1 <$> l))) < 2 ^ 16 →
  parse_alpn (ext_data (Alpn l)) = Some l.
Proof.
  intros Hl Hn. unfold parse_alpn. cbn [ext_data].
  rewrite <-(app_nil_r (vec 2 _)), take_vec_len by lia. cbn [mbind option_bind].
  rewrite take_n_app by done. cbn [mbind option_bind]. by rewrite alpn_loop_spec.
Qed.

Lemma best_loop_spec vs b fuel :
  Forall (λ v, 0 ≤ v < 2 ^ 16) vs → (length (mjoin (to_be 2 <$> vs)) <= fuel)%nat →
  best_loop fuel (mjoin (to_be 2 <$> vs)) b = Some (foldl (λ b v, if is_grease v then b else Z.max b v) b vs).
Proof.
  intros Hvs. revert b fuel. induction Hvs as [|v vs Hv _ IH]; intros b fuel Hf.
  - by destruct fuel.
  - rewrite fmap_cons_eq, join_cons in *. rewrite length_app, length_to_be in Hf.
    destruct fuel as [|fuel]; [lia |].
    assert (to_be 2 v ++ mjoin (to_be 2 <$> vs) ≠ []) as Hne by done.
    cbn [best_loop]. rewrite loop_cons by done. rewrite take_int_to_be by lia.
    cbn [mbind option_bind foldl]. rewrite IH by lia. do 2 f_equal.
    destruct (is_grease v); [done |]. case_decide; lia.
Qed.

Lemma versions_length vs : length (mjoin (to_be 2 <$> vs)) = (2 * length vs)%nat.
Proof.
  induction vs as [|v vs IH]; [done |]. rewrite fmap_cons_eq, join_cons, length_app, IH, length_to_be.
  cbn. lia.
Qed.

Lemma best_version_spec vs :
  Forall (λ v, 0 ≤ v < 2 ^ 16) vs → Z.of_nat (length vs) < 128 →
  best_version (ext_data (Versions vs)) =
  if decide (version_name (best_of vs) = []) then None else Some (version_name (best_of vs)).
Proof.
  intros Hvs Hn. unfold best_version. cbn [ext_data].
  rewrite <-(app_nil_r (vec 1 _)), take_vec_len by (rewrite versions_length; lia).
  cbn [mbind option_bind]. 
  rewrite decide_False by (rewrite versions_length, Nat.odd_mul; exact id).
  rewrite take_n_app by done. cbn [mbind option_bind]. by rewrite best_loop_spec.
Qed.

Lemma apply_ext_spec e h : ext_ok e → apply_ext (ext_type e) (ext_data e) h = ext_meaning h e.
Proof.
  intros [_ He]. destruct e as [name|l|vs|ty data]; unfold apply_ext; cbn [ext_type].
  - destruct He as (? & ? & ?). rewrite decide_True, parse_sni by done. done.
  - destruct He. rewrite decide_False, decide_True, parse_alpn_spec by done. done.
  - destruct He. rewrite decide_False, decide_False, decide_True, best_version_spec by done. cbn.
    by case_decide.
  - destruct He as [_ He]. rewrite !decide_False by set_solver. done.
Qed.

Lemma ext_type_range e : ext_ok e → 0 ≤ ext_type e < 2 ^ 16.
Proof. intros [_ He]. destruct e; cbn; try done. by destruct He. Qed.

Lemma ext_loop_spec l h fuel :
  Forall ext_ok l → (length (mjoin (encode_ext <$> l)) <= fuel)%nat →
  ext_loop fuel (mjoin (encode_ext <$> l)) h = Some (foldl ext_meaning h l).
Proof.
  intros Hl. revert h fuel. induction Hl as [|e l He _ IH]; intros h fuel Hf.
  - by destruct fuel.
  - rewrite fmap_cons_eq, join_cons in *. unfold encode_ext at 1 in Hf. unfold encode_ext at 1.
    rewrite !length_app, length_to_be in Hf. destruct fuel as [|fuel]; [lia |].
    rewrite <-app_assoc. cbn [ext_loop]. rewrite loop_cons by done.
    pose proof (ext_type_range e He). pose proof (proj1 He).
    rewrite take_int_to_be by lia. cbn [mbind option_bind]. rewrite take_vec_len by lia.
    cbn [mbind option_bind]. rewrite take_n_app by done. cbn [mbind option_bind].
    rewrite apply_ext_spec by done. rewrite vec_length in Hf. apply IH. lia.
Qed.

Lemma handshake_spec ch :
  client_ok ch → Z.of_nat (length (hello_body ch)) < 2 ^ 24 →
  handshake (encode_hello ch) = Some (IsHello (hello_meaning ch)).
Proof.
  intros [] Hl. unfold handshake, encode_hello. change [x01] with (to_be 1 1).
  rewrite take_int_to_be by lia. cbn [mbind option_bind]. rewrite decide_False by (intros []; done).
  rewrite <-(app_nil_r (vec 3 _)), take_vec_len by lia. cbn [mbind option_bind].
  rewrite take_n_app by done. cbn [mbind option_bind]. unfold hello_body.
  rewrite take_int_to_be by lia. cbn [mbind option_bind].
  rewrite take_n_app by done. cbn [mbind option_bind].
  rewrite take_vec_len by lia. cbn [mbind option_bind]. rewrite take_n_app by done. cbn [mbind option_bind].
  destruct ck_suites0 as [Hs Heven]. rewrite take_vec_len by lia. cbn [mbind option_bind].
  rewrite decide_False. 2: { rewrite <-Nat.negb_even. apply Nat.even_spec in Heven. rewrite Heven. exact id. }
  rewrite take_n_app by done. cbn [mbind option_bind].
  rewrite take_vec_len by lia. cbn [mbind option_bind]. rewrite take_n_app by done. cbn [mbind option_bind].
  unfold hello_meaning. destruct ck_exts0 as [He Hel]. destruct (extensions ch) as [|e l]; [done |].
  rewrite loop_cons by done. rewrite <-(app_nil_r (vec 2 _)), take_vec_len by lia. cbn [mbind option_bind].
  rewrite take_n_app by done. cbn [mbind option_bind]. by rewrite ext_loop_spec.
Qed.

(** *** Records of a message *)

Definition chunk_ok (p : bytes) : Prop := 0 < Z.of_nat (length p) ≤ MAX_RECORD.

Lemma next_record_encode minor p c :
  chunk_ok p → next_record (encode_record minor p ++ c) = Ok (p, c).
Proof.
  intros [H1 H2]. unfold next_record, encode_record. rewrite <-app_assoc.
  change ([x16; x03; minor] ++ ?r) with (to_be 1 22 ++ to_be 1 3 ++ [minor] ++ r).
  rewrite take_int_to_be by lia. cbn [ok_or mbind result_bind]. rewrite decide_False by (intros []; done).
  rewrite take_int_to_be by lia. cbn [ok_or mbind result_bind].
  rewrite (proj2 (take_int_Some 1 ([minor] ++ vec 2 p ++ c) (from_be [minor]) (vec 2 p ++ c)))
    by (exists [minor]; done).
  cbn [ok_or mbind result_bind]. rewrite decide_False by (intros []; done).
  unfold MAX_RECORD in H2. rewrite take_vec_len by lia. cbn [ok_or mbind result_bind].
  rewrite decide_False by (unfold MAX_RECORD; lia). by rewrite take_n_app.
Qed.

(** As the message arrives, its declared length shows once four bytes of it
    are there, and it is the message's. *)
Lemma declared_len_prefix (parts : list bytes) body tl :
  Z.of_nat (length body) < 2 ^ 24 → mjoin parts ++ tl = [x01] ++ vec 3 body →
  match declared_len parts with
  | Some need => need = (4 + length body)%nat
  | None => (length (mjoin parts) < 4)%nat
  end.
Proof.
  intros Hl E. unfold declared_len.
  destruct (mjoin parts) as [|k [|a [|b [|c r]]]]; try (cbn; lia).
  injection E as _ E1 E2 E3 _. rewrite E1, E2, E3.
  change [of_u8 _; of_u8 _; of_u8 _] with (to_be 3 (Z.of_nat (length body))).
  rewrite from_be_to_be_small by lia. lia.
Qed.

Lemma records_loop_chunks minor body chunks parts c fuel :
  Forall chunk_ok chunks → chunks ≠ [] → Z.of_nat (length body) < 2 ^ 24 →
  mjoin parts ++ mjoin chunks = [x01] ++ vec 3 body → (length chunks <= fuel)%nat →
  records_loop fuel (mjoin (encode_record minor <$> chunks) ++ c) parts = Ok (parts ++ chunks).
Proof.
  intros Hch. revert parts fuel. induction Hch as [|p chunks Hp Hch IH]; intros parts fuel Hne Hl E Hf; [done |].
  destruct fuel as [|fuel]; [cbn in Hf; lia |].
  rewrite records_loop_S, fmap_cons_eq, join_cons, <-app_assoc, next_record_encode by done.
  cbn [mbind result_bind].
  assert (mjoin (parts ++ [p]) ++ mjoin chunks = [x01] ++ vec 3 body) as E'.
  { rewrite join_app, <-app_assoc. cbn. by rewrite app_nil_r. }
  pose proof (declared_len_prefix _ _ _ Hl E') as Hd. pose proof (f_equal length E') as Hlen.
  rewrite length_app, length_app, vec_length in Hlen. cbn [length] in Hlen.
  destruct chunks as [|q chunks].
  - rewrite Nat.add_0_r in Hlen. destruct (declared_len _) as [need|]; [|lia].
    by rewrite decide_True by lia.
  - assert (match mjoin (encode_record minor <$> q :: chunks) ++ c with
            | [] => Err Incomplete
            | _ => records_loop fuel (mjoin (encode_record minor <$> q :: chunks) ++ c) (parts ++ [p])
            end = Ok (parts ++ p :: q :: chunks)) as Hmore.
    { rewrite loop_cons by done. rewrite IH; [by rewrite <-app_assoc | done | done | done | cbn in *; lia]. }
    rewrite join_cons, length_app in Hlen. apply Forall_inv in Hch as [Hq _].
    destruct (declared_len _) as [need|]; [|exact Hmore]. rewrite decide_False by lia. exact Hmore.
Qed.

Lemma records_length minor chunks : (length chunks <= length (mjoin (encode_record minor <$> chunks)))%nat.
Proof.
  induction chunks as [|p ps IH]; [done |]. rewrite fmap_cons_eq, join_cons, length_app. cbn. lia.
Qed.

(** ** Properties *)

(** The verdict on a prefix is final: once [parse] has found a
    ClientHello, or ruled one out, no bytes that follow change the answer, so
    it does not matter how many reads the bytes took to arrive. *)
Theorem parse_stable buf more : parse buf ≠ Incomplete → parse (buf ++ more) = parse buf.
Proof.
  destruct buf as [|b buf]; [done |]. unfold parse. cbn [app]. case_decide; [done |].
  pose proof (records_more (b :: buf) more) as Hm. cbn [app] in Hm.
  destruct (records (b :: buf)) as [ps|[h| |]]; rewrite ?Hm; done.
Qed.

(** C33. A ClientHello is understood whatever its packing: for every
    well-formed hello, cut into handshake records at any places, with anything
    after it, [parse] gives its server name, its protocols in order and the
    best version it offers, other extensions and GREASE values ignored. *)
Theorem hello_understood ch minor chunks rest :
  client_ok ch → Z.of_nat (length (hello_body ch)) < 2 ^ 24 →
  Forall chunk_ok chunks → mjoin chunks = encode_hello ch →
  parse (mjoin (encode_record minor <$> chunks) ++ rest) = IsHello (hello_meaning ch).
Proof.
  intros Hok Hl Hch E. assert (chunks ≠ []) as Hne by (by intros ->).
  assert (∃ t, mjoin (encode_record minor <$> chunks) ++ rest = x16 :: t) as [t Ht].
  { destruct chunks as [|p ps]; [done |]. rewrite fmap_cons_eq, join_cons. by eexists. }
  unfold parse. rewrite Ht, decide_False by (intros []; done). rewrite <-Ht. unfold records.
  rewrite (records_loop_chunks minor (hello_body ch) chunks []).
  - cbn [app]. by rewrite E, handshake_spec.
  - done.
  - done.
  - done.
  - exact E.
  - rewrite length_app. pose proof (records_length minor chunks). lia.
Qed.

Definition sample_hello : ClientHello :=
  mkClientHello 0x0303 (replicate 32 x00) [] [x13; x01] [x00]
    [OtherExt 10 (str "xx"); Sni (str "example.com"); Alpn [str "h2"; str "http/1.1"];
     Versions [0x1a1a; 0x0304; 0x0303]].

Lemma sample_hello_ok : client_ok sample_hello.
Proof.
  split; [done | done | done | split; [done | by exists 1%nat] | done |].
  split; [|by vm_compute]. cbn [extensions sample_hello].
  repeat (apply Forall_cons_2; [split; [by vm_compute |]|]); [| | | |apply Forall_nil_2].
  - split; [lia |]. unfold EXT_SERVER_NAME, EXT_ALPN, EXT_SUPPORTED_VERSIONS. set_solver by lia.
  - split_and!; [done | by vm_compute | by vm_compute].
  - split; [|by vm_compute]. repeat (apply Forall_cons_2; [by vm_compute |]). apply Forall_nil_2.
  - split; [|done]. repeat (apply Forall_cons_2; [lia |]). apply Forall_nil_2.
Qed.

Lemma hello_understood_witness :
  parse (mjoin (encode_record x01 <$> [take 3 (encode_hello sample_hello); drop 3 (encode_hello sample_hello)])
         ++ str "more") =
  IsHello (mkHello (str "example.com") [str "h2"; str "http/1.1"] (str "TLSv1.3")).
Proof.
  apply (hello_understood sample_hello x01
    [take 3 (encode_hello sample_hello); drop 3 (encode_hello sample_hello)] (str "more")).
  - apply sample_hello_ok.
  - by vm_compute.
  - repeat (apply Forall_cons_2; [by vm_compute |]). apply Forall_nil_2.
  - by vm_compute.
Defined.

Lemma parse_stable_witness : parse (str "GET / HTTP/1.1" ++ str "more") = NotTls.
Proof. apply (parse_stable (str "GET / HTTP/1.1") (str "more")). done. Defined.

(** A hello that is all there but cannot be read - here a session id longer
    than the message - is "incomplete", whatever follows: the connection waits
    for its timeout, where the code's comment promises an answer. *)
Definition malformed_message : bytes :=
  [x01] ++ vec 3 (to_be 2 0x0303 ++ replicate 32 x00 ++ [xff]).
Definition malformed_hello : bytes := encode_record x01 malformed_message.

Theorem malformed_hello_stalls more : parse (malformed_hello ++ more) = Incomplete.
Proof.
  pose proof (records_more malformed_hello more) as H.
  assert (records malformed_hello = Ok [malformed_message]) as E by by vm_compute.
  assert (handshake (mjoin [malformed_message]) = None) as Hn by by vm_compute.
  rewrite E in H. unfold parse.
  change (malformed_hello ++ more) with (x16 :: (tail malformed_hello ++ more)) at 1.
  cbv iota. rewrite decide_False by (intros []; done). by rewrite H, Hn.
Qed.
