(* ===== verification/Vars.v ===== *)
(** * [src/config/vars.rs]: variables and the templates that embed them *)
From S2P Require Import Prelude.
From S2P Require Import Text.

Open Scope Z_scope.

(** ** Variables *)

Module Var.

(** [enum Var]; the constructors are used qualified, as the code does. *)
Inductive Var :=
  | Uri | DocumentUri | RequestUri | Args | IsArgs | Arg (name : bytes) | Host | Hostname
  | Scheme | RequestMethod | Request | ServerProtocol | ServerName | ServerPort | ServerAddr
  | RemoteAddr | BinaryRemoteAddr | RemotePort | RemoteUser | Status | BodyBytesSent | BytesSent
  | RequestLength | RequestTime | Msec | TimeLocal | TimeIso8601 | DocumentRoot
  | RequestFilename | ContentType | ContentLength | Connection | ConnectionRequests | Pid
  | NginxVersion | Http (name : bytes) | SentHttp (name : bytes) | FastcgiScriptName
  | FastcgiPathInfo | Https | ProxyHost | ProxyPort | ProxyAddXForwardedFor
  | UpstreamHttp (name : bytes) | UpstreamAddr | UpstreamStatus | UpstreamCacheStatus | UpstreamResponseTime
  | UpstreamConnectTime | Cookie (name : bytes) | SslPrereadServerName
  | SslPrereadAlpnProtocols | SslPrereadProtocol | Capture (i : Z) | User (name : bytes).

End Var.

#[export] Instance Var_eq_dec : EqDecision Var.Var.
Proof. solve_decision. Defined.

(** [header_name]: only ASCII characters change, so the bytes do. *)
Definition header_byte (c : byte) : byte :=
  if decide (c = x5f) then x2d else to_ascii_lowercase c.
Definition header_name (s : bytes) : bytes := header_byte <$> s.

(** The names of [Var::parse]'s match, in its order. *)
Definition fixed_vars : list (bytes * Var.Var) :=
  [ (str "uri", Var.Uri);
    (str "document_uri", Var.DocumentUri);
    (str "request_uri", Var.RequestUri);
    (str "args", Var.Args);
    (str "query_string", Var.Args);
    (str "is_args", Var.IsArgs);
    (str "host", Var.Host);
    (str "hostname", Var.Hostname);
    (str "scheme", Var.Scheme);
    (str "request_method", Var.RequestMethod);
    (str "request", Var.Request);
    (str "server_protocol", Var.ServerProtocol);
    (str "server_name", Var.ServerName);
    (str "server_port", Var.ServerPort);
    (str "server_addr", Var.ServerAddr);
    (str "remote_addr", Var.RemoteAddr);
    (str "binary_remote_addr", Var.BinaryRemoteAddr);
    (str "remote_port", Var.RemotePort);
    (str "remote_user", Var.RemoteUser);
    (str "status", Var.Status);
    (str "body_bytes_sent", Var.BodyBytesSent);
    (str "bytes_sent", Var.BytesSent);
    (str "request_length", Var.RequestLength);
    (str "request_time", Var.RequestTime);
    (str "msec", Var.Msec);
    (str "time_local", Var.TimeLocal);
    (str "time_iso8601", Var.TimeIso8601);
    (str "document_root", Var.DocumentRoot);
    (str "request_filename", Var.RequestFilename);
    (str "content_type", Var.ContentType);
    (str "content_length", Var.ContentLength);
    (str "connection", Var.Connection);
    (str "connection_requests", Var.ConnectionRequests);
    (str "pid", Var.Pid);
    (str "nginx_version", Var.NginxVersion);
    (str "fastcgi_script_name", Var.FastcgiScriptName);
    (str "fastcgi_path_info", Var.FastcgiPathInfo);
    (str "https", Var.Https);
    (str "proxy_host", Var.ProxyHost);
    (str "proxy_port", Var.ProxyPort);
    (str "proxy_add_x_forwarded_for", Var.ProxyAddXForwardedFor);
    (str "upstream_addr", Var.UpstreamAddr);
    (str "upstream_status", Var.UpstreamStatus);
    (str "upstream_cache_status", Var.UpstreamCacheStatus);
    (str "upstream_response_time", Var.UpstreamResponseTime);
    (str "upstream_connect_time", Var.UpstreamConnectTime);
    (str "ssl_preread_server_name", Var.SslPrereadServerName);
    (str "ssl_preread_alpn_protocols", Var.SslPrereadAlpnProtocols);
    (str "ssl_preread_protocol", Var.SslPrereadProtocol) ].

Fixpoint assoc {A} (name : bytes) (l : list (bytes * A)) : option A :=
  match l with
  | [] => None
  | (n, a) :: l => if decide (n = name) then Some a else assoc name l
  end.

Definition parse (name : bytes) : Var.Var :=
  match strip_prefix (str "http_") name with
  | Some rest => Var.Http (header_name rest)
  | None =>
  match strip_prefix (str "upstream_http_") name with
  | Some rest => Var.UpstreamHttp (header_name rest)
  | None =>
  match strip_prefix (str "sent_http_") name with
  | Some rest => Var.SentHttp (header_name rest)
  | None =>
  match strip_prefix (str "arg_") name with
  | Some rest => Var.Arg rest
  | None =>
  match strip_prefix (str "cookie_") name with
  | Some rest => Var.Cookie rest
  | None => default (Var.User name) (assoc name fixed_vars)
  end end end end end.

(** [h.replace('-', "_")] *)
Definition underscore (c : byte) : byte := if decide (c = x2d) then x5f else c.

Definition field_name (v : Var.Var) : bytes :=
  match v with
  | Var.Uri => str "uri"
  | Var.DocumentUri => str "document_uri"
  | Var.RequestUri => str "request_uri"
  | Var.Args => str "args"
  | Var.IsArgs => str "is_args"
  | Var.Host => str "host"
  | Var.Hostname => str "hostname"
  | Var.Scheme => str "scheme"
  | Var.RequestMethod => str "request_method"
  | Var.Request => str "request"
  | Var.ServerProtocol => str "server_protocol"
  | Var.ServerName => str "server_name"
  | Var.ServerPort => str "server_port"
  | Var.ServerAddr => str "server_addr"
  | Var.RemoteAddr => str "remote_addr"
  | Var.BinaryRemoteAddr => str "binary_remote_addr"
  | Var.RemotePort => str "remote_port"
  | Var.RemoteUser => str "remote_user"
  | Var.Status => str "status"
  | Var.BodyBytesSent => str "body_bytes_sent"
  | Var.BytesSent => str "bytes_sent"
  | Var.RequestLength => str "request_length"
  | Var.RequestTime => str "request_time"
  | Var.Msec => str "msec"
  | Var.TimeLocal => str "time_local"
  | Var.TimeIso8601 => str "time_iso8601"
  | Var.DocumentRoot => str "document_root"
  | Var.RequestFilename => str "request_filename"
  | Var.ContentType => str "content_type"
  | Var.ContentLength => str "content_length"
  | Var.Connection => str "connection"
  | Var.ConnectionRequests => str "connection_requests"
  | Var.Pid => str "pid"
  | Var.NginxVersion => str "nginx_version"
  | Var.FastcgiScriptName => str "fastcgi_script_name"
  | Var.FastcgiPathInfo => str "fastcgi_path_info"
  | Var.Https => str "https"
  | Var.ProxyHost => str "proxy_host"
  | Var.ProxyPort => str "proxy_port"
  | Var.ProxyAddXForwardedFor => str "proxy_add_x_forwarded_for"
  | Var.UpstreamAddr => str "upstream_addr"
  | Var.UpstreamStatus => str "upstream_status"
  | Var.UpstreamCacheStatus => str "upstream_cache_status"
  | Var.UpstreamResponseTime => str "upstream_response_time"
  | Var.UpstreamConnectTime => str "upstream_connect_time"
  | Var.SslPrereadServerName => str "ssl_preread_server_name"
  | Var.SslPrereadAlpnProtocols => str "ssl_preread_alpn_protocols"
  | Var.SslPrereadProtocol => str "ssl_preread_protocol"
  | Var.UpstreamHttp h => str "upstream_http_" ++ (underscore <$> h)
  | Var.Http h => str "http_" ++ (underscore <$> h)
  | Var.SentHttp h => str "sent_http_" ++ (underscore <$> h)
  | Var.Arg a => str "arg_" ++ a
  | Var.Cookie c => str "cookie_" ++ c
  | Var.Capture i => str "capture_" ++ fmt_u64 i
  | Var.User u => u
  end.

(** ** Templates *)

Inductive Seg := Lit (l : bytes) | SVar (v : Var.Var).

Record Template := mkTemplate { segs : list Seg; literal : option bytes }.

Definition name_char (b : byte) : bool := is_ascii_alphanumeric b || bool_decide (b = x5f).

(** The run of name characters at the front, and what follows it. *)
Fixpoint span_name (s : bytes) : bytes * bytes :=
  match s with
  | c :: s' => if name_char c then let '(n, r) := span_name s' in (c :: n, r) else ([], s)
  | [] => ([], [])
  end.

(** What a dollar sign refers to, and what follows; [None] when it is only a
    dollar sign. *)
Definition reference (s : bytes) : option (bytes * bytes) :=
  match s with
  | x7b :: r => split_once x7d r
  | _ => let '(n, r) := span_name s in if decide (n = []) then None else Some (n, r)
  end.

Definition var_of (name : bytes) : Var.Var :=
  match name with
  | [d] => if is_ascii_digit d then Var.Capture (u8 d - 48) else parse name
  | _ => parse name
  end.

Definition flush (lit : bytes) (l : list Seg) : list Seg :=
  if decide (lit = []) then l else l ++ [Lit (from_utf8_lossy lit)].

(** Every turn consumes a byte, so the source's length is enough fuel. *)
Fixpoint compile_loop (fuel : nat) (s lit : bytes) (l : list Seg) : list Seg :=
  match s, fuel with
  | [], _ => flush lit l
  | _, O => l
  | c :: s, S fuel =>
      if decide (c ≠ x24) then compile_loop fuel s (lit ++ [c]) l
      else
        match reference s with
        | Some (name, rest) => compile_loop fuel rest [] (flush lit l ++ [SVar (var_of name)])
        | None => compile_loop fuel s (lit ++ [x24]) l
        end
  end.

Definition compile (src : bytes) : Template :=
  let l := compile_loop (length src) src [] [] in
  mkTemplate l (match l with [] => Some [] | [Lit t] => Some t | _ => None end).

Definition is_literal (t : Template) : bool := bool_decide (is_Some (literal t)).

Definition seg_var (s : Seg) : option Var.Var :=
  match s with SVar v => Some v | Lit _ => None end.

Definition vars (t : Template) : list Var.Var := omap seg_var (segs t).

(** A [VarSource] is what it appends for each variable. *)
Definition VarSource := Var.Var → bytes.

Definition seg_value (src : VarSource) (s : Seg) : bytes :=
  match s with Lit l => l | SVar v => src v end.

Definition render (src : VarSource) (t : Template) : bytes :=
  match literal t with
  | Some l => l
  | None => mjoin (seg_value src <$> segs t)
  end.

Definition NoVars : VarSource := λ _, [].

(** ** Names *)

Lemma header_name_idemp s : header_name (underscore <$> header_name s) = header_name s.
Proof.
  unfold header_name. rewrite <-!list_fmap_compose. apply list_fmap_ext. intros _ c _.
  by destruct c.
Qed.

Lemma strip_prefix_app p s : strip_prefix p (p ++ s) = Some s.
Proof. by apply strip_prefix_Some. Qed.

Lemma assoc_elem {A} name (l : list (bytes * A)) a : assoc name l = Some a → (name, a) ∈ l.
Proof.
  induction l as [|[n b] l IH]; cbn; [done |]. case_decide; [|set_solver].
  intros [= ->]. subst. set_solver.
Qed.

Lemma fixed_vars_named : Forall (λ p, parse (field_name p.2) = p.2) fixed_vars.
Proof. repeat constructor. Qed.

(** A variable's field name, the column it becomes in a structured log,
    names that variable: read back as configuration text it is the variable
    it came from. *)
Theorem field_name_names name : parse (field_name (parse name)) = parse name.
Proof.
  unfold parse at 2 3.
  destruct (strip_prefix (str "http_") name) as [r|] eqn:E1.
  { cbn [field_name]. unfold parse. by rewrite strip_prefix_app, header_name_idemp. }
  destruct (strip_prefix (str "upstream_http_") name) as [r|] eqn:E2.
  { cbn [field_name]. unfold parse. rewrite (strip_prefix_app (str "upstream_http_")).
    by rewrite header_name_idemp. }
  destruct (strip_prefix (str "sent_http_") name) as [r|] eqn:E3.
  { cbn [field_name]. unfold parse. rewrite (strip_prefix_app (str "sent_http_")).
    by rewrite header_name_idemp. }
  destruct (strip_prefix (str "arg_") name) as [r|] eqn:E4.
  { cbn [field_name]. unfold parse. by rewrite (strip_prefix_app (str "arg_")). }
  destruct (strip_prefix (str "cookie_") name) as [r|] eqn:E5.
  { cbn [field_name]. unfold parse. by rewrite (strip_prefix_app (str "cookie_")). }
  destruct (assoc name fixed_vars) as [v|] eqn:E6; cbn [default].
  - apply assoc_elem in E6. pose proof fixed_vars_named as H.
    rewrite Forall_forall in H. apply (H _ E6).
  - cbn [field_name]. unfold parse. by rewrite E1, E2, E3, E4, E5, E6.
Qed.

(** ** What a template says

    The language of templates: text without dollar signs, references with and
    without braces, and dollar signs that refer to nothing. *)

Inductive Piece :=
  | Text (t : bytes)
  | Braced (name : bytes)
  | Bare (name : bytes)
  | Dollar.

Fixpoint print (ps : list Piece) : bytes :=
  match ps with
  | [] => []
  | Text t :: ps => t ++ print ps
  | Braced n :: ps => x24 :: x7b :: n ++ x7d :: print ps
  | Bare n :: ps => x24 :: n ++ print ps
  | Dollar :: ps => x24 :: print ps
  end.

Definition starts_name (s : bytes) : bool :=
  match s with c :: _ => name_char c | [] => false end.

(** A bare name ends where name characters do; a dollar sign refers to nothing
    when no name follows it, nor a brace that is ever closed. *)
Fixpoint readable (ps : list Piece) : Prop :=
  match ps with
  | [] => True
  | Text t :: ps => x24 ∉ t ∧ utf8_valid t = true ∧ readable ps
  | Braced n :: ps => x7d ∉ n ∧ readable ps
  | Bare n :: ps =>
      n ≠ [] ∧ Forall (λ c, name_char c = true) n ∧ starts_name (print ps) = false ∧ readable ps
  | Dollar :: ps =>
      starts_name (print ps) = false ∧
      (∀ r, print ps = x7b :: r → x7d ∉ r) ∧ readable ps
  end.

Definition piece_value (src : VarSource) (p : Piece) : bytes :=
  match p with
  | Text t => t
  | Braced n | Bare n => src (var_of n)
  | Dollar => [x24]
  end.

(** *** Scanning *)

Lemma span_name_app n s :
  Forall (λ c, name_char c = true) n → starts_name s = false → span_name (n ++ s) = (n, s).
Proof.
  intros Hn Hs. induction Hn as [|c n Hc _ IH]; cbn [app span_name].
  - destruct s as [|c s]; [done |]. cbn in *. by rewrite Hs.
  - by rewrite Hc, IH.
Qed.

Lemma span_name_split s :
  ∃ n r, span_name s = (n, r) ∧ s = n ++ r ∧ Forall (λ c, name_char c = true) n ∧
         starts_name r = false.
Proof.
  induction s as [|c s (n & r & E & -> & Hn & Hr)]; [by exists [], [] |].
  cbn [span_name]. destruct (name_char c) eqn:Ec.
  - rewrite E. exists (c :: n), r. by repeat split; [constructor |].
  - by exists [], (c :: n ++ r).
Qed.

Lemma name_char_ascii c : name_char c = true → u8 c < 128 ∧ c ≠ x24 ∧ c ≠ x7b.
Proof. by destruct c. Qed.

Lemma reference_braced n s : x7d ∉ n → reference (x7b :: n ++ x7d :: s) = Some (n, s).
Proof. apply split_once_app. Qed.

Lemma reference_bare n s :
  n ≠ [] → Forall (λ c, name_char c = true) n → starts_name s = false →
  reference (n ++ s) = Some (n, s).
Proof.
  intros Hne Hn Hs. destruct n as [|c n]; [done |]. pose proof Hn as Hn'.
  apply Forall_cons in Hn as [(_ & _ & Hc)%name_char_ascii _].
  transitivity (let '(n', r) := span_name ((c :: n) ++ s) in
                if decide (n' = []) then None else Some (n', r)).
  - unfold reference. cbn [app]. by destruct c.
  - by rewrite span_name_app.
Qed.

Lemma reference_none s :
  starts_name s = false → (∀ r, s = x7b :: r → x7d ∉ r) → reference s = None.
Proof.
  intros Hs Hb. destruct (decide (head s = Some x7b)) as [E|E].
  - destruct s as [|c s]; [done |]. injection E as ->. by apply split_once_None, Hb.
  - transitivity (let '(n', r) := span_name s in
                  if decide (n' = []) then None else Some (n', r)).
    + destruct s as [|c s]; [done |]. destruct c; done.
    + pose proof (span_name_app [] s (Forall_nil_2 _) Hs) as E'. cbn [app] in E'. by rewrite E'.
Qed.

Lemma compile_text fuel t s lit l :
  x24 ∉ t → compile_loop (length t + fuel) (t ++ s) lit l = compile_loop fuel s (lit ++ t) l.
Proof.
  revert lit. induction t as [|c t IH]; intros lit Ht; cbn [app length Nat.add].
  - by rewrite app_nil_r.
  - apply not_elem_of_cons in Ht as [Hc Ht].
    cbn [compile_loop]. rewrite decide_True by done. rewrite (IH _ Ht). by rewrite <-app_assoc.
Qed.

Lemma flush_value src lit l :
  utf8_valid lit = true →
  mjoin (seg_value src <$> flush lit l) = mjoin (seg_value src <$> l) ++ lit.
Proof.
  intros Hv. unfold flush. case_decide as E; [subst; by rewrite app_nil_r |].
  rewrite fmap_app, join_app. cbn. by rewrite from_utf8_lossy_valid, app_nil_r.
Qed.

(** The loop on what a list of pieces prints as. *)
Lemma compile_pieces src ps : ∀ fuel lit l,
  readable ps → utf8_valid lit = true → (length (print ps) ≤ fuel)%nat →
  mjoin (seg_value src <$> compile_loop fuel (print ps) lit l) =
  mjoin (seg_value src <$> l) ++ lit ++ mjoin (piece_value src <$> ps).
Proof.
  induction ps as [|p ps IH]; intros fuel lit l Hr Hv Hf.
  { cbn [print]. rewrite app_nil_r. destruct fuel; by apply flush_value. }
  rewrite fmap_cons_eq, join_cons. destruct p as [t|n|n|]; cbn [print readable piece_value] in *.
  - destruct Hr as (Ht & Hvt & Hr). rewrite length_app in Hf.
    replace fuel with (length t + (fuel - length t))%nat by lia.
    rewrite compile_text by done. rewrite IH; [| done | by rewrite utf8_valid_app | lia].
    by rewrite <-!app_assoc.
  - destruct Hr as (Hn & Hr). destruct fuel as [|fuel]; [by cbn in Hf; lia |].
    cbn [compile_loop]. rewrite decide_False by auto. rewrite reference_braced by done. rewrite IH; [| done | done | len_lia].
    rewrite fmap_app, join_app, flush_value by done. cbn. by rewrite <-!app_assoc.
  - destruct Hr as (Hne & Hn & Hs & Hr). destruct fuel as [|fuel]; [by cbn in Hf; lia |].
    cbn [compile_loop]. rewrite decide_False by auto. rewrite reference_bare by done. rewrite IH; [| done | done | len_lia].
    rewrite fmap_app, join_app, flush_value by done. cbn. by rewrite <-!app_assoc.
  - destruct Hr as (Hs & Hb & Hr). destruct fuel as [|fuel]; [by cbn in Hf; lia |].
    cbn [compile_loop]. rewrite decide_False by auto. rewrite reference_none by done.
    rewrite IH; [| done | by rewrite utf8_valid_app | len_lia].
    by rewrite <-!app_assoc.
Qed.

(** The single-literal shortcut shows the same text. *)
Lemma render_segs src s : render src (compile s) = mjoin (seg_value src <$> compile_loop (length s) s [] []).
Proof.
  unfold render, compile. cbn [literal segs].
  destruct (compile_loop (length s) s [] []) as [|[t|v] [|g l]]; try done.
  cbn. by rewrite app_nil_r.
Qed.

(** Every text is the print of readable pieces. *)
Lemma text_pieces k : ∀ s, (length s ≤ k)%nat → utf8_valid s = true →
  ∃ ps, readable ps ∧ print ps = s.
Proof.
  induction k as [|k IH]; intros s Hk Hv.
  { destruct s; [by exists [] | cbn in Hk; lia]. }
  destruct (decide (x24 ∈ s)) as [Hd|Hd].
  2:{ exists [Text s]. cbn. by rewrite app_nil_r. }
  destruct (split_once x24 s) as [[t r]|] eqn:E.
  2:{ by apply split_once_None_inv in E. }
  apply split_once_Some_inv in E as [-> Ht].
  apply utf8_valid_split in Hv as [Hvt Hvr]; [| done].
  rewrite length_app in Hk. cbn [length] in Hk.
  enough (∃ ps, readable ps ∧ print ps = x24 :: r) as (ps & Hr & E).
  { exists (Text t :: ps). cbn. by rewrite E. }
  destruct (span_name_split r) as (n & r' & _ & -> & Hn & Hr').
  destruct (decide (n = [])) as [->|Hne].
  - cbn [app] in *. destruct (decide (head r' = Some x7b)) as [Eb|Eb].
    + destruct r' as [|c b]; [done |]. injection Eb as ->.
      destruct (split_once x7d b) as [[n r]|] eqn:E.
      * apply split_once_Some_inv in E as [-> Hn'].
        destruct (IH r) as (ps & Hr & <-); [len_lia | |].
        { rewrite utf8_valid_cons_ascii in Hvr by done. by apply utf8_valid_split in Hvr as []. }
        by exists (Braced n :: ps).
      * destruct (IH (x7b :: b)) as (ps & Hr & E'); [len_lia | done |].
        exists (Dollar :: ps). cbn. rewrite E'. repeat split; try done.
        intros ? [= <-]. by apply split_once_None_inv.
    + destruct (IH r') as (ps & Hr & E'); [len_lia | done |].
      exists (Dollar :: ps). cbn. rewrite E'. repeat split; try done.
      intros r ->. done.
  - destruct (IH r') as (ps & Hr & <-); [len_lia | |].
    + rewrite utf8_valid_app in Hvr; [done |]. apply utf8_valid_ascii.
      eapply Forall_impl; [apply Hn |]. intros c Hc. by apply name_char_ascii.
    + by exists (Bare n :: ps).
Qed.

(** The loop only ever adds a literal in front of a variable. *)
Lemma flush_vars lit l :
  (omap seg_var l = [] → l = []) → omap seg_var (flush lit l) = [] →
  flush lit l = [] ∨ ∃ t, flush lit l = [Lit t].
Proof.
  intros Hl. unfold flush. case_decide; [intros ->%Hl; by left |].
  rewrite omap_app. intros [H0 _]%app_nil. right. rewrite (Hl H0). by eexists.
Qed.

Lemma compile_loop_vars fuel : ∀ s lit l,
  (omap seg_var l = [] → l = []) → omap seg_var (compile_loop fuel s lit l) = [] →
  compile_loop fuel s lit l = [] ∨ ∃ t, compile_loop fuel s lit l = [Lit t].
Proof.
  induction fuel as [|fuel IH]; intros [|c s] lit l Hl.
  - by apply flush_vars.
  - cbn [compile_loop]. intros ->%Hl. by left.
  - by apply flush_vars.
  - cbn [compile_loop]. case_decide; [by apply IH |].
    destruct (reference s) as [[n r]|]; [|by apply IH]. apply IH.
    rewrite omap_app. intros [_ [=]]%app_nil.
Qed.

(** What callers skip evaluation for has no variable in it, and conversely. *)
Lemma literal_vars s : is_literal (compile s) = true ↔ vars (compile s) = [].
Proof.
  unfold is_literal, vars, compile. cbn [literal segs]. rewrite bool_decide_eq_true. split.
  - destruct (compile_loop _ _ _ _) as [|[t|v] [|g l]]; [done | done | | |]; by intros [? [=]].
  - intros H. destruct (compile_loop_vars _ _ _ _ (λ _, eq_refl) H) as [E|[t E]]; rewrite E; done.
Qed.

(** Compiling a template once is evaluating its text: every text has a
    reading as plain text, references and lone dollar signs, and rendering
    the compiled template gives, for every reading, the pieces' values in
    order - whatever the variables stand for. *)
Theorem template_spec src s :
  utf8_valid s = true →
  (∃ ps, readable ps ∧ print ps = s) ∧
  ∀ ps, readable ps → print ps = s → render src (compile s) = mjoin (piece_value src <$> ps).
Proof.
  intros Hv. split; [by apply (text_pieces (length s)) |].
  intros ps Hr <-. rewrite render_segs. by rewrite compile_pieces.
Qed.

Definition sample_vars : VarSource := λ v,
  match v with
  | Var.Host => str "example.com"
  | Var.Http h => if decide (h = str "user-agent") then str "curl/8" else []
  | Var.Capture i => if decide (i = 1) then str "cap1" else []
  | _ => []
  end.

Lemma template_spec_witness :
  render sample_vars (compile (str "${host}/$1: $http_user_agent, 5$")) =
  str "example.com/cap1: curl/8, 5$".
Proof.
  rewrite (proj2 (template_spec sample_vars (str "${host}/$1: $http_user_agent, 5$") eq_refl)
    [Braced (str "host"); Text (str "/"); Bare (str "1"); Text (str ": ");
     Bare (str "http_user_agent"); Text (str ", 5"); Dollar]); [reflexivity | | reflexivity].
  cbn [readable]. repeat split; try done; try by apply (bool_decide_unpack _).
  all: by repeat constructor.
Defined.
