(* ===== verification/Response.v ===== *)
(** * [src/http/response.rs], [src/http/status.rs], [src/server/reply.rs]:
    responses and what goes on the wire in front of them *)
From S2P Require Import Prelude.
From S2P Require Import Text.

Open Scope Z_scope.

(** ** [status.rs] *)

Definition lookup_code {A} (code : Z) (l : list (Z * A)) : option A :=
  snd <$> head (filter (λ p, fst p = code) l).

Definition CRLF : bytes := [x0d; x0a].

Definition status_lines : list (Z * bytes) :=
  [ (200, str "HTTP/1.1 200 OK"); (204, str "HTTP/1.1 204 No Content");
    (206, str "HTTP/1.1 206 Partial Content"); (301, str "HTTP/1.1 301 Moved Permanently");
    (302, str "HTTP/1.1 302 Found"); (304, str "HTTP/1.1 304 Not Modified");
    (307, str "HTTP/1.1 307 Temporary Redirect"); (308, str "HTTP/1.1 308 Permanent Redirect");
    (400, str "HTTP/1.1 400 Bad Request"); (403, str "HTTP/1.1 403 Forbidden");
    (404, str "HTTP/1.1 404 Not Found"); (405, str "HTTP/1.1 405 Not Allowed");
    (408, str "HTTP/1.1 408 Request Time-out"); (411, str "HTTP/1.1 411 Length Required");
    (413, str "HTTP/1.1 413 Request Entity Too Large");
    (414, str "HTTP/1.1 414 Request-URI Too Large");
    (416, str "HTTP/1.1 416 Requested Range Not Satisfiable");
    (421, str "HTTP/1.1 421 Misdirected Request"); (429, str "HTTP/1.1 429 Too Many Requests");
    (431, str "HTTP/1.1 431 Request Header Fields Too Large");
    (500, str "HTTP/1.1 500 Internal Server Error"); (501, str "HTTP/1.1 501 Not Implemented");
    (502, str "HTTP/1.1 502 Bad Gateway"); (503, str "HTTP/1.1 503 Service Temporarily Unavailable");
    (504, str "HTTP/1.1 504 Gateway Time-out");
    (505, str "HTTP/1.1 505 HTTP Version Not Supported") ].

Definition status_line (code : Z) : option bytes := (λ l, l ++ CRLF) <$> lookup_code code status_lines.

Definition reasons : list (Z * bytes) :=
  [ (100, str "Continue"); (101, str "Switching Protocols"); (102, str "Processing");
    (200, str "OK"); (201, str "Created"); (202, str "Accepted"); (204, str "No Content");
    (206, str "Partial Content"); (207, str "Multi-Status"); (301, str "Moved Permanently");
    (302, str "Found"); (303, str "See Other"); (304, str "Not Modified");
    (307, str "Temporary Redirect"); (308, str "Permanent Redirect"); (400, str "Bad Request");
    (401, str "Unauthorized"); (402, str "Payment Required"); (403, str "Forbidden");
    (404, str "Not Found"); (405, str "Not Allowed"); (406, str "Not Acceptable");
    (407, str "Proxy Authentication Required"); (408, str "Request Time-out");
    (409, str "Conflict"); (410, str "Gone"); (411, str "Length Required");
    (412, str "Precondition Failed"); (413, str "Request Entity Too Large");
    (414, str "Request-URI Too Large"); (415, str "Unsupported Media Type");
    (416, str "Requested Range Not Satisfiable"); (421, str "Misdirected Request");
    (422, str "Unprocessable Entity"); (429, str "Too Many Requests");
    (431, str "Request Header Fields Too Large"); (451, str "Unavailable For Legal Reasons");
    (500, str "Internal Server Error"); (501, str "Not Implemented"); (502, str "Bad Gateway");
    (503, str "Service Temporarily Unavailable"); (504, str "Gateway Time-out");
    (505, str "HTTP Version Not Supported"); (507, str "Insufficient Storage") ].

Definition reason (code : Z) : bytes :=
  match lookup_code code reasons with
  | Some r => r
  | None =>
      if decide (code / 100 = 1) then str "Informational"
      else if decide (code / 100 = 2) then str "OK"
      else if decide (code / 100 = 3) then str "Redirection"
      else if decide (code / 100 = 4) then str "Client Error"
      else str "Internal Server Error"
  end.

Definition is_bodyless (code : Z) : bool :=
  bool_decide (code = 204 ∨ code = 304) || bool_decide (100 ≤ code < 200).

Definition error_page (code : Z) (signature : option bytes) : bytes :=
  str "<html>" ++ CRLF ++ str "<head><title>" ++ fmt_u64 code ++ str " " ++ reason code ++
  str "</title></head>" ++ CRLF ++ str "<body>" ++ CRLF ++ str "<center><h1>" ++ fmt_u64 code ++
  str " " ++ reason code ++ str "</h1></center>" ++ CRLF ++
  match signature with
  | Some sig => str "<hr><center>" ++ sig ++ str "</center>" ++ CRLF
  | None => []
  end ++
  str "</body>" ++ CRLF ++ str "</html>" ++ CRLF.

(** ** [response.rs] *)

Inductive Framing := Length (n : Z) | Chunked | UntilClose | NoFraming.

#[export] Instance framing_eq_dec : EqDecision Framing.
Proof. solve_decision. Defined.

Inductive ServerTokens := TokensOn | TokensOff | TokensBuild.

(** A range of the arena. *)
Definition Range : Type := nat * nat.

Record Resp := mkResp {
  status : Z;
  arena : bytes;
  hdrs : list (Range * Range);
  framing : Framing;
  keep_alive : bool;
  body_bytes : Z
}.

Definition SERVER_NAME : bytes := str "oxiserve".
(** [CARGO_PKG_VERSION], the version line of [Cargo.toml]. *)
Definition VERSION : bytes := str "0.2.38".

Definition new : Resp := mkResp 200 [] [] NoFraming true 0.

(** The allocations stay, the contents go. *)
Definition reset (r : Resp) : Resp := mkResp 200 [] [] NoFraming true 0.

Definition with_status (s : Z) (r : Resp) : Resp :=
  mkResp s (arena r) (hdrs r) (framing r) (keep_alive r) (body_bytes r).
Definition with_framing (f : Framing) (r : Resp) : Resp :=
  mkResp (status r) (arena r) (hdrs r) f (keep_alive r) (body_bytes r).
Definition with_keep_alive (k : bool) (r : Resp) : Resp :=
  mkResp (status r) (arena r) (hdrs r) (framing r) k (body_bytes r).

(** [&self.arena[range]] *)
Definition text (r : Resp) (g : Range) : bytes := take (snd g - fst g) (drop (fst g) (arena r)).

(** [header], [header_with]: the value is what the callback appended. *)
Definition header (name value : bytes) (r : Resp) : Resp :=
  let ns := length (arena r) in
  let vs := (ns + length name)%nat in
  mkResp (status r) (arena r ++ name ++ value)
    (hdrs r ++ [((ns, vs), (vs, vs + length value)%nat)])
    (framing r) (keep_alive r) (body_bytes r).

(** [push_num]: twenty digits are room enough for a [u64]. *)
Fixpoint push_num_loop (fuel : nat) (n : Z) (buf : bytes) : bytes :=
  match fuel with
  | O => buf
  | S fuel => if bool_decide (0 < n) then push_num_loop fuel (n / 10) (of_u8 (48 + n mod 10) :: buf) else buf
  end.

Definition push_num (n : Z) : bytes := if bool_decide (n = 0) then str "0" else push_num_loop 20 n [].

Definition header_num (name : bytes) (value : Z) (r : Resp) : Resp := header name (push_num value) r.

Definition get (name : bytes) (r : Resp) : option bytes :=
  (λ p, text r (snd p)) <$>
    head (filter (λ p, eq_ignore_ascii_case (text r (fst p)) name = true) (hdrs r)).

Definition has (name : bytes) (r : Resp) : bool := bool_decide (is_Some (get name r)).

Definition remove (name : bytes) (r : Resp) : Resp :=
  mkResp (status r) (arena r)
    (filter (λ p, eq_ignore_ascii_case (text r (fst p)) name = false) (hdrs r))
    (framing r) (keep_alive r) (body_bytes r).

Definition set (name value : bytes) (r : Resp) : Resp := header name value (remove name r).

(** [iter] *)
Definition fields (r : Resp) : list (bytes * bytes) := (λ p, (text r (fst p), text r (snd p))) <$> hdrs r.

Definition field_line (f : bytes * bytes) : bytes := fst f ++ str ": " ++ snd f ++ CRLF.

(** The fields [write_head] puts in front of the handler's own; [date] is what
    [append_http_date] appends. *)
Definition server_field (tokens : ServerTokens) : bytes * bytes :=
  (str "Server",
   match tokens with TokensOn => SERVER_NAME ++ str "/" ++ VERSION | _ => SERVER_NAME end).

Definition framing_field (f : Framing) : list (bytes * bytes) :=
  match f with
  | Length n => [(str "Content-Length", push_num n)]
  | Chunked => [(str "Transfer-Encoding", str "chunked")]
  | UntilClose | NoFraming => []
  end.

Definition own_fields (tokens : ServerTokens) (date : bytes) (r : Resp) : list (bytes * bytes) :=
  (if has (str "server") r then [] else [server_field tokens]) ++
  (if has (str "date") r then [] else [(str "Date", date)]) ++
  framing_field (framing r) ++
  (if decide (status r ≠ 101)
   then [(str "Connection", if keep_alive r then str "keep-alive" else str "close")] else []).

Definition first_line (code : Z) : bytes :=
  match status_line code with
  | Some l => l
  | None => str "HTTP/1.1 " ++ push_num code ++ str " " ++ reason code ++ CRLF
  end.

Definition write_head (tokens : ServerTokens) (date : bytes) (r : Resp) : bytes :=
  first_line (status r) ++ mjoin (field_line <$> own_fields tokens date r) ++
  mjoin (field_line <$> fields r) ++ CRLF.

Definition signature (tokens : ServerTokens) : option bytes :=
  match tokens with
  | TokensOn => Some (SERVER_NAME ++ str "/" ++ VERSION)
  | TokensBuild => Some SERVER_NAME
  | TokensOff => None
  end.

(** ** [reply.rs]

    [File] and [Io] stand for descriptors and boxed streams. *)

Section reply.
  Context {File Io : Type}.

Inductive Body :=
  | Empty
  | Bytes (b : bytes)
  | Mmap (map : bytes) (start stop : nat)
  | Inline (file : File) (offset len : Z)
  | FileBody (file : File) (offset len : Z)
  | Stream (pre : bytes) (io : Io) (len : option Z)
  | Upgraded (pre : bytes) (io : Io) (idle : Z).

Definition known_len (b : Body) : option Z :=
  match b with
  | Empty => Some 0
  | Bytes b => Some (Z.of_nat (length b))
  | Mmap _ start stop => Some (Z.of_nat (stop - start))
  | Inline _ _ len | FileBody _ _ len => Some len
  | Stream _ _ len => len
  | Upgraded _ _ _ => None
  end.

Definition is_empty (b : Body) : bool := bool_decide (known_len b = Some 0).

Record Reply := mkReply { resp : Resp; body : Body }.

Definition frame (http11 : bool) (r : Reply) : Reply :=
  match body r with
  | Upgraded _ _ _ =>
      mkReply (with_keep_alive false (with_framing NoFraming (resp r))) (body r)
  | _ =>
      if is_bodyless (status (resp r)) then mkReply (with_framing NoFraming (resp r)) Empty
      else if decide (framing (resp r) ≠ NoFraming) then r
      else
        let f :=
          match known_len (body r) with
          | Some n => Length n
          | None => if http11 then Chunked else UntilClose
          end in
        mkReply (with_framing f (resp r)) (body r)
  end.

End reply.
Arguments Body : clear implicits.
Arguments Reply : clear implicits.

(** ** Status lines *)

Lemma push_num_fmt n : push_num n = fmt_u64 n.
Proof. done. Qed.

(** The materialised lines say what the formatter would have said. *)
Lemma status_lines_agree :
  Forall (λ p, snd p = str "HTTP/1.1 " ++ push_num (fst p) ++ str " " ++ reason (fst p)) status_lines.
Proof. repeat constructor. Qed.

Lemma lookup_code_elem {A} code (l : list (Z * A)) a : lookup_code code l = Some a → (code, a) ∈ l.
Proof.
  unfold lookup_code. destruct (head _) as [[c b]|] eqn:E; cbn; [|done]. intros [= ->].
  apply head_Some_elem_of, list_elem_of_filter in E as [E ?]. by cbn in E; subst.
Qed.

Lemma first_line_spec code :
  first_line code = str "HTTP/1.1 " ++ push_num code ++ str " " ++ reason code ++ CRLF.
Proof.
  unfold first_line, status_line. destruct (lookup_code code status_lines) as [l|] eqn:E; [|done].
  apply lookup_code_elem in E. pose proof status_lines_agree as H. rewrite Forall_forall in H.
  apply H in E. cbn [fst snd] in E. cbn. by rewrite E, <-!app_assoc.
Qed.

(** ** The arena as a list of fields *)

Definition range_ok (r : Resp) (g : Range) : Prop := (fst g ≤ snd g ≤ length (arena r))%nat.

Definition wf (r : Resp) : Prop := Forall (λ p, range_ok r (fst p) ∧ range_ok r (snd p)) (hdrs r).

Lemma get_fields name r :
  get name r = snd <$> head (filter (λ f, eq_ignore_ascii_case (fst f) name = true) (fields r)).
Proof.
  unfold get, fields. induction (hdrs r) as [|[n v] l IH]; [done |].
  rewrite fmap_cons_eq, !filter_cons. cbn [fst snd]. by case_decide.
Qed.

Lemma text_app a s g (r : Resp) :
  arena r = a → (fst g ≤ snd g ≤ length a)%nat →
  take (snd g - fst g) (drop (fst g) (a ++ s)) = text r g.
Proof.
  intros <- Hg. unfold text. rewrite drop_app_le by lia. by rewrite take_app_le by len_lia.
Qed.

Lemma middle (a b c : bytes) : take (length b) (drop (length a) (a ++ b ++ c)) = b.
Proof. by rewrite drop_app_length, take_app_length. Qed.

Lemma header_wf name value r : wf r → wf (header name value r).
Proof.
  unfold wf, range_ok. intros H. cbn [hdrs arena header]. apply Forall_app. split.
  - eapply Forall_impl; [apply H |]. intros p [Hn Hv]. rewrite !length_app. lia.
  - constructor; [|done]. cbn [fst snd]. len_lia.
Qed.

Lemma fields_header name value r : wf r → fields (header name value r) = fields r ++ [(name, value)].
Proof.
  intros H. unfold fields. cbn [hdrs header]. rewrite fmap_app. f_equal.
  - apply list_fmap_ext. intros i p Hp. apply (Forall_lookup_1 _ _ _ _ H) in Hp as [Hn Hv].
    unfold text. cbn [arena header]. by rewrite !(text_app _ _ _ r eq_refl).
  - cbn [fmap list_fmap fst snd]. unfold text. cbn [arena header fst snd].
    replace (_ + _ - length (arena r))%nat with (length name) by lia. rewrite middle.
    rewrite <-length_app. pose proof (middle (arena r ++ name) value []) as E.
    rewrite app_nil_r, <-app_assoc in E. replace (_ + _ - _)%nat with (length value) by lia.
    by rewrite E.
Qed.

Lemma remove_wf name r : wf r → wf (remove name r).
Proof.
  unfold wf, range_ok. cbn [hdrs arena remove]. rewrite !Forall_forall.
  intros H p [_ Hp]%list_elem_of_filter. by apply H.
Qed.

Lemma remove_fields name r :
  fields (remove name r) = filter (λ f, eq_ignore_ascii_case (fst f) name = false) (fields r).
Proof.
  unfold fields, remove. cbn [hdrs arena]. induction (hdrs r) as [|[n v] l IH]; [done |].
  rewrite fmap_cons_eq, !filter_cons. cbn [fst snd]. change (text (mkResp _ _ _ _ _ _)) with (text r) in *.
  case_decide; [|done]. rewrite fmap_cons_eq. by f_equal.
Qed.

(** The sequences of calls that build a response. *)
Inductive op := Header (name value : bytes) | HeaderNum (name : bytes) (n : Z) | SetField (name value : bytes)
  | Remove (name : bytes) | Reset | Status (s : Z) | SetFraming (f : Framing) | KeepAlive (k : bool).

Definition run (r : Resp) (o : op) : Resp :=
  match o with
  | Header n v => header n v r
  | HeaderNum n v => header_num n v r
  | SetField n v => set n v r
  | Remove n => remove n r
  | Reset => reset r
  | Status s => with_status s r
  | SetFraming f => with_framing f r
  | KeepAlive k => with_keep_alive k r
  end.

(** What they mean: a list of fields, in order, names compared without case. *)
Definition other (name : bytes) (f : bytes * bytes) : Prop := lowercase (fst f) ≠ lowercase name.

Definition run_spec (l : list (bytes * bytes)) (o : op) : list (bytes * bytes) :=
  match o with
  | Header n v => l ++ [(n, v)]
  | HeaderNum n v => l ++ [(n, fmt_u64 v)]
  | SetField n v => filter (other n) l ++ [(n, v)]
  | Remove n => filter (other n) l
  | Reset => []
  | _ => l
  end.

Lemma remove_other name (l : list (bytes * bytes)) :
  filter (λ f, eq_ignore_ascii_case (fst f) name = false) l = filter (other name) l.
Proof.
  apply list_filter_iff. intros f. unfold other.
  rewrite <-eq_ignore_ascii_case_spec. by destruct (eq_ignore_ascii_case _ _).
Qed.

Lemma run_refines r o : wf r → wf (run r o) ∧ fields (run r o) = run_spec (fields r) o.
Proof.
  intros H. destruct o; cbn [run run_spec]; try (split; [exact H | reflexivity]).
  - split; [by apply header_wf | by apply fields_header].
  - split; [by apply header_wf | by apply fields_header].
  - unfold set. split; [by apply header_wf, remove_wf |].
    by rewrite fields_header, remove_fields, remove_other by by apply remove_wf.
  - split; [by apply remove_wf |]. by rewrite remove_fields, remove_other.
  - split; [apply Forall_nil_2 | reflexivity].
Qed.

(** C17. The arena refines a list of fields: after any calls on a new response
    every recorded range lies within the arena, the fields are exactly what
    the calls put in, in order, and a lookup finds the first of a name,
    whatever its case. *)
Theorem arena_refines_fields ops name :
  let r := foldl run new ops in
  let l := foldl run_spec [] ops in
  wf r ∧ fields r = l ∧
  get name r = snd <$> head (filter (λ f, lowercase (fst f) = lowercase name) l).
Proof.
  cbn zeta. assert (∀ r, wf r →
    wf (foldl run r ops) ∧ fields (foldl run r ops) = foldl run_spec (fields r) ops) as H.
  { induction ops as [|o ops IH]; intros r Hr; [done |]. cbn [foldl].
    destruct (run_refines r o Hr) as [Hw <-]. by apply IH. }
  destruct (H new (Forall_nil_2 _)) as [Hw Hf]. split; [done |]. split; [done |].
  rewrite get_fields, Hf. do 2 f_equal. apply list_filter_iff. intros f.
  apply eq_ignore_ascii_case_spec.
Qed.

(** ** What a client reads

    A reader of RFC 9112 messages: the lines up to an empty one, then the
    body the fields announce. *)

Definition read_field (line : bytes) : option (bytes * bytes) :=
  '(n, v) ← split_once ":"%byte line;
  v ← strip_prefix (str " ") v;
  Some (n, v).

Fixpoint read_fields (fuel : nat) (s : bytes) : option (list (bytes * bytes) * bytes) :=
  match fuel with
  | O => None
  | S fuel =>
      '(line, rest) ← split_once_str CRLF s;
      if decide (line = []) then Some ([], rest)
      else
        f ← read_field line;
        '(fs, body) ← read_fields fuel rest;
        Some (f :: fs, body)
  end.

Definition read_code (line : bytes) : option Z :=
  '(_, r) ← split_once " "%byte line;
  '(c, _) ← split_once " "%byte r;
  parse_uint 65535 c.

Definition field_of (name : bytes) (fs : list (bytes * bytes)) : option bytes :=
  snd <$> head (filter (λ f, lowercase (fst f) = lowercase name) fs).

(** The status, the fields, the body and what follows it. *)
Definition read_response (s : bytes) : option (Z * list (bytes * bytes) * bytes * bytes) :=
  '(line, r) ← split_once_str CRLF s;
  code ← read_code line;
  '(fs, r) ← read_fields (length r) r;
  if is_bodyless code then Some (code, fs, [], r)
  else
    n ← field_of (str "content-length") fs;
    n ← parse_uint u64_max n;
    if decide (length r < Z.to_nat n)%nat then None
    else Some (code, fs, take (Z.to_nat n) r, drop (Z.to_nat n) r).

Definition clean_name (n : bytes) : Prop := n ≠ [] ∧ x0d ∉ n ∧ ":"%byte ∉ n.
Definition clean (f : bytes * bytes) : Prop := clean_name (fst f) ∧ x0d ∉ snd f.

Lemma read_field_line n v : ":"%byte ∉ n → read_field (n ++ str ": " ++ v) = Some (n, v).
Proof.
  intros Hn. unfold read_field. change (str ": " ++ v) with (":"%byte :: str " " ++ v).
  rewrite split_once_app by done. cbn [mbind option_bind].
  by rewrite (proj2 (strip_prefix_Some (str " ") _ v) eq_refl).
Qed.

Lemma split_line l s : x0d ∉ l → split_once_str CRLF (l ++ CRLF ++ s) = Some (l, s).
Proof. apply (split_once_str_app x0d [x0a]). Qed.

Lemma read_fields_lines fs body : ∀ fuel,
  Forall clean fs → (length fs < fuel)%nat →
  read_fields fuel (mjoin (field_line <$> fs) ++ CRLF ++ body) = Some (fs, body).
Proof.
  induction fs as [|[n v] fs IH]; intros [|fuel] Hc Hf; try (cbn in Hf; lia).
  - pose proof (split_line [] body (not_elem_of_nil _)) as E. cbn [app] in E.
    change (mjoin _ ++ CRLF ++ body) with (CRLF ++ body). cbn [read_fields]. by rewrite E.
  - apply Forall_cons in Hc as [[(Hne & Hr & Hcol) Hv] Hc]. cbn [fst snd] in *.
    rewrite fmap_cons_eq, join_cons, <-app_assoc. unfold field_line at 1. cbn [fst snd].
    replace ((n ++ str ": " ++ v ++ CRLF) ++ mjoin (field_line <$> fs) ++ CRLF ++ body)
      with ((n ++ str ": " ++ v) ++ CRLF ++ mjoin (field_line <$> fs) ++ CRLF ++ body)
      by by rewrite <-!app_assoc.
    cbn [read_fields]. rewrite split_line.
    + cbn [mbind option_bind]. rewrite decide_False by by destruct n.
      rewrite read_field_line by done. cbn [mbind option_bind]. cbn [length] in Hf.
      by rewrite IH by (done || lia).
    + rewrite !not_elem_of_app. split; [done |]. split; [|done]. by apply (bool_decide_unpack _).
Qed.

Lemma digits_no (c : byte) n : 0 ≤ n → is_ascii_digit c = false → c ∉ fmt_u64 n.
Proof.
  intros Hn Hc Hin. pose proof (fmt_u64_digits n Hn) as H. rewrite Forall_forall in H.
  apply H in Hin. congruence.
Qed.

Lemma reason_clean code : x0d ∉ reason code.
Proof.
  unfold reason. destruct (lookup_code code reasons) as [r|] eqn:E.
  - apply lookup_code_elem in E.
    assert (forallb (λ p, negb (existsb (λ c, Byte.eqb c x0d) (snd p))) reasons = true) as H by done.
    rewrite forallb_forall in H. apply list_elem_of_In, H in E. cbn [snd] in E.
    intros Hin%list_elem_of_In. apply negb_true_iff in E. revert E. apply not_false_iff_true.
    apply existsb_exists. by exists x0d.
  - repeat case_decide; by apply (bool_decide_unpack _).
Qed.

Lemma read_code_line code :
  0 ≤ code ≤ 65535 → read_code (str "HTTP/1.1 " ++ push_num code ++ str " " ++ reason code) = Some code.
Proof.
  intros Hc. unfold read_code.
  change (str "HTTP/1.1 " ++ ?x) with (str "HTTP/1.1" ++ " "%byte :: x).
  rewrite split_once_app by by apply (bool_decide_unpack _). cbn [mbind option_bind].
  change (str " " ++ ?x) with (" "%byte :: x). rewrite push_num_fmt.
  rewrite split_once_app by (apply digits_no; [lia | done]). cbn [mbind option_bind].
  apply parse_fmt_u64; lia.
Qed.

Lemma own_fields_clean tokens date r :
  x0d ∉ date → (∀ n, framing r = Length n → 0 ≤ n) → Forall clean (own_fields tokens date r).
Proof.
  intros Hd Hn. unfold own_fields. rewrite !Forall_app. split_and!.
  - destruct (has _ r); [done |]. constructor; [|done].
    destruct tokens; by apply (bool_decide_unpack _).
  - destruct (has _ r); [done |]. constructor; [|done]. split; [by apply (bool_decide_unpack _) | done].
  - destruct (framing r) as [n| | |]; try constructor; try done; try by apply (bool_decide_unpack _).
    split; [by apply (bool_decide_unpack _) |]. cbn [snd]. rewrite push_num_fmt.
    apply digits_no; [by apply Hn | done].
  - case_decide; [|done]. constructor; [|done]. destruct (keep_alive r); by apply (bool_decide_unpack _).
Qed.

Lemma field_lines_length fs : (length fs ≤ length (mjoin (field_line <$> fs)))%nat.
Proof.
  induction fs as [|f fs IH]; [done |]. rewrite fmap_cons_eq, join_cons, length_app.
  unfold field_line at 1. rewrite !length_app. change (length CRLF) with 2%nat. cbn [length]. lia.
Qed.

(** Reading a head that [write_head] wrote. *)
Lemma head_reads_back tokens date r rest :
  0 ≤ status r ≤ 65535 → Forall clean (fields r) → x0d ∉ date →
  (∀ n, framing r = Length n → 0 ≤ n) →
  ∃ h, split_once_str CRLF (write_head tokens date r ++ rest) =
    Some (str "HTTP/1.1 " ++ push_num (status r) ++ str " " ++ reason (status r), h) ∧
    read_fields (length h) h = Some (own_fields tokens date r ++ fields r, rest).
Proof.
  intros Hs Hf Hd Hn. unfold write_head. rewrite first_line_spec.
  exists (mjoin (field_line <$> own_fields tokens date r ++ fields r) ++ CRLF ++ rest). split.
  - rewrite fmap_app, join_app. rewrite <-(split_line (str "HTTP/1.1 " ++ _)).
    + by rewrite <-!app_assoc.
    + rewrite !not_elem_of_app. split; [by apply (bool_decide_unpack _) |]. split.
      { rewrite push_num_fmt. apply digits_no; [lia | done]. }
      split; [by apply (bool_decide_unpack _) | apply reason_clean].
  - apply read_fields_lines.
    + apply Forall_app. split; [by apply own_fields_clean | done].
    + set (fs := _ ++ fields r). rewrite length_app, (length_app CRLF).
      change (length CRLF) with 2%nat.
      pose proof (field_lines_length fs). lia.
Qed.

(** *** Framing *)

Section framing.
  Context {File Io : Type}.
  Implicit Type (b : Body File Io) (r : Reply File Io).

(** The bytes of a body held in memory. *)
Definition memory (b : Body File Io) : option bytes :=
  match b with
  | Empty => Some []
  | Bytes b => Some b
  | Mmap m start stop => Some (take (stop - start) (drop start m))
  | _ => None
  end.

Definition mapped (b : Body File Io) : Prop :=
  match b with Mmap m start stop => (start ≤ stop ≤ length m)%nat | _ => True end.

Lemma memory_len b w : mapped b → memory b = Some w → known_len b = Some (Z.of_nat (length w)).
Proof.
  destruct b; cbn; intros Hm [= <-]; try done. do 2 f_equal. len_lia.
Qed.

Lemma frame_memory http11 r w :
  mapped (body r) → memory (body r) = Some w → framing (resp r) = NoFraming →
  let r' := frame http11 r in
  if is_bodyless (status (resp r))
  then framing (resp r') = NoFraming ∧ memory (body r') = Some []
  else framing (resp r') = Length (Z.of_nat (length w)) ∧ memory (body r') = Some w.
Proof.
  intros Hm Hw Hf. cbn zeta. pose proof (memory_len _ _ Hm Hw) as Hl.
  assert (frame http11 r =
    if is_bodyless (status (resp r)) then mkReply (with_framing NoFraming (resp r)) Empty
    else mkReply (with_framing (Length (Z.of_nat (length w))) (resp r)) (body r)) as ->.
  { unfold frame. destruct (body r); try done; destruct (is_bodyless _); try done;
      rewrite decide_False by auto; by rewrite Hl. }
  by destruct (is_bodyless _).
Qed.

Lemma frame_resp http11 r :
  status (resp (frame http11 r)) = status (resp r) ∧ fields (resp (frame http11 r)) = fields (resp r).
Proof. unfold frame. destruct (body r); by repeat case_match. Qed.

Lemma own_length tokens date (q : Resp) fs n :
  framing q = Length n → field_of (str "content-length") (own_fields tokens date q ++ fs) = Some (push_num n).
Proof.
  intros Hn. unfold field_of, own_fields. rewrite Hn. 
  destruct (has (str "server") q), (has (str "date") q); reflexivity.
Qed.

(** A head that announces what follows it is read back with it. *)
Lemma response_reads tokens date (q : Resp) w next :
  0 ≤ status q ≤ 65535 → Forall clean (fields q) → x0d ∉ date → Z.of_nat (length w) ≤ u64_max →
  (if is_bodyless (status q) then framing q = NoFraming ∧ w = [] else framing q = Length (Z.of_nat (length w))) →
  read_response (write_head tokens date q ++ w ++ next) =
  Some (status q, own_fields tokens date q ++ fields q, w, next).
Proof.
  intros Hs Hf Hd Hl Hfr. destruct (head_reads_back tokens date q (w ++ next) Hs Hf Hd) as (h & E1 & E2).
  { intros n. destruct (is_bodyless _); [by destruct Hfr as [-> _] |]. rewrite Hfr. intros [= <-]. lia. }
  unfold read_response. rewrite E1. cbn [mbind option_bind]. rewrite read_code_line by done.
  cbn [mbind option_bind]. rewrite E2. cbn [mbind option_bind].
  destruct (is_bodyless (status q)); [by destruct Hfr as [_ ->] |].
  rewrite (own_length _ _ _ _ _ Hfr). cbn [mbind option_bind].
  rewrite push_num_fmt, parse_fmt_u64 by (unfold u64_max in *; lia). cbn [mbind option_bind]. rewrite Nat2Z.id.
  unfold id. rewrite decide_False by (rewrite length_app; lia). by rewrite take_app_length, drop_app_length.
Qed.

(** A response is read back as it was meant: for every reply whose fields
    are single lines and whose body is in memory, a client that reads the head
    and then as many bytes as it announces gets the status, the server's own
    fields and the handler's in order, and exactly the body - none for a
    status that allows none - and what follows on the connection is left where
    the next response begins. *)
Theorem response_reads_back tokens date http11 r w next :
  0 ≤ status (resp r) ≤ 65535 → Forall clean (fields (resp r)) → x0d ∉ date →
  framing (resp r) = NoFraming → mapped (body r) → memory (body r) = Some w →
  Z.of_nat (length w) ≤ u64_max →
  let r' := frame http11 r in
  let bodyless := is_bodyless (status (resp r)) in
  read_response (write_head tokens date (resp r') ++ default [] (memory (body r')) ++ next) =
  Some (status (resp r), own_fields tokens date (resp r') ++ fields (resp r),
        (if bodyless then [] else w), next).
Proof.
  intros Hs Hf Hd Hn Hm Hw Hl. cbn zeta. pose proof (frame_memory http11 r w Hm Hw Hn) as H. cbn zeta in H.
  destruct (frame_resp http11 r) as [Es Ef]. rewrite <-Es, <-Ef in *.
  destruct (is_bodyless _) eqn:Eb; destruct H as [Hfr Hmem]; rewrite Hmem; cbn [default];
    apply response_reads; try done; rewrite Eb; done || (cbn; unfold u64_max; lia).
Qed.

End framing.

Definition sample_reply : Reply unit unit :=
  mkReply (header (str "Content-Type") (str "text/plain") (header (str "X-A") [] (with_status 404 new)))
    (Bytes (str "gone")).

Lemma response_reads_back_witness :
  read_response (write_head TokensOff (str "now") (resp (frame true sample_reply)) ++ str "gone" ++ str "HTTP/") =
  Some (404, [(str "Server", str "oxiserve"); (str "Date", str "now"); (str "Content-Length", str "4");
    (str "Connection", str "keep-alive"); (str "X-A", []); (str "Content-Type", str "text/plain")],
    str "gone", str "HTTP/").
Proof.
  apply (response_reads_back TokensOff (str "now") true sample_reply (str "gone") (str "HTTP/")).
  - cbn. lia.
  - by apply (bool_decide_unpack _).
  - by apply (bool_decide_unpack _).
  - reflexivity.
  - exact I.
  - reflexivity.
  - unfold u64_max. cbn. lia.
Defined.
