(* ===== verification/Model.v ===== *)
(** * [src/config/model.rs]: what the server does

    The configuration after it is built, as the request path reads it. A
    [Duration] is a number of milliseconds, a path is its bytes, and compiled
    regular expressions are of a type the regex crate provides. Fields under
    the [modsecurity] feature, off by default, are left out. *)
From S2P Require Import Prelude.
From S2P Require Import Text.
From S2P Require Import Vars.
From S2P Require Import Response.
From S2P Require Import Matching.
From S2P Require Cache.

Open Scope Z_scope.

Definition Duration := Z.

Record OpenFileCache := mkOpenFileCache {
  ofc_enabled : bool;
  ofc_max : Z;
  ofc_inactive : Duration;
  ofc_valid : Duration;
  ofc_min_uses : Z;
  ofc_errors : bool
}.

Definition default_open_file_cache : OpenFileCache := mkOpenFileCache false 0 60000 60000 1 false.

(** One [limit_req]: burst and delay are scaled by 1000. *)
Record LimitReq := mkLimitReq { lr_zone : bytes; burst : Z; nodelay : bool; delay_after : Z }.
Record LimitConn := mkLimitConn { lc_zone : bytes; lc_limit : Z }.

Record CacheValid := mkCacheValid { cv_codes : list Z; ttl : Duration }.

Record ProxyCacheConf := mkProxyCacheConf {
  pc_zone : option bytes;
  pc_key : Template;
  pc_valid : list CacheValid;
  pc_methods : list bytes;
  pc_min_uses : Z;
  pc_bypass : list Template;
  pc_no_cache : list Template;
  pc_use_stale : list Cache.StaleWhen;
  pc_lock : bool;
  pc_lock_timeout : Duration
}.

Definition default_proxy_cache : ProxyCacheConf :=
  mkProxyCacheConf None (compile (str "$scheme$proxy_host$request_uri")) []
    [str "GET"; str "HEAD"] 1 [] [] [] false 5000.

Inductive IfModifiedSince := ImsOff | ImsExact | ImsBefore.

Record GzipConf := mkGzipConf {
  gz_enabled : bool;
  gz_level : Z;
  gz_min_length : Z;
  gz_types : list bytes;
  gz_vary : bool;
  gz_proxied_any : bool;
  gz_http_version_1_0 : bool;
  gz_disable_msie6 : bool
}.

Definition default_gzip : GzipConf := mkGzipConf false 1 20 [str "text/html"] false false false false.

Record AddHeader := mkAddHeader { ah_name : bytes; ah_value : Template; always : bool }.

Inductive Expires := ExpiresOff | Epoch | Max | Secs (s : Z) | Daily (s : Z).

Record NextUpstream := mkNextUpstream {
  nu_error : bool;
  nu_timeout : bool;
  nu_invalid_header : bool;
  nu_statuses : list Z;
  nu_non_idempotent : bool;
  nu_off : bool
}.

Definition default_next_upstream : NextUpstream := mkNextUpstream true true false [] false false.

Record ProxyConf := mkProxyConf {
  p_connect_timeout : option Duration;
  p_read_timeout : option Duration;
  p_send_timeout : option Duration;
  p_set_headers : list (bytes * Template);
  p_hide_headers : list bytes;
  p_pass_headers : list bytes;
  p_buffering : bool;
  p_http_version_11 : bool;
  p_next_upstream : NextUpstream;
  p_next_upstream_tries : Z;
  p_next_upstream_timeout : Duration;
  p_ssl_server_name : bool;
  p_set_body : option Template
}.

(** Where an [access_log] writes: a file, or an OxiDB collector. *)
Inductive LogSink := LogFile (path : bytes) | OxiDb (server : bytes) (db : option bytes).

Record AccessLogConf := mkAccessLogConf {
  al_sink : LogSink;
  al_format : Template;
  al_buffer : Z;
  al_flush : option Duration
}.

Record FastCgiParam := mkFastCgiParam { fp_name : bytes; fp_value : Template; if_not_empty : bool }.

Section model.
  Context {Regex : Type}.

Record FastCgiConf := mkFastCgiConf {
  f_params : list FastCgiParam;
  f_index : option bytes;
  f_split_path_info : option Regex;
  f_connect_timeout : option Duration;
  f_read_timeout : option Duration;
  f_send_timeout : option Duration;
  f_keep_conn : bool;
  f_hide_headers : list bytes;
  f_buffering : bool;
  f_buffer_budget : Z
}.

Definition default_fastcgi : FastCgiConf := mkFastCgiConf [] None None None None None false [] true (64 * 1024).

(** [CoreConf]: the directives that inherit. *)
Record CoreConf := mkCoreConf {
  root : Template;
  alias : option Template;
  index : list Template;
  autoindex : bool;
  default_type : bytes;
  charset : option bytes;
  sendfile : bool;
  tcp_nopush : bool;
  tcp_nodelay : bool;
  keepalive_timeout : Duration;
  keepalive_requests : Z;
  client_header_timeout : Duration;
  client_body_timeout : Duration;
  send_timeout : Duration;
  client_max_body_size : Z;
  client_header_buffer_size : Z;
  large_client_header_buffers : Z * Z;
  server_tokens : ServerTokens;
  etag : bool;
  msie_padding : bool;
  gzip : GzipConf;
  add_headers : list AddHeader;
  expires : option Expires;
  proxy : ProxyConf;
  output_buffers : Z * Z;
  directio : option Z;
  log_not_found : bool;
  absolute_redirect : bool;
  port_in_redirect : bool;
  server_name_in_redirect : bool;
  if_modified_since : IfModifiedSince;
  max_ranges : option Z;
  limit_rate : Z;
  limit_rate_after : Z;
  satisfy_any : bool;
  internal : bool;
  auth_request : option bytes;
  auth_request_set : list (bytes * Template);
  open_file_cache : OpenFileCache;
  fastcgi : FastCgiConf;
  proxy_cache : ProxyCacheConf;
  limit_reqs : list LimitReq;
  limit_req_status : Z;
  limit_conns : list LimitConn;
  limit_conn_status : Z;
  limit_conn_dry_run : bool
}.

Inductive ProxyTarget :=
  | ToUpstream (name : bytes)
  | ToAddr (host : bytes) (port : Z)
  | ToUnix (path : bytes)
  | Dynamic (t : Template).

Record ProxyPass := mkProxyPass { target : ProxyTarget; pass_uri : option Template; tls : bool }.

Inductive Action :=
  | Static
  | Return (status : Z) (body : option Template)
  | Proxy (p : ProxyPass)
  | FastCgi (target : ProxyTarget)
  | StubStatus (json : bool)
  | NoAction.

Inductive TryFallback := FallStatus (s : Z) | FallUri (t : Template) | FallNamed (n : bytes).

Record TryFiles := mkTryFiles { tf_items : list Template; tf_fallback : TryFallback }.

Inductive RewriteFlag := NoFlag | Last | Break | Redirect | Permanent.

Record Rewrite := mkRewrite { re : Regex; replacement : Template; rw_flag : RewriteFlag }.

Inductive Cond :=
  | Always
  | Truthy (v : Var.Var)
  | CondEq (v : Var.Var) (t : Template)
  | CondNe (v : Var.Var) (t : Template)
  | CondMatch (var : Var.Var) (re : Regex) (negate : bool)
  | FileExists (t : Template) (negate : bool)
  | DirExists (t : Template) (negate : bool)
  | AnyExists (t : Template) (negate : bool)
  | Executable (t : Template) (negate : bool).

Inductive IfAction :=
  | IfReturn (status : Z) (body : option Template)
  | IfRewrite (r : Rewrite)
  | IfSet (var : bytes) (value : Template)
  | IfAddHeader (h : AddHeader)
  | IfBreak.

Record IfBlock := mkIfBlock { cond : Cond; actions : list IfAction }.

Inductive ErrorTarget := ErrUri (t : Template) | ErrNamed (n : bytes) | ErrRedirect (t : Template).

Record ErrorPage := mkErrorPage {
  ep_codes : list Z;
  replace_status : option Z;
  ep_target : ErrorTarget
}.

(** What a [Location] has besides its matcher and line. *)
Inductive LocConf := mkLocConf {
  core : CoreConf;
  action : Action;
  try_files : option TryFiles;
  rewrites : list Rewrite;
  ifs : list IfBlock;
  error_pages : list ErrorPage;
  access_logs : list AccessLogConf;
  nested : option (LocSet (Regex := Regex) (Conf := LocConf));
  allowed_methods : option (list bytes)
}.

(** The server block; [names] is with its matcher in [Matching.ServerConf]. *)
Record Srv := mkSrv {
  s_core : CoreConf;
  s_locations : LocSet (Regex := Regex) (Conf := LocConf);
  s_rewrites : list Rewrite;
  s_ifs : list IfBlock;
  s_error_pages : list ErrorPage;
  s_access_logs : list AccessLogConf;
  s_action : Action;
  alt_svc : option bytes
}.

(** [build.rs]: the configuration above every block. *)
Definition default_proxy : ProxyConf :=
  mkProxyConf (Some 60000) (Some 60000) (Some 60000) [] [] [] true false default_next_upstream 0 0
    false None.

Definition default_core : CoreConf :=
  mkCoreConf (compile (str "html")) None [compile (str "index.html")] false (str "text/plain") None
    false false true 75000 1000 60000 60000 60000 (1024 * 1024) 1024 (4, 8192) TokensOn true true
    default_gzip [] None default_proxy (2, 32768) None true true true false ImsExact None 0 0 false
    false None [] default_open_file_cache default_fastcgi default_proxy_cache [] 503 [] 503 false.

(** A compiled [map $in $out { ... }]; the table of exact keys is an
    association list with distinct keys. *)
Record MapConf := mkMapConf {
  source : Var.Var;
  map_target : bytes;
  map_exact : list (bytes * Template);
  wildcards : list (bytes * Template * bool);
  regexes : list (Regex * Template);
  map_default : option Template;
  hostnames : bool
}.

(** How deeply locations are nested. *)
Fixpoint depth (c : LocConf) : nat :=
  match nested c with
  | None => 0
  | Some s =>
      let deepest := foldr (λ l n, max (S (depth (payload l))) n) 0%nat in
      max (deepest (exact s)) (max (deepest (prefix s)) (deepest (regex s)))
  end.

End model.

Arguments CoreConf : clear implicits.
Arguments FastCgiConf : clear implicits.
Arguments LocConf : clear implicits.
Arguments Srv : clear implicits.
Arguments MapConf : clear implicits.
Arguments Rewrite : clear implicits.
Arguments Cond : clear implicits.
Arguments IfAction : clear implicits.
Arguments IfBlock : clear implicits.

Abbreviation Loc R := (Location (Regex := R) (Conf := LocConf R)).
Abbreviation Locs R := (LocSet (Regex := R) (Conf := LocConf R)).
