(* ===== verification/Ctx.v ===== *)
(** * [src/server/ctx.rs]: the request's context and its variables *)
From S2P Require Import Prelude.
From S2P Require Import Text.
From S2P Require Import Vars.
From S2P Require Import Response.
From S2P Require Import Matching.
From S2P Require Import Model.
From S2P Require Request.
From S2P Require Uri.
From S2P Require Cache.

Open Scope Z_scope.

(** ** The context *)

(** A V6 address is the text the standard library gives it. *)
Inductive SocketAddr := V4 (a b c d : Z) (p : Z) | V6 (ip : bytes) (p : Z).

Definition port (a : SocketAddr) : Z := match a with V4 _ _ _ _ p | V6 _ p => p end.

(** What the operating system and the clock answer, times in milliseconds. The
    last field is what a run goes on with behind a variable that has used up
    the stack: the process is gone by then, nothing is known of it, and what is
    claimed of an answer is claimed where no variable does ([Handler.rooted]). *)
Record Env := mkEnv {
  env_hostname : bytes;
  env_pid : Z;
  env_now : Z;
  env_elapsed : Z;
  env_time_local : bytes;
  env_time_iso8601 : bytes;
  env_lost : Var.Var → bytes
}.

Section ctx.
  Context {Regex : Type} (is_match : Regex → bytes → bool).

(** [Ctx]; the guards of [limit_conn] are counted by the handler. *)
Record Ctx := mkCtx {
  buf : bytes;
  req : Request.Req;
  req_body : bytes;
  maps : list (MapConf Regex);
  server : ServerConf (HostRegex := Regex) (Server := Srv Regex);
  uri : bytes;
  args : bytes;
  captures : list bytes;
  set_vars : list (bytes * bytes);
  remote : option SocketAddr;
  local : option SocketAddr;
  scheme : bytes;
  conn_id : Z;
  conn_requests : Z;
  document_root : bytes;
  filename : bytes;
  fastcgi_script_name : bytes;
  fastcgi_path_info : bytes;
  upstream_addr : bytes;
  upstream_status : Z;
  cache_status : option Cache.CacheStatus;
  upstream_time : Z;
  redirects : Z;
  upstream_headers : list (bytes * bytes);
  auth_depth : Z;
  matched : option (Loc Regex)
}.

(** Assignments to one field. *)
Definition put_uri (v : bytes) (c : Ctx) : Ctx :=
  mkCtx (buf c) (req c) (req_body c) (maps c) (server c) v (args c) (captures c)
    (set_vars c) (remote c) (local c) (scheme c) (conn_id c) (conn_requests c)
    (document_root c) (filename c) (fastcgi_script_name c) (fastcgi_path_info c)
    (upstream_addr c) (upstream_status c) (cache_status c) (upstream_time c) (redirects c)
    (upstream_headers c) (auth_depth c) (matched c).
Definition put_args (v : bytes) (c : Ctx) : Ctx :=
  mkCtx (buf c) (req c) (req_body c) (maps c) (server c) (uri c) v (captures c) (set_vars c)
    (remote c) (local c) (scheme c) (conn_id c) (conn_requests c) (document_root c)
    (filename c) (fastcgi_script_name c) (fastcgi_path_info c) (upstream_addr c)
    (upstream_status c) (cache_status c) (upstream_time c) (redirects c)
    (upstream_headers c) (auth_depth c) (matched c).
Definition put_captures (v : list bytes) (c : Ctx) : Ctx :=
  mkCtx (buf c) (req c) (req_body c) (maps c) (server c) (uri c) (args c) v (set_vars c)
    (remote c) (local c) (scheme c) (conn_id c) (conn_requests c) (document_root c)
    (filename c) (fastcgi_script_name c) (fastcgi_path_info c) (upstream_addr c)
    (upstream_status c) (cache_status c) (upstream_time c) (redirects c)
    (upstream_headers c) (auth_depth c) (matched c).
Definition put_set_vars (v : list (bytes * bytes)) (c : Ctx) : Ctx :=
  mkCtx (buf c) (req c) (req_body c) (maps c) (server c) (uri c) (args c) (captures c) v (remote c) (local
    c) (scheme c) (conn_id c) (conn_requests c) (document_root c) (filename c)
    (fastcgi_script_name c) (fastcgi_path_info c) (upstream_addr c) (upstream_status c)
    (cache_status c) (upstream_time c) (redirects c) (upstream_headers c) (auth_depth c)
    (matched c).
Definition put_redirects (v : Z) (c : Ctx) : Ctx :=
  mkCtx (buf c) (req c) (req_body c) (maps c) (server c) (uri c) (args c) (captures c)
    (set_vars c) (remote c) (local c) (scheme c) (conn_id c) (conn_requests c)
    (document_root c) (filename c) (fastcgi_script_name c) (fastcgi_path_info c)
    (upstream_addr c) (upstream_status c) (cache_status c) (upstream_time c) v
    (upstream_headers c) (auth_depth c) (matched c).
Definition put_upstream_headers (v : list (bytes * bytes)) (c : Ctx) : Ctx :=
  mkCtx (buf c) (req c) (req_body c) (maps c) (server c) (uri c) (args c) (captures c) (set_vars c) (remote
    c) (local c) (scheme c) (conn_id c) (conn_requests c) (document_root c) (filename c)
    (fastcgi_script_name c) (fastcgi_path_info c) (upstream_addr c) (upstream_status c)
    (cache_status c) (upstream_time c) (redirects c) v (auth_depth c) (matched c).
Definition put_matched (v : option (Loc Regex)) (c : Ctx) : Ctx :=
  mkCtx (buf c) (req c) (req_body c) (maps c) (server c) (uri c) (args c) (captures c) (set_vars c) (remote
    c) (local c) (scheme c) (conn_id c) (conn_requests c) (document_root c) (filename c)
    (fastcgi_script_name c) (fastcgi_path_info c) (upstream_addr c) (upstream_status c)
    (cache_status c) (upstream_time c) (redirects c) (upstream_headers c) (auth_depth c) v.
Definition put_auth_depth (v : Z) (c : Ctx) : Ctx :=
  mkCtx (buf c) (req c) (req_body c) (maps c) (server c) (uri c) (args c) (captures c)
    (set_vars c) (remote c) (local c) (scheme c) (conn_id c) (conn_requests c)
    (document_root c) (filename c) (fastcgi_script_name c) (fastcgi_path_info c)
    (upstream_addr c) (upstream_status c) (cache_status c) (upstream_time c) (redirects c)
    (upstream_headers c) v (matched c).

Definition put_document_root (v : bytes) (c : Ctx) : Ctx :=
  mkCtx (buf c) (req c) (req_body c) (maps c) (server c) (uri c) (args c) (captures c)
    (set_vars c) (remote c) (local c) (scheme c) (conn_id c) (conn_requests c) v
    (filename c) (fastcgi_script_name c) (fastcgi_path_info c) (upstream_addr c)
    (upstream_status c) (cache_status c) (upstream_time c) (redirects c)
    (upstream_headers c) (auth_depth c) (matched c).
Definition put_filename (v : bytes) (c : Ctx) : Ctx :=
  mkCtx (buf c) (req c) (req_body c) (maps c) (server c) (uri c) (args c) (captures c)
    (set_vars c) (remote c) (local c) (scheme c) (conn_id c) (conn_requests c)
    (document_root c) v (fastcgi_script_name c) (fastcgi_path_info c) (upstream_addr c)
    (upstream_status c) (cache_status c) (upstream_time c) (redirects c)
    (upstream_headers c) (auth_depth c) (matched c).
Definition put_fastcgi_script_name (v : bytes) (c : Ctx) : Ctx :=
  mkCtx (buf c) (req c) (req_body c) (maps c) (server c) (uri c) (args c) (captures c)
    (set_vars c) (remote c) (local c) (scheme c) (conn_id c) (conn_requests c)
    (document_root c) (filename c) v (fastcgi_path_info c) (upstream_addr c)
    (upstream_status c) (cache_status c) (upstream_time c) (redirects c)
    (upstream_headers c) (auth_depth c) (matched c).
Definition put_fastcgi_path_info (v : bytes) (c : Ctx) : Ctx :=
  mkCtx (buf c) (req c) (req_body c) (maps c) (server c) (uri c) (args c) (captures c)
    (set_vars c) (remote c) (local c) (scheme c) (conn_id c) (conn_requests c)
    (document_root c) (filename c) (fastcgi_script_name c) v (upstream_addr c)
    (upstream_status c) (cache_status c) (upstream_time c) (redirects c)
    (upstream_headers c) (auth_depth c) (matched c).
Definition put_upstream_addr (v : bytes) (c : Ctx) : Ctx :=
  mkCtx (buf c) (req c) (req_body c) (maps c) (server c) (uri c) (args c) (captures c)
    (set_vars c) (remote c) (local c) (scheme c) (conn_id c) (conn_requests c)
    (document_root c) (filename c) (fastcgi_script_name c) (fastcgi_path_info c) v
    (upstream_status c) (cache_status c) (upstream_time c) (redirects c)
    (upstream_headers c) (auth_depth c) (matched c).
Definition put_upstream_status (v : Z) (c : Ctx) : Ctx :=
  mkCtx (buf c) (req c) (req_body c) (maps c) (server c) (uri c) (args c) (captures c)
    (set_vars c) (remote c) (local c) (scheme c) (conn_id c) (conn_requests c)
    (document_root c) (filename c) (fastcgi_script_name c) (fastcgi_path_info c)
    (upstream_addr c) v (cache_status c) (upstream_time c) (redirects c)
    (upstream_headers c) (auth_depth c) (matched c).
Definition put_cache_status (v : option Cache.CacheStatus) (c : Ctx) : Ctx :=
  mkCtx (buf c) (req c) (req_body c) (maps c) (server c) (uri c) (args c) (captures c)
    (set_vars c) (remote c) (local c) (scheme c) (conn_id c) (conn_requests c)
    (document_root c) (filename c) (fastcgi_script_name c) (fastcgi_path_info c)
    (upstream_addr c) (upstream_status c) v (upstream_time c) (redirects c)
    (upstream_headers c) (auth_depth c) (matched c).
Definition put_upstream_time (v : Z) (c : Ctx) : Ctx :=
  mkCtx (buf c) (req c) (req_body c) (maps c) (server c) (uri c) (args c) (captures c)
    (set_vars c) (remote c) (local c) (scheme c) (conn_id c) (conn_requests c)
    (document_root c) (filename c) (fastcgi_script_name c) (fastcgi_path_info c)
    (upstream_addr c) (upstream_status c) (cache_status c) v (redirects c)
    (upstream_headers c) (auth_depth c) (matched c).

(** [Ctx::new]; the handler's parts are empty. *)
Definition new_ctx (buf : bytes) (req : Request.Req) (req_body : bytes) (maps : list (MapConf Regex))
    (server : ServerConf (HostRegex := Regex) (Server := Srv Regex)) (uri : bytes)
    (remote local : option SocketAddr) (scheme : bytes) (conn_id conn_requests : Z) : Ctx :=
  mkCtx buf req req_body maps server uri (Request.slice buf (Request.query req)) [] [] remote local scheme
    conn_id conn_requests [] [] [] [] [] 0 None 0 0 [] 0 None.

(** [Ctx::set] *)
Fixpoint set_in (name value : bytes) (l : list (bytes * bytes)) : list (bytes * bytes) :=
  match l with
  | [] => [(name, value)]
  | (n, v) :: l => if decide (n = name) then (n, value) :: l else (n, v) :: set_in name value l
  end.

(** ** Lookups *)

Definition leading_hit (k pat : bytes) : bool :=
  bool_decide (length pat < length k)%nat &&
  bool_decide (k !! (length k - length pat - 1)%nat = Some "."%byte) && ends_with pat k.

Definition trailing_hit (k pat : bytes) : bool :=
  bool_decide (length pat < length k)%nat &&
  bool_decide (k !! length pat = Some "."%byte) && starts_with pat k.

Definition wildcard_hit (k : bytes) (w : bytes * Template * bool) : bool :=
  let '(pat, _, leading) := w in if leading then leading_hit k pat else trailing_hit k pat.

Definition longer (w : bytes * Template * bool) (best : option (nat * Template)) : bool :=
  match best with None => true | Some (l, _) => bool_decide (l < length w.1.1)%nat end.

Definition best_wildcard (k : bytes) (l : list (bytes * Template * bool)) : option (nat * Template) :=
  foldl (λ best w, if wildcard_hit k w && longer w best then Some (length w.1.1, w.1.2) else best) None l.

Definition map_lookup (m : MapConf Regex) (key : bytes) : option Template :=
  let k := if hostnames m || existsb is_ascii_uppercase key then lowercase key else key in
  match assoc k (map_exact m) with
  | Some t => Some t
  | None =>
  match best_wildcard k (wildcards m) with
  | Some (_, t) => Some t
  | None =>
  match head (filter (λ r, is_match (fst r) key = true) (regexes m)) with
  | Some (_, t) => Some t
  | None => map_default m
  end end end.

Fixpoint first_name (l : list (ServerName (HostRegex := Regex))) : bytes :=
  match l with
  | [] => []
  | ExactName e :: l => if decide (e = []) then first_name l else e
  | LeadingWildcard x :: _ => str "*." ++ x
  | TrailingWildcard x :: _ => x ++ str ".*"
  | _ :: l => first_name l
  end.

Definition first_server_name (s : ServerConf (HostRegex := Regex) (Server := Srv Regex)) : bytes :=
  first_name (names s).

Definition push_addr (a : option SocketAddr) : bytes :=
  match a with
  | None => str "unix:"
  | Some (V4 a b c d _) =>
      push_num a ++ str "." ++ push_num b ++ str "." ++ push_num c ++ str "." ++ push_num d
  | Some (V6 ip _) => ip
  end.

(** [push_secs], of a whole number of milliseconds. *)
Definition push_secs (ms : Z) : bytes :=
  let frac := ms mod 1000 in
  push_num (ms / 1000) ++ str "." ++ (if decide (frac < 100) then str "0" else []) ++
  (if decide (frac < 10) then str "0" else []) ++ push_num frac.

(** The [?] leaves the whole function at the first part without [=]. *)
Fixpoint cookie_parts (name : bytes) (parts : list bytes) : option bytes :=
  match parts with
  | [] => None
  | p :: parts =>
      '(k, v) ← split_once "="%byte (trim_start p);
      if decide (k = name) then Some (trim v) else cookie_parts name parts
  end.

Definition cookie_value (header name : bytes) : option bytes :=
  cookie_parts name (split ";"%byte header).

Definition alpha : bytes := str "ABCDEFGHIJKLMNOPQRSTUVWXYZabcdefghijklmnopqrstuvwxyz0123456789+/".

Fixpoint base64_loop (s : bytes) (acc bits : Z) (out : bytes) : option bytes :=
  match s with
  | [] => Some out
  | c :: s =>
      if decide (c = "="%byte) then Some out
      else
        match position (λ a, bool_decide (a = c)) alpha with
        | None => None
        | Some v =>
            let acc := Z.lor (wrap 32 (Z.shiftl acc 6)) (Z.of_nat v) in
            let bits := bits + 6 in
            if decide (8 ≤ bits) then
              base64_loop s acc (bits - 8) (out ++ [of_u8 (Z.shiftr acc (bits - 8))])
            else base64_loop s acc bits out
        end
  end.

Definition base64_decode (s : bytes) : option bytes := base64_loop s 0 0 [].

(** The userinfo before the colon of Basic credentials. *)
Definition remote_user (auth : option bytes) : bytes :=
  match a ← auth; strip_prefix (str "Basic ") a with
  | Some rest =>
      match base64_decode (trim rest) with
      | Some d =>
          match position (λ c, bool_decide (c = ":"%byte)) d with
          | Some i => from_utf8_lossy (take i d)
          | None => []
          end
      | None => []
      end
  | None => []
  end.

(** ** Variables *)

(** [VarSource::var] of the variables that look nothing up. *)
Definition simple_var (env : Env) (c : Ctx) (v : Var.Var) : bytes :=
  let b := buf c in
  let r := req c in
  let version := if decide (Request.minor r = 0) then str "HTTP/1.0" else str "HTTP/1.1" in
  let num (o : option SocketAddr) := push_num (default 0 (port <$> o)) in
  match v with
  | Var.Uri | Var.DocumentUri => uri c
  | Var.RequestUri => Request.slice b (Request.target r)
  | Var.Args => args c
  | Var.IsArgs => if decide (args c = []) then [] else str "?"
  | Var.Arg name => default [] (Uri.query_param (args c) name)
  | Var.Host =>
      let h := Request.host b r in
      if decide (h = []) then first_server_name (server c) else lowercase h
  | Var.Hostname => env_hostname env
  | Var.Scheme => scheme c
  | Var.RequestMethod => Request.slice b (Request.method_raw r)
  | Var.Request =>
      Request.slice b (Request.method_raw r) ++ str " " ++ Request.slice b (Request.target r) ++
      str " " ++ version
  | Var.ServerProtocol => version
  | Var.ServerName => first_server_name (server c)
  | Var.ServerPort => num (local c)
  | Var.ServerAddr => push_addr (local c)
  | Var.RemoteAddr | Var.BinaryRemoteAddr => push_addr (remote c)
  | Var.RemotePort => num (remote c)
  | Var.RemoteUser => remote_user (Request.hot_value b Request.Authorization r)
  | Var.RequestLength => push_num (Z.of_nat (Request.head_len r))
  | Var.RequestTime => push_secs (env_elapsed env)
  | Var.Msec => push_secs (env_now env)
  | Var.TimeLocal => env_time_local env
  | Var.TimeIso8601 => env_time_iso8601 env
  | Var.RequestFilename => filename c
  | Var.ContentType => default [] (Request.hot_value b Request.ContentType r)
  | Var.ContentLength => default [] (Request.hot_value b Request.ContentLength r)
  | Var.Connection => push_num (conn_id c)
  | Var.ConnectionRequests => push_num (conn_requests c)
  | Var.Pid => push_num (env_pid env)
  | Var.NginxVersion => VERSION
  | Var.Http name => default [] (Request.header b name r)
  | Var.Cookie name =>
      default [] (h ← Request.hot_value b Request.Cookie r; cookie_value h name)
  | Var.Capture i => if decide (i = 0) then [] else default [] (captures c !! Z.to_nat (i - 1))
  | Var.FastcgiScriptName => fastcgi_script_name c
  | Var.FastcgiPathInfo => fastcgi_path_info c
  | Var.Https => if decide (scheme c = str "https") then str "on" else []
  | Var.ProxyHost => upstream_addr c
  | Var.ProxyPort => default [] (last (split ":"%byte (upstream_addr c)))
  | Var.ProxyAddXForwardedFor =>
      match Request.header b (str "x-forwarded-for") r with
      | Some e => e ++ str ", "
      | None => []
      end ++ push_addr (remote c)
  | Var.UpstreamAddr => upstream_addr c
  | Var.UpstreamCacheStatus => default [] (Cache.as_str <$> cache_status c)
  | Var.UpstreamStatus => if decide (0 < upstream_status c) then push_num (upstream_status c) else []
  | Var.UpstreamResponseTime | Var.UpstreamConnectTime =>
      if decide (0 < upstream_status c) then push_secs (upstream_time c) else []
  | Var.UpstreamHttp name =>
      default [] (snd <$> head (filter (λ h, eq_ignore_ascii_case (fst h) name = true) (upstream_headers c)))
  | _ => []
  end.

(** [render_into] over a source that may not come back. *)
Definition seg_opt (src : Var.Var → option bytes) (s : Seg) : option bytes :=
  match s with Lit l => Some l | SVar v => src v end.

Definition render_opt (src : Var.Var → option bytes) (t : Template) : option bytes :=
  match literal t with
  | Some l => Some l
  | None => mjoin <$> mapM (seg_opt src) (segs t)
  end.

(** The template of [root], or of the [alias] that overrides it, where the
    request is. *)
Definition root_of (c : CoreConf Regex) : Template := default (root c) (alias c).

Definition core_of (c : Ctx) : CoreConf Regex :=
  match matched c with
  | Some l => core (payload l)
  | None => s_core (conf (server c))
  end.

(** [var_depth] and [user_var]. Each unit of fuel is one activation of
    [var_depth] on the stack; [None] is a stack deeper than the fuel. *)
Fixpoint var_depth (env : Env) (c : Ctx) (fuel : nat) (v : Var.Var) (depth : nat) : option bytes :=
  match fuel with
  | O => None
  | S fuel =>
      match v with
      | Var.User name =>
          if decide (8 < depth)%nat then Some []
          else
            match assoc name (set_vars c) with
            | Some v => Some v
            | None =>
                match head (filter (λ m, map_target m = name) (maps c)) with
                | None => Some []
                | Some m =>
                    key ← var_depth env c fuel (source m) (S depth);
                    match map_lookup m key with
                    | Some t => render_opt (λ v, var_depth env c fuel v (S depth)) t
                    | None => Some []
                    end
                end
            end
      | Var.DocumentRoot =>
          if decide (document_root c = [])
          then render_opt (λ v, var_depth env c fuel v (S depth)) (root_of (core_of c))
          else Some (document_root c)
      | _ => Some (simple_var env c v)
      end
  end.

(** The deepest nesting there is, unless a root names itself
    ([variables_resolve]). *)
Definition max_depth : nat := 11.

(** [impl VarSource for Ctx], where it comes back ([root_names_itself] is where
    it does not) *)
Definition var (env : Env) (c : Ctx) : VarSource := λ v, default (env_lost env v) (var_depth env c max_depth v 0).

(** [impl VarSource for LogVars] *)
Definition log_var (env : Env) (c : Ctx) (r : Resp) (status body_bytes total_bytes : Z) : VarSource := λ v,
  match v with
  | Var.Status => push_num status
  | Var.BodyBytesSent => push_num body_bytes
  | Var.BytesSent => push_num total_bytes
  | Var.SentHttp name => default [] (Response.get name r)
  | _ => var env c v
  end.

(** ** Termination *)

Lemma mapM_Some_total {A B} (f : A → option B) l :
  (∀ x, x ∈ l → is_Some (f x)) → is_Some (mapM f l).
Proof.
  intros H. apply mapM_is_Some. rewrite Forall_forall. intros x Hx. by apply H.
Qed.

Lemma render_opt_total src t : (∀ v, v ∈ vars t → is_Some (src v)) → is_Some (render_opt src t).
Proof.
  intros H. unfold render_opt. destruct (literal t); [done |]. apply fmap_is_Some.
  apply mapM_Some_total. intros [l|v] Hs; [done |]. apply H. unfold vars.
  apply list_elem_of_omap. by exists (SVar v).
Qed.

Lemma render_opt_mono src src' t r :
  (∀ v x, src v = Some x → src' v = Some x) → render_opt src t = Some r → render_opt src' t = Some r.
Proof.
  intros H. unfold render_opt. destruct (literal t); [done |].
  rewrite !fmap_Some. intros (l & E & ->). exists l. split; [|done].
  revert l E. induction (segs t) as [|g gs IH]; intros l E; [done |].
  cbn [mapM] in *. destruct (seg_opt src g) as [x|] eqn:Eg; [|done]. cbn [mbind option_bind] in E.
  assert (seg_opt src' g = Some x) as -> by (destruct g; [done | by apply H]).
  cbn [mbind option_bind]. destruct (mapM (seg_opt src) gs) as [xs|]; [|done].
  by rewrite (IH xs eq_refl).
Qed.

(** A template that renders does so the way [Template.render] says. *)
Lemma render_opt_render src src' t r :
  (∀ v x, src v = Some x → src' v = x) → render_opt src t = Some r → Vars.render src' t = r.
Proof.
  intros H. unfold render_opt, Vars.render. destruct (literal t); [by intros [= ->] |].
  rewrite fmap_Some. intros (l & E & ->). f_equal. revert l E.
  induction (segs t) as [|g gs IH]; intros l E; [by injection E as <- |].
  cbn [mapM] in E. destruct (seg_opt src g) as [x|] eqn:Eg; [|done]. cbn [mbind option_bind] in E.
  destruct (mapM (seg_opt src) gs) as [xs|]; [|done]. injection E as <-.
  rewrite fmap_cons_eq, (IH xs eq_refl). f_equal.
  destruct g; cbn in *; [by injection Eg | by apply H].
Qed.

Lemma var_depth_mono env c fuel : ∀ v d x,
  var_depth env c fuel v d = Some x → var_depth env c (S fuel) v d = Some x.
Proof.
  induction fuel as [|fuel IH]; intros v d x; [done |].
  destruct v; try done; intros H.
  - cbn [var_depth] in H. change (var_depth env c (S (S fuel)) Var.DocumentRoot d) with
      (if decide (document_root c = [])
       then render_opt (λ v, var_depth env c (S fuel) v (S d)) (root_of (core_of c))
       else Some (document_root c)).
    case_decide; [|done]. by eapply render_opt_mono; [|exact H]; eauto.
  - revert H. change (var_depth env c (S ?f) (Var.User name) d) with
      (if decide (8 < d)%nat then Some []
       else match assoc name (set_vars c) with
            | Some v => Some v
            | None =>
                match head (filter (λ m, map_target m = name) (maps c)) with
                | None => Some []
                | Some m =>
                    key ← var_depth env c f (source m) (S d);
                    match map_lookup m key with
                    | Some t => render_opt (λ v, var_depth env c f v (S d)) t
                    | None => Some []
                    end
                end
            end).
    case_decide; [done |]. destruct (assoc name (set_vars c)); [done |].
    destruct (head _) as [m|]; [|done].
    destruct (var_depth env c fuel (source m) (S d)) as [key|] eqn:E; [|done].
    rewrite (IH _ _ _ E). cbn [mbind option_bind].
    destruct (map_lookup m key) as [t|]; [|done]. apply render_opt_mono. eauto.
Qed.

Lemma var_depth_total env c :
  Var.DocumentRoot ∉ vars (root_of (core_of c)) →
  ∀ k d v fuel, (9 ≤ d + k)%nat → (2 + k ≤ fuel)%nat → is_Some (var_depth env c fuel v d).
Proof.
  intros Hroot. assert (∀ fuel v d, (8 < d)%nat → v ≠ Var.DocumentRoot → (1 ≤ fuel)%nat →
      is_Some (var_depth env c fuel v d)) as Hdeep.
  { intros [|fuel] v d Hd Hv Hf; [lia |]. destruct v; try done. cbn [var_depth].
    by rewrite decide_True. }
  assert (∀ fuel d, (∀ v, v ≠ Var.DocumentRoot → is_Some (var_depth env c fuel v (S d))) →
      is_Some (var_depth env c (S fuel) Var.DocumentRoot d)) as Hdoc.
  { intros fuel d H. cbn [var_depth]. case_decide; [|done]. apply render_opt_total.
    intros v Hv. apply H. intros ->. done. }
  induction k as [|k IH]; intros d v fuel Hd Hf; (destruct fuel as [|fuel]; [lia |]).
  - destruct (decide (v = Var.DocumentRoot)) as [->|Hv]; [|apply Hdeep; [lia | done | lia]].
    apply Hdoc. intros v Hv. apply Hdeep; [lia | done | lia].
  - destruct (decide (v = Var.DocumentRoot)) as [->|Hv].
    { apply Hdoc. intros v Hv. apply IH; lia. }
    destruct v; try done. cbn [var_depth]. case_decide; [done |].
    destruct (assoc name (set_vars c)); [done |]. destruct (head _) as [m|]; [|done].
    destruct (IH (S d) (source m) fuel) as [key ->]; [lia | lia |]. cbn [mbind option_bind].
    destruct (map_lookup m key) as [t|]; [|done]. apply render_opt_total.
    intros v _. apply IH; lia.
Qed.

(** Variables resolve: with a document root that does not mention
    [$document_root], every variable has a value within eleven activations,
    map cycles included, and a deeper stack does not change it. *)
Theorem variables_resolve env c v fuel :
  Var.DocumentRoot ∉ vars (root_of (core_of c)) → (max_depth ≤ fuel)%nat →
  var_depth env c fuel v 0 = Some (var env c v).
Proof.
  intros Hroot Hf. unfold var.
  destruct (var_depth_total env c Hroot 9 0 v max_depth) as [x E]; [lia | by unfold max_depth; lia |].
  rewrite E. cbn [default]. induction Hf as [|f _ IH]; [done |]. by apply var_depth_mono.
Qed.

(** A document root that mentions [$document_root] is never rendered: every
    activation starts another, until the stack is gone. Nothing in the
    configuration builder refuses one. *)
Theorem root_names_itself env c s fuel d :
  document_root c = [] → root_of (core_of c) = compile s → Var.DocumentRoot ∈ vars (compile s) →
  var_depth env c fuel Var.DocumentRoot d = None.
Proof.
  intros Hd Hr Hin. assert (literal (compile s) = None) as Hl.
  { destruct (literal (compile s)) as [l|] eqn:E; [|done].
    assert (vars (compile s) = []) as H; [|by rewrite H in Hin; set_solver].
    apply literal_vars. unfold is_literal. by rewrite E. }
  revert d. induction fuel as [|fuel IH]; intros d; [done |].
  cbn [var_depth]. rewrite decide_True by done. rewrite Hr. unfold render_opt. rewrite Hl.
  destruct (mapM _ (segs (compile s))) as [l|] eqn:E; [|done]. exfalso.
  apply mapM_Some_1 in E.
  unfold vars in Hin. apply list_elem_of_omap in Hin as ([l'|v'] & Hg & [= ->]).
  apply list_elem_of_lookup in Hg as [i Hi].
  destruct (Forall2_lookup_l _ _ _ _ _ E Hi) as (x & _ & Hx). cbn in Hx. by rewrite IH in Hx.
Qed.

(** ** Maps *)

(** The rules a lookup follows, over the table as it is configured. *)
Inductive MapRule (m : MapConf Regex) (key : bytes) : option Template → Prop :=
  | rule_exact t :
      assoc (lowercase key) (map_exact m) = Some t → MapRule m key (Some t)
  | rule_wildcard i w :
      assoc (lowercase key) (map_exact m) = None →
      wildcards m !! i = Some w → wildcard_hit (lowercase key) w = true →
      (∀ j w', wildcards m !! j = Some w' → wildcard_hit (lowercase key) w' = true →
        (length w'.1.1 ≤ length w.1.1)%nat ∧ ((j < i)%nat → (length w'.1.1 < length w.1.1)%nat)) →
      MapRule m key (Some w.1.2)
  | rule_regex i r t :
      assoc (lowercase key) (map_exact m) = None →
      Forall (λ w, wildcard_hit (lowercase key) w = false) (wildcards m) →
      regexes m !! i = Some (r, t) → is_match r key = true →
      Forall (λ q, is_match (fst q) key = false) (take i (regexes m)) →
      MapRule m key (Some t)
  | rule_default :
      assoc (lowercase key) (map_exact m) = None →
      Forall (λ w, wildcard_hit (lowercase key) w = false) (wildcards m) →
      Forall (λ q, is_match (fst q) key = false) (regexes m) →
      MapRule m key (map_default m).

Definition best_of (k : bytes) (l : list (bytes * Template * bool)) (b : option (nat * Template)) : Prop :=
  match b with
  | None => Forall (λ w, wildcard_hit k w = false) l
  | Some (n, t) => ∃ i w, l !! i = Some w ∧ wildcard_hit k w = true ∧ n = length w.1.1 ∧ t = w.1.2 ∧
      ∀ j w', l !! j = Some w' → wildcard_hit k w' = true →
        (length w'.1.1 ≤ length w.1.1)%nat ∧ ((j < i)%nat → (length w'.1.1 < length w.1.1)%nat)
  end.

Lemma best_wildcard_spec k l : best_of k l (best_wildcard k l).
Proof.
  unfold best_wildcard. induction l as [|w l IH] using rev_ind; [by constructor |].
  rewrite foldl_app. cbn [foldl]. revert IH. generalize (foldl (λ best w,
    if wildcard_hit k w && longer w best then Some (length w.1.1, w.1.2) else best) None l).
  intros [[n t]|] IH; cbn [best_of longer] in *.
  - destruct IH as (i & w0 & Hi & Hh & -> & -> & Hmax).
    pose proof (lookup_lt_Some _ _ _ Hi) as Hlt.
    assert (∀ j w', (l ++ [w]) !! j = Some w' → (l !! j = Some w' ∧ (j < length l)%nat) ∨ (j = length l ∧ w' = w)) as Hsnoc.
    { intros j w' Hj. destruct (decide (j < length l)%nat).
      - rewrite lookup_app_l in Hj by lia. by left.
      - rewrite lookup_app_r in Hj by lia. right.
        destruct (j - length l)%nat as [|x] eqn:E; [|done]. cbn in Hj. split; [lia | congruence]. }
    destruct (wildcard_hit k w) eqn:Ew; cbn [andb]; [case_bool_decide as Hl |].
    + exists (length l), w. rewrite list_lookup_middle by done. split_and!; try done.
      intros j w' Hj Hw'. apply Hsnoc in Hj as [[Hj Hjl]|[-> ->]]; [|lia].
      destruct (Hmax j w' Hj Hw') as [? _]. lia.
    + exists i, w0. split_and!; try done; [by apply lookup_app_l_Some |].
      intros j w' Hj Hw'. apply Hsnoc in Hj as [[Hj Hjl]|[-> ->]]; [by apply Hmax | lia].
    + exists i, w0. split_and!; try done; [by apply lookup_app_l_Some |].
      intros j w' Hj Hw'. apply Hsnoc in Hj as [[Hj Hjl]|[-> ->]]; [by apply Hmax | congruence].
  - destruct (wildcard_hit k w) eqn:Ew; cbn [andb].
    + exists (length l), w. rewrite list_lookup_middle by done. split_and!; try done.
      intros j w' Hj Hw'. destruct (decide (j < length l)%nat) as [Hlt|].
      * rewrite lookup_app_l in Hj by done. apply (Forall_lookup_1 _ _ _ _ IH) in Hj. congruence.
      * rewrite lookup_app_r in Hj by lia. destruct (j - length l)%nat as [|x] eqn:E; [|done].
        cbn in Hj. injection Hj as <-. lia.
    + apply Forall_app. split; [done | by repeat constructor].
Qed.

Lemma lower_digit c : is_ascii_uppercase c = false → to_ascii_lowercase c = c.
Proof. intros H. unfold to_ascii_lowercase. by rewrite H. Qed.

Lemma map_key (b : bool) key :
  (if b || existsb is_ascii_uppercase key then lowercase key else key) = lowercase key.
Proof.
  destruct (b || _) eqn:E; [done |]. apply orb_false_iff in E as [_ E].
  unfold lowercase. induction key as [|c key IH]; [done |].
  cbn [existsb] in E. apply orb_false_iff in E as [Ec E]. rewrite fmap_cons_eq.
  by rewrite (lower_digit c Ec), <-IH.
Qed.

(** A map chooses by the documented order: the exact key without case,
    then the longest wildcard, the first of equals, then the first matching
    regular expression in configuration order, then the default. *)
Theorem map_lookup_rule m key : MapRule m key (map_lookup m key).
Proof.
  unfold map_lookup. rewrite map_key.
  destruct (assoc (lowercase key) (map_exact m)) as [t|] eqn:E; [by apply rule_exact |].
  pose proof (best_wildcard_spec (lowercase key) (wildcards m)) as Hb.
  destruct (best_wildcard _ _) as [[n t]|]; cbn [best_of] in Hb.
  { destruct Hb as (i & w & Hi & Hh & -> & -> & Hmax). by eapply rule_wildcard. }
  rewrite head_filter_find.
  destruct (list_find (λ r, is_match (fst r) key = true) (regexes m)) as [[i [r t]]|] eqn:Ef.
  - apply list_find_Some in Ef as (Hi & Hm & Hfirst). eapply rule_regex; eauto.
    apply Forall_lookup. intros j q Hq. apply lookup_take_Some in Hq as [Hq Hj].
    apply not_true_iff_false. by eapply Hfirst.
  - apply list_find_None in Ef. apply rule_default; try done.
    eapply Forall_impl; [exact Ef |]. intros q Hq. by apply not_true_is_false.
Qed.

End ctx.

(** ** Cookies *)

Definition cookie_pair (p : bytes * bytes) : bytes := fst p ++ str "=" ++ snd p.

Fixpoint cookie_header (l : list (bytes * bytes)) : bytes :=
  match l with
  | [] => []
  | [p] => cookie_pair p
  | p :: l => cookie_pair p ++ str "; " ++ cookie_header l
  end.

Definition clean_cookie (p : bytes * bytes) : Prop :=
  Forall graphic (fst p) ∧ "="%byte ∉ fst p ∧ ";"%byte ∉ fst p ∧
  Forall graphic (snd p) ∧ ";"%byte ∉ snd p.

Lemma trim_start_pair p : clean_cookie p → trim_start (cookie_pair p) = cookie_pair p.
Proof.
  intros (Hk & _ & _ & Hv & _). apply trim_start_graphic. unfold cookie_pair.
  rewrite !Forall_app. split; [done |]. split; [|done]. constructor; [|done].
  unfold graphic. cbn. lia.
Qed.

Lemma cookie_parts_pair name p parts :
  clean_cookie p →
  cookie_parts name (cookie_pair p :: parts) =
  if decide (fst p = name) then Some (snd p) else cookie_parts name parts.
Proof.
  intros Hp. cbn [cookie_parts]. rewrite trim_start_pair by done.
  destruct Hp as (_ & Hk & _ & Hv & _). unfold cookie_pair.
  change (str "=" ++ snd p) with ("="%byte :: snd p). rewrite split_once_app by done. cbn [mbind option_bind].
  case_decide; [|done]. by rewrite trim_graphic.
Qed.

(** Cookies are read back: from the header a client makes of its cookies,
    in the form RFC 6265 gives it, [cookie_value] finds the first of the name
    asked for. *)
Theorem cookie_reads_back l name :
  Forall clean_cookie l →
  cookie_value (cookie_header l) name = snd <$> head (filter (λ p, fst p = name) l).
Proof.
  unfold cookie_value. induction l as [|p l IH]; intros Hl.
  { reflexivity. }
  apply Forall_cons in Hl as [Hp Hl]. rewrite filter_cons.
  assert (cookie_parts name (split ";"%byte (cookie_header (p :: l))) =
    if decide (fst p = name) then Some (snd p) else cookie_parts name (split ";"%byte (cookie_header l))) as ->.
  2:{ case_decide; [done | by apply IH]. }
  assert (";"%byte ∉ cookie_pair p) as Hsep.
  { destruct Hp as (_ & _ & Hk & _ & Hv). unfold cookie_pair. rewrite !not_elem_of_app.
    split; [done |]. split; [|done]. by apply (bool_decide_unpack _). }
  destruct l as [|q l].
  - cbn [cookie_header]. rewrite split_clean by done. rewrite cookie_parts_pair by done.
    by case_decide.
  - change (cookie_header (p :: q :: l)) with (cookie_pair p ++ ";"%byte :: str " " ++ cookie_header (q :: l)).
    rewrite split_app by done. rewrite cookie_parts_pair by done. case_decide; [done |].
    destruct (split ";"%byte (cookie_header (q :: l))) as [|x xs] eqn:E; [by apply split_nonempty in E |].
    assert (split ";"%byte (str " " ++ cookie_header (q :: l)) = (str " " ++ x) :: xs) as ->.
    { change (str " " ++ cookie_header (q :: l)) with (" "%byte :: cookie_header (q :: l)).
      cbn [split]. by rewrite E. }
    cbn [cookie_parts]. by rewrite trim_start_space.
Qed.

Lemma cookie_reads_back_witness :
  cookie_value (str "a=1; sid=x=y; sid=2") (str "sid") = Some (str "x=y").
Proof.
  apply (cookie_reads_back [(str "a", str "1"); (str "sid", str "x=y"); (str "sid", str "2")] (str "sid")).
  repeat constructor; unfold graphic; cbn; try lia; by apply (bool_decide_unpack _).
Defined.

(** A cookie without a value hides every cookie after it: the question mark on
    [split_once] leaves the function, not the part. *)
Theorem cookie_hidden rest name : cookie_value (str "flag; " ++ rest) name = None.
Proof. reflexivity. Qed.

(** ** Basic credentials *)

(** The encoding of RFC 4648, four characters for three bytes. *)
Definition sextet (i : Z) : byte := nth (Z.to_nat i) alpha x00.

Fixpoint base64_encode (s : bytes) : bytes :=
  match s with
  | a :: b :: c :: s =>
      sextet (u8 a / 4) :: sextet (u8 a mod 4 * 16 + u8 b / 16) ::
      sextet (u8 b mod 16 * 4 + u8 c / 64) :: sextet (u8 c mod 64) :: base64_encode s
  | [a; b] =>
      [sextet (u8 a / 4); sextet (u8 a mod 4 * 16 + u8 b / 16); sextet (u8 b mod 16 * 4); "="%byte]
  | [a] => [sextet (u8 a / 4); sextet (u8 a mod 4 * 16); "="%byte; "="%byte]
  | [] => []
  end.

Lemma sextet_facts : forallb (λ i, match position (λ a, bool_decide (a = nth i alpha x00)) alpha with
    | Some j => bool_decide (j = i) | None => false end &&
    negb (bool_decide (nth i alpha x00 = "="%byte)) &&
    in_range 33 126 (nth i alpha x00)) (seq 0 64) = true.
Proof. by vm_compute. Qed.

Lemma sextet_position i :
  0 ≤ i < 64 →
  position (λ a, bool_decide (a = sextet i)) alpha = Some (Z.to_nat i) ∧ sextet i ≠ "="%byte ∧
  graphic (sextet i).
Proof.
  intros Hi. pose proof sextet_facts as H. rewrite forallb_forall in H.
  specialize (H (Z.to_nat i) ltac:(apply in_seq; lia)). unfold sextet.
  apply andb_prop in H as [H Hg]. apply andb_prop in H as [H Hn].
  destruct (position _ alpha) as [j|]; [|done].
  apply bool_decide_eq_true in H as ->. apply negb_true_iff, bool_decide_eq_false in Hn.
  apply in_range_true in Hg. done.
Qed.

(** The accumulator after a sextet, and the bits of it that are read. *)
Definition next (acc i : Z) : Z := acc mod 2 ^ 26 * 64 + i.

Lemma next_bits x v : 0 ≤ v < 64 → 0 ≤ x →
  0 ≤ next x v ∧ next x v mod 64 = v ∧ next x v mod 16 = v mod 16 ∧ next x v mod 4 = v mod 4 ∧
  (next x v / 2 ^ 4) mod 256 = x mod 64 * 4 + v / 16 ∧
  (next x v / 2 ^ 2) mod 256 = x mod 16 * 16 + v / 4 ∧
  (next x v / 2 ^ 0) mod 256 = x mod 4 * 64 + v.
Proof.
  intros Hv Hx. unfold next. change (2 ^ 26) with 67108864.
  change (2 ^ 4) with 16. change (2 ^ 2) with 4. change (2 ^ 0) with 1.
  split_and!; zdiv.
Qed.

Lemma base64_step s i acc bits out :
  0 ≤ i < 64 → 0 ≤ acc →
  base64_loop (sextet i :: s) acc bits out =
  let acc' := next acc i in
  if decide (2 ≤ bits) then base64_loop s acc' (bits - 2) (out ++ [of_u8 (acc' / 2 ^ (bits - 2))])
  else base64_loop s acc' (bits + 6) out.
Proof.
  intros Hi Hacc. destruct (sextet_position i Hi) as (Hp & Hne & _). cbn [base64_loop].
  rewrite decide_False by done. rewrite Hp. cbn zeta. rewrite Z2Nat.id by lia.
  assert (Z.lor (wrap 32 (Z.shiftl acc 6)) i = next acc i) as ->.
  { unfold wrap. rewrite Z.shiftl_mul_pow2 by lia. change (2 ^ 32) with (2 ^ 26 * 2 ^ 6).
    rewrite Z.mul_mod_distr_r by lia. unfold next. by rewrite lor_disjoint by lia. }
  replace (bits + 6 - 8) with (bits - 2) by lia.
  repeat case_decide; try lia; [|done]. by rewrite Z.shiftr_div_pow2 by lia.
Qed.


Lemma of_u8_eq z (a : byte) : z mod 256 = u8 a → of_u8 z = a.
Proof. intros E. by rewrite <-of_u8_mod, E, of_u8_u8. Qed.

(** Two characters give a byte, and a third and a fourth one each. *)
Lemma base64_two a v s acc out :
  0 ≤ acc → 0 ≤ v < 16 →
  ∃ acc', 0 ≤ acc' ∧ acc' mod 16 = v ∧
    base64_loop (sextet (u8 a / 4) :: sextet (u8 a mod 4 * 16 + v) :: s) acc 0 out =
    base64_loop s acc' 4 (out ++ [a]).
Proof.
  intros Hacc Hv. pose proof (u8_range a).
  destruct (next_bits acc (u8 a / 4)) as (H1 & H2 & _); [zdiv | zdiv |].
  destruct (next_bits (next acc (u8 a / 4)) (u8 a mod 4 * 16 + v)) as (H3 & _ & H4 & _ & H5 & _); [zdiv | zdiv |].
  exists (next (next acc (u8 a / 4)) (u8 a mod 4 * 16 + v)). split_and!; [zdiv | zdiv |].
  rewrite base64_step by zdiv. cbn zeta. rewrite decide_False by lia.
  rewrite base64_step by zdiv. cbn zeta. rewrite decide_True by lia.
  do 3 f_equal. apply of_u8_eq. change (2 ^ (0 + 6 - 2)) with (2 ^ 4). rewrite H5, H2. zdiv.
Qed.

Lemma base64_third b v s acc out :
  0 ≤ acc → 0 ≤ v < 4 → acc mod 16 = u8 b / 16 →
  ∃ acc', 0 ≤ acc' ∧ acc' mod 4 = v ∧
    base64_loop (sextet (u8 b mod 16 * 4 + v) :: s) acc 4 out = base64_loop s acc' 2 (out ++ [b]).
Proof.
  intros Hacc Hv Hb. pose proof (u8_range b).
  destruct (next_bits acc (u8 b mod 16 * 4 + v)) as (H1 & _ & _ & H2 & _ & H3 & _); [zdiv | zdiv |].
  exists (next acc (u8 b mod 16 * 4 + v)). split_and!; [zdiv | zdiv |].
  rewrite base64_step by zdiv. cbn zeta. rewrite decide_True by lia.
  do 3 f_equal. apply of_u8_eq. change (2 ^ (4 - 2)) with (2 ^ 2). rewrite H3, Hb. zdiv.
Qed.

Lemma base64_fourth c s acc out :
  0 ≤ acc → acc mod 4 = u8 c / 64 →
  ∃ acc', 0 ≤ acc' ∧
    base64_loop (sextet (u8 c mod 64) :: s) acc 2 out = base64_loop s acc' 0 (out ++ [c]).
Proof.
  intros Hacc Hc. pose proof (u8_range c).
  destruct (next_bits acc (u8 c mod 64)) as (H1 & _ & _ & _ & _ & _ & H3); [zdiv | zdiv |].
  exists (next acc (u8 c mod 64)). split; [lia |].
  rewrite base64_step by zdiv. cbn zeta. rewrite decide_True by lia.
  do 3 f_equal. apply of_u8_eq. change (2 ^ (2 - 2)) with (2 ^ 0). rewrite H3, Hc. zdiv.
Qed.

Lemma base64_loop_encode s : ∀ acc out,
  0 ≤ acc → base64_loop (base64_encode s) acc 0 out = Some (out ++ s).
Proof.
  assert (∀ k, (length s ≤ k)%nat → ∀ acc out, 0 ≤ acc →
    base64_loop (base64_encode s) acc 0 out = Some (out ++ s)) as H; [|by eapply H].
  intros k. revert s. induction k as [|k IH]; intros s Hk acc out Hacc.
  { destruct s; [|cbn in Hk; lia]. cbn. by rewrite app_nil_r. }
  destruct s as [|a [|b [|c s]]]; cbn [base64_encode].
  - cbn. by rewrite app_nil_r.
  - destruct (base64_two a 0 (str "==") acc out Hacc) as (acc' & _ & _ & E); [lia.. |].
    rewrite Z.add_0_r in E. change [?x; ?y; "="%byte; "="%byte] with (x :: y :: str "==").
    by rewrite E.
  - pose proof (u8_range b).
    destruct (base64_two a (u8 b / 16) (sextet (u8 b mod 16 * 4) :: str "=") acc out Hacc)
      as (acc' & Hacc' & Hb & E); [zdiv |].
    change [?x; ?y; ?z; "="%byte] with (x :: y :: z :: str "="). rewrite E.
    destruct (base64_third b 0 (str "=") acc' (out ++ [a]) Hacc') as (acc2 & _ & _ & E2); [lia | zdiv |].
    rewrite Z.add_0_r in E2. rewrite E2. cbn. by rewrite <-app_assoc.
  - pose proof (u8_range b). pose proof (u8_range c).
    edestruct (base64_two a (u8 b / 16)) as (acc' & Hacc' & Hb & E); [exact Hacc | zdiv |]. rewrite E.
    edestruct (base64_third b (u8 c / 64)) as (acc2 & Hacc2 & Hc & E2); [exact Hacc' | zdiv | exact Hb |].
    rewrite E2.
    edestruct (base64_fourth c) as (acc3 & Hacc3 & E3); [exact Hacc2 | exact Hc |]. rewrite E3.
    rewrite IH by (cbn [length] in Hk; lia). by rewrite <-!app_assoc.
Qed.

Lemma base64_graphic s : Forall graphic (base64_encode s).
Proof.
  assert (∀ k, (length s ≤ k)%nat → Forall graphic (base64_encode s)) as H; [|by eapply H].
  intros k. revert s. assert (graphic "="%byte) by (unfold graphic; cbn; lia).
  induction k as [|k IH]; intros s Hk; [destruct s; [constructor | cbn in Hk; lia] |].
  assert (∀ i, 0 ≤ i < 64 → graphic (sextet i)) as Hs by (intros; by apply sextet_position).
  destruct s as [|a [|b [|c s]]]; cbn [base64_encode length] in *; [done | ..];
    pose proof (u8_range a); try pose proof (u8_range b); try pose proof (u8_range c);
    repeat (constructor; [first [done | apply Hs; zdiv] |]); [done.. |]. apply IH. lia.
Qed.

(** Basic credentials are read back: for every user name without a colon
    and every password, the header a client sends gives [$remote_user] the
    user name. *)
Theorem remote_user_reads_back user password :
  utf8_valid user = true → ":"%byte ∉ user →
  remote_user (Some (str "Basic " ++ base64_encode (user ++ ":"%byte :: password))) = user.
Proof.
  intros Hu Hc. unfold remote_user. cbn [mbind option_bind].
  rewrite (strip_prefix_app (str "Basic ")). rewrite trim_graphic by apply base64_graphic.
  unfold base64_decode. rewrite base64_loop_encode by lia. cbn [app].
  assert (position (λ c, bool_decide (c = ":"%byte)) (user ++ ":"%byte :: password) = Some (length user)) as ->.
  { clear Hu. induction user as [|c u IH]; [done |]. apply not_elem_of_cons in Hc as [Hc Hu].
    cbn [app position length]. rewrite bool_decide_eq_false_2 by done. by rewrite IH. }
  rewrite take_app_length. by apply from_utf8_lossy_valid.
Qed.

Lemma remote_user_reads_back_witness :
  remote_user (Some (str "Basic YWxpY2U6c2VjcmV0")) = str "alice".
Proof.
  apply (remote_user_reads_back (str "alice") (str "secret")); [reflexivity |].
  by apply (bool_decide_unpack _).
Defined.

(** A context whose one [map] is defined by itself. *)
Definition sample_ctx : Ctx (Regex := unit) :=
  let srv := mkServerConf [ExactName (str "example.com")]
    (mkSrv default_core (mkLocSet [] [] [] []) [] [] [] [] Static None) in
  let m := mkMapConf (Var.User (str "loop")) (str "loop") [] [] [] (Some (compile (str "${loop}x"))) false in
  mkCtx [] Request.new_req [] [m] srv (str "/") [] [] [] None None (str "http") 1 0 [] [] [] [] [] 0 None 0
    0 [] 0 None.

Lemma variables_resolve_witness :
  var_depth (λ _ _, false) (mkEnv [] 0 0 0 [] [] (λ _, [])) sample_ctx 100 (Var.User (str "loop")) 0 =
  Some (var (λ _ _, false) (mkEnv [] 0 0 0 [] [] (λ _, [])) sample_ctx (Var.User (str "loop"))).
Proof.
  apply variables_resolve.
  - by apply (bool_decide_unpack _).
  - unfold max_depth. lia.
Defined.
