(* ===== verification/Handler.v ===== *)
(** * [src/server/handler.rs]: routing a request to a reply

    The phases of a request over the contexts of [Ctx] and the locations of
    [Model]. What the handler calls - the limits, the content modules, the
    file system, compression - is the class [World]: an arbitrary state [W]
    passed from call to call. *)
From S2P Require Import Prelude.
From S2P Require Import Text.
From S2P Require Import Vars.
From S2P Require Import Response.
From S2P Require Import Matching.
From S2P Require Import Model.
From S2P Require Import Ctx.
From S2P Require Date.
From S2P Require LimitReq.
From S2P Require Request.
From S2P Require Uri.

Open Scope Z_scope.

Definition MAX_INTERNAL_REDIRECTS : Z := 10.
Definition GZIP_MAX_FILE : Z := 8 * 1024 * 1024.

(** [std::fs::Metadata], as far as it is looked at. *)
Record Meta := mkMeta { is_file : bool; is_dir : bool; mode : Z }.

Section handler.
  Context {Regex File Io W : Type}.
  Local Abbreviation Ctx := (Ctx (Regex := Regex)).
  Local Abbreviation Reply := (Reply File Io).

(** What the static handler decided. *)
Inductive Served := ServedReply (r : Reply) | ServedInternal (uri : bytes) | ServedStatus (code : Z).

(** [modsec::Blocked]: what the rule engine makes of a request, or a reply. *)
Inductive Blocked := BlockedStatus (code : Z) | BlockedReply (r : Reply).

Class World := {
  (** the regex crate: the groups of a match, [None] where one took no part *)
  groups : Regex → bytes → option (list (option bytes));
  (** clock, host and process *)
  env : W → Env;
  (** [std::fs::metadata] *)
  metadata : W → bytes → option Meta;
  (** [limit_conn_zones] with its keys, and [acquire] on a zone *)
  conn_key : bytes → option (option Template);
  acquire : bytes → bytes → Z → W → bool * W;
  (** [limit_req_zones] with its keys, [check] on a zone, and the sleep *)
  req_key : bytes → option (option Template);
  check : bytes → bytes → Z → bool → Z → W → LimitReq.Decision * W;
  sleep : Z → W → W;
  (** the content modules *)
  serve : Ctx → option (Loc Regex) → W → Served * Ctx * W;
  proxy_pass : Ctx → Loc Regex → ProxyPass → W → result Z Reply * Ctx * W;
  fastcgi_pass : Ctx → Loc Regex → ProxyTarget → W → result Z Reply * Ctx * W;
  stub_body : bool → W → bytes;
  (** [modsec::inspect_request], which says nothing in a build without it *)
  inspect : Ctx → Loc Regex → W → option Blocked * W;
  (** [read_exact_at] and [GzEncoder] *)
  read_at : File → Z → Z → option bytes;
  gzip_encode : Z → bytes → option bytes
}.
Context `{World}.

Definition is_match (r : Regex) (s : bytes) : bool := bool_decide (is_Some (groups r s)).

(** [Template::render] in a context. *)
Definition render (c : Ctx) (w : W) (t : Template) : bytes := Vars.render (var is_match (env w) c) t.

(** Outcome of one routing pass. *)
Inductive Step := Done (r : Reply) | StepFail (code : Z) | Internal (uri : bytes) | ToNamed (n : bytes).

Definition owned_captures (g : list (option bytes)) : list bytes := default [] <$> g.

(** *** Replies *)

Definition matched_core (c : Ctx) : CoreConf Regex := core_of c.

Definition error_body (c : Ctx) (r : Resp) (code : Z) : Reply :=
  if is_bodyless code then mkReply r Empty
  else
    let tokens := server_tokens (s_core (conf (server c))) in
    let body := error_page code (signature tokens) in
    let r := if has (str "content-type") r then r
             else header (str "Content-Type") (str "text/html") r in
    mkReply r (Bytes body).

Definition closes (code : Z) : bool :=
  bool_decide (code ∈ [400; 408; 413; 414; 431; 500; 501; 505]).

Definition error_reply (c : Ctx) (code : Z) : Reply :=
  let r := with_status code new in
  error_body c (if decide (400 ≤ code) then if closes code then with_keep_alive false r else r else r) code.

Definition return_reply (c : Ctx) (w : W) (code : Z) (body : option Template) : Reply :=
  let r := with_status code new in
  let text := render c w <$> body in
  if decide (300 ≤ code < 400) then
    mkReply (match text with Some url => header (str "Location") url r | None => r end) Empty
  else if decide (code = 204) then mkReply r Empty
  else
    match text with
    | Some t =>
        mkReply (if has (str "content-type") r then r
                 else header (str "Content-Type") (default_type (matched_core c)) r) (Bytes t)
    | None => error_reply c code
    end.

Definition redirect (c : Ctx) (code : Z) (target : bytes) : Reply :=
  let loc := if decide (args c ≠ [] ∧ Text.find "?"%byte target = None)
             then target ++ str "?" ++ args c else target in
  error_body c (header (str "Location") loc (with_status code new)) code.

(** *** Rewrites and conditions *)

(** Cuts a target at its query string, which replaces [$args]. *)
Definition split_target (target : bytes) (c : Ctx) : bytes * Ctx :=
  match Text.find "?"%byte target with
  | Some i => (take i target, put_args (drop (S i) target) c)
  | None => (target, c)
  end.

Fixpoint run_rewrites (c : Ctx) (w : W) (rules : list (Rewrite Regex)) : option Step * Ctx :=
  match rules with
  | [] => (None, c)
  | r :: rules =>
      match groups (re r) (uri c) with
      | None => run_rewrites c w rules
      | Some g =>
          let c := put_captures (owned_captures g) c in
          let '(target, c) := split_target (render c w (replacement r)) c in
          let absolute := starts_with (str "http://") target || starts_with (str "https://") target in
          match rw_flag r with
          | Redirect => (Some (Done (redirect c 302 target)), c)
          | Permanent => (Some (Done (redirect c 301 target)), c)
          | Last => if absolute then (Some (Done (redirect c 302 target)), c)
                    else (Some (Internal target), put_uri target c)
          | Break => if absolute then (Some (Done (redirect c 302 target)), c)
                     else (None, put_uri target c)
          | NoFlag => if absolute then (Some (Done (redirect c 302 target)), c)
                      else run_rewrites (put_uri target c) w rules
          end
      end
  end.

Definition test_path (w : W) (p : bytes) (test : Meta → bool) : bool :=
  match metadata w p with Some m => test m | None => false end.

Definition eval_cond (c : Ctx) (w : W) (k : Cond Regex) : bool :=
  let value v := var is_match (env w) c v in
  match k with
  | Always => true
  | Truthy v => bool_decide (value v ≠ [] ∧ value v ≠ str "0")
  | CondEq v t => bool_decide (value v = render c w t)
  | CondNe v t => bool_decide (value v ≠ render c w t)
  | CondMatch v re negate => negb (eqb (is_match re (value v)) negate)
  | FileExists t negate => negb (eqb (test_path w (render c w t) is_file) negate)
  | DirExists t negate => negb (eqb (test_path w (render c w t) is_dir) negate)
  | AnyExists t negate => negb (eqb (test_path w (render c w t) (λ _, true)) negate)
  | Executable t negate =>
      negb (eqb (test_path w (render c w t) (λ m, bool_decide (Z.land (mode m) 0x49 ≠ 0))) negate)
  end.

(** The actions of one block; [true] when [break] ends the phase. *)
Fixpoint run_actions (c : Ctx) (w : W) (l : list (IfAction Regex)) : option Step * Ctx * bool :=
  match l with
  | [] => (None, c, false)
  | IfReturn status body :: _ => (Some (Done (return_reply c w status body)), c, false)
  | IfSet name value :: l => run_actions (put_set_vars (set_in name (render c w value) (set_vars c)) c) w l
  | IfRewrite r :: l =>
      match run_rewrites c w [r] with
      | (Some s, c) => (Some s, c, false)
      | (None, c) => run_actions c w l
      end
  | IfAddHeader _ :: l => run_actions c w l
  | IfBreak :: _ => (None, c, true)
  end.

Fixpoint run_ifs (c : Ctx) (w : W) (blocks : list (IfBlock Regex)) : option Step * Ctx :=
  match blocks with
  | [] => (None, c)
  | b :: blocks =>
      if negb (eval_cond c w (cond b)) then run_ifs c w blocks
      else
        match run_actions c w (actions b) with
        | (Some s, c, _) => (Some s, c)
        | (None, c, true) => (None, c)
        | (None, c, false) => run_ifs c w blocks
        end
  end.

(** *** [try_files] *)

Definition root_path (c : Ctx) (w : W) (k : CoreConf Regex) : bytes := render c w (root_of k).

Fixpoint try_items (c : Ctx) (w : W) (root : bytes) (items : list Template) : option (option Step) :=
  match items with
  | [] => None
  | item :: items =>
      let candidate := render c w item in
      if decide (candidate = []) then try_items c w root items
      else
        let wants_dir := ends_with (str "/") candidate in
        let path := root ++ (if starts_with (str "/") candidate then [] else str "/") ++ candidate in
        match metadata w path with
        | Some m =>
            if (wants_dir && is_dir m) || (negb wants_dir && is_file m) then
              if decide (candidate = uri c) then Some None else Some (Some (Internal candidate))
            else try_items c w root items
        | None => try_items c w root items
        end
  end.

Definition run_try_files (c : Ctx) (w : W) (k : CoreConf Regex) (tf : TryFiles) : option Step * Ctx :=
  match try_items c w (root_path c w k) (tf_items tf) with
  | Some r => (r, c)
  | None =>
      match tf_fallback tf with
      | FallStatus s => (Some (StepFail s), c)
      | FallNamed n => (Some (ToNamed n), c)
      | FallUri u => let '(target, c) := split_target (render c w u) c in (Some (Internal target), c)
      end
  end.

(** *** Limits *)

Fixpoint apply_limit_conn (c : Ctx) (k : CoreConf Regex) (l : list LimitConn) (w : W) : option Z * W :=
  match l with
  | [] => (None, w)
  | x :: l =>
      match conn_key (lc_zone x) with
      | None => apply_limit_conn c k l w
      | Some t =>
          let key := default [] (render c w <$> t) in
          if decide (key = []) then apply_limit_conn c k l w
          else
            let '(ok, w) := acquire (lc_zone x) key (lc_limit x) w in
            if ok || limit_conn_dry_run k then apply_limit_conn c k l w
            else (Some (limit_conn_status k), w)
      end
  end.

Fixpoint apply_limit_req (c : Ctx) (k : CoreConf Regex) (l : list LimitReq) (longest : Z) (w : W) :
    option Z * W :=
  match l with
  | [] => (None, if decide (0 < longest) then sleep longest w else w)
  | x :: l =>
      match req_key (lr_zone x) with
      | None => apply_limit_req c k l longest w
      | Some t =>
          let key := default [] (render c w <$> t) in
          if decide (key = []) then apply_limit_req c k l longest w
          else
            let '(d, w) := check (lr_zone x) key (burst x) (nodelay x) (delay_after x) w in
            match d with
            | LimitReq.Pass => apply_limit_req c k l longest w
            | LimitReq.Delay ms => apply_limit_req c k l (Z.max longest ms) w
            | LimitReq.Reject => (Some (limit_req_status k), w)
            end
      end
  end.

Definition apply_limits (c : Ctx) (k : CoreConf Regex) (w : W) : option Z * W :=
  match apply_limit_conn c k (limit_conns k) w with
  | (Some s, w) => (Some s, w)
  | (None, w) => if decide (limit_reqs k = []) then (None, w) else apply_limit_req c k (limit_reqs k) 0 w
  end.

(** *** Authorisation *)

Definition sub_headers (c : Ctx) : list (bytes * bytes) :=
  filter (λ h, lowercase (fst h) ∉ [str "content-length"; str "transfer-encoding"; str "expect"])
    ((λ h, (Request.slice (buf c) (Request.name h), Request.slice (buf c) (Request.value h))) <$>
      Request.headers (req c)).

Definition set_all (w : W) (l : list (bytes * Template)) (c : Ctx) : Ctx :=
  foldl (λ c p, put_set_vars (set_in (fst p) (render c w (snd p)) (set_vars c)) c) c l.

(** [sub] is the whole pipeline, on the subrequest. *)
Definition run_auth_request (sub : Ctx → W → Reply * W) (c : Ctx) (u : bytes) (k : CoreConf Regex) (w : W) :
    result Z unit * Ctx * W :=
  if decide (0 < auth_depth c) then (Err 500, c, w)
  else
    let '(b, r) := Request.from_parts (str "GET") u (sub_headers c) in
    match Uri.normalize (Request.slice b (Request.path r)) with
    | Err _ => (Err 500, c, w)
    | Ok path =>
        let s := put_auth_depth (auth_depth c + 1)
          (new_ctx b r [] (maps c) (server c) path (remote c) (local c) (scheme c) (conn_id c) (conn_requests c)) in
        let '(reply, w) := sub s w in
        let status := status (resp reply) in
        let c := put_upstream_headers (fields (resp reply)) c in
        let c := set_all w (auth_request_set k) c in
        (if decide (200 ≤ status ≤ 299) then Ok tt
         else if decide (status = 401 ∨ status = 403) then Err status
         else Err 500, c, w)
    end.

(** *** Dispatch *)

Definition is_head (m : Request.Method) : bool := match m with Request.HeadM => true | _ => false end.

Definition allowed (c : Ctx) (l : LocConf Regex) : bool :=
  match allowed_methods l with
  | None => true
  | Some ms =>
      let m := Request.as_str (Request.method (req c)) in
      existsb (λ a, bool_decide (a = m) ||
        (bool_decide (a = str "GET") && is_head (Request.method (req c)))) ms
  end.

Definition served_to_step (s : Served) : Step :=
  match s with
  | ServedReply r => Done r
  | ServedInternal u => Internal u
  | ServedStatus s => StepFail s
  end.

Definition result_to_step (r : result Z Reply) : Step :=
  match r with Ok r => Done r | Err code => StepFail code end.

Definition stub_reply (w : W) (json : bool) : Reply :=
  let ctype := if json then str "application/json" else str "text/plain" in
  mkReply (header (str "Cache-Control") (str "no-cache, no-store")
            (header (str "Content-Type") ctype (with_status 200 new)))
    (Bytes (stub_body json w)).

Definition run_action (c : Ctx) (loc : Loc Regex) (w : W) : Step * Ctx * W :=
  match action (payload loc) with
  | Return status body => (Done (return_reply c w status body), c, w)
  | NoAction => (StepFail 404, c, w)
  | Proxy p => let '(r, c, w) := proxy_pass c loc p w in (result_to_step r, c, w)
  | FastCgi t => let '(r, c, w) := fastcgi_pass c loc t w in (result_to_step r, c, w)
  | StubStatus json => (Done (stub_reply w json), c, w)
  | Static => let '(s, c, w) := serve c (Some loc) w in (served_to_step s, c, w)
  end.

(** What follows authorisation. *)
Definition content (c : Ctx) (loc : Loc Regex) (w : W) : Step * Ctx * W :=
  let l := payload loc in
  match run_rewrites c w (rewrites l) with
  | (Some s, c) => (s, c, w)
  | (None, c) =>
  match run_ifs c w (ifs l) with
  | (Some s, c) => (s, c, w)
  | (None, c) =>
  match (match try_files l with Some tf => run_try_files c w (core l) tf | None => (None, c) end) with
  | (Some s, c) => (s, c, w)
  | (None, c) => run_action c loc w
  end end end.

Definition dispatch (sub : Ctx → W → Reply * W) (c : Ctx) (loc : Loc Regex) (internal_pass : bool) (w : W) :
    Step * Ctx * W :=
  let l := payload loc in
  if internal (core l) && negb internal_pass then (StepFail 404, c, w)
  else
    let '(refused, w) := if internal_pass then (None, w) else apply_limits c (core l) w in
    match refused with
    | Some s => (StepFail s, c, w)
    | None =>
        if negb (allowed c l) then (StepFail 405, c, w)
        else
          let '(blocked, w) := if internal_pass then (None, w) else inspect c loc w in
          match blocked with
          | Some (BlockedStatus code) => (StepFail code, c, w)
          | Some (BlockedReply r) => (Done r, c, w)
          | None =>
              match auth_request (core l) with
              | None => content c loc w
              | Some u =>
                  match run_auth_request sub c u (core l) w with
                  | (Err code, c, w) => (StepFail code, c, w)
                  | (Ok _, c, w) => content c loc w
                  end
              end
          end
    end.

(** *** Location search *)

(** The innermost location: the search goes on in the nested set of each
    match. [depth] of the location is fuel enough. *)
Fixpoint descend (fuel : nat) (u : bytes) (cur : Loc Regex) (caps : option (list bytes)) :
    Loc Regex * option (list bytes) :=
  match fuel with
  | O => (cur, caps)
  | S fuel =>
      match nested (payload cur) with
      | None => (cur, caps)
      | Some s =>
          match Matching.find groups s u with
          | None => (cur, caps)
          | Some (inner, g) =>
              descend fuel u inner (match g with Some g => Some (owned_captures g) | None => caps end)
          end
      end
  end.

Definition search (s : Locs Regex) (u : bytes) : option (Loc Regex) * option (list bytes) :=
  match Matching.find groups s u with
  | None => (None, None)
  | Some (loc, g) =>
      let '(loc, caps) := descend (S (depth (payload loc))) u loc (owned_captures <$> g) in
      (Some loc, caps)
  end.

Definition route (sub : Ctx → W → Reply * W) (c : Ctx) (internal_pass : bool) (w : W) : Step * Ctx * W :=
  let '(found, caps) := search (s_locations (conf (server c))) (uri c) in
  let c := match caps with Some l => put_captures l c | None => c end in
  let c := put_matched found c in
  match found with
  | Some loc => dispatch sub c loc internal_pass w
  | None =>
      let '(refused, w) :=
        if internal_pass then (None, w) else apply_limits c (s_core (conf (server c))) w in
      match refused with
      | Some s => (StepFail s, c, w)
      | None =>
          match s_action (conf (server c)) with
          | Return status body => (Done (return_reply c w status body), c, w)
          | _ => let '(s, c, w) := serve c None w in (served_to_step s, c, w)
          end
      end
  end.

(** *** Error pages *)

Inductive ErrorRoute :=
  | RouteUri (uri : bytes) (replace : option Z)
  | RouteNamed (n : bytes) (replace : option Z)
  | RouteRedirect (url : bytes) (replace : option Z).

Definition error_page_for (c : Ctx) (w : W) (code : Z) : option ErrorRoute :=
  let pages :=
    match matched c with
    | Some l => if decide (error_pages (payload l) = []) then s_error_pages (conf (server c))
                else error_pages (payload l)
    | None => s_error_pages (conf (server c))
    end in
  ep ← head (filter (λ p, code ∈ ep_codes p) pages);
  let replace :=
    match replace_status ep with
    | None => Some code
    | Some n => if decide (n = 0) then None else Some n
    end in
  match ep_target ep with
  | ErrUri t =>
      let target := render c w t in
      if decide (target = uri c) then None else Some (RouteUri target replace)
  | ErrNamed n => Some (RouteNamed n replace)
  | ErrRedirect t => Some (RouteRedirect (render c w t) replace)
  end.

(** *** Decoration *)

Definition good_status (s : Z) : bool :=
  bool_decide (200 ≤ s ≤ 299) || bool_decide (s ∈ [301; 302; 303; 304; 307; 308]).

Definition add_header (c : Ctx) (w : W) (r : Resp) (h : AddHeader) : Resp :=
  if always h || good_status (status r) then
    let v := render c w (ah_value h) in
    if decide (v = []) then r else header (ah_name h) v r
  else r.

Definition http_date (secs : Z) : bytes := Date.append_http_date_of secs.

Definition fmt_i64 (n : Z) : bytes := if decide (n < 0) then str "-" ++ fmt_u64 (- n) else fmt_u64 n.

(** [s as u64] of a negative [s] wraps round. *)
Definition apply_expires (w : W) (r : Resp) (e : Expires) : Resp :=
  let now := env_now (env w) / 1000 in
  let put cc ex := set (str "Cache-Control") cc (set (str "Expires") ex r) in
  match e with
  | ExpiresOff => r
  | Epoch => put (str "no-cache") (http_date 0)
  | Max => put (str "max-age=315360000") (str "Thu, 31 Dec 2037 23:55:55 GMT")
  | Secs s =>
      if decide (s < 0) then put (str "no-cache") (http_date now)
      else put (str "max-age=" ++ fmt_i64 s) (http_date (now + s))
  | Daily s => put (str "max-age=" ++ fmt_i64 s) (http_date (now + wrap 64 s))
  end.

(** The bytes of a body that compression reads, file bodies included. *)
Definition body_bytes_of (b : Body File Io) : option bytes :=
  match b with
  | Bytes b => Some b
  | Mmap m start stop => Some (take (stop - start) (drop start m))
  | Inline f off len | FileBody f off len => read_at f off len
  | _ => None
  end.

Definition gzip_wanted (c : Ctx) (k : CoreConf Regex) (r : Reply) : bool :=
  let g := gzip k in
  gz_enabled g && negb (has (str "content-encoding") (resp r)) &&
  Request.accepts_gzip (buf c) (req c) &&
  negb (bool_decide (Request.minor (req c) = 0) && negb (gz_http_version_1_0 g)) &&
  match get (str "content-type") (resp r) with
  | None => false
  | Some ct =>
      let base := trim (default [] (head (split ";"%byte ct))) in
      existsb (λ t, bool_decide (t = base)) (gz_types g) || bool_decide (base = str "text/html")
  end &&
  match known_len (body r) with
  | None => false
  | Some len => bool_decide (gz_min_length g ≤ len) && bool_decide (len ≤ GZIP_MAX_FILE)
  end.

Definition weaken_etag (r : Resp) : Resp :=
  match get (str "etag") r with
  | Some e => if starts_with (str "W/") e then r else set (str "ETag") (str "W/" ++ e) r
  | None => r
  end.

Definition maybe_gzip (c : Ctx) (k : CoreConf Regex) (r : Reply) : Reply :=
  if gzip_wanted c k r then
    match raw ← body_bytes_of (body r); gzip_encode (gz_level (gzip k)) raw with
    | None => r
    | Some out =>
        let h := header (str "Content-Encoding") (str "gzip") (resp r) in
        let h := if gz_vary (gzip k) then header (str "Vary") (str "Accept-Encoding") h else h in
        mkReply (weaken_etag h) (Bytes out)
    end
  else r.

Definition decorate (c : Ctx) (w : W) (r : Reply) : Reply :=
  let k := matched_core c in
  let h := foldl (add_header c w) (resp r) (add_headers k) in
  let h := match expires k with Some e => apply_expires w h e | None => h end in
  let h :=
    match alt_svc (conf (server c)) with
    | Some alt =>
        if existsb (λ f, eq_ignore_ascii_case (fst f) (str "alt-svc")) (fields h) then h
        else header (str "Alt-Svc") alt h
    | None => h
    end in
  maybe_gzip c k (mkReply h (body r)).

(** *** The whole request *)

(** Turns a step of the server's own phase into a reply, or goes on. *)
Definition finish (c : Ctx) (w : W) (s : Step) : option Reply * Ctx :=
  match s with
  | Done r => (Some (decorate c w r), c)
  | StepFail code => (Some (decorate c w (error_reply c code)), c)
  | Internal u => (None, put_uri u c)
  | ToNamed _ => (None, c)
  end.

(** One pass: a named location, or a search. *)
Definition pass (sub : Ctx → W → Reply * W) (c : Ctx) (named : option bytes) (internal_pass : bool) (w : W) :
    Step * Ctx * W :=
  match named with
  | Some n =>
      match assoc n (Matching.named (s_locations (conf (server c)))) with
      | Some loc => dispatch sub (put_matched (Some loc) c) loc true w
      | None => (StepFail 500, c, w)
      end
  | None => route sub c internal_pass w
  end.

Definition with_reply_status (s : option Z) (r : Reply) : Reply :=
  match s with Some s => mkReply (with_status s (resp r)) (body r) | None => r end.

Definition bump (c : Ctx) : Ctx := put_redirects (redirects c + 1) c.

(** The loop; [None] is a loop longer than the fuel ([handle_terminates]). *)
Fixpoint passes (sub : Ctx → W → Reply * W) (fuel : nat) (c : Ctx) (named : option bytes)
    (internal_pass : bool) (status_override : option Z) (w : W) : option (Reply * Ctx * W) :=
  match fuel with
  | O => None
  | S fuel =>
      let '(s, c, w) := pass sub c named internal_pass w in
      let fail c := Some (decorate c w (error_reply c 500), c, w) in
      match s with
      | Done r => Some (decorate c w (with_reply_status status_override r), c, w)
      | Internal u =>
          let c := bump c in
          if decide (MAX_INTERNAL_REDIRECTS < redirects c) then fail c
          else passes sub fuel (put_uri u c) None true status_override w
      | ToNamed n =>
          let c := bump c in
          if decide (MAX_INTERNAL_REDIRECTS < redirects c) then fail c
          else passes sub fuel c (Some n) true status_override w
      | StepFail code =>
          match error_page_for c w code with
          | Some (RouteUri u replace) =>
              let c := bump c in
              if decide (MAX_INTERNAL_REDIRECTS < redirects c) then fail c
              else passes sub fuel (put_uri u c) None true replace w
          | Some (RouteNamed n replace) =>
              let c := bump c in
              if decide (MAX_INTERNAL_REDIRECTS < redirects c) then fail c
              else passes sub fuel c (Some n) true replace w
          | Some (RouteRedirect url replace) =>
              let r := header (str "Location") url (with_status (default 302 replace) new) in
              Some (decorate c w (mkReply r Empty), c, w)
          | None => Some (decorate c w (error_reply c code), c, w)
          end
      end
  end.

(** The server's own rewrites and conditions. *)
Definition server_phase (c : Ctx) (w : W) (step : option Step * Ctx) : option Reply * Ctx :=
  match step with
  | (None, c) => (None, c)
  | (Some s, c) => finish c w s
  end.

Definition handle_inner (sub : Ctx → W → Reply * W) (fuel : nat) (c : Ctx) (w : W) : option (Reply * Ctx * W) :=
  let srv := conf (server c) in
  match server_phase c w (run_rewrites c w (s_rewrites srv)) with
  | (Some r, c) => Some (r, c, w)
  | (None, c) =>
  match server_phase c w (run_ifs c w (s_ifs srv)) with
  | (Some r, c) => Some (r, c, w)
  | (None, c) => passes sub fuel c None (bool_decide (0 < auth_depth c)) None w
  end end.

(** Passes enough for every request ([handle_terminates]). *)
Definition fuel_for (c : Ctx) : nat := S (Z.to_nat (MAX_INTERNAL_REDIRECTS + 1 - redirects c)).

Definition run_handle (sub : Ctx → W → Reply * W) (c : Ctx) (w : W) : Reply * Ctx * W :=
  default (error_reply c 500, c, w) (handle_inner sub (fuel_for c) c w).

(** [handle], but for the response phases of the rule engine ([Waf]). A subrequest is refused its own
    subrequests before [sub] is called, so its own [sub] is of no matter. *)
Definition handle (c : Ctx) (w : W) : Reply * Ctx * W :=
  let sub c w := let '(r, _, w) := run_handle (λ c w, (error_reply c 500, w)) c w in (r, w) in
  run_handle sub c w.

(** [absolute_url] *)
Definition absolute_url (c : Ctx) (path : bytes) : bytes :=
  let host := Request.host (buf c) (req c) in
  let p := default 0 (port <$> local c) in
  let default_port := if decide (scheme c = str "https") then 443 else 80 in
  scheme c ++ str "://" ++ (if decide (host = []) then str "localhost" else host) ++
  (if decide (p ≠ default_port) then str ":" ++ push_num p else []) ++ path.

(** ** What the interface promises *)

(** The content modules fill in their own fields of the context. *)
Class WorldLaws := {
  serve_redirects c l w : redirects (serve c l w).1.2 = redirects c;
  proxy_redirects c l p w : redirects (proxy_pass c l p w).1.2 = redirects c;
  fastcgi_redirects c l t w : redirects (fastcgi_pass c l t w).1.2 = redirects c
}.

(** ** Termination *)

(** A field the rewrite phase leaves alone. *)
Definition steady (f : Ctx → Z) : Prop := ∀ c,
  (∀ v, f (put_uri v c) = f c) ∧ (∀ v, f (put_args v c) = f c) ∧
  (∀ v, f (put_captures v c) = f c) ∧ (∀ v, f (put_set_vars v c) = f c).

Section steady.
  Context (f : Ctx → Z) (Hf : steady f).

Lemma split_target_steady t c : f (split_target t c).2 = f c.
Proof. unfold split_target. destruct (Text.find _ t); [apply Hf | done]. Qed.

Lemma run_rewrites_steady w l : ∀ c, f (run_rewrites c w l).2 = f c.
Proof.
  induction l as [|r l IH]; intros c; [done |]. cbn [run_rewrites].
  destruct (groups _ _) as [g|]; [|done].
  destruct (split_target _ _) as [t c'] eqn:E.
  assert (f c' = f c) as <-.
  { change c' with (t, c').2. rewrite <-E, split_target_steady. apply Hf. }
  destruct (rw_flag r); try done; destruct (_ || _); try done; try apply Hf.
  rewrite IH. apply Hf.
Qed.

Lemma run_actions_steady w l : ∀ c, f (run_actions c w l).1.2 = f c.
Proof.
  induction l as [|a l IH]; intros c; [done |]. destruct a; cbn [run_actions]; try done.
  - pose proof (run_rewrites_steady w [r] c) as Hr.
    destruct (run_rewrites c w [r]) as [[s|] c']; [done |]. by rewrite IH.
  - rewrite IH. apply Hf.
Qed.

Lemma run_ifs_steady w l : ∀ c, f (run_ifs c w l).2 = f c.
Proof.
  induction l as [|b l IH]; intros c; [done |]. cbn [run_ifs].
  destruct (negb _); [done |]. pose proof (run_actions_steady w (actions b) c) as Ha.
  destruct (run_actions c w (actions b)) as [[[s|] c'] [|]]; try done. by rewrite IH.
Qed.

Lemma server_phase_steady c w s : f (server_phase c w s).2 = f s.2.
Proof. destruct s as [[[]|] c']; try done. apply Hf. Qed.

Lemma set_all_steady w l : ∀ c, f (set_all w l c) = f c.
Proof.
  unfold set_all. induction l as [|p l IH]; intros c; [done |]. cbn [foldl]. rewrite IH. apply Hf.
Qed.

(** The context the routing passes start from. *)
Lemma phases_steady c w s1 s2 (r1 r2 : option Reply) c1 c2 :
  server_phase c w (run_rewrites c w s1) = (r1, c1) →
  server_phase c1 w (run_ifs c1 w s2) = (r2, c2) → f c2 = f c.
Proof.
  intros H1 H2. transitivity (f c1).
  - change c2 with (r2, c2).2. by rewrite <-H2, server_phase_steady, run_ifs_steady.
  - change c1 with (r1, c1).2. by rewrite <-H1, server_phase_steady, run_rewrites_steady.
Qed.

End steady.

Lemma redirects_steady : steady redirects.
Proof. done. Qed.

Lemma auth_depth_steady : steady auth_depth.
Proof. done. Qed.

Lemma run_try_files_redirects c w k tf : redirects (run_try_files c w k tf).2 = redirects c.
Proof.
  unfold run_try_files. destruct (try_items _ _ _ _); [done |].
  destruct (tf_fallback tf); try done.
  pose proof (split_target_steady _ redirects_steady (render c w t) c). by destruct (split_target _ c).
Qed.

Lemma run_auth_redirects sub c u k w : redirects (run_auth_request sub c u k w).1.2 = redirects c.
Proof.
  unfold run_auth_request. case_decide; [done |]. destruct (Request.from_parts _ _ _) as [b r].
  destruct (Uri.normalize _); [|done]. destruct (sub _ w) as [reply w']. cbn.
  by rewrite (set_all_steady _ redirects_steady).
Qed.

Section laws.
  Context `{!WorldLaws}.

Lemma run_action_redirects c l w : redirects (run_action c l w).1.2 = redirects c.
Proof.
  unfold run_action. destruct (action (payload l)); try done.
  - pose proof (serve_redirects c (Some l) w). by destruct (serve _ _ _) as [[] ?].
  - pose proof (proxy_redirects c l p w). by destruct (proxy_pass _ _ _ _) as [[] ?].
  - pose proof (fastcgi_redirects c l target w). by destruct (fastcgi_pass _ _ _ _) as [[] ?].
Qed.

Lemma content_redirects c l w : redirects (content c l w).1.2 = redirects c.
Proof.
  unfold content. pose proof (run_rewrites_steady _ redirects_steady w (rewrites (payload l)) c) as H1.
  destruct (run_rewrites _ _ _) as [[s|] c1]; [done |]. cbn in H1. rewrite <-H1.
  pose proof (run_ifs_steady _ redirects_steady w (ifs (payload l)) c1) as H2.
  destruct (run_ifs _ _ _) as [[s|] c2]; [done |]. cbn in H2. rewrite <-H2.
  destruct (try_files (payload l)) as [tf|]; [|apply run_action_redirects].
  pose proof (run_try_files_redirects c2 w (core (payload l)) tf) as H3.
  destruct (run_try_files _ _ _ _) as [[s|] c3]; [done |]. cbn in H3. rewrite <-H3.
  apply run_action_redirects.
Qed.

Lemma dispatch_redirects sub c l i w : redirects (dispatch sub c l i w).1.2 = redirects c.
Proof.
  unfold dispatch. destruct (_ && _); [done |].
  destruct (if i then _ else _) as [[s|] w']; [done |]. destruct (negb _); [done |].
  destruct (if i then _ else _) as [[[]|] w'']; [done | done |]. clear w'. rename w'' into w'.
  destruct (auth_request _) as [u|]; [|apply content_redirects].
  pose proof (run_auth_redirects sub c u (core (payload l)) w') as Ha.
  destruct (run_auth_request _ _ _ _ _) as [[[[]|code] c'] w'']; [|done].
  cbn in Ha. rewrite <-Ha. apply content_redirects.
Qed.

Lemma route_redirects sub c i w : redirects (route sub c i w).1.2 = redirects c.
Proof.
  unfold route. destruct (search _ _) as [[l|] caps].
  - rewrite dispatch_redirects. by destruct caps.
  - destruct (if i then _ else _) as [[s|] w']; [by destruct caps |].
    destruct (s_action _); try (by destruct caps);
      match goal with |- context [serve ?c ?l ?w] =>
        pose proof (serve_redirects c l w); destruct (serve c l w) as [[] ?] end;
      by destruct caps.
Qed.

Lemma pass_redirects sub c n i w : redirects (pass sub c n i w).1.2 = redirects c.
Proof.
  unfold pass. destruct n as [n|]; [|apply route_redirects].
  destruct (assoc _ _); [|done]. by rewrite dispatch_redirects.
Qed.

Lemma passes_terminate sub fuel : ∀ c n i s w,
  redirects c ≤ MAX_INTERNAL_REDIRECTS →
  (Z.to_nat (MAX_INTERNAL_REDIRECTS + 1 - redirects c) ≤ fuel)%nat →
  is_Some (passes sub fuel c n i s w).
Proof.
  unfold MAX_INTERNAL_REDIRECTS. induction fuel as [|fuel IH]; intros c n i s w Hc Hf; [lia |].
  cbn [passes]. pose proof (pass_redirects sub c n i w) as Hp.
  destruct (pass sub c n i w) as [[st c'] w']. cbn [fst snd] in Hp.
  assert (∀ c2 c3 n s, redirects c2 = redirects c' + 1 → redirects c3 = redirects c2 →
    is_Some (if decide (MAX_INTERNAL_REDIRECTS < redirects c2)
             then Some (decorate c2 w' (error_reply c2 500), c2, w')
             else passes sub fuel c3 n true s w')) as Hgo.
  { intros c2 c3 n2 s2 E E3. unfold MAX_INTERNAL_REDIRECTS. case_decide; [done |].
    apply IH; lia. }
  destruct st as [r|code|u|m]; [done | | by apply Hgo | by apply Hgo].
  destruct (error_page_for c' w' code) as [[]|]; try done; by apply Hgo.
Qed.

(** More fuel changes nothing. *)
Lemma passes_mono sub fuel : ∀ fuel' c n i s w x, (fuel ≤ fuel')%nat →
  passes sub fuel c n i s w = Some x → passes sub fuel' c n i s w = Some x.
Proof.
  induction fuel as [|fuel IH]; intros [|fuel'] c n i s w x Hle; try done; [lia |]. cbn [passes].
  destruct (pass sub c n i w) as [[st c'] w']. apply le_S_n in Hle. specialize (IH fuel').
  destruct st as [r|code|u|m]; [done | | |]; [destruct (error_page_for c' w' code) as [[]|]; try done |..]; case_decide; try done; eauto.
Qed.

(** The locations of a set: its own, and those within them *)
Inductive located (s : Locs Regex) : Loc Regex → Prop :=
  | located_here l : l ∈ exact s ++ prefix s ++ regex s ++ (Matching.named s).*2 → located s l
  | located_in l inner l' : located s l → nested (payload l) = Some inner → located inner l' → located s l'.

(** No [root] and no [alias] of the server asks for [$document_root], which is
    made of it. *)
Definition rooted (s : Srv Regex) : Prop :=
  let plain k := Var.DocumentRoot ∉ vars (root_of k) in
  plain (s_core s) ∧ ∀ l, located (s_locations s) l → plain (core (payload l)).

(** Where a request can be: at the server, or at one of its locations *)
Definition at_server (s : ServerConf (HostRegex := Regex) (Server := Srv Regex)) (c : Ctx) : Prop :=
  server c = s ∧ match matched c with Some l => located (s_locations (conf s)) l | None => True end.

(** C6. Where no [root] asks for itself, the handling of a request comes to an
    end: every variable resolves wherever in its server the request is, within
    eleven activations; and whatever the rewrites, error pages and [try_files]
    do, the loop of routing passes ends with a reply, by the bound on internal
    redirects and not for want of fuel: with more it is the same reply. *)
Theorem handle_terminates sub c w :
  0 ≤ redirects c ≤ MAX_INTERNAL_REDIRECTS → rooted (conf (server c)) →
  (∀ c1 e v stack, at_server (server c) c1 → (max_depth ≤ stack)%nat → var_depth is_match e c1 stack v 0 = Some (var is_match e c1 v)) ∧
  ∃ x, ∀ fuel, (fuel_for c ≤ fuel)%nat → handle_inner sub fuel c w = Some x.
Proof.
  intros Hc [Hs Hl]. split.
  - intros c1 e v stack [H1 H2] Hst. apply variables_resolve; [| done]. unfold core_of. rewrite H1.
    destruct (matched c1) as [l|]; [by apply Hl | done].
  - unfold handle_inner. destruct (server_phase c w _) as [[r|] c1] eqn:E1; [by eexists |].
    destruct (server_phase c1 w _) as [[r|] c2] eqn:E2; [by eexists |].
    pose proof (phases_steady _ redirects_steady _ _ _ _ _ _ _ _ E1 E2) as E.
    destruct (passes_terminate sub (fuel_for c) c2 None (bool_decide (0 < auth_depth c2)) None w) as [x Hx];
      [lia | unfold fuel_for; rewrite E; lia |].
    exists x. intros fuel Hf. by eapply passes_mono.
Qed.

End laws.

(** ** Decoration *)

Lemma header_status n v r : status (header n v r) = status r.
Proof. done. Qed.

Lemma set_status n v r : status (Response.set n v r) = status r.
Proof. done. Qed.

Lemma decorate_status c w r : status (resp (decorate c w r)) = status (resp r).
Proof.
  unfold decorate. cbn zeta. set (h1 := foldl _ _ _).
  assert (status h1 = status (resp r)) as H1.
  { unfold h1. generalize (resp r). induction (add_headers (matched_core c)) as [|a l IH]; intros q; [done |].
    cbn [foldl]. rewrite IH. unfold add_header. by repeat case_match. }
  set (h2 := match expires _ with Some e => _ | None => _ end).
  assert (status h2 = status h1) as H2.
  { unfold h2. destruct (expires _) as [e|]; [|done]. unfold apply_expires.
    by destruct e; try case_decide. }
  rewrite <-H1, <-H2. set (h3 := match alt_svc _ with Some a => _ | None => _ end).
  assert (status h3 = status h2) as <- by (unfold h3; by repeat case_match).
  unfold maybe_gzip, weaken_etag. by repeat case_match.
Qed.

(** [error_page] decides the status: when a pass fails and an error page
    sends the request to another location, whatever that location replies is
    answered with the status of the rule - the failure's own by default, the
    one given, or, for a bare [=], the reply's. *)
Theorem error_page_sets_status sub fuel c n i s w c1 w1 code u n' repl r c2 w2 :
  pass sub c n i w = (StepFail code, c1, w1) →
  (error_page_for c1 w1 code = Some (RouteUri u repl) ∧ n' = None ∨
   ∃ m, error_page_for c1 w1 code = Some (RouteNamed m repl) ∧ n' = Some m ∧ u = uri c1) →
  redirects c1 < MAX_INTERNAL_REDIRECTS →
  pass sub (put_uri u (bump c1)) n' true w1 = (Done r, c2, w2) →
  ∃ reply, passes sub (S (S fuel)) c n i s w = Some (reply, c2, w2) ∧
    status (resp reply) = default (status (resp r)) repl.
Proof.
  intros H1 He Hr H2.
  assert (passes sub (S (S fuel)) c n i s w = passes sub (S fuel) (put_uri u (bump c1)) n' true repl w1) as ->.
  { cbn [passes] in *. rewrite H1.
    destruct He as [[-> ->]|(m & -> & -> & ->)]; cbn zeta; (rewrite decide_False by (unfold bump; cbn; lia));
      [done |]. by destruct c1. }
  exists (decorate c2 w2 (with_reply_status repl r)). cbn [passes]. rewrite H2.
  split; [done |]. rewrite decorate_status. by destruct repl.
Qed.

(** ** The innermost location *)

Lemma depth_inner (c : LocConf Regex) s l :
  nested c = Some s → l ∈ exact s ++ prefix s ++ regex s → (depth (payload l) < depth c)%nat.
Proof.
  intros Hn Hl. assert (∀ ls : list (Loc Regex), l ∈ ls →
    (S (depth (payload l)) ≤ foldr (λ l n, max (S (depth (payload l))) n) 0 ls)%nat) as Hmax.
  { induction ls as [|x ls IH]; [set_solver |]. intros [->|Hin]%elem_of_cons; cbn; [lia |].
    specialize (IH Hin). lia. }
  rewrite !elem_of_app in Hl. destruct c; cbn in *. subst. cbn.
  destruct Hl as [Hl|[Hl|Hl]]; apply Hmax in Hl; lia.
Qed.

Lemma descend_innermost u fuel : ∀ cur caps,
  (depth (payload cur) < fuel)%nat →
  match nested (payload (descend fuel u cur caps).1) with
  | None => True
  | Some s => Matching.find groups s u = None
  end.
Proof.
  induction fuel as [|fuel IH]; intros cur caps Hf; [lia |]. cbn [descend].
  destruct (nested (payload cur)) as [s|] eqn:En; [|cbn; by rewrite En].
  destruct (Matching.find groups s u) as [[inner g]|] eqn:Ef; [|cbn; by rewrite En].
  apply IH. apply find_elem in Ef. pose proof (depth_inner _ _ _ En Ef). lia.
Qed.

(** The search ends at the innermost location: what it finds either has
    no nested locations or none of them matches. *)
Theorem search_innermost s u loc caps :
  search s u = (Some loc, caps) →
  match nested (payload loc) with
  | None => True
  | Some inner => Matching.find groups inner u = None
  end.
Proof.
  unfold search. destruct (Matching.find groups s u) as [[l g]|]; [|done].
  pose proof (descend_innermost u (S (depth (payload l))) l (owned_captures <$> g)) as Hd.
  destruct (descend _ _ _ _) as [l' c']. intros [= -> ->]. apply Hd. lia.
Qed.

End handler.

Arguments World : clear implicits.
Arguments Served : clear implicits.
Arguments Blocked : clear implicits.

(** ** What does not depend on what

    Worlds that differ in some operations only. *)

Section independence.
  Context {Regex File Io W : Type} (E : World Regex File Io W).
  Local Abbreviation Ctx := (Ctx (Regex := Regex)).

Definition with_limits (acq : bytes → bytes → Z → W → bool * W)
    (chk : bytes → bytes → Z → bool → Z → W → LimitReq.Decision * W) (slp : Z → W → W) :
    World Regex File Io W :=
  {| groups := groups; env := env; metadata := metadata; conn_key := conn_key; acquire := acq;
     req_key := req_key; check := chk; sleep := slp; serve := serve; proxy_pass := proxy_pass;
     fastcgi_pass := fastcgi_pass; stub_body := stub_body; inspect := inspect; read_at := read_at;
     gzip_encode := gzip_encode |}.

Definition with_content
    (srv : Ctx → option (Loc Regex) → W → Served File Io * Ctx * W)
    (prx : Ctx → Loc Regex → ProxyPass → W → result Z (Reply File Io) * Ctx * W)
    (fcg : Ctx → Loc Regex → ProxyTarget → W → result Z (Reply File Io) * Ctx * W) :
    World Regex File Io W :=
  {| groups := groups; env := env; metadata := metadata; conn_key := conn_key; acquire := acquire;
     req_key := req_key; check := check; sleep := sleep; serve := srv; proxy_pass := prx;
     fastcgi_pass := fcg; stub_body := stub_body; inspect := inspect; read_at := read_at; gzip_encode := gzip_encode |}.

Lemma dispatch_internal acq chk slp sub c l w :
  dispatch (H := with_limits acq chk slp) sub c l true w = dispatch sub c l true w.
Proof. reflexivity. Qed.

Lemma pass_internal acq chk slp sub c n w :
  pass (H := with_limits acq chk slp) sub c n true w = pass sub c n true w.
Proof. reflexivity. Qed.

Lemma passes_internal acq chk slp sub fuel : ∀ c n s w,
  passes (H := with_limits acq chk slp) sub fuel c n true s w = passes sub fuel c n true s w.
Proof.
  induction fuel as [|fuel IH]; intros c n s w; [done |]. cbn [passes].
  rewrite pass_internal. destruct (pass sub c n true w) as [[[r|code|u|m] c'] w'].
  - reflexivity.
  - change (error_page_for (H := with_limits acq chk slp) c' w' code) with (error_page_for c' w' code).
    destruct (error_page_for c' w' code) as [[u r|m r|url r]|].
    + cbn zeta. case_decide; [reflexivity | apply IH].
    + cbn zeta. case_decide; [reflexivity | apply IH].
    + reflexivity.
    + reflexivity.
  - cbn zeta. case_decide; [reflexivity | apply IH].
  - cbn zeta. case_decide; [reflexivity | apply IH].
Qed.

(** A request is charged once: only the first pass of the client's own
    request asks the limits. Every later pass - internal redirect, error page,
    named location - and every authorisation subrequest goes the same way
    whatever the limits would answer, so it neither takes a slot nor adds to
    an excess. *)
Theorem limits_first_pass_only acq chk slp sub fuel c w :
  (∀ n s, passes (H := with_limits acq chk slp) sub fuel c n true s w = passes sub fuel c n true s w) ∧
  (0 < auth_depth c →
   handle_inner (H := with_limits acq chk slp) sub fuel c w = handle_inner sub fuel c w).
Proof.
  split; [intros; apply passes_internal |]. intros Hd. unfold handle_inner.
  change (server_phase (H := with_limits acq chk slp)) with (server_phase (H := E)).
  change (run_rewrites (H := with_limits acq chk slp)) with (run_rewrites (H := E)).
  change (run_ifs (H := with_limits acq chk slp)) with (run_ifs (H := E)).
  destruct (server_phase c w _) as [[r|] c1] eqn:E1; [done |].
  destruct (server_phase c1 w _) as [[r|] c2] eqn:E2; [done |].
  rewrite (phases_steady _ auth_depth_steady _ _ _ _ _ _ _ _ E1 E2), bool_decide_eq_true_2 by done.
  apply passes_internal.
Qed.

(** The content modules agree wherever no authorisation is asked. *)
Definition agree_unprotected srv prx fcg : Prop :=
  (∀ c w, srv c None w = serve c None w) ∧
  ∀ c l w, auth_request (core (payload l)) = None →
    srv c (Some l) w = serve c (Some l) w ∧ (∀ p, prx c l p w = proxy_pass c l p w) ∧
    ∀ t, fcg c l t w = fastcgi_pass c l t w.

Definition denies (sub : Ctx → W → Reply File Io * W) : Prop :=
  ∀ c w, ¬ 200 ≤ status (resp (sub c w).1) ≤ 299.

Lemma run_auth_denied sub c u k w :
  denies sub → ∃ code, (run_auth_request sub c u k w).1.1 = Err code.
Proof.
  intros Hd. unfold run_auth_request. case_decide; [by eexists |].
  destruct (Request.from_parts _ _ _) as [b r]. destruct (Uri.normalize _); [|by eexists].
  match goal with |- context [sub ?x w] => pose proof (Hd x w); destruct (sub x w) as [reply w'] end.
  cbn [fst snd] in *. rewrite decide_False by done. case_decide; by eexists.
Qed.

Lemma content_agree srv prx fcg c l w :
  agree_unprotected srv prx fcg → auth_request (core (payload l)) = None →
  content (H := with_content srv prx fcg) c l w = content c l w.
Proof.
  intros [_ Ha] Hn. unfold content.
  change (run_rewrites (H := with_content srv prx fcg)) with (run_rewrites (H := E)).
  change (run_ifs (H := with_content srv prx fcg)) with (run_ifs (H := E)).
  change (run_try_files (H := with_content srv prx fcg)) with (run_try_files (H := E)).
  destruct (run_rewrites _ _ _) as [[s|] c1]; [reflexivity |].
  destruct (run_ifs _ _ _) as [[s|] c2]; [reflexivity |].
  destruct (match try_files _ with Some _ => _ | None => _ end) as [[s|] c3]; [reflexivity |].
  destruct (Ha c3 l w Hn) as (Hs & Hp & Hf). unfold run_action. cbn [serve proxy_pass fastcgi_pass with_content].
  destruct (action (payload l)); rewrite ?Hs, ?Hp, ?Hf; reflexivity.
Qed.

Lemma dispatch_agree srv prx fcg sub c l i w :
  agree_unprotected srv prx fcg → denies sub →
  dispatch (H := with_content srv prx fcg) sub c l i w = dispatch sub c l i w.
Proof.
  intros Ha Hd. unfold dispatch.
  change (apply_limits (H := with_content srv prx fcg)) with (apply_limits (H := E)).
  change (run_auth_request (H := with_content srv prx fcg)) with (run_auth_request (H := E)).
  destruct (_ && _); [reflexivity |].
  destruct (if i then _ else _) as [[s|] w']; [reflexivity |]. destruct (negb _); [reflexivity |].
  change (inspect (World := with_content srv prx fcg)) with (inspect (World := E)).
  destruct (if i then _ else _) as [[[]|] w'']; [reflexivity | reflexivity |]. clear w'. rename w'' into w'.
  destruct (auth_request (core (payload l))) as [u|] eqn:En; [|by apply content_agree].
  destruct (run_auth_denied sub c u (core (payload l)) w' Hd) as [code Hc].
  destruct (run_auth_request _ _ _ _ _) as [[[[]|code'] c'] w2]; [done | reflexivity].
Qed.

Lemma pass_agree srv prx fcg sub c n i w :
  agree_unprotected srv prx fcg → denies sub →
  pass (H := with_content srv prx fcg) sub c n i w = pass sub c n i w.
Proof.
  intros Ha Hd. unfold pass. destruct n as [n|].
  - destruct (assoc _ _); [by apply dispatch_agree | reflexivity].
  - unfold route. change (search (H := with_content srv prx fcg)) with (search (H := E)).
    change (apply_limits (H := with_content srv prx fcg)) with (apply_limits (H := E)).
    destruct (search _ _) as [[l|] caps]; [by apply dispatch_agree |].
    destruct (if i then _ else _) as [[s|] w']; [reflexivity |].
    cbn [serve with_content]. rewrite (proj1 Ha). by destruct (s_action _).
Qed.

Lemma passes_agree srv prx fcg sub fuel : agree_unprotected srv prx fcg → denies sub →
  ∀ c n i s w, passes (H := with_content srv prx fcg) sub fuel c n i s w = passes sub fuel c n i s w.
Proof.
  intros Ha Hd. induction fuel as [|fuel IH]; intros c n i s w; [reflexivity |]. cbn [passes].
  rewrite pass_agree by done. destruct (pass sub c n i w) as [[[r|code|u|m] c'] w'].
  - reflexivity.
  - change (error_page_for (H := with_content srv prx fcg) c' w' code) with (error_page_for c' w' code).
    destruct (error_page_for c' w' code) as [[u r|m r|url r]|].
    + cbn zeta. case_decide; [reflexivity | apply IH].
    + cbn zeta. case_decide; [reflexivity | apply IH].
    + reflexivity.
    + reflexivity.
  - cbn zeta. case_decide; [reflexivity | apply IH].
  - cbn zeta. case_decide; [reflexivity | apply IH].
Qed.

(** C5. What is refused stays unread: when the authorisation service never
    says yes, the reply does not depend on what the content modules would
    serve in any location that asks it - not through internal redirects, error
    pages, [try_files] or named locations either. *)
Theorem denied_content_unread srv prx fcg sub fuel c w :
  agree_unprotected srv prx fcg → denies sub →
  handle_inner (H := with_content srv prx fcg) sub fuel c w = handle_inner sub fuel c w.
Proof.
  intros Ha Hd. unfold handle_inner.
  change (server_phase (H := with_content srv prx fcg)) with (server_phase (H := E)).
  change (run_rewrites (H := with_content srv prx fcg)) with (run_rewrites (H := E)).
  change (run_ifs (H := with_content srv prx fcg)) with (run_ifs (H := E)).
  destruct (server_phase c w _) as [[r|] c1]; [reflexivity |].
  destruct (server_phase c1 w _) as [[r|] c2]; [reflexivity |]. by apply passes_agree.
Qed.

(** Authorisation asked for by the server block is not asked at all where no
    location matches: the service is never called, and the file is served. *)
Theorem server_auth_skipped sub1 sub2 c i w caps :
  search (s_locations (conf (server c))) (uri c) = (None, caps) →
  route sub1 c i w = route sub2 c i w.
Proof. intros Hs. unfold route. by rewrite Hs. Qed.

(** An error page that is a URL answers with the failure's status, so the
    [Location] it carries is not followed; the default of 302 is reached only
    with a bare equals sign. *)
Theorem error_redirect_keeps_status sub fuel c n i s w c1 w1 code url :
  pass sub c n i w = (StepFail code, c1, w1) →
  error_page_for c1 w1 code = Some (RouteRedirect url (Some code)) →
  ∃ reply, passes sub (S fuel) c n i s w = Some (reply, c1, w1) ∧ status (resp reply) = code.
Proof.
  intros H1 H2. cbn [passes]. rewrite H1, H2. eexists. split; [reflexivity |].
  by rewrite decorate_status.
Qed.

(** ** Compression *)

Section gzip.
  Context (gunzip : bytes → option bytes).
  Context (gunzip_gzip : ∀ l b o, gzip_encode l b = Some o → gunzip o = Some b).

Lemma get_header_other n v m (r : Resp) :
  wf r → lowercase n ≠ lowercase m → get m (header n v r) = get m r.
Proof.
  intros Hw Hn. rewrite !get_fields, fields_header by done. rewrite filter_app.
  rewrite filter_cons_False, filter_nil, app_nil_r; [done |]. cbn [fst].
  by rewrite eq_ignore_ascii_case_spec.
Qed.

Lemma get_header_same n v m (r : Resp) :
  wf r → lowercase n = lowercase m → get m r = None → get m (header n v r) = Some v.
Proof.
  intros Hw Hn. rewrite !get_fields, fields_header by done. rewrite filter_app, fmap_None.
  intros Hh. destruct (filter _ (fields r)); [|done]. cbn [app].
  by rewrite filter_cons_True by by apply eq_ignore_ascii_case_spec.
Qed.

Lemma weaken_etag_weak r e :
  wf r → get (str "etag") (weaken_etag r) = Some e → starts_with (str "W/") e = true.
Proof.
  intros Hw. unfold weaken_etag. destruct (get (str "etag") r) as [e0|] eqn:Ee; [|by rewrite Ee].
  destruct (starts_with (str "W/") e0) eqn:Es; [rewrite Ee; by intros [= <-] |].
  unfold Response.set. rewrite (get_header_same (str "ETag")).
  - intros [= <-]. apply starts_with_spec. by exists e0.
  - by apply remove_wf.
  - done.
  - rewrite get_fields, remove_fields, list_filter_filter. apply fmap_None.
    destruct (filter _ (fields r)) as [|f l] eqn:El; [done |]. exfalso.
    assert (f ∈ f :: l) as Hf by set_solver. rewrite <-El in Hf.
    apply list_elem_of_filter in Hf as [[H1 H2] _].
    apply eq_ignore_ascii_case_spec in H1. apply not_true_iff_false in H2. apply H2.
    by apply eq_ignore_ascii_case_spec.
Qed.

Lemma weaken_etag_other n r : wf r → lowercase n ≠ lowercase (str "etag") → get n (weaken_etag r) = get n r.
Proof.
  intros Hw Hn. unfold weaken_etag. destruct (get (str "etag") r); [|done].
  destruct (starts_with _ _); [done |]. unfold Response.set.
  rewrite get_header_other; [| by apply remove_wf | by apply not_eq_sym].
  rewrite !get_fields, remove_fields, list_filter_filter. do 2 f_equal.
  apply list_filter_iff. intros f. split; [by intros [] |]. intros Hf. split; [done |].
  apply not_true_iff_false. rewrite eq_ignore_ascii_case_spec in *.
  assert (lowercase (str "ETag") = lowercase (str "etag")) by done. congruence.
Qed.

(** Compression keeps the content: a reply is left alone, or the client
    asked for gzip, the body decompresses to the one it had, files read from
    the disk included, the reply says so, and its entity tag is weak. *)
Theorem gzip_keeps_content c k r :
  wf (resp r) →
  maybe_gzip c k r = r ∨
  ∃ raw out, body_bytes_of (body r) = Some raw ∧ body (maybe_gzip c k r) = Bytes out ∧
    gunzip out = Some raw ∧ Request.accepts_gzip (buf c) (req c) = true ∧
    get (str "content-encoding") (resp (maybe_gzip c k r)) = Some (str "gzip") ∧
    (∀ e, get (str "etag") (resp (maybe_gzip c k r)) = Some e → starts_with (str "W/") e = true) ∧
    status (resp (maybe_gzip c k r)) = status (resp r).
Proof.
  intros Hw. unfold maybe_gzip. destruct (gzip_wanted c k r) eqn:Eg; [|by left].
  destruct (body_bytes_of (body r)) as [raw|]; cbn [mbind option_bind]; [|by left].
  destruct (gzip_encode _ raw) as [out|] eqn:Eo; [|by left]. right. exists raw, out.
  unfold gzip_wanted in Eg. repeat (apply andb_prop in Eg as [Eg ?]).
  set (h := header (str "Content-Encoding") (str "gzip") (resp r)).
  assert (wf h) as Hh by by apply header_wf.
  set (h' := if gz_vary (gzip k) then _ else h).
  assert (wf h') as Hh' by (unfold h'; destruct (gz_vary _); [by apply header_wf | done]).
  cbn [body resp]. split_and!; try done.
  - eauto.
  - rewrite weaken_etag_other by done.
    assert (get (str "content-encoding") h' = get (str "content-encoding") h) as ->.
    { unfold h'. destruct (gz_vary _); [|done]. by rewrite get_header_other. }
    apply get_header_same; [done | done |].
    match goal with Hn : negb (has _ _) = true |- _ => apply negb_true_iff in Hn; unfold has in Hn;
      apply bool_decide_eq_false in Hn end.
    by apply eq_None_not_Some.
  - intros e. by apply weaken_etag_weak.
  - unfold weaken_etag, h'. by repeat case_match.
Qed.

End gzip.

End independence.

(** ** An instance

    Regular expressions that are prefixes, a file system without files, and
    content that is a status. *)

Definition sample_world (code : Z) : World bytes unit unit unit :=
  {| groups r s := if starts_with r s then Some [] else None;
     env _ := mkEnv [] 0 0 0 [] [] (λ _, []);
     metadata _ _ := None;
     conn_key _ := None;
     acquire _ _ _ w := (true, w);
     req_key _ := None;
     check _ _ _ _ _ w := (LimitReq.Pass, w);
     sleep _ w := w;
     serve c _ w := (ServedStatus code, c, w);
     proxy_pass c _ _ w := (Err 502, c, w);
     fastcgi_pass c _ _ w := (Err 502, c, w);
     stub_body _ _ := [];
     inspect _ _ w := (None, w);
     read_at _ _ _ := None;
     gzip_encode _ b := Some (str "gz" ++ b) |}.

#[export] Instance sample_laws code : WorldLaws (H := sample_world code).
Proof. by split. Qed.

Definition protected_core : CoreConf bytes :=
  let d := default_core in
  mkCoreConf (root d) (alias d) (index d) (autoindex d) (default_type d) (charset d) (sendfile
    d) (tcp_nopush d) (tcp_nodelay d) (keepalive_timeout d) (keepalive_requests d)
    (client_header_timeout d) (client_body_timeout d) (send_timeout d) (client_max_body_size
    d) (client_header_buffer_size d) (large_client_header_buffers d) (server_tokens d) (etag
    d) (msie_padding d) (gzip d) (add_headers d) (expires d) (proxy d) (output_buffers d)
    (directio d) (log_not_found d) (absolute_redirect d) (port_in_redirect d)
    (server_name_in_redirect d) (if_modified_since d) (max_ranges d) (limit_rate d)
    (limit_rate_after d) (satisfy_any d) (internal d) (Some (str "/auth")) (auth_request_set
    d) (open_file_cache d) (fastcgi d) (proxy_cache d) (limit_reqs d) (limit_req_status d)
    (limit_conns d) (limit_conn_status d) (limit_conn_dry_run d).

Definition plain_loc (m : LocMatch) (line : Z) (core : CoreConf bytes) (a : Action)
    (inner : option (Locs bytes)) : Loc bytes :=
  mkLocation m line (mkLocConf core a None [] [] [] [] inner None).

(** [/] asks for authorisation and fails, [/e] answers; [404] is an error
    page. *)
Definition sample_locs : Locs bytes :=
  loc_set [plain_loc (Prefix (str "/")) 1 default_core Static
             (Some (loc_set [plain_loc (Prefix (str "/p")) 2 protected_core Static None]));
           plain_loc (Exact (str "/e")) 3 default_core (Return 200 (Some (compile (str "oops")))) None].

Definition sample_request (u : bytes) : Ctx (Regex := bytes) :=
  let srv := mkServerConf [ExactName (str "example.com")]
    (mkSrv default_core sample_locs [] []
       [mkErrorPage [404] None (ErrUri (compile (str "/e")))] [] NoAction None) in
  new_ctx [] Request.new_req [] [] srv u None None (str "http") 1 0.

Definition refuse (c : Ctx (Regex := bytes)) (w : unit) : Reply unit unit * unit :=
  (mkReply (with_status 403 new) Empty, w).

Inductive plain_here (l : Loc bytes) : Prop :=
  plain_loc_here : Var.DocumentRoot ∉ vars (root_of (core (payload l))) →
    (∀ inner, nested (payload l) = Some inner → ∀ l', l' ∈ exact inner ++ prefix inner ++ regex inner ++ (Matching.named inner).*2 → plain_here l') → plain_here l.

Lemma sample_rooted : rooted (conf (server (sample_request (str "/x")))).
Proof.
  assert (∀ s l, located s l → (∀ l, l ∈ exact s ++ prefix s ++ regex s ++ (Matching.named s).*2 → plain_here l) → plain_here l) as H.
  { intros s l Hl. induction Hl as [s l Hin|s l inner l' Hl IH1 Hn Hl' IH2]; intros Hf; [by apply Hf |].
    apply IH2. destruct (IH1 Hf) as [_ Hi]. by apply Hi. }
  split; [by apply (bool_decide_unpack _) |]. intros l Hl. refine (let 'plain_loc_here _ Hp _ := H _ l Hl _ in Hp). clear.
  assert (∀ m line k a, Var.DocumentRoot ∉ vars (root_of k) → plain_here (plain_loc m line k a None)) as Hleaf.
  { intros m line k a Hk. constructor; [done |]. by intros inner [=]. }
  assert (∀ m line k a inner, Var.DocumentRoot ∉ vars (root_of k) →
    Forall plain_here (exact inner ++ prefix inner ++ regex inner ++ (Matching.named inner).*2) → plain_here (plain_loc m line k a (Some inner))) as Hnest.
  { intros m line k a inner Hk Hf. constructor; [done |]. intros i [= <-]. by apply Forall_forall. }
  apply Forall_forall. cbn [conf server sample_request new_ctx s_locations].
  change (Forall plain_here [plain_loc (Exact (str "/e")) 3 default_core (Return 200 (Some (compile (str "oops")))) None;
    plain_loc (Prefix (str "/")) 1 default_core Static (Some (loc_set [plain_loc (Prefix (str "/p")) 2 protected_core Static None]))]).
  constructor; [apply Hleaf; by apply (bool_decide_unpack _) |]. constructor; [| constructor].
  apply Hnest; [by apply (bool_decide_unpack _) |].
  change (Forall plain_here [plain_loc (Prefix (str "/p")) 2 protected_core Static None]).
  constructor; [apply Hleaf; by apply (bool_decide_unpack _) | constructor].
Qed.

Lemma handle_terminates_witness :
  ∃ x, ∀ fuel, (12 ≤ fuel)%nat → handle_inner (H := sample_world 404) refuse fuel (sample_request (str "/x")) tt = Some x.
Proof.
  exact (proj2 (handle_terminates (H := sample_world 404) refuse (sample_request (str "/x")) tt ltac:(vm_compute; split; congruence) sample_rooted)).
Defined.

Lemma search_innermost_witness :
  search (H := sample_world 404) sample_locs (str "/p/a") =
    (Some (plain_loc (Prefix (str "/p")) 2 protected_core Static None), None) ∧
  match nested (payload (plain_loc (Prefix (str "/p")) 2 protected_core Static None)) with
  | None => True
  | Some inner => Matching.find (groups (World := sample_world 404)) inner (str "/p/a") = None
  end.
Proof.
  assert (search (H := sample_world 404) sample_locs (str "/p/a") =
    (Some (plain_loc (Prefix (str "/p")) 2 protected_core Static None), None)) as E by reflexivity.
  split; [exact E |]. apply (search_innermost _ _ _ _ E).
Defined.

Lemma denied_content_unread_witness :
  handle_inner (H := with_content (sample_world 404)
    (λ c l w, match l with
              | Some l => match auth_request (core (payload l)) with
                          | Some _ => (ServedReply (mkReply (with_status 200 new) (Bytes (str "secret"))), c, w)
                          | None => (ServedStatus 404, c, w)
                          end
              | None => (ServedStatus 404, c, w)
              end)
    (λ c _ _ w, (Err 502, c, w)) (λ c _ _ w, (Err 502, c, w)))
    refuse 12 (sample_request (str "/p/a")) tt =
  handle_inner (H := sample_world 404) refuse 12 (sample_request (str "/p/a")) tt.
Proof.
  apply denied_content_unread.
  - split; [done |]. intros c l w E. by rewrite E.
  - intros c w. cbn. lia.
Defined.

Lemma limits_first_pass_only_witness :
  passes (H := with_limits (sample_world 404) (λ _ _ _ w, (false, w)) (λ _ _ _ _ _ w, (LimitReq.Reject, w))
    (λ _ w, w)) refuse 12 (sample_request (str "/e")) None true None tt =
  passes (H := sample_world 404) refuse 12 (sample_request (str "/e")) None true None tt.
Proof.
  apply (proj1 (limits_first_pass_only (sample_world 404) (λ _ _ _ w, (false, w))
    (λ _ _ _ _ _ w, (LimitReq.Reject, w)) (λ _ w, w) refuse 12 (sample_request (str "/e")) tt)).
Defined.

Lemma error_page_sets_status_witness :
  ∃ reply, passes (H := sample_world 404) refuse 2 (sample_request (str "/x")) None false None tt =
    Some (reply, put_matched (Some (plain_loc (Exact (str "/e")) 3 default_core
                    (Return 200 (Some (compile (str "oops")))) None))
                  (put_uri (str "/e") (bump (put_matched (Some (plain_loc (Prefix (str "/")) 1 default_core
                    Static (Some (loc_set [plain_loc (Prefix (str "/p")) 2 protected_core Static None]))))
                    (sample_request (str "/x"))))), tt) ∧
    status (resp reply) = 404.
Proof.
  eapply (error_page_sets_status (H := sample_world 404) refuse 0 (sample_request (str "/x")) None false None
    tt _ _ 404 (str "/e") None (Some 404)).
  - reflexivity.
  - left. split; reflexivity.
  - unfold MAX_INTERNAL_REDIRECTS. cbn. lia.
  - reflexivity.
Defined.

Definition gzip_core : CoreConf bytes :=
  let d := default_core in
  mkCoreConf (root d) (alias d) (index d) (autoindex d) (default_type d) (charset d) (sendfile
    d) (tcp_nopush d) (tcp_nodelay d) (keepalive_timeout d) (keepalive_requests d)
    (client_header_timeout d) (client_body_timeout d) (send_timeout d) (client_max_body_size
    d) (client_header_buffer_size d) (large_client_header_buffers d) (server_tokens d) (etag
    d) (msie_padding d) (mkGzipConf true 1 0 [] true false false false) (add_headers d)
    (expires d) (proxy d) (output_buffers d) (directio d) (log_not_found d) (absolute_redirect
    d) (port_in_redirect d) (server_name_in_redirect d) (if_modified_since d) (max_ranges d)
    (limit_rate d) (limit_rate_after d) (satisfy_any d) (internal d) (auth_request d)
    (auth_request_set d) (open_file_cache d) (fastcgi d) (proxy_cache d) (limit_reqs d)
    (limit_req_status d) (limit_conns d) (limit_conn_status d) (limit_conn_dry_run d).

(** A request that accepts gzip. *)
Definition gzip_request : Ctx (Regex := bytes) :=
  let '(b, r) := Request.from_parts (str "GET") (str "/") [(str "Accept-Encoding", str "gzip")] in
  new_ctx b r [] [] (server (sample_request (str "/"))) (str "/") None None (str "http") 1 0.

Definition gzip_sample : Reply unit unit :=
  mkReply (header (str "ETag") (str "x") (header (str "Content-Type") (str "text/html") new)) (Bytes (str "hello")).

Lemma gzip_keeps_content_witness :
  let r' := maybe_gzip (H := sample_world 404) gzip_request gzip_core gzip_sample in
  body r' = Bytes (str "gzhello") ∧ get (str "etag") (resp r') = Some (str "W/x") ∧
  (r' = gzip_sample ∨
   ∃ raw out, body_bytes_of (H := sample_world 404) (body gzip_sample) = Some raw ∧ body r' = Bytes out ∧
     strip_prefix (str "gz") out = Some raw ∧
     Request.accepts_gzip (buf gzip_request) (req gzip_request) = true ∧
     get (str "content-encoding") (resp r') = Some (str "gzip") ∧
     (∀ e, get (str "etag") (resp r') = Some e → starts_with (str "W/") e = true) ∧
     status (resp r') = status (resp gzip_sample)).
Proof.
  split; [reflexivity |]. split; [reflexivity |].
  apply (gzip_keeps_content (sample_world 404) (strip_prefix (str "gz"))).
  - intros l b o [= <-]. apply (strip_prefix_app (str "gz")).
  - by apply header_wf, header_wf, Forall_nil_2.
Defined.

(** A range of a file is compressed like the whole of it, under the same
    [Content-Range]: the status is not looked at. *)
Theorem range_is_compressed :
  let r := mkReply (with_status 206 (header (str "Content-Range") (str "bytes 0-4/100") (resp gzip_sample)))
    (body gzip_sample) in
  let r' := maybe_gzip (H := sample_world 404) gzip_request gzip_core r in
  status (resp r') = 206 ∧ get (str "content-range") (resp r') = Some (str "bytes 0-4/100") ∧
  body r' = Bytes (str "gzhello").
Proof. split_and!; reflexivity. Qed.
