(* ===== verification/Fcache.v ===== *)
(** * [src/server/fcache.rs]: the open-file cache

    One worker's map from paths to what they resolved to. Times are the
    milliseconds of a monotonic clock; the order a hash map is walked in is
    an input of eviction. *)
From S2P Require Import Prelude.
From S2P Require Import Text.
From S2P Require Import Sort.
From S2P Require Import Model.

Open Scope oxi_scope.
Open Scope Z_scope.

Section fcache.
  Context {File : Type}.

(** [Cached]; a modification time is nanoseconds since 1970. *)
Inductive Cached := CFile (file : File) (size mtime : Z) | CDir | CError (status : Z).

Record Entry := mkEntry { val : Cached; checked : Z; last_used : Z; uses : Z }.

Abbreviation Cache := (gmap bytes Entry).

(** Under-used entries first, then the oldest. *)
Definition victim_le (p : OpenFileCache) (a b : bytes * Entry) : bool :=
  let under e := bool_decide (uses e < ofc_min_uses p) in
  if under a.2 && negb (under b.2) then true
  else if under b.2 && negb (under a.2) then false
  else bool_decide (last_used a.2 ≤ last_used b.2).

Definition drop_n (p : OpenFileCache) : nat := Z.to_nat (Z.max (ofc_max p / 10) 1).

(** [walk] is the map's content in the order its iterator gives. *)
Definition evict (p : OpenFileCache) (walk : list (bytes * Entry)) (m : Cache) : Cache :=
  foldr (λ v m, delete v.1 m) m (take (drop_n p) (sort_by (victim_le p) walk)).

(** The first half of [lookup]: a fresh entry is used, a stale one dropped. *)
Definition probe (p : OpenFileCache) (now : Z) (path : bytes) (m : Cache) : option Cached * Cache :=
  match m !! path with
  | Some e =>
      if decide (now - checked e ≤ ofc_valid p ∧ now - last_used e ≤ ofc_inactive p)
      then (Some (val e), <[path := mkEntry (val e) (checked e) now (Z.min (2 ^ 32 - 1) (uses e + 1))]> m)
      else (None, delete path m)
  | None => (None, m)
  end.

Definition cacheable (p : OpenFileCache) (v : Cached) : bool :=
  match v with CError _ => ofc_errors p | _ => true end.

(** The second half: [v] is what the path resolved to. *)
Definition remember (p : OpenFileCache) (now : Z) (path : bytes) (v : Cached)
    (walk : list (bytes * Entry)) (m : Cache) : Cache :=
  if cacheable p v then
    let m := if decide (ofc_max p ≤ Z.of_nat (size m)) then evict p walk m else m in
    <[path := mkEntry v now now 1]> m
  else m.

(** [lookup]; [open_direct] is what the file system answers now. *)
Definition lookup (p : OpenFileCache) (now : Z) (path : bytes) (open_direct : Cached)
    (walk : list (bytes * Entry)) (m : Cache) : Cached * Cache :=
  if negb (ofc_enabled p) then (open_direct, m)
  else
    match probe p now path m with
    | (Some v, m) => (v, m)
    | (None, m) => (open_direct, remember p now path open_direct walk m)
    end.

(** [io_status]: the kind of an [io::Error] and its OS number. *)
Inductive ErrorKind := NotFound | PermissionDenied | OtherKind.
Record IoError := mkIoError { kind : ErrorKind; raw_os_error : option Z }.

(** Linux's numbers, the ones [libc] gives there. *)
Definition ENAMETOOLONG : Z := 36.
Definition ELOOP : Z := 40.

Definition io_status (e : IoError) : Z :=
  match kind e with
  | NotFound => 404
  | PermissionDenied => 403
  | OtherKind =>
      match raw_os_error e with
      | Some n => if decide (n = ENAMETOOLONG ∨ n = ELOOP) then 404 else 500
      | None => 500
      end
  end.

(** What [fstat] fills in. *)
Record RawStat := mkRawStat { st_mode : Z; st_size : Z; st_mtime : Z; st_mtime_nsec : Z }.
Record Stat := mkStat { is_dir : bool; stat_size : Z; stat_mtime : Z }.

Definition S_IFMT : Z := 61440.
Definition S_IFDIR : Z := 16384.

(** [stat_fd]: nanoseconds are dropped before 1970. *)
Definition stat_fd (r : result IoError RawStat) : result IoError Stat :=
  match r with
  | Err e => Err e
  | Ok st =>
      Ok (mkStat (bool_decide (Z.land (st_mode st) S_IFMT = S_IFDIR)) (wrap 64 (st_size st))
           (if decide (0 ≤ st_mtime st) then st_mtime st * 10 ^ 9 + st_mtime_nsec st
            else st_mtime st * 10 ^ 9))
  end.

(** [open_direct], over the answers of [open] and [fstat]. *)
Definition open_direct (f : result IoError (File * result IoError RawStat)) : Cached :=
  match f with
  | Err e => CError (io_status e)
  | Ok (file, st) =>
      match stat_fd st with
      | Ok s => if is_dir s then CDir else CFile file (stat_size s) (stat_mtime s)
      | Err e => CError (io_status e)
      end
  end.

(** ** A worker's history *)

(** One call: the location's settings, the clock, the path, what the file
    system would answer, and the order of the map. *)
Record Call := mkCall {
  c_conf : OpenFileCache;
  c_now : Z;
  c_path : bytes;
  c_open : Cached;
  c_walk : list (bytes * Entry)
}.

Definition call (k : Call) (m : Cache) : Cached * Cache :=
  lookup (c_conf k) (c_now k) (c_path k) (c_open k) (c_walk k) m.

Fixpoint run (l : list Call) (m : Cache) : list Cached * Cache :=
  match l with
  | [] => ([], m)
  | k :: l =>
      let '(v, m) := call k m in
      let '(vs, m) := run l m in (v :: vs, m)
  end.

(** ** Lemmas *)

Lemma delete_all_lookup (l : list (bytes * Entry)) (m : Cache) p e :
  foldr (λ v m, delete v.1 m) m l !! p = Some e ↔ m !! p = Some e ∧ p ∉ l.*1.
Proof.
  induction l as [|v l IH]; cbn; [set_solver |]. rewrite lookup_delete_Some, IH. set_solver.
Qed.

Lemma evict_subseteq p w m : evict p w m ⊆ m.
Proof. apply map_subseteq_spec. intros k e. unfold evict. rewrite delete_all_lookup. naive_solver. Qed.

Lemma probe_subseteq p now path m path' e :
  (probe p now path m).2 !! path' = Some e →
  ∃ e', m !! path' = Some e' ∧ val e = val e' ∧ checked e = checked e'.
Proof.
  unfold probe. destruct (m !! path) as [e0|] eqn:E; [|naive_solver].
  case_decide; cbn.
  - rewrite lookup_insert_Some. intros [[<- <-] | [? ?]]; [exists e0; naive_solver | naive_solver].
  - rewrite lookup_delete_Some. naive_solver.
Qed.

(** Everything in the map was the file system's answer at its time. *)
Definition backed (h : list (Z * bytes * Cached)) (m : Cache) : Prop :=
  ∀ path e, m !! path = Some e → (checked e, path, val e) ∈ h.

Definition opens (k : Call) : Z * bytes * Cached := (c_now k, c_path k, c_open k).

Lemma backed_probe h p now path m : backed h m → backed h (probe p now path m).2.
Proof. intros Hb q e (e' & He & -> & ->)%probe_subseteq. by apply Hb. Qed.

Lemma call_backed h k m : backed h m → backed (opens k :: h) (call k m).2.
Proof.
  intros Hb. unfold call, lookup.
  assert (Hw : ∀ m', backed h m' → backed (opens k :: h) m')
    by (intros m' H' q e He; apply elem_of_cons; right; by apply H').
  destruct (ofc_enabled (c_conf k)); cbn; [|by apply Hw].
  pose proof (backed_probe h (c_conf k) (c_now k) (c_path k) m Hb) as Hp.
  destruct (probe _ _ _ m) as [[v|] m'] eqn:E; cbn in *; [by apply Hw |].
  unfold remember. destruct (cacheable _ _); [|by apply Hw].
  intros q e. rewrite lookup_insert_Some. intros [[<- <-] | [_ He]]; [left |].
  right. apply Hp. case_decide; [by eapply lookup_weaken, evict_subseteq | done].
Qed.

Lemma call_answer h k m : 0 ≤ ofc_valid (c_conf k) → backed h m →
  ∃ t, (t, c_path k, (call k m).1) ∈ opens k :: h ∧ c_now k - t ≤ ofc_valid (c_conf k).
Proof.
  intros Hv Hb. unfold call, lookup.
  assert (Hd : ∃ t, (t, c_path k, c_open k) ∈ opens k :: h ∧ c_now k - t ≤ ofc_valid (c_conf k))
    by (exists (c_now k); split; [left | lia]).
  destruct (ofc_enabled (c_conf k)); cbn; [|done]. unfold probe.
  destruct (m !! c_path k) as [e|] eqn:E; cbn; [|done].
  case_decide as Hf; cbn; [|done].
  exists (checked e). split; [|lia]. right. by apply Hb.
Qed.

(** ** Properties *)

(** An answer is never older than the directive allows: whatever a worker's
    calls were, each one gets what the file system said of that very path at
    some call of the history no more than [valid] ago. *)
Theorem answers_are_recent l k :
  0 ≤ ofc_valid (c_conf k) →
  ∃ t, (t, c_path k, (call k (run l ∅).2).1) ∈ opens k :: reverse (opens <$> l) ∧
       c_now k - t ≤ ofc_valid (c_conf k).
Proof.
  intros Hv. apply call_answer; [done |].
  assert (H : ∀ l h m, backed h m → backed (reverse (opens <$> l) ++ h) (run l m).2).
  { clear. intros l. induction l as [|k l IH]; intros h m Hb; cbn [run]; [done |].
    pose proof (call_backed h k m Hb) as Hc. destruct (call k m) as [v m']. cbn in Hc.
    specialize (IH _ _ Hc). destruct (run l m') as [vs m'']. cbn [snd] in *.
    rewrite fmap_cons, reverse_cons, <-(assoc (++)). exact IH. }
  rewrite <-(app_nil_r (reverse _)). apply H. intros p e. by rewrite lookup_empty.
Qed.

Lemma victim_le_total p a b : victim_le p a b = true ∨ victim_le p b a = true.
Proof. unfold victim_le. repeat case_bool_decide; cbn; auto; lia. Qed.

Lemma victim_le_trans p a b c : victim_le p a b = true → victim_le p b c = true → victim_le p a c = true.
Proof. unfold victim_le. repeat case_bool_decide; cbn; try done; lia. Qed.

Lemma delete_all_size (l : list (bytes * Entry)) (m : Cache) :
  NoDup l.*1 → (∀ v, v ∈ l → m !! v.1 = Some v.2) →
  (size (foldr (λ v m, delete v.1 m) m l) + length l = size m)%nat.
Proof.
  induction l as [|v l IH]; cbn; intros Hn Hl; [lia |].
  apply NoDup_cons in Hn as [Hv Hn].
  rewrite <-IH by (done || set_solver).
  rewrite map_size_delete_Some; [|exists v.2; rewrite delete_all_lookup; set_solver].
  assert (size (foldr (λ v m, delete v.1 m) m l) ≠ 0%nat); [|lia].
  apply map_size_ne_0_lookup. exists v.1. eexists. rewrite delete_all_lookup. split; [|done]. apply Hl. left.
Qed.

(** Eviction makes room: of a map walked in any order it drops a tenth of
    [max], at least one entry, and everything it drops was used less often
    than [min_uses] asks, or longer ago, than all it keeps. *)
Theorem evict_drops_the_least_used p w m :
  w ≡ₚ map_to_list m →
  size (evict p w m) = (size m - drop_n p)%nat ∧
  ∀ a b, m !! a.1 = Some a.2 → evict p w m !! a.1 = None → evict p w m !! b.1 = Some b.2 →
    victim_le p a b = true.
Proof.
  intros Hw. unfold evict. set (s := sort_by (victim_le p) w).
  assert (Hs : s ≡ₚ map_to_list m) by (by unfold s; rewrite sort_by_perm).
  assert (Hn : NoDup s.*1) by (rewrite Hs; apply NoDup_fst_map_to_list).
  assert (Hel : ∀ v, v ∈ s → m !! v.1 = Some v.2)
    by (intros [q e]; rewrite Hs; by intros ?%elem_of_map_to_list).
  assert (Hsplit : s = take (drop_n p) s ++ drop (drop_n p) s) by (by rewrite take_drop).
  split.
  - assert (Hlen : length s = size m) by (rewrite Hs; apply length_map_to_list).
    unshelve epose proof (delete_all_size (take (drop_n p) s) m _ _) as Hd;
      [| | rewrite length_take, Hlen in Hd; lia].
    + rewrite fmap_take. eapply sublist_NoDup; [exact Hn | apply sublist_take].
    + intros v Hv. apply Hel. rewrite Hsplit. set_solver.
  - intros a b Ha Hgone Hb. apply (sorted_by_app (victim_le p) (take (drop_n p) s) (drop (drop_n p) s)).
    + rewrite <-Hsplit. apply sort_by_sorted; [apply victim_le_total | apply victim_le_trans].
    + destruct (decide (a.1 ∈ (take (drop_n p) s).*1)) as [Hin | Hin].
      * apply list_elem_of_fmap in Hin as (v & Hv & Hin). assert (v ∈ s) by (rewrite Hsplit; set_solver).
        apply Hel in H. rewrite Hv in Ha. destruct a, v. cbn in *. by simplify_eq.
      * exfalso. eapply eq_None_not_Some; [exact Hgone | exists a.2]. by apply delete_all_lookup.
    + apply delete_all_lookup in Hb as [Hb Hnin].
      assert (b ∈ s) as Hbs by (rewrite Hs; destruct b; by apply elem_of_map_to_list).
      rewrite Hsplit in Hbs. apply elem_of_app in Hbs as [Hbs | ?]; [|done].
      exfalso. apply Hnin. by apply list_elem_of_fmap_2.
Qed.

(** Each call sees the map in some order its iterator may give. *)
Fixpoint walked (l : list Call) (m : Cache) : Prop :=
  match l with
  | [] => True
  | k :: l => c_walk k ≡ₚ map_to_list (probe (c_conf k) (c_now k) (c_path k) m).2 ∧ walked l (call k m).2
  end.

Lemma call_bounded p k m :
  1 ≤ ofc_max p → c_conf k = p → c_walk k ≡ₚ map_to_list (probe p (c_now k) (c_path k) m).2 →
  Z.of_nat (size m) ≤ ofc_max p → Z.of_nat (size (call k m).2) ≤ ofc_max p.
Proof.
  intros Hp Hk Hw Hm. unfold call, lookup. rewrite Hk.
  destruct (ofc_enabled p); cbn; [|done].
  assert (Hsz : Z.of_nat (size (probe p (c_now k) (c_path k) m).2) ≤ ofc_max p).
  { unfold probe. destruct (m !! c_path k) eqn:E; cbn; [|done]. case_decide; cbn.
    - rewrite map_size_insert, E. cbn. lia.
    - rewrite map_size_delete, E. cbn. lia. }
  destruct (probe _ _ _ m) as [[v|] m'] eqn:E; cbn in *; [done |].
  unfold remember. destruct (cacheable _ _); [|done]. case_decide as Hf.
  - destruct (evict_drops_the_least_used p (c_walk k) m' Hw) as [He _].
    rewrite map_size_insert. unfold drop_n in He.
    destruct (evict p (c_walk k) m' !! c_path k); cbn; lia.
  - rewrite map_size_insert. destruct (m' !! c_path k); cbn; lia.
Qed.

(** The cache never outgrows [max], whatever the calls, as long as the
    locations of a worker agree on it. *)
Theorem size_bounded p l :
  1 ≤ ofc_max p → Forall (λ k, c_conf k = p) l → walked l ∅ → Z.of_nat (size (run l ∅).2) ≤ ofc_max p.
Proof.
  intros Hp Hl Hw.
  assert (H : ∀ m, walked l m → Z.of_nat (size m) ≤ ofc_max p → Z.of_nat (size (run l m).2) ≤ ofc_max p).
  { clear Hw. induction Hl as [|k l Hk Hl IH]; intros m Hw Hm; cbn [run]; [done |].
    destruct Hw as [Hkw Hw]. rewrite Hk in Hkw. pose proof (call_bounded p k m Hp Hk Hkw Hm) as Hc.
    destruct (call k m) as [v m']. specialize (IH m' Hw Hc). by destruct (run l m'). }
  apply H; [done |]. rewrite map_size_empty. lia.
Qed.
End fcache.

(** ** At concrete inputs *)

Definition sample_conf : OpenFileCache := mkOpenFileCache true 1 60000 30000 1 true.

Definition sample_calls : list (Call (File := unit)) :=
  [mkCall sample_conf 0 (str "/a") (CFile tt 5 0) [];
   mkCall sample_conf 10000 (str "/a") (CError 404) [(str "/a", mkEntry (CFile tt 5 0) 0 10000 2)];
   mkCall sample_conf 20000 (str "/b") CDir [(str "/a", mkEntry (CFile tt 5 0) 0 10000 2)]].

Lemma answers_are_recent_witness :
  let k := mkCall sample_conf 30000 (str "/b") (CError 404) [] in
  (call k (run sample_calls ∅).2).1 = CDir (File := unit) ∧
  ∃ t, (t, c_path k, (call k (run sample_calls ∅).2).1) ∈ opens k :: reverse (opens <$> sample_calls) ∧
       c_now k - t ≤ ofc_valid (c_conf k).
Proof. split; [vm_compute; reflexivity | apply answers_are_recent; cbn; lia]. Defined.

Lemma evict_drops_the_least_used_witness :
  let m : gmap bytes (Entry (File := unit)) := {[str "/a" := mkEntry CDir 0 0 1]} in
  size (evict sample_conf (map_to_list m) m) = (size m - drop_n sample_conf)%nat ∧
  ∀ a b, m !! a.1 = Some a.2 → evict sample_conf (map_to_list m) m !! a.1 = None →
    evict sample_conf (map_to_list m) m !! b.1 = Some b.2 → victim_le sample_conf a b = true.
Proof. apply evict_drops_the_least_used. reflexivity. Defined.

Lemma size_bounded_witness :
  walked sample_calls ∅ ∧ Z.of_nat (size (run sample_calls ∅).2) ≤ ofc_max sample_conf.
Proof.
  assert (Hw : walked sample_calls ∅)
    by (repeat split; vm_compute; apply Permutation_refl).
  split; [exact Hw |]. apply size_bounded; [cbn; lia | | exact Hw]. repeat constructor.
Defined.

