(* ===== verification/Mime.v ===== *)
(** * [src/mime.rs] and [MimeTypes]: content types by file extension *)
From S2P Require Import Prelude.
From S2P Require Import Text.

(** ** [MimeTypes] of [config/model.rs] *)

Abbreviation MimeTypes := (gmap bytes bytes).

Definition insert_type (ext ty : bytes) (m : MimeTypes) : MimeTypes := <[lowercase ext := ty]> m.

(** What follows the last dot: [path.rsplit('.').next()]. *)
Definition extension (path : bytes) : bytes :=
  match rfind "."%byte path with
  | Some i => drop (S i) path
  | None => path
  end.

Definition lookup_type (path : bytes) (m : MimeTypes) : option bytes :=
  let ext := extension path in
  if decide (length ext = length path) then None
  else if existsb is_ascii_uppercase ext then m !! lowercase ext
  else m !! ext.

(** ** The stock table *)

Definition DEFAULTS : list (bytes * list bytes) := [
  (str "text/html", [str "html"; str "htm"; str "shtml"]);
  (str "text/css", [str "css"]);
  (str "text/xml", [str "xml"]);
  (str "text/plain", [str "txt"]);
  (str "text/markdown", [str "md"]);
  (str "text/vnd.wap.wml", [str "wml"]);
  (str "text/mathml", [str "mml"]);
  (str "image/gif", [str "gif"]);
  (str "image/jpeg", [str "jpeg"; str "jpg"]);
  (str "image/png", [str "png"]);
  (str "image/webp", [str "webp"]);
  (str "image/avif", [str "avif"]);
  (str "image/tiff", [str "tif"; str "tiff"]);
  (str "image/svg+xml", [str "svg"; str "svgz"]);
  (str "image/x-icon", [str "ico"]);
  (str "image/vnd.microsoft.icon", [str "cur"]);
  (str "image/x-ms-bmp", [str "bmp"]);
  (str "image/vnd.wap.wbmp", [str "wbmp"]);
  (str "image/x-jng", [str "jng"]);
  (str "application/javascript", [str "js"]);
  (str "application/json", [str "json"]);
  (str "application/ld+json", [str "jsonld"]);
  (str "application/manifest+json", [str "webmanifest"]);
  (str "application/wasm", [str "wasm"]);
  (str "application/atom+xml", [str "atom"]);
  (str "application/rss+xml", [str "rss"]);
  (str "application/pdf", [str "pdf"]);
  (str "application/postscript", [str "ps"; str "eps"; str "ai"]);
  (str "application/rtf", [str "rtf"]);
  (str "application/zip", [str "zip"]);
  (str "application/gzip", [str "gz"]);
  (str "application/x-7z-compressed", [str "7z"]);
  (str "application/x-rar-compressed", [str "rar"]);
  (str "application/x-bzip2", [str "bz2"]);
  (str "application/x-tar", [str "tar"]);
  (str "application/java-archive", [str "jar"; str "war"; str "ear"]);
  (str "application/x-x509-ca-cert", [str "der"; str "pem"; str "crt"]);
  (str "application/octet-stream", [str "bin"; str "exe"; str "dll"; str "deb"; str "dmg"; str "iso"; str "img"; str "msi"; str "msp"; str "msm"]);
  (str "application/vnd.ms-excel", [str "xls"]);
  (str "application/vnd.ms-powerpoint", [str "ppt"]);
  (str "application/msword", [str "doc"]);
  (str "font/woff", [str "woff"]);
  (str "font/woff2", [str "woff2"]);
  (str "font/ttf", [str "ttf"]);
  (str "font/otf", [str "otf"]);
  (str "application/vnd.ms-fontobject", [str "eot"]);
  (str "audio/midi", [str "mid"; str "midi"; str "kar"]);
  (str "audio/mpeg", [str "mp3"]);
  (str "audio/ogg", [str "ogg"; str "opus"]);
  (str "audio/x-m4a", [str "m4a"]);
  (str "audio/wav", [str "wav"]);
  (str "audio/flac", [str "flac"]);
  (str "video/mp4", [str "mp4"]);
  (str "video/mpeg", [str "mpeg"; str "mpg"]);
  (str "video/quicktime", [str "mov"]);
  (str "video/webm", [str "webm"]);
  (str "video/x-flv", [str "flv"]);
  (str "video/x-msvideo", [str "avi"]);
  (str "video/x-matroska", [str "mkv"]);
  (str "video/mp2t", [str "ts"]);
  (str "application/vnd.apple.mpegurl", [str "m3u8"])
].

Definition load_row (m : MimeTypes) (row : bytes * list bytes) : MimeTypes :=
  foldl (λ m e, insert_type e row.1 m) m row.2.

Definition load_defaults (m : MimeTypes) : MimeTypes := foldl load_row m DEFAULTS.

(** ** Properties *)

Lemma lowercase_id s : existsb is_ascii_uppercase s = false → lowercase s = s.
Proof.
  induction s as [|c s IH]; [done |]. cbn [existsb]. intros [Hc Hs]%orb_false_iff.
  change (lowercase (c :: s)) with (to_ascii_lowercase c :: lowercase s).
  rewrite IH by done. unfold to_ascii_lowercase. by rewrite Hc.
Qed.

Lemma lookup_type_lowercase path m :
  extension path ≠ path → lookup_type path m = m !! lowercase (extension path).
Proof.
  intros Hne. unfold lookup_type. rewrite decide_False.
  - destruct (existsb _ _) eqn:E; [done |]. by rewrite (lowercase_id _ E).
  - unfold extension in *. destruct (rfind _ path); [|done].
    rewrite length_drop. intros Hl. apply Hne. destruct path; [done | cbn in Hl; lia].
Qed.

Lemma extension_dot base ext : "."%byte ∉ ext → extension (base ++ "."%byte :: ext) = ext.
Proof.
  intros He. unfold extension. rewrite rfind_last by done.
  change (base ++ "."%byte :: ext) with (base ++ [("."%byte : byte)] ++ ext).
  rewrite (assoc_L (++)), drop_app_length'; [done |]. rewrite length_app. cbn. lia.
Qed.

Lemma lookup_type_dot base ext m :
  "."%byte ∉ ext → lookup_type (base ++ "."%byte :: ext) m = m !! lowercase ext.
Proof.
  intros He. rewrite lookup_type_lowercase; rewrite extension_dot by done; [done |].
  intros Heq. apply (f_equal length) in Heq. rewrite length_app in Heq. cbn in Heq. lia.
Qed.

Lemma lookup_insert_type base ext e ty m : "."%byte ∉ ext →
  lookup_type (base ++ "."%byte :: ext) (insert_type e ty m) =
  if decide (lowercase e = lowercase ext) then Some ty else lookup_type (base ++ "."%byte :: ext) m.
Proof.
  intros He. rewrite !lookup_type_dot by done. unfold insert_type.
  case_decide as H; [by rewrite H, lookup_insert_eq | by rewrite lookup_insert_ne].
Qed.

(** The inserts of a configuration, oldest first. *)
Definition build_types (l : list (bytes * bytes)) : MimeTypes := foldl (λ m p, insert_type p.1 p.2 m) ∅ l.

Definition same_ext (ext : bytes) (p : bytes * bytes) : bool := bool_decide (lowercase p.1 = lowercase ext).

(** The type of a path is the one inserted last for its extension, in
    whatever case either is written; a path without a dot has none. *)
Theorem type_is_last_inserted l base ext :
  "."%byte ∉ ext →
  lookup_type (base ++ "."%byte :: ext) (build_types l) = snd <$> last (filter (same_ext ext) l) ∧
  ("."%byte ∉ base → lookup_type base (build_types l) = None).
Proof.
  intros He. split.
  - unfold build_types. induction l as [|p l IH] using rev_ind; cbn [foldl].
    + rewrite lookup_type_dot by done. apply lookup_empty.
    + rewrite foldl_app. cbn [foldl]. rewrite lookup_insert_type, filter_app by done. rewrite IH.
      rewrite filter_cons, filter_nil. destruct (decide (lowercase p.1 = lowercase ext)) as [E | E].
      * rewrite decide_True by (unfold same_ext; by apply bool_decide_pack). by rewrite last_snoc.
      * rewrite decide_False by (unfold same_ext; by rewrite bool_decide_spec). by rewrite app_nil_r.
  - intros Hb. unfold lookup_type, extension. rewrite rfind_absent by done. by rewrite decide_True.
Qed.

Lemma type_is_last_inserted_witness :
  lookup_type (str "/a/b.PNG") (build_types [(str "png", str "image/png"); (str "Png", str "image/x")]) =
  Some (str "image/x").
Proof.
  refine (proj1 (type_is_last_inserted [(str "png", str "image/png"); (str "Png", str "image/x")]
    (str "/a/b") (str "PNG") _)).
  by apply (bool_decide_unpack _).
Defined.

Lemma load_defaults_rows m :
  load_defaults m = foldl (λ m p, insert_type p.1 p.2 m) m (DEFAULTS ≫= λ row, (λ e, (e, row.1)) <$> row.2).
Proof.
  unfold load_defaults. generalize DEFAULTS. intros l. revert m.
  induction l as [|[t es] l IH]; intros m; cbn [foldl mbind list_bind]; [done |].
  rewrite IH, foldl_app. f_equal. unfold load_row. cbn [fst snd]. revert m.
  induction es as [|e es IHe]; intros m; cbn; [done | apply IHe].
Qed.

(** Every extension of the stock table resolves to its own type: no row
    hides another's. *)
Theorem stock_types_resolve base ty exts ext :
  (ty, exts) ∈ DEFAULTS → ext ∈ exts → lookup_type (base ++ "."%byte :: ext) (load_defaults ∅) = Some ty.
Proof.
  intros Hr He.
  assert (Hall : Forall (λ row, Forall (λ e, "."%byte ∉ e ∧ load_defaults ∅ !! lowercase e = Some row.1) row.2) DEFAULTS)
    by (apply (bool_decide_unpack _); vm_compute; exact I).
  rewrite Forall_forall in Hall. specialize (Hall _ Hr). rewrite Forall_forall in Hall.
  destruct (Hall _ He) as [Hd Hl]. by rewrite lookup_type_dot.
Qed.

Lemma stock_types_resolve_witness :
  lookup_type (str "/x.css") (load_defaults ∅) = Some (str "text/css").
Proof. apply (stock_types_resolve (str "/x") (str "text/css") [str "css"]); by apply (bool_decide_unpack _). Defined.
