(* ===== verification/Autoindex.v ===== *)
(** * [src/server/autoindex.rs]: directory listings

    What [read_dir] answers is an input; texts are bytes, and counting
    characters is counting the bytes that do not continue one. *)
From S2P Require Import Prelude.
From S2P Require Import Text.
From S2P Require Import Sort.
From S2P Require Import Response.
From S2P Require Import Uri.
From S2P Require Import Fcache.
From S2P Require Date.
From S2P Require Files.

Open Scope oxi_scope.
Open Scope Z_scope.

Definition NAME_WIDTH : Z := 50.

(** One [DirEntry]: its raw name and its metadata, if that could be read.
    Times are nanoseconds since 1970. *)
Record Meta := mkMeta { m_is_dir : bool; m_len : Z; m_modified : option Z }.
Definition DirEntry : Type := bytes * option Meta.

(** A row of the listing. *)
Record Row := mkRow { r_name : bytes; r_dir : bool; r_size : Z; r_mtime : Z }.

Definition row_of (e : DirEntry) : option Row :=
  let name := from_utf8_lossy e.1 in
  if starts_with (str ".") name then None
  else m ← e.2; Some (mkRow name (m_is_dir m) (m_len m) (default 0 (m_modified m))).

(** [String]'s order is that of the bytes. *)
Fixpoint bytes_le (a b : bytes) : bool :=
  match a, b with
  | [], _ => true
  | _, [] => false
  | x :: a, y :: b => if decide (x = y) then bytes_le a b else bool_decide (u8 x < u8 y)
  end.

Definition row_le (a b : Row) : bool :=
  if r_dir a && negb (r_dir b) then true
  else if r_dir b && negb (r_dir a) then false
  else bytes_le (r_name a) (r_name b).

(** Unreadable directory entries are passed over. *)
Definition rows (rd : list (option DirEntry)) : list Row :=
  sort_by row_le (omap (λ e, e ≫= row_of) rd).

Definition char_count (s : bytes) : nat := length (filter (λ c, cont c = false) s).

(** [chars().take(n)] *)
Fixpoint take_chars (n : nat) (s : bytes) : bytes :=
  match s with
  | [] => []
  | c :: s =>
      if cont c then c :: take_chars n s
      else match n with O => [] | S n => c :: take_chars n s end
  end.

Definition spaces (n : nat) : bytes := replicate n x20.

Definition href (r : Row) : bytes := encode_path (r_name r) ++ (if r_dir r then str "/" else []).
Definition display (r : Row) : bytes := escape_html (r_name r) ++ (if r_dir r then str "/" else []).

(** [replace("GMT", "")] of a date. *)
Definition without_gmt (d : bytes) : bytes := mjoin (split_str (str "GMT") d).

Definition shown_name (r : Row) : bytes :=
  if decide (NAME_WIDTH < Z.of_nat (char_count (display r)))
  then take_chars (Z.to_nat (NAME_WIDTH - 3)) (display r) ++ str "..&gt;"
  else display r.

Definition padding (r : Row) : bytes :=
  let shown := Nat.min (char_count (display r)) (Z.to_nat NAME_WIDTH) in
  spaces (Z.to_nat NAME_WIDTH + 1 - shown).

Definition size_column (r : Row) : bytes :=
  if r_dir r then str "                   -"
  else let s := fmt_u64 (r_size r) in spaces (20 - length s) ++ s.

Definition row_html (r : Row) : bytes :=
  str "<a href=" ++ [x22] ++ href r ++ [x22] ++ str ">" ++ shown_name r ++ str "</a>" ++ padding r ++
  trim_end (without_gmt (Date.append_http_date_of (Files.secs (r_mtime r)))) ++ str "  " ++
  size_column r ++ CRLF.

Definition page (uri : bytes) (l : list Row) : bytes :=
  let title := escape_html uri in
  str "<html>" ++ CRLF ++ str "<head><title>Index of " ++ title ++ str "</title></head>" ++ CRLF ++
  str "<body>" ++ CRLF ++ str "<h1>Index of " ++ title ++ str "</h1><hr><pre><a href=" ++ [x22] ++
  str "../" ++ [x22] ++ str ">../</a>" ++ CRLF ++ mjoin (row_html <$> l) ++
  str "</pre><hr></body>" ++ CRLF ++ str "</html>" ++ CRLF.

(** [render]: [rd] is [read_dir]'s answer, [charset] the server's. *)
Definition render {File Io} (uri : bytes) (charset : option bytes)
    (rd : result IoError (list (option DirEntry))) : result Z (Reply File Io) :=
  match rd with
  | Err e => Err (io_status e)
  | Ok l =>
      Ok (mkReply (header (str "Content-Type") (str "text/html; charset=" ++ default (str "utf-8") charset) new)
            (Bytes (page uri (rows l))))
  end.

(** ** Names add no markup *)

Definition markup (c : byte) : bool := bool_decide (c ∈ str "<>" ++ [x22]).


Definition plain (s : bytes) : Prop := Forall (λ c, markup c = false) s.

Definition marks (s : bytes) : bytes := filter (λ c, markup c = true) s.

Lemma marks_app a b : marks (a ++ b) = marks a ++ marks b.
Proof. apply filter_app. Qed.

Lemma marks_plain s : plain s → marks s = [].
Proof.
  induction 1 as [|c s Hc _ IH]; [done |]. unfold marks in *. rewrite filter_cons, decide_False; [done |].
  by rewrite Hc.
Qed.

Lemma plain_sub a b : (∀ c, c ∈ a → c ∈ b) → plain b → plain a.
Proof. unfold plain. rewrite !Forall_forall. naive_solver. Qed.

Lemma plain_app a b : plain a → plain b → plain (a ++ b).
Proof. intros. by apply Forall_app. Qed.

Lemma plain_nth (l : list bytes) i : Forall plain l → plain (nth i l []).
Proof. intros H. revert i. induction H; intros [|i]; cbn; try constructor; auto. Qed.

Lemma plain_digits fuel : ∀ n acc, plain acc → plain (digits_go fuel n acc).
Proof.
  induction fuel as [|f IH]; intros n acc Hacc; cbn [digits_go]; [done |]. case_bool_decide; [|done].
  apply IH. constructor; [|done]. assert (0 ≤ n mod 10 < 10) by (apply Z.mod_pos_bound; lia).
  assert (is_ascii_digit (of_u8 (48 + n mod 10)) = true) as Hd by (apply is_ascii_digit_of; lia).
  revert Hd. generalize (of_u8 (48 + n mod 10)). by intros [].
Qed.

Lemma plain_u64 n : plain (fmt_u64 n).
Proof. unfold fmt_u64. case_bool_decide; [|apply plain_digits]; by repeat constructor. Qed.

Lemma plain_spaces n : plain (spaces n).
Proof. by apply Forall_replicate. Qed.

#[local] Hint Resolve plain_app plain_u64 plain_spaces : plain.
#[local] Hint Extern 2 (plain (str _)) => repeat constructor : plain.
#[local] Hint Extern 2 (plain CRLF) => repeat constructor : plain.

Lemma plain_date s : plain (Date.append_http_date_of s).
Proof.
  unfold Date.append_http_date_of. destruct (Date.civil_from_days _) as [[y m] d].
  unfold Date.pad2, Date.fmt_year, Date.month_name.
  repeat apply plain_app; repeat case_decide; auto with plain;
    try (apply plain_nth; by repeat constructor); constructor.
Qed.

Lemma split_once_str_sub p s a b : split_once_str p s = Some (a, b) → ∀ c, c ∈ a ++ b → c ∈ s.
Proof.
  revert a b. induction s as [|x s IH]; intros a b; cbn [split_once_str].
  - destruct (strip_prefix p []) as [r|] eqn:E; [|done]. apply strip_prefix_Some in E.
    intros [= <- <-] c Hc. rewrite E. apply elem_of_app. by right.
  - destruct (strip_prefix p (x :: s)) as [r|] eqn:E.
    + apply strip_prefix_Some in E. intros [= <- <-] c Hc. rewrite E. apply elem_of_app. by right.
    + destruct (split_once_str p s) as [[a' b']|]; [|done]. intros [= <- <-] c. cbn [app].
      rewrite !elem_of_cons. intros [-> | Hc]; [by left | right; by eapply IH].
Qed.

Lemma split_str_go_sub fuel p : ∀ s c, c ∈ mjoin (split_str_go fuel p s) → c ∈ s.
Proof.
  induction fuel as [|f IH]; intros s c; cbn [split_str_go].
  - destruct (split_once_str p s) as [[? ?]|]; cbn; by rewrite app_nil_r.
  - destruct (split_once_str p s) as [[a b]|] eqn:E; cbn; [|by rewrite app_nil_r].
    intros [Hc | Hc]%elem_of_app; apply (split_once_str_sub _ _ _ _ E), elem_of_app; [by left | right].
    by apply IH.
Qed.

Lemma trim_go_sub ws fuel : ∀ s c, c ∈ trim_go fuel ws s → c ∈ s.
Proof.
  induction fuel as [|f IH]; intros s c; cbn [trim_go]; [done |].
  destruct (trim_one ws s) as [r|] eqn:E; [|done]. intros Hc. specialize (IH _ _ Hc).
  unfold trim_one in E. apply head_Some_elem_of, list_elem_of_omap in E as (w & _ & E).
  apply strip_prefix_Some in E. rewrite E. apply elem_of_app. by right.
Qed.

Lemma plain_shown_date s : plain (trim_end (without_gmt (Date.append_http_date_of s))).
Proof.
  eapply plain_sub; [|apply plain_date]. intros c. unfold trim_end. rewrite elem_of_reverse.
  intros Hc%trim_go_sub. rewrite elem_of_reverse in Hc. by eapply split_str_go_sub.
Qed.

Lemma plain_escape s : plain (escape_html s).
Proof.
  induction s as [|c s IH]; cbn; [constructor |]. apply plain_app; [|done].
  repeat case_decide; try by repeat constructor. constructor; [|constructor].
  unfold markup. rewrite bool_decide_eq_false. cbn. set_solver.
Qed.

Lemma path_safe_plain c : is_path_safe c = true → markup c = false.
Proof. by destruct c. Qed.

Lemma hex_plain n : markup (nth n HEX x00) = false.
Proof. by do 16 (destruct n as [|n]; [reflexivity |]); destruct n. Qed.

Lemma plain_path s : plain (encode_path s).
Proof.
  induction s as [|c s IH]; cbn [encode_path]; [constructor |]. apply plain_app; [|done].
  destruct (is_path_safe c) eqn:E.
  - constructor; [by apply path_safe_plain | constructor].
  - repeat constructor; apply hex_plain.
Qed.

Lemma take_chars_sub s : ∀ n c, c ∈ take_chars n s → c ∈ s.
Proof. induction s as [|x s IH]; intros n c; cbn; [done |]. repeat case_match; set_solver. Qed.

Lemma plain_display r : plain (display r).
Proof. apply plain_app; [apply plain_escape | destruct (r_dir r); repeat constructor]. Qed.

#[local] Hint Resolve plain_shown_date plain_path plain_display : plain.

(** The tags of a row are those of the code, whatever the entry is called,
    however long its name is, and whatever its size and date: no name opens a
    tag, closes one or ends the attribute it is put in. *)
Theorem names_add_no_markup r :
  marks (row_html r) = str "<" ++ [x22; x22] ++ str "><>".
Proof.
  assert (plain (href r)) by (apply plain_app; [apply plain_path | destruct (r_dir r); repeat constructor]).
  assert (plain (shown_name r)).
  { unfold shown_name. case_decide; [|auto with plain]. apply plain_app; [|by repeat constructor].
    eapply plain_sub; [apply take_chars_sub | apply plain_display]. }
  assert (plain (size_column r)) by (unfold size_column; destruct (r_dir r); auto with plain).
  unfold row_html, padding. rewrite !marks_app.
  rewrite (marks_plain (href r)), (marks_plain (shown_name r)), (marks_plain (size_column r)),
    (marks_plain (spaces _)), (marks_plain (trim_end _)) by auto with plain.
  reflexivity.
Qed.

(** ** Links lead back to their entries *)

Lemma safe_path_child uri s (tr : bool) :
  safe_path uri → last uri = Some "/"%byte → safe_seg s → safe_path (uri ++ s ++ if tr then str "/" else []).
Proof.
  intros (segs & t & Hs & ->) Hl Hsg.
  exists (segs ++ [s]), tr. split; [apply Forall_app; split; [done | by constructor] |].
  rewrite join_snoc.
  assert (join segs t = "/"%byte :: slashed segs) as E; [|rewrite E; by rewrite app_comm_cons].
  destruct (decide (segs = [])) as [->|Hne]; [by destruct t |].
  destruct (exists_last Hne) as (segs' & s' & ->). rewrite join_snoc, slashed_snoc in *.
  destruct t; [done |]. exfalso. rewrite app_nil_r in Hl. apply Forall_app in Hs as [_ Hs'].
  inversion Hs' as [|? ? (Hne' & _ & _ & Hsl & _) _]; subst.
  destruct (exists_last Hne') as (s1 & c & ->).
  rewrite app_comm_cons, (assoc_L (++)), last_snoc in Hl. injection Hl as ->. set_solver.
Qed.

Lemma rows_elem rd r :
  r ∈ rows rd ↔ ∃ e, Some e ∈ rd ∧ row_of e = Some r.
Proof.
  unfold rows. rewrite sort_by_elem, list_elem_of_omap. split.
  - intros ([e|] & He & Hr); [by exists e | done].
  - intros (e & He & Hr). by exists (Some e).
Qed.

(** A name the file system may give: neither empty nor with a separator. *)
Definition file_name (n : bytes) : Prop := n ≠ [] ∧ "/"%byte ∉ n ∧ x00 ∉ n ∧ utf8_valid n = true.

(** Every link of a listing, resolved against the path listed, asks the
    server for the entry it stands for: the decoded path is the directory's
    path followed by the entry's own name, with a slash for a directory. *)
Theorem listing_links_resolve uri rd r :
  safe_path uri → utf8_valid uri = true → last uri = Some "/"%byte →
  (∀ e, Some e ∈ rd → file_name e.1) → r ∈ rows rd →
  ∃ e, Some e ∈ rd ∧ row_of e = Some r ∧
    normalize (encode_path uri ++ href r) = Ok (uri ++ e.1 ++ if r_dir r then str "/" else []).
Proof.
  intros Hu Hv Hl Hn (e & He & Hr)%rows_elem. exists e. split; [done |]. split; [done |].
  destruct (Hn e He) as (Hne & Hsl & Hz & Hu8). unfold row_of in Hr.
  rewrite (from_utf8_lossy_valid _ Hu8) in Hr.
  destruct (starts_with (str ".") e.1) eqn:Hdot; [done |]. destruct e.2 as [m|]; [|done].
  injection Hr as <-. cbn [r_dir].
  assert (href (mkRow e.1 (m_is_dir m) (m_len m) (default 0 (m_modified m))) =
    encode_path (e.1 ++ if m_is_dir m then str "/" else [])) as ->
    by (unfold href; cbn; rewrite encode_path_app; by destruct (m_is_dir m)).
  rewrite <-encode_path_app. apply normalize_encode_path.
  - apply safe_path_child; [done | done |]. repeat split; try done; intros E; by rewrite E in Hdot.
  - rewrite utf8_valid_app by done. rewrite utf8_valid_app by done. by destruct (m_is_dir m).
Qed.

Lemma listing_links_resolve_witness :
  let rd := [Some (str "a b", Some (mkMeta false 3 None))] in
  let r := mkRow (str "a b") false 3 0 in
  ∃ e, Some e ∈ rd ∧ row_of e = Some r ∧
    normalize (encode_path (str "/d/") ++ href r) = Ok (str "/d/" ++ e.1 ++ []).
Proof.
  apply (listing_links_resolve (str "/d/") [Some (str "a b", Some (mkMeta false 3 None))] (mkRow (str "a b") false 3 0)).
  - exists [str "d"], true. split; [|reflexivity]. repeat constructor; try done; by apply (bool_decide_unpack _).
  - reflexivity.
  - reflexivity.
  - intros e [[= ->] | []%not_elem_of_nil]%elem_of_cons. repeat split; try done; by apply (bool_decide_unpack _).
  - apply list_elem_of_In. by left.
Defined.

(** A name with a colon makes a link with a scheme of its own: a browser
    does not resolve it against the directory, and this one is a script. *)
Theorem colon_name_is_a_scheme :
  href (mkRow (str "javascript:alert(1)") false 0 0) = str "javascript:alert%281%29".
Proof. reflexivity. Qed.

(** A long name is cut after it is escaped, so the cut may fall inside an
    entity: the reader sees the entity's first letters. *)
Theorem truncation_cuts_entities :
  let r := mkRow (replicate 44 "a"%byte ++ str "&bcdef") false 0 0 in
  shown_name r = replicate 44 "a"%byte ++ str "&am..&gt;".
Proof. reflexivity. Qed.
