(* ===== verification/Static.v ===== *)
(** * [src/server/files.rs]: the static file handler

    From a request's path to a reply. The disk and the clock are the class
    [Disk] over an arbitrary state, the cache of [Fcache] a part of that
    state; the decisions about ranges and validators are those of [Files]. *)
From S2P Require Import Prelude.
From S2P Require Import Text.
From S2P Require Import Vars.
From S2P Require Import Response.
From S2P Require Import Uri.
From S2P Require Import Files.
From S2P Require Import Matching.
From S2P Require Import Model.
From S2P Require Import Ctx.
From S2P Require Import Handler.
From S2P Require Import Mime.
From S2P Require Fcache.
From S2P Require Autoindex.
From S2P Require Date.
From S2P Require Request.

Open Scope oxi_scope.
Open Scope Z_scope.

Definition INLINE_MAX : Z := 64 * 1024.
Definition MMAP_MAX : Z := 256 * 1024.

(** [s.get(n..)] of a string: nothing inside a character or past the end. *)
Definition get_from (n : nat) (s : bytes) : option bytes :=
  if decide (length s < n)%nat then None
  else match s !! n with
       | Some c => if cont c then None else Some (drop n s)
       | None => Some []
       end.

(** [s.trim_start_matches('/')] *)
Fixpoint trim_slashes (s : bytes) : bytes :=
  match s with
  | c :: r => if decide (c = "/"%byte) then trim_slashes r else s
  | [] => []
  end.

Definition with_slash (p : bytes) : bytes := if ends_with (str "/") p then p else p ++ str "/".

Section static.
  Context {Regex File Io W : Type} (is_match : Regex → bytes → bool) (env : W → Env).
  Context (parse_http_date : bytes → option Z) (mime : MimeTypes).
  Local Abbreviation Ctx := (Ctx (Regex := Regex)).
  Local Abbreviation Reply := (Reply File Io).

(** What the operating system answers in a state of the world. *)
Class Disk := {
  open_path : W → bytes → result Fcache.IoError (File * result Fcache.IoError Fcache.RawStat);
  read_dir : W → bytes → result Fcache.IoError (list (option Autoindex.DirEntry));
  mmap : File → option bytes;
  clock : W → Z;
  cache : W → gmap bytes (Fcache.Entry (File := File));
  set_cache : gmap bytes (Fcache.Entry (File := File)) → W → W;
  walk : W → list (bytes * Fcache.Entry (File := File))
}.
Context `{Disk}.

Definition render (c : Ctx) (w : W) (t : Template) : bytes := Vars.render (var is_match (env w) c) t.

(** [fcache::lookup] in the worker's state. *)
Definition lookup_file (p : OpenFileCache) (path : bytes) (w : W) : Fcache.Cached (File := File) * W :=
  let '(v, m) := Fcache.lookup p (clock w) path (Fcache.open_direct (open_path w path)) (walk w) (cache w) in
  (v, set_cache m w).

(** ** Paths *)

Definition prefix_len (c : Ctx) (m : option (LocMatch (Regex := Regex))) : nat :=
  match m with
  | Some (Prefix p) | Some (PrefixNoRegex p) | Some (Exact p) => length p
  | _ => length (uri c)
  end.

(** The end of [map_path] under [alias]. *)
Definition join_rest (base rest : bytes) : bytes :=
  if decide (rest = []) then base
  else if ends_with (str "/") base && starts_with (str "/") rest then take (length base - 1) base ++ rest
  else if negb (ends_with (str "/") base) && negb (starts_with (str "/") rest) then base ++ str "/" ++ rest
  else base ++ rest.

Definition map_path (c : Ctx) (w : W) (k : CoreConf Regex) (m : option (LocMatch (Regex := Regex))) : bytes :=
  match alias k with
  | Some a => join_rest (render c w a) (default [] (get_from (prefix_len c m) (uri c)))
  | None => render c w (root k) ++ uri c
  end.

(** ** Directories *)

Fixpoint find_index (c : Ctx) (k : CoreConf Regex) (dir : bytes) (l : list Template) (w : W) :
    option bytes * W :=
  match l with
  | [] => (None, w)
  | t :: l =>
      let name := render c w t in
      if decide (name = []) then find_index c k dir l w
      else
        let '(v, w) := lookup_file (open_file_cache k) (with_slash dir ++ trim_slashes name) w in
        match v with
        | Fcache.CFile _ _ _ => (Some (with_slash (uri c) ++ trim_slashes name), w)
        | _ => find_index c k dir l w
        end
  end.

Definition serve_directory (c : Ctx) (k : CoreConf Regex) (dir : bytes) (w : W) : Served File Io * W :=
  match find_index c k dir (index k) w with
  | (Some u, w) => (ServedInternal u, w)
  | (None, w) =>
      if autoindex k then
        match Autoindex.render (uri c) (charset (s_core (conf (server c)))) (read_dir w dir) with
        | Ok r => (ServedReply r, w)
        | Err s => (ServedStatus s, w)
        end
      else (ServedStatus 403, w)
  end.

Definition redirect_authority (c : Ctx) (k : CoreConf Regex) : bytes :=
  if absolute_redirect k then
    let host := Request.host (buf c) (req c) in
    let p := match local c with Some a => port a | None => 0 end in
    let default_port := if decide (scheme c = str "https") then 443 else 80 in
    scheme c ++ str "://" ++ (if decide (host = []) then str "localhost" else host) ++
    (if port_in_redirect k && negb (bool_decide (p = default_port)) then str ":" ++ push_num p else [])
  else [].

Definition dir_redirect (c : Ctx) (k : CoreConf Regex) : Reply :=
  let loc := redirect_authority c k ++ encode_path (uri c) ++ str "/" ++
             (if decide (args c = []) then [] else str "?" ++ args c) in
  let r := header (str "Content-Type") (str "text/html")
             (header (str "Location") loc (with_status 301 new)) in
  mkReply r (Bytes (error_page 301 (signature (server_tokens k)))).

(** ** Files *)

Definition content_type (k : CoreConf Regex) (path : bytes) : bytes :=
  let base := default (default_type k) (lookup_type path mime) in
  match charset k with
  | Some cs =>
      if starts_with (str "text/") base || bool_decide (base = str "application/javascript")
      then base ++ str "; charset=" ++ cs else base
  | None => base
  end.

Definition make_body (f : File) (start len : Z) (sendfile : bool) : Body File Io :=
  if decide (len = 0) then Empty
  else if decide (len ≤ INLINE_MAX) then Inline f start len
  else
    match (if negb sendfile && bool_decide (len ≤ MMAP_MAX) then mmap f else None) with
    | Some map =>
        if decide (start + len ≤ Z.of_nat (length map))
        then Mmap map (Z.to_nat start) (Z.to_nat (start + len)) else FileBody f start len
    | None => FileBody f start len
    end.

Definition conditions (c : Ctx) : Conditions :=
  let v h := Request.hot_value (buf c) h (req c) in
  mkConditions (v Request.IfMatch) (v Request.IfUnmodifiedSince) (v Request.IfNoneMatch)
    (v Request.IfModifiedSince) (v Request.IfRange).

Definition ims (k : CoreConf Regex) : Files.Ims :=
  match if_modified_since k with
  | Model.ImsOff => Files.ImsOff
  | Model.ImsExact => Files.ImsExact
  | Model.ImsBefore => Files.ImsBefore
  end.

Definition last_modified (mtime : Z) (r : Resp) : Resp :=
  header (str "Last-Modified") (Date.append_http_date_of (secs mtime)) r.

Definition etag_field (k : CoreConf Regex) (tag : bytes) (r : Resp) : Resp :=
  if etag k then header (str "ETag") tag r else r.

(** The range a request asks for, or that none can be given. *)
Definition wanted_range (c : Ctx) (k : CoreConf Regex) (tag : bytes) (mtime size : Z) : RangeSpec :=
  match Request.hot_value (buf c) Request.RangeH (req c) with
  | Some h =>
      if negb (bool_decide (max_ranges k = Some 0)) && if_range_matches parse_http_date (conditions c) tag mtime
      then parse_range h size else NoRange
  | None => NoRange
  end.

Definition not_modified (k : CoreConf Regex) (tag : bytes) (mtime status : Z) : Resp :=
  let r := with_status status new in
  if decide (status = 304) then last_modified mtime (etag_field k tag r) else r.

Definition file_head (k : CoreConf Regex) (path tag : bytes) (mtime : Z) : Resp :=
  header (str "Accept-Ranges") (str "bytes")
    (etag_field k tag (last_modified mtime (header (str "Content-Type") (content_type k path) new))).

Definition send_part (m : Request.Method) (k : CoreConf Regex) (f : File) (start len : Z) (r : Resp) : Reply :=
  if is_head m then mkReply (with_framing (Length len) r) Empty
  else mkReply r (make_body f start len (sendfile k)).

Definition serve_file (c : Ctx) (k : CoreConf Regex) (path : bytes) (f : File) (size mtime : Z) : result Z Reply :=
  let m := Request.method (req c) in
  if negb (Request.is_safe m) && negb (match m with Request.Options => true | _ => false end) then Err 405
  else
    let tag := make_etag (secs mtime) size in
    match evaluate_preconditions parse_http_date (conditions c) (ims k) tag mtime with
    | Some status => Ok (mkReply (not_modified k tag mtime status) Empty)
    | None =>
        let r := file_head k path tag mtime in
        match wanted_range c k tag mtime size with
        | Unsatisfiable =>
            Ok (mkReply (header (str "Content-Range") (str "bytes */" ++ push_num size) (with_status 416 r)) Empty)
        | One s e =>
            Ok (send_part m k f s (e - s)
                  (header (str "Content-Range") (content_range s e size) (with_status 206 r)))
        | NoRange => Ok (send_part m k f 0 size r)
        end
    end.

Definition serve (c : Ctx) (loc : option (Loc Regex)) (w : W) : Served File Io * Ctx * W :=
  let k := match loc with Some l => core (payload l) | None => s_core (conf (server c)) end in
  let c := put_document_root (render c w (root_of k)) c in
  let path := map_path c w k (matcher <$> loc) in
  let c := put_filename path c in
  let '(v, w) := lookup_file (open_file_cache k) path w in
  match v with
  | Fcache.CError s => (ServedStatus s, c, w)
  | Fcache.CDir =>
      if negb (ends_with (str "/") (uri c)) then (ServedReply (dir_redirect c k), c, w)
      else let '(s, w) := serve_directory c k path w in (s, c, w)
  | Fcache.CFile f size mtime =>
      match serve_file c k path f size mtime with
      | Ok r => (ServedReply r, c, w)
      | Err s => (ServedStatus s, c, w)
      end
  end.
End static.
Arguments Disk : clear implicits.

(** ** Paths stay below their root *)

Lemma safe_path_split b : safe_path b → ∃ segs l, Forall safe_seg segs ∧ (l = [] ∨ safe_seg l) ∧
  b = "/"%byte :: slashed segs ++ l.
Proof.
  intros (segs & tr & Hs & ->). destruct (decide (segs = [])) as [->|Hne].
  - exists [], []. split; [constructor |]. split; [by left |]. by destruct tr.
  - destruct (exists_last Hne) as (segs' & s & ->). rewrite join_snoc.
    apply Forall_app in Hs as [Hs Hl]. inversion Hl as [|? ? Hsg _]; subst. destruct tr.
    + exists (segs' ++ [s]), []. split; [by apply Forall_app; split; [|constructor] |]. split; [by left |].
      by rewrite slashed_snoc, app_nil_r.
    + exists segs', s. split; [done |]. split; [by right |]. by rewrite app_nil_r.
Qed.

Lemma split_safe_path segs l : Forall safe_seg segs → (l = [] ∨ safe_seg l) →
  safe_path ("/"%byte :: slashed segs ++ l).
Proof.
  intros Hs [-> | Hl].
  - destruct (decide (segs = [])) as [->|Hne]; [by exists [], true |].
    exists segs, true. split; [done |]. destruct (exists_last Hne) as (segs' & s & ->).
    by rewrite join_snoc, slashed_snoc, app_nil_r.
  - exists (segs ++ [l]), false. split; [by apply Forall_app; split; [|constructor] |].
    by rewrite join_snoc, app_nil_r.
Qed.

(** What follows a slash of a safe path is a safe path of its own. *)
Lemma safe_path_suffix a rest : safe_path (a ++ "/"%byte :: rest) → safe_path ("/"%byte :: rest).
Proof.
  intros (segs & l & Hs & Hl & E)%safe_path_split. revert a E.
  induction Hs as [|s segs Hsg Hs IH]; intros a E.
  - destruct a as [|x a]; cbn in E; [injection E as ->; by apply (split_safe_path []) |].
    injection E as -> E.
    exfalso. destruct Hl as [-> | (_ & _ & _ & Hn & _)]; [by destruct a |]. subst. set_solver.
  - destruct a as [|x a]; cbn in E.
    { injection E as ->. apply (split_safe_path (s :: segs)); [by constructor | done]. }
    injection E as -> E.
    unfold slashed in E. cbn [fmap list_fmap mjoin list_join] in E. fold (slashed segs) in E.
    rewrite <-!(assoc_L (++)) in E. cbn [app] in E.
    destruct (decide (length a < length s)%nat) as [Hlt | Hge].
    + exfalso. destruct Hsg as (_ & _ & _ & Hn & _). apply Hn.
      apply (f_equal (lookup (length a))) in E.
      rewrite list_lookup_middle in E by done. rewrite lookup_app_l in E by done.
      eapply list_elem_of_lookup_2. by symmetry.
    + apply (f_equal (drop (length s))) in E. rewrite drop_app_length in E.
      rewrite drop_app_le in E by lia. by apply (IH _ E).
Qed.

(** [path] is [base], or [base] followed by a path without a dot-dot segment;
    the slash between the two is not doubled. *)
Definition below (base path : bytes) : Prop :=
  path = base ∨ ∃ q, safe_path q ∧
    (path = base ++ q ∨ ∃ base', base = base' ++ str "/" ∧ path = base' ++ q).

Lemma get_from_len s : get_from (length s) s = Some [].
Proof. unfold get_from. by rewrite decide_False, lookup_ge_None_2 by lia. Qed.

Lemma get_from_app p rest : default [] (get_from (length p) (p ++ rest)) = [] ∨
  default [] (get_from (length p) (p ++ rest)) = rest.
Proof.
  unfold get_from. case_decide; [by left |]. rewrite lookup_app_r, Nat.sub_diag by done.
  destruct rest as [|c rest]; cbn; [by left |]. destruct (cont c); [by left | right].
  by rewrite drop_app_length.
Qed.

Lemma ends_with_snoc p : ends_with (str "/") p = true → ∃ p', p = p' ++ str "/".
Proof.
  unfold ends_with. intros [_ E%bool_decide_eq_true_1]%andb_prop. exists (take (length p - length (str "/")) p).
  etransitivity; [symmetry; apply (take_drop (length p - length (str "/"))) | by rewrite E].
Qed.

Lemma safe_path_single rest : safe_path ("/"%byte :: rest) → starts_with (str "/") rest = false.
Proof.
  intros (segs & l & Hs & Hl & E)%safe_path_split. injection E as ->.
  destruct Hs as [|s segs (Hne & _ & _ & Hn & _) _].
  - destruct Hl as [-> | (Hne & _ & _ & Hn & _)]; [done |]. destruct l as [|x l]; [done |].
    unfold starts_with. cbn. rewrite decide_False; [done | set_solver].
  - destruct s as [|x s]; [done |]. unfold starts_with. cbn. rewrite decide_False; [done | set_solver].
Qed.

Lemma join_rest_below base rest : safe_path ("/"%byte :: rest) → below base (join_rest base rest).
Proof.
  intros Hs. unfold join_rest. case_decide; [by left |]. right. exists ("/"%byte :: rest). split; [done |].
  rewrite (safe_path_single _ Hs). destruct (ends_with (str "/") base) eqn:E; cbn; [|by left].
  right. apply ends_with_snoc in E as [base' ->]. exists base'. split; [done |]. by rewrite <-(assoc_L (++)).
Qed.

Section paths.
  Context {Regex W : Type} (is_match : Regex → bytes → bool) (env : W → Env).

(** The location's text ends in a slash, or is the whole path. *)
Definition whole_prefix (u : bytes) (m : option (LocMatch (Regex := Regex))) : Prop :=
  match m with
  | Some (Prefix p) | Some (PrefixNoRegex p) | Some (Exact p) =>
      p = u ∨ ∃ p' rest, p = p' ++ str "/" ∧ u = p ++ rest
  | _ => True
  end.

(** C29. A request for a normalised path opens nothing outside what [root] names,
    nor, when the location's text ends in a slash, outside what [alias]
    names. *)
Theorem path_stays_below c w (k : CoreConf Regex) m :
  safe_path (uri c) → (alias k = None ∨ whole_prefix (uri c) m) →
  below (render is_match env c w (root_of k)) (map_path is_match env c w k m).
Proof.
  intros Hs Hm. unfold map_path, root_of. destruct (alias k) as [a|]; cbn [default].
  - destruct Hm as [? | Hm]; [done |].
    assert (Hwhole : below (render is_match env c w a)
      (join_rest (render is_match env c w a) (default [] (get_from (length (uri c)) (uri c)))))
      by (left; by rewrite get_from_len).
    assert (Hp : ∀ p, p = uri c ∨ (∃ p' rest, p = p' ++ str "/" ∧ uri c = p ++ rest) →
      below (render is_match env c w a)
        (join_rest (render is_match env c w a) (default [] (get_from (length p) (uri c))))).
    { intros p [-> | (p' & rest & -> & E)]; [done |]. rewrite E in *.
      destruct (get_from_app (p' ++ str "/") rest) as [-> | ->]; [by left |].
      apply join_rest_below, (safe_path_suffix p'). by rewrite <-(assoc_L (++)) in Hs. }
    unfold prefix_len. destruct m as [[| | | |]|]; auto.
  - right. exists (uri c). split; [done | by left].
Qed.

(** A prefix that does not end in a slash matches more than its directory: a
    normalised path then climbs out of the aliased one. *)
Theorem alias_escapes c w (k : CoreConf Regex) a :
  uri c = str "/files../passwd" → alias k = Some a → render is_match env c w a = str "/data/" →
  safe_path (uri c) ∧ map_path is_match env c w k (Some (Prefix (str "/files"))) = str "/data/../passwd".
Proof.
  intros Hu Ha Hr. unfold map_path. rewrite Ha, Hr, Hu. split; [|reflexivity].
  exists [str "files.."; str "passwd"], false. split; [|reflexivity].
  repeat constructor; try done; by apply (bool_decide_unpack _).
Qed.
End paths.

(** ** Replies *)

Section replies.
  Context {Regex File Io W : Type} (is_match : Regex → bytes → bool) (env : W → Env).
  Context (parse_http_date : bytes → option Z) (mime : MimeTypes) `{Disk File W}.
  Local Abbreviation Ctx := (Ctx (Regex := Regex)).
  Local Abbreviation serve_file := (serve_file (Regex := Regex) (Io := Io) parse_http_date mime).
  Local Abbreviation serve := (serve (Regex := Regex) (Io := Io) is_match env parse_http_date mime).

(** The bytes a body sends, when a file holds [content]. *)
Definition sent (content : File → bytes) (b : Body File Io) : option bytes :=
  match b with
  | Empty => Some []
  | Bytes b => Some b
  | Mmap m s e => Some (take (e - s) (drop s m))
  | Inline f o l | FileBody f o l => Some (take (Z.to_nat l) (drop (Z.to_nat o) (content f)))
  | Stream _ _ _ | Upgraded _ _ _ => None
  end.

Lemma make_body_sends content f s len sf :
  0 ≤ s → 0 ≤ len → (∀ m, mmap f = Some m → m = content f) →
  sent content (make_body f s len sf) = Some (take (Z.to_nat len) (drop (Z.to_nat s) (content f))) ∧
  known_len (make_body (Io := Io) f s len sf) = Some len.
Proof.
  intros Hs Hl Hm. unfold make_body. case_decide as Hz; [subst; split; reflexivity |].
  destruct (decide (len ≤ INLINE_MAX)); [by split |].
  destruct (if negb sf && _ then mmap f else None) as [m|] eqn:E; [|by split].
  destruct (decide (s + len ≤ Z.of_nat (length m))); [|by split].
  assert (m = content f) as -> by (apply Hm; by destruct (negb sf && _)).
  cbn. rewrite Z2Nat.inj_add by done.
  replace (Z.to_nat s + Z.to_nat len - Z.to_nat s)%nat with (Z.to_nat len) by lia.
  split; [done |]. f_equal. lia.
Qed.

Definition etag_fields (k : CoreConf Regex) (tag : bytes) : list (bytes * bytes) :=
  if etag k then [(str "ETag", tag)] else [].

Definition head_fields (k : CoreConf Regex) (path tag : bytes) (mtime : Z) : list (bytes * bytes) :=
  [(str "Content-Type", content_type mime k path);
   (str "Last-Modified", Date.append_http_date_of (secs mtime))] ++
  etag_fields k tag ++ [(str "Accept-Ranges", str "bytes")].

Lemma file_head_fields k path tag mtime :
  wf (file_head mime k path tag mtime) ∧ fields (file_head mime k path tag mtime) = head_fields k path tag mtime.
Proof.
  unfold file_head, etag_field, last_modified, head_fields, etag_fields.
  assert (wf new) by constructor.
  destruct (etag k); (split; [repeat apply header_wf | rewrite !fields_header by (repeat apply header_wf; done)]; done).
Qed.

Lemma file_head_status (k : CoreConf Regex) path tag mtime : status (file_head mime k path tag mtime) = 200.
Proof. unfold file_head, etag_field. by destruct (etag k). Qed.

Lemma fields_status s (r : Resp) : fields (with_status s r) = fields r.
Proof. done. Qed.

Lemma precondition_status cs i tag mtime st :
  evaluate_preconditions parse_http_date cs i tag mtime = Some st → st = 412 ∨ st = 304.
Proof. unfold evaluate_preconditions. repeat case_match; naive_solver. Qed.

(** What a range request of a file gives, by the range it selects. *)
Definition range_of (c : Ctx) (k : CoreConf Regex) (size mtime : Z) : RangeSpec :=
  wanted_range parse_http_date c k (make_etag (secs mtime) size) mtime size.

Lemma wanted_range_sound c k size mtime s e :
  0 < size ≤ u64_max → range_of c k size mtime = One s e → 0 ≤ s ∧ s < e ∧ e ≤ size.
Proof.
  intros Hs. unfold range_of, wanted_range. destruct (Request.hot_value _ _ _); [|done].
  destruct (_ && _); [|done]. by apply parse_range_sound.
Qed.

(** C28. A file is answered in full or in the part asked for, byte for byte: the
    body of a 200 is the file, that of a 206 the bytes its [Content-Range]
    names, in both cases with the file's own head; every other reply has no
    body, and a method that does not read gets 405. *)
Theorem file_reply_is_the_file c k path f size mtime content :
  0 < size ≤ u64_max → size = Z.of_nat (length (content f)) → (∀ m, mmap f = Some m → m = content f) →
  let tag := make_etag (secs mtime) size in
  match serve_file c k path f size mtime with
  | Err code => code = 405 ∧ Request.is_safe (Request.method (req c)) = false
  | Ok r =>
      let r' := resp r in
      (status r' = 200 ∧ range_of c k size mtime = NoRange ∧ fields r' = head_fields k path tag mtime ∧
       (is_head (Request.method (req c)) = false → sent content (body r) = Some (content f))) ∨
      (∃ s e, status r' = 206 ∧ range_of c k size mtime = One s e ∧ 0 ≤ s ∧ s < e ∧ e ≤ size ∧
         fields r' = head_fields k path tag mtime ++ [(str "Content-Range", content_range s e size)] ∧
         (is_head (Request.method (req c)) = false →
          sent content (body r) = Some (take (Z.to_nat (e - s)) (drop (Z.to_nat s) (content f))))) ∨
      (status r' ∈ [304; 412; 416] ∧ body r = Empty)
  end.
Proof.
  intros Hs Hsz Hm tag. unfold Static.serve_file.
  destruct (negb (Request.is_safe _) && _) eqn:Esafe; [by destruct (Request.method (req c)) |].
  fold tag. destruct (evaluate_preconditions _ _ _ _ _) as [st|] eqn:Ep.
  { right. right. cbn [resp body]. split; [|done]. unfold not_modified, last_modified, etag_field.
    apply precondition_status in Ep as [-> | ->]; destruct (etag k); by apply (bool_decide_unpack _). }
  destruct (file_head_fields k path tag mtime) as [Hw Hf].
  destruct (wanted_range _ _ _ _ _ _) as [| |s e] eqn:Er; cbn [resp].
  - left. destruct (make_body_sends content f 0 size (sendfile k)) as [Hb _]; [lia | lia | done |].
    unfold send_part. destruct (is_head _); cbn [resp body status]; repeat split; try done;
      try apply file_head_status.
    intros _. rewrite Hb. change (Z.to_nat 0) with 0%nat. rewrite drop_0, take_ge by lia. done.
  - right. right. split; [by apply (bool_decide_unpack _) | done].
  - right. left. exists s, e. pose proof (wanted_range_sound c k size mtime s e Hs Er) as Hse.
    destruct (make_body_sends content f s (e - s) (sendfile k)) as [Hb _]; [lia | lia | done |].
    unfold send_part. destruct (is_head _); cbn [resp body];
      (split; [done |]; split; [done |]; do 3 (split; [lia |]); split; [|done]);
      rewrite <-Hf, <-(fields_status 206 (file_head _ _ _ _ _)), <-fields_header by done; done.
Qed.

Lemma frame_part h11 (k : CoreConf Regex) f s len r : 0 ≤ s → 0 ≤ len → framing r = NoFraming → is_bodyless (status r) = false →
  let get := frame h11 (send_part (Io := Io) Request.Get k f s len r) in
  let head := frame h11 (send_part (Io := Io) Request.HeadM k f s len r) in
  status (resp get) = status (resp head) ∧ fields (resp get) = fields (resp head) ∧
  framing (resp get) = framing (resp head) ∧ body head = Empty.
Proof.
  intros Hs Hl Hf Hb. cbn zeta. unfold send_part. cbn [is_head].
  destruct (make_body_sends (λ f, default [] (mmap f)) f s len (sendfile k)) as [_ Hk]; [done | done | |].
  { intros m Hm. by rewrite Hm. }
  assert (Hbody : ∀ b : Body File Io, known_len b = Some len →
    frame h11 (mkReply r b) = mkReply (with_framing (Length len) r) b).
  { intros b Hlen. unfold frame. cbn [body resp]. rewrite Hb, Hf, decide_False by (by intros ?).
    rewrite Hlen. by destruct b. }
  rewrite Hbody by done. unfold frame. cbn. by rewrite Hb.
Qed.

Lemma frame_empty h11 r :
  frame h11 (mkReply r Empty : Reply File Io) = mkReply (resp (frame h11 (mkReply r Empty : Reply File Io))) Empty.
Proof. unfold frame. cbn. destruct (is_bodyless _); [done |]. by case_decide. Qed.

(** [HEAD] is [GET] without the bytes: for two requests alike but for the
    method, the framed replies have the same status, the same fields and the
    same announced length, and the first has no body. *)
Theorem head_mirrors_get h11 c c' k path f size mtime :
  0 < size ≤ u64_max → Request.method (req c) = Request.Get → Request.method (req c') = Request.HeadM →
  (∀ h, Request.hot_value (buf c) h (req c) = Request.hot_value (buf c') h (req c')) →
  match serve_file c k path f size mtime, serve_file c' k path f size mtime with
  | Ok get, Ok head =>
      status (resp (frame h11 get)) = status (resp (frame h11 head)) ∧
      fields (resp (frame h11 get)) = fields (resp (frame h11 head)) ∧
      framing (resp (frame h11 get)) = framing (resp (frame h11 head)) ∧
      body (frame h11 head) = Empty
  | _, _ => False
  end.
Proof.
  intros Hs Hg Hh Hv. unfold Static.serve_file. rewrite Hg, Hh. cbn [Request.is_safe negb andb].
  assert (conditions c = conditions c') as <- by (unfold conditions; by rewrite !Hv).
  set (tag := make_etag _ _).
  assert (wanted_range parse_http_date c k tag mtime size = wanted_range parse_http_date c' k tag mtime size) as <-
    by (unfold wanted_range, conditions; by rewrite !Hv).
  destruct (evaluate_preconditions _ _ _ _ _) as [st|]; [by rewrite frame_empty |].
  assert (Hf : framing (file_head mime k path tag mtime) = NoFraming)
    by (unfold file_head, etag_field; by destruct (etag k)).
  pose proof (file_head_status k path tag mtime) as Hst.
  destruct (wanted_range _ _ _ _ _ _) as [| |s e] eqn:Er.
  - apply frame_part; [lia | lia | done | by rewrite Hst].
  - by rewrite frame_empty.
  - pose proof (wanted_range_sound c k size mtime s e Hs Er). apply frame_part; [lia | lia | done | done].
Qed.

(** ** Directories *)

(** A request for a directory never sends a file's bytes: the reply is the
    redirect to the slash, a listing or an error page, and an index file is
    only named, as a path to route again - so a location that runs scripts
    gets them before their source is read. *)
Theorem directory_sends_no_file c loc w r c' w' :
  let k := match loc with Some l => core (payload l) | None => s_core (conf (server c)) end in
  let c0 := put_document_root (render is_match env c w (root_of k)) c in
  (lookup_file (open_file_cache k) (map_path is_match env c0 w k (matcher <$> loc)) w).1 = Fcache.CDir →
  serve c loc w = (ServedReply r, c', w') → ∃ b, body r = Bytes b.
Proof.
  intros k c0. unfold Static.serve. fold k c0.
  change (put_filename ?p c0) with (put_filename p c0).
  destruct (lookup_file _ _ w) as [v w1] eqn:E. cbn [fst]. intros ->.
  destruct (negb (ends_with _ _)).
  - intros [= <- <- <-]. by eexists.
  - unfold serve_directory. destruct (find_index _ _ _ _ _ _ _) as [[u|] w2]; [done |].
    destruct (autoindex k); [|done]. unfold Autoindex.render.
    destruct (read_dir w2 _); [|done]. intros [= <- <- <-]. by eexists.
Qed.

(** The interface's law for this module: routing state is not touched. *)
Lemma serve_keeps_redirects c loc w : redirects (serve c loc w).1.2 = redirects c.
Proof.
  unfold Static.serve. set (k := match loc with Some _ => _ | None => _ end). clearbody k.
  destruct (lookup_file _ _ _) as [[f s m| |s] w1]; cbn.
  - by destruct (serve_file _ _ _ _ _ _).
  - destruct (negb _); [done |]. by destruct (serve_directory _ _ _ _ _ _).
  - done.
Qed.
End replies.

(** ** The handler over this module *)

Section compose.
  Context {Regex File Io W : Type} (base : World Regex File Io W) (parse_http_date : bytes → option Z)
    (mime : MimeTypes) `{Disk File W}.

(** A world whose static files are served by this file's [serve]. *)
Definition with_static : World Regex File Io W :=
  {| groups := groups; env := Handler.env; metadata := metadata; conn_key := conn_key; acquire := acquire;
     req_key := req_key; check := check; sleep := sleep;
     Handler.serve := serve (@Handler.is_match _ _ _ _ base) Handler.env parse_http_date mime;
     proxy_pass := proxy_pass; fastcgi_pass := fastcgi_pass; stub_body := stub_body; inspect := inspect; read_at := read_at;
     gzip_encode := gzip_encode |}.

#[export] Instance static_laws : WorldLaws (H := base) → WorldLaws (H := with_static).
Proof.
  intros [_ Hp Hf]. split; cbn; [|exact Hp | exact Hf]. intros. apply serve_keeps_redirects.
Qed.
End compose.

(** ** At concrete inputs *)

Abbreviation SampleWorld := (gmap bytes (Fcache.Entry (File := bytes))).

Definition plain_core : CoreConf bytes := default_core.

(** One file of five bytes, which is its own descriptor, and one directory. *)
#[export] Instance sample_disk : Disk bytes SampleWorld :=
  {| open_path _ p :=
       if decide (p = str "html/a.css") then Ok (str "hello", Ok (Fcache.mkRawStat 33188 5 100 0))
       else if decide (p = str "html/d" ∨ p = str "html/d/") then Ok ([], Ok (Fcache.mkRawStat Fcache.S_IFDIR 0 0 0))
       else Err (Fcache.mkIoError Fcache.NotFound None);
     read_dir _ _ := Ok [];
     mmap f := Some f;
     clock _ := 0;
     cache w := w;
     set_cache m _ := m;
     walk w := map_to_list w |}.

Definition sample_env (_ : SampleWorld) : Env := mkEnv [] 0 0 0 [] [] (λ _, []).

Definition no_date (_ : bytes) : option Z := None.

Definition get_a : Ctx (Regex := bytes) := sample_request (str "/a.css").

Definition head_req : Request.Req :=
  let r := Request.new_req in
  Request.mkReq Request.HeadM (Request.method_raw r) (Request.target r) (Request.path r) (Request.query r)
    (Request.minor r) (Request.headers r) (Request.hot r) (Request.head_len r) (Request.body r)
    (Request.keep_alive r).

Definition head_a : Ctx (Regex := bytes) :=
  new_ctx [] head_req [] [] (server get_a) (str "/a.css") None None (str "http") 1 0.

Definition sample_serve (u : bytes) :=
  serve (Io := unit) (λ _ _, false) sample_env no_date (load_defaults ∅) (sample_request u) None ∅.

Example serves_the_file :
  match (sample_serve (str "/a.css")).1.1 with
  | ServedReply r => get (str "content-type") (resp r) = Some (str "text/css") ∧ body r = Inline (str "hello") 0 5
  | _ => False
  end.
Proof. by vm_compute. Qed.

Example missing_file : (sample_serve (str "/b")).1.1 = ServedStatus 404.
Proof. by vm_compute. Qed.

Lemma path_stays_below_witness :
  below (render (λ _ _, false) sample_env get_a ∅ (root_of plain_core))
        (map_path (λ _ _, false) sample_env get_a ∅ plain_core None).
Proof.
  apply path_stays_below; [|by left]. exists [str "a.css"], false. split; [|reflexivity].
  repeat constructor; try done; by apply (bool_decide_unpack _).
Defined.

Lemma file_reply_is_the_file_witness :
  match serve_file (Io := unit) no_date ∅ get_a plain_core (str "html/a.css") (str "hello") 5 0 with
  | Ok r => sent id (body r) = Some (str "hello")
  | Err _ => False
  end.
Proof.
  pose proof (file_reply_is_the_file (Io := unit) no_date ∅ get_a plain_core (str "html/a.css") (str "hello") 5 0 id)
    as Hf.
  destruct (serve_file _ _ _ _ _ _ _ _) as [r|c] eqn:E.
  - destruct Hf as [(_ & _ & _ & Hb) | [(s & e & _ & Hr & _) | [_ Hb]]];
      [unfold u64_max; lia | reflexivity | by intros m [= <-] | by apply Hb | |].
    + by vm_compute in Hr.
    + vm_compute in E. by injection E as <-.
  - by vm_compute in E.
Defined.

Lemma head_mirrors_get_witness :
  match serve_file (Io := unit) no_date ∅ get_a plain_core (str "html/a.css") (str "hello") 5 0,
        serve_file (Io := unit) no_date ∅ head_a plain_core (str "html/a.css") (str "hello") 5 0 with
  | Ok get, Ok head =>
      status (resp (frame true get)) = status (resp (frame true head)) ∧
      fields (resp (frame true get)) = fields (resp (frame true head)) ∧
      framing (resp (frame true get)) = framing (resp (frame true head)) ∧
      body (frame true head) = Empty
  | _, _ => False
  end.
Proof. apply head_mirrors_get; [unfold u64_max; lia | done | done |]. by intros []. Defined.

Lemma directory_sends_no_file_witness :
  match sample_serve (str "/d") with
  | (ServedReply r, c, w) => ∃ b, body r = Bytes b
  | _ => False
  end.
Proof.
  assert (Hs : (λ s, match s with ServedReply _ => true | _ => false end) (sample_serve (str "/d")).1.1 = true)
    by (vm_compute; reflexivity).
  destruct (sample_serve (str "/d")) as [[s c] w] eqn:E. cbn in Hs. destruct s as [r| |]; [|discriminate Hs..].
  apply (directory_sends_no_file (λ _ _, false) sample_env no_date (load_defaults ∅)
    (sample_request (str "/d")) None ∅ r c w); [by vm_compute | exact E].
Defined.
