(* ===== verification/ReadBody.v ===== *)
(** * [src/server/conn.rs]: reading a request off a socket

    The head, the body by its length and the chunked body. A socket is the
    list of what its reads will report; a client that says nothing more is a
    read that times out. *)
From S2P Require Import Prelude.
From S2P Require Import Text.
From S2P Require Files.
From S2P Require Request.

Open Scope oxi_scope.
Open Scope Z_scope.

(** ** Reads *)

(** One read: bytes (none at the end of the stream), an error, a timeout. *)
Inductive Event := Data (d : bytes) | Failed | TimedOut.

(** The bytes that will arrive. *)
Definition arriving (l : list Event) : bytes :=
  mjoin ((λ e, match e with Data d => d | _ => [] end) <$> l).

(** ** [find_crlf] and [parse_hex] *)

(** [i] bytes are behind; [memchr] finds the next carriage return. *)
Fixpoint find_crlf_from (fuel : nat) (b : bytes) (i : nat) : option nat :=
  match fuel with
  | O => None
  | S fuel =>
      if decide (i + 1 < length b)%nat then
        off ← find x0d (drop i b);
        let p := (i + off)%nat in
        if decide (p + 1 < length b)%nat then
          if decide (b !! (p + 1)%nat = Some x0a) then Some p else find_crlf_from fuel b (p + 1)
        else None
      else None
  end.

Definition find_crlf (b : bytes) : option nat := find_crlf_from (length b) b 0.

Definition hex_digit (c : byte) : option Z :=
  if in_range 48 57 c then Some (u8 c - 48)
  else if in_range 97 102 c then Some (u8 c - 97 + 10)
  else if in_range 65 70 c then Some (u8 c - 65 + 10)
  else None.

Fixpoint parse_hex_go (b : bytes) (n : Z) : option Z :=
  match b with
  | [] => Some n
  | c :: b =>
      if bool_decide (c = x20) || bool_decide (c = x09) then parse_hex_go b n
      else
        d ← hex_digit c;
        if decide (n * 16 + d ≤ u64_max) then parse_hex_go b (n * 16 + d) else None
  end.

Definition parse_hex (b : bytes) : option Z :=
  if decide (b = [] ∨ (16 < length b)%nat) then None else parse_hex_go b 0.

(** ** Bodies *)

(** [fill] until [found]; [too_long] is tested before each read. *)
Fixpoint fill_until {A} (found : bytes → option A) (too_long : bytes → bool) (l : list Event) (read : bytes) :
    result Z A * bytes * list Event :=
  match found read with
  | Some a => (Ok a, read, l)
  | None =>
      if too_long read then (Err 400, read, l)
      else
        match l with
        | [] => (Err 408, read, l)
        | Data [] :: l | Failed :: l => (Err 400, read, l)
        | TimedOut :: l => (Err 408, read, l)
        | Data d :: l => fill_until found too_long l (read ++ d)
        end
  end.

(** The loop of [read_exact_body]: a read takes what there is room for. *)
Fixpoint fill_body (n : nat) (l : list Event) (body : bytes) : result Z unit * bytes * list Event :=
  if decide (n ≤ length body)%nat then (Ok tt, body, l)
  else
    match l with
    | [] => (Err 408, body, l)
    | Data [] :: l | Failed :: l => (Err 400, body, l)
    | TimedOut :: l => (Err 408, body, l)
    | Data d :: l =>
        let room := (n - length body)%nat in
        if decide (room < length d)%nat
        then (Ok tt, body ++ take room d, Data (drop room d) :: l)
        else fill_body n l (body ++ d)
    end.

(** What reading a body changes: [ConnState]'s buffer and body, [pos] and the
    socket. *)
Record Rd := mkRd { r_read : bytes; r_body : bytes; r_pos : nat; r_inp : list Event }.

Definition read_exact_body (n : nat) (s : Rd) : result Z unit * Rd :=
  let have := Nat.min (length (r_read s) - r_pos s) n in
  let body := r_body s ++ take have (drop (r_pos s) (r_read s)) in
  let '(r, body, l) := fill_body n (r_inp s) body in
  (r, mkRd (r_read s) body (r_pos s + have) l).

(** A chunked body that is not well-formed enough can make a slice index
    overflow, and the program is built to abort on a panic. *)
Inductive Run (A : Type) := Done (a : A) | Panic | OutOfFuel.
Arguments Done {A} a.
Arguments Panic {A}.
Arguments OutOfFuel {A}.

(** Finds the end of the line that starts at [pos]. *)
Definition line_at (pos : nat) (read : bytes) : option nat := find_crlf (drop pos read).

(** The trailer lines up to the empty one; each takes two bytes at least. *)
Fixpoint read_trailers (fuel : nat) (s : Rd) : Run (result Z unit * Rd) :=
  match fuel with
  | O => OutOfFuel
  | S fuel =>
      let '(r, read, l) := fill_until (line_at (r_pos s)) (λ _, false) (r_inp s) (r_read s) in
      match r with
      | Err e => Done (Err e, mkRd read (r_body s) (r_pos s) l)
      | Ok i =>
          let s := mkRd read (r_body s) (r_pos s + i + 2) l in
          if decide (i = O) then Done (Ok tt, s) else read_trailers fuel s
      end
  end.

(** One slice [read[a..b]] of 64-bit offsets. *)
Definition slice_z (read : bytes) (a b : Z) : option bytes :=
  if decide (a ≤ b ∧ b ≤ Z.of_nat (length read)) then Some (take (Z.to_nat (b - a)) (drop (Z.to_nat a) read))
  else None.

(** The data of one chunk and its line end: offsets and lengths wrap. *)
Definition read_chunk (size : Z) (s : Rd) : Run (result Z unit * Rd) :=
  let need := wrap 64 (size + 2) in
  let ready read := if decide (Z.of_nat (length read) - Z.of_nat (r_pos s) < need) then None else Some tt in
  let '(r, read, l) := fill_until ready (λ _, false) (r_inp s) (r_read s) in
  match r with
  | Err e => Done (Err e, mkRd read (r_body s) (r_pos s) l)
  | Ok _ =>
      match slice_z read (Z.of_nat (r_pos s)) (wrap 64 (Z.of_nat (r_pos s) + size)) with
      | None => Panic
      | Some d =>
          let pos := (r_pos s + length d)%nat in
          let s := mkRd read (r_body s ++ d) pos l in
          if decide (take 2 (drop pos read) = [x0d; x0a])
          then Done (Ok tt, mkRd read (r_body s) (pos + 2) l) else Done (Err 400, s)
      end
  end.

(** [read_chunked_body]; every chunk takes two bytes at least. *)
Fixpoint read_chunked_body (fuel : nat) (max : Z) (s : Rd) : Run (result Z unit * Rd) :=
  match fuel with
  | O => OutOfFuel
  | S fuel =>
      let '(r, read, l) :=
        fill_until (line_at (r_pos s)) (λ read, bool_decide (1024 < length read - r_pos s)%nat) (r_inp s) (r_read s) in
      match r with
      | Err e => Done (Err e, mkRd read (r_body s) (r_pos s) l)
      | Ok i =>
          let line := take i (drop (r_pos s) read) in
          let size_str := match find ";"%byte line with Some k => take k line | None => line end in
          match parse_hex size_str with
          | None => Done (Err 400, mkRd read (r_body s) (r_pos s) l)
          | Some size =>
              let s := mkRd read (r_body s) (r_pos s + i + 2) l in
              if decide (size = 0) then read_trailers (S fuel) s
              else if decide (max < wrap 64 (Z.of_nat (length (r_body s)) + size)) then Done (Err 413, s)
              else
                match read_chunk size s with
                | Done (Ok _, s) => read_chunked_body fuel max s
                | Done (Err e, s) => Done (Err e, s)
                | Panic => Panic
                | OutOfFuel => OutOfFuel
                end
          end
      end
  end.

(** Bytes at hand, in the buffer and on their way: fuel enough for both. *)
Definition body_fuel (s : Rd) : nat := S (length (r_read s) + length (arriving (r_inp s))).

Definition CONTINUE : bytes := str "HTTP/1.1 100 Continue" ++ [x0d; x0a; x0d; x0a].

(** [read_body]: what it writes, what it returns, and the new state; the
    position it leaves is [st.consumed]. *)
Definition read_body (req : Request.Req) (max : Z) (read : bytes) (l : list Event) :
    bytes * Run (result Z unit * Rd) :=
  let s := mkRd read [] (Request.head_len req) l in
  let continue := if Request.expects_continue read req then CONTINUE else [] in
  match Request.body req with
  | Request.NoBody => ([], Done (Ok tt, s))
  | Request.Length n =>
      if decide (max < n) then ([], Done (Err 413, s))
      else (continue, Done (read_exact_body (Z.to_nat n) s))
  | Request.Chunked => (continue, read_chunked_body (body_fuel s) max s)
  end.

(** ** Lines *)

(** The reference: the first place where the two bytes stand. *)
Fixpoint crlf_spec (b : bytes) : option nat :=
  match b with
  | c :: r => if decide (c = x0d ∧ head r = Some x0a) then Some O else S <$> crlf_spec r
  | [] => None
  end.

Lemma crlf_spec_skip a b : x0d ∉ a → crlf_spec (a ++ b) = (λ i, length a + i)%nat <$> crlf_spec b.
Proof.
  induction a as [|c a IH]; cbn [app crlf_spec length]; [by destruct (crlf_spec b) |].
  intros [Hc Ha]%not_elem_of_cons. rewrite decide_False by naive_solver. rewrite IH by done.
  by destruct (crlf_spec b).
Qed.

Lemma find_crlf_from_spec fuel b i :
  (length b - i ≤ fuel)%nat → find_crlf_from fuel b i = (λ k, i + k)%nat <$> crlf_spec (drop i b).
Proof.
  revert i. induction fuel as [|f IH]; intros i Hf.
  { rewrite drop_ge by lia. done. }
  cbn [find_crlf_from]. destruct (decide _) as [Hi | Hi].
  - destruct (find x0d (drop i b)) as [off|] eqn:E; cbn [mbind option_bind].
    + apply position_Some in E as (c & Hc & Hcr & Hb). apply bool_decide_eq_true in Hcr as ->.
      assert (Hsplit : drop i b = take off (drop i b) ++ x0d :: drop (S off) (drop i b))
        by (symmetry; by apply take_drop_middle).
      assert (Hno : x0d ∉ take off (drop i b)).
      { intros (j & Hj)%list_elem_of_lookup. apply lookup_take_Some in Hj as [Hj ?].
        specialize (Hb _ _ ltac:(eassumption) Hj). cbn in Hb. by rewrite bool_decide_true in Hb. }
      rewrite Hsplit, crlf_spec_skip by done. rewrite length_take_le by (apply lookup_lt_Some in Hc; lia).
      cbn [crlf_spec]. rewrite drop_drop.
      replace (head (drop (i + S off) b)) with (b !! (i + off + 1)%nat)
        by (rewrite head_lookup, lookup_drop; f_equal; lia).
      destruct (decide (i + off + 1 < length b)%nat) as [Hl | Hl].
      * destruct (decide (b !! (i + off + 1)%nat = Some x0a)) as [Ha | Ha].
        -- rewrite decide_True by done. cbn. f_equal. lia.
        -- rewrite decide_False by naive_solver. rewrite IH by lia.
           replace (i + S off)%nat with (i + off + 1)%nat by lia.
           destruct (crlf_spec _); cbn; [|done]. f_equal. lia.
      * rewrite decide_False by (rewrite lookup_ge_None_2 by lia; naive_solver).
        rewrite (drop_ge b) by lia. done.
    + apply position_None in E. assert (x0d ∉ drop i b) as Hno.
      { intros Hin. rewrite Forall_forall in E. specialize (E _ Hin). cbn in E. by rewrite bool_decide_true in E. }
      rewrite <-(app_nil_r (drop i b)), crlf_spec_skip by done. done.
  - destruct (drop i b) as [|c [|d r]] eqn:E; [done | |].
    + cbn. by rewrite decide_False by naive_solver.
    + apply (f_equal length) in E. rewrite length_drop in E. cbn in E. lia.
Qed.

Lemma find_crlf_spec b : find_crlf b = crlf_spec b.
Proof.
  unfold find_crlf. rewrite find_crlf_from_spec by lia. rewrite drop_0. by destruct (crlf_spec b).
Qed.

Lemma find_crlf_line a r : x0d ∉ a → find_crlf (a ++ x0d :: x0a :: r) = Some (length a).
Proof.
  intros Ha. rewrite find_crlf_spec, crlf_spec_skip by done. cbn. rewrite decide_True by done. cbn. f_equal. lia.
Qed.

Lemma find_crlf_mono b c i : find_crlf b = Some i → find_crlf (b ++ c) = Some i.
Proof.
  rewrite !find_crlf_spec. revert i. induction b as [|x b IH]; intros i; cbn [crlf_spec app]; [done |].
  destruct (decide (x = x0d ∧ head b = Some x0a)) as [[-> Hh] | Hn].
  - intros [= <-]. rewrite decide_True; [done |]. split; [done |]. by destruct b.
  - destruct (crlf_spec b) as [k|] eqn:E; [|done]. intros [= <-]. rewrite decide_False.
    + by rewrite (IH k).
    + intros [-> Hh]. apply Hn. split; [done |]. destruct b; [done | by cbn in Hh].
Qed.

(** ** Sizes *)

Definition digit_value (c : byte) : Z :=
  Z.of_nat (default O (fst <$> list_find (λ d, d = c) Files.hex_digits)).

Lemma hex_digit_spec c : c ∈ Files.hex_digits →
  hex_digit c = Some (digit_value c) ∧ c ≠ x20 ∧ c ≠ x09 ∧ 0 ≤ digit_value c < 16.
Proof.
  intros Hc. revert c Hc. apply Forall_forall.
  repeat (constructor; [split; [reflexivity |]; split; [done |]; split; [done |]; by vm_compute |]). constructor.
Qed.

Lemma hex_fold_ge s v : 0 ≤ v → v ≤ foldl (λ v c, v * 16 + digit_value c) v s.
Proof.
  revert v. induction s as [|c s IH]; intros v Hv; cbn [foldl]; [lia |].
  assert (0 ≤ digit_value c) by (unfold digit_value; lia). etransitivity; [|apply IH]; lia.
Qed.

Lemma parse_hex_go_value s : ∀ v, Forall (λ c, c ∈ Files.hex_digits) s → 0 ≤ v →
  foldl (λ v c, v * 16 + digit_value c) v s ≤ u64_max →
  parse_hex_go s v = Some (foldl (λ v c, v * 16 + digit_value c) v s).
Proof.
  induction s as [|c s IH]; intros v Hs Hv Hm; cbn [foldl parse_hex_go] in *; [done |].
  apply Forall_cons in Hs as [Hc Hs]. destruct (hex_digit_spec c Hc) as (-> & H1 & H2 & H3).
  rewrite !bool_decide_false by done. cbn [orb mbind option_bind].
  rewrite decide_True by (etransitivity; [|exact Hm]; apply hex_fold_ge; lia). apply IH; [done | lia | done].
Qed.

Lemma push_hex_loop_length fuel n : (length (Files.push_hex_loop fuel n []) ≤ fuel)%nat.
Proof.
  revert n. induction fuel as [|f IH]; intros n; cbn [Files.push_hex_loop]; [done |].
  case_decide; [|cbn; lia]. rewrite Files.push_hex_loop_app, length_app. cbn. specialize (IH (Z.shiftr n 4)). lia.
Qed.

Lemma parse_push_hex n : 0 ≤ n ≤ u64_max → parse_hex (Files.push_hex n) = Some n.
Proof.
  intros Hn. unfold parse_hex. rewrite decide_False.
  - pose proof (Files.push_hex_value n Hn) as Hv.
    change (foldl (λ v c, v * 16 + digit_value c) 0 (Files.push_hex n) = n) in Hv.
    rewrite parse_hex_go_value; [by rewrite Hv | apply Files.push_hex_digits; lia | lia |]. rewrite Hv. lia.
  - intros [E | Hl].
    + pose proof (Files.push_hex_value n Hn) as Hv. rewrite E in Hv. cbn in Hv. subst n. discriminate E.
    + unfold Files.push_hex in Hl. case_decide; [cbn in Hl; lia |].
      pose proof (push_hex_loop_length 16 n). lia.
Qed.

(** ** What arrives, however it is split *)

Definition all_data (l : list Event) : Prop := Forall (λ e, ∃ c d, e = Data (c :: d)) l.

Lemma fill_until_ok {A} (found : bytes → option A) give l : ∀ read a,
  all_data l → found (read ++ arriving l) = Some a →
  (∀ x y b, found x = Some b → found (x ++ y) = Some b) →
  (∀ x y, read ++ x ++ y = read ++ arriving l → found (read ++ x) = None → give (read ++ x) = false) →
  ∃ x l', fill_until found give l read = (Ok a, read ++ x, l') ∧ x ++ arriving l' = arriving l ∧
    all_data l' ∧ found (read ++ x) = Some a.
Proof.
  induction l as [|e l IH]; intros read a Hl Hf Hm Hg; cbn [fill_until].
  - unfold arriving in Hf. cbn in Hf. rewrite app_nil_r in Hf. rewrite Hf. exists [], []. by rewrite app_nil_r.
  - destruct (found read) as [b|] eqn:E.
    + rewrite (Hm _ _ _ E) in Hf. injection Hf as ->. exists [], (e :: l). by rewrite app_nil_r.
    + apply Forall_cons in Hl as [(c & d & ->) Hl]. change (arriving (Data (c :: d) :: l)) with ((c :: d) ++ arriving l) in *.
      rewrite <-(app_nil_r read), (Hg [] ((c :: d) ++ arriving l)); [|done | by rewrite app_nil_r].
      rewrite app_nil_r. destruct (IH (read ++ c :: d) a) as (x & l' & Hr & Hx & Hl' & Hf'); [done | | done | |].
      * by rewrite <-(assoc_L (++)).
      * intros x y Hxy Hn. rewrite <-(assoc_L (++)) in *. apply (Hg _ y); [|done].
        rewrite <-!(assoc_L (++)) in *. by rewrite Hxy.
      * exists ((c :: d) ++ x), l'. rewrite Hr, <-!(assoc_L (++)) in *. by rewrite Hx.
Qed.

Lemma app_split {A} (a b c d : list A) :
  a ++ b = c ++ d → (length c ≤ length a)%nat → ∃ m, a = c ++ m ∧ m ++ b = d.
Proof.
  intros E Hl. exists (drop (length c) a). split.
  - rewrite <-(take_drop (length c) a) at 1. f_equal.
    apply (f_equal (take (length c))) in E. rewrite take_app_length, take_app_le in E by done. done.
  - apply (f_equal (drop (length c))) in E. rewrite drop_app_length, drop_app_le in E by done. done.
Qed.

Lemma crlf_spec_bound b i : crlf_spec b = Some i → (i + 2 ≤ length b)%nat.
Proof.
  revert i. induction b as [|c b IH]; intros i; cbn [crlf_spec length]; [done |].
  destruct (decide (c = x0d ∧ head b = Some x0a)) as [[_ Hh] | _].
  - intros [= <-]. destruct b; [done | cbn; lia].
  - destruct (crlf_spec b) as [k|]; [|done]. intros [= <-]. specialize (IH k eq_refl). lia.
Qed.

(** The reader stands before [stream], part of it buffered. *)
Record at_stream (s : Rd) (stream : bytes) : Prop := {
  at_data : all_data (r_inp s);
  at_pos : (r_pos s ≤ length (r_read s))%nat;
  at_rest : drop (r_pos s) (r_read s) ++ arriving (r_inp s) = stream
}.

Definition CRLF : bytes := [x0d; x0a].

Lemma fill_line give s line rest :
  at_stream s (line ++ CRLF ++ rest) → x0d ∉ line →
  (∀ r, (length r - r_pos s ≤ length line + 1)%nat → give r = false) →
  ∃ read l, fill_until (line_at (r_pos s)) give (r_inp s) (r_read s) = (Ok (length line), read, l) ∧
    take (length line) (drop (r_pos s) read) = line ∧
    ∀ body, at_stream (mkRd read body (r_pos s + length line + 2) l) rest.
Proof.
  intros [Hd Hp Hr] Hn Hg. destruct s as [rd bd pos inp]; cbn [r_read r_pos r_inp] in *.
  assert (Hdrop : ∀ x, drop pos (rd ++ x) = drop pos rd ++ x) by (intros x; by rewrite drop_app_le).
  destruct (fill_until_ok (line_at pos) give inp rd (length line)) as (x & l' & Hf & Hx & Hl' & Hfound).
  - done.
  - unfold line_at. rewrite Hdrop, Hr. by apply find_crlf_line.
  - unfold line_at. intros a b i Ha. destruct (decide (pos ≤ length a)%nat).
    + rewrite drop_app_le by done. by apply find_crlf_mono.
    + rewrite drop_ge in Ha by lia. done.
  - intros a b Hab Hnone. apply Hg. unfold line_at in Hnone. rewrite Hdrop in Hnone.
    destruct (decide (length (drop pos rd ++ a) ≤ length line + 1)%nat) as [Hle | Hgt].
    { rewrite length_app, length_drop in *. lia. }
    exfalso. apply app_inv_head in Hab.
    destruct (app_split (drop pos rd ++ a) b (line ++ CRLF) rest) as (m & E & _).
    + rewrite <-!(assoc_L (++)), Hab. done.
    + rewrite length_app. cbn. lia.
    + rewrite E, <-(assoc_L (++)) in Hnone. change (CRLF ++ m) with (x0d :: x0a :: m) in Hnone. by rewrite find_crlf_line in Hnone.
  - unfold line_at in Hfound. rewrite Hdrop in Hfound.
    assert (Hlen : (length line + 2 ≤ length (drop pos rd ++ x))%nat)
      by (rewrite find_crlf_spec in Hfound; by apply crlf_spec_bound in Hfound).
    destruct (app_split (drop pos rd ++ x) (arriving l') (line ++ CRLF) rest) as (m & E & Hm).
    + rewrite <-!(assoc_L (++)), Hx. done.
    + rewrite length_app. done.
    + exists (rd ++ x), l'. split; [done |]. split.
      * by rewrite Hdrop, E, <-(assoc_L (++)), take_app_length.
      * intros body. split; cbn [r_inp r_read r_pos]; [done | |].
        -- rewrite length_app in Hlen |- *. rewrite length_drop in Hlen. lia.
        -- rewrite <-(Nat.add_assoc pos), <-drop_drop, Hdrop, E.
           replace (length line + 2)%nat with (length (line ++ CRLF)) by (rewrite length_app; done).
           by rewrite drop_app_length.
Qed.

(** ** Chunked bodies *)

(** A chunk with its extension, and how a client writes it. *)
Definition encode_chunk (c : bytes * bytes) : bytes :=
  Files.push_hex (Z.of_nat (length c.2)) ++ c.1 ++ CRLF ++ c.2 ++ CRLF.

Definition encode_trailers (ts : list bytes) : bytes := mjoin ((λ t, t ++ CRLF) <$> ts) ++ CRLF.

Definition encode_body (cs : list (bytes * bytes)) (ts : list bytes) : bytes :=
  mjoin (encode_chunk <$> cs) ++ str "0" ++ CRLF ++ encode_trailers ts.

Definition chunk_ok (c : bytes * bytes) : Prop :=
  (c.1 = [] ∨ ∃ r, c.1 = ";"%byte :: r) ∧ x0d ∉ c.1 ∧ (length c.1 ≤ 1000)%nat ∧ c.2 ≠ [].

Definition trailer_ok (t : bytes) : Prop := t ≠ [] ∧ x0d ∉ t.

Lemma read_trailers_ok ts : ∀ fuel s rest,
  at_stream s (encode_trailers ts ++ rest) → Forall trailer_ok ts → (length ts < fuel)%nat →
  ∃ s', read_trailers fuel s = Done (Ok tt, s') ∧ r_body s' = r_body s ∧ at_stream s' rest.
Proof.
  unfold encode_trailers. induction ts as [|t ts IH]; intros fuel s rest Hs Ht Hf; (destruct fuel as [|fuel]; [cbn in Hf; lia |]).
  - destruct (fill_line (λ _, false) s [] rest) as (read & l & E & _ & Hat); [done | apply not_elem_of_nil | done |].
    cbn [read_trailers]. rewrite E. cbn [length]. rewrite decide_True by done.
    eexists. split; [done |]. split; [done |]. apply Hat.
  - apply Forall_cons in Ht as [[Hne Hno] Ht]. cbn [fmap list_fmap mjoin list_join] in Hs.
    rewrite <-!(assoc_L (++)) in Hs.
    destruct (fill_line (λ _, false) s t (mjoin ((λ t, t ++ CRLF) <$> ts) ++ CRLF ++ rest)) as (read & l & E & _ & Hat);
      [done | done | done |].
    cbn [read_trailers]. rewrite E. rewrite decide_False by (destruct t; [done | cbn; lia]).
    destruct (IH fuel (mkRd read (r_body s) (r_pos s + length t + 2) l) rest) as (s' & Hr & Hb & Ha);
      [rewrite <-(assoc_L (++)); apply Hat | done | cbn in Hf; lia |].
    exists s'. by split.
Qed.

Lemma wrap_id n : 0 ≤ n < 2 ^ 64 → wrap 64 n = n.
Proof. apply Z.mod_small. Qed.

Lemma read_chunk_ok s d rest :
  at_stream s (d ++ CRLF ++ rest) → Z.of_nat (r_pos s + length d + 2) < 2 ^ 64 →
  ∃ s', read_chunk (Z.of_nat (length d)) s = Done (Ok tt, s') ∧ r_body s' = r_body s ++ d ∧
    at_stream s' rest ∧ r_pos s' = (r_pos s + length d + 2)%nat.
Proof.
  intros [Hd Hp Hr] Hw. destruct s as [rd bd pos inp]; cbn [r_read r_pos r_inp r_body] in *.
  unfold read_chunk; cbn [r_read r_pos r_inp r_body].
  rewrite (wrap_id (Z.of_nat (length d) + 2)), (wrap_id (Z.of_nat pos + _)) by lia.
  set (found := λ read, if decide (_ < _) then None else Some tt).
  assert (Hfound : ∀ r, found r = Some tt ↔ (pos + length d + 2 ≤ length r)%nat)
    by (intros r; unfold found; case_decide; split; try done; lia).
  destruct (fill_until_ok found (λ _, false) inp rd tt) as (x & l' & Hf & Hx & Hl' & Hok).
  - done.
  - apply Hfound. rewrite length_app. apply (f_equal length) in Hr.
    rewrite !length_app, length_drop in Hr. cbn in Hr. lia.
  - intros a b [] Ha. apply Hfound in Ha. apply Hfound. rewrite length_app. lia.
  - done.
  - rewrite Hf. apply Hfound in Hok. unfold slice_z.
    assert (E : drop pos (rd ++ x) ++ arriving l' = d ++ CRLF ++ rest)
      by (rewrite drop_app_le by done; by rewrite <-(assoc_L (++)), Hx).
    destruct (app_split (drop pos (rd ++ x)) (arriving l') (d ++ CRLF) rest) as (m & Em & Hm).
    { by rewrite E, <-(assoc_L (++)). }
    { rewrite length_drop, length_app. cbn. lia. }
    rewrite decide_True by lia.
    replace (Z.of_nat pos + Z.of_nat (length d) - Z.of_nat pos) with (Z.of_nat (length d)) by lia.
    rewrite !Nat2Z.id, Em, <-(assoc_L (++)), take_app_length.
    assert (Hdrop : drop (pos + length d) (rd ++ x) = CRLF ++ m)
      by (by rewrite <-drop_drop, Em, <-(assoc_L (++)), drop_app_length).
    rewrite Hdrop, decide_True by done. eexists. split; [done |]. cbn [r_body r_pos].
    split; [done |]. split; [|done]. split; cbn [r_inp r_read r_pos]; [done | lia |].
    by rewrite <-drop_drop, Hdrop.
Qed.

Lemma at_length s stream : at_stream s stream →
  (r_pos s + length stream = length (r_read s) + length (arriving (r_inp s)))%nat.
Proof. intros [_ Hp <-]. rewrite length_app, length_drop. lia. Qed.

Lemma push_hex_line n : 0 ≤ n ≤ u64_max → x0d ∉ Files.push_hex n ∧ ";"%byte ∉ Files.push_hex n ∧
  (length (Files.push_hex n) ≤ 16)%nat.
Proof.
  intros Hn. pose proof (Files.push_hex_digits n ltac:(lia)) as Hd. rewrite Forall_forall in Hd.
  assert (x0d ∉ Files.hex_digits ∧ ";"%byte ∉ Files.hex_digits) as [H1 H2] by (split; by apply (bool_decide_unpack _)).
  split; [naive_solver |]. split; [naive_solver |].
  unfold Files.push_hex. case_decide; [cbn; lia | apply push_hex_loop_length].
Qed.

(** The text before the semicolon of a chunk's line. *)
Lemma size_text n e : ";"%byte ∉ n → (e = [] ∨ ∃ r, e = ";"%byte :: r) →
  match find ";"%byte (n ++ e) with Some k => take k (n ++ e) | None => n ++ e end = n.
Proof.
  intros Hn [-> | [r ->]].
  - rewrite app_nil_r. unfold find. by rewrite position_absent.
  - unfold find. rewrite position_first by done. by rewrite take_app_length.
Qed.

Lemma read_chunk_line s c rest (fuel : nat) max :
  at_stream s (encode_chunk c ++ rest) → chunk_ok c → Z.of_nat (r_pos s + length (encode_chunk c ++ rest)) < 2 ^ 64 →
  0 ≤ max < 2 ^ 63 → Z.of_nat (length (r_body s) + length c.2) ≤ max →
  ∃ s', read_chunked_body (S fuel) max s = read_chunked_body fuel max s' ∧
    r_body s' = r_body s ++ c.2 ∧ at_stream s' rest ∧
    (r_pos s' + length rest = r_pos s + length (encode_chunk c ++ rest))%nat.
Proof.
  destruct c as [e d]. intros Hs (He & Hcr & Hel & Hne) Hlen Hmax Hsz. cbn [fst snd] in *.
  unfold encode_chunk in Hs, Hlen. cbn [fst snd] in Hs, Hlen.
  set (n := Files.push_hex (Z.of_nat (length d))) in *.
  destruct (push_hex_line (Z.of_nat (length d))) as (Hn1 & Hn2 & Hn3); [unfold u64_max; lia |]. fold n in Hn1, Hn2, Hn3.
  rewrite <-!(assoc_L (++)) in Hs. rewrite (assoc_L (++) n e) in Hs.
  assert (Hline : x0d ∉ n ++ e) by (rewrite elem_of_app; naive_solver).
  destruct (fill_line (λ read, bool_decide (1024 < length read - r_pos s)%nat) s (n ++ e) (d ++ CRLF ++ rest))
    as (read & l & E & Htake & Hat); [done | done | |].
  { intros r Hr. rewrite length_app in Hr. apply bool_decide_eq_false. lia. }
  specialize (Hat (r_body s)). cbn [read_chunked_body]. rewrite E, Htake, size_text by done.
  unfold n at 1. rewrite parse_push_hex by (unfold u64_max; lia).
  rewrite decide_False by (destruct d; [done | cbn; lia]). cbn [r_body].
  rewrite wrap_id, decide_False by lia.
  destruct (read_chunk_ok _ d rest Hat) as (s' & -> & Hb & Ha & Hpos).
  { rewrite !length_app in Hlen. cbn [r_pos]. rewrite length_app. cbn in *. lia. }
  exists s'. split; [done |]. split; [done |]. split; [done |]. cbn [r_pos] in Hpos. rewrite Hpos.
  unfold encode_chunk. cbn [fst snd]. fold n. rewrite !length_app. cbn. lia.
Qed.

(** A chunked body is decoded exactly, however the network splits it and
    whatever follows it: the chunks' data, in order, is the body, extensions
    and trailers are passed over, and the reader stands at the first byte of
    the next request. *)
Theorem chunked_body_roundtrip max s cs ts rest :
  at_stream s (encode_body cs ts ++ rest) → Forall chunk_ok cs → Forall trailer_ok ts →
  0 ≤ max < 2 ^ 63 → Z.of_nat (length (r_body s) + length (mjoin (snd <$> cs))) ≤ max →
  Z.of_nat (length (r_read s) + length (arriving (r_inp s))) < 2 ^ 64 →
  ∃ s', read_chunked_body (body_fuel s) max s = Done (Ok tt, s') ∧
    r_body s' = r_body s ++ mjoin (snd <$> cs) ∧ at_stream s' rest.
Proof.
  intros Hs Hcs Hts Hmax Hsz Hlen.
  assert (Hfuel : (length cs + length ts < body_fuel s)%nat).
  { unfold body_fuel. rewrite <-(at_length _ _ Hs). unfold encode_body, encode_trailers. rewrite !length_app.
    assert (length cs ≤ length (mjoin (encode_chunk <$> cs)))%nat.
    { clear. induction cs as [|c cs IH]; [done |]. cbn [fmap list_fmap mjoin list_join length].
      rewrite length_app. unfold encode_chunk at 1. rewrite !length_app. change (length CRLF) with 2%nat.
      unfold mjoin in *. lia. }
    assert (length ts ≤ length (mjoin ((λ t, t ++ CRLF) <$> ts)))%nat.
    { clear. induction ts as [|t ts IH]; [done |]. cbn [fmap list_fmap mjoin list_join length].
      rewrite !length_app. change (length CRLF) with 2%nat. unfold mjoin in *. lia. }
    change (length CRLF) with 2%nat. lia. }
  rewrite <-(at_length _ _ Hs) in Hlen.
  remember (body_fuel s) as fuel eqn:Ef. clear Ef. revert fuel s Hs Hsz Hlen Hfuel.
  induction Hcs as [|c cs Hc Hcs IH]; intros fuel s Hs Hsz Hlen Hfuel; (destruct fuel as [|fuel]; [lia |]).
  - unfold encode_body in Hs. cbn [fmap list_fmap mjoin list_join app] in Hs.
    rewrite <-!(assoc_L (++)) in Hs.
    destruct (fill_line (λ read, bool_decide (1024 < length read - r_pos s)%nat) s (str "0") (encode_trailers ts ++ rest))
      as (read & l & E & Htake & Hat); [done | by apply (bool_decide_unpack _) | |].
    { intros r Hr. apply bool_decide_eq_false. cbn in Hr. lia. }
    cbn [read_chunked_body]. rewrite E, Htake. change (parse_hex _) with (Some 0). cbn iota beta.
    destruct (decide (0 = 0)) as [_|]; [|done].
    destruct (read_trailers_ok ts (S fuel) _ rest (Hat (r_body s))) as (s' & Hr & Hb & Ha); [done | lia |].
    exists s'. cbn [fmap list_fmap mjoin list_join]. rewrite app_nil_r. by split.
  - unfold encode_body in *.
    change (mjoin (encode_chunk <$> c :: cs)) with (encode_chunk c ++ mjoin (encode_chunk <$> cs)) in *.
    change (mjoin (snd <$> c :: cs)) with (c.2 ++ mjoin (snd <$> cs)) in *.
    rewrite <-!(assoc_L (++) (encode_chunk c)) in Hs, Hlen. rewrite length_app in Hsz.
    destruct (read_chunk_line s c _ fuel max Hs Hc) as (s1 & -> & Hb1 & Ha1 & Hp1); [done | done | lia |].
    destruct (IH fuel s1) as (s' & Hr & Hb & Ha); [done | rewrite Hb1, length_app; lia | | cbn in Hfuel; lia |].
    + rewrite Hp1. exact Hlen.
    + exists s'. split; [done |]. split; [|done]. by rewrite Hb, Hb1, (assoc_L (++)).
Qed.

(** ** Bodies with a length *)

Lemma fill_body_ok n l : ∀ body,
  all_data l → (length body ≤ n)%nat → (n ≤ length body + length (arriving l))%nat →
  ∃ l', fill_body n l body = (Ok tt, body ++ take (n - length body) (arriving l), l') ∧
    arriving l' = drop (n - length body) (arriving l) ∧ all_data l'.
Proof.
  induction l as [|e l IH]; intros body Hl Hb Hn; cbn [fill_body].
  - change (arriving []) with (@nil byte) in *. cbn in Hn. rewrite decide_True by lia. exists [].
    by rewrite take_nil, drop_nil, app_nil_r.
  - destruct (decide (n ≤ length body)%nat) as [Hle | Hgt].
    + exists (e :: l). replace (n - length body)%nat with 0%nat by lia. by rewrite take_0, drop_0, app_nil_r.
    + apply Forall_cons in Hl as [(c & d & ->) Hl].
      change (arriving (Data (c :: d) :: l)) with ((c :: d) ++ arriving l) in *. rewrite length_app in Hn.
      destruct (decide (n - length body < length (c :: d))%nat) as [Hr | Hr].
      * exists (Data (drop (n - length body) (c :: d)) :: l).
        rewrite take_app_le by lia. split; [done |]. split; [by rewrite drop_app_le by lia |].
        constructor; [|done]. destruct (drop (n - length body) (c :: d)) as [|x r] eqn:E; [|by exists x, r].
        apply (f_equal length) in E. rewrite length_drop in E. cbn in *. lia.
      * destruct (IH (body ++ c :: d) Hl) as (l' & Hf & Ha & Hl'); [rewrite length_app; lia | rewrite length_app; lia |].
        exists l'. rewrite Hf, Ha. rewrite length_app, take_app_ge, drop_app_ge by lia.
        rewrite <-(assoc_L (++)). rewrite Nat.sub_add_distr. done.
Qed.

(** A body of [n] bytes is the next [n] bytes of the stream, and reading it
    stops there: what the client sent behind it is still to be read. *)
Theorem exact_body_is_next s stream n :
  at_stream s stream → r_body s = [] → (n ≤ length stream)%nat →
  ∃ s', read_exact_body n s = (Ok tt, s') ∧ r_body s' = take n stream ∧ at_stream s' (drop n stream).
Proof.
  intros [Hd Hp Hr] Hb Hn. unfold read_exact_body. rewrite Hb. cbn [app].
  set (have := Nat.min (length (r_read s) - r_pos s) n). set (buffered := drop (r_pos s) (r_read s)) in *.
  assert (Hbl : length buffered = (length (r_read s) - r_pos s)%nat) by apply length_drop.
  assert (Hhave : length (take have buffered) = have) by (rewrite length_take; lia).
  destruct (fill_body_ok n (r_inp s) (take have buffered)) as (l' & Hf & Ha & Hl'); [done | lia | |].
  { rewrite <-Hr, length_app in Hn. lia. }
  rewrite Hf. eexists. split; [done |]. cbn [r_body]. rewrite Hhave in *.
  assert (Hcase : (have = n ∧ n ≤ length buffered)%nat ∨ (have = length buffered ∧ length buffered ≤ n)%nat) by lia.
  rewrite <-Hr. destruct Hcase as [[-> Hle] | [-> Hle]].
  - rewrite Nat.sub_diag, take_0, app_nil_r, take_app_le by done. split; [done |].
    split; cbn [r_inp r_read r_pos]; [done | lia |].
    rewrite Ha, Nat.sub_diag, drop_0, drop_app_le by done. by rewrite <-drop_drop.
  - rewrite take_ge, take_app_ge by done. split; [done |].
    split; cbn [r_inp r_read r_pos]; [done | lia |].
    rewrite Ha, drop_app_ge by done. by rewrite (drop_ge (r_read s)) by lia.
Qed.

(** ** Any client: progress and limits *)

Lemma fill_until_keeps {A} (found : bytes → option A) give l : ∀ read a read' l',
  fill_until found give l read = (Ok a, read', l') →
  read' ++ arriving l' = read ++ arriving l ∧ found read' = Some a ∧ (length read ≤ length read')%nat.
Proof.
  induction l as [|e l IH]; intros read a read' l'; cbn [fill_until];
    (destruct (found read) eqn:E; [by intros [= <- <- <-] |]); destruct (give read); try done.
  destruct e as [[|c d]| |]; try done. intros (H1 & H2 & H3)%IH.
  rewrite H1, <-(assoc_L (++)). split; [done |]. split; [done |]. rewrite length_app in H3. lia.
Qed.

(** Bytes not yet taken. *)
Definition left_over (s : Rd) : nat := (length (r_read s) - r_pos s + length (arriving (r_inp s)))%nat.

Lemma line_taken give s i read l body :
  (r_pos s ≤ length (r_read s))%nat → fill_until (line_at (r_pos s)) give (r_inp s) (r_read s) = (Ok i, read, l) →
  let s' := mkRd read body (r_pos s + i + 2) l in
  (r_pos s' ≤ length (r_read s'))%nat ∧ (left_over s' + i + 2 = left_over s)%nat.
Proof.
  intros Hp (Hk & Hf & Hl)%fill_until_keeps. unfold line_at in Hf. rewrite find_crlf_spec in Hf.
  apply crlf_spec_bound in Hf. rewrite length_drop in Hf. apply (f_equal length) in Hk. rewrite !length_app in Hk.
  unfold left_over. cbn [r_pos r_read r_inp]. lia.
Qed.

Lemma chunk_taken size s s' :
  (r_pos s ≤ length (r_read s))%nat → read_chunk size s = Done (Ok tt, s') →
  (r_pos s' ≤ length (r_read s'))%nat ∧ (left_over s' + 2 ≤ left_over s)%nat ∧
  ∃ d, r_body s' = r_body s ++ d ∧ (left_over s' + length d + 2 = left_over s)%nat ∧
    (0 ≤ size < 2 ^ 64 → Z.of_nat (length (r_read s')) < 2 ^ 64 → Z.of_nat (length d) = size).
Proof.
  intros Hp. unfold read_chunk. destruct (fill_until _ _ _ _) as [[[[]|e] read] l] eqn:E; [|done].
  apply fill_until_keeps in E as (Hk & _ & Hl). apply (f_equal length) in Hk. rewrite !length_app in Hk.
  unfold slice_z. destruct (decide _) as [[Hab Hb] | _]; [|done].
  set (d := take (Z.to_nat _) _). case_decide as Ht; [|done].
  intros [= <-]. apply (f_equal length) in Ht. rewrite length_take, length_drop in Ht.
  change (length [x0d; x0a]) with 2%nat in Ht.
  unfold left_over. cbn [r_pos r_read r_inp r_body].
  assert (Hrest : (length read - (r_pos s + length d) ≥ 2)%nat) by lia.
  split; [lia |]. split; [lia |]. exists d. split; [done |]. split; [lia |].
  intros Hsz Hlen. unfold d. rewrite length_take, length_drop, Nat2Z.id.
  assert (Hw : wrap 64 (Z.of_nat (r_pos s) + size) = Z.of_nat (r_pos s) + size).
  { unfold wrap in *. destruct (decide (Z.of_nat (r_pos s) + size < 2 ^ 64)); [apply Z.mod_small; lia |].
    exfalso. rewrite <-(Z.mod_unique_pos _ _ 1 (Z.of_nat (r_pos s) + size - 2 ^ 64)) in Hab; lia. }
  rewrite Hw in *. lia.
Qed.

Lemma read_trailers_total fuel : ∀ s,
  (r_pos s ≤ length (r_read s))%nat → (left_over s < fuel)%nat → read_trailers fuel s ≠ OutOfFuel.
Proof.
  induction fuel as [|f IH]; intros s Hp Hf; [lia |]. cbn [read_trailers].
  destruct (fill_until _ _ _ _) as [[[i|e] read] l] eqn:E; [|done].
  destruct (line_taken _ s i read l (r_body s) Hp E) as [Hp' Hl]. case_decide; [done |]. apply IH; lia.
Qed.

Lemma read_chunk_total size s : read_chunk size s ≠ OutOfFuel.
Proof. unfold read_chunk. repeat case_match; done. Qed.

(** Reading a chunked body ends, whatever the client sends: it returns (or
    panics) within [body_fuel] steps. *)
Theorem chunked_body_terminates max s :
  (r_pos s ≤ length (r_read s))%nat → read_chunked_body (body_fuel s) max s ≠ OutOfFuel.
Proof.
  intros Hp. assert (Hf : (left_over s < body_fuel s)%nat) by (unfold body_fuel, left_over; lia).
  remember (body_fuel s) as fuel eqn:Ef. clear Ef. revert s Hp Hf.
  induction fuel as [|f IH]; intros s Hp Hf; [lia |]. cbn [read_chunked_body].
  destruct (fill_until _ _ _ _) as [[[i|e] read] l] eqn:E; [|done].
  destruct (line_taken _ s i read l (r_body s) Hp E) as [Hp' Hl].
  destruct (parse_hex _) as [size|]; [|done]. case_decide; [apply read_trailers_total; lia |].
  case_decide; [done |]. destruct (read_chunk size _) as [[[[]|e'] s'] | |] eqn:Ec; [|done | done |].
  - destruct (chunk_taken _ _ _ Hp' Ec) as (Hp2 & Hl2 & _). apply IH; [done | lia].
  - by apply read_chunk_total in Ec.
Qed.

Lemma hex_digit_range c d : hex_digit c = Some d → 0 ≤ d < 16.
Proof.
  unfold hex_digit. repeat case_match; intros [= <-];
    repeat match goal with Hr : in_range _ _ _ = true |- _ => apply in_range_true in Hr end; lia.
Qed.

Lemma parse_hex_go_range b : ∀ v n, 0 ≤ v ≤ u64_max → parse_hex_go b v = Some n → 0 ≤ n ≤ u64_max.
Proof.
  induction b as [|c b IH]; intros v n Hv; cbn [parse_hex_go]; [by intros [= <-] |].
  destruct (_ || _); [by apply IH |]. destruct (hex_digit c) as [d|] eqn:Ed; cbn [mbind option_bind]; [|done].
  apply hex_digit_range in Ed. case_decide; [|done]. apply IH. lia.
Qed.

Lemma parse_hex_range b n : parse_hex b = Some n → 0 ≤ n ≤ u64_max.
Proof. unfold parse_hex. case_decide; [done |]. apply parse_hex_go_range. unfold u64_max. lia. Qed.

Lemma read_trailers_body fuel : ∀ s r s', read_trailers fuel s = Done (r, s') → r_body s' = r_body s.
Proof.
  induction fuel as [|f IH]; intros s r s'; cbn [read_trailers]; [done |].
  destruct (fill_until _ _ _ _) as [[[i|e] read] l]; [|by intros [= <- <-]].
  case_decide; [by intros [= <- <-] |]. by intros ->%IH.
Qed.

Lemma read_chunk_keeps size s s' : read_chunk size s = Done (Ok tt, s') →
  r_read s' ++ arriving (r_inp s') = r_read s ++ arriving (r_inp s).
Proof.
  unfold read_chunk. destruct (fill_until _ _ _ _) as [[[[]|e] read] l] eqn:E; [|done].
  apply fill_until_keeps in E as (Hk & _ & _). destruct (slice_z _ _ _); [|done].
  case_decide; [|done]. by intros [= <-].
Qed.

(** No body is longer than [client_max_body_size] allows, whatever the client
    sends and however the chunk sizes are chosen. *)
Theorem body_within_limit max s s' :
  (r_pos s ≤ length (r_read s))%nat → 0 ≤ max < 2 ^ 63 →
  Z.of_nat (length (r_read s) + length (arriving (r_inp s))) < 2 ^ 63 →
  Z.of_nat (length (r_body s)) ≤ max →
  read_chunked_body (body_fuel s) max s = Done (Ok tt, s') → Z.of_nat (length (r_body s')) ≤ max.
Proof.
  intros Hp Hmax. remember (body_fuel s) as fuel eqn:Ef. clear Ef. revert s Hp.
  induction fuel as [|f IH]; intros s Hp Hlen Hb; [done |]. cbn [read_chunked_body].
  destruct (fill_until _ _ _ _) as [[[i|e] read] l] eqn:E; [|done].
  destruct (line_taken _ s i read l (r_body s) Hp E) as [Hp' Hl].
  apply fill_until_keeps in E as (Hk & _ & _). apply (f_equal length) in Hk. rewrite !length_app in Hk.
  destruct (parse_hex _) as [size|] eqn:Eh; [|done]. apply parse_hex_range in Eh.
  case_decide; [intros Ht; by rewrite (read_trailers_body _ _ _ _ Ht) |].
  case_decide as Hbig; [done |]. cbn [r_body] in *.
  destruct (read_chunk size _) as [[[[]|e'] s1] | |] eqn:Ec; [| done | done | done].
  destruct (chunk_taken _ _ _ Hp' Ec) as (Hp2 & Hl2 & d & Hbody & Hd & Hsz). cbn [r_body] in Hbody.
  apply read_chunk_keeps in Ec. apply (f_equal length) in Ec. rewrite !length_app in Ec.
  unfold left_over in *. cbn [r_read r_pos r_inp] in *.
  specialize (Hsz ltac:(unfold u64_max in *; lia) ltac:(lia)).
  rewrite wrap_id in Hbig by lia. apply IH; rewrite ?Hbody, ?length_app; lia.
Qed.

(** ** What the code does not mean *)

(** A second chunk of 2^64-1 bytes passes the limit, because the sum wraps,
    and then indexes the buffer out of order: the release build wraps and is
    set to abort on a panic, so one request ends the worker process. *)
Theorem chunk_size_aborts l :
  let read := str "1" ++ CRLF ++ str "a" ++ CRLF ++ str "ffffffffffffffff" ++ CRLF ++ str "x" in
  let s := mkRd read [] 0 l in
  read_chunked_body (body_fuel s) (1024 * 1024) s = Panic.
Proof. destruct l; reflexivity. Qed.

(** A size line of blanks is read as the last chunk: white space is skipped
    anywhere among the digits. *)
Theorem blank_size_ends_body :
  let read := str " " ++ CRLF ++ CRLF ++ str "GET" in
  let s := mkRd read [] 0 [] in
  read_chunked_body (body_fuel s) (1024 * 1024) s = Done (Ok tt, mkRd read [] 5 []).
Proof. reflexivity. Qed.

(** ** At concrete inputs *)

Definition sample_chunks : list (bytes * bytes) := [(str ";x=1", str "hello"); ([], str " world")].

Definition sample_wire : bytes := encode_body sample_chunks [str "T: 1"] ++ str "GET".

(** The same stream, cut inside a size line and inside the data. *)
Definition sample_rd : Rd :=
  mkRd (take 2 sample_wire) [] 0 [Data (take 9 (drop 2 sample_wire)); Data (drop 11 sample_wire)].

Lemma sample_at : at_stream sample_rd sample_wire.
Proof. split; [|by vm_compute; lia | by vm_compute]. repeat constructor; by eexists _, _. Qed.

Lemma chunked_body_roundtrip_witness :
  ∃ s', read_chunked_body (body_fuel sample_rd) 100 sample_rd = Done (Ok tt, s') ∧
    r_body s' = str "hello world" ∧ at_stream s' (str "GET").
Proof.
  apply (chunked_body_roundtrip 100 sample_rd sample_chunks [str "T: 1"] (str "GET")).
  - apply sample_at.
  - unfold sample_chunks. apply Forall_cons. split; [|apply Forall_cons; split; [|by constructor]].
    + split; [right; by eexists |]. split; [by apply (bool_decide_unpack _) |]. split; [cbn; lia | done].
    + split; [by left |]. split; [by apply (bool_decide_unpack _) |]. split; [cbn; lia | done].
  - repeat constructor; by apply (bool_decide_unpack _).
  - lia.
  - by vm_compute.
  - by vm_compute.
Defined.

Lemma exact_body_is_next_witness :
  ∃ s', read_exact_body 9 sample_rd = (Ok tt, s') ∧ r_body s' = take 9 sample_wire ∧
    at_stream s' (drop 9 sample_wire).
Proof. apply exact_body_is_next; [apply sample_at | reflexivity | vm_compute; lia]. Defined.

Lemma chunked_body_terminates_witness : read_chunked_body (body_fuel sample_rd) 100 sample_rd ≠ OutOfFuel.
Proof. apply chunked_body_terminates. vm_compute. lia. Defined.

Lemma body_within_limit_witness :
  match read_chunked_body (body_fuel sample_rd) 100 sample_rd with
  | Done (Ok tt, s') => Z.of_nat (length (r_body s')) ≤ 100
  | _ => False
  end.
Proof.
  destruct (read_chunked_body (body_fuel sample_rd) 100 sample_rd) as [[[[]|e] s']| |] eqn:E;
    [|by vm_compute in E..].
  apply (body_within_limit 100 sample_rd s'); [vm_compute; lia | lia | by vm_compute | by vm_compute | exact E].
Defined.
