(* ===== verification/Conn.v ===== *)
(** * [src/server/conn.rs]: one HTTP/1 connection

    The keep-alive loop over [ReadBody] and [Handler]: reading a head, routing
    it, framing and writing the reply, keeping what was pipelined. A socket is
    the list of what its reads report and the bytes its writes took; a client
    that takes no more has gone away, or it is silent and the write waits. *)
From S2P Require Import Prelude.
From S2P Require Import Text.
From S2P Require Import Response.
From S2P Require Import Matching.
From S2P Require Import Model.
From S2P Require Import Ctx.
From S2P Require Import Handler.
From S2P Require Import ReadBody.
From S2P Require Request.
From S2P Require Uri.

Open Scope oxi_scope.
Open Scope Z_scope.

(** ** Writing *)

(** What a peer has been sent, how much more it will take, and what it does
    then: it is gone, or it is [silent] - there, and reading no more. *)
Record Wr := mkWr { out : bytes; credit : nat; silent : bool }.

(** No write has a timeout: one a silent peer does not take never returns. *)
Inductive Write := Wrote (w : Wr) | Refused (w : Wr) | Waits (w : Wr).

Definition write_all (b : bytes) (w : Wr) : Write :=
  if decide (length b ≤ credit w)%nat then Wrote (mkWr (out w ++ b) (credit w - length b) (silent w))
  else (if silent w then Waits else Refused) (mkWr (out w ++ take (credit w) b) 0 (silent w)).

(** A write that most of its callers skip when there is nothing to write *)
Definition write_some (b : bytes) (w : Wr) : Write := if decide (b = []) then Wrote w else write_all b w.

(** How sending a body ends: all of it (the count is what the log gets), an
    error of either side, or a wait without end. *)
Inductive Sent := SentAll (n : Z) (w : Wr) | Broke (w : Wr) | Stuck (w : Wr).

(** [write_head_and_slice] on a vectored transport: [ns] is what each write
    takes of the two slices; a write that takes nothing is an error. *)
Fixpoint vectored (ns : list nat) (head body : bytes) (head_off body_off : nat) (sent : bytes) : option bytes :=
  if decide (length head ≤ head_off ∧ length body ≤ body_off)%nat then Some sent
  else
    match ns with
    | [] | O :: _ => None
    | n :: ns =>
        let rest := drop head_off head ++ drop body_off body in
        let n := Nat.min n (length rest) in
        let head_take := Nat.min n (length head - head_off) in
        vectored ns head body (head_off + head_take) (body_off + (n - head_take)) (sent ++ take n rest)
    end.

Section transfer.
  Context {File Io : Type}.
  (** One [pread]: at most so many bytes of the file, [None] an error. *)
  Context (pread : File → Z → Z → option bytes).
  (** What the reads of an upstream connection report. *)
  Context (io_reads : Io → list Event).

(** The copy loops of [stream_file] and [sendfile_all]. *)
Fixpoint copy_file (fuel : nat) (chunk : Z) (f : File) (pos len sent : Z) (w : Wr) : Sent :=
  if decide (len ≤ sent) then SentAll sent w
  else
    match fuel with
    | O => Stuck w
    | S fuel =>
        match pread f pos (Z.min chunk (len - sent)) with
        | None => Broke w
        | Some [] => SentAll sent w
        | Some b =>
            match write_all b w with
            | Wrote w => let n := Z.of_nat (length b) in copy_file fuel chunk f (pos + n) len (sent + n) w
            | Refused w => Broke w
            | Waits w => Stuck w
            end
        end
    end.

(** The kernel copies; a full send buffer is waited for. *)
Definition sendfile_all (f : File) (offset len : Z) (w : Wr) : Sent :=
  copy_file (Z.to_nat len) (2 ^ 30) f offset len 0 w.

(** [raw]: a plain TCP socket on Linux, where [sendfile] applies. *)
Definition stream_file (raw : bool) (f : File) (offset len buf_size : Z) (sendfile : bool) (w : Wr) : Sent :=
  if sendfile && raw then sendfile_all f offset len w
  else
    let chunk := Z.min (Z.min (Z.max buf_size (16 * 1024)) (512 * 1024)) (Z.max len 1) in
    copy_file (Z.to_nat len) chunk f offset len 0 w.

(** The loop of [stream_upstream]: the read has no timeout. *)
Fixpoint relay (len : option Z) (l : list Event) (sent : Z) (w : Wr) : Sent :=
  if match len with Some total => bool_decide (total ≤ sent) | None => false end then SentAll sent w
  else
    match l with
    | [] => Stuck w
    | TimedOut :: l => relay len l sent w
    | Failed :: _ => Broke w
    | Data [] :: _ => SentAll sent w
    | Data d :: l =>
        let n := match len with Some total => Nat.min (length d) (Z.to_nat (total - sent)) | None => length d end in
        match write_all (take n d) w with
        | Wrote w => relay len l (sent + Z.of_nat n) w
        | Refused w => Broke w
        | Waits w => Stuck w
        end
    end.

Definition stream_upstream (pre : bytes) (io : Io) (len : option Z) (w : Wr) : Sent :=
  match write_some pre w with
  | Wrote w => relay len (io_reads io) (Z.of_nat (length pre)) w
  | Refused w => Broke w
  | Waits w => Stuck w
  end.

(** One direction of [tunnel], which has an idle timeout: to the client it
    counts the bytes, to the upstream it only forwards them. *)
Fixpoint tunnel_one_way (l : list Event) (sent : Z) (w : Wr) : Sent :=
  match l with
  | [] | TimedOut :: _ | Failed :: _ | Data [] :: _ => SentAll sent w
  | Data d :: l =>
      match write_all d w with
      | Wrote w => tunnel_one_way l (sent + Z.of_nat (length d)) w
      | Refused w => SentAll sent w
      | Waits w => Stuck w
      end
  end.


(** What [write_reply] sends for a body, behind the head in [wbuf]. *)
Definition write_body (raw sendfile : bool) (buf_size : Z) (wbuf : bytes) (b : Body File Io) (w : Wr) : Sent :=
  let with_head payload :=
    match write_all (wbuf ++ payload) w with
    | Wrote w => SentAll (Z.of_nat (length payload)) w
    | Refused w => Broke w
    | Waits w => Stuck w
    end in
  let after_head k := match write_all wbuf w with Wrote w => k w | Refused w => Broke w | Waits w => Stuck w end in
  match b with
  | Empty => with_head []
  | Bytes b => with_head b
  | Mmap m start stop => with_head (take (stop - start) (drop start m))
  | Inline f offset len =>
      match pread f offset len with Some b => with_head b | None => Broke w end
  | FileBody f offset len => after_head (stream_file raw f offset len buf_size sendfile)
  | Stream pre io len => after_head (stream_upstream pre io len)
  | Upgraded pre io _ =>
      match write_all (wbuf ++ pre) w with
      | Wrote w => tunnel_one_way (io_reads io) (Z.of_nat (length pre)) w
      | Refused w => Broke w
      | Waits w => Stuck w
      end
  end.

(** [write_reply]; [date] is the text of the cached clock. *)
Definition write_reply (raw : bool) (tokens : ServerTokens) (sendfile : bool) (buf_size : Z) (date : bytes)
    (r : Reply File Io) (head_only : bool) (w : Wr) : Sent :=
  let wbuf := write_head tokens date (resp r) in
  write_body raw sendfile buf_size wbuf (if head_only then Empty else body r) w.

(** [write_bare_error] *)
Definition bare_error (date : bytes) (code : Z) : bytes :=
  let body := error_page code (Some (str "oxiserve")) in
  let r := header (str "Content-Type") (str "text/html")
             (with_framing (Length (Z.of_nat (length body))) (with_keep_alive false (with_status code new))) in
  write_head TokensOn date r ++ body.

End transfer.

(** ** Reading a head *)

Inductive HeadError := HEof | HTimeout | HTooLarge | HIo.

Section head.
  Context (httparse : bytes → result Request.HttparseError (option (nat * Request.Head))).

(** [read_head]: what is buffered is parsed before anything is read. *)
Fixpoint read_head (max_head : Z) (l : list Event) (read : bytes) (r : Request.Req) :
    result HeadError Request.ParseResult * bytes * list Event * Request.Req :=
  let '(r, p) := if decide (read = []) then (r, Request.Partial) else Request.parse httparse read r in
  match p with
  | Request.Complete => (Ok Request.Complete, read, l, r)
  | Request.Error code => (Ok (Request.Error code), read, l, r)
  | Request.Partial =>
      if decide (read ≠ [] ∧ max_head < Z.of_nat (length read)) then (Err HTooLarge, read, l, r)
      else
        match l with
        | [] => (Err HTimeout, read, l, r)
        | TimedOut :: l => (Err HTimeout, read, l, r)
        | Failed :: l => (Err HIo, read, l, r)
        | Data [] :: l => (Err (if decide (read = []) then HEof else HIo), read, l, r)
        | Data d :: l => read_head max_head l (read ++ d) r
        end
  end.
End head.

(** ** The loop *)

Section conn.
  Context {Regex File Io W : Type} `{!World Regex File Io W}.
  Context (httparse : bytes → result Request.HttparseError (option (nat * Request.Head))).
  Context (pread : File → Z → Z → option bytes) (io_reads : Io → list Event).
  Context (http_date : W → bytes).
  Local Abbreviation Ctx := (Ctx (Regex := Regex)).
  Local Abbreviation Reply := (Reply File Io).
  Local Abbreviation Server := (ServerConf (HostRegex := Regex) (Server := Srv Regex)).

(** The arguments of [serve]. *)
Record Listener := mkListener {
  servers : list Server;
  default_server : nat;
  http_maps : list (MapConf Regex);
  l_remote : option SocketAddr;
  l_local : option SocketAddr;
  l_scheme : bytes;
  l_conn_id : Z;
  raw_tcp : bool
}.

(** One line of the access log, as far as it does not depend on the format. *)
Record LogLine := mkLogLine { l_status : Z; l_body_bytes : Z; l_total_bytes : Z }.

(** The locals of [serve_with_prefix] between two requests. *)
Record Conn := mkConn {
  c_read : bytes;
  c_inp : list Event;
  c_wr : Wr;
  c_req : Request.Req;
  c_requests : Z;
  c_log : list LogLine;
  c_world : W
}.

(** One turn of the loop: another one, a return, a panic (which aborts the
    process), or a write that waits for ever. *)
Inductive Turn := Again (c : Conn) | Closed (c : Conn) | Aborted | Hung (c : Conn).

Definition put_wr (w : Wr) (c : Conn) : Conn :=
  mkConn (c_read c) (c_inp c) w (c_req c) (c_requests c) (c_log c) (c_world c).

(** A reply that needs no request. *)
Definition refuse (code : Z) (c : Conn) : Turn :=
  match write_all (bare_error (http_date (c_world c)) code) (c_wr c) with
  | Wrote w | Refused w => Closed (put_wr w c)
  | Waits w => Hung (put_wr w c)
  end.

Definition keeps (r : Reply) (req : Request.Req) (requests : Z) (core : CoreConf Regex) (body_read : bool) : bool :=
  keep_alive (resp r) && Request.keep_alive req && negb (bool_decide (keepalive_requests core ≤ requests)) &&
  body_read && bool_decide (0 < keepalive_timeout core).

(** From the reply to the end of the turn; [consumed] bytes of the buffer
    belong to the request. *)
Definition send_reply (L : Listener) (core : CoreConf Regex) (req : Request.Req) (r : Reply) (body_read : bool)
    (consumed : nat) (c : Conn) : Turn :=
  let kept := keeps r req (c_requests c) core body_read in
  let r := mkReply (with_keep_alive kept (resp r)) (body r) in
  let head_only := is_head (Request.method req) in
  let r := frame (bool_decide (Request.minor req = 1)) r in
  let r := if head_only then mkReply (resp r) Empty else r in
  let keep := keep_alive (resp r) in
  let date := http_date (c_world c) in
  let head_len := Z.of_nat (length (write_head (server_tokens core) date (resp r))) in
  let st := status (resp r) in
  let done w line := mkConn (c_read c) (c_inp c) w req (c_requests c) (c_log c ++ [line]) (c_world c) in
  match write_reply pread io_reads (raw_tcp L) (server_tokens core) (sendfile core) (snd (output_buffers core)) date
          r head_only (c_wr c) with
  | Broke w => Closed (done w (mkLogLine st 0 0))
  | Stuck w => Hung (mkConn (c_read c) (c_inp c) w req (c_requests c) (c_log c) (c_world c))
  | SentAll n w =>
      let c := done w (mkLogLine st n (head_len + n)) in
      if keep then
        Again (mkConn (drop consumed (c_read c)) (c_inp c) (c_wr c) req (c_requests c) (c_log c) (c_world c))
      else Closed c
  end.

(** The middle of a turn: a complete head in the buffer, its server and path
    known, and what became of the body. *)
Definition answer (L : Listener) (server : Server) (u : bytes) (req : Request.Req) (r : result Z unit) (s : Rd)
    (c : Conn) : Turn :=
  let core := s_core (conf server) in
  let ctx := new_ctx (r_read s) req (r_body s) (http_maps L) server u (l_remote L) (l_local L) (l_scheme L)
               (l_conn_id L) (c_requests c) in
  let '(reply, w, body_read) :=
    match r with
    | Err code => (error_reply ctx code, c_world c, false)
    | Ok _ => let '(reply, _, w) := handle ctx (c_world c) in (reply, w, true)
    end in
  send_reply L core req reply body_read (r_pos s)
    (mkConn (r_read s) (r_inp s) (c_wr c) req (c_requests c) (c_log c) w).

Definition serve_one (L : Listener) (c : Conn) : Turn :=
  match servers L !! default_server L with
  | None => Aborted
  | Some default =>
      let buffers := large_client_header_buffers (s_core (conf default)) in
      let '(r, read, l, req) := read_head httparse (fst buffers * snd buffers) (c_inp c) (c_read c) (c_req c) in
      let c := mkConn read l (c_wr c) req (c_requests c) (c_log c) (c_world c) in
      match r with
      | Err HEof | Err HIo => Closed c
      | Err HTimeout => if decide (0 < c_requests c) then Closed c else refuse 408 c
      | Err HTooLarge => refuse 431 c
      | Ok (Request.Error code) => refuse code c
      | Ok _ =>
          let c := mkConn read l (c_wr c) req (c_requests c + 1) (c_log c) (c_world c) in
          match match_host is_match (servers L) (default_server L) (Request.host read req) with
          | None => Aborted
          | Some server =>
              match Uri.normalize (Request.slice read (Request.path req)) with
              | Err _ => refuse 400 c
              | Ok u =>
                  let '(continue, run) := read_body req (client_max_body_size (s_core (conf server))) read l in
                  match write_some continue (c_wr c) with
                  | Waits w => Hung (put_wr w c)
                  | Wrote w | Refused w =>
                      match run with
                      | Done (r, s) =>
                          answer L server u req r s
                            (mkConn (r_read s) (r_inp s) w req (c_requests c) (c_log c) (c_world c))
                      | Panic | OutOfFuel => Aborted
                      end
                  end
              end
          end
      end
  end.

(** [serve]: each turn but the last takes a head from the stream. *)
Fixpoint serve (fuel : nat) (L : Listener) (c : Conn) : option Turn :=
  match fuel with
  | O => None
  | S fuel => match serve_one L c with Again c => serve fuel L c | t => Some t end
  end.

Definition serve_fuel (c : Conn) : nat := S (length (c_read c) + length (arriving (c_inp c))).

End conn.

(** ** Progress *)

(** A complete head has at least one byte. *)
Definition httparse_advances (httparse : bytes → result Request.HttparseError (option (nat * Request.Head))) : Prop :=
  ∀ buf n p, httparse buf = Ok (Some (n, p)) → (0 < n)%nat.

Section progress.
  Context (httparse : bytes → result Request.HttparseError (option (nat * Request.Head))).
  Context (Hok : Request.httparse_ok httparse) (Hadv : httparse_advances httparse).

Lemma push_all_head_len buf hs r : Request.head_len (Request.push_all buf hs r) = Request.head_len r.
Proof.
  revert r. induction hs as [|[n v] hs IH]; intros r; cbn [Request.push_all]; [done |].
  case_decide; [done |]. by rewrite IH.
Qed.

Lemma parse_head_len buf self r :
  Request.parse httparse buf self = (r, Request.Complete) → (0 < Request.head_len r ≤ length buf)%nat.
Proof.
  intros Hp. destruct (Request.parse_complete_inv httparse buf self r Hok Hp)
    as (n & p & mr & tr & r1 & b & Hn & _ & _ & _ & -> & _ & _ & _ & _ & -> & _).
  destruct (Hok _ _ _ Hn) as (Hle & _). specialize (Hadv _ _ _ Hn).
  cbn [Request.head_len Request.with_body Request.with_keep_alive]. rewrite push_all_head_len.
  unfold Request.request_line. by destruct (Uri.split_query _).
Qed.

Lemma read_head_keeps max l : ∀ read r p read' l' r',
  read_head httparse max l read r = (Ok p, read', l', r') →
  read' ++ arriving l' = read ++ arriving l ∧ (all_data l → all_data l') ∧ p ≠ Request.Partial ∧
  ∃ r0, Request.parse httparse read' r0 = (r', p).
Proof.
  assert (Hstop : ∀ l read r r0 p, (if decide (read = []) then (r, Request.Partial) else Request.parse httparse read r) = (r0, p) →
    p ≠ Request.Partial →
    read ++ arriving l = read ++ arriving l ∧ (all_data l → all_data l) ∧ p ≠ Request.Partial ∧
    ∃ r, Request.parse httparse read r = (r0, p)).
  { intros l0 read r r0 p E Hp. repeat (split; [done |]). case_decide; [congruence | by exists r]. }
  induction l as [|e l IH]; intros read r p read' l' r'; cbn [read_head];
    destruct (if decide (read = []) then _ else _) as [r0 q] eqn:E; destruct q;
    try (intros [= <- <- <- <-]; by apply (Hstop _ _ _ _ _ E)); clear E; (case_decide; [done |]); [done |].
  destruct e as [[|c d]| |]; try done. intros (H1 & H2 & H3)%IH.
  split; [by rewrite H1, <-(assoc_L (++)) |]. split; [|done].
  intros Hd. apply H2. by apply Forall_cons in Hd as [_ Hd].
Qed.

Lemma fill_body_shrinks n l : ∀ body r body' l',
  fill_body n l body = (r, body', l') → (length (arriving l') ≤ length (arriving l))%nat.
Proof.
  induction l as [|e l IH]; intros body r body' l'; cbn [fill_body]; (case_decide; [by intros [= <- <- <-] |]).
  - by intros [= <- <- <-].
  - assert (Hc : arriving (e :: l) = match e with Data d => d | _ => [] end ++ arriving l) by done.
    rewrite Hc, length_app. destruct e as [[|c d]| |]; cbn [length].
    + by intros [= <- <- <-].
    + case_decide.
      * intros [= <- <- <-]. change (arriving (Data ?d :: l)) with (d ++ arriving l).
        rewrite length_app, length_drop. cbn [length] in *. lia.
      * intros Hf%IH. lia.
    + by intros [= <- <- <-].
    + by intros [= <- <- <-].
Qed.

Lemma trailers_shrink fuel : ∀ s s', (r_pos s ≤ length (r_read s))%nat →
  read_trailers fuel s = Done (Ok tt, s') → (left_over s' ≤ left_over s)%nat.
Proof.
  induction fuel as [|f IH]; intros s s' Hp; cbn [read_trailers]; [done |].
  destruct (fill_until _ _ _ _) as [[[i|e] read] l] eqn:E; [|done].
  destruct (line_taken _ s i read l (r_body s) Hp E) as [Hp' Hl].
  case_decide; [intros [= <-]; lia |]. intros Ht. specialize (IH _ _ Hp' Ht). lia.
Qed.

Lemma chunked_shrinks fuel max : ∀ s s', (r_pos s ≤ length (r_read s))%nat →
  read_chunked_body fuel max s = Done (Ok tt, s') → (left_over s' ≤ left_over s)%nat.
Proof.
  induction fuel as [|f IH]; intros s s' Hp; cbn [read_chunked_body]; [done |].
  destruct (fill_until _ _ _ _) as [[[i|e] read] l] eqn:E; [|done].
  destruct (line_taken _ s i read l (r_body s) Hp E) as [Hp' Hl].
  destruct (parse_hex _) as [size|]; [|done].
  case_decide; [intros Ht%trailers_shrink; [lia | done] |].
  case_decide; [done |]. destruct (read_chunk size _) as [[[[]|e'] s1] | |] eqn:Ec; [|done..].
  destruct (chunk_taken _ _ _ Hp' Ec) as (Hp2 & Hl2 & _). intros Hr. specialize (IH _ _ Hp2 Hr). lia.
Qed.

(** A body that was read leaves less of the stream than there was. *)
Lemma body_shrinks req max read l continue s :
  (0 < Request.head_len req ≤ length read)%nat →
  read_body req max read l = (continue, Done (Ok tt, s)) →
  (length (drop (r_pos s) (r_read s)) + length (arriving (r_inp s)) < length read + length (arriving l))%nat.
Proof.
  intros Hh. unfold read_body. destruct (Request.body req) as [|n|].
  - intros [= <- <-]. cbn [r_pos r_read r_inp]. rewrite length_drop. lia.
  - case_decide; [done |]. unfold read_exact_body. cbn [r_pos r_read r_inp r_body].
    destruct (fill_body _ _ _) as [[r b] l'] eqn:E. intros [= <- -> <-]. apply fill_body_shrinks in E.
    cbn [r_pos r_read r_inp]. rewrite length_drop. lia.
  - intros [_ Hr]%pair_equal_spec. apply chunked_shrinks in Hr; [|cbn; lia].
    unfold left_over in Hr. cbn [r_pos r_read r_inp] in Hr. rewrite length_drop. lia.
Qed.
End progress.

(** ** Turns *)

Section turns.
  Context {Regex File Io W : Type} `{!World Regex File Io W}.
  Context (httparse : bytes → result Request.HttparseError (option (nat * Request.Head))).
  Context (pread : File → Z → Z → option bytes) (io_reads : Io → list Event).
  Context (http_date : W → bytes).
  Local Abbreviation serve_one := (serve_one httparse pread io_reads http_date).
  Local Abbreviation serve := (serve httparse pread io_reads http_date).
  Local Abbreviation send_reply := (send_reply pread io_reads http_date).
  Local Abbreviation answer := (answer pread io_reads http_date).
  Local Abbreviation Conn := (Conn (W := W)).
  Implicit Type (c : Conn).

Lemma frame_keeps h (r : Reply File Io) : keep_alive (resp (frame h r)) = true → keep_alive (resp r) = true.
Proof. unfold frame. destruct (body r); by repeat case_match. Qed.

(** What the client has not yet been answered for. *)
Definition unread c : bytes := c_read c ++ arriving (c_inp c).

Lemma send_reply_again L (core : CoreConf Regex) req r br k c c' :
  send_reply L core req r br k c = Again c' →
  c_read c' = drop k (c_read c) ∧ c_inp c' = c_inp c ∧ c_requests c' = c_requests c ∧ br = true ∧
  c_requests c < keepalive_requests core ∧ ∃ line, c_log c' = c_log c ++ [line].
Proof.
  unfold send_reply. set (r' := if is_head _ then _ else _).
  destruct (write_reply _ _ _ _ _ _ _ _ _) as [n w|w|w]; [|done..].
  destruct (keep_alive (resp r')) eqn:E; [|done]. intros [= <-]. cbn.
  assert (Hk : keeps r req (c_requests c) core br = true).
  { apply (frame_keeps (bool_decide (Request.minor req = 1)) (mkReply (with_keep_alive _ (resp r)) (body r))).
    rewrite <-E. unfold r'. by destruct (is_head _). }
  unfold keeps in Hk. rewrite !andb_true_iff, negb_true_iff, bool_decide_eq_false in Hk.
  split_and!; try done; [tauto | lia |]. eauto.
Qed.

Lemma answer_again L (server : ServerConf (HostRegex := Regex) (Server := Srv Regex)) u req r s c c' :
  answer L server u req r s c = Again c' →
  r = Ok tt ∧ c_read c' = drop (r_pos s) (r_read s) ∧ c_inp c' = r_inp s ∧ c_requests c' = c_requests c ∧
  c_requests c < keepalive_requests (s_core (conf server)) ∧ ∃ line, c_log c' = c_log c ++ [line].
Proof.
  unfold answer. destruct r as [[]|e].
  - destruct (handle _ _) as [[reply cx] w]. intros H%send_reply_again. tauto.
  - intros H%send_reply_again. by destruct H as (_ & _ & _ & ? & _).
Qed.

(** What another turn means. *)
Lemma serve_one_again L c c' :
  serve_one L c = Again c' →
  ∃ default server u r0 req read l continue s,
    servers L !! default_server L = Some default ∧
    Request.parse httparse read r0 = (req, Request.Complete) ∧
    match_host is_match (servers L) (default_server L) (Request.host read req) = Some server ∧
    Uri.normalize (Request.slice read (Request.path req)) = Ok u ∧
    read ++ arriving l = unread c ∧
    read_body req (client_max_body_size (s_core (conf server))) read l = (continue, Done (Ok tt, s)) ∧
    c_read c' = drop (r_pos s) (r_read s) ∧ c_inp c' = r_inp s ∧
    c_requests c' = c_requests c + 1 ∧ c_requests c' < keepalive_requests (s_core (conf server)) ∧
    ∃ line, c_log c' = c_log c ++ [line].
Proof.
  unfold serve_one. destruct (servers L !! default_server L) as [default|] eqn:Ed; [|done].
  destruct (read_head _ _ _ _ _) as [[[h read] l] req] eqn:Eh.
  destruct h as [[]|[]]; cbv zeta; unfold refuse;
    try (by repeat (case_decide || destruct (write_all _ _))).
  - exfalso. by apply read_head_keeps in Eh as (_ & _ & ? & _).
  - apply read_head_keeps in Eh as (Hs & _ & _ & r0 & Hp).
    destruct (match_host _ _ _ _) as [server|] eqn:Em; [|done].
    destruct (Uri.normalize _) as [u|] eqn:Eu; [|by destruct (write_all _ _)].
    destruct (read_body _ _ _ _) as [continue run] eqn:Eb. destruct (write_some _ _) as [w|w|w]; [..|done].
    all: destruct run as [[r s]| |]; [|done..].
    all: intros (-> & H1 & H2 & H3 & H4 & H5)%answer_again; cbn [c_requests c_log c_read c_inp] in *.
    all: exists default, server, u, r0, req, read, l, continue, s; rewrite H3; by split_and!.
Qed.

(** What a turn leaves, when the process is still there. *)
Definition conn_of (t : Turn) : option Conn :=
  match t with Again c | Closed c | Hung c => Some c | Aborted => None end.

Lemma send_reply_log L (core : CoreConf Regex) req r br k c c' :
  conn_of (send_reply L core req r br k c) = Some c' → (length (c_log c') ≤ S (length (c_log c)))%nat.
Proof.
  unfold send_reply. set (r' := if is_head _ then _ else _).
  destruct (write_reply _ _ _ _ _ _ _ _ _) as [n w|w|w]; [destruct (keep_alive (resp r'))|..]; cbn [conn_of];
    intros [= <-]; cbn [c_log]; rewrite ?length_app; cbn; lia.
Qed.

Lemma serve_one_log L c c' :
  conn_of (serve_one L c) = Some c' → (length (c_log c') ≤ S (length (c_log c)))%nat.
Proof.
  unfold serve_one. destruct (servers L !! default_server L) as [default|]; [|done].
  destruct (read_head _ _ _ _ _) as [[[h read] l] req].
  assert (Hrefuse : ∀ code c, conn_of (refuse http_date code c) = Some c' → (length (c_log c') ≤ S (length (c_log c)))%nat).
  { intros code d. unfold refuse. destruct (write_all _ _); intros [= <-]; cbn; lia. }
  assert (Hstop : ∀ d, Some d = Some c' → (length (c_log c') ≤ S (length (c_log d)))%nat) by (intros d [= <-]; lia).
  assert (Hsend : ∀ server u r s d, conn_of (answer L server u req r s d) = Some c' → (length (c_log c') ≤ S (length (c_log d)))%nat).
  { intros server u r s d. unfold answer.
    destruct (match r with Ok _ => _ | Err _ => _ end) as [[reply w] br]. by intros H%send_reply_log. }
  destruct h as [[]|[]]; cbv zeta; try case_decide; try exact (Hrefuse _ _); try exact (Hstop _).
  all: destruct (match_host _ _ _ _) as [server|]; [|done].
  all: destruct (Uri.normalize _) as [u|]; [|exact (Hrefuse _ _)].
  all: destruct (read_body _ _ _ _) as [continue run], (write_some _ _) as [v|v|v].
  all: try (destruct run as [[r s]| |]; [|done..]; exact (Hsend _ _ _ _ _)). all: intros [= <-]; cbn; lia.
Qed.


(** ** Termination and bounds *)

Lemma serve_one_shrinks L c c' :
  Request.httparse_ok httparse → httparse_advances httparse → serve_one L c = Again c' →
  (length (unread c') < length (unread c))%nat.
Proof.
  intros Hok Hadv (dflt & server & u & r0 & req & read & l & cont & s & _ & Hp & _ & _ & Hu & Hb & Hr & Hi & _)%serve_one_again.
  apply body_shrinks in Hb; [|by eapply parse_head_len].
  unfold unread in *. rewrite <-Hu, Hr, Hi, !length_app. lia.
Qed.

(** *** What may keep a turn from ending *)

(** An upstream that neither closes nor fails. *)
Definition endless (l : list Event) : Prop :=
  Forall (λ e, match e with Data (_ :: _) | TimedOut => True | _ => False end) l.

(** Whether the peer is silent is the peer's own. *)
Definition wr_of (s : Sent) : Wr := match s with SentAll _ w | Broke w | Stuck w => w end.
Definition peer_of (s : Write) : Wr := match s with Wrote w | Refused w | Waits w => w end.
Definition waits (s : Sent) (w : Wr) (P : Prop) : Prop :=
  silent (wr_of s) = silent w ∧ match s with Stuck _ => silent w = true ∨ P | _ => True end.

Lemma write_all_peer b w : silent (peer_of (write_all b w)) = silent w ∧
  match write_all b w with Waits _ => silent w = true | _ => True end.
Proof. unfold write_all. case_decide; [done |]. by destruct (silent w) eqn:E; cbn. Qed.

Lemma write_some_peer b w : silent (peer_of (write_some b w)) = silent w ∧
  match write_some b w with Waits _ => silent w = true | _ => True end.
Proof. unfold write_some. case_decide; [done | apply write_all_peer]. Qed.

Lemma waits_from s w v (P : Prop) : silent v = silent w → waits s v P → waits s w P.
Proof. intros E. unfold waits. by rewrite E. Qed.

Lemma copy_file_waits fuel chunk f pos len sent w :
  (Z.to_nat (len - sent) ≤ fuel)%nat → waits (copy_file pread fuel chunk f pos len sent w) w False.
Proof.
  revert pos sent w. induction fuel as [|fuel IH]; intros pos sent w Hf; cbn [copy_file]; (case_decide; [done |]); [lia |].
  destruct (pread f pos _) as [[|x b]|]; try done. pose proof (write_all_peer (x :: b) w) as [Hs Hw].
  destruct (write_all _ _) as [v|v|v]; cbn [peer_of] in Hs; [|done | by split; auto].
  eapply waits_from; [exact Hs |]. apply IH. cbn [length]. lia.
Qed.

Lemma relay_waits len l sent w : waits (relay len l sent w) w (endless l).
Proof.
  assert (∀ e l s v (P : Prop), (P → endless (e :: l)) → waits s v P → waits s v (endless (e :: l))) as Hmono.
  { intros e m s v P HP. unfold waits. destruct s; naive_solver. }
  revert sent w. induction l as [|e l IH]; intros sent w; cbn [relay]; (destruct (match len with Some _ => _ | None => _ end); [done |]).
  - split; [done |]. right. by constructor.
  - destruct e as [[|x d]| |]; [done | | done | by apply (Hmono _ _ _ _ (endless l)), IH; constructor].
    match goal with |- context [write_all ?b w] => pose proof (write_all_peer b w) as [Hs Hw]; destruct (write_all b w) as [v|v|v] end;
      cbn [peer_of] in Hs; [|done | by split; auto].
    eapply waits_from; [exact Hs |]. apply (Hmono _ _ _ _ (endless l)); [by constructor | apply IH].
Qed.

Lemma tunnel_waits l sent w : waits (tunnel_one_way l sent w) w False.
Proof.
  revert sent w. induction l as [|[[|x d]| |] l IH]; intros sent w; cbn [tunnel_one_way]; try done.
  pose proof (write_all_peer (x :: d) w) as [Hs Hw]. destruct (write_all _ _) as [v|v|v]; cbn [peer_of] in Hs; [|done | by split; auto].
  eapply waits_from; [exact Hs | apply IH].
Qed.

(** The body of an upstream that does not end *)
Definition endless_body (b : Body File Io) : Prop := match b with Stream _ io _ => endless (io_reads io) | _ => False end.

Lemma write_body_waits raw sf buf wbuf b w : waits (write_body pread io_reads raw sf buf wbuf b w) w (endless_body b).
Proof.
  assert (Hw : ∀ x (k : Wr → Sent) (P : Prop), (∀ v, silent v = silent w → waits (k v) v P) →
    waits (match write_all x w with Wrote v => k v | Refused v => Broke v | Waits v => Stuck v end) w P).
  { intros x k P Hk. pose proof (write_all_peer x w) as [Hs Ht]. destruct (write_all x w) as [v|v|v]; cbn [peer_of] in Hs;
      [by eapply waits_from, Hk | done | by split; auto]. }
  destruct b as [|d|m i j|f off len|f off len|pre io len|pre io idle]; cbn [write_body]; try (apply Hw; intros v Hv).
  all: try done.
  - destruct (pread f off len); [|done]. by apply Hw.
  - unfold stream_file, sendfile_all. destruct (sf && raw); apply copy_file_waits; lia.
  - unfold stream_upstream. pose proof (write_some_peer pre v) as [Hs Ht]. destruct (write_some pre v) as [u|u|u]; cbn [peer_of] in Hs;
      [|done | by split; auto]. eapply waits_from; [exact Hs | apply relay_waits].
  - apply tunnel_waits.
Qed.

(** How a turn may fail to end: the client is silent, or the body the handler
    answered with is that of an upstream that does not end. *)
Definition relays_endlessly : Prop := ∃ cx w, endless_body (body (handle cx w).1.1).

Lemma send_reply_waits L (core : CoreConf Regex) req r br k c :
  match send_reply L core req r br k c with
  | Hung _ => silent (c_wr c) = true ∨ endless_body (body r)
  | Again c' => silent (c_wr c') = silent (c_wr c)
  | Closed _ => True
  | Aborted => False
  end.
Proof.
  unfold send_reply. cbv zeta. set (r1 := mkReply (with_keep_alive _ (resp r)) (body r)).
  set (F := frame _ r1). set (r2 := if is_head _ then _ else F).
  assert (Hb : endless_body (if is_head (Request.method req) then Empty else body r2) → endless_body (body r)).
  { unfold r2, F, frame. cbn [Response.body r1]. destruct (is_head _); [done |]. destruct (body r); try done; by repeat case_match. }
  unfold write_reply. match goal with |- context [write_body ?a ?b ?c ?d ?e ?f ?g ?h] =>
    pose proof (write_body_waits c d e f g h) as [Hs Hw]; destruct (write_body a b c d e f g h) as [n w|w|w] end; cbn [wr_of] in Hs.
  - by destruct (keep_alive _).
  - done.
  - tauto.
Qed.

(** Which request of the connection panics: there is no default server, or the
    sizes of its chunks are such that their sum wraps. *)
Definition panics (L : Listener (Regex := Regex)) (c : Conn) : Prop :=
  servers L !! default_server L = None ∨
  ∃ read l req server, server ∈ servers L ∧ read ++ arriving l = unread c ∧ Request.body req = Request.Chunked ∧
    (read_body req (client_max_body_size (s_core (conf server))) read l).2 = Panic.

Lemma answer_waits L (server : ServerConf (HostRegex := Regex) (Server := Srv Regex)) u req r s c :
  match answer L server u req r s c with
  | Hung _ => silent (c_wr c) = true ∨ relays_endlessly
  | Again c' => silent (c_wr c') = silent (c_wr c)
  | Closed _ => True
  | Aborted => False
  end.
Proof.
  unfold answer. cbv zeta. set (cx := new_ctx _ _ _ _ _ _ _ _ _ _ _).
  assert (H : endless_body (body (match r with Ok _ => let '(reply, _, w) := handle cx (c_world c) in (reply, w, true)
    | Err code => (error_reply cx code, c_world c, false) end).1.1) → relays_endlessly).
  { destruct r as [[]|code]; [|unfold error_reply, error_body; by case_match]. intros Hb. exists cx, (c_world c). by destruct (handle _ _) as [[]]. }
  destruct (match r with Ok _ => _ | Err _ => _ end) as [[reply w] br]. cbn [fst] in H.
  match goal with |- context [send_reply ?a ?b ?d ?e ?f ?g ?h] => pose proof (send_reply_waits a b d e f g h) as Hs;
    cbn [c_wr] in Hs; destruct (send_reply a b d e f g h) end; tauto.
Qed.

(** The one way in which reading a body yields nothing. *)
Lemma read_body_fails req max read l continue run : (Request.head_len req ≤ length read)%nat →
  read_body req max read l = (continue, run) → (∀ x, run ≠ Done x) →
  Request.body req = Request.Chunked ∧ (read_body req max read l).2 = Panic ∧ run = Panic.
Proof.
  intros Hl Eb Hr. rewrite Eb. cbn [snd]. revert Eb. unfold read_body.
  pose proof (chunked_body_terminates max (mkRd read [] (Request.head_len req) l) Hl) as Ht.
  destruct (Request.body req) as [|n|]; [|case_decide|].
  1-3: intros [= _ <-]; by edestruct Hr.
  set (x := read_chunked_body _ _ _) in *. clearbody x. intros [= _ <-]. destruct x as [y| |]; [by destruct (Hr y) | done | done].
Qed.

Lemma serve_one_waits L c : Request.httparse_ok httparse → httparse_advances httparse →
  match serve_one L c with
  | Hung _ => silent (c_wr c) = true ∨ relays_endlessly
  | Again c' => silent (c_wr c') = silent (c_wr c)
  | Closed _ => True
  | Aborted => panics L c
  end.
Proof.
  intros Hok Hadv. unfold serve_one. destruct (servers L !! default_server L) as [default|] eqn:Ed; [|by left].
  destruct (read_head _ _ _ _ _) as [[[h read] l] req] eqn:Eh. cbv zeta.
  assert (Hrefuse : ∀ code d, c_wr d = c_wr c →
    match refuse http_date code d with Closed _ => True | Hung _ => silent (c_wr c) = true ∨ relays_endlessly | _ => False end).
  { intros code d Hd. unfold refuse. rewrite Hd. destruct (write_all_peer (bare_error (http_date (c_world d)) code) (c_wr c)) as [_ Hw].
    destruct (write_all _ _); auto. }
  assert (Hr : ∀ code d, c_wr d = c_wr c → match refuse http_date code d with
    | Hung _ => silent (c_wr c) = true ∨ relays_endlessly | Again c' => silent (c_wr c') = silent (c_wr c)
    | Closed _ => True | Aborted => panics L c end).
  { intros code d Hd. specialize (Hrefuse code d Hd). by destruct (refuse _ _ _). }
  destruct h as [p|[]]; try done; try (by apply Hr); [|by case_decide; [|apply Hr]].
  destruct p as [| |code]; [by apply read_head_keeps in Eh as (_ & _ & ? & _)| |by apply Hr].
  apply read_head_keeps in Eh as (Hs & _ & _ & r0 & Hp).
  destruct (match_host _ _ _ _) as [server|] eqn:Em; [|by eapply match_host_default in Em].
  destruct (Uri.normalize _) as [u|]; [|by apply Hr].
  destruct (read_body _ _ _ _) as [continue run] eqn:Eb. pose proof (write_some_peer continue (c_wr c)) as [Hw Ht].
  cbn [c_wr]. destruct (write_some _ _) as [w|w|w]; cbn [peer_of] in Hw; [..|by left].
  all: destruct run as [[r s]| |].
  1, 4: rewrite <-Hw; match goal with |- context [answer ?a ?b ?d ?e ?f ?g ?h] =>
    pose proof (answer_waits a b d e f g h) as Ha; cbn [c_wr] in Ha; by destruct (answer a b d e f g h) end.
  all: eapply read_body_fails in Eb; [|by eapply parse_head_len | done]; destruct Eb as (Hc & Hf & ?); try done.
  all: right; exists read, l, req, server; split_and!; [by eapply match_host_elem | done..].
Qed.


(** [keepalive_requests] bounds a connection: when every server of the
    listener allows at most [K] requests, a connection that has answered [n]
    sends no more than [max 1 (K - n)] further replies before it closes. *)
Theorem requests_bounded L c fuel K t c' :
  (∀ s, s ∈ servers L → keepalive_requests (s_core (conf s)) ≤ K) →
  serve fuel L c = Some t → conn_of t = Some c' →
  Z.of_nat (length (c_log c')) ≤ Z.of_nat (length (c_log c)) + Z.max 1 (K - c_requests c).
Proof.
  intros HK. revert c. induction fuel as [|fuel IH]; intros c; [done |]. cbn [Conn.serve].
  destruct (serve_one L c) as [c1| | |] eqn:E; try done.
  - intros Hs Hc. specialize (IH _ Hs Hc).
    apply serve_one_again in E as (dflt & server & u & r0 & req & read & l1 & cont & s1 & _ & _ & Hm & _ & _ & _ & _ & _ & Hq & Hlt & line & Hl).
    rewrite Hl, length_app in IH. cbn [length] in IH.
    assert (keepalive_requests (s_core (conf server)) ≤ K); [|lia].
    apply HK. by eapply match_host_elem.
  - intros [= <-] Hc. cbn in Hc. assert (H : conn_of (serve_one L c) = Some c') by by rewrite E.
    apply serve_one_log in H. lia.
  - by intros [= <-].
  - intros [= <-] Hc. cbn in Hc. assert (H : conn_of (serve_one L c) = Some c') by by rewrite E.
    apply serve_one_log in H. lia.
Qed.

End turns.

(** ** Requests *)

Lemma hot_value_app buf x h r : Request.bounded buf r → Request.hot_value (buf ++ x) h r = Request.hot_value buf h r.
Proof.
  intros Hb. unfold Request.hot_value. destruct (Request.hot r !! _) as [i|]; [|done]. cbn. case_decide; [done |].
  destruct (Request.headers r !! _) as [hr|] eqn:E; [|done]. cbn. unfold Request.slice.
  rewrite Request.span_app; [done |]. unfold Request.bounded in Hb. rewrite Forall_forall in Hb.
  apply list_elem_of_lookup_2, Hb in E as [_ [_ E]]. done.
Qed.

Section requests.
  Context (httparse : bytes → result Request.HttparseError (option (nat * Request.Head))).
  Context (Hok : Request.httparse_ok httparse) (Hadv : httparse_advances httparse).

(** A head the parser accepts whatever follows it, and asks more for as long
    as it is not whole. *)
Record head_parses (head : bytes) (req : Request.Req) : Prop := {
  hp_more x r : Request.parse httparse (head ++ x) r = (req, Request.Complete);
  hp_partial a b r : head = a ++ b → b ≠ [] → snd (Request.parse httparse a r) = Request.Partial;
  hp_len : Request.head_len req = length head
}.

Lemma parse_bounds buf r req :
  Request.parse httparse buf r = (req, Request.Complete) →
  Request.bounded buf req ∧ (Request.stop (Request.path req) ≤ length buf)%nat.
Proof.
  intros (n & p & mr & tr & r1 & b & _ & _ & _ & _ & E1 & _ & Hb & Ht & _ & -> & _)%Request.parse_complete_inv; [|done].
  split; [exact Hb |]. cbn [Request.path Request.with_body Request.with_keep_alive].
  assert (Hpath : ∀ hs r, Request.path (Request.push_all buf hs r) = Request.path r).
  { clear. induction hs as [|[n v] hs IH]; intros r; cbn [Request.push_all]; [done |]. case_decide; [done |]. by rewrite IH. }
  rewrite E1, Hpath. unfold Request.request_line. pose proof (Request.split_query_spec (Request.span buf tr)) as Hs.
  destruct (Uri.split_query _) as [q q'] eqn:E. destruct Hs as (Hs & _).
  apply (f_equal length) in Hs. rewrite Request.span_length, length_app in Hs by done.
  cbn [Request.path Request.stop]. unfold Request.in_bounds in Ht. lia.
Qed.

Lemma head_host head req x : head_parses head req → Request.host (head ++ x) req = Request.host head req.
Proof.
  intros Hp. pose proof (hp_more _ _ Hp [] Request.new_req) as E. rewrite app_nil_r in E.
  apply parse_bounds in E as [E _]. unfold Request.host. by rewrite hot_value_app.
Qed.

Lemma head_path head req x :
  head_parses head req → Request.slice (head ++ x) (Request.path req) = Request.slice head (Request.path req).
Proof.
  intros Hp. pose proof (hp_more _ _ Hp [] Request.new_req) as E. rewrite app_nil_r in E.
  apply parse_bounds in E as [_ E]. unfold Request.slice. by rewrite Request.span_app.
Qed.

Lemma read_head_whole head req max l : ∀ read r tail,
  head_parses head req → all_data l → read ++ arriving l = head ++ tail → Z.of_nat (length head) ≤ max →
  ∃ x l', read_head httparse max l read r = (Ok Request.Complete, head ++ x, l', req) ∧
    all_data l' ∧ x ++ arriving l' = tail.
Proof.
  induction l as [|e l IH]; intros read r tail Hp Hl Hs Hm; cbn [read_head];
    (assert (Hne : (0 < length head)%nat) by
      (pose proof (hp_more _ _ Hp [] r) as E; rewrite app_nil_r in E; eapply parse_head_len in E; [|done..]; lia));
    destruct (decide (length head ≤ length read)%nat) as [Hle | Hlt].
  1, 3: destruct (app_split read _ head tail Hs Hle) as (x & -> & Hx);
    rewrite decide_False by (intros E; apply (f_equal length) in E; rewrite length_app in E; cbn in E; lia);
    rewrite (hp_more _ _ Hp); exists x; eexists; (split; [done |]); by split.
  - apply (f_equal length) in Hs. rewrite !length_app in Hs. cbn in Hs. lia.
  - assert (∃ b, head = read ++ b ∧ b ≠ []) as (b & Hb & Hbn).
    { destruct (app_split head tail read (arriving (e :: l))) as (b & Hb & _); [done | lia |].
      exists b. split; [done |]. intros ->. rewrite app_nil_r in Hb. subst. lia. }
    destruct (if decide (read = []) then _ else _) as [r0 q] eqn:E.
    assert (q = Request.Partial) as ->.
    { destruct (decide (read = [])); [congruence |]. pose proof (hp_partial _ _ Hp read b r Hb Hbn) as H. by rewrite E in H. }
    clear E. rewrite decide_False by lia. apply Forall_cons in Hl as [(c & d & ->) Hl].
    apply IH; [done | done | | done]. rewrite <-Hs. by rewrite <-(assoc_L (++)).
Qed.

(** How a body travels. *)
Inductive wire_of (req : Request.Req) : bytes → bytes → Prop :=
  | wire_none : Request.body req = Request.NoBody → wire_of req [] []
  | wire_length b : Request.body req = Request.Length (Z.of_nat (length b)) → wire_of req b b
  | wire_chunked cs ts : Request.body req = Request.Chunked → Forall chunk_ok cs → Forall trailer_ok ts →
      wire_of req (mjoin (snd <$> cs)) (encode_body cs ts).
End requests.

(** Reading a body only adds to the buffer. *)
Definition grown (a b : bytes) : Prop := ∃ x, b = a ++ x.

#[local] Instance grown_preorder : PreOrder grown.
Proof.
  split; [intros a; exists []; by rewrite app_nil_r |].
  intros a b c [x ->] [y ->]. exists (x ++ y). by rewrite (assoc_L (++)).
Qed.

Lemma fill_until_grows {A} (found : bytes → option A) give l : ∀ read a read' l',
  fill_until found give l read = (a, read', l') → grown read read'.
Proof.
  induction l as [|e l IH]; intros read a read' l'; cbn [fill_until];
    (destruct (found read); [by intros [= <- <- <-] |]); (destruct (give read); [by intros [= <- <- <-] |]);
    [by intros [= <- <- <-] |].
  destruct e as [[|c d]| |]; try (by intros [= <- <- <-]). intros H%IH.
  etrans; [|exact H]. by exists (c :: d).
Qed.

Lemma trailers_grow fuel : ∀ s r s', read_trailers fuel s = Done (r, s') → grown (r_read s) (r_read s').
Proof.
  induction fuel as [|f IH]; intros s r s'; cbn [read_trailers]; [done |].
  destruct (fill_until _ _ _ _) as [[[i|e] read] l] eqn:E; apply fill_until_grows in E; [|by intros [= <- <-]].
  case_decide; [by intros [= <- <-] |]. intros Ht%IH. etrans; [exact E | exact Ht].
Qed.

Lemma chunk_grows size s r s' : read_chunk size s = Done (r, s') → grown (r_read s) (r_read s').
Proof.
  unfold read_chunk. destruct (fill_until _ _ _ _) as [[[i|e] read] l] eqn:E; apply fill_until_grows in E;
    repeat case_match; intros [= <- <-]; exact E || done.
Qed.

Lemma chunked_grows fuel max : ∀ s r s', read_chunked_body fuel max s = Done (r, s') → grown (r_read s) (r_read s').
Proof.
  induction fuel as [|f IH]; intros s r s'; cbn [read_chunked_body]; [done |].
  destruct (fill_until _ _ _ _) as [[[i|e] read] l] eqn:E; apply fill_until_grows in E; [|by intros [= <- <-]].
  destruct (parse_hex _) as [size|]; [|by intros [= <- <-]].
  case_decide; [intros Ht%trailers_grow; by etrans |]. case_decide; [by intros [= <- <-] |].
  destruct (read_chunk size _) as [[[[]|e'] s1] | |] eqn:Ec; try done; apply chunk_grows in Ec.
  - intros Ht%IH. etrans; [exact E |]. etrans; [exact Ec | exact Ht].
  - intros [= <- <-]. by etrans.
Qed.

(** A body that travelled as it should is read whole, and nothing more. *)
Lemma body_read req max read l body wire rest :
  wire_of req body wire → all_data l → (Request.head_len req ≤ length read)%nat →
  drop (Request.head_len req) read ++ arriving l = wire ++ rest →
  Z.of_nat (length body) ≤ max → 0 ≤ max < 2 ^ 63 → Z.of_nat (length read + length (arriving l)) < 2 ^ 64 →
  ∃ continue s, read_body req max read l = (continue, Done (Ok tt, s)) ∧
    r_body s = body ∧ at_stream s rest ∧ grown read (r_read s) ∧
    (continue = [] ∨ Request.expects_continue read req = true).
Proof.
  intros Hw Hl Hp Hs Hb Hmax Hlen. unfold read_body.
  assert (Hat : at_stream (mkRd read [] (Request.head_len req) l) (wire ++ rest)) by by split.
  assert (Hc : let k := if Request.expects_continue read req then CONTINUE else [] in
    k = [] ∨ Request.expects_continue read req = true) by (destruct (Request.expects_continue _ _); auto).
  cbn zeta in Hc. destruct Hw as [-> | b -> | cs ts -> Hcs Hts].
  - eexists [], _. split_and!; try done. by left.
  - rewrite decide_False by lia. rewrite Nat2Z.id.
    destruct (exact_body_is_next _ _ (length b) Hat) as (s & E & Hbd & Hat'); [done | rewrite length_app; lia |].
    rewrite E. eexists _, s. split; [done |]. rewrite take_app_length, drop_app_length in *.
    split_and!; try done. revert E. unfold read_exact_body. destruct (fill_body _ _ _) as [[r b'] l'].
    by intros [= _ <-].
  - destruct (chunked_body_roundtrip max _ cs ts rest Hat Hcs Hts Hmax) as (s & E & Hbd & Hat'); [done | done |].
    rewrite E. eexists _, s. split_and!; try done. by apply chunked_grows in E.
Qed.

(** The interim response does not wait when the peer has room for it, or is
    gone. *)
Lemma interim_taken req max read l continue run w :
  read_body req max read l = (continue, run) → (silent w = true → length CONTINUE ≤ credit w)%nat →
  ∃ v, write_some continue w = Wrote v ∨ write_some continue w = Refused v.
Proof.
  intros Hb Hcr. assert (continue = [] ∨ continue = CONTINUE) as [-> | ->].
  { revert Hb. unfold read_body. destruct (Request.expects_continue _ _); repeat case_match; intros [= <- _]; auto. }
  - exists w. by left.
  - unfold write_some, write_all. rewrite decide_False by done. case_decide; [by eexists; left |].
    destruct (silent w); [exfalso; auto | by eexists; right].
Qed.

Section served.
  Context {Regex File Io W : Type} `{!World Regex File Io W}.
  Context (httparse : bytes → result Request.HttparseError (option (nat * Request.Head))).
  Context (Hok : Request.httparse_ok httparse) (Hadv : httparse_advances httparse).
  Context (pread : File → Z → Z → option bytes) (io_reads : Io → list Event).
  Context (http_date : W → bytes).
  Local Abbreviation serve_one := (serve_one httparse pread io_reads http_date).
  Local Abbreviation answer := (answer pread io_reads http_date).

(** C21. A request is served as it was sent: however the network cuts a head
    and its body - plain or chunked, with extensions and trailers - and
    whatever is pipelined behind them, the turn hands the handler a context
    with that head, the server and path it names and exactly that body; if the
    connection goes on, it stands at the first byte of what followed. *)
Theorem request_served L (c : Conn (W := W)) (default server : ServerConf (HostRegex := Regex) (Server := Srv Regex))
    u head req body wire rest :
  let buffers := large_client_header_buffers (s_core (conf default)) in
  let max := client_max_body_size (s_core (conf server)) in
  head_parses httparse head req → wire_of req body wire →
  all_data (c_inp c) → unread c = head ++ wire ++ rest →
  servers L !! default_server L = Some default → Z.of_nat (length head) ≤ fst buffers * snd buffers →
  match_host is_match (servers L) (default_server L) (Request.host head req) = Some server →
  Uri.normalize (Request.slice head (Request.path req)) = Ok u →
  Z.of_nat (length body) ≤ max → 0 ≤ max < 2 ^ 63 → Z.of_nat (length (unread c)) < 2 ^ 64 →
  (silent (c_wr c) = true → length CONTINUE ≤ credit (c_wr c))%nat →
  ∃ s w, serve_one L c =
      answer L server u req (Ok tt) s
        (mkConn (r_read s) (r_inp s) w req (c_requests c + 1) (c_log c) (c_world c)) ∧
    r_body s = body ∧ grown head (r_read s) ∧ at_stream s rest ∧
    ∀ c', serve_one L c = Again c' → all_data (c_inp c') ∧ unread c' = rest.
Proof.
  intros buffers max Hp Hw Hl Hu Hd Hh Hm Hn Hb Hmax Hlen Hcr. unfold serve_one, Conn.serve_one. rewrite Hd.
  cbv zeta. fold buffers.
  destruct (read_head_whole httparse Hok Hadv head req _ (c_inp c) (c_read c) (c_req c) (wire ++ rest) Hp Hl Hu Hh)
    as (x & l & E0 & Hl' & Hx).
  rewrite E0. cbv beta iota zeta. rewrite (head_host httparse Hok), (head_path httparse Hok), Hm, Hn by done.
  pose proof (hp_len _ _ _ Hp) as Hhl.
  destruct (body_read req max (head ++ x) l body wire rest) as (continue & s & E & Hbd & Hat & Hg & _); try done.
  { rewrite Hhl, length_app. lia. }
  { by rewrite Hhl, drop_app_length. }
  { assert (unread c = (head ++ x) ++ arriving l) as Eu by (by rewrite Hu, <-Hx, <-(assoc_L (++))).
    rewrite Eu, length_app in Hlen. lia. }
  fold max. rewrite E. destruct (interim_taken _ _ _ _ _ _ _ E Hcr) as (v & Ev). cbn [c_wr].
  assert (∀ (k : Wr → Turn (W := W)) h, match write_some continue (c_wr c) with Waits w => h w | Wrote w | Refused w => k w end = k v)
    as Hk by (intros k h; by destruct Ev as [-> | ->]).
  rewrite Hk. eexists s, _. split; [done |]. split; [done |].
  split; [etrans; [by exists x | done] |]. split; [done |].
  intros c1 Ha. apply (answer_again httparse) in Ha as (_ & Hr & Hi & _). destruct Hat as [Ha1 _ Ha2].
  unfold unread. by rewrite Hr, Hi.
Qed.

End served.

(** ** Replies *)

Section replies.
  Context {Regex File Io W : Type} `{!World Regex File Io W}.
  Context (pread : File → Z → Z → option bytes) (io_reads : Io → list Event).
  Context (http_date : W → bytes).

(** A peer that has taken these bytes *)
Definition took (b : bytes) (w : Wr) : Wr := mkWr (out w ++ b) (credit w - length b) (silent w).

Lemma write_all_fits b w : (length b ≤ credit w)%nat → write_all b w = Wrote (took b w).
Proof. intros H. unfold write_all. by rewrite decide_True. Qed.

Lemma took_nil w : took [] w = w.
Proof. destruct w. unfold took. cbn [out credit silent length]. by rewrite app_nil_r, Nat.sub_0_r. Qed.

Lemma took_app a b w : took b (took a w) = took (a ++ b) w.
Proof. unfold took. cbn [out credit silent]. rewrite length_app, <-app_assoc. f_equal. lia. Qed.

Lemma write_some_fits b w : (length b ≤ credit w)%nat → write_some b w = Wrote (took b w).
Proof. intros H. unfold write_some. case_decide; [subst; by rewrite took_nil | by apply write_all_fits]. Qed.

(** A file of this content: a read gives some of what is there, nothing only
    at its end. *)
Definition file_is (f : File) (content : bytes) : Prop := ∀ pos n, 0 ≤ pos → 0 < n →
  ∃ k : nat, pread f pos n = Some (take k (drop (Z.to_nat pos) content)) ∧ Z.of_nat k ≤ n ∧
    (pos < Z.of_nat (length content) → (0 < k)%nat).

(** The copy loops send the file's bytes, each once, however short the
    reads are. *)
Lemma copy_file_exact f content chunk : file_is f content → 0 < chunk → ∀ fuel pos left sent w,
  0 ≤ pos → pos + Z.of_nat left ≤ Z.of_nat (length content) → (left ≤ fuel)%nat →
  let b := take left (drop (Z.to_nat pos) content) in (length b ≤ credit w)%nat →
  copy_file pread fuel chunk f pos (sent + Z.of_nat left) sent w =
  SentAll (sent + Z.of_nat left) (took b w).
Proof.
  intros Hf Hchunk. induction fuel as [|fuel IH]; intros pos left sent w Hpos Hin Hfuel; cbn zeta; intros Hcr; cbn [copy_file].
  { replace left with 0%nat in * by lia. rewrite decide_True by lia. rewrite take_0, took_nil.
    by replace (sent + Z.of_nat 0) with sent by lia. }
  destruct (decide (sent + Z.of_nat left ≤ sent)) as [Hdone | Hmore].
  { replace left with 0%nat in * by lia. rewrite take_0, took_nil.
    by replace (sent + Z.of_nat 0) with sent by lia. }
  replace (sent + Z.of_nat left - sent) with (Z.of_nat left) by lia.
  destruct (Hf pos (Z.min chunk (Z.of_nat left)) Hpos ltac:(lia)) as (k & Hr & Hk1 & Hk2). rewrite Hr.
  specialize (Hk2 ltac:(lia)). set (d := drop (Z.to_nat pos) content) in *.
  assert (Hd : length (take k d) = k) by (unfold d; rewrite length_take, length_drop; lia).
  assert (Hld : (left ≤ length d)%nat) by (unfold d; rewrite length_drop; lia). rewrite length_take in Hcr.
  destruct (take k d) as [|x r] eqn:E; [cbn in Hd; lia |]. rewrite <-E in Hd |- *.
  rewrite write_all_fits by lia. rewrite Hd.
  replace (sent + Z.of_nat left) with (sent + Z.of_nat k + Z.of_nat (left - k)) by lia.
  assert (Ed : drop (Z.to_nat (pos + Z.of_nat k)) content = drop k d) by (unfold d; rewrite drop_drop; f_equal; lia).
  rewrite IH, Ed; [| lia | lia | lia | rewrite Ed; cbn [took credit]; rewrite length_take, length_drop; lia].
  rewrite took_app. do 2 f_equal. replace left with (k + (left - k))%nat at 2 by lia. by rewrite take_take_drop.
Qed.

Lemma relay_exact ds : ∀ more p sent w,
  Forall (λ d, d ≠ []) ds → (length p ≤ length (mjoin ds))%nat → p = take (length p) (mjoin ds) →
  (length p ≤ credit w)%nat → 0 ≤ sent →
  relay (Some (sent + Z.of_nat (length p))) ((Data <$> ds) ++ more) sent w =
  SentAll (sent + Z.of_nat (length p)) (took p w).
Proof.
  induction ds as [|d ds IH]; intros more p sent w Hds Hle Hp Hcr Hs.
  { destruct p; [|cbn in Hle; lia]. cbn [relay fmap list_fmap app length Z.of_nat].
    assert (bool_decide (sent + 0 ≤ sent) = true) as Hb by (apply bool_decide_eq_true; lia).
    rewrite took_nil, Z.add_0_r in *. destruct more; cbn [relay]; by rewrite Hb. }
  apply Forall_cons in Hds as [Hd Hds]. change (mjoin (d :: ds)) with (d ++ mjoin ds) in *.
  cbn [relay fmap list_fmap app]. destruct (bool_decide _) eqn:Hb.
  { apply bool_decide_eq_true in Hb. destruct p; [|cbn in Hb; lia].
    by rewrite took_nil, Z.add_0_r. }
  apply bool_decide_eq_false in Hb. destruct d as [|c d]; [done |]. set (b := c :: d) in *.
  replace (Z.to_nat (sent + Z.of_nat (length p) - sent)) with (length p) by lia.
  destruct (decide (length b ≤ length p)%nat) as [Hlt | Hge].
  - rewrite Nat.min_l by done. rewrite (take_ge b) by done.
    assert (Hsplit : p = b ++ drop (length b) p).
    { rewrite Hp, take_app_ge, drop_app_length by done. done. }
    set (r := drop (length b) p) in *. assert (Hr : length p = (length b + length r)%nat) by (rewrite Hsplit at 1; apply length_app).
    rewrite write_all_fits by lia. rewrite Hr, Nat2Z.inj_add, Z.add_assoc.
    rewrite (IH more r); [|done | rewrite length_app in Hle; lia | | cbn [took credit]; lia | lia].
    + by rewrite took_app, <-Hsplit.
    + unfold r. rewrite Hp at 1. rewrite take_app_ge, drop_app_length by done. f_equal. rewrite length_drop. done.
  - rewrite Nat.min_r by lia. rewrite take_app_le in Hp by lia. rewrite <-Hp, write_all_fits by done.
    assert (Hb' : bool_decide (sent + Z.of_nat (length p) ≤ sent + Z.of_nat (length p)) = true) by (apply bool_decide_eq_true; lia).
    destruct ds; [destruct more|]; cbn [relay fmap list_fmap app]; by rewrite Hb'.
Qed.

(** A body that stands for these bytes: in memory, in a file that holds them,
    or still to come from an upstream that sends at least as many. *)
Inductive carries : Body File Io → bytes → Prop :=
  | carries_memory b p : mapped b → memory b = Some p → carries b p
  | carries_inline f offset p :
      pread f offset (Z.of_nat (length p)) = Some p → carries (Inline f offset (Z.of_nat (length p))) p
  | carries_file f content offset len : file_is f content → 0 ≤ offset →
      offset + Z.of_nat len ≤ Z.of_nat (length content) →
      carries (FileBody f offset (Z.of_nat len)) (take len (drop (Z.to_nat offset) content))
  | carries_stream pre io ds more rest p : io_reads io = (Data <$> ds) ++ more → Forall (λ d, d ≠ []) ds →
      pre ++ mjoin ds = pre ++ p ++ rest →
      carries (Stream pre io (Some (Z.of_nat (length (pre ++ p))))) (pre ++ p).

Lemma carries_len b p : carries b p → known_len b = Some (Z.of_nat (length p)).
Proof.
  intros [c q Hm Hq | f o q _ | f content o n _ Ho Hn | pre io ds more rest q _ _ _]; [by apply memory_len | done | | done].
  cbn. do 2 f_equal. rewrite length_take, length_drop. lia.
Qed.

Lemma write_body_carries raw sf buf wbuf (b : Body File Io) p w :
  carries b p → (length (wbuf ++ p) ≤ credit w)%nat →
  write_body pread io_reads raw sf buf wbuf b w =
  SentAll (Z.of_nat (length p)) (took (wbuf ++ p) w).
Proof.
  intros Hb Hc. destruct Hb as [b q Hm Hq | f o q Hq | f content o n Hf Ho Hn | pre io ds more rest q Hio Hds Hq].
  - assert (write_body pread io_reads raw sf buf wbuf b w =
      match write_all (wbuf ++ q) w with
      | Wrote w => SentAll (Z.of_nat (length q)) w | Refused w => Broke w | Waits w => Stuck w end) as ->
      by (destruct b; try discriminate Hq; injection Hq as <-; done).
    by rewrite write_all_fits.
  - cbn [write_body]. by rewrite Hq, write_all_fits.
  - rewrite length_app in Hc. set (d := take n (drop (Z.to_nat o) content)) in *.
    assert (Hd : length d = n) by (unfold d; rewrite length_take, length_drop; lia).
    cbn [write_body]. rewrite write_all_fits by lia. unfold stream_file, sendfile_all.
    assert (Hcopy : ∀ chunk, 0 < chunk → ∀ w, (length d ≤ credit w)%nat →
      copy_file pread (Z.to_nat (Z.of_nat n)) chunk f o (Z.of_nat n) 0 w =
      SentAll (Z.of_nat (length d)) (took d w)).
    { intros chunk Hchunk v Hv. rewrite Hd.
      exact (copy_file_exact f content chunk Hf Hchunk (Z.to_nat (Z.of_nat n)) o n 0 v Ho Hn ltac:(lia) Hv). }
    destruct (sf && raw); cbv zeta; rewrite Hcopy by (cbn [took credit]; lia); by rewrite took_app.
  - apply app_inv_head in Hq. rewrite !length_app in Hc. cbn [write_body]. rewrite write_all_fits by lia.
    unfold stream_upstream. rewrite Hio, length_app.
    rewrite write_some_fits by (cbn [took credit]; lia). rewrite Nat2Z.inj_add.
    rewrite relay_exact; [|done| rewrite Hq, length_app; lia | by rewrite Hq, take_app_length | cbn [took credit]; lia | lia].
    by rewrite !took_app.
Qed.

(** C27. A reply reaches the client as it was meant: when the handler's fields
    are single lines and the body can be had - in memory, from its file, or
    from an upstream that sends what it announced - the bytes on the connection
    are one head and that body - none for a status without one, none for
    [HEAD], whose head is the one [GET] would get - a client reads back the
    status, all fields and the body and stops at the next response, the log
    counts exactly these bytes, and the connection goes on if and only if the
    head says [keep-alive]. *)
Theorem reply_on_the_wire L (core : CoreConf Regex) req (r : Reply File Io) k (c : Conn (W := W)) payload :
  0 ≤ status (resp r) ≤ 65535 → Forall clean (fields (resp r)) → x0d ∉ http_date (c_world c) →
  (framing (resp r) = NoFraming ∨ framing (resp r) = Length (Z.of_nat (length payload))) →
  carries (body r) payload → Z.of_nat (length payload) ≤ u64_max →
  let kept := keeps r req (c_requests c) core true in
  let q := resp (frame (bool_decide (Request.minor req = 1)) (mkReply (with_keep_alive kept (resp r)) (body r))) in
  let head := write_head (server_tokens core) (http_date (c_world c)) q in
  let all := own_fields (server_tokens core) (http_date (c_world c)) q ++ fields (resp r) in
  let body := if is_bodyless (status (resp r)) then [] else payload in
  let sent := head ++ if is_head (Request.method req) then [] else body in
  (length sent ≤ credit (c_wr c))%nat →
  (∃ c', send_reply pread io_reads http_date L core req r true k c = (if kept then Again c' else Closed c') ∧
     out (c_wr c') = out (c_wr c) ++ sent ∧
     c_log c' = c_log c ++
       [mkLogLine (status (resp r)) (Z.of_nat (length sent) - Z.of_nat (length head)) (Z.of_nat (length sent))]) ∧
  (∀ next, read_response (head ++ body ++ next) = Some (status (resp r), all, body, next)) ∧
  (status (resp r) ≠ 101 → field_of (str "connection") all = Some (if kept then str "keep-alive" else str "close")).
Proof.
  intros Hs Hf Hd Hn Hm Hlen kept q head all bd sent Hcr.
  set (r1 := mkReply (with_keep_alive kept (resp r)) (body r)) in *. set (h := bool_decide (Request.minor req = 1)) in *.
  assert (HF : frame h r1 =
    if is_bodyless (status (resp r)) then mkReply (with_framing NoFraming (resp r1)) Empty
    else mkReply (with_framing (Length (Z.of_nat (length payload))) (resp r1)) (body r)).
  { pose proof (carries_len _ _ Hm) as Hk. unfold frame, r1. cbn [Response.body resp].
    change (status (with_keep_alive kept (resp r))) with (status (resp r)).
    change (framing (with_keep_alive kept (resp r))) with (framing (resp r)).
    destruct (body r); try done; (destruct (is_bodyless _); [done |]);
      (destruct (decide (framing (resp r) ≠ NoFraming)); [|by rewrite Hk]);
      destruct Hn as [Hn | Hn]; try done; rewrite <-Hn; by destruct (resp r). }
  assert (Hq : status q = status (resp r) ∧ fields q = fields (resp r) ∧ keep_alive q = kept) by
    (unfold q; rewrite HF; by destruct (is_bodyless _)).
  destruct Hq as (Es & Ef & Hk).
  assert (Hbd : carries (Response.body (frame h r1)) bd).
  { unfold bd. rewrite HF. destruct (is_bodyless _); [by apply carries_memory | exact Hm]. }
  split; [|split].
  - unfold send_reply. fold kept r1 h. set (F := frame h r1) in *.
    set (r2 := if is_head _ then _ else F).
    assert (resp r2 = q ∧ carries (Response.body r2) (if is_head (Request.method req) then [] else bd)) as [Hr2 Hb2].
    { unfold r2. destruct (is_head _); [|done]. split; [done |]. by apply carries_memory. }
    rewrite Hr2, Hk, Es. fold head. unfold write_reply. rewrite Hr2.
    rewrite (write_body_carries _ _ _ _ _ (if is_head (Request.method req) then [] else bd)).
    2: { destruct (is_head (Request.method req)); [by apply carries_memory |]. exact Hb2. }
    2: exact Hcr. cbv zeta. cbn [c_wr out c_log c_requests c_read c_inp c_world].
    assert (Hl : mkLogLine (status (resp r)) (Z.of_nat (length sent) - Z.of_nat (length head)) (Z.of_nat (length sent)) =
      mkLogLine (status (resp r)) (Z.of_nat (length (if is_head (Request.method req) then [] else bd)))
        (Z.of_nat (length head) + Z.of_nat (length (if is_head (Request.method req) then [] else bd)))).
    { unfold sent. rewrite length_app. f_equal; lia. }
    rewrite Hl. fold head. by destruct kept; eexists.
  - intros next. unfold all. rewrite <-Ef, <-Es. apply response_reads; rewrite ?Es, ?Ef; try done.
    + unfold bd. destruct (is_bodyless _); [cbn; unfold u64_max; lia | done].
    + unfold q, bd. rewrite HF. by destruct (is_bodyless _).
  - intros H101. unfold all, own_fields. rewrite Hk, Es. unfold field_of.
    destruct (has (str "server") q), (has (str "date") q), (framing q); rewrite decide_True by done;
      destruct kept; reflexivity.
Qed.

(** [write_head_and_slice] sends the head and then the body, whole and once,
    however little of the two slices each vectored write takes. *)
Theorem vectored_write_exact ns head body sent :
  (∀ n, n ∈ ns → 0 < n)%nat → (length (head ++ body) ≤ length ns)%nat →
  vectored ns head body 0 0 sent = Some (sent ++ head ++ body).
Proof.
  intros Hpos Hlen.
  assert (H : ∀ ns a b sent, (∀ n, n ∈ ns → 0 < n)%nat → (a ≤ length head)%nat → (b ≤ length body)%nat →
    (b = 0 ∨ a = length head)%nat → (length (drop a head ++ drop b body) ≤ length ns)%nat →
    vectored ns head body a b sent = Some (sent ++ drop a head ++ drop b body)).
  { clear. induction ns as [|n ns IH]; intros a b sent Hpos Ha Hb Hab Hl; cbn [vectored];
      (destruct (decide (length head ≤ a ∧ length body ≤ b)%nat) as [[H1 H2] | Hmore];
       [by rewrite !drop_ge, !app_nil_r by lia |]); rewrite length_app, !length_drop in Hl; cbn [length] in Hl; [lia |].
    destruct n as [|n]; [specialize (Hpos O ltac:(left)); lia |].
    set (rest := drop a head ++ drop b body).
    assert (Hrest : length rest = (length head - a + (length body - b))%nat) by (unfold rest; by rewrite length_app, !length_drop).
    set (m := Nat.min (S n) (length rest)). assert (Hm : (0 < m ≤ length rest)%nat) by lia.
    rewrite IH; [| by intros j Hj; apply Hpos; right | lia | lia | lia | rewrite length_app, !length_drop; lia].
    f_equal. rewrite <-(assoc_L (++)). f_equal. unfold rest in *.
    destruct (decide (m ≤ length head - a)%nat) as [Hin | Hout].
    - replace (Nat.min m (length head - a)) with m by lia. rewrite Nat.sub_diag, Nat.add_0_r.
      rewrite take_app_le by (rewrite length_drop; lia). rewrite <-drop_drop, (assoc_L (++)). by rewrite take_drop.
    - replace (Nat.min m (length head - a)) with (length head - a)%nat by lia.
      rewrite (drop_ge head (a + _)) by lia. rewrite take_app_ge by (rewrite length_drop; lia).
      rewrite length_drop, <-(assoc_L (++)). f_equal. cbn [app].
      rewrite <-drop_drop. apply take_drop. }
  rewrite (H ns 0%nat 0%nat sent) by (done || lia). by rewrite !drop_0.
Qed.

End replies.

(** ** The pool of connection states *)

Definition READ_BUF_INIT : Z := 8 * 1024.
Definition POOL_KEEP_MAX : Z := 64 * 1024.
Definition POOL_MAX : nat := 512.

Record Vec := mkVec { items : bytes; capacity : Z }.

Record ConnState := mkState { st_read : Vec; st_write : Vec; st_body : Vec; consumed : nat; st_req : Request.Req }.

Definition default_state : ConnState :=
  mkState (mkVec [] READ_BUF_INIT) (mkVec [] READ_BUF_INIT) (mkVec [] 0) 0 Request.new_req.

(** [Pooled::take]: the top of the worker's stack. *)
Definition pool_take (p : list ConnState) : ConnState * list ConnState :=
  match p with [] => (default_state, []) | s :: p => (s, p) end.

Definition cleared (v : Vec) : Vec := mkVec [] (capacity v).

(** [Drop for Pooled] *)
Definition pool_drop (st : ConnState) (p : list ConnState) : list ConnState :=
  if bool_decide (POOL_KEEP_MAX < capacity (st_read st)) || bool_decide (POOL_KEEP_MAX < capacity (st_write st)) ||
     bool_decide (POOL_KEEP_MAX < capacity (st_body st)) then p
  else if bool_decide (length p < POOL_MAX)%nat then
    mkState (cleared (st_read st)) (cleared (st_write st)) (cleared (st_body st)) 0 (Request.reset (st_req st)) :: p
  else p.

(** What a worker does with its pool: take a state, give some state back. *)
Inductive PoolStep : list ConnState → list ConnState → Prop :=
  | step_take p : PoolStep p (pool_take p).2
  | step_drop p st : PoolStep p (pool_drop st p).

(** Nothing of an earlier connection is left to read. *)
Definition blank (s : ConnState) : Prop :=
  items (st_read s) = [] ∧ items (st_write s) = [] ∧ items (st_body s) = [] ∧ consumed s = 0%nat ∧
  Request.headers (st_req s) = [] ∧ Request.body (st_req s) = Request.NoBody ∧
  capacity (st_read s) ≤ POOL_KEEP_MAX ∧ capacity (st_write s) ≤ POOL_KEEP_MAX ∧
  capacity (st_body s) ≤ POOL_KEEP_MAX.

(** No connection sees another's bytes: whatever connections a worker has
    taken and given back, the next one starts from a blank state, and the pool
    holds at most 512 states of at most 64 KiB a buffer. *)
Theorem pool_isolates p :
  rtc PoolStep [] p → blank (pool_take p).1 ∧ (length p ≤ POOL_MAX)%nat ∧ Forall blank p.
Proof.
  intros Hp. assert (H : Forall blank p ∧ (length p ≤ POOL_MAX)%nat).
  { revert Hp. apply (rtc_ind_r (λ p, Forall blank p ∧ (length p ≤ POOL_MAX)%nat)); [split; [done | cbn; unfold POOL_MAX; lia] |].
    intros a q _ Hpq IH.
    destruct IH as [IH1 IH2]. destruct Hpq as [q | q st].
    - destruct IH1; cbn in *; [done | split; [done | lia]].
    - unfold pool_drop. destruct (_ || _ || _) eqn:E; [done |]. destruct (bool_decide (length q < POOL_MAX)%nat) eqn:Eq; [apply bool_decide_eq_true in Eq | done].
      rewrite !orb_false_iff, !bool_decide_eq_false in E. split; [|cbn; lia].
      constructor; [|done]. unfold blank, cleared. cbn. split_and!; done || lia. }
  destruct H as [H1 H2]. split_and!; [|done..]. destruct H1 as [|s p Hs _]; [|exact Hs].
  unfold blank, default_state, READ_BUF_INIT, POOL_KEEP_MAX. cbn [pool_take fst st_read st_write st_body items capacity consumed st_req Request.headers Request.body Request.new_req].
  split_and!; done || lia.
Qed.

(** ** Samples *)

(** A parser of one head. *)
Definition one_head (b : bytes) : result Request.HttparseError (option (nat * Request.Head)) :=
  if starts_with Request.sample_buf b then Ok (Some (50%nat, Request.sample_head))
  else if starts_with b Request.sample_buf then Ok None else Err Request.OtherError.

Lemma one_head_ok : Request.httparse_ok one_head.
Proof.
  intros b n p. unfold one_head. destruct (starts_with Request.sample_buf b) eqn:E; [|by destruct (starts_with b _)].
  intros [= <- <-]. apply starts_with_spec in E as [x ->]. unfold Request.in_bounds, Request.MAX_HEADERS.
  rewrite length_app. change (length Request.sample_buf) with 50%nat. split_and!; try (cbn; lia).
  - intros r [[= <-] | [= <-]]; cbn; lia.
  - cbn [Request.h_headers Request.sample_head]. rewrite !Forall_cons, Forall_nil. cbn. lia.
Qed.

Lemma one_head_advances : httparse_advances one_head.
Proof. intros b n p. unfold one_head. repeat case_match; intros [= <- <-]; lia. Qed.

Lemma one_head_parses : head_parses one_head Request.sample_buf Request.sample_req.
Proof.
  split; [|intros a b r E Hb|done].
  - intros x r. unfold Request.parse, one_head.
    replace (starts_with Request.sample_buf (Request.sample_buf ++ x)) with true by (symmetry; apply starts_with_spec; eauto).
    reflexivity.
  - unfold Request.parse, one_head. destruct (starts_with Request.sample_buf a) eqn:E1.
    + exfalso. apply starts_with_spec in E1 as [x ->]. rewrite <-(assoc_L (++)) in E.
      rewrite <-(app_nil_r Request.sample_buf) in E at 1. apply app_inv_head in E. by destruct x, b.
    + replace (starts_with a Request.sample_buf) with true by (symmetry; apply starts_with_spec; eauto). done.
Qed.

(** One server, whose every path answers [oops]. *)
Definition sample_server : ServerConf (HostRegex := bytes) (Server := Srv bytes) :=
  mkServerConf [] (mkSrv default_core (loc_set [plain_loc (Prefix (str "/")) 1 default_core
    (Return 200 (Some (Vars.compile (str "oops")))) None]) [] [] [] [] NoAction None).

Definition sample_listener : Listener := mkListener [sample_server] 0 [] None None (str "http") 1 false.

Definition fresh (l : list Event) (credit : nat) : Conn (W := unit) :=
  mkConn [] l (mkWr [] credit false) Request.new_req 0 [] tt.

Definition no_pread (f : unit) (off len : Z) : option bytes := None.
Definition no_io (f : unit) : list Event := [].
Definition now (w : unit) : bytes := str "now".

Local Abbreviation sample_serve fuel c :=
  (serve (World0 := sample_world 404) one_head no_pread no_io now fuel sample_listener c).

(** Two requests in three reads, the second cut within its head. *)
Definition two_requests : list Event :=
  [Data (take 30 Request.sample_buf); Data (drop 30 Request.sample_buf ++ str "hello" ++ take 7 Request.sample_buf);
   Data (drop 7 Request.sample_buf ++ str "world"); Data []].

Example both_answered :
  match sample_serve 9 (fresh two_requests 1000) with
  | Some (Closed c) => length (c_log c) = 2%nat ∧ c_read c = [] ∧ c_requests c = 2 ∧
      match read_response (out (c_wr c)) with
      | Some (200, _, b, next) => b = str "oops" ∧
          match read_response next with Some (200, _, b, []) => b = str "oops" | _ => False end
      | _ => False
      end
  | _ => False
  end.
Proof. by vm_compute. Qed.

(** How many lines of its log a closed connection has *)
Definition closed_log (t : option (Turn (W := unit))) : option nat :=
  match t with Some (Closed c) => Some (length (c_log c)) | _ => None end.


(** Each of the three does stop one: a client that takes nothing and does not
    leave, where one that left is closed on. *)
Example silent_client_waits :
  let served (s : bool) := sample_serve 9 (mkConn [] two_requests (mkWr [] 0 s) Request.new_req 0 [] tt) in
  match served true, served false with Some (Hung _), Some (Closed _) => True | _, _ => False end.
Proof. by vm_compute. Qed.

(** Where two requests on one connection end. *)
Definition sample_end : Turn (W := unit) :=
  Eval vm_compute in default Aborted (sample_serve 9 (fresh two_requests 1000)).

Lemma sample_ends : sample_serve 9 (fresh two_requests 1000) = Some sample_end.
Proof. by vm_compute. Qed.

Lemma requests_bounded_witness :
  match conn_of sample_end with
  | Some c' => length (c_log c') = 2%nat ∧ Z.of_nat (length (c_log c')) ≤ 0 + Z.max 1 (1000 - 0)
  | None => False
  end.
Proof.
  split; [reflexivity |].
  refine (requests_bounded (World0 := sample_world 404) one_head no_pread no_io now
    sample_listener (fresh two_requests 1000) 9 1000 sample_end _ _ sample_ends eq_refl).
  intros s Hs. apply list_elem_of_singleton in Hs as ->. cbn. lia.
Defined.

Lemma request_served_witness :
  ∃ s w, serve_one (World0 := sample_world 404) one_head no_pread no_io now sample_listener
      (fresh [Data (take 30 Request.sample_buf); Data (drop 30 Request.sample_buf ++ str "helloGET")] 1000) =
    answer (World0 := sample_world 404) no_pread no_io now sample_listener sample_server
      (str "/a") Request.sample_req (Ok tt) s (mkConn (r_read s) (r_inp s) w Request.sample_req 1 [] tt) ∧
    r_body s = str "hello" ∧ at_stream s (str "GET").
Proof.
  destruct (request_served (World0 := sample_world 404) one_head one_head_ok one_head_advances no_pread no_io now sample_listener
    (fresh [Data (take 30 Request.sample_buf); Data (drop 30 Request.sample_buf ++ str "helloGET")] 1000)
    sample_server sample_server (str "/a") Request.sample_buf Request.sample_req (str "hello") (str "hello") (str "GET"))
    as (s & w & E & Hb & _ & Hat & _).
  - exact one_head_parses.
  - by apply wire_length.
  - by repeat (constructor; [by eexists _, _ |]).
  - reflexivity.
  - reflexivity.
  - cbn. lia.
  - reflexivity.
  - reflexivity.
  - cbn. lia.
  - cbn. lia.
  - cbn. lia.
  - done.
  - exists s, w. split; [exact E |]. split; [exact Hb | exact Hat].
Defined.

(** Sending one reply on an open connection. *)
Definition sample_send (minor : Z) (r : Reply bytes (list Event)) : Turn (W := unit) :=
  send_reply (λ f off len, Some (take (Z.to_nat len) (drop (Z.to_nat off) f))) id (λ _, str "now") sample_listener
    (default_core (Regex := bytes)) (Request.mkReq Request.Get (Request.mkRange 0 0) (Request.mkRange 0 0)
      (Request.mkRange 0 0) (Request.mkRange 0 0) minor [] [] 0 Request.NoBody true) r true 0 (fresh [] 1000).

Definition hello : Reply bytes (list Event) :=
  mkReply (header (str "Content-Type") (str "text/plain") new) (Bytes (str "hello")).

Lemma reply_on_the_wire_witness :
  match sample_send 1 hello with
  | Again c => read_response (out (c_wr c)) =
      Some (200, [(str "Server", str "oxiserve/0.2.38"); (str "Date", str "now"); (str "Content-Length", str "5");
        (str "Connection", str "keep-alive"); (str "Content-Type", str "text/plain")], str "hello", [])
  | _ => False
  end.
Proof.
  destruct (reply_on_the_wire (W := unit) (λ f off len, Some (take (Z.to_nat len) (drop (Z.to_nat off) f))) id
    (λ _, str "now") sample_listener (default_core (Regex := bytes))
    (Request.mkReq Request.Get (Request.mkRange 0 0) (Request.mkRange 0 0)
      (Request.mkRange 0 0) (Request.mkRange 0 0) 1 [] [] 0 Request.NoBody true) hello 0 (fresh [] 1000) (str "hello"))
    as ((c & E & Hout & _) & Hread & _).
  - cbn. lia.
  - by apply (bool_decide_unpack _).
  - by apply (bool_decide_unpack _).
  - by left.
  - by apply carries_memory.
  - unfold u64_max. cbn. lia.
  - by apply (bool_decide_unpack _).
  - unfold sample_send. rewrite E. specialize (Hread []). rewrite app_nil_r in Hread.
    change (keeps _ _ _ _ _) with true. cbn iota. rewrite Hout. exact Hread.
Defined.

Lemma pool_isolates_witness :
  blank (pool_take (pool_drop (mkState (mkVec (str "secret") 8192) (mkVec [] 8192) (mkVec [] 0) 3 Request.sample_req) [])).1.
Proof. apply pool_isolates. apply rtc_once, step_drop. Defined.

Lemma vectored_write_exact_witness :
  vectored [2%nat; 1%nat; 9%nat; 1%nat] (str "ab") (str "cd") 0 0 [] = Some (str "abcd").
Proof.
  apply (vectored_write_exact [2%nat; 1%nat; 9%nat; 1%nat] (str "ab") (str "cd") []); [|cbn; lia].
  apply Forall_forall. by apply (bool_decide_unpack _).
Defined.

(** ** What the replies that are not in memory do *)

(** Against the framing: a file that shrank after it was measured, or an
    upstream that closes before the length it announced, leaves a body shorter
    than the [Content-Length] that was sent, and the connection is kept, so
    the next response is read as the rest of this one. *)
Example short_file_keeps_connection :
  match sample_send 1 (mkReply new (Inline (str "abc") 0 5)) with
  | Again c => read_response (out (c_wr c)) = None
  | _ => False
  end.
Proof. by vm_compute. Qed.

Example truncated_upstream_keeps_connection :
  match sample_send 1 (mkReply (with_framing (Length 5) new) (Stream [] [Data (str "abc"); Data []] (Some 5))) with
  | Again c => read_response (out (c_wr c)) = None
  | _ => False
  end.
Proof. by vm_compute. Qed.

(** A chunked upstream body is relayed until the upstream closes, not until
    the last chunk: with an upstream that keeps its connection open the whole
    response has been sent and the turn does not end. *)
Example chunked_relay_waits :
  match sample_send 1 (mkReply (with_framing Chunked new)
          (Stream [] [Data (str "1" ++ CRLF ++ str "x" ++ CRLF ++ str "0" ++ CRLF ++ CRLF)] None)) with
  | Hung c => ∃ head, out (c_wr c) = head ++ str "1" ++ CRLF ++ str "x" ++ CRLF ++ str "0" ++ CRLF ++ CRLF
  | _ => False
  end.
Proof. vm_compute. by exists (take (length (write_head TokensOn (str "now") (with_framing Chunked new))) (write_head TokensOn (str "now") (with_framing Chunked new))). Qed.

(** A chunked upstream body goes to an HTTP/1.0 client as it is, with a
    [Transfer-Encoding] that version does not have. *)
Example chunked_to_http10 :
  match sample_send 0 (mkReply (with_framing Chunked new) (Stream (str "0" ++ CRLF ++ CRLF) [Data []] None)) with
  | Again c => ∃ a b, out (c_wr c) = a ++ str "Transfer-Encoding: chunked" ++ b
  | _ => False
  end.
Proof.
  assert (H : match sample_send 0 (mkReply (with_framing Chunked new) (Stream (str "0" ++ CRLF ++ CRLF) [Data []] None)) with
    | Again c => bool_decide (is_Some (split_once_str (str "Transfer-Encoding: chunked") (out (c_wr c)))) = true
    | _ => False end) by by vm_compute.
  destruct (sample_send _ _) as [c| | |]; try done. apply bool_decide_eq_true in H as [[a b] H].
  exists a, b. by apply split_once_str_Some in H.
Qed.

(** Compression replaces the body of a reply whose length the proxy or the
    cache has already fixed, and [frame] keeps a fixed framing. *)
Example gzip_breaks_preset_length :
  let r := frame true (maybe_gzip (H := sample_world 404) gzip_request gzip_core
             (mkReply (with_framing (Length 5) (resp gzip_sample)) (Bytes (str "hello")))) in
  framing (resp r) = Length 5 ∧ body r = Bytes (str "gzhello").
Proof. by vm_compute. Qed.
