(* ===== verification/ProxyReq.v ===== *)
(** * [src/server/proxy.rs], the way out: the request sent upstream

    The URI, the head and the peer of a proxied request, as functions of the
    request's context; [Proxy] runs the exchange. *)
From S2P Require Import Prelude.
From S2P Require Import Text.
From S2P Require Import Vars.
From S2P Require Import Response.
From S2P Require Import Matching.
From S2P Require Import Model.
From S2P Require Import Ctx.
From S2P Require Request.
From S2P Require Static.
From S2P Require Upstream.

Open Scope oxi_scope.
Open Scope Z_scope.

Definition HOP_BY_HOP : list bytes :=
  [str "connection"; str "keep-alive"; str "proxy-authenticate"; str "proxy-authorization"; str "te";
   str "trailer"; str "transfer-encoding"; str "upgrade"].

Definition host_of (addr : bytes) : bytes := if starts_with (str "unix:") addr then str "localhost" else addr.

Definition peer_addr (addr : bytes) : bytes :=
  if starts_with (str "unix:") addr || bool_decide (":"%byte ∈ addr) then addr else addr ++ str ":80".

(** nginx's truth of a rendered value. *)
Definition truthy (s : bytes) : bool := bool_decide (s ≠ []) && bool_decide (s ≠ str "0").

(** [str::trim_start_matches] of a string: as often as it stands there. *)
Fixpoint trim_start_go (fuel : nat) (p s : bytes) : bytes :=
  match fuel, strip_prefix p s with
  | S fuel, Some r => trim_start_go fuel p r
  | _, _ => s
  end.

Definition trim_start_matches (p s : bytes) : bytes := trim_start_go (length s) p s.

(** ** Sticky cookies *)

Record StickyCookie := mkSticky {
  sc_name : bytes; sc_expires : option Z; sc_domain : option bytes; sc_path : option bytes; httponly : bool;
  secure : bool; samesite : option bytes
}.

(** [set_cookie]; durations are in milliseconds. *)
Definition set_cookie (sc : StickyCookie) (id : bytes) : bytes :=
  sc_name sc ++ str "=" ++ id ++ str "; Path=" ++ default (str "/") (sc_path sc) ++
  match sc_domain sc with Some d => str "; Domain=" ++ d | None => [] end ++
  match sc_expires sc with Some e => str "; Max-Age=" ++ fmt_u64 (e / 1000) | None => [] end ++
  match samesite sc with Some s => str "; SameSite=" ++ s | None => [] end ++
  (if secure sc then str "; Secure" else []) ++ (if httponly sc then str "; HttpOnly" else []).

(** The loop of [request_cookie]. *)
Fixpoint cookie_in (name : bytes) (parts : list bytes) : option bytes :=
  match parts with
  | [] => None
  | part :: parts =>
      match split_once "="%byte (trim part) with
      | Some (k, v) => if decide (trim k = name) then Some (trim v) else cookie_in name parts
      | None => cookie_in name parts
      end
  end.

Section request.
  Context {Regex W : Type} (is_match : Regex → bytes → bool) (env : W → Env).
  Local Abbreviation Ctx := (Ctx (Regex := Regex)).

Definition request_cookie (c : Ctx) (name : bytes) : option bytes :=
  header ← Request.hot_value (buf c) Request.Cookie (req c); cookie_in name (split ";"%byte header).

Definition render (c : Ctx) (w : W) (t : Template) : bytes := Vars.render (var is_match (env w) c) t.

(** ** The address *)

(** The branch [ProxyTarget::Dynamic]: address and whether it is TLS. *)
Definition dynamic_target (rendered : bytes) : option (bytes * bool) :=
  let '(tls, rest) :=
    match strip_prefix (str "https://") rendered with
    | Some r => (true, r)
    | None => (false, trim_start_matches (str "http://") rendered)
    end in
  let authority := match split "/"%byte rest with a :: _ => a | [] => [] end in
  if decide (authority = []) then None
  else if decide (":"%byte ∈ authority) then Some (authority, tls)
  else Some (authority ++ str ":" ++ (if tls then str "443" else str "80"), tls).

(** ** The URI *)

Definition upstream_uri (c : Ctx) (w : W) (m : LocMatch (Regex := Regex)) (uri_part : option Template) : bytes :=
  (match uri_part with
   | Some t =>
       let base := render c w t in
       base ++
       match m with
       | Exact p | Prefix p | PrefixNoRegex p =>
           if ends_with (str "/") base
           then Static.trim_slashes (default [] (Static.get_from (length p) (uri c))) else []
       | _ => []
       end
   | None => uri c
   end) ++ (if decide (args c = []) then [] else str "?" ++ args c).

(** ** The head *)

(** The fields of [proxy_set_header], less the empty ones. *)
Definition set_fields (c : Ctx) (w : W) (l : list (bytes * Template)) : list (bytes * bytes) :=
  filter (λ f, snd f ≠ []) ((λ '(n, t), (n, render c w t)) <$> l).

Definition host_set (l : list (bytes * Template)) : bool :=
  existsb (λ '(n, _), eq_ignore_ascii_case n (str "host")) l.

(** Whether a field of the client is left out. *)
Definition left_out (conf : ProxyConf) (lower : bytes) : bool :=
  bool_decide (lower ∈ HOP_BY_HOP) || bool_decide (lower = str "host") ||
  bool_decide (lower = str "content-length") || bool_decide (lower = str "expect") ||
  existsb (λ '(n, _), bool_decide (lowercase n = lower)) (p_set_headers conf) ||
  bool_decide (lower ∈ p_hide_headers conf).

Definition forwarded (c : Ctx) (conf : ProxyConf) : list (bytes * bytes) :=
  filter (λ f, left_out conf (lowercase (fst f)) = false)
    ((λ h, (Request.slice (buf c) (Request.name h), Request.slice (buf c) (Request.value h))) <$>
     Request.headers (req c)).

(** The fields of the head in their order. *)
Definition head_fields (c : Ctx) (w : W) (conf : ProxyConf) (addr_str : bytes) (want_keepalive : bool) :
    list (bytes * bytes) :=
  set_fields c w (p_set_headers conf) ++
  (if host_set (p_set_headers conf) then [] else [(str "Host", host_of addr_str)]) ++
  forwarded c conf ++
  (if decide (req_body c = []) then [] else [(str "Content-Length", push_num (Z.of_nat (length (req_body c))))]) ++
  [(str "Connection", if want_keepalive then str "keep-alive" else str "close")].

Definition build_request_head (c : Ctx) (w : W) (m : LocMatch (Regex := Regex)) (pp : ProxyPass) (conf : ProxyConf)
    (addr_str : bytes) (want_keepalive : bool) : bytes :=
  Request.slice (buf c) (Request.method_raw (req c)) ++ str " " ++ upstream_uri c w m (pass_uri pp) ++
  (if p_http_version_11 conf then str " HTTP/1.1" else str " HTTP/1.0") ++ CRLF ++
  mjoin (field_line <$> head_fields c w conf addr_str want_keepalive) ++ CRLF.

(** ** The peer *)

(** The octets of a V6 address, which the context holds as text. *)
Context (octets6 : bytes → bytes).

Definition addr_bytes (a : option SocketAddr) : bytes :=
  match a with
  | Some (V4 a b c d _) => of_u8 <$> [a; b; c; d]
  | Some (V6 ip _) => octets6 ip
  | None => []
  end.

(** The FNV-1a hash of [select_peer_excluding]. *)
Definition ip_hash (a : option SocketAddr) : Z :=
  foldl (λ h b, wrap 64 (Z.lxor h (u8 b) * 0x100000001b3)) 0xcbf29ce484222325 (addr_bytes a).

(** [select_peer_excluding]: the cursor moves only when the balancing method
    is asked; a pinned client does not move it. *)
Definition select_peer_excluding (c : Ctx) (up : Upstream.Upstream) (sticky : option StickyCookie) (now_ms cursor : Z)
    (exclude : list nat) : result Z nat * Z :=
  let pinned :=
    match sticky with
    | Some sc => Upstream.sticky_peer up now_ms (request_cookie c (sc_name sc)) exclude
    | None => None
    end in
  match pinned with
  | Some i => (Ok i, cursor)
  | None =>
      let hash := match Upstream.method up with Upstream.IpHash => Some (ip_hash (remote c)) | _ => None end in
      (match Upstream.select_excluding up now_ms hash cursor exclude with Some i => Ok i | None => Err 502 end,
       wrap 64 (cursor + 1))
  end.
End request.

(** ** What the upstream reads *)

Lemma push_num_clean n : 0 ≤ n → x0d ∉ push_num n.
Proof. intros Hn. rewrite push_num_fmt. by apply digits_no. Qed.

Definition named (n : bytes) (fs : list (bytes * bytes)) : list (bytes * bytes) :=
  filter (λ f, lowercase (fst f) = n) fs.

Section read_back.
  Context {Regex W : Type} (is_match : Regex → bytes → bool) (env : W → Env).
  Implicit Type (c : Ctx (Regex := Regex)).

(** What the operator sets under this name. *)
Definition operator_sets (conf : ProxyConf) (n : bytes) : bool :=
  existsb (λ '(m, _), bool_decide (lowercase m = n)) (p_set_headers conf).

Lemma set_fields_not c w conf n : operator_sets conf n = false → named n (set_fields is_match env c w (p_set_headers conf)) = [].
Proof.
  unfold operator_sets, named, set_fields. intros H. induction (p_set_headers conf) as [|[m t] l IH]; [done |].
  cbn [existsb] in H. apply orb_false_iff in H as [H1 H2]. apply bool_decide_eq_false in H1.
  change ((λ '(n, t), (n, render is_match env c w t)) <$> (m, t) :: l)
    with ((m, render is_match env c w t) :: ((λ '(n, t), (n, render is_match env c w t)) <$> l)).
  rewrite filter_cons. case_decide; [|by apply IH]. rewrite filter_cons_False by done. by apply IH.
Qed.

Lemma forwarded_not c conf n : left_out conf n = true → named n (forwarded c conf) = [].
Proof.
  intros Hn. unfold named, forwarded. generalize ((λ h, (Request.slice (buf c) (Request.name h), Request.slice (buf c) (Request.value h))) <$>
     Request.headers (req c)) as l. induction l as [|f l IH]; [done |]. rewrite filter_cons. case_decide as Hf; [|done].
  rewrite filter_cons_False; [done |]. intros E. rewrite E in Hf. congruence.
Qed.

End read_back.

(** ** Staying with a peer *)

Lemma cookie_in_header l name :
  Forall clean_cookie l →
  cookie_in name (split ";"%byte (cookie_header l)) = snd <$> head (filter (λ p, fst p = name) l).
Proof.
  assert (Hpair : ∀ p parts, clean_cookie p →
    cookie_in name (cookie_pair p :: parts) = if decide (fst p = name) then Some (snd p) else cookie_in name parts).
  { intros p parts (Hk & Hke & _ & Hv & _). cbn [cookie_in].
    assert (trim (cookie_pair p) = cookie_pair p) as ->.
    { apply trim_graphic. unfold cookie_pair. rewrite !Forall_app. split_and!; try done.
      constructor; [|done]. unfold graphic. cbn. lia. }
    unfold cookie_pair. change (str "=" ++ snd p) with ("="%byte :: snd p). rewrite split_once_app by done.
    by rewrite !trim_graphic. }
  assert (Hsp : ∀ parts x, cookie_in name ((str " " ++ x) :: parts) = cookie_in name (x :: parts)).
  { intros parts x. cbn [cookie_in]. unfold trim. by rewrite trim_start_space. }
  induction l as [|p l IH]; intros Hl; [reflexivity |].
  apply Forall_cons in Hl as [Hp Hl]. rewrite filter_cons.
  assert (cookie_in name (split ";"%byte (cookie_header (p :: l))) =
    if decide (fst p = name) then Some (snd p) else cookie_in name (split ";"%byte (cookie_header l))) as ->.
  2: { case_decide; [done | by apply IH]. }
  assert (";"%byte ∉ cookie_pair p) as Hsep.
  { destruct Hp as (_ & _ & Hk & _ & Hv). unfold cookie_pair. rewrite !not_elem_of_app.
    split; [done |]. split; [|done]. by apply (bool_decide_unpack _). }
  destruct l as [|q l].
  - cbn [cookie_header]. rewrite split_clean by done. rewrite Hpair by done. by case_decide.
  - change (cookie_header (p :: q :: l)) with (cookie_pair p ++ ";"%byte :: str " " ++ cookie_header (q :: l)).
    rewrite split_app by done. rewrite Hpair by done. case_decide; [done |].
    destruct (split ";"%byte (cookie_header (q :: l))) as [|x xs] eqn:E; [by apply split_nonempty in E |].
    assert (split ";"%byte (str " " ++ cookie_header (q :: l)) = (str " " ++ x) :: xs) as ->.
    { change (str " " ++ cookie_header (q :: l)) with (" "%byte :: cookie_header (q :: l)).
      cbn [split]. by rewrite E. }
    apply Hsp.
Qed.

(** A client stays with its peer: when the cookies it sends back hold, first
    under its name, the identifier of a peer that can take the request, that
    peer is chosen, whatever the balancing method, and the round-robin cursor
    does not move. *)
Theorem sticky_pins {Regex} (c : Ctx (Regex := Regex)) octets6 sc l i up now cursor ex :
  Request.hot_value (buf c) Request.Cookie (req c) = Some (cookie_header l) → Forall clean_cookie l →
  snd <$> head (filter (λ p, fst p = sc_name sc) l) = Some (Upstream.sticky_id (Upstream.server_at up i)) →
  (i < length (Upstream.servers up))%nat →
  (∀ j, (j < i)%nat → Upstream.sticky_id (Upstream.server_at up j) ≠ Upstream.sticky_id (Upstream.server_at up i)) →
  Upstream.sticky up = true → Upstream.down (Upstream.server_at up i) = false →
  Upstream.is_down (Upstream.health_at up i) now = false → i ∉ ex →
  select_peer_excluding octets6 c up (Some sc) now cursor ex = (Ok i, cursor).
Proof.
  intros Hh Hl Hid Hi Hfirst Hs Hd Hdown Hex.
  assert (Hc : request_cookie c (sc_name sc) = Some (Upstream.sticky_id (Upstream.server_at up i))).
  { unfold request_cookie. rewrite Hh. cbn [mbind option_bind]. by rewrite cookie_in_header. }
  unfold select_peer_excluding. rewrite Hc. unfold Upstream.sticky_peer. cbn [mbind option_bind]. rewrite Hs.
  assert (Hf : list_find (λ s, Upstream.sticky_id s = Upstream.sticky_id (Upstream.server_at up i)) (Upstream.servers up) =
    Some (i, Upstream.server_at up i)).
  { assert (Hnth : ∀ j, (j < length (Upstream.servers up))%nat → Upstream.servers up !! j = Some (Upstream.server_at up j)).
    { intros j Hj. unfold Upstream.server_at. apply lookup_lt_is_Some_2 in Hj as [s E]. rewrite E. by erewrite nth_lookup_Some. }
    apply list_find_Some. split; [by apply Hnth |]. split; [done |].
    intros j y Hj Hlt Hy. rewrite Hnth in Hj by lia. injection Hj as <-. by apply (Hfirst j). }
  rewrite Hf. cbn [mbind option_bind]. rewrite Hd, Hdown, bool_decide_eq_false_2 by done. done.
Qed.

(** ** Samples *)

Definition no_env (w : unit) : Env := mkEnv [] 0 0 0 [] [] (λ _, []).

Definition sample_core : CoreConf bytes := default_core.

(** A context whose path is what [normalize] makes of a raw one. *)
Definition sample_ctx (raw : bytes) : option (Ctx (Regex := bytes)) :=
  match Uri.normalize raw with
  | Ok u =>
      let '(b, r) := Request.from_parts (str "GET") raw [(str "Host", str "h"); (str "TE", str "trailers"); (str "Cookie", str "route=b2")] in
      Some (new_ctx b r (str "hello") [] (mkServerConf [] (mkSrv sample_core (loc_set []) [] [] [] [] NoAction None)) u None None
        (str "http") 1 1)
  | Err _ => None
  end.

Definition plain_pass : ProxyPass := mkProxyPass (ToAddr (str "app") 80) None false.

Definition sample_head (raw : bytes) : option bytes :=
  (λ c, build_request_head (λ _ _, false) no_env c tt (Prefix (str "/")) plain_pass default_proxy (str "app:80") false) <$> sample_ctx raw.

Example head_of_a_request :
  sample_head (str "/a%20b") = Some (mjoin ((λ l, l ++ CRLF) <$>
    [str "GET /a b HTTP/1.0"; str "Host: app:80"; str "Cookie: route=b2"; str "Content-Length: 5"; str "Connection: close"; []])).
Proof. by vm_compute. Qed.

(** The path goes upstream as it was decoded: an escaped line end in a path
    ends the request line, and the rest of the path is read as fields. *)
Theorem decoded_uri_injects :
  ∃ h line r fs, sample_head (str "/%20HTTP/1.1%0d%0aX-Admin:%20yes%0d%0aY:%20") = Some h ∧
    split_once_str CRLF h = Some (line, r) ∧ line = str "GET / HTTP/1.1" ∧
    read_fields (length r) r = Some (fs, []) ∧ hd_error fs = Some (str "X-Admin", str "yes").
Proof.
  eexists _, _, _, _. split; [vm_compute; reflexivity |]. split; [vm_compute; reflexivity |].
  split; [reflexivity |]. split; vm_compute; reflexivity.
Qed.

(** A field value of an HTTP/2 or HTTP/3 request is any bytes: with a line end
    in it, it is two fields upstream. *)
Theorem field_value_injects :
  match Uri.normalize (str "/") with
  | Ok u =>
      let '(b, r) := Request.from_parts (str "GET") (str "/") [(str "x-a", str "1" ++ CRLF ++ str "X-Admin: yes")] in
      let c := new_ctx b r [] [] (mkServerConf [] (mkSrv sample_core (loc_set []) [] [] [] [] NoAction None)) u None None
        (str "https") 1 1 in
      let h := build_request_head (λ _ _, false) no_env c tt (Prefix (str "/")) plain_pass default_proxy (str "app:80") false in
      match split_once_str CRLF h with
      | Some (_, r) => (λ p, named (str "x-admin") (fst p)) <$> read_fields (length r) r
      | None => None
      end
  | Err _ => None
  end = Some [(str "X-Admin", str "yes")].
Proof. by vm_compute. Qed.

(** With a URI part that does not end in a slash the rest of the path is
    lost: the whole location is one resource upstream. *)
Definition app_uri (raw : bytes) : option bytes :=
  (λ c, upstream_uri (λ _ _, false) no_env c tt (Prefix (str "/api/")) (Some (compile (str "/app")))) <$> sample_ctx raw.

Example unslashed_part_drops_the_rest :
  app_uri (str "/api/users/1") = Some (str "/app") ∧ app_uri (str "/api/users/2") = Some (str "/app").
Proof. by vm_compute. Qed.


Definition two_peers : Upstream.Upstream :=
  Upstream.mkUpstream [Upstream.mkServer (str "a") (str "a1") 1 false false; Upstream.mkServer (str "b") (str "b2") 1 false false]
    [Upstream.healthy; Upstream.healthy] Upstream.RoundRobin true.

Lemma sticky_pins_witness :
  match sample_ctx (str "/") with
  | Some c => select_peer_excluding id c two_peers (Some (mkSticky (str "route") None None None false false None)) 0 0 [] =
      (Ok 1%nat, 0)
  | None => False
  end.
Proof.
  destruct (sample_ctx (str "/")) as [c|] eqn:E; [|discriminate E].
  apply (sticky_pins c id _ [(str "route", str "b2")]).
  - by injection E as <-.
  - apply Forall_singleton. unfold clean_cookie. split_and!; by apply (bool_decide_unpack _).
  - reflexivity.
  - cbn. lia.
  - intros [|j] Hj; [done | cbn in Hj; lia].
  - reflexivity.
  - reflexivity.
  - reflexivity.
  - by apply not_elem_of_nil.
Defined.
