(* ===== verification/Proxy.v ===== *)
(** * [src/server/proxy.rs]: the exchange with an upstream

    [proxy_pass] as a function of the request's context and the worker's
    state: the cache in front, the peers tried in turn, the answer's head, and
    the reply it becomes. An upstream connection is what its reads will report
    and what it takes of our writes, so a theorem for every connection holds
    for every upstream. Every [await] lets the worker do something else:
    [Net]'s operations may change the whole state. *)
From S2P Require Import Prelude.
From S2P Require Import Text.
From S2P Require Import Vars.
From S2P Require Import Response.
From S2P Require Import Matching.
From S2P Require Import Model.
From S2P Require Import Ctx.
From S2P Require Import ReadBody.
From S2P Require Import Conn.
From S2P Require Import ProxyReq.
From S2P Require Request.
From S2P Require Cache.
From S2P Require Handler.
From S2P Require Upstream.

Open Scope oxi_scope.
Open Scope Z_scope.

(** ** State *)

(** A connection to an upstream. *)
Record Up := mkUp { up_in : list Event; up_wr : Wr }.

(** An [upstream] block; [limits] holds [max_fails] and [fail_timeout] of each
    server. *)
Record Group := mkGroup {
  g_servers : list Upstream.UpstreamServer;
  g_limits : list (Z * Z);
  g_method : Upstream.LbMethod;
  g_keepalive : nat;
  g_sticky : option StickyCookie
}.

(** What of [Http] is used here. *)
Record Upstreams := mkUpstreams { upstreams : gmap bytes Group; cache_zones : gmap bytes Cache.Zone }.

(** The worker: health of every group's peers, round-robin cursors, idle
    connections, the cache's files, index and fetch locks, and the rest of the
    world. *)
Record St (W : Type) := mkSt {
  peers : gmap bytes (list Upstream.PeerHealth);
  cursors : gmap bytes Z;
  idle : gmap bytes (list (Up * Z));
  fs : Cache.Fs;
  idx : gmap (bytes * (Z * Z)) Cache.Entry;
  fetching : gset (bytes * (Z * Z));
  world : W
}.
Arguments mkSt {W} _ _ _ _ _ _ _.
Arguments peers {W} _.
Arguments cursors {W} _.
Arguments idle {W} _.
Arguments fs {W} _.
Arguments idx {W} _.
Arguments fetching {W} _.
Arguments world {W} _.

(** A parsed answer. *)
Record RHead := mkRHead { r_code : option Z; r_fields : list (bytes * bytes) }.

Section proxy.
  Context {Regex W : Type} (is_match : Regex → bytes → bool) (env : W → Env) (octets6 : bytes → bytes).
  Context (resparse : bytes → result unit (option (nat * RHead))) (is_reusable : Up → bool).
  Local Abbreviation Ctx := (Ctx (Regex := Regex)).
  Local Abbreviation Loc := (Loc Regex).
  Local Abbreviation St := (St W).
  Local Abbreviation Reply := (Response.Reply unit Up).

Definition put_peers (v : gmap bytes (list Upstream.PeerHealth)) (s : St) : St :=
  mkSt v (cursors s) (idle s) (fs s) (idx s) (fetching s) (world s).
Definition put_cursors (v : gmap bytes Z) (s : St) : St :=
  mkSt (peers s) v (idle s) (fs s) (idx s) (fetching s) (world s).
Definition put_idle (v : gmap bytes (list (Up * Z))) (s : St) : St :=
  mkSt (peers s) (cursors s) v (fs s) (idx s) (fetching s) (world s).
Definition put_disk (f : Cache.Fs) (i : gmap (bytes * (Z * Z)) Cache.Entry) (s : St) : St :=
  mkSt (peers s) (cursors s) (idle s) f i (fetching s) (world s).
Definition put_fetching (v : gset (bytes * (Z * Z))) (s : St) : St :=
  mkSt (peers s) (cursors s) (idle s) (fs s) (idx s) v (world s).

(** What the operating system and the other tasks of the worker do. *)
Class Net := {
  (** milliseconds since the upstreams' origin, and Unix seconds *)
  instant : St → Z;
  now_secs : St → Z;
  (** [Stream::connect] within so many milliseconds *)
  connect : bytes → Z → St → option Up * St;
  (** the wait of a read or a write *)
  pass : St → St;
  (** the ten milliseconds of [wait_for_fetch] *)
  poll : St → St;
  pid : Z;
  walk : gmap (bytes * (Z * Z)) Cache.Entry → list ((bytes * (Z * Z)) * Cache.Entry)
}.
Context `{Net} (http : Upstreams).

Definition render (c : Ctx) (s : St) (t : Template) : bytes := ProxyReq.render is_match env c (world s) t.

(** ** Peers *)

Definition view (s : St) (name : bytes) (g : Group) : Upstream.Upstream :=
  Upstream.mkUpstream (g_servers g) (default [] (peers s !! name)) (g_method g) (bool_decide (is_Some (g_sticky g))).

(** The peer of an attempt: its group's name, the group, its index. *)
Definition Chosen : Type := bytes * Group * nat.

Definition on_peer (f : Upstream.PeerHealth → Upstream.PeerHealth) (ch : option Chosen) (s : St) : St :=
  match ch with
  | Some (name, _, i) => put_peers (alter (λ l, alter f i l) name (peers s)) s
  | None => s
  end.

Definition limits_of (g : Group) (i : nat) : Z * Z := default (1, 10000) (g_limits g !! i).

Definition note_failure (ch : option Chosen) (s : St) : St :=
  match ch with
  | Some (_, g, i) =>
      let '(max_fails, fail_timeout) := limits_of g i in
      on_peer (Upstream.record_failure (instant s) max_fails fail_timeout) ch s
  | None => s
  end.

(** [next_peer]: the peers tried, the error to report, and whether to go on. *)
Definition next_peer (tried : list nat) (ch : option Chosen) (enabled may_retry : bool) (deadline : option Z)
    (first_error : option Z) (code tries_limit now : Z) : bool * list nat * option Z :=
  let first_error := Some (default code first_error) in
  match ch with
  | None => (false, tried, first_error)
  | Some (_, g, i) =>
      if negb may_retry || negb enabled then (false, tried, first_error)
      else if match deadline with Some d => bool_decide (d ≤ now) | None => false end then (false, tried, first_error)
      else if decide (i ∈ tried) then (false, tried, first_error)
      else
        let tried := tried ++ [i] in
        if decide (0 < tries_limit ∧ tries_limit ≤ Z.of_nat (length tried)) then (false, tried, first_error)
        else (bool_decide (length tried < length (g_servers g))%nat, tried, first_error)
  end.

(** ** The answer's head *)

Inductive HeadEnd :=
  | Got (n : nat) (h : RHead) (buf : bytes) (l : list Event)
  | Gone (buf : bytes)
  | Slow
  | Invalid (too_long : bool).

Fixpoint read_answer (l : list Event) (buf : bytes) (s : St) : HeadEnd * St :=
  let s := pass s in
  match l with
  | [] | TimedOut :: _ => (Slow, s)
  | Data [] :: _ | Failed :: _ => (Gone buf, s)
  | Data d :: l =>
      let buf := buf ++ d in
      match resparse buf with
      | Ok (Some (n, h)) => (Got n h buf l, s)
      | Ok None => if decide (64 * 1024 < length buf)%nat then (Invalid true, s) else read_answer l buf s
      | Err _ => (Invalid false, s)
      end
  end.

(** What the loop over the fields keeps. *)
Record Scan := mkScan {
  kept : list (bytes * bytes);
  upstream_chunked : bool;
  upstream_len : option Z;
  said_close : bool;
  upstream_upgrade : option bytes
}.

Definition scan_field (conf : ProxyConf) (k : Scan) (f : bytes * bytes) : Scan :=
  let '(name, raw) := f in
  let value := from_utf8_lossy raw in
  let lower := lowercase name in
  if decide (lower = str "transfer-encoding") then
    mkScan (kept k) (eq_ignore_ascii_case value (str "chunked")) (upstream_len k) (said_close k) (upstream_upgrade k)
  else if decide (lower = str "content-length") then
    mkScan (kept k) (upstream_chunked k) (parse_uint u64_max (trim value)) (said_close k) (upstream_upgrade k)
  else if decide (lower = str "connection") then
    mkScan (kept k) (upstream_chunked k) (upstream_len k) (eq_ignore_ascii_case value (str "close")) (upstream_upgrade k)
  else if decide (lower = str "upgrade") then
    mkScan (kept k) (upstream_chunked k) (upstream_len k) (said_close k) (Some value)
  else if decide (lower ∈ HOP_BY_HOP) then k
  else if decide (lower ∈ p_hide_headers conf) then k
  else mkScan (kept k ++ [(name, value)]) (upstream_chunked k) (upstream_len k) (said_close k) (upstream_upgrade k).

Definition scan (conf : ProxyConf) (fs : list (bytes * bytes)) : Scan :=
  foldl (scan_field conf) (mkScan [] false None false None) fs.

Record Attempt := mkAttempt {
  chosen : option Chosen;
  a_keepalive : nat;
  addr_str : bytes;
  a_up : Up;
  want_keepalive : bool;
  a_buf : bytes;
  head_len : nat;
  a_status : Z;
  a_scan : Scan
}.

(** ** The cache in front *)

Record CacheCtx := mkCacheCtx {
  zone : Cache.Zone; key : bytes; hash : Z * Z; bypassed : bool; cconf : ProxyCacheConf
}.

Definition cache_context (c : Ctx) (k : CoreConf Regex) (s : St) : option CacheCtx :=
  let pc := proxy_cache k in
  name ← pc_zone pc; z ← cache_zones http !! name;
  if decide (Request.as_str (Request.method (req c)) ∈ pc_methods pc) then
    let key := render c s (pc_key pc) in
    Some (mkCacheCtx z key (Cache.hash_of key) (existsb (λ t, truthy (render c s t)) (pc_bypass pc)) pc)
  else None.

Definition lock_key (cc : CacheCtx) : bytes * (Z * Z) := (Cache.name (zone cc), hash cc).

(** The loop of [cached_reply] over the stored fields. *)
Definition cached_fields (l : list (bytes * bytes)) : list (bytes * bytes) :=
  filter (λ f, lowercase (fst f) ≠ str "content-length" ∧ lowercase (fst f) ≠ str "transfer-encoding") l.

Definition push_fields (l : list (bytes * bytes)) (r : Resp) : Resp := foldl (λ r f, header (fst f) (snd f) r) r l.

Definition cached_reply (e : Cache.Decoded) : Reply :=
  let r := push_fields (cached_fields (Cache.headers e)) (with_status (Cache.status e) new) in
  mkReply (with_framing (Length (Z.of_nat (length (Cache.body e)))) r) (Bytes (Cache.body e)).

(** [cache::load] on the worker's state; [decode_entry_safe] shows that it
    never panics. *)
Definition load (cc : CacheCtx) (s : St) : option (Cache.Decoded * Cache.CacheStatus) * St :=
  match Cache.load (now_secs s) (zone cc) (key cc) (hash cc) (fs s) (idx s) with
  | Some (r, f, i) => (r, put_disk f i s)
  | None => (None, s)
  end.

Definition hit (e : Cache.Decoded) (status : Cache.CacheStatus) (c : Ctx) : Reply * Ctx :=
  (cached_reply e, put_cache_status (Some status) c).

(** [wait_for_fetch]; [None] of the outer option is a wait longer than the
    fuel ([wait_terminates]). *)
Fixpoint wait_for_fetch (fuel : nat) (cc : CacheCtx) (deadline : Z) (s : St) : option (option Cache.Decoded * St) :=
  if decide (instant s < deadline) then
    match fuel with
    | O => None
    | S fuel =>
        let s := poll s in
        if Cache.is_locked (lock_key cc) (fetching s) then wait_for_fetch fuel cc deadline s
        else
          match load cc s with
          | (Some (e, Cache.Hit), s) => Some (Some e, s)
          | (_, s) => Some (None, s)
          end
    end
  else Some (None, s).

Definition wait_fuel (cc : CacheCtx) : nat := S (Z.to_nat (pc_lock_timeout (cconf cc) / 10)).

(** What the cache makes of a request before an upstream is thought of: a
    reply, or the expired entry at hand and whether the fetch lock is held. *)
Inductive Front := Reply_ (r : Reply) | Fetch (stale : option Cache.Decoded) (locked : bool).

Definition wait (c : Ctx) (cc : CacheCtx) (stale : option Cache.Decoded) (s : St) : option (Front * Ctx * St) :=
  match wait_for_fetch (wait_fuel cc) cc (instant s + pc_lock_timeout (cconf cc)) s with
  | Some (Some e, s) => let '(r, c) := hit e Cache.Hit c in Some (Reply_ r, c, s)
  | Some (None, s) => Some (Fetch stale false, c, s)
  | None => None
  end.

Definition front (c : Ctx) (cc : option CacheCtx) (s : St) : option (Front * Ctx * St) :=
  match cc with
  | None => Some (Fetch None false, c, s)
  | Some cc =>
      if bypassed cc then Some (Fetch None false, put_cache_status (Some Cache.Bypass) c, s)
      else
        let '(found, s) := load cc s in
        match found with
        | Some (e, Cache.Hit) => let '(r, c) := hit e Cache.Hit c in Some (Reply_ r, c, s)
        | _ =>
            let stale := fst <$> found in
            let c := put_cache_status (Some (match stale with Some _ => Cache.Expired | None => Cache.Miss end)) c in
            if negb (pc_lock (cconf cc)) then Some (Fetch stale false, c, s)
            else
              match Cache.try_lock (lock_key cc) (fetching s) with
              | (true, f) => Some (Fetch stale true, c, put_fetching f s)
              | (false, _) =>
                  match stale with
                  | Some e =>
                      if Cache.stale_allowed (pc_use_stale (cconf cc)) Cache.SUpdating then
                        let '(r, c) := hit e Cache.Stale c in Some (Reply_ r, c, s)
                      else wait c cc stale s
                  | None => wait c cc stale s
                  end
              end
        end
  end.

(** [try_stale] *)
Definition try_stale (cc : option CacheCtx) (stale : option Cache.Decoded) (outcome : Cache.StaleWhen) (c : Ctx) :
    option (Reply * Ctx) :=
  cc ← cc;
  if Cache.stale_allowed (pc_use_stale (cconf cc)) outcome then e ← stale; Some (hit e Cache.Stale c) else None.

(** ** One attempt *)

(** What the attempts carry from one to the next. *)
Record Try := mkTry { ctx : Ctx; st : St; tried : list nat; first_error : option Z }.

(** How an attempt ends; [Unread] is the write of a request that an upstream
    neither takes nor refuses, and it never returns. *)
Inductive Pass :=
  | Next (t : Try)
  | Answered (a : Attempt) (c : Ctx) (s : St)
  | Early (r : result Z Reply) (c : Ctx) (s : St)
  | Unread (c : Ctx) (s : St).

Definition fixed_target (t : ProxyTarget) (tls : bool) (c : Ctx) (s : St) : option (bytes * bool) :=
  match t with
  | ToAddr host port => Some (host ++ str ":" ++ fmt_u64 port, tls)
  | ToUnix path => Some (str "unix:" ++ path, false)
  | Dynamic t => dynamic_target (render c s t)
  | ToUpstream _ => None
  end.

(** The address to connect to; an upstream group moves its cursor. *)
Definition pick (pp : ProxyPass) (t : Try) : result Z (bytes * bool * option Chosen) * St :=
  match target pp with
  | ToUpstream name =>
      match upstreams http !! name with
      | None => (Err 502, st t)
      | Some g =>
          let s := st t in
          let '(r, cur) := select_peer_excluding octets6 (ctx t) (view s name g) (g_sticky g) (instant s)
                             (default 0 (cursors s !! name)) (tried t) in
          let s := put_cursors (<[name := cur]> (cursors s)) s in
          match r with
          | Ok i => (Ok (peer_addr (Upstream.addr (Upstream.server_at (view s name g) i)), tls pp, Some (name, g, i)), s)
          | Err code => (Err (default code (first_error t)), s)
          end
      end
  | tgt => (match fixed_target tgt (tls pp) (ctx t) (st t) with Some (a, tls) => Ok (a, tls, None) | None => Err 502 end, st t)
  end.

Section pass.
  Context (m : LocMatch (Regex := Regex)) (pp : ProxyPass) (conf : ProxyConf) (cc : option CacheCtx).
  Context (stale : option Cache.Decoded) (may_retry : bool) (deadline : option Z).

(** A failed attempt: noted against the peer, then another peer, then an old
    copy where [proxy_cache_use_stale] names the failure, then the error. *)
Definition failed (note enabled : bool) (code : Z) (when : option Cache.StaleWhen) (ch : option Chosen) (t : Try) (s : St) :
    Pass :=
  let s := if note then note_failure ch s else s in
  let '(again, tried, first_error) :=
    next_peer (tried t) ch enabled may_retry deadline (first_error t) code (p_next_upstream_tries conf) (instant s) in
  if again then Next (mkTry (ctx t) s tried first_error)
  else
    match (when ← when; try_stale cc stale when (ctx t)) with
    | Some (r, c) => Early (Ok r) c s
    | None => Early (Err code) (ctx t) s
    end.

(** Writing the head and the body, then reading the answer's head. *)
Definition exchange (ch : option Chosen) (addr : bytes) (u : Up) (reused : bool) (t : Try) (s : St) : Pass :=
  let nu := p_next_upstream conf in
  let keepalive := match ch with Some (_, g, _) => g_keepalive g | None => O end in
  let want := bool_decide (0 < keepalive)%nat && p_http_version_11 conf in
  let head := build_request_head is_match env (ctx t) (world s) m pp conf addr want in
  match write_all head (up_wr u) with
  | Waits _ => Unread (ctx t) (pass s)
  | Refused _ => failed (negb reused) (nu_error nu) 502 None ch t (pass s)
  | Wrote w =>
      match write_some (req_body (ctx t)) w with
      | Waits _ => Unread (ctx t) (pass s)
      | Refused _ => failed true (nu_error nu) 502 None ch t (pass s)
      | Wrote w =>
          match read_answer (up_in u) [] (pass s) with
          | (Gone buf, s) =>
              failed (negb (reused && bool_decide (buf = []))) (nu_error nu) 502 (Some Cache.SError) ch t s
          | (Slow, s) => failed true (nu_timeout nu) 504 (Some Cache.STimeout) ch t s
          | (Invalid too_long, s) =>
              failed true (nu_invalid_header nu) 502 (if too_long then None else Some Cache.SInvalidHeader) ch t s
          | (Got n h buf l, s) =>
              let status := default 502 (r_code h) in
              let a := mkAttempt ch keepalive addr (mkUp l w) want buf n status (scan conf (r_fields h)) in
              if decide (status ∈ nu_statuses nu) then
                let s := note_failure ch s in
                let '(again, tried, first_error) :=
                  next_peer (tried t) ch true may_retry deadline (first_error t) status (p_next_upstream_tries conf) (instant s) in
                if again then Next (mkTry (ctx t) s tried first_error) else Answered a (ctx t) s
              else Answered a (ctx t) s
          end
      end
  end.

Definition leaving (f : St → St) (p : Pass) : Pass :=
  match p with
  | Next t => Next (mkTry (ctx t) (f (st t)) (tried t) (first_error t))
  | Answered a c s => Answered a c (f s)
  | Early r c s => Early r c (f s)
  | Unread c s => Unread c s
  end.

(** The body of the loop; [InFlightGuard] lives as long as it: not dropped
    while a write waits. *)
Definition one_pass (t : Try) : Pass :=
  match pick pp t with
  | (Err code, s) => Early (Err code) (ctx t) s
  | (Ok (addr, tls, ch), s) =>
      if tls then Early (Err 502) (ctx t) s
      else
        let t := mkTry (put_upstream_addr addr (ctx t)) s (tried t) (first_error t) in
        let s := on_peer Upstream.enter ch s in
        leaving (on_peer Upstream.leave ch)
          (match Upstream.take_conn is_reusable (instant s) addr (idle s) with
           | (Some u, pool) => exchange ch addr u true t (put_idle pool s)
           | (None, pool) =>
               match connect addr (default 60000 (p_connect_timeout conf)) (put_idle pool s) with
               | (Some u, s) => exchange ch addr u false t s
               | (None, s) => failed true (nu_error (p_next_upstream conf)) 502 (Some Cache.SError) ch t s
               end
           end)
  end.

Fixpoint attempts (fuel : nat) (t : Try) : option Pass :=
  match fuel with
  | O => None
  | S fuel => match one_pass t with Next t => attempts fuel t | p => Some p end
  end.
End pass.

(** ** The reply *)

Definition cacheable_ttl (cc : CacheCtx) (c : Ctx) (status : Z) (s : St) : option Z * St :=
  let pc := cconf cc in
  if existsb (λ t, truthy (render c s t)) (pc_no_cache pc) then (None, s)
  else
    let '(few, s) :=
      if decide (1 < pc_min_uses pc) then
        let '(n, i) := Cache.note_use (now_secs s) (zone cc) (hash cc) (idx s) in
        (bool_decide (n < pc_min_uses pc), put_disk (fs s) i s)
      else (false, s) in
    if few then (None, s)
    else
      (ttl <$> match list_find (λ v, status ∈ cv_codes v) (pc_valid pc) with
               | Some (_, v) => Some v
               | None => snd <$> list_find (λ v, cv_codes v = []) (pc_valid pc)
               end, s).

(** [cache::store] with no other writer and no error: create, write, rename. *)
Definition store (cc : CacheCtx) (entry : bytes) (s : St) : St :=
  let w0 := Cache.mkWriter pid (Cache.Create (Cache.entry_path (zone cc) (hash cc)) entry) in
  let '(w, f) := Cache.writer_step 0 w0 (fs s) in
  let '(w, f) := match entry with [] => (w, f) | _ => Cache.writer_step (length entry) w f end in
  let '(_, f) := Cache.writer_step 0 w f in
  put_disk f (Cache.store_index (walk (idx s)) (now_secs s) (zone cc) (hash cc) (Z.of_nat (length entry)) (idx s)) s.

Definition sticky_field (a : Attempt) (c : Ctx) (s : St) : list (bytes * bytes) :=
  match chosen a with
  | Some (name, g, i) =>
      match g_sticky g with
      | Some sc =>
          let id := Upstream.sticky_id (Upstream.server_at (view s name g) i) in
          if decide (request_cookie c (sc_name sc) = Some id) then [] else [(str "Set-Cookie", set_cookie sc id)]
      | None => []
      end
  | None => []
  end.

(** From the complete head to the reply. *)
Definition finish (conf : ProxyConf) (cc : option CacheCtx) (stale : option Cache.Decoded) (started : Z) (a : Attempt) (c : Ctx)
    (s : St) : result Z Reply * Ctx * St :=
  let status := if decide (a_status a = 0) then 502 else a_status a in
  let s := on_peer Upstream.record_success (chosen a) s in
  let c := put_upstream_status status c in
  match (if decide (400 ≤ status) then try_stale cc stale (Cache.SStatus status) c else None) with
  | Some (r, c) => (Ok r, c, s)
  | None =>
      let c := put_upstream_time (instant s - started) c in
      let k := a_scan a in
      let fields := kept k ++ sticky_field a c s in
      let resp := push_fields fields (with_status status new) in
      let pre := drop (head_len a) (a_buf a) in
      if decide (status = 101) then
        if decide (Request.hot_value (buf c) Request.Upgrade (req c) = None) then (Err 502, c, note_failure (chosen a) s)
        else
          let resp := match upstream_upgrade k with Some p => header (str "Upgrade") p resp | None => resp end in
          (Ok (mkReply (header (str "Connection") (str "Upgrade") resp)
                 (Upgraded pre (a_up a) (default 60000 (p_read_timeout conf)))), c, s)
      else
        let '(store_ttl, s) :=
          match cc with
          | Some cc => let '(t, s) := cacheable_ttl cc c status s in ((λ t, (cc, t)) <$> t, s)
          | None => (None, s)
          end in
        if upstream_chunked k then (Ok (mkReply (with_framing Chunked resp) (Stream pre (a_up a) None)), c, s)
        else
          match upstream_len k with
          | Some n =>
              let resp := with_framing (Length n) resp in
              if decide (n ≤ Z.of_nat (length pre)) then
                let s :=
                  if want_keepalive a && negb (said_close k)
                  then put_idle (Upstream.put_conn (instant s) (addr_str a) (a_up a) (a_keepalive a) (idle s)) s else s in
                let s :=
                  match store_ttl with
                  | Some (cc, t) =>
                      store cc (Cache.encode_entry (now_secs s) (key cc) status fields pre (t / 1000)) s
                  | None => s
                  end in
                (Ok (mkReply resp (Bytes pre)), c, s)
              else (Ok (mkReply resp (Stream pre (a_up a) (Some n))), c, s)
          | None =>
              (Ok (mkReply (with_keep_alive false (with_framing UntilClose resp)) (Stream pre (a_up a) None)), c, s)
          end
  end.

(** ** [proxy] *)

Definition idempotent (m : Request.Method) : bool :=
  match m with
  | Request.Get | Request.HeadM | Request.Put | Request.Delete | Request.Options | Request.Trace => true
  | _ => false
  end.

Definition may_retry (conf : ProxyConf) (m : Request.Method) : bool :=
  let nu := p_next_upstream conf in negb (nu_off nu) && (idempotent m || nu_non_idempotent nu).

(** Passes enough: one for every server, and the one that finds none left. *)
Definition attempts_fuel (pp : ProxyPass) : nat :=
  match target pp with
  | ToUpstream name => S (match upstreams http !! name with Some g => length (g_servers g) | None => 0 end)
  | _ => 1
  end.

Definition release (locked : bool) (cc : option CacheCtx) (s : St) : St :=
  match cc with
  | Some cc => if locked then put_fetching (Cache.unlock (lock_key cc) (fetching s)) s else s
  | None => s
  end.

(** [None] is a request to an upstream that is never taken, and nothing else:
    the loops end within their fuel ([proxy_terminates]). *)
Definition proxy (c : Ctx) (l : Loc) (pp : ProxyPass) (s : St) : option (result Z Reply * Ctx * St) :=
  let k := core (payload l) in
  let conf := Model.proxy k in
  let started := instant s in
  let cc := cache_context c k s in
  match front c cc s with
  | None => None
  | Some (Reply_ r, c, s) => Some (Ok r, c, s)
  | Some (Fetch stale locked, c, s) =>
      let deadline := if decide (p_next_upstream_timeout conf = 0) then None else Some (started + p_next_upstream_timeout conf) in
      let retry := may_retry conf (Request.method (req c)) in
      p ← attempts (matcher l) pp conf cc stale retry deadline (attempts_fuel pp) (mkTry c s [] None);
      match p with
      | Answered a c s => let '(r, c, s) := finish conf cc stale started a c s in Some (r, c, release locked cc s)
      | Early r c s => Some (r, c, release locked cc s)
      | Next t => Some (Err 502, ctx t, release locked cc (st t))
      | Unread _ _ => None
      end
  end.
End proxy.

(** ** Attempts *)

Section attempts.
  Context {Regex W : Type} (is_match : Regex → bytes → bool) (env : W → Env) (octets6 : bytes → bytes).
  Context (resparse : bytes → result unit (option (nat * RHead))) (is_reusable : Up → bool).
  Context `{!Net (W := W)} (http : Upstreams).
  Context (m : LocMatch (Regex := Regex)) (pp : ProxyPass) (conf : ProxyConf) (cc : option CacheCtx).
  Context (stale : option Cache.Decoded) (retry : bool) (deadline : option Z).
  Local Abbreviation one_pass := (one_pass is_match env octets6 resparse is_reusable http m pp conf cc stale retry deadline).
  Local Abbreviation attempts := (attempts is_match env octets6 resparse is_reusable http m pp conf cc stale retry deadline).
  Local Abbreviation Try := (Try (Regex := Regex) (W := W)).
  Implicit Type (t : Try).

(** What another attempt means. *)
Record another (ch : option Chosen) (l l' : list nat) : Prop := {
  an_retry : retry = true;
  an_peer : ∃ name g i, ch = Some (name, g, i) ∧ i ∉ l ∧ l' = l ++ [i] ∧ (length l' < length (g_servers g))%nat;
  an_tries : p_next_upstream_tries conf ≤ 0 ∨ Z.of_nat (length l') < p_next_upstream_tries conf
}.

Lemma next_peer_again l ch en fe code now l' fe' :
  next_peer l ch en retry deadline fe code (p_next_upstream_tries conf) now = (true, l', fe') → another ch l l'.
Proof.
  unfold next_peer. destruct ch as [[[name g] i]|]; [|done].
  destruct retry eqn:Er, en; try done. cbn [negb orb].
  destruct (match deadline with Some _ => _ | None => _ end); [done |].
  destruct (decide (i ∈ l)); [done |]. destruct (decide (_ ∧ _)) as [|Hn]; [done |].
  intros [= Hb <- _]. apply bool_decide_eq_true in Hb. split; [done | | lia]. by exists name, g, i.
Qed.

Lemma failed_next note en code when ch t s t' :
  failed conf cc stale retry deadline note en code when ch t s = Next t' → another ch (tried t) (tried t').
Proof.
  unfold failed. destruct (next_peer _ _ _ _ _ _ _ _ _) as [[[] l'] fe'] eqn:E.
  - intros [= <-]. by eapply next_peer_again.
  - by destruct (when ← when; _) as [[r c]|].
Qed.

Lemma exchange_next ch addr u reused t s t' :
  exchange is_match env resparse m pp conf cc stale retry deadline ch addr u reused t s = Next t' →
  another ch (tried t) (tried t').
Proof.
  unfold exchange. destruct (write_all _ _) as [w|w|w]; [|apply failed_next | done].
  destruct (write_some _ _) as [w2|w2|w2]; [|apply failed_next | done].
  destruct (read_answer _ _ _ _) as [[n h b l|b| |b] s2]; try apply failed_next.
  case_decide; [|done]. destruct (next_peer _ _ _ _ _ _ _ _ _) as [[[] l'] fe'] eqn:E; [|done].
  intros [= <-]. by eapply next_peer_again.
Qed.

Lemma one_pass_next t t' :
  one_pass t = Next t' →
  ∃ name g, target pp = ToUpstream name ∧ upstreams http !! name = Some g ∧
    ∃ i, another (Some (name, g, i)) (tried t) (tried t').
Proof.
  unfold one_pass, Proxy.one_pass. destruct (pick _ _ _ _ _ _) as [[[[addr tls] ch]|e] s] eqn:Ep; [|done].
  destruct tls; [done |]. set (t1 := mkTry _ _ _ _). set (s1 := on_peer _ _ _).
  assert (Hch : ∀ i name g, ch = Some (name, g, i) → target pp = ToUpstream name ∧ upstreams http !! name = Some g).
  { intros i name g ->. revert Ep. unfold pick. destruct (target pp) as [n | | |]; try (by destruct (fixed_target _ _ _ _ _ _) as [[]|]).
    destruct (upstreams http !! n) as [g'|] eqn:Eg; [|done].
    destruct (select_peer_excluding _ _ _ _ _ _ _) as [[j|] cur]; [|done]. by intros [= _ _ <- <- _ _]. }
  destruct (Upstream.take_conn _ _ _ _) as [[u|] pool]; [|destruct (connect _ _ _) as [[u|] s2]].
  all: match goal with |- leaving _ ?p = _ → _ => destruct p as [t2| | |] eqn:E end; try done; intros [= <-]; cbn [tried].
  1, 2: apply exchange_next in E. 3: apply failed_next in E.
  all: pose proof (an_peer _ _ _ E) as (name & g & i & Hc & _); destruct (Hch _ _ _ Hc) as [H1 H2];
    subst ch; exists name, g; split; [done |]; split; [done |]; exists i; exact E.
Qed.

(** How many attempts a request may take. *)
Definition tries_allowed : nat :=
  match target pp with
  | ToUpstream name =>
      match upstreams http !! name with
      | Some g =>
          if retry then
            let n := Nat.max 1 (length (g_servers g)) in
            if decide (0 < p_next_upstream_tries conf) then Nat.min n (Z.to_nat (p_next_upstream_tries conf)) else n
          else 1%nat
      | None => 1%nat
      end
  | _ => 1%nat
  end.

Lemma tries_allowed_pos : (0 < tries_allowed)%nat.
Proof. unfold tries_allowed. repeat case_match; lia. Qed.

Lemma attempts_within t : tried t = [] → is_Some (attempts tries_allowed t).
Proof.
  intros Ht. assert (H : ∀ fuel t, (0 < fuel)%nat → (tries_allowed ≤ length (tried t) + fuel)%nat → is_Some (attempts fuel t)).
  2: { apply H; [apply tries_allowed_pos | lia]. }
  clear t Ht. induction fuel as [|fuel IH]; intros t Hpos Hf; [lia |]. cbn [Proxy.attempts].
  destruct (one_pass t) as [t'|a c s|r c s|c s] eqn:E; try done.
  apply one_pass_next in E as (name & g & Htg & Hg & i & [Hr Hp Hn]).
  destruct Hp as (n' & g' & i' & [= <- <- <-] & _ & Hl & Hlt).
  assert (Hlen : length (tried t') = S (length (tried t))) by (rewrite Hl, length_app; cbn; lia).
  assert (Hal : (length (tried t') < tries_allowed)%nat).
  { unfold tries_allowed. rewrite Htg, Hg, Hr. case_decide; lia. }
  apply IH; lia.
Qed.

Lemma attempts_more n k t p : attempts n t = Some p → (n ≤ k)%nat → attempts k t = Some p.
Proof.
  revert k t. induction n as [|n IH]; intros k t; [done |]. destruct k as [|k]; [lia |]. cbn [Proxy.attempts].
  destruct (one_pass t); try done. intros H Hk. apply (IH k _ H). lia.
Qed.

Lemma attempts_no_next n t p t' : attempts n t = Some p → p ≠ Next t'.
Proof.
  revert t. induction n as [|n IH]; intros t; [done |]. cbn [Proxy.attempts]. destruct (one_pass t) eqn:E; eauto; by intros [= <-].
Qed.

(** C9. A request is not repeated behind the client's back: however peers fail,
    the loop of attempts ends within as many passes as the group has servers
    and [proxy_next_upstream_tries] allows, and within one - so the request
    goes to at most one upstream - when its method is not idempotent and
    [non_idempotent] is not configured, when retries are off, or when the
    target is not a group. A pass that waits at an upstream that neither takes
    the request nor leaves, [Unread], counts as an end. *)
Theorem attempts_bounded t :
  tried t = [] → retry = may_retry conf (Request.method (req (ctx t))) →
  is_Some (attempts tries_allowed t) ∧
  (idempotent (Request.method (req (ctx t))) = false → nu_non_idempotent (p_next_upstream conf) = false →
   is_Some (attempts 1 t)).
Proof.
  intros Ht Hr. split; [by apply attempts_within |]. intros Hi Hn.
  assert (tries_allowed = 1%nat) as <-; [|by apply attempts_within].
  unfold tries_allowed. rewrite Hr. unfold may_retry. rewrite Hi, Hn. cbn [orb]. rewrite andb_false_r.
  by destruct (target pp); [destruct (upstreams http !! _)| ..].
Qed.

(** *** Stale answers *)

(** An answer out of hand is an error, or the expired entry where
    [proxy_cache_use_stale] names the failure. *)
Definition stale_ok (r : result Z (Response.Reply unit Up)) : Prop :=
  match r with
  | Err _ => True
  | Ok r => ∃ k e w, cc = Some k ∧ stale = Some e ∧ Cache.stale_allowed (pc_use_stale (cconf k)) w = true ∧
      r = cached_reply e
  end.

Lemma try_stale_ok w (c : Ctx (Regex := Regex)) r c' : try_stale cc stale w c = Some (r, c') → stale_ok (Ok r).
Proof.
  unfold try_stale, stale_ok. destruct cc as [k|]; [|done]. cbn [mbind option_bind].
  destruct (Cache.stale_allowed _ _) eqn:E; [|done]. destruct stale as [e|]; [|done]. intros [= <- _].
  by exists k, e, w.
Qed.

Lemma failed_stale note en code when ch t s r c s' :
  failed conf cc stale retry deadline note en code when ch t s = Early r c s' → stale_ok r.
Proof.
  unfold failed. destruct (next_peer _ _ _ _ _ _ _ _ _) as [[[] l'] fe']; [done |].
  destruct when as [w|]; cbn [mbind option_bind]; [|by intros [= <- _ _]].
  destruct (try_stale _ _ _ _) as [[r1 c1]|] eqn:E; intros [= <- _ _]; [by eapply try_stale_ok | done].
Qed.

Lemma exchange_stale ch addr u reused t s r c s' :
  exchange is_match env resparse m pp conf cc stale retry deadline ch addr u reused t s = Early r c s' → stale_ok r.
Proof.
  unfold exchange. destruct (write_all _ _) as [w|w|w]; [|apply failed_stale | done].
  destruct (write_some _ _) as [w2|w2|w2]; [|apply failed_stale | done].
  destruct (read_answer _ _ _ _) as [[n h b l|b| |b] s2]; try apply failed_stale.
  case_decide; [|done]. by destruct (next_peer _ _ _ _ _ _ _ _ _) as [[[] l'] fe'].
Qed.

Lemma one_pass_stale t r c s : one_pass t = Early r c s → stale_ok r.
Proof.
  unfold one_pass, Proxy.one_pass. destruct (pick _ _ _ _ _ _) as [[[[addr tls] ch]|e] s0]; [|by intros [= <- _ _]].
  destruct tls; [by intros [= <- _ _] |]. set (t1 := mkTry _ _ _ _). set (s1 := on_peer _ _ _).
  destruct (Upstream.take_conn _ _ _ _) as [[u|] pool]; [|destruct (connect _ _ _) as [[u|] s2]].
  all: match goal with |- leaving _ ?p = _ → _ => destruct p as [t2| | |] eqn:E end; try done; intros [= <- _ _].
  1, 2: by apply exchange_stale in E. by apply failed_stale in E.
Qed.

Lemma attempts_stale n t r c s : attempts n t = Some (Early r c s) → stale_ok r.
Proof.
  revert t. induction n as [|n IH]; intros t; [done |]. cbn [Proxy.attempts].
  destruct (one_pass t) eqn:E; [apply IH | done | intros [= -> -> ->] | done]. by eapply one_pass_stale.
Qed.
End attempts.

(** ** Requests in flight *)

Section flight.
  Context {Regex W : Type} (is_match : Regex → bytes → bool) (env : W → Env) (octets6 : bytes → bytes).
  Context (resparse : bytes → result unit (option (nat * RHead))) (is_reusable : Up → bool).
  Context `{!Net (W := W)} (http : Upstreams).

(** What [least_conn] balances on. *)
Definition flight (s : St W) : gmap bytes (list Z) :=
  (λ l : list Upstream.PeerHealth, Upstream.in_flight <$> l) <$> peers s.

Definition counts_ok (m : gmap bytes (list Z)) : Prop := ∀ n l, m !! n = Some l → Forall (λ x, 0 ≤ x < 2 ^ 32) l.

(** The waits of this request change no other's count. *)
Class Quiet : Prop := {
  quiet_pass s : peers (pass s) = peers s;
  quiet_poll s : peers (poll s) = peers s;
  quiet_connect a t s : peers (connect a t s).2 = peers s
}.
Context `{!Quiet}.

Lemma flight_on_peer f g (ch : option Chosen) (s : St W) :
  (∀ h, Upstream.in_flight (f h) = g (Upstream.in_flight h)) →
  flight (on_peer f ch s) = match ch with Some (n, _, i) => alter (λ l, alter g i l) n (flight s) | None => flight s end.
Proof.
  intros Hf. destruct ch as [[[n ?] i]|]; [|done]. unfold flight. cbn [on_peer put_peers peers].
  apply map_eq. intros k. rewrite lookup_fmap. destruct (decide (k = n)) as [-> | Hk].
  - rewrite !lookup_alter_eq, lookup_fmap. destruct (peers s !! n) as [l|]; [|done]. cbn. f_equal.
    apply list_eq. intros j. rewrite list_lookup_fmap. destruct (decide (j = i)) as [-> | Hj].
    + rewrite !list_lookup_alter_eq, list_lookup_fmap. destruct (l !! i); [|done]. cbn. by rewrite Hf.
    + rewrite !list_lookup_alter_ne, list_lookup_fmap by done. done.
  - by rewrite !lookup_alter_ne, lookup_fmap by done.
Qed.

Lemma flight_same f (ch : option Chosen) (s : St W) :
  (∀ h, Upstream.in_flight (f h) = Upstream.in_flight h) → flight (on_peer f ch s) = flight s.
Proof.
  intros Hf. rewrite (flight_on_peer f id ch s Hf). destruct ch as [[[n ?] i]|]; [|done].
  apply map_eq. intros k. destruct (decide (k = n)) as [-> | Hk]; [|by rewrite lookup_alter_ne].
  rewrite lookup_alter_eq. destruct (flight s !! n) as [l|]; [|done]. cbn. f_equal. by apply list_alter_id.
Qed.

Lemma flight_note ch (s : St W) : flight (note_failure ch s) = flight s.
Proof.
  unfold note_failure. destruct ch as [[[n g] i]|]; [|done]. destruct (limits_of g i) as [a b].
  apply flight_same. intros h. unfold Upstream.record_failure. case_decide; [done |].
  by destruct (if _ || _ then _ else _).
Qed.

Lemma flight_leave ch (s s' : St W) :
  counts_ok (flight s) → flight s' = flight (on_peer Upstream.enter ch s) →
  flight (on_peer Upstream.leave ch s') = flight s.
Proof.
  intros Hc E. rewrite (flight_on_peer _ (λ x, wrap 32 (x - 1))), E by done.
  rewrite (flight_on_peer _ (λ x, wrap 32 (x + 1))) by done.
  destruct ch as [[[n ?] i]|]; [|done].
  apply map_eq. intros k. destruct (decide (k = n)) as [-> | Hk]; [|by rewrite !lookup_alter_ne].
  rewrite !lookup_alter_eq. destruct (flight s !! n) as [l|] eqn:El; [|done]. cbn. f_equal.
  apply Hc in El. apply list_eq. intros j. destruct (decide (j = i)) as [-> | Hj].
  - rewrite !list_lookup_alter_eq. destruct (l !! i) as [x|] eqn:Ex; [|done]. cbn. f_equal.
    rewrite Forall_lookup in El. specialize (El _ _ Ex). unfold wrap.
    rewrite Zminus_mod_idemp_l. replace (x + 1 - 1) with x by lia. by apply Z.mod_small.
  - by rewrite !list_lookup_alter_ne by done.
Qed.

Lemma read_answer_flight l : ∀ b (s : St W), flight (read_answer resparse l b s).2 = flight s.
Proof.
  assert (Hp : ∀ s : St W, flight (pass s) = flight s) by (intros s; unfold flight; by rewrite quiet_pass).
  induction l as [|e l IH]; intros b s; cbn [read_answer]; [apply Hp |].
  destruct e as [[|c d]| |]; try apply Hp.
  destruct (resparse _) as [[[n h]|]|]; try apply Hp. case_decide; [apply Hp |]. by rewrite IH.
Qed.

Definition pass_st (p : Pass (Regex := Regex) (W := W)) : St W :=
  match p with Next t => st t | Answered _ _ s | Early _ _ s | Unread _ s => s end.

(** A pass that is over: all but the write that never returns. *)
Definition returned (p : Pass (Regex := Regex) (W := W)) : Prop := match p with Unread _ _ => False | _ => True end.

Section pass.
  Context (m : LocMatch (Regex := Regex)) (pp : ProxyPass) (conf : ProxyConf) (cc : option CacheCtx).
  Context (stale : option Cache.Decoded) (retry : bool) (deadline : option Z).

Lemma failed_flight note en code when ch t s :
  flight (pass_st (failed conf cc stale retry deadline note en code when ch t s)) = flight s.
Proof.
  unfold failed. set (s1 := if note then _ else s).
  assert (Hs : flight s1 = flight s) by (unfold s1; destruct note; [apply flight_note | done]).
  destruct (next_peer _ _ _ _ _ _ _ _ _) as [[[] l'] fe']; [done |].
  by destruct (when ← when; _) as [[r c]|].
Qed.

Lemma exchange_flight ch addr u reused t s :
  flight (pass_st (exchange is_match env resparse m pp conf cc stale retry deadline ch addr u reused t s)) = flight s.
Proof.
  assert (Hp : ∀ s : St W, flight (pass s) = flight s) by (intros ?; unfold flight; by rewrite quiet_pass).
  unfold exchange. destruct (write_all _ _) as [w|w|w]; [|by rewrite failed_flight | apply Hp].
  destruct (write_some _ _) as [w2|w2|w2]; [|by rewrite failed_flight | apply Hp].
  pose proof (read_answer_flight (up_in u) [] (pass s)) as Hr. rewrite Hp in Hr.
  destruct (read_answer _ _ _ _) as [[n h b l|b| |b] s2]; cbn [snd] in Hr; rewrite ?failed_flight; try done.
  case_decide; [|done]. by destruct (next_peer _ _ _ _ _ _ _ _ _) as [[[] l'] fe']; cbn [pass_st st]; rewrite flight_note.
Qed.

Lemma one_pass_flight t :
  counts_ok (flight (st t)) →
  let p := one_pass is_match env octets6 resparse is_reusable http m pp conf cc stale retry deadline t in
  returned p → flight (pass_st p) = flight (st t).
Proof.
  intros Hc. cbv zeta. unfold one_pass. destruct (pick _ _ _ _ _ _) as [r s] eqn:Ep.
  assert (Hs : flight s = flight (st t)).
  { revert Ep. unfold pick. destruct (target pp) as [n | | |]; try (intros [= _ <-]; done).
    destruct (upstreams http !! n); [|by intros [= _ <-]].
    destruct (select_peer_excluding _ _ _ _ _ _ _) as [[j|] cur]; by intros [= _ <-]. }
  destruct r as [[[addr tls] ch]|e]; [|done]. destruct tls; [done |].
  set (s1 := on_peer _ _ _). set (t1 := mkTry _ _ _ _).
  assert (Hleave : ∀ p, flight (pass_st p) = flight s1 → returned (leaving (on_peer Upstream.leave ch) p) →
    flight (pass_st (leaving (on_peer Upstream.leave ch) p)) = flight (st t)).
  { intros p Hp Hr. rewrite <-Hs. rewrite <-Hs in Hc. assert (pass_st (leaving (on_peer Upstream.leave ch) p) = on_peer Upstream.leave ch (pass_st p)) as ->
      by by destruct p. by apply flight_leave. }
  apply Hleave. destruct (Upstream.take_conn _ _ _ _) as [[u|] pool]; [by rewrite exchange_flight |].
  pose proof (quiet_connect addr (default 60000 (p_connect_timeout conf)) (put_idle pool s1)) as Hq.
  destruct (connect _ _ _) as [[u|] s2]; cbn [snd] in Hq; rewrite ?exchange_flight, ?failed_flight; unfold flight; by rewrite Hq.
Qed.

Lemma attempts_flight n : ∀ t p,
  counts_ok (flight (st t)) →
  attempts is_match env octets6 resparse is_reusable http m pp conf cc stale retry deadline n t = Some p →
  returned p → flight (pass_st p) = flight (st t).
Proof.
  induction n as [|n IH]; intros t p Hc; [done |]. cbn [attempts]. pose proof (one_pass_flight t Hc) as Hfl. cbv zeta in Hfl.
  destruct (one_pass _ _ _ _ _ _ _ _ _ _ _ _ _ t) as [t'|a c s|r c s|c s]; cbn [pass_st returned] in Hfl.
  - rewrite <-Hfl in * by done. by apply IH.
  - intros [= <-]. by apply Hfl.
  - intros [= <-]. by apply Hfl.
  - by intros [= <-].
Qed.
End pass.

Lemma load_flight cc (s : St W) : flight (load cc s).2 = flight s.
Proof. unfold load. by destruct (Cache.load _ _ _ _ _ _) as [[[r f] i]|]. Qed.

Lemma wait_flight fuel cc d : ∀ (s : St W) r s', wait_for_fetch fuel cc d s = Some (r, s') → flight s' = flight s.
Proof.
  assert (Hp : ∀ s : St W, flight (poll s) = flight s) by (intros s; unfold flight; by rewrite quiet_poll).
  induction fuel as [|f IH]; intros s r s'; cbn [wait_for_fetch]; (case_decide; [|by intros [= _ <-]]); [done |].
  destruct (Cache.is_locked _ _); [intros Hw%IH; by rewrite Hw |].
  pose proof (load_flight cc (poll s)) as Hl. rewrite Hp in Hl.
  destruct (load cc (poll s)) as [[[e []]|] s1]; by intros [= _ <-].
Qed.

Lemma front_flight (c : Ctx (Regex := Regex)) cc (s : St W) f c' s' : front c cc s = Some (f, c', s') → flight s' = flight s.
Proof.
  unfold front. destruct cc as [cc|]; [|by intros [= _ _ <-]]. destruct (bypassed cc); [by intros [= _ _ <-] |].
  pose proof (load_flight cc s) as Hl. destruct (load cc s) as [found s1]. cbn [snd] in Hl. rewrite <-Hl. clear Hl s.
  assert (Hw : ∀ c stale, wait c cc stale s1 = Some (f, c', s') → flight s' = flight s1).
  { intros c0 stale. unfold wait. destruct (wait_for_fetch _ _ _ _) as [[[e|] s2]|] eqn:E; [..|done];
      apply wait_flight in E; by intros [= _ _ <-]. }
  assert (Hmiss : ∀ stale c,
    (if negb (pc_lock (cconf cc)) then Some (Fetch stale false, c, s1)
     else match Cache.try_lock (lock_key cc) (fetching s1) with
          | (true, f) => Some (Fetch stale true, c, put_fetching f s1)
          | (false, _) =>
              match stale with
              | Some e => if Cache.stale_allowed (pc_use_stale (cconf cc)) Cache.SUpdating
                          then let '(r, c) := hit e Cache.Stale c in Some (Reply_ r, c, s1) else wait c cc stale s1
              | None => wait c cc stale s1
              end
          end) = Some (f, c', s') → flight s' = flight s1).
  { intros stale c0. destruct (negb _); [by intros [= _ _ <-] |].
    destruct (Cache.try_lock _ _) as [[] f']; [by intros [= _ _ <-] |].
    destruct stale as [e|]; [|apply Hw]. destruct (Cache.stale_allowed _ _); [by intros [= _ _ <-] | apply Hw]. }
  destruct found as [[e []]|]; try apply Hmiss. by intros [= _ _ <-].
Qed.

Lemma finish_flight conf cc stale started a (c : Ctx (Regex := Regex)) s :
  flight (finish is_match env conf cc stale started a c s).2 = flight s.
Proof.
  unfold finish. set (s1 := on_peer Upstream.record_success (chosen a) s).
  assert (Hs : flight s1 = flight s) by by apply flight_same. rewrite <-Hs. clearbody s1. clear Hs s. cbv zeta.
  generalize (if decide (a_status a = 0) then 502 else a_status a) as code. intros code.
  destruct (if decide (400 ≤ _) then _ else _) as [[r c1]|]; [done |].
  set (c1 := put_upstream_time _ _).
  destruct (decide (code = 101)); [destruct (decide (Request.hot_value _ _ _ = None)); [apply flight_note | done] |].
  assert (Hc : ∀ k s2 t, match cc with
      | Some cc => let '(t, s) := cacheable_ttl is_match env cc c1 k s1 in ((λ t, (cc, t)) <$> t, s)
      | None => (None, s1) end = (t, s2) → flight s2 = flight s1).
  { intros k s2 t. destruct cc as [cc|]; [|by intros [= _ <-]]. unfold cacheable_ttl.
    destruct (existsb _ _); [by intros [= _ <-] |]. destruct (decide (1 < _)).
    - destruct (Cache.note_use _ _ _ _) as [uses0 i]. destruct (bool_decide _); by intros [= _ <-].
    - by intros [= _ <-]. }
  destruct (match cc with Some _ => _ | None => _ end) as [t s2] eqn:E. apply Hc in E. rewrite <-E. clear E Hc.
  destruct (upstream_chunked _); [done |]. destruct (upstream_len _) as [total|]; [|done].
  case_decide; [|done]. set (s3 := if _ && _ then _ else s2).
  assert (Hs3 : flight s3 = flight s2) by (unfold s3; by destruct (_ && _)). rewrite <-Hs3.
  destruct t as [[k t]|]; [|done]. cbn [snd]. unfold store.
  destruct (Cache.writer_step 0 _ _) as [w f]. destruct (match Cache.encode_entry _ _ _ _ _ _ with [] => _ | _ => _ end) as [w' f'].
  by destruct (Cache.writer_step 0 w' f').
Qed.

(** When no other task moves the counts meanwhile, an exchange that ends,
    however it ends, leaves the in-flight count of every peer - what
    [least_conn] balances on - where it was. *)
Theorem in_flight_released (c : Ctx (Regex := Regex)) l pp (s : St W) r c' s' :
  counts_ok (flight s) →
  proxy is_match env octets6 resparse is_reusable http c l pp s = Some (r, c', s') →
  flight s' = flight s.
Proof.
  intros Hc. unfold proxy. destruct (front _ _ _) as [[[f c1] s1]|] eqn:Ef; [|done].
  apply front_flight in Ef. rewrite <-Ef in Hc |- *. destruct f as [r0|stale locked]; [by intros [= _ _ <-] |].
  destruct (attempts _ _ _ _ _ _ _ _ _ _ _ _ _ _ _) as [p|] eqn:Ea; cbn [mbind option_bind]; [|done].
  assert (Hfl : returned p → flight (pass_st p) = flight s1) by (intros Hr; by eapply attempts_flight in Ea).
  assert (Hrel : ∀ b k s, flight (release (W := W) b k s) = flight s) by (intros b [k|] x; by destruct b).
  destruct p as [t|a c2 s2|r2 c2 s2|c2 s2]; cbn [pass_st returned] in Hfl; [| | |done]; rewrite <-(Hfl I).
  - intros [= _ _ <-]. apply Hrel.
  - match goal with |- context [finish ?a ?b ?d ?e ?f ?g ?h ?i ?j] => pose proof (finish_flight d e f g h i j) as Hfin;
      destruct (finish a b d e f g h i j) as [[r3 c3] s3] end.
    intros [= _ _ <-]. by rewrite Hrel.
  - intros [= _ _ <-]. apply Hrel.
Qed.
End flight.

(** ** Termination *)

Section whole.
  Context {Regex W : Type} (is_match : Regex → bytes → bool) (env : W → Env) (octets6 : bytes → bytes).
  Context (resparse : bytes → result unit (option (nat * RHead))) (is_reusable : Up → bool).
  Context `{!Net (W := W)} (http : Upstreams).
  Local Abbreviation proxy := (proxy is_match env octets6 resparse is_reusable http).
  Local Abbreviation finish := (finish is_match env).
  Implicit Type (c : Ctx (Regex := Regex)) (s : St W).

(** A poll takes its ten milliseconds. *)
Definition poll_takes : Prop := ∀ s, instant s + 10 ≤ instant (poll s).

(** Only a silent upstream leaves a request unread. *)
Lemma failed_read conf cc stale retry dl note en code when ch (t : Try (Regex := Regex)) s :
  returned (failed conf cc stale retry dl note en code when ch t s).
Proof.
  unfold failed. destruct (next_peer _ _ _ _ _ _ _ _ _) as [[[] l'] fe']; [done |]. by destruct (when ← when; _) as [[]|].
Qed.

Lemma exchange_read m pp conf cc stale retry dl ch addr u reused t s : silent (up_wr u) = false →
  returned (exchange is_match env resparse m pp conf cc stale retry dl ch addr u reused t s).
Proof.
  intros Hu. unfold exchange. match goal with |- context [write_all ?b ?w] => pose proof (write_all_peer b w) as [Hs Hw] end.
  destruct (write_all _ _) as [w|w|w]; cbn [peer_of] in Hs; [|apply failed_read | congruence].
  match goal with |- context [write_some ?b ?w] => pose proof (write_some_peer b w) as [Hs2 Hw2] end.
  destruct (write_some _ _) as [w2|w2|w2]; [|apply failed_read | congruence].
  destruct (read_answer _ _ _ _) as [[n h b l|b| |b] s2]; try apply failed_read.
  case_decide; [|done]. by destruct (next_peer _ _ _ _ _ _ _ _ _) as [[[] l'] fe'].
Qed.

Lemma wait_ends cc d : poll_takes → ∀ fuel s, d - instant s ≤ 10 * Z.of_nat fuel → is_Some (wait_for_fetch fuel cc d s).
Proof.
  intros Hp. induction fuel as [|fuel IH]; intros s Hd; cbn [wait_for_fetch].
  - rewrite decide_False by lia. done.
  - case_decide; [|done]. destruct (Cache.is_locked _ _).
    + apply IH. specialize (Hp s). lia.
    + by destruct (load cc (poll s)) as [[[e []]|] s1].
Qed.

Lemma cache_context_conf c k s cc : cache_context is_match env http c k s = Some cc → cconf cc = proxy_cache k.
Proof.
  unfold cache_context. destruct (pc_zone _); [|done]. cbn [mbind option_bind].
  destruct (cache_zones http !! _); [|done]. cbn [mbind option_bind]. case_decide; [|done]. by intros [= <-].
Qed.

(** A proxied request is answered or refused, when the clock advances while it
    waits for another fetch: neither that wait nor the loop of attempts
    outlasts its bound, whatever the other tasks and the cache do. The one
    exception is a last attempt whose upstream never takes the request. *)
Theorem proxy_terminates c l pp s :
  poll_takes → 0 ≤ pc_lock_timeout (proxy_cache (core (payload l))) →
  is_Some (proxy c l pp s) ∨
  proxy c l pp s = None ∧ ∃ cc stale retry dl t c' s',
    attempts is_match env octets6 resparse is_reusable http (matcher l) pp (Model.proxy (core (payload l))) cc stale retry dl
      (attempts_fuel http pp) t = Some (Unread c' s').
Proof.
  intros Hp Hl. unfold proxy, Proxy.proxy. set (k := core (payload l)) in *. set (cc := cache_context _ _ _ _ _ _).
  assert (Hfront : is_Some (front c cc s)).
  { unfold front. destruct cc as [cc'|] eqn:Ecc; [|done]. destruct (bypassed cc'); [done |].
    assert (Hw : ∀ c st s, is_Some (wait c cc' st s)).
    { intros c0 st0 s0. unfold wait.
      destruct (wait_ends cc' (instant s0 + pc_lock_timeout (cconf cc')) Hp (wait_fuel cc') s0) as [[[e|] s1] ->];
        [|by destruct (hit _ _ _) | done].
      unfold wait_fuel. rewrite (cache_context_conf c k s cc' Ecc).
      pose proof (Z.mod_pos_bound (pc_lock_timeout (proxy_cache k)) 10 ltac:(lia)).
      pose proof (Z.div_mod (pc_lock_timeout (proxy_cache k)) 10 ltac:(lia)).
      assert (0 ≤ pc_lock_timeout (proxy_cache k) / 10) by (apply Z.div_pos; lia). lia. }
    destruct (load cc' s) as [[[e st]|] s1]; [destruct st|]; try (by destruct (hit _ _ _)); cbn [fmap option_fmap option_map fst];
      (destruct (negb _); [done |]); destruct (Cache.try_lock _ _) as [[] f]; try done;
      try (destruct (Cache.stale_allowed _ _); [by destruct (hit _ _ _) |]); apply Hw. }
  destruct Hfront as [[[f c1] s1] ->]. destruct f as [r|stale locked]; [by left |].
  set (t := mkTry c1 s1 [] None). set (dl := if decide _ then _ else _).
  set (rt := may_retry _ _).
  destruct (attempts_within is_match env octets6 resparse is_reusable http (matcher l) pp (Model.proxy k) cc stale rt dl t eq_refl) as [p Hat].
  apply (attempts_more _ _ _ _ _ _ _ _ _ _ _ _ _ _ (attempts_fuel http pp)) in Hat.
  - rewrite Hat. cbn [mbind option_bind]. destruct p as [t'|a c2 s2|r c2 s2|c2 s2].
    + by left.
    + left. by destruct (finish _ _ _ _ _ _ _) as [[r c3] s3].
    + by left.
    + right. split; [done |]. by do 7 eexists.
  - unfold tries_allowed, attempts_fuel. repeat case_match; lia.
Qed.

(** ** The body *)

Lemma push_fields_ok l : ∀ r, wf r → wf (push_fields l r) ∧ fields (push_fields l r) = fields r ++ l ∧
  Response.status (push_fields l r) = Response.status r ∧ keep_alive (push_fields l r) = keep_alive r.
Proof.
  induction l as [|[n v] l IH]; intros r Hr; [by rewrite app_nil_r |]. cbn [push_fields foldl fst snd].
  destruct (IH (header n v r) (header_wf n v r Hr)) as (H1 & H2 & H3 & H4). split; [exact H1 |].
  unfold push_fields in *. rewrite H2, H3, H4, fields_header by done. by rewrite <-(assoc_L (++)).
Qed.

(** When an upstream announces a
    length and sends that many bytes, some behind its head and the rest in any
    pieces, the reply has its status, its fields without the hop-by-hop ones
    (and the sticky cookie), that length, and a body that stands for exactly
    those bytes - which is what [Conn] writes for it. *)
Theorem proxied_reply_is_the_answer conf cc started a c s p rest ds more :
  a_status a ≠ 101 → 0 < a_status a → a_status a < 400 ∨ cc = None →
  upstream_chunked (a_scan a) = false → upstream_len (a_scan a) = Some (Z.of_nat (length p)) →
  up_in (a_up a) = (Data <$> ds) ++ more → Forall (λ d, d ≠ []) ds →
  drop (head_len a) (a_buf a) ++ mjoin ds = p ++ rest → (length (drop (head_len a) (a_buf a)) ≤ length p)%nat →
  ∃ r c' s', finish conf cc None started a c s = (Ok r, c', s') ∧
    Response.status (resp r) = a_status a ∧
    (∃ cookie, fields (resp r) = kept (a_scan a) ++ cookie ∧ Forall (λ f, fst f = str "Set-Cookie") cookie) ∧
    framing (resp r) = Length (Z.of_nat (length p)) ∧
    carries (λ _ _ _, None) up_in (body r) p.
Proof.
  intros H101 Hpos H400 Hch Hlen Hio Hds Hp Hle. unfold finish, Proxy.finish.
  rewrite (decide_False (P := a_status a = 0)) by lia. cbv zeta.
  assert (Hst : ∀ c, (if decide (400 ≤ a_status a) then try_stale cc None (Cache.SStatus (a_status a)) c else None) = None).
  { intros c0. case_decide; [|done]. destruct H400 as [? | ->]; [lia | done]. }
  rewrite Hst, decide_False by done. set (s1 := on_peer _ _ _). set (c1 := put_upstream_time _ _).
  set (fs := kept (a_scan a) ++ sticky_field a c1 s1).
  destruct (push_fields_ok fs (with_status (a_status a) new)) as (_ & Hf & Hs & _); [by apply Forall_nil |].
  assert (Hcookie : Forall (λ f, fst f = str "Set-Cookie") (sticky_field a c1 s1)).
  { unfold sticky_field. destruct (chosen a) as [[[n g] i]|]; [|done]. destruct (g_sticky g) as [sc|]; [|done].
    destruct (decide (request_cookie _ _ = _)); [done |]. by apply Forall_singleton. }
  destruct (match cc with Some _ => _ | None => _ end) as [ttl s2]. rewrite Hch, Hlen.
  set (pre := drop (head_len a) (a_buf a)) in *.
  destruct (decide (Z.of_nat (length p) ≤ Z.of_nat (length pre))) as [Hfull | Hpart].
  - assert (pre = p) as Epre.
    { destruct (app_split pre (mjoin ds) p rest Hp ltac:(lia)) as (x & E & _). rewrite E in Hle |- *.
      rewrite length_app in Hle. destruct x; [apply app_nil_r | cbn in Hle; lia]. }
    eexists _, _, _. split; [done |]. cbn [resp]. split; [exact Hs |].
    split; [by exists (sticky_field a c1 s1) |]. split; [done |]. cbn [Response.body]. rewrite Epre.
    by apply carries_memory.
  - destruct (app_split p rest pre (mjoin ds)) as (x & E & _); [done | lia |].
    eexists _, _, _. split; [done |]. cbn [resp]. split; [exact Hs |].
    split; [by exists (sticky_field a c1 s1) |]. split; [done |]. cbn [Response.body].
    rewrite E at 1. rewrite E. apply (carries_stream _ _ _ _ ds more rest x); [done | done |]. by rewrite Hp, E, <-(assoc_L (++)).
Qed.

(** *** A whole exchange *)

(** The fields that describe the hop and go no further. *)
Definition hop_fields : list bytes :=
  [str "te"; str "trailer"; str "upgrade"; str "connection"; str "keep-alive"; str "transfer-encoding";
   str "proxy-authenticate"; str "proxy-authorization"].

(** What of an answer's fields is the client's. *)
Definition passed_on (hide : list bytes) (fs : list (bytes * bytes)) : list (bytes * bytes) :=
  (λ f, (fst f, from_utf8_lossy (snd f))) <$>
  filter (λ f, lowercase (fst f) ∉ hop_fields ∧ lowercase (fst f) ≠ str "content-length" ∧ lowercase (fst f) ∉ hide) fs.

Definition of_name (n : bytes) (fs : list (bytes * bytes)) : list (bytes * bytes) := filter (λ f, lowercase (fst f) = n) fs.

Lemma hop_fields_are n : n ∈ hop_fields ↔ n ∈ HOP_BY_HOP.
Proof. unfold hop_fields, HOP_BY_HOP. rewrite !elem_of_cons. tauto. Qed.

Lemma scan_snoc conf fs f : scan conf (fs ++ [f]) = scan_field conf (scan conf fs) f.
Proof. unfold scan. by rewrite foldl_app. Qed.

(** The scan of the fields: what is kept, the last length, the last coding. *)
Lemma scan_spec conf fs : let k := scan conf fs in
  kept k = passed_on (p_hide_headers conf) fs ∧
  upstream_len k = (f ← last (of_name (str "content-length") fs); parse_uint u64_max (trim (from_utf8_lossy (snd f)))) ∧
  upstream_chunked k = match last (of_name (str "transfer-encoding") fs) with
    Some f => eq_ignore_ascii_case (from_utf8_lossy (snd f)) (str "chunked") | None => false end.
Proof.
  cbv zeta. induction fs as [|[n v] fs (H1 & H2 & H3)] using rev_ind; [done |]. rewrite scan_snoc. unfold passed_on, of_name in *.
  rewrite !filter_app, fmap_app, <-H1. unfold scan_field.
  assert (Hop : ∀ m, m ∈ HOP_BY_HOP → lowercase n = m →
    filter (λ f : bytes * bytes, lowercase (fst f) ∉ hop_fields ∧ lowercase (fst f) ≠ str "content-length" ∧ lowercase (fst f) ∉ p_hide_headers conf) [(n, v)] = []).
  { intros m Hm E. rewrite filter_cons_False; [done |]. cbn [fst]. rewrite E, hop_fields_are. tauto. }
  assert (Hno : ∀ m, lowercase n ≠ m → filter (λ f : bytes * bytes, lowercase (fst f) = m) [(n, v)] = []).
  { intros m Hm. by rewrite filter_cons_False. }
  assert (Hyes : ∀ m, lowercase n = m → filter (λ f : bytes * bytes, lowercase (fst f) = m) [(n, v)] = [(n, v)]).
  { intros m Hm. by rewrite filter_cons_True. }
  destruct (decide (lowercase n = str "transfer-encoding")) as [Et|Et].
  { rewrite (Hop (str "transfer-encoding") ltac:(by apply (bool_decide_unpack _)) Et), app_nil_r. rewrite (Hyes _ Et), Hno by (rewrite Et; done).
    rewrite app_nil_r, last_snoc. done. }
  rewrite (Hno _ Et), app_nil_r. destruct (decide (lowercase n = str "content-length")) as [Ec|Ec].
  { rewrite (Hyes _ Ec), last_snoc. rewrite filter_cons_False by (cbn; tauto). rewrite app_nil_r. done. }
  rewrite (Hno _ Ec), app_nil_r.
  destruct (decide (lowercase n = str "connection")) as [E|Ecn].
  { rewrite (Hop (str "connection") ltac:(by apply (bool_decide_unpack _)) E), app_nil_r. done. }
  destruct (decide (lowercase n = str "upgrade")) as [E|Eup].
  { rewrite (Hop (str "upgrade") ltac:(by apply (bool_decide_unpack _)) E), app_nil_r. done. }
  destruct (decide (lowercase n ∈ HOP_BY_HOP)) as [E|Eh]; [by rewrite (Hop _ E eq_refl), app_nil_r |].
  destruct (decide (lowercase n ∈ p_hide_headers conf)) as [E|Ehd].
  { rewrite filter_cons_False by (cbn; tauto). by rewrite app_nil_r. }
  rewrite filter_cons_True; [done |]. cbn [fst]. by rewrite hop_fields_are.
Qed.

(** These bytes are the head of an answer, to the parser. *)
Record reads_head (h : RHead) (head : bytes) : Prop := {
  ah_whole : ∀ x, resparse (head ++ x) = Ok (Some (length head, h));
  ah_part : ∀ a b, head = a ++ b → b ≠ [] → resparse a = Ok None;
  ah_some : head ≠ [];
  ah_fits : (length head ≤ 64 * 1024)%nat
}.

Lemma read_reads_head h head : reads_head h head → ∀ ds a b p more s,
  head = a ++ b → b ≠ [] → Forall (λ d, d ≠ []) ds → mjoin ds = b ++ p →
  ∃ x ds' s', read_answer resparse ((Data <$> ds) ++ more) a s = (Got (length head) h (head ++ x) ((Data <$> ds') ++ more), s') ∧
    x ++ mjoin ds' = p ∧ Forall (λ d, d ≠ []) ds'.
Proof.
  intros [Hw Hp _ Hlen]. induction ds as [|d ds IH]; intros a b p more s E Hb Hds Ej.
  { exfalso. by destruct b. }
  apply Forall_cons in Hds as [Hd Hds]. rewrite join_cons in Ej. cbn [fmap list_fmap app read_answer]. destruct d as [|c d]; [done |].
  set (e := c :: d) in *. destruct (decide (length b ≤ length e)%nat) as [Hle|Hgt].
  - destruct (app_split e (mjoin ds) b p Ej Hle) as (x & Ex & Ep). rewrite Ex, app_assoc, <-E, Hw. by exists x, ds, (pass s).
  - destruct (app_split b p e (mjoin ds)) as (b' & Eb & Ep); [done | lia |].
    assert (b' ≠ []) as Hb' by (intros ->; rewrite app_nil_r in Eb; subst; lia).
    rewrite (Hp (a ++ e) b') by (by rewrite <-?app_assoc, ?E, ?Eb). rewrite decide_False.
    2: { rewrite E, Eb in Hlen. rewrite !length_app in *. lia. }
    apply (IH (a ++ e) b'); [by rewrite <-app_assoc, E, Eb | done..].
Qed.

(** C10. The client gets the upstream's answer. Where an exchange goes through a
    fresh connection, without cache, with an upstream that takes the request
    and answers with a head and as many bytes as its one [Content-Length]
    announces, no more, in any pieces - not 101, without transfer coding, with
    a status that [proxy_next_upstream] does not name - the reply has that
    status; the answer's fields in their order, less those of the hop, the
    length and the hidden ones, and the sticky cookie; that length, and a body
    that stands for exactly those bytes, which is what [Conn] writes for it. *)
Theorem upstream_answer_delivered c l pp s addr ch s1 u pool s2 h st head p ds more nm v :
  let conf := Model.proxy (core (payload l)) in
  let want := bool_decide (0 < match ch with Some (_, g, _) => g_keepalive g | None => 0 end)%nat && p_http_version_11 conf in
  cache_context is_match env http c (core (payload l)) s = None →
  pick is_match env octets6 http pp (mkTry c s [] None) = (Ok (addr, false, ch), s1) →
  Upstream.take_conn is_reusable (instant (on_peer Upstream.enter ch s1)) addr (idle (on_peer Upstream.enter ch s1)) = (None, pool) →
  connect addr (default 60000 (p_connect_timeout conf)) (put_idle pool (on_peer Upstream.enter ch s1)) = (Some u, s2) →
  (length (build_request_head is_match env (put_upstream_addr addr c) (world s2) (matcher l) pp conf addr want) +
   length (req_body c) ≤ credit (up_wr u))%nat →
  reads_head h head → r_code h = Some st → 0 < st → st ≠ 101 → st ∉ nu_statuses (p_next_upstream conf) →
  of_name (str "transfer-encoding") (r_fields h) = [] → of_name (str "content-length") (r_fields h) = [(nm, v)] →
  parse_uint u64_max (trim (from_utf8_lossy v)) = Some (Z.of_nat (length p)) →
  up_in u = (Data <$> ds) ++ more → Forall (λ d, d ≠ []) ds → mjoin ds = head ++ p →
  ∃ r c' s', proxy c l pp s = Some (Ok r, c', s') ∧
    Response.status (resp r) = st ∧
    (∃ cookie, fields (resp r) = passed_on (p_hide_headers conf) (r_fields h) ++ cookie ∧ Forall (λ f, fst f = str "Set-Cookie") cookie) ∧
    framing (resp r) = Length (Z.of_nat (length p)) ∧
    carries (λ _ _ _, None) up_in (body r) p.
Proof.
  intros conf want Hcc Hpick Hpool Hconn Hcr Hh Hst Hpos H101 Hnu Hte Hcl Hlen Hin Hds Hj.
  unfold proxy, Proxy.proxy. rewrite Hcc. cbn [front]. fold conf. cbv zeta.
  assert (attempts_fuel http pp = S (pred (attempts_fuel http pp))) as -> by (unfold attempts_fuel; by repeat case_match).
  cbn [attempts]. unfold one_pass. rewrite Hpick, Hpool, Hconn.
  set (t := mkTry (put_upstream_addr addr c) s1 [] None).
  destruct (read_reads_head h head Hh ds [] head p more (pass s2)) as (x & ds' & s3 & Er & Ep & Hds'); [done | by destruct Hh | done | done |].
  set (w' := took (req_body c) (took (build_request_head is_match env (put_upstream_addr addr c) (world s2) (matcher l) pp conf addr want) (up_wr u))).
  set (a := mkAttempt ch (match ch with Some (_, g, _) => g_keepalive g | None => 0%nat end) addr
    (mkUp ((Data <$> ds') ++ more) w') want (head ++ x) (length head) st (scan conf (r_fields h))).
  assert (∀ retry dl, exchange is_match env resparse (matcher l) pp conf None None retry dl ch addr u false t s2 = Answered a (ctx t) s3) as Hex.
  { intros retry dl. unfold exchange. change (ctx t) with (put_upstream_addr addr c). cbv zeta.
    match goal with |- context [write_all (build_request_head _ _ _ _ _ _ _ _ ?b) _] => change b with want end.
    rewrite write_all_fits by lia.
    change (req_body (put_upstream_addr addr c)) with (req_body c).
    rewrite write_some_fits by (cbn [took credit]; lia). rewrite Hin, Er, Hst. cbn [default]. by rewrite decide_False. }
  rewrite Hex. cbn [leaving mbind option_bind].
  destruct (scan_spec conf (r_fields h)) as (Hk & Hl & Hchk). rewrite Hte in Hchk. rewrite Hcl in Hl. cbn [last mbind option_bind snd] in Hl.
  destruct (proxied_reply_is_the_answer conf None (instant s) a (ctx t) (on_peer Upstream.leave ch s3) p [] ds' more)
    as (r & c' & s' & E & H1 & H2 & H3 & H4); cbn [a a_status a_scan a_up up_in head_len a_buf]; try done.
  - by right.
  - by rewrite Hl.
  - by rewrite drop_app_length, app_nil_r.
  - rewrite drop_app_length, <-Ep, length_app. lia.
  - rewrite E. eexists _, _, _. split; [done |]. cbn [a a_status a_scan] in H2. rewrite <-Hk. by split_and!.
Qed.

(** ** What the cache gives back *)

Lemma store_reads_back cc data s :
  Cache.fs_ok (fs s) → data ≠ [] →
  Cache.read_file (Cache.entry_path (zone cc) (hash cc)) (fs (store cc data s)) = Some data.
Proof.
  intros Hok Hd. unfold store. set (p := Cache.entry_path _ _).
  cbn [Cache.writer_step Cache.wpc Cache.pid]. set (tmp := Cache.tmp_path p pid).
  destruct (Cache.create_file tmp (fs s)) as [i f] eqn:Ec.
  assert (Hf : Cache.names f !! tmp = Some i ∧ Cache.inodes f !! i = Some []).
  { revert Ec. unfold Cache.create_file. destruct (Cache.names (fs s) !! tmp) as [j|] eqn:Ej; intros [= <- <-]; cbn [Cache.names Cache.inodes].
    - split; [done |]. apply list_lookup_insert_eq. by apply (Cache.fo_lt _ Hok _ _ Ej).
    - rewrite lookup_insert_eq. split; [done |]. rewrite lookup_app_r, Nat.sub_diag by lia. done. }
  destruct Hf as [Hn Hi]. destruct data as [|b data]; [done |].
  cbn [Cache.writer_step Cache.wpc Cache.set_wpc Cache.pid]. rewrite decide_True by (cbn; lia). rewrite drop_0, take_ge by lia.
  cbn [Cache.writer_step Cache.wpc Cache.set_wpc Cache.pid]. rewrite decide_False by lia.
  unfold Cache.rename_file, Cache.write_at. cbn [Cache.names Cache.inodes]. fold tmp. rewrite Hn. cbn [mbind option_bind fs put_disk].
  unfold Cache.read_file. cbn [Cache.names Cache.inodes]. rewrite lookup_insert_eq. cbn [mbind option_bind].
  rewrite list_lookup_alter_eq, Hi. cbn [fmap option_fmap option_map]. f_equal. cbn [length Nat.sub replicate].
  rewrite take_0, drop_nil. cbn [app]. by rewrite app_nil_r.
Qed.

(** C11. What was stored is what is served: when a complete answer has been
    stored, a later request for the same key that arrives before it expires is
    answered with its status, its fields less the framing ones and its body -
    with no peer chosen, no connection taken or opened and no time spent - in
    whatever state the worker otherwise is. *)
Theorem cached_answer c l pp cc t st hs b ttl s0 s :
  Cache.entry_ok t (key cc) st hs b ttl → Cache.fs_ok (fs s0) →
  fs s = fs (store cc (Cache.encode_entry t (key cc) st hs b ttl) s0) →
  cache_context is_match env http c (core (payload l)) s = Some cc → bypassed cc = false → now_secs s < t + ttl →
  ∃ r s', proxy c l pp s = Some (Ok r, put_cache_status (Some Cache.Hit) c, s') ∧
    Response.status (resp r) = st ∧ fields (resp r) = cached_fields hs ∧ body r = Bytes b ∧
    framing (resp r) = Length (Z.of_nat (length b)) ∧
    fs s' = fs s ∧ peers s' = peers s ∧ cursors s' = cursors s ∧ idle s' = idle s ∧ fetching s' = fetching s ∧
    world s' = world s.
Proof.
  intros Hok Hfs Hs Hcc Hby Hnow.
  assert (Hl : ∃ i, load cc s = (Some (Cache.mkDecoded st hs b (t + ttl) t, Cache.Hit), put_disk (fs s) i s)).
  { unfold load, Cache.load. rewrite Hs, store_reads_back; [|done | by intros E].
    pose proof (Cache.entry_roundtrip t (key cc) st hs b ttl Hok) as [E _]. cbn zeta in E. rewrite E.
    cbn [mbind option_bind]. rewrite decide_False by (cbn; lia). eexists. reflexivity. }
  destruct Hl as [i Hl].
  assert (Hfront : front c (Some cc) s =
    Some (Reply_ (cached_reply (Cache.mkDecoded st hs b (t + ttl) t)), put_cache_status (Some Cache.Hit) c, put_disk (fs s) i s)).
  { unfold front. by rewrite Hby, Hl. }
  unfold proxy, Proxy.proxy. rewrite Hcc, Hfront. eexists _, _. split; [done |].
  destruct (push_fields_ok (cached_fields hs) (with_status st new)) as (_ & Hf & Hst & _); [by apply Forall_nil |].
  cbn [cached_reply resp Response.body Cache.status Cache.headers Cache.body]. split_and!; done.
Qed.

(** A connection goes back to the pool only at the end of an answer: when
    [finish] changes the pool, the upstream had been asked to keep the
    connection and did not decline, its answer had a length and no chunks, and
    all of that length had arrived. *)
Theorem pooled_at_the_end conf cc stale started a c s r c' s' :
  finish conf cc stale started a c s = (r, c', s') → idle s' ≠ idle s →
  want_keepalive a = true ∧ said_close (a_scan a) = false ∧ upstream_chunked (a_scan a) = false ∧
  ∃ n, upstream_len (a_scan a) = Some n ∧ n ≤ Z.of_nat (length (drop (head_len a) (a_buf a))).
Proof.
  unfold finish, Proxy.finish. set (s1 := on_peer Upstream.record_success (chosen a) s).
  assert (Hs : idle s1 = idle s) by (unfold s1, on_peer; by destruct (chosen a) as [[[]]|]). rewrite <-Hs. clearbody s1. clear Hs s. cbv zeta.
  generalize (if decide (a_status a = 0) then 502 else a_status a) as code. intros code.
  destruct (if decide (400 ≤ _) then _ else _) as [[r1 c1]|]; [by intros [= _ _ <-] |].
  set (c1 := put_upstream_time _ _).
  destruct (decide (code = 101)).
  { destruct (decide (Request.hot_value _ _ _ = None)); intros [= _ _ <-]; [|done].
    unfold note_failure. destruct (chosen a) as [[[n g] i]|]; [|done]. by destruct (limits_of g i). }
  destruct (match cc with Some _ => _ | None => _ end) as [tt s2] eqn:E.
  assert (Hs2 : idle s2 = idle s1).
  { revert E. destruct cc as [k|]; [|by intros [= _ <-]]. unfold cacheable_ttl.
    destruct (existsb _ _); [by intros [= _ <-] |]. destruct (decide (1 < _)).
    - destruct (Cache.note_use _ _ _ _) as [uses0 i]. destruct (bool_decide _); by intros [= _ <-].
    - by intros [= _ <-]. }
  rewrite <-Hs2. destruct (upstream_chunked _); [by intros [= _ _ <-] |].
  destruct (upstream_len _) as [total|]; [|by intros [= _ _ <-]].
  destruct (decide (total ≤ _)) as [Hle|]; [|by intros [= _ _ <-]]. intros [= _ _ <-] Hidle.
  assert (Hst : ∀ k e s, idle (store (W := W) k e s) = idle s).
  { intros k e x. unfold store. destruct (Cache.writer_step 0 _ _) as [w f]. destruct (match e with [] => _ | _ => _ end) as [w' f'].
    by destruct (Cache.writer_step 0 w' f'). }
  destruct (want_keepalive a), (said_close (a_scan a)); cbn [andb negb] in Hidle; try (split_and!; by eauto);
    exfalso; apply Hidle; destruct tt as [[k t]|]; by rewrite ?Hst.
Qed.
End whole.

(** ** The proxy under the handler *)

Section compose.
  Context {Regex W : Type} (is_match : Regex → bytes → bool) (env : W → Env) (octets6 : bytes → bytes).
  Context (resparse : bytes → result unit (option (nat * RHead))) (is_reusable : Up → bool).
  Context `{!Net (W := W)} (http : Upstreams).
  Implicit Type (c : Ctx (Regex := Regex)) (s : St W).

Definition pass_ctx (p : Pass (Regex := Regex) (W := W)) : Ctx (Regex := Regex) :=
  match p with Next t => ctx t | Answered _ c _ | Early _ c _ | Unread c _ => c end.

Lemma failed_redirects conf cc stale retry dl note en code when ch (t : Try (Regex := Regex)) s :
  redirects (pass_ctx (failed conf cc stale retry dl note en code when ch t s)) = redirects (ctx t).
Proof.
  unfold failed. destruct (next_peer _ _ _ _ _ _ _ _ _) as [[[] l'] fe']; [done |].
  destruct when as [w|]; [|done]. cbn [mbind option_bind]. unfold try_stale.
  destruct cc as [k|]; [|done]. cbn [mbind option_bind]. destruct (Cache.stale_allowed _ _); [|done]. by destruct stale.
Qed.

Lemma one_pass_redirects m pp conf cc stale retry dl t :
  redirects (pass_ctx (one_pass is_match env octets6 resparse is_reusable http m pp conf cc stale retry dl t)) = redirects (ctx t).
Proof.
  unfold one_pass. destruct (pick _ _ _ _ _ _) as [[[[addr tls] ch]|e] s]; [|done]. destruct tls; [done |].
  assert (Hw : ∀ f p, redirects (pass_ctx (leaving f p)) = redirects (pass_ctx p)) by by intros f [].
  rewrite Hw. set (t1 := mkTry _ _ _ _).
  assert (He : ∀ u b s, redirects (pass_ctx (exchange is_match env resparse m pp conf cc stale retry dl ch addr u b t1 s)) = redirects (ctx t1)).
  { intros u b s1. unfold exchange. destruct (write_all _ _) as [w|w|w]; [|by rewrite failed_redirects | done].
    destruct (write_some _ _) as [w2|w2|w2]; [|by rewrite failed_redirects | done].
    destruct (read_answer _ _ _ _) as [[n h b0 l|b0| |b0] s2]; rewrite ?failed_redirects; try done.
    case_decide; [|done]. by destruct (next_peer _ _ _ _ _ _ _ _ _) as [[[] l'] fe']. }
  destruct (Upstream.take_conn _ _ _ _) as [[u|] pool]; [by rewrite He |].
  destruct (connect _ _ _) as [[u|] s2]; [by rewrite He | by rewrite failed_redirects].
Qed.

Lemma attempts_redirects m pp conf cc stale retry dl n : ∀ t p,
  attempts is_match env octets6 resparse is_reusable http m pp conf cc stale retry dl n t = Some p →
  redirects (pass_ctx p) = redirects (ctx t).
Proof.
  induction n as [|n IH]; intros t p; [done |]. cbn [attempts].
  pose proof (one_pass_redirects m pp conf cc stale retry dl t) as Hr.
  destruct (one_pass _ _ _ _ _ _ _ _ _ _ _ _ _ t) as [t'|a c s|r c s|c s]; cbn [pass_ctx] in Hr; [|by intros [= <-]..].
  intros H%IH. congruence.
Qed.

Lemma front_redirects c cc s f c' s' : front c cc s = Some (f, c', s') → redirects c' = redirects c.
Proof.
  unfold front. destruct cc as [cc|]; [|by intros [= _ <- _]]. destruct (bypassed cc); [by intros [= _ <- _] |].
  destruct (load cc s) as [found s1].
  assert (Hw : ∀ c stale, wait c cc stale s1 = Some (f, c', s') → redirects c' = redirects c).
  { intros c0 stale. unfold wait. destruct (wait_for_fetch _ _ _ _) as [[[e|] s2]|]; [..|done]; by intros [= _ <- _]. }
  destruct found as [[e []]|]; cbn [fmap option_fmap option_map fst];
    try (by intros [= _ <- _]); (destruct (negb _); [by intros [= _ <- _] |]);
    (destruct (Cache.try_lock _ _) as [[] f']; [by intros [= _ <- _] |]);
    try (destruct (Cache.stale_allowed _ _); [by intros [= _ <- _] |]); by intros ->%Hw.
Qed.

Lemma finish_redirects conf cc stale started a c s :
  redirects (finish is_match env conf cc stale started a c s).1.2 = redirects c.
Proof.
  unfold finish. cbv zeta. generalize (if decide (a_status a = 0) then 502 else a_status a) as code. intros code.
  destruct (if decide (400 ≤ _) then _ else _) as [[r1 c1]|] eqn:E.
  - revert E. destruct (decide (400 ≤ code)); [|done]. unfold try_stale. destruct cc as [k|]; [|done]. cbn [mbind option_bind].
    destruct (Cache.stale_allowed _ _); [|done]. destruct stale as [e|]; [|done]. by intros [= _ <-].
  - destruct (decide (code = 101)); [by destruct (decide (Request.hot_value _ _ _ = None)) |].
    destruct (match cc with Some _ => _ | None => _ end) as [ttl s2].
    destruct (upstream_chunked _); [done |]. destruct (upstream_len _) as [total|]; [|done]. by destruct (decide (total ≤ _)).
Qed.

Lemma proxy_redirects_kept c l pp s r c' s' :
  proxy is_match env octets6 resparse is_reusable http c l pp s = Some (r, c', s') → redirects c' = redirects c.
Proof.
  unfold proxy. destruct (front _ _ _) as [[[f c1] s1]|] eqn:Ef; [|done]. apply front_redirects in Ef.
  destruct f as [r0|stale locked]; [by intros [= _ <- _] |].
  destruct (attempts _ _ _ _ _ _ _ _ _ _ _ _ _ _ _) as [p|] eqn:Ea; cbn [mbind option_bind]; [|done].
  apply attempts_redirects in Ea. cbn [ctx] in Ea. destruct p as [t|a c2 s2|r2 c2 s2|c2 s2]; cbn [pass_ctx] in Ea; [| | |done].
  - intros [= _ <- _]. congruence.
  - match goal with |- context [finish ?a ?b ?d ?e ?f ?g ?h ?i ?j] => pose proof (finish_redirects d e f g h i j) as Hfin;
      destruct (finish a b d e f g h i j) as [[r3 c3] s3] end.
    intros [= _ <- _]. cbn in Hfin. congruence.
  - intros [= _ <- _]. congruence.
Qed.
End compose.

(** The handler's world with this proxy in it; an upstream's body is what the
    connection writes of a [Stream]. *)
Section world.
  Context {Regex W : Type} (base : Handler.World Regex unit Up (St W)) (env : W → Env) (octets6 : bytes → bytes).
  Context (resparse : bytes → result unit (option (nat * RHead))) (is_reusable : Up → bool).
  Context `{!Net (W := W)} (http : Upstreams).
  (** A [World] answers. What a run goes on with behind an exchange that never
      ends is not the program's, and nothing is supposed of it. *)
  Context (lost : Ctx (Regex := Regex) → Loc Regex → St W → result Z (Reply unit Up) * St W).

Definition with_proxy : Handler.World Regex unit Up (St W) :=
  {| Handler.groups := Handler.groups; Handler.env s := env (world s); Handler.metadata := Handler.metadata;
     Handler.conn_key := Handler.conn_key; Handler.acquire := Handler.acquire; Handler.req_key := Handler.req_key;
     Handler.check := Handler.check; Handler.sleep := Handler.sleep; Handler.serve := Handler.serve;
     Handler.proxy_pass c l pp s :=
       match proxy (@Handler.is_match _ _ _ _ base) env octets6 resparse is_reusable http c l pp s with
       | Some x => x
       | None => let '(r, s) := lost c l s in (r, c, s)
       end;
     Handler.fastcgi_pass := Handler.fastcgi_pass; Handler.stub_body := Handler.stub_body; Handler.inspect := Handler.inspect;
     Handler.read_at := Handler.read_at; Handler.gzip_encode := Handler.gzip_encode |}.

#[export] Instance proxy_laws : Handler.WorldLaws (H := base) → Handler.WorldLaws (H := with_proxy).
Proof.
  intros [Hs _ Hf]. split; cbn; [exact Hs | | exact Hf]. intros c l pp s.
  destruct (proxy _ _ _ _ _ _ _ _ _ _) as [[[r c'] s']|] eqn:E; [|by destruct (lost c l s)]. by apply proxy_redirects_kept in E.
Qed.
End world.

(** ** Samples *)

(** The clock, and what the next connections will be. *)
Definition Script : Type := Z * list (option Up).

Definition sample_env (w : Script) : Env := mkEnv [] 0 0 0 [] [] (λ _, []).

#[export] Instance sample_net : Net (W := Script) :=
  {| instant s := fst (world s);
     now_secs s := 1000;
     connect a t s :=
       match world s with
       | (n, u :: l) => (u, mkSt (peers s) (cursors s) (idle s) (fs s) (idx s) (fetching s) (n, l))
       | (n, []) => (None, s)
       end;
     pass s := s;
     poll s := mkSt (peers s) (cursors s) (idle s) (fs s) (idx s) (fetching s) (fst (world s) + 10, snd (world s));
     pid := 7;
     walk := map_to_list |}.

#[export] Instance sample_quiet : Quiet.
Proof. split; [done | done |]. by intros a t [p c i f x g [n [|u l]]]. Qed.

(** A parser of answers. *)
Definition sample_resparse (b : bytes) : result unit (option (nat * RHead)) :=
  match split_once_str CRLF b with
  | None => Ok None
  | Some (line, r) =>
      match read_code line, read_fields (length r) r with
      | Some code, Some (fs, rest) => Ok (Some ((length b - length rest)%nat, mkRHead (Some code) fs))
      | Some _, None => Ok None
      | None, _ => Err tt
      end
  end.

Definition answer_head (code len : bytes) : bytes :=
  str "HTTP/1.1 " ++ code ++ str " X" ++ CRLF ++ str "Content-Length: " ++ len ++ CRLF ++ str "Server: up" ++ CRLF ++ CRLF.

Definition answering (code len : bytes) (rest : list bytes) : Up :=
  mkUp (Data (answer_head code len) :: (Data <$> rest)) (mkWr [] 1000 false).

Definition peer (a : bytes) : Upstream.UpstreamServer := Upstream.mkServer a a 1 false false.

Definition group (l : list bytes) : Group := mkGroup (peer <$> l) ((λ _, (1, 10000)) <$> l) Upstream.RoundRobin 0 None.

Definition sample_http (l : list bytes) : Upstreams :=
  mkUpstreams {[ str "app" := group l ]} {[ str "z" := Cache.sample_zone ]}.

Definition start (l : list bytes) (conns : list (option Up)) : St Script :=
  mkSt {[ str "app" := (λ _, Upstream.healthy) <$> l ]} ∅ ∅ Cache.empty_fs ∅ ∅ (0, conns).

Definition app_pass : ProxyPass := mkProxyPass (ToUpstream (str "app")) None false.

Definition app_loc : Loc bytes := Handler.plain_loc (Prefix (str "/")) 1 default_core (Model.Proxy app_pass) None.

Definition get_ctx (method : bytes) : Ctx (Regex := bytes) :=
  let '(b, r) := Request.from_parts method (str "/a") [(str "Host", str "h")] in
  new_ctx b r [] [] (mkServerConf [] (mkSrv default_core (loc_set []) [] [] [] [] NoAction None)) (str "/a") None None
    (str "http") 1 1.

Local Abbreviation sample_proxy l method s :=
  (proxy (λ _ _, false) sample_env id sample_resparse (λ _, true) (sample_http l) (get_ctx method) app_loc app_pass s).

Definition outcome (r : option (result Z (Response.Reply unit Up) * Ctx (Regex := bytes) * St Script)) :
    option (result Z (Z * Body unit Up) * nat) :=
  match r with
  | Some (Ok r, _, s) => Some (Ok (Response.status (resp r), body r), length (snd (world s)))
  | Some (Err c, _, s) => Some (Err c, length (snd (world s)))
  | None => None
  end.

(** The first peer refuses, the second answers; a [POST] stops at the first. *)
Example second_peer_answers :
  outcome (sample_proxy [str "a"; str "b"] (str "GET") (start [str "a"; str "b"] [None; Some (answering (str "200") (str "2") [str "hi"])])) =
    Some (Ok (200, Stream [] (mkUp [Data (str "hi")] (mkWr (str "GET /a HTTP/1.0" ++ CRLF ++ str "Host: b:80" ++ CRLF ++ str "Connection: close" ++ CRLF ++ CRLF) 950 false)) (Some 2)), 0%nat) ∧
  outcome (sample_proxy [str "a"; str "b"] (str "POST") (start [str "a"; str "b"] [None; Some (answering (str "200") (str "2") [str "hi"])])) =
    Some (Err 502, 1%nat).
Proof. by vm_compute. Qed.

(** A failure that [proxy_next_upstream http_502] names is noted against the
    peer, and forgotten at once when there is no other peer: the answer counts
    as a success, so a peer that only answers 502 is never taken out. *)
Definition strict_proxy : ProxyConf :=
  mkProxyConf None None None [] [] [] true true (mkNextUpstream true true false [502] false false) 0 0 false None.

Definition pass_of (p : option (Pass (Regex := bytes) (W := Script))) : option Upstream.PeerHealth :=
  match p with
  | Some (Answered a c s) =>
      l ← peers (finish (λ _ _, false) sample_env strict_proxy None None 0 a c s).2 !! str "app"; head l
  | _ => None
  end.

Local Abbreviation sample_attempts n conf l t :=
  (attempts (λ _ _, false) sample_env id sample_resparse (λ _, true) (sample_http l) (Prefix (str "/")) app_pass conf None
     None true None n t).

Example listed_status_forgotten :
  pass_of (sample_attempts 1 strict_proxy [str "a"]
    (mkTry (get_ctx (str "GET")) (start [str "a"] [Some (answering (str "502") (str "0") [])]) [] None)) =
  Some Upstream.healthy.
Proof. by vm_compute. Qed.

(** A pooled connection that the peer has closed is not replaced by a fresh
    one: with a single peer the client gets the 502. *)
Example dead_reuse_is_502 :
  outcome (sample_proxy [str "a"] (str "GET")
    (put_idle {[ str "a:80" := [(mkUp [Data []] (mkWr [] 1000 false), 0)] ]}
       (start [str "a"] [Some (answering (str "200") (str "2") [str "hi"])]))) = Some (Err 502, 1%nat).
Proof. by vm_compute. Qed.

Definition sample_attempt (want : bool) (len : Z) (pre : bytes) (l : list Event) : Attempt :=
  mkAttempt None 4 (str "a:80") (mkUp l (mkWr [] 0 false)) want (str "HEAD" ++ pre) 4 200
    (mkScan [(str "X-A", str "b")] false (Some len) false None).

Local Abbreviation sample_finish a :=
  (finish (λ _ _, false) sample_env strict_proxy None None 0 a (get_ctx (str "GET")) (start [] [])).

(** An answer longer than it announced is sent on whole behind the announced
    length, so the client reads the rest as the next response. *)
Theorem overlong_answer_spills :
  match (sample_finish (sample_attempt false 2 (str "hiEVIL") [])).1.1 with
  | Ok r => framing (resp r) = Length 2 ∧ body r = Bytes (str "hiEVIL") ∧
      match sample_send 1 (mkReply (resp r) (Bytes (str "hiEVIL"))) with
      | Again c => (snd <$> read_response (out (c_wr c))) = Some (str "EVIL")
      | _ => False
      end
  | Err _ => False
  end.
Proof. by vm_compute. Qed.

Lemma attempts_bounded_witness :
  is_Some (attempts (λ _ _, false) sample_env id sample_resparse (λ _, true) (sample_http [str "a"; str "b"])
    (Prefix (str "/")) app_pass default_proxy None None (may_retry default_proxy Request.Get) None
    (tries_allowed (sample_http [str "a"; str "b"]) app_pass default_proxy (may_retry default_proxy Request.Get))
    (mkTry (get_ctx (str "GET")) (start [str "a"; str "b"] [None; None]) [] None)).
Proof. by apply attempts_bounded. Defined.

Definition two_tries : option (result Z (Response.Reply unit Up) * Ctx (Regex := bytes) * St Script) :=
  Eval vm_compute in sample_proxy [str "a"; str "b"] (str "GET") (start [str "a"; str "b"] [None; None]).

Lemma two_tries_end :
  sample_proxy [str "a"; str "b"] (str "GET") (start [str "a"; str "b"] [None; None]) = two_tries.
Proof. by vm_compute. Qed.

Lemma in_flight_released_witness :
  match two_tries with
  | Some (_, _, s) => flight s = {[ str "app" := [0; 0] ]}
  | None => False
  end.
Proof.
  pose proof two_tries_end as E. unfold two_tries in E |- *.
  pose proof (in_flight_released (λ _ _, false) sample_env id sample_resparse (λ _, true) (sample_http [str "a"; str "b"])
    (get_ctx (str "GET")) app_loc app_pass (start [str "a"; str "b"] [None; None])) as Hf.
  eapply Hf in E; [rewrite E; reflexivity |].
  intros n l Hl. unfold flight, start in Hl. cbn [peers] in Hl. rewrite lookup_fmap in Hl.
  destruct (decide (n = str "app")) as [-> | Hn].
  - rewrite lookup_singleton_eq in Hl. injection Hl as <-. by apply (bool_decide_unpack _).
  - by rewrite lookup_singleton_ne in Hl.
Defined.

Lemma proxy_terminates_witness :
  is_Some (sample_proxy [str "a"; str "b"] (str "GET") (start [str "a"; str "b"] [None; None])).
Proof.
  edestruct (proxy_terminates (λ _ _, false) sample_env id sample_resparse (λ _, true) (sample_http [str "a"; str "b"])
    (get_ctx (str "GET")) app_loc app_pass (start [str "a"; str "b"] [None; None])) as [H|[H _]];
    [intros s; cbn; lia | cbn; lia | exact H |]. rewrite two_tries_end in H. discriminate H.
Defined.

(** An upstream that does not read keeps the request, its place in flight and
    the lock of its cache entry for ever. *)
Example unread_request_waits :
  outcome (sample_proxy [str "a"] (str "GET") (start [str "a"] [Some (mkUp [] (mkWr [] 0 true))])) = None ∧
  outcome (sample_proxy [str "a"] (str "GET") (start [str "a"] [Some (mkUp [] (mkWr [] 0 false))])) = Some (Err 502, 0%nat).
Proof. by vm_compute. Qed.

Lemma proxied_reply_is_the_answer_witness :
  ∃ r c' s', sample_finish (sample_attempt false 5 (str "he") [Data (str "l"); Data (str "loX")]) = (Ok r, c', s') ∧
    framing (resp r) = Length 5 ∧ carries (λ _ _ _, None) up_in (body r) (str "hello").
Proof.
  destruct (proxied_reply_is_the_answer (λ _ _, false) sample_env strict_proxy None 0
    (sample_attempt false 5 (str "he") [Data (str "l"); Data (str "loX")]) (get_ctx (str "GET")) (start [] [])
    (str "hello") (str "X") [str "l"; str "loX"] []) as (r & c' & s' & E & _ & _ & Hf & Hb).
  - done.
  - done.
  - by left.
  - reflexivity.
  - reflexivity.
  - reflexivity.
  - by apply (bool_decide_unpack _).
  - reflexivity.
  - cbn. lia.
  - exists r, c', s'. split; [exact E |]. split; [exact Hf | exact Hb].
Defined.

(** A parser of one head. *)
Definition fine_head : bytes := answer_head (str "200") (str "5").
Definition fine : RHead :=
  mkRHead (Some 200) [(str "Content-Length", str "5"); (str "Server", str "up"); (str "Keep-Alive", str "9")].

Definition one_answer (b : bytes) : result unit (option (nat * RHead)) :=
  if starts_with fine_head b then Ok (Some (length fine_head, fine)) else if starts_with b fine_head then Ok None else Err tt.

Lemma one_answer_reads : reads_head one_answer fine fine_head.
Proof.
  split; [intros x|intros a b E Hb|done|replace (length fine_head) with 49%nat by (by vm_compute); lia]; unfold one_answer.
  - by replace (starts_with fine_head (fine_head ++ x)) with true by (symmetry; apply starts_with_spec; eauto).
  - destruct (starts_with fine_head a) eqn:E1.
    + exfalso. apply starts_with_spec in E1 as [x ->]. rewrite <-(assoc_L (++)) in E.
      rewrite <-(app_nil_r fine_head) in E at 1. apply app_inv_head in E. by destruct x, b.
    + by replace (starts_with a fine_head) with true by (symmetry; apply starts_with_spec; eauto).
Qed.

(** The head in two pieces, the second with some of the body. *)
Definition in_pieces : list bytes := [take 9 fine_head; drop 9 fine_head ++ str "he"; str "l"; str "lo"].

Definition fine_up : Up := mkUp (Data <$> in_pieces) (mkWr [] 1000 false).

Definition fine_start : St Script := start [str "a"] [Some fine_up].
Definition fine_peer : option Chosen := Some (str "app", group [str "a"], 0%nat).
Definition fine_picked : St Script :=
  (pick (λ _ _, false) sample_env id (sample_http [str "a"]) app_pass (mkTry (get_ctx (str "GET")) fine_start [] None)).2.
Definition fine_connected : St Script :=
  (connect (str "a:80") 60000 (put_idle ∅ (on_peer Upstream.enter fine_peer fine_picked))).2.

Lemma upstream_answer_delivered_witness :
  ∃ r c' s', proxy (λ _ _, false) sample_env id one_answer (λ _, true) (sample_http [str "a"]) (get_ctx (str "GET")) app_loc app_pass
      fine_start = Some (Ok r, c', s') ∧
    Response.status (resp r) = 200 ∧ fields (resp r) = [(str "Server", str "up")] ∧
    framing (resp r) = Length 5 ∧ carries (λ _ _ _, None) up_in (body r) (str "hello").
Proof.
  destruct (upstream_answer_delivered (λ _ _, false) sample_env id one_answer (λ _, true) (sample_http [str "a"]) (get_ctx (str "GET"))
    app_loc app_pass fine_start (str "a:80") fine_peer fine_picked fine_up ∅ fine_connected
    fine 200 fine_head (str "hello") in_pieces [] (str "Content-Length") (str "5"))
    as (r & c' & s' & E & H1 & (cookie & H2 & _) & H3 & H4).
  - reflexivity.
  - by vm_compute.
  - by vm_compute.
  - by vm_compute.
  - apply (bool_decide_unpack _). by vm_compute.
  - exact one_answer_reads.
  - reflexivity.
  - lia.
  - lia.
  - apply (bool_decide_unpack _). by vm_compute.
  - by vm_compute.
  - by vm_compute.
  - by vm_compute.
  - done.
  - apply (bool_decide_unpack _). by vm_compute.
  - by vm_compute.
  - exists r, c', s'. split; [exact E |]. split; [exact H1 |]. split; [|split; [exact H3 | exact H4]].
    assert (Hx : match proxy (λ _ _, false) sample_env id one_answer (λ _, true) (sample_http [str "a"]) (get_ctx (str "GET")) app_loc app_pass
      fine_start with Some (Ok r, _, _) => fields (resp r) | _ => [] end = [(str "Server", str "up")]) by by vm_compute.
    by rewrite E in Hx.
Defined.

Definition cache_core : CoreConf bytes :=
  let d := default_core in
  mkCoreConf (root d) (alias d) (index d) (autoindex d) (default_type d) (charset d) (sendfile
    d) (tcp_nopush d) (tcp_nodelay d) (keepalive_timeout d) (keepalive_requests d)
    (client_header_timeout d) (client_body_timeout d) (send_timeout d) (client_max_body_size
    d) (client_header_buffer_size d) (large_client_header_buffers d) (server_tokens d) (etag
    d) (msie_padding d) (gzip d) (add_headers d) (expires d) (Model.proxy d) (output_buffers d)
    (directio d) (log_not_found d) (absolute_redirect d) (port_in_redirect d)
    (server_name_in_redirect d) (if_modified_since d) (max_ranges d) (limit_rate d)
    (limit_rate_after d) (satisfy_any d) (internal d) (auth_request d) (auth_request_set
    d) (open_file_cache d) (fastcgi d)
    (mkProxyCacheConf (Some (str "z")) (compile Cache.sample_key) [] [str "GET"] 1 [] [] [] false 5000)
    (limit_reqs d) (limit_req_status d) (limit_conns d) (limit_conn_status d) (limit_conn_dry_run d).

Definition cache_loc : Loc bytes := Handler.plain_loc (Prefix (str "/")) 1 cache_core (Model.Proxy app_pass) None.

Definition sample_cc : CacheCtx :=
  mkCacheCtx Cache.sample_zone Cache.sample_key (Cache.hash_of Cache.sample_key) false (proxy_cache cache_core).

Definition stored_state : St Script :=
  store sample_cc (Cache.encode_entry 1000 Cache.sample_key 200 Cache.sample_headers (str "hello") 60) (start [] []).

Lemma cached_answer_witness :
  ∃ r s', proxy (λ _ _, false) sample_env id sample_resparse (λ _, true) (sample_http []) (get_ctx (str "GET")) cache_loc app_pass
      stored_state = Some (Ok r, put_cache_status (Some Cache.Hit) (get_ctx (str "GET")), s') ∧
    body r = Bytes (str "hello") ∧ world s' = world stored_state.
Proof.
  destruct (cached_answer (λ _ _, false) sample_env id sample_resparse (λ _, true) (sample_http []) (get_ctx (str "GET"))
    cache_loc app_pass sample_cc 1000 200 Cache.sample_headers (str "hello") 60 (start [] []) stored_state)
    as (r & s' & E & _ & _ & Hb & _ & _ & _ & _ & _ & _ & Hw).
  - exact Cache.sample_entry_ok.
  - split; [intros p q i Hp | intros p i Hp]; by destruct (lookup_empty_Some (M := gmap (list bytes)) p i Hp).
  - reflexivity.
  - by vm_compute.
  - reflexivity.
  - cbn. lia.
  - exists r, s'. split; [exact E |]. split; [exact Hb | exact Hw].
Defined.

Lemma pooled_at_the_end_witness :
  ∃ n, upstream_len (a_scan (sample_attempt true 5 (str "hello") [])) = Some n ∧
    n ≤ Z.of_nat (length (drop 4 (str "HEAD" ++ str "hello"))).
Proof.
  destruct (pooled_at_the_end (λ _ _, false) sample_env strict_proxy None None 0 (sample_attempt true 5 (str "hello") [])
    (get_ctx (str "GET")) (start [] []) _ _ _ eq_refl) as (_ & _ & _ & Hn).
  - intros E. apply (f_equal (λ m, m !! str "a:80")) in E. vm_compute in E. discriminate E.
  - exact Hn.
Defined.
