(* ===== verification/Addr.v ===== *)
(** * Addr: the parts of Rust's [std::net] the configuration reads

    Parsing of IPv4, IPv6 and socket addresses as the standard library does
    it: readers that take what they can from the front of a text, and fail
    without taking anything. *)
From S2P Require Import Prelude.
From S2P Require Import Text.

Open Scope Z_scope.

Inductive IpAddr := Ip4 (octets : list Z) | Ip6 (groups : list Z).
Record SocketAddr := mkAddr { ip : IpAddr; a_port : Z; scope_id : Z }.

#[export] Instance IpAddr_eq_dec : EqDecision IpAddr.
Proof. solve_decision. Defined.
#[export] Instance SocketAddr_eq_dec : EqDecision SocketAddr.
Proof. solve_decision. Defined.

Definition UNSPECIFIED : IpAddr := Ip4 [0; 0; 0; 0].

(** ** Readers *)

Definition Reader (A : Type) := bytes → option (A * bytes).

Definition given (c : byte) : Reader unit := λ s,
  match s with d :: s => if decide (d = c) then Some ((), s) else None | [] => None end.

Definition hex_value (c : byte) : option Z :=
  if in_range 48 57 c then Some (u8 c - 48)
  else if in_range 97 102 c then Some (u8 c - 87)
  else if in_range 65 70 c then Some (u8 c - 55)
  else None.

Definition digit_value (radix : Z) (c : byte) : option Z :=
  v ← hex_value c; if decide (v < radix) then Some v else None.

(** The digits read, their value and the rest; [None] once the value passes
    [max] or there are more than [limit] digits. *)
Fixpoint read_digits (radix max : Z) (limit : option nat) (acc : Z) (count : nat) (s : bytes) :
    option (Z * nat * bytes) :=
  match s with
  | c :: s' =>
      match digit_value radix c with
      | Some v =>
          let acc := acc * radix + v in
          if decide (max < acc) then None
          else if match limit with Some l => bool_decide (l < S count)%nat | None => false end then None
          else read_digits radix max limit acc (S count) s'
      | None => Some (acc, count, s)
      end
  | [] => Some (acc, count, s)
  end.

(** [read_number]: at least one digit, and no leading zero unless allowed. *)
Definition read_number (radix max : Z) (limit : option nat) (zero_prefix : bool) : Reader Z := λ s,
  '(v, count, rest) ← read_digits radix max limit 0 0 s;
  if decide (count = 0%nat) then None
  else if negb zero_prefix && bool_decide (head s = Some "0"%byte) && bool_decide (1 < count)%nat then None
  else Some (v, rest).

(** [read_separator]: the separator before every element but the first. *)
Definition after (sep : byte) (i : nat) {A} (r : Reader A) : Reader A := λ s,
  match i with O => r s | S _ => '(_, s) ← given sep s; r s end.

Definition read_octet (i : nat) : Reader Z := after "."%byte i (read_number 10 255 (Some 3%nat) false).

Definition read_ipv4 : Reader (list Z) := λ s,
  '(a, s) ← read_octet 0 s; '(b, s) ← read_octet 1 s; '(c, s) ← read_octet 2 s; '(d, s) ← read_octet 3 s;
  Some ([a; b; c; d], s).

(** [read_groups]: up to [limit] groups, of which an embedded IPv4 address
    makes the last two; [left] counts down. *)
Fixpoint read_groups (left i : nat) (s : bytes) : list Z * bool * bytes :=
  match left with
  | O => ([], false, s)
  | S left' =>
      match (if decide (1 < left)%nat then after ":"%byte i read_ipv4 s else None) with
      | Some (v4, s) =>
          match v4 with
          | [a; b; c; d] => ([a * 256 + b; c * 256 + d], true, s)
          | _ => ([], false, s)
          end
      | None =>
          match after ":"%byte i (read_number 16 65535 (Some 4%nat) true) s with
          | Some (g, s) => let '(gs, v4, s) := read_groups left' (S i) s in (g :: gs, v4, s)
          | None => ([], false, s)
          end
      end
  end.

Definition read_ipv6 : Reader (list Z) := λ s,
  let '(hd, v4, s) := read_groups 8 0 s in
  if decide (length hd = 8%nat) then Some (hd, s)
  else if v4 then None
  else
    '(_, s) ← given ":"%byte s; '(_, s) ← given ":"%byte s;
    let '(tl, _, s) := read_groups (8 - (length hd + 1)) 0 s in
    Some (hd ++ replicate (8 - length hd - length tl) 0 ++ tl, s).

Definition read_port : Reader Z := λ s, '(_, s) ← given ":"%byte s; read_number 10 65535 None true s.

Definition read_scope : Reader Z := λ s, '(_, s) ← given "%"%byte s; read_number 10 (2 ^ 32 - 1) None true s.

Definition read_socket_v4 : Reader SocketAddr := λ s,
  '(a, s) ← read_ipv4 s; '(p, s) ← read_port s; Some (mkAddr (Ip4 a) p 0, s).

Definition read_socket_v6 : Reader SocketAddr := λ s,
  '(_, s) ← given "["%byte s; '(a, s) ← read_ipv6 s;
  let '(scope, s) := default (0, s) (read_scope s) in
  '(_, s) ← given "]"%byte s; '(p, s) ← read_port s; Some (mkAddr (Ip6 a) p scope, s).

(** [parse_with]: the whole text. *)
Definition whole {A} (r : Reader A) (s : bytes) : option A :=
  '(a, rest) ← r s; if decide (rest = []) then Some a else None.

(** [s.parse::<Ipv6Addr>()], [s.parse::<IpAddr>()], [s.parse::<SocketAddr>()] *)
Definition parse_ipv6 (s : bytes) : option (list Z) := whole read_ipv6 s.

Definition parse_ip (s : bytes) : option IpAddr :=
  match whole read_ipv4 s with Some a => Some (Ip4 a) | None => Ip6 <$> parse_ipv6 s end.

Definition parse_socket (s : bytes) : option SocketAddr :=
  match whole read_socket_v4 s with Some a => Some a | None => whole read_socket_v6 s end.

(** ** Facts *)

Example ip_forms :
  parse_ip (str "127.0.0.1") = Some (Ip4 [127; 0; 0; 1]) ∧ parse_ip (str "01.2.3.4") = None ∧
  parse_ip (str "::1") = Some (Ip6 [0; 0; 0; 0; 0; 0; 0; 1]) ∧
  parse_ip (str "fe80::1.2.3.4") = Some (Ip6 [65152; 0; 0; 0; 0; 0; 258; 772]) ∧
  parse_socket (str "[::1%7]:8080") = Some (mkAddr (Ip6 [0; 0; 0; 0; 0; 0; 0; 1]) 8080 7).
Proof. repeat split. Qed.

Lemma read_digits_range radix max limit acc count s v n r :
  0 < radix → 0 ≤ acc ≤ max → read_digits radix max limit acc count s = Some (v, n, r) → 0 ≤ v ≤ max.
Proof.
  intros Hr. revert acc count. induction s as [|c s IH]; intros acc count Ha; cbn [read_digits]; [naive_solver |].
  destruct (digit_value radix c) as [d|] eqn:Ed; [|naive_solver].
  case_decide; [done |]. destruct (match limit with Some _ => _ | None => _ end); [done |]. apply IH.
  enough (0 ≤ d) by nia. revert Ed. unfold digit_value, hex_value.
  destruct (in_range 48 57 c) eqn:E1; [apply in_range_true in E1 | destruct (in_range 97 102 c) eqn:E2;
    [apply in_range_true in E2 | destruct (in_range 65 70 c) eqn:E3; [apply in_range_true in E3 | done]]];
    cbn; case_decide; intros [= <-]; lia.
Qed.

Lemma read_number_range radix max limit z s v r :
  0 < radix → 0 ≤ max → read_number radix max limit z s = Some (v, r) → 0 ≤ v ≤ max.
Proof.
  intros Hr Hm. unfold read_number. destruct (read_digits _ _ _ _ _ _) as [[[v' n] r']|] eqn:E; cbn; [|done].
  repeat case_match; intros; simplify_eq; by eapply read_digits_range in E; [|lia|lia].
Qed.

(** A port that is read is a port. *)
Lemma read_port_range s p r : read_port s = Some (p, r) → 0 ≤ p ≤ 65535.
Proof.
  unfold read_port. destruct (given _ s) as [[[] s']|]; cbn; [|done]. by apply read_number_range.
Qed.

Lemma read_socket_v4_port s a r : read_socket_v4 s = Some (a, r) → 0 ≤ a_port a ≤ 65535.
Proof.
  unfold read_socket_v4. destruct (read_ipv4 s) as [[v s1]|]; cbn; [|done].
  destruct (read_port s1) as [[p s2]|] eqn:Ep; cbn; [|done]. intros [= <- <-]. by eapply read_port_range.
Qed.

Lemma read_socket_v6_port s a r : read_socket_v6 s = Some (a, r) → 0 ≤ a_port a ≤ 65535.
Proof.
  unfold read_socket_v6. destruct (given "["%byte s) as [[[] s1]|]; cbn; [|done].
  destruct (read_ipv6 s1) as [[v s2]|]; cbn; [|done].
  destruct (default (0, s2) (read_scope s2)) as [sc s3].
  destruct (given "]"%byte s3) as [[[] s4]|]; cbn; [|done].
  destruct (read_port s4) as [[p s5]|] eqn:Ep; cbn; [|done]. intros [= <- <-]. by eapply read_port_range.
Qed.

Lemma whole_some {A} (r : Reader A) s a : whole r s = Some a → ∃ rest, r s = Some (a, rest).
Proof. unfold whole. destruct (r s) as [[a' rest]|]; cbn; [|done]. case_decide; [|done]. intros [= <-]. eauto. Qed.

Lemma parse_socket_port s a : parse_socket s = Some a → 0 ≤ a_port a ≤ 65535.
Proof.
  unfold parse_socket. destruct (whole read_socket_v4 s) as [a'|] eqn:E.
  - intros [= <-]. apply whole_some in E as [r E]. by eapply read_socket_v4_port.
  - intros [r H]%whole_some. by eapply read_socket_v6_port.
Qed.

(** ** [Display] of addresses *)

Definition hex_digit (z : Z) : byte := of_u8 (if decide (z < 10) then 48 + z else 87 + z).

(** [format!("{:x}", n)] of a [u16] *)
Fixpoint hex_go (fuel : nat) (n : Z) (acc : bytes) : bytes :=
  match fuel with
  | O => acc
  | S fuel => if decide (n < 16) then hex_digit n :: acc else hex_go fuel (n / 16) (hex_digit (n mod 16) :: acc)
  end.
Definition fmt_hex (n : Z) : bytes := hex_go 16 n [].

Definition join (sep : bytes) (l : list bytes) : bytes :=
  match l with [] => [] | x :: xs => x ++ concat ((λ y, sep ++ y) <$> xs) end.

Definition fmt_ipv4 (o : list Z) : bytes := join (str ".") (fmt_u64 <$> o).

(** The first of the longest runs of zero groups: where it starts, its length. *)
Fixpoint zero_run (g : list Z) (i start len : nat) (best : nat * nat) : nat * nat :=
  match g with
  | [] => best
  | x :: g =>
      if decide (x = 0) then
        let start := if decide (len = 0%nat) then i else start in
        let best := if decide (snd best < S len)%nat then (start, S len) else best in
        zero_run g (S i) start (S len) best
      else zero_run g (S i) 0 0 best
  end.

Definition fmt_ipv6 (g : list Z) : bytes :=
  match g with
  | [0; 0; 0; 0; 0; 65535; a; b] => str "::ffff:" ++ fmt_ipv4 [a / 256; a mod 256; b / 256; b mod 256]
  | _ =>
      let '(start, len) := zero_run g 0 0 0 (0, 0)%nat in
      let text l := join (str ":") (fmt_hex <$> l) in
      if decide (1 < len)%nat then text (take start g) ++ str "::" ++ text (drop (start + len) g) else text g
  end.

Definition fmt_socket (a : SocketAddr) : bytes :=
  match ip a with
  | Ip4 o => fmt_ipv4 o
  | Ip6 g => str "[" ++ fmt_ipv6 g ++ (if decide (scope_id a = 0) then [] else str "%" ++ fmt_u64 (scope_id a)) ++ str "]"
  end ++ str ":" ++ fmt_u64 (a_port a).

(** What is printed is read back, on the forms of [listen]. *)
Example printed_addresses :
  forallb (λ s, bool_decide (fmt_socket <$> parse_socket s = Some s))
    [str "0.0.0.0:80"; str "127.0.0.1:8080"; str "[::]:443"; str "[::1]:80"; str "[2001:db8::2:1]:443";
     str "[fe80::1%3]:9000"; str "[::ffff:10.0.0.1]:80"; str "[1:0:0:2::3]:1"] = true.
Proof. reflexivity. Qed.
