(* ===== verification/Args.v ===== *)
(** * [src/config/build.rs]: arguments, sizes, times and rates

    What every directive's handler is made of: the errors it reports, the
    arguments it insists on, and nginx's notations for sizes, times and rates
    on machine integers. A [Duration] is in milliseconds; the release build
    wraps a product that overflows, and adding durations panics. *)
From S2P Require Import Prelude.
From S2P Require Import Text.
From S2P Require Import Ast.
From S2P Require Import Model.
From S2P Require LimitReq.
From S2P Require Addr.

Open Scope Z_scope.

(** ** Updating a field of a record

    [r <| f := v |>] is [r] with [v] in its field [f], for a record whose
    [Eta] instance lists its fields. *)
Class Eta (R : Type) := eta : R → R.
Class Setter {R A : Type} (f : R → A) := put : A → R → R.
Arguments put {R A} f {_} _ _.

Ltac setter R A f :=
  let x := fresh "x" in let y := fresh "y" in
  exact (fun (y : A) (x : R) => ltac:(
    let i := constr:(_ : Eta R) in
    let h := match i with ?h _ _ => h | ?h _ => h | ?h => h end in
    let e := eval cbv beta delta [h] in (i x) in
    match e with context C [f x] => let t := context C [y] in exact t end)).
#[export] Hint Extern 1 (@Setter ?R ?A ?f) => setter R A f : typeclass_instances.
Notation "r <| f := v |>" := (put f v r) (at level 1, left associativity, f constr at level 8, v constr at level 99).

(** ** Results: [R<T>], or the panic of an index or an arithmetic check *)

Record BuildError := mkBuildError { e_msg : bytes; e_loc : bytes }.

Inductive outcome (A : Type) := Fine (a : A) | Bad (e : BuildError) | Panic.
Arguments Fine {A} a.
Arguments Bad {A} e.
Arguments Panic {A}.

#[export] Instance outcome_ret : MRet outcome := λ A a, Fine a.
#[export] Instance outcome_bind : MBind outcome := λ A B k r,
  match r with Fine a => k a | Bad e => Bad e | Panic => Panic end.
#[export] Instance outcome_fmap : FMap outcome := λ A B f r,
  match r with Fine a => Fine (f a) | Bad e => Bad e | Panic => Panic end.

Lemma outcome_bind_fine {A B} (k : A → outcome B) r b :
  (r ≫= k) = Fine b ↔ ∃ a, r = Fine a ∧ k a = Fine b.
Proof.
  destruct r as [a|e|]; cbn; split; [by eauto | by intros (? & [= ->] & ?) | done | by intros (? & ? & _) | done | by intros (? & ? & _)].
Qed.

(** A loop over a list that carries a value and may stop. *)
Fixpoint each {A B} (f : B → A → outcome B) (b : B) (l : list A) : outcome B :=
  match l with [] => Fine b | a :: l => f b a ≫= λ b, each f b l end.

Fixpoint collect {A B} (f : A → outcome B) (l : list A) : outcome (list B) :=
  match l with [] => Fine [] | a :: l => b ← f a; bs ← collect f l; Fine (b :: bs) end.

(** [Directive::loc] *)
Definition loc (d : Directive) : bytes := from_utf8_lossy (file_of d) ++ str ":" ++ fmt_u64 (line_of d).

(** [bail!] *)
Definition bail {A} (d : Directive) (msg : list bytes) : outcome A := Bad (mkBuildError (concat msg) (loc d)).

(** An error that only names the line *)
Definition bail_line {A} (d : Directive) (msg : list bytes) : outcome A :=
  Bad (mkBuildError (concat msg) (str "line " ++ fmt_u64 (line_of d))).

Definition or_bail {A} (d : Directive) (msg : list bytes) (o : option A) : outcome A :=
  match o with Some a => Fine a | None => bail d msg end.

(** ** Arguments *)

Definition bad_count {A} (d : Directive) : outcome A :=
  bail d [str "invalid number of arguments in "; q (name d); str " directive"].

Definition want_args (d : Directive) (n : nat) : outcome unit :=
  if decide (length (args d) = n) then Fine () else bad_count d.

Definition want_args_range (d : Directive) (lo hi : nat) : outcome unit :=
  if decide (length (args d) < lo ∨ hi < length (args d))%nat then bad_count d else Fine ().

(** [d.args[i]], which panics out of range. *)
Definition nth_arg (d : Directive) (i : nat) : outcome bytes :=
  match args d !! i with Some a => Fine a | None => Panic end.

Definition flag (d : Directive) : outcome bool :=
  want_args d 1 ;;
  a ← nth_arg d 0;
  if decide (a = str "on") then Fine true
  else if decide (a = str "off") then Fine false
  else bail d [str "invalid value "; q a; str " in "; q (name d); str " directive, it must be "; q (str "on"); str " or "; q (str "off")].

(** ** Sizes *)

Definition size_suffix (c : byte) : option Z :=
  if decide (c = "k"%byte ∨ c = "K"%byte) then Some 1024
  else if decide (c = "m"%byte ∨ c = "M"%byte) then Some (1024 * 1024)
  else if decide (c = "g"%byte ∨ c = "G"%byte) then Some (1024 * 1024 * 1024)
  else None.

(** [a.checked_mul(b)] on [u64] *)
Definition checked_mul64 (a b : Z) : option Z := if decide (a * b ≤ u64_max) then Some (a * b) else None.

Definition parse_size (s : bytes) : option Z :=
  c ← last s;
  let '(num, mult) :=
    match size_suffix c with Some m => (take (length s - 1) s, m) | None => (s, 1) end in
  n ← parse_uint u64_max num; checked_mul64 n mult.

(** ** Times *)

Definition is_ascii_alphabetic (b : byte) : bool := is_ascii_uppercase b || is_ascii_lowercase b.

(** The longest prefix of bytes in a class, and the rest. *)
Fixpoint span (p : byte → bool) (s : bytes) : bytes * bytes :=
  match s with
  | c :: s' => if p c then let '(a, b) := span p s' in (c :: a, b) else ([], s)
  | [] => ([], [])
  end.

(** The seconds in a unit; [n * 60] and the like wrap. *)
Definition unit_secs : list (bytes * Z) :=
  [(str "m", 60); (str "h", 3600); (str "d", 86400); (str "w", 604800); (str "M", 2592000); (str "y", 31536000)].

Definition in_unit (unit : bytes) (n : Z) : option Duration :=
  if decide (unit = str "ms") then Some n
  else if decide (unit = str "s" ∨ unit = []) then Some (n * 1000)
  else (λ k, wrap 64 (n * k) * 1000) <$> Vars.assoc unit unit_secs.

(** [total += d] panics when the seconds pass [u64::MAX]. *)
Definition duration_add (a b : Duration) : option Duration :=
  if decide ((a + b) / 1000 ≤ u64_max) then Some (a + b) else None.

(** The loop; the outer [None] is a panic. Each turn takes a digit, so the
    length is enough fuel. *)
Fixpoint time_loop (fuel : nat) (s : bytes) (total : Duration) : option (option Duration) :=
  match fuel, s with
  | _, [] => Some (Some total)
  | O, _ => Some None
  | S fuel, _ =>
      let '(digits, s) := span is_ascii_digit s in
      if decide (digits = []) then Some None
      else match parse_uint u64_max digits with
      | None => Some None
      | Some n =>
          let '(unit, s) := span is_ascii_alphabetic s in
          match in_unit unit n with
          | None => Some None
          | Some d => match duration_add total d with None => None | Some total => time_loop fuel s total end
          end
      end
  end.

Definition parse_time (s : bytes) : option (option Duration) :=
  if decide (s = []) then Some None else time_loop (length s) s 0.

(** A time that may be refused with a message *)
Definition time_or {A} (d : Directive) (msg : list bytes) (k : Duration → outcome A) (s : bytes) : outcome A :=
  match parse_time s with None => Panic | Some o => or_bail d msg o ≫= k end.

Definition time_arg (d : Directive) (i : nat) : outcome Duration :=
  let a := default [] (arg d i) in
  time_or d [str "invalid time value "; q a; str " in "; q (name d); str " directive"] mret a.

Definition size_arg (d : Directive) (i : nat) : outcome Z :=
  let a := default [] (arg d i) in
  or_bail d [str "invalid size value "; q a; str " in "; q (name d); str " directive"] (parse_size a).

(** ** Rates *)

(** [5r/s] or [30r/m], scaled by 1000; the product wraps. *)
Definition parse_rate (s : bytes) : option Z :=
  '(n, unit) ← split_once_str (str "r/") s;
  n ← parse_uint u64_max n;
  if decide (unit = str "s") then Some (wrap 64 (n * LimitReq.SCALE))
  else if decide (unit = str "m") then Some (wrap 64 (n * LimitReq.SCALE) / 60)
  else None.

(** ** Regular expressions *)

(** [s.replace(p, r)] *)
Definition replace (p r s : bytes) : bytes :=
  match split_str p s with [] => [] | x :: xs => x ++ concat ((λ y, r ++ y) <$> xs) end.

Definition contains (p s : bytes) : bool := bool_decide (is_Some (split_once_str p s)).

(** What the builder asks of the [regex] crate, of the resolver, and of the
    file system: making a directory, or the text of the error. *)
Class Crates (Regex : Type) := {
  regex_new : bytes → result bytes Regex;
  captures_len : Regex → Z;
  resolve : bytes → Z → option Addr.SocketAddr;
  create_dir_all : bytes → result bytes unit
}.

Definition regex_source (pat : bytes) (ci : bool) : bytes :=
  let translated := replace (str "(?P P<") (str "(?P<") (replace (str "(?<") (str "(?P<") pat) in
  if ci then str "(?i)" ++ translated else translated.

Definition regex_hint (pat : bytes) : bytes :=
  if contains (str "(?=") pat || contains (str "(?!") pat || contains (str "(?<=") pat
  then x0a :: str "  note: lookahead/lookbehind is a PCRE feature OxiServe does not support"
  else if contains [x5c] pat && existsb is_ascii_digit pat
  then x0a :: str "  note: backreferences are a PCRE feature OxiServe does not support"
  else [].

Definition compile_regex `{Crates Regex} (pat : bytes) (ci : bool) (d : Directive) : outcome Regex :=
  match regex_new (regex_source pat ci) with
  | Ok re => Fine re
  | Err e => bail d [str "invalid regular expression "; q pat; str ": "; e; regex_hint pat]
  end.

(** ** Lemmas *)

Lemma each_app {A B} (f : B → A → outcome B) b l1 l2 :
  each f b (l1 ++ l2) = each f b l1 ≫= λ b, each f b l2.
Proof.
  revert b. induction l1 as [|a l1 IH]; intros b; [done |].
  cbn [app each]. destruct (f b a) as [b'| |]; cbn; [apply IH | done | done].
Qed.

(** What each turn keeps, the whole loop keeps. *)
Lemma each_inv {A B} (P : B → Prop) (f : B → A → outcome B) b l b' :
  (∀ b a b', a ∈ l → P b → f b a = Fine b' → P b') → P b → each f b l = Fine b' → P b'.
Proof.
  revert b. induction l as [|a l IH]; intros b Hf Hb; cbn [each]; [by intros [= <-] |].
  intros (b1 & H1 & H)%outcome_bind_fine. eapply IH; [| |exact H].
  - intros b0 a0 b0' Ha. apply Hf. by apply elem_of_cons; right.
  - eapply Hf; [|exact Hb|exact H1]. by apply elem_of_cons; left.
Qed.

Lemma collect_fine {A B} (f : A → outcome B) l bs :
  collect f l = Fine bs ↔ Forall2 (λ a b, f a = Fine b) l bs.
Proof.
  revert bs. induction l as [|a l IH]; intros bs; cbn [collect].
  - split; [intros [= <-]; constructor | by intros H; inversion H].
  - split.
    + intros (b & Hb & (bs' & Hbs & [= <-])%outcome_bind_fine)%outcome_bind_fine. constructor; [done |]. by apply IH.
    + intros H. inversion H as [|? b ? bs' Hb Hbs]; subst. rewrite Hb. cbn. apply IH in Hbs. by rewrite Hbs.
Qed.

Lemma time_loop_nil f t : time_loop f [] t = Some (Some t).
Proof. by destruct f. Qed.

Lemma fine_inj {A} (a b : A) : Fine a = Fine b → a = b.
Proof. congruence. Qed.

Lemma span_run p a b :
  Forall (λ c, p c = true) a → match b with c :: _ => p c = false | [] => True end → span p (a ++ b) = (a, b).
Proof.
  intros Ha Hb. induction Ha as [|c a Hc _ IH]; cbn [app].
  - destruct b; cbn [span]; [done |]. by rewrite Hb.
  - cbn [span]. by rewrite Hc, IH.
Qed.

Lemma span_splits p s : (length (fst (span p s)) + length (snd (span p s)) = length s)%nat.
Proof.
  induction s as [|c s IH]; cbn [span]; [done |]. destruct (p c); [|done].
  destruct (span p s); cbn [fst snd length] in *. lia.
Qed.

(** ** Readers that do not panic

    A panic is an index out of range, an arithmetic check or [unreachable!].
    A directive is tame when it holds no compound time past [u64::MAX] seconds
    and no [return] without arguments. *)

Create HintDb quiet.

Definition quiet {A} (o : outcome A) : Prop := o ≠ Panic.

(** No part of the argument is a time whose sum overflows. *)
Definition calm (a : bytes) : Prop := ∀ p s, a = p ++ s → parse_time s ≠ None.

Definition tame (d : Directive) : Prop :=
  Forall calm (args d) ∧ Forall (λ c, name c = str "return" → args c ≠ []) (children d).

Lemma quiet_bind {A B} (r : outcome A) (k : A → outcome B) :
  quiet r → (∀ a, r = Fine a → quiet (k a)) → quiet (r ≫= k).
Proof. destruct r; cbn; [auto | done | done]. Qed.

Lemma quiet_fmap {A B} (f : A → B) (r : outcome A) : quiet r → quiet (f <$> r).
Proof. by destruct r. Qed.

Lemma quiet_or_bail {A} d msg (o : option A) : quiet (or_bail d msg o).
Proof. by destruct o. Qed.

Lemma quiet_want_args d n : quiet (want_args d n).
Proof. unfold want_args. by case_decide. Qed.

Lemma quiet_want_args_range d lo hi : quiet (want_args_range d lo hi).
Proof. unfold want_args_range. by case_decide. Qed.

Lemma want_args_length d n u : want_args d n = Fine u → length (args d) = n.
Proof. unfold want_args. by case_decide. Qed.

Lemma want_args_range_length d lo hi u : want_args_range d lo hi = Fine u → (lo ≤ length (args d) ≤ hi)%nat.
Proof. unfold want_args_range. case_decide; [done |]. lia. Qed.

Lemma quiet_nth_arg d i : (i < length (args d))%nat → quiet (nth_arg d i).
Proof. unfold nth_arg. intros [a ->]%lookup_lt_is_Some. done. Qed.

Lemma quiet_each {A B} (f : B → A → outcome B) b l :
  (∀ b a, a ∈ l → quiet (f b a)) → quiet (each f b l).
Proof.
  revert b. induction l as [|a l IH]; intros b Hf; cbn [each]; [done |].
  apply quiet_bind; [apply Hf; by apply elem_of_cons; left |]. intros b' _. apply IH.
  intros b0 a0 Ha. apply Hf. by apply elem_of_cons; right.
Qed.

Lemma quiet_collect {A B} (f : A → outcome B) l : (∀ a, a ∈ l → quiet (f a)) → quiet (collect f l).
Proof.
  induction l as [|a l IH]; intros Hf; cbn [collect]; [done |].
  apply quiet_bind; [apply Hf; by apply elem_of_cons; left |]. intros b _.
  apply quiet_bind; [|done]. apply IH. intros a0 Ha. apply Hf. by apply elem_of_cons; right.
Qed.

Lemma quiet_time_or {A} d msg (k : Duration → outcome A) s :
  parse_time s ≠ None → (∀ t, quiet (k t)) → quiet (time_or d msg k s).
Proof.
  intros Hs Hk. unfold time_or. destruct (parse_time s) as [[t|]|]; [by apply Hk | done | done].
Qed.

Lemma tame_suffix d a p s : tame d → a ∈ args d → a = p ++ s → parse_time s ≠ None.
Proof. intros [H _] Ha. rewrite Forall_forall in H. by apply H. Qed.

Lemma tame_strip d a p s : tame d → a ∈ args d → strip_prefix p a = Some s → parse_time s ≠ None.
Proof. intros Hd Ha H%strip_prefix_Some. by eapply tame_suffix. Qed.

Lemma tame_self d a : tame d → a ∈ args d → parse_time a ≠ None.
Proof. intros. by eapply (tame_suffix d a []). Qed.

Lemma quiet_time_arg d i : tame d → quiet (time_arg d i).
Proof.
  intros Hd. unfold time_arg. apply quiet_time_or; [|done]. unfold arg.
  destruct (args d !! i) as [a|] eqn:E; [|done]. eapply tame_self; [done |]. by eapply list_elem_of_lookup_2.
Qed.

Lemma quiet_size_arg d i : quiet (size_arg d i).
Proof. apply quiet_or_bail. Qed.

Lemma quiet_compile_regex `{Crates Regex} pat ci d : quiet (compile_regex pat ci d).
Proof. unfold compile_regex. by destruct (regex_new _). Qed.

Lemma nth_arg_elem d i a : nth_arg d i = Fine a → a ∈ args d.
Proof. unfold nth_arg. destruct (args d !! i) eqn:E; [|done]. intros [= <-]. by eapply list_elem_of_lookup_2. Qed.
#[export] Hint Resolve quiet_or_bail quiet_want_args quiet_want_args_range quiet_time_arg quiet_size_arg
  quiet_compile_regex quiet_fmap : quiet.

(** One step through a reader: its binds, its choices, its leaves. *)
Ltac quiet_step :=
  match goal with
  | |- quiet (Fine _) => discriminate
  | |- quiet (Bad _) => discriminate
  | |- quiet (bail _ _) => discriminate
  | |- quiet (bail_line _ _) => discriminate
  | |- quiet (nth_arg _ _) => apply quiet_nth_arg; lia
  | |- quiet (_ ≫= _) => apply quiet_bind; [|intros]
  | H : want_args _ _ = Fine _ |- _ => apply want_args_length in H
  | H : want_args_range _ _ _ = Fine _ |- _ => apply want_args_range_length in H
  | |- quiet (_ <$> _) => apply quiet_fmap
  | |- quiet (let '(_, _) := ?x in _) => destruct x eqn:?
  | |- quiet (match ?x with _ => _ end) => destruct x eqn:?
  | |- quiet _ => solve [eauto with quiet]
  end.
Ltac quiet := repeat quiet_step.

(** The hypothesis is decided suffix by suffix. *)
Lemma calm_check a :
  forallb (λ i, match parse_time (drop i a) with Some _ => true | None => false end) (seq 0 (S (length a))) = true → calm a.
Proof.
  rewrite forallb_forall. intros H p s ->.
  specialize (H (length p)). rewrite drop_app_length in H. intros E. rewrite E in H.
  discriminate H. apply in_seq. rewrite length_app. lia.
Qed.

(** ** Sizes and times as written *)

Lemma digit_no_suffix c : is_ascii_digit c = true → size_suffix c = None.
Proof. destruct c; by vm_compute. Qed.

Lemma size_suffix_some c m : size_suffix c = Some m → 0 < m.
Proof. unfold size_suffix. repeat case_decide; intros; simplify_eq; lia. Qed.

Lemma checked_mul64_spec a b n : checked_mul64 a b = Some n ↔ n = a * b ∧ n ≤ u64_max.
Proof. unfold checked_mul64. case_decide; split; intros; simplify_eq; naive_solver lia. Qed.

(** A number followed by one of nginx's size suffixes, or none, is read
    as the product when that fits in a [u64] and refused when it does not. *)
Theorem parse_size_exact (n : Z) (suffix : option byte) (m : Z) :
  0 ≤ n ≤ u64_max →
  match suffix with Some c => size_suffix c = Some m | None => m = 1 end →
  parse_size (fmt_u64 n ++ option_list suffix) = if decide (n * m ≤ u64_max) then Some (n * m) else None.
Proof.
  intros Hn Hm. destruct (fmt_u64_digits n) as [Hd Hne]; [lia |]. unfold parse_size.
  assert (parse_uint u64_max (fmt_u64 n) = Some n) as Hp by (apply parse_fmt_u64; unfold u64_max in *; lia).
  destruct suffix as [c|]; unfold option_list; cbn [option_rect].
  - rewrite last_snoc. cbn [mbind option_bind]. rewrite Hm, length_app, take_app_le, take_ge by (cbn; lia).
    by rewrite Hp.
  - rewrite app_nil_r. destruct (last (fmt_u64 n)) as [c|] eqn:El; [|by apply last_None in El].
    cbn [mbind option_bind]. rewrite digit_no_suffix; [by rewrite Hp, Hm |].
    apply last_Some_elem_of in El. by rewrite Forall_forall in Hd; apply Hd.
Qed.

Lemma parse_size_exact_witness : parse_size (str "10m") = Some 10485760.
Proof. apply (parse_size_exact 10 (Some "m"%byte) 1048576); [done | reflexivity]. Defined.

(** A compound time: each number with its unit. *)
Definition time_text (ts : list (Z * bytes)) : bytes := concat ((λ '(n, u), fmt_u64 n ++ u) <$> ts).

Definition time_units : list (bytes * Z) :=
  [(str "ms", 1); (str "s", 1000); (str "m", 60000); (str "h", 3600000); (str "d", 86400000);
   (str "w", 604800000); (str "M", 2592000000); (str "y", 31536000000)].

Definition time_value (ts : list (Z * bytes)) : Z :=
  foldr (λ '(n, u) t, n * default 0 (Vars.assoc u time_units) + t) 0 ts.

Definition time_wf : Z * bytes → Prop := λ '(n, u), 0 ≤ n ≤ u64_max ∧ is_Some (Vars.assoc u time_units).

Lemma time_unit_cases u : is_Some (Vars.assoc u time_units) → u ∈ fst <$> time_units.
Proof. intros [k Hk]. revert Hk. cbn [time_units Vars.assoc]. repeat case_decide; intros; subst; set_solver. Qed.

Lemma time_unit_alpha u : u ∈ fst <$> time_units → Forall (λ c, is_ascii_alphabetic c = true) u.
Proof.
  intros Hu. apply (Forall_forall (Forall (λ c, is_ascii_alphabetic c = true)) (fst <$> time_units)); [|done].
  by repeat constructor.
Qed.

(** A unit whose seconds fit stands for its number of milliseconds. *)
Lemma in_unit_exact n u k :
  0 ≤ n → Vars.assoc u time_units = Some k → n * k / 1000 ≤ u64_max → in_unit u n = Some (n * k).
Proof.
  intros Hn Hk Hle. assert (n * k < 1000 * 2 ^ 64) as Hlt.
  { unfold u64_max in Hle. pose proof (Z.div_mod (n * k) 1000). pose proof (Z.mod_pos_bound (n * k) 1000). lia. }
  pose proof (time_unit_cases u (ex_intro _ k Hk)) as Hu.
  assert (∀ j, 0 ≤ j → n * (1000 * j) < 1000 * 2 ^ 64 → wrap 64 (n * j) * 1000 = n * (1000 * j)) as Hw.
  { intros j Hj Hb. unfold wrap. rewrite Z.mod_small; nia. }
  revert Hk. unfold in_unit.
  repeat (apply elem_of_cons in Hu as [->|Hu]; [intros [= <-]; lazy -[wrap Z.mul]; f_equal; rewrite ?Hw by lia; lia |]).
  by apply not_elem_of_nil in Hu.
Qed.

Lemma time_value_pos ts : Forall time_wf ts → 0 ≤ time_value ts.
Proof.
  induction 1 as [|[n u] ts [Hn [k Hk]] _ IH]; [done |]. cbn [time_value foldr]. fold (time_value ts). rewrite Hk. cbn [default from_option id].
  assert (0 ≤ k); [|lia].
  revert Hk. cbn [time_units Vars.assoc]. repeat case_decide; intros; simplify_eq; lia.
Qed.

Lemma time_text_head ts : Forall time_wf ts → match time_text ts with c :: _ => is_ascii_digit c = true | [] => True end.
Proof.
  intros [|[n u] ts' [Hn _] _]; [done |]. cbn. destruct (fmt_u64_digits n) as [Hd Hne]; [lia |].
  destruct (fmt_u64 n) as [|c r]; [done |]. cbn. by apply Forall_cons in Hd as [? _].
Qed.

Lemma digit_not_alpha c : is_ascii_digit c = true → is_ascii_alphabetic c = false.
Proof. destruct c; by vm_compute. Qed.
Lemma alpha_not_digit c : is_ascii_alphabetic c = true → is_ascii_digit c = false.
Proof. destruct c; by vm_compute. Qed.

Lemma time_loop_sums fuel ts total :
  Forall time_wf ts → 0 ≤ total → (total + time_value ts) / 1000 ≤ u64_max → (length ts ≤ fuel)%nat →
  time_loop fuel (time_text ts) total = Some (Some (total + time_value ts)).
Proof.
  intros Hts. revert fuel total. induction Hts as [|[n u] ts Hw Hts IH]; intros fuel total Ht Hle Hf.
  - cbn. by rewrite time_loop_nil, Z.add_0_r.
  - destruct fuel as [|fuel]; [cbn in Hf; lia |]. destruct Hw as [Hn Hu]. pose proof (time_unit_cases u Hu) as Hin.
    pose proof (time_unit_alpha u Hin) as Ha. destruct Hu as [k Hk].
    destruct (fmt_u64_digits n) as [Hd Hne]; [lia |]. pose proof (time_value_pos ts Hts) as Hv.
    assert (0 < k) as Hkpos by (revert Hk; cbn [time_units Vars.assoc]; repeat case_decide; intros; simplify_eq; lia).
    cbn [time_value foldr] in Hle |- *. fold (time_value ts) in Hle |- *. rewrite Hk in Hle |- *. cbn [default from_option id] in Hle |- *.
    assert ((total + n * k) / 1000 ≤ u64_max ∧ n * k / 1000 ≤ u64_max) as [H1 H2].
    { split; (etransitivity; [|exact Hle]); apply Z.div_le_mono; nia. }
    assert (time_text ((n, u) :: ts) = fmt_u64 n ++ u ++ time_text ts) as -> by by cbn; rewrite <-app_assoc.
    assert (u ≠ []) as Hune by (intros ->; vm_compute in Hk; done).
    assert (span is_ascii_digit (fmt_u64 n ++ u ++ time_text ts) = (fmt_u64 n, u ++ time_text ts)) as Hs1.
    { apply span_run; [done |]. destruct u as [|c u]; [done |]. cbn. apply alpha_not_digit. by apply Forall_cons in Ha as [? _]. }
    assert (span is_ascii_alphabetic (u ++ time_text ts) = (u, time_text ts)) as Hs2.
    { apply span_run; [done |]. pose proof (time_text_head ts Hts). destruct (time_text ts); [done |]. by apply digit_not_alpha. }
    destruct (fmt_u64 n) as [|c r] eqn:En; [done |]. cbn [app]. cbn [time_loop]. change (c :: r ++ u ++ time_text ts) with ((c :: r) ++ u ++ time_text ts). rewrite Hs1.
    rewrite (decide_False (P := c :: r = [])) by done. rewrite <-En, parse_fmt_u64 by (unfold u64_max in *; lia). rewrite Hs2.
    rewrite (in_unit_exact n u k) by (done || lia). unfold duration_add. rewrite decide_True by done.
    rewrite IH; [do 2 f_equal; lia | nia | by rewrite <-Z.add_assoc | cbn in Hf; lia].
Qed.

Lemma time_text_length ts : Forall time_wf ts → (length ts ≤ length (time_text ts))%nat.
Proof.
  induction 1 as [|[n u] ts [Hn _] _ IH]; [done |]. destruct (fmt_u64_digits n) as [_ Hne]; [lia |].
  change (time_text ((n, u) :: ts)) with ((fmt_u64 n ++ u) ++ time_text ts). rewrite !length_app.
  destruct (fmt_u64 n); [done | cbn [length]]. lia.
Qed.

(** A time written as numbers with units, such as [1h30m], is read as
    the sum of its parts whenever its seconds fit in a [u64]. *)
Theorem parse_time_sums (ts : list (Z * bytes)) :
  ts ≠ [] → Forall time_wf ts → time_value ts / 1000 ≤ u64_max →
  parse_time (time_text ts) = Some (Some (time_value ts)).
Proof.
  intros Hne Hts Hle. unfold parse_time. pose proof (time_text_length ts Hts). destruct ts as [|t ts]; [done |].
  rewrite decide_False by (intros E; rewrite E in *; cbn in *; lia). by rewrite time_loop_sums.
Qed.

Lemma parse_time_sums_witness : parse_time (str "1h30m") = Some (Some 5400000).
Proof.
  apply (parse_time_sums [(1, str "h"); (30, str "m")]); [done | | by vm_compute].
  by repeat constructor; try eexists; vm_compute.
Defined.

(** The seconds of a unit wrap: more years than a [u64] has seconds are read
    as 338 days. *)
Example time_product_wraps : parse_time (str "584942417356y") = Some (Some 29264384000).
Proof. reflexivity. Qed.

(** Adding the parts of a compound time panics where they pass [u64::MAX] seconds. *)
Example time_sum_panics : parse_time (str "18446744073709551615s1s") = None.
Proof. reflexivity. Qed.

(** A rate wraps too: eighteen quadrillion requests a second are 384 per
    thousand seconds. *)
Example rate_wraps : parse_rate (str "18446744073709552r/s") = Some 384.
Proof. reflexivity. Qed.

(** A size that does not fit is refused. *)
Example size_overflow_refused : parse_size (str "17179869184g") = None.
Proof. reflexivity. Qed.
