(* ===== verification/Layer.v ===== *)
(** * [src/config/build.rs]: a level's directives and what it inherits

    [CoreLayer] is what one block says; [resolve] puts it over the block
    around it. The rules of the module's documentation - a scalar comes from
    the nearest block that sets it, a list is replaced whole - are
    [nearest_level_wins], over every setting. The [modsecurity] fields, of a
    feature that is off, are left out. *)
From S2P Require Import Prelude.
From S2P Require Import Text.
From S2P Require Import Vars.
From S2P Require Import Response.
From S2P Require Import Model.
From S2P Require Import Args.
From S2P Require Cache.

Open Scope Z_scope.

Section layer.
  Context {Regex : Type}.

(** ** [CoreLayer]: [None] is not set here *)

Record CoreLayer := mkCoreLayer {
  l_root : option Template;
  l_alias : option Template;
  l_index : option (list Template);
  l_autoindex : option bool;
  l_default_type : option bytes;
  l_charset : option bytes;
  l_sendfile : option bool;
  l_tcp_nopush : option bool;
  l_tcp_nodelay : option bool;
  l_keepalive_timeout : option Duration;
  l_keepalive_requests : option Z;
  l_client_header_timeout : option Duration;
  l_client_body_timeout : option Duration;
  l_send_timeout : option Duration;
  l_client_max_body_size : option Z;
  l_client_header_buffer_size : option Z;
  l_large_client_header_buffers : option (Z * Z);
  l_server_tokens : option ServerTokens;
  l_etag : option bool;
  l_gzip : option bool;
  l_gzip_level : option Z;
  l_gzip_min_length : option Z;
  l_gzip_types : option (list bytes);
  l_gzip_vary : option bool;
  l_gzip_proxied_any : option bool;
  l_add_headers : option (list AddHeader);
  l_expires : option Expires;
  l_output_buffers : option (Z * Z);
  l_log_not_found : option bool;
  l_absolute_redirect : option bool;
  l_port_in_redirect : option bool;
  l_server_name_in_redirect : option bool;
  l_if_modified_since : option IfModifiedSince;
  l_max_ranges : option Z;
  l_limit_rate : option Z;
  l_limit_rate_after : option Z;
  l_internal : option bool;
  l_ofc : option OpenFileCache;
  l_ofc_valid : option Duration;
  l_fcgi_params : option (list FastCgiParam);
  l_fcgi_index : option bytes;
  l_fcgi_split : option Regex;
  l_fcgi_connect_timeout : option Duration;
  l_fcgi_read_timeout : option Duration;
  l_fcgi_send_timeout : option Duration;
  l_fcgi_keep_conn : option bool;
  l_auth_request : option (option bytes);
  l_auth_request_set : option (list (bytes * Template));
  l_fcgi_buffering : option bool;
  l_fcgi_buffer_size : option Z;
  l_fcgi_buffers : option Z;
  l_fcgi_hide_headers : option (list bytes);
  l_cache_zone : option (option bytes);
  l_cache_key : option Template;
  l_cache_valid : option (list CacheValid);
  l_cache_methods : option (list bytes);
  l_cache_min_uses : option Z;
  l_cache_bypass : option (list Template);
  l_cache_no_cache : option (list Template);
  l_cache_use_stale : option (list Cache.StaleWhen);
  l_cache_lock : option bool;
  l_cache_lock_timeout : option Duration;
  l_limit_reqs : option (list LimitReq);
  l_limit_req_status : option Z;
  l_limit_conns : option (list LimitConn);
  l_limit_conn_status : option Z;
  l_limit_conn_dry_run : option bool;
  l_ofc_min_uses : option Z;
  l_ofc_errors : option bool;
  l_proxy_connect_timeout : option Duration;
  l_proxy_read_timeout : option Duration;
  l_proxy_send_timeout : option Duration;
  l_proxy_set_headers : option (list (bytes * Template));
  l_proxy_hide_headers : option (list bytes);
  l_proxy_buffering : option bool;
  l_proxy_http_11 : option bool;
  l_proxy_ssl_server_name : option bool;
  l_proxy_next_upstream : option NextUpstream;
  l_proxy_next_upstream_tries : option Z;
  l_proxy_next_upstream_timeout : option Duration
}.

#[export] Instance eta_layer : Eta CoreLayer := λ l,
  mkCoreLayer
    (l_root l) (l_alias l) (l_index l) (l_autoindex l) (l_default_type l) (l_charset l) (l_sendfile l)
    (l_tcp_nopush l) (l_tcp_nodelay l) (l_keepalive_timeout l) (l_keepalive_requests l)
    (l_client_header_timeout l) (l_client_body_timeout l) (l_send_timeout l) (l_client_max_body_size l)
    (l_client_header_buffer_size l) (l_large_client_header_buffers l) (l_server_tokens l) (l_etag l)
    (l_gzip l) (l_gzip_level l) (l_gzip_min_length l) (l_gzip_types l) (l_gzip_vary l)
    (l_gzip_proxied_any l) (l_add_headers l) (l_expires l) (l_output_buffers l) (l_log_not_found l)
    (l_absolute_redirect l) (l_port_in_redirect l) (l_server_name_in_redirect l) (l_if_modified_since l)
    (l_max_ranges l) (l_limit_rate l) (l_limit_rate_after l) (l_internal l) (l_ofc l) (l_ofc_valid l)
    (l_fcgi_params l) (l_fcgi_index l) (l_fcgi_split l) (l_fcgi_connect_timeout l) (l_fcgi_read_timeout l)
    (l_fcgi_send_timeout l) (l_fcgi_keep_conn l) (l_auth_request l) (l_auth_request_set l)
    (l_fcgi_buffering l) (l_fcgi_buffer_size l) (l_fcgi_buffers l) (l_fcgi_hide_headers l) (l_cache_zone l)
    (l_cache_key l) (l_cache_valid l) (l_cache_methods l) (l_cache_min_uses l) (l_cache_bypass l)
    (l_cache_no_cache l) (l_cache_use_stale l) (l_cache_lock l) (l_cache_lock_timeout l) (l_limit_reqs l)
    (l_limit_req_status l) (l_limit_conns l) (l_limit_conn_status l) (l_limit_conn_dry_run l)
    (l_ofc_min_uses l) (l_ofc_errors l) (l_proxy_connect_timeout l) (l_proxy_read_timeout l)
    (l_proxy_send_timeout l) (l_proxy_set_headers l) (l_proxy_hide_headers l) (l_proxy_buffering l)
    (l_proxy_http_11 l) (l_proxy_ssl_server_name l) (l_proxy_next_upstream l)
    (l_proxy_next_upstream_tries l) (l_proxy_next_upstream_timeout l).

(** [CoreLayer::default]: nothing set *)
Definition empty_layer : CoreLayer :=
  {|
    l_root := None; l_alias := None; l_index := None; l_autoindex := None; l_default_type := None;
    l_charset := None; l_sendfile := None; l_tcp_nopush := None; l_tcp_nodelay := None;
    l_keepalive_timeout := None; l_keepalive_requests := None; l_client_header_timeout := None;
    l_client_body_timeout := None; l_send_timeout := None; l_client_max_body_size := None;
    l_client_header_buffer_size := None; l_large_client_header_buffers := None; l_server_tokens := None;
    l_etag := None; l_gzip := None; l_gzip_level := None; l_gzip_min_length := None;
    l_gzip_types := None; l_gzip_vary := None; l_gzip_proxied_any := None; l_add_headers := None;
    l_expires := None; l_output_buffers := None; l_log_not_found := None; l_absolute_redirect := None;
    l_port_in_redirect := None; l_server_name_in_redirect := None; l_if_modified_since := None;
    l_max_ranges := None; l_limit_rate := None; l_limit_rate_after := None; l_internal := None;
    l_ofc := None; l_ofc_valid := None; l_fcgi_params := None; l_fcgi_index := None;
    l_fcgi_split := None; l_fcgi_connect_timeout := None; l_fcgi_read_timeout := None;
    l_fcgi_send_timeout := None; l_fcgi_keep_conn := None; l_auth_request := None;
    l_auth_request_set := None; l_fcgi_buffering := None; l_fcgi_buffer_size := None;
    l_fcgi_buffers := None; l_fcgi_hide_headers := None; l_cache_zone := None; l_cache_key := None;
    l_cache_valid := None; l_cache_methods := None; l_cache_min_uses := None; l_cache_bypass := None;
    l_cache_no_cache := None; l_cache_use_stale := None; l_cache_lock := None;
    l_cache_lock_timeout := None; l_limit_reqs := None; l_limit_req_status := None;
    l_limit_conns := None; l_limit_conn_status := None; l_limit_conn_dry_run := None;
    l_ofc_min_uses := None; l_ofc_errors := None; l_proxy_connect_timeout := None;
    l_proxy_read_timeout := None; l_proxy_send_timeout := None; l_proxy_set_headers := None;
    l_proxy_hide_headers := None; l_proxy_buffering := None; l_proxy_http_11 := None;
    l_proxy_ssl_server_name := None; l_proxy_next_upstream := None; l_proxy_next_upstream_tries := None;
    l_proxy_next_upstream_timeout := None
  |}.

(** ** [CoreLayer::resolve] *)

(** [a.or(b)] *)
Definition or_else {A} (a b : option A) : option A := match a with Some _ => a | None => b end.

Definition resolve_open_file_cache (l : CoreLayer) (o : OpenFileCache) : OpenFileCache :=
  {|
    ofc_enabled := default (ofc_enabled o) (ofc_enabled <$> l_ofc l);
    ofc_max := default (ofc_max o) (ofc_max <$> l_ofc l);
    ofc_inactive := default (ofc_inactive o) (ofc_inactive <$> l_ofc l);
    ofc_valid := default (ofc_valid o) (l_ofc_valid l);
    ofc_min_uses := default (ofc_min_uses o) (l_ofc_min_uses l);
    ofc_errors := default (ofc_errors o) (l_ofc_errors l)
  |}.

Definition resolve_proxy_cache (l : CoreLayer) (c : ProxyCacheConf) : ProxyCacheConf :=
  {|
    pc_zone := default (pc_zone c) (l_cache_zone l);
    pc_key := default (pc_key c) (l_cache_key l);
    pc_valid := default (pc_valid c) (l_cache_valid l);
    pc_methods := default (pc_methods c) (l_cache_methods l);
    pc_min_uses := default (pc_min_uses c) (l_cache_min_uses l);
    pc_bypass := default (pc_bypass c) (l_cache_bypass l);
    pc_no_cache := default (pc_no_cache c) (l_cache_no_cache l);
    pc_use_stale := default (pc_use_stale c) (l_cache_use_stale l);
    pc_lock := default (pc_lock c) (l_cache_lock l);
    pc_lock_timeout := default (pc_lock_timeout c) (l_cache_lock_timeout l)
  |}.

Definition usize_max : Z := 2 ^ 64 - 1.

(** The memory for a FastCGI answer: a count times a size, saturating. A
    factor this level does not set is the default, not the parent's. *)
Definition buffer_budget (l : CoreLayer) : option Z :=
  match l_fcgi_buffer_size l, l_fcgi_buffers l with
  | None, None => None
  | size, count => Some (Z.max (Z.min usize_max (default (8 * 1024) size * default 8 count)) (4 * 1024))
  end.

Definition resolve_fastcgi (l : CoreLayer) (f : FastCgiConf Regex) : FastCgiConf Regex :=
  {|
    f_params := default (f_params f) (l_fcgi_params l);
    f_index := or_else (l_fcgi_index l) (f_index f);
    f_split_path_info := or_else (l_fcgi_split l) (f_split_path_info f);
    f_connect_timeout := or_else (l_fcgi_connect_timeout l) (f_connect_timeout f);
    f_read_timeout := or_else (l_fcgi_read_timeout l) (f_read_timeout f);
    f_send_timeout := or_else (l_fcgi_send_timeout l) (f_send_timeout f);
    f_keep_conn := default (f_keep_conn f) (l_fcgi_keep_conn l);
    f_hide_headers := default (f_hide_headers f) (l_fcgi_hide_headers l);
    f_buffering := default (f_buffering f) (l_fcgi_buffering l);
    f_buffer_budget := default (f_buffer_budget f) (buffer_budget l)
  |}.

Definition resolve_gzip (l : CoreLayer) (g : GzipConf) : GzipConf :=
  {|
    gz_enabled := default (gz_enabled g) (l_gzip l);
    gz_level := default (gz_level g) (l_gzip_level l);
    gz_min_length := default (gz_min_length g) (l_gzip_min_length l);
    gz_types := default (gz_types g) (l_gzip_types l);
    gz_vary := default (gz_vary g) (l_gzip_vary l);
    gz_proxied_any := default (gz_proxied_any g) (l_gzip_proxied_any l);
    gz_http_version_1_0 := gz_http_version_1_0 g;
    gz_disable_msie6 := gz_disable_msie6 g
  |}.

Definition resolve_proxy (l : CoreLayer) (p : ProxyConf) : ProxyConf :=
  {|
    p_connect_timeout := or_else (l_proxy_connect_timeout l) (p_connect_timeout p);
    p_read_timeout := or_else (l_proxy_read_timeout l) (p_read_timeout p);
    p_send_timeout := or_else (l_proxy_send_timeout l) (p_send_timeout p);
    p_set_headers := default (p_set_headers p) (l_proxy_set_headers l);
    p_hide_headers := default (p_hide_headers p) (l_proxy_hide_headers l);
    p_pass_headers := p_pass_headers p;
    p_buffering := default (p_buffering p) (l_proxy_buffering l);
    p_http_version_11 := default (p_http_version_11 p) (l_proxy_http_11 l);
    p_next_upstream := default (p_next_upstream p) (l_proxy_next_upstream l);
    p_next_upstream_tries := default (p_next_upstream_tries p) (l_proxy_next_upstream_tries l);
    p_next_upstream_timeout := default (p_next_upstream_timeout p) (l_proxy_next_upstream_timeout l);
    p_ssl_server_name := default (p_ssl_server_name p) (l_proxy_ssl_server_name l);
    p_set_body := p_set_body p
  |}.

(** A [root] here clears an [alias] from above, and an [alias] is its own. *)
Definition resolve (l : CoreLayer) (p : CoreConf Regex) : CoreConf Regex :=
  {|
    root := default (root p) (l_root l);
    alias := or_else (l_alias l) (match l_root l with Some _ => None | None => alias p end);
    index := default (index p) (l_index l);
    autoindex := default (autoindex p) (l_autoindex l);
    default_type := default (default_type p) (l_default_type l);
    charset := or_else (l_charset l) (charset p);
    sendfile := default (sendfile p) (l_sendfile l);
    tcp_nopush := default (tcp_nopush p) (l_tcp_nopush l);
    tcp_nodelay := default (tcp_nodelay p) (l_tcp_nodelay l);
    keepalive_timeout := default (keepalive_timeout p) (l_keepalive_timeout l);
    keepalive_requests := default (keepalive_requests p) (l_keepalive_requests l);
    client_header_timeout := default (client_header_timeout p) (l_client_header_timeout l);
    client_body_timeout := default (client_body_timeout p) (l_client_body_timeout l);
    send_timeout := default (send_timeout p) (l_send_timeout l);
    client_max_body_size := default (client_max_body_size p) (l_client_max_body_size l);
    client_header_buffer_size := default (client_header_buffer_size p) (l_client_header_buffer_size l);
    large_client_header_buffers := default (large_client_header_buffers p) (l_large_client_header_buffers l);
    server_tokens := default (server_tokens p) (l_server_tokens l);
    etag := default (etag p) (l_etag l);
    msie_padding := msie_padding p;
    gzip := resolve_gzip l (gzip p);
    add_headers := default (add_headers p) (l_add_headers l);
    expires := or_else (l_expires l) (expires p);
    proxy := resolve_proxy l (proxy p);
    output_buffers := default (output_buffers p) (l_output_buffers l);
    directio := directio p;
    log_not_found := default (log_not_found p) (l_log_not_found l);
    absolute_redirect := default (absolute_redirect p) (l_absolute_redirect l);
    port_in_redirect := default (port_in_redirect p) (l_port_in_redirect l);
    server_name_in_redirect := default (server_name_in_redirect p) (l_server_name_in_redirect l);
    if_modified_since := default (if_modified_since p) (l_if_modified_since l);
    max_ranges := or_else (l_max_ranges l) (max_ranges p);
    limit_rate := default (limit_rate p) (l_limit_rate l);
    limit_rate_after := default (limit_rate_after p) (l_limit_rate_after l);
    satisfy_any := satisfy_any p;
    internal := default (internal p) (l_internal l);
    auth_request := default (auth_request p) (l_auth_request l);
    auth_request_set := default (auth_request_set p) (l_auth_request_set l);
    open_file_cache := resolve_open_file_cache l (open_file_cache p);
    fastcgi := resolve_fastcgi l (fastcgi p);
    proxy_cache := resolve_proxy_cache l (proxy_cache p);
    limit_reqs := default (limit_reqs p) (l_limit_reqs l);
    limit_req_status := default (limit_req_status p) (l_limit_req_status l);
    limit_conns := default (limit_conns p) (l_limit_conns l);
    limit_conn_status := default (limit_conn_status p) (l_limit_conn_status l);
    limit_conn_dry_run := default (limit_conn_dry_run p) (l_limit_conn_dry_run l)
  |}.

(** ** Inheritance

    A setting is where a level says it, if it does, and where the resolved
    configuration has it. *)
Record Setting := mkSetting {
  value : Type;
  here : CoreLayer → option value;
  resolved : CoreConf Regex → value
}.

Definition own {A} (f : CoreLayer → option A) (g : CoreConf Regex → A) : Setting := mkSetting A f g.

(** A setting that no level can take back *)
Definition opt {A} (f : CoreLayer → option A) (l : CoreLayer) : option (option A) := Some <$> f l.

Definition alias_here (l : CoreLayer) : option (option Template) :=
  or_else (opt l_alias l) (const None <$> l_root l).

Definition settings : list Setting :=
   [own l_root root; own l_index index; own l_autoindex autoindex; own l_default_type default_type;
    own (opt l_charset) charset; own l_sendfile sendfile; own l_tcp_nopush tcp_nopush;
    own l_tcp_nodelay tcp_nodelay; own l_keepalive_timeout keepalive_timeout;
    own l_keepalive_requests keepalive_requests; own l_client_header_timeout client_header_timeout;
    own l_client_body_timeout client_body_timeout; own l_send_timeout send_timeout;
    own l_client_max_body_size client_max_body_size;
    own l_client_header_buffer_size client_header_buffer_size;
    own l_large_client_header_buffers large_client_header_buffers; own l_server_tokens server_tokens;
    own l_etag etag; own l_add_headers add_headers; own (opt l_expires) expires;
    own l_output_buffers output_buffers; own l_log_not_found log_not_found;
    own l_absolute_redirect absolute_redirect; own l_port_in_redirect port_in_redirect;
    own l_server_name_in_redirect server_name_in_redirect; own l_if_modified_since if_modified_since;
    own (opt l_max_ranges) max_ranges; own l_limit_rate limit_rate;
    own l_limit_rate_after limit_rate_after; own l_internal internal; own l_auth_request auth_request;
    own l_auth_request_set auth_request_set; own l_limit_reqs limit_reqs;
    own l_limit_req_status limit_req_status; own l_limit_conns limit_conns;
    own l_limit_conn_status limit_conn_status; own l_limit_conn_dry_run limit_conn_dry_run;
    own alias_here alias; own (fmap ofc_enabled ∘ l_ofc) (ofc_enabled ∘ open_file_cache);
    own (fmap ofc_max ∘ l_ofc) (ofc_max ∘ open_file_cache);
    own (fmap ofc_inactive ∘ l_ofc) (ofc_inactive ∘ open_file_cache);
    own l_ofc_valid (ofc_valid ∘ open_file_cache); own l_ofc_min_uses (ofc_min_uses ∘ open_file_cache);
    own l_ofc_errors (ofc_errors ∘ open_file_cache); own l_cache_zone (pc_zone ∘ proxy_cache);
    own l_cache_key (pc_key ∘ proxy_cache); own l_cache_valid (pc_valid ∘ proxy_cache);
    own l_cache_methods (pc_methods ∘ proxy_cache); own l_cache_min_uses (pc_min_uses ∘ proxy_cache);
    own l_cache_bypass (pc_bypass ∘ proxy_cache); own l_cache_no_cache (pc_no_cache ∘ proxy_cache);
    own l_cache_use_stale (pc_use_stale ∘ proxy_cache); own l_cache_lock (pc_lock ∘ proxy_cache);
    own l_cache_lock_timeout (pc_lock_timeout ∘ proxy_cache); own l_fcgi_params (f_params ∘ fastcgi);
    own (opt l_fcgi_index) (f_index ∘ fastcgi); own (opt l_fcgi_split) (f_split_path_info ∘ fastcgi);
    own (opt l_fcgi_connect_timeout) (f_connect_timeout ∘ fastcgi);
    own (opt l_fcgi_read_timeout) (f_read_timeout ∘ fastcgi);
    own (opt l_fcgi_send_timeout) (f_send_timeout ∘ fastcgi); own l_fcgi_keep_conn (f_keep_conn ∘ fastcgi);
    own l_fcgi_hide_headers (f_hide_headers ∘ fastcgi); own l_fcgi_buffering (f_buffering ∘ fastcgi);
    own buffer_budget (f_buffer_budget ∘ fastcgi); own l_gzip (gz_enabled ∘ gzip);
    own l_gzip_level (gz_level ∘ gzip); own l_gzip_min_length (gz_min_length ∘ gzip);
    own l_gzip_types (gz_types ∘ gzip); own l_gzip_vary (gz_vary ∘ gzip);
    own l_gzip_proxied_any (gz_proxied_any ∘ gzip);
    own (opt l_proxy_connect_timeout) (p_connect_timeout ∘ proxy);
    own (opt l_proxy_read_timeout) (p_read_timeout ∘ proxy);
    own (opt l_proxy_send_timeout) (p_send_timeout ∘ proxy);
    own l_proxy_set_headers (p_set_headers ∘ proxy); own l_proxy_hide_headers (p_hide_headers ∘ proxy);
    own l_proxy_buffering (p_buffering ∘ proxy); own l_proxy_http_11 (p_http_version_11 ∘ proxy);
    own l_proxy_next_upstream (p_next_upstream ∘ proxy);
    own l_proxy_next_upstream_tries (p_next_upstream_tries ∘ proxy);
    own l_proxy_next_upstream_timeout (p_next_upstream_timeout ∘ proxy);
    own l_proxy_ssl_server_name (p_ssl_server_name ∘ proxy)].

(** The blocks around a location, outermost first. *)
Definition resolve_all (ls : list CoreLayer) (p : CoreConf Regex) : CoreConf Regex :=
  foldl (λ c l, resolve l c) p ls.

(** The reference: the innermost block that says it, or else the default. *)
Definition nearest {A} (f : CoreLayer → option A) (ls : list CoreLayer) (d : A) : A :=
  default d (last (omap f ls)).

Lemma resolve_all_nearest {A} (f : CoreLayer → option A) (g : CoreConf Regex → A) :
  (∀ l p, g (resolve l p) = default (g p) (f l)) →
  ∀ ls p, g (resolve_all ls p) = nearest f ls (g p).
Proof.
  intros H ls. induction ls as [|l ls IH] using rev_ind; intros p; [done |].
  unfold resolve_all in *. rewrite foldl_snoc, H, IH. unfold nearest. rewrite omap_app. cbn [omap list_omap].
  destruct (f l) as [a|]; [by rewrite last_snoc | by rewrite app_nil_r].
Qed.

Lemma default_or {A} (a b : option A) : or_else a b = default b (Some <$> a).
Proof. by destruct a. Qed.

(** Whatever the blocks around it and in whatever order they set things,
    every setting of a location has the value of the innermost block that
    sets it, or the default: lists are replaced whole and never merged, a
    [root] takes the place of an [alias] from outside, and the three values
    of [open_file_cache] come together. *)
Theorem nearest_level_wins (ls : list CoreLayer) (p : CoreConf Regex) :
  Forall (λ s, resolved s (resolve_all ls p) = nearest (here s) ls (resolved s p)) settings.
Proof.
  repeat constructor; cbn [resolved here own];
    apply (resolve_all_nearest _ _); intros l c; try first [reflexivity | apply default_or].
  unfold alias_here, opt. cbn. by destruct (l_alias l), (l_root l).
Qed.

(** No block sets what the code has no directive for. *)
Lemma resolve_fixed (l : CoreLayer) (p : CoreConf Regex) :
  msie_padding (resolve l p) = msie_padding p ∧ directio (resolve l p) = directio p ∧
  satisfy_any (resolve l p) = satisfy_any p ∧ p_pass_headers (proxy (resolve l p)) = p_pass_headers (proxy p) ∧
  p_set_body (proxy (resolve l p)) = p_set_body (proxy p).
Proof. done. Qed.

(** A level that says nothing changes nothing. *)
Lemma resolve_empty (p : CoreConf Regex) : resolve empty_layer p = p.
Proof. by destruct p as [? ? ? ? ? ? ? ? ? ? ? ? ? ? ? ? ? ? ? ? [] ? ? [] ? ? ? ? ? ? ? ? ? ? ? ? ? ? [] [] [] ? ? ? ? ?]. Qed.

(** The two factors of the FastCGI buffers are inherited as one product: a
    level that sets the size gets the default count, not its parent's. *)
Example buffer_factors_reset (p : CoreConf Regex) :
  let http := empty_layer <| l_fcgi_buffers := Some 64 |> in
  let location := empty_layer <| l_fcgi_buffer_size := Some 16384 |> in
  f_buffer_budget (fastcgi (resolve_all [http; location] p)) = 131072 ∧
  f_buffer_budget (fastcgi (resolve_all [http <| l_fcgi_buffer_size := Some 16384 |>] p)) = 1048576.
Proof. done. Qed.
End layer.

Arguments CoreLayer : clear implicits.
