(* ===== verification/Level.v ===== *)
(** * [src/config/build.rs]: the directives of a block

    [level_directive] reads one directive into the [Level] being built. Its
    arms are a table from names to what they do, in the groups the code has
    them; a name that is in no group is left to the caller. *)
From S2P Require Import Prelude.
From S2P Require Import Text.
From S2P Require Import Ast.
From S2P Require Import Vars.
From S2P Require Import Response.
From S2P Require Import Model.
From S2P Require Import Args.
From S2P Require Import Addr.
From S2P Require Import Layer.
From S2P Require Cache.
From S2P Require LimitReq.
From S2P Require LimitConn.

Open Scope Z_scope.

Definition u16_max : Z := 2 ^ 16 - 1.
Definition u32_max : Z := 2 ^ 32 - 1.

Definition to_upper (s : bytes) : bytes := to_ascii_uppercase <$> s.

(** [s.strip_suffix(p)] *)
Definition strip_suffix (p s : bytes) : option bytes :=
  if ends_with p s then Some (take (length s - length p) s) else None.

(** [s.trim_end_matches(c)] *)
Fixpoint drop_char (c : byte) (r : bytes) : bytes :=
  match r with d :: r' => if decide (d = c) then drop_char c r' else r | [] => [] end.
Definition trim_end_matches (c : byte) (s : bytes) : bytes := reverse (drop_char c (reverse s)).

(** [s.rsplit_once(c)] *)
Definition rsplit_once (c : byte) (s : bytes) : option (bytes * bytes) :=
  i ← rfind c s; Some (take i s, drop (S i) s).

Definition absolute_url (s : bytes) : bool := starts_with (str "http://") s || starts_with (str "https://") s.

Inductive Scope := ScopeHttp | ScopeServer | ScopeLocation.
#[export] Instance Scope_eq_dec : EqDecision Scope.
Proof. solve_decision. Defined.

(** [Builder] *)
Record Builder := mkBuilder {
  b_prefix : bytes;
  log_formats : gmap bytes Template;
  unsupported : list bytes
}.
#[export] Instance eta_builder : Eta Builder := λ b,
  mkBuilder (b_prefix b) (log_formats b) (unsupported b).

(** [if !self.unsupported.contains(&msg) { self.unsupported.push(msg) }] *)
Definition note (msg : bytes) (b : Builder) : Builder :=
  if decide (msg ∈ unsupported b) then b else b <| unsupported := unsupported b ++ [msg] |>.

Definition KNOWN_UNIMPLEMENTED : list bytes :=
  [str "uwsgi_pass"; str "scgi_pass"; str "grpc_pass"; str "memcached_pass"; str "auth_basic";
   str "auth_basic_user_file"; str "ssi"; str "sub_filter"; str "sub_filter_types";
   str "addition_before_body"; str "dav_methods"; str "mp4"; str "flv"; str "xslt_stylesheet";
   str "image_filter"; str "perl"; str "js_content"; str "geo"; str "split_clients";
   str "referer_hash_bucket_size"].

Definition note_unsupported (d : Directive) (b : Builder) : Builder :=
  note (if decide (name d ∈ KNOWN_UNIMPLEMENTED)
        then loc d ++ str ": directive " ++ q (name d) ++ str " is recognised but not implemented yet"
        else loc d ++ str ": unknown directive " ++ q (name d)) b.

(** [Builder::abs] *)
Definition abs (b : Builder) (p : bytes) : bytes :=
  if starts_with (str "/") p then p else path_join (b_prefix b) p.

Section level.
  Context {Regex : Type} `{!Crates Regex}.

(** [Level] *)
Record Level := mkLevel {
  lv_core : CoreLayer Regex;
  lv_action : option Action;
  lv_try_files : option TryFiles;
  lv_rewrites : list (Rewrite Regex);
  lv_ifs : list (IfBlock Regex);
  lv_error_pages : option (list ErrorPage);
  lv_access_logs : option (list AccessLogConf);
  lv_allowed_methods : option (list bytes);
  lv_locations : list Directive
}.
#[export] Instance eta_level : Eta Level := λ l,
  mkLevel (lv_core l) (lv_action l) (lv_try_files l) (lv_rewrites l) (lv_ifs l) (lv_error_pages l)
    (lv_access_logs l) (lv_allowed_methods l) (lv_locations l).

Definition empty_level : Level := mkLevel empty_layer None None [] [] None None None [].

(** ** What a directive's arguments mean *)

Definition parse_return (d : Directive) : outcome Action :=
  first ← nth_arg d 0;
  if absolute_url first || starts_with (str "/") first then
    if decide (1 < length (args d))%nat then bail d [str "invalid arguments in "; q (str "return"); str " directive"]
    else Fine (Return 302 (Some (compile first)))
  else
    status ← or_bail d [str "invalid return code "; q first] (parse_uint u16_max first);
    Fine (Return status (compile <$> arg d 1)).

Definition parse_fastcgi_target (s : bytes) (d : Directive) : outcome ProxyTarget :=
  match strip_prefix (str "unix:") s with
  | Some path =>
      if decide (path = []) then bail d [str "empty socket path in "; q (str "fastcgi_pass unix:")]
      else Fine (ToUnix (trim_end_matches ":"%byte path))
  | None =>
      if contains [x24] s then Fine (Dynamic (compile s))
      else match rsplit_once ":"%byte s with
      | Some (h, p) => match parse_uint u16_max p with Some port => Fine (ToAddr h port) | None => Fine (ToUpstream s) end
      | None => Fine (ToUpstream s)
      end
  end.

(** The authority of a [proxy_pass] *)
Definition proxy_target (tls : bool) (authority : bytes) : ProxyTarget :=
  match rsplit_once ":"%byte authority with
  | Some (h, p) =>
      match parse_uint u16_max p with Some port => ToAddr h port | None => ToUpstream authority end
  | None =>
      if contains (str ".") authority || bool_decide (is_Some (parse_ip authority))
      then ToAddr authority (if tls then 443 else 80)
      else ToUpstream authority
  end.

Definition parse_proxy_pass (s : bytes) (d : Directive) : outcome ProxyPass :=
  if contains [x24] s && negb (absolute_url s) then Fine (mkProxyPass (Dynamic (compile s)) None false)
  else
    '(tls, rest) ←
      match strip_prefix (str "https://") s, strip_prefix (str "http://") s with
      | Some r, _ => Fine (true, r)
      | None, Some r => Fine (false, r)
      | None, None => bail d [str "invalid URL prefix in "; q (str "proxy_pass"); str " — expected http:// or https://"]
      end;
    match strip_prefix (str "unix:") rest with
    | Some after =>
        let '(path, uri) :=
          match rfind ":"%byte after with
          | Some i => (take i after, Some (drop (S i) after))
          | None => (after, None)
          end in
        if decide (path = []) then bail d [str "empty socket path in "; q (str "proxy_pass ... unix:")]
        else Fine (mkProxyPass (ToUnix path)
                     (match uri with Some u => if decide (u = []) then None else Some (compile u) | None => None end) tls)
    | None =>
        let '(authority, uri) :=
          match find "/"%byte rest with
          | Some i => (take i rest, Some (drop i rest))
          | None => (rest, None)
          end in
        if decide (authority = []) then bail d [str "no host in "; q (str "proxy_pass")]
        else Fine (mkProxyPass (proxy_target tls authority) (compile <$> uri) tls)
    end.

(** ** [rewrite] and [if] *)

Definition rewrite_flags : list (bytes * RewriteFlag) :=
  [(str "last", Last); (str "break", Break); (str "redirect", Redirect); (str "permanent", Permanent)].

Definition rewrite_of (d : Directive) : outcome (Rewrite Regex) :=
  want_args_range d 2 3 ;;
  flag ← match arg d 2 with
         | None => Fine NoFlag
         | Some f => or_bail d [str "invalid flag "; q f; str " in "; q (str "rewrite"); str " directive"] (assoc f rewrite_flags)
         end;
  a ← nth_arg d 0; re ← compile_regex a false d;
  v ← nth_arg d 1; Fine (mkRewrite re (compile v) flag).

Definition var_operand (d : Directive) (s : bytes) : outcome Var.Var :=
  or_bail d [str "invalid condition operand "; q s; str ", expected a variable"] (parse <$> strip_prefix (str "$") s).

Definition file_tests : list (bytes * (Template → Cond Regex)) :=
  [(str "-f", λ t, FileExists t false); (str "!-f", λ t, FileExists t true);
   (str "-d", λ t, DirExists t false); (str "!-d", λ t, DirExists t true);
   (str "-e", λ t, AnyExists t false); (str "!-e", λ t, AnyExists t true);
   (str "-x", λ t, Executable t false); (str "!-x", λ t, Executable t true)].

(** A comparison with a pattern: whether it ignores case and is negated. *)
Definition match_tests : list (bytes * (bool * bool)) :=
  [(str "~", (false, false)); (str "~*", (true, false)); (str "!~", (false, true)); (str "!~*", (true, true))].

Definition cond_of (parts : list bytes) (d : Directive) : outcome (Cond Regex) :=
  match parts with
  | [p] => Truthy <$> var_operand d p
  | [op; a] =>
      match assoc op file_tests with
      | Some f => Fine (f (compile a))
      | None => bail d [str "invalid condition operator "; q op]
      end
  | [lhs; op; rhs] =>
      v ← var_operand d lhs;
      if decide (op = str "=") then Fine (CondEq v (compile rhs))
      else if decide (op = str "!=") then Fine (CondNe v (compile rhs))
      else match assoc op match_tests with
      | Some (ci, negate) => re ← compile_regex rhs ci d; Fine (CondMatch v re negate)
      | None => bail d [str "invalid condition operator "; q op]
      end
  | _ => bail d [str "invalid condition in "; q (str "if"); str " directive"]
  end.

(** The variable a [set] names *)
Definition set_target (d : Directive) (a : bytes) : outcome bytes :=
  or_bail d [str "invalid variable name "; q a] (strip_prefix (str "$") a).

Definition set_of (d : Directive) : outcome (IfAction Regex) :=
  want_args d 2 ;; a ← nth_arg d 0; var ← set_target d a; v ← nth_arg d 1; Fine (IfSet var (compile v)).

Definition header_of (d : Directive) : outcome AddHeader :=
  want_args_range d 2 3 ;; a ← nth_arg d 0; v ← nth_arg d 1;
  Fine (mkAddHeader a (compile v) (bool_decide (arg d 2 = Some (str "always")))).

(** A directive inside an [if]; a [return] that is none is [unreachable!]. *)
Definition if_action (c : Directive) : outcome (IfAction Regex) :=
  if decide (name c = str "return") then
    a ← parse_return c; match a with Return status body => Fine (IfReturn status body) | _ => Panic end
  else if decide (name c = str "rewrite") then IfRewrite <$> rewrite_of c
  else if decide (name c = str "set") then set_of c
  else if decide (name c = str "add_header") then IfAddHeader <$> header_of c
  else if decide (name c = str "break") then Fine IfBreak
  else bail c [q (name c); str " is not allowed inside "; q (str "if"); str " in OxiServe"].

(** The words of the condition without their parentheses. *)
Definition cond_parts (d : Directive) : outcome (list bytes) :=
  match args d with
  | [] => bail d [str "invalid condition in "; q (str "if"); str " directive"]
  | first :: more =>
      f ← or_bail d [str "invalid condition in "; q (str "if"); str ": expected "; q (str "(")]
            (strip_prefix (str "(") first);
      let parts := f :: more in
      let last_i := (length parts - 1)%nat in
      l ← or_bail d [str "invalid condition in "; q (str "if"); str ": expected "; q (str ")")]
            (strip_suffix (str ")") (default [] (parts !! last_i)));
      Fine (filter (λ p, p ≠ []) (<[last_i := l]> parts))
  end.

Definition if_block (d : Directive) : outcome (IfBlock Regex) :=
  parts ← cond_parts d; c ← cond_of parts d; acts ← collect if_action (children d); Fine (mkIfBlock c acts).

(** ** The arms *)

Definition Arm : Type := Builder → Level → Directive → Scope → outcome (Level * Builder).

(** An arm that only touches the core settings *)
Definition core_arm (f : CoreLayer Regex → Directive → outcome (CoreLayer Regex)) : Arm :=
  λ b lv d _, c ← f (lv_core lv) d; Fine (lv <| lv_core := c |>, b).

(** An arm that only touches the level *)
Definition level_arm (f : Level → Directive → outcome Level) : Arm := λ b lv d _, lv ← f lv d; Fine (lv, b).

(** [c.f = Some(read(d)?)] *)
Definition set_arm {A} (f : CoreLayer Regex → option A) `{!Setter f} (read : Directive → outcome A) : Arm :=
  core_arm (λ c d, v ← read d; Fine (put f (Some v) c)).

(** [c.f.get_or_insert_with(Vec::new).push(read(d)?)] *)
Definition push_arm {A} (f : CoreLayer Regex → option (list A)) `{!Setter f} (read : Directive → outcome A) : Arm :=
  core_arm (λ c d, v ← read d; Fine (put f (Some (default [] (f c) ++ [v])) c)).

(** [c.f = d.args[0].parse().ok()]: a word that is no number is [None]. *)
Definition number_arm (f : CoreLayer Regex → option Z) `{!Setter f} (max : Z) : Arm :=
  core_arm (λ c d, want_args d 1 ;; a ← nth_arg d 0; Fine (put f (parse_uint max a) c)).

Definition ignored : Arm := λ b lv d _, Fine (lv, b).

Definition time0 (d : Directive) : outcome Duration := time_arg d 0.
Definition size0 (d : Directive) : outcome Z := size_arg d 0.

(** One argument, the whole of what the arm reads *)
Definition word (d : Directive) : outcome bytes := want_args d 1 ;; nth_arg d 0.

(** One argument, of which [off] is [None] *)
Definition word_or_off (d : Directive) : outcome (option bytes) :=
  a ← word d; Fine (if decide (a = str "off") then None else Some a).

Definition server_tokens_of (d : Directive) : outcome ServerTokens :=
  v ← word d;
  if decide (v = str "on") then Fine TokensOn
  else if decide (v = str "off") then Fine TokensOff
  else if decide (v = str "build") then Fine TokensBuild
  else bail d [str "invalid value "; q v; str " in "; q (str "server_tokens")].

Definition if_modified_since_of (d : Directive) : outcome IfModifiedSince :=
  v ← word d;
  if decide (v = str "off") then Fine ImsOff
  else if decide (v = str "exact") then Fine ImsExact
  else if decide (v = str "before") then Fine ImsBefore
  else bail d [str "invalid value "; q v; str " in "; q (str "if_modified_since")].

(** A count with a default, and a size *)
Definition count_and_size (dflt : Z) (d : Directive) : outcome (Z * Z) :=
  want_args d 2 ;; a ← nth_arg d 0; n ← size_arg d 1; Fine (default dflt (parse_uint u64_max a), n).

Definition alias_arm : Arm := λ b lv d scope,
  if decide (scope ≠ ScopeLocation)
  then bail d [q (str "alias"); str " directive is only allowed inside location"]
  else set_arm l_alias (λ d, compile <$> word d) b lv d scope.

Definition core_arms : list (bytes * Arm) := [
  (str "root", set_arm l_root (λ d, a ← word d; Fine (compile (trim_end_matches "/"%byte a))));
  (str "alias", alias_arm);
  (str "index", set_arm l_index (λ d, want_args_range d 1 32 ;; Fine (compile <$> args d)));
  (str "autoindex", set_arm l_autoindex flag);
  (str "default_type", set_arm l_default_type word);
  (str "charset", core_arm (λ c d, v ← word_or_off d; Fine (c <| l_charset := v |>)));
  (str "sendfile", set_arm l_sendfile flag);
  (str "tcp_nopush", set_arm l_tcp_nopush flag);
  (str "tcp_nodelay", set_arm l_tcp_nodelay flag);
  (str "etag", set_arm l_etag flag);
  (str "keepalive_timeout", set_arm l_keepalive_timeout (λ d, want_args_range d 1 2 ;; time0 d));
  (str "keepalive_requests", number_arm l_keepalive_requests u64_max);
  (str "client_header_timeout", set_arm l_client_header_timeout time0);
  (str "client_body_timeout", set_arm l_client_body_timeout time0);
  (str "send_timeout", set_arm l_send_timeout time0);
  (str "client_max_body_size", set_arm l_client_max_body_size size0);
  (str "client_header_buffer_size", set_arm l_client_header_buffer_size size0);
  (str "large_client_header_buffers", set_arm l_large_client_header_buffers (count_and_size 4));
  (str "server_tokens", set_arm l_server_tokens server_tokens_of);
  (str "log_not_found", set_arm l_log_not_found flag);
  (str "absolute_redirect", set_arm l_absolute_redirect flag);
  (str "port_in_redirect", set_arm l_port_in_redirect flag);
  (str "server_name_in_redirect", set_arm l_server_name_in_redirect flag);
  (str "if_modified_since", set_arm l_if_modified_since if_modified_since_of);
  (str "max_ranges", number_arm l_max_ranges u64_max);
  (str "limit_rate", set_arm l_limit_rate size0);
  (str "limit_rate_after", set_arm l_limit_rate_after size0);
  (str "internal", set_arm l_internal (λ _, Fine true)) ].

(** *** FastCGI, subrequests and the rule engine that is not built in *)

Definition fastcgi_pass_arm : Arm :=
  level_arm (λ lv d, a ← word d; t ← parse_fastcgi_target a d; Fine (lv <| lv_action := Some (FastCgi t) |>)).

Definition fastcgi_param_of (d : Directive) : outcome FastCgiParam :=
  want_args_range d 2 3 ;; a ← nth_arg d 0; v ← nth_arg d 1;
  Fine (mkFastCgiParam a (compile v) (bool_decide (arg d 2 = Some (str "if_not_empty")))).

Definition fastcgi_split_of (d : Directive) : outcome Regex :=
  a ← word d; re ← compile_regex a false d;
  if decide (captures_len re < 3)
  then bail d [q (str "fastcgi_split_path_info"); str " needs two capture groups: the script path and the path info"]
  else Fine re.

Definition no_rule_engine : Arm := λ b lv d _,
  Fine (lv, note (loc d ++ str ": " ++ q (name d) ++ str " needs a build with the " ++ q (str "modsecurity") ++
    str " feature; this binary has no rule engine, so nothing is being inspected") b).

Definition auth_request_of (d : Directive) : outcome (option bytes) :=
  a ← word d;
  if decide (a = str "off") then Fine None
  else if starts_with (str "/") a then Fine (Some a)
  else bail d [q (str "auth_request"); str " must name an internal URI beginning with "; q (str "/")].

Definition auth_request_set_of (d : Directive) : outcome (bytes * Template) :=
  want_args d 2 ;; a ← nth_arg d 0;
  match strip_prefix (str "$") a with
  | Some n => v ← nth_arg d 1; Fine (n, compile v)
  | None => bail_line d [str "invalid variable name "; q a]
  end.

Definition fastcgi_buffers_of (d : Directive) : outcome Z :=
  want_args d 2 ;; a ← nth_arg d 0;
  match parse_uint u64_max a with
  | Some n => Fine (Z.max n 2)
  | None => bail_line d [str "invalid number of buffers "; q a]
  end.

Definition fastcgi_arms : list (bytes * Arm) := [
  (str "fastcgi_pass", fastcgi_pass_arm);
  (str "fastcgi_param", push_arm l_fcgi_params fastcgi_param_of);
  (str "fastcgi_index", set_arm l_fcgi_index word);
  (str "fastcgi_split_path_info", set_arm l_fcgi_split fastcgi_split_of);
  (str "fastcgi_connect_timeout", set_arm l_fcgi_connect_timeout time0);
  (str "fastcgi_read_timeout", set_arm l_fcgi_read_timeout time0);
  (str "fastcgi_send_timeout", set_arm l_fcgi_send_timeout time0);
  (str "modsecurity", no_rule_engine);
  (str "modsecurity_rules_file", no_rule_engine);
  (str "modsecurity_rules", no_rule_engine);
  (str "modsecurity_response_body", no_rule_engine);
  (str "modsecurity_response_body_limit", no_rule_engine);
  (str "auth_request", set_arm l_auth_request auth_request_of);
  (str "auth_request_set", push_arm l_auth_request_set auth_request_set_of);
  (str "fastcgi_keep_conn", set_arm l_fcgi_keep_conn flag);
  (str "fastcgi_hide_header", push_arm l_fcgi_hide_headers (λ d, lowercase <$> word d));
  (str "fastcgi_buffering", set_arm l_fcgi_buffering flag);
  (str "fastcgi_buffer_size", set_arm l_fcgi_buffer_size size0);
  (str "fastcgi_buffers", set_arm l_fcgi_buffers fastcgi_buffers_of);
  (str "fastcgi_busy_buffers_size", ignored);
  (str "fastcgi_next_upstream", ignored);
  (str "fastcgi_intercept_errors", ignored);
  (str "fastcgi_request_buffering", ignored);
  (str "fastcgi_temp_file_write_size", ignored);
  (str "fastcgi_max_temp_file_size", ignored);
  (str "fastcgi_ignore_headers", ignored);
  (str "fastcgi_pass_header", ignored) ].

(** *** The cache of the proxy *)

(** [any] clears the list and ends it. *)
Fixpoint cache_valid_codes (d : Directive) (l : list bytes) (codes : list Z) : outcome (list Z) :=
  match l with
  | [] => Fine codes
  | a :: l =>
      if decide (a = str "any") then Fine []
      else match parse_uint u16_max a with
      | Some n => cache_valid_codes d l (codes ++ [n])
      | None => bail d [str "invalid status "; q a; str " in "; q (str "proxy_cache_valid")]
      end
  end.

Definition cache_valid_of (d : Directive) : outcome CacheValid :=
  want_args_range d 1 32 ;;
  t ← time_arg d (length (args d) - 1);
  codes ← cache_valid_codes d (take (length (args d) - 1) (args d)) [];
  Fine (mkCacheValid codes t).

(** So does [off]. *)
Fixpoint stale_conds (d : Directive) (l : list bytes) (conds : list Cache.StaleWhen) : outcome (list Cache.StaleWhen) :=
  match l with
  | [] => Fine conds
  | a :: l =>
      match Cache.parse_stale a with
      | Some c => stale_conds d l (conds ++ [c])
      | None =>
          if decide (a = str "off") then Fine []
          else bail d [str "invalid condition "; q a; str " in "; q (str "proxy_cache_use_stale")]
      end
  end.

Definition use_stale_of (d : Directive) : outcome (list Cache.StaleWhen) :=
  want_args_range d 1 32 ;; stale_conds d (args d) [].

Definition templates_of (d : Directive) : outcome (list Template) :=
  want_args_range d 1 32 ;; Fine (compile <$> args d).

Definition cache_arms : list (bytes * Arm) := [
  (str "proxy_cache", set_arm l_cache_zone word_or_off);
  (str "proxy_cache_key", set_arm l_cache_key (λ d, compile <$> word d));
  (str "proxy_cache_valid", push_arm l_cache_valid cache_valid_of);
  (str "proxy_cache_methods", set_arm l_cache_methods (λ d, want_args_range d 1 16 ;; Fine (to_upper <$> args d)));
  (str "proxy_cache_min_uses", number_arm l_cache_min_uses u32_max);
  (str "proxy_cache_bypass", set_arm l_cache_bypass templates_of);
  (str "proxy_no_cache", set_arm l_cache_no_cache templates_of);
  (str "proxy_cache_use_stale", set_arm l_cache_use_stale use_stale_of);
  (str "proxy_cache_lock", set_arm l_cache_lock flag);
  (str "proxy_cache_lock_timeout", set_arm l_cache_lock_timeout time0);
  (str "proxy_cache_lock_age", ignored);
  (str "proxy_cache_background_update", ignored);
  (str "proxy_cache_revalidate", ignored);
  (str "proxy_cache_convert_head", ignored) ].

(** *** Limits *)

(** [n * SCALE], which wraps *)
Definition scaled (d : Directive) (what v : bytes) : outcome Z :=
  match parse_uint u64_max v with
  | Some n => Fine (wrap 64 (n * LimitReq.SCALE))
  | None => bail d [str "invalid "; q what; str " value "; q v; str " in "; q (str "limit_req")]
  end.

Definition limit_req_arg (d : Directive) (lr : LimitReq) (a : bytes) : outcome LimitReq :=
  match strip_prefix (str "zone=") a, strip_prefix (str "burst=") a, strip_prefix (str "delay=") a with
  | Some v, _, _ => Fine (mkLimitReq v (burst lr) (nodelay lr) (delay_after lr))
  | None, Some v, _ => n ← scaled d (str "burst") v; Fine (mkLimitReq (lr_zone lr) n (nodelay lr) (delay_after lr))
  | None, None, o =>
      if decide (a = str "nodelay") then Fine (mkLimitReq (lr_zone lr) (burst lr) true (delay_after lr))
      else match o with
      | Some v => n ← scaled d (str "delay") v; Fine (mkLimitReq (lr_zone lr) (burst lr) (nodelay lr) n)
      | None => bail d [str "invalid parameter "; q a; str " in "; q (str "limit_req")]
      end
  end.

Definition limit_req_of (d : Directive) : outcome LimitReq :=
  want_args_range d 1 4 ;;
  lr ← each (limit_req_arg d) (mkLimitReq [] 0 false 0) (args d);
  if decide (lr_zone lr = []) then bail d [q (str "limit_req"); str " requires a "; q (str "zone="); str " parameter"]
  else if decide (nodelay lr = true ∧ 0 < delay_after lr)
  then bail d [q (str "nodelay"); str " and "; q (str "delay="); str " are mutually exclusive in "; q (str "limit_req")]
  else Fine lr.

Definition limit_conn_of (d : Directive) : outcome LimitConn :=
  want_args d 2 ;; z ← nth_arg d 0; a ← nth_arg d 1;
  limit ← or_bail d [str "invalid number of connections "; q a; str " in "; q (str "limit_conn")]
            (n ← parse_uint u32_max a; if decide (0 < n) then Some n else None);
  if decide (LimitConn.MAX_CONNS < limit)
  then bail d [q (str "limit_conn"); str " number "; fmt_u64 limit; str " exceeds the maximum of "; fmt_u64 LimitConn.MAX_CONNS]
  else Fine (mkLimitConn z limit).

(** A status to refuse with, a 4xx or 5xx *)
Definition refusal_status (d : Directive) : outcome Z :=
  a ← word d;
  or_bail d [str "invalid status "; q a; str " in "; q (name d)]
    (n ← parse_uint u16_max a; if decide (400 ≤ n < 600) then Some n else None).

Definition open_file_cache_arg (d : Directive) (o : OpenFileCache) (a : bytes) : outcome OpenFileCache :=
  let invalid what v := [str "invalid "; q what; str " value "; q v; str " in "; q (str "open_file_cache")] in
  match strip_prefix (str "max=") a, strip_prefix (str "inactive=") a with
  | Some v, _ =>
      n ← or_bail d (invalid (str "max") v) (parse_uint u64_max v);
      Fine (mkOpenFileCache (ofc_enabled o) n (ofc_inactive o) (ofc_valid o) (ofc_min_uses o) (ofc_errors o))
  | None, Some v =>
      time_or d (invalid (str "inactive") v)
        (λ t, Fine (mkOpenFileCache (ofc_enabled o) (ofc_max o) t (ofc_valid o) (ofc_min_uses o) (ofc_errors o))) v
  | None, None => bail d [str "invalid parameter "; q a; str " in "; q (str "open_file_cache")]
  end.

Definition open_file_cache_of (d : Directive) : outcome OpenFileCache :=
  want_args_range d 1 3 ;; a ← nth_arg d 0;
  let start e := mkOpenFileCache e (ofc_max default_open_file_cache) (ofc_inactive default_open_file_cache)
    (ofc_valid default_open_file_cache) (ofc_min_uses default_open_file_cache) (ofc_errors default_open_file_cache) in
  if decide (a = str "off") then Fine (start false)
  else
    o ← each (open_file_cache_arg d) (start true) (args d);
    if decide (ofc_max o = 0)
    then bail d [q (str "open_file_cache"); str " requires a non-zero "; q (str "max"); str " parameter"]
    else Fine o.

Definition limit_arms : list (bytes * Arm) := [
  (str "limit_req", push_arm l_limit_reqs limit_req_of);
  (str "limit_req_status", set_arm l_limit_req_status refusal_status);
  (str "limit_req_log_level", ignored);
  (str "limit_conn", push_arm l_limit_conns limit_conn_of);
  (str "limit_conn_status", set_arm l_limit_conn_status refusal_status);
  (str "limit_conn_dry_run", set_arm l_limit_conn_dry_run flag);
  (str "limit_conn_log_level", ignored);
  (str "open_file_cache", set_arm l_ofc open_file_cache_of);
  (str "open_file_cache_valid", set_arm l_ofc_valid time0);
  (str "open_file_cache_min_uses", number_arm l_ofc_min_uses u32_max);
  (str "open_file_cache_errors", set_arm l_ofc_errors flag);
  (str "output_buffers", set_arm l_output_buffers (count_and_size 2)) ].

(** *** Compression, headers and logs *)

Definition i64_wrap (z : Z) : Z := let m := wrap 64 z in if decide (m < 2 ^ 63) then m else m - 2 ^ 64.

(** [parse_time(s).map(|d| d.as_secs() as i64)] *)
Definition secs_of (d : Directive) (v s : bytes) : outcome Z :=
  time_or d [str "invalid expires "; q v] (λ t, Fine (i64_wrap (t / 1000))) s.

Definition expires_of (d : Directive) : outcome Expires :=
  want_args_range d 1 2 ;;
  v ← (match last (args d) with Some a => Fine a | None => Panic end);
  if decide (v = str "off") then Fine ExpiresOff
  else if decide (v = str "epoch") then Fine Epoch
  else if decide (v = str "max") then Fine Max
  else match strip_prefix (str "@") v with
  | Some t => Daily <$> secs_of d v t
  | None =>
      match strip_prefix (str "-") v with
      | Some rest => s ← secs_of d v rest; Fine (Secs (i64_wrap (- s)))
      | None => Secs <$> secs_of d v v
      end
  end.

(** One parameter of [oxidb:] *)
Definition oxidb_param (d : Directive) (acc : option bytes * option bytes) (p : bytes) :
    outcome (option bytes * option bytes) :=
  match strip_prefix (str "server=") p, strip_prefix (str "db=") p with
  | Some v, _ =>
      if decide (v = []) then bail d [str "empty "; q (str "server="); str " in "; q (str "access_log oxidb:")]
      else Fine (Some (if contains (str ":") v then v else v ++ str ":12202"), snd acc)
  | None, Some v => Fine (fst acc, Some v)
  | None, None => bail d [str "invalid parameter "; q p; str " in "; q (str "access_log oxidb:")]
  end.

Definition sink_of (b : Builder) (d : Directive) (a : bytes) : outcome LogSink :=
  match strip_prefix (str "oxidb:") a with
  | Some params =>
      '(addr, db) ← each (oxidb_param d) (None, None) (split ","%byte params);
      match addr with
      | Some addr => Fine (OxiDb addr db)
      | None => bail d [q (str "access_log oxidb:"); str " requires "; q (str "server=")]
      end
  | None => Fine (LogFile (abs b a))
  end.

(** The parameters after the format; what cannot be read is ignored. *)
Definition log_param (acc : Z * option Duration) (p : bytes) : outcome (Z * option Duration) :=
  match strip_prefix (str "buffer=") p, strip_prefix (str "flush=") p with
  | Some v, _ => Fine (default 0 (parse_size v), snd acc)
  | None, Some v => match parse_time v with Some t => Fine (fst acc, t) | None => Panic end
  | None, None => Fine acc
  end.

Definition access_log_arm : Arm := λ b lv d _,
  want_args_range d 1 8 ;; a ← nth_arg d 0;
  if decide (a = str "off") then Fine (lv <| lv_access_logs := Some [] |>, b)
  else
    s ← sink_of b d a;
    let fmt_name := default (str "combined") (arg d 1) in
    f ← or_bail d [str "unknown log format "; q fmt_name] (log_formats b !! fmt_name);
    '(buf, fl) ← each log_param (0, None) (drop 2 (args d));
    Fine (lv <| lv_access_logs := Some (default [] (lv_access_logs lv) ++ [mkAccessLogConf s f buf fl]) |>, b).

Definition header_arms : list (bytes * Arm) := [
  (str "gzip", set_arm l_gzip flag);
  (str "gzip_comp_level", number_arm l_gzip_level u32_max);
  (str "gzip_min_length", set_arm l_gzip_min_length size0);
  (str "gzip_types", set_arm l_gzip_types (λ d, Fine (args d)));
  (str "gzip_vary", set_arm l_gzip_vary flag);
  (str "gzip_proxied", set_arm l_gzip_proxied_any (λ d, Fine (bool_decide (str "any" ∈ args d))));
  (str "gzip_http_version", ignored);
  (str "gzip_buffers", ignored);
  (str "gzip_disable", ignored);
  (str "gzip_static", ignored);
  (str "expires", set_arm l_expires expires_of);
  (str "add_header", push_arm l_add_headers header_of);
  (str "access_log", access_log_arm) ].

(** *** What the level does with a request *)

(** All arguments but the last, which is the target. *)
Definition targets (d : Directive) : outcome (list bytes * bytes) :=
  match last (args d) with Some t => Fine (take (length (args d) - 1) (args d), t) | None => Panic end.

Definition error_page_arg (d : Directive) (acc : list Z * option Z) (a : bytes) : outcome (list Z * option Z) :=
  match strip_prefix (str "=") a with
  | Some r => Fine (fst acc, if decide (r = []) then Some 0 else parse_uint u16_max r)
  | None =>
      match parse_uint u16_max a with
      | Some n => Fine (fst acc ++ [n], snd acc)
      | None => bail d [str "invalid value "; q a; str " in "; q (str "error_page")]
      end
  end.

Definition error_page_of (d : Directive) : outcome ErrorPage :=
  want_args_range d 2 32 ;; '(l, t) ← targets d;
  '(codes, repl) ← each (error_page_arg d) ([], None) l;
  Fine (mkErrorPage codes repl
    match strip_prefix (str "@") t with
    | Some n => ErrNamed n
    | None => if absolute_url t then ErrRedirect (compile t) else ErrUri (compile t)
    end).

Definition stub_status_of (d : Directive) : outcome Action :=
  want_args_range d 0 1 ;;
  match arg d 0 with
  | None => Fine (StubStatus false)
  | Some a =>
      if decide (a = str "json") then Fine (StubStatus true)
      else bail d [str "invalid parameter "; q a; str " in "; q (str "stub_status"); str ", expected "; q (str "json")]
  end.

Definition try_files_of (d : Directive) : outcome TryFiles :=
  want_args_range d 2 32 ;; '(l, t) ← targets d;
  fallback ←
    match strip_prefix (str "=") t, strip_prefix (str "@") t with
    | Some s, _ => FallStatus <$> or_bail d [str "invalid code "; q t; str " in "; q (str "try_files")] (parse_uint u16_max s)
    | None, Some n => Fine (FallNamed n)
    | None, None => Fine (FallUri (compile t))
    end;
  Fine (mkTryFiles (compile <$> l) fallback).

Definition action_arm (read : Directive → outcome Action) : Arm :=
  level_arm (λ lv d, a ← read d; Fine (lv <| lv_action := Some a |>)).

Definition add_if (lv : Level) (i : IfBlock Regex) : Level := lv <| lv_ifs := lv_ifs lv ++ [i] |>.

Definition level_arms : list (bytes * Arm) := [
  (str "error_page",
    level_arm (λ lv d, e ← error_page_of d; Fine (lv <| lv_error_pages := Some (default [] (lv_error_pages lv) ++ [e]) |>)));
  (str "return", action_arm (λ d, want_args_range d 1 2 ;; parse_return d));
  (str "stub_status", action_arm stub_status_of);
  (str "rewrite", level_arm (λ lv d, r ← rewrite_of d; Fine (lv <| lv_rewrites := lv_rewrites lv ++ [r] |>)));
  (str "if", level_arm (λ lv d, add_if lv <$> if_block d));
  (str "set", level_arm (λ lv d, a ← set_of d; Fine (add_if lv (mkIfBlock Always [a]))));
  (str "try_files", level_arm (λ lv d, t ← try_files_of d; Fine (lv <| lv_try_files := Some t |>)));
  (str "limit_except",
    level_arm (λ lv d, want_args_range d 1 16 ;; Fine (lv <| lv_allowed_methods := Some (to_upper <$> args d) |>)));
  (str "proxy_pass", action_arm (λ d, a ← word d; Proxy <$> parse_proxy_pass a d)) ].

(** *** The proxy *)

Definition next_upstream_codes : list Z := [403; 404; 429; 500; 502; 503; 504].

Definition next_upstream_arg (d : Directive) (n : NextUpstream) (a : bytes) : outcome NextUpstream :=
  let '(mkNextUpstream er ti ih st ni off) := n in
  if decide (a = str "error") then Fine (mkNextUpstream true ti ih st ni off)
  else if decide (a = str "timeout") then Fine (mkNextUpstream er true ih st ni off)
  else if decide (a = str "invalid_header") then Fine (mkNextUpstream er ti true st ni off)
  else if decide (a = str "non_idempotent") then Fine (mkNextUpstream er ti ih st true off)
  else if decide (a = str "off") then Fine (mkNextUpstream er ti ih st ni true)
  else
    or_bail d [str "invalid parameter "; q a; str " in "; q (str "proxy_next_upstream")]
      (code ← strip_prefix (str "http_") a; c ← parse_uint u16_max code;
       if decide (c ∈ next_upstream_codes) then Some (mkNextUpstream er ti ih (st ++ [c]) ni off) else None).

Definition next_upstream_of (d : Directive) : outcome NextUpstream :=
  want_args_range d 1 16 ;; each (next_upstream_arg d) (mkNextUpstream false false false [] false false) (args d).

Definition tries_of (d : Directive) : outcome Z :=
  a ← word d;
  match parse_uint u32_max a with Some n => Fine n | None => bail_line d [str "invalid number "; q a] end.

Definition proxy_header_of (d : Directive) : outcome (bytes * Template) :=
  want_args d 2 ;; a ← nth_arg d 0; v ← nth_arg d 1; Fine (a, compile v).

Definition proxy_arms : list (bytes * Arm) := [
  (str "proxy_set_header", push_arm l_proxy_set_headers proxy_header_of);
  (str "proxy_hide_header", push_arm l_proxy_hide_headers (λ d, lowercase <$> word d));
  (str "proxy_connect_timeout", set_arm l_proxy_connect_timeout time0);
  (str "proxy_read_timeout", set_arm l_proxy_read_timeout time0);
  (str "proxy_send_timeout", set_arm l_proxy_send_timeout time0);
  (str "proxy_buffering", set_arm l_proxy_buffering flag);
  (str "proxy_ssl_server_name", set_arm l_proxy_ssl_server_name flag);
  (str "proxy_http_version", set_arm l_proxy_http_11 (λ d, a ← word d; Fine (bool_decide (a = str "1.1"))));
  (str "proxy_next_upstream", set_arm l_proxy_next_upstream next_upstream_of);
  (str "proxy_next_upstream_tries", set_arm l_proxy_next_upstream_tries tries_of);
  (str "proxy_next_upstream_timeout", set_arm l_proxy_next_upstream_timeout time0);
  (str "proxy_redirect", ignored);
  (str "proxy_buffers", ignored);
  (str "proxy_buffer_size", ignored);
  (str "proxy_busy_buffers_size", ignored);
  (str "proxy_temp_file_write_size", ignored);
  (str "proxy_intercept_errors", ignored);
  (str "proxy_request_buffering", ignored);
  (str "proxy_max_temp_file_size", ignored);
  (str "proxy_ignore_headers", ignored) ].

Definition arms : list (bytes * Arm) :=
  core_arms ++ fastcgi_arms ++ cache_arms ++ limit_arms ++ header_arms ++ level_arms ++ proxy_arms.

(** [level_directive]: whether the name is known, with the level and the
    builder after it. *)
Definition level_directive (b : Builder) (lv : Level) (d : Directive) (scope : Scope) : outcome (bool * Level * Builder) :=
  match assoc (name d) arms with
  | Some arm => '(lv, b) ← arm b lv d scope; Fine (true, lv, b)
  | None => Fine (false, lv, b)
  end.

(** What [http], [server] and [location] do with any other directive. *)
Definition other_directive (scope : Scope) (s : Level * Builder) (d : Directive) : outcome (Level * Builder) :=
  '(known, lv, b) ← level_directive (snd s) (fst s) d scope;
  Fine (lv, if (known : bool) then b else note_unsupported d b).

(** ** No directive aborts the load

    Only a compound time past [u64::MAX] seconds, and a [return] without
    arguments inside an [if], cause a panic. *)

Lemma quiet_parse_return d : args d ≠ [] → quiet (parse_return d).
Proof.
  intros Hd. assert (0 < length (args d))%nat by (destruct (args d); [done | cbn; lia]).
  unfold parse_return. quiet.
Qed.
Lemma quiet_rewrite_of d : quiet (rewrite_of d).
Proof. unfold rewrite_of. quiet. Qed.
Lemma quiet_set_of d : quiet (set_of d).
Proof. unfold set_of, set_target. quiet. Qed.
Lemma quiet_header_of d : quiet (header_of d).
Proof. unfold header_of. quiet. Qed.
Lemma quiet_word d : quiet (word d).
Proof. unfold word. quiet. Qed.
Lemma quiet_flag d : quiet (flag d).
Proof. unfold flag. quiet. Qed.
Lemma word_elem d a : word d = Fine a → a ∈ args d.
Proof. unfold word. intros (u & _ & H)%outcome_bind_fine. by eapply nth_arg_elem. Qed.

(** [parse_return] only makes a [Return]: the [unreachable!] is. *)
Lemma parse_return_returns d a : parse_return d = Fine a → ∃ status body, a = Return status body.
Proof.
  unfold parse_return. intros (first & _ & H)%outcome_bind_fine. destruct (_ || _).
  - case_decide; [done |]. simplify_eq. eauto.
  - apply outcome_bind_fine in H as (s & _ & [= <-]). eauto.
Qed.
Local Hint Resolve quiet_parse_return quiet_rewrite_of quiet_set_of quiet_header_of quiet_word quiet_flag : quiet.

Lemma quiet_if_action c : (name c = str "return" → args c ≠ []) → quiet (if_action c).
Proof.
  intros Hc. unfold if_action. destruct (decide (name c = str "return")) as [E|]; [|quiet].
  apply quiet_bind; [auto with quiet |]. intros a Ha. by apply parse_return_returns in Ha as (s & b & ->).
Qed.

Lemma quiet_cond_of parts d : quiet (cond_of parts d).
Proof. unfold cond_of, var_operand. quiet. Qed.

Lemma quiet_if_block d : tame d → quiet (if_block d).
Proof.
  intros [_ Hc]. unfold if_block. apply quiet_bind; [|intros parts _; apply quiet_bind; [apply quiet_cond_of |]].
  - unfold cond_parts. quiet.
  - intros c _. apply quiet_bind; [|done]. apply quiet_collect. intros a Ha. apply quiet_if_action.
    rewrite Forall_forall in Hc. by apply Hc.
Qed.

(** What an arm keeps to: it is quiet on a tame directive. *)
Definition arm_quiet (x : Arm) : Prop := ∀ b lv d scope, tame d → quiet (x b lv d scope).

Lemma core_arm_quiet f : (∀ c d, tame d → quiet (f c d)) → arm_quiet (core_arm f).
Proof. intros Hf b lv d scope Hd. unfold core_arm. apply quiet_bind; [auto | done]. Qed.
Lemma level_arm_quiet f : (∀ lv d, tame d → quiet (f lv d)) → arm_quiet (level_arm f).
Proof. intros Hf b lv d scope Hd. unfold level_arm. apply quiet_bind; [auto | done]. Qed.
Lemma set_arm_quiet {A} (f : CoreLayer Regex → option A) (H : Setter f) read :
  (∀ d, tame d → quiet (read d)) → arm_quiet (set_arm f read).
Proof. intros Hr. apply core_arm_quiet. intros c d Hd. apply quiet_bind; [auto | done]. Qed.
Lemma push_arm_quiet {A} (f : CoreLayer Regex → option (list A)) (H : Setter f) read :
  (∀ d, tame d → quiet (read d)) → arm_quiet (push_arm f read).
Proof. intros Hr. apply core_arm_quiet. intros c d Hd. apply quiet_bind; [auto | done]. Qed.
Lemma number_arm_quiet (f : CoreLayer Regex → option Z) (H : Setter f) max : arm_quiet (number_arm f max).
Proof. apply core_arm_quiet. intros c d _. quiet. Qed.
Lemma ignored_quiet : arm_quiet ignored.
Proof. done. Qed.
Lemma action_arm_quiet read : (∀ d, tame d → quiet (read d)) → arm_quiet (action_arm read).
Proof. intros Hr. apply level_arm_quiet. intros lv d Hd. apply quiet_bind; [auto | done]. Qed.
Local Hint Resolve core_arm_quiet level_arm_quiet set_arm_quiet push_arm_quiet number_arm_quiet ignored_quiet
  action_arm_quiet quiet_if_block : quiet.

Lemma core_arms_quiet : Forall arm_quiet (snd <$> core_arms).
Proof.
  cbn. once (repeat constructor); cbn [snd];
    try first [apply set_arm_quiet; intros d Hd | apply number_arm_quiet | apply core_arm_quiet; intros c d Hd];
    unfold server_tokens_of, if_modified_since_of, count_and_size, time0, size0, word_or_off; try by quiet.
  intros b lv d scope Hd. unfold alias_arm. case_decide; [done |]. apply set_arm_quiet; [|done]. intros. quiet.
Qed.

Lemma fastcgi_arms_quiet : Forall arm_quiet (snd <$> fastcgi_arms).
Proof.
  cbn. once (repeat constructor); cbn [snd];
    try first [apply set_arm_quiet; intros d Hd | apply push_arm_quiet; intros d Hd | apply ignored_quiet];
    unfold fastcgi_param_of, fastcgi_split_of, auth_request_of, auth_request_set_of, fastcgi_buffers_of, time0, size0; try by quiet.
  apply level_arm_quiet. intros lv d Hd. unfold parse_fastcgi_target. quiet.
Qed.

Lemma quiet_cache_valid_codes d l codes : quiet (cache_valid_codes d l codes).
Proof.
  revert codes. induction l as [|a l IH]; intros codes; cbn [cache_valid_codes]; [done |].
  case_decide; [done |]. destruct (parse_uint _ a); [apply IH | done].
Qed.

Lemma quiet_use_stale_of d : quiet (use_stale_of d).
Proof.
  unfold use_stale_of. apply quiet_bind; [quiet |]. intros _ _. generalize (@nil Cache.StaleWhen).
  induction (args d) as [|a l IH]; intros conds; cbn [stale_conds]; [done |].
  destruct (Cache.parse_stale a); [apply IH |]. by case_decide.
Qed.
Local Hint Resolve quiet_cache_valid_codes quiet_use_stale_of : quiet.

Lemma cache_arms_quiet : Forall arm_quiet (snd <$> cache_arms).
Proof.
  cbn. once (repeat constructor); cbn [snd];
    try first [apply set_arm_quiet; intros d Hd | apply push_arm_quiet; intros d Hd | apply number_arm_quiet | apply ignored_quiet];
    unfold cache_valid_of, templates_of, time0, word_or_off; by quiet.
Qed.

Lemma quiet_limit_req_of d : quiet (limit_req_of d).
Proof.
  unfold limit_req_of. apply quiet_bind; [quiet |]. intros _ _. apply quiet_bind; [|intros; quiet].
  apply quiet_each. intros lr a _. unfold limit_req_arg, scaled. quiet.
Qed.

Lemma quiet_open_file_cache_of d : tame d → quiet (open_file_cache_of d).
Proof.
  intros Hd. unfold open_file_cache_of. do 2 (apply quiet_bind; [quiet | intros]). case_decide; [done |].
  apply quiet_bind; [|intros; quiet]. apply quiet_each. intros o s Hs. unfold open_file_cache_arg.
  destruct (strip_prefix (str "max=") s); [quiet |].
  destruct (strip_prefix (str "inactive=") s) as [v|] eqn:Ev; [|done].
  apply quiet_time_or; [by eapply tame_strip | done].
Qed.
Local Hint Resolve quiet_limit_req_of quiet_open_file_cache_of : quiet.

Lemma limit_arms_quiet : Forall arm_quiet (snd <$> limit_arms).
Proof.
  cbn. once (repeat constructor); cbn [snd];
    try first [apply set_arm_quiet; intros d Hd | apply push_arm_quiet; intros d Hd | apply number_arm_quiet | apply ignored_quiet];
    unfold limit_conn_of, refusal_status, count_and_size, time0; by quiet.
Qed.

Lemma quiet_expires_of d : tame d → quiet (expires_of d).
Proof.
  intros Hd. unfold expires_of. apply quiet_bind; [quiet |]. intros _ H%want_args_range_length.
  destruct (last (args d)) as [v|] eqn:El; [|apply last_None in El; rewrite El in H; cbn in H; lia].
  apply last_Some_elem_of in El. cbn [mbind outcome_bind]. repeat case_decide; try done. unfold secs_of.
  destruct (strip_prefix (str "@") v) eqn:Ea; [|destruct (strip_prefix (str "-") v) eqn:Em];
    (apply quiet_fmap, quiet_time_or; [eauto using tame_strip, tame_self | done]).
Qed.

Lemma quiet_sink_of b d a : quiet (sink_of b d a).
Proof.
  unfold sink_of. destruct (strip_prefix _ a); [|done]. apply quiet_bind; [|intros [ad db] _; by destruct ad].
  apply quiet_each. intros acc p _. unfold oxidb_param. quiet.
Qed.

Lemma access_log_quiet : arm_quiet access_log_arm.
Proof.
  intros b lv d scope Hd. unfold access_log_arm. do 2 (apply quiet_bind; [quiet | intros]). case_decide; [done |].
  apply quiet_bind; [apply quiet_sink_of | intros]. apply quiet_bind; [quiet | intros].
  apply quiet_bind; [|intros []; done]. apply quiet_each. intros acc p Hp. unfold log_param.
  assert (p ∈ args d) as Hp' by (rewrite <-(take_drop 2 (args d)); apply elem_of_app; by right).
  destruct (strip_prefix (str "buffer=") p); [done |]. destruct (strip_prefix (str "flush=") p) as [v|] eqn:Ev; [|done].
  destruct (parse_time v) eqn:E; [done |]. by eapply tame_strip in E.
Qed.
Local Hint Resolve quiet_expires_of access_log_quiet : quiet.

Lemma header_arms_quiet : Forall arm_quiet (snd <$> header_arms).
Proof.
  cbn. once (repeat constructor); cbn [snd];
    try first [apply set_arm_quiet; intros d Hd | apply push_arm_quiet; intros d Hd | apply number_arm_quiet | apply ignored_quiet | apply access_log_quiet];
    unfold size0; by quiet.
Qed.

Lemma quiet_targets d : args d ≠ [] → quiet (targets d).
Proof. unfold targets. intros Hd. destruct (last (args d)) eqn:E; [done |]. by apply last_None in E. Qed.

Lemma args_nonempty d lo hi u : want_args_range d (S lo) hi = Fine u → args d ≠ [].
Proof. intros H%want_args_range_length E. rewrite E in H. cbn in H. lia. Qed.

Lemma quiet_error_page_of d : quiet (error_page_of d).
Proof.
  unfold error_page_of. apply quiet_bind; [quiet |]. intros u H%args_nonempty.
  apply quiet_bind; [by apply quiet_targets |]. intros [l t] _. apply quiet_bind; [|intros []; done].
  apply quiet_each. intros acc a _. unfold error_page_arg. quiet.
Qed.

Lemma quiet_try_files_of d : quiet (try_files_of d).
Proof.
  unfold try_files_of. apply quiet_bind; [quiet |]. intros u H%args_nonempty.
  apply quiet_bind; [by apply quiet_targets |]. intros [l t] _. quiet.
Qed.

Lemma quiet_parse_proxy_pass s d : quiet (parse_proxy_pass s d).
Proof.
  unfold parse_proxy_pass. destruct (_ && _); [done |].
  apply quiet_bind; [by destruct (strip_prefix _ s); [|destruct (strip_prefix _ s)] |]. intros [t r] _.
  destruct (strip_prefix (str "unix:") r) as [after|]; [destruct (rfind _ after) | destruct (find _ r)]; by case_decide.
Qed.
Local Hint Resolve quiet_error_page_of quiet_try_files_of quiet_parse_proxy_pass : quiet.

Lemma level_arms_quiet : Forall arm_quiet (snd <$> level_arms).
Proof.
  cbn. once (repeat constructor); cbn [snd];
    first [apply action_arm_quiet; intros d Hd | apply level_arm_quiet; intros lv d Hd];
    unfold stub_status_of; try by quiet.
  apply quiet_bind; [quiet |]. intros u H%args_nonempty. by apply quiet_parse_return.
Qed.

Lemma proxy_arms_quiet : Forall arm_quiet (snd <$> proxy_arms).
Proof.
  cbn. once (repeat constructor); cbn [snd];
    try first [apply set_arm_quiet; intros d Hd | apply push_arm_quiet; intros d Hd | apply ignored_quiet];
    unfold proxy_header_of, tries_of, time0; try by quiet.
  unfold next_upstream_of. apply quiet_bind; [quiet |]. intros _ _. apply quiet_each.
  intros [] a _. unfold next_upstream_arg. quiet.
Qed.

Lemma arms_quiet : Forall arm_quiet (snd <$> arms).
Proof.
  unfold arms. rewrite !fmap_app, !Forall_app.
  eauto 10 using core_arms_quiet, fastcgi_arms_quiet, cache_arms_quiet, limit_arms_quiet, header_arms_quiet,
    level_arms_quiet, proxy_arms_quiet.
Qed.

Lemma level_directive_quiet b lv d scope : tame d → quiet (level_directive b lv d scope).
Proof.
  intros Hd. unfold level_directive. destruct (assoc (name d) arms) as [x|] eqn:E; [|done].
  apply quiet_bind; [|intros [] _; done]. pose proof arms_quiet as H. rewrite Forall_forall in H.
  apply H; [|done]. apply Vars.assoc_elem in E. apply list_elem_of_fmap. by exists (name d, x).
Qed.

Lemma quiet_other_directive scope s d : tame d → quiet (other_directive scope s d).
Proof.
  intros Hd. unfold other_directive. apply quiet_bind; [by apply level_directive_quiet |]. by intros [[[] ?] ?] _.
Qed.

(** No arm touches the locations set aside, nor the log formats. *)
Definition arm_keeps (x : Arm) : Prop :=
  ∀ b lv d scope lv' b', x b lv d scope = Fine (lv', b') →
    lv_locations lv' = lv_locations lv ∧ log_formats b' = log_formats b.

Lemma note_formats msg b : log_formats (note msg b) = log_formats b.
Proof. unfold note. by case_decide. Qed.

Lemma core_arm_keeps f : arm_keeps (core_arm f).
Proof. by intros b lv d scope lv' b' (c & _ & [= <- <-])%outcome_bind_fine. Qed.

Lemma level_arm_keeps f :
  (∀ lv d lv', f lv d = Fine lv' → lv_locations lv' = lv_locations lv) → arm_keeps (level_arm f).
Proof. intros Hf b lv d scope lv' b' (l & H & [= <- <-])%outcome_bind_fine. split; [by eapply Hf | done]. Qed.

Ltac keeps :=
  repeat first [apply core_arm_keeps | apply level_arm_keeps; intros lv d lv' | progress unfold set_arm, push_arm, number_arm, action_arm];
  try (intros (a & _ & [= <-])%outcome_bind_fine; done).

Lemma arms_keep : Forall arm_keeps (snd <$> arms).
Proof.
  unfold arms. rewrite !fmap_app, !Forall_app.
  repeat match goal with |- _ ∧ _ => split end; cbn;
    repeat first [apply Forall_nil_2 | apply Forall_cons_2]; cbn [snd];
    try first [by keeps | by (intros b lv d scope lv' b' H; unfold ignored, no_rule_engine in H; simplify_eq; rewrite ?note_formats)].
  - intros b lv d scope lv' b'. unfold alias_arm. case_decide; [done |]. by apply core_arm_keeps.
  - apply level_arm_keeps. intros lv d lv' (a & _ & (t & _ & [= <-])%outcome_bind_fine)%outcome_bind_fine. done.
  - intros b lv d scope lv' b'. unfold access_log_arm.
    intros (u & _ & (a & _ & H)%outcome_bind_fine)%outcome_bind_fine. revert H. case_decide; [by intros [= <- <-] |].
    intros (s & _ & (t & _ & ([] & _ & [= <- <-])%outcome_bind_fine)%outcome_bind_fine)%outcome_bind_fine. done.
Qed.

Lemma other_directive_kept scope s d s' :
  other_directive scope s d = Fine s' →
  lv_locations (fst s') = lv_locations (fst s) ∧ log_formats (snd s') = log_formats (snd s).
Proof.
  unfold other_directive. intros ([[known lv] b] & H & [= <-])%outcome_bind_fine. cbn. revert H. unfold level_directive.
  destruct (assoc (name d) arms) as [x|] eqn:E.
  - intros ([lv' b'] & H & [= <- <- <-])%outcome_bind_fine. pose proof arms_keep as Hk. rewrite Forall_forall in Hk.
    eapply Hk; [|exact H]. apply Vars.assoc_elem in E. apply list_elem_of_fmap. by exists (name d, x).
  - intros [= <- <- <-]. split; [done |]. apply note_formats.
Qed.

Lemma other_directive_keeps scope s d s' :
  other_directive scope s d = Fine s' → lv_locations (fst s') = lv_locations (fst s).
Proof. by intros [? _]%other_directive_kept. Qed.

(** Loading a configuration aborts on no directive of a block, whatever
    its name and arguments, where no argument holds a compound time past
    [u64::MAX] seconds and no [return] inside an [if] is left empty: every
    other mistake is a value or an error with its place. *)
Theorem directives_never_abort (b : Builder) (lv : Level) (d : Directive) (scope : Scope) :
  tame d → level_directive b lv d scope ≠ Panic.
Proof. apply level_directive_quiet. Qed.

(** A directive outside the table changes nothing but the notes. *)
Lemma unknown_noted scope b lv d :
  assoc (name d) arms = None → other_directive scope (lv, b) d = Fine (lv, note_unsupported d b).
Proof. intros H. unfold other_directive, level_directive. cbn [fst snd]. by rewrite H. Qed.

(** A note is made once. *)
Lemma note_nodup msg b : NoDup (unsupported b) → NoDup (unsupported (note msg b)).
Proof.
  intros H. unfold note. case_decide; [done |]. cbn. apply NoDup_app. split; [done |]. split; [|by apply NoDup_singleton].
  intros x Hx ->%list_elem_of_singleton. done.
Qed.

(** The names of the table are distinct, so the order of its arms is none. *)
Lemma arms_distinct : NoDup (fst <$> arms).
Proof. by apply (bool_decide_unpack _); vm_compute. Qed.

(** ** Addresses in [proxy_pass] *)

Lemma rsplit_once_app c a b : c ∉ b → rsplit_once c (a ++ c :: b) = Some (a, b).
Proof.
  intros Hb. unfold rsplit_once. rewrite rfind_last by done. cbn [mbind option_bind]. rewrite take_app_length.
  do 2 f_equal. change (a ++ c :: b) with (a ++ [c] ++ b). rewrite app_assoc. apply drop_app_length'.
  rewrite length_app. cbn. lia.
Qed.

Lemma find_app c a b : c ∉ a → find c (a ++ c :: b) = Some (length a).
Proof. apply position_first. Qed.

Lemma find_none c a : c ∉ a → find c a = None.
Proof. apply position_absent. Qed.

Lemma digits_exclude c n : 0 ≤ n → is_ascii_digit c = false → c ∉ fmt_u64 n.
Proof.
  intros Hn Hc Hin. destruct (fmt_u64_digits n Hn) as [Hd _]. rewrite Forall_forall in Hd. apply Hd in Hin. congruence.
Qed.

Lemma proxy_target_address tls host port :
  0 ≤ port ≤ 65535 → proxy_target tls (host ++ str ":" ++ fmt_u64 port) = ToAddr host port.
Proof.
  intros Hp. unfold proxy_target. change (str ":" ++ fmt_u64 port) with (":"%byte :: fmt_u64 port).
  rewrite rsplit_once_app by (by apply digits_exclude; [lia |]). by rewrite parse_fmt_u64 by (unfold u16_max; lia).
Qed.

Definition uri_template (uri : bytes) : option Template := if decide (uri = []) then None else Some (compile uri).

(** A host that is no path, has no port and is not the word [unix]. *)
Definition plain_host (host : bytes) : Prop := host ≠ [] ∧ "/"%byte ∉ host ∧ ":"%byte ∉ host ∧ host ≠ str "unix".

Lemma host_not_unix host r : plain_host host → strip_prefix (str "unix:") (host ++ ":"%byte :: r) = None.
Proof.
  intros (_ & _ & Hc & Hu). destruct (strip_prefix _ _) as [x|] eqn:E; [|done].
  apply strip_prefix_Some in E. change (str "unix:" ++ x) with (str "unix" ++ ":"%byte :: x) in E.
  pose proof (split_once_app ":"%byte host r Hc) as H1. rewrite E, split_once_app in H1; [|by vm_compute; intros H; set_solver].
  congruence.
Qed.

(** A [proxy_pass] to a scheme, a host, a port and a path is read back as
    exactly those, whatever they are. *)
Theorem proxy_pass_address (secure : bool) (host uri : bytes) (port : Z) (d : Directive) :
  plain_host host → 0 ≤ port ≤ 65535 → (uri = [] ∨ ∃ r, uri = "/"%byte :: r) →
  parse_proxy_pass ((if secure then str "https://" else str "http://") ++ host ++ str ":" ++ fmt_u64 port ++ uri) d
  = Fine (mkProxyPass (ToAddr host port) (uri_template uri) secure).
Proof.
  intros Hh Hp Hu. set (s := host ++ str ":" ++ fmt_u64 port ++ uri).
  assert (find "/"%byte s = match uri with [] => None | _ => Some (length (host ++ str ":" ++ fmt_u64 port)) end) as Hf.
  { destruct Hh as (_ & Hs & _). assert ("/"%byte ∉ host ++ str ":" ++ fmt_u64 port) as Hn.
    { rewrite !not_elem_of_app. split; [done |]. split; [vm_compute; set_solver | by apply digits_exclude; [lia |]]. }
    unfold s. destruct Hu as [->|[r ->]]; [by rewrite app_nil_r, find_none |].
    replace (host ++ str ":" ++ fmt_u64 port ++ "/"%byte :: r) with ((host ++ str ":" ++ fmt_u64 port) ++ "/"%byte :: r)
      by by rewrite <-!app_assoc.
    by apply find_app. }
  assert (strip_prefix (str "unix:") s = None) as Hx by by apply host_not_unix.
  assert (host ++ str ":" ++ fmt_u64 port ≠ []) as Hne by (destruct Hh as (? & _); by destruct host).
  unfold parse_proxy_pass.
  assert (absolute_url ((if secure then str "https://" else str "http://") ++ s) = true) as ->.
  { apply orb_true_iff. destruct secure; [right | left]; apply starts_with_spec; eauto. }
  rewrite andb_false_r.
  assert ((match strip_prefix (str "https://") ((if secure then str "https://" else str "http://") ++ s),
                 strip_prefix (str "http://") ((if secure then str "https://" else str "http://") ++ s) with
           | Some r, _ => Fine (true, r)
           | None, Some r => Fine (false, r)
           | None, None => bail d [str "invalid URL prefix in "; q (str "proxy_pass"); str " — expected http:// or https://"]
           end) = Fine (secure, s)) as -> by by destruct secure.
  cbn [mbind outcome_bind]. rewrite Hx, Hf. unfold s, uri_template. destruct Hu as [->|[r ->]].
  - rewrite app_nil_r, decide_False by done. rewrite proxy_target_address by done. done.
  - replace (host ++ str ":" ++ fmt_u64 port ++ "/"%byte :: r) with ((host ++ str ":" ++ fmt_u64 port) ++ "/"%byte :: r)
      by by rewrite <-!app_assoc.
    rewrite take_app_length, drop_app_length, decide_False by done. rewrite proxy_target_address by done. done.
Qed.
End level.

Arguments Level : clear implicits.
Arguments Arm : clear implicits.

#[export] Hint Resolve quiet_word quiet_flag quiet_targets level_directive_quiet
  quiet_other_directive : quiet.

(** ** Samples *)

(** A regular expression is its source here, with as many captures as
    parentheses. *)
#[local] Instance sample_crates : Crates bytes := {
  regex_new s := if decide (s = str "(") then Err (str "unclosed group") else Ok s;
  captures_len s := Z.of_nat (length (filter (λ c, c = "("%byte) s)) + 1;
  resolve _ _ := None;
  create_dir_all _ := Ok ()
}.

Definition directive (n : bytes) (a : list bytes) : Directive := mkDirective n a None 1 (str "nginx.conf").
Definition block (n : bytes) (a : list bytes) (c : list Directive) : Directive := mkDirective n a (Some c) 1 (str "nginx.conf").

Definition no_builder : Builder := mkBuilder [] ∅ [].

Definition read_in (scope : Scope) (ds : list Directive) : outcome (Level bytes * Builder) :=
  each (other_directive scope) (empty_level, no_builder) ds.

Lemma directives_never_abort_witness :
  level_directive no_builder (empty_level (Regex := bytes)) (directive (str "proxy_cache_valid") [str "200"; str "1h30m"]) ScopeLocation ≠ Panic.
Proof.
  apply directives_never_abort. split; [|constructor].
  repeat constructor; apply calm_check; reflexivity.
Defined.

Lemma proxy_pass_address_witness :
  parse_proxy_pass (str "http://backend.local:8080/api/") (directive (str "proxy_pass") [])
  = Fine (mkProxyPass (ToAddr (str "backend.local") 8080) (uri_template (str "/api/")) false).
Proof.
  apply (proxy_pass_address false (str "backend.local") (str "/api/") 8080); [|lia | right; by eexists].
  split; [done |]. repeat split; by apply (bool_decide_unpack _).
Defined.

(** A [return] without arguments inside an [if] aborts the load with an index
    panic, where at the level of a block it is an error. *)
Example empty_return_panics :
  read_in ScopeLocation [block (str "if") [str "($slow)"] [directive (str "return") []]] = Panic ∧
  read_in ScopeLocation [directive (str "return") []] ≠ Panic.
Proof. by split; vm_compute. Qed.

(** [charset off] is the same as no [charset] at all, so it does not take
    back the one of the block around it. *)
Example charset_off_inherits :
  (λ s, charset (resolve (lv_core (fst s)) (resolve (empty_layer <| l_charset := Some (str "utf-8") |>) default_core)))
    <$> read_in ScopeLocation [directive (str "charset") [str "off"]] = Fine (Some (str "utf-8")).
Proof. by vm_compute. Qed.

(** A burst past [2^64 / 1000] wraps to a small one. *)
Example burst_wraps :
  (λ s, l_limit_reqs (lv_core (fst s)))
    <$> read_in ScopeServer [directive (str "limit_req") [str "zone=z"; str "burst=18446744073709552"]]
  = Fine (Some [mkLimitReq (str "z") 384 false 0]).
Proof. by vm_compute. Qed.

(** A word where a number belongs is accepted and ignored. *)
Example bad_number_ignored :
  (λ s, (l_keepalive_requests (lv_core (fst s)), unsupported (snd s)))
    <$> read_in ScopeServer [directive (str "keepalive_requests") [str "1OO"]] = Fine (None, []).
Proof. by vm_compute. Qed.

(** [off] before another [access_log] does not turn it off, and the
    [collection=] of the comment is refused. *)
Example access_log_forms :
  (λ s, length <$> lv_access_logs (fst s))
    <$> each (other_directive (Regex := bytes) ScopeServer) (empty_level, no_builder <| log_formats := {[str "combined" := compile []]} |>)
          [directive (str "access_log") [str "off"]; directive (str "access_log") [str "/log"]] = Fine (Some 1%nat) ∧
  read_in ScopeServer [directive (str "access_log") [str "oxidb:server=h,collection=c"]]
  = Bad (mkBuildError (str "invalid parameter " ++ q (str "collection=c") ++ str " in " ++ q (str "access_log oxidb:")) (str "nginx.conf:1")).
Proof. by split; vm_compute. Qed.
