(* ===== verification/Listen.v ===== *)
(** * [src/config/build.rs]: [listen] lines and the sockets they make

    [listen] reads a line; [listeners] groups the lines of every server into
    one socket per address, in the order the addresses first appear. The
    grouping is shown to be the one a reader of the file would make
    ([listeners_group_by_address]). *)
From S2P Require Import Prelude.
From S2P Require Import Text.
From S2P Require Import Ast.
From S2P Require Import Args.
From S2P Require Import Addr.
From S2P Require Import Level.

Open Scope Z_scope.

(** ** [ListenAddr] and [ListenSpec] *)

Inductive ListenAddr := Tcp (a : SocketAddr) | Unix (path : bytes).
#[export] Instance ListenAddr_eq_dec : EqDecision ListenAddr.
Proof. solve_decision. Defined.

(** [ListenAddr::port] and its [Display] *)
Definition addr_port (a : ListenAddr) : Z := match a with Tcp a => a_port a | Unix _ => 0 end.
Definition fmt_listen (a : ListenAddr) : bytes := match a with Tcp a => fmt_socket a | Unix p => str "unix:" ++ p end.

Record ListenSpec := mkListen {
  addr : ListenAddr;
  default_server : bool;
  ssl : bool;
  http2 : bool;
  udp : bool;
  quic : bool;
  reuseport : bool;
  backlog : option Z;
  rcvbuf : option Z;
  sndbuf : option Z;
  ipv6_only : bool;
  deferred : bool
}.
#[export] Instance eta_listen : Eta ListenSpec := λ l,
  mkListen (addr l) (default_server l) (ssl l) (http2 l) (udp l) (quic l) (reuseport l) (backlog l)
    (rcvbuf l) (sndbuf l) (ipv6_only l) (deferred l).

Definition plain_listen (a : ListenAddr) : ListenSpec :=
  mkListen a false false false false false false None None None true false.

(** [s.parse::<i32>()] *)
Definition parse_i32 (s : bytes) : option Z :=
  match strip_prefix (str "-") s with
  | Some [] => None
  | Some r => Z.opp <$> parse_digits (2 ^ 31) 0 r
  | None => parse_uint (2 ^ 31 - 1) s
  end.

Section listen.
  Context {Regex : Type} `{!Crates Regex}.

(** [parse_listen_addr]; a host name is resolved. *)
Definition parse_listen_addr (s : bytes) : option SocketAddr :=
  match parse_uint u16_max s with
  | Some port => Some (mkAddr UNSPECIFIED port 0)
  | None =>
  match strip_prefix (str "*:") s with
  | Some rest => (λ port, mkAddr UNSPECIFIED port 0) <$> parse_uint u16_max rest
  | None =>
  match parse_socket s with
  | Some a => Some a
  | None =>
      if starts_with (str "[") s then
        stop ← find "]"%byte s;
        g ← parse_ipv6 (drop 1 (take stop s));
        let port := default 80 (strip_prefix (str ":") (drop (S stop) s) ≫= parse_uint u16_max) in
        Some (mkAddr (Ip6 g) port 0)
      else match parse_ip s with
      | Some a => Some (mkAddr a 80 0)
      | None => '(h, p) ← rsplit_once ":"%byte s; port ← parse_uint u16_max p; resolve h port
      end
  end end end.

(** The parameters that are on or off; a [quic] line is always TLS. *)
Definition listen_word (l : ListenSpec) (p : bytes) : option ListenSpec :=
  if decide (p = str "default_server" ∨ p = str "default") then Some (l <| default_server := true |>)
  else if decide (p = str "ssl") then Some (l <| ssl := true |>)
  else if decide (p = str "http2" ∨ p = str "spdy") then Some (l <| http2 := true |>)
  else if decide (p = str "udp") then Some (l <| udp := true |>)
  else if decide (p = str "quic" ∨ p = str "http3") then Some (l <| quic := true |> <| ssl := true |>)
  else if decide (p = str "reuseport") then Some (l <| reuseport := true |>)
  else if decide (p = str "deferred") then Some (l <| deferred := true |>)
  else if decide (p ∈ [str "bind"; str "fastopen"; str "accept_filter"; str "so_keepalive"; str "proxy_protocol"]) then Some l
  else None.

Definition listen_param (d : Directive) (l : ListenSpec) (p : bytes) : outcome ListenSpec :=
  match listen_word l p with
  | Some l => Fine l
  | None =>
  match strip_prefix (str "backlog=") p with
  | Some v => Fine (l <| backlog := parse_i32 v |>)
  | None =>
  match strip_prefix (str "rcvbuf=") p with
  | Some v => Fine (l <| rcvbuf := parse_size v |>)
  | None =>
  match strip_prefix (str "sndbuf=") p with
  | Some v => Fine (l <| sndbuf := parse_size v |>)
  | None =>
  match strip_prefix (str "ipv6only=") p with
  | Some v => Fine (l <| ipv6_only := bool_decide (v = str "on") |>)
  | None =>
      if starts_with (str "so_keepalive=") p || starts_with (str "fastopen=") p then Fine l
      else bail d [str "invalid parameter "; q p; str " in "; q (str "listen"); str " directive"]
  end end end end end.

Definition listen (d : Directive) : outcome ListenSpec :=
  want_args_range d 1 16 ;; spec ← nth_arg d 0;
  a ← match strip_prefix (str "unix:") spec with
      | Some [] => bail d [str "empty path in "; q (str "listen unix:")]
      | Some path => Fine (Unix path)
      | None => Tcp <$> or_bail d [str "invalid listen address "; q spec] (parse_listen_addr spec)
      end;
  l ← each (listen_param d) (plain_listen a) (drop 1 (args d));
  match quic l, addr l with
  | true, Unix _ => bail d [q (str "quic"); str " cannot be used with a unix: listen address"]
  | _, _ => Fine l
  end.

Lemma quiet_listen d : quiet (listen d).
Proof.
  unfold listen. apply quiet_bind; [quiet |]. intros u H%want_args_range_length.
  apply quiet_bind; [apply quiet_nth_arg; lia |]. intros spec _. apply quiet_bind.
  - destruct (strip_prefix _ spec) as [[|]|]; [done | done |]. apply quiet_fmap, quiet_or_bail.
  - intros a _. apply quiet_bind; [|intros l _; destruct (quic l), (addr l); done].
    apply quiet_each. intros l p _. unfold listen_param. quiet.
Qed.
End listen.

(** ** [listeners] *)

Section listeners.
  Context {Server : Type} (listens : Server → list ListenSpec) (line : Server → Z).

Record Listener := mkListener {
  l_addr : ListenAddr;
  l_backlog : Z;
  l_reuseport : bool;
  l_ssl : bool;
  l_http2 : bool;
  l_quic : bool;
  l_ipv6_only : bool;
  l_deferred : bool;
  l_rcvbuf : option Z;
  l_sndbuf : option Z;
  l_servers : list Server;
  l_default_server : nat
}.

Record Acc := mkAcc { acc_spec : ListenSpec; acc_servers : list Server; acc_default : option nat }.

Definition or_else {A} (a b : option A) : option A := match a with Some _ => a | None => b end.

(** What a later line of the same address adds to the socket's options. *)
Definition merge (e l : ListenSpec) : ListenSpec :=
  mkListen (addr e) (default_server e) (ssl e || ssl l) (http2 e || http2 l) (udp e) (quic e || quic l)
    (reuseport e || reuseport l) (or_else (backlog e) (backlog l)) (or_else (rcvbuf e) (rcvbuf l))
    (or_else (sndbuf e) (sndbuf l)) (ipv6_only e) (deferred e || deferred l).

(** One turn of the inner loop *)
Definition add_line (want_quic : bool) (by_addr : list (ListenAddr * Acc)) (x : Server * ListenSpec) :
    outcome (list (ListenAddr * Acc)) :=
  let '(s, l) := x in
  if decide (quic l ≠ want_quic) then Fine by_addr
  else
    let by_addr :=
      match list_find (λ p, fst p = addr l) by_addr with
      | Some _ => by_addr
      | None => by_addr ++ [(addr l, mkAcc l [] None)]
      end in
    match list_find (λ p, fst p = addr l) by_addr with
    | None => Panic
    | Some (i, (a, acc)) =>
        let spec := merge (acc_spec acc) l in
        let put d := Fine (<[i := (a, mkAcc spec (acc_servers acc ++ [s]) d)]> by_addr) in
        if default_server l then
          match acc_default acc with
          | Some _ => Bad (mkBuildError (str "a duplicate default server for " ++ fmt_listen (addr l))
                            (str "server at line " ++ fmt_u64 (line s)))
          | None => put (Some (length (acc_servers acc)))
          end
        else put (acc_default acc)
    end.

Definition listener_of (p : ListenAddr * Acc) : Listener :=
  let '(a, acc) := p in
  let s := acc_spec acc in
  mkListener a (default 511 (backlog s)) (reuseport s) (ssl s) (http2 s) (quic s) (ipv6_only s) (deferred s)
    (rcvbuf s) (sndbuf s) (acc_servers acc) (default 0%nat (acc_default acc)).

Definition all_lines (servers : list Server) : list (Server * ListenSpec) :=
  servers ≫= λ s, (λ l, (s, l)) <$> listens s.

Definition listeners (servers : list Server) (want_quic : bool) : outcome (list Listener) :=
  (λ by_addr : list (ListenAddr * Acc), listener_of <$> by_addr)
    <$> each (add_line want_quic) [] (all_lines servers).

(** ** The reference: what the lines of an address make together *)

(** The first occurrences, in order. *)
Definition firsts (l : list ListenAddr) : list ListenAddr :=
  foldl (λ acc a, if decide (a ∈ acc) then acc else acc ++ [a]) [] l.

Definition of_kind (want : bool) (ls : list (Server * ListenSpec)) : list (Server * ListenSpec) :=
  filter (λ x, quic (snd x) = want) ls.

Definition at_addr (a : ListenAddr) (ls : list (Server * ListenSpec)) : list (Server * ListenSpec) :=
  filter (λ x, addr (snd x) = a) ls.

Definition defaults (ls : list (Server * ListenSpec)) : list (Server * ListenSpec) :=
  filter (λ x, default_server (snd x) = true) ls.

(** The options of the first line, merged with those of every other; the
    servers in file order; the place of the line marked default. *)
Definition group (g : list (Server * ListenSpec)) (a : ListenAddr) : Acc :=
  mkAcc (foldl merge (default (plain_listen a) (snd <$> head g)) (snd <$> g)) (fst <$> g)
    (fst <$> list_find (λ x, default_server (snd x) = true) g).

Definition reference (ls : list (Server * ListenSpec)) : list (ListenAddr * Acc) :=
  (λ a, (a, group (at_addr a ls) a)) <$> firsts (addr ∘ snd <$> ls).

Definition one_default (ls : list (Server * ListenSpec)) : Prop :=
  ∀ a, (length (defaults (at_addr a ls)) ≤ 1)%nat.

Lemma firsts_snoc l a : firsts (l ++ [a]) = if decide (a ∈ firsts l) then firsts l else firsts l ++ [a].
Proof. unfold firsts. by rewrite foldl_snoc. Qed.

Lemma firsts_nodup l : NoDup (firsts l).
Proof.
  induction l as [|a l IH] using rev_ind; [constructor |]. rewrite firsts_snoc. case_decide; [done |].
  apply NoDup_app. split; [done |]. split; [|by apply NoDup_singleton]. by intros x Hx ->%list_elem_of_singleton.
Qed.

Lemma elem_of_firsts l a : a ∈ firsts l ↔ a ∈ l.
Proof.
  induction l as [|b l IH] using rev_ind; [done |]. rewrite firsts_snoc, elem_of_app, list_elem_of_singleton.
  case_decide; [|rewrite elem_of_app, list_elem_of_singleton]; rewrite IH; [|done].
  split; [by left |]. intros [Hb|Hb]; [done |]. subst. by apply IH.
Qed.

Lemma at_addr_snoc a ls x : at_addr a (ls ++ [x]) = if decide (addr (snd x) = a) then at_addr a ls ++ [x] else at_addr a ls.
Proof.
  unfold at_addr. rewrite filter_app, filter_cons, filter_nil. case_decide; [done |]. by rewrite app_nil_r.
Qed.

Lemma at_addr_nil a ls : a ∉ (addr ∘ snd <$> ls) → at_addr a ls = [].
Proof.
  intros H. unfold at_addr. induction ls as [|x ls IH]; [done |].
  apply not_elem_of_cons in H as [Hx H]. rewrite filter_cons, decide_False by (by cbn in Hx; intros <-). auto.
Qed.

Lemma merge_self l : merge l l = l.
Proof.
  destruct l as [a d s h u q r b rc sn i de]. unfold merge. cbn.
  rewrite !orb_diag. by destruct b, rc, sn.
Qed.

Lemma list_find_snoc_nil {A} (P : A → Prop) `{∀ x, Decision (P x)} l x :
  list_find P (l ++ [x]) = match list_find P l with Some p => Some p | None => if decide (P x) then Some (length l, x) else None end.
Proof.
  induction l as [|y l IH]; cbn [app list_find].
  - done.
  - destruct (decide (P y)); [done |]. rewrite IH. destruct (list_find P l) as [[]|]; [done |]. cbn. by destruct (decide (P x)).
Qed.

(** A line joins the group of its address. *)
Lemma group_snoc g x a :
  group (g ++ [x]) a =
  mkAcc (merge (match g with [] => snd x | _ => acc_spec (group g a) end) (snd x)) (acc_servers (group g a) ++ [fst x])
    (match acc_default (group g a) with Some i => Some i | None => if decide (default_server (snd x) = true) then Some (length g) else None end).
Proof.
  unfold group. cbn [acc_spec acc_servers acc_default]. rewrite !fmap_app, list_find_snoc_nil. f_equal.
  - cbn [fmap list_fmap]. rewrite foldl_snoc. by destruct g as [|y g].
  - destruct (list_find _ g) as [[]|]; [done |]. cbn. by case_decide.
Qed.

(** Finding and replacing an entry of a keyed list *)
Lemma keyed_find_none {B} (f : ListenAddr → B) (l : list ListenAddr) a :
  a ∉ l → list_find (λ p, fst p = a) ((λ b, (b, f b)) <$> l) = None.
Proof.
  induction l as [|b l IH]; [done |]. intros [Hb Hl]%not_elem_of_cons. cbn [fmap list_fmap list_find].
  rewrite decide_False by (by cbn; intros <-). by rewrite IH.
Qed.

Lemma keyed_find {B} (f : ListenAddr → B) (l : list ListenAddr) i a :
  NoDup l → l !! i = Some a → list_find (λ p, fst p = a) ((λ b, (b, f b)) <$> l) = Some (i, (a, f a)).
Proof.
  revert i. induction l as [|b l IH]; intros i Hn Hi; [done |]. apply NoDup_cons in Hn as [Hb Hn].
  cbn [fmap list_fmap list_find]. destruct i as [|i]; cbn in Hi.
  - simplify_eq. by rewrite decide_True.
  - rewrite decide_False by (cbn; intros ->; by apply list_elem_of_lookup_2 in Hi). by rewrite (IH i).
Qed.

Lemma keyed_insert {B} (f : ListenAddr → B) (l : list ListenAddr) i a v :
  NoDup l → l !! i = Some a →
  <[i := (a, v)]> ((λ b, (b, f b)) <$> l) = (λ b, (b, if decide (b = a) then v else f b)) <$> l.
Proof.
  revert i. induction l as [|b l IH]; intros i Hn Hi; [done |]. apply NoDup_cons in Hn as [Hb Hn].
  destruct i as [|i]; cbn in Hi |- *.
  - simplify_eq. rewrite decide_True by done. f_equal. apply list_fmap_ext. intros j c Hc.
    rewrite decide_False; [done |]. intros ->. by apply list_elem_of_lookup_2 in Hc.
  - rewrite decide_False by (intros ->; by apply list_elem_of_lookup_2 in Hi). f_equal. by apply IH.
Qed.

(** The entry a line of address [a] joins *)
Definition base (g : list (Server * ListenSpec)) (l : ListenSpec) (a : ListenAddr) : Acc :=
  match g with [] => mkAcc l [] None | _ => group g a end.

Lemma at_addr_elem a ls : a ∈ (addr ∘ snd <$> ls) → at_addr a ls ≠ [].
Proof.
  intros (x & -> & Hx)%list_elem_of_fmap E. assert (x ∈ at_addr (addr (snd x)) ls) as H by by apply list_elem_of_filter.
  unfold compose in E. rewrite E in H. by apply not_elem_of_nil in H.
Qed.

(** The entries once the line's address has one. *)
Lemma opened_entries ls (x : Server * ListenSpec) :
  let a := addr (snd x) in
  match list_find (λ p, fst p = a) (reference ls) with
  | Some _ => reference ls
  | None => reference ls ++ [(a, mkAcc (snd x) [] None)]
  end = (λ b, (b, if decide (b = a) then base (at_addr a ls) (snd x) a else group (at_addr b ls) b))
          <$> firsts (addr ∘ snd <$> (ls ++ [x])).
Proof.
  intros a. rewrite fmap_app. cbn [fmap list_fmap]. rewrite firsts_snoc. change ((addr ∘ snd) x) with a. unfold reference.
  destruct (decide (a ∈ firsts (addr ∘ snd <$> ls))) as [Ha|Ha].
  - apply list_elem_of_lookup_1 in Ha as Hi. destruct Hi as [i Hi]. rewrite (keyed_find _ _ i) by (done || apply firsts_nodup).
    apply list_fmap_ext. intros j b _. case_decide as E; [|done]. subst b. f_equal. unfold base.
    apply elem_of_firsts, at_addr_elem in Ha. by destruct (at_addr a ls).
  - rewrite keyed_find_none by done. rewrite fmap_app. cbn [fmap list_fmap]. rewrite decide_True by done. f_equal.
    + apply list_fmap_ext. intros j b Hb. rewrite decide_False; [done |]. intros ->. by apply list_elem_of_lookup_2 in Hb.
    + unfold base. rewrite at_addr_nil; [done |]. by rewrite <-elem_of_firsts.
Qed.

Definition taken (ls : list (Server * ListenSpec)) (l : ListenSpec) : Prop :=
  default_server l = true ∧ defaults (at_addr (addr l) ls) ≠ [].

Lemma group_default g a : acc_default (group g a) = None ↔ defaults g = [].
Proof.
  unfold group, defaults. cbn [acc_default]. destruct (list_find _ g) as [[i y]|] eqn:E; cbn.
  - split; [done |]. intros Hn. apply list_find_Some in E as (Hi & Hy & _). apply list_elem_of_lookup_2 in Hi.
    assert (y ∈ filter (λ x, default_server (snd x) = true) g) as H by by apply list_elem_of_filter.
    rewrite Hn in H. by apply not_elem_of_nil in H.
  - split; [|done]. intros _. apply list_find_None in E. induction E as [|y l Hy _ IH]; [done |].
    by rewrite filter_cons, decide_False.
Qed.

Lemma base_default g l a : acc_default (base g l a) = acc_default (group g a).
Proof. by destruct g. Qed.
Lemma base_servers g l a : acc_servers (base g l a) = acc_servers (group g a).
Proof. by destruct g. Qed.
Lemma base_spec g l a : acc_spec (base g l a) = match g with [] => l | _ => acc_spec (group g a) end.
Proof. by destruct g. Qed.

(** One line takes the reference for the lines before it to the reference
    with it, unless its address has its default already. *)
Lemma add_line_joins want ls (x : Server * ListenSpec) :
  quic (snd x) = want → ¬ taken ls (snd x) → add_line want (reference ls) x = Fine (reference (ls ++ [x])).
Proof.
  destruct x as [s l]. cbn [snd]. intros Hq Ht. unfold add_line. rewrite decide_False by (by rewrite Hq; intros []).
  pose proof (opened_entries ls (s, l)) as Ho. cbn [snd] in Ho. cbv zeta in Ho. rewrite Ho. clear Ho. set (a := addr l). set (L := firsts _).
  assert (a ∈ L) as [i Hi]%list_elem_of_lookup_1.
  { apply elem_of_firsts. rewrite fmap_app. apply elem_of_app. right. by apply list_elem_of_singleton. }
  rewrite (keyed_find _ _ i) by (done || apply firsts_nodup). rewrite decide_True by done.
  rewrite base_default, base_servers.
  assert (∀ d, (match acc_default (group (at_addr a ls) a) with Some j => Some j | None => if decide (default_server l = true) then Some (length (at_addr a ls)) else None end) = d →
    <[i := (a, mkAcc (merge (acc_spec (base (at_addr a ls) l a)) l) (acc_servers (group (at_addr a ls) a) ++ [s]) d)]>
      ((λ b, (b, if decide (b = a) then base (at_addr a ls) l a else group (at_addr b ls) b)) <$> L) = reference (ls ++ [(s, l)])) as Hput.
  { intros d Hd. rewrite keyed_insert by (done || apply firsts_nodup). unfold reference. fold L. apply list_fmap_ext.
    intros j b _. f_equal. rewrite at_addr_snoc. cbn [snd]. fold a. destruct (decide (b = a)) as [->|Hb].
    - rewrite decide_True by done. rewrite group_snoc, base_spec. cbn [fst snd]. by rewrite Hd.
    - by rewrite decide_False by (intros E; by apply Hb). }
  assert (length (acc_servers (group (at_addr a ls) a)) = length (at_addr a ls)) as Hlen by (cbn; by rewrite length_fmap).
  destruct (acc_default (group (at_addr a ls) a)) as [j|] eqn:Ed.
  - destruct (default_server l) eqn:Eb; [|by rewrite (Hput (Some j))].
    exfalso. apply Ht. split; [done |]. fold a. intros Hn. apply (group_default _ a) in Hn. congruence.
  - rewrite Hlen. destruct (default_server l) eqn:Eb; by rewrite Hput by by destruct (decide _).
Qed.

Lemma add_line_clash want ls (x : Server * ListenSpec) :
  quic (snd x) = want → taken ls (snd x) → ∃ e, add_line want (reference ls) x = Bad e.
Proof.
  destruct x as [s l]. cbn [snd]. intros Hq [Hd Hn]. unfold add_line. rewrite decide_False by (by rewrite Hq; intros []).
  pose proof (opened_entries ls (s, l)) as Ho. cbn [snd] in Ho. cbv zeta in Ho. rewrite Ho. clear Ho. set (a := addr l) in *. set (L := firsts _).
  assert (a ∈ L) as [i Hi]%list_elem_of_lookup_1.
  { apply elem_of_firsts. rewrite fmap_app. apply elem_of_app. right. by apply list_elem_of_singleton. }
  rewrite (keyed_find _ _ i) by (done || apply firsts_nodup). rewrite decide_True by done.
  rewrite base_default, Hd. destruct (acc_default (group (at_addr a ls) a)) eqn:Ed; [eauto |].
  by apply group_default in Ed.
Qed.

Lemma defaults_snoc a ls (x : Server * ListenSpec) :
  length (defaults (at_addr a (ls ++ [x]))) =
  (length (defaults (at_addr a ls)) + if decide (addr (snd x) = a ∧ default_server (snd x) = true) then 1 else 0)%nat.
Proof.
  rewrite at_addr_snoc. destruct (decide (addr (snd x) = a)) as [E|E].
  - unfold defaults at 1. rewrite filter_app, length_app, filter_cons, filter_nil. fold (defaults (at_addr a ls)).
    destruct (decide (default_server (snd x) = true)).
    + by rewrite (decide_True (P := _ ∧ _)).
    + by rewrite (decide_False (P := _ ∧ _)) by naive_solver.
  - rewrite (decide_False (P := _ ∧ _)) by naive_solver. lia.
Qed.

Lemma one_default_snoc ls (x : Server * ListenSpec) : one_default (ls ++ [x]) ↔ one_default ls ∧ ¬ taken ls (snd x).
Proof.
  unfold one_default, taken. split.
  - intros H. split.
    + intros a. specialize (H a). rewrite defaults_snoc in H. lia.
    + intros [Hd Hn]. specialize (H (addr (snd x))). rewrite defaults_snoc, decide_True in H by done.
      destruct (defaults _); [done | cbn in H; lia].
  - intros [H Hn] a. rewrite defaults_snoc. specialize (H a). destruct (decide _) as [[E Hd]|]; [|lia]. subst a.
    destruct (decide (defaults (at_addr (addr (snd x)) ls) = [])) as [->|]; [done |]. exfalso. by apply Hn.
Qed.

Lemma one_default_em ls : one_default ls ∨ ¬ one_default ls.
Proof.
  induction ls as [|x ls IH] using rev_ind; [left; intros a; cbn; lia |]. rewrite one_default_snoc. unfold taken.
  destruct (decide (default_server (snd x) = true ∧ defaults (at_addr (addr (snd x)) ls) ≠ [])); naive_solver.
Qed.

Lemma of_kind_snoc want ls (x : Server * ListenSpec) :
  of_kind want (ls ++ [x]) = if decide (quic (snd x) = want) then of_kind want ls ++ [x] else of_kind want ls.
Proof. unfold of_kind. rewrite filter_app, filter_cons, filter_nil. case_decide; [done |]. by rewrite app_nil_r. Qed.

Lemma each_reference want ls :
  (one_default (of_kind want ls) → each (add_line want) [] ls = Fine (reference (of_kind want ls))) ∧
  (¬ one_default (of_kind want ls) → ∃ e, each (add_line want) [] ls = Bad e).
Proof.
  induction ls as [|x ls [IH1 IH2]] using rev_ind.
  - split; [done |]. intros []. intros a. cbn. lia.
  - rewrite of_kind_snoc, each_app. destruct (decide (quic (snd x) = want)) as [Hq|Hq].
    + rewrite one_default_snoc. split.
      * intros [H Ht]. rewrite (IH1 H). cbn [mbind outcome_bind each]. by rewrite add_line_joins.
      * intros Hn. destruct (one_default_em (of_kind want ls)) as [H|H].
        -- rewrite (IH1 H). cbn [mbind outcome_bind each].
           destruct (add_line_clash want (of_kind want ls) x Hq) as [e ->]; [|by eexists].
           unfold taken in *. destruct (decide (default_server (snd x) = true ∧ defaults (at_addr (addr (snd x)) (of_kind want ls)) ≠ [])) as [|Hc]; [done |].
           exfalso. by apply Hn.
        -- destruct (IH2 H) as [e ->]. by eexists.
    + assert (∀ r, add_line want r x = Fine r) as Hskip by (intros r; destruct x; cbn; by rewrite decide_True).
      split; [intros H; rewrite (IH1 H); cbn; by rewrite Hskip | intros H; destruct (IH2 H) as [e ->]; by eexists].
Qed.

(** ** The reference *)

(** An option given by any line is on; a value is that of the first line that
    gives one. *)
Definition any_line (f : ListenSpec → bool) (g : list (Server * ListenSpec)) : bool := existsb (f ∘ snd) g.
Definition first_given (f : ListenSpec → option Z) (g : list (Server * ListenSpec)) : option Z := head (omap (f ∘ snd) g).

(** [ipv6only=] as the code has it, which is the first line's, and as the
    comment on the options has it ("whichever listen line sets them [...] the
    first non-default"), which is off where any line turns it off. *)
Definition first_line_says (g : list (Server * ListenSpec)) : bool := default true (ipv6_only ∘ snd <$> head g).
Definition whichever_says (g : list (Server * ListenSpec)) : bool := forallb (ipv6_only ∘ snd) g.

(** The lines of an address say the same of [ipv6only=]. *)
Definition v6_agrees (ls : list (Server * ListenSpec)) : Prop :=
  ∀ x y, x ∈ ls → y ∈ ls → addr (snd x) = addr (snd y) → ipv6_only (snd x) = ipv6_only (snd y).

(** The socket of an address, from its lines. *)
Definition socket (v6 : list (Server * ListenSpec) → bool) (a : ListenAddr) (g : list (Server * ListenSpec)) : Listener :=
  mkListener a (default 511 (first_given backlog g)) (any_line reuseport g) (any_line ssl g) (any_line http2 g)
    (any_line quic g) (v6 g) (any_line deferred g) (first_given rcvbuf g)
    (first_given sndbuf g) (fst <$> g) (default 0%nat (fst <$> list_find (λ x, default_server (snd x) = true) g)).

Definition sockets (v6 : list (Server * ListenSpec) → bool) (ls : list (Server * ListenSpec)) : list Listener :=
  (λ a, socket v6 a (at_addr a ls)) <$> firsts (addr ∘ snd <$> ls).

Lemma v6_agreed ls : v6_agrees ls → sockets first_line_says ls = sockets whichever_says ls.
Proof.
  intros Hv. unfold sockets. apply list_fmap_ext. intros i a Ha. unfold socket. f_equal.
  assert (∀ x y, x ∈ at_addr a ls → y ∈ at_addr a ls → ipv6_only (snd x) = ipv6_only (snd y)) as Hg.
  { intros x y [Hx ?]%list_elem_of_filter [Hy ?]%list_elem_of_filter. apply Hv; congruence. }
  revert Hg. generalize (at_addr a ls). intros [|x g] Hg; [done |]. unfold first_line_says, whichever_says. cbn.
  destruct (ipv6_only (snd x)) eqn:Ex; [|done]. symmetry. apply forallb_forall. intros y Hy. cbn. rewrite <- Ex.
  symmetry. apply Hg; [left | by right; apply list_elem_of_In].
Qed.

Lemma foldl_merge_any (f : ListenSpec → bool) (g : list (Server * ListenSpec)) l :
  (∀ a b, f (merge a b) = f a || f b) → f (foldl merge l (snd <$> g)) = f l || any_line f g.
Proof.
  intros Hf. revert l. induction g as [|x g IH]; intros l; cbn [foldl fmap list_fmap]; [by rewrite orb_false_r |].
  rewrite IH, Hf. unfold any_line. cbn. by rewrite orb_assoc.
Qed.

Lemma foldl_merge_first (f : ListenSpec → option Z) (g : list (Server * ListenSpec)) l :
  (∀ a b, f (merge a b) = or_else (f a) (f b)) → f (foldl merge l (snd <$> g)) = or_else (f l) (first_given f g).
Proof.
  intros Hf. revert l. induction g as [|x g IH]; intros l; cbn [foldl fmap list_fmap]; [by destruct (f l) |].
  rewrite IH, Hf. unfold first_given. cbn. by destruct (f l), (f (snd x)).
Qed.

Lemma foldl_merge_kept {A} (f : ListenSpec → A) (g : list (Server * ListenSpec)) l :
  (∀ a b, f (merge a b) = f a) → f (foldl merge l (snd <$> g)) = f l.
Proof. intros Hf. revert l. induction g as [|x g IH]; intros l; [done |]. cbn [foldl fmap list_fmap]. by rewrite IH. Qed.

Lemma any_line_head f g : any_line f g = match g with x :: _ => f (snd x) | [] => false end || any_line f g.
Proof. destruct g as [|x g]; [done |]. cbn. by destruct (f (snd x)). Qed.

Lemma first_given_head f g :
  first_given f g = or_else (match g with x :: _ => f (snd x) | [] => None end) (first_given f g).
Proof. destruct g as [|x g]; [done |]. unfold first_given. cbn. by destruct (f (snd x)). Qed.

Lemma listener_of_group a g : g ≠ [] → listener_of (a, group g a) = socket first_line_says a g.
Proof.
  intros Hg. unfold listener_of, socket, group. cbn [acc_spec acc_servers acc_default].
  rewrite (foldl_merge_first backlog), (foldl_merge_first rcvbuf), (foldl_merge_first sndbuf), (foldl_merge_any reuseport),
    (foldl_merge_any ssl), (foldl_merge_any http2), (foldl_merge_any quic), (foldl_merge_any deferred),
    (foldl_merge_kept ipv6_only) by done.
  rewrite (first_given_head backlog g), (first_given_head rcvbuf g), (first_given_head sndbuf g), (any_line_head reuseport g),
    (any_line_head ssl g), (any_line_head http2 g), (any_line_head quic g), (any_line_head deferred g).
  destruct g as [|x g]; [done |]. cbn [head fmap option_fmap option_map default from_option id].
  by rewrite !orb_assoc, !orb_diag; destruct (backlog (snd x)), (rcvbuf (snd x)), (sndbuf (snd x)).
Qed.

Lemma listeners_of_reference ls : listener_of <$> reference ls = sockets first_line_says ls.
Proof.
  unfold reference, sockets. rewrite <-list_fmap_compose. apply list_fmap_ext. intros i a Ha.
  apply listener_of_group, at_addr_elem, elem_of_firsts. by eapply list_elem_of_lookup_2.
Qed.


Lemma foldl_merge_quic ls l : quic (foldl merge l ls) = quic l || existsb quic ls.
Proof.
  revert l. induction ls as [|x ls IH]; intros l; cbn [foldl existsb]; [by rewrite orb_false_r |].
  rewrite IH. cbn. by rewrite orb_assoc.
Qed.

Lemma listeners_cases servers want :
  (∃ r, listeners servers want = Fine r) ∨ (∃ e, listeners servers want = Bad e).
Proof.
  unfold listeners. destruct (each_reference want (all_lines servers)) as [H1 H2].
  destruct (one_default_em (of_kind want (all_lines servers))) as [H|H].
  - left. rewrite (H1 H). by eexists.
  - right. destruct (H2 H) as [e ->]. by eexists.
Qed.

Lemma listeners_fine servers want r :
  listeners servers want = Fine r → r = listener_of <$> reference (of_kind want (all_lines servers)).
Proof.
  unfold listeners. destruct (each_reference want (all_lines servers)) as [H1 H2].
  destruct (one_default_em (of_kind want (all_lines servers))) as [H|H].
  - rewrite (H1 H). by intros [= <-].
  - by destruct (H2 H) as [e ->].
Qed.

Lemma addr_listener_of ls : l_addr <$> (listener_of <$> reference ls) = firsts (addr ∘ snd <$> ls).
Proof.
  unfold reference. rewrite <-!list_fmap_compose. rewrite <-(list_fmap_id (firsts _)) at 2.
  by apply list_fmap_ext.
Qed.

Lemma reference_listener ls L :
  L ∈ listener_of <$> reference ls → ∃ a, at_addr a ls ≠ [] ∧ L = listener_of (a, group (at_addr a ls) a).
Proof.
  intros (p & -> & Hp)%list_elem_of_fmap. apply list_elem_of_fmap in Hp as (a & -> & Ha). exists a. split; [|done].
  apply at_addr_elem. by rewrite elem_of_firsts in Ha.
Qed.

Lemma listener_default ls L : L ∈ listener_of <$> reference ls → (l_default_server L < length (l_servers L))%nat.
Proof.
  intros (a & Ha & ->)%reference_listener. cbn. rewrite length_fmap.
  destruct (list_find _ (at_addr a ls)) as [[i y]|] eqn:E; cbn.
  - apply list_find_Some in E as (Hi & _). by apply lookup_lt_Some in Hi.
  - destruct (at_addr a ls); [done | cbn; lia].
Qed.

Lemma listener_kind want ls L :
  Forall (λ x, quic (snd x) = want) ls → L ∈ listener_of <$> reference ls → l_quic L = want.
Proof.
  intros Hk (a & Ha & ->)%reference_listener. cbn. rewrite foldl_merge_quic.
  assert (Forall (λ x, quic (snd x) = want) (at_addr a ls)) as Hq.
  { apply Forall_forall. intros x [_ Hx]%list_elem_of_filter. rewrite Forall_forall in Hk. auto. }
  destruct (at_addr a ls) as [|x g]; [done |]. apply Forall_cons in Hq as [Hx Hg].
  cbn [default from_option head fmap option_fmap option_map id list_fmap existsb]. rewrite Hx. destruct want; [done |]. cbn.
  clear Ha. induction Hg as [|y g Hy _ IH]; [done |]. cbn. rewrite Hy. apply IH.
Qed.

(** Every line of a kind is in the group of its address. *)
Lemma line_has_listener servers s l :
  s ∈ servers → l ∈ listens s →
  ∃ L, L ∈ listener_of <$> reference (of_kind (quic l) (all_lines servers)) ∧ l_addr L = addr l ∧ s ∈ l_servers L.
Proof.
  intros Hs Hl. set (ls := of_kind _ _).
  assert ((s, l) ∈ ls) as Hin.
  { apply list_elem_of_filter. split; [done |]. apply list_elem_of_bind. exists s. split; [|done].
    apply list_elem_of_fmap. by exists l. }
  exists (listener_of (addr l, group (at_addr (addr l) ls) (addr l))). split; [|split; [done |]].
  - apply list_elem_of_fmap. eexists. split; [done |]. apply list_elem_of_fmap. exists (addr l). split; [done |].
    rewrite elem_of_firsts. apply list_elem_of_fmap. by exists (s, l).
  - cbn. apply list_elem_of_fmap. exists (s, l). split; [done |]. by apply list_elem_of_filter.
Qed.

(** What a listener promises to the search by host name: no two bind one
    address, each has a server, its default is one of them, and it serves
    the kind it was made for. *)
Theorem listeners_ready (servers : list Server) (want_quic : bool) (r : list Listener) :
  listeners servers want_quic = Fine r →
  NoDup (l_addr <$> r) ∧ Forall (λ l, (l_default_server l < length (l_servers l))%nat ∧ l_quic l = want_quic) r.
Proof.
  intros ->%listeners_fine. split; [rewrite addr_listener_of; apply firsts_nodup |].
  apply Forall_forall. intros L HL. split; [by eapply listener_default |]. eapply listener_kind; [|exact HL].
  apply Forall_forall. by intros x [? _]%list_elem_of_filter.
Qed.
End listeners.

Arguments Listener : clear implicits.

Lemma quiet_listeners {Server} (listens : Server → list ListenSpec) line servers want :
  quiet (listeners listens line servers want).
Proof.
  destruct (listeners_cases listens line servers want) as [[r ->]|[e ->]]; done.
Qed.

#[export] Hint Resolve quiet_listen quiet_listeners : quiet.

(** ** Samples *)

#[local] Existing Instance sample_crates.

Example listen_forms :
  (λ l, (addr l, ssl l, quic l)) <$> listen (directive (str "listen") [str "[::]:443"; str "quic"; str "reuseport"])
    = Fine (Tcp (mkAddr (Ip6 [0; 0; 0; 0; 0; 0; 0; 0]) 443 0), true, true) ∧
  addr <$> listen (directive (str "listen") [str "8080"]) = Fine (Tcp (mkAddr UNSPECIFIED 8080 0)) ∧
  listen (directive (str "listen") [str "unix:/s"; str "quic"])
    = bail (directive (str "listen") []) [q (str "quic"); str " cannot be used with a unix: listen address"].
Proof. by repeat split; vm_compute. Qed.

(** A server of the samples: its line and its [listen] lines. *)
Local Abbreviation srv := (Z * list ListenSpec)%type.
Definition on (port : Z) : ListenSpec := plain_listen (Tcp (mkAddr UNSPECIFIED port 0)).

Definition sample_servers : list srv :=
  [(1, [on 80; (on 443) <| ssl := true |>]);
   (5, [(on 443) <| default_server := true |> <| http2 := true |>; (on 443) <| quic := true |>])].


(** A line that says [ipv6only=off] after another of its address that does
    not is not heard, unlike every other option. *)
Example ipv6only_of_first_line :
  match listeners (Server := srv) snd fst [(1, [on 80; (on 80) <| ipv6_only := false |>])] false with
  | Fine r => l_ipv6_only <$> r = [true]
  | _ => False
  end.
Proof. reflexivity. Qed.

Definition sample_listeners : list (Listener srv) :=
  Eval vm_compute in match listeners (snd : srv → _) fst sample_servers false with Fine r => r | _ => [] end.

Lemma listeners_ready_witness :
  length sample_listeners = 2%nat ∧ NoDup (l_addr <$> sample_listeners) ∧
  Forall (λ l, (l_default_server l < length (l_servers l))%nat ∧ l_quic l = false) sample_listeners.
Proof. split; [reflexivity |]. apply (listeners_ready (snd : srv → _) fst sample_servers false). reflexivity. Defined.
