(* ===== verification/Blocks.v ===== *)
(** * [src/config/build.rs]: upstreams, maps and the zones of limits and caches

    The blocks of [http] that stand beside its servers, each read into the
    data the request path works with. *)
From S2P Require Import Prelude.
From S2P Require Import Text.
From S2P Require Import Ast.
From S2P Require Import Vars.
From S2P Require Import Model.
From S2P Require Import Args.
From S2P Require Import Level.
From S2P Require Upstream.
From S2P Require ProxyReq.
From S2P Require Proxy.
From S2P Require Cache.

Open Scope Z_scope.

Section blocks.
  Context {Regex : Type} `{!Crates Regex}.

(** ** [upstream] *)

(** [sticky_id_for]: FNV-1a of the address after a fixed prefix, in hex. *)
Definition fnv_step (h : Z) (b : byte) : Z := wrap 64 (Z.lxor h (u8 b) * 1099511628211).
Definition fnv (s : bytes) : Z := foldl fnv_step 14695981039346656037 s.

(** [format!("{h:016x}")] *)
Definition hex16 (h : Z) : bytes :=
  (λ i, Addr.hex_digit (Z.land (Z.shiftr h (4 * (15 - Z.of_nat i))) 15)) <$> seq 0 16.

Definition sticky_id_for (a : bytes) : bytes := hex16 (fnv (str "oxiserve-sticky" ++ [x00] ++ a)).

Record HealthCheck := mkHealthCheck {
  interval : Duration;
  hc_fails : Z;
  hc_passes : Z;
  hc_uri : option bytes;
  expect_status : Z;
  hc_timeout : Duration
}.
#[export] Instance eta_health_check : Eta HealthCheck := λ h,
  mkHealthCheck (interval h) (hc_fails h) (hc_passes h) (hc_uri h) (expect_status h) (hc_timeout h).

Definition default_health_check : HealthCheck := mkHealthCheck 5000 1 1 None 200 5000.

(** A [server] of an upstream *)
Record Peer := mkPeer {
  p_addr : bytes;
  p_weight : Z;
  p_max_fails : Z;
  p_fail_timeout : Duration;
  p_backup : bool;
  p_down : bool;
  p_max_conns : option Z
}.
#[export] Instance eta_peer : Eta Peer := λ p,
  mkPeer (p_addr p) (p_weight p) (p_max_fails p) (p_fail_timeout p) (p_backup p) (p_down p) (p_max_conns p).

(** A time that falls back to a default *)
Definition time_default (dflt : Duration) (s : bytes) : outcome Duration :=
  match parse_time s with None => Panic | Some o => Fine (default dflt o) end.

Definition peer_param (c : Directive) (s : Peer) (p : bytes) : outcome Peer :=
  match strip_prefix (str "weight=") p with Some v => Fine (s <| p_weight := default 1 (parse_uint u32_max v) |>) | None =>
  match strip_prefix (str "max_fails=") p with Some v => Fine (s <| p_max_fails := default 1 (parse_uint u32_max v) |>) | None =>
  match strip_prefix (str "fail_timeout=") p with Some v => t ← time_default 10000 v; Fine (s <| p_fail_timeout := t |>) | None =>
  match strip_prefix (str "max_conns=") p with Some v => Fine (s <| p_max_conns := parse_uint u32_max v |>) | None =>
    if decide (p = str "backup") then Fine (s <| p_backup := true |>)
    else if decide (p = str "down") then Fine (s <| p_down := true |>)
    else if starts_with (str "resolve") p || starts_with (str "slow_start") p then Fine s
    else bail c [str "invalid parameter "; q p; str " in upstream server"]
  end end end end.

Definition peer_of (c : Directive) : outcome Peer :=
  want_args_range c 1 16 ;; a ← nth_arg c 0;
  each (peer_param c) (mkPeer a 1 1 10000 false false None) (drop 1 (args c)).

Definition sticky_param (c : Directive) (s : ProxyReq.StickyCookie) (p : bytes) : outcome ProxyReq.StickyCookie :=
  let '(ProxyReq.mkSticky n ex dom pa ho se ss) := s in
  match strip_prefix (str "expires=") p with
  | Some v =>
      time_or c [str "invalid "; q (str "expires"); str " value "; q v; str " in "; q (str "sticky")]
        (λ t, Fine (ProxyReq.mkSticky n (Some t) dom pa ho se ss)) v
  | None =>
  match strip_prefix (str "domain=") p with Some v => Fine (ProxyReq.mkSticky n ex (Some v) pa ho se ss) | None =>
  match strip_prefix (str "path=") p with Some v => Fine (ProxyReq.mkSticky n ex dom (Some v) ho se ss) | None =>
  match strip_prefix (str "samesite=") p with Some v => Fine (ProxyReq.mkSticky n ex dom pa ho se (Some v)) | None =>
    if decide (p = str "httponly") then Fine (ProxyReq.mkSticky n ex dom pa true se ss)
    else if decide (p = str "secure") then Fine (ProxyReq.mkSticky n ex dom pa ho true ss)
    else bail c [str "invalid parameter "; q p; str " in "; q (str "sticky cookie")]
  end end end end.

Definition sticky_of (c : Directive) : outcome ProxyReq.StickyCookie :=
  want_args_range c 1 8 ;; a ← nth_arg c 0;
  if decide (a ≠ str "cookie")
  then bail c [str "only "; q (str "sticky cookie"); str " is supported, not "; q (str "sticky " ++ a)]
  else match arg c 1 with
  | None => bail c [q (str "sticky cookie"); str " requires a cookie name"]
  | Some n => each (sticky_param c) (ProxyReq.mkSticky n None None None false false None) (drop 2 (args c))
  end.

Definition health_param (c : Directive) (h : HealthCheck) (a : bytes) : outcome HealthCheck :=
  let invalid what v := [str "invalid "; q what; str " value "; q v] in
  match strip_prefix (str "interval=") a with
  | Some v => time_or c (invalid (str "interval") v) (λ t, Fine (h <| interval := t |>)) v
  | None =>
  match strip_prefix (str "fails=") a with Some v => Fine (h <| hc_fails := default 1 (parse_uint u32_max v) |>) | None =>
  match strip_prefix (str "passes=") a with Some v => Fine (h <| hc_passes := default 1 (parse_uint u32_max v) |>) | None =>
  match strip_prefix (str "uri=") a with Some v => Fine (h <| hc_uri := Some v |>) | None =>
  match strip_prefix (str "status=") a with
  | Some v => s ← or_bail c (invalid (str "status") v) (parse_uint u16_max v); Fine (h <| expect_status := s |>)
  | None =>
  match strip_prefix (str "timeout=") a with
  | Some v => time_or c (invalid (str "timeout") v) (λ t, Fine (h <| hc_timeout := t |>)) v
  | None =>
      if bool_decide (a = str "match") || starts_with (str "match=") a || bool_decide (a = str "mandatory") ||
         bool_decide (a = str "persistent") || starts_with (str "port=") a then Fine h
      else bail c [str "invalid parameter "; q a; str " in "; q (str "health_check")]
  end end end end end end.

Definition health_check_of (c : Directive) : outcome HealthCheck :=
  want_args_range c 0 12 ;;
  h ← each (health_param c) default_health_check (args c);
  if decide (interval h = 0) then bail c [q (str "health_check"); str " interval must be greater than zero"]
  else Fine h.

(** The locals of [upstream] *)
Record Draft := mkDraft {
  d_servers : list Peer;
  d_method : Upstream.LbMethod;
  d_keepalive : Z;
  d_health_check : option HealthCheck;
  d_sticky : option ProxyReq.StickyCookie
}.
#[export] Instance eta_draft : Eta Draft := λ u,
  mkDraft (d_servers u) (d_method u) (d_keepalive u) (d_health_check u) (d_sticky u).

Definition methods : list (bytes * Upstream.LbMethod) :=
  [(str "least_conn", Upstream.LeastConn); (str "ip_hash", Upstream.IpHash); (str "random", Upstream.Random);
   (str "hash", Upstream.RoundRobin)].

Definition upstream_child (s : Draft * Builder) (c : Directive) : outcome (Draft * Builder) :=
  let '(u, b) := s in
  if decide (name c = str "server") then p ← peer_of c; Fine (u <| d_servers := d_servers u ++ [p] |>, b)
  else if decide (name c = str "sticky") then k ← sticky_of c; Fine (u <| d_sticky := Some k |>, b)
  else if decide (name c = str "keepalive") then
    a ← word c; Fine (u <| d_keepalive := default 0 (parse_uint u64_max a) |>, b)
  else if decide (name c = str "health_check") then h ← health_check_of c; Fine (u <| d_health_check := Some h |>, b)
  else match assoc (name c) methods with
  | Some m => Fine (u <| d_method := m |>, b)
  | None =>
      if decide (name c ∈ [str "keepalive_requests"; str "keepalive_timeout"; str "zone"; str "queue"]) then Fine (u, b)
      else Fine (u, note_unsupported c b)
  end.

(** [Upstream]: what balancing and the proxy use, and what the prober does.
    Every peer starts healthy. *)
Record Built := mkBuilt {
  up_name : bytes;
  up_group : Proxy.Group;
  up_max_conns : list (option Z);
  up_health : list Upstream.PeerHealth;
  up_health_check : option HealthCheck
}.

Definition server_of (p : Peer) : Upstream.UpstreamServer :=
  Upstream.mkServer (p_addr p) (sticky_id_for (p_addr p)) (p_weight p) (p_backup p) (p_down p).

Definition upstream (b : Builder) (d : Directive) : outcome (Built * Builder) :=
  '(u, b) ← each upstream_child (mkDraft [] Upstream.RoundRobin 0 None None, b) (children d);
  n ← nth_arg d 0;
  if decide (d_servers u = []) then bail d [str "no servers defined in upstream "; q n]
  else
    let ps := d_servers u in
    Fine (mkBuilt n
      (Proxy.mkGroup (server_of <$> ps) ((λ p, (p_max_fails p, p_fail_timeout p)) <$> ps) (d_method u)
         (Z.to_nat (d_keepalive u)) (d_sticky u))
      (p_max_conns <$> ps) (const Upstream.healthy <$> ps) (d_health_check u), b).

(** ** [map] *)

(** [HashMap::insert] on an association list with distinct keys *)
Definition map_insert {A} (k : bytes) (v : A) (l : list (bytes * A)) : list (bytes * A) :=
  filter (λ p, fst p ≠ k) l ++ [(k, v)].

Definition map_value (c : Directive) : outcome Template := compile <$> word c.

Definition map_child (m : MapConf Regex) (c : Directive) : outcome (MapConf Regex) :=
  let '(mkMapConf so ta ex wi re de ho) := m in
  let key := name c in
  if decide (key = str "hostnames") then Fine (mkMapConf so ta ex wi re de true)
  else if decide (key = str "volatile" ∨ key = str "include") then Fine m
  else
    v ← map_value c;
    if decide (key = str "default") then Fine (mkMapConf so ta ex wi re (Some v) ho)
    else match strip_prefix (str "~*") key, strip_prefix (str "~") key with
    | Some p, _ => r ← compile_regex p true c; Fine (mkMapConf so ta ex wi (re ++ [(r, v)]) de ho)
    | None, Some p => r ← compile_regex p false c; Fine (mkMapConf so ta ex wi (re ++ [(r, v)]) de ho)
    | None, None =>
        match strip_prefix (str "*.") key, strip_suffix (str ".*") key with
        | Some suffix, _ => Fine (mkMapConf so ta ex (wi ++ [(suffix, v, true)]) re de ho)
        | None, Some pre => Fine (mkMapConf so ta ex (wi ++ [(pre, v, false)]) re de ho)
        | None, None => Fine (mkMapConf so ta (map_insert (lowercase key) v ex) wi re de ho)
        end
    end.

Definition map_of (d : Directive) : outcome (MapConf Regex) :=
  want_args d 2 ;; a0 ← nth_arg d 0; a1 ← nth_arg d 1;
  src ← or_bail d [str "invalid map source "; q a0; str ", expected a variable"] (strip_prefix (str "$") a0);
  target ← or_bail d [str "invalid map target "; q a1; str ", expected a variable"] (strip_prefix (str "$") a1);
  each map_child (mkMapConf (parse src) target [] [] [] None false) (children d).

(** ** Zones *)

Record LimitReqZoneDef := mkReqZone { rz_name : bytes; rz_key : Template; rz_rate : Z; rz_max_entries : Z }.
Record LimitConnZoneDef := mkConnZone { cz_name : bytes; cz_key : Template; cz_max_entries : Z }.

(** [name:size] *)
Definition name_and_size (d : Directive) (what v : bytes) : outcome (bytes * Z) :=
  '(n, size) ← or_bail d [str "invalid "; q what; str " value "; q v; str ", expected name:size"] (split_once ":"%byte v);
  sz ← or_bail d [str "invalid zone size "; q size] (parse_size size);
  Fine (n, sz).

Definition parse_limit_conn_zone (d : Directive) : outcome LimitConnZoneDef :=
  a0 ← nth_arg d 0; a1 ← nth_arg d 1;
  v ← or_bail d [str "invalid parameter "; q a1; str " in "; q (str "limit_conn_zone")] (strip_prefix (str "zone=") a1);
  '(n, size) ← name_and_size d (str "zone=") v;
  if decide (n = []) then bail d [q (str "limit_conn_zone"); str " requires a zone name"]
  else Fine (mkConnZone n (compile a0) (Z.max 1 (size / 64))).

Definition limit_zone_param (d : Directive) (z : LimitReqZoneDef) (a : bytes) : outcome LimitReqZoneDef :=
  match strip_prefix (str "zone=") a, strip_prefix (str "rate=") a with
  | Some v, _ =>
      '(n, size) ← name_and_size d (str "zone=") v;
      Fine (mkReqZone n (rz_key z) (rz_rate z) (size / 64))
  | None, Some v =>
      r ← or_bail d [str "invalid rate "; q v; str ", expected e.g. 5r/s or 30r/m"] (parse_rate v);
      Fine (mkReqZone (rz_name z) (rz_key z) r (rz_max_entries z))
  | None, None => bail d [str "invalid parameter "; q a; str " in "; q (str "limit_req_zone")]
  end.

Definition parse_limit_req_zone (d : Directive) : outcome LimitReqZoneDef :=
  a0 ← nth_arg d 0;
  z ← each (limit_zone_param d) (mkReqZone [] (compile a0) 0 0) (drop 1 (args d));
  if decide (rz_name z = []) then bail d [q (str "limit_req_zone"); str " requires a "; q (str "zone="); str " parameter"]
  else if decide (rz_rate z = 0) then bail d [q (str "limit_req_zone"); str " requires a non-zero "; q (str "rate="); str " parameter"]
  else Fine (mkReqZone (rz_name z) (rz_key z) (rz_rate z) (Z.max 1 (rz_max_entries z))).

(** The locals of [parse_cache_path]: a cache's zone before its root is made. *)
Record CacheDraft := mkCacheDraft {
  k_name : bytes; k_levels : list nat; k_max_entries : Z; k_inactive : Duration; k_max_size : Z
}.

Definition level_of (s : bytes) : option nat :=
  n ← parse_uint 255 s; if decide (1 ≤ n ≤ 2) then Some (Z.to_nat n) else None.

Definition cache_param (d : Directive) (z : CacheDraft) (a : bytes) : outcome CacheDraft :=
  let '(mkCacheDraft n lv me ina ms) := z in
  match strip_prefix (str "keys_zone=") a with
  | Some v => '(n, size) ← name_and_size d (str "keys_zone=") v; Fine (mkCacheDraft n lv (size / 128) ina ms)
  | None =>
  match strip_prefix (str "levels=") a with
  | Some v =>
      ls ← collect (λ part, or_bail d [str "invalid "; q (str "levels"); str " value "; q v; str " — each level must be 1 or 2"]
                              (level_of part)) (split ":"%byte v);
      Fine (mkCacheDraft n (lv ++ ls) me ina ms)
  | None =>
  match strip_prefix (str "inactive=") a with
  | Some v =>
      time_or d [str "invalid "; q (str "inactive"); str " value "; q v] (λ t, Fine (mkCacheDraft n lv me t ms)) v
  | None =>
  match strip_prefix (str "max_size=") a with
  | Some v =>
      sz ← or_bail d [str "invalid "; q (str "max_size"); str " value "; q v] (parse_size v);
      Fine (mkCacheDraft n lv me ina sz)
  | None =>
      if starts_with (str "use_temp_path=") a || starts_with (str "loader_") a ||
         starts_with (str "manager_") a || starts_with (str "min_free=") a then Fine z
      else bail d [str "invalid parameter "; q a; str " in "; q (str "proxy_cache_path")]
  end end end end.

Record CacheZone := mkCacheZone {
  kz_name : bytes; kz_root : bytes; kz_levels : list nat; kz_max_entries : Z; kz_max_size : Z; kz_inactive : Duration
}.

Definition parse_cache_path (b : Builder) (d : Directive) : outcome CacheZone :=
  a0 ← nth_arg d 0;
  let root := abs b a0 in
  z ← each (cache_param d) (mkCacheDraft [] [] 0 600000 0) (drop 1 (args d));
  if decide (k_name z = []) then bail d [q (str "proxy_cache_path"); str " requires a "; q (str "keys_zone="); str " parameter"]
  else match create_dir_all root with
  | Err e => bail d [str "cannot create proxy_cache_path "; from_utf8_lossy root; str ": "; e]
  | Ok _ => Fine (mkCacheZone (k_name z) root (k_levels z) (Z.max 1 (k_max_entries z)) (k_max_size z) (k_inactive z))
  end.

(** The zone the cache works on: its root by components, times in seconds. *)
Definition zone_of (z : CacheZone) : Cache.Zone :=
  Cache.mkZone (kz_name z) (filter (λ c, c ≠ []) (split "/"%byte (kz_root z))) (kz_levels z)
    (Z.to_nat (kz_max_entries z)) (kz_max_size z) (kz_inactive z / 1000).

(** ** What the blocks promise *)

(** An upstream that is accepted has a server, and as many healths, limits
    and connection limits as servers; every peer starts healthy and is known
    to cookies by the hash of its address. *)
Theorem upstream_ready (b b' : Builder) (d : Directive) (u : Built) :
  upstream b d = Fine (u, b') →
  let g := up_group u in
  Proxy.g_servers g ≠ [] ∧ length (up_health u) = length (Proxy.g_servers g) ∧
  length (Proxy.g_limits g) = length (Proxy.g_servers g) ∧ length (up_max_conns u) = length (Proxy.g_servers g) ∧
  Forall (λ h, h = Upstream.healthy) (up_health u) ∧
  Forall (λ s, Upstream.sticky_id s = sticky_id_for (Upstream.addr s)) (Proxy.g_servers g).
Proof.
  unfold upstream. intros ([dr b1] & _ & (n & _ & H)%outcome_bind_fine)%outcome_bind_fine.
  case_decide as Hs; [done |]. simplify_eq. cbn. rewrite !length_fmap.
  split; [by destruct (d_servers dr) |]. do 3 (split; [done |]). split; apply Forall_fmap, Forall_forall; done.
Qed.

(** The identifier in a cookie is sixteen hexadecimal digits. *)
Lemma sticky_id_shape a :
  length (sticky_id_for a) = 16%nat ∧ Forall (λ c, is_Some (Addr.hex_value c)) (sticky_id_for a).
Proof.
  unfold sticky_id_for, hex16. rewrite length_fmap, length_seq. split; [done |].
  apply Forall_fmap, Forall_forall. intros i _. cbn. set (z := Z.land _ 15).
  assert (0 ≤ z < 16) as Hz.
  { unfold z. change 15 with (Z.ones 4). rewrite Z.land_ones by lia. by apply Z.mod_pos_bound. }
  clearbody z. unfold Addr.hex_digit.
  assert (z = 0 ∨ z = 1 ∨ z = 2 ∨ z = 3 ∨ z = 4 ∨ z = 5 ∨ z = 6 ∨ z = 7 ∨ z = 8 ∨ z = 9 ∨ z = 10 ∨ z = 11 ∨ z = 12 ∨
    z = 13 ∨ z = 14 ∨ z = 15) as H by lia.
  repeat destruct H as [->|H]; [..|subst]; by eexists.
Qed.

Lemma map_insert_keys {A} k (v : A) l : NoDup (fst <$> l) → NoDup (fst <$> map_insert k v l).
Proof.
  intros Hn. unfold map_insert. rewrite fmap_app. apply NoDup_app. split.
  - induction l as [|[k' v'] l IH]; [constructor |]. apply NoDup_cons in Hn as [Hk Hn]. rewrite filter_cons.
    case_decide; [|by apply IH]. cbn. apply NoDup_cons. split; [|by apply IH].
    intros ([k2 v2] & -> & [_ H2]%list_elem_of_filter)%list_elem_of_fmap. apply Hk, list_elem_of_fmap. by exists (k2, v2).
  - split; [|by apply NoDup_singleton]. intros x ([k2 v2] & -> & [H2 _]%list_elem_of_filter)%list_elem_of_fmap Hx.
    cbn in Hx. by apply list_elem_of_singleton in Hx.
Qed.

Lemma map_insert_forall {A} (P : bytes → Prop) k (v : A) l :
  P k → Forall P (fst <$> l) → Forall P (fst <$> map_insert k v l).
Proof.
  intros Hk Hl. unfold map_insert. rewrite fmap_app. apply Forall_app. split; [|by repeat constructor].
  apply Forall_fmap, Forall_forall. intros p [_ Hp]%list_elem_of_filter. cbn.
  rewrite Forall_forall in Hl. apply Hl, list_elem_of_fmap. by exists p.
Qed.

(** The table of a [map]: distinct keys, in lower case. *)
Definition table_wf (m : MapConf Regex) : Prop :=
  NoDup (fst <$> map_exact m) ∧ Forall (λ k, lowercase k = k) (fst <$> map_exact m).

Lemma lowercase_twice s : lowercase (lowercase s) = lowercase s.
Proof.
  unfold lowercase. rewrite <-list_fmap_compose. apply list_fmap_ext. intros i c _. destruct c; reflexivity.
Qed.

Lemma map_child_wf m c m' : table_wf m → map_child m c = Fine m' → table_wf m'.
Proof.
  destruct m as [so ta ex wi re de ho]. intros Hm. unfold map_child.
  do 2 (case_decide; [by intros [= <-] |]). intros (v & _ & Hc)%outcome_bind_fine. revert Hc.
  case_decide; [by intros [= <-] |].
  destruct (strip_prefix (str "~*") (name c)); [by intros (r & _ & [= <-])%outcome_bind_fine |].
  destruct (strip_prefix (str "~") (name c)); [by intros (r & _ & [= <-])%outcome_bind_fine |].
  destruct (strip_prefix (str "*.") (name c)); [by intros [= <-] |].
  destruct (strip_suffix (str ".*") (name c)); [by intros [= <-] |]. intros [= <-]. destruct Hm as [Hn Hl]. split; cbn.
  - by apply map_insert_keys.
  - apply map_insert_forall; [apply lowercase_twice | done].
Qed.

(** The table of every [map] that is accepted has distinct keys, each in
    lower case, as the case-insensitive lookup takes them to be. *)
Theorem map_table_wf (d : Directive) (m : MapConf Regex) : map_of d = Fine m → table_wf m.
Proof.
  unfold map_of. do 5 (let H := fresh in intros (? & _ & H)%outcome_bind_fine; revert H). intros H.
  eapply (each_inv table_wf); [| |exact H].
  - intros m0 c m1 _ H0 H1. by eapply map_child_wf.
  - split; constructor.
Qed.

(** Zones hold at least a key, and a rate is never zero. *)
Lemma limit_req_zone_ready d z : parse_limit_req_zone d = Fine z → rz_name z ≠ [] ∧ rz_rate z ≠ 0 ∧ 1 ≤ rz_max_entries z.
Proof.
  unfold parse_limit_req_zone. intros (a & _ & (z0 & _ & H)%outcome_bind_fine)%outcome_bind_fine. revert H.
  do 2 (case_decide; [done |]). intros [= <-]. cbn. repeat split; [done | done | lia].
Qed.

Lemma limit_conn_zone_ready d z : parse_limit_conn_zone d = Fine z → cz_name z ≠ [] ∧ 1 ≤ cz_max_entries z.
Proof.
  unfold parse_limit_conn_zone. do 3 (let H := fresh in intros (? & _ & H)%outcome_bind_fine; revert H).
  intros ([n s] & _ & H)%outcome_bind_fine. revert H. case_decide; [done |]. intros [= <-]. cbn. split; [done | lia].
Qed.

(** *** None of them aborts the load *)

Lemma drop_elem {A} n (l : list A) x : x ∈ drop n l → x ∈ l.
Proof. intros H. rewrite <-(take_drop n l). apply elem_of_app. by right. Qed.

Lemma quiet_time_default dflt s : parse_time s ≠ None → quiet (time_default dflt s).
Proof. unfold time_default. by destruct (parse_time s). Qed.

(** A parameter [k=v] whose [v] is a time *)
Local Ltac param := match goal with H : strip_prefix _ ?p = Some ?v, Hd : tame _, Hp : ?p ∈ args _ |- _ =>
  first [apply quiet_time_or; [exact (tame_strip _ _ _ _ Hd Hp H) | done]
        | apply quiet_bind; [apply quiet_time_default; exact (tame_strip _ _ _ _ Hd Hp H) | done]] end.

Lemma quiet_peer_of c : tame c → quiet (peer_of c).
Proof.
  intros Hd. unfold peer_of. apply quiet_bind; [quiet |]. intros u H%want_args_range_length.
  apply quiet_bind; [apply quiet_nth_arg; lia |]. intros a _. apply quiet_each. intros s p Hp%drop_elem.
  unfold peer_param. repeat (case_match; try done; try param).
Qed.

Lemma quiet_sticky_of c : tame c → quiet (sticky_of c).
Proof.
  intros Hd. unfold sticky_of. apply quiet_bind; [quiet |]. intros u H%want_args_range_length.
  apply quiet_bind; [apply quiet_nth_arg; lia |]. intros a _. case_decide; [done |].
  destruct (arg c 1); [|done]. apply quiet_each. intros [] p Hp%drop_elem.
  unfold sticky_param. repeat (case_match; try done; try param).
Qed.

Lemma quiet_health_check_of c : tame c → quiet (health_check_of c).
Proof.
  intros Hd. unfold health_check_of. apply quiet_bind; [quiet |]. intros u _. apply quiet_bind; [|intros; quiet].
  apply quiet_each. intros h p Hp. unfold health_param.
  repeat (case_match; try done; try param). apply quiet_bind; [quiet | done].
Qed.

Lemma quiet_upstream b d : args d ≠ [] → Forall tame (children d) → quiet (upstream b d).
Proof.
  intros Ha Hc. unfold upstream. apply quiet_bind.
  - apply quiet_each. intros [u b0] c Hin. rewrite Forall_forall in Hc. specialize (Hc c Hin). unfold upstream_child.
    do 4 (destruct (decide (name c = _));
      [apply quiet_bind; [eauto using quiet_peer_of, quiet_sticky_of, quiet_health_check_of with quiet | done] |]).
    destruct (assoc (name c) methods); [done |]. by destruct (decide (name c ∈ _)).
  - intros [u b0] _. apply quiet_bind; [|intros; quiet].
    apply quiet_nth_arg. destruct (args d); [done | cbn; lia].
Qed.

Lemma quiet_map_of d : quiet (map_of d).
Proof.
  unfold map_of. do 3 (apply quiet_bind; [quiet | intros]). do 2 (apply quiet_bind; [quiet | intros]).
  apply quiet_each. intros [] c _. unfold map_child, map_value. quiet.
Qed.

Lemma quiet_name_and_size d what v : quiet (name_and_size d what v).
Proof. unfold name_and_size. quiet. Qed.

Lemma quiet_parse_limit_conn_zone d : (2 ≤ length (args d))%nat → quiet (parse_limit_conn_zone d).
Proof. intros H. unfold parse_limit_conn_zone. quiet; unfold name_and_size; quiet. Qed.

Lemma quiet_parse_limit_req_zone d : (1 ≤ length (args d))%nat → quiet (parse_limit_req_zone d).
Proof.
  intros H. unfold parse_limit_req_zone. apply quiet_bind; [quiet |]. intros a _. apply quiet_bind; [|intros; quiet].
  apply quiet_each. intros z p _. unfold limit_zone_param, name_and_size. quiet.
Qed.

Lemma quiet_parse_cache_path b d : tame d → (1 ≤ length (args d))%nat → quiet (parse_cache_path b d).
Proof.
  intros Hd H. unfold parse_cache_path. apply quiet_bind; [quiet |]. intros a _. apply quiet_bind; [|intros; quiet].
  apply quiet_each. intros [] p Hp%drop_elem. unfold cache_param.
  repeat (case_match; try done; try param).
  - apply quiet_bind; [apply quiet_name_and_size | intros []; done].
  - apply quiet_bind; [|done]. apply quiet_collect. intros; quiet.
  - apply quiet_bind; [quiet | done].
Qed.
End blocks.

#[export] Hint Resolve quiet_map_of quiet_upstream quiet_parse_limit_conn_zone quiet_parse_limit_req_zone
  quiet_parse_cache_path : quiet.

Arguments Built : clear implicits.

(** ** Samples *)

#[local] Existing Instance sample_crates.

Definition sample_upstream : Directive :=
  block (str "upstream") [str "app"]
    [directive (str "least_conn") []; directive (str "server") [str "10.0.0.1:80"; str "weight=3"];
     directive (str "server") [str "10.0.0.2:80"; str "backup"]; directive (str "keepalive") [str "8"]].

Definition sample_built : option Built :=
  Eval vm_compute in match upstream no_builder sample_upstream with Fine (u, _) => Some u | _ => None end.

Lemma upstream_ready_witness :
  match sample_built with
  | Some u => Proxy.g_servers (up_group u) ≠ [] ∧ length (up_health u) = 2%nat
  | None => False
  end.
Proof.
  assert (upstream no_builder sample_upstream = Fine (match sample_built with Some u => u | None => mkBuilt [] (Proxy.mkGroup [] [] Upstream.IpHash 0 None) [] [] None end, no_builder)) as E by reflexivity.
  apply upstream_ready in E as (H1 & H2 & _). by split.
Defined.

Definition sample_map : Directive :=
  block (str "map") [str "$host"; str "$backend"]
    [directive (str "default") [str "a"]; directive (str "B.example") [str "b"]; directive (str "b.EXAMPLE") [str "c"]].

Lemma map_table_wf_witness :
  match map_of (Regex := bytes) sample_map with Fine m => table_wf m ∧ length (map_exact m) = 1%nat | _ => False end.
Proof.
  destruct (map_of sample_map) as [m| |] eqn:E; [|by vm_compute in E..].
  split; [by apply (map_table_wf sample_map) |]. vm_compute in E. by injection E as <-.
Defined.

(** An unreadable [weight] is one, where a misspelt parameter is an error. *)
Example bad_weight_is_one :
  match upstream no_builder (block (str "upstream") [str "u"] [directive (str "server") [str "h"; str "weight=O3"]]) with
  | Fine (u, _) => Upstream.weight <$> Proxy.g_servers (up_group u) = [1]
  | _ => False
  end.
Proof. by vm_compute. Qed.
