(* ===== verification/Server.v ===== *)
(** * [src/config/build.rs]: [location] and [server] blocks

    A block is read into a [Level], its settings are resolved over those of
    the block around it, and its locations are built under the result. *)
From S2P Require Import Prelude.
From S2P Require Import Text.
From S2P Require Import Ast.
From S2P Require Import Model.
From S2P Require Import Matching.
From S2P Require Import Args.
From S2P Require Import Addr.
From S2P Require Import Layer.
From S2P Require Import Level.
From S2P Require Import Listen.

Open Scope Z_scope.

Section server.
  Context {Regex : Type} `{!Crates Regex}.

(** ** [location] *)

Definition is_location (c : Directive) : bool := bool_decide (name c = str "location").

Definition matcher_of (d : Directive) : outcome (LocMatch (Regex := Regex)) :=
  want_args_range d 1 2 ;; m ← nth_arg d 0;
  match arg d 1 with
  | Some p =>
      if decide (m = str "=") then Fine (Exact p)
      else if decide (m = str "^~") then Fine (PrefixNoRegex p)
      else if decide (m = str "~") then re ← compile_regex p false d; Fine (RegexLoc re false)
      else if decide (m = str "~*") then re ← compile_regex p true d; Fine (RegexLoc re true)
      else bail d [str "invalid location modifier "; q m]
  | None => if starts_with (str "@") m then Fine (Named (drop 1 m)) else Fine (Prefix m)
  end.

(** A child of a location or a server that is not the block's own business *)
Definition block_child (scope : Scope) (s : Level Regex * Builder) (c : Directive) : outcome (Level Regex * Builder) :=
  if is_location c then Fine ((fst s) <| lv_locations := lv_locations (fst s) ++ [c] |>, snd s)
  else other_directive scope s c.

(** The blocks of [location] are those [block_child] set aside, in order
    ([location_eq]); they are found among the children again so that the
    recursion is on the tree. *)
Fixpoint location (d : Directive) : CoreConf Regex → Builder → outcome (Loc Regex * Builder) :=
  match d with
  | mkDirective _ _ blk line _ => λ parent b,
      m ← matcher_of d;
      '(lv, b) ← each (block_child ScopeLocation) (empty_level, b) (children d);
      let core := resolve (lv_core lv) parent in
      '(nest, b) ←
        match lv_locations lv with
        | [] => Fine (None, b)
        | _ =>
            '(ls, b) ←
              match blk with
              | Some cs =>
                  (fix go cs b :=
                     match cs with
                     | [] => Fine ([], b)
                     | c :: cs =>
                         if is_location c then
                           '(l, b) ← location c core b; '(ls, b) ← go cs b; Fine (l :: ls, b)
                         else go cs b
                     end) cs b
              | None => Fine ([], b)
              end;
            Fine (Some (loc_set ls), b)
        end;
      Fine (mkLocation m line
              (mkLocConf core (default Static (lv_action lv)) (lv_try_files lv) (lv_rewrites lv) (lv_ifs lv)
                 (default [] (lv_error_pages lv)) (default [] (lv_access_logs lv)) nest (lv_allowed_methods lv)), b)
  end.

(** The locations of a block, each built after the one before it. *)
Fixpoint locations (ds : list Directive) (core : CoreConf Regex) (b : Builder) : outcome (list (Loc Regex) * Builder) :=
  match ds with
  | [] => Fine ([], b)
  | d :: ds => '(l, b) ← location d core b; '(ls, b) ← locations ds core b; Fine (l :: ls, b)
  end.

Definition loc_set_of (ds : list Directive) (core : CoreConf Regex) (b : Builder) : outcome (Locs Regex * Builder) :=
  '(ls, b) ← locations ds core b; Fine (loc_set ls, b).

(** ** [server] *)

Definition server_name (d : Directive) (a : bytes) : outcome (ServerName (HostRegex := Regex)) :=
  if decide (a = [] ∨ a = [x22; x22]) then Fine EmptyName
  else match strip_prefix (str "~*") a, strip_prefix (str "~") a with
  | Some re, _ => RegexName <$> compile_regex re true d
  | None, Some re => RegexName <$> compile_regex re false d
  | None, None =>
      match strip_prefix (str "*.") a, strip_suffix (str ".*") a with
      | Some suffix, _ => Fine (LeadingWildcard suffix)
      | None, Some pre => Fine (TrailingWildcard pre)
      | None, None => Fine (ExactName (lowercase a))
      end
  end.

Record TlsConf := mkTls { cert : bytes; key : bytes; protocols : list bytes; alpn_h2 : bool }.

(** [ServerConf]: what answers requests, and the rest of it. *)
Record Server := mkServer {
  sv_conf : ServerConf (HostRegex := Regex) (Server := Srv Regex);
  sv_tls : option TlsConf;
  sv_listens : list ListenSpec;
  sv_line : Z
}.

(** The locals of [server] *)
Record Draft := mkDraft {
  t_level : Level Regex;
  t_names : list (ServerName (HostRegex := Regex));
  t_listens : list ListenSpec;
  t_cert : option bytes;
  t_key : option bytes;
  t_protocols : list bytes
}.
#[export] Instance eta_draft : Eta Draft := λ t,
  mkDraft (t_level t) (t_names t) (t_listens t) (t_cert t) (t_key t) (t_protocols t).

Definition ssl_ignored : list bytes :=
  [str "ssl_ciphers"; str "ssl_prefer_server_ciphers"; str "ssl_session_cache"; str "ssl_session_timeout";
   str "ssl_session_tickets"; str "ssl_dhparam"; str "ssl_ecdh_curve"; str "ssl_stapling"; str "ssl_stapling_verify"].

Definition server_child (s : Draft * Builder) (c : Directive) : outcome (Draft * Builder) :=
  let '(t, b) := s in
  if decide (name c = str "listen") then l ← listen c; Fine (t <| t_listens := t_listens t ++ [l] |>, b)
  else if decide (name c = str "server_name") then
    ns ← collect (server_name c) (args c); Fine (t <| t_names := t_names t ++ ns |>, b)
  else if decide (name c = str "ssl_certificate") then p ← word c; Fine (t <| t_cert := Some (abs b p) |>, b)
  else if decide (name c = str "ssl_certificate_key") then p ← word c; Fine (t <| t_key := Some (abs b p) |>, b)
  else if decide (name c = str "ssl_protocols") then Fine (t <| t_protocols := args c |>, b)
  else if decide (name c ∈ ssl_ignored) then Fine (t, b)
  else '(lv, b) ← block_child ScopeServer (t_level t, b) c; Fine (t <| t_level := lv |>, b).

Definition default_listen : ListenSpec := plain_listen (Tcp (mkAddr UNSPECIFIED 80 0)).

Definition or_nonempty {A} (l : list A) (a : A) : list A := match l with [] => [a] | _ => l end.

Definition tls_of (d : Directive) (t : Draft) (listens : list ListenSpec) : outcome (option TlsConf) :=
  tls ←
    match t_cert t, t_key t with
    | Some c, Some k => Fine (Some (mkTls c k (t_protocols t) (existsb http2 listens)))
    | None, None => Fine None
    | _, _ => bail d [str "both ssl_certificate and ssl_certificate_key are required"]
    end;
  match tls with
  | None =>
      if existsb ssl listens
      then bail d [str "no "; q (str "ssl_certificate"); str " is defined for the server listening on an ssl port"]
      else Fine None
  | Some tls => Fine (Some tls)
  end.

Definition alt_svc_of (listens : list ListenSpec) : option bytes :=
  (λ p, str "h3=" ++ [x22] ++ str ":" ++ fmt_u64 (addr_port (addr (snd p))) ++ [x22] ++ str "; ma=86400")
    <$> list_find (λ l, quic l = true) listens.

Definition server (d : Directive) (parent : CoreConf Regex) (parent_errs : list ErrorPage)
    (parent_logs : list AccessLogConf) (b : Builder) : outcome (Server * Builder) :=
  '(t, b) ← each server_child (mkDraft empty_level [] [] None None [], b) (children d);
  let listens := or_nonempty (t_listens t) default_listen in
  let names := or_nonempty (t_names t) (ExactName []) in
  let lv := t_level t in
  let core := resolve (lv_core lv) parent in
  tls ← tls_of d t listens;
  '(locs, b) ← loc_set_of (lv_locations lv) core b;
  Fine (mkServer
    (mkServerConf names
       (mkSrv core locs (lv_rewrites lv) (lv_ifs lv) (default parent_errs (lv_error_pages lv))
          (default parent_logs (lv_access_logs lv)) (default NoAction (lv_action lv)) (alt_svc_of listens)))
    tls listens (line_of d), b).

(** ** The blocks as the code has them *)

Lemma block_child_locations scope s c s' :
  block_child scope s c = Fine s' →
  lv_locations (fst s') = lv_locations (fst s) ++ (if is_location c then [c] else []).
Proof.
  unfold block_child. destruct (is_location c); [by intros [= <-] |]. intros H%other_directive_keeps. by rewrite app_nil_r.
Qed.

(** The locations set aside are the children of that name, in order. *)
Lemma set_aside scope cs s s' :
  each (block_child scope) s cs = Fine s' →
  lv_locations (fst s') = lv_locations (fst s) ++ filter (λ c, is_location c = true) cs.
Proof.
  revert s. induction cs as [|c cs IH]; intros s; cbn [each].
  - intros [= <-]. by rewrite filter_nil, app_nil_r.
  - intros (s1 & H1%block_child_locations & H)%outcome_bind_fine. rewrite (IH s1 H), H1, filter_cons, <-app_assoc.
    destruct (is_location c); [by rewrite decide_True | by rewrite decide_False].
Qed.

(** The body of [location]: the blocks set aside are built under its settings. *)
Lemma location_eq d parent b :
  location d parent b =
  (m ← matcher_of d;
   '(lv, b) ← each (block_child ScopeLocation) (empty_level, b) (children d);
   let core := resolve (lv_core lv) parent in
   '(nest, b) ←
     match lv_locations lv with
     | [] => Fine (None, b)
     | ds => '(set, b) ← loc_set_of ds core b; Fine (Some set, b)
     end;
   Fine (mkLocation m (line_of d)
           (mkLocConf core (default Static (lv_action lv)) (lv_try_files lv) (lv_rewrites lv) (lv_ifs lv)
              (default [] (lv_error_pages lv)) (default [] (lv_access_logs lv)) nest (lv_allowed_methods lv)), b)).
Proof.
  destruct d as [n a blk line file]. cbn [location line_of]. destruct (matcher_of _) as [m| |]; [|done..].
  cbn [mbind outcome_bind]. destruct (each _ _ _) as [[lv b']| |] eqn:E; [|done..].
  cbn [mbind outcome_bind]. apply set_aside in E. cbn [fst] in E. assert (lv_locations lv = filter (λ c, is_location c = true) (default [] blk)) as Hl by exact E.
  destruct (lv_locations lv) as [|c0 ds] eqn:Ed; [done |]. rewrite Hl. clear Hl E Ed.
  destruct blk as [cs|]; [|done]. cbn [default from_option id]. unfold loc_set_of.
  set (core := resolve (lv_core lv) parent). clearbody core.
  assert (∀ b, (fix go (cs : list Directive) (b : Builder) {struct cs} : outcome (list (Loc Regex) * Builder) :=
     match cs with
     | [] => Fine ([], b)
     | c :: cs0 => if is_location c then '(l, b0) ← location c core b; '(ls, b1) ← go cs0 b0; Fine (l :: ls, b1) else go cs0 b
     end) cs b = locations (filter (λ c, is_location c = true) cs) core b) as ->; [|by destruct (locations _ _ _) as [[]| |]].
  induction cs as [|c cs IH]; intros b0; [done |]. rewrite filter_cons. destruct (is_location c) eqn:Ec.
  - rewrite decide_True by done. cbn [locations]. destruct (location c core b0) as [[l b1]| |]; [|done..].
    cbn [mbind outcome_bind]. by rewrite IH.
  - by rewrite decide_False, IH.
Qed.

(** ** No block aborts the load *)

(** Every directive of a tree is tame. *)
Fixpoint tame_tree (d : Directive) : Prop :=
  match d with
  | mkDirective _ _ blk _ _ =>
      tame d ∧ match blk with Some cs => foldr (λ c P, tame_tree c ∧ P) True cs | None => True end
  end.

Lemma tame_tree_inv d : tame_tree d ↔ tame d ∧ Forall tame_tree (children d).
Proof.
  destruct d as [n a [cs|] l f]; cbn [tame_tree]; (split; intros [H1 H2]; (split; [done |])); try done; cbn in *.
  - induction cs as [|c cs IH]; [constructor |]. destruct H2 as [Hc H2]. constructor; [done |]. apply IH; [|done].
    destruct H1 as [? H1]. split; [done |]. by apply Forall_cons in H1 as [_ ?].
  - induction cs as [|c cs IH]; [done |]. apply Forall_cons in H2 as [Hc H2]. split; [done |]. apply IH; [|done].
    destruct H1 as [? H1]. split; [done |]. by apply Forall_cons in H1 as [_ ?].
Qed.

Lemma quiet_matcher_of d : quiet (matcher_of d).
Proof. unfold matcher_of. quiet. Qed.

Lemma quiet_block_child scope s c : tame c → quiet (block_child scope s c).
Proof. intros Hc. unfold block_child. quiet. Qed.

Lemma quiet_locations ds core b :
  Forall (λ d, ∀ parent b, quiet (location d parent b)) ds → quiet (locations ds core b).
Proof.
  intros H. revert b. induction H as [|d ds Hd _ IH]; intros b; cbn [locations]; [done |].
  apply quiet_bind; [apply Hd |]. intros [l b1] _. apply quiet_bind; [apply IH |]. by intros [ls b2] _.
Qed.

Lemma quiet_location d : tame_tree d → ∀ parent b, quiet (location d parent b).
Proof.
  induction d as [n a l f | n a cs l f IH] using directive_ind; intros Ht%tame_tree_inv parent b; rewrite location_eq;
    destruct Ht as [Ht Hc]; (apply quiet_bind; [apply quiet_matcher_of |]); intros m _.
  - cbn. done.
  - cbn [children block_of default from_option id] in *. apply quiet_bind.
    + apply quiet_each. intros s c Hin. apply quiet_block_child. rewrite Forall_forall in Hc. by apply Hc, tame_tree_inv in Hin as [? _].
    + intros [lv b1] E. apply set_aside in E. cbn [fst] in E. cbv zeta.
      apply quiet_bind; [|by intros [nest b2] _]. destruct (lv_locations lv) as [|d0 ds] eqn:Ed; [done |].
      unfold loc_set_of. apply quiet_bind; [|intros [set b2] _; done]. apply quiet_bind; [|intros [ls b2] _; done].
      apply quiet_locations. rewrite <-Ed. rewrite Ed, E. cbn [app].
      apply Forall_forall. intros c [_ Hin]%list_elem_of_filter. rewrite Forall_forall in IH, Hc. auto.
Qed.

Lemma quiet_server_name d a : quiet (server_name d a).
Proof. unfold server_name. quiet. Qed.

Lemma server_child_location t b c :
  is_location c = true →
  server_child (t, b) c = ('(lv, b) ← block_child ScopeServer (t_level t, b) c; Fine (t <| t_level := lv |>, b)).
Proof.
  intros E%bool_decide_eq_true. unfold server_child. rewrite E.
  do 5 (rewrite decide_False by (vm_compute; discriminate)).
  by rewrite decide_False by (apply (bool_decide_unpack _); vm_compute; exact I).
Qed.

Lemma server_child_locations s c s' :
  server_child s c = Fine s' →
  lv_locations (t_level (fst s')) = lv_locations (t_level (fst s)) ++ (if is_location c then [c] else []).
Proof.
  destruct s as [t b]. destruct (is_location c) eqn:Ec.
  - rewrite server_child_location by done. intros ([lv b1] & H%block_child_locations & [= <-])%outcome_bind_fine.
    rewrite Ec in H. exact H.
  - unfold server_child. repeat (destruct (decide _) as [?|?];
      [first [intros (? & _ & [= <-])%outcome_bind_fine | intros [= <-]]; by rewrite app_nil_r |]).
    intros ([lv b1] & H%block_child_locations & [= <-])%outcome_bind_fine. rewrite Ec in H. exact H.
Qed.

Lemma server_set_aside cs s s' :
  each server_child s cs = Fine s' →
  lv_locations (t_level (fst s')) = lv_locations (t_level (fst s)) ++ filter (λ c, is_location c = true) cs.
Proof.
  revert s. induction cs as [|c cs IH]; intros s; cbn [each].
  - intros [= <-]. by rewrite filter_nil, app_nil_r.
  - intros (s1 & H1%server_child_locations & H)%outcome_bind_fine. rewrite (IH s1 H), H1, filter_cons, <-app_assoc.
    destruct (is_location c); [by rewrite decide_True | by rewrite decide_False].
Qed.

Lemma quiet_server d parent errs logs b : tame_tree d → quiet (server d parent errs logs b).
Proof.
  intros [_ Hc]%tame_tree_inv. rewrite Forall_forall in Hc. unfold server. apply quiet_bind.
  - apply quiet_each. intros [t b0] c Hin. unfold server_child.
    repeat (destruct (decide _) as [?|?]; [first [discriminate | apply quiet_bind; [|discriminate || (intros; discriminate)]; eauto using quiet_collect, quiet_server_name with quiet] |]).
    apply quiet_bind; [|intros [] _; done]. apply quiet_block_child. by apply Hc, tame_tree_inv in Hin as [? _].
  - intros [t b1] E%server_set_aside. cbn [fst] in E. cbv zeta. apply quiet_bind.
    + unfold tls_of. apply quiet_bind; [by destruct (t_cert t), (t_key t) |]. intros [tls|] _; [done |]. by destruct (existsb _ _).
    + intros tls _. apply quiet_bind; [|intros [locs b2] _; done]. unfold loc_set_of.
      apply quiet_bind; [|intros [ls b2] _; done]. apply quiet_locations. rewrite E. cbn [app].
      apply Forall_forall. intros c [_ Hin]%list_elem_of_filter. by apply quiet_location, Hc.
Qed.

(** ** What a server promises *)

(** A server that is accepted listens somewhere and has a name; it has a
    certificate if it listens with TLS, which a QUIC line does; it advertises
    HTTP/3 exactly when it has a QUIC line, on that line's port; and its
    locations are kept in the order their search relies on. *)
Theorem server_ready (d : Directive) (parent : CoreConf Regex) (errs : list ErrorPage) (logs : list AccessLogConf)
    (b b' : Builder) (s : Server) :
  server d parent errs logs b = Fine (s, b') →
  sv_listens s ≠ [] ∧ names (sv_conf s) ≠ [] ∧
  (Exists (λ l, ssl l = true) (sv_listens s) → is_Some (sv_tls s)) ∧
  (is_Some (alt_svc (conf (sv_conf s))) ↔ Exists (λ l, quic l = true) (sv_listens s)) ∧
  ∃ ls, s_locations (conf (sv_conf s)) = loc_set ls.
Proof.
  unfold server. intros ([t b1] & _ & H)%outcome_bind_fine. cbv zeta in H.
  apply outcome_bind_fine in H as (tls & Ht & H). apply outcome_bind_fine in H as ([locs b2] & Hl & [= <- <-]). cbn.
  set (ls := or_nonempty (t_listens t) default_listen) in *. split; [subst ls; by destruct (t_listens t) |].
  split; [by destruct (t_names t) |]. split; [|split].
  - intros He. destruct tls as [tls|]; [by eexists |]. exfalso. revert Ht. unfold tls_of.
    intros (o & _ & Ho)%outcome_bind_fine. destruct o as [?|]; [done |].
    destruct (existsb ssl ls) eqn:Ex; [done |]. apply Exists_exists in He as (l & Hl1 & Hl2).
    apply not_true_iff_false in Ex. apply Ex, existsb_exists. exists l. split; [by apply list_elem_of_In | done].
  - unfold alt_svc_of. rewrite fmap_is_Some. split.
    + intros [[i l] (Hi & Hq & _)%list_find_Some]. apply Exists_exists. exists l. split; [by eapply list_elem_of_lookup_2 | done].
    + intros (l & Hin & Hq)%Exists_exists. eapply list_find_elem_of; [exact Hin | done].
  - revert Hl. unfold loc_set_of. intros ([l3 b3] & _ & [= <- <-])%outcome_bind_fine. by eexists.
Qed.
End server.

Arguments Server : clear implicits.
#[export] Hint Resolve quiet_server : quiet.

(** ** Samples *)

#[local] Existing Instance sample_crates.

Definition sample_server : Directive :=
  block (str "server") []
    [directive (str "listen") [str "443"; str "ssl"]; directive (str "listen") [str "443"; str "quic"];
     directive (str "server_name") [str "Example.com"; str "*.example.com"];
     directive (str "ssl_certificate") [str "c.pem"]; directive (str "ssl_certificate_key") [str "k.pem"];
     block (str "location") [str "/"] [directive (str "autoindex") [str "on"];
       block (str "location") [str "/inner"] [directive (str "etag") [str "off"]]]].

Lemma server_ready_witness :
  match server sample_server default_core [] [] no_builder with
  | Fine (s, _) => length (sv_listens s) = 2%nat ∧ is_Some (sv_tls s) ∧ alt_svc (conf (sv_conf s)) = Some (str "h3=" ++ q (str ":443") ++ str "; ma=86400")
  | _ => False
  end.
Proof.
  destruct (server sample_server default_core [] [] no_builder) as [[s b]| |] eqn:E; [|by vm_compute in E..].
  pose proof (server_ready _ _ _ _ _ _ _ E) as (_ & _ & Ht & _).
  assert (length (sv_listens s) = 2%nat ∧ existsb ssl (sv_listens s) = true ∧
    alt_svc (conf (sv_conf s)) = Some (str "h3=" ++ q (str ":443") ++ str "; ma=86400")) as (H1 & H2 & H3).
  { vm_compute in E. injection E as <- _. by repeat split. }
  split; [done |]. split; [|done]. apply Ht. apply existsb_exists in H2 as (l & Hl%list_elem_of_In & Hs).
  apply Exists_exists. by exists l.
Defined.

(** The settings of an inner location come through the outer one. *)
Example inner_settings :
  match server sample_server default_core [] [] no_builder with
  | Fine (s, _) =>
      (λ l, (λ i, (autoindex (core (payload i)), etag (core (payload i)))) <$> default [] (prefix <$> nested (payload l)))
        <$> prefix (s_locations (conf (sv_conf s))) = [[(true, false)]]
  | _ => False
  end.
Proof. by vm_compute. Qed.
