(* ===== verification/Http.v ===== *)
(** * [src/config/build.rs]: the [http] block

    Everything a worker serves HTTP with: the servers, the sockets they are
    reached on, and the tables they refer to by name. *)
From S2P Require Import Prelude.
From S2P Require Import Text.
From S2P Require Import Ast.
From S2P Require Import Vars.
From S2P Require Import Model.
From S2P Require Import Matching.
From S2P Require Import Args.
From S2P Require Import Layer.
From S2P Require Import Level.
From S2P Require Import Listen.
From S2P Require Import Blocks.
From S2P Require Import Server.
From S2P Require Mime.

Open Scope Z_scope.

Definition COMBINED_FORMAT : bytes :=
  str "$remote_addr - $remote_user [$time_local] " ++ q (str "$request") ++ str " $status $body_bytes_sent " ++
  q (str "$http_referer") ++ str " " ++ q (str "$http_user_agent").

Section http.
  Context {Regex : Type} `{!Crates Regex}.

(** [Http]; a limit's zone is kept with its key. *)
Record Http := mkHttp {
  h_cache_zones : gmap bytes CacheZone;
  h_limit_req_zones : gmap bytes LimitReqZoneDef;
  h_limit_conn_zones : gmap bytes LimitConnZoneDef;
  h_listeners : list (Listener (Server Regex));
  h_quic_listeners : list (Listener (Server Regex));
  h_upstreams : gmap bytes Built;
  h_maps : list (MapConf Regex);
  h_mime : Mime.MimeTypes;
  h_servers : list (Server Regex)
}.

(** The locals of [http] *)
Record Draft := mkDraft {
  w_mime : Mime.MimeTypes;
  w_upstreams : gmap bytes Built;
  w_req_zones : list LimitReqZoneDef;
  w_conn_zones : list LimitConnZoneDef;
  w_caches : list CacheZone;
  w_maps : list (MapConf Regex);
  w_level : Level Regex;
  w_servers : list Directive
}.
#[export] Instance eta_http_draft : Eta Draft := λ w,
  mkDraft (w_mime w) (w_upstreams w) (w_req_zones w) (w_conn_zones w) (w_caches w) (w_maps w) (w_level w) (w_servers w).

(** The first pass, for the formats *)
Definition log_format_child (b : Builder) (c : Directive) : outcome Builder :=
  if decide (name c = str "log_format") then
    want_args_range c 2 64 ;; n ← nth_arg c 0;
    Fine (b <| log_formats := <[n := compile (concat (drop 1 (args c)))]> (log_formats b) |>)
  else Fine b.

Definition with_combined (b : Builder) : Builder :=
  match log_formats b !! str "combined" with
  | Some _ => b
  | None => b <| log_formats := <[str "combined" := compile COMBINED_FORMAT]> (log_formats b) |>
  end.

Definition insert_types (m : Mime.MimeTypes) (t : Directive) : Mime.MimeTypes :=
  foldl (λ m ext, Mime.insert_type ext (name t) m) m (args t).

(** The second pass *)
Definition http_child (s : Draft * Builder) (c : Directive) : outcome (Draft * Builder) :=
  let '(w, b) := s in
  if decide (name c = str "log_format") then Fine (w, b)
  else if decide (name c = str "types") then Fine (w <| w_mime := foldl insert_types (w_mime w) (children c) |>, b)
  else if decide (name c = str "proxy_cache_path") then
    want_args_range c 2 12 ;; z ← parse_cache_path b c; Fine (w <| w_caches := w_caches w ++ [z] |>, b)
  else if decide (name c = str "limit_req_zone") then
    want_args_range c 3 4 ;; z ← parse_limit_req_zone c; Fine (w <| w_req_zones := w_req_zones w ++ [z] |>, b)
  else if decide (name c = str "limit_conn_zone") then
    want_args c 2 ;; z ← parse_limit_conn_zone c; Fine (w <| w_conn_zones := w_conn_zones w ++ [z] |>, b)
  else if decide (name c = str "upstream") then
    want_args c 1 ;; '(u, b) ← upstream b c; n ← nth_arg c 0;
    Fine (w <| w_upstreams := <[n := u]> (w_upstreams w) |>, b)
  else if decide (name c = str "map") then m ← map_of c; Fine (w <| w_maps := w_maps w ++ [m] |>, b)
  else if decide (name c = str "server") then Fine (w <| w_servers := w_servers w ++ [c] |>, b)
  else '(lv, b) ← other_directive ScopeHttp (w_level w, b) c; Fine (w <| w_level := lv |>, b).

Fixpoint servers_of (ds : list Directive) (core : CoreConf Regex) (errs : list ErrorPage) (logs : list AccessLogConf)
    (b : Builder) : outcome (list (Server Regex) * Builder) :=
  match ds with
  | [] => Fine ([], b)
  | d :: ds =>
      '(s, b) ← server d core errs logs b; '(ss, b) ← servers_of ds core errs logs b; Fine (s :: ss, b)
  end.

Definition by_name {A} (n : A → bytes) (l : list A) : gmap bytes A := foldl (λ m a, <[n a := a]> m) ∅ l.

(** ** Names that must have been declared *)

Definition unknown {A} (what n place : bytes) : outcome A :=
  Bad (mkBuildError (str "unknown " ++ what ++ str " " ++ q n) place).

Definition known {A B} (what place : bytes) (n : A → bytes) (zones : gmap bytes B) (l : list A) : outcome unit :=
  each (λ _ a, match zones !! n a with Some _ => Fine () | None => unknown what (n a) place end) () l.

Definition check_zones_exist (core : CoreConf Regex) (reqs : gmap bytes LimitReqZoneDef)
    (conns : gmap bytes LimitConnZoneDef) : outcome unit :=
  known (str "limit_req zone") (str "limit_req") lr_zone reqs (limit_reqs core) ;;
  known (str "limit_conn zone") (str "limit_conn") lc_zone conns (limit_conns core).

Definition check_cache_zone (core : CoreConf Regex) (zones : gmap bytes CacheZone) : outcome unit :=
  known (str "proxy_cache zone") (str "proxy_cache") id zones (option_list (pc_zone (proxy_cache core))).

(** The settings a check looks at: a server's, then its locations' - those of
    the outermost level that have no name. *)
Definition checked_cores (s : Server Regex) : list (CoreConf Regex) :=
  let c := conf (sv_conf s) in
  s_core c :: ((core ∘ payload) <$> prefix (s_locations c) ++ regex (s_locations c) ++ exact (s_locations c)).

Definition check_all (f : CoreConf Regex → outcome unit) (servers : list (Server Regex)) : outcome unit :=
  each (λ _ c, f c) () (servers ≫= checked_cores).

Definition http (d : Directive) (b : Builder) : outcome (Http * Builder) :=
  b ← each log_format_child b (children d);
  let b := with_combined b in
  '(w, b) ← each http_child (mkDraft (Mime.load_defaults ∅) ∅ [] [] [] [] empty_level [], b) (children d);
  let lv := w_level w in
  let core := resolve (lv_core lv) default_core in
  combined ← match log_formats b !! str "combined" with Some t => Fine t | None => Panic end;
  let logs := default [mkAccessLogConf (LogFile (abs b (str "logs/access.log"))) combined 0 None] (lv_access_logs lv) in
  '(servers, b) ← servers_of (w_servers w) core (default [] (lv_error_pages lv)) logs b;
  if decide (length servers = 0%nat) then bail d [str "no server blocks defined in http"]
  else
    tcp ← listeners sv_listens sv_line servers false;
    udp ← listeners sv_listens sv_line servers true;
    let reqs := by_name rz_name (w_req_zones w) in
    let conns := by_name cz_name (w_conn_zones w) in
    check_all (λ c, check_zones_exist c reqs conns) servers ;;
    let caches := by_name kz_name (w_caches w) in
    check_all (λ c, check_cache_zone c caches) servers ;;
    Fine (mkHttp caches reqs conns tcp udp (w_upstreams w) (w_maps w) (w_mime w) servers, b).

(** ** What the block promises *)

Lemma servers_of_made ds core errs logs b ss b' :
  servers_of ds core errs logs b = Fine (ss, b') →
  Forall (λ s, ∃ d b b', d ∈ ds ∧ server d core errs logs b = Fine (s, b')) ss.
Proof.
  revert b ss b'. induction ds as [|d ds IH]; intros b ss b'; cbn [servers_of]; [by intros [= <- _] |].
  intros ([s b1] & H1 & ([ss1 b2] & H2 & [= <- _])%outcome_bind_fine)%outcome_bind_fine. constructor.
  - exists d, b, b1. split; [by apply elem_of_cons; left | done].
  - eapply Forall_impl; [by eapply IH |]. intros s0 (d0 & b3 & b4 & Hd & H). exists d0, b3, b4. split; [by apply elem_of_cons; right | done].
Qed.

Lemma known_fine {A B} (what place : bytes) (n : A → bytes) (zones : gmap bytes B) (l : list A) :
  known what place n zones l = Fine () → Forall (λ a, is_Some (zones !! n a)) l.
Proof.
  unfold known. induction l as [|a l IH]; cbn [each]; [by constructor |].
  destruct (zones !! n a) as [z|] eqn:E; [|done]. intros H. constructor; [by eexists | auto].
Qed.

Lemma check_all_fine f servers :
  check_all f servers = Fine () → ∀ s c, s ∈ servers → c ∈ checked_cores s → f c = Fine ().
Proof.
  unfold check_all. intros H s c Hs Hc. assert (c ∈ servers ≫= checked_cores) as Hin by (apply list_elem_of_bind; eauto).
  revert H Hin. induction (servers ≫= checked_cores) as [|c0 l IH]; [by intros _ ?%not_elem_of_nil |]. cbn [each].
  intros ([] & H0 & H)%outcome_bind_fine [->|Hin]%elem_of_cons; auto.
Qed.

(** What [http] gives, in the terms of its steps. *)
Lemma http_inv d b h b' :
  http d b = Fine (h, b') →
  ∃ ds core errs logs b1 b2,
    servers_of ds core errs logs b1 = Fine (h_servers h, b2) ∧ h_servers h ≠ [] ∧
    listeners sv_listens sv_line (h_servers h) false = Fine (h_listeners h) ∧
    listeners sv_listens sv_line (h_servers h) true = Fine (h_quic_listeners h) ∧
    check_all (λ c, check_zones_exist c (h_limit_req_zones h) (h_limit_conn_zones h)) (h_servers h) = Fine () ∧
    check_all (λ c, check_cache_zone c (h_cache_zones h)) (h_servers h) = Fine ().
Proof.
  unfold http. intros (b1 & _ & ([w b2] & _ & H)%outcome_bind_fine)%outcome_bind_fine. cbv zeta in H.
  apply outcome_bind_fine in H as (t & _ & ([ss b3] & Hs & H)%outcome_bind_fine).
  case_decide as Hn; [done |].
  apply outcome_bind_fine in H as (tcp & Ht & (udp & Hu & ([] & H1 & ([] & H2 & [= <- <-])%outcome_bind_fine)%outcome_bind_fine)%outcome_bind_fine).
  cbn. do 6 eexists. split; [exact Hs |]. split; [by destruct ss |]. done.
Qed.

(** Every line of every server has a socket of its kind and address with
    that server among those it can select, no two sockets of a kind share an
    address, and each has its default in range; every server has a name, and
    a certificate if it listens with TLS. *)
Theorem every_line_is_bound (d : Directive) (b b' : Builder) (h : Http) :
  http d b = Fine (h, b') →
  h_servers h ≠ [] ∧
  Forall (λ s, names (sv_conf s) ≠ [] ∧ (Exists (λ l, ssl l = true) (sv_listens s) → is_Some (sv_tls s))) (h_servers h) ∧
  ∀ quic_line, let ls := if quic_line : bool then h_quic_listeners h else h_listeners h in
    NoDup (l_addr <$> ls) ∧
    Forall (λ L, (l_default_server L < length (l_servers L))%nat) ls ∧
    ∀ s l, s ∈ h_servers h → l ∈ sv_listens s → quic l = quic_line →
      ∃ L, L ∈ ls ∧ l_addr L = addr l ∧ s ∈ l_servers L.
Proof.
  intros (ds & core & errs & logs & b1 & b2 & Hs & Hne & Ht & Hu & _)%http_inv. split; [done |]. split.
  - apply servers_of_made in Hs. eapply Forall_impl; [exact Hs |]. intros s (d0 & b3 & b4 & _ & H).
    apply server_ready in H as (_ & Hn & Hc & _). done.
  - intros k. set (ls := if k then _ else _).
    assert (listeners sv_listens sv_line (h_servers h) k = Fine ls) as H by by destruct k.
    pose proof (listeners_fine _ _ _ _ _ H) as ->. split; [|split].
    + rewrite addr_listener_of. apply firsts_nodup.
    + apply Forall_forall. intros L HL. by eapply listener_default.
    + intros s l Hs0 Hl <-. eapply line_has_listener; [exact Hs0 | exact Hl].
Qed.

(** A limit or a cache that a server, or one of its own unnamed
    locations, names has been declared. *)
Theorem zones_declared (d : Directive) (b b' : Builder) (h : Http) :
  http d b = Fine (h, b') →
  ∀ s c, s ∈ h_servers h → c ∈ checked_cores s →
    Forall (λ l, is_Some (h_limit_req_zones h !! lr_zone l)) (limit_reqs c) ∧
    Forall (λ l, is_Some (h_limit_conn_zones h !! lc_zone l)) (limit_conns c) ∧
    (∀ z, pc_zone (proxy_cache c) = Some z → is_Some (h_cache_zones h !! z)).
Proof.
  intros (ds & core & errs & logs & b1 & b2 & _ & _ & _ & _ & H1 & H2)%http_inv s c Hs Hc.
  pose proof (check_all_fine _ _ H1 s c Hs Hc) as Hz. pose proof (check_all_fine _ _ H2 s c Hs Hc) as Hk.
  apply outcome_bind_fine in Hz as ([] & Hr%known_fine & Hcn%known_fine). apply known_fine in Hk.
  split; [done |]. split; [done |]. intros z Ez. rewrite Ez in Hk. by apply Forall_cons in Hk as [? _].
Qed.

(** ** The block does not abort the load *)

Lemma quiet_known {A B} (what place : bytes) (n : A → bytes) (zones : gmap bytes B) (l : list A) :
  quiet (known what place n zones l).
Proof. unfold known. apply quiet_each. intros _ a _. by destruct (zones !! n a). Qed.

Lemma quiet_check_all f servers : (∀ c, quiet (f c)) → quiet (check_all f servers).
Proof. intros Hf. unfold check_all. apply quiet_each. intros _ c _. apply Hf. Qed.

Lemma quiet_servers_of ds core errs logs b : Forall tame_tree ds → quiet (servers_of ds core errs logs b).
Proof.
  intros H. revert b. induction H as [|d ds Hd _ IH]; intros b; cbn [servers_of]; [done |].
  apply quiet_bind; [by apply quiet_server |]. intros [s b1] _. apply quiet_bind; [apply IH | by intros [ss b2] _].
Qed.

(** Only [server] blocks are set aside. *)
Lemma http_child_servers s c s' :
  http_child s c = Fine s' → w_servers (fst s') = w_servers (fst s) ∨ w_servers (fst s') = w_servers (fst s) ++ [c].
Proof.
  destruct s as [w b]. unfold http_child.
  do 2 (destruct (decide _) as [_|_]; [intros [= <-]; by left |]).
  do 3 (destruct (decide _) as [_|_]; [intros (u & _ & (z & _ & [= <-])%outcome_bind_fine)%outcome_bind_fine; by left |]).
  destruct (decide _) as [_|_].
  { intros (u & _ & ([u0 b2] & _ & (n & _ & [= <-])%outcome_bind_fine)%outcome_bind_fine)%outcome_bind_fine. by left. }
  destruct (decide _) as [_|_]; [intros (m & _ & [= <-])%outcome_bind_fine; by left |].
  destruct (decide _) as [_|_]; [intros [= <-]; by right |].
  intros ([lv b1] & _ & [= <-])%outcome_bind_fine. by left.
Qed.

Lemma http_set_aside cs s s' :
  each http_child s cs = Fine s' → ∀ d, d ∈ w_servers (fst s') → d ∈ w_servers (fst s) ∨ d ∈ cs.
Proof.
  revert s. induction cs as [|c cs IH]; intros s; cbn [each]; [intros [= <-]; auto |].
  intros (s1 & H1%http_child_servers & H)%outcome_bind_fine d Hd. apply (IH s1 H) in Hd as [Hd|Hd].
  - destruct H1 as [E|E]; rewrite E in Hd; [by left |]. apply elem_of_app in Hd as [?|Hd]; [by left |].
    apply list_elem_of_singleton in Hd as ->. right. by apply elem_of_cons; left.
  - right. by apply elem_of_cons; right.
Qed.

Lemma upstream_formats b d u b' : upstream b d = Fine (u, b') → log_formats b' = log_formats b.
Proof.
  unfold upstream. intros ([u0 b1] & E & (n & _ & H)%outcome_bind_fine)%outcome_bind_fine. case_decide; [done |].
  assert (log_formats b1 = log_formats b) as <-; [|by simplify_eq].
  eapply (each_inv (λ s, log_formats (snd s) = log_formats b)) in E; [exact E | | done].
  clear. intros [u b0] c [u' b1] _ Hb. cbn in Hb. unfold upstream_child.
  do 4 (destruct (decide _) as [_|_]; [by intros (x & _ & [= <- <-])%outcome_bind_fine |]).
  destruct (assoc _ _); [by intros [= <- <-] |]. destruct (decide _) as [_|_]; intros [= <- <-]; [done |]. cbn. rewrite <-Hb. apply note_formats.
Qed.

Lemma http_keeps_formats cs s s' : each http_child s cs = Fine s' → log_formats (snd s') = log_formats (snd s).
Proof.
  intros E. eapply (each_inv (λ s', log_formats (snd s') = log_formats (snd s))) in E; [exact E | | done].
  clear. intros [w b0] c [w' b1] _ <-. cbn. unfold http_child.
  do 2 (destruct (decide _) as [_|_]; [by intros [= <- <-] |]).
  do 3 (destruct (decide _) as [_|_]; [by intros (u & _ & (z & _ & [= <- <-])%outcome_bind_fine)%outcome_bind_fine |]).
  destruct (decide _) as [_|_].
  { intros (u & _ & ([u0 b2] & H%upstream_formats & (nm & _ & [= <- <-])%outcome_bind_fine)%outcome_bind_fine)%outcome_bind_fine. done. }
  destruct (decide _) as [_|_]; [by intros (m & _ & [= <- <-])%outcome_bind_fine |].
  destruct (decide _) as [_|_]; [by intros [= <- <-] |].
  intros ([lv b2] & [_ H]%other_directive_kept & [= <- <-])%outcome_bind_fine. exact H.
Qed.

Lemma quiet_http d b : tame_tree d → quiet (http d b).
Proof.
  intros [_ Hc]%tame_tree_inv. rewrite Forall_forall in Hc. unfold http. apply quiet_bind.
  { apply quiet_each. intros b0 c _. unfold log_format_child. quiet. }
  intros b1 _. cbv zeta. apply quiet_bind.
  { apply quiet_each. intros [w b0] c Hin. unfold http_child. pose proof (Hc c Hin) as [Ht Hcc]%tame_tree_inv.
    assert (Forall tame (children c)) as Htc.
    { eapply Forall_impl; [exact Hcc |]. by intros x [? _]%tame_tree_inv. }
    do 2 (destruct (decide _) as [_|_]; [discriminate |]).
    do 2 (destruct (decide _) as [_|_]; [apply quiet_bind; [quiet |]; intros u Hu%want_args_range_length; apply quiet_bind; [|intros; discriminate];
      (apply quiet_parse_cache_path || apply quiet_parse_limit_req_zone); done || lia |]).
    destruct (decide _) as [_|_]; [apply quiet_bind; [quiet |]; intros u Hu%want_args_length; apply quiet_bind; [|intros; discriminate];
      apply quiet_parse_limit_conn_zone; lia |].
    destruct (decide _) as [_|_]; [apply quiet_bind; [quiet |]; intros u Hu%want_args_length; apply quiet_bind |].
    - apply quiet_upstream; [|done]. intros E. by rewrite E in Hu.
    - intros [u0 b2] _. apply quiet_bind; [apply quiet_nth_arg; lia | intros; discriminate].
    - destruct (decide _); [apply quiet_bind; [apply quiet_map_of | intros; discriminate] |].
      destruct (decide _) as [_|_]; [discriminate |]. apply quiet_bind; [by apply quiet_other_directive | by intros [lv b2] _]. }
  intros [w b2] E. apply quiet_bind.
  { enough (is_Some (log_formats b2 !! str "combined")) as [t ->] by done.
    apply http_keeps_formats in E. cbn [snd] in E. rewrite E. unfold with_combined.
    destruct (log_formats b1 !! str "combined") eqn:E1; [by rewrite E1 |]. cbn. by rewrite lookup_insert_eq. }
  intros t _. apply quiet_bind.
  { apply quiet_servers_of. apply Forall_forall. intros x Hx. apply (http_set_aside _ _ _ E) in Hx as [?%not_elem_of_nil|Hx]; [done | auto]. }
  intros [ss b3] _. case_decide; [done |]. do 2 (apply quiet_bind; [apply quiet_listeners | intros ? _]).
  apply quiet_bind.
  { apply quiet_check_all. intros c. unfold check_zones_exist. apply quiet_bind; [apply quiet_known | intros; apply quiet_known]. }
  intros _ _. apply quiet_bind; [|done]. apply quiet_check_all. intros c. apply quiet_known.
Qed.
End http.

Arguments Http : clear implicits.
#[export] Hint Resolve quiet_http : quiet.

(** ** Samples *)

#[local] Existing Instance sample_crates.

Definition sample_http : Directive :=
  block (str "http") []
    [directive (str "limit_req_zone") [str "$remote_addr"; str "zone=per_ip:1m"; str "rate=5r/s"]; sample_server;
     block (str "server") [] [directive (str "listen") [str "8080"];
       block (str "location") [str "/"] [directive (str "limit_req") [str "zone=per_ip"; str "burst=5"]]]].

(** A property of what a block gives, evaluated. *)
Definition gives {A} (o : outcome A) (p : A → bool) : bool := match o with Fine a => p a | _ => false end.

Lemma gives_fine {A} (o : outcome A) p : gives o p = true → ∃ a, o = Fine a ∧ p a = true.
Proof. destruct o; [by eexists | done..]. Qed.

Lemma every_line_is_bound_witness :
  ∃ h b, http sample_http no_builder = Fine (h, b) ∧ length (h_servers h) = 2%nat ∧
    NoDup (l_addr <$> h_listeners h) ∧ NoDup (l_addr <$> h_quic_listeners h).
Proof.
  assert (gives (http sample_http no_builder) (λ r, bool_decide (length (h_servers (fst r)) = 2%nat)) = true) as E by by vm_compute.
  apply gives_fine in E as ([h b] & E & Hl%bool_decide_eq_true). exists h, b.
  pose proof (every_line_is_bound _ _ _ _ E) as (_ & _ & H). split; [done |]. split; [done |].
  split; [apply (H false) | apply (H true)].
Defined.

Lemma zones_declared_witness :
  ∃ h b, http sample_http no_builder = Fine (h, b) ∧ length (h_servers h ≫= checked_cores) = 4%nat ∧
    ∀ s c, s ∈ h_servers h → c ∈ checked_cores s → Forall (λ l, is_Some (h_limit_req_zones h !! lr_zone l)) (limit_reqs c).
Proof.
  assert (gives (http sample_http no_builder) (λ r, bool_decide (length (h_servers (fst r) ≫= checked_cores) = 4%nat)) = true) as E by by vm_compute.
  apply gives_fine in E as ([h b] & E & Hl%bool_decide_eq_true). exists h, b. split; [done |]. split; [done |].
  intros s c Hs Hc. by apply (zones_declared _ _ _ _ E s c Hs Hc).
Defined.

(** A location inside another, or one with a name, may limit by a zone nobody
    declared: the load accepts what it refuses one level up. *)
Definition limited (n : bytes) : Directive := block (str "location") [n] [directive (str "limit_req") [str "zone=nobody"]].
Definition serving (l : Directive) : Directive := block (str "http") [] [block (str "server") [] [l]].

Definition accepted (d : Directive) : bool := gives (http d no_builder) (const true).

Example inner_zone_unchecked :
  accepted (serving (block (str "location") [str "/"] [limited (str "/in")])) = true ∧
  accepted (serving (limited (str "@back"))) = true ∧ accepted (serving (limited (str "/"))) = false.
Proof. by vm_compute. Qed.
