(* ===== verification/Build.v ===== *)
(** * [src/config/build.rs]: the [stream] block and the whole configuration

    [build] reads the top level of a file; [stream] its layer-4 block, with
    the check that a target depending on what TLS says has preread turned on.
    That check follows [map]s through each other: [uses_preread] is its search
    with the stack it needs as fuel, and [None] is a stack that overflows. *)
From S2P Require Import Prelude.
From S2P Require Import Text.
From S2P Require Import Ast.
From S2P Require Import Vars.
From S2P Require Import Model.
From S2P Require Import Args.
From S2P Require Import Level.
From S2P Require Import Listen.
From S2P Require Import Blocks.
From S2P Require Import Server.
From S2P Require Import Http.

Open Scope Z_scope.

Section build.
  Context {Regex : Type} `{!Crates Regex}.

(** ** [uses_preread_var] and [var_uses_preread] *)

Definition preread_var (v : Var.Var) : bool :=
  match v with
  | Var.SslPrereadServerName | Var.SslPrereadAlpnProtocols | Var.SslPrereadProtocol => true
  | _ => false
  end.

(** [iter.any(f)] where [f] may run out of stack *)
Fixpoint any {A} (f : A → option bool) (l : list A) : option bool :=
  match l with
  | [] => Some false
  | a :: l => match f a with Some true => Some true | Some false => any f l | None => None end
  end.

Definition or_else {A} (a : option bool) (b : A → option bool) (x : A) : option bool :=
  match a with Some true => Some true | Some false => b x | None => None end.

(** The templates of a map, in the order they are looked at. *)
Definition map_templates (m : MapConf Regex) : list Template :=
  (snd <$> map_exact m) ++ ((λ '(_, t, _), t) <$> wildcards m) ++ (snd <$> regexes m) ++ option_list (map_default m).

(** [var_uses_preread], whose calls on templates are [uses_preread_var]: the
    depth is compared with the cap there and nowhere else. *)
Fixpoint var_uses_preread (stack : nat) (maps : list (MapConf Regex)) (depth : Z) (v : Var.Var) : option bool :=
  match stack with
  | O => None
  | S stack =>
      if preread_var v then Some true
      else match v with
      | Var.User n =>
          any (λ m, or_else (var_uses_preread stack maps (depth + 1) (source m))
                      (any (λ t, if decide (8 < depth + 1) then Some false
                                 else any (var_uses_preread stack maps (depth + 1)) (vars t)))
                      (map_templates m))
            (filter (λ m, map_target m = n) maps)
      | _ => Some false
      end
  end.

Definition uses_preread_var (stack : nat) (maps : list (MapConf Regex)) (depth : Z) (t : Template) : option bool :=
  if decide (8 < depth) then Some false else any (var_uses_preread stack maps depth) (vars t).

(** ** [stream] *)

Record StreamServer := mkStream {
  st_listens : list ListenSpec;
  st_target : ProxyTarget;
  st_connect_timeout : Duration;
  st_timeout : Duration;
  st_ssl_preread : bool;
  st_preread_buffer_size : Z;
  st_preread_timeout : Duration;
  st_proxy_responses : option Z;
  st_line : Z
}.

(** The locals of [stream_server] *)
Record Draft := mkDraft {
  y_listens : list ListenSpec;
  y_target : option ProxyTarget;
  y_connect : Duration;
  y_timeout : Duration;
  y_preread : bool;
  y_size : Z;
  y_preread_timeout : Duration;
  y_responses : option Z
}.
#[export] Instance eta_stream_draft : Eta Draft := λ y,
  mkDraft (y_listens y) (y_target y) (y_connect y) (y_timeout y) (y_preread y) (y_size y) (y_preread_timeout y) (y_responses y).

Definition stream_ignored : list bytes :=
  [str "proxy_protocol"; str "proxy_buffer_size"; str "proxy_socket_keepalive"; str "proxy_next_upstream";
   str "proxy_next_upstream_tries"; str "proxy_next_upstream_timeout"].

Definition stream_server_child (s : Draft * Builder) (c : Directive) : outcome (Draft * Builder) :=
  let '(y, b) := s in
  if decide (name c = str "listen") then l ← listen c; Fine (y <| y_listens := y_listens y ++ [l] |>, b)
  else if decide (name c = str "proxy_pass") then
    a ← word c; t ← parse_fastcgi_target a c; Fine (y <| y_target := Some t |>, b)
  else if decide (name c = str "proxy_connect_timeout") then t ← time_arg c 0; Fine (y <| y_connect := t |>, b)
  else if decide (name c = str "proxy_timeout") then t ← time_arg c 0; Fine (y <| y_timeout := t |>, b)
  else if decide (name c = str "proxy_responses") then
    a ← word c;
    n ← or_bail c [str "invalid "; q (str "proxy_responses"); str " value "; q a] (parse_uint u64_max a);
    Fine (y <| y_responses := Some n |>, b)
  else if decide (name c = str "ssl_preread") then f ← flag c; Fine (y <| y_preread := f |>, b)
  else if decide (name c = str "preread_buffer_size") then n ← size_arg c 0; Fine (y <| y_size := n |>, b)
  else if decide (name c = str "preread_timeout") then t ← time_arg c 0; Fine (y <| y_preread_timeout := t |>, b)
  else if decide (name c ∈ stream_ignored) then Fine (y, b)
  else Fine (y, note_unsupported c b).

(** The loop over the lines, which stops at the first that is wrong. *)
Definition stream_line (d : Directive) (_ : ()) (l : ListenSpec) : outcome () :=
  if ssl l then bail d [q (str "ssl"); str " on a stream listener is not supported yet"]
  else match udp l, addr l with
  | true, Unix _ => bail d [q (str "udp"); str " cannot be used with a unix: listen address"]
  | _, _ => Fine ()
  end.

Definition stream_server (stack : nat) (d : Directive) (maps : list (MapConf Regex)) (size : Z) (timeout : Duration)
    (b : Builder) : outcome (StreamServer * Builder) :=
  '(y, b) ← each stream_server_child (mkDraft [] None 60000 600000 false size timeout None, b) (children d);
  if decide (y_listens y = []) then bail d [str "no "; q (str "listen"); str " directive in stream server"]
  else
    target ← or_bail d [str "no "; q (str "proxy_pass"); str " directive in stream server"] (y_target y);
    each (stream_line d) () (y_listens y) ;;
    let any_udp := existsb udp (y_listens y) in
    if bool_decide (is_Some (y_responses y)) && negb any_udp
    then bail d [q (str "proxy_responses"); str " applies only to a "; q (str "udp"); str " listener"]
    else if y_preread y && any_udp
    then bail d [q (str "ssl_preread"); str " cannot be used on a "; q (str "udp"); str " listener"]
    else
      match target with
      | Dynamic t =>
          if y_preread y then Fine ()
          else match uses_preread_var stack maps 0 t with
          | None => Panic
          | Some true =>
              bail d [q (str "proxy_pass"); str " uses an $ssl_preread_ variable but "; q (str "ssl_preread"); str " is off"]
          | Some false => Fine ()
          end
      | _ => Fine ()
      end ;;
      if decide (y_size y = 0) then bail d [q (str "preread_buffer_size"); str " must be greater than 0"]
      else Fine (mkStream (y_listens y) target (y_connect y) (y_timeout y) (y_preread y) (y_size y)
                   (y_preread_timeout y) (y_responses y) (line_of d), b).

Record StreamListener := mkStreamListener {
  sl_addr : ListenAddr;
  sl_backlog : Z;
  sl_reuseport : bool;
  sl_ipv6_only : bool;
  sl_udp : bool;
  sl_server : StreamServer
}.

Record StreamConf := mkStreamConf {
  sc_listeners : list StreamListener;
  sc_udp_listeners : list StreamListener;
  sc_upstreams : gmap bytes Built;
  sc_maps : list (MapConf Regex)
}.

(** The locals of [stream] *)
Record StreamDraft := mkStreamDraft {
  x_upstreams : gmap bytes Built;
  x_maps : list (MapConf Regex);
  x_size : Z;
  x_timeout : Duration;
  x_servers : list Directive
}.
#[export] Instance eta_stream_conf : Eta StreamDraft := λ x,
  mkStreamDraft (x_upstreams x) (x_maps x) (x_size x) (x_timeout x) (x_servers x).

Definition stream_silent : list bytes :=
  [str "access_log"; str "error_log"; str "log_format"; str "tcp_nodelay"; str "resolver"; str "resolver_timeout";
   str "variables_hash_bucket_size"; str "variables_hash_max_size"].

Definition stream_child (s : StreamDraft * Builder) (c : Directive) : outcome (StreamDraft * Builder) :=
  let '(x, b) := s in
  if decide (name c = str "upstream") then
    want_args c 1 ;; '(u, b) ← upstream b c; n ← nth_arg c 0;
    Fine (x <| x_upstreams := <[n := u]> (x_upstreams x) |>, b)
  else if decide (name c = str "server") then Fine (x <| x_servers := x_servers x ++ [c] |>, b)
  else if decide (name c = str "map") then m ← map_of c; Fine (x <| x_maps := x_maps x ++ [m] |>, b)
  else if decide (name c = str "preread_buffer_size") then n ← size_arg c 0; Fine (x <| x_size := n |>, b)
  else if decide (name c = str "preread_timeout") then t ← time_arg c 0; Fine (x <| x_timeout := t |>, b)
  else if decide (name c ∈ stream_silent) then Fine (x, b)
  else Fine (x, note_unsupported c b).

Fixpoint stream_servers (stack : nat) (ds : list Directive) (x : StreamDraft) (b : Builder) :
    outcome (list StreamServer * Builder) :=
  match ds with
  | [] => Fine ([], b)
  | d :: ds =>
      '(s, b) ← stream_server stack d (x_maps x) (x_size x) (x_timeout x) b;
      '(ss, b) ← stream_servers stack ds x b; Fine (s :: ss, b)
  end.

(** A target that is a name must be an upstream of the block. *)
Definition check_target (ups : gmap bytes Built) (_ : ()) (s : StreamServer) : outcome () :=
  match st_target s with
  | ToUpstream n =>
      match ups !! n with
      | Some _ => Fine ()
      | None => Bad (mkBuildError (str "unknown upstream " ++ q n ++ str " in stream proxy_pass")
                      (str "server at line " ++ fmt_u64 (st_line s)))
      end
  | _ => Fine ()
  end.

Definition stream_listeners (servers : list StreamServer) : list StreamListener :=
  servers ≫= λ s, (λ l, mkStreamListener (addr l) (default 511 (backlog l)) (reuseport l) (ipv6_only l) (udp l) s)
    <$> st_listens s.

Definition stream (stack : nat) (d : Directive) (b : Builder) : outcome (StreamConf * Builder) :=
  '(x, b) ← each stream_child (mkStreamDraft ∅ [] 16384 30000 [], b) (children d);
  '(servers, b) ← stream_servers stack (x_servers x) x b;
  if decide (length servers = 0%nat) then bail d [str "no server blocks defined in stream"]
  else
    each (check_target (x_upstreams x)) () servers ;;
    let ls := stream_listeners servers in
    Fine (mkStreamConf (filter (λ l, sl_udp l = false) ls) (filter (λ l, sl_udp l = true) ls) (x_upstreams x) (x_maps x), b).

(** ** [build] *)

Inductive WorkerProcesses := Auto | Workers (n : Z).
Inductive LogLevel := LDebug | LInfo | LNotice | LWarn | LError | LCrit | LAlert | LEmerg.
Record ErrorLogConf := mkErrorLog { el_path : bytes; el_level : LogLevel; el_disabled : bool }.

Definition default_error_log : ErrorLogConf := mkErrorLog (str "logs/error.log") LError false.

(** [LogLevel::parse] *)
Definition log_levels : list (bytes * LogLevel) :=
  [(str "debug", LDebug); (str "info", LInfo); (str "notice", LNotice); (str "warn", LWarn); (str "error", LError);
   (str "crit", LCrit); (str "alert", LAlert); (str "emerg", LEmerg)].

Definition error_log (b : Builder) (d : Directive) : outcome ErrorLogConf :=
  want_args_range d 1 2 ;; a ← nth_arg d 0;
  if decide (a = str "off") then Fine (mkErrorLog (el_path default_error_log) (el_level default_error_log) true)
  else
    level ← match arg d 1 with
            | Some l => or_bail d [str "invalid log level "; q l] (assoc l log_levels)
            | None => Fine LError
            end;
    Fine (mkErrorLog (abs b a) level false).

Record Config := mkConfig {
  worker_processes : WorkerProcesses;
  worker_connections : Z;
  worker_rlimit_nofile : option Z;
  c_error_log : ErrorLogConf;
  pid : option bytes;
  daemon : bool;
  user : option (bytes * option bytes);
  c_prefix : bytes;
  c_http : option (Http Regex);
  c_stream : option StreamConf;
  c_unsupported : list bytes
}.
#[export] Instance eta_config : Eta Config := λ c,
  mkConfig (worker_processes c) (worker_connections c) (worker_rlimit_nofile c) (c_error_log c) (pid c) (daemon c)
    (user c) (c_prefix c) (c_http c) (c_stream c) (c_unsupported c).

Definition FILTERING_MODULES : list bytes := [str "modsecurity"; str "coraza"; str "naxsi"; str "waf"; str "lua"].

Definition note_binary_module (d : Directive) (path : bytes) (b : Builder) : Builder :=
  let file := default path (snd <$> rsplit_once "/"%byte path) in
  note (loc d ++ str ": " ++ q (str "load_module " ++ path) ++
    str " — OxiServe cannot load nginx binary modules, so everything " ++ file ++ str " provides is absent" ++
    (if existsb (λ m, contains m (lowercase file)) FILTERING_MODULES
     then str "; this one filters requests, so what it would have blocked is now served" else [])) b.

Definition event_child (s : Config * Builder) (e : Directive) : outcome (Config * Builder) :=
  let '(c, b) := s in
  if decide (name e = str "worker_connections") then
    a ← word e; n ← or_bail e [str "invalid value "; q a] (parse_uint u64_max a);
    Fine (c <| worker_connections := n |>, b)
  else if decide (name e ∈ [str "use"; str "multi_accept"; str "accept_mutex"; str "accept_mutex_delay"]) then Fine (c, b)
  else Fine (c, note_unsupported e b).

Definition process_ignored : list bytes :=
  [str "master_process"; str "worker_shutdown_timeout"; str "worker_priority"; str "working_directory";
   str "lock_file"; str "timer_resolution"; str "pcre_jit"; str "thread_pool"].

Definition build_child (stack : nat) (s : Config * Builder) (d : Directive) : outcome (Config * Builder) :=
  let '(c, b) := s in
  if decide (name d = str "worker_processes") then
    a ← word d;
    w ← if decide (a = str "auto") then Fine Auto
        else Workers <$> or_bail d [str "invalid value "; q a; str " in "; q (str "worker_processes")] (parse_uint u64_max a);
    Fine (c <| worker_processes := w |>, b)
  else if decide (name d = str "worker_rlimit_nofile") then
    want_args d 1 ;; n ← size_arg d 0; Fine (c <| worker_rlimit_nofile := Some n |>, b)
  else if decide (name d = str "error_log") then e ← error_log b d; Fine (c <| c_error_log := e |>, b)
  else if decide (name d = str "pid") then a ← word d; Fine (c <| pid := Some (abs b a) |>, b)
  else if decide (name d = str "daemon") then f ← flag d; Fine (c <| daemon := f |>, b)
  else if decide (name d = str "user") then
    want_args_range d 1 2 ;; a ← nth_arg d 0; Fine (c <| user := Some (a, arg d 1) |>, b)
  else if decide (name d = str "events") then each event_child (c, b) (children d)
  else if decide (name d = str "http") then '(h, b) ← http d b; Fine (c <| c_http := Some h |>, b)
  else if decide (name d = str "stream") then '(s, b) ← stream stack d b; Fine (c <| c_stream := Some s |>, b)
  else if decide (name d = str "mail") then Fine (c, note_unsupported d b)
  else if decide (name d = str "load_module") then a ← word d; Fine (c, note_binary_module d a b)
  else if decide (name d ∈ process_ignored) then Fine (c, b)
  else Fine (c, note_unsupported d b).

Definition new_config (prefix : bytes) : Config :=
  mkConfig (Workers 1) 512 None default_error_log None false None prefix None None [].

(** [Builder::new(prefix).build(dirs)] *)
Definition build (stack : nat) (prefix : bytes) (dirs : list Directive) : outcome Config :=
  '(c, b) ← each (build_child stack) (new_config prefix, mkBuilder prefix ∅ []) dirs;
  Fine (c <| c_unsupported := unsupported b |>).

(** ** The search through maps *)

(** A variable that depends on a preread one through some chain of maps. *)
Inductive reaches (maps : list (MapConf Regex)) : Var.Var → Prop :=
  | reaches_here v : preread_var v = true → reaches maps v
  | reaches_source m n : m ∈ maps → map_target m = n → reaches maps (source m) → reaches maps (Var.User n)
  | reaches_template m n t v :
      m ∈ maps → map_target m = n → t ∈ map_templates m → v ∈ vars t → reaches maps v → reaches maps (Var.User n).

Lemma any_true {A} (f : A → option bool) l : any f l = Some true → ∃ a, a ∈ l ∧ f a = Some true.
Proof.
  induction l as [|a l IH]; cbn [any]; [done |]. destruct (f a) as [[]|] eqn:E; [|intros H|done].
  - intros _. exists a. split; [by apply elem_of_cons; left | done].
  - destruct (IH H) as (x & Hx & E'). exists x. split; [by apply elem_of_cons; right | done].
Qed.

Lemma any_some {A} (f : A → option bool) l : (∀ a, a ∈ l → f a ≠ None) → any f l ≠ None.
Proof.
  induction l as [|a l IH]; intros H; cbn [any]; [done |].
  destruct (f a) as [[]|] eqn:E; [done | apply IH; intros; apply H; by apply elem_of_cons; right |].
  exfalso. eapply H; [|exact E]. by apply elem_of_cons; left.
Qed.

(** What the search finds is there. *)
Lemma search_sound stack maps depth v : var_uses_preread stack maps depth v = Some true → reaches maps v.
Proof.
  revert depth v. induction stack as [|stack IH]; intros depth v; cbn [var_uses_preread]; [done |].
  destruct (preread_var v) eqn:Ep; [intros _; by constructor |]. destruct v; try done.
  intros (m & [Hm Hin]%list_elem_of_filter & H)%any_true. unfold or_else in H.
  destruct (var_uses_preread stack maps (depth + 1) (source m)) as [[]|] eqn:Es; [|apply any_true in H as (t & Ht & H)|done].
  - eapply reaches_source; eauto.
  - case_decide; [done |]. apply any_true in H as (v & Hv & H). eapply reaches_template; eauto.
Qed.

(** *** Enough stack, where no map's source leads back to it *)

Section ranked.
  Context (maps : list (MapConf Regex)) (rank : bytes → nat) (top : nat).
  Context (Htop : ∀ n, (rank n ≤ top)%nat).
  Context (Hsource : ∀ m n, m ∈ maps → source m = Var.User n → (rank n < rank (map_target m))%nat).

(** The stack a variable needs once templates are no longer followed. *)
Definition need (v : Var.Var) : nat := match v with Var.User n => (2 + rank n)%nat | _ => 1%nat end.

Lemma source_need m : m ∈ maps → (need (source m) < 2 + rank (map_target m))%nat.
Proof. intros Hm. unfold need. destruct (source m) eqn:E; try lia. pose proof (Hsource m name Hm E). lia. Qed.

(** Past the cap only sources are followed. *)
Lemma search_past_cap stack depth v : 8 ≤ depth → (need v ≤ stack)%nat → var_uses_preread stack maps depth v ≠ None.
Proof.
  revert depth v. induction stack as [|stack IH]; intros depth v Hd Hv; [destruct v; cbn in Hv; lia |].
  cbn [var_uses_preread]. destruct (preread_var v); [done |]. destruct v; try done. cbn [need] in Hv.
  apply any_some. intros m [Hm Hin]%list_elem_of_filter. unfold or_else. pose proof (source_need m Hin) as Hs.
  assert (var_uses_preread stack maps (depth + 1) (source m) ≠ None) as Hn by (apply IH; [lia |]; subst; lia).
  destruct (var_uses_preread _ _ _ (source m)) as [[]|]; [done | | done].
  apply any_some. intros t _. by rewrite decide_True by lia.
Qed.

(** Up to the cap every call is one deeper. *)
Lemma search_below_cap k stack depth v :
  depth = 8 - Z.of_nat k → (k + 2 + top ≤ stack)%nat → var_uses_preread stack maps depth v ≠ None.
Proof.
  revert stack depth v. induction k as [|k IH]; intros stack depth v Hd Hst.
  - apply search_past_cap; [lia |]. pose proof Htop as Ht. unfold need. destruct v as []; try lia. specialize (Ht name). lia.
  - destruct stack as [|stack]; [lia |]. cbn [var_uses_preread]. destruct (preread_var v); [done |]. destruct v; try done.
    apply any_some. intros m _. unfold or_else.
    assert (∀ w, var_uses_preread stack maps (depth + 1) w ≠ None) as H by (intros w; apply IH; lia).
    pose proof (H (source m)) as Hs. destruct (var_uses_preread _ _ _ (source m)) as [[]|]; [done | | done].
    apply any_some. intros t _. case_decide; [done |]. apply any_some. intros w _. apply H.
Qed.
End ranked.

(** Where no map's source leads back to it, the search for a preread
    variable ends within a stack of ten calls and the longest chain of
    sources, however the maps' values refer to each other; and what it finds,
    there is a chain to. *)
Theorem preread_search_ends (maps : list (MapConf Regex)) (rank : bytes → nat) (top stack : nat) (t : Template) :
  (∀ n, (rank n ≤ top)%nat) →
  (∀ m n, m ∈ maps → source m = Var.User n → (rank n < rank (map_target m))%nat) →
  (10 + top ≤ stack)%nat →
  ∃ found, uses_preread_var stack maps 0 t = Some found ∧ (found = true → ∃ v, v ∈ vars t ∧ reaches maps v).
Proof.
  intros Ht Hs Hst. destruct (uses_preread_var stack maps 0 t) as [found|] eqn:E.
  - exists found. split; [done |]. intros ->. unfold uses_preread_var in E. cbn in E.
    apply any_true in E as (v & Hv & H). exists v. split; [done |]. by eapply search_sound.
  - exfalso. revert E. unfold uses_preread_var. rewrite decide_False by lia. apply any_some. intros v _.
    by apply (search_below_cap maps rank top Ht Hs 8); [|lia].
Qed.

(** ** No configuration aborts the load *)

(** The maps of a [stream] block do not lead back to themselves by their
    sources. *)
Definition straight (rank : bytes → nat) (d : Directive) : Prop :=
  ∀ c m n, c ∈ children d → map_of c = Fine m → source m = Var.User n → (rank n < rank (map_target m))%nat.

Lemma tame_children d : tame_tree d → Forall tame_tree (children d) ∧ Forall tame (children d).
Proof.
  intros [_ Hc]%tame_tree_inv. split; [done |]. eapply Forall_impl; [exact Hc |]. by intros x [? _]%tame_tree_inv.
Qed.

Lemma quiet_stream_server rank top stack d maps size timeout b :
  (∀ n, (rank n ≤ top)%nat) →
  (∀ m n, m ∈ maps → source m = Var.User n → (rank n < rank (map_target m))%nat) →
  (10 + top ≤ stack)%nat → tame_tree d → quiet (stream_server stack d maps size timeout b).
Proof.
  intros Ht Hs Hst [_ Hc]%tame_children. rewrite Forall_forall in Hc. unfold stream_server. apply quiet_bind.
  - apply quiet_each. intros [y b0] c Hin. specialize (Hc c Hin). unfold stream_server_child.
    repeat (destruct (decide _) as [_|_]; [first [discriminate | apply quiet_bind; [auto with quiet | try (intros; discriminate)]] |]); try discriminate.
    + intros a _. apply quiet_bind; [unfold parse_fastcgi_target; quiet | intros; discriminate].
    + intros a _. apply quiet_bind; [quiet | intros; discriminate].
  - intros [y b1] _. case_decide; [done |]. apply quiet_bind; [quiet |]. intros t _. apply quiet_bind.
    + apply quiet_each. intros u0 l _. unfold stream_line. destruct (ssl l); [done |]. by destruct (udp l), (addr l).
    + intros _ _. cbv zeta. destruct (_ && _); [done |]. destruct (_ && _); [done |]. apply quiet_bind; [|intros; quiet].
      destruct t; try done. destruct (y_preread y); [done |].
      destruct (uses_preread_var stack maps 0 t) as [[]|] eqn:E; [done.. |]. exfalso. revert E.
      unfold uses_preread_var. rewrite decide_False by lia. apply any_some. intros v _.
      by apply (search_below_cap maps rank top Ht Hs 8); [|lia].
Qed.

(** What [stream] sets aside: its servers and its maps. *)
Definition set_aside (d : Directive) (x : StreamDraft) : Prop :=
  Forall (λ c, c ∈ children d) (x_servers x) ∧ Forall (λ m, ∃ c, c ∈ children d ∧ map_of c = Fine m) (x_maps x).

Lemma stream_child_aside d s c s' :
  c ∈ children d → set_aside d (fst s) → stream_child s c = Fine s' → set_aside d (fst s').
Proof.
  destruct s as [x b]. intros Hc [H1 H2]. unfold stream_child.
  destruct (decide _) as [_|_].
  { intros (u & _ & ([u0 b2] & _ & (nm & _ & [= <-])%outcome_bind_fine)%outcome_bind_fine)%outcome_bind_fine. done. }
  destruct (decide _) as [_|_].
  { intros [= <-]. split; [|done]. cbn. apply Forall_app. split; [done | by constructor]. }
  destruct (decide _) as [_|_].
  { intros (m & Hm & [= <-])%outcome_bind_fine. split; [done |]. cbn. apply Forall_app. split; [done |]. constructor; [by exists c | done]. }
  do 2 (destruct (decide _) as [_|_]; [by intros (z & _ & [= <-])%outcome_bind_fine |]).
  destruct (decide _) as [_|_]; by intros [= <-].
Qed.

Lemma quiet_stream rank top stack d b :
  (∀ n, (rank n ≤ top)%nat) → (10 + top ≤ stack)%nat → straight rank d → tame_tree d → quiet (stream stack d b).
Proof.
  intros Ht Hst Hr Hd. pose proof (tame_children d Hd) as [Hcc Hc]. rewrite Forall_forall in Hcc, Hc.
  unfold stream. apply quiet_bind.
  - apply quiet_each. intros [x b0] c Hin. unfold stream_child. pose proof (tame_children c (Hcc c Hin)) as [_ Htc].
    destruct (decide _) as [_|_].
    { apply quiet_bind; [quiet |]. intros u Hu%want_args_length. apply quiet_bind; [|intros [u0 b2] _; quiet].
      apply quiet_upstream; [|done]. intros E. by rewrite E in Hu. }
    destruct (decide _) as [_|_]; [discriminate |]. specialize (Hc c Hin).
    do 3 (destruct (decide _) as [_|_]; [apply quiet_bind; [auto with quiet | intros; discriminate] |]).
    destruct (decide _); discriminate.
  - intros [x b1] E.
    assert (set_aside d x) as [Hsv Hm].
    { eapply (each_inv (λ s, set_aside d (fst s))) in E; [exact E | | by split; constructor].
      intros s c s' Hin Hs H. by eapply stream_child_aside. }
    apply quiet_bind.
    + clear E. induction (x_servers x) as [|s ss IH] in b1, Hsv |- *; cbn [stream_servers]; [done |].
      apply Forall_cons in Hsv as [Hs Hsv]. apply quiet_bind.
      * eapply quiet_stream_server; [exact Ht | | exact Hst | by apply Hcc].
        intros m n Hin Hn. rewrite Forall_forall in Hm. destruct (Hm m Hin) as (c & Hc1 & Hc2). by eapply Hr.
      * intros [s0 b2] _. apply quiet_bind; [by apply IH | by intros [ss0 b3] _].
    + intros [servers b2] _. case_decide; [done |]. apply quiet_bind; [|done]. apply quiet_each. intros u0 s _.
      unfold check_target. destruct (st_target s); try done. by destruct (_ !! _).
Qed.

(** Building never aborts, whatever the configuration says: every tree of
    directives ends in a configuration or in an error with its place, where
    no time overflows, no [return] inside an [if] is empty, and no map of the
    [stream] block leads back to itself by its source. *)
Lemma build_never_aborts (prefix : bytes) (dirs : list Directive) (rank : bytes → nat) (top stack : nat) :
  Forall tame_tree dirs → (∀ n, (rank n ≤ top)%nat) → Forall (straight rank) dirs → (10 + top ≤ stack)%nat →
  build stack prefix dirs ≠ Panic.
Proof.
  intros Hd Ht Hr Hst. change (quiet (build stack prefix dirs)). rewrite Forall_forall in Hd, Hr.
  unfold build. apply quiet_bind; [|by intros [c b] _].
  apply quiet_each. intros [c b] d Hin. specialize (Hd d Hin). specialize (Hr d Hin). unfold build_child.
  pose proof (proj1 (tame_tree_inv d) Hd) as [Htd _].
  repeat (destruct (decide _) as [_|_]; [first [discriminate | apply quiet_bind; [auto with quiet | try (intros; discriminate)] | idtac] |]);
    try discriminate.
  - intros a _. apply quiet_bind; [|intros; discriminate]. destruct (decide _); [discriminate | quiet].
  - intros u _. apply quiet_bind; [quiet | intros; discriminate].
  - unfold error_log. quiet.
  - intros u Hu%want_args_range_length. apply quiet_bind; [apply quiet_nth_arg; lia | intros; discriminate].
  - apply quiet_each. intros [c0 b0] e _. unfold event_child. quiet.
  - by intros [h b1] _.
  - by eapply quiet_stream.
  - by intros [s b1] _.
Qed.
End build.

Arguments Config : clear implicits.

(** ** Samples *)

#[local] Existing Instance sample_crates.

Definition sample_stream : Directive :=
  block (str "stream") []
    [block (str "upstream") [str "mail"] [directive (str "server") [str "10.0.0.9:25"]];
     block (str "map") [str "$ssl_preread_server_name"; str "$backend"]
       [directive (str "a.example") [str "10.0.0.1:443"]; directive (str "default") [str "10.0.0.2:443"]];
     block (str "server") [] [directive (str "listen") [str "443"]; directive (str "ssl_preread") [str "on"];
       directive (str "proxy_pass") [str "$backend"]];
     block (str "server") [] [directive (str "listen") [str "25"]; directive (str "proxy_pass") [str "mail"]]].

Definition sample_config : list Directive := [directive (str "worker_processes") [str "auto"]; sample_http; sample_stream].

Definition calm_args (d : Directive) : bool :=
  forallb (λ a, forallb (λ i, match parse_time (drop i a) with Some _ => true | None => false end) (seq 0 (S (length a)))) (args d).

(** [tame_tree], evaluated. *)
Fixpoint tame_check (d : Directive) : bool :=
  match d with
  | mkDirective _ _ blk _ _ =>
      calm_args d && forallb (λ c, negb (bool_decide (name c = str "return")) || negb (bool_decide (args c = []))) (children d) &&
      match blk with Some cs => forallb tame_check cs | None => true end
  end.

Lemma tame_check_tree d : tame_check d = true → tame_tree d.
Proof.
  induction d as [n a l f | n a cs l f IH] using directive_ind; cbn [tame_check]; rewrite !andb_true_iff;
    intros [[Ha Hc] Hs]; apply tame_tree_inv; (split; [split |]).
  1, 4: apply Forall_forall; intros x Hx; apply calm_check; unfold calm_args in Ha; rewrite forallb_forall in Ha;
    by apply Ha, list_elem_of_In.
  1, 3: apply Forall_forall; intros x Hx Hn; rewrite forallb_forall in Hc;
    specialize (Hc x (proj1 (list_elem_of_In _ _) Hx)); rewrite Hn, bool_decide_eq_true_2 in Hc by done; cbn in Hc;
    by apply negb_true_iff, bool_decide_eq_false in Hc.
  - constructor.
  - cbn in *. rewrite forallb_forall in Hs. rewrite Forall_forall in IH |- *. intros x Hx. apply IH; [done |].
    by apply Hs, list_elem_of_In.
Qed.

(** No map's source is a map's target here. *)
Definition no_rank : bytes → nat := const 0%nat.

Lemma build_never_aborts_witness : build 10 (str "/etc") sample_config ≠ Panic.
Proof.
  apply (build_never_aborts (str "/etc") sample_config no_rank 0).
  - do 3 (apply Forall_cons_2; [apply tame_check_tree; by vm_compute |]). apply Forall_nil_2.
  - by intros n.
  - apply Forall_cons_2; [| apply Forall_cons_2; [| apply Forall_cons_2; [| apply Forall_nil_2]]];
      intros c m n Hc Hm Hn; cbn in Hc; exfalso.
    + by apply not_elem_of_nil in Hc.
    + repeat (apply elem_of_cons in Hc as [->|Hc]; [by vm_compute in Hm |]). by apply not_elem_of_nil in Hc.
    + repeat (apply elem_of_cons in Hc as [->|Hc]; [vm_compute in Hm; simplify_eq; by vm_compute in Hn |]). by apply not_elem_of_nil in Hc.
  - done.
Defined.

(** A map of the samples: from a variable to another, with a default. *)
Definition link (src target : bytes) (t : bytes) : MapConf bytes := mkMapConf (parse src) target [] [] [] (Some (compile t)) false.

Lemma preread_search_ends_witness :
  ∃ found, uses_preread_var 11 [link (str "ssl_preread_protocol") (str "p") []; link (str "p") (str "backend") []] 0 (compile (str "$backend")) = Some found ∧
    (found = true → ∃ v, v ∈ vars (compile (str "$backend")) ∧ reaches [link (str "ssl_preread_protocol") (str "p") []; link (str "p") (str "backend") []] v).
Proof.
  apply (preread_search_ends _ (λ n, if decide (n = str "backend") then 1%nat else 0%nat) 1).
  - intros n. case_decide; lia.
  - intros m n [->|[->|Hm%not_elem_of_nil]%elem_of_cons]%elem_of_cons Hn; [by vm_compute in Hn | | done].
    vm_compute in Hn. injection Hn as <-. by vm_compute; lia.
  - lia.
Defined.

(** Two maps that name each other as their sources overflow the stack, which
    the cap on depth is there to prevent: it is not compared on this path. *)
Lemma cyclic_maps_overflow stack depth :
  var_uses_preread stack [link (str "a") (str "b") []; link (str "b") (str "a") []] depth (Var.User (str "a")) = None ∧
  var_uses_preread stack [link (str "a") (str "b") []; link (str "b") (str "a") []] depth (Var.User (str "b")) = None.
Proof.
  revert depth. induction stack as [|stack IH]; intros depth; [done |]. destruct (IH (depth + 1)) as [Ha Hb].
  split; cbn [var_uses_preread preread_var].
  - rewrite filter_cons, decide_False by by vm_compute. rewrite filter_cons, decide_True by done. rewrite filter_nil.
    cbn [any or_else]. change (source (link (str "b") (str "a") [])) with (Var.User (str "b")). by rewrite Hb.
  - rewrite filter_cons, decide_True by done. cbn [any or_else].
    change (source (link (str "a") (str "b") [])) with (Var.User (str "a")). by rewrite Ha.
Qed.
