(* ===== verification/FastCgi.v ===== *)
(** * [src/server/fastcgi.rs]: the FastCGI client

    The CGI environment, the exchange with the application over the records of
    [FcgiProto], and the mapping of its answer onto an HTTP reply. A
    connection is what its reads will report, as in [Proxy]; a body still
    arriving is an [FcgiBody], whose [poll_read] is the stream the client is
    served from. *)
From S2P Require Import Prelude.
From S2P Require Import Text.
From S2P Require Import Vars.
From S2P Require Import Response.
From S2P Require Import Matching.
From S2P Require Import Model.
From S2P Require Import Ctx.
From S2P Require Import ReadBody.
From S2P Require Import Conn.
From S2P Require Import Proxy.
From S2P Require Import Args.
From S2P Require Request.
From S2P Require ProxyReq.
From S2P Require Handler.
From S2P Require Upstream.
From S2P Require FcgiProto.

Open Scope oxi_scope.
Open Scope Z_scope.

Definition HOP_BY_HOP : list bytes :=
  [str "connection"; str "keep-alive"; str "transfer-encoding"; str "upgrade"; str "content-length"].
Definition MAX_RESPONSE : Z := 64 * 1024 * 1024.
Definition MAX_HEADERS : Z := 256 * 1024.
Definition u16_max : Z := 2 ^ 16 - 1.

(** ** The CGI head *)

(** How far past a line end the body starts, when the next line is blank or
    there is none. *)
Definition blank_at (r : bytes) : option nat :=
  match r with
  | x0a :: _ => Some 2%nat
  | x0d :: x0a :: _ => Some 3%nat
  | [] => Some 1%nat
  | _ => None
  end.

(** [find_header_end], [i] bytes in: where the block ends and where the body
    starts. *)
Fixpoint header_end_from (b : bytes) (i : nat) : option (nat * nat) :=
  match b with
  | [] => None
  | c :: r =>
      match (if decide (c = x0a) then blank_at r else None) with
      | Some n => Some (i, i + n)%nat
      | None => header_end_from r (S i)
      end
  end.

Definition find_header_end (b : bytes) : option (nat * nat) := header_end_from b 0.

Definition strip_cr (l : bytes) : bytes :=
  match last l with Some x0d => take (length l - 1) l | _ => l end.

Definition split_lines (b : bytes) : list bytes := filter (λ l, l ≠ []) (strip_cr <$> split x0a b).

Definition split_header (line : bytes) : option (bytes * bytes) :=
  i ← Text.find ":"%byte line;
  name ← from_utf8 (take i line);
  value ← from_utf8 (drop (S i) line);
  if decide (trim name = []) then None else Some (trim name, trim value).

(** [value.split_whitespace().next()] *)
Fixpoint word_go (s : bytes) : bytes :=
  match trim_one white_space s, s with
  | Some _, _ | None, [] => []
  | None, c :: s => c :: word_go s
  end.

Definition first_word (s : bytes) : bytes := word_go (trim_start s).

(** What the loop of [parse_cgi_headers] carries. *)
Record Cgi := mkCgi { cg_fields : list (bytes * bytes); cg_status : Z; cg_location : bool; cg_len : option Z }.

Definition cgi_field (hide : list bytes) (k : Cgi) (f : bytes * bytes) : Cgi :=
  let '(name, value) := f in
  let lname := lowercase name in
  let len := if decide (lname = str "content-length") then parse_uint u64_max (trim value) else cg_len k in
  if decide (lname = str "status") then
    mkCgi (cg_fields k) (default 200 (parse_uint u16_max (first_word value))) (cg_location k) len
  else if decide (lname ∈ HOP_BY_HOP ∨ lname ∈ hide) then mkCgi (cg_fields k) (cg_status k) (cg_location k) len
  else mkCgi (cg_fields k ++ [(name, value)]) (cg_status k)
         (cg_location k || bool_decide (lname = str "location")) len.

Definition scan_cgi (hide : list bytes) (head : bytes) : Cgi :=
  foldl (cgi_field hide) (mkCgi [] 200 false None) (omap split_header (split_lines head)).

Definition cgi_code (k : Cgi) : Z := if cg_location k && bool_decide (cg_status k = 200) then 302 else cg_status k.

(** ** Reading records *)

(** [FcgiBody]; what [sock] holds is still to be read, and [read_to] is in
    its events. *)
Record FcgiBody := mkBody {
  sock : list Event;
  raw : bytes;
  consumed : nat;
  out : bytes;
  out_at : nat;
  app_status : Z;
  done : bool
}.

#[export] Instance eta_body : Eta FcgiBody := λ b,
  mkBody (sock b) (raw b) (consumed b) (out b) (out_at b) (app_status b) (done b).

Definition new_body (l : list Event) : FcgiBody := mkBody l [] 0 [] 0 0 false.

(** What has been read and not parsed. *)
Definition pending (b : FcgiBody) : bytes := drop (consumed b) (raw b).

Definition consume (n : nat) (b : FcgiBody) : FcgiBody := b <| consumed := (consumed b + n)%nat |>.

(** [drain_records]; a record takes eight bytes at least, so the bytes are
    fuel enough. *)
Fixpoint drain_go (fuel : nat) (b : FcgiBody) (sink : bytes) : result Z bool * bytes * FcgiBody :=
  match fuel with
  | O => (Ok false, sink, b)
  | S fuel =>
      match FcgiProto.parse_record (pending b) with
      | Err FcgiProto.Incomplete => (Ok false, sink, b)
      | Err FcgiProto.Malformed => (Err 502, sink, b)
      | Ok rec =>
          match FcgiProto.ty rec with
          | FcgiProto.EndRequest =>
              let '(refused, b) :=
                match FcgiProto.end_request_status (FcgiProto.body rec) with
                | Some (app, proto) => (negb (bool_decide (proto = 0)), b <| app_status := app |>)
                | None => (false, b)
                end in
              if refused then (Err 502, sink, b)
              else (Ok true, sink, (consume (FcgiProto.total rec) b) <| done := true |>)
          | FcgiProto.Stdout => drain_go fuel (consume (FcgiProto.total rec) b) (sink ++ FcgiProto.body rec)
          | _ => drain_go fuel (consume (FcgiProto.total rec) b) sink
          end
      end
  end.

Definition drain_records (b : FcgiBody) (sink : bytes) : result Z bool * bytes * FcgiBody :=
  drain_go (S (length (raw b))) b sink.

Definition compact (b : FcgiBody) : FcgiBody := b <| raw := pending b |> <| consumed := 0%nat |>.

Inductive Pump := More | Ended.

(** [pump]: parse, read once, parse. *)
Definition pump (b : FcgiBody) (sink : bytes) : result Z Pump * bytes * FcgiBody :=
  match drain_records b sink with
  | (Err e, sink, b) => (Err e, sink, b)
  | (Ok true, sink, b) => (Ok Ended, sink, b)
  | (Ok false, sink, b) =>
      let b := compact b in
      match sock b with
      | [] => (Err 504, sink, b)
      | TimedOut :: l => (Err 504, sink, b <| sock := l |>)
      | Failed :: l => (Err 502, sink, b <| sock := l |>)
      | Data [] :: l => (Ok Ended, sink, b <| sock := l |> <| done := true |>)
      | Data d :: l =>
          match drain_records (b <| sock := l |> <| raw := raw b ++ d |>) sink with
          | (Err e, sink, b) => (Err e, sink, b)
          | (Ok ended, sink, b) => (Ok (if ended then Ended else More), sink, b)
          end
      end
  end.

Inductive Collected := Complete (stdout : bytes) (app : Z) | Streaming (head pre : bytes) (reader : FcgiBody).

Section read.
  Context {Regex : Type}.

(** The loop of [read_response]; a turn that goes on has read something. *)
Fixpoint read_loop (fuel : nat) (conf : FastCgiConf Regex) (r : FcgiBody) (stdout : bytes) (head_end : option nat) :
    option (result Z Collected) :=
  match fuel with
  | O => None
  | S fuel =>
      match pump r stdout with
      | (Err e, _, _) => Some (Err e)
      | (Ok Ended, stdout, r) => Some (Ok (Complete stdout (app_status r)))
      | (Ok More, stdout, r) =>
          match (match head_end with Some at_ => Some at_ | None => snd <$> find_header_end stdout end) with
          | None => if decide (MAX_HEADERS < Z.of_nat (length stdout)) then Some (Err 502) else read_loop fuel conf r stdout None
          | Some at_ =>
              if negb (f_buffering conf) || bool_decide (f_buffer_budget conf < Z.of_nat (length stdout - at_)) then
                Some (Ok (Streaming (take at_ stdout) (drop at_ stdout) r))
              else if decide (MAX_RESPONSE < Z.of_nat (length stdout)) then Some (Err 502)
              else read_loop fuel conf r stdout (Some at_)
          end
      end
  end.

Definition read_response (conf : FastCgiConf Regex) (l : list Event) : option (result Z Collected) :=
  read_loop (S (length l)) conf (new_body l) [] None.
End read.

(** ** The body as a stream *)

Inductive Polled := Ready (d : bytes) | PollFailed | Pending.

(** [poll_read] into a buffer with room for [cap]: there is no timeout here. *)
Fixpoint poll_read (fuel cap : nat) (b : FcgiBody) : Polled * FcgiBody :=
  match fuel with
  | O => (Pending, b)
  | S fuel =>
      if decide (out_at b < length (out b))%nat then
        let n := Nat.min (length (out b) - out_at b) cap in
        let d := take n (drop (out_at b) (out b)) in
        let b := b <| out_at := (out_at b + n)%nat |> in
        (Ready d, if decide (out_at b = length (out b)) then b <| out := [] |> <| out_at := 0%nat |> else b)
      else if done b then (Ready [], b)
      else
        match drain_records b [] with
        | (Err _, _, b) => (PollFailed, b <| out := [] |>)
        | (Ok _, decoded, b) =>
            let b := compact (b <| out := decoded |>) in
            if negb (bool_decide (decoded = [])) || done b then poll_read fuel cap b
            else
              match sock b with
              | [] => (Pending, b)
              | TimedOut :: l => poll_read fuel cap (b <| sock := l |>)
              | Failed :: l => (PollFailed, b <| sock := l |>)
              | Data [] :: l => poll_read fuel cap (b <| sock := l |> <| done := true |>)
              | Data d :: l => poll_read fuel cap (b <| sock := l |> <| raw := raw b ++ d |>)
              end
        end
  end.

Definition poll_fuel (b : FcgiBody) : nat := (3 + 2 * length (sock b))%nat.

(** The bytes a body can still give at most. *)
Definition left_of (b : FcgiBody) : nat :=
  ((length (out b) - out_at b) + length (pending b) + length (arriving (sock b)))%nat.

(** What the reads of the body report. *)
Fixpoint reads_go (fuel cap : nat) (b : FcgiBody) : list Event :=
  match fuel with
  | O => []
  | S fuel =>
      match poll_read (poll_fuel b) cap b with
      | (Ready [], _) => [Data []]
      | (Ready d, b) => Data d :: reads_go fuel cap b
      | (PollFailed, _) => [Failed]
      | (Pending, _) => []
      end
  end.

Definition body_reads (cap : nat) (b : FcgiBody) : list Event := reads_go (S (left_of b)) cap b.

(** ** The exchange *)

(** What [Stream::connect] under a timeout comes to, when it fails. *)
Inductive DialError := Refused | DialSlow.

Section fastcgi.
  Context {Regex W : Type} (groups : Regex → bytes → option (list (option bytes))).
  Context (is_match : Regex → bytes → bool) (env : W → Env) (octets6 : bytes → bytes).
  Local Abbreviation Ctx := (Ctx (Regex := Regex)).
  Local Abbreviation Loc := (Loc Regex).
  Local Abbreviation St := (St W).
  Local Abbreviation Reply := (Response.Reply unit FcgiBody).
  Local Abbreviation Conf := (FastCgiConf Regex).
  Context `{Net W} (dial : bytes → Z → St → result DialError Up * St) (http : Upstreams).

Definition render (c : Ctx) (s : St) (t : Template) : bytes := ProxyReq.render is_match env c (world s) t.

(** The address to connect to. *)
Definition target_addr (t : ProxyTarget) (c : Ctx) (s : St) : result Z bytes * St :=
  match t with
  | ToAddr host port => (Ok (host ++ str ":" ++ fmt_u64 port), s)
  | ToUnix path => (Ok (str "unix:" ++ path), s)
  | ToUpstream name =>
      match upstreams http !! name with
      | None => (Err 502, s)
      | Some g =>
          let up := view s name g in
          let '(r, cur) := ProxyReq.select_peer_excluding octets6 c up (g_sticky g) (instant s)
                             (default 0 (cursors s !! name)) [] in
          ((λ i, ProxyReq.peer_addr (Upstream.addr (Upstream.server_at up i))) <$> r,
           put_cursors (<[name := cur]> (cursors s)) s)
      end
  | Dynamic t =>
      let a := render c s t in
      (if decide (a = []) then Err 502
       else if decide (":"%byte ∈ a) then Ok a else Ok (a ++ str ":9000"), s)
  end.

Definition append_index_if_directory (conf : Conf) (c : Ctx) : Ctx :=
  if ends_with (str "/") (fastcgi_script_name c) then
    match f_index conf with
    | Some idx => put_fastcgi_script_name (fastcgi_script_name c ++ idx) c
    | None => c
    end
  else c.

Definition group (i : nat) (g : list (option bytes)) : bytes := default [] (mjoin (g !! i)).

Definition split_script_and_path_info (conf : Conf) (c : Ctx) : Ctx :=
  let '(script, info) :=
    match (re ← f_split_path_info conf; groups re (uri c)) with
    | Some g => (group 1 g, group 2 g)
    | None => (uri c, [])
    end in
  append_index_if_directory conf (put_fastcgi_path_info info (put_fastcgi_script_name script c)).

(** The pairs in their order: the configured ones, then the client's fields. *)
Definition conf_param (c : Ctx) (s : St) (p : FastCgiParam) : option (bytes * bytes) :=
  let v := render c s (fp_value p) in
  if if_not_empty p && bool_decide (v = []) then None else Some (fp_name p, v).

Definition client_param (f : bytes * bytes) : option (bytes * bytes) :=
  if eq_ignore_ascii_case (fst f) (str "content-type") || eq_ignore_ascii_case (fst f) (str "content-length") then None
  else Some (FcgiProto.http_param_name (fst f), snd f).

Definition client_fields (c : Ctx) : list (bytes * bytes) :=
  (λ h, (Request.slice (buf c) (Request.name h), Request.slice (buf c) (Request.value h))) <$> Request.headers (req c).

Definition param_list (conf : Conf) (c : Ctx) (s : St) : list (bytes * bytes) :=
  omap (conf_param c s) (f_params conf) ++ omap client_param (client_fields c).

Definition encode_pairs (l : list (bytes * bytes)) : bytes := mjoin ((λ p, FcgiProto.push_nv_pair (fst p) (snd p)) <$> l).

Definition build_params (conf : Conf) (c : Ctx) (s : St) : bytes := encode_pairs (param_list conf c s).

(** What is written to the application. *)
Definition request_bytes (conf : Conf) (c : Ctx) (s : St) : bytes :=
  FcgiProto.push_begin_request (f_keep_conn conf) ++ FcgiProto.push_params (build_params conf c s) ++
  FcgiProto.push_stdin (req_body c).

(** [parse_cgi_headers]: the head, the declared length, and the status noted
    in the context. *)
Definition parse_cgi_headers (conf : Conf) (head : bytes) (c : Ctx) : Resp * option Z * Ctx :=
  let k := scan_cgi (f_hide_headers conf) head in
  (push_fields (cg_fields k) (with_status (cgi_code k) new), cg_len k, put_upstream_status (cgi_code k) c).

Definition build_reply (conf : Conf) (stdout : bytes) (c : Ctx) : result Z Reply * Ctx :=
  match find_header_end stdout with
  | None => (Err 502, c)
  | Some (head_len, body_at) =>
      let '(resp, _, c) := parse_cgi_headers conf (take head_len stdout) c in
      (Ok (mkReply resp (Bytes (drop body_at stdout))), c)
  end.

Definition build_streaming_reply (conf : Conf) (head pre : bytes) (reader : FcgiBody) (c : Ctx) : result Z Reply * Ctx :=
  match find_header_end head with
  | None => (Err 502, c)
  | Some (head_len, _) =>
      let '(resp, len, c) := parse_cgi_headers conf (take head_len head) c in
      (Ok (mkReply resp (Stream pre reader len)), c)
  end.

(** [fastcgi]; [None] is a loop longer than its fuel ([response_delivered]
    and [read_total]). *)
Definition fastcgi (c : Ctx) (l : Loc) (t : ProxyTarget) (s : St) : option (result Z Reply * Ctx * St) :=
  let conf := Model.fastcgi (core (payload l)) in
  let started := instant s in
  match target_addr t c s with
  | (Err code, s) => Some (Err code, c, s)
  | (Ok addr, s) =>
      let c := split_script_and_path_info conf (put_upstream_addr addr c) in
      let out := request_bytes conf c s in
      match dial addr (default 60000 (f_connect_timeout conf)) s with
      | (Err Refused, s) => Some (Err 502, c, s)
      | (Err DialSlow, s) => Some (Err 504, c, s)
      | (Ok u, s) =>
          let s := pass s in
          match write_all out (up_wr u) with
          | Waits _ => None
          | Conn.Refused _ => Some (Err 502, c, s)
          | Wrote _ =>
              let s := pass s in
              r ← read_response conf (up_in u);
              match r with
              | Err code => Some (Err code, c, s)
              | Ok (Complete stdout app) =>
                  let c := put_upstream_time (instant s - started) c in
                  if decide (stdout = []) then
                    if decide (app = 0) then Some (Ok (mkReply new Empty), put_upstream_status 200 c, s)
                    else Some (Err 502, c, s)
                  else let '(r, c) := build_reply conf stdout c in Some (r, c, s)
              | Ok (Streaming head pre reader) =>
                  let c := put_upstream_time (instant s - started) c in
                  let '(r, c) := build_streaming_reply conf head pre reader c in Some (r, c, s)
              end
          end
      end
  end.
End fastcgi.

(** ** What an application sends *)

(** Bytes that are one record, padded in any way. *)
Definition is_record (t : FcgiProto.RecordType) (b w : bytes) : Prop :=
  ∃ r, FcgiProto.parse_record w = Ok r ∧ FcgiProto.ty r = t ∧ FcgiProto.body r = b ∧ FcgiProto.total r = length w.

Definition completes (b : bytes) (app : Z) : Prop :=
  FcgiProto.end_request_status b = Some (app, 0) ∨ FcgiProto.end_request_status b = None ∧ app = 0.

(** An answer on the wire: its STDOUT and its status. *)
Inductive sends : bytes → Z → bytes → Prop :=
  | sends_end b app w : is_record FcgiProto.EndRequest b w → completes b app → sends [] app w
  | sends_out b w o app rest : is_record FcgiProto.Stdout b w → sends o app rest → sends (b ++ o) app (w ++ rest)
  | sends_other t b w o app rest : is_record t b w → t ≠ FcgiProto.Stdout → t ≠ FcgiProto.EndRequest →
      sends o app rest → sends o app (w ++ rest).

(** Reads that give [p] and then the end. *)
Inductive delivers : list Event → bytes → Prop :=
  | delivers_end : delivers [Data []] []
  | delivers_more d l p : d ≠ [] → delivers l p → delivers (Data d :: l) (d ++ p).

(** ** Records as they arrive *)

Lemma record_app t b w x : is_record t b w →
  ∃ r, FcgiProto.parse_record (w ++ x) = Ok r ∧ FcgiProto.ty r = t ∧ FcgiProto.body r = b ∧ FcgiProto.total r = length w.
Proof. intros (r & H & Ht & Hb & Hn). exists r. apply FcgiProto.parse_record_Ok in H as [_ H]. by rewrite H. Qed.

Lemma record_body_length t b w : is_record t b w → (length b < length w)%nat.
Proof.
  intros (r & H & _ & <- & Hn). unfold FcgiProto.parse_record in H.
  case_decide as H1; [discriminate H |]. case_decide; [discriminate H |].
  destruct (FcgiProto.from_u8 _); [|discriminate H]. cbv zeta in H. case_decide as H2; [discriminate H |].
  injection H as <-. cbn [FcgiProto.total FcgiProto.body] in *. rewrite length_take, length_drop.
  unfold FcgiProto.HEADER_LEN in *. lia.
Qed.

(** A record that is cut is awaited, not refused. *)
Lemma record_cut t b w x y : is_record t b w → w = x ++ y → y ≠ [] → FcgiProto.parse_record x = Err FcgiProto.Incomplete.
Proof.
  intros (r & H & _ & _ & Hn) -> Hy.
  assert (0 < length y)%nat as Hl by (destruct y; [done | cbn; lia]). rewrite length_app in Hn.
  unfold FcgiProto.parse_record in *.
  destruct (decide (length x < FcgiProto.HEADER_LEN)%nat) as [|H1]; [done |].
  assert (∀ i, (i < 8)%nat → FcgiProto.at_ (x ++ y) i = FcgiProto.at_ x i) as Hat
    by (intros i Hi; unfold FcgiProto.at_, FcgiProto.HEADER_LEN in *; apply app_nth1; lia).
  rewrite !Hat in H by lia. rewrite length_app in H. rewrite decide_False in H by lia.
  destruct (decide (u8 (FcgiProto.at_ x 0) ≠ FcgiProto.VERSION)); [done |]. destruct (FcgiProto.from_u8 _); [|done]. cbv zeta in *.
  set (len := Z.to_nat (from_be [FcgiProto.at_ x 4; _])) in *. set (pad := Z.to_nat (u8 _)) in *. clearbody len pad.
  destruct (decide (length x + length y < _)%nat) as [|H3]; [done |]. injection H as <-. cbn [FcgiProto.total] in Hn.
  by rewrite decide_True by (unfold FcgiProto.HEADER_LEN; lia).
Qed.

Lemma pending_consume n b : pending (consume n b) = drop n (pending b).
Proof. unfold pending, consume. cbn. by rewrite drop_drop. Qed.

(** The fields that parsing leaves alone. *)
Definition same_rest (b b' : FcgiBody) : Prop := sock b' = sock b ∧ out b' = out b ∧ out_at b' = out_at b.

Lemma same_rest_trans a b c : same_rest a b → same_rest b c → same_rest a c.
Proof. unfold same_rest. intros (? & ? & ?) (? & ? & ?). by split_and!; congruence. Qed.

(** What parsing does to an answer of which [q] has not arrived. *)
Definition drained (o : bytes) (app : Z) (q sink : bytes) (b : FcgiBody) (res : result Z bool * bytes * FcgiBody) : Prop :=
  (q = [] ∧ ∃ b', res = (Ok true, sink ++ o, b') ∧ done b' = true ∧ app_status b' = app ∧ same_rest b b' ∧
     (length o + length (pending b') ≤ length (pending b))%nat) ∨
  (q ≠ [] ∧ ∃ o1 o2 b', o = o1 ++ o2 ∧ res = (Ok false, sink ++ o1, b') ∧ done b' = done b ∧ app_status b' = 0 ∧
     same_rest b b' ∧ sends o2 app (pending b' ++ q) ∧ (length o1 + length (pending b') ≤ length (pending b))%nat).

Lemma drained_more o o0 app q sink b b1 res n :
  same_rest b b1 → done b1 = done b → (n + length o0 + length (pending b1) ≤ length (pending b))%nat →
  drained o app q (sink ++ o0) b1 res → drained (o0 ++ o) app q sink b res.
Proof.
  intros Hs Hd Hl [(-> & b' & -> & ? & ? & ? & ?)|(Hq & o1 & o2 & b' & -> & -> & ? & ? & ? & ? & ?)].
  - left. split; [done |]. exists b'. rewrite <-app_assoc. split_and!; try done; [by eapply same_rest_trans |].
    rewrite length_app. lia.
  - right. split; [done |]. exists (o0 ++ o1), o2, b'. rewrite <-!app_assoc. split_and!; try done; [congruence | by eapply same_rest_trans |].
    rewrite length_app. lia.
Qed.

Lemma drain_sends o app wire : sends o app wire → ∀ fuel b q sink,
  pending b ++ q = wire → app_status b = 0 → (length (pending b) < fuel)%nat → drained o app q sink b (drain_go fuel b sink).
Proof.
  assert (Hcut : ∀ t rb w rest q b fuel sink o app, is_record t rb w → pending b ++ q = w ++ rest → app_status b = 0 →
    (length (pending b) < length w)%nat → sends o app (w ++ rest) → (0 < fuel)%nat →
    drained o app q sink b (drain_go fuel b sink)).
  { intros t rb w rest q b fuel sink o0 app0 Hr Hw Ha Hl Hs Hf. destruct fuel as [|fuel]; [lia |].
    apply app_eq_inv in Hw as [(k & Hp & _)|(k & Hp & Hq)]; [rewrite Hp, length_app in Hl; lia |].
    assert (k ≠ []) as Hk by (intros ->; rewrite Hp, app_nil_r in Hl; lia).
    cbn [drain_go]. erewrite record_cut by done. right. split; [subst q; by destruct k |].
    exists [], o0, b. rewrite app_nil_r. split_and!; try done.
    subst w q. by rewrite <-app_assoc in Hs. }
  assert (Hfit : ∀ t rb w rest q b, is_record t rb w → pending b ++ q = w ++ rest → (length w ≤ length (pending b))%nat →
    ∃ r, FcgiProto.parse_record (pending b) = Ok r ∧ FcgiProto.ty r = t ∧ FcgiProto.body r = rb ∧
      pending (consume (FcgiProto.total r) b) ++ q = rest ∧ length (pending b) = (length w + length (pending (consume (FcgiProto.total r) b)))%nat).
  { intros t rb w rest q b Hr Hw Hl.
    assert (∃ k, pending b = w ++ k ∧ rest = k ++ q) as (k & Hp & ->).
    { apply app_eq_inv in Hw as [(k & Hp & Hq)|(k & Hp & Hq)]; [by exists k |].
      exists []. assert (k = []) as -> by (destruct k; [done |]; rewrite Hp, length_app in Hl; cbn in Hl; lia).
      rewrite app_nil_r in *. by subst. }
    destruct (record_app t rb w k Hr) as (r & E & Ht & Hb & Hn). exists r.
    rewrite pending_consume, Hn, Hp, E, drop_app_length, length_app. by split_and!. }
  induction 1 as [rb app w Hr Hc | rb w o app rest Hr Hs IH | t rb w o app rest Hr Ht1 Ht2 Hs IH]; intros fuel b q sink Hw Ha Hf.
  - destruct (decide (length w ≤ length (pending b))%nat) as [Hl|Hl].
    + rewrite <-(app_nil_r w) in Hw. destruct (Hfit _ _ _ _ _ _ Hr Hw Hl) as (r & E & Ht & Hb & Hrest & Hlen).
      apply app_eq_nil in Hrest as [Hp ->]. left. split; [done |]. destruct fuel as [|fuel]; [lia |].
      cbn [drain_go]. rewrite E, Ht, Hb. rewrite app_nil_r.
      destruct Hc as [-> | [-> ->]].
      * rewrite bool_decide_eq_true_2 by done. cbn [negb]. eexists. split; [done |]. split_and!; try done.
        transitivity (length (pending (consume (FcgiProto.total r) b))); [by apply Nat.eq_le_incl | rewrite Hp; apply Nat.le_0_l].
      * eexists. split; [done |]. split_and!; try done.
        transitivity (length (pending (consume (FcgiProto.total r) b))); [by apply Nat.eq_le_incl | rewrite Hp; apply Nat.le_0_l].
    + rewrite <-(app_nil_r w) in Hw. eapply (Hcut _ _ w []); [done | done | done | lia | | lia].
      rewrite app_nil_r. by econstructor.
  - destruct (decide (length w ≤ length (pending b))%nat) as [Hl|Hl].
    + destruct (Hfit _ _ _ _ _ _ Hr Hw Hl) as (r & E & Ht & Hb & Hrest & Hlen). destruct fuel as [|fuel]; [lia |].
      cbn [drain_go]. rewrite E, Ht, Hb. pose proof (record_body_length _ _ _ Hr).
      eapply (drained_more _ _ _ _ _ _ (consume (FcgiProto.total r) b) _ 0); [done | done | lia |]. apply IH; [done | done | lia].
    + eapply Hcut; [done.. | lia | | lia]. by econstructor.
  - destruct (decide (length w ≤ length (pending b))%nat) as [Hl|Hl].
    + destruct (Hfit _ _ _ _ _ _ Hr Hw Hl) as (r & E & Ht & Hb & Hrest & Hlen). destruct fuel as [|fuel]; [lia |].
      cbn [drain_go]. rewrite E, Ht. pose proof (record_body_length _ _ _ Hr).
      assert (drained o app q sink b (drain_go fuel (consume (FcgiProto.total r) b) sink)) as Hgo.
      { eapply (drained_more o [] _ _ _ _ (consume (FcgiProto.total r) b) _ 0); [done | done | cbn [length]; lia |]. rewrite app_nil_r.
        apply IH; [done | done | lia]. }
      destruct t; done.
    + eapply Hcut; [done.. | lia | | lia]. by eapply sends_other.
Qed.

(** ** The collected answer *)

(** A body that is being read: what it has given, and what is to come. *)
Definition mid (stdout : bytes) (app : Z) (r : FcgiBody) (sofar : bytes) : Prop :=
  ∃ o ds, stdout = sofar ++ o ∧ sock r = Data <$> ds ∧ Forall (λ d, d ≠ []) ds ∧
    sends o app (pending r ++ mjoin ds) ∧ done r = false ∧ app_status r = 0 ∧ out r = [] ∧ out_at r = 0%nat.

Lemma mid_new stdout app wire ds :
  sends stdout app wire → Forall (λ d, d ≠ []) ds → mjoin ds = wire → mid stdout app (new_body (Data <$> ds)) [].
Proof. intros Hs Hd <-. exists stdout, ds. by split_and!. Qed.

Lemma join_nil (ds : list bytes) : Forall (λ d, d ≠ []) ds → mjoin ds = [] → ds = [].
Proof. destruct 1 as [|d ds Hd _]; [done |]. rewrite join_cons. by intros [? _]%app_eq_nil. Qed.

Lemma drain_records_sends o app b q sink :
  sends o app (pending b ++ q) → app_status b = 0 → drained o app q sink b (drain_records b sink).
Proof.
  intros Hs Ha. unfold drain_records. eapply drain_sends; [done | done | done |].
  unfold pending. rewrite length_drop. lia.
Qed.

Lemma pump_mid stdout app r sofar : mid stdout app r sofar →
  (∃ r', pump r sofar = (Ok Ended, stdout, r') ∧ app_status r' = app) ∨
  (∃ y r', pump r sofar = (Ok More, sofar ++ y, r') ∧ mid stdout app r' (sofar ++ y) ∧ (length (sock r') < length (sock r))%nat).
Proof.
  intros (o & ds & -> & Hsock & Hds & Hs & Hd & Ha & Ho & Hoa). unfold pump.
  destruct (drain_records_sends o app r (mjoin ds) sofar Hs Ha)
    as [(_ & b' & -> & _ & Hb & _)|(Hq & o1 & o2 & b' & -> & -> & Hd' & Ha' & (Hs1 & Hs2 & Hs3) & Hs' & _)].
  { left. by exists b'. }
  cbn [compact]. change (sock (compact b')) with (sock b'). rewrite Hs1, Hsock.
  destruct Hds as [|d ds Hdn Hds]; [done |]. cbn [fmap list_fmap]. rewrite join_cons in Hs'.
  destruct d as [|c d]; [done |].
  set (b2 := (compact b') <| sock := _ |> <| raw := _ |>).
  assert (pending b2 ++ mjoin ds = pending b' ++ (c :: d) ++ mjoin ds) as Hp2
    by (change (pending b2) with (pending b' ++ (c :: d)); by rewrite <-app_assoc).
  rewrite <-Hp2 in Hs'.
  destruct (drain_records_sends o2 app b2 (mjoin ds) (sofar ++ o1) Hs' Ha')
    as [(_ & b3 & -> & _ & Hb & _)|(Hq3 & o3 & o4 & b3 & -> & -> & Hd3 & Ha3 & (Hs31 & Hs32 & Hs33) & Hs3' & _)].
  { left. exists b3. by rewrite <-app_assoc. }
  right. exists (o1 ++ o3), b3. rewrite app_assoc. split; [done |]. split.
  - exists o4, ds. rewrite <-!app_assoc. split_and!; try done; [by rewrite Hd3; cbn; rewrite Hd' | by rewrite Hs32; cbn; rewrite Hs2 |
      by rewrite Hs33; cbn; rewrite Hs3].
  - rewrite Hs31. cbn. lia.
Qed.

(** A body whose reads are still to give [rest]. *)
Definition flows (b : FcgiBody) (rest : bytes) : Prop :=
  ∃ o, rest = drop (out_at b) (out b) ++ o ∧ (out b = [] ∧ out_at b = 0%nat ∨ (out_at b < length (out b))%nat) ∧
    (done b = true ∧ o = [] ∨
     done b = false ∧ app_status b = 0 ∧ ∃ ds app, sock b = Data <$> ds ∧ Forall (λ d, d ≠ []) ds ∧
       sends o app (pending b ++ mjoin ds)).

Lemma mid_flows stdout app r sofar : mid stdout app r sofar → ∃ o, stdout = sofar ++ o ∧ flows r o.
Proof.
  intros (o & ds & -> & Hsock & Hds & Hs & Hd & Ha & Ho & Hoa). exists o. split; [done |].
  exists o. rewrite Ho, drop_nil. split; [done |]. split; [by left |]. right. by eauto 8.
Qed.

(** One read: some of what is left, or the end when nothing is. *)
Definition read_gives (cap : nat) (b : FcgiBody) (rest : bytes) (res : Polled * FcgiBody) : Prop :=
  (rest = [] ∧ fst res = Ready []) ∨
  ∃ d rest' b', res = (Ready d, b') ∧ d ≠ [] ∧ rest = d ++ rest' ∧ flows b' rest' ∧ (length d + left_of b' ≤ left_of b)%nat.

Lemma poll_ready cap b rest fuel : flows b rest → (0 < cap)%nat → (0 < fuel)%nat →
  (out_at b < length (out b))%nat ∨ done b = true → read_gives cap b rest (poll_read fuel cap b).
Proof.
  intros (o & -> & Hout & Hrest) Hcap Hf Hready. destruct fuel as [|fuel]; [lia |]. cbn [poll_read].
  destruct (decide (out_at b < length (out b))%nat) as [Hl|Hl].
  - right. set (n := Nat.min (length (out b) - out_at b) cap). eexists _, (drop (out_at b + n) (out b) ++ o), _.
    split; [done |]. split; [intros E%(f_equal length); rewrite length_take, length_drop in E; cbn in E; lia |].
    split; [by rewrite app_assoc, <-drop_drop, take_drop |].
    assert (length (take n (drop (out_at b) (out b))) = n) as Hlen by (rewrite length_take, length_drop; lia). rewrite Hlen.
    assert (n ≤ length (out b) - out_at b)%nat as Hn by lia. clearbody n.
    case_decide as E; cbn in E.
    + split.
      * exists o. cbn. rewrite drop_ge by lia. split; [done |]. split; [by left |]. exact Hrest.
      * unfold left_of. change (pending (_ <| out_at := _ |>)) with (pending b). cbn [sock out out_at put]. cbn. lia.
    + split.
      * exists o. cbn. split; [done |]. split; [right; lia |]. exact Hrest.
      * unfold left_of. change (pending (_ <| out_at := _ |>)) with (pending b). cbn -[arriving]. lia.
  - left. destruct Hready as [|Hd]; [done |]. rewrite Hd. destruct Hrest as [[_ ->]|[Hd' _]]; [|congruence].
    split; [|done]. destruct Hout as [[-> _]|]; [by rewrite drop_nil | lia].
Qed.

Lemma poll_gives cap : (0 < cap)%nat → ∀ n b rest fuel, length (sock b) = n → flows b rest → (n + 2 ≤ fuel)%nat →
  read_gives cap b rest (poll_read fuel cap b).
Proof.
  intros Hcap n. induction n as [n IH] using lt_wf_ind. intros b rest fuel Hn Hb Hf.
  destruct (decide ((out_at b < length (out b))%nat ∨ done b = true)) as [Hr|Hr]; [by apply poll_ready; [..|lia|] |].
  destruct Hb as (o & -> & Hout & Hrest).
  destruct Hout as [[Ho Hoa]|Hout]; [|by destruct Hr; left]. rewrite Ho, drop_nil. cbn [app].
  destruct Hrest as [[Hd _]|(Hd & Ha & ds & sts & Hsock & Hds & Hs)]; [by destruct Hr; right |].
  destruct fuel as [|fuel]; [lia |]. cbn [poll_read]. rewrite decide_False by (rewrite Ho; cbn; lia). rewrite Hd.
  destruct (drain_records_sends o sts b (mjoin ds) [] Hs Ha)
    as [(_ & b' & -> & Hd' & _ & (Hs1 & Hs2 & Hs3) & Hl)|(Hq & o1 & o2 & b' & -> & -> & Hd' & Ha' & (Hs1 & Hs2 & Hs3) & Hs' & Hl)];
    cbn [app].
  - set (b2 := compact _). assert (done b2 = true) as Hd2 by done. rewrite Hd2, orb_true_r.
    assert (flows b2 o) as Hb2.
    { exists []. cbn. rewrite app_nil_r, Hs3, Hoa, drop_0. split; [done |]. split; [|by left].
      destruct o; [by left | right; cbn; lia]. }
    destruct (poll_ready cap b2 o fuel Hb2 Hcap ltac:(lia) (or_intror Hd2)) as [H0|(d & rest' & b3 & E & Hdn & Hdr & Hf3 & Hl3)].
    + by left.
    + right. exists d, rest', b3. split_and!; try done. etransitivity; [exact Hl3 |]. clear Hl3. unfold left_of.
      change (pending b2) with (pending b'). change (sock b2) with (sock b'). change (out b2) with o. change (out_at b2) with (out_at b').
      rewrite Hs1, Hs3, Hoa. lia.
  - set (b2 := compact _). change (done b2) with (done b'). rewrite Hd', Hd, orb_false_r.
    assert (pending b2 = pending b') as Hp2 by done.
    assert (left_of b2 ≤ left_of b)%nat as Hleft.
    { unfold left_of. rewrite Hp2. change (sock b2) with (sock b'). change (out b2) with o1. change (out_at b2) with (out_at b').
      rewrite Hs1, Hs3, Hoa. lia. }
    destruct (decide (o1 = [])) as [->|Ho1].
    + rewrite bool_decide_eq_true_2 by done. cbn [negb]. change (sock b2) with (sock b'). rewrite Hs1, Hsock.
      destruct Hds as [|d ds Hdn Hds]; [done |]. cbn [fmap list_fmap] in *. destruct d as [|c d]; [done |].
      set (b3 := b2 <| sock := _ |> <| raw := _ |>). rewrite join_cons in Hs'. cbn [app].
      assert (pending b3 ++ mjoin ds = pending b' ++ (c :: d) ++ mjoin ds) as Hp3
        by (change (pending b3) with (pending b' ++ (c :: d)); by rewrite <-app_assoc).
      rewrite Hsock in Hn. cbn [length] in Hn. rewrite length_fmap in Hn.
      destruct (IH (length ds) ltac:(lia) b3 o2 fuel) as [H0|(d' & rest' & b4 & E & Hdn' & Hdr & Hf3 & Hl3)].
      * unfold b3. cbn. by rewrite length_fmap.
      * exists o2. cbn. rewrite Hs3, Hoa, drop_0. split; [done |]. split; [by left |]. right. rewrite Hd', Hd.
        split; [done |]. split; [done |]. exists ds, sts. split_and!; try done. change (sends o2 sts (pending b3 ++ mjoin ds)); by rewrite Hp3.
      * lia.
      * by left.
      * right. exists d', rest', b4. split_and!; try done. etransitivity; [exact Hl3 |]. etransitivity; [|exact Hleft].
        unfold left_of. assert (length (pending b3) = length (pending b2) + length (c :: d))%nat as ->
          by (change (pending b3) with (pending b2 ++ (c :: d)); by rewrite length_app).
        change (out b3) with (out b2). change (out_at b3) with (out_at b2). change (sock b2) with (sock b').
        change (sock b3) with (Data <$> ds). rewrite Hs1, Hsock. cbn [fmap list_fmap].
        assert (arriving (Data (c :: d) :: (Data <$> ds)) = (c :: d) ++ arriving (Data <$> ds)) as -> by done.
        rewrite length_app. lia.
    + rewrite bool_decide_eq_false_2 by done. cbn [negb].
      assert (flows b2 (o1 ++ o2)) as Hb2.
      { exists o2. cbn. rewrite Hs3, Hoa, drop_0. split; [done |]. split; [right; destruct o1; [done | cbn; lia] |].
        right. rewrite Hd', Hd, Hs1. split; [done |]. split; [done |]. by exists ds, sts. }
      destruct (poll_ready cap b2 (o1 ++ o2) fuel Hb2 Hcap ltac:(lia)) as [H0|(d & rest' & b3 & E & Hdn & Hdr & Hf3 & Hl3)].
      * left. cbn. rewrite Hs3, Hoa. destruct o1; [done | cbn; lia].
      * by left.
      * right. exists d, rest', b3. split_and!; try done. by etransitivity.
Qed.

Lemma reads_deliver cap : (0 < cap)%nat → ∀ fuel b rest, flows b rest → (left_of b < fuel)%nat → delivers (reads_go fuel cap b) rest.
Proof.
  intros Hcap fuel. induction fuel as [|fuel IH]; intros b rest Hb Hf; [lia |]. cbn [reads_go].
  destruct (poll_gives cap Hcap _ b rest (poll_fuel b) eq_refl Hb) as [(-> & E)|(d & rest' & b' & -> & Hd & -> & Hb' & Hl)].
  - unfold poll_fuel. lia.
  - destruct (poll_read _ _ _) as [p b']. cbn in E. subst p. constructor.
  - destruct d as [|c d]; [done |]. constructor; [done |]. apply IH; [done |]. cbn in Hl. lia.
Qed.

Lemma body_delivers cap b rest : (0 < cap)%nat → flows b rest → delivers (body_reads cap b) rest.
Proof. intros Hcap Hb. apply reads_deliver; [done | done | lia]. Qed.

(** ** Where a head ends *)

Lemma blank_at_cut r n : blank_at r = Some n → (0 < n ≤ S (length r))%nat ∧ blank_at (take (n - 1) r) = Some n.
Proof.
  destruct r as [|c r]; [intros [= <-]; cbn; split; [lia | done] |].
  destruct c; try discriminate; cbn [blank_at]; [intros [= <-]; cbn; split; [lia | done] |].
  destruct r as [|c r]; [done |]. destruct c; try discriminate. intros [= <-]. cbn. split; [lia | done].
Qed.

Lemma blank_at_take r k : blank_at r = None → (0 < k)%nat → blank_at (take k r) = None.
Proof.
  intros H Hk. destruct k as [|k]; [lia |]. destruct r as [|c r]; [done |]. cbn [firstn].
  destruct c; try done. destruct r as [|c r]; [by destruct k |]. destruct k as [|k]; [done |].
  cbn [firstn]. by destruct c.
Qed.

Lemma header_end_bounds b : ∀ i e a, header_end_from b i = Some (e, a) → (i ≤ e < a ∧ a ≤ i + length b)%nat.
Proof.
  induction b as [|c b IH]; intros i e a; [done |]. cbn [header_end_from length].
  destruct (if decide (c = x0a) then blank_at b else None) as [n|] eqn:E; [|intros H%IH; lia].
  case_decide; [|done]. apply blank_at_cut in E as [E _]. intros [= <- <-]. lia.
Qed.

(** The head alone is a head still. *)
Lemma header_end_cut b : ∀ i e a, header_end_from b i = Some (e, a) → header_end_from (take (a - i) b) i = Some (e, a).
Proof.
  induction b as [|c b IH]; intros i e a H; [done |].
  pose proof (header_end_bounds _ _ _ _ H) as Hb. revert H. cbn [header_end_from].
  destruct (if decide (c = x0a) then blank_at b else None) as [n|] eqn:E.
  - case_decide as Hc; [|done]. apply blank_at_cut in E as [Hn E]. intros [= <- <-].
    replace (i + n - i)%nat with (S (n - 1)) by lia. cbn [firstn header_end_from]. by rewrite decide_True, E by done.
  - intros H. pose proof (header_end_bounds _ _ _ _ H) as Hb'. apply IH in H.
    replace (a - i)%nat with (S (a - S i)) by lia. cbn [firstn header_end_from].
    assert ((if decide (c = x0a) then blank_at (take (a - S i) b) else None) = None) as ->; [|done].
    case_decide; [|done]. apply blank_at_take; [done | lia].
Qed.

Lemma head_of_cut b h : find_header_end b = Some h → find_header_end (take (snd h) b) = Some h.
Proof.
  destruct h as [e a]. intros H. pose proof (header_end_cut _ _ _ _ H) as Hc. by rewrite Nat.sub_0_r in Hc.
Qed.

(** A blank line: the line end at [e] has another at once behind it, and [a]
    is where that one is over. *)
Definition blank_line (b : bytes) (e a : nat) : Prop :=
  b !! e = Some x0a ∧
  (b !! S e = Some x0a ∧ a = S (S e) ∨ b !! S e = Some x0d ∧ b !! S (S e) = Some x0a ∧ a = S (S (S e))).

(** A head: it is over at its first blank line; or it has none, and what there
    was to read was over at the end of a line. *)
Definition head_is (h : bytes) : Prop :=
  ∃ e, (blank_line h e (length h) ∨ S e = length h ∧ h !! e = Some x0a) ∧ ∀ e' a', (e' < e)%nat → ¬ blank_line h e' a'.

Lemma blank_at_spec r n : blank_at r = Some n ↔
  r = [] ∧ n = 1%nat ∨ r !! 0%nat = Some x0a ∧ n = 2%nat ∨ r !! 0%nat = Some x0d ∧ r !! 1%nat = Some x0a ∧ n = 3%nat.
Proof.
  split.
  - destruct r as [|c r]; [intros [= <-]; auto |]. destruct c; try discriminate; cbn [blank_at lookup list_lookup].
    + intros [= <-]. auto.
    + destruct r as [|c r]; [done |]. destruct c; try discriminate. intros [= <-]. auto 10.
  - intros [(-> & ->)|[(Hr & ->)|(Hr & Hr2 & ->)]]; [done | |]; destruct r as [|c r]; try discriminate; injection Hr as ->; [done |].
    destruct r as [|c r]; [discriminate |]. by injection Hr2 as ->.
Qed.

Lemma header_end_spec b : ∀ i e a, header_end_from b i = Some (e, a) →
  (i ≤ e)%nat ∧ (blank_line b (e - i) (a - i) ∨ S (e - i) = length b ∧ b !! (e - i)%nat = Some x0a ∧ (a - i)%nat = length b) ∧
  ∀ e' a', (e' < e - i)%nat → ¬ blank_line b e' a'.
Proof.
  induction b as [|c b IH]; intros i e a; [done |]. cbn [header_end_from].
  destruct (if decide (c = x0a) then blank_at b else None) as [n|] eqn:E.
  - case_decide as Hc; [|done]. intros [= <- <-]. split; [lia |]. rewrite Nat.sub_diag, Nat.add_comm, Nat.add_sub. split; [|lia].
    subst c. apply blank_at_spec in E as [(-> & ->)|[(Hr & ->)|(Hr & Hr2 & ->)]]; [by right | left; split; [done | by left] |].
    left. split; [done |]. right. by split_and!.
  - intros H. pose proof (header_end_bounds _ _ _ _ H) as Hb. apply IH in H as (Hi & Hend & Hno). split; [lia |].
    replace (e - i)%nat with (S (e - S i)) by lia. replace (a - i)%nat with (S (a - S i)) by lia. split.
    + destruct Hend as [[H0 H1]|(H0 & H1 & H2)]; [left; split; [done |]; cbn; naive_solver lia | right; cbn; split_and!; [lia | done | lia]].
    + intros [|e'] a' He [H0 H1]; [|apply (Hno e' (pred a')); [lia | split; [done |]; cbn in H1; naive_solver lia]].
      injection H0 as ->. rewrite decide_True in E by done.
      destruct H1 as [(H1 & _)|(H1 & H2 & _)]; cbn in H1.
      * assert (blank_at b = Some 2%nat) by (apply blank_at_spec; auto). congruence.
      * assert (blank_at b = Some 3%nat) by (apply blank_at_spec; auto 10). congruence.
Qed.

Lemma found_head_is s e a : find_header_end s = Some (e, a) → head_is (take a s).
Proof.
  intros H%head_of_cut. cbn [snd] in H. pose proof (header_end_bounds _ _ _ _ H) as Hb.
  apply header_end_spec in H as (_ & Hend & Hno). rewrite Nat.sub_0_r in *. rewrite Nat.sub_0_r in Hend.
  exists e. rewrite length_take in Hb. assert (length (take a s) = a) as Hl by (rewrite length_take; lia).
  split; [|exact Hno]. rewrite Hl in *. destruct Hend as [Hend|(H1 & H2 & _)]; auto.
Qed.

(** ** The collected answer *)

Section collect.
  Context {Regex : Type} (conf : FastCgiConf Regex).

(** A head is found in what has come, and stays found as more comes. *)
Definition head_seen (head_end : option nat) (stdout : bytes) : Prop :=
  match head_end with
  | None => True
  | Some at_ => (at_ ≤ length stdout)%nat ∧ is_Some (find_header_end (take at_ stdout)) ∧ head_is (take at_ stdout)
  end.

Lemma head_seen_app h s x : head_seen h s → head_seen h (s ++ x).
Proof.
  destruct h as [a|]; [|done]. intros (Ha & Hs). split; [rewrite length_app; lia |]. by rewrite take_app_le by done.
Qed.

Lemma head_seen_now s : head_seen (snd <$> find_header_end s) s.
Proof.
  destruct (find_header_end s) as [[e a]|] eqn:E; [|done]. cbn. pose proof (header_end_bounds _ _ _ _ E) as Hb.
  split; [lia |]. split; [|by eapply found_head_is]. apply head_of_cut in E. cbn in E. by exists (e, a).
Qed.

(** What the exchange makes of an answer. *)
Definition answered (stdout : bytes) (app : Z) (res : result Z Collected) : Prop :=
  match res with
  | Ok (Complete o a) => o = stdout ∧ a = app
  | Ok (Streaming h p r) => (is_Some (find_header_end h) ∧ head_is h) ∧ ∃ rest, stdout = h ++ p ++ rest ∧ flows r rest
  | Err e => e = 502 ∧ MAX_HEADERS < Z.of_nat (length stdout)
  end.

Lemma read_loop_answers stdout app : ∀ fuel r sofar h, mid stdout app r sofar → head_seen h sofar →
  (length (sock r) < fuel)%nat → ∃ res, read_loop fuel conf r sofar h = Some res ∧ answered stdout app res.
Proof.
  intros fuel. induction fuel as [|fuel IH]; intros r sofar h Hm Hh Hf; [lia |]. cbn [read_loop].
  destruct (pump_mid _ _ _ _ Hm) as [(r' & -> & <-)|(y & r' & -> & Hm' & Hl)]; [by eexists |].
  assert (Hh' : head_seen (match h with Some a => Some a | None => snd <$> find_header_end (sofar ++ y) end) (sofar ++ y))
    by (destruct h; [by apply head_seen_app | apply head_seen_now]).
  assert (length (sofar ++ y) ≤ length stdout)%nat as Hlen.
  { destruct Hm' as (o & _ & -> & _). rewrite (length_app (sofar ++ y)). lia. }
  destruct (match h with Some a => Some a | None => _ end) as [a|].
  - destruct (negb _ || _).
    + eexists. split; [done |]. destruct Hh' as [_ Hh']. split; [done |].
      destruct (mid_flows _ _ _ _ Hm') as (rest & -> & Hr). exists rest. split; [|done]. by rewrite (app_assoc (take _ _)), take_drop.
    + case_decide; [|apply IH; [done | done | lia]]. eexists. split; [done |]. split; [done |].
      unfold MAX_RESPONSE, MAX_HEADERS in *. lia.
  - case_decide; [|apply IH; [done | done | lia]]. eexists. split; [done |]. split; [done | lia].
Qed.

(** An answer within the buffers is collected whole. *)
Lemma read_loop_small stdout app : f_buffering conf = true → Z.of_nat (length stdout) ≤ f_buffer_budget conf →
  Z.of_nat (length stdout) ≤ MAX_HEADERS → ∀ fuel r sofar h, mid stdout app r sofar →
  (length (sock r) < fuel)%nat → read_loop fuel conf r sofar h = Some (Ok (Complete stdout app)).
Proof.
  intros Hb Hbu Hmx fuel. induction fuel as [|fuel IH]; intros r sofar h Hm Hf; [lia |]. cbn [read_loop].
  destruct (pump_mid _ _ _ _ Hm) as [(r' & -> & <-)|(y & r' & -> & Hm' & Hl)]; [done |].
  assert (length (sofar ++ y) ≤ length stdout)%nat as Hlen.
  { destruct Hm' as (o & _ & -> & _). rewrite (length_app (sofar ++ y)). lia. }
  rewrite Hb. cbn [negb orb].
  destruct (match h with Some a => Some a | None => _ end) as [a|].
  - rewrite bool_decide_eq_false_2 by lia.
    rewrite decide_False by (unfold MAX_RESPONSE, MAX_HEADERS in *; lia). apply IH; [done | lia].
  - rewrite decide_False by lia. apply IH; [done | lia].
Qed.
End collect.

(** ** Any events at all *)

Lemma drain_sock fuel : ∀ b sink, sock (drain_go fuel b sink).2 = sock b.
Proof.
  induction fuel as [|fuel IH]; intros b sink; [done |]. cbn [drain_go].
  destruct (FcgiProto.parse_record _) as [rec|[]]; [|done..].
  destruct (FcgiProto.ty rec); try by rewrite IH.
  destruct (FcgiProto.end_request_status _) as [[x y]|]; [destruct (negb _)|]; done.
Qed.

Lemma pump_more_reads b sink sink' b' : pump b sink = (Ok More, sink', b') → (length (sock b') < length (sock b))%nat.
Proof.
  unfold pump. pose proof (drain_sock (S (length (raw b))) b sink) as H1. fold (drain_records b sink) in H1.
  destruct (drain_records b sink) as [[[[]|e] s1] b1]; cbn [snd] in H1; [done | | done].
  change (sock (compact b1)) with (sock b1). rewrite H1.
  destruct (sock b) as [|[d| |] l]; try discriminate. destruct d as [|c d]; [discriminate |].
  match goal with |- context [drain_records ?x s1] => pose proof (drain_sock (S (length (raw x))) x s1) as H2;
    fold (drain_records x s1) in H2; destruct (drain_records x s1) as [[[[]|e] s2] b2] end; [done | | done].
  intros [= _ <-]. cbn [snd] in H2. rewrite H2. cbn. lia.
Qed.

Lemma read_loop_ends {Regex} (conf : FastCgiConf Regex) fuel : ∀ r sofar h, (length (sock r) < fuel)%nat →
  is_Some (read_loop fuel conf r sofar h).
Proof.
  induction fuel as [|fuel IH]; intros r sofar h Hf; [lia |]. cbn [read_loop].
  destruct (pump r sofar) as [[[[]|e] s1] r1] eqn:E; [apply pump_more_reads in E | done..].
  destruct (match h with Some a => Some a | None => _ end) as [a|].
  - destruct (negb _ || _); [done |]. case_decide; [done |]. apply IH. lia.
  - case_decide; [done |]. apply IH. lia.
Qed.

(** A peer that is never quiet: it sends, and closes. *)
Definition talks (l : list Event) : Prop := ∃ ds, l = (Data <$> ds) ++ [Data []].

Lemma drain_error fuel : ∀ b sink e s b', drain_go fuel b sink = (Err e, s, b') → e = 502.
Proof.
  induction fuel as [|fuel IH]; intros b sink e s b'; [done |]. cbn [drain_go].
  destruct (FcgiProto.parse_record _) as [rec|[]]; [|done | by intros [= <-]].
  destruct (FcgiProto.ty rec); try apply IH.
  destruct (FcgiProto.end_request_status _) as [[x y]|]; [destruct (negb _)|]; try done. by intros [= <-].
Qed.

Lemma pump_talks b sink s b' : talks (sock b) →
  (∀ e, pump b sink = (Err e, s, b') → e = 502) ∧ (pump b sink = (Ok More, s, b') → talks (sock b')).
Proof.
  intros [ds Hds]. unfold pump. pose proof (drain_sock (S (length (raw b))) b sink) as H1.
  pose proof (drain_error (S (length (raw b))) b sink) as He1. fold (drain_records b sink) in H1, He1.
  destruct (drain_records b sink) as [[[[]|e1] s1] b1]; cbn [snd] in H1; [done | | split; [by intros e [= <- _ _]; eapply He1 | done]].
  change (sock (compact b1)) with (sock b1). rewrite H1, Hds.
  destruct ds as [|d ds]; [done |]. cbn [fmap list_fmap app]. destruct d as [|c d]; [done |].
  match goal with |- context [drain_records ?x s1] => pose proof (drain_sock (S (length (raw x))) x s1) as H2;
    pose proof (drain_error (S (length (raw x))) x s1) as He2;
    fold (drain_records x s1) in H2, He2; destruct (drain_records x s1) as [[[[]|e2] s2] b2] end; cbn [snd] in H2.
  - done.
  - split; [done |]. intros [= _ <-]. rewrite H2. by exists ds.
  - split; [|done]. intros e [= <- _ _]. by eapply He2.
Qed.

Lemma pump_error b sink e s b' : pump b sink = (Err e, s, b') → e = 502 ∨ e = 504.
Proof.
  unfold pump. pose proof (drain_error (S (length (raw b))) b sink) as He1. fold (drain_records b sink) in He1.
  destruct (drain_records b sink) as [[[[]|e1] s1] b1]; [done | | intros [= <- _ _]; left; by eapply He1].
  destruct (sock (compact b1)) as [|[d| |] l]; try (intros [= <- _ _]; auto).
  destruct d as [|c d]; [done |].
  match goal with |- context [drain_records ?x s1] => pose proof (drain_error (S (length (raw x))) x s1) as He2;
    fold (drain_records x s1) in He2; destruct (drain_records x s1) as [[[[]|e2] s2] b2] end; try done.
  intros [= <- _ _]. left. by eapply He2.
Qed.

Lemma read_loop_error {Regex} (conf : FastCgiConf Regex) fuel : ∀ r sofar h e,
  read_loop fuel conf r sofar h = Some (Err e) → (e = 502 ∨ e = 504) ∧ (talks (sock r) → e = 502).
Proof.
  induction fuel as [|fuel IH]; intros r sofar h e; [done |]. cbn [read_loop].
  destruct (pump r sofar) as [[[[]|e1] s1] r1] eqn:E; [|done|].
  - assert (talks (sock r) → talks (sock r1)) as Ht by (intros Ht; by apply (pump_talks _ sofar s1 r1 Ht)).
    destruct (match h with Some a => Some a | None => _ end) as [a|].
    + destruct (negb _ || _); [done |]. case_decide; [intros [= <-]; auto |]. intros [? ?]%IH. auto.
    + case_decide; [intros [= <-]; auto |]. intros [? ?]%IH. auto.
  - intros [= <-]. split; [by eapply pump_error |]. intros Ht. by eapply (pump_talks _ sofar s1 r1 Ht).
Qed.

(** ** The CGI head *)

Definition forwarded (hide : list bytes) (f : bytes * bytes) : Prop :=
  lowercase (fst f) ≠ str "status" ∧ lowercase (fst f) ∉ HOP_BY_HOP ∧ lowercase (fst f) ∉ hide.

#[export] Instance forwarded_dec hide f : Decision (forwarded hide f).
Proof. unfold forwarded. apply _. Defined.

(** The last line of that name. *)
Definition last_named (n : bytes) (fs : list (bytes * bytes)) : option bytes :=
  snd <$> last (filter (λ f, lowercase (fst f) = n) fs).

Definition status_of (v : option bytes) : Z :=
  match v with Some v => default 200 (parse_uint u16_max (first_word v)) | None => 200 end.

Lemma last_named_snoc n fs f : last_named n (fs ++ [f]) = if decide (lowercase (fst f) = n) then Some (snd f) else last_named n fs.
Proof.
  unfold last_named. rewrite filter_app, filter_cons. case_decide; cbn; [by rewrite last_snoc |]. by rewrite app_nil_r.
Qed.

Lemma cgi_fields_spec hide fs : let k := foldl (cgi_field hide) (mkCgi [] 200 false None) fs in
  cg_fields k = filter (forwarded hide) fs ∧ cg_status k = status_of (last_named (str "status") fs) ∧
  cg_location k = bool_decide (Exists (λ f, lowercase (fst f) = str "location" ∧ str "location" ∉ hide) fs).
Proof.
  induction fs as [|[n v] fs (IH1 & IH2 & IH3)] using rev_ind; [done |].
  rewrite foldl_app. cbn [foldl]. cbv zeta in *.
  set (k := foldl _ _ _) in *. clearbody k. rewrite filter_app, last_named_snoc, filter_cons. cbn [fst snd]. unfold cgi_field.
  assert (∀ (P : bytes * bytes → Prop) `{!∀ x, Decision (P x)}, bool_decide (Exists P (fs ++ [(n, v)])) = bool_decide (Exists P fs) || bool_decide (P (n, v))) as Hex.
  { intros P ?. apply eq_true_iff_eq. rewrite orb_true_iff, !bool_decide_eq_true, Exists_app, Exists_cons, Exists_nil. tauto. }
  rewrite Hex, <-IH3. cbn [fst].
  assert (Hst : str "status" ≠ str "location") by done.
  destruct (decide (lowercase n = str "status")) as [E|E].
  - rewrite (decide_False (P := forwarded hide (n, v))) by (unfold forwarded; cbn [fst]; tauto). cbn. rewrite app_nil_r. split; [done |]. split; [done |].
    rewrite bool_decide_eq_false_2 by (intros [? _]; by rewrite E in *). by rewrite orb_false_r.
  - destruct (decide _) as [Hh|Hh].
    + rewrite (decide_False (P := forwarded hide (n, v))) by (unfold forwarded; cbn [fst]; tauto). cbn. rewrite app_nil_r. split; [done |]. split; [done |].
      rewrite bool_decide_eq_false_2; [by rewrite orb_false_r |]. intros [El Hn]. rewrite El in Hh. destruct Hh as [Hh|Hh]; [|done].
      revert Hh. by apply (bool_decide_unpack _); vm_compute.
    + rewrite (decide_True (P := forwarded hide (n, v))) by (unfold forwarded; cbn [fst]; tauto). cbn. rewrite IH1. split; [done |]. split; [done |]. f_equal.
      apply bool_decide_ext. split; [|tauto]. intros El. split; [done |]. intros Hin. apply Hh. right. by rewrite El.
Qed.

Lemma push_fields_keep {A} (f : Resp → A) : (∀ n v r, f (header n v r) = f r) → ∀ l r, f (push_fields l r) = f r.
Proof.
  intros Hf l. induction l as [|[n v] l IH]; intros r; [done |]. unfold push_fields in *. cbn [foldl]. by rewrite IH, Hf.
Qed.

(** ** The outcome *)

Section outcome.
  Context {Regex W : Type} (groups : Regex → bytes → option (list (option bytes))).
  Context (is_match : Regex → bytes → bool) (env : W → Env) (octets6 : bytes → bytes).
  Local Abbreviation Ctx := (Ctx (Regex := Regex)).
  Context `{Net W} (dial : bytes → Z → St W → result DialError Up * St W) (http : Upstreams).

Lemma target_addr_error (c : Ctx) s t e s' : target_addr is_match env octets6 http t c s = (Err e, s') → e = 502.
Proof.
  destruct t as [n|h p|p|t]; cbn [target_addr]; try discriminate.
  - destruct (upstreams http !! n) as [g|]; [|by intros [= <-]].
    unfold ProxyReq.select_peer_excluding.
    destruct (match g_sticky g with Some _ => _ | None => _ end) as [i|]; [discriminate |].
    destruct (Upstream.select_excluding _ _ _ _ _); [discriminate |]. by intros [= <-].
  - case_decide; [by intros [= <-] |]. by case_decide.
Qed.

Lemma build_reply_error (conf : FastCgiConf Regex) o (c c' : Ctx) e : build_reply conf o c = (Err e, c') → e = 502.
Proof. unfold build_reply. destruct (find_header_end o) as [[h a]|]; [done |]. by intros [= <-]. Qed.

Lemma build_streaming_error (conf : FastCgiConf Regex) h p r (c c' : Ctx) e :
  build_streaming_reply conf h p r c = (Err e, c') → e = 502.
Proof. unfold build_streaming_reply. destruct (find_header_end h) as [[n a]|]; [done |]. by intros [= <-]. Qed.

(** A peer that can be dialled in time, and is never quiet. *)
Definition prompt : Prop := ∀ a t s,
  match fst (dial a t s) with Err DialSlow => False | Err Refused => True | Ok u => talks (up_in u) end.

(** An application that took the connection and neither reads the request nor
    leaves: no write has a timeout. *)
Definition unread_request (conf : FastCgiConf Regex) : Prop :=
  ∃ a t s u c s', fst (dial a t s) = Ok u ∧ silent (up_wr u) = true ∧
    (credit (up_wr u) < length (request_bytes is_match env conf c s'))%nat.

(** C14. How a request to an application fails. When what the application
    sends is finite, only one thing keeps the request from an end: an
    application that neither takes the request nor leaves. In every other case
    it ends, and a failure is answered with [502], or with [504] when the
    application kept the server waiting: never when it could be dialled in time
    and kept sending. *)
Theorem failures_are_gateway_errors (c : Ctx) l t s :
  match fastcgi groups is_match env octets6 dial http c l t s with
  | None => unread_request (Model.fastcgi (core (payload l)))
  | Some (Err code, _, _) => (code = 502 ∨ code = 504) ∧ (prompt → code = 502)
  | Some (Ok _, _, _) => True
  end.
Proof.
  unfold fastcgi. cbv zeta. destruct (target_addr _ _ _ _ _ _ _) as [[addr|e] s1] eqn:Ea.
  2: { apply target_addr_error in Ea as ->. auto. }
  set (c1 := split_script_and_path_info _ _ _). set (conf := Model.fastcgi _). clearbody c1 conf.
  assert (Hd := λ Hp : prompt, Hp addr (default 60000 (f_connect_timeout conf)) s1).
  destruct (dial addr _ s1) as [[u|[]] s2] eqn:Edial; cbn [fst] in Hd; [|by auto | by split; [auto | intros ?%Hd]].
  destruct (write_all _ _) as [w|w|w] eqn:Ew; [|by auto |].
  2: { exists addr, (default 60000 (f_connect_timeout conf)), s1, u, c1, s1. rewrite Edial. split; [done |].
       revert Ew. unfold write_all. case_decide; [done |]. destruct (silent (up_wr u)); [|done]. split; [done | lia]. }
  destruct (read_loop_ends conf (S (length (up_in u))) (new_body (up_in u)) [] None) as [r E]; [cbn; lia |].
  unfold read_response. rewrite E. cbn [mbind option_bind]. destruct r as [[o a|h p r]|e].
  - case_decide as Ho; [by case_decide; auto |].
    destruct (build_reply _ _ _) as [[r|code] c2] eqn:Eb; [done |]. apply build_reply_error in Eb as ->. auto.
  - destruct (build_streaming_reply _ _ _ _ _) as [[r'|code] c2] eqn:Eb; [done |]. apply build_streaming_error in Eb as ->. auto.
  - destruct (read_loop_error _ _ _ _ _ _ E) as [He Ht]. split; [done |]. intros Hp. apply Ht. cbn. by apply Hd.
Qed.

(** The application reads back what was meant: one request record that says
    whether the connection is kept, the pairs in their order, and the body. *)
Theorem request_reads_back (conf : FastCgiConf Regex) (c : Ctx) s : let l := param_list is_match env conf c s in
  Forall (λ p, Z.of_nat (length (fst p)) < 2 ^ 31 ∧ Z.of_nat (length (snd p)) < 2 ^ 31) l →
  ∃ flag rest rest', let out := request_bytes is_match env conf c s in
    FcgiProto.parse_record out = Ok (FcgiProto.mkRecord FcgiProto.BeginRequest FcgiProto.REQUEST_ID
      (to_be 2 FcgiProto.ROLE_RESPONDER ++ [of_u8 flag] ++ replicate 5 x00) (length out - length rest)%nat) ∧
    flag = (if f_keep_conn conf then 1 else 0) ∧ rest = drop (length out - length rest) out ∧
    let blob := encode_pairs l in
    FcgiProto.read_stream (S (length (FcgiProto.chunks blob))) FcgiProto.Params rest = Some (blob, rest') ∧
    FcgiProto.read_pairs (length l) blob = Some l ∧
    FcgiProto.read_stream (S (length (FcgiProto.chunks (req_body c)))) FcgiProto.Stdin rest' = Some (req_body c, []).
Proof.
  intros l Hl. unfold request_bytes, build_params. fold l.
  destruct (FcgiProto.params_roundtrip l (FcgiProto.push_stdin (req_body c)) Hl) as [Hp Hb].
  pose proof (FcgiProto.stdin_stream_roundtrip (req_body c) []) as Hs. rewrite app_nil_r in Hs.
  exists (if f_keep_conn conf then 1 else 0), (FcgiProto.push_params (encode_pairs l) ++ FcgiProto.push_stdin (req_body c)), (FcgiProto.push_stdin (req_body c)).
  cbv zeta. rewrite length_app, Nat.add_sub. rewrite drop_app_length. split_and!; try done.
Qed.
End outcome.


(** The head of an answer: the application's fields go on in their order, less
    [Status], the fields of the hop and the hidden ones; the status is that of
    the last [Status] line, [200] without one or when it is no number of
    sixteen bits, and [302] in the place of [200] beside a [Location]. *)
Theorem cgi_head_mapped {Regex} (conf : FastCgiConf Regex) head (c : Ctx (Regex := Regex)) :
  let hide := f_hide_headers conf in let fs := omap split_header (split_lines head) in
  let '(resp, _, c') := parse_cgi_headers conf head c in
  let st := status_of (last_named (str "status") fs) in
  status resp = (if decide (st = 200 ∧ Exists (λ f, lowercase (fst f) = str "location" ∧ str "location" ∉ hide) fs) then 302 else st) ∧
  resp = push_fields (filter (forwarded hide) fs) (with_status (status resp) new) ∧
  c' = put_upstream_status (status resp) c.
Proof.
  cbv zeta. unfold parse_cgi_headers, scan_cgi. set (fs := omap split_header (split_lines head)).
  destruct (cgi_fields_spec (f_hide_headers conf) fs) as (H1 & H2 & H3). set (k := foldl _ _ _) in *. clearbody k.
  rewrite (push_fields_keep status) by done. cbn [status with_status]. rewrite H1. split; [|done].
  unfold cgi_code. rewrite H2, H3. repeat case_bool_decide; repeat case_decide; cbn [andb]; tauto || congruence || (by destruct_and?) || idtac.
Qed.

(** ** To the client *)

(** No framing is set here: the writer decides. *)
Lemma cgi_framing {Regex} (conf : FastCgiConf Regex) head (c : Ctx (Regex := Regex)) :
  framing (parse_cgi_headers conf head c).1.1 = NoFraming.
Proof. unfold parse_cgi_headers. cbn [fst]. by rewrite (push_fields_keep framing). Qed.

Section to_client.
  Context {File : Type} (pread : File → Z → Z → option bytes).

Lemma delivers_relay l p : delivers l p → ∀ sent w, (length p ≤ credit w)%nat →
  relay None l sent w = SentAll (sent + Z.of_nat (length p)) (took p w).
Proof.
  induction 1 as [|d l p Hd Hl IH]; intros sent w Hc.
  - cbn. by rewrite took_nil, Z.add_0_r.
  - destruct d as [|c d]; [done |]. cbn [relay]. rewrite take_ge by done. rewrite length_app in Hc.
    rewrite write_all_fits by lia. rewrite IH by (cbn [took credit]; lia). rewrite took_app, length_app. f_equal. lia.
Qed.

Lemma delivers_reads l p : delivers l p → ∃ ds, l = (Data <$> ds) ++ [Data []] ∧ Forall (λ d, d ≠ []) ds ∧ mjoin ds = p.
Proof.
  induction 1 as [|d l p Hd _ (ds & -> & Hds & <-)]; [by exists [] |].
  exists (d :: ds). split_and!; [done | by constructor | done].
Qed.
(** An answer that is streamed has its reply. Where the application has said
    how long its body is, the reply carries those bytes, as
    [Conn.reply_on_the_wire] asks. Where it has not, the head announces a
    chunked body to an HTTP/1.1 client, and what follows the head is the body
    as it is, in no chunks. *)
Theorem streamed_reply_sent {Regex} (conf : FastCgiConf Regex) (c : Ctx (Regex := Regex)) stdout app wire ds h p r cap :
  sends stdout app wire → Forall (λ d, d ≠ []) ds → mjoin ds = wire → (0 < cap)%nat →
  read_response conf (Data <$> ds) = Some (Ok (Streaming h p r)) →
  ∃ rest resp len c', stdout = h ++ p ++ rest ∧
    build_streaming_reply conf h p r c = (Ok (mkReply resp (Stream p r len)), c') ∧
    (len = Some (Z.of_nat (length (p ++ rest))) → carries pread id (Stream p (body_reads cap r) len) (p ++ rest)) ∧
    (len = None → is_bodyless (status resp) = false →
     framing (Response.resp (frame true (mkReply (File := File) resp (Stream p (body_reads cap r) len)))) = Chunked ∧
     ∀ w, (length (p ++ rest) ≤ credit w)%nat →
       stream_upstream id p (body_reads cap r) len w =
       SentAll (Z.of_nat (length (p ++ rest))) (took (p ++ rest) w)).
Proof.
  intros Hs Hds Hw Hcap E. pose proof (mid_new _ _ _ _ Hs Hds Hw) as Hm.
  destruct (read_loop_answers conf stdout app (S (length (Data <$> ds))) (new_body (Data <$> ds)) [] None Hm I) as (res & E' & Ha);
    [cbn [sock new_body]; lia |].
  unfold read_response in E. rewrite E in E'. injection E' as <-. destruct Ha as [[[[n a] Hh] _] (rest & Hr & Hf)].
  apply (body_delivers cap _ _ Hcap) in Hf. exists rest. unfold build_streaming_reply. rewrite Hh.
  pose proof (cgi_framing conf (take n h) c) as Hfr. destruct (parse_cgi_headers conf (take n h) c) as [[q len] c'] eqn:Ep.
  exists q, len, c'. split_and!; [done | done | |].
  - intros ->. destruct (delivers_reads _ _ Hf) as (es & -> & Hes & <-).
    by apply (carries_stream _ _ _ _ es [Data []] []); [| | rewrite app_nil_r].
  - intros -> Hb. split.
    + unfold frame. cbn [Response.body Response.resp known_len]. rewrite Hb, decide_False by (by intros []). done.
    + intros w Hc. rewrite length_app in Hc. unfold stream_upstream.
      rewrite write_some_fits by lia. rewrite (delivers_relay _ _ Hf) by (cbn [took credit]; lia).
      rewrite took_app, length_app. f_equal. lia.
Qed.
End to_client.

(** The handler's world with this client in it; a body still arriving is what
    the reads of [stream_upstream], [cap] bytes at most, give. *)
Section world.
  Context {Regex W : Type} (base : Handler.World Regex unit Up (St W)) (env : W → Env) (octets6 : bytes → bytes).
  Context `{!Net (W := W)} (dial : bytes → Z → St W → result DialError Up * St W) (http : Upstreams) (cap : nat).
  (** A [World] answers. What a run goes on with behind an exchange that never
      ends is not the program's, and nothing is supposed of it. *)
  Context (lost : Ctx (Regex := Regex) → Loc Regex → St W → result Z (Reply unit Up) * St W).

Definition stream_of (b : Body unit FcgiBody) : Body unit Up :=
  match b with
  | Empty => Empty
  | Bytes b => Bytes b
  | Mmap m i j => Mmap m i j
  | Inline f o n => Inline f o n
  | FileBody f o n => FileBody f o n
  | Stream pre r len => Stream pre (mkUp (body_reads cap r) (mkWr [] 0 false)) len
  | Upgraded pre r idle => Upgraded pre (mkUp (body_reads cap r) (mkWr [] 0 false)) idle
  end.

Definition with_fastcgi : Handler.World Regex unit Up (St W) :=
  {| Handler.groups := Handler.groups; Handler.env := Handler.env; Handler.metadata := Handler.metadata;
     Handler.conn_key := Handler.conn_key; Handler.acquire := Handler.acquire; Handler.req_key := Handler.req_key;
     Handler.check := Handler.check; Handler.sleep := Handler.sleep; Handler.serve := Handler.serve;
     Handler.proxy_pass := Handler.proxy_pass;
     Handler.fastcgi_pass c l t s :=
       match fastcgi (@Handler.groups _ _ _ _ base) (@Handler.is_match _ _ _ _ base) env octets6 dial http c l t s with
       | Some (Ok r, c, s) => (Ok (mkReply (resp r) (stream_of (body r))), c, s)
       | Some (Err e, c, s) => (Err e, c, s)
       | None => let '(r, s) := lost c l s in (r, c, s)
       end;
     Handler.stub_body := Handler.stub_body; Handler.inspect := Handler.inspect;
     Handler.read_at := Handler.read_at; Handler.gzip_encode := Handler.gzip_encode |}.

Lemma parse_cgi_redirects (conf : FastCgiConf Regex) h (c : Ctx (Regex := Regex)) : redirects (parse_cgi_headers conf h c).2 = redirects c.
Proof. done. Qed.

Lemma split_script_redirects g (conf : FastCgiConf Regex) (c : Ctx (Regex := Regex)) :
  redirects (split_script_and_path_info g conf c) = redirects c.
Proof.
  unfold split_script_and_path_info. destruct (match mbind _ _ with Some _ => _ | None => _ end) as [script info].
  unfold append_index_if_directory. destruct (ends_with _ _); [|done]. by destruct (f_index conf).
Qed.

Lemma fastcgi_redirects (c : Ctx (Regex := Regex)) l t s r c' s' :
  fastcgi (@Handler.groups _ _ _ _ base) (@Handler.is_match _ _ _ _ base) env octets6 dial http c l t s = Some (r, c', s') →
  redirects c' = redirects c.
Proof.
  unfold fastcgi. cbv zeta. destruct (target_addr _ _ _ _ _ _ _) as [[addr|e] s1]; [|by intros [= _ <- _]].
  match goal with |- context [split_script_and_path_info ?g ?f ?x] => pose proof (split_script_redirects g f x) as Hc;
    set (c1 := split_script_and_path_info g f x) in *; clearbody c1; set (conf := f) end.
  change (redirects (put_upstream_addr addr c)) with (redirects c) in Hc.
  destruct (dial addr _ s1) as [[u|[]] s2]; [|by intros [= _ <- _]..].
  destruct (write_all _ _) as [w|w|w]; [|by intros [= _ <- _] | done].
  destruct (read_response _ _) as [[[o a|h p q]|e]|]; cbn [mbind option_bind]; [| | by intros [= _ <- _] | done].
  - case_decide; [case_decide; by intros [= _ <- _] |]. unfold build_reply.
    destruct (find_header_end o) as [[n b]|]; [|by intros [= _ <- _]].
    destruct (parse_cgi_headers _ _ _) as [[q len] c2] eqn:E. intros [= _ <- _].
    apply (f_equal snd) in E. cbn [snd] in E. by rewrite <-E, parse_cgi_redirects.
  - unfold build_streaming_reply. destruct (find_header_end h) as [[n b]|]; [|by intros [= _ <- _]].
    destruct (parse_cgi_headers _ _ _) as [[q' len] c2] eqn:E. intros [= _ <- _].
    apply (f_equal snd) in E. cbn [snd] in E. by rewrite <-E, parse_cgi_redirects.
Qed.

#[export] Instance fastcgi_laws : Handler.WorldLaws (H := base) → Handler.WorldLaws (H := with_fastcgi).
Proof.
  intros [Hs Hp _]. split; cbn; [exact Hs | exact Hp |]. intros c l t s.
  destruct (fastcgi _ _ _ _ _ _ _ _ _ _) as [[[[r|e] c'] s']|] eqn:E; [| |by destruct (lost c l s)]; by apply fastcgi_redirects in E.
Qed.
End world.

(** ** Samples *)

(** An answer in records: each chunk a [STDOUT], and the end. *)
Definition answer (app : Z) (chunks : list bytes) : list bytes :=
  (FcgiProto.push_record FcgiProto.Stdout <$> chunks) ++
  [FcgiProto.push_record FcgiProto.EndRequest (to_be 4 app ++ replicate 4 x00)].

Lemma push_record_is_record t b : Z.of_nat (length b) ≤ FcgiProto.MAX_CONTENT → is_record t b (FcgiProto.push_record t b).
Proof.
  intros Hb. pose proof (FcgiProto.parse_push_record t b [] Hb) as H. rewrite app_nil_r in H. by eexists.
Qed.

Lemma answer_sends code chunks : 0 ≤ code < 2 ^ 32 → Forall (λ b, Z.of_nat (length b) ≤ FcgiProto.MAX_CONTENT) chunks →
  sends (mjoin chunks) code (mjoin (answer code chunks)).
Proof.
  intros Ha Hc. unfold answer. induction Hc as [|b l Hb _ IH].
  - cbn [fmap list_fmap app mjoin list_join]. rewrite app_nil_r. eapply sends_end; [apply push_record_is_record; rewrite length_app, length_to_be, length_replicate; done |]. left.
    unfold FcgiProto.end_request_status. rewrite decide_False by (rewrite length_app, length_to_be, length_replicate; lia).
    pose proof (from_be_to_be_small 4 code ltac:(lia)) as Hv. pose proof (length_to_be 4 code) as Hn.
    destruct (to_be 4 code) as [|x0 [|x1 [|x2 [|x3 [|]]]]]; try discriminate Hn. cbn -[from_be]. by rewrite Hv.
  - cbn [fmap list_fmap app]. rewrite !join_cons. apply sends_out; [by apply push_record_is_record | exact IH].
Qed.

(** One byte at a time. *)
Definition bytewise (b : bytes) : list bytes := (λ c, [c]) <$> b.

Definition CRLF2 : bytes := CRLF ++ CRLF.
Definition page : bytes := str "Status: 201 Made" ++ CRLF ++ str "X-A: b" ++ CRLF2 ++ str "hello".

Definition buffered : FastCgiConf bytes := default_fastcgi.
Definition streamed : FastCgiConf bytes := mkFastCgiConf [] None None None None None false [] false (64 * 1024).


Definition php_params : list FastCgiParam :=
  [mkFastCgiParam (str "SCRIPT_NAME") (compile (str "$fastcgi_script_name")) false;
   mkFastCgiParam (str "HTTP_PROXY") (compile []) false; mkFastCgiParam (str "EMPTY") (compile []) true].

Definition php_conf : FastCgiConf bytes := mkFastCgiConf php_params (Some (str "index.php")) None None None None true [] true (64 * 1024).

Definition php_ctx : Ctx (Regex := bytes) :=
  let '(b, r) := Request.from_parts (str "POST") (str "/a/") [(str "Host", str "h"); (str "Proxy", str "evil:80")] in
  split_script_and_path_info (λ _ _, None) php_conf
    (new_ctx b r (str "k=v") [] (mkServerConf [] (mkSrv default_core (loc_set []) [] [] [] [] NoAction None)) (str "/a/") None None
      (str "http") 1 1).

Definition php_pairs : list (bytes * bytes) := param_list (λ _ _, false) sample_env php_conf php_ctx (start [] []).

(** The client's own field is behind the parameter that was to silence it, and
    an application takes the last. *)
Example configured_param_is_shadowed : php_pairs =
  [(str "SCRIPT_NAME", str "/a/index.php"); (str "HTTP_PROXY", []); (str "HTTP_HOST", str "h"); (str "HTTP_PROXY", str "evil:80")].
Proof. by vm_compute. Qed.

Lemma request_reads_back_witness : FcgiProto.read_pairs 4 (encode_pairs php_pairs) = Some php_pairs.
Proof.
  destruct (request_reads_back (λ _ _, false) sample_env php_conf php_ctx (start [] [])) as (flag & rest & rest' & _ & _ & _ & _ & Hp & _).
  - by apply (bool_decide_unpack _); vm_compute.
  - exact Hp.
Defined.

Definition cut_head : list bytes :=
  answer 0 [str "Content-Type: text/html" ++ CRLF; str "Set-Cookie: sid=1" ++ CRLF2 ++ str "hi"].

(** A head that is read up to the end of one of its lines is taken for all of
    it: when the answer is streamed the fields that follow are sent as the
    body. *)
Theorem cut_head_leaks :
  match read_response streamed (Data <$> cut_head) with
  | Some (Ok (Streaming h p r)) =>
      h = str "Content-Type: text/html" ++ CRLF ∧ p = [] ∧
      body_reads 100 r = [Data (str "Set-Cookie: sid=1" ++ CRLF2 ++ str "hi"); Data []]
  | _ => False
  end.
Proof. by vm_compute. Qed.

(** A connection that closes before the end of the request gives a reply like
    any other. *)
Theorem broken_answer_is_complete :
  read_response buffered [Data (FcgiProto.push_record FcgiProto.Stdout (str "X: y" ++ CRLF2 ++ str "hal")); Data []] =
  Some (Ok (Complete (str "X: y" ++ CRLF2 ++ str "hal") 0)).
Proof. by vm_compute. Qed.

(** The chunked body that begins some bytes, and what is behind it. *)
Definition dechunk (b : bytes) : option (bytes * bytes) :=
  let s := mkRd b [] 0 [Data []] in
  match read_chunked_body (body_fuel s) (64 * 1024) s with
  | Done (Ok tt, s) => Some (r_body s, drop (r_pos s) (r_read s))
  | _ => None
  end.

(** What an HTTP/1.1 client is sent for a streamed answer, behind its head. *)
Definition sent_for (o : bytes) : option (bytes * bytes) :=
  match read_response streamed (Data <$> answer 0 [o]) with
  | Some (Ok (Streaming h p r)) =>
      match fst (build_streaming_reply streamed h p r php_ctx) with
      | Ok q =>
          match sample_send 1 (mkReply (resp q) (Stream p (body_reads 100 r) None)) with
          | Again c => split_once_str CRLF2 (Conn.out (c_wr c))
          | _ => None
          end
      | Err _ => None
      end
  | _ => None
  end.

(** A streamed answer of no declared length, on an HTTP/1.1 connection that is
    kept: the head promises chunks and there are none, so a plain body cannot
    be read, and a body that looks like chunks ends where it says, with the
    rest of it as the next response. *)
Theorem streamed_page_is_not_chunked :
  let head o := fst <$> sent_for o in
  let body o := snd <$> sent_for o in
  let next := str "HTTP/1.1 200 OK" ++ CRLF in
  (∃ h, head page = Some h ∧ is_Some (split_once_str (str "Transfer-Encoding: chunked") h)) ∧
  body page = Some (str "hello") ∧ (body page ≫= dechunk) = None ∧
  (body (str "X: y" ++ CRLF2 ++ str "0" ++ CRLF2 ++ next) ≫= dechunk) = Some ([], next).
Proof.
  cbv zeta. split; [|by vm_compute].
  assert (H : match sent_for page with
    | Some (h, _) => bool_decide (is_Some (split_once_str (str "Transfer-Encoding: chunked") h)) | None => false end = true) by by vm_compute.
  destruct (sent_for page) as [[h b]|]; [|done]. exists h. split; [done |]. by apply bool_decide_eq_true in H.
Qed.

Definition streamed_parts : option (bytes * bytes * FcgiBody) :=
  Eval vm_compute in
  match read_response streamed (Data <$> answer 0 [page]) with Some (Ok (Streaming h p r)) => Some (h, p, r) | _ => None end.

Lemma streamed_reply_sent_witness :
  match streamed_parts with
  | Some (h, p, r) => stream_upstream id p (body_reads 100 r) None (mkWr [] 1000 false) = SentAll 5 (mkWr (str "hello") 995 false)
  | None => False
  end.
Proof.
  assert (E : match streamed_parts with
    | Some (h, p, r) => read_response streamed (Data <$> answer 0 [page]) = Some (Ok (Streaming h p r)) | None => False end)
    by by vm_compute.
  unfold streamed_parts in E |- *.
  eapply (streamed_reply_sent (File := unit) (λ _ _ _, None) streamed php_ctx page 0 (mjoin (answer 0 [page]))
    (answer 0 [page])) in E as (rest & q & len & c' & Hr & Hb & _ & Hraw).
  - set (seen b := match b : result Z (Response.Reply unit FcgiBody) * Ctx (Regex := bytes) with
                   | (Ok (mkReply q (Stream _ _ l)), _) => Some (status q, l) | _ => None end).
    apply (f_equal seen) in Hb. vm_compute in Hb. injection Hb as Hq <-.
    assert (rest = []) as -> by (apply (app_inv_head (take (length page - 5) page ++ str "hello")); rewrite app_nil_r; symmetry; exact Hr).
    assert (status q = 201) as Hs by (symmetry; exact Hq). destruct Hraw as [_ Hraw]; [done | by rewrite Hs |]. apply (Hraw (mkWr [] 1000 false)). cbn. lia.
  - apply (answer_sends 0 [page]); [done |]. repeat constructor; done.
  - by apply (bool_decide_unpack _); vm_compute.
  - done.
  - lia.
Defined.

(** The scripted connections, dialled. *)
Definition sample_dial (a : bytes) (t : Z) (s : St Script) : result DialError Up * St Script :=
  match connect (Net := sample_net) a t s with
  | (Some u, s) => (Ok u, s)
  | (None, s) => (Err Refused, s)
  end.

Definition outcome_of (conns : list (option Up)) : option (result Z (Z * bytes)) :=
  match fastcgi (λ _ _, None) (λ _ _, false) sample_env id sample_dial (sample_http []) php_ctx app_loc
    (ToAddr (str "php") 9000) (start [] conns) with
  | Some (Ok r, _, _) => Some (Ok (status (resp r), match body r with Bytes b => b | _ => [] end))
  | Some (Err e, _, _) => Some (Err e)
  | None => None
  end.

Definition php_up (l : list Event) : option Up := Some (mkUp l (mkWr [] 1000 false)).

Example fastcgi_outcomes :
  outcome_of [php_up (Data <$> answer 0 [page])] = Some (Ok (201, str "hello")) ∧
  outcome_of [None] = Some (Err 502) ∧ outcome_of [php_up [TimedOut]] = Some (Err 504) ∧
  outcome_of [php_up (Data <$> answer 1 [])] = Some (Err 502) ∧ outcome_of [php_up (Data <$> answer 0 [])] = Some (Ok (200, [])) ∧
  outcome_of [php_up [Data (replicate 8 x00)]] = Some (Err 502).
Proof. by vm_compute. Qed.
