(* ===== verification/H3Conn.v ===== *)
(** * [src/http3/conn.rs]: one HTTP/3 connection

    The reader of a QUIC stream, the peer's control stream and its other
    unidirectional streams, a request read off its own stream, routed through
    [Handler] and answered in frames. A stream is the list of what its reads
    report; a read past the end of the list waits for ever. *)
From S2P Require Import Prelude.
From S2P Require Import Text.
From S2P Require Import Wire.
From S2P Require Import Response.
From S2P Require Import Matching.
From S2P Require Import Model.
From S2P Require Import Ctx.
From S2P Require Import Handler.
From S2P Require Import ReadBody.
From S2P Require Import Conn.
From S2P Require Request.
From S2P Require Uri.
From S2P Require Hpack.
From S2P Require Qpack.
From S2P Require H2Conn.
From S2P Require H3Frame.

Open Scope oxi_scope.
Open Scope Z_scope.

Definition MAX_FIELD_SECTION : Z := 64 * 1024.
Definition CHUNK : Z := 64 * 1024.

(** ** The reader *)

(** What comes of an [await]: a value, a wait without end, or a loop longer
    than its fuel. *)
Inductive Async (A : Type) := Now (a : A) | Never | Spent.
Arguments Now {A} a.
Arguments Never {A}.
Arguments Spent {A}.

#[export] Instance async_bind : MBind Async := λ A B k a,
  match a with Now a => k a | Never => Never | Spent => Spent end.

(** What one read of a stream reports. *)
Inductive Rx := Chunk (d : bytes) | Fin | Reset.

Record Reader := mkReader { buf : bytes; eof : bool; recv : list Rx }.

Definition new_reader (l : list Rx) : Reader := mkReader [] false l.

(** [fill], called until the buffer has what [get] looks for: that and the
    rest, or nothing at the end of the stream. *)
Fixpoint fill_go {A} (get : bytes → option A) (l : list Rx) (b : bytes) : Async (option A * Reader) :=
  match get b with
  | Some a => Now (Some a, mkReader b false l)
  | None =>
      match l with
      | [] => Never
      | Chunk d :: l => fill_go get l (b ++ d)
      | Fin :: l | Reset :: l => Now (None, mkReader b true l)
      end
  end.

Definition fill_until {A} (get : bytes → option A) (r : Reader) : Async (option A * Reader) :=
  if eof r then Now (get (buf r), r) else fill_go get (recv r) (buf r).

Definition drain (n : nat) (r : Reader) : Reader := mkReader (drop n (buf r)) (eof r) (recv r).

Definition varint (r : Reader) : Async (option Z * Reader) :=
  '(v, r) ← fill_until H3Frame.get_varint r;
  Now match v with Some (v, n) => (Some v, drain n r) | None => (None, r) end.

Definition some_head (b : bytes) : option (result Z H3Frame.Head) :=
  match H3Frame.parse_head b with Ok None => None | Ok (Some h) => Some (Ok h) | Err e => Some (Err e) end.

Definition head (r : Reader) : Async (result Z (option H3Frame.Head) * Reader) :=
  '(h, r) ← fill_until some_head r;
  Now match h with
      | Some (Ok h) => (Ok (Some h), drain (H3Frame.head_len h) r)
      | Some (Err e) => (Err e, r)
      | None => (if decide (buf r = []) then Ok None else Err H3Frame.code.FRAME_ERROR, r)
      end.

Definition first_bytes (n : nat) (b : bytes) : option bytes :=
  if decide (length b < n)%nat then None else Some (take n b).

Definition exact (n : Z) (r : Reader) : Async (option bytes * Reader) :=
  '(p, r) ← fill_until (first_bytes (Z.to_nat n)) r;
  Now match p with Some p => (Some p, drain (Z.to_nat n) r) | None => (None, r) end.

(** A payload that does not come whole is an error of the connection. *)
Definition payload (n : Z) (r : Reader) : Async (result Z bytes * Reader) :=
  '(p, r) ← exact n r; Now (ok_or H3Frame.code.FRAME_ERROR p, r).

(** The bytes a reader can still give: each frame takes at least one. *)
Definition arrived (l : list Rx) : bytes := mjoin ((λ x, match x with Chunk d => d | _ => [] end) <$> l).
Definition frames_fuel (r : Reader) : nat := S (length (buf r) + length (arrived (recv r))).

(** ** The peer's unidirectional streams *)

(** What the arrival of a frame of this kind does to the control stream. *)
Definition control_frame (h : H3Frame.Head) (p : bytes) : result Z unit :=
  if decide (H3Frame.head_kind h = H3Frame.kind.SETTINGS) then
    match H3Frame.decode p with Ok _ => Ok tt | Err e => Err e end
  else if decide (H3Frame.head_kind h ∈ [H3Frame.kind.GOAWAY; H3Frame.kind.MAX_PUSH_ID; H3Frame.kind.CANCEL_PUSH]) then Ok tt
  else if decide (H3Frame.head_kind h ∈ [H3Frame.kind.DATA; H3Frame.kind.HEADERS; H3Frame.kind.PUSH_PROMISE]) then
    Err H3Frame.code.FRAME_UNEXPECTED
  else Ok tt.

Definition control_order (first : bool) (kind : Z) : result Z unit :=
  if first && negb (bool_decide (kind = H3Frame.kind.SETTINGS)) then Err H3Frame.code.MISSING_SETTINGS
  else if negb first && bool_decide (kind = H3Frame.kind.SETTINGS) then Err H3Frame.code.FRAME_UNEXPECTED
  else Ok tt.

Fixpoint control_go (fuel : nat) (first : bool) (r : Reader) : Async (result Z unit) :=
  match fuel with
  | O => Spent
  | S fuel =>
      '(h, r) ← head r;
      match h with
      | Err e => Now (Err e)
      | Ok None => Now (Ok tt)
      | Ok (Some h) =>
          match control_order first (H3Frame.head_kind h) with
          | Err e => Now (Err e)
          | Ok _ =>
              '(p, r) ← payload (H3Frame.len h) r;
              match (p ≫= control_frame h) with
              | Err e => Now (Err e)
              | Ok _ => control_go fuel false r
              end
          end
      end
  end.

Definition control_stream (r : Reader) : Async (result Z unit) := control_go (frames_fuel r) true r.

(** How the task that accepts the peer's streams stands: it waits for another
    one, it waits on one of them and accepts no more, or it has closed the
    connection. *)
Inductive Uni := Accepting | Held (rest : list (list Rx)) | Closes (e : Z) | UniSpent.

Fixpoint peer_uni_streams (streams : list (list Rx)) (seen_control : bool) : Uni :=
  match streams with
  | [] => Accepting
  | s :: rest =>
      match varint (new_reader s) with
      | Never => Held rest
      | Spent => UniSpent
      | Now (None, _) => peer_uni_streams rest seen_control
      | Now (Some t, r) =>
          if decide (t = H3Frame.stream_type.CONTROL) then
            if seen_control then Closes H3Frame.code.STREAM_CREATION_ERROR
            else
              match control_stream r with
              | Never => Held rest
              | Spent => UniSpent
              | Now (Err e) => Closes e
              | Now (Ok _) => peer_uni_streams rest true
              end
          else if decide (t = H3Frame.stream_type.PUSH) then Closes H3Frame.code.STREAM_CREATION_ERROR
          else peer_uni_streams rest seen_control
      end
  end.

(** [open_control]: what this end writes first. *)
Definition open_control : bytes :=
  H3Frame.put_varint H3Frame.stream_type.CONTROL ++
  H3Frame.put_frame H3Frame.kind.SETTINGS (H3Frame.encode H3Frame.default).

(** ** A request *)

(** What a request stream asks for: nothing, a bare refusal, or this. *)
Inductive Asked := Nothing | Bare (code : Z) | Asks (p : H2Conn.Parsed) (body : bytes).

(** What a frame behind the head does to the body. *)
Fixpoint body_go (fuel : nat) (max_body : Z) (p : H2Conn.Parsed) (body : bytes) (r : Reader) : Async (result Z Asked) :=
  match fuel with
  | O => Spent
  | S fuel =>
      '(h, r) ← head r;
      match h with
      | Err e => Now (Err e)
      | Ok None => Now (Ok (Asks p body))
      | Ok (Some h) =>
          let skip (k : bytes → bytes) :=
            '(c, r) ← payload (H3Frame.len h) r;
            match c with Err e => Now (Err e) | Ok c => body_go fuel max_body p (k c) r end in
          if decide (H3Frame.head_kind h = H3Frame.kind.DATA) then
            if decide (max_body < Z.of_nat (length body) + H3Frame.len h) then Now (Ok (Bare 413))
            else skip (λ c, body ++ c)
          else if decide (H3Frame.head_kind h = H3Frame.kind.HEADERS) then skip (λ _, body)
          else if decide (H3Frame.head_kind h ∈ [H3Frame.kind.SETTINGS; H3Frame.kind.GOAWAY; H3Frame.kind.MAX_PUSH_ID;
                            H3Frame.kind.CANCEL_PUSH]) then
            Now (Err H3Frame.code.FRAME_UNEXPECTED)
          else skip (λ _, body)
      end
  end.

(** [request], up to the routing; an [Err] closes the connection. *)
Definition read_request (max_body : Z) (r : Reader) : Async (result Z Asked) :=
  '(h, r) ← head r;
  match h with
  | Err e => Now (Err e)
  | Ok None => Now (Ok Nothing)
  | Ok (Some h) =>
      if decide (H3Frame.head_kind h ≠ H3Frame.kind.HEADERS) then Now (Err H3Frame.code.FRAME_UNEXPECTED)
      else if decide (MAX_FIELD_SECTION < H3Frame.len h) then Now (Err H3Frame.code.EXCESSIVE_LOAD)
      else
        '(block, r) ← payload (H3Frame.len h) r;
        match (b ← block; Qpack.decode b MAX_FIELD_SECTION) with
        | Err e => Now (Err e)
        | Ok fields =>
            match H2Conn.parse_headers fields with
            | Err _ => Now (Ok (Bare 400))
            | Ok p => body_go (frames_fuel r) max_body p [] r
            end
        end
  end.

(** ** The reply *)

Section reply.
  Context {File Io : Type} (pread : File → Z → Z → option bytes) (io_reads : Io → list Event).

Definition length_of (f : Framing) : option Z := match f with Length n => Some n | _ => None end.

Definition head_block (r : Resp) : bytes :=
  Qpack.begin_section ++ Qpack.encode_all (H2Conn.response_fields (status r) (fields r) (length_of (framing r))).

(** [data], the closure of [write_body]. *)
Definition data (chunk : bytes) (w : Wr) : Write :=
  if decide (chunk = []) then Wrote w
  else
    match write_all (H3Frame.put_data_head (Z.of_nat (length chunk))) w with
    | Wrote w => write_all chunk w
    | stopped => stopped
    end.

(** The file's loop; [left] bytes are enough turns. *)
Fixpoint file_frames (fuel : nat) (f : File) (off left sent : Z) (w : Wr) : Async (Z * Wr) :=
  match fuel with
  | O => Now (sent, w)
  | S fuel =>
      if decide (left ≤ 0) then Now (sent, w)
      else
        match pread f off (Z.min left CHUNK) with
        | None | Some [] => Now (sent, w)
        | Some b =>
            match data b w with
            | Waits _ => Never
            | Refused w => Now (sent, w)
            | Wrote w => let n := Z.of_nat (length b) in file_frames fuel f (off + n) (left - n) (sent + n) w
            end
        end
  end.

(** The upstream's; the read has no timeout, and an error ends the body as its
    end does. *)
Fixpoint stream_frames (l : list Event) (sent : Z) (w : Wr) : Async (Z * Wr) :=
  match l with
  | [] => Never
  | TimedOut :: l => stream_frames l sent w
  | Failed :: _ | Data [] :: _ => Now (sent, w)
  | Data d :: l =>
      match data d w with
      | Waits _ => Never
      | Refused w => Now (sent, w)
      | Wrote w => stream_frames l (sent + Z.of_nat (length d)) w
      end
  end.

Definition write_body (b : Body File Io) (w : Wr) : Async (Z * Wr) :=
  let held p :=
    match data p w with Wrote w => Now (Z.of_nat (length p), w) | Refused w => Now (0, w) | Waits _ => Never end in
  match b with
  | Empty | Upgraded _ _ _ => Now (0, w)
  | Bytes p => held p
  | Mmap m i j => held (take (j - i) (drop i m))
  | Inline f off len | FileBody f off len => file_frames (Z.to_nat len) f off len 0 w
  | Stream pre io _ =>
      match data pre w with
      | Waits _ => Never
      | Refused w => Now (0, w)
      | Wrote w => stream_frames (io_reads io) (Z.of_nat (length pre)) w
      end
  end.

(** [write_response]: the counts for the log, what was written, and whether
    the stream was finished. *)
Definition write_response (r : Resp) (b : Body File Io) (w : Wr) : Async (Z * Z * Wr * bool) :=
  let out := H3Frame.put_frame H3Frame.kind.HEADERS (head_block r) in
  let total := Z.of_nat (length out) in
  match write_all out w with
  | Waits _ => Never
  | Refused w => Now (0, total, w, false)
  | Wrote w => '(n, w) ← write_body b w; Now (n, total + n, w, true)
  end.

Definition respond_bare (code : Z) (w : Wr) : Async (Z * Z * Wr * bool) :=
  write_response (with_status code new) Empty w.
End reply.

Section serve.
  Context {Regex File Io W : Type} `{!World Regex File Io W}.
  Context (pread : File → Z → Z → option bytes) (io_reads : Io → list Event).

(** What is left of a request: what its stream was sent and whether it was
    finished, its line in the log, the world. *)
Record Answered := mkAnswered { a_wr : Wr; a_fin : bool; a_log : list LogLine; a_world : W }.

(** How the task of a request ends: with an answer or nothing, closing the
    connection, or in a panic. *)
Inductive Task := Ended (a : Answered) | Drops (e : Z) | Aborts.

Definition bare (code : Z) (w : W) (out : Wr) : Async Task :=
  '(_, _, out, fin) ← respond_bare pread io_reads code out; Now (Ended (mkAnswered out fin [] w)).

(** The request of a body, the first of its kind on this stream. *)
Definition routed (p : H2Conn.Parsed) (body : bytes) : bytes * Request.Req :=
  let '(buf, req) := Request.from_parts (H2Conn.method p) (H2Conn.path p) (H2Conn.parsed_headers p) in
  (buf, if decide (body = []) then req else Request.with_body (Request.Length (Z.of_nat (length body))) req).

Definition answer (L : Listener (Regex := Regex)) (requests : Z) (p : H2Conn.Parsed) (body : bytes) (w : W) (out : Wr) : Async Task :=
  let '(buf, req) := routed p body in
  match match_host is_match (servers L) (default_server L) (H2Conn.authority p) with
  | None => Now Aborts
  | Some server =>
      match Uri.normalize (Request.slice buf (Request.path req)) with
      | Err _ => bare 400 w out
      | Ok u =>
          let c := new_ctx buf req body (http_maps L) server u (l_remote L) (l_local L) (str "https") (l_conn_id L) requests in
          let '(reply, _, w) := handle c w in
          let reply := frame true reply in
          let b := if is_head (Request.method req) then Empty else Response.body reply in
          '(n, total, out, fin) ← write_response pread io_reads (resp reply) b out;
          Now (Ended (mkAnswered out fin [mkLogLine (status (resp reply)) n total] w))
      end
  end.

Definition request (L : Listener (Regex := Regex)) (requests : Z) (r : Reader) (w : W) (out : Wr) : Async Task :=
  match servers L !! default_server L with
  | None => Now Aborts
  | Some default =>
      a ← read_request (client_max_body_size (s_core (conf default))) r;
      match a with
      | Err e => Now (Drops e)
      | Ok Nothing => Now (Ended (mkAnswered out false [] w))
      | Ok (Bare code) => bare code w out
      | Ok (Asks p body) => answer L requests p body w out
      end
  end.
End serve.

(** ** Reading under any cut *)

(** How a stream goes on behind its bytes: with an end, a reset being one too,
    or with nothing more. *)
Definition ending (closed : bool) (l : list Rx) : Prop :=
  if closed then ∃ e more, l = e :: more ∧ (e = Fin ∨ e = Reset) else l = [].

(** A reader to which exactly these bytes are still to come. *)
Definition holds (closed : bool) (r : Reader) (t : bytes) : Prop :=
  (closed = true ∧ eof r = true ∧ buf r = t) ∨
  (eof r = false ∧ ∃ cs l, recv r = (Chunk <$> cs) ++ l ∧ ending closed l ∧ t = buf r ++ mjoin cs).

Lemma holds_new closed cs l : ending closed l → holds closed (new_reader ((Chunk <$> cs) ++ l)) (mjoin cs).
Proof. intros He. right. split; [done |]. by exists cs, l. Qed.

(** Once found, found in whatever follows. *)
Definition stable {A} (get : bytes → option A) : Prop := ∀ b more a, get b = Some a → get (b ++ more) = Some a.

Lemma get_varint_stable : stable H3Frame.get_varint.
Proof. intros b more [v n]. apply H3Frame.get_varint_app. Qed.

Lemma some_head_stable : stable some_head.
Proof.
  intros b more h. unfold some_head, H3Frame.parse_head.
  destruct (H3Frame.get_varint b) as [[k a]|] eqn:H1; [|done]. rewrite (H3Frame.get_varint_app _ more _ _ H1).
  apply H3Frame.get_varint_bound in H1. destruct (H3Frame.get_varint (drop a b)) as [[l c]|] eqn:H2; [|done].
  rewrite drop_app_le by lia. by rewrite (H3Frame.get_varint_app _ more _ _ H2).
Qed.

Lemma first_bytes_stable n : stable (first_bytes n).
Proof.
  intros b more p. unfold first_bytes. case_decide as H; [done |]. intros [= <-].
  rewrite decide_False by (rewrite length_app; lia). by rewrite take_app_le by lia.
Qed.

(** So a search finds what is in all of the stream, however it is cut. *)
Lemma fill_holds {A} (get : bytes → option A) closed r t : stable get → holds closed r t → is_Some (get t) ∨ closed = true →
  ∃ r', fill_until get r = Now (get t, r') ∧ holds closed r' t ∧ get (buf r') = get t ∧ (get t = None → buf r' = t).
Proof.
  intros Hst [(-> & He & <-)|(He & cs & l & Hr & Hend & ->)] Hg; unfold fill_until; rewrite He.
  { exists r. split_and!; try done. by left. }
  rewrite Hr. revert Hg. generalize (buf r) as b. clear He Hr r. induction cs as [|c cs IH]; intros b Hg.
  - change (mjoin []) with (@nil byte) in *. rewrite app_nil_r in *. cbn [fmap list_fmap app].
    destruct (get b) as [a|] eqn:E.
    + exists (mkReader b false l). split; [|split_and!; [|done..]].
      * destruct l; cbn [fill_go]; by rewrite E.
      * right. split; [done |]. exists [], l. change (mjoin []) with (@nil byte). by rewrite app_nil_r.
    + destruct Hg as [[? [=]]| ->]. destruct Hend as (e & more & -> & Hend).
      exists (mkReader b true more). split; [|split_and!; [by left | done..]].
      cbn [fill_go]. rewrite E. by destruct Hend as [-> | ->].
  - cbn [fmap list_fmap app fill_go]. rewrite join_cons in *. destruct (get b) as [a|] eqn:E.
    + rewrite (Hst _ _ _ E). eexists. split_and!; [done | | done | done]. right. split; [done |]. by exists (c :: cs), l.
    + rewrite app_assoc in *. by apply IH.
Qed.

Lemma fill_waits {A} (get : bytes → option A) r t : stable get → holds false r t → get t = None → fill_until get r = Never.
Proof.
  intros Hst [(? & _)|(He & cs & l & Hr & -> & ->)] Hg; [done |]. unfold fill_until. rewrite He, Hr, app_nil_r.
  revert Hg. generalize (buf r) as b. clear He Hr r. induction cs as [|c cs IH]; intros b Hg; cbn [fmap list_fmap fill_go].
  - change (mjoin []) with (@nil byte) in Hg. rewrite app_nil_r in Hg. by rewrite Hg.
  - rewrite join_cons in Hg. destruct (get b) eqn:E; [by rewrite (Hst _ _ _ E) in Hg |]. apply IH. by rewrite <-app_assoc.
Qed.

Lemma holds_drain n closed r t : holds closed r t → (n ≤ length (buf r))%nat → holds closed (drain n r) (drop n t).
Proof.
  intros [(-> & He & <-)|(He & cs & l & Hr & Hend & ->)] Hn; [by left |]. right. split; [done |].
  exists cs, l. split_and!; [done | done |]. cbn. by rewrite drop_app_le.
Qed.

Lemma head_holds closed r t h : holds closed r t → some_head t = Some (Ok h) → ∃ r',
  head r = Now (Ok (Some h), r') ∧ holds closed r' (drop (H3Frame.head_len h) t).
Proof.
  intros Hr Ht. destruct (fill_holds some_head closed r t some_head_stable Hr) as (r' & E & Hr' & Hg & _); [rewrite Ht; eauto |].
  unfold head. rewrite E, Ht. cbn [mbind async_bind]. eexists. split; [done |]. apply holds_drain; [done |].
  unfold some_head in Hg, Ht. destruct (H3Frame.parse_head (buf r')) as [[h'|]|] eqn:Hp; try by rewrite Ht in Hg.
  rewrite Ht in Hg. injection Hg as ->. apply H3Frame.parse_head_bound in Hp. lia.
Qed.

Lemma payload_holds n closed r t : holds closed r t → (Z.to_nat n ≤ length t)%nat → ∃ r',
  payload n r = Now (Ok (take (Z.to_nat n) t), r') ∧ holds closed r' (drop (Z.to_nat n) t).
Proof.
  intros Hr Hn. assert (first_bytes (Z.to_nat n) t = Some (take (Z.to_nat n) t)) as Ht
    by (unfold first_bytes; by rewrite decide_False by lia).
  destruct (fill_holds (first_bytes (Z.to_nat n)) closed r t (first_bytes_stable _) Hr) as (r' & E & Hr' & Hg & _);
    [rewrite Ht; eauto |].
  unfold payload, exact. rewrite E, Ht in *. cbn. eexists. split; [done |]. apply holds_drain; [done |].
  revert Hg. unfold first_bytes. case_decide; [done | lia].
Qed.

#[local] Existing Instance H3Frame.h3_frame_wire.

(** The frames of a stream, one after the other. *)
Definition frames_on (closed : bool) (r : Reader) (fs : list (Z * bytes)) : Prop :=
  Forall H3Frame.h3_frame_valid fs ∧ holds closed r (stream_of fs).

Definition head_of (f : Z * bytes) : H3Frame.Head :=
  H3Frame.mkHead (fst f) (Z.of_nat (length (snd f))) (H3Frame.varint_len (fst f) + H3Frame.varint_len (Z.of_nat (length (snd f)))).

Lemma frames_none closed r : frames_on closed r [] →
  if closed then ∃ r', head r = Now (Ok None, r') else head r = Never.
Proof.
  intros [_ Hr]. unfold head. destruct closed.
  - destruct (fill_holds some_head true r [] some_head_stable Hr) as (r' & E & _ & _ & Hb); [auto |].
    exists r'. rewrite E. cbn. by rewrite (Hb eq_refl).
  - by rewrite (fill_waits some_head r [] some_head_stable Hr).
Qed.

Lemma frames_next closed r f fs : frames_on closed r (f :: fs) → ∃ r1 r2, head r = Now (Ok (Some (head_of f)), r1) ∧
  payload (Z.of_nat (length (snd f))) r1 = Now (Ok (snd f), r2) ∧ frames_on closed r2 fs.
Proof.
  intros [[Hf Hfs]%Forall_cons Hr]. destruct f as [k p]. destruct Hf as (Hk & Hres & Hp).
  unfold stream_of in Hr. rewrite fmap_cons_eq, join_cons in Hr. fold (stream_of fs) in Hr. cbn [wf_encode H3Frame.h3_frame_wire fst snd] in *.
  destruct (head_holds closed _ _ (head_of (k, p)) Hr) as (r1 & E1 & Hr1).
  { unfold some_head. by rewrite H3Frame.parse_head_put, Hres. }
  cbn [head_of H3Frame.head_len fst snd] in Hr1.
  assert (drop (H3Frame.varint_len k + H3Frame.varint_len (Z.of_nat (length p))) (H3Frame.put_frame k p ++ stream_of fs) = p ++ stream_of fs) as Hd.
  { unfold H3Frame.put_frame. rewrite <-!app_assoc, <-drop_drop. by rewrite !H3Frame.drop_put_varint by lia. }
  rewrite Hd in Hr1. destruct (payload_holds (Z.of_nat (length p)) _ _ _ Hr1) as (r2 & E2 & Hr2); [rewrite length_app; lia |].
  rewrite Nat2Z.id, take_app_length, drop_app_length in *. exists r1, r2. by split_and!.
Qed.

(** ** Progress *)

Definition waiting (r : Reader) : nat := (length (buf r) + length (arrived (recv r)))%nat.

Lemma fill_go_waiting {A} (get : bytes → option A) l : ∀ b a r', fill_go get l b = Now (a, r') →
  (waiting r' ≤ length b + length (arrived l))%nat ∧ (∀ x, a = Some x → get (buf r') = Some x).
Proof.
  induction l as [|x l IH]; intros b a r'; cbn [fill_go].
  - destruct (get b) eqn:E; [|done]. intros [= <- <-]. by split; [| intros ? [= <-]].
  - destruct (get b) eqn:E; [intros [= <- <-]; by split; [| intros ? [= <-]] |].
    destruct x as [d| |]; [|intros [= <- <-]; by split..].
    intros [H1 H2]%IH. split; [|done]. rewrite length_app in H1. change (arrived (Chunk d :: l)) with (d ++ arrived l).
    rewrite length_app. lia.
Qed.

Lemma fill_waiting {A} (get : bytes → option A) r a r' : fill_until get r = Now (a, r') →
  (waiting r' ≤ waiting r)%nat ∧ (∀ x, a = Some x → get (buf r') = Some x).
Proof.
  unfold fill_until. destruct (eof r); [intros [= <- <-]; by split; [| intros ? Hx] |]. apply fill_go_waiting.
Qed.

Lemma fill_not_spent {A} (get : bytes → option A) r : fill_until get r ≠ Spent.
Proof.
  unfold fill_until. destruct (eof r); [done |]. generalize (buf r). induction (recv r) as [|x l IH]; intros b; cbn [fill_go];
    (destruct (get b); [done |]); [done |]. by destruct x.
Qed.

Lemma drain_waiting n r : (n ≤ length (buf r))%nat → (waiting (drain n r) + n = waiting r)%nat.
Proof. intros Hn. unfold waiting, drain. cbn [buf recv]. rewrite length_drop. lia. Qed.

Lemma head_progress r h r' : head r = Now (Ok (Some h), r') → (waiting r' < waiting r)%nat.
Proof.
  unfold head. destruct (fill_until some_head r) as [[a r1]| |] eqn:E; cbn; try done. apply fill_waiting in E as [Hw Hg].
  destruct a as [[h1|e]|]; try done; [|by case_decide]. intros [= -> <-]. specialize (Hg _ eq_refl).
  unfold some_head in Hg. destruct (H3Frame.parse_head (buf r1)) as [[h'|]|] eqn:Hp; try done. injection Hg as ->.
  apply H3Frame.parse_head_bound in Hp as [[H1 H2] _]. pose proof (drain_waiting _ _ H2). lia.
Qed.

Lemma payload_waiting n r p r' : payload n r = Now (Ok p, r') → (waiting r' ≤ waiting r)%nat.
Proof.
  unfold payload, exact. destruct (fill_until _ r) as [[a r1]| |] eqn:E; cbn; try done. apply fill_waiting in E as [Hw Hg].
  destruct a as [q|]; cbn; [|done]. intros [= -> <-]. specialize (Hg _ eq_refl). unfold first_bytes in Hg.
  case_decide as Hl; [done |]. pose proof (drain_waiting (Z.to_nat n) r1 ltac:(lia)). lia.
Qed.

Lemma head_not_spent r : head r ≠ Spent.
Proof.
  unfold head. pose proof (fill_not_spent some_head r) as H. destruct (fill_until some_head r) as [[a r1]| |]; by cbn.
Qed.

Lemma payload_not_spent n r : payload n r ≠ Spent.
Proof.
  unfold payload, exact. pose proof (fill_not_spent (first_bytes (Z.to_nat n)) r) as H. destruct (fill_until _ r) as [[[p|] r1]| |]; by cbn.
Qed.

(** ** The streams the peer opens for itself *)

(** What a control stream of these frames comes to. *)
Definition control_verdict (fs : list (Z * bytes)) : result Z unit :=
  match fs with
  | [] => Ok tt
  | f :: fs =>
      if decide (fst f ≠ H3Frame.kind.SETTINGS) then Err H3Frame.code.MISSING_SETTINGS
      else
        match H3Frame.decode (snd f) with
        | Err e => Err e
        | Ok _ =>
            if decide (Exists (λ f, fst f ∈ [H3Frame.kind.SETTINGS; H3Frame.kind.DATA; H3Frame.kind.HEADERS;
                                             H3Frame.kind.PUSH_PROMISE]) fs)
            then Err H3Frame.code.FRAME_UNEXPECTED else Ok tt
        end
  end.

Definition or_waits (closed : bool) (v : result Z unit) : Async (result Z unit) :=
  match v with Ok _ => if closed then Now (Ok tt) else Never | Err e => Now (Err e) end.

Lemma control_rest closed fs : ∀ fuel r, frames_on closed r fs → (length fs < fuel)%nat →
  control_go fuel false r = or_waits closed
    (if decide (Exists (λ f, fst f ∈ [H3Frame.kind.SETTINGS; H3Frame.kind.DATA; H3Frame.kind.HEADERS; H3Frame.kind.PUSH_PROMISE]) fs)
     then Err H3Frame.code.FRAME_UNEXPECTED else Ok tt).
Proof.
  induction fs as [|f fs IH]; intros fuel r Hr Hf; (destruct fuel as [|fuel]; [cbn in Hf; lia |]); cbn [control_go].
  - rewrite decide_False by (by intros ?%Exists_nil). apply frames_none in Hr. destruct closed; [destruct Hr as (r' & ->) | rewrite Hr]; done.
  - destruct (frames_next _ _ _ _ Hr) as (r1 & r2 & -> & E2 & Hr2). cbn [mbind async_bind head_of H3Frame.head_kind H3Frame.len].
    unfold control_order. cbn [andb negb].
    destruct (decide (fst f = H3Frame.kind.SETTINGS)) as [Hk|Hk].
    { rewrite bool_decide_eq_true_2 by done. rewrite decide_True; [done |]. left. rewrite Hk. set_solver. }
    rewrite bool_decide_eq_false_2 by done. rewrite E2. cbn [mbind result_bind async_bind]. unfold control_frame. cbn [head_of H3Frame.head_kind fst snd].
    rewrite decide_False by done.
    destruct (decide (fst f ∈ [H3Frame.kind.DATA; H3Frame.kind.HEADERS; H3Frame.kind.PUSH_PROMISE])) as [Hb|Hb].
    { rewrite decide_False; [rewrite decide_True; [done | left; set_solver] |].
      cbn [head_of H3Frame.head_kind]. rewrite !elem_of_cons, elem_of_nil in *.
      unfold H3Frame.kind.DATA, H3Frame.kind.HEADERS, H3Frame.kind.PUSH_PROMISE, H3Frame.kind.GOAWAY, H3Frame.kind.MAX_PUSH_ID,
        H3Frame.kind.CANCEL_PUSH in *. lia. }
    assert ((if decide (fst f ∈ [H3Frame.kind.GOAWAY; H3Frame.kind.MAX_PUSH_ID; H3Frame.kind.CANCEL_PUSH]) then Ok tt
             else Ok (E := Z) tt) = Ok tt) as -> by (by destruct (decide (fst f ∈ [H3Frame.kind.GOAWAY; H3Frame.kind.MAX_PUSH_ID; H3Frame.kind.CANCEL_PUSH]))).
    rewrite (IH fuel r2 Hr2) by (cbn in Hf; lia). f_equal. apply decide_ext. rewrite Exists_cons. set_solver.
Qed.

Lemma stream_length (fs : list (Z * bytes)) : (length fs ≤ length (stream_of fs))%nat.
Proof.
  induction fs as [|[k p] fs IH]; [done |]. unfold stream_of in *. rewrite fmap_cons_eq, join_cons, length_app. cbn [length].
  assert (0 < length (wf_encode (WireFormat := H3Frame.h3_frame_wire) (k, p)))%nat; [|lia].
  cbn. unfold H3Frame.put_frame, H3Frame.put_varint. rewrite length_app. repeat case_match; cbn; rewrite ?length_to_be; lia.
Qed.

Lemma holds_fuel closed r t : holds closed r t → (length t < frames_fuel r)%nat.
Proof.
  unfold frames_fuel. intros [(_ & _ & <-)|(_ & cs & l & -> & _ & ->)]; [lia |].
  assert (arrived ((Chunk <$> cs) ++ l) = mjoin cs ++ arrived l) as ->.
  { unfold arrived. rewrite fmap_app, join_app. f_equal. induction cs as [|c cs IH]; [done |].
    rewrite !fmap_cons_eq, !join_cons. by f_equal. }
  rewrite !length_app. lia.
Qed.

Lemma control_frames closed r fs : frames_on closed r fs → control_stream r = or_waits closed (control_verdict fs).
Proof.
  intros Hr. pose proof (holds_fuel _ _ _ (proj2 Hr)) as Hf. pose proof (stream_length fs) as Hl.
  unfold control_stream. destruct (frames_fuel r) as [|fuel]; [lia |]. cbn [control_go].
  destruct fs as [|f fs].
  - apply frames_none in Hr. destruct closed; [destruct Hr as (r' & ->) | rewrite Hr]; done.
  - destruct (frames_next _ _ _ _ Hr) as (r1 & r2 & -> & E2 & Hr2). cbn [mbind async_bind head_of H3Frame.head_kind H3Frame.len control_verdict].
    unfold control_order. cbn [andb negb].
    destruct (decide (fst f = H3Frame.kind.SETTINGS)) as [Hk|Hk].
    + rewrite bool_decide_eq_true_2 by done. cbn [negb]. rewrite E2. cbn [mbind async_bind result_bind]. unfold control_frame.
      cbn [head_of H3Frame.head_kind fst snd]. rewrite decide_True by done. rewrite decide_False by tauto.
      destruct (H3Frame.decode (snd f)) as [s|e]; [|done]. apply control_rest; [done |]. cbn in Hl, Hf. lia.
    + rewrite bool_decide_eq_false_2 by done. cbn [negb]. by rewrite decide_True.
Qed.

(** ** A request's stream *)

Fixpoint body_verdict (max_body : Z) (p : H2Conn.Parsed) (body : bytes) (fs : list (Z * bytes)) : result Z Asked :=
  match fs with
  | [] => Ok (Asks p body)
  | (k, d) :: fs =>
      if decide (k = H3Frame.kind.DATA) then
        if decide (max_body < Z.of_nat (length (body ++ d))) then Ok (Bare 413) else body_verdict max_body p (body ++ d) fs
      else if decide (k ∈ [H3Frame.kind.SETTINGS; H3Frame.kind.GOAWAY; H3Frame.kind.MAX_PUSH_ID; H3Frame.kind.CANCEL_PUSH]) then
        Err H3Frame.code.FRAME_UNEXPECTED
      else body_verdict max_body p body fs
  end.

(** What a stream of these frames asks for. *)
Definition request_verdict (max_body : Z) (fs : list (Z * bytes)) : result Z Asked :=
  match fs with
  | [] => Ok Nothing
  | (k, b) :: fs =>
      if decide (k ≠ H3Frame.kind.HEADERS) then Err H3Frame.code.FRAME_UNEXPECTED
      else if decide (MAX_FIELD_SECTION < Z.of_nat (length b)) then Err H3Frame.code.EXCESSIVE_LOAD
      else
        match Qpack.decode b MAX_FIELD_SECTION with
        | Err e => Err e
        | Ok hs => match H2Conn.parse_headers hs with Err _ => Ok (Bare 400) | Ok p => body_verdict max_body p [] fs end
        end
  end.

Lemma body_frames max_body p fs : ∀ fuel r body, frames_on true r fs → (length fs < fuel)%nat →
  body_go fuel max_body p body r = Now (body_verdict max_body p body fs).
Proof.
  induction fs as [|[k d] fs IH]; intros fuel r body Hr Hf; (destruct fuel as [|fuel]; [cbn in Hf; lia |]); cbn [body_go].
  - apply frames_none in Hr as (r' & ->). done.
  - destruct (frames_next _ _ _ _ Hr) as (r1 & r2 & -> & E2 & Hr2). cbn [fst snd] in E2.
    cbn [mbind async_bind head_of H3Frame.head_kind H3Frame.len fst snd body_verdict]. rewrite E2. cbn [mbind async_bind].
    cbn in Hf. destruct (decide (k = H3Frame.kind.DATA)) as [->|Hd].
    + rewrite length_app, Nat2Z.inj_add. case_decide; [done |]. apply IH; [done | lia].
    + destruct (decide (k = H3Frame.kind.HEADERS)) as [->|Hh].
      * rewrite decide_False by (by apply (bool_decide_unpack _); vm_compute). apply IH; [done | lia].
      * case_decide; [done |]. apply IH; [done | lia].
Qed.

(** C25. Whatever cuts the stream of a request on its way, and whether its end is a
    finish or a reset, what is asked is what its frames say. *)
Theorem request_frames max_body fs cs e more :
  Forall H3Frame.h3_frame_valid fs → mjoin cs = stream_of fs → e = Fin ∨ e = Reset →
  read_request max_body (new_reader ((Chunk <$> cs) ++ e :: more)) = Now (request_verdict max_body fs).
Proof.
  intros Hfs Hcs He.
  assert (Hr : frames_on true (new_reader ((Chunk <$> cs) ++ e :: more)) fs).
  { split; [done |]. rewrite <-Hcs. apply holds_new. by exists e, more. }
  unfold read_request. destruct fs as [|[k b] fs].
  - apply frames_none in Hr as (r' & ->). done.
  - destruct (frames_next _ _ _ _ Hr) as (r1 & r2 & -> & E2 & Hr2). cbn [fst snd] in E2.
    cbn [mbind async_bind head_of H3Frame.head_kind H3Frame.len fst snd request_verdict]. rewrite E2. cbn [mbind async_bind result_bind].
    case_decide; [done |]. case_decide; [done |]. destruct (Qpack.decode _ _) as [hs|]; [|done].
    destruct (H2Conn.parse_headers hs) as [p|]; [|done]. apply body_frames; [done |].
    pose proof (holds_fuel _ _ _ (proj2 Hr2)). pose proof (stream_length fs). lia.
Qed.

(** Reading a stream ends, or waits for the peer: the loops have fuel enough
    for whatever it sends. *)
Theorem streams_read_out r max_body seen (streams : list (list Rx)) :
  read_request max_body r ≠ Spent ∧ control_stream r ≠ Spent ∧ peer_uni_streams streams seen ≠ UniSpent.
Proof.
  assert (Hb : ∀ fuel p body r, (waiting r < fuel)%nat → body_go fuel max_body p body r ≠ Spent).
  { intros fuel p. induction fuel as [|fuel IH]; intros body r0 Hf; [lia |]. cbn [body_go].
    pose proof (head_not_spent r0) as Hn. destruct (head r0) as [[[[h|]|e] r1]| |] eqn:E; try done. apply head_progress in E.
    cbn [mbind async_bind].
    assert (Hs : ∀ k, (payload (H3Frame.len h) r1 ≫= λ '(c, r), match c with Err e => Now (Err e) | Ok c => body_go fuel max_body p (k c) r end) ≠ Spent).
    { intros k. pose proof (payload_not_spent (H3Frame.len h) r1) as Hp.
      destruct (payload (H3Frame.len h) r1) as [[[c|e] r2]| |] eqn:Ep; try done. apply payload_waiting in Ep. cbn. apply IH. lia. }
    repeat case_decide; try done; apply Hs. }
  assert (Hc : ∀ fuel first r, (waiting r < fuel)%nat → control_go fuel first r ≠ Spent).
  { intros fuel. induction fuel as [|fuel IH]; intros first r0 Hf; [lia |]. cbn [control_go].
    pose proof (head_not_spent r0) as Hn. destruct (head r0) as [[[[h|]|e] r1]| |] eqn:E; try done. apply head_progress in E.
    cbn [mbind async_bind]. destruct (control_order _ _); [|done].
    pose proof (payload_not_spent (H3Frame.len h) r1) as Hp.
    destruct (payload (H3Frame.len h) r1) as [[c r2]| |] eqn:Ep; try done. cbn [mbind async_bind].
    destruct c as [c|]; [|done]. cbn [mbind result_bind]. apply payload_waiting in Ep. destruct (control_frame h c); [|done]. apply IH. lia. }
  assert (Hcs : ∀ r, control_stream r ≠ Spent) by (intros r0; apply Hc; unfold frames_fuel, waiting; lia).
  split_and!; [|apply Hcs|].
  - unfold read_request. pose proof (head_not_spent r) as Hn. destruct (head r) as [[[[h|]|e] r1]| |] eqn:E; try done.
    cbn [mbind async_bind]. case_decide; [done |]. case_decide; [done |].
    pose proof (payload_not_spent (H3Frame.len h) r1) as Hp. destruct (payload _ r1) as [[c r2]| |] eqn:Ep; try done. cbn [mbind async_bind].
    destruct (c ≫= λ b, Qpack.decode b MAX_FIELD_SECTION) as [hs|]; [|done]. destruct (H2Conn.parse_headers hs); [|done]. apply Hb. unfold frames_fuel, waiting. lia.
  - revert seen. induction streams as [|s streams IH]; intros seen; [done |]. cbn [peer_uni_streams].
    assert (varint (new_reader s) ≠ Spent) as Hv.
    { unfold varint. pose proof (fill_not_spent H3Frame.get_varint (new_reader s)) as H.
      destruct (fill_until _ _) as [[[[v n]|] r1]| |]; by cbn. }
    destruct (varint _) as [[[t|] r1]| |]; try done; try apply IH. case_decide.
    + destruct seen; [done |]. specialize (Hcs r1). destruct (control_stream r1) as [[]| |]; done || apply IH.
    + case_decide; [done | apply IH].
Qed.

(** A control stream that stays open, as it must, is the last stream of the
    peer that is accepted: no other is looked at, whatever it holds. *)
Theorem control_stream_holds_the_rest cs fs rest :
  Forall H3Frame.h3_frame_valid fs → control_verdict fs = Ok tt →
  mjoin cs = H3Frame.put_varint H3Frame.stream_type.CONTROL ++ stream_of fs →
  peer_uni_streams ((Chunk <$> cs) :: rest) false = Held rest.
Proof.
  intros Hfs Hv Hcs. cbn [peer_uni_streams].
  assert (Hr : holds false (new_reader (Chunk <$> cs)) (mjoin cs)).
  { rewrite <-(app_nil_r (Chunk <$> cs)). by apply holds_new. }
  rewrite Hcs in Hr.
  assert (Hg : H3Frame.get_varint (H3Frame.put_varint H3Frame.stream_type.CONTROL ++ stream_of fs) = Some (0, 1%nat)) by done.
  destruct (fill_holds _ _ _ _ get_varint_stable Hr) as (r' & E & Hr' & Hb & _); [rewrite Hg; eauto |].
  unfold varint. rewrite E, Hg. cbn [mbind async_bind]. rewrite decide_True by done.
  rewrite (control_frames false (drain 1 r') fs); [by rewrite Hv |]. split; [done |].
  rewrite Hg in Hb. apply H3Frame.get_varint_bound in Hb. apply (holds_drain 1) in Hr'; [exact Hr' | lia].
Qed.

(** What this end opens its own control stream with is what it asks of a
    peer's: it would be read without an error, and held open. *)
Lemma own_control_stream_is_valid rest : peer_uni_streams ([Chunk open_control] :: rest) false = Held rest.
Proof. by vm_compute. Qed.

(** ** The reply in frames *)

Section framed.
  Context {File Io : Type} (pread : File → Z → Z → option bytes) (io_reads : Io → list Event).

(** A body and the bytes it stands for. *)
Inductive holds_body : Body File Io → bytes → Prop :=
  | holds_empty : holds_body Empty []
  | holds_bytes p : holds_body (Bytes p) p
  | holds_mmap m i j : holds_body (Mmap m i j) (take (j - i) (drop i m))
  | holds_file (b : Body File Io) f content off len : file_is pread f content → 0 ≤ off →
      off + Z.of_nat len ≤ Z.of_nat (length content) →
      b = Inline f off (Z.of_nat len) ∨ b = FileBody f off (Z.of_nat len) →
      holds_body b (take len (drop (Z.to_nat off) content))
  | holds_stream pre io len ds e more : io_reads io = (Data <$> ds) ++ e :: more → Forall (λ d, d ≠ []) ds →
      e = Data [] ∨ e = Failed → holds_body (Stream pre io len) (pre ++ mjoin ds).

Definition data_frames (ds : list bytes) : list (Z * bytes) := pair H3Frame.kind.DATA <$> ds.

(** The frames so many bytes of payload and head go out in. *)
Definition framed (ds : list bytes) : bytes := stream_of (data_frames ds).

Lemma framed_cons d ds : framed (d :: ds) = (H3Frame.put_data_head (Z.of_nat (length d)) ++ d) ++ framed ds.
Proof.
  unfold framed, data_frames, stream_of. rewrite !fmap_cons_eq, join_cons, <-app_assoc. cbn [wf_encode H3Frame.h3_frame_wire fst snd].
  unfold H3Frame.put_frame, H3Frame.put_data_head. by rewrite <-!app_assoc.
Qed.

Lemma framed_app a b : framed (a ++ b) = framed a ++ framed b.
Proof. induction a as [|x a IH]; [done |]. cbn [app]. rewrite !framed_cons, IH. by rewrite !app_assoc. Qed.

Lemma framed_one d : framed [d] = H3Frame.put_data_head (Z.of_nat (length d)) ++ d.
Proof. rewrite framed_cons. unfold framed, data_frames, stream_of. cbn. by rewrite app_nil_r. Qed.

Lemma data_writes d w : d ≠ [] → (length (framed [d]) ≤ credit w)%nat → data d w = Wrote (took (framed [d]) w).
Proof.
  intros Hd Hc. unfold data. rewrite decide_False by done. rewrite framed_one in *. rewrite length_app in Hc.
  rewrite write_all_fits by lia. rewrite write_all_fits by (cbn [took credit]; lia). by rewrite took_app.
Qed.

(** Some payload as the frames it can be. *)
Definition in_frames (p : bytes) (ds : list bytes) : Prop := mjoin ds = p ∧ Forall (λ d, d ≠ []) ds.

Lemma file_writes f content : file_is pread f content → ∀ fuel off left sent w,
  0 ≤ off → off + Z.of_nat left ≤ Z.of_nat (length content) → (left ≤ fuel)%nat →
  ∃ ds, in_frames (take left (drop (Z.to_nat off) content)) ds ∧
    ((length (framed ds) ≤ credit w)%nat →
     file_frames pread fuel f off (Z.of_nat left) sent w = Now (sent + Z.of_nat left, took (framed ds) w)).
Proof.
  intros Hf fuel. induction fuel as [|fuel IH]; intros off left sent w Ho Hin Hfu.
  { replace left with 0%nat in * by lia. exists []. split; [done |]. intros _. cbn. by rewrite took_nil, Z.add_0_r. }
  cbn [file_frames]. destruct (decide (Z.of_nat left ≤ 0)) as [Hz|Hz].
  { replace left with 0%nat in * by lia. exists []. split; [done |]. intros _. by rewrite took_nil, Z.add_0_r. }
  destruct (Hf off (Z.min (Z.of_nat left) CHUNK) Ho ltac:(unfold CHUNK; lia)) as (k & Hr & Hk1 & Hk2). rewrite Hr.
  specialize (Hk2 ltac:(lia)). set (d := drop (Z.to_nat off) content) in *.
  assert (Hld : (left ≤ length d)%nat) by (unfold d; rewrite length_drop; lia).
  assert (Hd : length (take k d) = k) by (rewrite length_take; lia).
  assert (take k d ≠ []) as Hne by (intros Hn; rewrite Hn in Hd; cbn in Hd; lia).
  destruct (IH (off + Z.of_nat k) (left - k)%nat (sent + Z.of_nat k) (took (framed [take k d]) w)) as (ds & [Hj Hds] & Hw);
    [lia | lia | lia |].
  exists (take k d :: ds). split.
  - split; [|by constructor]. rewrite join_cons, Hj.
    assert (drop (Z.to_nat (off + Z.of_nat k)) content = drop k d) as -> by (unfold d; rewrite drop_drop; f_equal; lia).
    replace left with (k + (left - k))%nat at 2 by lia. by rewrite take_take_drop.
  - intros Hc. change (framed (take k d :: ds)) with (framed ([take k d] ++ ds)) in *. rewrite framed_app, length_app in *.
    destruct (take k d) as [|x y] eqn:E; [done |]. rewrite <-E in *. rewrite data_writes by (done || lia). rewrite Hd.
    replace (Z.of_nat left - Z.of_nat k) with (Z.of_nat (left - k)) by lia. rewrite Hw by (cbn [took credit]; lia).
    rewrite took_app. do 2 f_equal. lia.
Qed.

Lemma stream_writes ds e more : Forall (λ d, d ≠ []) ds → e = Data [] ∨ e = Failed → ∀ sent w,
  (length (framed ds) ≤ credit w)%nat →
  stream_frames ((Data <$> ds) ++ e :: more) sent w = Now (sent + Z.of_nat (length (mjoin ds)), took (framed ds) w).
Proof.
  intros Hds He. induction Hds as [|d ds Hd _ IH]; intros sent w Hc.
  - cbn [fmap list_fmap app stream_frames]. change (framed []) with (@nil byte). rewrite took_nil.
    destruct He as [-> | ->]; cbn; by rewrite Z.add_0_r.
  - cbn [fmap list_fmap app stream_frames]. change (framed (d :: ds)) with (framed ([d] ++ ds)) in *. rewrite framed_app, length_app in *.
    destruct d as [|c d]; [done |]. rewrite data_writes by (done || lia). rewrite IH by (cbn [took credit]; lia).
    rewrite took_app, join_cons, length_app. do 2 f_equal. lia.
Qed.

Lemma body_writes b p w : holds_body b p → ∃ ds, in_frames p ds ∧
  ((length (framed ds) ≤ credit w)%nat → write_body pread io_reads b w = Now (Z.of_nat (length p), took (framed ds) w)).
Proof.
  assert (Hheld : ∀ p, ∃ ds, in_frames p ds ∧ ((length (framed ds) ≤ credit w)%nat →
    match data p w with Wrote w => Now (Z.of_nat (length p), w) | Refused w => Now (0, w) | Waits _ => Never end = Now (Z.of_nat (length p), took (framed ds) w))).
  { intros q. destruct (decide (q = [])) as [->|Hq].
    - exists []. split; [done |]. intros _. cbn. by rewrite took_nil.
    - exists [q]. split; [split; [by rewrite join_cons; change (mjoin []) with (@nil byte); rewrite app_nil_r | by repeat constructor] |].
      intros Hc. by rewrite data_writes. }
  destruct 1 as [|q|m i j|b f content off len Hf Ho Hl Hb|pre io len ds e more Hio Hds He].
  - exists []. split; [done |]. intros _. cbn. by rewrite took_nil.
  - apply Hheld.
  - apply Hheld.
  - destruct (file_writes f content Hf (Z.to_nat (Z.of_nat len)) off len 0 w Ho Hl ltac:(lia)) as (ds & Hds & Hw).
    exists ds. split; [done |]. intros Hc. specialize (Hw Hc).
    assert (length (take len (drop (Z.to_nat off) content)) = len) as -> by (rewrite length_take, length_drop; lia).
    destruct Hb as [-> | ->]; cbn [write_body]; by rewrite Hw.
  - cbn [write_body]. rewrite Hio, length_app, Nat2Z.inj_add. destruct (decide (pre = [])) as [->|Hp].
    + exists ds. split; [done |]. intros Hc. unfold data. rewrite decide_True by done. by rewrite (stream_writes _ _ _ Hds He).
    + exists (pre :: ds). split; [split; [by rewrite join_cons | by constructor] |].
      change (framed (pre :: ds)) with (framed ([pre] ++ ds)). rewrite framed_app, length_app. intros Hc.
      rewrite data_writes by (done || lia). rewrite (stream_writes _ _ _ Hds He) by (cbn [took credit]; lia). by rewrite took_app.
Qed.

(** C26. A reply goes out as one HEADERS frame, which decodes to the status, the
    fields in lower case less those of the connection, and the length where
    it is known; then DATA frames that are the body; then the end of the
    stream. *)
Theorem reply_framed (r : Resp) b p w max :
  holds_body b p →
  Forall Qpack.encodable (H2Conn.response_fields (status r) (fields r) (length_of (framing r))) →
  Hpack.table_cost (H2Conn.response_fields (status r) (fields r) (length_of (framing r))) ≤ max →
  ∃ ds, mjoin ds = p ∧
    let wire := stream_of ((H3Frame.kind.HEADERS, head_block r) :: data_frames ds) in
    ((length wire ≤ credit w)%nat →
     ∃ n, write_response pread io_reads r b w = Now (Z.of_nat (length p), n, took wire w, true)) ∧
    Qpack.decode (head_block r) max =
      Ok (H2Conn.response_fields (status r) (fields r) (length_of (framing r))) ∧
    (Z.of_nat (length wire) ≤ H3Frame.VARINT_MAX → ∀ cs, mjoin cs = wire →
     foldl (λ st c, arrive c st) ([], []) cs = ((H3Frame.kind.HEADERS, head_block r) :: data_frames ds, [])).
Proof.
  intros Hb Hf Hm. destruct (body_writes b p (took (H3Frame.put_frame H3Frame.kind.HEADERS (head_block r)) w) Hb) as (ds & [Hj Hds] & Hw).
  exists ds. split; [done |]. cbv zeta.
  assert (stream_of ((H3Frame.kind.HEADERS, head_block r) :: data_frames ds) =
    H3Frame.put_frame H3Frame.kind.HEADERS (head_block r) ++ framed ds) as Ewire by (unfold stream_of; by rewrite fmap_cons_eq, join_cons).
  rewrite Ewire, length_app. split_and!.
  - intros Hc. unfold write_response. rewrite write_all_fits by lia.
    rewrite Hw by (cbn [took credit]; lia). cbn [mbind async_bind]. rewrite took_app. by eexists.
  - by apply Qpack.section_roundtrip.
  - intros Hl cs Hcs. rewrite <-Ewire in Hcs. apply reassemble; [|done].
    assert (Hv : ∀ k d, 0 ≤ k ≤ 1 → Z.of_nat (length d) ≤ H3Frame.VARINT_MAX → H3Frame.h3_frame_valid (k, d)).
    { intros k d Hk Hd. split; [unfold H3Frame.VARINT_MAX; lia |]. split; [|done].
      assert (k = 0 ∨ k = 1) as [-> | ->] by lia; done. }
    assert (Hput : ∀ d, (length d ≤ length (H3Frame.put_frame H3Frame.kind.HEADERS d))%nat)
      by (intros d; unfold H3Frame.put_frame; rewrite !length_app; lia).
    constructor; [apply Hv; [done |]; specialize (Hput (head_block r)); lia |].
    assert (Hle : Z.of_nat (length (framed ds)) ≤ H3Frame.VARINT_MAX) by lia. clear -Hle Hv. induction ds as [|d ds IH]; [constructor |].
    rewrite framed_cons, !length_app in Hle. constructor; [apply Hv; [done | lia] | apply IH; lia].
Qed.
End framed.

(** ** From the client's head to the handler *)

(** What a client writes for a request. *)
Definition request_stream (hs : list Hpack.Header) (ds : list bytes) : list (Z * bytes) :=
  (H3Frame.kind.HEADERS, Qpack.begin_section ++ Qpack.encode_all hs) :: data_frames ds.

Lemma body_verdict_data max_body p ds : ∀ body, Z.of_nat (length (body ++ mjoin ds)) ≤ max_body →
  body_verdict max_body p body (data_frames ds) = Ok (Asks p (body ++ mjoin ds)).
Proof.
  induction ds as [|d ds IH]; intros body Hl; cbn [data_frames fmap list_fmap body_verdict].
  - change (mjoin []) with (@nil byte). by rewrite app_nil_r.
  - rewrite join_cons in *. rewrite decide_True by done. rewrite app_assoc in *.
    rewrite decide_False by (rewrite length_app in Hl; lia). by apply IH.
Qed.

Section delivered.
  Context {Regex File Io W : Type} `{!World Regex File Io W}.
  Context (pread : File → Z → Z → option bytes) (io_reads : Io → list Event).

(** A request comes to the handler as the client wrote it, method, path,
    authority and fields, with its body whole, however its stream was cut. *)
Theorem h3_request_delivered (L : Listener (Regex := Regex)) default hs p ds cs more requests (w : W) out :
  Forall Qpack.encodable hs → Hpack.table_cost hs ≤ MAX_FIELD_SECTION →
  Z.of_nat (length (Qpack.begin_section ++ Qpack.encode_all hs)) ≤ MAX_FIELD_SECTION →
  H2Conn.parse_headers hs = Ok p →
  servers L !! default_server L = Some default →
  Z.of_nat (length (mjoin ds)) ≤ client_max_body_size (s_core (conf default)) →
  Forall (λ d, Z.of_nat (length d) ≤ H3Frame.VARINT_MAX) ds →
  mjoin cs = stream_of (request_stream hs ds) →
  request pread io_reads L requests (new_reader ((Chunk <$> cs) ++ Fin :: more)) w out =
  answer pread io_reads L requests p (mjoin ds) w out.
Proof.
  intros Henc Hcost Hlen Hp HL Hmax Hds Hcs. unfold request. rewrite HL.
  assert (Hr : frames_on true (new_reader ((Chunk <$> cs) ++ Fin :: more)) (request_stream hs ds)).
  { split; [|rewrite <-Hcs; apply holds_new; exists Fin, more; auto]. constructor.
    - split; [done |]. split; [done |]. unfold MAX_FIELD_SECTION, H3Frame.VARINT_MAX in *. lia.
    - clear -Hds. induction Hds; constructor; [|done]. by split. }
  unfold read_request. destruct (frames_next _ _ _ _ Hr) as (r1 & r2 & -> & E2 & Hr2). cbn [fst snd] in E2.
  cbn [mbind async_bind head_of H3Frame.head_kind H3Frame.len fst snd]. rewrite E2. cbn [mbind async_bind result_bind].
  rewrite decide_False by (intros Hn; by apply Hn). rewrite decide_False by lia. rewrite Qpack.section_roundtrip by done. rewrite Hp.
  rewrite (body_frames _ _ _ _ _ _ Hr2).
  2: { pose proof (holds_fuel _ _ _ (proj2 Hr2)). pose proof (stream_length (data_frames ds)). lia. }
  by rewrite body_verdict_data.
Qed.
End delivered.

(** ** Samples *)

Definition sample_fields : list Hpack.Header :=
  [Hpack.mkHeader (str ":method") (str "POST"); Hpack.mkHeader (str ":scheme") (str "https");
   Hpack.mkHeader (str ":authority") (str "h"); Hpack.mkHeader (str ":path") (str "/a")].

Definition sample_block : bytes := Qpack.begin_section ++ Qpack.encode_all sample_fields.
Definition sample_parsed : H2Conn.Parsed := H2Conn.mkParsed (str "POST") (str "/a") (str "h") [].

Definition wire (fs : list (Z * bytes)) : bytes := stream_of (H := H3Frame.h3_frame_wire) fs.

(** One byte at a time, and the end. *)
Definition bytewise (b : bytes) (e : Rx) : Reader := new_reader ((Chunk <$> ((λ c, [c]) <$> b)) ++ [e]).

Local Abbreviation sample_request r :=
  (request (World0 := sample_world 404) no_pread no_io sample_listener 1 r tt (mkWr [] 1000 false)).

Lemma sample_encodable : Forall Qpack.encodable sample_fields.
Proof.
  unfold Qpack.encodable, Qpack.MAX_STRING.
  repeat (apply Forall_cons; split; [split; [by split | cbn [Hpack.name Hpack.value length]; split; cbn; lia] |]).
  constructor.
Qed.

Lemma h3_request_delivered_witness :
  sample_request (bytewise (wire (request_stream sample_fields [str "hel"; str "lo"])) Fin) =
  answer (World0 := sample_world 404) no_pread no_io sample_listener 1 sample_parsed (str "hello") tt (mkWr [] 1000 false).
Proof.
  apply (h3_request_delivered (World0 := sample_world 404) no_pread no_io sample_listener sample_server sample_fields sample_parsed
    [str "hel"; str "lo"] _ []); [exact sample_encodable | by vm_compute.. | repeat constructor; done | by vm_compute].
Defined.

(** The frames of an answer. *)
Definition answered (t : Async (Task (W := unit))) : option (list (Z * bytes) * bool * nat) :=
  match t with
  | Now (Ended a) => Some (fst (messages (H := H3Frame.h3_frame_wire) (out (a_wr a))), a_fin a, length (a_log a))
  | _ => None
  end.

Example post_is_answered :
  match answered (sample_request (bytewise (wire (request_stream sample_fields [str "hello"])) Fin)) with
  | Some ([(1, block); (0, b)], true, 1%nat) =>
      b = str "oops" ∧ ((λ hs, Hpack.value <$> hs !! 0%nat) <$> Qpack.decode block 1000) = Ok (Some (str "200"))
  | _ => False
  end.
Proof. by vm_compute. Qed.

Lemma request_frames_witness :
  read_request 100 (bytewise (wire [(H3Frame.kind.HEADERS, sample_block); (33, str "grease"); (H3Frame.kind.DATA, str "hi")]) Reset) =
  Now (Ok (Asks sample_parsed (str "hi"))).
Proof.
  unfold bytewise.
  rewrite (request_frames 100 [(H3Frame.kind.HEADERS, sample_block); (33, str "grease"); (H3Frame.kind.DATA, str "hi")] _ Reset []).
  - by vm_compute.
  - rewrite !Forall_cons, Forall_nil. unfold H3Frame.h3_frame_valid, H3Frame.VARINT_MAX. split_and!; try done; by vm_compute.
  - by vm_compute.
  - by right.
Defined.

Lemma control_stream_holds_the_rest_witness :
  peer_uni_streams [Chunk <$> [H3Frame.put_varint H3Frame.stream_type.CONTROL ++ wire [(H3Frame.kind.SETTINGS, [])]];
                    [Chunk (H3Frame.put_varint H3Frame.stream_type.CONTROL)]; [Chunk (H3Frame.put_varint H3Frame.stream_type.PUSH)]] false =
  Held [[Chunk (H3Frame.put_varint H3Frame.stream_type.CONTROL)]; [Chunk (H3Frame.put_varint H3Frame.stream_type.PUSH)]].
Proof.
  apply (control_stream_holds_the_rest _ [(H3Frame.kind.SETTINGS, [])]).
  - rewrite Forall_cons, Forall_nil. unfold H3Frame.h3_frame_valid, H3Frame.VARINT_MAX. split_and!; done.
  - by vm_compute.
  - by vm_compute.
Defined.

Definition sample_reply : Resp := with_framing (Length 5) (header (str "Connection") (str "close") (header (str "X-A") (str "b") new)).

Definition sample_out : Async (Z * Z * Wr * bool) :=
  write_response (File := bytes) (λ f off n, Some (take (Z.to_nat n) (drop (Z.to_nat off) f))) id sample_reply
    (Stream (str "he") [Data (str "l"); Data (str "lo"); Data []] None) (mkWr [] 1000 false).

Definition sample_sent : Wr := match sample_out with Now (_, _, w, _) => w | _ => mkWr [] 0 false end.

Lemma reply_framed_witness :
  ∃ ds, let w := sample_sent in match sample_out with Now (5, _, v, true) => v = w | _ => False end ∧ mjoin ds = str "hello" ∧
    fst (messages (H := H3Frame.h3_frame_wire) (out w)) = (H3Frame.kind.HEADERS, head_block sample_reply) :: data_frames ds ∧
    Qpack.decode (head_block sample_reply) 1000 =
      Ok [Hpack.mkHeader (str ":status") (str "200"); Hpack.mkHeader (str "x-a") (str "b"); Hpack.mkHeader (str "content-length") (str "5")].
Proof.
  destruct (reply_framed (File := bytes) (λ f off n, Some (take (Z.to_nat n) (drop (Z.to_nat off) f))) id sample_reply
    (Stream (str "he") [Data (str "l"); Data (str "lo"); Data []] None) (str "he" ++ mjoin [str "l"; str "lo"]) (mkWr [] 1000 false) 1000)
    as (ds & Hj & _ & Hd & _).
  - apply (holds_stream _ _ _ [Data (str "l"); Data (str "lo"); Data []] _ [str "l"; str "lo"] (Data []) []); [done | repeat constructor; done | by left].
  - change (H2Conn.response_fields _ _ _) with [Hpack.mkHeader (str ":status") (str "200"); Hpack.mkHeader (str "x-a") (str "b"); Hpack.mkHeader (str "content-length") (str "5")].
    unfold Qpack.encodable, Qpack.MAX_STRING.
    repeat (apply Forall_cons; split; [split; [by split | cbn [Hpack.name Hpack.value length]; split; cbn; lia] |]). constructor.
  - by vm_compute.
  - exists [str "he"; str "l"; str "lo"]. cbv zeta. split; [by vm_compute |]. split; [done |]. split; [by vm_compute | exact Hd].
Defined.

(** A request that is reset half way through its body is served with the half,
    its [content-length] notwithstanding. *)
Theorem reset_request_is_served :
  let hs := sample_fields ++ [Hpack.mkHeader (str "content-length") (str "10")] in
  read_request 100 (bytewise (wire (request_stream hs [str "hello"])) Reset) =
  Now (Ok (Asks (H2Conn.mkParsed (str "POST") (str "/a") (str "h") [(str "content-length", str "10")]) (str "hello"))).
Proof. by vm_compute. Qed.

(** A body that broke off is finished like a whole one, behind the length it
    was to have; one that is too long goes on past it. *)
Theorem broken_body_is_finished :
  let sent l := write_response (File := unit) no_pread id sample_reply (Stream [] l (Some 5)) (mkWr [] 1000 false) in
  match sent [Data (str "hel"); Failed], sent [Data (str "hello!"); Data []] with
  | Now (3, _, _, true), Now (6, _, _, true) => True
  | _, _ => False
  end.
Proof. by vm_compute. Qed.

(** A [PUSH_PROMISE], which no client may send, is passed over, and so are
    frames in the wrong place: a body goes on behind the trailers. *)
Theorem misplaced_frames_are_skipped :
  read_request 100 (bytewise (wire [(H3Frame.kind.HEADERS, sample_block); (H3Frame.kind.PUSH_PROMISE, [x00]);
    (H3Frame.kind.DATA, str "a"); (H3Frame.kind.HEADERS, str "not a block"); (H3Frame.kind.DATA, str "b")]) Fin) =
  Now (Ok (Asks sample_parsed (str "ab"))).
Proof. by vm_compute. Qed.

(** A stream the peer opens without a byte on it holds the others up as well. *)
Example silent_stream_holds_the_rest :
  peer_uni_streams [[]; [Chunk (H3Frame.put_varint H3Frame.stream_type.PUSH)]] false =
  Held [[Chunk (H3Frame.put_varint H3Frame.stream_type.PUSH)]].
Proof. by vm_compute. Qed.
