(* ===== verification/Udp.v ===== *)
(** * [src/server/udp.rs]: datagram sessions

    The table of sessions by client address, the channel of each, and what a
    session does until it ends. The tasks of a worker take turns at their
    [await]s, so a run is a list of events: a datagram taken by the listening
    socket, or one thing that happened to one session. *)
From S2P Require Import Prelude.

Open Scope oxi_scope.
Open Scope Z_scope.

Section udp.
  Context {A : Type} `{Countable A}.
  (** [proxy_responses] *)
  Context (proxy_responses : option Z).

(** A session: its client, the channel, whether its socket is connected, the
    locals of the loop, and what it has sent either way. *)
Record Session := mkSession {
  client : A;
  queue : list bytes;
  connected : bool;
  responses : Z;
  sent_any : bool;
  to_peer : list bytes;
  to_client : list bytes
}.

(** [sessions], the tasks, the verdicts on peers in their order. *)
Record Table := mkTable {
  sessions : gmap A nat;
  tasks : gmap nat Session;
  next : nat;
  verdicts : list (nat * bool)
}.

Definition empty_table : Table := mkTable ∅ ∅ 0 [].

Definition put_task (id : nat) (s : Session) (t : Table) : Table :=
  mkTable (sessions t) (<[id := s]> (tasks t)) (next t) (verdicts t).

(** A new session, its first datagram in the channel. *)
Definition spawn (c : A) (p : bytes) (t : Table) : Table :=
  mkTable (<[c := next t]> (sessions t)) (<[next t := mkSession c [p] false 0 false [] []]> (tasks t)) (S (next t)) (verdicts t).

(** The loop of [serve]: a send on the channel of a task that has gone is an
    error, and the entry is replaced. *)
Definition receive (c : A) (p : bytes) (t : Table) : Table :=
  match sessions t !! c with
  | None => spawn c p t
  | Some id =>
      match tasks t !! id with
      | Some s => put_task id (mkSession (client s) (queue s ++ [p]) (connected s) (responses s) (sent_any s) (to_peer s) (to_client s)) t
      | None => spawn c p (mkTable (delete c (sessions t)) (tasks t) (next t) (verdicts t))
      end
  end.

(** What can happen to a session; the outcomes before its loop are those of
    the target, the resolver and its socket. *)
Inductive Happening :=
  | NoTarget | NoAddress | NoSocket | ConnectFailed | Connected
  | Forward (ok : bool)
  | Hangup
  | Reply (d : bytes) (ok : bool)
  | Unreachable
  | Quiet.

(** What becomes of it, with the verdict that is recorded. *)
Inductive Outcome := Goes (s : Session) (verdict : option bool) | Ends (verdict : option bool).

(** [session]; [None] is what cannot happen now. *)
Definition happen (h : Happening) (s : Session) : option Outcome :=
  if negb (connected s) then
    match h with
    | NoTarget | NoSocket => Some (Ends None)
    | NoAddress | ConnectFailed => Some (Ends (Some false))
    | Connected => Some (Goes (mkSession (client s) (queue s) true (responses s) (sent_any s) (to_peer s) (to_client s)) None)
    | _ => None
    end
  else
    match h with
    | Forward ok =>
        match queue s with
        | [] => None
        | p :: q =>
            Some (if ok then Goes (mkSession (client s) q true (responses s) true (to_peer s ++ [p]) (to_client s)) None
                  else Ends (Some false))
        end
    | Hangup => match queue s with [] => Some (Ends None) | _ => None end
    | Reply d ok =>
        Some (if ok then
                let n := responses s + 1 in
                if match proxy_responses with Some want => bool_decide (want ≤ n) | None => false end then Ends (Some true)
                else Goes (mkSession (client s) (queue s) true n (sent_any s) (to_peer s) (to_client s ++ [d])) (Some true)
              else Ends None)
    | Unreachable => Some (Ends (Some false))
    | Quiet =>
        Some (Ends (if sent_any s && bool_decide (responses s = 0) && negb (bool_decide (proxy_responses = Some 0))
                    then Some false else None))
    | _ => None
    end.

Definition note (id : nat) (v : option bool) (t : Table) : Table :=
  match v with Some ok => mkTable (sessions t) (tasks t) (next t) (verdicts t ++ [(id, ok)]) | None => t end.

(** The end of a task, and the removal of its client from the table, with no
    [await] between them. *)
Definition finish (id : nat) (s : Session) (t : Table) : Table :=
  mkTable (delete (client s) (sessions t)) (delete id (tasks t)) (next t) (verdicts t).

Inductive Event := Received (c : A) (p : bytes) | Happened (id : nat) (h : Happening).

(** A channel is closed when its sender has left the table. *)
Definition may (id : nat) (s : Session) (h : Happening) (t : Table) : Prop :=
  h = Hangup → sessions t !! client s ≠ Some id.

#[export] Instance may_dec id s h t : Decision (may id s h t).
Proof.
  unfold may. destruct h; try (left; discriminate).
  destruct (decide (sessions t !! client s = Some id)) as [E|E]; [right; intros Hn; by apply Hn | by left].
Defined.

Definition step (e : Event) (t : Table) : option Table :=
  match e with
  | Received c p => Some (receive c p t)
  | Happened id h =>
      s ← tasks t !! id;
      if decide (may id s h t) then
        o ← happen h s;
        Some match o with
             | Goes s v => put_task id s (note id v t)
             | Ends v => finish id s (note id v t)
             end
      else None
  end.

Fixpoint run (es : list Event) (t : Table) : option Table :=
  match es with
  | [] => Some t
  | e :: es => t ← step e t; run es t
  end.

(** ** The table *)

(** What a client has sent in a run. *)
Definition sent_by (c : A) (es : list Event) : list bytes :=
  omap (λ e, match e with Received d p => if decide (d = c) then Some p else None | _ => None end) es.

(** The entries of the table are the tasks, each under its own client; and a
    task has passed on what its client sent, in its order, but for what is in
    its channel. *)
Record ok (es : list Event) (t : Table) : Prop := {
  ok_table c id : sessions t !! c = Some id ↔ ∃ s, tasks t !! id = Some s ∧ client s = c;
  ok_next id s : tasks t !! id = Some s → (id < next t)%nat;
  ok_sent id s : tasks t !! id = Some s → ∃ before, sent_by (client s) es = before ++ to_peer s ++ queue s;
  ok_count id s : tasks t !! id = Some s →
    0 ≤ responses s ∧ responses s = Z.of_nat (length (to_client s)) ∧ ∀ want, proxy_responses = Some want → responses s < want ∨ responses s = 0
}.

Lemma sent_by_snoc c es e : sent_by c (es ++ [e]) =
  sent_by c es ++ match e with Received d p => if decide (d = c) then [p] else [] | _ => [] end.
Proof. unfold sent_by. rewrite omap_app. f_equal. destruct e as [d p|]; [|done]. cbn. by case_decide. Qed.

Lemma ok_empty : ok [] empty_table.
Proof. split; cbn; [intros c id; split; [done | by intros (s & ? & _)] | done..]. Qed.

Lemma ok_note es id v t : ok es t → ok es (note id v t).
Proof. intros [H1 H2 H3 H4]. by destruct v as [[]|]; split. Qed.

(** A task may go on as it likes, within its client. *)
Lemma ok_put es e id s s' t : ok es t → tasks t !! id = Some s → client s' = client s →
  (∀ c, c ≠ client s → sent_by c (es ++ [e]) = sent_by c es) →
  (∀ before, sent_by (client s) es = before ++ to_peer s ++ queue s →
     sent_by (client s) (es ++ [e]) = before ++ to_peer s' ++ queue s') →
  (0 ≤ responses s' ∧ responses s' = Z.of_nat (length (to_client s')) ∧
   ∀ want, proxy_responses = Some want → responses s' < want ∨ responses s' = 0) →
  ok (es ++ [e]) (put_task id s' t).
Proof.
  intros [H1 H2 H3 H4] Hs Hc Ho Hsent Hcount. split; unfold put_task; cbn [sessions tasks next].
  - intros c i. rewrite H1. destruct (decide (i = id)) as [->|Hi].
    + rewrite lookup_insert_eq. split.
      * intros (x & Hx & <-). rewrite Hs in Hx. injection Hx as <-. by exists s'.
      * intros (x & [= <-] & <-). by exists s.
    + by rewrite lookup_insert_ne.
  - intros i x. destruct (decide (i = id)) as [->|Hi]; [rewrite lookup_insert_eq; intros _; by eapply H2 | rewrite lookup_insert_ne by done; apply H2].
  - intros i x. destruct (decide (i = id)) as [->|Hi].
    + rewrite lookup_insert_eq. intros [= <-]. rewrite Hc. destruct (H3 _ _ Hs) as [b Hb]. exists b. by apply Hsent.
    + rewrite lookup_insert_ne by done. intros Hx. destruct (H3 _ _ Hx) as [b Hb]. exists b. rewrite Ho; [done |].
      intros Heq. assert (sessions t !! client s = Some i) as E1 by (apply H1; by exists x).
      assert (sessions t !! client s = Some id) as E2 by (apply H1; by exists s). congruence.
  - intros i x. destruct (decide (i = id)) as [->|Hi]; [rewrite lookup_insert_eq; by intros [= <-] | rewrite lookup_insert_ne by done; apply H4].
Qed.

Lemma ok_spawn es c p t : ok es t → sessions t !! c = None → ok (es ++ [Received c p]) (spawn c p t).
Proof.
  intros [H1 H2 H3 H4] Hn. assert (tasks t !! next t = None) as Hf.
  { destruct (tasks t !! next t) as [s|] eqn:E; [|done]. apply H2 in E. lia. }
  split; unfold spawn; cbn [sessions tasks next].
  - intros d i. destruct (decide (i = next t)) as [->|Hi].
    + rewrite lookup_insert_eq. destruct (decide (d = c)) as [->|Hd].
      * rewrite lookup_insert_eq. split; [intros _; by eexists | done].
      * rewrite lookup_insert_ne by done. rewrite H1, Hf. split; [by intros (? & ? & _) | intros (s & [= <-] & ?); by destruct Hd].
    + rewrite (lookup_insert_ne (tasks t)) by done. destruct (decide (d = c)) as [->|Hd].
      * rewrite lookup_insert_eq. split; [intros [= Hx]; congruence |]. intros Hx. apply H1 in Hx. congruence.
      * rewrite lookup_insert_ne by done. apply H1.
  - intros i s. destruct (decide (i = next t)) as [Hi|Hi]; [lia | rewrite lookup_insert_ne by done; intros Hx%H2; lia].
  - intros i s. destruct (decide (i = next t)) as [->|Hi].
    + rewrite lookup_insert_eq. intros [= <-]. cbn [client to_peer queue]. rewrite sent_by_snoc, decide_True by done. by exists (sent_by c es).
    + rewrite lookup_insert_ne by done. intros Hx. destruct (H3 _ _ Hx) as [b Hb]. exists b. rewrite sent_by_snoc, decide_False; [by rewrite app_nil_r |].
      intros Heq. assert (sessions t !! c = Some i) as E1 by (apply H1; by exists s). congruence.
  - intros i s. destruct (decide (i = next t)) as [->|Hi]; [rewrite lookup_insert_eq; intros [= <-]; cbn; auto with lia | rewrite lookup_insert_ne by done; apply H4].
Qed.

Lemma ok_finish es e id s t : ok es t → tasks t !! id = Some s → (∀ c, sent_by c (es ++ [e]) = sent_by c es) →
  ok (es ++ [e]) (finish id s t).
Proof.
  intros [H1 H2 H3 H4] Hs He. assert (sessions t !! client s = Some id) as Ec by (apply H1; by exists s).
  split; unfold finish; cbn [sessions tasks next].
  - intros c i. destruct (decide (c = client s)) as [->|Hc].
    + rewrite lookup_delete_eq. split; [done |]. intros (x & Hx & Hcx). destruct (decide (i = id)) as [->|Hi]; [by rewrite lookup_delete_eq in Hx |].
      rewrite lookup_delete_ne in Hx by done. assert (sessions t !! client s = Some i) by (apply H1; by exists x). congruence.
    + rewrite lookup_delete_ne by done. rewrite H1. destruct (decide (i = id)) as [->|Hi]; [|by rewrite lookup_delete_ne].
      rewrite lookup_delete_eq. split; [|by intros (? & ? & _)]. intros (x & Hx & <-). rewrite Hs in Hx. by injection Hx as <-.
  - intros i x [_ Hx]%lookup_delete_Some. by eapply H2.
  - intros i x [_ Hx]%lookup_delete_Some. rewrite He. by eapply H3.
  - intros i x [_ Hx]%lookup_delete_Some. by eapply H4.
Qed.

Lemma table_step_ok es e t t' : ok es t → step e t = Some t' → ok (es ++ [e]) t'.
Proof.
  intros Hok. destruct e as [c p|id h]; cbn [step].
  - intros [= <-]. unfold receive. destruct (sessions t !! c) as [id|] eqn:E; [|by apply ok_spawn].
    destruct (proj1 (ok_table _ _ Hok c id) E) as (s & Hs & Hc). rewrite Hs.
    eapply ok_put; [done | done | done | | |].
    + intros d Hd. rewrite sent_by_snoc, decide_False by congruence. apply app_nil_r.
    + intros b Hb. rewrite sent_by_snoc, decide_True by done. cbn [to_peer queue]. rewrite Hb. by rewrite <-!app_assoc.
    + exact (ok_count _ _ Hok _ _ Hs).
  - assert (Hsame : ∀ c, sent_by c (es ++ [Happened id h]) = sent_by c es) by (intros c; rewrite sent_by_snoc; apply app_nil_r).
    destruct (tasks t !! id) as [s|] eqn:Hs; [|done]. cbn [mbind option_bind]. case_decide as Hm; [|done].
    destruct (happen h s) as [o|] eqn:Ho; [|done]. intros [= <-]. destruct o as [s' v|v].
    + assert (tasks (note id v t) !! id = Some s) as Hs' by by destruct v.
      apply (ok_note _ id v) in Hok. pose proof (ok_count _ _ Hok _ _ Hs') as Hcount.
      assert (client s' = client s ∧ to_peer s' ++ queue s' = to_peer s ++ queue s ∧
        (0 ≤ responses s' ∧ responses s' = Z.of_nat (length (to_client s')) ∧
         ∀ want, proxy_responses = Some want → responses s' < want ∨ responses s' = 0)) as (Hc & Hq & Hn).
      { unfold happen in Ho. destruct (negb (connected s)).
        - destruct h; try discriminate Ho. injection Ho as <- _. done.
        - destruct h as [| | | | |ok'| |d ok'| |]; try discriminate Ho; [destruct (queue s) as [|p q]; [done |]; destruct ok'; [|done] | by destruct (queue s) | destruct ok'; [|done]].
          + injection Ho as <- _. cbn. by rewrite <-app_assoc.
          + destruct (match proxy_responses with Some want => _ | None => false end) eqn:Ew; [done |]. injection Ho as <- _. cbn.
            split; [done |]. split; [done |]. rewrite length_app. cbn. split; [lia |]. split; [lia |].
            intros want Hwant. rewrite Hwant in Ew. apply bool_decide_eq_false in Ew. lia. }
      eapply ok_put; [done | done | done | by intros; apply Hsame | | done].
      intros b Hb. by rewrite Hsame, Hq.
    + assert (tasks (note id v t) !! id = Some s) as Hs' by by destruct v.
      apply ok_finish; [by apply ok_note | done | done].
Qed.

Lemma run_ok es : ∀ before t t', ok before t → run es t = Some t' → ok (before ++ es) t'.
Proof.
  induction es as [|e es IH]; intros before t t' Hok; cbn [run]; [intros [= <-]; by rewrite app_nil_r |].
  destruct (step e t) as [t1|] eqn:E; [|done]. cbn [mbind option_bind]. intros Hr.
  rewrite (assoc_L (++) before [e] es : before ++ e :: es = (before ++ [e]) ++ es). by eapply IH; [eapply table_step_ok|].
Qed.

(** In any run: an entry of the table is a task that is there and the client's
    own, so a datagram is never put where none reads it and no session is
    another's; what a session has sent its peer is what its client sent since
    it began, in that order, but for what waits in its channel; and with
    [proxy_responses] it has not yet passed on so many replies. *)
Theorem sessions_sound es t :
  run es empty_table = Some t →
  (∀ c id, sessions t !! c = Some id ↔ ∃ s, tasks t !! id = Some s ∧ client s = c) ∧
  (∀ id s, tasks t !! id = Some s →
     (∃ before, sent_by (client s) es = before ++ to_peer s ++ queue s) ∧
     responses s = Z.of_nat (length (to_client s)) ∧
     ∀ want, proxy_responses = Some want → responses s < Z.max 1 want).
Proof.
  intros Hr%(run_ok es []); [|apply ok_empty]. destruct Hr as [H1 H2 H3 H4]. split; [done |].
  intros id s Hs. split; [by apply (H3 id) |]. destruct (H4 _ _ Hs) as (Hp & Hl & Hw). split; [done |].
  intros want Hwant. destruct (Hw _ Hwant); lia.
Qed.

(** The other branches of the loops are never taken: no channel of the table
    is found closed, and no session finds its sender gone. *)
Theorem dead_branches es t c id s :
  run es empty_table = Some t →
  (sessions t !! c = Some id → is_Some (tasks t !! id)) ∧
  (tasks t !! id = Some s → step (Happened id Hangup) t = None).
Proof.
  intros Hr%(run_ok es []); [|apply ok_empty]. destruct Hr as [H1 _ _ _]. split.
  - intros Hc. apply H1 in Hc as (x & Hx & _). by exists x.
  - intros Hs. cbn [step]. rewrite Hs. cbn [mbind option_bind]. rewrite decide_False; [done |].
    intros Hm. apply Hm; [done |]. apply H1. by exists s.
Qed.
End udp.

Arguments Session : clear implicits.
Arguments Table A {_ _}.
Arguments Event : clear implicits.

(** ** Samples *)

Definition sample_run : list (Event nat) :=
  [Received 1%nat (str "a"); Received 2%nat (str "x"); Happened 0 Connected; Received 1%nat (str "b"); Happened 0 (Forward true);
   Happened 0 (Reply (str "A") true); Happened 1 Connected].

Definition sample_table : option (Table nat) := Eval vm_compute in run (Some 2) sample_run empty_table.

Lemma sessions_sound_witness :
  match sample_table with
  | Some t => ∀ id s, tasks t !! id = Some s → ∃ before, sent_by (client s) sample_run = before ++ to_peer s ++ queue s
  | None => False
  end.
Proof.
  assert (E : run (Some 2) sample_run empty_table = sample_table) by by vm_compute.
  unfold sample_table in E |- *. destruct (sessions_sound (Some 2) _ _ E) as [_ Hs].
  intros id s Hid. apply (Hs id s Hid).
Defined.

Lemma dead_branches_witness :
  match sample_table with
  | Some t => is_Some (tasks t !! 0%nat) ∧ step (Some 2) (Happened 0 Hangup) t = None
  | None => False
  end.
Proof.
  assert (E : run (Some 2) sample_run empty_table = sample_table) by by vm_compute.
  unfold sample_table in E |- *. destruct (dead_branches (Some 2) _ _ 1%nat 0%nat (mkSession 1%nat [str "b"] true 1 true [str "a"] [str "A"]) E) as [H1 H2].
  split; [apply H1; reflexivity | apply H2; reflexivity].
Defined.

(** The reply that completes the count ends the session at once, and the
    datagrams that were waiting in its channel with it. *)
Theorem last_reply_drops_the_queue :
  match run (Some 1) [Received 1%nat (str "a"); Happened 0 Connected; Happened 0 (Forward true); Received 1%nat (str "b");
    Happened 0 (Reply (str "A") true)] empty_table with
  | Some t => map_to_list (sessions t) = [] ∧ map_to_list (tasks t) = [] ∧ verdicts t = [(0%nat, true)]
  | None => False
  end.
Proof. by vm_compute. Qed.

(** With [proxy_responses 0] the session waits for a reply all the same, to its
    timeout or to the first that comes. *)
Theorem no_replies_wanted_waits :
  match run (Some 0) [Received 1%nat (str "a"); Happened 0 Connected; Happened 0 (Forward true)] empty_table with
  | Some t => is_Some (tasks t !! 0%nat)
  | None => False
  end.
Proof. vm_compute. by eexists. Qed.
