(* ===== verification/StreamProxy.v ===== *)
(** * [src/server/stream.rs]: layer 4 proxying

    A TCP session of the [stream] block: the look at the client's first bytes,
    the choice of a peer by address, group or variable, the copy in both
    directions and the verdict on the peer's health. Connections are those of
    [Proxy]: what their reads report and what their writes take. *)
From S2P Require Import Prelude.
From S2P Require Import Text.
From S2P Require Import Vars.
From S2P Require Import Response.
From S2P Require Import Matching.
From S2P Require Import Model.
From S2P Require Import Ctx.
From S2P Require Import ReadBody.
From S2P Require Import Conn.
From S2P Require Import Proxy.
From S2P Require ProxyReq.
From S2P Require Upstream.
From S2P Require Preread.
From S2P Require Build.

Open Scope oxi_scope.
Open Scope Z_scope.

(** ** Variables *)

Section vars.
  Context {Regex : Type} (is_match : Regex → bytes → bool).

(** [StreamVars] *)
Record StreamVars := mkStreamVars {
  v_maps : list (MapConf Regex);
  v_remote : option SocketAddr;
  v_hello : option Preread.Hello
}.

(** [var_depth] and [user_var], [below] levels below the cap of eight. *)
Fixpoint var_depth (sv : StreamVars) (below : nat) (v : Var.Var) : bytes :=
  match v with
  | Var.SslPrereadServerName => default [] (Preread.server_name <$> v_hello sv)
  | Var.SslPrereadAlpnProtocols => default [] (Preread.alpn_list <$> v_hello sv)
  | Var.SslPrereadProtocol => default [] (Preread.protocol <$> v_hello sv)
  | Var.RemoteAddr | Var.BinaryRemoteAddr => match v_remote sv with Some a => push_addr (Some a) | None => [] end
  | Var.RemotePort => default [] ((λ a, push_num (port a)) <$> v_remote sv)
  | Var.User name =>
      match below with
      | O => []
      | S below =>
          match List.head (List.filter (λ m, bool_decide (map_target m = name)) (v_maps sv)) with
          | None => []
          | Some m =>
              match map_lookup is_match m (var_depth sv below (source m)) with
              | Some t => Vars.render (var_depth sv below) t
              | None => []
              end
          end
      end
  | _ => []
  end.

(** [impl VarSource for StreamVars]: depths zero to eight. *)
Definition var (sv : StreamVars) : Vars.VarSource := var_depth sv 9.
End vars.
Arguments StreamVars : clear implicits.

(** ** The ClientHello *)

(** [read_client_hello]: the verdict, what has been read of the client's
    stream, and the reads that are left. A read takes no more than there is
    room for. *)
Fixpoint read_client_hello (fuel : nat) (size : Z) (l : list Event) (head : bytes) :
    option (option Preread.Hello * bytes * list Event) :=
  match fuel with
  | O => None
  | S fuel =>
      match Preread.parse head with
      | Preread.IsHello h => Some (Some h, head, l)
      | Preread.NotTls => Some (None, head, l)
      | Preread.Incomplete =>
          let want := Z.to_nat (Z.min (size ∸ Z.of_nat (length head)) 4096) in
          if decide (want = O) then Some (None, head, l)
          else
            match l with
            | Data (c :: d) :: l =>
                let l := if decide (length (c :: d) ≤ want)%nat then l else Data (drop want (c :: d)) :: l in
                read_client_hello fuel size l (head ++ take want (c :: d))
            | [] => Some (None, head, [])
            | _ :: l' => Some (None, head, l')
            end
      end
  end.

(** ** Copying *)

(** One direction of [pump]: it ends with a count, after which it shuts the
    other side's stream down, or in a write that never returns. *)
Fixpoint copy (l : list Event) (total : Z) (w : Wr) : Sent :=
  match l with
  | [] | TimedOut :: _ | Failed :: _ | Data [] :: _ => SentAll total w
  | Data d :: l =>
      match write_all d w with
      | Wrote w => copy l (total + Z.of_nat (length d)) w
      | Refused w => SentAll total w
      | Waits w => Stuck w
      end
  end.

Definition client_to_upstream (head : bytes) (l : list Event) (w : Wr) : Sent :=
  match write_some head w with
  | Wrote w => copy l (Z.of_nat (length head)) w
  | Refused w => SentAll 0 w
  | Waits w => Stuck w
  end.

(** [pump]: the directions do not wait for one another. *)
Definition pump (client upstream : Up) (head : bytes) : Sent * Sent :=
  (client_to_upstream head (up_in client) (up_wr upstream), copy (up_in upstream) 0 (up_wr client)).

(** ** A session *)

Section serve.
  Context {Regex W : Type} (is_match : Regex → bytes → bool).
  Context `{Net W} (ups : gmap bytes Group).
  Local Abbreviation St := (St W).

(** [pick] with its cursor: no address to hash here. *)
Definition pick (name : bytes) (s : St) : option (bytes * option Chosen) * St :=
  match ups !! name with
  | None => (None, s)
  | Some g =>
      let up := view s name g in
      let cur := default 0 (cursors s !! name) in
      ((λ i, (ProxyReq.peer_addr (Upstream.addr (Upstream.server_at up i)), Some (name, g, i))) <$>
         Upstream.select up (instant s) None cur,
       put_cursors (<[name := wrap 64 (cur + 1)]> (cursors s)) s)
  end.

Definition resolve_target (t : ProxyTarget) (sv : StreamVars Regex) (s : St) : option (bytes * option Chosen) * St :=
  match t with
  | ToAddr host port => (Some (host ++ str ":" ++ fmt_u64 port, None), s)
  | ToUnix p => (Some (str "unix:" ++ p, None), s)
  | ToUpstream name => pick name s
  | Dynamic t =>
      let rendered := trim (Vars.render (var is_match sv) t) in
      if decide (rendered = []) then (None, s)
      else match ups !! rendered with
           | Some _ => pick rendered s
           | None => (Some (ProxyReq.peer_addr rendered, None), s)
           end
  end.

(** How a session ends: without a peer, without a connection, or with what
    was written to the client and to the upstream; or it does not end, and
    keeps its place among the peer's connections. *)
Inductive Served := NoPeer | NoConnection | Relayed (to_upstream to_client : Wr) | Stalled (to_upstream to_client : Wr).

(** The verdict on the peer, from what was counted. *)
Definition judge (sent received : Z) (ch : option Chosen) (s : St) : St :=
  if decide (0 < sent ∧ received = 0) then note_failure ch s else on_peer Upstream.record_success ch s.

(** [serve]; [None] is a search longer than its fuel ([preread_ends]). *)
Definition serve (srv : Build.StreamServer) (maps : list (MapConf Regex)) (remote : option SocketAddr) (client : Up) (s : St) :
    option (Served * St) :=
  '(hello, head, l) ←
    (if Build.st_ssl_preread srv
     then read_client_hello (S (length (arriving (up_in client)))) (Build.st_preread_buffer_size srv) (up_in client) []
     else Some (None, [], up_in client));
  Some
    match resolve_target (Build.st_target srv) (mkStreamVars maps remote hello) s with
    | (None, s) => (NoPeer, s)
    | (Some (addr, ch), s) =>
        let s := on_peer Upstream.enter ch s in
        match connect addr (Build.st_connect_timeout srv) s with
        | (None, s) => (NoConnection, on_peer Upstream.leave ch (note_failure ch s))
        | (Some up, s) =>
            match pump (mkUp l (up_wr client)) up head with
            | (SentAll sent to_up, SentAll received to_client) =>
                (Relayed to_up to_client, on_peer Upstream.leave ch (judge sent received ch (pass s)))
            | (a, b) => (Stalled (wr_of a) (wr_of b), pass s)
            end
        end
    end.
End serve.

(** ** Nothing is lost *)

Lemma arriving_cons d l : arriving (Data d :: l) = d ++ arriving l.
Proof. done. Qed.

(** What is no data. *)
Definition no_data (e : Event) : Prop := e ∈ [Data []; TimedOut; Failed].

(** All a peer will send, cut into reads. *)
Definition sent_in (p : bytes) (l : list Event) : Prop :=
  ∃ ds rest, l = (Data <$> ds) ++ rest ∧ Forall (λ d, d ≠ []) ds ∧ mjoin ds = p ∧ Forall no_data rest.

Lemma sent_in_cons d l p : d ≠ [] → sent_in p l → sent_in (d ++ p) (Data d :: l).
Proof. intros Hd (ds & rest & -> & Hds & <- & He). exists (d :: ds), rest. split_and!; [done | by constructor | done | done]. Qed.

Lemma silent_cases e : no_data e → e = Data [] ∨ e = TimedOut ∨ e = Failed.
Proof. unfold no_data. rewrite !elem_of_cons, elem_of_nil. tauto. Qed.

Lemma copy_all p l total w : sent_in p l → (length p ≤ credit w)%nat →
  copy l total w = SentAll (total + Z.of_nat (length p)) (took p w).
Proof.
  intros (ds & rest & -> & Hds & <- & He). revert total w. induction Hds as [|d ds Hd _ IH]; intros total w Hc.
  - cbn [fmap list_fmap app]. change (mjoin []) with (@nil byte). rewrite took_nil, Z.add_0_r.
    destruct He as [|e rest He _]; [done |]. destruct (silent_cases e He) as [-> | [-> | ->]]; done.
  - cbn [fmap list_fmap app]. rewrite join_cons, length_app in *. destruct d as [|c d]; [done |]. cbn [copy].
    rewrite write_all_fits by lia. rewrite IH by (cbn [took credit]; lia). rewrite took_app. f_equal. lia.
Qed.

(** What one side says before the first silence of [proxy_timeout], its end or
    a failure *)
Fixpoint heard (l : list Event) : bytes :=
  match l with Data (c :: d) :: l => (c :: d) ++ heard l | _ => [] end.

(** What a session hears of its client: the look at the first bytes may end at
    a silence, and the copying goes on behind it. *)
Definition heard_of (preread : bool) (l : list Event) (x : bytes) : Prop :=
  x = heard l ∨ preread = true ∧ ∃ ds e rest, l = (Data <$> ds) ++ e :: rest ∧ no_data e ∧ x = mjoin ds ++ heard rest.

(** A direction passes on what it hears, as far as it is taken. *)
Lemma copy_heard l : ∀ total w, out (wr_of (copy l total w)) = out w ++ take (credit w) (heard l).
Proof.
  induction l as [|[[|c d]| |] l IH]; intros total w; cbn [copy heard]; rewrite ?take_nil, ?app_nil_r; try done.
  set (b := c :: d). unfold write_all. case_decide as Hb.
  - rewrite IH. cbn [out credit]. by rewrite <-app_assoc, take_app_ge.
  - rewrite take_app_le by lia. by destruct (silent w).
Qed.

Lemma to_upstream_heard head l w :
  out (wr_of (client_to_upstream head l w)) = out w ++ take (credit w) (head ++ heard l).
Proof.
  unfold client_to_upstream, write_some. case_decide as Hh; [subst; apply copy_heard |]. unfold write_all. case_decide as Hb.
  - rewrite copy_heard. cbn [out credit]. by rewrite <-app_assoc, take_app_ge.
  - rewrite take_app_le by lia. by destruct (silent w).
Qed.

(** The look at the client's first bytes loses none of them. *)
Lemma hello_heard size fuel : ∀ l head, (length (arriving l) < fuel)%nat →
  ∃ v x l', read_client_hello fuel size l head = Some (v, head ++ x, l') ∧ heard_of true l (x ++ heard l').
Proof.
  assert (Hnil : ∀ l, heard_of true l ([] ++ heard l)) by by left.
  induction fuel as [|fuel IH]; intros l head Hf; [lia |]. cbn [read_client_hello].
  destruct (Preread.parse head); [by eexists _, [], l; rewrite app_nil_r | | by eexists _, [], l; rewrite app_nil_r].
  destruct (decide _) as [|Hw]; [by eexists _, [], l; rewrite app_nil_r |]. set (want := Z.to_nat _) in *.
  assert (Hq : ∀ e l, no_data e → heard_of true (e :: l) ([] ++ heard l)) by (intros e m He; right; split; [done |]; by exists [], e, m).
  destruct l as [|[[|c d]| |] l].
  1: by eexists _, [], []; rewrite app_nil_r; split; [|left].
  1, 3, 4: eexists _, [], l; rewrite app_nil_r; split; [done | by apply Hq; unfold no_data; set_solver].
  set (rest := if decide (_ ≤ want)%nat then _ else _).
  assert (Hlen : (length (arriving rest) < fuel)%nat).
  { unfold rest. rewrite arriving_cons, length_app in Hf. cbn [length] in Hf. case_decide; [lia |].
    rewrite arriving_cons, length_app, length_drop. cbn [length]. lia. }
  destruct (IH rest (head ++ take want (c :: d)) Hlen) as (v & x & l' & E & Hx).
  exists v, (take want (c :: d) ++ x), l'. rewrite app_assoc. split; [exact E |].
  assert (Hwant : (0 < want)%nat) by lia. destruct (decide (length (c :: d) ≤ want)%nat) as [Hle|Hgt].
  - unfold rest in Hx. rewrite take_ge by lia. destruct Hx as [Hx|[_ (ds & e & r & -> & He & Hx)]].
    + left. rewrite <-app_assoc, Hx. done.
    + right. split; [done |]. exists ((c :: d) :: ds), e, r. split_and!; [done..|]. by rewrite join_cons, <-!app_assoc, Hx.
  - assert (Hd : drop want (c :: d) ≠ []) by (intros Hn%(f_equal length); rewrite length_drop in Hn; cbn in Hn, Hgt; lia).
    unfold rest in Hx. destruct Hx as [Hx|[_ (ds & e & r & El & He & Hx)]].
    + left. rewrite <-app_assoc, Hx. cbn [heard]. destruct (drop want (c :: d)) as [|c' d'] eqn:Edrop; [done |].
      rewrite <-Edrop at 1. by rewrite app_assoc, take_drop.
    + right. split; [done |]. destruct ds as [|d0 ds]; cbn [fmap list_fmap app] in El.
      { injection El as <- _. apply silent_cases in He as [He | [He | He]]; [by injection He | done..]. }
      injection El as <- ->. exists ((c :: d) :: ds), e, r. split_and!; [done..|].
      rewrite join_cons in *. rewrite <-!app_assoc in *. rewrite Hx. by rewrite app_assoc, take_drop.
Qed.

Definition verdict_of (head : bytes) : option Preread.Hello :=
  match Preread.parse head with Preread.IsHello h => Some h | _ => None end.

(** The look at the client's first bytes keeps them: what was read and what is
    left to read are what was sent, and it ends with a verdict, a full buffer
    or all there is. *)
Lemma hello_keeps size fuel : ∀ l head p, sent_in p l → (length (arriving l) < fuel)%nat → Z.of_nat (length head) ≤ size →
  ∃ p1 p2 l', read_client_hello fuel size l head = Some (verdict_of (head ++ p1), head ++ p1, l') ∧ p = p1 ++ p2 ∧
    sent_in p2 l' ∧ Z.of_nat (length (head ++ p1)) ≤ size ∧
    (Preread.parse (head ++ p1) ≠ Preread.Incomplete ∨ Z.of_nat (length (head ++ p1)) = size ∨ p2 = []).
Proof.
  induction fuel as [|fuel IH]; intros l head p Hl Hf Hh; [lia |]. cbn [read_client_hello].
  destruct (Preread.parse head) as [h| |] eqn:E.
  - exists [], p, l. unfold verdict_of. rewrite app_nil_r, E. split_and!; try done. by left.
  - destruct (decide (Z.to_nat (Z.min (size ∸ Z.of_nat (length head)) 4096) = 0%nat)) as [Hw|Hw].
    { exists [], p, l. unfold verdict_of. rewrite app_nil_r, E. split_and!; try done. right. left. unfold saturating_sub in *. lia. }
    set (want := Z.to_nat _) in *.
    destruct Hl as (ds & r & -> & Hds & <- & He). destruct Hds as [|d ds Hd Hds].
    + cbn [fmap list_fmap app]. assert (∃ r', match r with Data (c :: d) :: l => read_client_hello fuel size
        (if decide (length (c :: d) ≤ want)%nat then l else Data (drop want (c :: d)) :: l) (head ++ take want (c :: d))
        | [] => Some (None, head, []) | _ :: l' => Some (None, head, l') end = Some (None, head, r') ∧ Forall no_data r') as (r' & -> & Hr).
      { destruct He as [|e r He Hr]; [by exists [] |]. exists r. destruct (silent_cases e He) as [-> | [-> | ->]]; done. }
      exists [], [], r'. unfold verdict_of. rewrite app_nil_r, E. split_and!; try done; [by exists [], r' | by right; right].
    + cbn [fmap list_fmap app] in *. destruct d as [|c d]; [done |].
      set (rest := if decide (length (c :: d) ≤ want)%nat then _ else _).
      assert (Hrest : sent_in (drop want (c :: d) ++ mjoin ds) rest).
      { assert (sent_in (mjoin ds) ((Data <$> ds) ++ r)) as Hs by by exists ds, r.
        unfold rest. case_decide as Hle; [by rewrite drop_ge by lia |]. apply sent_in_cons; [|done].
        intros Hn%(f_equal length). rewrite length_drop in Hn. cbn in Hn, Hle. lia. }
      assert (Hlen : (length (arriving rest) < fuel)%nat).
      { assert (length (arriving rest) = length (drop want (c :: d)) + length (arriving ((Data <$> ds) ++ r)))%nat as ->.
        { unfold rest. case_decide; [by rewrite drop_ge by lia |]. rewrite arriving_cons, length_app. done. }
        rewrite arriving_cons, length_app, length_drop in *. cbn [length] in *. lia. }
      assert (Hsz : Z.of_nat (length (head ++ take want (c :: d))) ≤ size).
      { rewrite length_app, length_take. unfold want, saturating_sub. lia. }
      destruct (IH rest (head ++ take want (c :: d)) _ Hrest Hlen Hsz) as (p1 & p2 & l' & Er & Ep & Hl' & Hs & Hv).
      exists (take want (c :: d) ++ p1), p2, l'. rewrite app_assoc. split_and!; try done.
      rewrite join_cons. rewrite <-(take_drop want (c :: d)) at 1. by rewrite <-!app_assoc, Ep.
  - exists [], p, l. unfold verdict_of. rewrite app_nil_r, E. split_and!; try done. by left.
Qed.

(** A ClientHello that fits the buffer is recognised, whatever cuts it. *)
Theorem hello_recognised ch minor chunks after l size :
  Preread.client_ok ch → Z.of_nat (length (Preread.hello_body ch)) < 2 ^ 24 →
  Forall Preread.chunk_ok chunks → mjoin chunks = Preread.encode_hello ch →
  let hello := mjoin (Preread.encode_record minor <$> chunks) in
  Z.of_nat (length hello) ≤ size → sent_in (hello ++ after) l →
  ∃ head l', read_client_hello (S (length (arriving l))) size l [] = Some (Some (Preread.hello_meaning ch), head, l').
Proof.
  intros Hok Hl Hch E hello Hsize Hs.
  assert (Hp : ∀ rest, Preread.parse (hello ++ rest) = Preread.IsHello (Preread.hello_meaning ch)) by (intros; by apply Preread.hello_understood).
  destruct (hello_keeps size (S (length (arriving l))) l [] _ Hs ltac:(lia) ltac:(cbn; lia)) as (p1 & p2 & l' & Er & Ep & _ & _ & Hv).
  cbn [app] in *. exists p1, l'. rewrite Er. unfold verdict_of.
  assert (Preread.parse p1 = Preread.IsHello (Preread.hello_meaning ch)) as ->; [|done].
  assert (Preread.parse p1 = Preread.Incomplete ∨ Preread.parse p1 ≠ Preread.Incomplete) as [Hi|Hi] by (destruct (Preread.parse p1); auto).
  - assert (∃ x, p1 = hello ++ x) as [x ->]; [|done].
    destruct Hv as [? | Hv]; [done |]. destruct (app_eq_inv _ _ _ _ Ep) as [(k & Hk & Hk2)|(k & Hk & _)]; [|by exists k].
    exists []. rewrite app_nil_r. destruct k as [|c k]; [by rewrite Hk, app_nil_r |]. exfalso.
    destruct Hv as [Hv | ->]; [|discriminate Hk2]. apply (f_equal length) in Hk. rewrite length_app in Hk. cbn in Hk. lia.
  - specialize (Hp after). rewrite Ep, Preread.parse_stable in Hp by done. done.
Qed.

Lemma preread_ends size fuel : ∀ l head, (length (arriving l) < fuel)%nat → is_Some (read_client_hello fuel size l head).
Proof.
  induction fuel as [|fuel IH]; intros l head Hf; [lia |]. cbn [read_client_hello].
  destruct (Preread.parse head); [done | | done]. destruct (decide _) as [|Hw]; [done |]. set (want := Z.to_nat _) in *.
  destruct l as [|[[|c d]| |] l]; try done. rewrite arriving_cons, length_app in Hf. cbn [length] in Hf. apply IH. case_decide; [lia |].
  rewrite arriving_cons, length_app, length_drop. cbn [length]. lia.
Qed.

Section transparent.
  Context {Regex W : Type} (is_match : Regex → bytes → bool).
  Context `{!Net (W := W)} (ups : gmap bytes Group).


(** A client whose every byte comes before its silence, and peers that take
    what they are given: all of it arrives. *)
Corollary session_complete l p preread x : sent_in p l → heard_of preread l x → x = p.
Proof.
  assert (Hh : ∀ ds rest, Forall (λ d, d ≠ []) ds → Forall no_data rest → heard ((Data <$> ds) ++ rest) = mjoin ds).
  { intros ds rest Hds Hr. induction Hds as [|[|c d] ds Hd _ IH]; [|done | by cbn [fmap list_fmap app heard]; rewrite IH].
    destruct Hr as [|e r He _]; [done |]. by destruct (silent_cases e He) as [-> | [-> | ->]]. }
  intros (ds & rest & -> & Hds & <- & Hr) [-> | [_ (es & e & r & E & He & ->)]]; [by apply Hh |].
  revert es E. induction Hds as [|d ds Hd Hds IH]; intros es E.
  - assert (Forall no_data ((Data <$> es) ++ e :: r)) as [Hes Her]%Forall_app by (by rewrite <-E).
    apply Forall_cons in Her as [_ Her]. assert (heard r = []) as -> by (by apply (Hh [] r)). rewrite app_nil_r.
    assert (mjoin es = []) as ->; [|done]. clear E. induction es as [|d es IH]; [done |].
    apply Forall_cons in Hes as [Hd Hes]. rewrite join_cons, IH by done.
    destruct (silent_cases _ Hd) as [[= ->] | [|]]; done.
  - destruct es as [|d' es]; cbn [fmap list_fmap app] in E.
    + injection E as <- _. destruct (silent_cases _ He) as [[= ->] | [|]]; done.
    + injection E as <- E. rewrite !join_cons, <-app_assoc. f_equal. by apply IH.
Qed.

(** [proxy_pass $name] where a [map] takes the server name of the ClientHello:
    the session goes to the group the map gives for that name. *)
Theorem routed_by_server_name maps remote hello name m g (s : St W) :
  List.head (List.filter (λ m, bool_decide (map_target m = name)) maps) = Some m →
  source m = Var.SslPrereadServerName →
  (∃ t, map_lookup is_match m (Preread.server_name hello) = Some t ∧ literal t = Some g) →
  g ≠ [] → trim g = g → is_Some (ups !! g) →
  resolve_target is_match ups (Dynamic (mkTemplate [SVar (Var.User name)] None)) (mkStreamVars maps remote (Some hello)) s =
  pick ups g s.
Proof.
  intros Hm Hs (t & Ht & Hlit) Hne Htrim [gr Hg]. cbn [resolve_target].
  assert (Vars.render (var is_match (mkStreamVars maps remote (Some hello))) (mkTemplate [SVar (Var.User name)] None) = g) as ->.
  { unfold Vars.render at 1. cbn [literal segs fmap list_fmap seg_value]. unfold var. cbn [var_depth v_maps]. rewrite Hm, Hs.
    cbn [var_depth v_hello]. change (default [] (Preread.server_name <$> Some hello)) with (Preread.server_name hello). rewrite Ht. unfold Vars.render. rewrite Hlit. apply app_nil_r. }
  rewrite Htrim. rewrite decide_False by done. by rewrite Hg.
Qed.
End transparent.

(** A client that only listens: after [proxy_timeout] of silence on its side
    nothing more it sends is passed on, though the session goes on and the
    upstream is sending all the while. *)
Theorem listener_is_half_closed ds more : Forall (λ d, d ≠ []) ds → ∀ w,
  (length (mjoin ds) ≤ credit w)%nat →
  pump (mkUp (TimedOut :: more) w) (mkUp (Data <$> ds) (mkWr [] 0 false)) [] =
  (SentAll 0 (mkWr [] 0 false), SentAll (Z.of_nat (length (mjoin ds))) (took (mjoin ds) w)).
Proof.
  intros Hds w Hc. unfold pump. cbn [up_in up_wr]. f_equal. apply (copy_all _ _ 0); [|done].
  exists ds, []. by rewrite app_nil_r.
Qed.


(** ** Samples *)

(** A hello in two records. *)
Definition sample_records : bytes :=
  mjoin (Preread.encode_record x01 <$> [take 3 (Preread.encode_hello Preread.sample_hello); drop 3 (Preread.encode_hello Preread.sample_hello)]).

Definition sample_up (l : list Event) : Up := mkUp l (mkWr [] 1000 false).

Definition sample_stream (preread : bool) (t : ProxyTarget) : Build.StreamServer :=
  Build.mkStream [] t 60000 600000 preread 16384 5000 None 1.

(** [map $ssl_preread_server_name $backend { example.com app; default b; }] *)
Definition sample_map : MapConf bytes :=
  mkMapConf Var.SslPrereadServerName (str "backend") [(str "example.com", compile (str "app"))] [] []
    (Some (compile (str "b"))) false.

Definition by_name : ProxyTarget := Dynamic (mkTemplate [SVar (Var.User (str "backend"))] None).

Local Abbreviation sample_serve preread t client conns :=
  (serve (λ _ _, false) (upstreams (sample_http [str "a:1"])) (sample_stream preread t) [sample_map] None client (start [str "a:1"] conns)).

Definition sent (r : option (Served * St Script)) : option (bytes * bytes) :=
  match r with Some (Relayed a b, _) => Some (out a, out b) | _ => None end.

(** A hello goes to the group of its name, and to it whole; anything else to
    the default. *)
Example hello_is_routed :
  sent (sample_serve true by_name (sample_up (Data <$> [take 7 sample_records; drop 7 sample_records; str "more"]))
    [Some (sample_up [Data (str "answer"); Data []])]) = Some (sample_records ++ str "more", str "answer").
Proof. by vm_compute. Qed.

(** A peer that stops reading holds its direction for ever, and with it the
    session. *)
Example stalled_session :
  match sample_serve false (ToUpstream (str "app")) (sample_up [Data (str "GET"); Data []])
          [Some (mkUp [Data (str "answer"); Data []] (mkWr [] 2 true))] with
  | Some (Stalled a b, s) => Some (out a, out b, flight s !! str "app")
  | _ => None
  end = Some (str "GE", str "answer", Some [1]).
Proof. by vm_compute. Qed.

Lemma hello_recognised_witness :
  ∃ head l', read_client_hello (S (length (arriving (Data <$> [take 7 sample_records; drop 7 sample_records; str "more"])))) 16384
    (Data <$> [take 7 sample_records; drop 7 sample_records; str "more"]) [] =
    Some (Some (Preread.mkHello (str "example.com") [str "h2"; str "http/1.1"] (str "TLSv1.3")), head, l').
Proof.
  apply (hello_recognised Preread.sample_hello x01
    [take 3 (Preread.encode_hello Preread.sample_hello); drop 3 (Preread.encode_hello Preread.sample_hello)] (str "more")).
  - apply Preread.sample_hello_ok.
  - by vm_compute.
  - repeat (apply Forall_cons_2; [by vm_compute |]). apply Forall_nil_2.
  - by vm_compute.
  - by vm_compute.
  - exists [take 7 sample_records; drop 7 sample_records; str "more"], []. split_and!; [by rewrite app_nil_r | | by vm_compute | constructor].
    by apply (bool_decide_unpack _); vm_compute.
Defined.

Lemma routed_by_server_name_witness :
  resolve_target (λ _ _, false) (upstreams (sample_http [str "a:1"])) by_name
    (mkStreamVars [sample_map] None (Some (Preread.mkHello (str "example.com") [] []))) (start [str "a:1"] []) =
  pick (upstreams (sample_http [str "a:1"])) (str "app") (start [str "a:1"] []).
Proof.
  apply (routed_by_server_name (λ _ _, false) _ [sample_map] None _ (str "backend") sample_map (str "app")); try done.
  exists (compile (str "app")). by split.
Defined.

Lemma listener_is_half_closed_witness :
  pump (sample_up [TimedOut; Data (str "late")]) (mkUp [Data (str "news")] (mkWr [] 0 false)) [] =
  (SentAll 0 (mkWr [] 0 false), SentAll 4 (mkWr (str "news") 996 false)).
Proof. apply (listener_is_half_closed [str "news"]); [by repeat constructor | cbn; lia]. Defined.
