(* ===== verification/Master.v ===== *)
(** * [src/server/mod.rs]: the master process

    What [run_from] and [prefork] do: the sockets of a configuration and what
    a reload takes over of them, and the supervisor's loop over signals and
    the ends of its workers. A fork, a load of the configuration and a
    [waitpid] are events with their outcomes; what the master does to the
    system is a list of acts. *)
From S2P Require Import Prelude.
From S2P Require Import Text.
From S2P Require Import Matching.
From S2P Require Import Listen.
From S2P Require Import Build.
From S2P Require Import H2Conn.

Open Scope oxi_scope.
Open Scope Z_scope.

(** ** [Vec::swap_remove] *)

Definition swap_remove {A} (i : nat) (l : list A) : list A :=
  match last l with Some x => take (length l - 1) (<[i := x]> l) | None => l end.

Lemma swap_remove_perm {A} (l : list A) i x : l !! i = Some x → x :: swap_remove i l ≡ₚ l.
Proof.
  intros Hi. unfold swap_remove. destruct l as [|y l _] using rev_ind; [done |].
  rewrite last_snoc, length_app. cbn [length]. replace (length l + 1 - 1)%nat with (length l) by lia.
  destruct (decide (i < length l)%nat) as [Hl|Hl].
  - rewrite lookup_app_l in Hi by done. rewrite insert_app_l by done.
    rewrite take_app_le by (by rewrite length_insert). rewrite take_ge by (by rewrite length_insert).
    rewrite insert_take_drop by done. rewrite <-(take_drop_middle l i x Hi) at 3. solve_Permutation.
  - apply lookup_lt_Some in Hi as Hlt. rewrite length_app in Hlt. cbn in Hlt. assert (i = length l) as -> by lia.
    rewrite lookup_app_r, Nat.sub_diag in Hi by lia. injection Hi as <-.
    rewrite list_insert_id by (by rewrite lookup_app_r, Nat.sub_diag by lia). rewrite take_app_length. solve_Permutation.
Qed.

(** ** The supervisor *)

Definition Pid : Type := Z.

Inductive Signal := SigTerm | SigInt | SigQuit | SigHup | SigUsr1.

Section master.
  Context {G : Type} (workers : G → nat).

Inductive Act := Forked (p : Pid) (g : G) (w : nat) | Killed (p : Pid) (s : Signal).

(** The locals of [prefork] and its three flags; the processes it has started
    and not reaped; what it has done. *)
Record Master := mkMaster {
  gen : G;
  children : list (Pid * nat);
  retiring : list Pid;
  m_stop : bool;
  m_reload : Z;
  m_reopen : Z;
  alive : list Pid;
  acts : list Act
}.

Definition set_flags (stop : bool) (reload reopen : Z) (m : Master) : Master :=
  mkMaster (gen m) (children m) (retiring m) stop reload reopen (alive m) (acts m).
Definition set_workers (g : G) (c : list (Pid * nat)) (r : list Pid) (m : Master) : Master :=
  mkMaster g c r (m_stop m) (m_reload m) (m_reopen m) (alive m) (acts m).

(** [on_stop], [on_reload], [on_reopen] *)
Definition on_signal (s : Signal) (m : Master) : Master :=
  match s with
  | SigTerm | SigInt | SigQuit => set_flags true (m_reload m) (m_reopen m) m
  | SigHup => set_flags (m_stop m) (wrap 32 (m_reload m + 1)) (m_reopen m) m
  | SigUsr1 => set_flags (m_stop m) (m_reload m) (wrap 32 (m_reopen m + 1)) m
  end.

Definition kill_all (s : Signal) (ps : list Pid) (m : Master) : Master :=
  mkMaster (gen m) (children m) (retiring m) (m_stop m) (m_reload m) (m_reopen m) (alive m) (acts m ++ ((λ p, Killed p s) <$> ps)).

Definition everyone (m : Master) : list Pid := (fst <$> children m) ++ retiring m.

(** [spawn] *)
Definition forked (p : Pid) (g : G) (w : nat) (m : Master) : Master :=
  mkMaster (gen m) (children m) (retiring m) (m_stop m) (m_reload m) (m_reopen m) (alive m ++ [p]) (acts m ++ [Forked p g w]).

(** The loop that starts a generation: it stops at the first fork that
    fails. *)
Fixpoint spawn_all (g : G) (ws : list nat) (forks : list (option Pid)) (m : Master) (fresh : list (Pid * nat)) :
    option (list (Pid * nat)) * Master :=
  match ws with
  | [] => (Some fresh, m)
  | w :: ws =>
      match forks with
      | Some p :: forks => spawn_all g ws forks (forked p g w m) (fresh ++ [(p, w)])
      | _ => (None, m)
      end
  end.

(** Where the loop is: at its top, in [waitpid], or returned. *)
Inductive At := Top | Waiting | Returned (ok : bool).

(** From the top of the loop to [waitpid]; [load] is what [config::load] and
    [Generation::prepare] come to. *)
Definition turn (load : option G) (forks : list (option Pid)) (m : Master) : At * Master :=
  let m := if decide (0 < m_reopen m) then kill_all SigUsr1 (everyone m) (set_flags (m_stop m) (m_reload m) 0 m) else m in
  if decide (0 < m_reload m) then
    let m := set_flags (m_stop m) 0 (m_reopen m) m in
    if m_stop m then (Waiting, m)
    else
      match load with
      | None => (Top, m)
      | Some g =>
          match spawn_all g (seq 0 (workers g)) forks m [] with
          | (None, m) => (Top, m)
          | (Some fresh, m) =>
              let old := fst <$> children m in
              (Top, kill_all SigQuit old (set_workers g fresh (retiring m ++ old) m))
          end
      end
  else (Waiting, m).

(** [waitpid] failed with [EINTR]. *)
Definition interrupted (m : Master) : At * Master :=
  if m_stop m then (Returned true, kill_all SigQuit (everyone m) m) else (Top, m).

(** [waitpid] gives a process's number back to the system. *)
Definition buried (p : Pid) (m : Master) : Master :=
  mkMaster (gen m) (children m) (retiring m) (m_stop m) (m_reload m) (m_reopen m) (filter (λ q, q ≠ p) (alive m)) (acts m).

(** [waitpid] returned this process. *)
Definition reaped (p : Pid) (fork : option Pid) (m : Master) : At * Master :=
  let m := buried p m in
  match list_find (λ q, q = p) (retiring m) with
  | Some (i, _) => (Top, set_workers (gen m) (children m) (swap_remove i (retiring m)) m)
  | None =>
      match list_find (λ c, fst c = p) (children m) with
      | None => (Top, m)
      | Some (i, (_, w)) =>
          let m := set_workers (gen m) (swap_remove i (children m)) (retiring m) m in
          if m_stop m then
            (if bool_decide (children m = []) && bool_decide (retiring m = []) then Returned true else Top, m)
          else
            match fork with
            | None => (Returned false, m)
            | Some q => let m := forked q (gen m) w m in (Top, set_workers (gen m) (children m ++ [(q, w)]) (retiring m) m)
            end
      end
  end.

(** The kernel gives a process a number no other has. *)
Definition fresh_pids (forks : list (option Pid)) (m : Master) : Prop :=
  NoDup (omap id forks) ∧ Forall (λ p, p ∉ alive m) (omap id forks).

(** What happens: a signal while the master runs or sleeps, one that comes
    after the flags are read and before [waitpid] is entered, one that
    interrupts it; a turn; the end of a worker; the end of the last. *)
Inductive step : At * Master → At * Master → Prop :=
  | step_signal s m : step (Top, m) (Top, on_signal s m)
  | step_turn load forks m : fresh_pids forks m → step (Top, m) (turn load forks m)
  | step_late s m : step (Waiting, m) (Waiting, on_signal s m)
  | step_interrupt s m : step (Waiting, m) (interrupted (on_signal s m))
  | step_reap p fork m : p ∈ alive m → fresh_pids [fork] (buried p m) → step (Waiting, m) (reaped p fork m)
  | step_none m : alive m = [] → step (Waiting, m) (Returned true, m).

(** The start of [prefork], when every fork succeeds. *)
Definition starts (g : G) (st : At * Master) : Prop :=
  ∃ forks fresh m, let m0 := mkMaster g [] [] false 0 0 [] [] in
    fresh_pids forks m0 ∧ spawn_all g (seq 0 (workers g)) forks m0 [] = (Some fresh, m) ∧ st = (Top, set_workers g fresh [] m).

(** ** Supervision *)

(** The processes the master knows are its own and told apart; until it is to
    stop, its children are one for each number. *)
Record supervised (m : Master) : Prop := {
  s_alive : NoDup (alive m);
  s_known : NoDup (everyone m);
  s_ours : Forall (λ p, p ∈ alive m) (everyone m);
  s_workers : m_stop m = false → (snd <$> children m) ≡ₚ seq 0 (workers (gen m))
}.

Lemma spawn_all_spec g ws : ∀ forks m fresh,
  NoDup (omap id forks) → Forall (λ p, p ∉ alive m) (omap id forks) →
  let '(r, m') := spawn_all g ws forks m fresh in
  ∃ new, alive m' = alive m ++ (fst <$> new) ∧ acts m' = acts m ++ ((λ c, Forked (fst c) g (snd c)) <$> new) ∧
    set_workers (gen m) (children m) (retiring m) m' = m' ∧ m_stop m' = m_stop m ∧ m_reload m' = m_reload m ∧ m_reopen m' = m_reopen m ∧
    (fst <$> new) `sublist_of` omap id forks ∧
    match r with Some f => f = fresh ++ new ∧ (snd <$> new) = ws | None => True end.
Proof.
  assert (Hself : ∀ m : Master, set_workers (gen m) (children m) (retiring m) m = m) by by intros [].
  induction ws as [|w ws IH]; intros forks m fresh Hn Hf; cbn [spawn_all].
  - exists []. cbn [fmap list_fmap]. rewrite !app_nil_r. split_and!; try done. apply sublist_nil_l.
  - assert (∃ new : list (Pid * nat), alive m = alive m ++ (fst <$> new) ∧ acts m = acts m ++ ((λ c, Forked (fst c) g (snd c)) <$> new) ∧
      set_workers (gen m) (children m) (retiring m) m = m ∧ m_stop m = m_stop m ∧ m_reload m = m_reload m ∧ m_reopen m = m_reopen m ∧
      (fst <$> new) `sublist_of` omap id forks ∧ True) as Hnone.
    { exists []. cbn [fmap list_fmap]. rewrite !app_nil_r. split_and!; try done. apply sublist_nil_l. }
    destruct forks as [|[p|] forks]; [exact Hnone | | exact Hnone]. clear Hnone.
    cbn [omap list_omap] in Hn, Hf. cbn [id] in Hn, Hf. apply NoDup_cons in Hn as [Hp Hn]. apply Forall_cons in Hf as [Hpa Hf].
    specialize (IH forks (forked p g w m) (fresh ++ [(p, w)]) Hn).
    destruct (spawn_all g ws forks (forked p g w m) (fresh ++ [(p, w)])) as [r m'].
    destruct IH as (new & Ha & Hac & Hs & H1 & H2 & H3 & Hsub & Hr).
    { rewrite Forall_forall in *. intros q Hq. cbn. rewrite not_elem_of_app. split; [by apply Hf |]. intros ->%list_elem_of_singleton. done. }
    exists ((p, w) :: new). cbn [fmap list_fmap fst snd alive acts forked] in *. rewrite <-!app_assoc in *. cbn [app] in *. split_and!; try done.
    + by apply sublist_skip.
    + destruct r as [f|]; [|done]. by destruct Hr as [-> <-].
Qed.

Lemma turn_supervised load forks m : supervised m → fresh_pids forks m → supervised (turn load forks m).2.
Proof.
  intros [H1 H2 H3 H4] [Hn Hf]. unfold turn.
  set (m1 := if decide (0 < m_reopen m) then _ else m).
  assert (supervised m1 ∧ alive m1 = alive m) as [[I1 I2 I3 I4] Hal] by (unfold m1; case_decide; by split).
  clearbody m1. destruct (decide (0 < m_reload m1)); [|by split].
  set (m2 := set_flags (m_stop m1) 0 (m_reopen m1) m1). change (m_stop m2) with (m_stop m1).
  destruct (m_stop m1) eqn:Es; [split; cbn; [exact I1|exact I2|exact I3|intros Hx; congruence] |].
  destruct load as [g|]; [|split; cbn; try done; by intros _; apply I4].
  pose proof (spawn_all_spec g (seq 0 (workers g)) forks m2 [] Hn) as Hsp. rewrite <-Hal in Hf. specialize (Hsp Hf).
  destruct (spawn_all g (seq 0 (workers g)) forks m2 []) as [[fresh|] m3];
    destruct Hsp as (new & Ha & _ & Hs & Hst & _ & _ & Hsub & Hr); apply (f_equal (λ m, (gen m, children m, retiring m))) in Hs as Hs3;
    cbn in Hs3; injection Hs3 as Hg Hc Hre; change (alive m2) with (alive m1) in Ha;
    assert (Hnew : NoDup (fst <$> new)) by (eapply sublist_NoDup; [exact Hn | exact Hsub]);
    assert (Hna : ∀ p, p ∈ fst <$> new → p ∉ alive m1) by (intros p Hp; rewrite Forall_forall in Hf; apply Hf; eapply elem_of_submseteq; [exact Hp | by apply sublist_submseteq]);
    assert (Hal3 : NoDup (alive m3)) by (rewrite Ha; apply NoDup_app; split_and!; [done | by intros x Hx Hy; eapply Hna | done]).
  - destruct Hr as [-> Hw]. cbn [app] in *. split; cbn [snd kill_all set_workers alive children retiring gen m_stop]; [done | | | by rewrite Hw].
    + unfold everyone. cbn [children retiring kill_all set_workers]. rewrite <-Hc, <-Hre. change (children m2) with (children m1). change (retiring m2) with (retiring m1).
      apply NoDup_app. split_and!; [done | |].
      * intros x Hx Hy. eapply Hna; [done |]. rewrite Forall_forall in I3. apply I3. unfold everyone. rewrite elem_of_app in *. tauto.
      * unfold everyone in I2. by rewrite (comm (++)).
    + unfold everyone. cbn [children retiring kill_all set_workers]. rewrite Forall_forall in *. intros p Hp.
      change (alive (kill_all _ _ _)) with (alive m3). rewrite Ha. rewrite <-Hc, <-Hre in Hp. change (children m2) with (children m1) in Hp. change (retiring m2) with (retiring m1) in Hp.
      rewrite elem_of_app in Hp |- *. destruct Hp as [Hp|Hp]; [by right | left; apply I3; unfold everyone]. rewrite elem_of_app in *. tauto.
  - split; cbn [snd]; [done | | |].
    + unfold everyone. rewrite <-Hc, <-Hre. exact I2.
    + unfold everyone. rewrite <-Hc, <-Hre. rewrite Forall_forall in *. intros p Hp. rewrite Ha. apply elem_of_app. left. by apply I3.
    + intros _. rewrite <-Hc, <-Hg. by apply I4.
Qed.

(** A process reaped is no longer known, and those that are left are alive. *)
Lemma known_buried p ks m : supervised m → p :: ks ≡ₚ everyone m →
  NoDup (alive (buried p m)) ∧ NoDup ks ∧ Forall (λ q, q ∈ alive (buried p m)) ks.
Proof.
  intros [H1 H2 H3 _] Hp. rewrite <-Hp in H2, H3. apply NoDup_cons in H2 as [Hn H2]. apply Forall_cons in H3 as [_ H3].
  split_and!; [by apply NoDup_filter | done |]. rewrite Forall_forall in *. intros q Hq. cbn.
  apply list_elem_of_filter. split; [by intros -> | by apply H3].
Qed.

Lemma fst_swap_remove (cs : list (Pid * nat)) i c : cs !! i = Some c → fst c :: (fst <$> swap_remove i cs) ≡ₚ fst <$> cs.
Proof. intros Hi. by rewrite <-fmap_cons, (swap_remove_perm cs i c Hi). Qed.
Lemma snd_swap_remove (cs : list (Pid * nat)) i c : cs !! i = Some c → snd c :: (snd <$> swap_remove i cs) ≡ₚ snd <$> cs.
Proof. intros Hi. by rewrite <-fmap_cons, (swap_remove_perm cs i c Hi). Qed.

Lemma reaped_supervised p fork m : supervised m → fresh_pids [fork] (buried p m) →
  (∃ ok, (reaped p fork m).1 = Returned ok) ∨ supervised (reaped p fork m).2.
Proof.
  intros Hs [Hn Hf]. unfold reaped. destruct (list_find _ (retiring (buried p m))) as [[i q]|] eqn:Er.
  - right. apply list_find_Some in Er as (Hi & -> & _).
    destruct (known_buried p ((fst <$> children m) ++ swap_remove i (retiring m)) m Hs) as (H1 & H2 & H3).
    { unfold everyone. rewrite Permutation_middle. by rewrite (swap_remove_perm _ _ _ Hi). }
    split; [done..|]. apply Hs.
  - apply list_find_None in Er. destruct (list_find _ (children (buried p m))) as [[i [q w]]|] eqn:Ec.
    + apply list_find_Some in Ec as (Hi & Hq & _). cbn in Hq. subst q. cbn [children buried] in Hi.
      destruct (known_buried p ((fst <$> swap_remove i (children m)) ++ retiring m) m Hs) as (H1 & H2 & H3).
      { unfold everyone. rewrite app_comm_cons. by rewrite (fst_swap_remove _ _ _ Hi). }
      cbn [m_stop set_workers buried]. destruct (m_stop m) eqn:Est.
      { right. case_match; (split; [done..|]; cbn; congruence). }
      destruct fork as [q|]; [right | by left; eexists].
      cbn [omap list_omap id] in Hf. apply Forall_cons in Hf as [Hq _].
      assert (q ∉ (fst <$> swap_remove i (children m)) ++ retiring m) as Hqk.
      { intros Hin. rewrite Forall_forall in H3. by apply Hq, H3. }
      assert (everyone (set_workers (gen m) (swap_remove i (children m) ++ [(q, w)]) (retiring m) m) ≡ₚ q :: ((fst <$> swap_remove i (children m)) ++ retiring m)) as Hev.
      { unfold everyone. cbn. rewrite fmap_app. cbn. solve_Permutation. }
      split.
      * cbn. apply NoDup_app. split_and!; [done | intros x Hx ->%list_elem_of_singleton; by apply Hq | apply NoDup_singleton].
      * change (NoDup (everyone (set_workers (gen m) (swap_remove i (children m) ++ [(q, w)]) (retiring m) m))). rewrite Hev. by apply NoDup_cons.
      * change (Forall (λ x, x ∈ alive (buried p m) ++ [q]) (everyone (set_workers (gen m) (swap_remove i (children m) ++ [(q, w)]) (retiring m) m))).
        rewrite Hev. apply Forall_cons. split; [apply elem_of_app; right; by apply list_elem_of_singleton |].
        eapply Forall_impl; [exact H3 |]. intros x Hx. apply elem_of_app. by left.
      * intros _. cbn. rewrite fmap_app. cbn. rewrite <-(s_workers m Hs Est), <-(snd_swap_remove _ _ _ Hi). cbn. solve_Permutation.
    + right. apply list_find_None in Ec. rewrite ->Forall_forall in Ec. rewrite ->Forall_forall in Er. destruct Hs as [H1 H2 H3 H4].
      split; [by apply NoDup_filter | done | | done]. rewrite Forall_forall in *. intros q Hq. cbn.
      apply list_elem_of_filter. split; [| by apply H3]. intros ->. unfold everyone in Hq. cbn in Hq.
      apply elem_of_app in Hq as [(c & -> & Hc)%list_elem_of_fmap | Hq]; [by apply (Ec c Hc) | by apply (Er p Hq)].
Qed.

Lemma flags_supervised s m : supervised m → supervised (on_signal s m).
Proof. intros [H1 H2 H3 H4]. destruct s; by split. Qed.

Definition running (a : At) : bool := match a with Returned _ => false | _ => true end.

Lemma step_supervised st st' : step st st' → supervised st.2 → running st'.1 = true → supervised st'.2.
Proof.
  intros Hst Hs Hr. destruct Hst; cbn [fst snd] in *; eauto using flags_supervised, turn_supervised.
  - apply (flags_supervised s) in Hs. unfold interrupted. destruct (m_stop (on_signal s m)); cbn [snd]; destruct Hs as [I1 I2 I3 I4]; split; [exact I1 | exact I2 | exact I3 | exact I4 | exact I1 | exact I2 | exact I3 | exact I4].
  - destruct (reaped_supervised p fork m Hs) as [[ok Ho]|?]; [done | by rewrite Ho in Hr | done].
Qed.

Lemma step_running st st' : step st st' → running st.1 = true.
Proof. by destruct 1. Qed.

Lemma starts_supervised g st : starts g st → supervised st.2.
Proof.
  intros (forks & fresh & m & [Hn Hf] & Hsp & ->). cbn [snd].
  pose proof (spawn_all_spec g (seq 0 (workers g)) forks _ [] Hn Hf) as H. rewrite Hsp in H.
  destruct H as (new & Ha & _ & Hg & _ & _ & _ & Hsub & -> & Hw). cbn in Ha, Hw.
  assert (NoDup (fst <$> new)) as Hnew by (eapply sublist_NoDup; [exact Hn | exact Hsub]).
  split; unfold everyone; cbn; rewrite ?app_nil_r, ?Ha; [done | done | | by intros _; rewrite Hw].
  by apply Forall_forall.
Qed.

(** C40. However signals, turns and the ends of workers come, while the master runs
    the processes it knows are distinct and its own, and until it is told to
    stop its children are exactly one for each worker number of the
    configuration in force. *)
Theorem master_supervises g st0 st : starts g st0 → rtc step st0 st → running st.1 = true →
  NoDup (everyone st.2) ∧ Forall (λ p, p ∈ alive st.2) (everyone st.2) ∧
  (m_stop st.2 = false → (snd <$> children st.2) ≡ₚ seq 0 (workers (gen st.2))).
Proof.
  intros Hs0 Hst Hr. enough (supervised st.2) as [] by done.
  apply starts_supervised in Hs0. induction Hst as [st | x y z Hxy Hyz IH]; [done |].
  apply IH; [| done]. apply (step_supervised x); [done | done |]. inversion Hyz as [|? y2 ? Hy]; subst; [exact Hr | by eapply step_running].
Qed.

(** ** A reload *)

Definition quits (a : Act) : bool := match a with Killed _ SigQuit => true | _ => false end.

(** A reload is due and nothing else is. *)
Definition reload_due (m : Master) : Prop := 0 < m_reload m ∧ m_stop m = false ∧ m_reopen m = 0.

Definition started (g : G) (ps : list Pid) : list Act := (λ c, Forked (fst c) g (snd c)) <$> zip ps (seq 0 (workers g)).

Lemma spawn_all_forked g ps : ∀ ws tl m fresh, (length ps ≤ length ws)%nat → (length ps < length ws → tl = [None])%nat →
  spawn_all g ws ((Some <$> ps) ++ tl) m fresh =
    (if decide (length ps = length ws) then Some (fresh ++ zip ps ws) else None,
     mkMaster (gen m) (children m) (retiring m) (m_stop m) (m_reload m) (m_reopen m) (alive m ++ ps)
       (acts m ++ ((λ c, Forked (fst c) g (snd c)) <$> zip ps ws))).
Proof.
  induction ps as [|p ps IH]; intros [|w ws] tl m fresh Hl Ht; cbn [length] in *; try lia.
  - cbn. rewrite !app_nil_r. by destruct m.
  - rewrite Ht by lia. cbn. rewrite !app_nil_r. by destruct m.
  - cbn [spawn_all fmap list_fmap app zip zip_with]. rewrite IH by (try lia; intros; apply Ht; lia).
    cbn [gen children retiring m_stop m_reload m_reopen alive acts forked fst snd]. rewrite <-!app_assoc. cbn [app].
    repeat case_decide; done || lia.
Qed.

(** A reload either puts the new configuration in force whole, one new process
    for each of its workers and the old ones told to quit and never to be
    replaced; or, refused or its fork failing, leaves the old one and its
    workers as they were, except that what was forked by then stays. *)
Theorem reload_outcomes g ps m : reload_due m →
  turn None [] m = (Top, set_flags false 0 0 m) ∧
  (length ps = workers g → turn (Some g) (Some <$> ps) m =
     (Top, mkMaster g (zip ps (seq 0 (workers g))) (retiring m ++ (fst <$> children m)) false 0 0 (alive m ++ ps)
        ((acts m ++ started g ps) ++ ((λ p, Killed p SigQuit) <$> (fst <$> children m))))) ∧
  ((length ps < workers g)%nat → turn (Some g) ((Some <$> ps) ++ [None]) m =
     (Top, mkMaster (gen m) (children m) (retiring m) false 0 0 (alive m ++ ps) (acts m ++ started g ps))).
Proof.
  intros (H1 & H2 & H3). unfold turn. rewrite H3. destruct (decide (0 < 0)); [lia |]. destruct (decide (0 < m_reload m)) as [_|]; [| done]. cbn [m_stop set_flags]. rewrite H2.
  split_and!; [by rewrite H3 | |]; intros Hl.
  - rewrite <-(app_nil_r (Some <$> ps)), spawn_all_forked by (rewrite length_seq; lia). rewrite length_seq, decide_True by done.
    unfold kill_all. cbn. by rewrite ?H2, ?H3.
  - rewrite spawn_all_forked by (rewrite length_seq; lia || done). rewrite length_seq, decide_False by lia. cbn. by rewrite ?H2, ?H3.
Qed.

Lemma forks_quit_nothing g new : existsb quits ((λ c : Pid * nat, Forked (fst c) g (snd c)) <$> new) = false.
Proof. by induction new. Qed.

(** C16. However far a turn has come, if a worker has been told to quit then every
    worker of the new configuration has been started. *)
Theorem reload_leaves_no_gap load forks m k : fresh_pids forks m → m_stop m = false →
  ∃ done, acts (turn load forks m).2 = acts m ++ done ∧
    (existsb quits (take k done) = true →
     ∃ g, load = Some g ∧ ∀ w, (w < workers g)%nat → ∃ p, Forked p g w ∈ take k done ∧ (p, w) ∈ children (turn load forks m).2).
Proof.
  intros [Hn Hf] Hst. unfold turn.
  set (m1 := if decide (0 < m_reopen m) then _ else m).
  assert (∃ d, acts m1 = acts m ++ d ∧ existsb quits d = false) as (d & Hd & Hq).
  { unfold m1. case_decide; [eexists; split; [done |] | exists []; by rewrite app_nil_r]. by induction (everyone m). }
  assert (Hqk : ∀ j l, existsb quits l = false → existsb quits (take j l) = false).
  { intros j l Hl. rewrite <-(take_drop j l), existsb_app in Hl. by apply orb_false_iff in Hl as []. }
  assert (m_stop m1 = false ∧ alive m1 = alive m) as [Hs1 Hal] by (unfold m1; by case_decide).
  clearbody m1. case_decide; [| exists d; split; [done |]; by rewrite Hqk].
  cbn [m_stop set_flags]. rewrite Hs1. destruct load as [g|]; [| exists d; split; [done |]; by rewrite Hqk].
  rewrite <-Hal in Hf.
  pose proof (spawn_all_spec g (seq 0 (workers g)) forks (set_flags false 0 (m_reopen m1) m1) [] Hn Hf) as Hsp.
  destruct (spawn_all _ _ _ _ _) as [[fresh|] m3]; destruct Hsp as (new & _ & Hac & _ & _ & _ & _ & _ & Hr); cbn [acts set_flags] in Hac.
  - destruct Hr as [-> Hw]. cbn [app snd kill_all acts set_workers children].
    set (fs := (λ c, Forked c.1 g c.2) <$> new) in *. set (ks := (λ p, Killed p SigQuit) <$> (fst <$> children m3)).
    exists (d ++ fs ++ ks). rewrite Hac, Hd, <-!app_assoc. split; [done |]. intros Hk. exists g. split; [done |].
    intros w Hw'. assert (w ∈ snd <$> new) as (c & -> & Hc)%list_elem_of_fmap by (rewrite Hw; apply elem_of_seq; lia).
    exists c.1. split; [| by destruct c]. assert (Forked c.1 g c.2 ∈ fs) as Hin by (by apply (list_elem_of_fmap_2 (λ c, Forked c.1 g c.2))).
    assert (existsb quits fs = false) as Hfs by apply forks_quit_nothing.
    rewrite app_assoc in Hk |- *. destruct (decide (k ≤ length (d ++ fs))%nat) as [Hle|Hgt].
    + rewrite take_app_le in Hk by done. rewrite Hqk in Hk; [done |]. by rewrite existsb_app, Hq, Hfs.
    + rewrite take_app_ge by lia. apply elem_of_app. left. apply elem_of_app. by right.
  - set (fs := (λ c, Forked c.1 g c.2) <$> new) in *. exists (d ++ fs). cbn [snd]. rewrite Hac, Hd, <-app_assoc. split; [done |].
    rewrite Hqk; [done |]. rewrite existsb_app, Hq. apply forks_quit_nothing.
Qed.

(** ** The end of a worker *)

Lemma NoDup_fst_inj {A B} (l : list (A * B)) a b b' : NoDup (fst <$> l) → (a, b) ∈ l → (a, b') ∈ l → b = b'.
Proof.
  induction l as [|[a0 b0] l IH]; cbn; [by intros _ ?%not_elem_of_nil |]. rewrite NoDup_cons, !elem_of_cons.
  intros [Hn Hl] [[= -> ->]|H1] [[= <-]|H2]; try done; [.. | by apply IH].
  - destruct Hn. by apply (list_elem_of_fmap_2 fst) in H2.
  - simplify_eq. destruct Hn. by apply (list_elem_of_fmap_2 fst) in H1.
Qed.

(** What the end of a process comes to: a retired one is forgotten; one that
    served is replaced under its number with the configuration in force, or
    the master ends when the fork fails; after a stop nothing is replaced, and
    the last one ends the master; any other is ignored. *)
Theorem reaped_outcomes p fork m : supervised m →
  let r := reaped p fork m in
  (p ∈ retiring m → r.1 = Top ∧ p :: retiring r.2 ≡ₚ retiring m ∧ children r.2 = children m ∧ acts r.2 = acts m) ∧
  (∀ w, (p, w) ∈ children m → retiring r.2 = retiring m ∧
     if m_stop m then (p, w) :: children r.2 ≡ₚ children m ∧ acts r.2 = acts m ∧ (r.1 = Returned true ↔ everyone r.2 = [])
     else match fork with
          | Some q => r.1 = Top ∧ (p, w) :: children r.2 ≡ₚ (q, w) :: children m ∧ acts r.2 = acts m ++ [Forked q (gen m) w]
          | None => r.1 = Returned false ∧ acts r.2 = acts m
          end) ∧
  (p ∉ everyone m → r = (Top, buried p m)).
Proof.
  intros Hs. unfold reaped. cbn [retiring children buried m_stop gen].
  pose proof (s_known m Hs) as Hk. unfold everyone in Hk. apply NoDup_app in Hk as (Hkc & Hdis & _).
  destruct (list_find _ (retiring m)) as [[i q]|] eqn:Er.
  - apply list_find_Some in Er as (Hi & -> & _). apply list_elem_of_lookup_2 in Hi as Hin.
    split_and!; [| |].
    + intros _. split_and!; [done | by apply swap_remove_perm | done | done].
    + intros w Hw. exfalso. apply (Hdis p); [| done]. by apply (list_elem_of_fmap_2 fst) in Hw.
    + intros Hn. exfalso. apply Hn, elem_of_app. by right.
  - apply list_find_None in Er. rewrite Forall_forall in Er.
    split; [intros Hin; by destruct (Er p Hin) |].
    destruct (list_find _ (children m)) as [[i [q w]]|] eqn:Ec.
    + apply list_find_Some in Ec as (Hi & Hq & _). cbn in Hq. subst q. apply list_elem_of_lookup_2 in Hi as Hin.
      split; [| intros Hn; exfalso; apply Hn, elem_of_app; left; by apply (list_elem_of_fmap_2 fst) in Hin].
      intros w' Hw'. assert (w' = w) as -> by (by eapply NoDup_fst_inj).
      pose proof (swap_remove_perm _ _ _ Hi) as Hp. cbn [m_stop set_workers buried children retiring]. destruct (m_stop m); [| destruct fork as [q|]].
      * unfold everyone.
        destruct (swap_remove i (children m)) as [|c cs], (retiring m) as [|r rs]; cbn; split_and!; done || by split.
      * cbn. split_and!; try done. transitivity ((q, w) :: (p, w) :: swap_remove i (children m)); [solve_Permutation | by rewrite Hp].
      * done.
    + apply list_find_None in Ec. rewrite ->Forall_forall in Ec. split; [intros w Hw; by destruct (Ec (p, w) Hw) | done].
Qed.
(** ** Where the supervisor falls short *)

(** A stop that interrupts [waitpid] reaches every process the master knows;
    one that comes while the master is at work, or sleeps before replacing a
    worker, reaches none, and the master waits again. *)
Theorem stop_can_be_missed s m : s = SigTerm ∨ s = SigInt ∨ s = SigQuit → m_reload m = 0 → m_reopen m = 0 →
  step (Waiting, m) (Returned true, kill_all SigQuit (everyone m) (set_flags true 0 0 m)) ∧
  rtc step (Top, m) (Waiting, set_flags true 0 0 m) ∧
  rtc step (Waiting, m) (Waiting, set_flags true 0 0 m).
Proof.
  intros Hs Hr Ho.
  assert (on_signal s m = set_flags true 0 0 m) as Hon by (destruct Hs as [->|[->| ->]]; cbn; by rewrite Hr, Ho).
  split_and!.
  - pose proof (step_interrupt s m) as H. rewrite Hon in H. exact H.
  - eapply rtc_l; [apply (step_signal s) |]. eapply rtc_l; [apply (step_turn None []) |].
    + split; [apply NoDup_nil_2 | done].
    + rewrite Hon. apply rtc_refl.
  - eapply rtc_l; [apply (step_late s) |]. rewrite Hon. apply rtc_refl.
Qed.

(** Two reloads asked for before the loop comes round are one. *)
Theorem quick_reloads_collapse load forks m : 0 ≤ m_reload m < 2 ^ 32 - 2 →
  turn load forks (on_signal SigHup (on_signal SigHup m)) = turn load forks (on_signal SigHup m).
Proof.
  intros Hb. unfold turn, on_signal, set_flags, everyone, kill_all. cbn -[wrap].
  unfold wrap. rewrite (Z.mod_small (m_reload m + 1)), (Z.mod_small (m_reload m + 1 + 1)) by lia.
  assert (0 < m_reload m + 1 ∧ 0 < m_reload m + 1 + 1) as [] by lia. destruct (decide (0 < m_reopen m)); cbn; repeat (case_decide; [| done]); done.
Qed.

(** The workers a reload had started when its fork failed run on, and the
    master does not know them: no signal reaches them, and their end is
    ignored. *)
Theorem failed_fork_leaks g ps m p : supervised m → reload_due m → fresh_pids ((Some <$> ps) ++ [None]) m →
  (length ps < workers g)%nat → p ∈ ps →
  let m' := (turn (Some g) ((Some <$> ps) ++ [None]) m).2 in
  p ∈ alive m' ∧ p ∉ everyone m' ∧ reaped p None m' = (Top, buried p m').
Proof.
  intros Hs (H1 & H2 & H3) [_ Hf] Hl Hp. unfold turn. rewrite H3. destruct (decide (0 < 0)); [lia |]. destruct (decide (0 < m_reload m)); [| done].
  cbn [m_stop set_flags]. rewrite H2, spawn_all_forked by (rewrite length_seq; lia || done). rewrite length_seq, decide_False by lia. cbn zeta. cbn [snd alive set_flags].
  assert (p ∉ everyone m) as Hn.
  { intros Hin. assert (p ∈ alive m) by (pose proof (s_ours m Hs) as Ho; rewrite Forall_forall in Ho; by apply Ho).
    rewrite Forall_forall in Hf. apply (Hf p); [| done]. rewrite omap_app. apply elem_of_app. left. apply list_elem_of_omap. exists (Some p). split; [| done].
    by apply (list_elem_of_fmap_2 Some). }
  split_and!; [apply elem_of_app; by right | done |].
  unfold everyone in Hn. rewrite elem_of_app in Hn. unfold reaped. cbn [retiring children buried set_flags].
  rewrite (proj2 (list_find_None _ _)) by (apply Forall_forall; intros q Hq ->; tauto).
  rewrite (proj2 (list_find_None _ _)); [done |]. apply Forall_forall. intros c Hc <-. apply Hn. left. by apply (list_elem_of_fmap_2 fst).
Qed.
End master.

(** ** Signals by name, and what a worker makes of one *)

(** [signal_master] *)
Definition signal_named (name : bytes) : option Signal :=
  if decide (name = str "stop") then Some SigTerm
  else if decide (name = str "quit") then Some SigQuit
  else if decide (name = str "reload") then Some SigHup
  else if decide (name = str "reopen") then Some SigUsr1
  else None.

Inductive Stop := Now | Graceful.
Inductive Reaction := Stops (s : Stop) | Reopens | NotListened.

(** [shutdown_signal] *)
Definition shutdown_signal (s : Signal) : Reaction :=
  match s with
  | SigQuit => Stops Graceful
  | SigTerm | SigInt => Stops Now
  | SigUsr1 => Reopens
  | SigHup => NotListened
  end.

(** [WorkerProcesses::resolve]; [cores] is what the system says of itself. *)
Definition worker_processes (cores : option Z) (w : WorkerProcesses) : Z :=
  match w with Auto => default 1 cores | Workers n => Z.max n 1 end.

(** [-s stop] asks for what a single worker does at once, but the master of
    several passes on a [SIGQUIT]: its workers finish what they have. *)
Theorem stop_drains {G} (m : Master (G := G)) s p : signal_named (str "stop") = Some s →
  shutdown_signal s = Stops Now ∧
  (p ∈ everyone m → ∃ s', Killed p s' ∈ acts (interrupted (on_signal s m)).2 ∧ shutdown_signal s' = Stops Graceful).
Proof.
  intros [= <-]. split; [done |]. intros Hp. exists SigQuit. split; [| done]. cbn. apply elem_of_app. right.
  by apply (list_elem_of_fmap_2 (λ p, Killed p SigQuit)).
Qed.

(** ** The sockets of a generation *)

Section sockets.
  Context {L S : Type} (addr_of : L → ListenAddr) (reuse : L → bool).
  Context (bind : L → option S) (try_clone : S → option S).

(** [Generation::socket_for], [stream_socket_for] *)
Definition socket_for (prev : list L * list (option S)) (a : ListenAddr) : option S :=
  '(i, _) ← list_find (λ l, addr_of l = a) (fst prev); mjoin (snd prev !! i).

(** The loop of [Generation::prepare] over the listeners, on Linux, and what
    it has bound by the time it ends. *)
Fixpoint bind_listeners (prev : option (list L * list (option S))) (ls : list L) : option (list (option S)) * list L :=
  match ls with
  | [] => (Some [], [])
  | l :: ls =>
      let push o '(r, bound) := (cons o <$> r, bound) in
      if reuse l then push None (bind_listeners prev ls)
      else match prev ≫= λ p, socket_for p (addr_of l) with
           | Some s => match try_clone s with Some c => push (Some c) (bind_listeners prev ls) | None => (None, []) end
           | None => match bind l with
                     | Some s => let '(r, bound) := push (Some s) (bind_listeners prev ls) in (r, l :: bound)
                     | None => (None, [l])
                     end
           end
  end.

Definition taken_over (prev : option (list L * list (option S))) (l : L) : bool :=
  bool_decide (is_Some (prev ≫= λ p, socket_for p (addr_of l))).

(** Each listener that wants one gets a socket: a copy of the one its address
    had, where it had one, and a new one where it had none; nothing else is
    bound. *)
Theorem sockets_taken_over prev ls out bound : bind_listeners prev ls = (Some out, bound) →
  Forall2 (λ l o, if reuse l then o = None
                  else match prev ≫= λ p, socket_for p (addr_of l) with
                       | Some s => o = try_clone s ∧ is_Some o
                       | None => o = bind l ∧ is_Some o
                       end) ls out ∧
  bound = filter (λ l, reuse l = false ∧ taken_over prev l = false) ls.
Proof.
  revert out bound. induction ls as [|l ls IH]; intros out bound; cbn [bind_listeners]; [by intros [= <- <-] |].
  rewrite filter_cons. destruct (bind_listeners prev ls) as [r b]. destruct (reuse l) eqn:Er.
  - cbn. destruct r as [r|]; [|done]. intros [= <- <-]. destruct (IH r b eq_refl) as [H1 ->].
    rewrite decide_False by naive_solver. split; [|done]. constructor; [by rewrite Er | done].
  - unfold taken_over. destruct (prev ≫= _) as [s|] eqn:Es.
    + destruct (try_clone s) as [c|] eqn:Ec; [|done]. cbn. destruct r as [r|]; [|done]. intros [= <- <-]. destruct (IH r b eq_refl) as [H1 ->].
      rewrite decide_False by naive_solver. split; [|done]. constructor; [| done]. rewrite Er, Es. by split; [|eexists].
    + destruct (bind l) as [c|] eqn:Ec; [|done]. cbn. destruct r as [r|]; [|done]. intros [= <- <-]. destruct (IH r b eq_refl) as [H1 Hb].
      rewrite decide_True by done. split; [| by rewrite Hb]. constructor; [| done]. rewrite Er, Es. by split; [|eexists].
Qed.

Lemma socket_for_own ls out i l : NoDup (addr_of <$> ls) → ls !! i = Some l → socket_for (ls, out) (addr_of l) = mjoin (out !! i).
Proof.
  intros Hn Hi. unfold socket_for. cbn [fst snd].
  destruct (list_find (λ l', addr_of l' = addr_of l) ls) as [[j l']|] eqn:E.
  - apply list_find_Some in E as (Hj & Ha & _). cbn.
    assert (j = i) as ->; [| done]. eapply (NoDup_lookup _ _ _ (addr_of l) Hn); rewrite list_lookup_fmap; [by rewrite Hj; cbn; rewrite Ha | by rewrite Hi].
  - apply list_find_None in E. rewrite Forall_forall in E. by destruct (E l (list_elem_of_lookup_2 _ _ _ Hi)).
Qed.

Lemma sockets_cloned prev ls : (∀ s, is_Some (try_clone s)) →
  Forall (λ l, reuse l = true ∨ is_Some (prev ≫= λ p, socket_for p (addr_of l))) ls →
  bind_listeners prev ls = (Some ((λ l, if reuse l then None else (prev ≫= λ p, socket_for p (addr_of l)) ≫= try_clone) <$> ls), []).
Proof.
  intros Hc. induction 1 as [|l ls Hl _ IH]; [done |]. cbn [bind_listeners]. rewrite IH. cbn [fmap list_fmap].
  destruct (reuse l); [done |]. destruct Hl as [?|[s Hs]]; [done |]. rewrite Hs. destruct (Hc s) as [c Hcs]. by rewrite Hcs; cbn; rewrite Hcs.
Qed.

(** Reloading a configuration that listens where the last one did binds
    nothing: every listener keeps its own socket. *)
Theorem reload_binds_nothing prev ls out bound : (∀ s, is_Some (try_clone s)) → NoDup (addr_of <$> ls) →
  bind_listeners prev ls = (Some out, bound) →
  bind_listeners (Some (ls, out)) ls = (Some ((λ o, o ≫= try_clone) <$> out), []).
Proof.
  intros Hc Hn Ho.
  assert (Forall2 (λ l o, if reuse l then o = None else is_Some o) ls out) as Hf.
  { clear Hn. revert out bound Ho. induction ls as [|l ls IH]; intros out bound; cbn [bind_listeners]; [by intros [= <- <-] |].
    destruct (bind_listeners prev ls) as [r b]. destruct (reuse l) eqn:Er; [| destruct (prev ≫= _) as [s|]; [destruct (try_clone s) as [c|]; [|done] | destruct (bind l); [|done]]];
      cbn; destruct r as [r|]; try done; intros [= <- <-]; (constructor; [by rewrite Er | by eapply IH]). }
  assert (∀ i l, ls !! i = Some l → socket_for (ls, out) (addr_of l) = mjoin (out !! i)) as Hown by (intros; by apply socket_for_own).
  rewrite sockets_cloned; [| done |].
  - f_equal. f_equal. apply list_eq. intros i. rewrite !list_lookup_fmap.
    destruct (ls !! i) as [l|] eqn:Hl.
    + destruct (Forall2_lookup_l _ _ _ _ _ Hf Hl) as (o & Hoi & Hr). rewrite Hoi. cbn [fmap option_fmap option_map mbind option_bind]. rewrite (Hown i l Hl), Hoi. cbn.
      destruct (reuse l); [by subst |]. by destruct o.
    + apply lookup_ge_None in Hl. rewrite (Forall2_length _ _ _ Hf) in Hl. by rewrite (proj2 (lookup_ge_None out i) Hl).
  - apply Forall_lookup. intros i l Hl. destruct (Forall2_lookup_l _ _ _ _ _ Hf Hl) as (o & Hoi & Hr).
    cbn [mbind option_bind]. rewrite (Hown i l Hl), Hoi. destruct (reuse l); [by left | by right].
Qed.
(** The listeners of a worker, in [Generation::build]: each with a copy of its
    socket, or with none where the worker binds its own; [None] is an index
    out of bounds, [Err] a descriptor that cannot be copied. *)
Fixpoint worker_sockets (i : nat) (ls : list L) (shared : list (option S)) : option (result unit (list (L * option S))) :=
  match ls with
  | [] => Some (Ok [])
  | l :: ls =>
      o ← shared !! i;
      match o with
      | None => rest ← worker_sockets (Datatypes.S i) ls shared; Some (match rest with Ok r => Ok ((l, None) :: r) | Err e => Err e end)
      | Some s =>
          match try_clone s with
          | None => Some (Err tt)
          | Some c => rest ← worker_sockets (Datatypes.S i) ls shared; Some (match rest with Ok r => Ok ((l, Some c) :: r) | Err e => Err e end)
          end
      end
  end.

Lemma worker_sockets_spec ls : ∀ i shared out, drop i shared = out → length out = length ls → (∀ s, is_Some (try_clone s)) →
  worker_sockets i ls shared = Some (Ok (zip ls ((λ o, o ≫= try_clone) <$> out))).
Proof.
  induction ls as [|l ls IH]; intros i shared out Ho Hl Hc; [by destruct out |]. destruct out as [|o out]; [done |].
  assert (shared !! i = Some o) as Hi by (by rewrite <-(Nat.add_0_r i), <-lookup_drop, Ho).
  assert (drop (Datatypes.S i) shared = out) as Hd by (by rewrite <-Nat.add_1_r, <-drop_drop, Ho).
  cbn [worker_sockets]. rewrite Hi. cbn [mbind option_bind]. rewrite (IH _ _ out) by (cbn in Hl; (lia || done)).
  destruct o as [s|]; [| done]. destruct (Hc s) as [c Hs]. cbn [mbind option_bind fmap list_fmap]. by rewrite Hs.
Qed.

(** Every worker of a generation is given all of its listeners, each with its
    own copy of the socket the master holds: none is left out, and no index
    is out of bounds. *)
Theorem workers_listen_on_all prev ls out bound : (∀ s, is_Some (try_clone s)) → bind_listeners prev ls = (Some out, bound) →
  ∃ inputs, worker_sockets 0 ls out = Some (Ok inputs) ∧ inputs.*1 = ls ∧ inputs.*2 = (λ o, o ≫= try_clone) <$> out.
Proof.
  intros Hc Hb. apply sockets_taken_over in Hb as [Hf _]. pose proof (Forall2_length _ _ _ Hf) as Hl.
  exists (zip ls ((λ o, o ≫= try_clone) <$> out)). rewrite fst_zip, snd_zip by (rewrite length_fmap; lia).
  split; [| done]. by apply worker_sockets_spec.
Qed.
End sockets.

(** ** Certificates by server name *)

Section sni.
  Context {HostRegex Server : Type} (is_match : HostRegex → bytes → bool).
  Implicit Types (host : bytes) (servers : list (ServerConf (HostRegex := HostRegex) (Server := Server))).

(** The names [sni_resolver_for] keeps of a server *)
Definition cert_names (ns : list (ServerName (HostRegex := HostRegex))) : list bytes :=
  omap (λ n, match n with
             | ExactName e => if decide (e = []) then None else Some e
             | LeadingWildcard x => Some (str "*." ++ x)
             | _ => None
             end) ns.

(** [SniResolver::resolve] *)
Definition name_hit (sni n : bytes) : bool :=
  match strip_prefix (str "*.") n with
  | Some suffix =>
      bool_decide (length suffix < length sni)%nat && bool_decide (sni !! (length sni - length suffix - 1)%nat = Some "."%byte) &&
      ends_with suffix sni
  | None => eq_ignore_ascii_case sni n
  end.

Definition resolve {K} (entries : list (list bytes * K)) (sni : option bytes) : option K :=
  match sni ≫= λ h, list_find (λ e : list bytes * K, existsb (name_hit h) (fst e) = true) entries with
  | Some (_, e) => Some (snd e)
  | None => snd <$> head entries
  end.

(** The servers of a listener that have a certificate; a key stands for its
    server here. *)
Definition sni_resolver (servers : list (ServerConf (HostRegex := HostRegex) (Server := Server))) :=
  (λ s, (cert_names (names s), s)) <$> servers.

(** The names that decide before any pattern that is not a plain wildcard *)
Definition covers_name host (n : ServerName (HostRegex := HostRegex)) : bool :=
  match n with ExactName e => eq_ignore_ascii_case host e | LeadingWildcard x => leading_matches host x | _ => false end.
Definition covers host (s : ServerConf (HostRegex := HostRegex) (Server := Server)) : bool := existsb (covers_name host) (names s).

(** A host as a client hello has it, in lower case, and names as [server_name]
    makes them, the wildcards in lower case. *)
Definition plain_name (n : ServerName (HostRegex := HostRegex)) : Prop :=
  match n with
  | ExactName e => strip_prefix (str "*.") e = None
  | LeadingWildcard x => lowercase x = x
  | _ => True
  end.

Lemma name_hit_covers host n : lowercase host = host → host ≠ [] → plain_name n →
  existsb (name_hit host) (cert_names [n]) = covers_name host n.
Proof.
  intros Hl Hne Hp. destruct n as [e|x|p|re|]; cbn; try done.
  - case_decide as He; cbn.
    + subst. symmetry. unfold eq_ignore_ascii_case. apply bool_decide_eq_false. by destruct host.
    + unfold name_hit. rewrite Hp. by rewrite orb_false_r.
  - unfold name_hit. change ("*"%byte :: "."%byte :: x) with (str "*." ++ x). rewrite (proj2 (strip_prefix_Some _ _ x) eq_refl), orb_false_r.
    unfold leading_matches, ends_with, eq_ignore_ascii_case. cbn in Hp. rewrite Hp.
    unfold lowercase. rewrite fmap_drop. fold (lowercase host). rewrite Hl.
    destruct (decide (length x < length host)%nat); [| by rewrite !(bool_decide_eq_false_2 (length x < length host)%nat)].
    rewrite (bool_decide_eq_true_2 (length x ≤ length host)%nat) by lia. done.
Qed.

Lemma cert_names_covers host ns : lowercase host = host → host ≠ [] → Forall plain_name ns →
  existsb (name_hit host) (cert_names ns) = existsb (covers_name host) ns.
Proof.
  intros Hl Hne. induction 1 as [|n ns Hp _ IH]; [done |]. cbn [existsb]. rewrite <-IH, <-(name_hit_covers host n) by done.
  rewrite <-existsb_app. f_equal. change (n :: ns) with ([n] ++ ns). unfold cert_names. by rewrite omap_app.
Qed.

Lemma longest_of_None score l : longest_of (HostRegex := HostRegex) (Server := Server) score l = None ↔ Forall (λ p, score (snd p) = None) l.
Proof.
  induction l as [|[s n] l IH]; [done |]. rewrite Forall_cons, <-IH. cbn. destruct (score n), (longest_of score l) as [[]|]; try case_decide; naive_solver.
Qed.

Lemma longest_of_Some score l k s : longest_of (HostRegex := HostRegex) (Server := Server) score l = Some (k, s) → ∃ n, (s, n) ∈ l ∧ score n = Some k.
Proof.
  revert k s. induction l as [|[s' n'] l IH]; intros k s; cbn; [done |].
  destruct (score n') as [k'|] eqn:Es; [| intros H; destruct (IH _ _ H) as (n & ? & ?); exists n; split; [by right | done]].
  destruct (longest_of score l) as [[k1 s1]|]; [case_decide |]; intros [= <- <-].
  - destruct (IH _ _ eq_refl) as (n & ? & ?); exists n; split; [by right | done].
  - exists n'. split; [by left | done].
  - exists n'. split; [by left | done].
Qed.

Lemma all_names_elem servers s n : (s, n) ∈ all_names servers ↔ s ∈ servers ∧ n ∈ names s.
Proof.
  unfold all_names. rewrite list_elem_of_In, in_flat_map. setoid_rewrite <-list_elem_of_In. split.
  - intros (t & Ht & Hn). apply list_elem_of_fmap in Hn as (m & [= -> ->] & Hm). done.
  - intros [Hs Hn]. exists s. split; [done |]. by apply (list_elem_of_fmap_2 (λ n, (s, n))).
Qed.

Lemma covers_spec host s : covers host s = true ↔ ∃ n, n ∈ names s ∧ covers_name host n = true.
Proof. unfold covers. rewrite existsb_exists. by setoid_rewrite list_elem_of_In. Qed.

Lemma list_find_ext_Forall {A} (P Q : A → Prop) `{∀ x, Decision (P x)} `{∀ x, Decision (Q x)} l :
  Forall (λ x, P x ↔ Q x) l → list_find P l = list_find Q l.
Proof. induction 1 as [|x l Hx _ IH]; [done |]. cbn. rewrite IH. by destruct (decide (P x)), (decide (Q x)); naive_solver. Qed.

(** The certificate chosen is that of the first server, in the order written,
    one of whose exact names or leading wildcards covers the name asked for;
    the first server's where none does or none is asked for. *)
Theorem first_cover_presented servers host : lowercase host = host → host ≠ [] → Forall (λ s, Forall plain_name (names s)) servers →
  resolve (sni_resolver servers) (Some host) = match list_find (λ s, covers host s = true) servers with Some (_, s) => Some s | None => head servers end ∧
  resolve (sni_resolver servers) None = head servers.
Proof.
  intros Hl Hne Hp. unfold resolve, sni_resolver. cbn [mbind option_bind].
  assert (∀ l : list (ServerConf (HostRegex := HostRegex) (Server := Server)), snd <$> head ((λ s, (cert_names (names s), s)) <$> l) = head l) as Hh by by intros [].
  split; [| apply Hh]. rewrite list_find_fmap. unfold compose. cbn [fst].
  rewrite (list_find_ext_Forall _ (λ s, covers host s = true)).
  - destruct (list_find _ servers) as [[i s]|]; [done | apply Hh].
  - eapply Forall_impl; [exact Hp |]. intros s Hs. unfold covers. cbn. by rewrite cert_names_covers.
Qed.

(** When one server covers the name and no other does, the certificate is that
    of the server the request is routed to. *)
Theorem certificate_of_routed_server servers d host s : lowercase host = host → host ≠ [] → trim_dots host = host →
  Forall (λ s, Forall plain_name (names s)) servers → (∀ t, t ∈ servers → covers host t = true ↔ t = s) → s ∈ servers →
  resolve (sni_resolver servers) (Some host) = Some s ∧ match_host is_match servers d host = Some s.
Proof.
  intros Hl Hne Ht Hp Hone Hs. assert (covers host s = true) as Hc by by apply Hone. split.
  - destruct (first_cover_presented servers host Hl Hne Hp) as [-> _].
    destruct (list_find _ servers) as [[i t]|] eqn:E.
    + apply list_find_Some in E as (Hi & Ht' & _). f_equal. apply Hone; [by eapply list_elem_of_lookup_2 | done].
    + apply list_find_None in E. rewrite Forall_forall in E. by destruct (E s Hs).
  - unfold match_host. rewrite Ht, scan_names_spec. cbn [merge].
    destruct (list_find (λ p, exact_hit _ _ = true) _) as [[i [t n]]|] eqn:E.
    + apply list_find_Some in E as (Hi & He & _). cbn in He |- *. apply list_elem_of_lookup_2, all_names_elem in Hi as [Hi Hn].
      f_equal. apply Hone; [done |]. apply covers_spec. exists n. split; [done |]. destruct n; cbn in He |- *; try done.
      apply bool_decide_eq_true in He. done.
    + apply list_find_None in E. cbn. destruct (longest_of (leading_score host) (all_names servers)) as [[k t]|] eqn:El.
      * apply longest_of_Some in El as (n & [Hi Hn]%all_names_elem & Hk). f_equal. apply Hone; [done |]. apply covers_spec. exists n.
        split; [done |]. destruct n; cbn in Hk |- *; try done. by destruct (leading_matches _ _).
      * apply longest_of_None in El. rewrite Forall_forall in E, El. apply covers_spec in Hc as (n & Hn & Hc).
        assert ((s, n) ∈ all_names servers) as Hin by by apply all_names_elem. specialize (E _ Hin). specialize (El _ Hin).
        destruct n; cbn in *; try done. by rewrite Hc in El.
Qed.

(** Where two servers cover a name, or none does, the certificate can be
    another server's than the one that answers. *)
Theorem certificate_of_another_server (a b : Server) :
  let sa := mkServerConf [LeadingWildcard (str "example.com")] a in
  let sb := mkServerConf [ExactName (str "www.example.com")] b in
  resolve (sni_resolver [sa; sb]) (Some (str "www.example.com")) = Some sa ∧
  match_host is_match [sa; sb] 1 (str "www.example.com") = Some sb ∧
  resolve (sni_resolver [sa; sb]) (Some (str "other.net")) = Some sa ∧
  match_host is_match [sa; sb] 1 (str "other.net") = Some sb.
Proof. cbn zeta. split_and!; vm_compute; reflexivity. Qed.
End sni.

(** ** The client preface *)

Inductive Ends := Eof | Fails.
Inductive Preface := H2 (buf : bytes) (rest : list bytes) | Http1 (buf : bytes) (rest : list bytes) | Gone.

(** One read of at most [want] bytes of a stream that comes in these chunks *)
Definition read_some (want : nat) (chunks : list bytes) : option (bytes * list bytes) :=
  match chunks with
  | [] => None
  | c :: cs => Some (take want c, if decide (length c ≤ want)%nat then cs else drop want c :: cs)
  end.

(** [peek_preface] *)
Fixpoint peek_preface (fuel : nat) (buf : bytes) (chunks : list bytes) (ends : Ends) : option Preface :=
  match fuel with
  | O => None
  | S fuel =>
      let have := Nat.min (length buf) (length PREFACE) in
      if decide (take have buf ≠ take have PREFACE) then Some (Http1 buf chunks)
      else if decide (length PREFACE ≤ length buf)%nat then Some (H2 buf chunks)
      else match read_some (Nat.min (length PREFACE - length buf) 64) chunks with
           | Some (d, chunks) => peek_preface fuel (buf ++ d) chunks ends
           | None => match ends with Eof => Some (Http1 buf []) | Fails => Some Gone end
           end
  end.

Lemma read_some_spec want chunks d rest : (0 < want)%nat → Forall (λ c, c ≠ []) chunks → read_some want chunks = Some (d, rest) →
  d ≠ [] ∧ (length d ≤ want)%nat ∧ d ++ concat rest = concat chunks ∧ Forall (λ c, c ≠ []) rest.
Proof.
  intros Hw Hf. destruct chunks as [|c cs]; cbn; [done |]. apply Forall_cons in Hf as [Hc Hf]. intros [= <- <-].
  split_and!; [destruct c, want; done || lia | rewrite length_take; lia | |]; case_decide.
  - by rewrite take_ge by done.
  - cbn. by rewrite app_assoc, take_drop.
  - done.
  - constructor; [| done]. intros E%(f_equal length). rewrite length_drop in E. cbn in E. lia.
Qed.

(** However the bytes come, the connection is told HTTP/2 exactly when they
    begin with the preface, and what is handed on with the bytes still to come
    is what the client sent; only a connection that fails within the preface
    is given up. *)
Theorem preface_told chunks ends : Forall (λ c, c ≠ []) chunks →
  match peek_preface (S (length PREFACE)) [] chunks ends with
  | Some (H2 buf rest) => buf ++ concat rest = concat chunks ∧ PREFACE `prefix_of` concat chunks
  | Some (Http1 buf rest) => buf ++ concat rest = concat chunks ∧ ¬ PREFACE `prefix_of` concat chunks
  | Some Gone => ends = Fails ∧ concat chunks `prefix_of` PREFACE ∧ concat chunks ≠ PREFACE
  | None => False
  end.
Proof.
  intros Hf. remember (concat chunks) as all eqn:Hall.
  assert (∀ fuel buf cs, Forall (λ c, c ≠ []) cs → buf ++ concat cs = all → (length PREFACE < fuel + length buf)%nat → (length buf ≤ length PREFACE)%nat →
    match peek_preface fuel buf cs ends with
    | Some (H2 b rest) => b ++ concat rest = all ∧ PREFACE `prefix_of` all
    | Some (Http1 b rest) => b ++ concat rest = all ∧ ¬ PREFACE `prefix_of` all
    | Some Gone => ends = Fails ∧ all `prefix_of` PREFACE ∧ all ≠ PREFACE
    | None => False
    end) as H; [| apply H; [done | done | cbn [length]; lia | cbn [length]; lia]].
  clear chunks Hf Hall. induction fuel as [|fuel IH]; intros buf cs Hf Ha Hfuel Hlen; [lia |]. cbn [peek_preface].
  rewrite Nat.min_l by done. rewrite firstn_all. case_decide as Hp.
  { split; [done |]. intros [t Ht]. apply Hp. assert (take (length buf) (buf ++ concat cs) = buf) as Hb by apply take_app_length.
    rewrite Ha, Ht, take_app_le in Hb by done. done. }
  case_decide as Hl.
  { assert (length buf = length PREFACE) as He by lia. rewrite He, firstn_all in Hp. subst buf. split; [done |]. by exists (concat cs). }
  destruct (read_some _ cs) as [[d rest]|] eqn:Er.
  - apply read_some_spec in Er as (Hd & Hdl & Hcat & Hrest); [| lia | done]. apply IH; [done | by rewrite <-app_assoc, Hcat | |].
    + destruct d; [done |]. rewrite length_app. cbn [length]. lia.
    + rewrite length_app. lia.
  - destruct cs; [| done]. cbn in Ha. rewrite app_nil_r in Ha. subst all. destruct ends.
    + rewrite app_nil_r. split; [done |]. intros Hx%prefix_length. lia.
    + split_and!; [done | rewrite Hp; eexists; symmetry; apply take_drop | intros ->; lia].
Qed.

(** ** Instances *)

Definition two : Master (G := nat) :=
  mkMaster 2%nat [(10, 0%nat); (11, 1%nat)] [] false 1 0 [10; 11] [Forked 10 2%nat 0; Forked 11 2%nat 1].

Lemma two_supervised : supervised id two.
Proof. split; vm_compute; [repeat constructor; set_solver | repeat constructor; set_solver | repeat constructor; set_solver | done]. Qed.

Lemma two_due : reload_due two.
Proof. done. Qed.

Lemma two_fresh : fresh_pids [Some 20; None] two.
Proof. split; vm_compute; repeat constructor; set_solver. Qed.

Lemma master_supervises_witness :
  (∃ st0, starts id 2%nat st0 ∧ rtc (step id) st0 (Top, on_signal SigHup st0.2)) ∧ (snd <$> children two) ≡ₚ seq 0 2.
Proof.
  set (st0 := (Top, set_workers 2%nat [(10, 0%nat); (11, 1%nat)] [] (mkMaster 2%nat [] [] false 0 0 [10; 11] [Forked 10 2%nat 0; Forked 11 2%nat 1]))).
  assert (starts id 2%nat st0) as Hs.
  { exists [Some 10; Some 11], [(10, 0%nat); (11, 1%nat)]. eexists. split_and!; [| reflexivity | reflexivity].
    split; vm_compute; repeat constructor; set_solver. }
  assert (rtc (step id) st0 (Top, on_signal SigHup st0.2)) as Hr by apply rtc_once, step_signal.
  split; [by exists st0 |].
  exact (proj2 (proj2 (master_supervises id 2%nat st0 _ Hs Hr eq_refl)) eq_refl).
Defined.

Lemma reload_outcomes_witness : turn id (Some 1%nat) [Some 20] two =
  (Top, mkMaster 1%nat [(20, 0%nat)] [10; 11] false 0 0 [10; 11; 20]
     [Forked 10 2%nat 0; Forked 11 2%nat 1; Forked 20 1%nat 0; Killed 10 SigQuit; Killed 11 SigQuit]).
Proof. exact (proj1 (proj2 (reload_outcomes id 1%nat [20] two two_due)) eq_refl). Defined.

Lemma reload_leaves_no_gap_witness : ∃ done, acts (turn id (Some 1%nat) [Some 20; None] two).2 = acts two ++ done ∧ existsb quits (take 2 done) = true ∧
  ∃ p, Forked p 1%nat 0%nat ∈ take 2 done.
Proof.
  destruct (reload_leaves_no_gap id (Some 1%nat) [Some 20; None] two 2 two_fresh eq_refl) as (d & Hd & Hq). exists d. split; [done |].
  vm_compute in Hd. injection Hd as <-. split; [done |]. destruct (Hq eq_refl) as (g & [= <-] & Hw). destruct (Hw 0%nat) as (p & Hp & _); [vm_compute; lia |].
  by exists p.
Defined.

Lemma reaped_outcomes_witness : (10, 0%nat) ∈ children two ∧ acts (reaped 10 (Some 12) two).2 = acts two ++ [Forked 12 2%nat 0].
Proof.
  split; [by left |]. destruct (reaped_outcomes id 10 (Some 12) two two_supervised) as (_ & H & _).
  destruct (H 0%nat ltac:(by left)) as (_ & _ & _ & Ha). exact Ha.
Defined.

Lemma stop_can_be_missed_witness : ∃ m : Master (G := nat), everyone m = [10] ∧ rtc (step id) (Top, m) (Waiting, set_flags true 0 0 m).
Proof.
  exists (mkMaster 1%nat [(10, 0%nat)] [] false 0 0 [10] []). split; [done |].
  exact (proj1 (proj2 (stop_can_be_missed id SigTerm (mkMaster 1%nat [(10, 0%nat)] [] false 0 0 [10] []) (or_introl eq_refl) eq_refl eq_refl))).
Defined.

Lemma quick_reloads_collapse_witness : turn id None [] (on_signal SigHup (on_signal SigHup two)) = turn id None [] (on_signal SigHup two).
Proof. apply (quick_reloads_collapse id None [] two). vm_compute. split; congruence. Defined.

Lemma failed_fork_leaks_witness : 20 ∈ alive (turn id (Some 2%nat) [Some 20; None] two).2 ∧ 20 ∉ everyone (turn id (Some 2%nat) [Some 20; None] two).2.
Proof.
  destruct (failed_fork_leaks id 2%nat [20] two 20 two_supervised two_due two_fresh) as (H1 & H2 & _); [cbn; lia | by left |]. exact (conj H1 H2).
Defined.

Lemma stop_drains_witness : ∃ s', Killed 10 s' ∈ acts (interrupted (on_signal SigTerm two)).2 ∧ shutdown_signal s' = Stops Graceful.
Proof. destruct (stop_drains two SigTerm 10 eq_refl) as [_ H]. apply H. by left. Defined.

(** Two listeners, told apart by their path; a socket is its number. *)
Definition on (p : string) : ListenAddr := Unix (str p).
Definition socket_of (a : ListenAddr) : option Z := Some (if decide (a = on "a") then 1 else 2).

Lemma sockets_taken_over_witness : bind_listeners id (λ _, false) socket_of Some (Some ([on "a"], [Some 7])) [on "b"; on "a"] = (Some [Some 2; Some 7], [on "b"]) ∧
  [on "b"] = filter (λ l, false = false ∧ taken_over id (Some ([on "a"], [Some 7])) l = false) [on "b"; on "a"].
Proof.
  split; [reflexivity |].
  exact (proj2 (sockets_taken_over id (λ _, false) socket_of Some (Some ([on "a"], [Some 7])) [on "b"; on "a"] [Some 2; Some 7] [on "b"] eq_refl)).
Defined.

Lemma reload_binds_nothing_witness : bind_listeners id (λ _, false) socket_of Some (Some ([on "a"; on "b"], [Some 1; Some 2])) [on "a"; on "b"] = (Some [Some 1; Some 2], []).
Proof.
  exact (reload_binds_nothing id (λ _, false) socket_of Some None [on "a"; on "b"] [Some 1; Some 2] [on "a"; on "b"]
    (λ s, mk_is_Some _ _ eq_refl) ltac:(apply NoDup_cons; split; [rewrite list_elem_of_singleton; done | apply NoDup_singleton]) eq_refl).
Defined.

Definition named (n : ServerName (HostRegex := unit)) (i : nat) : ServerConf (HostRegex := unit) (Server := nat) := mkServerConf [n] i.
Definition served : list (ServerConf (HostRegex := unit) (Server := nat)) :=
  [named (LeadingWildcard (str "b.org")) 0; named (ExactName (str "a.org")) 1].

Lemma served_plain : Forall (λ s, Forall plain_name (names s)) served.
Proof. repeat constructor. Qed.

Lemma first_cover_presented_witness : resolve (sni_resolver served) (Some (str "x.b.org")) = Some (named (LeadingWildcard (str "b.org")) 0) ∧
  resolve (sni_resolver served) None = head served.
Proof. exact (first_cover_presented served (str "x.b.org") eq_refl ltac:(done) served_plain). Defined.

Lemma certificate_of_routed_server_witness :
  resolve (sni_resolver served) (Some (str "a.org")) = Some (named (ExactName (str "a.org")) 1) ∧
  match_host (λ _ _, false) served 0 (str "a.org") = Some (named (ExactName (str "a.org")) 1).
Proof.
  refine (certificate_of_routed_server (λ _ _, false) served 0 (str "a.org") (named (ExactName (str "a.org")) 1) eq_refl ltac:(done) eq_refl served_plain _ _).
  - intros t Ht. apply elem_of_cons in Ht as [->|[->|[]%not_elem_of_nil]%elem_of_cons]; vm_compute; split; congruence.
  - right. by left.
Defined.

Lemma preface_told_witness : ∃ buf, peek_preface (S (length PREFACE)) [] [str "PRI"; str " * HTTP/1.0"] Eof = Some (Http1 buf []) ∧
  buf ++ concat [] = str "PRI * HTTP/1.0" ∧ ¬ PREFACE `prefix_of` str "PRI * HTTP/1.0".
Proof.
  exists (str "PRI * HTTP/1.0"). split; [vm_compute; reflexivity |].
  exact (preface_told [str "PRI"; str " * HTTP/1.0"] Eof ltac:(repeat constructor; done)).
Defined.
