(* ===== verification/Msgpack.v ===== *)
(** * [src/server/msgpack.rs] and the records of [src/server/conn.rs]

    The MessagePack encoder of the log sink, the record [encode_record] makes
    of a [log_format], and a reader of the subset, against which the encoder
    is proved. *)
From S2P Require Import Prelude.
From S2P Require Import Text.
From S2P Require Import Vars.

Open Scope oxi_scope.
Open Scope Z_scope.

(** ** The encoder *)

Definition map_header (n : Z) : bytes :=
  if decide (n < 16) then [of_u8 (Z.lor 128 (wrap 8 n))]
  else if decide (n ≤ 65535) then xde :: to_be 2 (wrap 16 n)
  else xdf :: to_be 4 (wrap 32 n).

Definition write_str (s : bytes) : bytes :=
  let n := Z.of_nat (length s) in
  (if decide (n < 32) then [of_u8 (Z.lor 160 (wrap 8 n))]
   else if decide (n ≤ 255) then [xd9; of_u8 (wrap 8 n)]
   else if decide (n ≤ 65535) then xda :: to_be 2 (wrap 16 n)
   else xdb :: to_be 4 (wrap 32 n)) ++ s.

Definition write_uint (v : Z) : bytes :=
  if decide (v < 128) then [of_u8 (wrap 8 v)]
  else if decide (v ≤ 255) then [xcc; of_u8 (wrap 8 v)]
  else if decide (v ≤ 65535) then xcd :: to_be 2 (wrap 16 v)
  else if decide (v ≤ 4294967295) then xce :: to_be 4 (wrap 32 v)
  else xcf :: to_be 8 v.

(** A float is its bits. *)
Definition write_f64 (bits : Z) : bytes := xcb :: to_be 8 bits.

(** [str::parse::<f64>] of the digits of [n] with the point before the last
    [k] of them: the nearest double, the even one of two. The numbers at hand
    have at most 23 digits, so none is subnormal or too large. *)
Definition exponent (n : Z) (k : nat) : Z :=
  let d := Z.log2 n - Z.log2 (10 ^ Z.of_nat k) in
  (if decide (10 ^ Z.of_nat k * 2 ^ Z.max 0 d ≤ n * 2 ^ Z.max 0 (- d)) then d else d - 1) - 52.

Definition significand (n : Z) (k : nat) : Z :=
  let e := exponent n k in
  let num := n * 2 ^ Z.max 0 (- e) in
  let den := 10 ^ Z.of_nat k * 2 ^ Z.max 0 e in
  let q := num / den in
  let r := num mod den in
  if decide (2 * r < den) then q else if decide (den < 2 * r) then q + 1 else if Z.even q then q else q + 1.

(** A significand of 2^53 carries into the exponent by itself. *)
Definition f64_of (n : Z) (k : nat) : Z :=
  if decide (n = 0) then 0 else significand n k - 2 ^ 52 + (exponent n k + 1075) * 2 ^ 52.

Definition digits_of (s : bytes) : Z := foldl (λ a c, a * 10 + (u8 c - 48)) 0 s.

Definition numeric (s : bytes) : bool :=
  bool_decide (s ≠ []) && bool_decide (length s ≤ 19)%nat && forallb is_ascii_digit s &&
  (bool_decide (length s = 1%nat) || negb (starts_with (str "0") s)).

(** One point, digits otherwise, and at least one of these, without which the
    parse fails. *)
Definition decimal (s : bytes) : option Z :=
  if bool_decide (length s ≤ 24)%nat then
    match split_once "."%byte s with
    | Some (a, b) =>
        if forallb is_ascii_digit (a ++ b) && bool_decide (a ++ b ≠ []) then Some (f64_of (digits_of (a ++ b)) (length b)) else None
    | None => None
    end
  else None.

Definition write_auto (s : bytes) : bytes :=
  match (if numeric s then parse_uint u64_max s else None) with
  | Some v => write_uint v
  | None => match decimal s with Some f => write_f64 f | None => write_str s end
  end.

(** [encode_record] *)
Definition encode_record (format : Template) (src : VarSource) (db : option bytes) : bytes :=
  map_header (Z.of_nat (length (vars format) + match db with Some _ => 1 | None => 0 end)) ++
  (match db with Some n => write_str (str "db") ++ write_str n | None => [] end) ++
  mjoin ((λ v, write_str (field_name v) ++ write_auto (src v)) <$> vars format).

(** ** A reader *)

Inductive Val := VUint (v : Z) | VFloat (bits : Z) | VStr (s : bytes).

Definition chop (n : nat) (s : bytes) : option (bytes * bytes) :=
  if decide (n ≤ length s)%nat then Some (take n s, drop n s) else None.

Definition number (n : nat) (s : bytes) : option (Z * bytes) := '(d, r) ← chop n s; Some (from_be d, r).

Definition text (n : nat) (s : bytes) : option (Val * bytes) :=
  '(l, r) ← number n s; '(d, r) ← chop (Z.to_nat l) r; Some (VStr d, r).

Definition read_val (s : bytes) : option (Val * bytes) :=
  match s with
  | [] => None
  | c :: r =>
      let t := u8 c in
      if decide (t < 128) then Some (VUint t, r)
      else if decide (160 ≤ t < 192) then '(d, r) ← chop (Z.to_nat (t - 160)) r; Some (VStr d, r)
      else if decide (t = 203) then '(v, r) ← number 8 r; Some (VFloat v, r)
      else if decide (t = 204) then '(v, r) ← number 1 r; Some (VUint v, r)
      else if decide (t = 205) then '(v, r) ← number 2 r; Some (VUint v, r)
      else if decide (t = 206) then '(v, r) ← number 4 r; Some (VUint v, r)
      else if decide (t = 207) then '(v, r) ← number 8 r; Some (VUint v, r)
      else if decide (t = 217) then text 1 r
      else if decide (t = 218) then text 2 r
      else if decide (t = 219) then text 4 r
      else None
  end.

Definition read_map (s : bytes) : option (Z * bytes) :=
  match s with
  | [] => None
  | c :: r =>
      let t := u8 c in
      if decide (128 ≤ t < 144) then Some (t - 128, r)
      else if decide (t = 222) then number 2 r
      else if decide (t = 223) then number 4 r
      else None
  end.

Fixpoint read_pairs (n : nat) (s : bytes) : option (list (bytes * Val) * bytes) :=
  match n with
  | O => Some ([], s)
  | S n =>
      match read_val s with
      | Some (VStr k, r) => '(v, r) ← read_val r; '(l, r) ← read_pairs n r; Some ((k, v) :: l, r)
      | _ => None
      end
  end.

Definition read_record (s : bytes) : option (list (bytes * Val) * bytes) :=
  '(n, r) ← read_map s; read_pairs (Z.to_nat n) r.

(** What a value of a record stands for *)
Definition value_of (s : bytes) : Val :=
  if numeric s then VUint (digits_of s) else match decimal s with Some f => VFloat f | None => VStr s end.

Definition pairs_of (format : Template) (src : VarSource) (db : option bytes) : list (bytes * Val) :=
  match db with Some n => [(str "db", VStr n)] | None => [] end ++ ((λ v, (field_name v, value_of (src v))) <$> vars format).

(** ** Digits *)

Lemma digit_range c : is_ascii_digit c = true → 48 ≤ u8 c < 58.
Proof. intros H%in_range_true. lia. Qed.

Lemma digits_of_app a b : digits_of (a ++ b) = foldl (λ a c, a * 10 + (u8 c - 48)) (digits_of a) b.
Proof. apply foldl_app. Qed.

Lemma digits_of_snoc a c : digits_of (a ++ [c]) = digits_of a * 10 + (u8 c - 48).
Proof. by rewrite digits_of_app. Qed.

Lemma digits_of_range s : Forall (λ c, is_ascii_digit c = true) s → 0 ≤ digits_of s < 10 ^ Z.of_nat (length s).
Proof.
  induction s as [|c s IH] using rev_ind; [done |]. intros [Hs [Hc _]%Forall_cons]%Forall_app.
  rewrite digits_of_snoc, length_app, Nat.add_comm. cbn [length plus]. rewrite Nat2Z.inj_succ, Z.pow_succ_r by lia.
  apply digit_range in Hc. specialize (IH Hs). lia.
Qed.

Lemma parse_digits_of max s : ∀ a, 0 ≤ a → Forall (λ c, is_ascii_digit c = true) s →
  foldl (λ a c, a * 10 + (u8 c - 48)) a s ≤ max → parse_digits max a s = Some (foldl (λ a c, a * 10 + (u8 c - 48)) a s).
Proof.
  assert (∀ s a, 0 ≤ a → Forall (λ c, is_ascii_digit c = true) s → a ≤ foldl (λ a c, a * 10 + (u8 c - 48)) a s) as Hmono.
  { clear s. induction s as [|c s IH]; intros a Ha Hs; cbn; [lia |]. apply Forall_cons in Hs as [Hc%digit_range Hs].
    etrans; [| apply IH; [lia | done]]. lia. }
  induction s as [|c s IH]; intros a Ha Hs Hm; [done |]. apply Forall_cons in Hs as [Hc Hs]. cbn in Hm |- *. rewrite Hc. apply digit_range in Hc.
  rewrite bool_decide_eq_true_2 by (etrans; [| exact Hm]; apply Hmono; [lia | done]). apply IH; [lia | done | done].
Qed.

Lemma forallb_digits s : forallb is_ascii_digit s = true ↔ Forall (λ c, is_ascii_digit c = true) s.
Proof. rewrite forallb_forall, Forall_forall. by setoid_rewrite list_elem_of_In. Qed.

Lemma numeric_spec s : numeric s = true ↔
  s ≠ [] ∧ (length s ≤ 19)%nat ∧ Forall (λ c, is_ascii_digit c = true) s ∧ (length s = 1%nat ∨ starts_with (str "0") s = false).
Proof. unfold numeric. rewrite !andb_true_iff, orb_true_iff, !bool_decide_eq_true, forallb_digits, negb_true_iff. tauto. Qed.

Lemma numeric_parses s : numeric s = true → parse_uint u64_max s = Some (digits_of s).
Proof.
  intros (Hne & Hl & Hd & _)%numeric_spec. rewrite parse_uint_digits by done. apply parse_digits_of; [lia | done |].
  pose proof (digits_of_range s Hd). assert (10 ^ Z.of_nat (length s) ≤ 10 ^ 19) by (apply Z.pow_le_mono_r; lia). unfold digits_of in *. unfold u64_max. lia.
Qed.

Lemma numeric_bound s : numeric s = true → 0 ≤ digits_of s < 2 ^ 64.
Proof.
  intros (Hne & Hl & Hd & _)%numeric_spec. pose proof (digits_of_range s Hd).
  assert (10 ^ Z.of_nat (length s) ≤ 10 ^ 19) by (apply Z.pow_le_mono_r; lia). lia.
Qed.

(** ** The reader reads back what the encoder wrote *)

Lemma chop_app a b : chop (length a) (a ++ b) = Some (a, b).
Proof. unfold chop. rewrite decide_True by (rewrite length_app; lia). by rewrite take_app_length, drop_app_length. Qed.

Lemma number_to_be n v r : 0 ≤ v < 256 ^ Z.of_nat n → number n (to_be n v ++ r) = Some (v, r).
Proof.
  intros Hv. unfold number. rewrite <-(length_to_be n v) at 1. rewrite chop_app. cbn. by rewrite from_be_to_be_small.
Qed.

Lemma read_text_app n s r : Z.of_nat (length s) < 256 ^ Z.of_nat n → text n (to_be n (Z.of_nat (length s)) ++ s ++ r) = Some (VStr s, r).
Proof. intros Hs. unfold text. rewrite number_to_be by lia. cbn. by rewrite Nat2Z.id, chop_app. Qed.

Lemma wrap_small w z : 0 ≤ z < 2 ^ w → wrap w z = z.
Proof. intros. by apply Z.mod_small. Qed.

Lemma fixmap n : 0 ≤ n < 16 → Z.lor 128 n = 128 + n.
Proof.
  intros Hn. assert (Forall (λ k, Z.lor 128 k = 128 + k) (seqZ 0 16)) as H by (vm_compute; repeat constructor).
  rewrite Forall_forall in H. apply H, elem_of_seqZ. lia.
Qed.

Lemma fixstr n : 0 ≤ n < 32 → Z.lor 160 n = 160 + n.
Proof.
  intros Hn. assert (Forall (λ k, Z.lor 160 k = 160 + k) (seqZ 0 32)) as H by (vm_compute; repeat constructor).
  rewrite Forall_forall in H. apply H, elem_of_seqZ. lia.
Qed.

Lemma read_map_header n r : 0 ≤ n < 2 ^ 32 → read_map (map_header n ++ r) = Some (n, r).
Proof.
  intros Hn. unfold map_header. case_decide; [| case_decide].
  - cbn [app read_map]. rewrite wrap_small, fixmap, u8_of_u8_small by lia. rewrite decide_True by lia. do 2 f_equal. lia.
  - cbn [app read_map]. change (u8 xde) with 222. rewrite decide_False, decide_True by lia. rewrite wrap_small by lia. apply number_to_be. lia.
  - cbn [app read_map]. change (u8 xdf) with 223. do 2 rewrite decide_False by lia. rewrite decide_True by lia. rewrite wrap_small by lia. apply number_to_be. lia.
Qed.

Ltac tag k := cbn [app read_val]; change (u8 k) with ltac:(let z := eval vm_compute in (u8 k) in exact z);
  repeat first [rewrite decide_True by lia | rewrite decide_False by lia].

Lemma read_str s r : Z.of_nat (length s) < 2 ^ 32 → read_val (write_str s ++ r) = Some (VStr s, r).
Proof.
  intros Hs. unfold write_str. rewrite <-app_assoc. repeat case_decide.
  - cbn [app read_val]. rewrite wrap_small, fixstr, u8_of_u8_small by lia. rewrite decide_False, decide_True by lia.
    replace (Z.to_nat (160 + Z.of_nat (length s) - 160)) with (length s) by lia. by rewrite chop_app.
  - tag xd9. rewrite wrap_small by lia. replace (of_u8 (Z.of_nat (length s)) :: s ++ r) with (to_be 1 (Z.of_nat (length s)) ++ s ++ r).
    + apply read_text_app. lia.
    + cbn. by rewrite Z.div_1_r.
  - tag xda. rewrite wrap_small by lia. apply read_text_app. lia.
  - tag xdb. rewrite wrap_small by lia. apply read_text_app. lia.
Qed.

Lemma read_uint v r : 0 ≤ v < 2 ^ 64 → read_val (write_uint v ++ r) = Some (VUint v, r).
Proof.
  intros Hv. unfold write_uint. repeat case_decide.
  - cbn [app read_val]. rewrite wrap_small, u8_of_u8_small by lia. by rewrite decide_True by lia.
  - tag xcc. rewrite wrap_small by lia. replace (of_u8 v :: r) with (to_be 1 v ++ r) by (cbn; by rewrite Z.div_1_r).
    rewrite number_to_be by lia. done.
  - tag xcd. rewrite wrap_small by lia. by rewrite number_to_be by lia.
  - tag xce. rewrite wrap_small by lia. by rewrite number_to_be by lia.
  - tag xcf. by rewrite number_to_be by lia.
Qed.

Lemma read_f64 v r : 0 ≤ v < 2 ^ 64 → read_val (write_f64 v ++ r) = Some (VFloat v, r).
Proof. intros Hv. unfold write_f64. tag xcb. by rewrite number_to_be by lia. Qed.

(** ** Floats *)

(** [n] is at least [d] times two to the [e]. *)
Definition at_least (n d e : Z) : Prop := d * 2 ^ Z.max 0 e ≤ n * 2 ^ Z.max 0 (- e).

Lemma at_least_shift n d e c : 0 ≤ c → 0 ≤ e + c → at_least n d e ↔ d * 2 ^ (e + c) ≤ n * 2 ^ c.
Proof.
  intros H1 H2. unfold at_least.
  assert (2 ^ (e + c) = 2 ^ Z.max 0 e * 2 ^ (c - Z.max 0 (- e))) as -> by (rewrite <-Z.pow_add_r by lia; f_equal; lia).
  assert (2 ^ c = 2 ^ Z.max 0 (- e) * 2 ^ (c - Z.max 0 (- e))) as -> by (rewrite <-Z.pow_add_r by lia; f_equal; lia).
  assert (0 < 2 ^ (c - Z.max 0 (- e))) as Hj by (apply Z.pow_pos_nonneg; lia). rewrite !Z.mul_assoc. by apply Z.mul_le_mono_pos_r.
Qed.

Lemma exponent_spec n k : 0 < n → let d := exponent n k + 52 in at_least n (10 ^ Z.of_nat k) d ∧ ¬ at_least n (10 ^ Z.of_nat k) (d + 1).
Proof.
  intros Hn. unfold exponent. set (D := 10 ^ Z.of_nat k). assert (0 < D) as HD by (apply Z.pow_pos_nonneg; lia).
  pose proof (Z.log2_spec n Hn) as [Ln1 Ln2]. pose proof (Z.log2_spec D HD) as [Ld1 Ld2].
  set (ln := Z.log2 n) in *. set (ld := Z.log2 D) in *. pose proof (Z.log2_nonneg n). pose proof (Z.log2_nonneg D). fold ln in H. fold ld in H0.
  set (c := Z.max 0 (ld - ln) + 1). set (d := ln - ld).
  assert (at_least n D (d - 1)) as Hlo.
  { apply (at_least_shift _ _ _ c); [lia.. |]. transitivity (2 ^ (ld + 1) * 2 ^ (d - 1 + c)).
    - apply Z.mul_le_mono_nonneg_r; [apply Z.pow_nonneg; lia |]. replace (ld + 1) with (Z.succ ld) by lia. lia.
    - rewrite <-Z.pow_add_r by lia. replace (ld + 1 + (d - 1 + c)) with (ln + c) by lia. rewrite Z.pow_add_r by lia.
      apply Z.mul_le_mono_nonneg_r; [apply Z.pow_nonneg; lia | done]. }
  assert (¬ at_least n D (d + 1)) as Hhi.
  { rewrite (at_least_shift _ _ _ c) by lia. apply Z.lt_nge. apply Z.lt_le_trans with (2 ^ (ln + 1) * 2 ^ c).
    - apply Z.mul_lt_mono_pos_r; [apply Z.pow_pos_nonneg; lia |]. replace (ln + 1) with (Z.succ ln) by lia. done.
    - rewrite <-Z.pow_add_r by lia. replace (ln + 1 + c) with (ld + (d + 1 + c)) by lia. rewrite Z.pow_add_r by lia.
      apply Z.mul_le_mono_nonneg_r; [apply Z.pow_nonneg; lia | done]. }
  fold d. case_decide as Hd; cbn zeta.
  - replace (d - 52 + 52) with d by lia. done.
  - replace (d - 1 - 52 + 52) with (d - 1) by lia. replace (d - 1 + 1) with d by lia. done.
Qed.

Lemma significand_spec n k : 0 < n →
  let e := exponent n k in let den := 10 ^ Z.of_nat k * 2 ^ Z.max 0 e in
  2 ^ 52 ≤ significand n k ≤ 2 ^ 53 ∧ 2 * Z.abs (significand n k * den - n * 2 ^ Z.max 0 (- e)) ≤ den.
Proof.
  intros Hn e den. destruct (exponent_spec n k Hn) as [Hlo Hhi]. cbn zeta in Hlo, Hhi. fold e in Hlo, Hhi.
  set (a := Z.max 0 (- e)). set (num := n * 2 ^ a).
  assert (0 < den) as Hden by (apply Z.mul_pos_pos; apply Z.pow_pos_nonneg; lia).
  assert (2 ^ 52 * den ≤ num) as H1.
  { apply (at_least_shift _ _ _ a) in Hlo; [| lia..]. replace (e + 52 + a) with (Z.max 0 e + 52) in Hlo by lia.
    rewrite Z.pow_add_r in Hlo by lia. unfold den, num. lia. }
  assert (num < 2 ^ 53 * den) as H2.
  { rewrite (at_least_shift _ _ _ a) in Hhi by lia. replace (e + 52 + 1 + a) with (Z.max 0 e + 53) in Hhi by lia.
    rewrite Z.pow_add_r in Hhi by lia. unfold den, num. lia. }
  unfold significand. fold e. fold a. fold num. fold den.
  pose proof (Z.div_mod num den ltac:(lia)) as Hdm. pose proof (Z.mod_pos_bound num den Hden) as Hr.
  assert (2 ^ 52 ≤ num / den) by (apply Z.div_le_lower_bound; lia).
  assert (num / den < 2 ^ 53) by (apply Z.div_lt_upper_bound; lia).
  set (q := num / den) in *. set (r := num mod den) in *. clearbody q r.
  repeat case_decide; [| | destruct (Z.even q)]; (split; [lia |]).
  - replace (q * den - num) with (- r) by lia. lia.
  - replace ((q + 1) * den - num) with (den - r) by lia. lia.
  - replace (q * den - num) with (- r) by lia. lia.
  - replace ((q + 1) * den - num) with (den - r) by lia. lia.
Qed.

Lemma exponent_range n k : 0 < n < 10 ^ 24 → (k ≤ 24)%nat → -140 ≤ exponent n k ≤ 40.
Proof.
  intros Hn Hk. unfold exponent.
  assert (0 ≤ Z.log2 n ≤ 80) as Hl by (split; [apply Z.log2_nonneg |]; etrans; [apply Z.log2_le_mono, Z.lt_le_incl, Hn | by vm_compute]).
  assert (0 ≤ Z.log2 (10 ^ Z.of_nat k) ≤ 80) as Hd.
  { split; [apply Z.log2_nonneg |]. etrans; [apply Z.log2_le_mono, (Z.pow_le_mono_r 10 _ 24); lia | by vm_compute]. }
  case_decide; lia.
Qed.

Lemma f64_of_range n k : 0 ≤ n < 10 ^ 24 → (k ≤ 24)%nat → 0 ≤ f64_of n k < 2 ^ 64.
Proof.
  intros Hn Hk. unfold f64_of. case_decide; [lia |].
  destruct (significand_spec n k ltac:(lia)) as [Hs _]. pose proof (exponent_range n k ltac:(lia) Hk). lia.
Qed.

(** A decimal number is sent as the double nearest to it: no other is nearer,
    for the distance is at most half of the last place. *)
Theorem float_is_nearest n k c : 0 < n < 10 ^ 24 → (k ≤ 24)%nat →
  let bits := f64_of n k in
  let m := 2 ^ 52 + bits mod 2 ^ 52 in
  let e := bits / 2 ^ 52 - 1075 in
  0 ≤ c → 0 ≤ e + c →
  0 < bits / 2 ^ 52 < 2047 ∧ 2 * Z.abs (m * 10 ^ Z.of_nat k * 2 ^ (e + c) - n * 2 ^ c) ≤ 10 ^ Z.of_nat k * 2 ^ (e + c).
Proof.
  intros Hn Hk bits m e Hc He. destruct (significand_spec n k ltac:(lia)) as [Hs Herr].
  pose proof (exponent_range n k Hn Hk) as Hx. set (x := exponent n k) in *. set (s := significand n k) in *.
  assert (bits = s - 2 ^ 52 + (x + 1075) * 2 ^ 52) as Hb by (unfold bits, f64_of; rewrite decide_False by lia; done).
  assert ((s < 2 ^ 53 ∧ m = s ∧ e = x) ∨ (s = 2 ^ 53 ∧ m = 2 ^ 52 ∧ e = x + 1)) as Hcase.
  { destruct (decide (s = 2 ^ 53)) as [E|E]; [right | left]; (split; [lia |]).
    - assert (bits = (x + 1076) * 2 ^ 52) as Hb' by lia. unfold m, e. rewrite Hb', Z.mod_mul, Z.div_mul by lia. lia.
    - unfold m, e. rewrite Hb, Z.mod_add, Z.div_add, Z.mod_small, Z.div_small by lia. lia. }
  split; [unfold e in Hcase; lia |].
  set (D := 10 ^ Z.of_nat k) in *. assert (0 < D) as HD by (apply Z.pow_pos_nonneg; lia).
  assert (0 ≤ x + (c + 1)) by lia.
  assert (2 * Z.abs (s * D * 2 ^ (x + (c + 1)) - n * 2 ^ (c + 1)) ≤ D * 2 ^ (x + (c + 1))) as Hscaled.
  { set (j := c + 1 - Z.max 0 (- x)). replace (x + (c + 1)) with (Z.max 0 x + j) by lia. replace (c + 1) with (Z.max 0 (- x) + j) by lia.
    rewrite !Z.pow_add_r by lia. assert (0 < 2 ^ j) as Hj by (apply Z.pow_pos_nonneg; lia).
    replace (s * D * (2 ^ Z.max 0 x * 2 ^ j) - n * (2 ^ Z.max 0 (- x) * 2 ^ j)) with ((s * (D * 2 ^ Z.max 0 x) - n * 2 ^ Z.max 0 (- x)) * 2 ^ j) by lia.
    rewrite Z.abs_mul, (Z.abs_eq (2 ^ j)) by lia. nia. }
  rewrite (Z.pow_add_r 2 c 1) in Hscaled by lia. change (2 ^ 1) with 2 in Hscaled.
  destruct Hcase as [(_ & -> & ->)|(Hs53 & -> & ->)].
  - replace (x + (c + 1)) with (x + c + 1) in Hscaled by lia. rewrite Z.pow_add_r in Hscaled by lia. change (2 ^ 1) with 2 in Hscaled.
    replace (s * D * (2 ^ (x + c) * 2) - n * (2 ^ c * 2)) with ((s * D * 2 ^ (x + c) - n * 2 ^ c) * 2) in Hscaled by lia.
    rewrite Z.abs_mul in Hscaled. change (Z.abs 2) with 2 in Hscaled. lia.
  - replace (x + 1 + c) with (x + (c + 1)) by lia. rewrite Hs53 in Hscaled.
    replace (2 ^ 53 * D * 2 ^ (x + (c + 1)) - n * (2 ^ c * 2)) with ((2 ^ 52 * D * 2 ^ (x + (c + 1)) - n * 2 ^ c) * 2) in Hscaled by lia.
    rewrite Z.abs_mul in Hscaled. change (Z.abs 2) with 2 in Hscaled. assert (0 ≤ D * 2 ^ (x + (c + 1))) by (apply Z.mul_nonneg_nonneg; [lia | apply Z.pow_nonneg; lia]). lia.
Qed.

(** ** Records *)

Lemma decimal_range s f : decimal s = Some f → 0 ≤ f < 2 ^ 64.
Proof.
  unfold decimal. case_bool_decide as Hl; [|done]. destruct (split_once _ s) as [[a b]|] eqn:Es; [|done].
  destruct (forallb is_ascii_digit (a ++ b)) eqn:Hd; [|done]. case_bool_decide; [|done]. cbn [andb]. intros [= <-].
  apply forallb_digits in Hd. apply digits_of_range in Hd. apply split_once_Some_inv in Es as [-> _].
  rewrite length_app in Hl. cbn [length] in Hl. rewrite length_app in Hd.
  apply f64_of_range; [| lia]. split; [lia |]. eapply Z.lt_le_trans; [apply Hd |]. apply Z.pow_le_mono_r; lia.
Qed.

Lemma read_auto s r : Z.of_nat (length s) < 2 ^ 32 → read_val (write_auto s ++ r) = Some (value_of s, r).
Proof.
  intros Hs. unfold write_auto, value_of. destruct (numeric s) eqn:En.
  - rewrite numeric_parses by done. apply read_uint. by apply numeric_bound.
  - destruct (decimal s) as [f|] eqn:Ed; [| by apply read_str]. apply read_f64. by eapply decimal_range.
Qed.

(** A record is read back as its fields, in the order of the format, the name
    of the database first, and nothing past its end is touched. *)
Theorem record_reads_back format src db rest :
  Z.of_nat (length (vars format)) < 2 ^ 32 - 1 →
  (∀ n, db = Some n → Z.of_nat (length n) < 2 ^ 32) →
  (∀ v, v ∈ vars format → Z.of_nat (length (field_name v)) < 2 ^ 32 ∧ Z.of_nat (length (src v)) < 2 ^ 32) →
  read_record (encode_record format src db ++ rest) = Some (pairs_of format src db, rest).
Proof.
  intros Hn Hdb Hv. unfold encode_record, read_record. rewrite <-!app_assoc, read_map_header by (destruct db; lia).
  assert (∀ l rest, (∀ v, v ∈ l → v ∈ vars format) →
    read_pairs (length l) (mjoin ((λ v, write_str (field_name v) ++ write_auto (src v)) <$> l) ++ rest) =
      Some ((λ v, (field_name v, value_of (src v))) <$> l, rest)) as Hl.
  { clear rest. induction l as [|v l IH]; intros rest Hin; [done |]. cbn [length read_pairs fmap list_fmap mjoin list_join].
    destruct (Hv v (Hin v ltac:(by left))) as [H1 H2]. rewrite <-!app_assoc, read_str by done. cbn [mbind option_bind]. rewrite read_auto by done.
    cbn [mbind option_bind]. rewrite IH; [done |]. intros u Hu. apply Hin. by right. }
  cbn [mbind option_bind]. rewrite Nat2Z.id. destruct db as [n|].
  - rewrite Nat.add_comm. cbn [plus read_pairs]. rewrite <-!app_assoc, read_str by done. rewrite read_str by (by apply Hdb).
    cbn [mbind option_bind]. by rewrite Hl.
  - rewrite Nat.add_0_r. cbn [app]. by apply Hl.
Qed.

Lemma digits_go_of s : ∀ fuel acc, (length s ≤ fuel)%nat → Forall (λ c, is_ascii_digit c = true) s → starts_with (str "0") s = false →
  digits_go fuel (digits_of s) acc = s ++ acc.
Proof.
  induction s as [|c s IH] using rev_ind; intros fuel acc Hf Hd H0; [by destruct fuel |].
  apply Forall_app in Hd as [Hd [Hc _]%Forall_cons]. apply digit_range in Hc. rewrite length_app, Nat.add_comm in Hf. cbn [length plus] in Hf.
  destruct fuel as [|fuel]; [lia |]. cbn [digits_go]. rewrite digits_of_snoc.
  pose proof (digits_of_range s Hd) as Hr.
  assert (0 < digits_of s * 10 + (u8 c - 48)) as Hpos.
  { destruct s as [|c0 s0].
    - cbn in H0. destruct (decide (u8 c = 48)) as [E|E]; [| cbn; lia]. exfalso.
      assert (c = "0"%byte) as -> by (apply u8_inj; done). by vm_compute in H0.
    - assert (c0 ≠ "0"%byte) as Hc0 by (intros ->; cbn in H0; by destruct s0).
      apply Forall_cons in Hd as [Hd0%digit_range Hd].
      assert (u8 c0 ≠ 48) by (intros E; apply Hc0, u8_inj; done).
      assert (1 ≤ digits_of (c0 :: s0)); [| lia].
      change (digits_of (c0 :: s0)) with (foldl (λ a c, a * 10 + (u8 c - 48)) (0 * 10 + (u8 c0 - 48)) s0).
      assert (∀ l a, 1 ≤ a → Forall (λ c, is_ascii_digit c = true) l → 1 ≤ foldl (λ a c, a * 10 + (u8 c - 48)) a l) as Hm.
      { clear. induction l as [|x l IH]; intros a Ha Hl; cbn; [done |]. apply Forall_cons in Hl as [Hx%digit_range Hl]. apply IH; [lia | done]. }
      apply Hm; [lia | done]. }
  rewrite bool_decide_eq_true_2 by done. rewrite Z.div_add_l, Z.div_small, Z.add_0_r by lia.
  rewrite (Z.add_comm (digits_of s * 10)), Z.mod_add, Z.mod_small by lia. replace (48 + (u8 c - 48)) with (u8 c) by lia. rewrite of_u8_u8.
  rewrite <-app_assoc. apply IH; [lia | done |].
  destruct s as [|c0 s0]; [done |]. unfold starts_with in *. change (str "0") with ["0"%byte] in *. cbn [strip_prefix app] in *. by case_decide.
Qed.

(** A field sent as a number was that number's digits: nothing of the text is
    lost; and every number the server writes is sent as one, up to nineteen
    digits. *)
Theorem integers_keep_their_text s n : value_of s = VUint n → s = fmt_u64 n ∧ 0 ≤ n < 10 ^ 19.
Proof.
  unfold value_of. destruct (numeric s) eqn:En; [| by destruct (decimal s)]. intros [= <-].
  apply numeric_spec in En as (Hne & Hl & Hd & H0). pose proof (digits_of_range s Hd) as Hr. split.
  - unfold fmt_u64. destruct H0 as [H1|H0].
    + destruct s as [|c [|]]; try done. pose proof Hd as Hd'. apply Forall_cons in Hd' as [Hc%digit_range _].
      assert (digits_of [c] = u8 c - 48) as -> by (unfold digits_of; cbn [foldl]; lia). case_bool_decide as Hz.
      * assert (c = "0"%byte) as -> by (apply u8_inj; change (u8 "0"%byte) with 48; lia). done.
      * assert (starts_with (str "0") [c] = false) as H0.
        { unfold starts_with. change (str "0") with ["0"%byte]. cbn [strip_prefix]. case_decide as E; [| done]. exfalso. apply Hz. rewrite <-E. done. }
        assert (digits_of [c] = u8 c - 48) as <- by (unfold digits_of; cbn [foldl]; lia). by rewrite digits_go_of, app_nil_r by (done || (cbn [length]; lia)).
    + case_bool_decide as Hz.
      * exfalso. pose proof (digits_go_of s 20 [] ltac:(lia) Hd H0) as Hg. rewrite Hz in Hg. cbn in Hg. by rewrite app_nil_r in Hg; subst s.
      * by rewrite digits_go_of, app_nil_r by (done || lia).
  - split; [lia |]. eapply Z.lt_le_trans; [apply Hr |]. apply Z.pow_le_mono_r; lia.
Qed.

(** What is only close to a number is sent as text. *)
Example texts_stay_texts :
  value_of (str "127.0.0.1") = VStr (str "127.0.0.1") ∧ value_of (str "007") = VStr (str "007") ∧ value_of (str "1.2.3") = VStr (str "1.2.3") ∧
  value_of [] = VStr [] ∧ value_of (str "12a") = VStr (str "12a") ∧ value_of (str ".") = VStr (str ".") ∧
  value_of (str "0.125") = VFloat 0x3fc0000000000000 ∧ value_of (str "404") = VUint 404 ∧ value_of (str "0") = VUint 0.
Proof. split_and!; vm_compute; reflexivity. Qed.

Lemma float_is_nearest_witness : 2 * Z.abs ((2 ^ 52 + f64_of 1 1 mod 2 ^ 52) * 10 ^ 1 * 2 ^ (-56 + 56) - 1 * 2 ^ 56) ≤ 10 ^ 1 * 2 ^ (-56 + 56).
Proof. exact (proj2 (float_is_nearest 1 1 56 ltac:(lia) ltac:(lia) ltac:(lia) ltac:(vm_compute; congruence))). Defined.

Definition sample_format : Template := mkTemplate [SVar Var.Status; Lit (str " "); SVar Var.RequestTime] None.

Lemma record_reads_back_witness :
  read_record (encode_record sample_format (λ v, match v with Var.Status => str "404" | _ => str "0.125" end) (Some (str "logs")) ++ str "x") =
  Some ([(str "db", VStr (str "logs")); (str "status", VUint 404); (str "request_time", VFloat 0x3fc0000000000000)], str "x").
Proof.
  refine (record_reads_back sample_format _ (Some (str "logs")) (str "x") _ _ _); [vm_compute; done | intros n [= <-]; vm_compute; done |].
  intros v Hv. vm_compute in Hv. repeat (apply elem_of_cons in Hv as [->|Hv]; [vm_compute; done |]). by apply not_elem_of_nil in Hv.
Defined.

Lemma integers_keep_their_text_witness : value_of (str "404") = VUint 404 ∧ str "404" = fmt_u64 404.
Proof. split; [reflexivity | exact (proj1 (integers_keep_their_text (str "404") 404 eq_refl))]. Defined.
