(* ===== verification/Log.v ===== *)
(** * [src/server/log.rs]: access and error logs

    A sink buffers lines and writes them to a file it holds open; the files
    are shared by the worker processes, which append to them, and renamed by
    whoever rotates them. A file is the list of the writes made to it, each
    with the worker that made it and what the disk took of it. *)
From S2P Require Import Prelude.
From S2P Require Import Text.
From S2P Require Import Vars.
From S2P Require Import Matching.
From S2P Require Import Model.
From S2P Require Import Ast.
From S2P Require Import Args.
From S2P Require Import Level.
From S2P Require Import Build.
From S2P Require Import Ctx.
From S2P Require Import Msgpack.

Open Scope oxi_scope.
Open Scope Z_scope.

(** ** Files *)

Definition Worker : Type := nat.

(** The names of a directory tree; the files, which outlive their names; and
    what will become of the writes to come, in their order: whole, or with an
    error behind so many bytes. Behind the end of the list writes are whole. *)
Record FS := mkFS { dir : list (bytes * nat); files : list (list (Worker * bytes)); disk : list (option nat) }.

Definition node (fs : FS) (p : bytes) : option nat := snd <$> (list_find (λ e, fst e = p) (dir fs) ≫= λ i, Some (snd i)).

(** [OpenOptions::new().create(true).append(true).open(path)] *)
Definition open_append (can_open : bytes → bool) (fs : FS) (p : bytes) : option nat * FS :=
  if can_open p then
    match node fs p with
    | Some i => (Some i, fs)
    | None => (Some (length (files fs)), mkFS ((p, length (files fs)) :: dir fs) (files fs ++ [[]]) (disk fs))
    end
  else (None, fs).

(** What the disk takes of the next write *)
Definition taken (fs : FS) (d : bytes) : bytes := match disk fs with Some n :: _ => take n d | _ => d end.

(** [write_all], of which every caller drops the error *)
Definition append (w : Worker) (i : nat) (d : bytes) (fs : FS) : FS :=
  mkFS (dir fs) (alter (λ f, f ++ [(w, taken fs d)]) i (files fs)) (tail (disk fs)).

(** [rename], by whoever rotates the logs *)
Definition rename (p q : bytes) (fs : FS) : FS :=
  match node fs p with
  | Some i => mkFS ((q, i) :: filter (λ e, fst e ≠ p ∧ fst e ≠ q) (dir fs)) (files fs) (disk fs)
  | None => fs
  end.

(** ** Sinks *)

(** [Sink]; [Vec::with_capacity] has no effect on what is written. *)
Record Sink := mkSink { s_file : nat; s_buf : bytes; s_cap : Z; flush_every : option Z; last_flush : Z; s_path : bytes }.

Section log.
  Context (can_open : bytes → bool) (w : Worker).

Definition sink_open (now : Z) (p : bytes) (cap : Z) (flush : option Z) (fs : FS) : option Sink * FS :=
  let '(i, fs) := open_append can_open fs p in ((λ i, mkSink i [] cap flush now p) <$> i, fs).

Definition flush (now : Z) (fs : FS) (s : Sink) : FS * Sink :=
  (if decide (s_buf s = []) then fs else append w (s_file s) (s_buf s) fs,
   mkSink (s_file s) [] (s_cap s) (flush_every s) now (s_path s)).

Definition reopen (now : Z) (fs : FS) (s : Sink) : FS * Sink :=
  let '(fs, s) := flush now fs s in
  let '(i, fs) := open_append can_open fs (s_path s) in
  (fs, match i with Some i => mkSink i (s_buf s) (s_cap s) (flush_every s) (last_flush s) (s_path s) | None => s end).

Definition write_line (now : Z) (line : bytes) (fs : FS) (s : Sink) : FS * Sink :=
  if decide (s_cap s = 0) then
    (append w (s_file s) (line ++ [x0a]) fs, mkSink (s_file s) [] (s_cap s) (flush_every s) (last_flush s) (s_path s))
  else
    let s := mkSink (s_file s) (s_buf s ++ line ++ [x0a]) (s_cap s) (flush_every s) (last_flush s) (s_path s) in
    if decide (s_cap s ≤ Z.of_nat (length (s_buf s))) then flush now fs s else (fs, s).

Definition flush_if_due (now : Z) (fs : FS) (s : Sink) : FS * Sink :=
  match flush_every s with
  | Some every => if decide (s_buf s ≠ [] ∧ every ≤ now - last_flush s) then flush now fs s else (fs, s)
  | None => (fs, s)
  end.

(** ** [Logs] *)

(** The maps of open sinks, in the order their tables have; [asked] is
    [REOPEN_LOGS], of which a process has one. *)
Record Logs := mkLogs { access_sinks : list Sink; dropped : list (bytes * Z); error_sink : option Sink; error_level : LogLevel; error_to_stderr : bool; asked : bool }.

Definition level_rank (l : LogLevel) : Z :=
  match l with LDebug => 0 | LInfo => 1 | LNotice => 2 | LWarn => 3 | LError => 4 | LCrit => 5 | LAlert => 6 | LEmerg => 7 end.

(** [LogLevel::as_str] *)
Definition level_name (l : LogLevel) : bytes :=
  match l with
  | LDebug => str "debug" | LInfo => str "info" | LNotice => str "notice" | LWarn => str "warn"
  | LError => str "error" | LCrit => str "crit" | LAlert => str "alert" | LEmerg => str "emerg"
  end.

Definition logs_new (now : Z) (e : ErrorLogConf) (fs : FS) : Logs * FS :=
  let to_stderr := bool_decide (el_path e = str "stderr" ∨ el_path e = str "/dev/stderr") in
  let '(s, fs) := if el_disabled e || to_stderr then (None, fs) else sink_open now (el_path e) 0 None fs in
  (mkLogs [] [] s (el_level e) (negb (el_disabled e) && bool_decide (s = None)) false, fs).

Definition sink_at (p : bytes) (l : Logs) : option (nat * Sink) := list_find (λ s, s_path s = p) (access_sinks l).

(** [bound] says whether a socket for the collector can be had. *)
Definition open_one (bound : bytes → bool) (now : Z) (c : AccessLogConf) (st : FS * Logs) : FS * Logs :=
  let '(fs, l) := st in
  match al_sink c with
  | LogFile p =>
      match sink_at p l with
      | Some _ => (fs, l)
      | None =>
          match sink_open now p (al_buffer c) (al_flush c) fs with
          | (Some s, fs) => (fs, mkLogs (access_sinks l ++ [s]) (dropped l) (error_sink l) (error_level l) (error_to_stderr l) (asked l))
          | (None, fs) => (fs, l)
          end
      end
  | OxiDb a _ =>
      if bool_decide (a ∈ fst <$> dropped l) then (fs, l)
      else if bound a then (fs, mkLogs (access_sinks l) (dropped l ++ [(a, 0)]) (error_sink l) (error_level l) (error_to_stderr l) (asked l))
      else (fs, l)
  end.
Definition open_access (bound : bytes → bool) (now : Z) (confs : list AccessLogConf) (st : FS * Logs) : FS * Logs :=
  foldl (λ st c, open_one bound now c st) st confs.

(** A loop over the sinks *)
Fixpoint sweep (f : FS → Sink → FS * Sink) (fs : FS) (l : list Sink) : FS * list Sink :=
  match l with
  | [] => (fs, [])
  | s :: l => let '(fs, s) := f fs s in let '(fs, l) := sweep f fs l in (fs, s :: l)
  end.

Definition sweep_access (f : FS → Sink → FS * Sink) (fs : FS) (l : Logs) : FS * Logs :=
  let '(fs, ss) := sweep f fs (access_sinks l) in
  (fs, mkLogs ss (dropped l) (error_sink l) (error_level l) (error_to_stderr l) (asked l)).

Definition on_error_sink (f : FS → Sink → FS * Sink) (fs : FS) (l : Logs) : FS * Logs :=
  match error_sink l with
  | Some s => let '(fs, s) := f fs s in (fs, mkLogs (access_sinks l) (dropped l) (Some s) (error_level l) (error_to_stderr l) (asked l))
  | None => (fs, l)
  end.

Definition set_asked (b : bool) (l : Logs) : Logs :=
  mkLogs (access_sinks l) (dropped l) (error_sink l) (error_level l) (error_to_stderr l) b.

Definition reopen_if_asked (now : Z) (fs : FS) (l : Logs) : FS * Logs :=
  if asked l then
    let '(fs, l) := sweep_access (reopen now) fs (set_asked false l) in on_error_sink (reopen now) fs l
  else (fs, l).

Definition access (now : Z) (path line : bytes) (fs : FS) (l : Logs) : FS * Logs :=
  let '(fs, l) := reopen_if_asked now fs l in
  match sink_at path l with
  | Some (i, s) =>
      let '(fs, s) := write_line now line fs s in
      (fs, mkLogs (<[i := s]> (access_sinks l)) (dropped l) (error_sink l) (error_level l) (error_to_stderr l) (asked l))
  | None => (fs, l)
  end.

(** [sent] is what the kernel says of the datagram. *)
Definition access_oxidb (addr : bytes) (sent : bool) (l : Logs) : Logs :=
  match list_find (λ d, fst d = addr) (dropped l) with
  | Some (i, (a, n)) =>
      mkLogs (access_sinks l) (if sent then dropped l else <[i := (a, Z.min (n + 1) u64_max)]> (dropped l))
        (error_sink l) (error_level l) (error_to_stderr l) (asked l)
  | None => l
  end.

(** [error]; the line with its time, level and process, and what it puts on
    the standard error instead *)
Definition error (now : Z) (time pid : bytes) (level : LogLevel) (msg : bytes) (fs : FS) (l : Logs) : FS * Logs * list bytes :=
  let '(fs, l) := reopen_if_asked now fs l in
  if decide (level_rank level < level_rank (error_level l)) then (fs, l, [])
  else
    let line := time ++ str " [" ++ level_name level ++ str "] " ++ pid ++ str ": " ++ msg in
    match error_sink l with
    | Some _ => (on_error_sink (write_line now line) fs l, [])
    | None => (fs, l, if error_to_stderr l then [line] else [])
    end.

Definition flush_due (now : Z) (fs : FS) (l : Logs) : FS * Logs := sweep_access (flush_if_due now) fs l.

(** [flush_all], and the [Drop] of [Logs] *)
Definition flush_all (now : Z) (fs : FS) (l : Logs) : FS * Logs :=
  let '(fs, l) := sweep_access (flush now) fs l in on_error_sink (flush now) fs l.
End log.

(** ** Lines *)

Definition unlines (ls : list bytes) : bytes := mjoin ((λ l, l ++ [x0a]) <$> ls).

Lemma unlines_app a b : unlines (a ++ b) = unlines a ++ unlines b.
Proof. unfold unlines. by rewrite fmap_app, join_app. Qed.

Lemma unlines_one l : unlines [l] = l ++ [x0a].
Proof. unfold unlines. cbn. by rewrite app_nil_r. Qed.

Lemma unlines_nil ls : unlines ls = [] ↔ ls = [].
Proof. split; [| by intros ->]. destruct ls as [|l ls]; [done |]. unfold unlines. cbn. by destruct l. Qed.

Section lines.
  Context (can_open : bytes → bool) (w : Worker).

(** The writes this worker has made, whatever the file *)
Definition own (fs : FS) : list bytes := snd <$> filter (λ x, fst x = w) (mjoin (files fs)).

Lemma own_append u i d fs : (i < length (files fs))%nat → own (append u i d fs) ≡ₚ own fs ++ (if decide (u = w) then [taken fs d] else []).
Proof.
  intros Hi. unfold own, append. cbn [files].
  set (x := taken fs d). assert (mjoin (alter (λ f, f ++ [(u, x)]) i (files fs)) ≡ₚ mjoin (files fs) ++ [(u, x)]) as ->.
  { destruct (lookup_lt_is_Some_2 (files fs) i Hi) as [f Hf]. rewrite <-(take_drop_middle (files fs) i f Hf) at 1 2.
    rewrite alter_app_r_alt by (rewrite length_take; lia). rewrite length_take, Nat.min_l, Nat.sub_diag by lia. cbn.
    rewrite !join_app. cbn. solve_Permutation. }
  rewrite filter_app, fmap_app, filter_cons, filter_nil. cbn [fst]. by case_decide.
Qed.

Lemma length_append u i d fs : length (files (append u i d fs)) = length (files fs).
Proof. unfold append. cbn. apply length_alter. Qed.

Lemma open_append_spec p fs : let '(i, fs') := open_append can_open fs p in
  own fs' = own fs ∧ disk fs' = disk fs ∧ (length (files fs) ≤ length (files fs'))%nat ∧
  (Forall (λ e, snd e < length (files fs))%nat (dir fs) → Forall (λ e, snd e < length (files fs'))%nat (dir fs') ∧ ∀ j, i = Some j → (j < length (files fs'))%nat ∧ node fs' p = Some j).
Proof.
  unfold open_append. destruct (can_open p); [| by split_and!; [.. | intros H; split]].
  destruct (node fs p) as [i|] eqn:En.
  - split_and!; [done | done | done |]. intros H. split; [done |]. intros j [= <-]. split; [| done].
    unfold node in En. destruct (list_find _ (dir fs)) as [[k [q m]]|] eqn:E; [| done]. cbn in En. injection En as ->.
    apply list_find_Some in E as (E & _). rewrite Forall_forall in H. apply (H (q, i)). by eapply list_elem_of_lookup_2.
  - split_and!.
    + unfold own. cbn [files]. rewrite join_app. cbn. by rewrite app_nil_r.
    + done.
    + cbn. rewrite length_app. lia.
    + intros H. cbn [dir files]. rewrite length_app. cbn [length]. split.
      * constructor; [cbn; lia |]. eapply Forall_impl; [exact H |]. cbn. lia.
      * intros j [= <-]. split; [lia |]. unfold node. cbn. by rewrite decide_True.
Qed.

(** What an operation does with what it was given: it writes whole runs of
    lines, and what it does not write it keeps, in order. *)
Definition files_ok (fs : FS) : Prop := Forall (λ e, snd e < length (files fs))%nat (dir fs).

(** What came of the writes of these runs of lines: the runs, each to where the
    disk failed, and so all of it where it does not. *)
Definition came_of (fs : FS) (cut : list bytes) (out : list (list bytes)) : Prop :=
  Forall2 (λ d ls, d `prefix_of` unlines ls) cut out ∧ (disk fs = [] → cut = unlines <$> out).

Lemma came_of_nil fs : came_of fs [] [].
Proof. by split. Qed.

Lemma came_of_one fs ls : came_of fs [taken fs (unlines ls)] [ls].
Proof.
  split; [| intros H; unfold taken; by rewrite H]. constructor; [| done]. unfold taken.
  destruct (disk fs) as [|[n|] l]; [done | apply prefix_take | done].
Qed.

Lemma came_of_app fs fs' a b x y : (disk fs = [] → disk fs' = []) → came_of fs a x → came_of fs' b y → came_of fs (a ++ b) (x ++ y).
Proof. intros Hd [H1 H2] [H3 H4]. split; [by apply Forall2_app |]. intros E. rewrite fmap_app, H2, H4; auto. Qed.

Definition keeps (new : list bytes) (f : FS → Sink → FS * Sink) : Prop :=
  ∀ fs s held, files_ok fs → (s_file s < length (files fs))%nat → s_buf s = unlines held → (s_cap s = 0 → held = []) →
  let '(fs', s') := f fs s in
  ∃ out cut held', own fs' ≡ₚ own fs ++ cut ∧ came_of fs cut out ∧ (disk fs = [] → disk fs' = []) ∧ s_buf s' = unlines held' ∧ mjoin out ++ held' = held ++ new ∧
    files_ok fs' ∧ (length (files fs) ≤ length (files fs'))%nat ∧ (s_file s' < length (files fs'))%nat ∧ s_cap s' = s_cap s ∧ s_path s' = s_path s ∧
    (s_cap s = 0 → held' = []).

Lemma files_ok_append u i d fs : files_ok fs → files_ok (append u i d fs).
Proof. unfold files_ok. by rewrite length_append. Qed.

Lemma flush_keeps now : keeps [] (flush w now).
Proof.
  intros fs s held Hfs Hi Hb Hz. unfold flush. case_decide as He.
  - exists [], [], held. cbn. rewrite !app_nil_r. split_and!; try done. by rewrite <-Hb, He.
  - exists [held], [taken fs (s_buf s)], []. rewrite Hb. split; [by rewrite own_append, decide_True |]. split; [apply came_of_one |]. split; [by cbn; intros -> |]. cbn [s_buf s_file s_cap s_path fmap list_fmap mjoin list_join]. rewrite !app_nil_r, length_append.
    split_and!; try done. by apply files_ok_append.
Qed.

Lemma keeps_nil : keeps [] (λ fs s, (fs, s)).
Proof. intros fs s held Hfs Hi Hb Hz. exists [], [], held. cbn. rewrite !app_nil_r. by split_and!. Qed.

Lemma flush_if_due_keeps now : keeps [] (flush_if_due w now).
Proof.
  intros fs s held Hfs Hi Hb Hz. unfold flush_if_due. destruct (flush_every s); [case_decide |]; [by apply flush_keeps | by apply keeps_nil | by apply keeps_nil].
Qed.

Lemma reopen_keeps now : keeps [] (reopen can_open w now).
Proof.
  intros fs s held Hfs Hi Hb Hz. unfold reopen. pose proof (flush_keeps now fs s held Hfs Hi Hb Hz) as Hf.
  destruct (flush w now fs s) as [fs1 s1]. destruct Hf as (out & cut & held' & Ho & Hcut & Hd & Hb1 & Hm & Hf1 & Hl1 & Hi1 & Hc & Hp & H0).
  pose proof (open_append_spec (s_path s1) fs1) as H. destruct (open_append can_open fs1 (s_path s1)) as [i fs2].
  destruct H as (Hown & Hdk & Hl & Hok). destruct (Hok Hf1) as [Hf2 Hj]. exists out, cut, held'. rewrite Hown, Hdk. destruct i as [i|]; cbn.
  - destruct (Hj i eq_refl) as [Hlt _]. split_and!; try done; lia.
  - split_and!; try done; lia.
Qed.

Lemma write_line_keeps now line : keeps [line] (write_line w now line).
Proof.
  intros fs s held Hfs Hi Hb Hz. unfold write_line. case_decide as Hc.
  - rewrite (Hz Hc) in Hb |- *. exists [[line]], [taken fs (line ++ [x0a])], [].
    split; [by rewrite own_append, decide_True |]. split; [rewrite <-unlines_one; apply came_of_one |]. split; [by cbn; intros -> |].
    cbn [s_buf s_file s_cap s_path fmap list_fmap mjoin list_join app]. rewrite length_append. split_and!; try done. by apply files_ok_append.
  - assert (s_buf s ++ line ++ [x0a] = unlines (held ++ [line])) as Hb' by (by rewrite unlines_app, unlines_one, Hb).
    case_decide.
    + pose proof (flush_keeps now fs (mkSink (s_file s) (s_buf s ++ line ++ [x0a]) (s_cap s) (flush_every s) (last_flush s) (s_path s)) (held ++ [line]) Hfs Hi Hb' (λ E, False_ind _ (Hc E))) as Hf.
      destruct (flush w now fs _) as [fs1 s1]. destruct Hf as (out & cut & held' & H1). exists out, cut, held'. rewrite app_nil_r in H1. exact H1.
    + exists [], [], (held ++ [line]). cbn. rewrite !app_nil_r. by split_and!.
Qed.

(** ** The logs of a worker *)

Definition buffers (l : Logs) : list Sink := access_sinks l ++ option_list (error_sink l).

(** The lines logged are those of the writes, what came of these being in the
    files, and those in the buffers. *)
Context (fs0 : FS).
Definition books (fs : FS) (sinks : list Sink) (logged : list bytes) : Prop :=
  files_ok fs ∧ (disk fs0 = [] → disk fs = []) ∧ ∃ (wrote : list (list bytes)) (cut : list bytes) (held : list (list bytes)),
    own fs ≡ₚ cut ∧ came_of fs0 cut wrote ∧
    Forall2 (λ s h, (s_file s < length (files fs))%nat ∧ s_buf s = unlines h ∧ (s_cap s = 0 → h = [])) sinks held ∧
    mjoin wrote ++ mjoin held ≡ₚ logged.

Definition sound_sink (fs : FS) (s : Sink) (h : list bytes) : Prop :=
  (s_file s < length (files fs))%nat ∧ s_buf s = unlines h ∧ (s_cap s = 0 → h = []).

Lemma keeps_books new f fs a s b logged : keeps new f → books fs (a ++ s :: b) logged →
  let '(fs', s') := f fs s in books fs' (a ++ s' :: b) (logged ++ new) ∧ s_cap s' = s_cap s ∧ s_path s' = s_path s.
Proof.
  intros Hk (Hfs & Hd0 & wrote & cut0 & held & H1 & Hc0 & H2 & H3). fold (sound_sink fs) in H2.
  apply Forall2_app_inv_l in H2 as (ha & h' & Ha & H2 & ->). apply Forall2_cons_inv_l in H2 as (h & hb & (Hi & Hb & Hz) & Hhb & ->).
  specialize (Hk fs s h Hfs Hi Hb Hz). destruct (f fs s) as [fs' s'].
  destruct Hk as (out & cut & held' & Ho & Hcut & Hd & Hb' & Hm & Hf' & Hl & Hi' & Hc & Hp & Hz'). split; [| done].
  split; [done |]. split; [by intros E; apply Hd, Hd0 |]. exists (wrote ++ out), (cut0 ++ cut), (ha ++ held' :: hb). split_and!.
  - rewrite Ho. by f_equiv.
  - by apply (came_of_app _ fs).
  - apply Forall2_app; [| constructor; [by split_and!; [.. | rewrite Hc] |]]; (eapply Forall2_impl; [eassumption |]); intros t k (? & ? & ?); (split; [lia | done]).
  - rewrite <-H3, !join_app. cbn.
    transitivity (mjoin wrote ++ mjoin ha ++ (mjoin out ++ held') ++ mjoin hb); [solve_Permutation |]. rewrite Hm. solve_Permutation.
Qed.

Lemma sweep_books f : keeps [] f → ∀ l fs a b logged, books fs (a ++ l ++ b) logged →
  let '(fs', l') := sweep f fs l in books fs' (a ++ l' ++ b) logged ∧ s_path <$> l' = s_path <$> l.
Proof.
  intros Hk. induction l as [|s l IH]; intros fs a b logged H; cbn [sweep]; [done |].
  pose proof (keeps_books [] f fs a s (l ++ b) logged Hk H) as H1. destruct (f fs s) as [fs1 s1]. destruct H1 as (H1 & _ & Hp). rewrite app_nil_r in H1.
  specialize (IH fs1 (a ++ [s1]) b logged). rewrite <-!app_assoc in IH. cbn [app] in IH. specialize (IH H1).
  destruct (sweep f fs1 l) as [fs2 l2]. rewrite <-app_assoc in IH. cbn [app] in IH. destruct IH as [H2 Hp2]. split; [done |]. cbn. by rewrite Hp, Hp2.
Qed.

Lemma sweep_access_books f fs l logged : keeps [] f → books fs (buffers l) logged →
  let '(fs', l') := sweep_access f fs l in books fs' (buffers l') logged ∧ s_path <$> access_sinks l' = s_path <$> access_sinks l ∧
    error_sink l' = error_sink l ∧ error_level l' = error_level l ∧ asked l' = asked l.
Proof.
  intros Hk H. unfold sweep_access, buffers in *. pose proof (sweep_books f Hk (access_sinks l) fs [] (option_list (error_sink l)) logged H) as H1.
  destruct (sweep f fs (access_sinks l)) as [fs1 l1]. cbn [access_sinks error_sink error_level asked] in *. by destruct H1.
Qed.

Lemma on_error_books new f fs l logged : keeps new f → books fs (buffers l) logged →
  let '(fs', l') := on_error_sink f fs l in books fs' (buffers l') (logged ++ match error_sink l with Some _ => new | None => [] end) ∧
    access_sinks l' = access_sinks l ∧ (error_sink l' = None ↔ error_sink l = None) ∧ error_level l' = error_level l ∧ asked l' = asked l.
Proof.
  intros Hk H. unfold on_error_sink. destruct (error_sink l) as [s|] eqn:Es.
  - unfold buffers in *. rewrite Es in H. cbn [option_list] in H. pose proof (keeps_books new f fs (access_sinks l) s [] logged Hk H) as H1.
    destruct (f fs s) as [fs1 s1]. cbn [access_sinks error_sink error_level asked option_list]. by destruct H1 as (H1 & _).
  - by rewrite app_nil_r, Es.
Qed.

Lemma reopen_if_asked_books now fs l logged : books fs (buffers l) logged →
  let '(fs', l') := reopen_if_asked can_open w now fs l in books fs' (buffers l') logged ∧ s_path <$> access_sinks l' = s_path <$> access_sinks l ∧
    (error_sink l' = None ↔ error_sink l = None) ∧ error_level l' = error_level l.
Proof.
  intros H. unfold reopen_if_asked. destruct (asked l); [| done].
  pose proof (sweep_access_books (reopen can_open w now) fs (set_asked false l) logged (reopen_keeps now) H) as H1.
  destruct (sweep_access _ fs (set_asked false l)) as [fs1 l1]. destruct H1 as (H1 & Hp & He & Hl & _).
  pose proof (on_error_books [] (reopen can_open w now) fs1 l1 logged (reopen_keeps now) H1) as H2.
  destruct (on_error_sink _ fs1 l1) as [fs2 l2]. destruct H2 as (H2 & Ha & He2 & Hl2 & _).
  rewrite Ha, He2, He, Hl2, Hl, Hp. split_and!; try done. destruct (error_sink l1); by rewrite app_nil_r in H2.
Qed.

(** ** Runs *)

(** What a worker's logs go through: lines, the timer, a request to reopen,
    the end of the worker; and, around them, the other workers' writes and
    opens and the renames of a rotation. The label is the lines taken. *)
Inductive step : FS * Logs → list bytes → FS * Logs → Prop :=
  | st_access now p line fs l : step (fs, l) (match sink_at p l with Some _ => [line] | None => [] end) (access can_open w now p line fs l)
  | st_error now time pid level msg fs l :
      step (fs, l) (if decide (level_rank level < level_rank (error_level l)) then [] else match error_sink l with
                    | Some _ => [time ++ str " [" ++ level_name level ++ str "] " ++ pid ++ str ": " ++ msg] | None => [] end)
        (error can_open w now time pid level msg fs l).1
  | st_timer now fs l : step (fs, l) [] (let '(fs, l) := reopen_if_asked can_open w now fs l in flush_due w now fs l)
  | st_ask fs l : step (fs, l) [] (fs, set_asked true l)
  | st_exit now fs l : step (fs, l) [] (flush_all w now fs l)
  | st_other u i d fs l : u ≠ w → (i < length (files fs))%nat → step (fs, l) [] (append u i d fs, l)
  | st_other_open p fs l : step (fs, l) [] ((open_append can_open fs p).2, l)
  | st_rename p q fs l : step (fs, l) [] (rename p q fs, l)
  | st_datagram a sent fs l : step (fs, l) [] (fs, access_oxidb a sent l).

Inductive run : FS * Logs → list bytes → FS * Logs → Prop :=
  | run_refl st : run st [] st
  | run_step st st1 st2 a b : run st a st1 → step st1 b st2 → run st (a ++ b) st2.

Lemma sink_at_paths p l l' : s_path <$> access_sinks l = s_path <$> access_sinks l' → is_Some (sink_at p l) ↔ is_Some (sink_at p l').
Proof.
  unfold sink_at. generalize (access_sinks l) (access_sinks l'). induction l0 as [|s ls IH]; intros [|s' ls']; try done.
  cbn. intros [= Hp Hps]. rewrite Hp. case_decide; [by split |]. rewrite !fmap_is_Some. by apply IH.
Qed.

Lemma books_ext fs fs' ss logged : own fs' ≡ₚ own fs → (disk fs = [] → disk fs' = []) → (length (files fs) ≤ length (files fs'))%nat → files_ok fs' → books fs ss logged → books fs' ss logged.
Proof.
  intros Ho Hd Hl Hf (_ & Hd0 & wrote & cut & held & H1 & Hc & H2 & H3). split; [done |]. split; [by intros E; apply Hd, Hd0 |].
  exists wrote, cut, held. split_and!; [by rewrite Ho | done | | done].
  eapply Forall2_impl; [exact H2 |]. intros s h (? & ? & ?). split; [lia | done].
Qed.

Lemma datagram_buffers a sent l : buffers (access_oxidb a sent l) = buffers l.
Proof. unfold access_oxidb. by destruct (list_find _ (dropped l)) as [[i [b n]]|]. Qed.

Lemma step_books st a st' logged : step st a st' → books st.1 (buffers st.2) logged → books st'.1 (buffers st'.2) (logged ++ a).
Proof.
  intros Hst H. destruct Hst as [now p line fs l|now time pid level msg fs l|now fs l|fs l|now fs l|u i d fs l Hu Hi|p fs l|p q fs l|a sent fs l]; cbn [fst snd] in *.
  - unfold access. pose proof (reopen_if_asked_books now fs l logged H) as H1. destruct (reopen_if_asked can_open w now fs l) as [fs1 l1].
    destruct H1 as (H1 & Hp & _). apply (sink_at_paths p) in Hp.
    destruct (sink_at p l1) as [[i s]|] eqn:Es.
    + destruct (sink_at p l) as [[i' s']|]; [| by destruct Hp as [Hp _]; destruct Hp; [eexists |]].
      unfold sink_at in Es. apply list_find_Some in Es as (Hi & _ & _). unfold buffers in H1 |- *.
      rewrite <-(take_drop_middle (access_sinks l1) i s Hi), <-app_assoc in H1. cbn [app] in H1.
      pose proof (keeps_books [line] (write_line w now line) fs1 _ s _ logged (write_line_keeps now line) H1) as H2.
      destruct (write_line w now line fs1 s) as [fs2 s2]. destruct H2 as (H2 & _). cbn [fst snd access_sinks error_sink].
      rewrite insert_take_drop by (by eapply lookup_lt_Some). rewrite <-app_assoc. exact H2.
    + destruct (sink_at p l); [by destruct Hp as [_ Hp]; destruct Hp; [eexists |] |]. by rewrite app_nil_r.
  - unfold error. pose proof (reopen_if_asked_books now fs l logged H) as H1. destruct (reopen_if_asked can_open w now fs l) as [fs1 l1].
    destruct H1 as (H1 & _ & He & Hl). rewrite Hl. case_decide; [by rewrite app_nil_r |]. cbn zeta.
    set (text := time ++ _). pose proof (on_error_books [text] (write_line w now text) fs1 l1 logged (write_line_keeps now text) H1) as H2.
    unfold on_error_sink in *. destruct (error_sink l1) as [s1|] eqn:E1, (error_sink l) as [s|].
    + destruct (write_line w now text fs1 s1). by destruct H2.
    + exfalso. by destruct He as [_ He]; specialize (He eq_refl).
    + exfalso. by destruct He as [He _]; specialize (He eq_refl).
    + by rewrite app_nil_r.
  - rewrite app_nil_r. pose proof (reopen_if_asked_books now fs l logged H) as H1. destruct (reopen_if_asked can_open w now fs l) as [fs1 l1].
    destruct H1 as (H1 & _). unfold flush_due. pose proof (sweep_access_books (flush_if_due w now) fs1 l1 logged (flush_if_due_keeps now) H1) as H2.
    destruct (sweep_access _ fs1 l1). by destruct H2.
  - by rewrite app_nil_r.
  - rewrite app_nil_r. unfold flush_all. pose proof (sweep_access_books (flush w now) fs l logged (flush_keeps now) H) as H1.
    destruct (sweep_access _ fs l) as [fs1 l1]. destruct H1 as (H1 & _).
    pose proof (on_error_books [] (flush w now) fs1 l1 logged (flush_keeps now) H1) as H2. destruct (on_error_sink _ fs1 l1). destruct H2 as (H2 & _).
    by destruct (error_sink l1); rewrite app_nil_r in H2.
  - rewrite app_nil_r. eapply books_ext; [| | | | exact H]; [| by cbn; intros -> | by rewrite length_append | apply files_ok_append, H].
    rewrite own_append, decide_False by done. by rewrite app_nil_r.
  - rewrite app_nil_r. pose proof (open_append_spec p fs) as H1. destruct (open_append can_open fs p) as [i fs1]. destruct H1 as (H1 & Hdk & H2 & H3).
    eapply books_ext; [by cbn; rewrite H1 | by cbn; rewrite Hdk | done | exact (proj1 (H3 (proj1 H))) | exact H].
  - rewrite app_nil_r. unfold rename. destruct (node fs p) as [i|] eqn:En; [| done].
    apply (books_ext fs); [done | done | done | | exact H]. destruct H as [Hf _]. unfold files_ok in *. cbn [dir files]. constructor.
    + unfold node in En. destruct (list_find _ (dir fs)) as [[k [p' m]]|] eqn:E; [| done]. cbn in En. injection En as ->.
      apply list_find_Some in E as (E & _). rewrite Forall_forall in Hf. apply (Hf (p', i)). by eapply list_elem_of_lookup_2.
    + rewrite Forall_forall in *. intros e He. apply list_elem_of_filter in He as [_ He]. by apply Hf.
  - by rewrite app_nil_r, datagram_buffers.
Qed.

Lemma sweep_forall (P : Sink → Prop) f : (∀ fs s, P (f fs s).2) → ∀ l fs, Forall P (sweep f fs l).2.
Proof.
  intros Hf. induction l as [|s l IH]; intros fs; cbn [sweep]; [constructor |].
  pose proof (Hf fs s). destruct (f fs s) as [fs1 s1]. pose proof (IH fs1). destruct (sweep f fs1 l) as [fs2 l2]. by constructor.
Qed.

Lemma flushed_empty now fs l : Forall (λ s, s_buf s = []) (buffers (flush_all w now fs l).2).
Proof.
  unfold flush_all, sweep_access. pose proof (sweep_forall (λ s, s_buf s = []) (flush w now) (λ _ _, eq_refl) (access_sinks l) fs) as H.
  destruct (sweep _ fs (access_sinks l)) as [fs1 l1]. unfold on_error_sink, buffers. cbn [error_sink].
  destruct (error_sink l) as [s|]; cbn [flush snd access_sinks error_sink option_list].
  - apply Forall_app. split; [done |]. by repeat constructor.
  - by rewrite app_nil_r.
Qed.

(** A worker starts with nothing written and nothing held. *)
Definition fresh (st : FS * Logs) : Prop :=
  files_ok st.1 ∧ own st.1 = [] ∧ Forall (λ s, (s_file s < length (files st.1))%nat ∧ s_buf s = []) (buffers st.2).

End lines.

Section kept.
  Context (can_open : bytes → bool) (w : Worker).

(** C38. Whatever the other workers write and whoever renames the files, every
    line a worker takes is in one write of whole lines, or still held for one,
    and in no other; what its files have of each write is that write, up to
    where the disk failed it, so a line is lost or torn by a failing disk
    alone; and once the worker has ended nothing is held. *)
Theorem lines_are_kept st0 logged st : fresh w st0 → run can_open w st0 logged st →
  ∃ wrote cut held, own w st.1 ≡ₚ cut ∧ came_of st0.1 cut wrote ∧ (s_buf <$> buffers st.2) = unlines <$> held ∧ mjoin wrote ++ mjoin held ≡ₚ logged ∧
    (∀ now, let '(fs, l) := flush_all w now st.1 st.2 in
       ∃ wrote' cut', own w fs ≡ₚ cut' ∧ came_of st0.1 cut' wrote' ∧ mjoin wrote' ≡ₚ logged).
Proof.
  intros (Hf & Ho & Hs) Hrun.
  assert (books w st0.1 st0.1 (buffers st0.2) []) as Hb0.
  { split; [done |]. split; [done |]. exists [], [], ((λ _, []) <$> buffers st0.2). rewrite Ho. split_and!; [done | apply came_of_nil | |].
    - clear -Hs. induction Hs as [|s ss [Hi Hb] _ IH]; [constructor |]. cbn. constructor; [by split_and! | done].
    - cbn. clear. by induction (buffers st0.2). }
  assert (books w st0.1 st.1 (buffers st.2) logged) as Hb.
  { clear -Hrun Hb0. revert Hb0. generalize st0.1 at 1 3 as fs0. intros fs0 Hb0. induction Hrun as [st|st st1 st2 a b Hrun IH Hst]; [done |]. eapply step_books; [exact Hst | by apply IH]. }
  clear Hrun. pose proof Hb as (Hf' & _ & wrote & cut & held & H1 & Hc & H2 & H3). exists wrote, cut, held. split_and!; [done | done | | done |].
  - clear -H2. induction H2 as [|s h ss hs (_ & Hs & _) _ IH]; [done |]. cbn. by rewrite Hs, IH.
  - intros now. pose proof (step_books can_open w st0.1 _ _ _ _ (st_exit can_open w now st.1 st.2) Hb) as He. rewrite app_nil_r in He.
    pose proof (flushed_empty w now st.1 st.2) as Hn. destruct (flush_all w now st.1 st.2) as [fs l]. cbn [fst snd] in *.
    destruct He as (_ & _ & wrote' & cut' & held' & E1 & Ec & E2 & E3). exists wrote', cut'. split; [done |]. split; [done |]. rewrite <-E3.
    assert (mjoin held' = []) as ->; [| by rewrite app_nil_r].
    clear -E2 Hn. induction E2 as [|s h ss hs (_ & Hs & _) _ IH]; [done |]. apply Forall_cons in Hn as [Hn1 Hn2]. cbn.
    rewrite Hn1 in Hs. symmetry in Hs. apply unlines_nil in Hs as ->. by apply IH.
Qed.
End kept.

Section reopening.
  Context (can_open : bytes → bool) (w : Worker).

(** ** Reopening *)

Lemma node_append u i d fs p : node (append u i d fs) p = node fs p.
Proof. done. Qed.

Lemma node_open p q i fs : node fs p = Some i → node (open_append can_open fs q).2 p = Some i.
Proof.
  intros Hp. unfold open_append. destruct (can_open q); [| done]. destruct (node fs q) eqn:Eq; [done |].
  unfold node in *. cbn. case_decide as E; [| by destruct (list_find _ (dir fs)) as [[]|]]. subst q. by rewrite Hp in Eq.
Qed.

Lemma reopen_node now fs s p i : node fs p = Some i → node (reopen can_open w now fs s).1 p = Some i.
Proof.
  intros Hp. unfold reopen, flush. set (fs1 := if decide (s_buf s = []) then fs else _).
  assert (node fs1 p = Some i) as H1 by (unfold fs1; by case_decide). pose proof (node_open p (s_path s) i fs1 H1).
  cbn [s_path]. by destruct (open_append can_open fs1 (s_path s)).
Qed.

(** [s] writes to the file that has its name, and holds nothing. *)
Definition by_name (fs : FS) (s : Sink) : Prop := node fs (s_path s) = Some (s_file s) ∧ s_buf s = [].

Lemma reopen_by_name now fs s : can_open (s_path s) = true → by_name (reopen can_open w now fs s).1 (reopen can_open w now fs s).2.
Proof.
  intros Hc. unfold reopen, flush. set (fs1 := if decide (s_buf s = []) then fs else _). cbn [s_path].
  unfold open_append. rewrite Hc. destruct (node fs1 (s_path s)) as [j|] eqn:En; cbn; (split; [| done]); cbn; [done |].
  unfold node. cbn. by rewrite decide_True.
Qed.

Lemma sweep_by_name now l : ∀ fs, Forall (λ s, can_open (s_path s) = true) l →
  Forall (by_name (sweep (reopen can_open w now) fs l).1) (sweep (reopen can_open w now) fs l).2 ∧
  (∀ p i, node fs p = Some i → node (sweep (reopen can_open w now) fs l).1 p = Some i).
Proof.
  induction l as [|s l IH]; intros fs Hc; cbn [sweep]; [done |]. apply Forall_cons in Hc as [Hs Hc].
  pose proof (reopen_by_name now fs s Hs) as H1. pose proof (λ p i, reopen_node now fs s p i) as H2.
  destruct (reopen can_open w now fs s) as [fs1 s1]. cbn [fst snd] in *. destruct (IH fs1 Hc) as [H3 H4].
  destruct (sweep (reopen can_open w now) fs1 l) as [fs2 l2]. cbn [fst snd] in *. split; [| naive_solver].
  constructor; [| done]. destruct H1 as [H1 H1']. split; [by apply H4 | done].
Qed.

(** Once a reopening is asked for, the next line, of either log, and the next
    turn of the timer find every sink on the file that has its name now, with
    nothing held back from before. *)
Theorem reopened_by_name now fs l : asked l = true → Forall (λ s, can_open (s_path s) = true) (buffers l) →
  let '(fs', l') := reopen_if_asked can_open w now fs l in Forall (by_name fs') (buffers l') ∧ asked l' = false.
Proof.
  intros Ha Hc. unfold reopen_if_asked. rewrite Ha. unfold sweep_access, buffers in *. cbn [access_sinks set_asked dropped error_sink error_level error_to_stderr asked].
  apply Forall_app in Hc as [Hc1 Hc2]. destruct (sweep_by_name now (access_sinks l) fs Hc1) as [H1 _].
  destruct (sweep _ fs (access_sinks l)) as [fs1 l1]. cbn [fst snd] in H1. unfold on_error_sink. cbn [error_sink].
  destruct (error_sink l) as [s|]; cbn [option_list] in *.
  - apply Forall_cons in Hc2 as [Hs _]. pose proof (reopen_by_name now fs1 s Hs) as H2. pose proof (λ p i, reopen_node now fs1 s p i) as H3.
    destruct (reopen can_open w now fs1 s) as [fs2 s2]. cbn [access_sinks error_sink option_list asked fst snd] in *. split; [| done].
    apply Forall_app. split; [| by apply Forall_singleton]. eapply Forall_impl; [exact H1 |]. intros t [Ht1 Ht2]. split; [by apply H3 | done].
  - cbn [access_sinks error_sink option_list asked]. by rewrite app_nil_r.
Qed.

(** ** Paths *)

Lemma sweep_paths f : (∀ fs s, s_path (f fs s).2 = s_path s) → ∀ l fs, s_path <$> (sweep f fs l).2 = s_path <$> l.
Proof.
  intros Hf. induction l as [|s l IH]; intros fs; cbn [sweep]; [done |].
  pose proof (Hf fs s) as H. destruct (f fs s) as [fs1 s1]. pose proof (IH fs1) as H1. destruct (sweep f fs1 l). cbn in *. by rewrite H, H1.
Qed.

Lemma reopen_path now fs s : s_path (reopen can_open w now fs s).2 = s_path s.
Proof. unfold reopen, flush. cbn [s_path]. by destruct (open_append _ _ _) as [[i|] fs']. Qed.

Lemma reopen_if_asked_paths now fs l : s_path <$> access_sinks (reopen_if_asked can_open w now fs l).2 = s_path <$> access_sinks l.
Proof.
  unfold reopen_if_asked. destruct (asked l); [| done]. unfold sweep_access.
  pose proof (sweep_paths (reopen can_open w now) (reopen_path now) (access_sinks (set_asked false l)) fs) as H.
  destruct (sweep _ fs (access_sinks (set_asked false l))) as [fs1 l1]. unfold on_error_sink. cbn [error_sink set_asked].
  by destruct (error_sink l); [destruct (reopen _ _ _ _ _) |].
Qed.

Lemma write_line_path now line fs s : s_path (write_line w now line fs s).2 = s_path s.
Proof. unfold write_line. by repeat case_decide. Qed.

Lemma access_paths now p line fs l : s_path <$> access_sinks (access can_open w now p line fs l).2 = s_path <$> access_sinks l.
Proof.
  unfold access. pose proof (reopen_if_asked_paths now fs l) as H. destruct (reopen_if_asked can_open w now fs l) as [fs1 l1]. cbn [snd] in H.
  destruct (sink_at p l1) as [[i s]|] eqn:E; [| done]. unfold sink_at in E. apply list_find_Some in E as (Hi & _).
  pose proof (write_line_path now line fs1 s) as Hp. destruct (write_line w now line fs1 s) as [fs2 s2]. cbn [snd access_sinks] in *.
  rewrite <-H, list_fmap_insert, Hp. apply list_insert_id. by rewrite list_lookup_fmap, Hi.
Qed.

(** ** What a sink holds *)

Lemma step_forall (P : Sink → Prop) :
  (∀ now fs s, P s → P (flush w now fs s).2) → (∀ now fs s, P s → P (reopen can_open w now fs s).2) →
  (∀ now line fs s, P s → P (write_line w now line fs s).2) → (∀ now fs s, P s → P (flush_if_due w now fs s).2) →
  ∀ st a st', step can_open w st a st' → Forall P (buffers st.2) → Forall P (buffers st'.2).
Proof.
  intros Hfl Hre Hwr Hdue.
  assert (∀ f, (∀ fs s, P s → P (f fs s).2) → ∀ l fs, Forall P l → Forall P (sweep f fs l).2) as Hsw.
  { intros f Hf. induction l as [|s l IH]; intros fs Hl; cbn [sweep]; [done |]. apply Forall_cons in Hl as [Hs Hl].
    pose proof (Hf fs s Hs). destruct (f fs s) as [fs1 s1]. pose proof (IH fs1 Hl). destruct (sweep f fs1 l). by constructor. }
  assert (∀ f fs l, (∀ fs s, P s → P (f fs s).2) → Forall P (buffers l) → Forall P (buffers (sweep_access f fs l).2)) as Hsa.
  { intros f fs l Hf [H1 H2]%Forall_app. unfold sweep_access. pose proof (Hsw f Hf (access_sinks l) fs H1) as H3. destruct (sweep f fs (access_sinks l)). unfold buffers. cbn [snd access_sinks error_sink] in *. by apply Forall_app. }
  assert (∀ f fs l, (∀ fs s, P s → P (f fs s).2) → Forall P (buffers l) → Forall P (buffers (on_error_sink f fs l).2)) as Her.
  { intros f fs l Hf H. unfold on_error_sink. destruct (error_sink l) as [s|] eqn:E; [| done]. unfold buffers in *. rewrite E in H.
    apply Forall_app in H as [H1 [H2 _]%Forall_cons]. pose proof (Hf fs s H2) as H3. destruct (f fs s). cbn [snd access_sinks error_sink option_list] in *. apply Forall_app. split; [done |]. by apply Forall_singleton. }
  assert (∀ now fs l, Forall P (buffers l) → Forall P (buffers (reopen_if_asked can_open w now fs l).2)) as Hro.
  { intros now fs l H. unfold reopen_if_asked. destruct (asked l); [| done].
    pose proof (Hsa (reopen can_open w now) fs (set_asked false l) (Hre now) H) as H1. destruct (sweep_access _ fs (set_asked false l)). apply Her; [apply Hre | exact H1]. }
  intros st a st' Hst. destruct Hst as [now p line fs l|now time pid level msg fs l|now fs l|fs l|now fs l|u i d fs l Hu Hi|p fs l|p q fs l|a sent fs l]; cbn [fst snd]; intros H.
  - unfold access. pose proof (Hro now fs l H) as H1. destruct (reopen_if_asked can_open w now fs l) as [fs1 l1]. cbn [snd] in H1.
    destruct (sink_at p l1) as [[i s]|] eqn:E; [| done]. unfold sink_at in E. apply list_find_Some in E as (Hi & _).
    unfold buffers in *. apply Forall_app in H1 as [H1 H2]. rewrite Forall_lookup in H1. pose proof (Hwr now line fs1 s (H1 i s Hi)).
    destruct (write_line w now line fs1 s) as [fs2 s2]. cbn [snd access_sinks error_sink] in *. apply Forall_app. split; [| done].
    apply Forall_insert; [by apply Forall_lookup | done].
  - unfold error. pose proof (Hro now fs l H) as H1. destruct (reopen_if_asked can_open w now fs l) as [fs1 l1]. case_decide; [done |].
    destruct (error_sink l1) eqn:E; [| done]. apply Her; [apply Hwr | exact H1].
  - pose proof (Hro now fs l H) as H1. destruct (reopen_if_asked can_open w now fs l) as [fs1 l1]. apply Hsa; [apply Hdue | exact H1].
  - done.
  - unfold flush_all. pose proof (Hsa (flush w now) fs l (Hfl now) H) as H1. destruct (sweep_access _ fs l). apply Her; [apply Hfl | exact H1].
  - done.
  - done.
  - done.
  - by rewrite datagram_buffers.
Qed.

(** A buffer never grows to its size: a line that would fill it is written
    with what was held; and after a turn of the timer nothing held is older
    than the sink allows. *)
Theorem buffers_bounded st0 logged st : Forall (λ s, s_buf s = [] ∧ 0 ≤ s_cap s) (buffers st0.2) → run can_open w st0 logged st →
  Forall (λ s, Z.of_nat (length (s_buf s)) ≤ Z.max 0 (s_cap s - 1)) (buffers st.2) ∧
  (∀ now, Forall (λ s, s_buf s = [] ∨ match flush_every s with Some every => now - last_flush s < every | None => True end)
            (access_sinks (flush_due w now st.1 st.2).2)).
Proof.
  intros H0 Hrun. split.
  - assert (Forall (λ s, 0 ≤ s_cap s ∧ Z.of_nat (length (s_buf s)) ≤ Z.max 0 (s_cap s - 1)) (buffers st.2)) as H.
    { assert (Forall (λ s, 0 ≤ s_cap s ∧ Z.of_nat (length (s_buf s)) ≤ Z.max 0 (s_cap s - 1)) (buffers st0.2)) as H1.
      { eapply Forall_impl; [exact H0 |]. intros s [-> ?]. cbn. lia. }
      clear H0. induction Hrun as [st|st st1 st2 a b Hrun IH Hst]; [done |]. specialize (IH H1). revert IH.
      eapply step_forall; [| | | | exact Hst].
      - intros now fs s Hs. cbn. lia.
      - intros now fs s Hs. unfold reopen, flush. cbn [s_path]. destruct (open_append _ _ _) as [[i|] fs']; cbn; lia.
      - intros now line fs s Hs. unfold write_line. case_decide; [cbn; lia |]. cbn [s_cap s_buf]. case_decide; cbn; lia.
      - intros now fs s Hs. unfold flush_if_due. destruct (flush_every s); [case_decide |]; cbn; lia. }
    eapply Forall_impl; [exact H |]. by intros s [].
  - intros now. unfold flush_due, sweep_access.
    pose proof (sweep_forall (λ s, s_buf s = [] ∨ match flush_every s with Some every => now - last_flush s < every | None => True end) (flush_if_due w now)) as Hs.
    pose proof (Hs ltac:(intros fs s; unfold flush_if_due; destruct (flush_every s) as [e|] eqn:E; [| by right; cbn; rewrite E]; case_decide as Hd; [by left |]; cbn [snd]; rewrite E; destruct (decide (s_buf s = [])); [by left | right; apply Z.nle_gt; intros ?; by apply Hd]) (access_sinks st.2) st.1) as H.
    by destruct (sweep (flush_if_due w now) st.1 (access_sinks st.2)).
Qed.
End reopening.

(** ** The request's lines *)

Section request.
  Context {Regex : Type} (is_match : Regex → bytes → bool) (can_open : bytes → bool) (w : Worker).

(** [log_request]: a line or a record for each log of the server. [sent] is
    what the kernel says of a datagram to the collector. *)
Definition log_one (src : VarSource) (sent : bytes → bool) (now : Z) (c : AccessLogConf) (st : FS * Logs) : FS * Logs :=
  match al_sink c with
  | LogFile p => access can_open w now p (Vars.render src (al_format c)) st.1 st.2
  | OxiDb a db => (st.1, access_oxidb a (sent (encode_record (al_format c) src db)) st.2)
  end.

Definition log_request (env : Env) (c : Ctx (Regex := Regex)) (r : Response.Resp) (status body_bytes total_bytes : Z)
    (sent : bytes → bool) (now : Z) (st : FS * Logs) : FS * Logs :=
  foldl (λ st a, log_one (log_var is_match env c r status body_bytes total_bytes) sent now a st) st (s_access_logs (conf (server c))).

(** The line a log takes, where it has a sink *)
Definition line_for (src : VarSource) (l : Logs) (c : AccessLogConf) : option bytes :=
  match al_sink c with
  | LogFile p => match sink_at p l with Some _ => Some (Vars.render src (al_format c)) | None => None end
  | OxiDb _ _ => None
  end.

Lemma line_for_paths src l l' c : s_path <$> access_sinks l = s_path <$> access_sinks l' → line_for src l c = line_for src l' c.
Proof.
  intros H. unfold line_for. destruct (al_sink c) as [p|]; [| done]. pose proof (sink_at_paths p l l' H) as Hp.
  destruct (sink_at p l), (sink_at p l'); try done; exfalso; destruct Hp as [H1 H2]; [by destruct H1; [eexists |] | by destruct H2; [eexists |]].
Qed.

Lemma run_trans a b st st1 st2 : run can_open w st a st1 → run can_open w st1 b st2 → run can_open w st (a ++ b) st2.
Proof.
  intros H1 H2. induction H2 as [|st1 st2 st3 c d H2 IH Hs]; [by rewrite app_nil_r |]. rewrite app_assoc. by eapply run_step; [apply IH |].
Qed.

(** A request leaves, in each log of its server that has a sink, its line, and
    nothing else. *)
Theorem request_logged env c r status body_bytes total_bytes sent now fs l :
  run can_open w (fs, l) (omap (line_for (log_var is_match env c r status body_bytes total_bytes) l) (s_access_logs (conf (server c))))
    (log_request env c r status body_bytes total_bytes sent now (fs, l)).
Proof.
  unfold log_request. set (src := log_var _ _ _ _ _ _ _).
  assert (∀ cs l' fs, s_path <$> access_sinks l' = s_path <$> access_sinks l →
    run can_open w (fs, l') (omap (line_for src l) cs) (foldl (λ st a, log_one src sent now a st) (fs, l') cs)) as H; [| by apply H].
  clear fs. induction cs as [|a cs IH]; intros l' fs Hp; [apply run_refl |]. cbn [foldl].
  replace (omap (line_for src l) (a :: cs)) with (match line_for src l a with Some x => [x] | None => [] end ++ omap (line_for src l) cs)
    by (cbn; by destruct (line_for src l a)).
  apply (run_trans _ _ _ (log_one src sent now a (fs, l'))).
  - rewrite <-(line_for_paths src l' l a Hp). unfold log_one, line_for. cbn [fst snd]. destruct (al_sink a) as [p|b db].
    + apply (run_step _ _ _ _ _ [] _ (run_refl _ _ _)). pose proof (st_access can_open w now p (Vars.render src (al_format a)) fs l') as Hs. by destruct (sink_at p l').
    + apply (run_step _ _ _ _ _ [] [] (run_refl _ _ _)). apply st_datagram.
  - destruct (log_one src sent now a (fs, l')) as [fs1 l1] eqn:E. apply IH. rewrite <-Hp. unfold log_one in E. cbn [fst snd] in E. destruct (al_sink a) as [p|b db].
    + pose proof (access_paths can_open w now p (Vars.render src (al_format a)) fs l') as H. rewrite E in H. exact H.
    + injection E as _ <-. unfold access_oxidb. by destruct (list_find _ (dropped l')) as [[i [x n]]|].
Qed.
End request.

(** ** Where the logs fall short *)

(** [error_log stderr;] is meant for the standard error, and
    [Logs::new] knows the name; but the path it is given is the name under the
    prefix, a file. *)
Theorem error_log_stderr_is_a_file now b d e fs : Ast.args d = [str "stderr"] → b_prefix b = str "." → error_log b d = Fine e →
  el_path e = str "./stderr" ∧ error_to_stderr (logs_new (λ _, true) now e fs).1 = false ∧
  error_to_stderr (logs_new (λ _, true) now (mkErrorLog (str "stderr") (el_level e) (el_disabled e)) fs).1 = true.
Proof.
  intros Ha Hp. unfold error_log, want_args_range, nth_arg, Ast.arg, abs. rewrite Ha, Hp. cbn. intros [= <-]. split_and!; [done | | done].
  unfold logs_new. cbn [el_disabled el_path el_level]. rewrite bool_decide_eq_false_2 by (by intros [H|H]; vm_compute in H). cbn [orb].
  unfold sink_open, open_append. by destruct (node fs _).
Qed.

(** ** Instances *)

Definition nothing : FS := mkFS [(str "/a.log", 0%nat)] [[]] [].
Definition a_sink : Sink := mkSink 0 [] 8 (Some 100) 0 (str "/a.log").
Definition some_logs : Logs := mkLogs [a_sink] [] None LError false false.

(** Two lines, the file renamed in between and a reopening asked for: the
    first in the file that was, the second, held, for the one that is. *)
Definition rotated : FS * Logs :=
  access (λ _, true) 1%nat 30 (str "/a.log") (str "two") (rename (str "/a.log") (str "/a.log.1") (access (λ _, true) 1%nat 10 (str "/a.log") (str "one") nothing some_logs).1)
    (set_asked true (access (λ _, true) 1%nat 10 (str "/a.log") (str "one") nothing some_logs).2).

Example rotated_files : files rotated.1 = [[(1%nat, str "one" ++ [x0a])]; []] ∧ node rotated.1 (str "/a.log") = Some 1%nat ∧
  (s_buf <$> access_sinks rotated.2) = [str "two" ++ [x0a]].
Proof. split_and!; vm_compute; reflexivity. Qed.

Lemma rotated_run : run (λ _, true) 1%nat (nothing, some_logs) [str "one"; str "two"] rotated.
Proof.
  set (st1 := access (λ _, true) 1%nat 10 (str "/a.log") (str "one") nothing some_logs).
  assert (run (λ _, true) 1%nat (nothing, some_logs) [str "one"] st1) as H1
    by exact (run_step _ _ _ _ _ [] _ (run_refl _ _ _) (st_access (λ _, true) 1%nat 10 (str "/a.log") (str "one") nothing some_logs)).
  assert (run (λ _, true) 1%nat (nothing, some_logs) [str "one"] (rename (str "/a.log") (str "/a.log.1") st1.1, st1.2)) as H2.
  { destruct st1 as [fs l]. exact (run_step _ _ _ _ _ [str "one"] [] H1 (st_rename _ _ (str "/a.log") (str "/a.log.1") fs l)). }
  pose proof (run_step _ _ _ _ _ _ [] H2 (st_ask _ _ _ _)) as H3.
  exact (run_step _ _ _ _ _ _ [str "two"] H3 (st_access (λ _, true) 1%nat 30 (str "/a.log") (str "two") _ _)).
Qed.

Lemma fresh_start : fresh 1%nat (nothing, some_logs).
Proof. split_and!; vm_compute; [repeat constructor | reflexivity | repeat constructor]. Qed.

Lemma lines_are_kept_witness : ∃ wrote cut held, own 1%nat rotated.1 ≡ₚ cut ∧ came_of nothing cut wrote ∧
  (s_buf <$> buffers rotated.2) = unlines <$> held ∧ mjoin wrote ++ mjoin held ≡ₚ [str "one"; str "two"].
Proof.
  destruct (lines_are_kept (λ _, true) 1%nat _ _ _ fresh_start rotated_run) as (wrote & cut & held & H1 & H2 & H3 & H4 & _). by exists wrote, cut, held.
Defined.

(** A disk that is full within the first line: the rest of it is gone, and
    nothing says so. *)
Example full_disk_tears :
  let fs := mkFS [(str "/a.log", 0%nat)] [[]] [Some 2%nat] in
  let '(fs, l) := flush_all 1%nat 20 (access (λ _, true) 1%nat 10 (str "/a.log") (str "one") fs some_logs).1
                    (access (λ _, true) 1%nat 10 (str "/a.log") (str "one") fs some_logs).2 in
  files fs = [[(1%nat, str "on")]] ∧ (s_buf <$> access_sinks l) = [[]].
Proof. split; vm_compute; reflexivity. Qed.

Lemma buffers_bounded_witness : Forall (λ s, Z.of_nat (length (s_buf s)) ≤ Z.max 0 (s_cap s - 1)) (buffers rotated.2).
Proof.
  refine (proj1 (buffers_bounded (λ _, true) 1%nat (nothing, some_logs) _ rotated _ rotated_run)).
  apply Forall_singleton. split; [reflexivity | vm_compute; congruence].
Defined.

Lemma reopened_by_name_witness :
  Forall (by_name (reopen_if_asked (λ _, true) 1%nat 20 (rename (str "/a.log") (str "/b") nothing) (set_asked true some_logs)).1)
    (buffers (reopen_if_asked (λ _, true) 1%nat 20 (rename (str "/a.log") (str "/b") nothing) (set_asked true some_logs)).2).
Proof.
  exact (proj1 (reopened_by_name (λ _, true) 1%nat 20 (rename (str "/a.log") (str "/b") nothing) (set_asked true some_logs) eq_refl ltac:(repeat constructor))).
Defined.

Definition stderr_line : Directive := mkDirective (str "error_log") [str "stderr"] None 1 [].
Lemma error_log_stderr_is_a_file_witness : ∃ e, error_log (mkBuilder (str ".") ∅ []) stderr_line = Fine e ∧ el_path e = str "./stderr".
Proof.
  eexists. split; [reflexivity |]. exact (proj1 (error_log_stderr_is_a_file 0 (mkBuilder (str ".") ∅ []) stderr_line _ nothing eq_refl eq_refl eq_refl)).
Defined.
