(* ===== verification/Stats.v ===== *)
(** * [src/server/stats.rs]: the counters of the server

    The shared counters, the guards that keep them, and the page that shows
    them. Every change is one atomic addition to one word; the guards of the
    connections of every worker act on the same words. *)
From S2P Require Import Prelude.
From S2P Require Import Text.

Open Scope oxi_scope.
Open Scope Z_scope.

(** ** Counters *)

Definition ACCEPTS : nat := 0.
Definition HANDLED : nat := 1.
Definition REQUESTS : nat := 2.
Definition ACTIVE : nat := 3.
Definition READING : nat := 4.
Definition WRITING : nat := 5.
Definition WAITING : nat := 6.
Definition COUNT : nat := 7.

(** [COUNTERS]: [None] until [init]. *)
Definition Counters : Type := option (list Z).

Definition init (c : Counters) : Counters := match c with Some _ => c | None => Some (replicate COUNT 0) end.

Definition add (i : nat) (n : Z) (c : Counters) : Counters := (λ l, alter (λ v, wrap 64 (v + n)) i l) <$> c.
Definition get (i : nat) (c : Counters) : Z := match c with Some l => default 0 (l !! i) | None => 0 end.

(** A run of additions, in the order they take effect *)
Definition adds (l : list (nat * Z)) (c : Counters) : Counters := foldl (λ c a, add (fst a) (snd a) c) c l.

Definition accepted : list (nat * Z) := [(ACCEPTS, 1); (HANDLED, 1); (ACTIVE, 1)].
Definition closed : list (nat * Z) := [(ACTIVE, -1)].
Definition request_done : list (nat * Z) := [(REQUESTS, 1)].

Inductive State := Reading | Writing | Waiting.
#[export] Instance State_eq_dec : EqDecision State.
Proof. solve_decision. Defined.

Definition slot_of (s : State) : nat := match s with Reading => READING | Writing => WRITING | Waiting => WAITING end.

(** [StateGuard]: what [enter], [switch] and [drop] add *)
Definition guard_enter (s : State) : list (nat * Z) := [(slot_of s, 1)].
Definition guard_switch (current s : State) : list (nat * Z) :=
  if decide (s = current) then [] else [(slot_of current, -1); (slot_of s, 1)].
Definition guard_drop (current : State) : list (nat * Z) := [(slot_of current, -1)].

(** ** Connections *)

(** The live connections: one of HTTP/1 has a state, one of HTTP/2 or HTTP/3
    is only counted. *)
Notation Conns := (list (nat * option State)).

Inductive Event :=
  | Opened (k : nat)
  | OpenedMux (k : nat)
  | Switched (k : nat) (s : State)
  | Served (k : nat)
  | Closed (k : nat).

(** What a connection does to the counters, and to what it holds *)
Definition event (e : Event) (cs : Conns) : Conns * list (nat * Z) :=
  match e with
  | Opened k => ((k, Some Waiting) :: cs, accepted ++ guard_enter Waiting)
  | OpenedMux k => ((k, None) :: cs, accepted)
  | Switched k s =>
      match list_find (λ c, fst c = k) cs with
      | Some (i, (_, Some cur)) => (<[i := (k, Some s)]> cs, guard_switch cur s)
      | _ => (cs, [])
      end
  | Served k => (cs, request_done)
  | Closed k =>
      match list_find (λ c, fst c = k) cs with
      | Some (i, (_, Some cur)) => (delete i cs, guard_drop cur ++ closed)
      | Some (i, (_, None)) => (delete i cs, closed)
      | None => (cs, [])
      end
  end.

Fixpoint events (es : list Event) (cs : Conns) : Conns * list (nat * Z) :=
  match es with
  | [] => (cs, [])
  | e :: es => let '(cs, a) := event e cs in let '(cs, b) := events es cs in (cs, a ++ b)
  end.

(** ** The page *)

Definition stub_status_body (c : Counters) : bytes :=
  str "Active connections: " ++ fmt_u64 (get ACTIVE c) ++ str " " ++ [x0a] ++ str "server accepts handled requests" ++ [x0a] ++
  str " " ++ fmt_u64 (get ACCEPTS c) ++ str " " ++ fmt_u64 (get HANDLED c) ++ str " " ++ fmt_u64 (get REQUESTS c) ++ str " " ++ [x0a] ++
  str "Reading: " ++ fmt_u64 (get READING c) ++ str " Writing: " ++ fmt_u64 (get WRITING c) ++ str " Waiting: " ++ fmt_u64 (get WAITING c) ++
  str " " ++ [x0a].

(** [format!("\\u{:04x}", c)] of a control character *)
Definition hex4 (b : byte) : bytes := str "\u00" ++ [nth (Z.to_nat (u8 b / 16)) (str "0123456789abcdef") x00; nth (Z.to_nat (u8 b mod 16)) (str "0123456789abcdef") x00].

(** [json_str]; a character beyond ASCII is pushed as it is, byte by byte. *)
Definition json_byte (b : byte) : bytes :=
  if decide (b = x22) then str "\" ++ [x22]
  else if decide (b = "\"%byte) then str "\\"
  else if decide (b = x0a) then str "\n"
  else if decide (b = x0d) then str "\r"
  else if decide (b = x09) then str "\t"
  else if decide (u8 b < 32) then hex4 b
  else [b].
Definition json_str (v : bytes) : bytes := [x22] ++ mjoin (json_byte <$> v) ++ [x22].

(** ** Sums of additions *)

Definition sum_at (i : nat) (l : list (nat * Z)) : Z := foldr (λ a s, (if decide (fst a = i) then snd a else 0) + s) 0 l.

Lemma sum_at_app i a b : sum_at i (a ++ b) = sum_at i a + sum_at i b.
Proof. unfold sum_at. induction a as [|x a IH]; cbn in *; lia. Qed.

Lemma sum_at_perm i a b : a ≡ₚ b → sum_at i a = sum_at i b.
Proof. induction 1; unfold sum_at in *; cbn [foldr] in *; lia. Qed.

Lemma get_add i j n c : (j < length c)%nat → get j (add i n (Some c)) = if decide (i = j) then wrap 64 (get j (Some c) + n) else get j (Some c).
Proof.
  intros Hj. unfold get, add. cbn [fmap option_fmap option_map]. destruct (lookup_lt_is_Some_2 c j Hj) as [v Hv]. case_decide as E.
  - subst. by rewrite list_lookup_alter, decide_True, Hv by done.
  - by rewrite list_lookup_alter, decide_False by done.
Qed.

Lemma get_adds l : ∀ c j, (j < length c)%nat → get j (Some c) = wrap 64 (get j (Some c)) →
  get j (adds l (Some c)) = wrap 64 (get j (Some c) + sum_at j l).
Proof.
  induction l as [|[i n] l IH]; intros c j Hj Hw; cbn [adds foldl sum_at foldr fst snd]; [by rewrite Z.add_0_r |].
  change (foldl _ (add i n (Some c)) l) with (adds l (add i n (Some c))). fold (sum_at j l).
  unfold add at 1. cbn [fmap option_fmap option_map].
  rewrite IH; [| by rewrite length_alter |].
  - change (Some (alter (λ v, wrap 64 (v + n)) i c)) with (add i n (Some c)). rewrite get_add by done. case_decide; [| done].
    unfold wrap. by rewrite Z.add_mod_idemp_l, Z.add_assoc by lia.
  - change (Some (alter (λ v, wrap 64 (v + n)) i c)) with (add i n (Some c)). rewrite get_add by done. case_decide; [| done].
    unfold wrap. by rewrite Z.mod_mod by lia.
Qed.

Lemma get_from_zero l j : (j < COUNT)%nat → get j (adds l (init None)) = wrap 64 (sum_at j l).
Proof.
  intros Hj. unfold init. assert (get j (Some (replicate COUNT 0)) = 0) as H0 by (unfold get; by rewrite lookup_replicate_2).
  rewrite get_adds; [by rewrite H0 | by rewrite length_replicate | by rewrite H0].
Qed.

(** ** What the counters count *)

Definition in_state (s : State) (cs : Conns) : Z := Z.of_nat (length (filter (λ c, snd c = Some s) cs)).
Definition opens (e : Event) : bool := match e with Opened _ | OpenedMux _ => true | _ => false end.
Definition serves (e : Event) : bool := match e with Served _ => true | _ => false end.
Definition opened (es : list Event) : Z := Z.of_nat (length (filter (λ e, opens e = true) es)).
Definition served (es : list Event) : Z := Z.of_nat (length (filter (λ e, serves e = true) es)).

Definition count_of (o : option State) (s : State) : Z := if decide (o = Some s) then 1 else 0.

Lemma in_state_cons s k o cs : in_state s ((k, o) :: cs) = count_of o s + in_state s cs.
Proof. unfold in_state, count_of. rewrite filter_cons. cbn [snd]. case_decide; cbn [length]; lia. Qed.

Lemma in_state_app s a b : in_state s (a ++ b) = in_state s a + in_state s b.
Proof. unfold in_state. rewrite filter_app, length_app. lia. Qed.

Lemma in_state_insert s cs i k o k' o' : cs !! i = Some (k, o) → in_state s (<[i := (k', o')]> cs) = in_state s cs - count_of o s + count_of o' s.
Proof.
  intros Hi. rewrite insert_take_drop by (by eapply lookup_lt_Some). rewrite <-(take_drop_middle cs i _ Hi) at 3.
  rewrite !in_state_app, !in_state_cons. lia.
Qed.

Lemma in_state_delete s cs i k o : cs !! i = Some (k, o) → in_state s (delete i cs) = in_state s cs - count_of o s.
Proof.
  intros Hi. rewrite delete_take_drop. rewrite <-(take_drop_middle cs i _ Hi) at 3. rewrite !in_state_app, in_state_cons. lia.
Qed.

Lemma sum_guard i s n : sum_at i [(slot_of s, n)] = if decide (slot_of s = i) then n else 0.
Proof. unfold sum_at. cbn. lia. Qed.

Ltac tally := unfold sum_at, count_of, opened, served, ACCEPTS, HANDLED, REQUESTS, ACTIVE, READING, WRITING, WAITING; cbn; repeat case_decide; simplify_eq/=; lia.

Lemma event_sums e cs : let '(cs', a) := event e cs in
  sum_at ACCEPTS a = opened [e] ∧ sum_at HANDLED a = opened [e] ∧ sum_at REQUESTS a = served [e] ∧
  sum_at ACTIVE a = Z.of_nat (length cs') - Z.of_nat (length cs) ∧
  ∀ s, sum_at (slot_of s) a = in_state s cs' - in_state s cs.
Proof.
  destruct e as [k|k|k s|k|k]; cbn [event].
  - split_and!; [tally..|]. intros s. rewrite in_state_cons. destruct s; tally.
  - split_and!; [tally..|]. intros s. rewrite in_state_cons. destruct s; tally.
  - destruct (list_find _ cs) as [[i [k' [cur|]]]|] eqn:E; [| split_and!; [tally..| intros; tally]..].
    apply list_find_Some in E as (Hi & _). rewrite length_insert. unfold guard_switch.
    assert (∀ s', in_state s' (<[i := (k, Some s)]> cs) = in_state s' cs - count_of (Some cur) s' + count_of (Some s) s') as Hs by (intros; by eapply in_state_insert).
    split_and!; [destruct s, cur; tally.. |]. intros s'. rewrite Hs. destruct s, cur, s'; tally.
  - split_and!; [tally..|]. intros s. destruct s; tally.
  - destruct (list_find _ cs) as [[i [k' [cur|]]]|] eqn:E; [| | split_and!; [tally..| intros; tally]].
    + apply list_find_Some in E as (Hi & _). pose proof (lookup_lt_Some _ _ _ Hi). rewrite length_delete by (by eexists).
      split_and!; [destruct cur; tally..|]. intros s'. rewrite (in_state_delete _ _ _ _ _ Hi). destruct cur, s'; tally.
    + apply list_find_Some in E as (Hi & _). pose proof (lookup_lt_Some _ _ _ Hi). rewrite length_delete by (by eexists).
      split_and!; [tally..|]. intros s'. rewrite (in_state_delete _ _ _ _ _ Hi). destruct s'; tally.
Qed.

Lemma events_sums es : ∀ cs, let '(cs', a) := events es cs in
  sum_at ACCEPTS a = opened es ∧ sum_at HANDLED a = opened es ∧ sum_at REQUESTS a = served es ∧
  sum_at ACTIVE a = Z.of_nat (length cs') - Z.of_nat (length cs) ∧
  ∀ s, sum_at (slot_of s) a = in_state s cs' - in_state s cs.
Proof.
  induction es as [|e es IH]; intros cs; cbn [events]; [split_and!; [tally..| intros; tally] |].
  pose proof (event_sums e cs) as H1. destruct (event e cs) as [cs1 a]. specialize (IH cs1). destruct (events es cs1) as [cs2 b].
  destruct H1 as (A1 & A2 & A3 & A4 & A5), IH as (B1 & B2 & B3 & B4 & B5).
  assert (opened (e :: es) = opened [e] + opened es ∧ served (e :: es) = served [e] + served es) as [-> ->].
  { unfold opened, served. split; rewrite (filter_cons _ e es), (filter_cons _ e []); case_decide; cbn [length]; rewrite ?filter_nil; cbn [length]; lia. }
  rewrite !sum_at_app. split_and!; [lia..|]. intros s. rewrite sum_at_app, A5, B5. lia.
Qed.

(** However the additions of the connections of all workers interleave, the
    counters come to what there is: as many accepted as opened, as many
    active as live, as many in each state as hold it. *)
Theorem counters_exact es cs a a' : events es [] = (cs, a) → a' ≡ₚ a →
  let c := adds a' (init None) in
  get ACTIVE c = wrap 64 (Z.of_nat (length cs)) ∧ get ACCEPTS c = wrap 64 (opened es) ∧ get HANDLED c = get ACCEPTS c ∧
  get REQUESTS c = wrap 64 (served es) ∧ ∀ s, get (slot_of s) c = wrap 64 (in_state s cs).
Proof.
  intros He Hp. pose proof (events_sums es []) as H. rewrite He in H. destruct H as (A1 & A2 & A3 & A4 & A5).
  cbn zeta. rewrite !get_from_zero by (cbv; lia). rewrite !(sum_at_perm _ _ _ Hp), A1, A2, A3, A4. cbn [length].
  split_and!; [f_equal; lia | done | done | done |]. intros s. rewrite get_from_zero by (destruct s; cbv; lia).
  rewrite (sum_at_perm _ _ _ Hp), A5. f_equal. unfold in_state at 2. cbn. lia.
Qed.

(** A connection that was closed leaves nothing but the totals. *)
Lemma counters_exact_witness : let a := (events [Opened 1; OpenedMux 2; Switched 1 Reading; Switched 1 Writing; Served 1; Served 2; Closed 2] []).2 in
  get ACTIVE (adds (reverse a) (init None)) = 1 ∧ get READING (adds (reverse a) (init None)) = 0.
Proof.
  set (es := [Opened 1; OpenedMux 2; Switched 1 Reading; Switched 1 Writing; Served 1; Served 2; Closed 2]).
  destruct (counters_exact es [(1%nat, Some Writing)] (events es []).2 (reverse (events es []).2) eq_refl (reverse_Permutation _)) as (H1 & _ & _ & _ & H2).
  split; [exact H1 | exact (H2 Reading)].
Defined.

(** ** Where the numbers say less than they are meant to *)

(** A connection of HTTP/2 or HTTP/3 is active and in no state. *)
Theorem mux_is_in_no_state n :
  let c := adds (events (OpenedMux <$> seq 0 n) []).2 (init None) in
  get ACTIVE c = wrap 64 (Z.of_nat n) ∧ get READING c = 0 ∧ get WRITING c = 0 ∧ get WAITING c = 0.
Proof.
  assert (∀ l cs, (∀ s, in_state s (events (OpenedMux <$> l) cs).1 = in_state s cs) ∧ length (events (OpenedMux <$> l) cs).1 = (length l + length cs)%nat) as H.
  { induction l as [|k l IH]; intros cs; [done |]. cbn [fmap list_fmap events event]. destruct (IH ((k, None) :: cs)) as [H1 H2].
    destruct (events _ _) as [cs' b]. cbn [fst] in *. split; [| rewrite H2; cbn; lia]. intros s. rewrite H1, in_state_cons. unfold count_of. by rewrite decide_False. }
  destruct (H (seq 0 n) []) as [Hs Hl]. pose proof (events_sums (OpenedMux <$> seq 0 n) []) as Hsum.
  destruct (events (OpenedMux <$> seq 0 n) []) as [cs a]. cbn [fst snd] in *. destruct Hsum as (_ & _ & _ & A4 & A5).
  cbn zeta. rewrite !get_from_zero by (cbv; lia). pose proof (A5 Reading) as R. pose proof (A5 Writing) as W. pose proof (A5 Waiting) as T.
  rewrite Hs in R, W, T. cbn [slot_of] in R, W, T. rewrite A4, R, W, T, Hl, length_seq. cbn [length]. split_and!; [f_equal; lia | ..]; cbn; done.
Qed.

(** The guard of an HTTP/1 connection, between one wait for the network and
    the next: [serve] turns it to [Reading] before it waits for a head, so
    what it was turned to when the answer was out is never seen. *)
Inductive Mark := Turn (s : State) | Await.
Definition request_marks : list Mark := [Turn Reading; Await; Turn Writing; Await; Turn Waiting].

Fixpoint seen (s : State) (l : list Mark) : list State :=
  match l with [] => [] | Turn s :: l => seen s l | Await :: l => s :: seen s l end.

(** Whatever the number of requests, a wait of an HTTP/1 connection is seen as
    [Reading] or [Writing]. *)
Theorem idle_counts_as_reading n : seen Waiting (mjoin (replicate n request_marks)) = mjoin (replicate n [Reading; Writing]).
Proof.
  induction n as [|n IH]; [done |]. change (mjoin (replicate (S n) request_marks)) with (request_marks ++ mjoin (replicate n request_marks)).
  unfold request_marks at 1. cbn [app seen]. by rewrite IH.
Qed.

(** ** Reading the page back *)

(** The runs of digits of a text *)
Fixpoint scan (s cur : bytes) : list bytes :=
  match s with
  | [] => match cur with [] => [] | _ => [cur] end
  | c :: s => if is_ascii_digit c then scan s (cur ++ [c]) else match cur with [] => scan s [] | _ => cur :: scan s [] end
  end.
Definition numbers (s : bytes) : list Z := omap (parse_uint u64_max) (scan s []).

Lemma scan_digits d : ∀ s cur, Forall (λ c, is_ascii_digit c = true) d → scan (d ++ s) cur = scan s (cur ++ d).
Proof.
  induction d as [|c d IH]; intros s cur H; [by rewrite app_nil_r |]. apply Forall_cons in H as [Hc H]. cbn. rewrite Hc, IH by done. by rewrite <-app_assoc.
Qed.

Lemma scan_text t : ∀ s, Forall (λ c, is_ascii_digit c = false) t → scan (t ++ s) [] = scan s [].
Proof. induction t as [|c t IH]; intros s H; [done |]. apply Forall_cons in H as [Hc H]. cbn. rewrite Hc. by apply IH. Qed.

Lemma scan_number n c s : 0 ≤ n → is_ascii_digit c = false → scan (fmt_u64 n ++ c :: s) [] = fmt_u64 n :: scan s [].
Proof.
  intros Hn Hc. destruct (fmt_u64_digits n Hn) as [Hd Hne]. rewrite scan_digits by done. cbn. rewrite Hc. by destruct (fmt_u64 n).
Qed.

Lemma get_range i l c : c = adds l (init None) → (i < COUNT)%nat → 0 ≤ get i c < 2 ^ 64.
Proof. intros -> Hi. rewrite get_from_zero by done. unfold wrap. apply Z.mod_pos_bound. lia. Qed.

(** A monitor that reads the numbers off the page gets the counters, in
    nginx's order. *)
Theorem page_reads_back l : let c := adds l (init None) in
  numbers (stub_status_body c) = [get ACTIVE c; get ACCEPTS c; get HANDLED c; get REQUESTS c; get READING c; get WRITING c; get WAITING c].
Proof.
  cbn zeta. set (c := adds l (init None)). unfold numbers, stub_status_body.
  assert (∀ i, (i < COUNT)%nat → 0 ≤ get i c < 2 ^ 64) as Hr by (intros i Hi; by apply (get_range i l c)).
  assert (∀ i t s, (i < COUNT)%nat → Forall (λ c, is_ascii_digit c = false) t → t ≠ [] →
    scan (fmt_u64 (get i c) ++ t ++ s) [] = fmt_u64 (get i c) :: scan s []) as Hs.
  { intros i [|b t] s Hi Hf Ht; [done |]. apply Forall_cons in Hf as [Hb Hf]. cbn [app]. rewrite scan_number by (done || apply Hr; done). by rewrite scan_text. }
  assert (∀ i, (i < COUNT)%nat → parse_uint u64_max (fmt_u64 (get i c)) = Some (get i c)) as Hp.
  { intros i Hi. specialize (Hr i Hi). apply parse_fmt_u64; unfold u64_max; lia. }
  rewrite scan_text by (vm_compute; repeat constructor).
  transitivity (omap (parse_uint u64_max) (scan (fmt_u64 (get ACTIVE c) ++ (str " " ++ [x0a] ++ str "server accepts handled requests" ++ [x0a] ++ str " ") ++
    fmt_u64 (get ACCEPTS c) ++ str " " ++ fmt_u64 (get HANDLED c) ++ str " " ++ fmt_u64 (get REQUESTS c) ++ (str " " ++ [x0a] ++ str "Reading: ") ++
    fmt_u64 (get READING c) ++ str " Writing: " ++ fmt_u64 (get WRITING c) ++ str " Waiting: " ++ fmt_u64 (get WAITING c) ++ (str " " ++ [x0a]) ++ []) [])); [reflexivity |].
  rewrite !Hs by (cbv; lia || done || (vm_compute; repeat constructor)).
  cbn [scan omap list_omap]. by rewrite !Hp by (cbv; lia).
Qed.

(** ** Strings *)

Definition unhex (b : byte) : option Z :=
  (λ p, Z.of_nat (fst p)) <$> list_find (λ c, c = b) (str "0123456789abcdef").

(** What a reader of JSON makes of the inside of a string *)
Fixpoint unquote (s : bytes) : option (bytes * bytes) :=
  match s with
  | [] => None
  | c :: s =>
      if decide (c = x22) then Some ([], s)
      else if decide (c = "\"%byte) then
        match s with
        | e :: s =>
            if decide (e = "u"%byte) then
              match s with
              | a :: b :: h :: l :: s =>
                  x ← unhex h; y ← unhex l; '(t, r) ← unquote s;
                  if decide (a = "0"%byte ∧ b = "0"%byte) then Some (of_u8 (x * 16 + y) :: t, r) else None
              | _ => None
              end
            else
              c ← (if decide (e = "n"%byte) then Some x0a else if decide (e = "r"%byte) then Some x0d else if decide (e = "t"%byte) then Some x09
                   else if decide (e = x22 ∨ e = "\"%byte) then Some e else None);
              '(t, r) ← unquote s; Some (c :: t, r)
        | [] => None
        end
      else if decide (u8 c < 32) then None
      else '(t, r) ← unquote s; Some (c :: t, r)
  end.

Definition read_json_str (s : bytes) : option (bytes * bytes) :=
  match s with c :: s => if decide (c = x22) then unquote s else None | [] => None end.

Lemma unquote_byte b s : unquote (json_byte b ++ s) = '(t, r) ← unquote s; Some (b :: t, r).
Proof. destruct b; reflexivity. Qed.

(** Any text is shown as a JSON string that reads back as itself. *)
Theorem json_str_reads_back v rest : read_json_str (json_str v ++ rest) = Some (v, rest).
Proof.
  unfold json_str. rewrite <-app_assoc. cbn [app read_json_str]. rewrite decide_True by done. rewrite <-app_assoc.
  induction v as [|b v IH]; [done |]. change (mjoin (json_byte <$> b :: v)) with (json_byte b ++ mjoin (json_byte <$> v)).
  by rewrite <-app_assoc, unquote_byte, IH.
Qed.
