(* ===== verification/H2Stream.v ===== *)
(** * [src/http2/conn.rs]: the task of one HTTP/2 stream

    What [spawn_stream] runs once a request is complete: its head validated,
    its server and URI found, the request handled by [Handler], and the reply
    sent in frames as fast as the peer's windows let it. What the task sees
    of the rest of the connection, the windows and whether the stream or the
    connection is over, is a list of looks, one for each time it looks. *)
From S2P Require Import Prelude.
From S2P Require Import Text.
From S2P Require Import Wire.
From S2P Require Import Response.
From S2P Require Import Matching.
From S2P Require Import Model.
From S2P Require Import Ctx.
From S2P Require Import Handler.
From S2P Require Import ReadBody.
From S2P Require Import Conn.
From S2P Require Import H3Conn.
From S2P Require Request.
From S2P Require Uri.
From S2P Require Hpack.
From S2P Require H2Frame.
From S2P Require H2Conn.

Open Scope oxi_scope.
Open Scope Z_scope.

(** ** Looks and frames *)

(** What the task finds when it looks: how much it may send in one frame, the
    least of the two windows and the peer's frame size, or that the stream
    was reset or the connection is over. *)
Inductive Look := Room (n : nat) | Over.

Record Frame := mkFrame { f_kind : Z; f_flags : Z; f_payload : bytes }.

(** What the task has put in the channel to the writer, and how many more
    frames the writer will be there to take. *)
Record Tx := mkTx { sent : list Frame; takes : nat; looks : list Look }.

(** [tx.send(o).is_ok()] *)
Definition tx_send (f : Frame) (t : Tx) : bool * Tx :=
  match takes t with
  | O => (false, t)
  | S k => (true, mkTx (sent t ++ [f]) k (looks t))
  end.

Definition data_frame (chunk : bytes) (last : bool) : Frame := mkFrame H2Frame.kind.DATA (if last then H2Frame.flag.END_STREAM else 0) chunk.

(** [reset.get() || closed.get()] *)
Definition over (t : Tx) : Async (bool * Tx) :=
  match looks t with
  | [] => Never
  | l :: ls => Now (match l with Over => true | Room _ => false end, mkTx (sent t) (takes t) ls)
  end.

(** The loop of [pump], by the looks it takes; a look at a closed window is a
    wait for the next. *)
Fixpoint pump_go (data : bytes) (n : Z) (ls : list Look) (fs : list Frame) (k : nat) : Async (Z * Tx) :=
  if decide (data = []) then Now (n, mkTx fs k ls)
  else
    match ls with
    | [] => Never
    | Over :: ls => Now (n, mkTx fs k ls)
    | Room O :: ls => pump_go data n ls fs k
    | Room (S r) :: ls =>
        match k with
        | O => Now (n, mkTx fs O ls)
        | S k =>
            let chunk := take (S r) data in
            pump_go (drop (S r) data) (n + Z.of_nat (length chunk)) ls (fs ++ [data_frame chunk false]) k
        end
    end.

Definition pump (data : bytes) (t : Tx) : Async (Z * Tx) := pump_go data 0 (looks t) (sent t) (takes t).

(** [send(&[], true, tx)] *)
Definition finish (n : Z) (t : Tx) : Async (Z * Tx) := Now (n, (tx_send (data_frame [] true) t).2).

(** ** The reply *)

Section reply.
  Context {File Io : Type} (pread : File → Z → Z → option bytes) (io_reads : Io → list Event).

(** The file's loop; [left] bytes are enough turns. *)
Fixpoint file_go (fuel : nat) (f : File) (off left n : Z) (t : Tx) : Async (Z * Tx) :=
  match fuel with
  | O => finish n t
  | S fuel =>
      if decide (left ≤ 0) then finish n t
      else
        match pread f off (Z.min left CHUNK) with
        | None | Some [] => finish n t
        | Some b =>
            '(m, t) ← pump b t;
            '(o, t) ← over t;
            if o : bool then Now (n + m, t)
            else file_go fuel f (off + Z.of_nat (length b)) (left - Z.of_nat (length b)) (n + m) t
        end
  end.

(** The upstream's; the read has no timeout, and an error ends the body as its
    end does. *)
Fixpoint stream_go (l : list Event) (n : Z) (t : Tx) : Async (Z * Tx) :=
  '(o, t) ← over t;
  if o : bool then Now (n, t)
  else
    (fix reads l :=
       match l with
       | [] => Never
       | TimedOut :: l => reads l
       | Failed :: _ | Data [] :: _ => finish n t
       | Data d :: l => '(m, t) ← pump d t; stream_go l (n + m) t
       end) l.

Definition write_body (b : Body File Io) (t : Tx) : Async (Z * Tx) :=
  match b with
  | Empty | Upgraded _ _ _ => finish 0 t
  | Bytes p => '(n, t) ← pump p t; finish n t
  | Mmap m i j => '(n, t) ← pump (take (j - i) (drop i m)) t; finish n t
  | Inline f off len | FileBody f off len => file_go (Z.to_nat len) f off len 0 t
  | Stream pre io _ => '(n, t) ← pump pre t; stream_go (io_reads io) n t
  end.

(** [send_response]: the body's bytes and all of them, for the log. *)
Definition send_response (r : Resp) (b : Body File Io) (t : Tx) : Async (Z * Z * Tx) :=
  let block := H2Conn.response_block (status r) (fields r) (length_of (framing r)) in
  let flags := Z.lor H2Frame.flag.END_HEADERS (if is_empty b then H2Frame.flag.END_STREAM else 0) in
  let total := Z.of_nat (length block) + 9 in
  match tx_send (mkFrame H2Frame.kind.HEADERS flags block) t with
  | (false, t) => Now (0, total, t)
  | (true, t) => if is_empty b then Now (0, total, t) else '(n, t) ← write_body b t; Now (n, total + n, t)
  end.
End reply.

(** ** The writer *)

(** [write_loop], by the frames each [recv_many] finds in the channel *)
Fixpoint write_loop (batches : list (list bytes)) (w : Wr) : Wr :=
  match batches with
  | [] => w
  | b :: bs => match write_all (mjoin b) w with Wrote w => write_loop bs w | Refused w | Waits w => w end
  end.

(** However the frames are batched, the wire has them in their order, up to
    where the socket failed. *)
Theorem wire_is_the_channel batches w : out (write_loop batches w) = out w ++ take (credit w) (mjoin (mjoin batches)).
Proof.
  revert w. induction batches as [|b bs IH]; intros w; [cbn; by rewrite take_nil, app_nil_r |]. cbn [write_loop].
  rewrite join_cons, join_app. unfold write_all. case_decide as H.
  - rewrite IH. cbn [out credit]. rewrite <-app_assoc. f_equal. rewrite take_app. f_equal. by rewrite take_ge.
  - destruct (silent w); cbn [out]; f_equal; rewrite take_app_le by lia; done.
Qed.

(** ** The task *)

Section task.
  Context {Regex File Io W : Type} `{!World Regex File Io W}.
  Context (pread : File → Z → Z → option bytes) (io_reads : Io → list Event).

(** What is left of a stream: what was put in the channel, the line in the
    log, the world. The stream is marked done in every case ([DoneGuard]). *)
Record Finished := mkFinished { t_tx : Tx; t_log : list LogLine; t_world : W }.

Inductive Task := Done (f : Finished) | Aborts.

Definition rst_frame (code : H2Frame.Code) : Frame := mkFrame H2Frame.kind.RST_STREAM 0 (to_be 4 (H2Frame.code_u32 code)).
Definition refused (code : H2Frame.Code) (w : W) (t : Tx) : Async Task := Now (Done (mkFinished (tx_send (rst_frame code) t).2 [] w)).

(** [spawn_stream] of stream [id] *)
Definition stream_task (L : Listener (Regex := Regex)) (id : Z) (hs : list Hpack.Header) (body : bytes) (w : W) (t : Tx) : Async Task :=
  match H2Conn.parse_headers hs with
  | Err code => refused code w t
  | Ok p =>
      let '(buf, req) := routed p body in
      match match_host is_match (servers L) (default_server L) (H2Conn.authority p) with
      | None => Now Aborts
      | Some server =>
          match Uri.normalize (Request.slice buf (Request.path req)) with
          | Err _ => refused H2Frame.Protocol w t
          | Ok u =>
              let c := new_ctx buf req body (http_maps L) server u (l_remote L) (l_local L) (l_scheme L) (l_conn_id L) id in
              let '(reply, _, w) := handle c w in
              let reply := frame true reply in
              let b := if is_head (Request.method req) then Empty else Response.body reply in
              '(n, total, t) ← send_response pread io_reads (resp reply) b t;
              Now (Done (mkFinished t [mkLogLine (status (resp reply)) n total] w))
          end
      end
  end.
End task.

(** ** What goes out *)

Definition is_open (l : Look) : Prop := match l with Room (S _) => True | _ => False end.

(** Windows that are open for so many looks, and a writer there for as many
    frames *)
Definition ample (m : nat) (t : Tx) : Prop := Forall is_open (looks t) ∧ (m ≤ length (looks t))%nat ∧ (m ≤ takes t)%nat.

(** The task has sent [ds], and looked [o] times more than that. *)
Definition put (ds : list bytes) (o : nat) (t : Tx) : Tx :=
  mkTx (sent t ++ ((λ d, data_frame d false) <$> ds)) (takes t - length ds) (drop (length ds + o) (looks t)).

Lemma put_put ds o ds' o' t : put ds' o' (put ds o t) = put (ds ++ ds') (o + o') t.
Proof.
  unfold put. cbn [sent takes looks]. rewrite fmap_app, length_app, drop_drop, app_assoc. f_equal; [lia | f_equal; lia].
Qed.

Lemma put_nil t : put [] 0 t = t.
Proof. destruct t. unfold put. cbn. by rewrite app_nil_r, Nat.sub_0_r. Qed.

Lemma ample_put m ds o t : ample (m + length ds + o) t → ample m (put ds o t).
Proof. intros (H1 & H2 & H3). unfold put. split_and!; cbn; [by apply Forall_drop | rewrite length_drop; lia | lia]. Qed.

Lemma ample_le m m' t : (m ≤ m')%nat → ample m' t → ample m t.
Proof. intros Hm (H1 & H2 & H3). split_and!; [done | lia | lia]. Qed.

Lemma over_ample t : ample 1 t → over t = Now (false, put [] 1 t).
Proof.
  intros (H1 & H2 & _). unfold over, put. destruct (looks t) as [|l ls]; [cbn in H2; lia |]. apply Forall_cons in H1 as [Hl _].
  cbn. rewrite app_nil_r, Nat.sub_0_r. by destruct l as [[]|].
Qed.

Lemma pump_go_sends : ∀ m data n ls fs k, (length data ≤ m)%nat → Forall is_open ls → (length data ≤ length ls)%nat → (length data ≤ k)%nat →
  ∃ ds, mjoin ds = data ∧ Forall (λ d, d ≠ []) ds ∧ (length ds ≤ length data)%nat ∧
    pump_go data n ls fs k = Now (n + Z.of_nat (length data), put ds 0 (mkTx fs k ls)).
Proof.
  induction m as [|m IH]; intros data n ls fs k Hm Ho Hl Hk.
  { destruct data; [| cbn in Hm; lia]. exists []. split_and!; [done | constructor | done |]. rewrite put_nil. destruct ls; cbn; by rewrite Z.add_0_r. }
  destruct (decide (data = [])) as [->|Hd].
  { exists []. split_and!; [done | constructor | done |]. rewrite put_nil. destruct ls; cbn; by rewrite Z.add_0_r. }
  assert (0 < length data)%nat by (destruct data; [done | cbn; lia]).
  destruct ls as [|l ls]; [cbn in Hl; lia |]. destruct k as [|k]; [lia |]. apply Forall_cons in Ho as [Hop Ho]. destruct l as [[|r]|]; try done.
  cbn [pump_go]. rewrite decide_False by done. cbn [length] in Hl.
  destruct (IH (drop (S r) data) (n + Z.of_nat (length (take (S r) data))) ls (fs ++ [data_frame (take (S r) data) false]) k) as (ds & Hj & Hne & Hld & ->);
    [rewrite length_drop; lia | done | rewrite length_drop; lia | rewrite length_drop; lia |].
  exists (take (S r) data :: ds). rewrite join_cons, Hj, take_drop. split_and!; [done | | |].
  - constructor; [| done]. by destruct data.
  - rewrite length_drop in Hld. cbn [length]. lia.
  - f_equal. f_equal; [rewrite length_take, length_drop; lia |]. unfold put. cbn. by rewrite <-app_assoc.
Qed.

Lemma pump_sends data t : ample (length data) t → ∃ ds, mjoin ds = data ∧ Forall (λ d, d ≠ []) ds ∧ (length ds ≤ length data)%nat ∧
  pump data t = Now (Z.of_nat (length data), put ds 0 t).
Proof.
  intros (H1 & H2 & H3). destruct (pump_go_sends (length data) data 0 (looks t) (sent t) (takes t) (le_n _) H1 H2 H3) as (ds & ? & ? & ? & E).
  exists ds. by split_and!.
Qed.

Section sends.
  Context {File Io : Type} (pread : File → Z → Z → option bytes) (io_reads : Io → list Event).

(** All of a body is sent, in frames none of which is empty, and then the
    frame that ends the stream. *)
Definition ends_with_all (p : bytes) (n : Z) (t : Tx) (a : Async (Z * Tx)) : Prop :=
  ∃ ds o, mjoin ds = p ∧ Forall (λ d, d ≠ []) ds ∧ a = finish (n + Z.of_nat (length p)) (put ds o t).

Lemma file_sends f content : file_is pread f content → ∀ fuel off left n t,
  0 ≤ off → off + Z.of_nat left ≤ Z.of_nat (length content) → (left ≤ fuel)%nat → ample (left + left) t →
  ends_with_all (take left (drop (Z.to_nat off) content)) n t (file_go pread fuel f off (Z.of_nat left) n t).
Proof.
  intros Hf fuel. induction fuel as [|fuel IH]; intros off left n t Ho Hin Hfu Ha.
  { replace left with 0%nat in * by lia. exists [], 0%nat. rewrite put_nil. cbn. rewrite Z.add_0_r. split_and!; [done | constructor | done]. }
  cbn [file_go]. destruct (decide (Z.of_nat left ≤ 0)) as [Hz|Hz].
  { replace left with 0%nat in * by lia. exists [], 0%nat. rewrite put_nil. cbn. rewrite Z.add_0_r. split_and!; [done | constructor | done]. }
  destruct (Hf off (Z.min (Z.of_nat left) CHUNK) Ho ltac:(unfold CHUNK; lia)) as (k & Hr & Hk1 & Hk2). rewrite Hr.
  specialize (Hk2 ltac:(lia)). set (d := drop (Z.to_nat off) content) in *.
  assert (Hld : (left ≤ length d)%nat) by (unfold d; rewrite length_drop; lia).
  assert (Hd : length (take k d) = k) by (rewrite length_take; lia).
  destruct (take k d) as [|x y] eqn:E; [cbn in Hd; lia |]. rewrite <-E in *. clear E x y.
  destruct (pump_sends (take k d) t) as (ds1 & Hj1 & Hn1 & Hl1 & ->); [apply (ample_le _ (left + left)); [lia | done] |].
  cbn [mbind async_bind]. rewrite over_ample by (apply ample_put, (ample_le _ (left + left)); [lia | done]). cbn [mbind async_bind].
  rewrite put_put, app_nil_r, Hd. replace (Z.of_nat left - Z.of_nat k) with (Z.of_nat (left - k)) by lia.
  destruct (IH (off + Z.of_nat k) (left - k)%nat (n + Z.of_nat k) (put ds1 (0 + 1) t)) as (ds & o & Hj & Hne & ->); [lia | lia | lia | |].
  { apply ample_put, (ample_le _ (left + left)); [lia | done]. }
  exists (ds1 ++ ds), (0 + 1 + o)%nat. rewrite put_put, join_app, Hj, Hj1.
  assert (drop (Z.to_nat (off + Z.of_nat k)) content = drop k d) as -> by (unfold d; rewrite drop_drop; f_equal; lia).
  split_and!.
  - replace left with (k + (left - k))%nat at 2 by lia. by rewrite take_take_drop.
  - by apply Forall_app.
  - f_equal. rewrite !length_take, !length_drop. lia.
Qed.

Lemma stream_sends ds e more : Forall (λ d, d ≠ []) ds → e = Data [] ∨ e = Failed → ∀ n t,
  ample (length ds + length (mjoin ds) + 1) t → ends_with_all (mjoin ds) n t (stream_go ((Data <$> ds) ++ e :: more) n t).
Proof.
  intros Hds He. induction Hds as [|d ds Hd _ IH]; intros n t Ha.
  - cbn [fmap list_fmap app stream_go]. rewrite over_ample by (eapply ample_le; [| exact Ha]; cbn; lia). cbn [mbind async_bind].
    exists [], 1%nat. change (mjoin []) with (@nil byte). cbn [length]. rewrite Z.add_0_r. split_and!; [done | constructor |]. by destruct He as [-> | ->].
  - rewrite join_cons in Ha |- *. rewrite length_app in Ha. cbn [length] in Ha.
    cbn [fmap list_fmap app stream_go]. rewrite over_ample by (eapply ample_le; [| exact Ha]; lia). cbn [mbind async_bind].
    destruct (pump_sends d (put [] 1 t)) as (ds1 & Hj1 & Hn1 & Hl1 & Hp); [apply ample_put; eapply ample_le; [| exact Ha]; cbn [length]; lia |].
    destruct d as [|x d]; [done |]. rewrite Hp. cbn [mbind async_bind]. rewrite put_put. cbn [app].
    destruct (IH (n + Z.of_nat (length (x :: d))) (put ds1 (1 + 0) t)) as (ds2 & o & Hj & Hne & Hs).
    { apply ample_put. eapply ample_le; [| exact Ha]. cbn [length] in *. lia. }
    change (list_fmap _ _ Data ds) with (Data <$> ds). rewrite Hs. exists (ds1 ++ ds2), (1 + 0 + o)%nat. rewrite put_put, join_app, Hj, Hj1. split_and!; [done | by apply Forall_app |].
    f_equal. cbn [length app]. rewrite ?length_app. cbn [length]. rewrite ?length_app. lia.
Qed.

Lemma body_sends b p : holds_body pread io_reads b p → ∃ m, ∀ t, ample m t → ends_with_all p 0 t (write_body pread io_reads b t).
Proof.
  assert (Hheld : ∀ p t, ample (length p) t → ends_with_all p 0 t ('(n, t) ← pump p t; finish n t)).
  { intros q t Ha. destruct (pump_sends q t Ha) as (ds & Hj & Hne & _ & ->). exists ds, 0%nat. by split_and!. }
  destruct 1 as [|q|m i j|b f content off len Hf Ho Hl Hb|pre io len ds e more Hio Hds He].
  - exists 0%nat. intros t Ha. exists [], 0%nat. rewrite put_nil. split_and!; [done | constructor | done].
  - eexists. intros t Ha. by apply Hheld.
  - eexists. intros t Ha. by apply Hheld.
  - exists (len + len)%nat. intros t Ha. destruct Hb as [-> | ->]; cbn [write_body]; rewrite Nat2Z.id; apply (file_sends f content Hf); done || lia.
  - exists (length pre + (length ds + length (mjoin ds) + 1))%nat. intros t Ha. cbn [write_body]. rewrite Hio.
    destruct (pump_sends pre t) as (ds1 & Hj1 & Hn1 & Hl1 & ->); [eapply ample_le; [| exact Ha]; lia |]. cbn [mbind async_bind].
    destruct (stream_sends ds e more Hds He (Z.of_nat (length pre)) (put ds1 0 t)) as (ds2 & o & Hj & Hne & ->).
    { apply ample_put. eapply ample_le; [| exact Ha]. lia. }
    exists (ds1 ++ ds2), (0 + o)%nat. rewrite put_put, join_app, Hj, Hj1. split_and!; [done | by apply Forall_app |]. f_equal. rewrite length_app. lia.
Qed.
End sends.

(** ** The reply in frames *)

Section framed.
  Context {File Io : Type} (pread : File → Z → Z → option bytes) (io_reads : Io → list Event).

Definition head_frame (r : Resp) (last : bool) : Frame :=
  mkFrame H2Frame.kind.HEADERS (Z.lor H2Frame.flag.END_HEADERS (if last then H2Frame.flag.END_STREAM else 0))
    (H2Conn.response_block (status r) (fields r) (length_of (framing r))).

(** A reply goes out, over windows that stay open, as its head and, unless it
    has no body, DATA frames that are the body and an empty one that ends the
    stream; and the bytes counted for the log are the body's. *)
Theorem h2_reply_framed (r : Resp) b p : holds_body pread io_reads b p → ∃ m, ∀ t, ample m t →
  ∃ ds n t', mjoin ds = p ∧ Forall (λ d, d ≠ []) ds ∧
    send_response pread io_reads r b t = Now (if is_empty b then 0 else Z.of_nat (length p), n, t') ∧
    sent t' = sent t ++ (if is_empty b then [head_frame r true]
                         else head_frame r false :: ((λ d, data_frame d false) <$> ds) ++ [data_frame [] true]).
Proof.
  intros Hb. destruct (body_sends pread io_reads b p Hb) as [m Hm]. exists (S (S (length p + m))). intros t Ha.
  pose proof Ha as (H1 & H2 & H3). unfold send_response, tx_send. destruct (takes t) as [|k] eqn:Ek; [lia |].
  fold (head_frame r (is_empty b)). destruct (is_empty b) eqn:Ee.
  - assert (∃ ds : list bytes, mjoin ds = p ∧ Forall (λ d, d ≠ []) ds) as (ds & Hj & Hne).
    { destruct (decide (p = [])) as [->|Hp]; [exists []; by split | exists [p]; split; [by rewrite join_cons; apply app_nil_r | by apply Forall_singleton]]. }
    exists ds. eexists _, _. by split_and!.
  - set (t1 := mkTx (sent t ++ [head_frame r false]) k (looks t)).
    assert (ample m t1) as Hm1 by (split_and!; cbn; [done | lia | lia]).
    destruct (Hm t1 Hm1) as (ds & o & Hj & Hne & E).
    assert (length ds ≤ length p)%nat as Hl.
    { rewrite <-Hj. clear -Hne. induction Hne as [|d ds Hd _ IH]; [cbn; lia |]. rewrite join_cons, length_app. destruct d; [done |]. cbn [length] in *. lia. }
    exists ds. rewrite E. unfold finish. cbn [mbind async_bind]. eexists _, _. split_and!; [done | done | done |].
    unfold tx_send, put. cbn [takes sent looks t1]. destruct (k - length ds)%nat eqn:Ekd; [lia |]. cbn [snd sent]. by rewrite <-!app_assoc.
Qed.
(** A body that breaks off goes out exactly as one that ended there: of a reply
    without a length the client cannot tell a part from the whole. *)
Theorem broken_body_ends_the_stream r pre a b len ds m1 m2 t :
  io_reads a = (Data <$> ds) ++ Failed :: m1 → io_reads b = (Data <$> ds) ++ Data [] :: m2 →
  send_response pread io_reads r (Stream pre a len) t = send_response pread io_reads r (Stream pre b len) t.
Proof.
  intros Ha Hb. assert (∀ n t, stream_go (io_reads a) n t = stream_go (io_reads b) n t) as E.
  { rewrite Ha, Hb. clear. induction ds as [|d ds IH]; intros n t; cbn [fmap list_fmap app stream_go]; [done |].
    destruct (over t) as [[[] t']| |]; cbn [mbind async_bind]; [done | | done..]. destruct d; [done |].
    destruct (pump _ t') as [[m t2]| |]; cbn [mbind async_bind]; [apply IH | done..]. }
  unfold send_response. change (is_empty (Stream (File := File) pre b len)) with (is_empty (Stream (File := File) pre a len)).
  destruct (tx_send _ t) as [[] t']; [| done]. destruct (is_empty _); [done |]. cbn [write_body].
  destruct (pump pre t') as [[m t2]| |]; cbn [mbind async_bind]; try done. by rewrite E.
Qed.
End framed.

(** ** The windows *)

(** The look a stream's task has at its connection. *)
Definition look_at (st : H2Conn.Stream) (c : H2Conn.Conn) : Look :=
  if H2Conn.reset st then Over
  else Room (Z.to_nat (Z.min (Z.max (Z.min (H2Conn.conn_window c) (H2Conn.window st)) 0) (H2Conn.max_frame c))).

(** A turn of the task is the turn [H2Conn.pump_once] takes of the windows:
    the same bytes in the same frame, or none. *)
Theorem turn_is_pump_once id data c st ls fs k : H2Conn.streams c !! id = Some st → data ≠ [] → 0 < H2Conn.max_frame c →
  let '(c', rest) := H2Conn.pump_once id data c in
  match pump_go data 0 (look_at st c :: ls) fs (S k) with
  | a => if H2Conn.reset st then rest = data ∧ a = Now (0, mkTx fs (S k) ls)
         else if decide (rest = data) then a = pump_go data 0 ls fs (S k)
         else ∃ chunk, data = chunk ++ rest ∧ H2Conn.tx c' = H2Conn.tx c ++ [H2Conn.OutData id chunk false] ∧
                a = pump_go rest (Z.of_nat (length chunk)) ls (fs ++ [data_frame chunk false]) k
  end.
Proof.
  intros Hst Hd Hmf. unfold H2Conn.pump_once, look_at. rewrite Hst. destruct (H2Conn.reset st).
  { cbn [pump_go]. by rewrite decide_False. }
  set (a := Z.max (Z.min (H2Conn.conn_window c) (H2Conn.window st)) 0).
  assert (0 < Z.of_nat (length data)) as Hlen by (destruct data; [done | cbn; lia]).
  destruct (decide (a = 0 ∨ data = [])) as [[Ha|?]|Hn]; [| done |].
  - rewrite decide_True by done. rewrite Ha. replace (Z.to_nat (Z.min 0 (H2Conn.max_frame c))) with 0%nat by lia. cbn [pump_go]. by rewrite decide_False.
  - assert (0 < a) as Hpos by (unfold a in *; lia).
    set (r := Z.to_nat (Z.min a (H2Conn.max_frame c))). set (n := Z.to_nat (Z.min (Z.min a (H2Conn.max_frame c)) (Z.of_nat (length data)))).
    assert (n = Nat.min r (length data)) as En by (unfold n, r; lia).
    assert (take n data = take r data ∧ drop n data = drop r data) as [Et Edr].
    { rewrite En. split; [by rewrite <-firstn_firstn, firstn_all |]. destruct (decide (r ≤ length data)%nat); [by rewrite Nat.min_l |].
      rewrite Nat.min_r by lia. by rewrite !drop_ge by lia. }
    rewrite Et, Edr. assert (drop r data ≠ data) as Hne.
    { intros E. apply (f_equal length) in E. rewrite length_drop in E. unfold r in E. lia. }
    rewrite decide_False by done. exists (take r data). rewrite take_drop. split; [done |]. split; [done |].
    destruct r as [|r'] eqn:Er; [unfold r in *; lia |]. cbn [pump_go]. by rewrite decide_False.
Qed.

(** ** What the task makes of a request *)

Section delivered.
  Context {Regex File Io W : Type} `{!World Regex File Io W}.
  Context (pread : File → Z → Z → option bytes) (io_reads : Io → list Event).

(** A request that is not well formed, or whose path is not, costs its stream
    and nothing else: one RST_STREAM, nothing logged, the world as it was. *)
Theorem malformed_is_reset (L : Listener (Regex := Regex)) id hs body (w : W) t s :
  (∀ a, match_host is_match (servers L) (default_server L) a = Some s) →
  (∃ code, H2Conn.parse_headers hs = Err code) ∨
  (∃ p e, H2Conn.parse_headers hs = Ok p ∧ Uri.normalize (Request.slice (routed p body).1 (Request.path (routed p body).2)) = Err e) →
  (0 < takes t)%nat →
  ∃ code t', stream_task pread io_reads L id hs body w t = Now (Done (mkFinished t' [] w)) ∧ sent t' = sent t ++ [rst_frame code].
Proof.
  intros Hs H Ht. unfold stream_task, refused, tx_send. destruct (takes t) as [|k]; [lia |]. destruct H as [[code ->]|(p & e & -> & Hu)].
  - exists code. by eexists.
  - destruct (routed p body) as [buf req]. cbn [fst snd] in Hu. rewrite Hs, Hu. eexists. by eexists.
Qed.
End delivered.

(** ** Instances *)

Definition wide (n : nat) : Tx := mkTx [] n (replicate n (Room 4)).

Lemma wide_ample n m : (m ≤ n)%nat → ample m (wide n).
Proof. intros Hm. split_and!; cbn; [apply Forall_replicate; done | by rewrite length_replicate | done]. Qed.

Definition reply_200 : Resp := with_framing (Length 5) new.

Lemma h2_reply_framed_witness : ∃ m, ∀ t, ample m t → ∃ ds n t', mjoin ds = str "hello" ∧
  send_response (λ (_ : unit) _ _, None) (λ _ : unit, []) reply_200 (Bytes (str "hello")) t = Now (5, n, t') ∧
  sent t' = sent t ++ head_frame reply_200 false :: ((λ d, data_frame d false) <$> ds) ++ [data_frame [] true].
Proof.
  destruct (h2_reply_framed (λ (_ : unit) _ _, None) (λ _ : unit, []) reply_200 (Bytes (str "hello")) (str "hello") (holds_bytes _ _ _)) as [m Hm].
  exists m. intros t Ht. destruct (Hm t Ht) as (ds & n & t' & H1 & _ & H2 & H3). by exists ds, n, t'.
Defined.

Example hello_in_two : (λ a, match a with Now (_, _, t) => f_payload <$> drop 1 (sent t) | _ => [] end)
  (send_response (λ (_ : unit) _ _, None) (λ _ : unit, []) reply_200 (Bytes (str "hello")) (wide 20)) = [str "hell"; str "o"; []].
Proof. vm_compute. reflexivity. Qed.


Lemma broken_body_ends_the_stream_witness :
  send_response (λ (_ : unit) _ _, None) id (with_framing Chunked new) (Stream [] [Data (str "half"); Failed] None) (wide 20) =
  send_response (λ (_ : unit) _ _, None) id (with_framing Chunked new) (Stream [] [Data (str "half"); Data []] None) (wide 20).
Proof.
  exact (broken_body_ends_the_stream (λ (_ : unit) _ _, None) id (with_framing Chunked new) [] [Data (str "half"); Failed] [Data (str "half"); Data []] None
    [str "half"] [] [] (wide 20) eq_refl eq_refl).
Defined.

Lemma malformed_is_reset_witness : ∃ code t', stream_task (World0 := sample_world 404) no_pread no_io sample_listener 1 [] [] tt (wide 3) =
  Now (Done (mkFinished t' [] tt)) ∧ sent t' = [rst_frame code].
Proof.
  refine (malformed_is_reset (World0 := sample_world 404) no_pread no_io sample_listener 1 [] [] tt (wide 3) sample_server _ (or_introl (ex_intro _ H2Frame.Protocol eq_refl)) _); [| cbn; lia].
  intros a. reflexivity.
Defined.

(** A stream that may take three bytes of five *)
Lemma turn_is_pump_once_witness :
  let st := H2Conn.set_window 3 (H2Conn.set_reset false (H2Conn.set_state H2Conn.Open H2Conn.cancelled)) in
  let c := H2Conn.set_streams (<[1 := st]> ∅) (H2Conn.abandoned_conn 0) in
  let '(c', rest) := H2Conn.pump_once 1 (str "hello") c in
  ∃ chunk, str "hello" = chunk ++ rest ∧ H2Conn.tx c' = H2Conn.tx c ++ [H2Conn.OutData 1 chunk false] ∧
    pump_go (str "hello") 0 [look_at st c] [] 1 = pump_go rest (Z.of_nat (length chunk)) [] [data_frame chunk false] 0.
Proof.
  set (st := H2Conn.set_window 3 (H2Conn.set_reset false (H2Conn.set_state H2Conn.Open H2Conn.cancelled))).
  set (c := H2Conn.set_streams (<[1 := st]> ∅) (H2Conn.abandoned_conn 0)).
  pose proof (turn_is_pump_once 1 (str "hello") c st [] [] 0 eq_refl ltac:(done) eq_refl) as H.
  destruct (H2Conn.pump_once 1 (str "hello") c) as [c' rest] eqn:E. vm_compute in E. injection E as <- <-. exact H.
Defined.
