(* ===== verification/Waf.v ===== *)
(** * [src/waf.rs] and [src/server/modsec.rs]: the rule engine around a request

    A build with the [modsecurity] feature runs every request and its reply
    past libmodsecurity. The library is foreign: an [Engine] here is what it
    answers after the calls it was given, whatever that is. What this file
    models is the shim: which calls are made, with what, in which order, and
    what becomes of the answer. [with_waf] puts it into a handler's [World]. *)
From S2P Require Import Prelude.
From S2P Require Import Text.
From S2P Require Import Vars.
From S2P Require Import Response.
From S2P Require Import Matching.
From S2P Require Import Model.
From S2P Require Import Ctx.
From S2P Require Import Handler.
From S2P Require Import ReadBody.
From S2P Require Request.
From S2P Require Uri.
From S2P Require LimitReq.
From S2P Require H3Conn.

Open Scope oxi_scope.
Open Scope Z_scope.

#[local] Existing Instance H3Conn.async_bind.
Local Abbreviation Async := H3Conn.Async.
Local Abbreviation Now := H3Conn.Now.
Local Abbreviation Never := H3Conn.Never.

(** ** [waf.rs] *)

(** [CBuf]: a C string of at most [n - 1] bytes on the stack. *)
Record CBuf := mkCBuf { c_buf : bytes; c_len : nat }.

Section cbuf.
  Context (n : nat).

Definition cbuf_new : CBuf := mkCBuf (replicate n x00) 0.

(** [write_str]; the flag is [is_ok]. *)
Definition write_str (s : bytes) (b : CBuf) : bool * CBuf :=
  let stop := (c_len b + length s)%nat in
  if decide (n ≤ stop)%nat then (false, mkCBuf (c_buf b) n)
  else (true, mkCBuf (take (c_len b) (c_buf b) ++ s ++ drop stop (c_buf b)) stop).

(** [write!], whose pieces are those of the [Display] in use *)
Fixpoint write_pieces (l : list bytes) (b : CBuf) : CBuf :=
  match l with
  | [] => b
  | s :: l => match write_str s b with (true, b) => write_pieces l b | (false, b) => b end
  end.

(** [CStr::from_bytes_with_nul] of a text that is nul-terminated *)
Definition c_str (s : bytes) : option bytes := if decide (x00 ∈ s) then None else Some s.

Definition as_cstr (b : CBuf) : option bytes :=
  if decide (n ≤ c_len b)%nat then None else c_str (take (c_len b) (c_buf b)).
End cbuf.

(** The entry points of libmodsecurity a transaction is given. *)
Inductive Call :=
  | Connection (client : bytes) (client_port : Z) (server : bytes) (server_port : Z)
  | CallUri (uri method version : bytes)
  | RequestHeader (name value : bytes)
  | ProcessRequestHeaders
  | AppendRequestBody (b : bytes)
  | ProcessRequestBody
  | ResponseHeader (name value : bytes)
  | ProcessResponseHeaders (code : Z) (version : bytes)
  | AppendResponseBody (b : bytes)
  | ProcessResponseBody
  | Ask
  | Logging.

(** [Intervention], filled in by [msc_intervention] *)
Record Intervention := mkIntervention { i_status : Z; url : option bytes; log : option bytes; disruptive : Z }.

(** A compiled rule set: whether [msc_new_transaction] gives a transaction, and
    what [msc_intervention] returns and fills in, by the calls before it. *)
Record Engine := mkEngine { opens : bool; rules : list Call → Z * Intervention }.

Record Transaction := mkTransaction { engine : Engine; calls : list Call; warned : list bytes }.

Inductive Verdict := Allow | Block (status : Z) | RedirectTo (status : Z) (to : bytes).

#[export] Instance Verdict_eq_dec : EqDecision Verdict.
Proof. solve_decision. Defined.

Definition transaction (e : Engine) : option Transaction := if opens e then Some (mkTransaction e [] []) else None.

Definition call (c : Call) (t : Transaction) : Transaction := mkTransaction (engine t) (calls t ++ [c]) (warned t).

(** [intervention]; [warned] is what goes to the standard error. *)
Definition intervention (t : Transaction) : Verdict * Transaction :=
  let '(acted, it) := rules (engine t) (calls t) in
  let t := call Ask t in
  if decide (acted = 0 ∨ disruptive it = 0) then (Allow, t)
  else
    let t := mkTransaction (engine t) (calls t) (warned t ++ match log it with Some l => [l] | None => [] end) in
    let status := if decide (100 ≤ i_status it ≤ 599) then i_status it else 403 in
    (match url it with Some u => RedirectTo status u | None => Block status end, t).

Definition process_request_headers (t : Transaction) : Verdict * Transaction := intervention (call ProcessRequestHeaders t).

Definition request_body (b : bytes) (t : Transaction) : Verdict * Transaction :=
  intervention (call ProcessRequestBody (if decide (b = []) then t else call (AppendRequestBody b) t)).

Definition process_response_headers (code : Z) (version : bytes) (t : Transaction) : Verdict * Transaction :=
  intervention (call (ProcessResponseHeaders code version) t).

Definition response_body (b : bytes) (t : Transaction) : Verdict * Transaction :=
  intervention (call ProcessResponseBody (if decide (b = []) then t else call (AppendResponseBody b) t)).

(** ** The settings of a location *)

Record WafConf := mkWafConf {
  modsecurity_rules : option Engine;
  modsecurity : bool;
  modsecurity_response_body : bool;
  modsecurity_response_body_limit : Z
}.

Definition waf_default : WafConf := mkWafConf None true false (512 * 1024).

(** What the directives of one block say, and [apply]'s part of it *)
Record WafLayer := mkWafLayer {
  l_modsecurity_engine : option Engine;
  l_modsecurity : option bool;
  l_modsecurity_response_body : option bool;
  l_modsecurity_response_body_limit : option Z
}.

Definition apply_waf (l : WafLayer) (c : WafConf) : WafConf :=
  mkWafConf
    (match l_modsecurity_engine l with Some e => Some e | None => modsecurity_rules c end)
    (default (modsecurity c) (l_modsecurity l))
    (default (modsecurity_response_body c) (l_modsecurity_response_body l))
    (default (modsecurity_response_body_limit c) (l_modsecurity_response_body_limit l)).

(** ** [modsec.rs] *)

(** [write_addr]: the text and the port *)
Definition write_addr (a : option SocketAddr) (b : CBuf) : CBuf * Z :=
  match a with
  | Some a => (write_pieces 64 [push_addr (Some a)] b, port a)
  | None => ((write_str 64 (str "127.0.0.1") b).2, 0)
  end.

Definition version_cstr (minor : Z) : bytes := if decide (minor = 0) then str "1.0" else str "1.1".

Definition method_cstr (m : Request.Method) : bytes :=
  match m with
  | Request.Get => str "GET" | Request.HeadM => str "HEAD" | Request.Post => str "POST" | Request.Put => str "PUT"
  | Request.Delete => str "DELETE" | Request.Options => str "OPTIONS" | Request.Patch => str "PATCH"
  | Request.Connect => str "CONNECT" | Request.Trace => str "TRACE" | Request.Other => str "UNKNOWN"
  end.

(** [with_uri_cstr]: the text it hands on *)
Definition uri_cstr (path args : bytes) : option bytes :=
  c_str (path ++ if decide (args = []) then [] else str "?" ++ args).

Section modsec.
  Context {Regex File : Type} (read_at : File → Z → Z → option bytes).
  Local Abbreviation Ctx := (Ctx (Regex := Regex)).
  Local Abbreviation Io := (list Event).
  Local Abbreviation Reply := (Reply File Io).
  Local Abbreviation Blocked := (Blocked File Io).

(** [blocked_from] *)
Definition blocked_from (v : Verdict) : Blocked :=
  match v with
  | Block status => BlockedStatus status
  | RedirectTo status u =>
      BlockedReply (mkReply (header (str "Content-Length") (str "0") (header (str "Location") u (with_status status new))) (Bytes []))
  | Allow => BlockedStatus 403
  end.

(** The calls of the connection phase *)
Definition connect_call (c : Ctx) (t : Transaction) : Transaction :=
  let '(cb, cport) := write_addr (remote c) (cbuf_new 64) in
  let '(sb, sport) := write_addr (local c) (cbuf_new 64) in
  match as_cstr 64 cb, as_cstr 64 sb with
  | Some cl, Some sv => call (Connection cl cport sv sport) t
  | _, _ => t
  end.

Definition uri_call (c : Ctx) (t : Transaction) : Transaction :=
  match uri_cstr (uri c) (args c) with
  | Some u => call (CallUri u (method_cstr (Request.method (req c))) (version_cstr (Request.minor (req c)))) t
  | None => t
  end.

Definition header_calls (c : Ctx) (t : Transaction) : Transaction :=
  foldl (λ t h, call (RequestHeader (Request.slice (buf c) (Request.name h)) (Request.slice (buf c) (Request.value h))) t) t
    (Request.headers (req c)).

(** [inspect_request]: what it says, and the transaction left in the context
    where it leaves one. The transaction of a blocked request is dropped after
    its logging phase; [ended] keeps it for the reader. *)
Definition inspect_request (c : Ctx) (k : WafConf) : option Blocked * option Transaction * option Transaction :=
  match modsecurity_rules k with
  | None => (None, None, None)
  | Some e =>
      if negb (modsecurity k) then (None, None, None)
      else
        match transaction e with
        | None => (None, None, None)
        | Some t =>
            let t := header_calls c (uri_call c (connect_call c t)) in
            let '(v, t) :=
              match process_request_headers t with
              | (Allow, t) => request_body (req_body c) t
              | other => other
              end in
            match v with
            | Allow => (None, Some t, None)
            | v => (Some (blocked_from v), None, Some (call Logging t))
            end
        end
  end.

(** The loop over a streamed body: what the rules are to see, what was read,
    and what is left to read. *)
Fixpoint read_stream (limit : Z) (io : Io) (b : bytes) : Async (option bytes * bytes * Io) :=
  match io with
  | [] => Never
  | Data [] :: io => Now (Some b, b, io)
  | Data d :: io =>
      let b := b ++ d in
      if decide (limit < Z.of_nat (length b)) then Now (None, b, io) else read_stream limit io b
  | _ :: io => Now (None, b, io)
  end.

(** [materialise]: the bytes for the rules, and the body as it is left. *)
Definition materialise (b : Body File Io) (limit : Z) : Async (option bytes * Body File Io) :=
  let held p := if decide (Z.of_nat (length p) ≤ limit) then Some p else None in
  match b with
  | Empty => Now (Some [], b)
  | Upgraded _ _ _ => Now (None, b)
  | Bytes p => Now (held p, b)
  | Mmap m start stop => Now (if decide (Z.of_nat (stop - start) ≤ limit) then Some (take (stop - start) (drop start m)) else None, b)
  | Inline f off len | FileBody f off len => Now (if decide (limit < len) then None else read_at f off len, b)
  | Stream pre io len =>
      if match len with Some n => bool_decide (limit < n) | None => false end then Now (None, b)
      else if decide (limit < Z.of_nat (length pre)) then Now (None, b)
      else
        '(seen, pre, io) ← read_stream limit io pre;
        Now (seen, Stream pre io (match seen with Some p => Some (Z.of_nat (length p)) | None => len end))
  end.

(** [inspect_response]: what it says, the reply as it leaves it, and the
    transaction as it is dropped. *)
Definition inspect_response (c : Ctx) (k : WafConf) (t : option Transaction) (r : Reply) :
    Async (option Blocked * Reply * option Transaction) :=
  match t with
  | None => Now (None, r, None)
  | Some t =>
      let t := foldl (λ t f, call (ResponseHeader (fst f) (snd f)) t) t (fields (resp r)) in
      let '(v, t) := process_response_headers (status (resp r)) (version_cstr (Request.minor (req c))) t in
      '(v, b, t) ←
        (if bool_decide (v = Allow) && modsecurity_response_body k then
           '(seen, b) ← materialise (body r) (modsecurity_response_body_limit k);
           Now (match seen with
                | Some p => let '(v, t) := response_body p t in (v, b, t)
                | None => (v, b, t)
                end)
         else Now (v, body r, t));
      let t := call Logging t in
      let r := mkReply (resp r) b in
      Now (match v with Allow => None | v => Some (blocked_from v) end, r, Some t)
  end.
End modsec.

(** ** The handler with the engine

    The transaction of the request's context goes beside the world's state. *)
Section with_waf.
  Context {Regex File W : Type} (E : World Regex File (list Event) W).
  Context (loc_conf : Loc Regex → WafConf) (srv_conf : Ctx (Regex := Regex) → WafConf).
  Local Abbreviation Ctx := (Ctx (Regex := Regex)).
  Local Abbreviation Reply := (Reply File (list Event)).

(** A world's operation, beside the transaction *)
Definition beside {A} (t : option Transaction) (a : A * W) : A * (W * option Transaction) := (fst a, (snd a, t)).

Definition with_waf : World Regex File (list Event) (W * option Transaction) :=
  {| groups := groups; env s := env s.1; metadata s := metadata s.1; conn_key := conn_key;
     acquire z k n s := beside s.2 (acquire z k n s.1);
     req_key := req_key;
     check z k n nd d s := beside s.2 (check z k n nd d s.1);
     sleep n s := (sleep n s.1, s.2);
     serve c l s := beside s.2 (serve c l s.1);
     proxy_pass c l p s := beside s.2 (proxy_pass c l p s.1);
     fastcgi_pass c l p s := beside s.2 (fastcgi_pass c l p s.1);
     stub_body j s := stub_body j s.1;
     inspect c l s :=
       let '(b, t, _) := inspect_request c (loc_conf l) in
       (b, (s.1, match t with Some t => Some t | None => s.2 end));
     read_at := read_at; gzip_encode := gzip_encode |}.

(** [handle] *)
Definition handle_waf (c : Ctx) (w : W) : Async (Reply * Ctx * W) :=
  let '(r, c, (w, t)) := handle (H := with_waf) c (w, None) in
  let k := match matched c with Some l => loc_conf l | None => srv_conf c end in
  '(b, r, _) ← inspect_response read_at c k t r;
  Now (match b with
       | Some (BlockedStatus code) => error_reply c code
       | Some (BlockedReply r) => r
       | None => r
       end, c, w).

(** The same world in a build without the engine *)
Definition without_waf : World Regex File (list Event) W :=
  {| groups := groups; env := env; metadata := metadata; conn_key := conn_key; acquire := acquire;
     req_key := req_key; check := check; sleep := sleep; serve := serve; proxy_pass := proxy_pass;
     fastcgi_pass := fastcgi_pass; stub_body := stub_body; inspect _ _ w := (None, w); read_at := read_at;
     gzip_encode := gzip_encode |}.

End with_waf.

(** ** [CBuf] *)

Section cbuf.
  Context (n : nat).

Lemma write_pieces_spec l : ∀ b p, (c_len b < n)%nat → length (c_buf b) = n → take (c_len b) (c_buf b) = p →
  let total := (c_len b + length (mjoin l))%nat in
  if decide (total < n)%nat then take total (c_buf (write_pieces n l b)) = p ++ mjoin l ∧ c_len (write_pieces n l b) = total
  else c_len (write_pieces n l b) = n.
Proof.
  induction l as [|s l IH]; intros b p Hb Hl Hp; cbn zeta.
  { cbn. rewrite decide_True by lia. rewrite Nat.add_0_r, app_nil_r. done. }
  rewrite join_cons, length_app. cbn [write_pieces]. unfold write_str.
  destruct (decide (n ≤ c_len b + length s)%nat) as [H|H]; [rewrite decide_False by lia; done |].
  specialize (IH (mkCBuf (take (c_len b) (c_buf b) ++ s ++ drop (c_len b + length s) (c_buf b)) (c_len b + length s)) (p ++ s)).
  cbn [c_len c_buf] in IH. rewrite Nat.add_assoc, (app_assoc p). apply IH.
  - lia.
  - rewrite !length_app, length_take, length_drop. lia.
  - rewrite Hp, app_assoc, take_app_length'; [done |]. rewrite length_app, <-Hp, length_take. lia.
Qed.

(** A value is handed on whole or not at all: what fits in the buffer with
    its terminator, has no nul in it, and however it was cut into pieces. *)
Theorem cstr_whole_or_absent l : (0 < n)%nat →
  as_cstr n (write_pieces n l (cbuf_new n)) = if decide (length (mjoin l) < n)%nat then c_str (mjoin l) else None.
Proof.
  intros Hn. pose proof (write_pieces_spec l (cbuf_new n) [] Hn (length_replicate _ _) (take_0 _)) as H. cbn in H.
  unfold as_cstr. case_decide; [destruct H as [H1 H2] | rewrite H; by rewrite decide_True].
  rewrite H2, H1. by rewrite decide_False by lia.
Qed.
End cbuf.

Lemma cstr_whole_or_absent_witness :
  as_cstr 64 (write_pieces 64 [str "10.0"; str ".0.1"] (cbuf_new 64)) = Some (str "10.0.0.1") ∧
  as_cstr 8 (write_pieces 8 [str "10.0"; str ".0.1"; []] (cbuf_new 8)) = None.
Proof. split; [rewrite (cstr_whole_or_absent 64) | rewrite (cstr_whole_or_absent 8)]; first [lia | by vm_compute]. Defined.

(** ** The body the rules see *)

Section body.
  Context {File : Type} (read_at : File → Z → Z → option bytes).
  Local Abbreviation Io := (list Event).

(** A body and the bytes it stands for; [k] is how often the end of a stream
    can still be read. *)
Inductive carries (k : nat) : Body File Io → bytes → Prop :=
  | carries_empty : carries k Empty []
  | carries_bytes p : carries k (Bytes p) p
  | carries_mmap m i j : (j ≤ length m)%nat → carries k (Mmap m i j) (take (j - i) (drop i m))
  | carries_file (b : Body File Io) f off p : read_at f off (Z.of_nat (length p)) = Some p →
      b = Inline f off (Z.of_nat (length p)) ∨ b = FileBody f off (Z.of_nat (length p)) → carries k b p
  | carries_stream pre io len ds more : io = (Data <$> ds) ++ replicate k (Data []) ++ more → Forall (λ d, d ≠ []) ds →
      len = None ∨ len = Some (Z.of_nat (length (pre ++ mjoin ds))) → carries k (Stream pre io len) (pre ++ mjoin ds).

Lemma read_stream_all limit k more ds : Forall (λ d, d ≠ []) ds → ∀ pre, Z.of_nat (length pre) ≤ limit →
  ∃ (seen : option bytes) rest ds', read_stream limit ((Data <$> ds) ++ replicate (S k) (Data []) ++ more) pre = Now (seen, pre ++ rest, (Data <$> ds') ++ replicate (if seen then k else S k) (Data []) ++ more) ∧
    mjoin ds = rest ++ mjoin ds' ∧ Forall (λ d, d ≠ []) ds' ∧
    seen = (if decide (Z.of_nat (length (pre ++ mjoin ds)) ≤ limit) then Some (pre ++ mjoin ds) else None) ∧
    (is_Some seen → ds' = []).
Proof.
  induction 1 as [|d ds Hd Hds IH]; intros pre Hp.
  { exists (Some pre), [], []. cbn. rewrite app_nil_r. rewrite decide_True by done. by split_and!. }
  cbn [fmap list_fmap app read_stream]. destruct d as [|x d]; [done |]. set (y := x :: d) in *. rewrite join_cons, (app_assoc pre).
  case_decide as Hlim.
  - exists None, y, ds. split_and!; [done | done | done | | by intros [? ?]]. rewrite decide_False; [done |]. rewrite length_app. lia.
  - destruct (IH (pre ++ y) ltac:(lia)) as (seen & rest & ds' & -> & -> & H2 & H3 & H4).
    exists seen, (y ++ rest), ds'. rewrite <-!app_assoc in *. by split_and!.
Qed.

Lemma carries_once_less k b p : carries (S k) b p → carries k b p.
Proof.
  intros [|q|m i j Hj|c f off q Hr Hb|pre io len ds more -> Hds Hlen]; [constructor.. | by constructor | by eapply carries_file |].
  apply (carries_stream k pre _ _ ds (Data [] :: more)); [| done | done]. f_equal. by rewrite replicate_S_end, <-app_assoc.
Qed.

(** The rules see a body exactly, or not at all where it is longer than the
    limit; and the client still gets it. *)
Theorem inspected_body_is_the_body k b p limit : 0 ≤ limit → (0 < k)%nat → carries (S k) b p →
  ∃ b', materialise read_at b limit = Now (if decide (Z.of_nat (length p) ≤ limit) then Some p else None, b') ∧ carries k b' p.
Proof.
  intros Hl Hk Hb. destruct Hb as [|p|m i j Hj|b f off p Hr Hb|pre io len ds more -> Hds Hlen].
  - exists Empty. rewrite decide_True by done. split; [done | constructor].
  - exists (Bytes p). split; [done | constructor].
  - exists (Mmap m i j). cbn. rewrite length_take, length_drop, Nat.min_l by lia. split; [done | by constructor].
  - exists b. split; [| by eapply carries_file]. destruct Hb as [-> | ->]; cbn; case_decide; case_decide; try lia; by rewrite ?Hr.
  - cbn [materialise]. set (p := pre ++ mjoin ds) in *.
    assert (∀ q : bytes, (Z.of_nat (length q) ≤ Z.of_nat (length p)) → limit < Z.of_nat (length q) → ¬ Z.of_nat (length p) ≤ limit) as Hlong by (intros; lia).
    destruct (match len with Some n => bool_decide (limit < n) | None => false end) eqn:En.
    { destruct Hlen as [-> | ->]; [done |]. apply bool_decide_eq_true in En. rewrite decide_False by lia.
      exists (Stream pre ((Data <$> ds) ++ replicate (S k) (Data []) ++ more) (Some (Z.of_nat (length p)))). split; [done |].
      apply (carries_stream k pre _ _ ds (Data [] :: more)); [| done | by right]. f_equal. by rewrite replicate_S_end, <-app_assoc. }
    case_decide as Hpre.
    { rewrite decide_False; [| apply (Hlong pre); [unfold p; rewrite length_app; lia | done]].
      exists (Stream pre ((Data <$> ds) ++ replicate (S k) (Data []) ++ more) len). split; [done |].
      apply (carries_stream k pre _ _ ds (Data [] :: more)); [| done | done]. f_equal. by rewrite replicate_S_end, <-app_assoc. }
    destruct (read_stream_all limit k more ds Hds pre ltac:(lia)) as (seen & rest & ds' & -> & Hj & Hds' & -> & Hseen). cbn [mbind H3Conn.async_bind].
    eexists. split; [done |]. fold p. assert (p = (pre ++ rest) ++ mjoin ds') as Ep by (unfold p; by rewrite Hj, app_assoc).
    clearbody p. destruct (decide (Z.of_nat (length p) ≤ limit)) as [H|H]; rewrite Ep.
    + apply (carries_stream k _ _ _ ds' more); [done | done | by right].
    + apply (carries_stream k _ _ _ ds' (Data [] :: more)); [| done | by rewrite <-Ep]. f_equal. by rewrite replicate_S_end, <-app_assoc.
Qed.
End body.

(** ** Whose length is known

    The reader takes a stream to its end, whatever its length. *)
Section length_ignored.
  Context {File : Type} (read_at : File → Z → Z → option bytes).

(** An upstream that keeps the connection open after the body it announced:
    the reply waits for it to close. *)
Lemma complete_body_waits pre ds n limit : Forall (λ d, d ≠ []) ds → Z.of_nat (length (pre ++ mjoin ds)) = n → n ≤ limit →
  materialise read_at (Stream pre (Data <$> ds) (Some n) : Body File (list Event)) limit = Never.
Proof.
  intros Hds Hn Hl. cbn. rewrite bool_decide_eq_false_2 by lia. rewrite length_app in Hn. rewrite decide_False by lia.
  assert (read_stream limit (Data <$> ds) pre = Never) as ->; [| done]. clear -Hds Hn Hl. revert pre Hn.
  induction Hds as [|d ds Hd _ IH]; intros pre Hn; [done |]. cbn. destruct d as [|x d]; [done |].
  rewrite join_cons, !length_app in Hn. rewrite decide_False by (rewrite length_app; lia). apply IH. rewrite length_app. lia.
Qed.

(** What an upstream sends beyond the length it announced goes into the part
    that is written without a look at the length. *)
Lemma inspected_surplus_is_sent pre ds n limit : Forall (λ d, d ≠ []) ds → n < Z.of_nat (length (pre ++ mjoin ds)) ≤ limit →
  ∃ io, materialise read_at (Stream pre ((Data <$> ds) ++ [Data []]) (Some n) : Body File (list Event)) limit =
    Now (Some (pre ++ mjoin ds), Stream (pre ++ mjoin ds) io (Some (Z.of_nat (length (pre ++ mjoin ds))))).
Proof.
  intros Hds Hl. cbn [materialise]. rewrite bool_decide_eq_false_2 by lia. rewrite decide_False by (rewrite length_app in Hl; lia).
  destruct (read_stream_all limit 0 [] ds Hds pre) as (seen & rest & ds' & E & Hj & _ & -> & Hs); [rewrite length_app in Hl; lia |].
  cbn [replicate app] in E. rewrite E. cbn [mbind H3Conn.async_bind]. rewrite decide_True in Hs |- * by lia.
  specialize (Hs ltac:(by eexists)) as ->. cbn in Hj. rewrite app_nil_r in Hj. rewrite <-Hj. by eexists.
Qed.
End length_ignored.

(** ** What the engine is given *)

Section calls.
  Context {Regex File W : Type} (E : World Regex File (list Event) W).
  Context (loc_conf : Loc Regex → WafConf) (srv_conf : Ctx (Regex := Regex) → WafConf).
  Local Abbreviation Ctx := (Ctx (Regex := Regex)).
  Local Abbreviation Reply := (Reply File (list Event)).

Lemma foldl_calls {A} (f : A → Call) l : ∀ t, foldl (λ t a, call (f a) t) t l = mkTransaction (engine t) (calls t ++ (f <$> l)) (warned t).
Proof.
  induction l as [|a l IH]; intros t; [destruct t; cbn; by rewrite app_nil_r |]. cbn [foldl]. rewrite IH. cbn. by rewrite <-app_assoc.
Qed.

(** An address of the context, as text and port *)
Definition address (a : option SocketAddr) : bytes * Z :=
  match a with Some a => (push_addr (Some a), port a) | None => (str "127.0.0.1", 0) end.

Definition addressable (a : option SocketAddr) : Prop := (length (address a).1 < 64)%nat ∧ x00 ∉ (address a).1.

Lemma write_addr_spec a : addressable a → as_cstr 64 (write_addr a (cbuf_new 64)).1 = Some (address a).1 ∧ (write_addr a (cbuf_new 64)).2 = (address a).2.
Proof.
  destruct a as [a|]; [| by vm_compute]. intros [H1 H2]. cbn [write_addr fst snd address] in *. split; [|done].
  rewrite (cstr_whole_or_absent 64) by lia. cbn [mjoin list_join]. rewrite app_nil_r, decide_True by done. unfold c_str. by rewrite decide_False.
Qed.

(** The calls before the verdict on the head, and on the body *)
Definition head_calls (c : Ctx) : list Call :=
  [Connection (address (remote c)).1 (address (remote c)).2 (address (local c)).1 (address (local c)).2;
   CallUri (uri c ++ if decide (args c = []) then [] else str "?" ++ args c)
     (method_cstr (Request.method (req c))) (version_cstr (Request.minor (req c)))] ++
  ((λ h, RequestHeader (Request.slice (buf c) (Request.name h)) (Request.slice (buf c) (Request.value h))) <$> Request.headers (req c)) ++
  [ProcessRequestHeaders].

Definition body_calls (b : bytes) : list Call := (if decide (b = []) then [] else [AppendRequestBody b]) ++ [ProcessRequestBody].

Definition head_shown (c : Ctx) : Prop := addressable (remote c) ∧ addressable (local c) ∧ x00 ∉ uri c ∧ x00 ∉ args c.

Definition objects (e : Engine) (h : list Call) : bool := bool_decide ((rules e h).1 ≠ 0 ∧ disruptive (rules e h).2 ≠ 0).

Lemma intervention_spec t : ∃ v t', intervention t = (v, t') ∧ engine t' = engine t ∧ calls t' = calls t ++ [Ask] ∧
  if objects (engine t) (calls t) then
    ∃ s, 100 ≤ s ≤ 599 ∧ (s = i_status (rules (engine t) (calls t)).2 ∨ s = 403) ∧
      v = match url (rules (engine t) (calls t)).2 with None => Block s | Some u => RedirectTo s u end
  else v = Allow.
Proof.
  unfold intervention, objects. destruct (rules _ _) as [acted it]. cbn [fst snd]. case_decide as H.
  - rewrite bool_decide_eq_false_2 by tauto. by do 2 eexists.
  - rewrite bool_decide_eq_true_2 by tauto. do 2 eexists. split_and!; [done | done | done |].
    destruct (decide (100 ≤ i_status it ≤ 599)); eexists; (split; [| split; [|done]]); auto; lia.
Qed.

Lemma request_body_call b t : request_body b t = intervention (mkTransaction (engine t) (calls t ++ body_calls b) (warned t)).
Proof. unfold request_body, body_calls. case_decide; [done |]. unfold call. cbn. by rewrite <-app_assoc. Qed.

Lemma blocked_from_spec s u : 100 ≤ s ≤ 599 → let v := match u with None => Block s | Some u => RedirectTo s u end in
  v ≠ Allow ∧ match u with
  | None => blocked_from (File := File) v = BlockedStatus s
  | Some _ => ∃ r, blocked_from (File := File) v = BlockedReply r ∧ status (resp r) = s ∧ body r = Bytes []
  end.
Proof. intros Hs. destruct u; cbn; split; try done. by eexists. Qed.

Lemma head_given c t : head_shown c → calls t = [] →
  call ProcessRequestHeaders (header_calls c (uri_call c (connect_call c t))) = mkTransaction (engine t) (head_calls c) (warned t).
Proof.
  intros (Hr & Hl & Hu & Ha) Ht. unfold connect_call. destruct (write_addr_spec _ Hr) as [Er1 Er2], (write_addr_spec _ Hl) as [El1 El2].
  destruct (write_addr (remote c) _) as [cb cp], (write_addr (local c) _) as [sb sp]. cbn [fst snd] in *. rewrite Er1, El1, Er2, El2.
  unfold uri_call, uri_cstr, c_str. rewrite decide_False.
  2: { case_decide; [by rewrite app_nil_r |]. rewrite !elem_of_app. intros [?|[?%list_elem_of_singleton|?]]; done. }
  unfold header_calls. rewrite (foldl_calls (λ h, RequestHeader (Request.slice (buf c) (Request.name h)) (Request.slice (buf c) (Request.value h)))).
  unfold call. cbn. rewrite Ht. unfold head_calls. cbn. done.
Qed.

(** A request is given to the rules whole, from the addresses to the body, and
    goes on if and only if they object neither to the head nor to the body;
    one they object to is answered as they say, and no rule that only logs
    stops one. *)
Theorem request_inspected_whole (c : Ctx) k e : head_shown c →
  modsecurity_rules k = Some e → modsecurity k = true → opens e = true →
  match inspect_request (File := File) c k with
  | (None, Some t, None) =>
      objects e (head_calls c) = false ∧ objects e (head_calls c ++ [Ask] ++ body_calls (req_body c)) = false ∧
      engine t = e ∧ calls t = head_calls c ++ [Ask] ++ body_calls (req_body c) ++ [Ask]
  | (Some b, None, Some t) =>
      let h := if objects e (head_calls c) then head_calls c else head_calls c ++ [Ask] ++ body_calls (req_body c) in
      objects e h = true ∧ calls t = h ++ [Ask; Logging] ∧
      ∃ s, 100 ≤ s ≤ 599 ∧ (s = i_status (rules e h).2 ∨ s = 403) ∧
        match url (rules e h).2 with
        | None => b = BlockedStatus s
        | Some u => ∃ r, b = BlockedReply r ∧ status (resp r) = s ∧ body r = Bytes []
        end
  | _ => False
  end.
Proof.
  intros Hc Hk Hm Ho. unfold inspect_request, transaction. rewrite Hk, Hm, Ho. cbn [negb].
  unfold process_request_headers. rewrite head_given by done. cbn [engine warned].
  destruct (intervention_spec (mkTransaction e (head_calls c) [])) as (v & t & -> & He & Hcalls & Hv). cbn [engine calls] in *.
  destruct (objects e (head_calls c)) eqn:Eh.
  - destruct Hv as (s & Hs & Hst & ->). destruct (blocked_from_spec s (url (rules e (head_calls c)).2) Hs) as [Hna Hb].
    revert Hna Hb. destruct (url _) as [u|] eqn:Eu; intros Hna Hb; cbn [calls call]; rewrite ?Hcalls, <-?app_assoc;
      (split_and!; [done | done |]); exists s; (split; [exact Hs | split; [exact Hst | exact Hb]]).
  - subst v. rewrite request_body_call, He, Hcalls, <-!app_assoc.
    destruct (intervention_spec (mkTransaction e (head_calls c ++ [Ask] ++ body_calls (req_body c)) (warned t))) as (v & t' & -> & He' & Hcalls' & Hv).
    cbn [engine calls] in *. set (h := head_calls c ++ [Ask] ++ body_calls (req_body c)) in *. destruct (objects e h) eqn:Eb.
    + destruct Hv as (s & Hs & Hst & ->). destruct (blocked_from_spec s (url (rules e h).2) Hs) as [Hna Hb].
      revert Hna Hb. destruct (url _) as [u|] eqn:Eu; intros Hna Hb; cbn [calls call]; rewrite ?Hcalls', <-?app_assoc;
        (split_and!; [done | unfold h; rewrite <-?app_assoc; done |]); exists s; (split; [exact Hs | split; [exact Hst | exact Hb]]).
    + subst v. split_and!; [done | done | done |]. rewrite Hcalls'. unfold h. by rewrite <-!app_assoc.
Qed.

Definition reply_body_calls (b : bytes) : list Call := (if decide (b = []) then [] else [AppendResponseBody b]) ++ [ProcessResponseBody].

Lemma response_body_call b t : response_body b t = intervention (mkTransaction (engine t) (calls t ++ reply_body_calls b) (warned t)).
Proof. unfold response_body, reply_body_calls. case_decide; [done |]. unfold call. cbn. by rewrite <-app_assoc. Qed.

Definition reply_calls (c : Ctx) (r : Reply) : list Call :=
  ((λ f, ResponseHeader (fst f) (snd f)) <$> fields (resp r)) ++ [ProcessResponseHeaders (status (resp r)) (version_cstr (Request.minor (req c)))].

(** How an objection shows in the answer *)
Definition answers (e : Engine) (h : list Call) (b : option (Blocked File (list Event))) : Prop :=
  if objects e h then
    ∃ s, 100 ≤ s ≤ 599 ∧ (s = i_status (rules e h).2 ∨ s = 403) ∧
      match url (rules e h).2 with
      | None => b = Some (BlockedStatus s)
      | Some u => ∃ r, b = Some (BlockedReply r) ∧ status (resp r) = s ∧ body r = Bytes []
      end
  else b = None.

Lemma answers_verdict e t v : engine t = e → (intervention t).1 = v →
  answers e (calls t) (match v with Allow => None | v => Some (blocked_from v) end).
Proof.
  intros <- <-. destruct (intervention_spec t) as (v & t' & -> & _ & _ & Hv). unfold answers. cbn [fst]. destruct (objects _ _); [| by subst].
  destruct Hv as (s & Hs & Hst & ->). exists s. split; [done |]. split; [done |].
  destruct (blocked_from_spec s (url (rules (engine t) (calls t)).2) Hs) as [_ Hb]. destruct (url _); [| done]. by eexists.
Qed.

(** The rules that saw the request see the reply, in the same transaction: its
    head, and its body where that is asked for and within the limit; their
    logging phase comes last, and the reply can still be sent as it was. *)
Lemma reply_spec (c : Ctx) k t (r : Reply) n p : 0 ≤ modsecurity_response_body_limit k → (0 < n)%nat →
  carries read_at (S n) (body r) p →
  let h := calls t ++ reply_calls c r in
  let full := negb (objects (engine t) h) && modsecurity_response_body k && bool_decide (Z.of_nat (length p) ≤ modsecurity_response_body_limit k) in
  let last := if full then h ++ [Ask] ++ reply_body_calls p else h in
  ∃ b r' t', inspect_response read_at c k (Some t) r = Now (b, r', Some t') ∧
    calls t' = last ++ [Ask; Logging] ∧ answers (engine t) last b ∧
    resp r' = resp r ∧ carries read_at n (body r') p.
Proof.
  intros Hk Hn Hp h full last. unfold inspect_response, process_response_headers.
  rewrite (foldl_calls (λ f, ResponseHeader (fst f) (snd f))). unfold call at 1. cbn [engine calls warned].
  rewrite <-app_assoc. fold (reply_calls c r). fold h.
  pose proof (answers_verdict (engine t) (mkTransaction (engine t) h (warned t)) _ eq_refl eq_refl) as Hans.
  destruct (intervention_spec (mkTransaction (engine t) h (warned t))) as (v & t1 & E1 & He & Hcalls & Hv). rewrite E1 in *. cbn [engine calls fst] in *.
  assert (carries read_at n (body r) p) as Hlast by by apply carries_once_less.
  destruct (objects (engine t) h) eqn:Eh.
  - assert (v ≠ Allow) as Hv1 by (destruct Hv as (s & _ & _ & ->); by destruct (url _)).
    rewrite bool_decide_eq_false_2 by done. cbn [andb mbind H3Conn.async_bind]. unfold last, full. cbn [negb andb].
    do 3 eexists. split_and!; [done | cbn [calls call]; by rewrite Hcalls, <-app_assoc | exact Hans | done | done].
  - subst v. rewrite bool_decide_eq_true_2 by done. cbn [andb negb] in *. destruct (modsecurity_response_body k) eqn:Eb; cbn [andb] in *.
    + destruct (inspected_body_is_the_body read_at n (body r) p _ Hk Hn Hp) as (b' & -> & Hb'). cbn [mbind H3Conn.async_bind].
      case_decide as Hlim; [| do 3 eexists; unfold last, full; rewrite bool_decide_eq_false_2 by done;
        split_and!; [done | cbn [calls call]; by rewrite Hcalls, <-app_assoc | by unfold answers; rewrite Eh | done | done]].
      rewrite response_body_call, He, Hcalls. unfold last, full. rewrite bool_decide_eq_true_2 by done.
      rewrite <-app_assoc. set (h2 := h ++ [Ask] ++ reply_body_calls p).
      pose proof (answers_verdict (engine t) (mkTransaction (engine t) h2 (warned t1)) _ eq_refl eq_refl) as Hans2.
      destruct (intervention_spec (mkTransaction (engine t) h2 (warned t1))) as (v & t2 & E2 & He2 & Hcalls2 & _). rewrite E2 in *. cbn [engine calls fst] in *.
      do 3 eexists. split_and!; [done | cbn [calls call]; by rewrite Hcalls2, <-app_assoc | exact Hans2 | done | done].
    + do 3 eexists. unfold last, full. split_and!; [done | cbn [calls call]; by rewrite Hcalls, <-app_assoc | by unfold answers; rewrite Eh | done | done].
Qed.

(** Rules that only watch, as with [SecRuleEngine DetectionOnly] *)
Definition watches_only (e : Engine) : Prop := ∀ h, (rules e h).1 = 0 ∨ disruptive (rules e h).2 = 0.

Lemma watches_objects e h : watches_only e → objects e h = false.
Proof. intros He. unfold objects. apply bool_decide_eq_false. destruct (He h); tauto. Qed.

Lemma watches_intervention t : watches_only (engine t) → ∃ t', intervention t = (Allow, t') ∧ engine t' = engine t.
Proof.
  intros He. destruct (intervention_spec t) as (v & t' & E1 & Ht & _ & Hv). rewrite watches_objects in Hv by done. subst v. by exists t'.
Qed.

Definition watching (t : option Transaction) : Prop := ∀ x, t = Some x → watches_only (engine x).

Lemma request_watched (c : Ctx) k : (∀ e, modsecurity_rules k = Some e → watches_only e) →
  ∃ t, inspect_request (File := File) c k = (None, t, None) ∧ watching t.
Proof.
  intros He. unfold inspect_request. destruct (modsecurity_rules _) as [e|]; [| by exists None]. specialize (He e eq_refl).
  destruct (negb _); [by exists None |]. unfold transaction. destruct (opens e); [| by exists None].
  unfold process_request_headers. set (t := call ProcessRequestHeaders _).
  assert (engine t = e) as Ht.
  { unfold t, header_calls. rewrite (foldl_calls (λ h, RequestHeader (Request.slice (buf c) (Request.name h)) (Request.slice (buf c) (Request.value h)))). cbn.
    unfold uri_call. destruct (uri_cstr _ _); cbn; unfold connect_call; destruct (write_addr (remote c) _), (write_addr (local c) _); by repeat case_match. }
  destruct (watches_intervention t) as (t1 & -> & E1); [by rewrite Ht |].
  rewrite request_body_call. destruct (watches_intervention (mkTransaction (engine t1) (calls t1 ++ body_calls (req_body c)) (warned t1))) as (t2 & -> & E2); [cbn; by rewrite E1, Ht |].
  exists (Some t2). split; [done |]. intros x [= <-]. by rewrite E2; cbn; rewrite E1, Ht.
Qed.

Lemma reply_watched (c : Ctx) k t (r : Reply) n p : 0 ≤ modsecurity_response_body_limit k → (0 < n)%nat →
  watching t → carries read_at (S n) (body r) p →
  ∃ r' t', inspect_response read_at c k t r = Now (None, r', t') ∧ resp r' = resp r ∧ carries read_at n (body r') p.
Proof.
  intros Hk Hn Ht Hp. destruct t as [t|]; [| exists r, None; split_and!; [done | done | by apply carries_once_less]].
  destruct (reply_spec c k t r n p Hk Hn Hp) as (b & r' & t' & -> & _ & Hb & Hr & Hc).
  unfold answers in Hb. rewrite watches_objects in Hb by (by apply Ht). subst b. by do 2 eexists.
Qed.
End calls.

(** ** The handler beside the engine *)

Section beside.
  Context {Regex File W : Type} (E : World Regex File (list Event) W).
  Context (loc_conf : Loc Regex → WafConf).
  Local Abbreviation Ctx := (Ctx (Regex := Regex)).
  Local Abbreviation Reply := (Reply File (list Event)).

(** *** What the engine does not touch *)

Local Abbreviation on := (with_waf E loc_conf).
Local Abbreviation off := (without_waf E).

Lemma rewrites_beside t w l : ∀ c, run_rewrites (H := on) c (w, t) l = run_rewrites (H := off) c w l.
Proof.
  induction l as [|r l IH]; intros c; [done |]. cbn [run_rewrites].
  change (render (H := on) ?a (w, t)) with (render (H := off) a w).
  change (groups (World := on)) with (groups (World := off)).
  destruct (groups _ _) as [g|]; [| apply IH]. 
  repeat (case_match; try done; try apply IH).
Qed.

Lemma actions_beside t w l : ∀ c, run_actions (H := on) c (w, t) l = run_actions (H := off) c w l.
Proof.
  induction l as [|a l IH]; intros c; [done |]. destruct a; cbn [run_actions]; try done; try apply IH.
  rewrite rewrites_beside. destruct (run_rewrites _ _ _) as [[s|] c1]; [done | apply IH].
Qed.

Lemma ifs_beside t w l : ∀ c, run_ifs (H := on) c (w, t) l = run_ifs (H := off) c w l.
Proof.
  induction l as [|b l IH]; intros c; [done |]. cbn [run_ifs].
  change (eval_cond (H := on) ?a (w, t)) with (eval_cond (H := off) a w). rewrite actions_beside.
  repeat (case_match; try done; try apply IH).
Qed.

Lemma try_items_beside t w c root l : try_items (H := on) c (w, t) root l = try_items (H := off) c w root l.
Proof.
  induction l as [|x l IH]; [done |]. cbn [try_items].
  change (render (H := on) ?a (w, t)) with (render (H := off) a w).
  change (metadata (World := on) (w, t)) with (metadata (World := off) w).
  repeat (case_match; try done; try apply IH).
Qed.

Lemma try_files_beside t w c k tf : run_try_files (H := on) c (w, t) k tf = run_try_files (H := off) c w k tf.
Proof.
  unfold run_try_files. change (root_path (H := on) c (w, t) k) with (root_path (H := off) c w k).
  rewrite try_items_beside.
  destruct (try_items _ _ _ _); [done |]. by destruct (tf_fallback tf).
Qed.

Lemma limit_conn_beside c k l : ∀ w t,
  apply_limit_conn (H := on) c k l (w, t) = beside t (apply_limit_conn (H := off) c k l w).
Proof.
  induction l as [|x l IH]; intros w t; [done |]. cbn [apply_limit_conn].
  change (conn_key (World := on)) with (conn_key (World := off)). destruct (conn_key _) as [o|]; [| apply IH].
  change (render (H := on) c (w, t)) with (render (H := off) c w).
  case_decide; [apply IH |]. change (acquire (World := on) ?a ?b ?n (w, t)) with (beside t (acquire (World := off) a b n w)).
  destruct (acquire _ _ _ _) as [b w1]. cbn [beside fst snd]. destruct (b || _); [apply IH | done].
Qed.

Lemma limit_req_beside c k l : ∀ w t n,
  apply_limit_req (H := on) c k l n (w, t) = beside t (apply_limit_req (H := off) c k l n w).
Proof.
  induction l as [|x l IH]; intros w t n; cbn [apply_limit_req]; [by case_decide |].
  change (req_key (World := on)) with (req_key (World := off)). destruct (req_key _) as [o|]; [| apply IH].
  change (render (H := on) c (w, t)) with (render (H := off) c w).
  case_decide; [apply IH |].
  change (check (World := on) ?a ?b ?n ?d ?e (w, t)) with (beside t (check (World := off) a b n d e w)).
  destruct (check _ _ _ _ _ _) as [[] w1]; cbn [beside fst snd]; [apply IH | apply IH | done].
Qed.

Lemma limits_beside c k w t : apply_limits (H := on) c k (w, t) = beside t (apply_limits (H := off) c k w).
Proof.
  unfold apply_limits. rewrite limit_conn_beside. destruct (apply_limit_conn (H := off) _ _ _ _) as [[s|] w1]; cbn [beside fst snd]; [done |].
  case_decide; [done | apply limit_req_beside].
Qed.

Lemma action_beside c l w t :
  run_action (H := on) c l (w, t) = let '(s, c, w) := run_action (H := off) c l w in (s, c, (w, t)).
Proof.
  unfold run_action. destruct (action (payload l)); try done; cbn [serve proxy_pass fastcgi_pass with_waf without_waf fst snd];
    match goal with
    | |- context [@proxy_pass _ _ _ _ E ?a ?b ?p ?x] => by destruct (@proxy_pass _ _ _ _ E a b p x) as [[? ?] ?]
    | |- context [@fastcgi_pass _ _ _ _ E ?a ?b ?p ?x] => by destruct (@fastcgi_pass _ _ _ _ E a b p x) as [[? ?] ?]
    | |- context [@serve _ _ _ _ E ?a ?b ?x] => by destruct (@serve _ _ _ _ E a b x) as [[? ?] ?]
    end.
Qed.

Lemma content_beside c l w t :
  content (H := on) c l (w, t) = let '(s, c, w) := content (H := off) c l w in (s, c, (w, t)).
Proof.
  unfold content. rewrite rewrites_beside. destruct (run_rewrites _ _ _) as [[s|] c1]; [done |].
  rewrite ifs_beside. destruct (run_ifs _ _ _) as [[s|] c2]; [done |].
  destruct (try_files (payload l)) as [tf|]; [rewrite try_files_beside; destruct (run_try_files _ _ _ _) as [[s|] c3]; [done |] |];
    apply action_beside.
Qed.

(** *** Rules that only watch *)

Context (Hw : ∀ l e, modsecurity_rules (loc_conf l) = Some e → watches_only e).
Context (sub' : Ctx → W * option Transaction → Reply * (W * option Transaction)) (sub : Ctx → W → Reply * W)
  (Hsub : ∀ c w t, watching t → ∃ t', watching t' ∧ sub' c (w, t) = beside t' (sub c w)).

Lemma auth_beside c u k w t : watching t → ∃ t', watching t' ∧
  run_auth_request (H := on) sub' c u k (w, t) =
  let '(r, c, w) := run_auth_request (H := off) sub c u k w in (r, c, (w, t')).
Proof.
  intros Ht. unfold run_auth_request. case_decide; [by exists t |]. destruct (Request.from_parts _ _ _) as [b r].
  destruct (Uri.normalize _) as [path|]; [| by exists t]. cbv zeta.
  match goal with |- context [sub' ?s (w, t)] => destruct (Hsub s w t Ht) as (t' & Ht' & ->) end.
  destruct (sub _ w) as [reply w1]. by exists t'.
Qed.

Lemma dispatch_beside c l i w t : watching t → ∃ t', watching t' ∧
  dispatch (H := on) sub' c l i (w, t) = let '(s, c, w) := dispatch (H := off) sub c l i w in (s, c, (w, t')).
Proof.
  intros Ht. unfold dispatch. destruct (internal _ && _); [by exists t |].
  assert ((if i then (None, (w, t)) else apply_limits (H := on) c (core (payload l)) (w, t)) =
    beside t (if i then (None, w) else apply_limits (H := off) c (core (payload l)) w)) as ->.
  { destruct i; [done | apply limits_beside]. }
  destruct (if i then _ else _) as [[s|] w1]; cbn [beside fst snd]; [by exists t |].
  destruct (negb _); [by exists t |].
  assert (∃ t', watching t' ∧ (if i then (None, (w1, t)) else inspect (World := on) c l (w1, t)) = (None, (w1, t'))) as (t1 & Ht1 & ->).
  { destruct i; [by exists t |]. cbn. destruct (request_watched (File := File) c (loc_conf l) (Hw l)) as (o & -> & Ho).
    eexists. split; [| done]. by destruct o. }
  assert ((if i then (None, w1) else inspect (World := off) c l w1) = (None, w1)) as -> by by destruct i.
  destruct (auth_request _) as [u|]; [| exists t1; split; [done | apply content_beside]].
  destruct (auth_beside c u (core (payload l)) w1 t1 Ht1) as (t2 & Ht2 & ->). exists t2. split; [done |].
  destruct (run_auth_request _ _ _ _ _) as [[[[]|code] c1] w2]; [apply content_beside | done].
Qed.

Lemma route_beside c i w t : watching t → ∃ t', watching t' ∧
  route (H := on) sub' c i (w, t) = let '(s, c, w) := route (H := off) sub c i w in (s, c, (w, t')).
Proof.
  intros Ht. unfold route. change (search (H := on)) with (search (H := off)).
  destruct (search _ _) as [[l|] caps]; [by apply dispatch_beside |].
  set (c1 := put_matched None _).
  assert ((if i then (None, (w, t)) else apply_limits (H := on) c1 (s_core (conf (server c1))) (w, t)) =
    beside t (if i then (None, w) else apply_limits (H := off) c1 (s_core (conf (server c1))) w)) as ->.
  { destruct i; [done | apply limits_beside]. }
  exists t. split; [done |]. destruct (if i then _ else _) as [[s|] w1]; cbn [beside fst snd]; [done |].
  destruct (s_action _); try done; cbn [serve with_waf without_waf snd fst];
    match goal with |- context [@serve _ _ _ _ E ?a ?b ?x] => by destruct (@serve _ _ _ _ E a b x) as [[? ?] ?] end.
Qed.

Lemma pass_beside c n i w t : watching t → ∃ t', watching t' ∧
  pass (H := on) sub' c n i (w, t) = let '(s, c, w) := pass (H := off) sub c n i w in (s, c, (w, t')).
Proof.
  intros Ht. unfold pass. destruct n as [n|]; [| by apply route_beside].
  destruct (assoc _ _) as [l|]; [by apply dispatch_beside | by exists t].
Qed.

Lemma passes_beside fuel : ∀ c n i s w t, watching t → ∃ t', watching t' ∧
  passes (H := on) sub' fuel c n i s (w, t) =
  (λ '(r, c, w), (r, c, (w, t'))) <$> passes (H := off) sub fuel c n i s w.
Proof.
  induction fuel as [|fuel IH]; intros c n i s w t Ht; [by exists t |]. cbn [passes].
  destruct (pass_beside c n i w t Ht) as (t1 & Ht1 & ->).
  destruct (pass (H := off) sub c n i w) as [[[r|code|u|m] c1] w1]; [by exists t1 | | |]; cbv zeta.
  - change (error_page_for (H := on) c1 (w1, t1) code) with (error_page_for (H := off) c1 w1 code).
    destruct (error_page_for _ _ _) as [[u r|m r|url r]|]; [| | by exists t1 | by exists t1];
      (case_decide; [by exists t1 | by apply IH]).
  - case_decide; [by exists t1 | by apply IH].
  - case_decide; [by exists t1 | by apply IH].
Qed.

Lemma run_handle_beside c w t : watching t → ∃ t', watching t' ∧
  run_handle (H := on) sub' c (w, t) = let '(r, c, w) := run_handle (H := off) sub c w in (r, c, (w, t')).
Proof.
  intros Ht. unfold run_handle, handle_inner. rewrite rewrites_beside.
  change (server_phase (H := on) ?a (w, t)) with (server_phase (H := off) a w).
  destruct (server_phase _ _ _) as [[r|] c1]; [by exists t |].
  rewrite ifs_beside. destruct (server_phase _ _ _) as [[r|] c2]; [by exists t |].
  destruct (passes_beside (fuel_for c) c2 None (bool_decide (0 < auth_depth c2)) None w t Ht) as (t' & Ht' & ->).
  destruct (passes (H := off) _ _ _ _ _ _ _) as [[[r3 c3] w3]|]; [by exists t' | by exists t].
Qed.
End beside.

Section theorems.
  Context {Regex File W : Type} (E : World Regex File (list Event) W).
  Context (loc_conf : Loc Regex → WafConf) (srv_conf : Ctx (Regex := Regex) → WafConf).
  Local Abbreviation Ctx := (Ctx (Regex := Regex)).

Lemma handle_beside c w : (∀ l e, modsecurity_rules (loc_conf l) = Some e → watches_only e) → ∃ t, watching t ∧
  handle (H := with_waf E loc_conf) c (w, None) =
  let '(r, c, w) := handle (H := without_waf E) c w in (r, c, (w, t)).
Proof.
  intros Hw. unfold handle. apply run_handle_beside; [done | | done]. intros c1 w1 t1 Ht1.
  destruct (run_handle_beside E loc_conf Hw (λ c w, (error_reply c 500, w)) (λ c w, (error_reply c 500, w))
    (λ c w t H, ex_intro _ t (conj H eq_refl)) c1 w1 t1 Ht1) as (t2 & Ht2 & H2).
  exists t2. split; [done |]. rewrite H2. destruct (run_handle (H := without_waf E) _ _ _) as [[r c2] w2]. done.
Qed.
(** A server whose rules only watch answers as one without rules: the same
    head, the same body, the same context and world. *)
Theorem watching_changes_nothing c w n :
  (∀ l e, modsecurity_rules (loc_conf l) = Some e → watches_only e) →
  (∀ l, 0 ≤ modsecurity_response_body_limit (loc_conf l)) → (∀ c, 0 ≤ modsecurity_response_body_limit (srv_conf c)) → (0 < n)%nat →
  let '(r, c', w') := handle (H := without_waf E) c w in
  ∀ p, carries (Handler.read_at (World := E)) (S n) (body r) p →
    ∃ r', handle_waf E loc_conf srv_conf c w = Now (r', c', w') ∧ resp r' = resp r ∧ carries (Handler.read_at (World := E)) n (body r') p.
Proof.
  intros Hw Hl Hs Hn. destruct (handle_beside c w Hw) as (t & Ht & Eh). unfold handle_waf. rewrite Eh.
  destruct (handle (H := without_waf E) c w) as [[r c'] w']. intros p Hp.
  set (k := match matched c' with Some l => loc_conf l | None => srv_conf c' end).
  destruct (reply_watched E c' k t r n p) as (r' & t' & -> & Hr & Hc); [by unfold k; destruct (matched c') | done | done | done |].
  cbn [mbind H3Conn.async_bind]. by exists r'.
Qed.

(** A request the rules refuse ends there: nobody is asked to authorise it
    and no content is looked for. *)
Theorem refused_goes_no_further sub c l w w1 t (b : Blocked File (list Event)) o :
  let k := payload l in
  internal (core k) = false → apply_limits (H := with_waf E loc_conf) c (core k) (w, t) = (None, (w1, t)) → allowed c k = true →
  inspect_request c (loc_conf l) = (Some b, None, o) →
  dispatch (H := with_waf E loc_conf) sub c l false (w, t) =
  (match b with BlockedStatus code => StepFail code | BlockedReply r => Handler.Done r end, c, (w1, t)).
Proof.
  intros k Hi Hl Ha Hb. unfold dispatch. fold k. rewrite Hi, Hl, Ha. cbn [andb negb inspect with_waf]. rewrite Hb. by destruct b.
Qed.

(** What no location matches is never inspected, whatever the rules of the
    server, and its reply is not either. *)
Theorem unmatched_is_not_inspected sub c i w :
  (search (H := with_waf E loc_conf) (s_locations (conf (server c))) (uri c)).1 = None →
  (route (H := with_waf E loc_conf) sub c i (w, None)).2.2 = None ∧
  ∀ k r, inspect_response (Handler.read_at (World := E)) c k None r = Now (None, r, None).
Proof.
  intros Hn. split; [| done]. unfold route. destruct (search _ _) as [[l|] caps]; [done |]. cbv zeta.
  set (c1 := put_matched None _).
  assert ((if i then (None, (w, None)) else apply_limits (H := with_waf E loc_conf) c1 (s_core (conf (server c1))) (w, None)) =
    beside None (if i then (None, w) else apply_limits (H := without_waf E) c1 (s_core (conf (server c1))) w)) as ->.
  { destruct i; [done | apply limits_beside]. }
  destruct (if i then _ else _) as [[s|] w1]; cbn [beside fst snd]; [done |].
  destruct (s_action _); try done; cbn [serve with_waf snd fst];
    match goal with |- context [@serve _ _ _ _ E ?a ?b ?x] => by destruct (@serve _ _ _ _ E a b x) as [[? ?] ?] end.
Qed.

(** The body the rules see is the one compression made: a pattern that would
    match the page is not found in it. *)
Theorem compressed_before_inspection c k r raw out limit :
  gzip_wanted c k r = true → body_bytes_of (H := E) (body r) = Some raw →
  gzip_encode (World := E) (gz_level (gzip k)) raw = Some out → Z.of_nat (length out) ≤ limit →
  materialise (Handler.read_at (World := E)) (body (maybe_gzip (H := E) c k r)) limit = Now (Some out, Bytes out).
Proof.
  intros Hg Hb Ho Hl. unfold maybe_gzip. rewrite Hg, Hb. cbn [mbind option_bind]. rewrite Ho. cbn. by rewrite decide_True.
Qed.
End theorems.

(** [modsecurity off] in the location that answers does not keep its replies
    from the rules of the location the request came through. *)
Theorem response_ignores_off {Regex File} read_at (c : Ctx (Regex := Regex)) k (t : option Transaction) (r : Reply File (list Event)) :
  inspect_response read_at c k t r =
  inspect_response read_at c (mkWafConf None false (modsecurity_response_body k) (modsecurity_response_body_limit k)) t r.
Proof. reflexivity. Qed.

(** A redirect the rules ask for announces its length twice. *)
Lemma redirect_announces_length_twice :
  match blocked_from (File := unit) (RedirectTo 302 (str "/no")) with
  | BlockedReply r => filter (λ f, fst f = str "Content-Length")
      (own_fields TokensOn [] (resp (frame true r)) ++ fields (resp (frame true r))) =
      [(str "Content-Length", str "0"); (str "Content-Length", str "0")]
  | BlockedStatus _ => False
  end.
Proof. by vm_compute. Qed.

(** ** At concrete inputs *)

Definition waf_world : World bytes unit (list Event) unit :=
  {| groups r s := if starts_with r s then Some [] else None;
     env _ := mkEnv [] 0 0 0 [] [] (λ _, []);
     metadata _ _ := None;
     conn_key _ := None;
     acquire _ _ _ w := (true, w);
     req_key _ := None;
     check _ _ _ _ _ w := (LimitReq.Pass, w);
     sleep _ w := w;
     serve c _ w := (ServedReply (mkReply new (Stream (str "pa") [Data (str "ge"); Data []; Data []] None)), c, w);
     proxy_pass c _ _ w := (Err 502, c, w);
     fastcgi_pass c _ _ w := (Err 502, c, w);
     stub_body _ _ := [];
     inspect _ _ w := (None, w);
     read_at _ _ _ := None;
     gzip_encode _ b := Some (str "gz" ++ b) |}.

(** [SecRule ARGS "@rx <" "deny,status:403"], acting or only logging *)
Definition sample_engine (acting : Z) : Engine :=
  mkEngine true (λ h, (if existsb (λ c, match c with CallUri u _ _ => bool_decide (is_Some (Text.find "<"%byte u)) | _ => false end) h then 1 else 0,
    mkIntervention 403 None None acting)).

Definition sample_conf (acting : Z) : WafConf := mkWafConf (Some (sample_engine acting)) true true 1024.

Definition attack : Ctx (Regex := bytes) := put_args (str "q=<script>") (sample_request (str "/p")).

Lemma request_inspected_whole_witness :
  match inspect_request (File := unit) attack (sample_conf 1) with
  | (Some (BlockedStatus 403), None, Some t) => calls t = head_calls attack ++ [Ask; Logging]
  | _ => False
  end.
Proof.
  pose proof (request_inspected_whole (File := unit) attack (sample_conf 1) (sample_engine 1)) as H.
  destruct H as (_ & H & _); [| done | done | done |].
  - repeat split; try (vm_compute; lia); by apply (bool_decide_unpack _); vm_compute.
  - exact H.
Defined.

Lemma watching_changes_nothing_witness :
  ∃ r', handle_waf waf_world (λ _, sample_conf 0) (λ _, sample_conf 0) attack tt = Now (r', (handle (H := without_waf waf_world) attack tt).1.2, tt) ∧
    carries (λ _ _ _, None) 1 (body r') (str "page").
Proof.
  pose proof (watching_changes_nothing waf_world (λ _, sample_conf 0) (λ _, sample_conf 0) attack tt 1) as H.
  destruct (H ltac:(intros l e He h; right; by injection He as <-) ltac:(by intros l) ltac:(by intros c) ltac:(lia) (str "page")) as (r' & Hr & _ & Hc).
  - apply (carries_stream _ 2 (str "pa") _ None [str "ge"] []); [by vm_compute | by repeat constructor | by left].
  - exists r'. split; [exact Hr | exact Hc].
Defined.
