(* ===== verification/Entry.v ===== *)
(** * [src/main.rs] and [src/config/mod.rs]: from the command line to a server

    The options, the file they name read into a configuration ([Ast] and
    [Build] one after the other), and what is then done with it: tested,
    printed, served, or asked for the master's process number so that a signal
    can be sent to it ([signal_master] of [src/server/mod.rs]). The operating
    system's answers - which files exist, what they hold, whether a signal is
    delivered - are arguments, and what the program does is a list of acts. *)
From S2P Require Import Prelude.
From S2P Require Import Text.
From S2P Require Import Ast.
From S2P Require Import Args.
From S2P Require Import Level.
From S2P Require Import Server.
From S2P Require Import Build.
From S2P Require Import Response.
From S2P Require Import Ctx.
From S2P Require Import Handler.

Open Scope oxi_scope.
Open Scope Z_scope.

(** ** [config/mod.rs] *)

Inductive LoadError := ParseFailed (e : ParseError) | BuildFailed (e : BuildError).

(** [Display], of the error and of the two it wraps *)
Definition show_error (e : LoadError) : bytes :=
  match e with
  | ParseFailed e => msg e ++ str " in " ++ err_file e ++ str ":" ++ fmt_i64 (err_line e)
  | BuildFailed e => e_msg e ++ str " in " ++ e_loc e
  end.

Inductive Loaded (A : Type) := Loads (a : A) | Refused (e : LoadError) | Aborts.
Arguments Loads {A} a.
Arguments Refused {A} e.
Arguments Aborts {A}.

Section load.
  Context {Regex : Type} `{!Crates Regex} (fs : FileSystem) (stack : nat).

(** [config::load]; a parser whose recursion outgrows the stack aborts
    ([Ast.parse_file_total], [Ast.deep_blocks_overflow]). *)
Definition load (path prefix : bytes) : Loaded (Config Regex) :=
  match parse_file fs stack path with
  | None => Aborts
  | Some (Err e) => Refused (ParseFailed e)
  | Some (Ok tree) =>
      match build stack prefix tree with
      | Fine c => Loads c
      | Bad e => Refused (BuildFailed e)
      | Panic => Aborts
      end
  end.

(** [config::dump] *)
Definition dump_config (path : bytes) : Loaded bytes :=
  match parse_file fs stack path with
  | None => Aborts
  | Some (Err e) => Refused (ParseFailed e)
  | Some (Ok tree) => Loads (dump tree 0)
  end.
End load.

(** ** [main.rs] *)

Record Options := mkOptions {
  o_signal : option bytes;
  o_conf : option bytes;
  o_prefix : bytes;
  o_test : bool;
  o_dump : bool;
  o_quiet : bool
}.

Definition no_options : Options := mkOptions None None (str ".") false false false.

(** How reading the options ends: with what to do, with a text, or with a
    complaint. *)
Inductive Parsed := Go (a : Options) | Says (text : bytes) | Fails (msg : bytes).

Definition line (s : bytes) : bytes := s ++ [x0a].

Definition USAGE : bytes :=
  mjoin (line <$> [
    str "oxiserve " ++ [xe2; x80; x94] ++ str " an nginx-configuration-compatible web server";
    [];
    str "Usage: oxiserve [options]";
    [];
    str "  -c FILE    configuration file (default: <prefix>/conf/oxiserve.conf)";
    str "  -p PATH    prefix for relative paths in the configuration (default: .)";
    str "  -s SIGNAL  send a signal to a running master: stop, quit, reload, reopen";
    str "  -t         test the configuration and exit";
    str "  -T         test the configuration, print it, and exit";
    str "  -q         suppress non-error messages during configuration testing";
    str "  -v         print version and exit";
    str "  -V         print version and build configuration, then exit";
    str "  -h         this message"]).

Definition version_line : bytes := line (str "oxiserve version: oxiserve/" ++ VERSION).

Definition build_lines : bytes :=
  version_line ++ line (str "built with rustc (edition 2021)") ++
  line (str "configure arguments: --with-http_ssl_module --with-http_gzip_module").

(** The loop over the arguments *)
Fixpoint parse_args (l : list bytes) (a : Options) : Parsed :=
  match l with
  | [] => Go a
  | x :: l =>
      if decide (x = str "-c") then
        match l with
        | v :: l => parse_args l (mkOptions (o_signal a) (Some v) (o_prefix a) (o_test a) (o_dump a) (o_quiet a))
        | [] => Fails (str "option " ++ q (str "-c") ++ str " requires a file name")
        end
      else if decide (x = str "-p") then
        match l with
        | v :: l => parse_args l (mkOptions (o_signal a) (o_conf a) v (o_test a) (o_dump a) (o_quiet a))
        | [] => Fails (str "option " ++ q (str "-p") ++ str " requires a directory name")
        end
      else if decide (x = str "-s") then
        match l with
        | v :: l => parse_args l (mkOptions (Some v) (o_conf a) (o_prefix a) (o_test a) (o_dump a) (o_quiet a))
        | [] => Fails (str "option " ++ q (str "-s") ++ str " requires a signal name")
        end
      else if decide (x = str "-t") then
        parse_args l (mkOptions (o_signal a) (o_conf a) (o_prefix a) true (o_dump a) (o_quiet a))
      else if decide (x = str "-T") then
        parse_args l (mkOptions (o_signal a) (o_conf a) (o_prefix a) true true (o_quiet a))
      else if decide (x = str "-q") then
        parse_args l (mkOptions (o_signal a) (o_conf a) (o_prefix a) (o_test a) (o_dump a) true)
      else if decide (x = str "-v") then Says version_line
      else if decide (x = str "-V") then Says build_lines
      else if decide (x = str "-h" ∨ x = str "--help") then Says USAGE
      else Fails (str "invalid option: " ++ q x)
  end.

(** ** What is done *)

Definition SIGHUP : Z := 1.
Definition SIGQUIT : Z := 3.
Definition SIGUSR1 : Z := 10.
Definition SIGTERM : Z := 15.

Section main.
  Context {Regex : Type}.
  Local Abbreviation Config := (Config Regex).

Inductive Act := Kill (pid sig : Z) | Serve (c : Config).

(** [ExitCode], the two outputs, and what was done besides *)
Record Exit := mkExit { success : bool; out : bytes; err : list bytes; acts : list Act }.

(** What the program asks the system: the configuration of a file under a
    prefix, its dump, whether a file exists, its text, the delivery of a
    signal, and how serving a configuration ends. *)
Class Sys := {
  load_file : bytes → bytes → Loaded Config;
  dump_file : bytes → Loaded bytes;
  exists_file : bytes → bool;
  read_text : bytes → result bytes bytes;
  kill : Z → Z → result bytes unit;
  run_from : Config → result bytes unit
}.
Context `{!Sys}.

(** [text.trim().parse::<pid_t>()] *)
Definition parse_i32 (s : bytes) : option Z :=
  match s with
  | [] => None
  | c :: r =>
      if decide (c = "-"%byte) then match r with [] => None | _ => Z.opp <$> parse_digits (2 ^ 31) 0 r end
      else parse_uint (2 ^ 31 - 1) s
  end.

Definition signal_number (name : bytes) : option Z :=
  if decide (name = str "stop") then Some SIGTERM
  else if decide (name = str "quit") then Some SIGQUIT
  else if decide (name = str "reload") then Some SIGHUP
  else if decide (name = str "reopen") then Some SIGUSR1
  else None.

(** [signal_master]; [None] is an abort of the loading. *)
Definition signal_master (conf prefix name : bytes) : option (result bytes unit * list Act) :=
  match signal_number name with
  | None => Some (Err (str "invalid option: " ++ q (str "-s " ++ name)), [])
  | Some sig =>
      match load_file conf prefix with
      | Aborts => None
      | Refused e => Some (Err (show_error e), [])
      | Loads cfg =>
          Some
            match pid cfg with
            | None => (Err (str "no " ++ q (str "pid") ++ str " directive in the configuration"), [])
            | Some path =>
                match read_text path with
                | Err e => (Err (str "open() " ++ q path ++ str " failed (" ++ e ++ str ")"), [])
                | Ok text =>
                    match parse_i32 (trim text) with
                    | None => (Err (str "invalid PID number"), [])
                    | Some p =>
                        match kill p sig with
                        | Ok _ => (Ok tt, [Kill p sig])
                        | Err e => (Err (str "kill(" ++ fmt_i64 p ++ str ", " ++ name ++ str ") failed (" ++ e ++ str ")"), [Kill p sig])
                        end
                    end
                end
            end
      end
  end.

Definition fail (m : bytes) : Exit := mkExit false [] [str "oxiserve: " ++ m] [].

Definition emerg (e : bytes) : bytes := str "oxiserve: [emerg] " ++ e.

(** [main] behind the options *)
Definition act_on (a : Options) : option Exit :=
  let conf := default (path_join (o_prefix a) (str "conf/oxiserve.conf")) (o_conf a) in
  if negb (exists_file conf) then Some (fail (str "open() " ++ q conf ++ str " failed (2: No such file or directory)"))
  else
    match o_signal a with
    | Some name =>
        '(r, done) ← signal_master conf (o_prefix a) name;
        Some match r with Ok _ => mkExit true [] [] done | Err e => mkExit false [] [emerg e] done end
    | None =>
        match load_file conf (o_prefix a) with
        | Aborts => None
        | Refused e => Some (mkExit false [] [emerg (show_error e); str "oxiserve: configuration file " ++ conf ++ str " test failed"] [])
        | Loads cfg =>
            let warns := if o_quiet a then [] else (λ u, str "oxiserve: [warn] " ++ u) <$> c_unsupported cfg in
            if o_test a then
              let ok := if o_quiet a then [] else
                [str "oxiserve: the configuration file " ++ conf ++ str " syntax is ok";
                 str "oxiserve: configuration file " ++ conf ++ str " test is successful"] in
              if o_dump a then
                match dump_file conf with
                | Aborts => None
                | Refused e => Some (mkExit false [] (warns ++ [emerg (show_error e)]) [])
                | Loads s => Some (mkExit true s (warns ++ ok) [])
                end
              else Some (mkExit true [] (warns ++ ok) [])
            else
              Some match run_from cfg with
                   | Ok _ => mkExit true [] warns [Serve cfg]
                   | Err e => mkExit false [] (warns ++ [emerg e]) [Serve cfg]
                   end
        end
    end.

(** [main]; [std::env::args] aborts on an argument that is not UTF-8. *)
Definition main (args : list bytes) : option Exit :=
  if forallb utf8_valid args then
    match parse_args args no_options with
    | Go a => act_on a
    | Says text => Some (mkExit true text [] [])
    | Fails m => Some (fail m)
    end
  else None.
(** [PidFile::write]: the text of the file [-s] reads *)
Definition pid_file_text (p : Z) : bytes := line (fmt_u64 p).
End main.
Arguments Sys : clear implicits.

(** ** Options *)

(** The loop, an option at a time *)
Lemma option_s n l a : parse_args (str "-s" :: n :: l) a = parse_args l (mkOptions (Some n) (o_conf a) (o_prefix a) (o_test a) (o_dump a) (o_quiet a)).
Proof. reflexivity. Qed.
Lemma option_c v l a : parse_args (str "-c" :: v :: l) a = parse_args l (mkOptions (o_signal a) (Some v) (o_prefix a) (o_test a) (o_dump a) (o_quiet a)).
Proof. reflexivity. Qed.
Lemma option_p v l a : parse_args (str "-p" :: v :: l) a = parse_args l (mkOptions (o_signal a) (o_conf a) v (o_test a) (o_dump a) (o_quiet a)).
Proof. reflexivity. Qed.
Lemma option_t l a : parse_args (str "-t" :: l) a = parse_args l (mkOptions (o_signal a) (o_conf a) (o_prefix a) true (o_dump a) (o_quiet a)).
Proof. reflexivity. Qed.
Lemma option_T l a : parse_args (str "-T" :: l) a = parse_args l (mkOptions (o_signal a) (o_conf a) (o_prefix a) true true (o_quiet a)).
Proof. reflexivity. Qed.
Lemma option_q l a : parse_args (str "-q" :: l) a = parse_args l (mkOptions (o_signal a) (o_conf a) (o_prefix a) (o_test a) (o_dump a) true).
Proof. reflexivity. Qed.

(** A command line for some options *)
Definition words (a : Options) : list bytes :=
  match o_signal a with Some n => [str "-s"; n] | None => [] end ++
  match o_conf a with Some f => [str "-c"; f] | None => [] end ++
  [str "-p"; o_prefix a] ++
  (if o_dump a then [str "-T"] else if o_test a then [str "-t"] else []) ++
  (if o_quiet a then [str "-q"] else []).

(** Any options can be asked for, whatever the names are, an option's own
    included; and what follows is read in their light. *)
Theorem options_read_back (a : Options) l : (o_dump a = true → o_test a = true) →
  parse_args (words a ++ l) no_options = parse_args l a.
Proof.
  intros Hd. destruct a as [s f p t d qt]. unfold words, no_options. cbn [o_signal o_conf o_prefix o_test o_dump o_quiet] in *.
  rewrite <-!app_assoc.
  destruct s, f; cbn [app]; rewrite ?option_s, ?option_c, option_p; destruct d; rewrite ?Hd by done;
    [| destruct t | | destruct t | | destruct t | | destruct t];
    cbn [app o_signal o_conf o_prefix o_test o_dump o_quiet]; rewrite ?option_t, ?option_T; destruct qt;
    cbn [app o_signal o_conf o_prefix o_test o_dump o_quiet]; rewrite ?option_q; reflexivity.
Qed.

Lemma options_read_back_witness :
  parse_args [str "-s"; str "-t"; str "-p"; str "/srv"; str "-T"; str "-q"] no_options =
    Go (mkOptions (Some (str "-t")) None (str "/srv") true true true).
Proof. apply (options_read_back (mkOptions (Some (str "-t")) None (str "/srv") true true true) []). done. Defined.

(** ** Loading *)

Section load_lemmas.
  Context {Regex : Type} `{!Crates Regex} (fs : FileSystem).

(** Whatever the files hold - includes of themselves, broken tokens, settings
    that contradict each other - loading ends in a configuration or in an error
    with its place, when the stack holds the nesting of their blocks and the
    chains of their maps, and the tree is tame: no sum of times overflows, no
    [return] is empty, no map's source leads back to it. *)
Theorem load_never_aborts path prefix (rank : bytes → nat) (K top stack : nat) :
  nested_within fs K → (S K * (MAX_INCLUDE_DEPTH + 2) ≤ stack)%nat →
  (∀ n, (rank n ≤ top)%nat) → (10 + top ≤ stack)%nat →
  (∀ tree, parse_file fs stack path = Some (Ok tree) → Forall tame_tree tree ∧ Forall (straight rank) tree) →
  load fs stack path prefix ≠ Aborts.
Proof.
  intros HK HKs Ht Hs Htree. unfold load. destruct (parse_file_total fs K stack path HK HKs) as [r Hr]. rewrite Hr in *. destruct r as [tree|e]; [| done].
  destruct (Htree tree eq_refl) as [H1 H2]. pose proof (build_never_aborts prefix tree rank top stack H1 Ht H2 Hs) as Hb.
  by destruct (build stack prefix tree).
Qed.
End load_lemmas.

(** ** What is done *)

Section acts.
  Context {Regex : Type} `{!Sys Regex}.

Definition testing (t d : bool) (a : Options) : Options := mkOptions (o_signal a) (o_conf a) (o_prefix a) t d (o_quiet a).

(** A configuration that passes [-t] is one that is served, one that fails it
    is refused with the same words, and testing serves nothing. *)
Theorem test_tells_the_start (a : Options) : o_signal a = None →
  match act_on (testing true false a), act_on (testing false false a) with
  | Some t, Some s => acts t = [] ∧ out t = [] ∧ (success t = true ↔ ∃ c, acts s = [Serve c]) ∧ (success t = false → s = t)
  | None, None => True
  | _, _ => False
  end.
Proof.
  intros Hs. unfold act_on, testing. cbn [o_signal o_conf o_prefix o_test o_dump o_quiet]. rewrite Hs.
  set (conf := default _ _).
  assert (∀ e : Exit (Regex := Regex), success e = false → acts e = [] → out e = [] →
    acts e = [] ∧ out e = [] ∧ (success e = true ↔ ∃ c : Config Regex, acts e = [Serve c]) ∧ (success e = false → e = e)) as Hsame.
  { intros e H1 H2 H3. rewrite H1, H2, H3. repeat (split; [done |]). split; [| done]. split; [done | by intros [? ?]]. }
  destruct (exists_file conf); cbn [negb]; [| by apply Hsame].
  destruct (load_file conf _) as [c|e|]; [| by apply Hsame | done].
  destruct (run_from c); cbn; repeat (split; [done |]); (split; [split; [by eexists | done] | done]).
Qed.

(** With [-s] at most one signal is sent, it is the one asked for, and it goes
    to the process whose number is in the file that the configuration names;
    nothing is served, and success means that it was delivered. *)
Theorem signal_goes_where_the_configuration_says (a : Options) n e : o_signal a = Some n → act_on a = Some e →
  (acts e = [] ∧ success e = false) ∨
  ∃ cfg path text p sig, load_file (default (path_join (o_prefix a) (str "conf/oxiserve.conf")) (o_conf a)) (o_prefix a) = Loads cfg ∧
    pid cfg = Some path ∧ read_text path = Ok text ∧ parse_i32 (trim text) = Some p ∧ signal_number n = Some sig ∧
    acts e = [Kill p sig] ∧ (success e = true ↔ kill p sig = Ok tt).
Proof.
  intros Hn. unfold act_on. rewrite Hn. set (conf := default _ _). destruct (exists_file conf); cbn [negb]; [| intros [= <-]; by left].
  unfold signal_master. destruct (signal_number n) as [sig|] eqn:Es; [| intros [= <-]; by left].
  destruct (load_file conf _) as [cfg|e0|] eqn:El; [| intros [= <-]; by left | done].
  destruct (pid cfg) as [path|] eqn:Ep; [| intros [= <-]; by left]. destruct (read_text path) as [text|e0] eqn:Et; [| intros [= <-]; by left].
  destruct (parse_i32 _) as [p|] eqn:Epid; [| intros [= <-]; by left].
  destruct (kill p sig) as [[]|e0] eqn:Ek; intros [= <-]; right; exists cfg, path, text, p, sig; repeat (split; [done |]); by rewrite Ek.
Qed.
End acts.

(** ** The pid file *)

Lemma trim_digits s : Forall (λ c, is_ascii_digit c = true) s → s ≠ [] → trim (s ++ [x0a]) = s.
Proof.
  intros Hs%digits_graphic Hne. unfold trim, trim_start. destruct s as [|c r]; [done |].
  rewrite <-app_comm_cons, trim_go_graphic; [| intros; apply elem_of_app; by left | by apply Forall_inv in Hs].
  rewrite app_comm_cons. unfold trim_end. rewrite reverse_app. change (reverse [x0a] ++ reverse (c :: r)) with (x0a :: reverse (c :: r)).
  rewrite length_app, Nat.add_comm. cbn [length plus trim_go].
  assert (trim_one (reverse <$> white_space) (x0a :: reverse (c :: r)) = Some (reverse (c :: r))) as -> by reflexivity. cbv match.
  apply Forall_reverse in Hs. destruct (reverse (c :: r)) as [|d t] eqn:E; [by apply (f_equal length) in E; rewrite length_reverse in E |].
  rewrite trim_one_graphic; [| intros; apply elem_of_app; by right | by apply Forall_inv in Hs]. rewrite <-E. apply reverse_involutive.
Qed.

(** What the master writes into its file is what [-s] reads. *)
Theorem pid_file_reads_back p : 0 ≤ p < 2 ^ 31 → parse_i32 (trim (pid_file_text p)) = Some p.
Proof.
  intros Hp. unfold pid_file_text, line. destruct (fmt_u64_digits p) as [Hd Hne]; [lia |]. rewrite trim_digits by done.
  unfold parse_i32. destruct (fmt_u64 p) as [|c r] eqn:E; [done |]. rewrite decide_False.
  - rewrite <-E. apply parse_fmt_u64; lia.
  - intros ->. by apply Forall_inv in Hd.
Qed.

(** A file that holds [-1] is as good: the signal goes to every process the
    user may send it to. *)
Theorem negative_pid_is_everyone : parse_i32 (trim (line (str "-1"))) = Some (-1) ∧ parse_i32 (trim (line (str "0"))) = Some 0.
Proof. by vm_compute. Qed.

Lemma pid_file_reads_back_witness : parse_i32 (trim (pid_file_text 4711)) = Some 4711.
Proof. apply (pid_file_reads_back 4711). lia. Defined.

(** ** At concrete inputs *)

#[local] Existing Instance sample_crates.

(** One file, and nothing else *)
Definition sample_fs : FileSystem :=
  mkFileSystem (λ p, if decide (p = str "/o.conf") then Ok (str "worker_processes 2; pid run/o.pid; events { worker_connections 64; }") else Err (str "no such file"))
    id (λ _, str "/") (λ _, Ok []).

Lemma load_never_aborts_witness : load sample_fs 80 (str "/o.conf") (str "/srv") ≠ Aborts.
Proof.
  apply (load_never_aborts sample_fs (str "/o.conf") (str "/srv") (const 0%nat) 1 0 80); [| cbn; lia | by intros n | cbn; lia |].
  { intros p src tokens. cbn [read_to_string sample_fs]. case_decide; [|done]. intros [= <-] Ht. vm_compute in Ht. injection Ht as <-. cbn. lia. }
  intros tree Ht. vm_compute in Ht. injection Ht as <-. split.
  - repeat (apply Forall_cons_2; [apply tame_check_tree; by vm_compute |]). apply Forall_nil_2.
  - repeat (apply Forall_cons_2; [intros c m n Hc Hm Hn; exfalso; cbn in Hc;
      repeat (apply elem_of_cons in Hc as [->|Hc]; [by vm_compute in Hm |]); by apply not_elem_of_nil in Hc |]). apply Forall_nil_2.
Defined.

#[local] Instance sample_sys : Sys bytes := {|
  load_file := load sample_fs 80;
  dump_file := dump_config sample_fs 80;
  exists_file p := bool_decide (p = str "/o.conf");
  read_text p := if decide (p = str "/srv/run/o.pid") then Ok (pid_file_text 4711) else Err (str "No such file or directory");
  kill _ _ := Ok tt;
  run_from _ := Ok tt
|}.

Definition asked (s : option bytes) : Options := mkOptions s (Some (str "/o.conf")) (str "/srv") false false false.

Lemma test_tells_the_start_witness :
  match act_on (testing true false (asked None)), act_on (asked None) with
  | Some t, Some s => success t = true ∧ ∃ c, acts s = [Serve c]
  | _, _ => False
  end.
Proof.
  pose proof (test_tells_the_start (asked None) eq_refl) as H. revert H.
  assert (∃ t, act_on (testing true false (asked None)) = Some t ∧ success t = true) as (t & -> & Ht) by (eexists; split; by vm_compute).
  change (testing false false (asked None)) with (asked None). destruct (act_on (asked None)) as [s|]; [| done].
  intros (_ & _ & H & _). split; [done | by apply H].
Defined.

Lemma signal_goes_where_the_configuration_says_witness :
  ∃ e, act_on (asked (Some (str "reload"))) = Some e ∧ acts e = [Kill 4711 SIGHUP] ∧ success e = true.
Proof.
  assert (∃ e, act_on (asked (Some (str "reload"))) = Some e ∧ acts e ≠ []) as (e & He & Ha) by (eexists; split; by vm_compute).
  exists e. split; [done |].
  destruct (signal_goes_where_the_configuration_says (asked (Some (str "reload"))) (str "reload") e eq_refl He) as [[? _]|(cfg & path & text & p & sig & Hl & Hp & Ht & Hn & Hs & Hk & Hok)]; [done |].
  vm_compute in Hl. injection Hl as <-. vm_compute in Hp. injection Hp as <-. vm_compute in Ht. injection Ht as <-.
  vm_compute in Hn. injection Hn as <-. vm_compute in Hs. injection Hs as <-. split; [exact Hk | by apply Hok].
Defined.
