(* ===== verification/Status.v ===== *)
(** * [src/server/stats.rs]: the status page in JSON

    [json_body], which shows the counters and, for every upstream, what this
    process knows of its peers; and a reader of JSON, by which the page says
    what it is to say. *)
From S2P Require Import Prelude.
From S2P Require Import Text.
From S2P Require Import Sort.
From S2P Require Import Lexer.
From S2P Require Import Stats.
From S2P Require Upstream.

Open Scope oxi_scope.
Open Scope Z_scope.

(** ** The page *)

Definition nl : bytes := [x0a].

(** A key with its value, the key as the code writes it. *)
Definition field (k : string) (v : bytes) : bytes := [x22] ++ str k ++ [x22] ++ str ": " ++ v.

(** A comma between, as the loops put it. *)
Fixpoint commas (l : list bytes) : bytes :=
  match l with
  | [] => []
  | [x] => x
  | x :: l => x ++ str "," ++ commas l
  end.

Definition quoted (s : string) : bytes := [x22] ++ str s ++ [x22].

Definition state_of (now : Z) (srv : Upstream.UpstreamServer) (h : Upstream.PeerHealth) : string :=
  if Upstream.down srv then "down" else if Upstream.is_down h now then "unhealthy" else "up".

Definition bool_text (b : bool) : bytes := if b then str "true" else str "false".

(** One peer's line, with the end of the line before it *)
Definition peer_line (now : Z) (srv : Upstream.UpstreamServer) (h : Upstream.PeerHealth) : bytes :=
  nl ++ str "      {" ++ field "server" (json_str (Upstream.addr srv)) ++ str ", " ++ field "state" (quoted (state_of now srv h)) ++
  str ", " ++ field "in_flight" (fmt_u64 (Upstream.in_flight h)) ++ str ", " ++ field "weight" (fmt_u64 (Upstream.weight srv)) ++
  str ", " ++ field "backup" (bool_text (Upstream.backup srv)) ++ str "}".

(** [up.servers.iter().enumerate()], each with its health *)
Definition peers (up : Upstream.Upstream) : list (Upstream.UpstreamServer * Upstream.PeerHealth) :=
  imap (λ i s, (s, Upstream.health_at up i)) (Upstream.servers up).

Definition upstream_part (now : Z) (name : bytes) (up : Upstream.Upstream) : bytes :=
  nl ++ str "    " ++ json_str name ++ str ": [" ++ commas ((λ p, peer_line now p.1 p.2) <$> peers up) ++ nl ++ str "    ]".

(** [names.sort()] *)
Fixpoint bytes_le (a b : bytes) : bool :=
  match a, b with
  | [], _ => true
  | _ :: _, [] => false
  | x :: a, y :: b => if decide (u8 x = u8 y) then bytes_le a b else bool_decide (u8 x < u8 y)
  end.

Definition names (ups : gmap bytes Upstream.Upstream) : list bytes := sort_by bytes_le (fst <$> map_to_list ups).

(** [json_body]; [now] is the age of an upstream in milliseconds, of which
    each has its own. *)
Definition json_body (c : Counters) (ups : gmap bytes Upstream.Upstream) (now : bytes → Z) : bytes :=
  str "{" ++ nl ++ str "  " ++ field "connections" (str "{" ++
    field "active" (fmt_u64 (get ACTIVE c)) ++ str ", " ++ field "accepts" (fmt_u64 (get ACCEPTS c)) ++ str ", " ++
    field "handled" (fmt_u64 (get HANDLED c)) ++ str ", " ++ field "requests" (fmt_u64 (get REQUESTS c)) ++ str ", " ++
    field "reading" (fmt_u64 (get READING c)) ++ str ", " ++ field "writing" (fmt_u64 (get WRITING c)) ++ str ", " ++
    field "waiting" (fmt_u64 (get WAITING c)) ++ str "}") ++ str "," ++ nl ++
  str "  " ++ field "upstreams" (str "{" ++ commas (omap (λ n, upstream_part (now n) n <$> ups !! n) (names ups)) ++
    nl ++ str "  }") ++ nl ++ str "}" ++ nl.

(** ** A reader of JSON *)

Inductive Json := JNum (n : Z) | JText (v : bytes) | JBool (b : bool) | JArray (l : list Json) | JObject (l : list (bytes * Json)).

Definition blank (c : byte) : bool := bool_decide (c ∈ [x20; x0a; x0d; x09]).

Fixpoint skip (s : bytes) : bytes :=
  match s with c :: r => if blank c then skip r else s | [] => [] end.

Fixpoint digits (s : bytes) : bytes * bytes :=
  match s with
  | c :: r => if is_ascii_digit c then let '(d, t) := digits r in (c :: d, t) else ([], s)
  | [] => ([], [])
  end.

(** The elements of an array or an object behind its opening bracket: none, or
    some with commas between, and the closing bracket *)
Definition next {A} (close : byte) (more : bytes → option (list A * bytes)) (a : A) (s : bytes) : option (list A * bytes) :=
  match skip s with
  | c :: r =>
      if decide (c = close) then Some ([a], r)
      else if decide (c = ","%byte) then
        '(l, r) ← more r; if decide (length l = 0%nat) then None else Some (a :: l, r)
      else None
  | [] => None
  end.

Fixpoint value (fuel : nat) (s : bytes) : option (Json * bytes) :=
  match fuel with
  | O => None
  | S fuel =>
      match skip s with
      | [] => None
      | c :: r =>
          if decide (c = x22) then '(v, r) ← unquote r; Some (JText v, r)
          else if decide (c = "{"%byte) then '(l, r) ← members fuel r; Some (JObject l, r)
          else if decide (c = "["%byte) then '(l, r) ← items fuel r; Some (JArray l, r)
          else if is_ascii_digit c then
            let '(d, r) := digits (c :: r) in n ← parse_uint u64_max d; Some (JNum n, r)
          else
            match strip_prefix (str "true") (c :: r) with
            | Some r => Some (JBool true, r)
            | None => r ← strip_prefix (str "false") (c :: r); Some (JBool false, r)
            end
      end
  end
with items (fuel : nat) (s : bytes) : option (list Json * bytes) :=
  match fuel with
  | O => None
  | S fuel =>
      match skip s with
      | [] => None
      | c :: r =>
          if decide (c = "]"%byte) then Some ([], r)
          else '(j, r) ← value fuel (c :: r); next "]"%byte (items fuel) j r
      end
  end
with members (fuel : nat) (s : bytes) : option (list (bytes * Json) * bytes) :=
  match fuel with
  | O => None
  | S fuel =>
      match skip s with
      | [] => None
      | c :: r =>
          if decide (c = "}"%byte) then Some ([], r)
          else
            '(k, r) ← read_json_str (c :: r);
            match skip r with
            | c :: r => if decide (c = ":"%byte) then '(j, r) ← value fuel r; next "}"%byte (members fuel) (k, j) r else None
            | [] => None
            end
      end
  end.

(** A whole text *)
Definition read_json (s : bytes) : option Json :=
  '(j, r) ← value (S (length s)) s; if decide (skip r = []) then Some j else None.

(** ** What the page says *)

Definition peer_json (now : Z) (srv : Upstream.UpstreamServer) (h : Upstream.PeerHealth) : Json :=
  JObject [(str "server", JText (Upstream.addr srv)); (str "state", JText (str (state_of now srv h)));
           (str "in_flight", JNum (Upstream.in_flight h)); (str "weight", JNum (Upstream.weight srv));
           (str "backup", JBool (Upstream.backup srv))].

Definition page_json (c : Counters) (ups : gmap bytes Upstream.Upstream) (now : bytes → Z) : Json :=
  JObject
    [(str "connections", JObject
        [(str "active", JNum (get ACTIVE c)); (str "accepts", JNum (get ACCEPTS c)); (str "handled", JNum (get HANDLED c));
         (str "requests", JNum (get REQUESTS c)); (str "reading", JNum (get READING c)); (str "writing", JNum (get WRITING c));
         (str "waiting", JNum (get WAITING c))]);
     (str "upstreams", JObject (omap (λ n, (λ up, (n, JArray ((λ p, peer_json (now n) p.1 p.2) <$> peers up))) <$> ups !! n) (names ups)))].

Definition two : gmap bytes Upstream.Upstream :=
  {[str "b" := Upstream.mkUpstream [Upstream.mkServer (str "10.0.0.1:80") [] 2 false false; Upstream.mkServer (str "10.0.0.2:80") [] 1 true true]
      [Upstream.healthy; Upstream.healthy] Upstream.RoundRobin false;
    str "a" := Upstream.mkUpstream [] [] Upstream.RoundRobin false]}.

Example two_reads : read_json (json_body (init None) two (const 0)) = Some (page_json (init None) two (const 0)).
Proof. by vm_compute. Qed.

(** ** The reader on what is printed *)

Definition blanks (w : bytes) : Prop := Forall (λ c, blank c = true) w.

Lemma skip_blanks w s : blanks w → skip (w ++ s) = skip s.
Proof. induction 1 as [|c w Hc _ IH]; [done |]. cbn [app skip]. by rewrite Hc. Qed.

Lemma skip_skip s : skip (skip s) = skip s.
Proof. induction s as [|c s IH]; [done |]. cbn [skip]. destruct (blank c) eqn:E; [done |]. cbn [skip]. by rewrite E. Qed.

Lemma value_skip m s : value m (skip s) = value m s.
Proof. destruct m; [done |]. cbn [value]. by rewrite skip_skip. Qed.

Lemma value_starts m s j r : value m s = Some (j, r) → ∃ c t, skip s = c :: t ∧ c ≠ "]"%byte ∧ c ≠ "}"%byte ∧ value m (c :: t) = Some (j, r).
Proof.
  intros H. rewrite <-value_skip in H. destruct m as [|m]; [done |]. destruct (skip s) as [|c t] eqn:E; [done |]. exists c, t.
  split_and!; [done | | | done]; intros ->; discriminate H.
Qed.

Definition ends (rest : bytes) : Prop := match rest with c :: _ => is_ascii_digit c = false | [] => True end.

(** The text is read as the value, whatever comes behind it. *)
Definition reads (j : Json) (t : bytes) : Prop := ∀ m rest, (length t < m)%nat → ends rest → value m (t ++ rest) = Some (j, rest).

Lemma reads_blank w j t : blanks w → reads j t → reads j (w ++ t).
Proof.
  intros Hw Ht m rest Hm He. rewrite length_app in Hm. rewrite <-app_assoc, <-value_skip, skip_blanks, value_skip by done. apply Ht; [lia | done].
Qed.

Lemma reads_text v : reads (JText v) (json_str v).
Proof.
  intros [|m] rest Hm _; [lia |]. pose proof (json_str_reads_back v rest) as H. revert H. unfold json_str. cbn [app read_json_str value skip].
  rewrite !decide_True by done. change (blank x22) with false. cbn match. rewrite decide_True by done. by intros ->.
Qed.

Lemma digits_spec d rest : Forall (λ c, is_ascii_digit c = true) d → ends rest → digits (d ++ rest) = (d, rest).
Proof.
  intros Hd He. induction Hd as [|c d Hc _ IH].
  - destruct rest as [|c r]; [done |]. cbn in *. by rewrite He.
  - cbn [app digits]. by rewrite Hc, IH.
Qed.

Lemma digit_plain c : is_ascii_digit c = true → blank c = false ∧ c ≠ x22 ∧ c ≠ "{"%byte ∧ c ≠ "["%byte.
Proof. destruct c; intros H; split_and!; try done; discriminate H. Qed.

Lemma reads_num n : 0 ≤ n < 2 ^ 64 → reads (JNum n) (fmt_u64 n).
Proof.
  intros Hn [|m] rest Hm He; [lia |]. destruct (fmt_u64_digits n) as [Hd Hne]; [lia |].
  pose proof (digits_spec _ rest Hd He) as Hs. pose proof (parse_fmt_u64 u64_max n) as Hp. destruct (fmt_u64 n) as [|c d]; [done |].
  apply Forall_cons in Hd as [Hc _]. destruct (digit_plain c Hc) as (Hb & H1 & H2 & H3). cbn [app value skip] in *.
  rewrite Hb, !decide_False, Hc by done. rewrite Hs. cbn [mbind option_bind]. rewrite Hp; [done | unfold u64_max; lia | lia].
Qed.

Lemma reads_bool b : reads (JBool b) (bool_text b).
Proof. intros [|m] rest Hm _; [lia |]. by destruct b. Qed.

(** *** Lists *)

Lemma next_more {A} close more (a : A) l r s : length l ≠ 0%nat → close ≠ ","%byte → more r = Some (l, s) → next close more a (","%byte :: r) = Some (a :: l, s).
Proof. intros Hl Hc Hm. unfold next. change (skip (","%byte :: r)) with (","%byte :: r). cbv iota. rewrite decide_False, decide_True, Hm by done. cbn. by rewrite decide_False. Qed.

Lemma next_last {A} close more (a : A) w rest : blanks w → blank close = false → next close more a (w ++ close :: rest) = Some ([a], rest).
Proof. intros Hw Hc. unfold next. rewrite skip_blanks by done. cbn [skip]. rewrite Hc. by rewrite decide_True. Qed.

Lemma blanks_end w c rest : blanks w → is_ascii_digit c = false → ends (w ++ c :: rest).
Proof. intros [|b w' Hb _] Hc; [done |]. cbn. revert Hb. by destruct b. Qed.

Lemma items_read js ts : Forall2 reads js ts → js ≠ [] → ∀ w m rest, blanks w → (length (commas ts ++ w ++ str "]") < m)%nat →
  items m (commas ts ++ w ++ "]"%byte :: rest) = Some (js, rest).
Proof.
  induction 1 as [|j t js ts Hj Hjs IH]; [done |]. intros _ w [|m] rest Hw Hm; [lia |].
  assert (∀ s, ends s → (length t < m)%nat → items (S m) (t ++ s) = next "]"%byte (items m) j s) as Hone.
  { intros s Hs Hl. destruct (value_starts m (t ++ s) j s (Hj m s Hl Hs)) as (c & u & E & H1 & _ & Hv). cbn [items]. rewrite E, decide_False, Hv by done. done. }
  destruct Hjs as [|j2 t2 js ts H2 Hjs].
  - cbn [commas] in *. rewrite !length_app in Hm. rewrite Hone by (by apply blanks_end || (cbn in Hm; lia)). by apply next_last.
  - change (commas (t :: t2 :: ts)) with (t ++ str "," ++ commas (t2 :: ts)) in *. rewrite !length_app in Hm. cbn [length str] in Hm.
    rewrite <-!app_assoc, Hone by (done || (cbn in Hm; lia)). apply next_more; [done | done |].
    apply IH; [done | done |]. rewrite !length_app. cbn in *. lia.
Qed.

Lemma reads_array js ts w : Forall2 reads js ts → blanks w → reads (JArray js) (str "[" ++ commas ts ++ w ++ str "]").
Proof.
  intros Hj Hw [|m] rest Hm _; [lia |]. change (str "[") with ["["%byte] in *. change (str "]") with ["]"%byte] in *. cbn [app value skip] in *. change (blank "["%byte) with false. cbv iota.
  rewrite !decide_False, decide_True by done. rewrite <-!app_assoc. cbn [app].
  assert (items m (commas ts ++ w ++ "]"%byte :: rest) = Some (js, rest)) as ->; [| done].
  destruct Hj as [|j t js ts H Hj]; [| by apply items_read; [constructor | | | cbn in *; lia]].
  cbn in Hm. destruct m as [|m]; [lia |]. cbn [items commas app]. rewrite skip_blanks by done. done.
Qed.

(** A member as it is printed: blanks, the key, the value *)
Definition member (p : bytes * Json) (t : bytes) : Prop :=
  ∃ w u, t = w ++ json_str p.1 ++ str ":" ++ u ∧ blanks w ∧ reads p.2 u.

Lemma members_read ps ts : Forall2 member ps ts → ps ≠ [] → ∀ w m rest, blanks w → (length (commas ts ++ w ++ str "}") < m)%nat →
  members m (commas ts ++ w ++ "}"%byte :: rest) = Some (ps, rest).
Proof.
  induction 1 as [|p t ps ts Hp Hps IH]; [done |]. intros _ w [|m] rest Hw Hm; [lia |].
  assert (∀ s, ends s → (length t < m)%nat → members (S m) (t ++ s) = next "}"%byte (members m) p s) as Hone.
  { destruct p as [k j], Hp as (w' & u & -> & Hw' & Hu). cbn [fst snd] in *. intros s Hs Hl. cbn [members]. rewrite <-!app_assoc, skip_blanks by done.
    assert (∃ q, json_str k ++ str ":" ++ u ++ s = x22 :: q) as [q Eq] by (unfold json_str; by eexists).
    pose proof (json_str_reads_back k (str ":" ++ u ++ s)) as Hk. rewrite Eq in *. change (skip (x22 :: q)) with (x22 :: q). cbv iota.
    rewrite decide_False, Hk by done. change (str ":") with [":"%byte]. cbn [mbind option_bind app skip]. change (blank ":"%byte) with false. cbv iota. rewrite decide_True by done.
    rewrite Hu; [done | | done]. rewrite !length_app in Hl. lia. }
  destruct Hps as [|p2 t2 ps ts H2 Hps].
  - cbn [commas] in *. rewrite !length_app in Hm. rewrite Hone by (by apply blanks_end || (cbn in Hm; lia)). by apply next_last.
  - change (commas (t :: t2 :: ts)) with (t ++ str "," ++ commas (t2 :: ts)) in *. rewrite !length_app in Hm. cbn [length str] in Hm.
    rewrite <-!app_assoc, Hone by (done || (cbn in Hm; lia)). apply next_more; [done | done |].
    apply IH; [done | done |]. rewrite !length_app. cbn in *. lia.
Qed.

Lemma reads_object ps ts w : Forall2 member ps ts → blanks w → reads (JObject ps) (str "{" ++ commas ts ++ w ++ str "}").
Proof.
  intros Hj Hw [|m] rest Hm _; [lia |]. change (str "{") with ["{"%byte] in *. change (str "}") with ["}"%byte] in *. cbn [app value skip] in *. change (blank "{"%byte) with false. cbv iota.
  rewrite decide_False, decide_True by done. rewrite <-!app_assoc. cbn [app].
  assert (members m (commas ts ++ w ++ "}"%byte :: rest) = Some (ps, rest)) as ->; [| done].
  destruct Hj as [|p t ps ts H Hj]; [| by apply members_read; [constructor | | | cbn in *; lia]].
  cbn in Hm. destruct m as [|m]; [lia |]. cbn [members commas app]. rewrite skip_blanks by done. done.
Qed.

(** *** The page *)

Lemma member_field k v j : json_str (str k) = quoted k → reads j v → member (str k, j) (field k v).
Proof.
  intros Hk Hv. exists [], (str " " ++ v). split_and!; [| constructor | by apply reads_blank; [repeat constructor |]].
  cbn [fst app]. rewrite Hk. unfold field, quoted. by rewrite <-!app_assoc.
Qed.

Lemma member_blank w p t : blanks w → member p t → member p (w ++ t).
Proof. intros Hw (w' & u & -> & Hw' & Hu). exists (w ++ w'), u. rewrite <-app_assoc. split_and!; [done | by apply Forall_app | done]. Qed.

Lemma reads_state now srv h : reads (JText (str (state_of now srv h))) (quoted (state_of now srv h)).
Proof.
  assert (quoted (state_of now srv h) = json_str (str (state_of now srv h))) as ->; [| apply reads_text].
  unfold state_of. by destruct (Upstream.down srv), (Upstream.is_down h now).
Qed.

Definition in_range (p : Upstream.UpstreamServer * Upstream.PeerHealth) : Prop :=
  0 ≤ Upstream.in_flight p.2 < 2 ^ 64 ∧ 0 ≤ Upstream.weight p.1 < 2 ^ 64.

Lemma reads_peer now p : in_range p → reads (peer_json now p.1 p.2) (peer_line now p.1 p.2).
Proof.
  intros [Hf Hw]. destruct p as [srv h]. cbn [fst snd] in *.
  assert (peer_line now srv h = (nl ++ str "      ") ++ str "{" ++ commas [field "server" (json_str (Upstream.addr srv));
      str " " ++ field "state" (quoted (state_of now srv h)); str " " ++ field "in_flight" (fmt_u64 (Upstream.in_flight h));
      str " " ++ field "weight" (fmt_u64 (Upstream.weight srv)); str " " ++ field "backup" (bool_text (Upstream.backup srv))] ++ [] ++ str "}") as ->.
  { unfold peer_line. cbn [commas]. rewrite <-!app_assoc. reflexivity. }
  apply reads_blank; [repeat constructor |]. apply reads_object; [| constructor].
  repeat constructor; try (apply member_blank; [by repeat constructor |]); apply member_field; try done.
  - apply reads_text.
  - apply reads_state.
  - by apply reads_num.
  - by apply reads_num.
  - apply reads_bool.
Qed.

Lemma member_upstream now n up : Forall in_range (peers up) →
  member (n, JArray ((λ p, peer_json now p.1 p.2) <$> peers up)) (upstream_part now n up).
Proof.
  intros Hp. exists (nl ++ str "    "), (str " " ++ str "[" ++ commas ((λ p, peer_line now p.1 p.2) <$> peers up) ++ (nl ++ str "    ") ++ str "]").
  split_and!; [| by repeat constructor |].
  - unfold upstream_part. cbn [fst]. rewrite <-!app_assoc. reflexivity.
  - apply reads_blank; [by repeat constructor |]. apply reads_array; [| by repeat constructor]. apply Forall2_fmap_2, Forall_Forall2_diag.
    eapply Forall_impl; [exact Hp |]. intros p. apply reads_peer.
Qed.

(** The page is JSON, and a reader of it gets the counters and every peer of
    every upstream, by name, as this process sees it: whatever the names. *)
Theorem status_page_reads_back (l : list (nat * Z)) (ups : gmap bytes Upstream.Upstream) (now : bytes → Z) : map_Forall (λ _ up, Forall in_range (peers up)) ups →
  let c := adds l (init None) in read_json (json_body c ups now) = Some (page_json c ups now).
Proof.
  intros Hu c. set (js := omap (λ n, (λ up, (n, JArray ((λ p, peer_json (now n) p.1 p.2) <$> peers up))) <$> ups !! n) (names ups)).
  set (ts := omap (λ n, upstream_part (now n) n <$> ups !! n) (names ups)).
  assert (Forall2 member js ts) as Hm.
  { unfold js, ts. induction (names ups) as [|n ns IH]; [constructor |]. cbn [omap list_omap]. destruct (ups !! n) as [up|] eqn:E; [| done].
    cbn. constructor; [| done]. apply member_upstream. exact (Hu n up E). }
  assert (∀ i, (i < COUNT)%nat → reads (JNum (get i c)) (fmt_u64 (get i c))) as Hc by (intros i Hi; apply reads_num; by apply (get_range i l c)).
  assert (json_body c ups now = (str "{" ++ commas
    [(nl ++ str "  ") ++ field "connections" (str "{" ++ commas [field "active" (fmt_u64 (get ACTIVE c)); str " " ++ field "accepts" (fmt_u64 (get ACCEPTS c));
       str " " ++ field "handled" (fmt_u64 (get HANDLED c)); str " " ++ field "requests" (fmt_u64 (get REQUESTS c));
       str " " ++ field "reading" (fmt_u64 (get READING c)); str " " ++ field "writing" (fmt_u64 (get WRITING c));
       str " " ++ field "waiting" (fmt_u64 (get WAITING c))] ++ [] ++ str "}");
     (nl ++ str "  ") ++ field "upstreams" (str "{" ++ commas ts ++ (nl ++ str "  ") ++ str "}")] ++ nl ++ str "}") ++ nl) as ->.
  { unfold json_body. fold ts. unfold field. cbn [commas]. rewrite <-!app_assoc. reflexivity. }
  unfold read_json. set (t := str "{" ++ commas _ ++ _). fold (page_json c ups now).
  assert (reads (page_json c ups now) t) as Ht; [| rewrite Ht; [done | rewrite length_app; lia | done]].
  unfold t, page_json. fold js. apply reads_object; [| by repeat constructor].
  constructor; [| constructor; [| constructor]]; (apply member_blank; [by repeat constructor |]); apply member_field; try done.
  - apply reads_object; [| constructor].
    repeat constructor; try (apply member_blank; [by repeat constructor |]); apply member_field; try done; apply Hc; unfold COUNT, ACTIVE, ACCEPTS, HANDLED, REQUESTS, READING, WRITING, WAITING; lia.
  - apply reads_object; [done | by repeat constructor].
Qed.

Lemma status_page_reads_back_witness : read_json (json_body (adds [(ACTIVE, 3)] (init None)) two (const 0)) = Some (page_json (adds [(ACTIVE, 3)] (init None)) two (const 0)).
Proof.
  apply (status_page_reads_back [(ACTIVE, 3)] two (const 0)).
  assert (∀ up, up ∈ (snd <$> map_to_list two) → Forall in_range (peers up)) as H.
  { intros up Hup. vm_compute in Hup. repeat (apply elem_of_cons in Hup as [->|Hup];
      [repeat apply Forall_cons_2; try apply Forall_nil_2; unfold in_range; cbn; lia |]). by apply not_elem_of_nil in Hup. }
  intros n up Hn. apply H. apply (list_elem_of_fmap_2 snd _ (n, up)). by apply elem_of_map_to_list.
Defined.
