(* ===== verification/Transport.v ===== *)
(** * [src/server/transport.rs]: client and upstream sockets

    An accepted socket is handed to the reactor only when a call on it would
    block, and the option against Nagle's delay is set only when it can matter.
    The calls on a socket that is not registered, those on one that is, and
    those on a Unix socket are parameters; what the reactor's calls have to do
    with the plain ones is the class [Kernel]. *)
From S2P Require Import Prelude.
From S2P Require Import Text.

Open Scope oxi_scope.
Open Scope Z_scope.

Inductive IoErr := WouldBlock | Interrupted | ConnectionAborted | NotConnected | NotFound | AlreadyExists | OtherErr.

#[export] Instance IoErr_eq_dec : EqDecision IoErr.
Proof. solve_decision. Defined.

(** [Poll<io::Result<A>>]; of one that is pending, whether the task has already
    been asked to come again. *)
Inductive Poll (A : Type) := Ready (r : result IoErr A) | NotYet (woken : bool).
Arguments Ready {A} r.
Arguments NotYet {A} woken.

(** The calls on a socket of the reactor: [AsyncRead] and [AsyncWrite], and the
    read that does not wait. A read is given the room there is. *)
Record Ops (S : Type) := mkOps {
  o_read : nat → S → Poll bytes * S;
  o_write : bytes → S → Poll nat * S;
  o_writev : list bytes → S → Poll nat * S;
  o_flush : S → Poll unit * S;
  o_shutdown : S → Poll unit * S;
  o_try_read : nat → S → result IoErr bytes * S;
  o_nodelay : bool → S → S
}.
Arguments mkOps {S}.
Arguments o_read {S}.
Arguments o_write {S}.
Arguments o_writev {S}.
Arguments o_flush {S}.
Arguments o_shutdown {S}.
Arguments o_try_read {S}.
Arguments o_nodelay {S}.

(** The plain calls on an accepted socket *)
Record RawOps (R T : Type) := mkRawOps {
  r_read : nat → R → result IoErr bytes * R;
  r_write : bytes → R → result IoErr nat * R;
  r_shutdown : R → result IoErr unit * R;
  r_nodelay : R → R;
  from_std : R → result IoErr T
}.
Arguments mkRawOps {R T}.
Arguments r_read {R T}.
Arguments r_write {R T}.
Arguments r_shutdown {R T}.
Arguments r_nodelay {R T}.
Arguments from_std {R T}.

Section transport.
  Context {Raw Tcp Unix : Type} (raw : RawOps Raw Tcp) (tcp : Ops Tcp) (unix : Ops Unix).

(** [PendingTcp] *)
Record PendingTcp := mkPending { sock : Raw; nodelay_wanted : bool; wrote : bool }.

Definition new_pending (s : Raw) : PendingTcp := mkPending s false false.

Definition apply_nodelay (p : PendingTcp) : PendingTcp :=
  if nodelay_wanted p then mkPending (r_nodelay raw (sock p)) false (wrote p) else p.

Inductive Stream := OnTcp (t : Tcp) | Pending (p : option PendingTcp) | OnUnix (u : Unix).

(** An operation's answer and the stream behind it; [None] is a panic. *)
Local Abbreviation Did A := (option (A * Stream)).

(** [register] *)
Definition register (s : Stream) : Did (result IoErr unit) :=
  match s with
  | Pending None => None
  | Pending (Some p) =>
      match from_std raw (sock (apply_nodelay p)) with
      | Ok t => Some (Ok tt, OnTcp t)
      | Err e => Some (Err e, Pending None)
      end
  | _ => Some (Ok tt, s)
  end.

(** [as_registered_tcp], and the [as_tcp] of [RawStream], which asks it: whether
    there is a socket for [sendfile] *)
Definition as_registered_tcp (s : Stream) : Did bool :=
  '(_, s) ← register s; Some (match s with OnTcp _ => true | _ => false end, s).

Definition set_nodelay (on : bool) (s : Stream) : option Stream :=
  match s with
  | OnTcp t => Some (OnTcp (o_nodelay tcp on t))
  | Pending None => None
  | Pending (Some p) => Some (Pending (Some (mkPending (sock p) on (wrote p))))
  | OnUnix _ => Some s
  end.

(** [try_read_into], with the room of the buffer *)
Definition try_read_into (room : nat) (s : Stream) : Did (result IoErr bytes) :=
  match s with
  | Pending None => None
  | Pending (Some p) => let '(r, k) := r_read raw room (sock p) in Some (r, Pending (Some (mkPending k (nodelay_wanted p) (wrote p))))
  | OnTcp t => let '(r, t) := o_try_read tcp room t in Some (r, OnTcp t)
  | OnUnix u => let '(r, u) := o_try_read unix room u in Some (r, OnUnix u)
  end.

(** [is_reusable]: a probe of one byte *)
Definition is_reusable (s : Stream) : bool :=
  match s with
  | OnTcp t => bool_decide ((o_try_read tcp 1 t).1 = Err WouldBlock)
  | OnUnix u => bool_decide ((o_try_read unix 1 u).1 = Err WouldBlock)
  | Pending _ => false
  end.

(** The calls of a socket of the reactor, by what it is; one that is pending
    has been registered by then. *)
Definition on_socket {A} (f : ∀ S, Ops S → S → Poll A * S) (s : Stream) : Did (Poll A) :=
  match s with
  | OnTcp t => let '(r, t) := f Tcp tcp t in Some (r, OnTcp t)
  | OnUnix u => let '(r, u) := f Unix unix u in Some (r, OnUnix u)
  | Pending _ => None
  end.

(** Registers, then calls; an error of the registration is the answer. *)
Definition registered {A} (f : ∀ S, Ops S → S → Poll A * S) (s : Stream) : Did (Poll A) :=
  '(r, s) ← register s;
  match r with Ok _ => on_socket f s | Err e => Some (Ready (Err e), s) end.

Definition poll_read (room : nat) (s : Stream) : Did (Poll bytes) :=
  match s with
  | Pending None => None
  | Pending (Some p) =>
      let '(r, k) := r_read raw room (sock p) in
      let s := Pending (Some (mkPending k (nodelay_wanted p) (wrote p))) in
      match r with
      | Err WouldBlock => registered (λ _ o, o_read o room) s
      | Err Interrupted => Some (NotYet true, s)
      | r => Some (Ready r, s)
      end
  | s => on_socket (λ _ o, o_read o room) s
  end.

Definition poll_write (b : bytes) (s : Stream) : Did (Poll nat) :=
  match s with
  | Pending None => None
  | Pending (Some p) =>
      let p := if wrote p then apply_nodelay p else p in
      let '(r, k) := r_write raw b (sock p) in
      match r with
      | Ok n => Some (Ready (Ok n), Pending (Some (mkPending k (nodelay_wanted p) true)))
      | Err WouldBlock => registered (λ _ o, o_write o b) (Pending (Some (mkPending k (nodelay_wanted p) (wrote p))))
      | Err Interrupted => Some (NotYet true, Pending (Some (mkPending k (nodelay_wanted p) (wrote p))))
      | Err e => Some (Ready (Err e), Pending (Some (mkPending k (nodelay_wanted p) (wrote p))))
      end
  | s => on_socket (λ _ o, o_write o b) s
  end.

Definition poll_write_vectored (bs : list bytes) (s : Stream) : Did (Poll nat) := registered (λ _ o, o_writev o bs) s.

Definition poll_flush (s : Stream) : Did (Poll unit) :=
  match s with
  | Pending _ => Some (Ready (Ok tt), s)
  | s => on_socket (λ _ o, o_flush o) s
  end.

Definition poll_shutdown (s : Stream) : Did (Poll unit) :=
  match s with
  | Pending None => None
  | Pending (Some p) =>
      let '(r, k) := r_shutdown raw (sock p) in
      Some (Ready (match r with Err NotConnected => Ok tt | r => r end), Pending (Some (mkPending k (nodelay_wanted p) (wrote p))))
  | s => on_socket (λ _ o, o_shutdown o) s
  end.

(** ** Listening and connecting *)

(** [Listener::accept] on TCP, by what each [accept4] comes to; a wait for
    readiness is between a call that would block and the next. *)
Inductive Accepted := Came (s : Raw) | NotNow (e : IoErr).

Fixpoint accept (l : list Accepted) : option (result IoErr Stream * list Accepted) :=
  match l with
  | [] => None
  | Came s :: l => Some (Ok (Pending (Some (new_pending s))), l)
  | NotNow WouldBlock :: l | NotNow Interrupted :: l => accept l
  | NotNow e :: l => Some (Err e, l)
  end.

(** [connect]: the socket an address asks for *)
Inductive Dial := DialUnix (path : bytes) | DialTcp (addr : bytes).
Definition dial (addr : bytes) : Dial :=
  match strip_prefix (str "unix:") addr with Some p => DialUnix p | None => DialTcp addr end.

(** [unlink_stale_socket], by what the path is found to be, a socket or not;
    whether it is removed, and the answer *)
Definition unlink_stale_socket (found : result IoErr bool) (remove : result IoErr unit) : bool * result IoErr unit :=
  match found with
  | Ok true => (true, remove)
  | Ok false => (false, Err AlreadyExists)
  | Err NotFound => (false, Ok tt)
  | Err e => (false, Err e)
  end.

(** ** A run of operations *)

Inductive Op := Read (room : nat) | Write (b : bytes) | WriteVectored (bs : list bytes) | Flush | Shutdown | NoDelay | Sendfile.
Inductive Out := GotData (r : Poll bytes) | Took (r : Poll nat) | Told (r : Poll unit) | Silent | IsTcp (b : bool).

Definition do (o : Op) (s : Stream) : Did Out :=
  match o with
  | Read n => '(r, s) ← poll_read n s; Some (GotData r, s)
  | Write b => '(r, s) ← poll_write b s; Some (Took r, s)
  | WriteVectored bs => '(r, s) ← poll_write_vectored bs s; Some (Took r, s)
  | Flush => '(r, s) ← poll_flush s; Some (Told r, s)
  | Shutdown => '(r, s) ← poll_shutdown s; Some (Told r, s)
  | NoDelay => s ← set_nodelay true s; Some (Silent, s)
  | Sendfile => '(b, s) ← as_registered_tcp s; Some (IsTcp b, s)
  end.

Fixpoint run (l : list Op) (s : Stream) : Did (list Out) :=
  match l with
  | [] => Some ([], s)
  | o :: l => '(x, s) ← do o s; '(xs, s) ← run l s; Some (x :: xs, s)
  end.

(** ** The reactor's calls and the plain ones *)

(** What is relied on of the kernel and of the reactor: a socket can be
    registered; the reactor's call does what the plain one would; a call that
    would block changes nothing and is not interrupted; and the option is no
    more than a delay. *)
Class Kernel (reg : Raw → Tcp) := {
  registers k : from_std raw k = Ok (reg k);
  read_ready n k r k' : r_read raw n k = (r, k') → r ≠ Err WouldBlock → o_read tcp n (reg k) = (Ready r, reg k');
  read_blocks n k k' : r_read raw n k = (Err WouldBlock, k') → k' = k;
  read_whole n k : (r_read raw n k).1 ≠ Err Interrupted;
  read_delayed n k : r_read raw n (r_nodelay raw k) = ((r_read raw n k).1, r_nodelay raw (r_read raw n k).2);
  write_ready b k r k' : r_write raw b k = (r, k') → r ≠ Err WouldBlock → o_write tcp b (reg k) = (Ready r, reg k');
  write_blocks b k k' : r_write raw b k = (Err WouldBlock, k') → k' = k;
  write_whole b k : (r_write raw b k).1 ≠ Err Interrupted;
  write_delayed b k : r_write raw b (r_nodelay raw k) = ((r_write raw b k).1, r_nodelay raw (r_write raw b k).2);
  flush_ready k : o_flush tcp (reg k) = (Ready (Ok tt), reg k);
  shutdown_ready k r k' : r_shutdown raw k = (r, k') →
    o_shutdown tcp (reg k) = (Ready (match r with Err NotConnected => Ok tt | r => r end), reg k');
  shutdown_delayed k : r_shutdown raw (r_nodelay raw k) = ((r_shutdown raw k).1, r_nodelay raw (r_shutdown raw k).2);
  nodelay_registered k : o_nodelay tcp true (reg k) = reg (r_nodelay raw k);
  nodelay_once k : r_nodelay raw (r_nodelay raw k) = r_nodelay raw k
}.

Section lazy.
  Context {reg : Raw → Tcp} `{!Kernel reg}.

(** The socket with what is owed to it done *)
Definition settled (p : PendingTcp) : Raw := sock (apply_nodelay p).

(** A stream, and the same registered and with its option set as soon as it
    was asked for *)
Inductive eager : Stream → Stream → Prop :=
  | eager_pending p : eager (Pending (Some p)) (OnTcp (reg (settled p)))
  | eager_tcp t : eager (OnTcp t) (OnTcp t)
  | eager_unix u : eager (OnUnix u) (OnUnix u).

Lemma settled_with k w wr : settled (mkPending k w wr) = if w then r_nodelay raw k else k.
Proof. unfold settled, apply_nodelay. cbn. by destruct w. Qed.

Lemma read_settled n p : r_read raw n (settled p) = ((r_read raw n (sock p)).1, settled (mkPending (r_read raw n (sock p)).2 (nodelay_wanted p) (wrote p))).
Proof. destruct p as [k w wr]. rewrite !settled_with. cbn. destruct w; [apply read_delayed | apply surjective_pairing]. Qed.

Lemma write_settled b p : r_write raw b (settled p) = ((r_write raw b (sock p)).1, settled (mkPending (r_write raw b (sock p)).2 (nodelay_wanted p) (wrote p))).
Proof. destruct p as [k w wr]. rewrite !settled_with. cbn. destruct w; [apply write_delayed | apply surjective_pairing]. Qed.

Lemma register_eager p : register (Pending (Some p)) = Some (Ok tt, OnTcp (reg (settled p))).
Proof. cbn. fold (settled p). by rewrite registers. Qed.

Lemma settled_applied p : settled (apply_nodelay p) = settled p.
Proof. destruct p as [k w wr]. unfold settled, apply_nodelay. cbn. by destruct w. Qed.

(** A registered stream and a Unix one do what they did. *)
Lemma do_same o s : (∀ p, s ≠ Pending p) → ∃ x s', do o s = Some (x, s') ∧ eager s' s'.
Proof.
  intros Hp. destruct s as [t|p|u]; [| by destruct (Hp p) |].
  - destruct o as [n|b|bs| | | |]; cbn.
    + destruct (o_read tcp n t) as [r t']. do 2 eexists. split; [done | constructor].
    + destruct (o_write tcp b t) as [r t']. do 2 eexists. split; [done | constructor].
    + destruct (o_writev tcp bs t) as [r t']. do 2 eexists. split; [done | constructor].
    + destruct (o_flush tcp t) as [r t']. do 2 eexists. split; [done | constructor].
    + destruct (o_shutdown tcp t) as [r t']. do 2 eexists. split; [done | constructor].
    + do 2 eexists. split; [done | constructor].
    + do 2 eexists. split; [done | constructor].
  - destruct o as [n|b|bs| | | |]; cbn.
    + destruct (o_read unix n u) as [r u']. do 2 eexists. split; [done | constructor].
    + destruct (o_write unix b u) as [r u']. do 2 eexists. split; [done | constructor].
    + destruct (o_writev unix bs u) as [r u']. do 2 eexists. split; [done | constructor].
    + destruct (o_flush unix u) as [r u']. do 2 eexists. split; [done | constructor].
    + destruct (o_shutdown unix u) as [r u']. do 2 eexists. split; [done | constructor].
    + do 2 eexists. split; [done | constructor].
    + do 2 eexists. split; [done | constructor].
Qed.

Definition agree {A} (a b : Did A) : Prop := ∃ x s e, a = Some (x, s) ∧ b = Some (x, e) ∧ eager s e.

Lemma read_eager n p : agree (poll_read n (Pending (Some p))) (poll_read n (OnTcp (reg (settled p)))).
Proof.
  cbn [poll_read on_socket]. pose proof (read_settled n p) as Hs. pose proof (read_whole n (sock p)) as Hw.
  destruct (r_read raw n (sock p)) as [r k] eqn:Er. cbn [fst snd] in *. set (p' := mkPending k (nodelay_wanted p) (wrote p)) in *.
  destruct (decide (r = Err WouldBlock)) as [->|Hr].
  - apply read_blocks in Er. unfold registered. rewrite register_eager. cbn [mbind option_bind on_socket].
    assert (p' = p) as -> by (unfold p'; rewrite Er; by destruct p).
    destruct (o_read tcp n (reg (settled p))) as [x t]. do 3 eexists. split; [done | split; [done | constructor]].
  - rewrite (read_ready n (settled p) r (settled p') Hs Hr).
    exists (Ready r), (Pending (Some p')), (OnTcp (reg (settled p'))). split; [| split; [done | constructor]].
    destruct r as [d|[]]; done.
Qed.

Lemma write_eager b p : agree (poll_write b (Pending (Some p))) (poll_write b (OnTcp (reg (settled p)))).
Proof.
  cbn [poll_write on_socket]. set (q := if wrote p then apply_nodelay p else p).
  assert (settled p = settled q) as -> by (unfold q; destruct (wrote p); [by rewrite settled_applied | done]). clearbody q. clear p.
  pose proof (write_settled b q) as Hs. pose proof (write_whole b (sock q)) as Hw.
  destruct (r_write raw b (sock q)) as [r k] eqn:Er. cbn [fst snd] in *. set (q' := mkPending k (nodelay_wanted q) (wrote q)) in *.
  destruct (decide (r = Err WouldBlock)) as [->|Hr].
  - apply write_blocks in Er. unfold registered. rewrite register_eager. cbn [mbind option_bind on_socket].
    assert (q' = q) as -> by (unfold q'; rewrite Er; by destruct q).
    destruct (o_write tcp b (reg (settled q))) as [x t]. do 3 eexists. split; [done | split; [done | constructor]].
  - rewrite (write_ready b (settled q) r (settled q') Hs Hr). exists (Ready r). destruct r as [d|e].
    + exists (Pending (Some (mkPending k (nodelay_wanted q) true))), (OnTcp (reg (settled q'))).
      split; [done | split; [done |]]. unfold q'. rewrite settled_with.
      rewrite <-(settled_with k (nodelay_wanted q) true). constructor.
    + exists (Pending (Some q')), (OnTcp (reg (settled q'))). split; [by destruct e | split; [done | constructor]].
Qed.

Lemma do_eager o s e : eager s e → agree (do o s) (do o e).
Proof.
  intros [p|t|u].
  2: { destruct (do_same o (OnTcp t)) as (x & s' & E & H); [done |]. rewrite E. by exists x, s', s'. }
  2: { destruct (do_same o (OnUnix u)) as (x & s' & E & H); [done |]. rewrite E. by exists x, s', s'. }
  destruct o as [n|b|bs| | | |]; cbn [do].
  - destruct (read_eager n p) as (x & s0 & e0 & -> & -> & H). by do 3 eexists.
  - destruct (write_eager b p) as (x & s0 & e0 & -> & -> & H). by do 3 eexists.
  - unfold poll_write_vectored, registered. rewrite register_eager. cbn [mbind option_bind register on_socket].
    destruct (o_writev tcp bs (reg (settled p))) as [x t]. do 3 eexists. split; [done | split; [done | constructor]].
  - cbn [poll_flush on_socket]. rewrite flush_ready. do 3 eexists. split; [done | split; [done | constructor]].
  - cbn [poll_shutdown on_socket]. destruct (r_shutdown raw (sock p)) as [r k] eqn:Er.
    assert (r_shutdown raw (settled p) = (r, settled (mkPending k (nodelay_wanted p) (wrote p)))) as Hs.
    { destruct p as [k0 w wr]. rewrite !settled_with. cbn in *. destruct w; [by rewrite shutdown_delayed, Er | done]. }
    rewrite (shutdown_ready _ _ _ Hs). do 3 eexists. split; [done | split; [done | constructor]].
  - cbn [set_nodelay mbind option_bind]. rewrite nodelay_registered.
    exists Silent, (Pending (Some (mkPending (sock p) true (wrote p)))), (OnTcp (reg (settled (mkPending (sock p) true (wrote p))))).
    split; [done |]. split; [| constructor]. do 3 f_equal. destruct p as [k w wr]. rewrite !settled_with. cbn. by destruct w; rewrite ?nodelay_once.
  - unfold as_registered_tcp. rewrite register_eager. do 3 eexists. split; [done | split; [done | constructor]].
Qed.

(** Leaving a socket out of the reactor, and its option unset, for as long as
    that can be done is not noticed: whatever is asked of an accepted socket,
    in whatever order, it answers as one that was registered and had its
    option set at once, and no operation panics. *)
Theorem laziness_unseen l k : ∃ outs s e,
  run l (Pending (Some (new_pending k))) = Some (outs, s) ∧ run l (OnTcp (reg k)) = Some (outs, e).
Proof.
  assert (∀ s e, eager s e → ∃ outs s' e', run l s = Some (outs, s') ∧ run l e = Some (outs, e')) as H.
  { induction l as [|o l IH]; intros s e He; [by exists [], s, e |]. destruct (do_eager o s e He) as (x & s1 & e1 & H1 & H2 & He1).
    destruct (IH s1 e1 He1) as (outs & s2 & e2 & H3 & H4). exists (x :: outs), s2, e2. cbn [run]. rewrite H1, H2. cbn [mbind option_bind]. by rewrite H3, H4. }
  apply H. change (reg k) with (reg (settled (new_pending k))). constructor.
Qed.
End lazy.

(** Where the registration fails the socket is gone and the stream still says
    it holds one: [sendfile] is given up for plain writes, and the first of
    them panics. *)
Theorem failed_registration_panics p e b : from_std raw (sock (apply_nodelay p)) = Err e →
  ∃ s, do Sendfile (Pending (Some p)) = Some (IsTcp false, s) ∧ do (Write b) s = None.
Proof. intros He. exists (Pending None). cbn. by rewrite He. Qed.

(** The accept loop hands over the next connection, or the first error that is
    one, and passes over nothing else. *)
Theorem accept_takes_the_next skipped x l : Forall (λ a, a = NotNow WouldBlock ∨ a = NotNow Interrupted) skipped →
  x ≠ NotNow WouldBlock → x ≠ NotNow Interrupted →
  accept (skipped ++ x :: l) = Some (match x with Came s => Ok (Pending (Some (new_pending s))) | NotNow e => Err e end, l).
Proof. intros Hs H1 H2. induction Hs as [|a skipped [-> | ->] _ IH]; [| done | done]. by destruct x as [s|[]]. Qed.

(** Only a socket is ever removed from the path of a listener. *)
Theorem only_sockets_are_removed found remove : (unlink_stale_socket found remove).1 = true → found = Ok true.
Proof. by destruct found as [[]|[]]. Qed.
End transport.

(** ** A kernel *)

(** A socket with what has come in, the room there is to send, what was sent
    and how the two ways to send it are set *)
Record Loop := mkLoop { inbox : bytes; space : nat; sent : bytes; eager_sends : bool; closed : bool }.

Definition loop_raw : RawOps Loop Loop := mkRawOps
  (λ n k, match inbox k with
          | [] => (Err WouldBlock, k)
          | i => (Ok (take n i), mkLoop (drop n i) (space k) (sent k) (eager_sends k) (closed k))
          end)
  (λ b k, if closed k then (Err OtherErr, k) else
          match space k with
          | O => (Err WouldBlock, k)
          | S _ => (Ok (min (space k) (length b)),
                    mkLoop (inbox k) (space k - length b) (sent k ++ take (space k) b) (eager_sends k) (closed k))
          end)
  (λ k, if closed k then (Err NotConnected, k) else (Ok tt, mkLoop (inbox k) (space k) (sent k) (eager_sends k) true))
  (λ k, mkLoop (inbox k) (space k) (sent k) true (closed k))
  Ok.

Definition waits {A} (x : result IoErr A * Loop) : Poll A * Loop :=
  match x with (Err WouldBlock, k) => (NotYet false, k) | (r, k) => (Ready r, k) end.

Definition loop_tcp : Ops Loop := mkOps
  (λ n k, waits (r_read loop_raw n k))
  (λ b k, waits (r_write loop_raw b k))
  (λ bs k, waits (r_write loop_raw (concat bs) k))
  (λ k, (Ready (Ok tt), k))
  (λ k, let '(r, k) := r_shutdown loop_raw k in (Ready (match r with Err NotConnected => Ok tt | r => r end), k))
  (r_read loop_raw)
  (λ on k, mkLoop (inbox k) (space k) (sent k) on (closed k)).

#[export] Instance loop_kernel : Kernel loop_raw loop_tcp id.
Proof.
  split; intros; cbn in *; repeat (case_match; simplify_eq/=); congruence.
Qed.

(** A request is read, its reply written in two parts with the option asked
    for in between, and the second part does not fit. *)
Example laziness_unseen_witness :
  let k := mkLoop (str "GET /") 6 [] false false in
  let ops := [Read 16; Write (str "HTTP"); NoDelay; Write (str "/1.1"); Flush; Write (str ".1"); Shutdown] in
  (∃ outs s e, run loop_raw loop_tcp loop_tcp ops (Pending (Some (new_pending k))) = Some (outs, s) ∧
               run loop_raw loop_tcp loop_tcp ops (OnTcp (id k)) = Some (outs, e)) ∧
  snd <$> run loop_raw loop_tcp loop_tcp ops (Pending (Some (new_pending k))) =
    Some (OnTcp (mkLoop [] 0 (str "HTTP/1") true true)) ∧
  fst <$> run loop_raw loop_tcp loop_tcp ops (OnTcp k) =
    Some [GotData (Ready (Ok (str "GET /"))); Took (Ready (Ok 4%nat)); Silent; Took (Ready (Ok 2%nat));
          Told (Ready (Ok tt)); Took (NotYet false); Told (Ready (Ok tt))].
Proof.
  cbn zeta. split; [exact (laziness_unseen loop_raw loop_tcp loop_tcp (reg := id) _ _) | split; vm_compute; reflexivity].
Defined.
