(* ===== verification/Worker.v ===== *)
(** * [src/server/mod.rs]: a worker

    A process or thread of a worker from its fork to its end: the signals it
    minds and when, the tasks it starts, what its accept loops do with a
    connection, and how it leaves. A signal, the outcome of an [accept] or of a
    bind, and a reading of the clock are events. *)
From S2P Require Import Prelude.
From S2P Require Import Text.
From S2P Require Import Listen.
From S2P Require Import H2Conn.
From S2P Require Import Master.
From S2P Require Transport.

Open Scope oxi_scope.
Open Scope Z_scope.

(** ** Signals, before and after they are listened for *)

(** Whether the process was forked by a master, whose handlers it then has but
    for [SIGTERM] and [SIGINT], or is the whole server. *)
Inductive Origin := Child | Whole.

(** Before [shutdown_signal] is first polled, and after *)
Inductive Phase := Starting | Listening.

(** The master's handlers set flags that nobody in a child reads. *)
Inductive Effect := Dies | FlagSet | Reacts (r : Reaction).

Definition delivered (o : Origin) (ph : Phase) (s : Signal) : Effect :=
  let otherwise := match o with Child => FlagSet | Whole => Dies end in
  match ph with
  | Starting => match s with SigTerm | SigInt => Dies | _ => otherwise end
  | Listening => match shutdown_signal s with NotListened => otherwise | r => Reacts r end
  end.

Inductive Life := Dead | Leaving (s : Stop) | Living (ph : Phase) (reopens : nat).

(** A life of signals; [None] is where the worker comes to listen. *)
Fixpoint life (o : Origin) (ph : Phase) (reopens : nat) (l : list (option Signal)) : Life :=
  match l with
  | [] => Living ph reopens
  | None :: l => life o Listening reopens l
  | Some s :: l =>
      match delivered o ph s with
      | Dies => Dead
      | FlagSet | Reacts NotListened => life o ph reopens l
      | Reacts (Stops s) => Leaving s
      | Reacts Reopens => life o ph (S reopens) l
      end
  end.

(** A worker that listens leaves as the first signal to stop says, having
    asked for its logs to be opened again once for each time it was told. *)
Theorem told_to_leave o s st told : shutdown_signal s = Stops st → Forall (λ t, t = SigUsr1) told →
  life o Listening 0 ((Some <$> told) ++ [Some s]) = Leaving st ∧
  life o Listening 0 (Some <$> told) = Living Listening (length told).
Proof.
  intros Hs Ht. change (length told) with (0 + length told)%nat. generalize 0%nat as n.
  induction Ht as [|t told -> _ IH]; intros n; cbn; [rewrite Hs, Nat.add_0_r; done |].
  destruct (IH (S n)) as [H1 H2]. split; [done |]. rewrite H2. f_equal. lia.
Qed.

(** What a master sends to stop its workers is the one signal a worker loses
    if it comes too soon: until it listens, the handler it inherits swallows it,
    and it goes on to serve; the signals it was meant not to inherit end it. *)
Theorem early_stop_is_lost {G} (m : Master (G := G)) s p : s = SigTerm ∨ s = SigInt ∨ s = SigQuit → p ∈ everyone m →
  Killed p SigQuit ∈ acts (interrupted (on_signal s m)).2 ∧
  life Child Starting 0 [Some SigQuit; None] = Living Listening 0 ∧
  life Child Starting 0 [Some SigTerm; None] = Dead.
Proof.
  intros Hs Hp. split; [| done].
  assert (m_stop (on_signal s m) = true ∧ everyone (on_signal s m) = everyone m) as [Hm He] by (by destruct Hs as [-> | [-> | ->]]).
  unfold interrupted. rewrite Hm, He. cbn. apply elem_of_app. right. apply list_elem_of_fmap. by exists p.
Qed.

(** With one worker there is no master: what asks for a reload ends it. *)
Theorem reload_ends_a_single_worker s : signal_named (str "reload") = Some s → life Whole Listening 0 [Some s] = Dead.
Proof. by intros [= <-]. Qed.

(** The child's side of [prefork]'s [spawn]: its exit code, and what it ran *)
Definition child {I} (parent : Pid) (built : result unit I) (worker : I → result unit unit) : Z * option I :=
  if decide (parent = 1) then (0, None)
  else match built with
       | Err _ => (1, None)
       | Ok i => (match worker i with Ok _ => 0 | Err _ => 1 end, Some i)
       end.

(** A worker is run by the child of a living master, unless that master is the
    first process of its system, as in a container: its children all take it
    for dead and leave at once. *)
Theorem child_runs {I} parent (i : I) worker : (child parent (Ok i) worker).2 = Some i ↔ parent ≠ 1.
Proof. unfold child. case_decide; by split. Qed.

(** ** Numbers of connections *)

(** [CONN_ID] as a child of number [w] starts it, and after [n] connections *)
Definition first_id (w : Z) : Z := Z.land (Z.shiftl w 56) (Z.ones 64).
Definition next_id (n : Z) : Z := (n + 1) mod 2 ^ 64.
Definition conn_id (w n : Z) : Z := (first_id w + n) mod 2 ^ 64.

Lemma first_id_spec w : 0 ≤ w < 256 → first_id w = w * 2 ^ 56.
Proof.
  intros Hw. unfold first_id. rewrite Z.land_ones, Z.shiftl_mul_pow2 by lia.
  apply Z.mod_small. lia.
Qed.

Lemma next_conn_id w n : next_id (conn_id w n) = conn_id w (n + 1).
Proof. unfold next_id, conn_id. rewrite Zplus_mod_idemp_l. f_equal. lia. Qed.

(** The numbers of two workers do not meet, for so many workers and so many
    connections of each. *)
Theorem conn_ids_apart w1 w2 n1 n2 : 0 ≤ w1 < 256 → 0 ≤ w2 < 256 → 0 ≤ n1 < 2 ^ 56 → 0 ≤ n2 < 2 ^ 56 →
  conn_id w1 n1 = conn_id w2 n2 → w1 = w2 ∧ n1 = n2.
Proof. intros. unfold conn_id in *. rewrite !first_id_spec, !Z.mod_small in * by lia. lia. Qed.

(** The workers after those share the numbers. *)
Theorem conn_ids_meet w n : 0 ≤ w → conn_id (w + 256) n = conn_id w n.
Proof.
  intros Hw. unfold conn_id, first_id. rewrite !Z.land_ones, !Z.shiftl_mul_pow2 by lia.
  replace ((w + 256) * 2 ^ 56) with (w * 2 ^ 56 + 1 * 2 ^ 64) by lia. by rewrite Z_mod_plus_full.
Qed.

(** ** Accepting *)

Section accepting.
  Context {Raw Tcp Unix : Type} (raw : Transport.RawOps Raw Tcp) (tcp : Transport.Ops Tcp).
  Local Abbreviation Stream := (Transport.Stream (Raw := Raw) (Tcp := Tcp) (Unix := Unix)).

(** What [accept] comes to, and what the loop makes of it: goes on, logs and
    pauses, or serves *)
Inductive Arrival := Arrives (s : Stream) | Fails (e : Transport.IoErr).
Inductive Turn := GoesOn | Pauses (e : Transport.IoErr) | Serves (id : Z) (s : Stream).

(** A turn of [accept_loop], with the next number; [None] is a panic. *)
Definition accept_turn (nodelay : bool) (a : Arrival) (id : Z) : option (Turn * Z) :=
  match a with
  | Fails Transport.ConnectionAborted | Fails Transport.Interrupted => Some (GoesOn, id)
  | Fails e => Some (Pauses e, id)
  | Arrives s => s ← (if nodelay then Transport.set_nodelay tcp true s else Some s); Some (Serves id s, next_id id)
  end.

Fixpoint accept_loop (nodelay : bool) (l : list Arrival) (id : Z) : option (list Turn) :=
  match l with
  | [] => Some []
  | a :: l => '(t, id) ← accept_turn nodelay a id; ts ← accept_loop nodelay l id; Some (t :: ts)
  end.

Definition arrived (a : Arrival) : option Stream := match a with Arrives s => Some s | Fails _ => None end.
Definition serving (t : Turn) : option (Z * Stream) := match t with Serves i s => Some (i, s) | _ => None end.

Definition asked (nodelay : bool) (s : Stream) : option Stream :=
  if nodelay then Transport.set_nodelay tcp true s else Some s.

(** No error ends the loop: every connection that comes is served, in its turn,
    under the next number, and with its option asked for. *)
Theorem accept_loop_serves w nodelay (l : list Arrival) : ∀ n, Forall (λ s, s ≠ Transport.Pending None) (omap arrived l) →
  ∃ ts, accept_loop nodelay l (conn_id w n) = Some ts ∧ length ts = length l ∧
    (omap serving ts).*1 = conn_id w <$> seqZ n (Z.of_nat (length (omap arrived l))) ∧
    Some <$> (omap serving ts).*2 = asked nodelay <$> omap arrived l.
Proof.
  induction l as [|a l IH]; intros n Hf; [by exists [] |]. cbn [accept_loop]. destruct a as [s|e]; cbn in Hf.
  - apply Forall_cons in Hf as [Hs Hf]. destruct (IH (n + 1) Hf) as (ts & Ht & Hl & Hi & Hv).
    assert (is_Some (asked nodelay s)) as [s' Ha] by (unfold asked; destruct nodelay; [destruct s as [|[]|]; [done | done | done | done] | done]).
    cbn [accept_turn]. fold (asked nodelay s). rewrite Ha. cbn [mbind option_bind]. rewrite next_conn_id, Ht.
    eexists; split; [done |]. cbn. rewrite Hl, Hi, Hv, Ha. split_and!; [done | | done].
    rewrite (seqZ_cons n) by lia. cbn. do 3 f_equal; lia.
  - destruct (IH n Hf) as (ts & Ht & Hl & Hi & Hv).
    assert (∃ t, accept_turn nodelay (Fails e) (conn_id w n) = Some (t, conn_id w n) ∧ serving t = None) as (t & -> & Hn)
      by (destruct e; by eexists). cbn [mbind option_bind]. rewrite Ht. exists (t :: ts). cbn. rewrite Hn, Hl. by split_and!.
Qed.

(** ** Streams *)

(** [stream_accept_loop], the option it means to set on a connection *)
Definition stream_nodelay (s : Stream) : Stream :=
  match s with Transport.OnTcp t => Transport.OnTcp (Transport.o_nodelay tcp true t) | s => s end.

(** A connection that has been accepted is never of the kind it sets the option
    on: it is not set, nor when the socket is registered. *)
Theorem stream_nodelay_never_set l s rest : Transport.accept l = Some (Ok s, rest) →
  stream_nodelay s = s ∧ ∃ k, Transport.Came k ∈ l ∧
    Transport.register raw s = Some match Transport.from_std raw k with
                                    | Ok t => (Ok tt, Transport.OnTcp t)
                                    | Err e => (Err e, Transport.Pending None)
                                    end.
Proof.
  induction l as [|a l IH]; [done |]. destruct a as [k|e]; cbn.
  - intros [= <- <-]. split; [done |]. exists k. split; [by left |]. cbn. by destruct (Transport.from_std raw k).
  - intros H. assert (Transport.accept (Unix := Unix) l = Some (Ok s, rest)) as Hl by (destruct e; by simplify_eq).
    destruct (IH Hl) as (H1 & k & Hk & H2). split; [done |]. exists k. split; [by right | done].
Qed.
End accepting.

(** ** The protocol of a connection *)

(** A handshake, and the protocol it agreed on *)
Inductive Handshake := Shook (alpn : option bytes) | Refused.

Inductive Served :=
  | Unserved
  | AsHttp2 (scheme prefix : bytes) (rest : list bytes)
  | AsHttp1 (scheme prefix : bytes) (rest : list bytes).

(** The task of a connection, with its bytes as they come *)
Definition serve_as (tls : option Handshake) (http2 : bool) (chunks : list bytes) (ends : Ends) : option Served :=
  match tls with
  | Some Refused => Some Unserved
  | Some (Shook alpn) =>
      Some (if decide (alpn = Some (str "h2")) then AsHttp2 (str "https") [] chunks else AsHttp1 (str "https") [] chunks)
  | None =>
      if http2 then
        p ← peek_preface (S (length PREFACE)) [] chunks ends;
        Some match p with
             | H2 pre rest => AsHttp2 (str "http") pre rest
             | Http1 pre rest => AsHttp1 (str "http") pre rest
             | Gone => Unserved
             end
      else Some (AsHttp1 (str "http") [] chunks)
  end.

(** A connection is served as what its handshake agreed on, or, in the clear,
    as what it opens with where that is looked at; the server reads every byte
    the client sent, and a connection is dropped only for a handshake that
    fails or an end within the preface. *)
Theorem protocol_served tls http2 chunks ends : Forall (λ c, c ≠ []) chunks →
  match serve_as tls http2 chunks ends with
  | Some (AsHttp2 scheme pre rest) => pre ++ concat rest = concat chunks ∧
      (tls = Some (Shook (Some (str "h2"))) ∧ scheme = str "https" ∨ tls = None ∧ http2 = true ∧ scheme = str "http" ∧ PREFACE `prefix_of` concat chunks)
  | Some (AsHttp1 scheme pre rest) => pre ++ concat rest = concat chunks ∧
      ((∃ alpn, tls = Some (Shook alpn) ∧ alpn ≠ Some (str "h2")) ∧ scheme = str "https" ∨
       tls = None ∧ scheme = str "http" ∧ (http2 = false ∨ ¬ PREFACE `prefix_of` concat chunks))
  | Some Unserved => tls = Some Refused ∨ tls = None ∧ http2 = true ∧ ends = Master.Fails ∧ concat chunks `prefix_of` PREFACE
  | None => False
  end.
Proof.
  intros Hf. destruct tls as [[alpn|]|]; cbn [serve_as].
  - case_decide as Ha; (split; [done |]); left; [by rewrite Ha | split; [by exists alpn | done]].
  - by left.
  - destruct http2; [| split; [done | right; split_and!; [done | done | by left]]].
    pose proof (preface_told chunks ends Hf) as Hp. destruct (peek_preface _ [] chunks ends) as [[pre rest|pre rest|]|]; cbn [mbind option_bind]; [| | | done].
    + destruct Hp as [H1 H2]. split; [done |]. right. by split_and!.
    + destruct Hp as [H1 H2]. split; [done |]. right. split_and!; [done | done | by right].
    + destruct Hp as (H1 & H2 & H3). right. by split_and!.
Qed.

(** ** The tasks of a worker *)

Section tasks.
  Context {L S A T Q E SL D U Zone : Type}.
  Context (try_clone : S → option S) (bind : L → option S) (bind_stream : SL → option S) (into_listener : S → option A).
  Context (endpoint : L → Q → option E) (udp_bind : SL → option D).
  Context (health_check : U → bool) (inactive : Zone → Z).

(** [StreamConf] *)
Record StreamConf := mkStream { tcp_listeners : list SL; udp_listeners : list SL; stream_upstreams : list U }.

(** [WorkerInputs] *)
Record Inputs := mkInputs {
  http_upstreams : list U;
  cache_zones : list Zone;
  tls : list (option T);
  listeners : list (L * option S);
  quic : list (L * Q);
  stream_conf : option StreamConf;
  stream_listeners : list (SL * option S);
  own_state : bool
}.

Inductive Task :=
  | AcceptLoop (a : A) (l : L) (t : option T)
  | QuicLoop (e : E) (l : L)
  | UdpServe (d : D) (l : SL)
  | StreamLoop (a : A) (l : SL)
  | Probes (u : U)
  | Manager (z : Zone) (every : Z)
  | Flusher.

(** What is logged of a listener that cannot be bound *)
Inductive Alert := QuicFailed (l : L) | UdpFailed (l : SL).

Definition bound {X} (f : X → option S) (x : X * option S) : option A :=
  (match x.2 with Some s => Some s | None => f x.1 end) ≫= into_listener.

Fixpoint http_tasks (idx : nat) (tls : list (option T)) (ls : list (L * option S)) : option (list Task) :=
  match ls with
  | [] => Some []
  | x :: ls => a ← bound bind x; ts ← http_tasks (1 + idx) tls ls; Some (AcceptLoop a x.1 (mjoin (tls !! idx)) :: ts)
  end.

Fixpoint quic_tasks (ls : list (L * Q)) : list Task * list Alert :=
  match ls with
  | [] => ([], [])
  | (l, q) :: ls =>
      let '(ts, al) := quic_tasks ls in
      match endpoint l q with Some e => (QuicLoop e l :: ts, al) | None => (ts, QuicFailed l :: al) end
  end.

Fixpoint udp_tasks (ls : list SL) : list Task * list Alert :=
  match ls with
  | [] => ([], [])
  | l :: ls =>
      let '(ts, al) := udp_tasks ls in
      match udp_bind l with Some d => (UdpServe d l :: ts, al) | None => (ts, UdpFailed l :: al) end
  end.

Fixpoint stream_tasks (conf : option StreamConf) (ls : list (SL * option S)) : option (list Task) :=
  match ls with
  | [] => Some []
  | x :: ls =>
      a ← bound bind_stream x; ts ← stream_tasks conf ls;
      Some (match conf with Some _ => StreamLoop a x.1 :: ts | None => ts end)
  end.

Definition probed (i : Inputs) : list U :=
  http_upstreams i ++ match stream_conf i with Some sc => stream_upstreams sc | None => [] end.

Definition probe_tasks (id : nat) (i : Inputs) : list Task :=
  if bool_decide (id = 0%nat) || own_state i then Probes <$> filter health_check (probed i) else [].

(** In milliseconds *)
Definition sweep_every (z : Zone) : Z := Z.min (Z.max (inactive z / 10) 10000) 300000.

Definition manager_tasks (id : nat) (i : Inputs) : list Task :=
  if decide (id = 0%nat) then (λ z, Manager z (sweep_every z)) <$> cache_zones i else [].

(** [worker], to where it waits for its end: its tasks and what it logs;
    [None] is an error that ends it. *)
Definition worker (id : nat) (i : Inputs) : option (list Task * list Alert) :=
  http ← http_tasks 0 (tls i) (listeners i);
  let '(quic, al) := quic_tasks (quic i) in
  let '(udp, al') := udp_tasks match stream_conf i with Some sc => udp_listeners sc | None => [] end in
  streams ← stream_tasks (stream_conf i) (stream_listeners i);
  Some (http ++ quic ++ udp ++ streams ++ probe_tasks id i ++ manager_tasks id i ++ [Flusher], al ++ al').

(** [Generation], what a worker is given of it *)
Record Gen := mkGen {
  g_listeners : list L;
  g_shared : list (option S);
  g_tls : list (option T);
  g_quic : list (L * option Q);
  g_stream : option StreamConf;
  g_stream_bound : list (option S);
  g_upstreams : list U;
  g_zones : list Zone
}.

(** [Generation::build], with the state of its own that a forked worker has;
    [None] is an index out of bounds, [Err] a socket that cannot be copied. *)
Definition build (g : Gen) (own : bool) : option (result unit Inputs) :=
  ls ← worker_sockets try_clone 0 (g_listeners g) (g_shared g);
  match ls with
  | Err e => Some (Err e)
  | Ok ls =>
      sls ← match g_stream g with Some sc => worker_sockets try_clone 0 (tcp_listeners sc) (g_stream_bound g) | None => Some (Ok []) end;
      Some (match sls with
            | Err e => Err e
            | Ok sls => Ok (mkInputs (g_upstreams g) (g_zones g) (g_tls g) ls
                              (omap (λ x, pair x.1 <$> x.2) (g_quic g)) (g_stream g) sls own)
            end)
  end.

(** What a task listens on, probes or manages *)
Definition listens (t : Task) : option (L * option T) := match t with AcceptLoop _ l t => Some (l, t) | _ => None end.
Definition quic_listens (t : Task) : option L := match t with QuicLoop _ l => Some l | _ => None end.
Definition udp_listens (t : Task) : option SL := match t with UdpServe _ l => Some l | _ => None end.
Definition stream_listens (t : Task) : option SL := match t with StreamLoop _ l => Some l | _ => None end.
Definition probes (t : Task) : option U := match t with Probes u => Some u | _ => None end.
Definition manages (t : Task) : option Zone := match t with Manager z _ => Some z | _ => None end.

(** All that a list of tasks does, by kind *)
Record Duties := mkDuties {
  d_http : list (L * option T); d_quic : list L; d_udp : list SL; d_stream : list SL; d_probes : list U; d_zones : list Zone
}.

Definition duties (ts : list Task) : Duties :=
  mkDuties (omap listens ts) (omap quic_listens ts) (omap udp_listens ts) (omap stream_listens ts) (omap probes ts) (omap manages ts).

Definition join (a b : Duties) : Duties :=
  mkDuties (d_http a ++ d_http b) (d_quic a ++ d_quic b) (d_udp a ++ d_udp b) (d_stream a ++ d_stream b) (d_probes a ++ d_probes b) (d_zones a ++ d_zones b).

Lemma duties_app a b : duties (a ++ b) = join (duties a) (duties b).
Proof. unfold duties, join. cbn. by rewrite !omap_app. Qed.

(** A listener with the certificates of its place *)
Definition http_duty (idx : nat) (tls : list (option T)) (ls : list (L * option S)) : list (L * option T) :=
  imap (λ i x, (x.1, mjoin (tls !! (idx + i)%nat))) ls.

Lemma http_tasks_spec idx tls ls :
  (is_Some (http_tasks idx tls ls) ↔ Forall (λ x, is_Some (bound bind x)) ls) ∧
  ∀ ts, http_tasks idx tls ls = Some ts → duties ts = mkDuties (http_duty idx tls ls) [] [] [] [] [].
Proof.
  revert idx. induction ls as [|x ls IH]; intros idx; cbn [http_tasks]; [split; [done | by intros ts [= <-]] |].
  destruct (IH (1 + idx)%nat) as [H1 H2]. rewrite Forall_cons, <-H1. destruct (bound bind x) as [a|]; cbn [mbind option_bind]; [| split; [split; [by intros [] | by intros [[] _]] | done]].
  destruct (http_tasks (1 + idx) tls ls) as [ts|]; cbn [mbind option_bind]; [| split; [split; [by intros [] | by intros [_ []]] | done]].
  split; [split; done |]. intros ? [= <-]. specialize (H2 ts eq_refl). unfold duties in *. injection H2 as Ha Hb Hc Hd He Hf.
  cbn. rewrite Ha, Hb, Hc, Hd, He, Hf. f_equal. unfold http_duty. cbn. rewrite Nat.add_0_r. f_equal.
  apply imap_ext. intros i y _. cbn. do 3 f_equal. lia.
Qed.

Lemma stream_tasks_spec conf ls :
  (is_Some (stream_tasks conf ls) ↔ Forall (λ x, is_Some (bound bind_stream x)) ls) ∧
  ∀ ts, stream_tasks conf ls = Some ts → duties ts = mkDuties [] [] [] (match conf with Some _ => ls.*1 | None => [] end) [] [].
Proof.
  induction ls as [|x ls [H1 H2]]; cbn [stream_tasks]; [split; [done | intros ts [= <-]; by destruct conf] |].
  rewrite Forall_cons, <-H1. destruct (bound bind_stream x) as [a|]; cbn [mbind option_bind]; [| split; [split; [by intros [] | by intros [[] _]] | done]].
  destruct (stream_tasks conf ls) as [ts|]; cbn [mbind option_bind]; [| split; [split; [by intros [] | by intros [_ []]] | done]].
  split; [split; done |]. intros ? [= <-]. specialize (H2 ts eq_refl). destruct conf; [| done].
  unfold duties in *. injection H2 as Ha Hb Hc Hd He Hf. cbn. by rewrite Ha, Hb, Hc, Hd, He, Hf.
Qed.

Lemma quic_tasks_spec ls :
  duties (quic_tasks ls).1 = mkDuties [] (filter (λ x, is_Some (endpoint x.1 x.2)) ls).*1 [] [] [] [] ∧
  (quic_tasks ls).2 = QuicFailed <$> (filter (λ x, ¬ is_Some (endpoint x.1 x.2)) ls).*1.
Proof.
  induction ls as [|[l q] ls [H1 H2]]; [done |]. cbn [quic_tasks]. destruct (quic_tasks ls) as [ts al]. cbn [fst snd] in *.
  unfold duties in *. injection H1 as Ha Hb Hc Hd He Hf. rewrite !filter_cons. cbn [fst snd].
  destruct (endpoint l q) as [e|]; cbn; rewrite Ha, Hb, Hc, Hd, He, Hf, H2.
  - rewrite decide_True by done. by rewrite decide_False by (intros Hn; by apply Hn).
  - rewrite decide_False by (by intros []). by rewrite decide_True by (by intros []).
Qed.

Lemma udp_tasks_spec ls :
  duties (udp_tasks ls).1 = mkDuties [] [] (filter (λ l, is_Some (udp_bind l)) ls) [] [] [] ∧
  (udp_tasks ls).2 = UdpFailed <$> filter (λ l, ¬ is_Some (udp_bind l)) ls.
Proof.
  induction ls as [|l ls [H1 H2]]; [done |]. cbn [udp_tasks]. destruct (udp_tasks ls) as [ts al]. cbn [fst snd] in *.
  unfold duties in *. injection H1 as Ha Hb Hc Hd He Hf. rewrite !filter_cons.
  destruct (udp_bind l) as [d|]; cbn; rewrite Ha, Hb, Hc, Hd, He, Hf, H2.
  - rewrite decide_True by done. by rewrite decide_False by (intros Hn; by apply Hn).
  - rewrite decide_False by (by intros []). by rewrite decide_True by (by intros []).
Qed.

Lemma duties_probes l : duties (Probes <$> l) = mkDuties [] [] [] [] l [].
Proof. induction l as [|u l IH]; [done |]. unfold duties in *. injection IH as Ha Hb Hc Hd He Hf. cbn. by rewrite Ha, Hb, Hc, Hd, He, Hf. Qed.

Lemma duties_managers l : duties ((λ z, Manager z (sweep_every z)) <$> l) = mkDuties [] [] [] [] [] l.
Proof. induction l as [|u l IH]; [done |]. unfold duties in *. injection IH as Ha Hb Hc Hd He Hf. cbn. by rewrite Ha, Hb, Hc, Hd, He, Hf. Qed.

Definition udp_of (i : Inputs) : list SL := match stream_conf i with Some sc => udp_listeners sc | None => [] end.

(** The duties of a worker *)
Definition owed (id : nat) (i : Inputs) : Duties :=
  mkDuties (http_duty 0 (tls i) (listeners i))
    (filter (λ x, is_Some (endpoint x.1 x.2)) (quic i)).*1
    (filter (λ l, is_Some (udp_bind l)) (udp_of i))
    (match stream_conf i with Some _ => (stream_listeners i).*1 | None => [] end)
    (if bool_decide (id = 0%nat) || own_state i then filter health_check (probed i) else [])
    (if decide (id = 0%nat) then cache_zones i else []).

(** A TCP listener that cannot be bound ends the worker, whatever else it could
    serve; a QUIC or a UDP one is logged and left out; and the worker serves
    all the others, each with its own certificates. *)
Theorem worker_duties id i :
  (is_Some (worker id i) ↔ Forall (λ x, is_Some (bound bind x)) (listeners i) ∧ Forall (λ x, is_Some (bound bind_stream x)) (stream_listeners i)) ∧
  ∀ ts al, worker id i = Some (ts, al) → duties ts = owed id i ∧
    al = (QuicFailed <$> (filter (λ x, ¬ is_Some (endpoint x.1 x.2)) (quic i)).*1) ++ (UdpFailed <$> filter (λ l, ¬ is_Some (udp_bind l)) (udp_of i)).
Proof.
  unfold worker. fold (udp_of i). destruct (http_tasks_spec 0 (tls i) (listeners i)) as [<- H1].
  destruct (stream_tasks_spec (stream_conf i) (stream_listeners i)) as [<- H2].
  destruct (quic_tasks_spec (quic i)) as [H3 H4], (udp_tasks_spec (udp_of i)) as [H5 H6].
  destruct (quic_tasks (quic i)) as [q al], (udp_tasks (udp_of i)) as [u al']. cbn [fst snd] in *.
  destruct (http_tasks 0 _ _) as [h|]; cbn [mbind option_bind]; [| split; [split; [by intros [] | by intros [[] _]] | done]].
  destruct (stream_tasks _ _) as [s|]; cbn [mbind option_bind]; [| split; [split; [by intros [] | by intros [_ []]] | done]].
  split; [done |]. intros ? ? [= <- <-]. split; [| by rewrite H4, H6].
  rewrite !duties_app, H3, H5, (H1 h eq_refl), (H2 s eq_refl). unfold probe_tasks, manager_tasks, owed.
  destruct (_ || _), (decide (id = 0%nat)); rewrite ?duties_probes, ?duties_managers; unfold join; cbn; by rewrite ?app_nil_r.
Qed.

(** What [Generation::prepare] leaves: a socket for each listener, or a place
    for the worker's own. *)
Definition prepared (g : Gen) : Prop :=
  length (g_shared g) = length (g_listeners g) ∧
  ∀ sc, g_stream g = Some sc → length (g_stream_bound g) = length (tcp_listeners sc).

Lemma bound_all {X} (f : X → option S) (xs : list (X * option S)) : (∀ s, is_Some (into_listener s)) → (∀ x, is_Some (f x)) →
  Forall (λ x, is_Some (bound f x)) xs.
Proof.
  intros Hi Hf. apply Forall_forall. intros [x [s|]] _; unfold bound; cbn; [apply Hi |].
  destruct (Hf x) as [s ->]. apply Hi.
Qed.

Lemma http_duty_zip idx tls ls (out : list (option S)) : length out = length ls →
  http_duty idx tls (zip ls out) = imap (λ i l, (l, mjoin (tls !! (idx + i)%nat))) ls.
Proof.
  intros Hl. unfold http_duty. apply list_eq. intros i. rewrite !list_lookup_imap, lookup_zip_with.
  destruct (ls !! i) as [l|] eqn:El; cbn; [| done].
  destruct (lookup_lt_is_Some_2 out i) as [o ->]; [rewrite Hl; by eapply lookup_lt_Some | done].
Qed.

(** Every worker of a generation serves every listener of it over TCP, HTTP and
    [stream], as far as the system lets it, with the certificates built for
    that listener. *)
Theorem generation_served g own id : prepared g → (∀ s, is_Some (try_clone s)) → (∀ s, is_Some (into_listener s)) →
  (∀ l, is_Some (bind l)) → (∀ l, is_Some (bind_stream l)) →
  ∃ inp ts al, build g own = Some (Ok inp) ∧ worker id inp = Some (ts, al) ∧
    d_http (duties ts) = imap (λ i l, (l, mjoin (g_tls g !! i))) (g_listeners g) ∧
    d_stream (duties ts) = match g_stream g with Some sc => tcp_listeners sc | None => [] end.
Proof.
  intros [Hl Hs] Hc Hi Hb Hbs. unfold build. rewrite (worker_sockets_spec _ _ _ _ (g_shared g)) by done. cbn [mbind option_bind].
  assert (∃ sls, match g_stream g with Some sc => worker_sockets try_clone 0 (tcp_listeners sc) (g_stream_bound g) | None => Some (Ok []) end = Some (Ok sls) ∧
    sls.*1 = match g_stream g with Some sc => tcp_listeners sc | None => [] end) as (sls & Es & Ef).
  { destruct (g_stream g) as [sc|]; [| by exists []]. specialize (Hs sc eq_refl). rewrite (worker_sockets_spec _ _ _ _ (g_stream_bound g)) by done.
    eexists. split; [done |]. by rewrite fst_zip by (rewrite length_fmap; lia). }
  rewrite Es. cbn [mbind option_bind]. eexists. destruct (worker_duties id
    (mkInputs (g_upstreams g) (g_zones g) (g_tls g) (zip (g_listeners g) ((λ o, o ≫= try_clone) <$> g_shared g)) (omap (λ x, pair x.1 <$> x.2) (g_quic g)) (g_stream g) sls own))
    as [[_ H1] H2]. destruct H1 as [[ts al] Hw]; [split; by apply bound_all |].
  destruct (H2 ts al Hw) as [Hd _]. exists ts, al. split; [done |]. split; [exact Hw |]. rewrite Hd. unfold owed. cbn [d_http d_stream tls listeners stream_conf stream_listeners].
  split; [rewrite http_duty_zip by (by rewrite length_fmap); done |]. by destruct (g_stream g).
Qed.

(** The workers that start, with their numbers *)
Fixpoint all_duties (id : nat) (ins : list Inputs) : list Duties :=
  match ins with [] => [] | i :: ins => owed id i :: all_duties (1 + id) ins end.

Lemma later_duties zs us own ins : ∀ id, id ≠ 0%nat → Forall (λ i, cache_zones i = zs ∧ probed i = us ∧ own_state i = own) ins →
  concat (d_zones <$> all_duties id ins) = [] ∧
  concat (d_probes <$> all_duties id ins) = if own then concat (replicate (length ins) (filter health_check us)) else [].
Proof.
  induction ins as [|i ins IH]; intros id Hid Hf; [by destruct own |]. apply Forall_cons in Hf as [(Hz & Hu & Ho) Hf].
  destruct (IH (1 + id)%nat ltac:(lia) Hf) as [H1 H2]. cbn in H1, H2 |- *. rewrite H1, H2. unfold owed. cbn.
  rewrite bool_decide_eq_false_2, decide_False, Ho, Hu by done. by destruct own.
Qed.

(** However many workers there are, each zone of the cache has one manager and
    no more; and each upstream is probed once, or once by every worker where
    each has a state of its own to keep. *)
Theorem one_manager_per_zone zs us own i ins : Forall (λ i, cache_zones i = zs ∧ probed i = us ∧ own_state i = own) (i :: ins) →
  concat (d_zones <$> all_duties 0 (i :: ins)) = zs ∧
  concat (d_probes <$> all_duties 0 (i :: ins)) =
    if own then concat (replicate (length (i :: ins)) (filter health_check us)) else filter health_check us.
Proof.
  intros [(Hz & Hu & Ho) Hf]%Forall_cons. destruct (later_duties zs us own ins 1 ltac:(lia) Hf) as [H1 H2].
  cbn. rewrite H1, H2. unfold owed. cbn. rewrite Hu, Hz, app_nil_r. destruct own; [done | by rewrite app_nil_r].
Qed.

(** A zone is looked over between every ten seconds and every five minutes. *)
Theorem sweep_bounds z : 10000 ≤ sweep_every z ≤ 300000 ∧ (100000 ≤ inactive z ≤ 3000000 → sweep_every z = inactive z / 10).
Proof.
  unfold sweep_every. split; [lia |]. intros H. assert (10000 ≤ inactive z / 10 ≤ 300000) by (split; [apply Z.div_le_lower_bound | apply Z.div_le_upper_bound]; lia). lia.
Qed.
End tasks.

(** ** Listening on a path *)

(** What a path is: nothing, the socket of a worker, or anything else *)
Inductive Node := Absent | SocketOf (w : nat) | Other.

Definition found (n : Node) : result Transport.IoErr bool :=
  match n with Absent => Err Transport.NotFound | SocketOf _ => Ok true | Other => Ok false end.

(** [bind] of a Unix address, by the worker of this number *)
Definition bind_unix (w : nat) (n : Node) : option Node :=
  match (Transport.unlink_stale_socket (found n) (Ok tt)).2 with Ok _ => Some (SocketOf w) | Err _ => None end.

Fixpoint bind_each (ws : list nat) (n : Node) : option Node :=
  match ws with [] => Some n | w :: ws => n ← bind_unix w n; bind_each ws n end.

(** Where each worker binds a path for itself, each takes the path from the one
    before, and from whatever server listened there: all but the last listen on
    a socket that has no name. *)
Theorem last_worker_has_the_path ws w n : n ≠ Other → bind_each (ws ++ [w]) n = Some (SocketOf w).
Proof. revert n. induction ws as [|v ws IH]; intros [|u|] Hn; cbn; try done; by apply IH. Qed.

(** A file that is no socket is kept, and the worker does not start. *)
Theorem file_is_kept w ws : bind_each (w :: ws) Other = None.
Proof. done. Qed.

(** ** Leaving *)

(** [LIVE_REQUESTS], from the requests that begin and end *)
Inductive Live := Enters | Leaves.
#[export] Instance Live_eq_dec : EqDecision Live.
Proof. solve_decision. Defined.

Definition live_step (n : Z) (e : Live) : Z := (match e with Enters => n + 1 | Leaves => n - 1 end) mod 2 ^ 64.
Definition live (l : list Live) : Z := foldl live_step 0 l.

Definition begun (l : list Live) : Z := Z.of_nat (length (filter (λ e, e = Enters) l)).
Definition ended (l : list Live) : Z := Z.of_nat (length (filter (λ e, e = Leaves) l)).

Definition GRACEFUL_TIMEOUT : Z := 30000.

(** The wait for the requests in hand, by what each look at the counter and
    the clock finds, ten milliseconds apart; [None] is a wait that goes on. *)
Fixpoint drain (deadline : Z) (looks : list (Z * Z)) : option (Z * Z) :=
  match looks with
  | [] => None
  | (n, now) :: looks => if (0 <? n) && (now <? deadline) then drain deadline looks else Some (n, now)
  end.

(** What a worker does when it is told to leave *)
Inductive Closing := AbortTasks | Drained (live now : Z) | FlushLogs.

Definition leave (s : Stop) (start : Z) (looks : list (Z * Z)) : option (list Closing) :=
  match s with
  | Now => Some [FlushLogs; AbortTasks]
  | Graceful => '(n, now) ← drain (start + GRACEFUL_TIMEOUT) looks; Some [AbortTasks; Drained n now; FlushLogs; AbortTasks]
  end.

(** The counter is the number of requests in hand. *)
Theorem live_counts l : live l = (begun l - ended l) mod 2 ^ 64.
Proof.
  unfold live. induction l as [|e l IH] using rev_ind; [done |]. rewrite foldl_snoc, IH.
  unfold begun, ended, live_step. rewrite !filter_app, !length_app, !filter_cons, !filter_nil.
  destruct e; repeat case_decide; try done; cbn [length].
  - rewrite Zplus_mod_idemp_l. f_equal. lia.
  - rewrite Zminus_mod_idemp_l. f_equal. lia.
Qed.

Lemma drain_spec deadline looks n now : drain deadline looks = Some (n, now) → (n, now) ∈ looks ∧ (n ≤ 0 ∨ deadline ≤ now).
Proof.
  induction looks as [|[n' now'] looks IH]; [done |]. cbn [drain]. destruct (Z.ltb_spec 0 n'), (Z.ltb_spec now' deadline); cbn [andb].
  - intros H'. destruct (IH H'). split; [by right | done].
  - intros [= <- <-]. split; [by left | by right].
  - intros [= <- <-]. split; [by left | by left].
  - intros [= <- <-]. split; [by left | by left].
Qed.

Lemma drain_goes_on deadline looks : drain deadline looks = None → Forall (λ x, 0 < x.1 ∧ x.2 < deadline) looks.
Proof.
  induction looks as [|[n now] looks IH]; [done |]. cbn [drain]. destruct (Z.ltb_spec 0 n), (Z.ltb_spec now deadline); cbn [andb]; try done.
  intros H'. constructor; [by split | by apply IH].
Qed.

(** A worker told to drain takes no more work, waits until nothing is in hand
    or half a minute is over, which is three thousand looks at most, and then
    writes out what it has logged; one told to stop does so at once. *)
Theorem worker_leaves s start looks : (∀ i n now, looks !! i = Some (n, now) → start + 10 * Z.of_nat i ≤ now) → (3000 < length looks)%nat →
  ∃ acts, leave s start looks = Some acts ∧ FlushLogs ∈ acts ∧
    (s = Graceful → ∃ n now, acts = [AbortTasks; Drained n now; FlushLogs; AbortTasks] ∧ (n ≤ 0 ∨ start + 30000 ≤ now)).
Proof.
  intros Hc Hl. destruct s; cbn [leave]; [by eexists; repeat split; [left |] |]. unfold GRACEFUL_TIMEOUT.
  destruct (drain (start + 30000) looks) as [[n now]|] eqn:Ed.
  - apply drain_spec in Ed as [_ Hn]. cbn [mbind option_bind]. eexists. split; [done |]. split; [by right; right; left |]. intros _. by exists n, now.
  - apply drain_goes_on in Ed. destruct (lookup_lt_is_Some_2 looks 3000 Hl) as [[n now] Hi].
    pose proof (Hc 3000%nat n now Hi). rewrite Forall_lookup in Ed. destruct (Ed _ _ Hi). cbn in *. lia.
Qed.

(** ** Instances *)

Lemma told_to_leave_witness : life Child Listening 0 [Some SigUsr1; Some SigUsr1; Some SigQuit] = Leaving Graceful ∧
  life Child Listening 0 [Some SigUsr1; Some SigUsr1] = Living Listening 2.
Proof. exact (told_to_leave Child SigQuit Graceful [SigUsr1; SigUsr1] eq_refl ltac:(repeat constructor)). Defined.

Lemma early_stop_is_lost_witness : Killed 10 SigQuit ∈ acts (interrupted (on_signal SigTerm two)).2 ∧
  life Child Starting 0 [Some SigQuit; None] = Living Listening 0 ∧ life Child Starting 0 [Some SigTerm; None] = Dead.
Proof. exact (early_stop_is_lost two SigTerm 10 (or_introl eq_refl) ltac:(by left)). Defined.

Lemma reload_ends_a_single_worker_witness : life Whole Listening 0 [Some SigHup] = Dead.
Proof. exact (reload_ends_a_single_worker SigHup eq_refl). Defined.

Lemma conn_ids_apart_witness : conn_id 3 5 = conn_id 3 5 → 3 = 3 ∧ 5 = 5.
Proof. apply (conn_ids_apart 3 3 5 5); lia. Defined.

Lemma conn_ids_meet_witness : conn_id 256 7 = conn_id 0 7 ∧ conn_id 0 7 = 7.
Proof. split; [exact (conn_ids_meet 0 7 ltac:(lia)) | vm_compute; reflexivity]. Defined.

(** A connection, one that was given up, an error, and another connection *)
Lemma accept_loop_serves_witness :
  let sock k := Transport.Pending (Raw := nat) (Tcp := nat) (Unix := nat) (Some (Transport.new_pending k)) in
  let tcp := Transport.mkOps (S := nat) (λ _ s, (Transport.NotYet false, s)) (λ _ s, (Transport.NotYet false, s)) (λ _ s, (Transport.NotYet false, s))
    (λ s, (Transport.NotYet false, s)) (λ s, (Transport.NotYet false, s)) (λ _ s, (Err Transport.WouldBlock, s)) (λ _ s, s) in
  let l := [Arrives (sock 1%nat); Fails Transport.ConnectionAborted; Fails Transport.OtherErr; Arrives (sock 2%nat)] in
  (∃ ts, accept_loop tcp true l (conn_id 1 0) = Some ts ∧ length ts = 4%nat ∧
     (omap serving ts).*1 = [conn_id 1 0; conn_id 1 1] ∧ Some <$> (omap serving ts).*2 = asked tcp true <$> [sock 1%nat; sock 2%nat]) ∧
  omap (λ t, match t with Pauses e => Some e | _ => None end) (default [] (accept_loop tcp true l 0)) = [Transport.OtherErr].
Proof.
  intros sock tcp l. split; [| vm_compute; reflexivity].
  apply (accept_loop_serves tcp 1 true l 0). apply Forall_cons. split; [done |]. apply Forall_cons. by split.
Defined.

Lemma stream_nodelay_never_set_witness :
  let tcp := Transport.loop_tcp in
  let k := Transport.mkLoop [] 1 [] false false in
  let s : Transport.Stream (Unix := unit) := Transport.Pending (Some (Transport.new_pending k)) in
  stream_nodelay tcp s = s ∧ ∃ k', Transport.Came k' ∈ [Transport.NotNow Transport.WouldBlock; Transport.Came k] ∧
    Transport.register Transport.loop_raw s = Some (Ok tt, Transport.OnTcp k').
Proof.
  cbn zeta. exact (stream_nodelay_never_set Transport.loop_raw Transport.loop_tcp [Transport.NotNow Transport.WouldBlock; Transport.Came _] _ [] eq_refl).
Defined.

Lemma protocol_served_witness :
  serve_as None true [take 10 PREFACE; drop 10 PREFACE; [x00]] Eof = Some (AsHttp2 (str "http") PREFACE [[x00]]) ∧
  PREFACE ++ concat [[x00]] = concat [take 10 PREFACE; drop 10 PREFACE; [x00]].
Proof.
  split; [vm_compute; reflexivity |].
  exact (proj1 (protocol_served None true [take 10 PREFACE; drop 10 PREFACE; [x00]] Eof ltac:(repeat constructor; done))).
Defined.

(** Two listeners, the second with a socket of its own, and one of [stream];
    the first QUIC listener cannot be bound. *)
Definition sample_gen : Gen (L := nat) (S := nat) (T := nat) (Q := nat) (SL := nat) (U := nat) (Zone := nat) :=
  mkGen [80; 443]%nat [Some 3; None]%nat [None; Some 9]%nat [(443, Some 1); (8443, None); (9443, Some 2)]%nat
    (Some (mkStream [5432]%nat [53]%nat [7]%nat)) [Some 4]%nat [1; 2]%nat [1]%nat.

Definition sample_endpoint (l q : nat) : option nat := if decide (l = 443)%nat then None else Some q.

Definition sample_inputs : Inputs (L := nat) (S := nat) (T := nat) (Q := nat) (SL := nat) (U := nat) (Zone := nat) :=
  mkInputs [1; 2]%nat [1]%nat [None; Some 9]%nat [(80, Some 3); (443, None)]%nat [(443, 1); (9443, 2)]%nat
    (Some (mkStream [5432]%nat [53]%nat [7]%nat)) [(5432, Some 4)]%nat true.

Lemma worker_duties_witness :
  let run := worker Some Some Some sample_endpoint Some (λ u, bool_decide (u = 2%nat)) (λ _, 3600000) 0 sample_inputs in
  (duties <$> (fst <$> run)) = Some (owed sample_endpoint (D := nat) Some (λ u, bool_decide (u = 2%nat)) 0 sample_inputs) ∧
  (snd <$> run) = Some [QuicFailed 443%nat] ∧
  omap manages (default [] (fst <$> run)) = [1%nat].
Proof.
  intros run. destruct run as [[ts al]|] eqn:Er; [| by vm_compute in Er].
  destruct (proj2 (worker_duties Some Some Some sample_endpoint Some (λ u, bool_decide (u = 2%nat)) (λ _, 3600000) 0 sample_inputs) ts al Er) as [H1 H2].
  cbn [fmap option_fmap option_map fst snd default]. split_and!; [by rewrite H1 | by rewrite H2 | by injection H1].
Defined.

Lemma generation_served_witness : ∃ inp ts al, build Some sample_gen true = Some (Ok inp) ∧
  worker (A := nat) Some Some Some sample_endpoint (D := nat) Some (λ u, bool_decide (u = 2%nat)) (λ _, 3600000) 1 inp = Some (ts, al) ∧
  d_http (duties ts) = [(80, None); (443, Some 9)]%nat ∧ d_stream (duties ts) = [5432%nat].
Proof.
  refine (generation_served Some Some Some Some sample_endpoint Some (λ u, bool_decide (u = 2%nat)) (λ _, 3600000) sample_gen true 1 _ _ _ _ _);
    [split; [reflexivity | by intros ? [= <-]] | by eexists ..].
Defined.

Lemma one_manager_per_zone_witness :
  let ds := all_duties sample_endpoint (D := nat) Some (λ u, bool_decide (u = 2%nat)) 0 [sample_inputs; sample_inputs; sample_inputs] in
  concat (d_zones <$> ds) = [1%nat] ∧ concat (d_probes <$> ds) = [2; 2; 2]%nat.
Proof.
  exact (one_manager_per_zone sample_endpoint Some (λ u, bool_decide (u = 2%nat)) [1%nat] [1; 2; 7]%nat true sample_inputs [sample_inputs; sample_inputs]
    ltac:(repeat constructor)).
Defined.

Lemma last_worker_has_the_path_witness : bind_each [0; 1; 2]%nat (SocketOf 9) = Some (SocketOf 2).
Proof. exact (last_worker_has_the_path [0; 1]%nat 2 (SocketOf 9) ltac:(done)). Defined.

(** One request is in hand for as long as it is looked at. *)
Lemma worker_leaves_witness :
  let looks := (λ i, (1, 500 + 10 * i)) <$> seqZ 0 3001 in
  (∃ acts, leave Graceful 500 looks = Some acts ∧ FlushLogs ∈ acts ∧
    (Graceful = Graceful → ∃ n now, acts = [AbortTasks; Drained n now; FlushLogs; AbortTasks] ∧ (n ≤ 0 ∨ 500 + 30000 ≤ now))) ∧
  leave Graceful 500 looks = Some [AbortTasks; Drained 1 30500; FlushLogs; AbortTasks].
Proof.
  intros looks. split; [| vm_compute; reflexivity]. apply worker_leaves.
  - intros i n now. unfold looks. rewrite list_lookup_fmap. destruct (seqZ 0 3001 !! i) as [z|] eqn:Ei; [| done].
    apply lookup_seqZ in Ei as [-> _]. intros [= <- <-]. lia.
  - unfold looks. rewrite length_fmap, length_seqZ. lia.
Defined.
