(* ===== verification/Quic.v ===== *)
(** * [src/server/quic.rs]: QUIC listeners, and the TLS set-up of a generation

    The configuration each listener is served with, over TLS ([build_tls] of
    [src/server/mod.rs]) and over QUIC; the loop that accepts connections; and
    the start of an HTTP/3 connection ([serve] of [src/http3/conn.rs]), of which
    [H3Conn] has the streams. What the certificates of a listener come to, and
    what rustls and quinn make of a configuration, are parameters. *)
From S2P Require Import Prelude.
From S2P Require Import Text.
From S2P Require Import Wire.
From S2P Require Import Listen.
From S2P Require Import Model.
From S2P Require Import Handler.
From S2P Require Import H3Conn.
From S2P Require H3Frame.
From S2P Require Worker.

Open Scope oxi_scope.
Open Scope Z_scope.

(** ** Configurations *)

(** What a listener is offered with over TLS: the protocols, in order *)
Record TlsConf (R : Type) := mkTls { t_resolver : R; t_alpn : list bytes }.
Arguments mkTls {R}.
Arguments t_resolver {R}.
Arguments t_alpn {R}.

Definition ALPN_H3 : bytes := str "h3".
Definition VARINT_LIMIT : Z := 2 ^ 62 - 1.

(** What is set of a quinn configuration; of the idle timeout, the
    milliseconds, where one is set. *)
Record QuicConf (R : Type) := mkQuic {
  q_resolver : R;
  q_alpn : list bytes;
  q_early_data : Z;
  q_bidi_streams : Z;
  q_uni_streams : Z;
  q_idle : option Z
}.
Arguments mkQuic {R}.
Arguments q_resolver {R}.
Arguments q_alpn {R}.
Arguments q_early_data {R}.
Arguments q_bidi_streams {R}.
Arguments q_uni_streams {R}.
Arguments q_idle {R}.

Section tls.
  Context {L R E : Type} (sni_resolver_for : L → result E (option R)).
  Context (ssl http2 : L → bool).

Definition tls_conf (l : L) (r : R) : TlsConf R :=
  mkTls r (if http2 l then [str "h2"; str "http/1.1"] else [str "http/1.1"]).

(** [build_tls] *)
Fixpoint build_tls (ls : list L) : result E (list (option (TlsConf R))) :=
  match ls with
  | [] => Ok []
  | l :: ls =>
      if ssl l then
        r ← sni_resolver_for l;
        rest ← build_tls ls;
        Ok (option_map (tls_conf l) r :: rest)
      else rest ← build_tls ls; Ok (None :: rest)
  end.

(** A listener is served over TLS exactly if it is an [ssl] one with a
    certificate, at its place in the list, and HTTP/2 is offered, before
    HTTP/1.1, exactly if the listener has it. *)
Theorem tls_of_each ls out : build_tls ls = Ok out →
  Forall2 (λ l o, ∃ r, (if ssl l then sni_resolver_for l else Ok None) = Ok r ∧
    t_resolver <$> o = r ∧ (∀ t, o = Some t → (t_alpn t !! 0%nat = Some (str "h2") ↔ http2 l = true) ∧ str "http/1.1" ∈ t_alpn t)) ls out.
Proof.
  revert out. induction ls as [|l ls IH]; intros out; cbn [build_tls]; [intros [= <-]; constructor |].
  destruct (ssl l) eqn:Es.
  - destruct (sni_resolver_for l) as [r|] eqn:Er; cbn [mbind result_bind]; [| done].
    destruct (build_tls ls) as [rest|]; cbn [mbind result_bind]; [| done]. intros [= <-]. constructor; [| by apply IH].
    rewrite Es. exists r. split; [done |]. destruct r as [r|]; [| by split]. split; [done |]. intros t [= <-]. cbn.
    destruct (http2 l); (split; [split; done | set_solver]).
  - destruct (build_tls ls) as [rest|]; cbn [mbind result_bind]; [| done]. intros [= <-]. constructor; [| by apply IH].
    rewrite Es. exists None. by split_and!.
Qed.

End tls.

Section quic.
  Context {L R E : Type} (sni_resolver_for : L → result E (option R)).
  Context (keepalive_timeout : L → Z) (quic_server_config : R → result E unit).

Definition idle_timeout (l : L) : option Z :=
  if decide (keepalive_timeout l = 0) then None else Some (Z.min (keepalive_timeout l) VARINT_LIMIT).

(** [build_configs] *)
Fixpoint build_configs (ls : list L) : result E (list (option (QuicConf R))) :=
  match ls with
  | [] => Ok []
  | l :: ls =>
      r ← sni_resolver_for l;
      match r with
      | None => rest ← build_configs ls; Ok (None :: rest)
      | Some r =>
          _ ← quic_server_config r;
          rest ← build_configs ls;
          Ok (Some (mkQuic r [ALPN_H3] 0 256 8 (idle_timeout l)) :: rest)
      end
  end.

(** A QUIC listener is served exactly if it has a certificate, by HTTP/3 alone
    and without early data, and is left alone for as long as the other
    listeners would leave a connection. *)
Theorem quic_of_each ls out : build_configs ls = Ok out →
  Forall2 (λ l o, ∃ r, sni_resolver_for l = Ok r ∧
    o = ((λ r, mkQuic r [ALPN_H3] 0 256 8 (idle_timeout l)) <$> r) ∧ (∀ r', r = Some r' → quic_server_config r' = Ok tt)) ls out.
Proof.
  revert out. induction ls as [|l ls IH]; intros out; cbn [build_configs]; [intros [= <-]; constructor |].
  destruct (sni_resolver_for l) as [[r|]|] eqn:Er; cbn [mbind result_bind]; [| | done].
  - destruct (quic_server_config r) as [[]|] eqn:Eq; cbn [mbind result_bind]; [| done].
    destruct (build_configs ls) as [rest|]; cbn [mbind result_bind]; [| done]. intros [= <-]. constructor; [| by apply IH].
    exists (Some r). split_and!; [done | done | by intros ? [= <-]].
  - destruct (build_configs ls) as [rest|]; cbn [mbind result_bind]; [| done]. intros [= <-]. constructor; [| by apply IH].
    by exists None.
Qed.
End quic.

(** ** Accepting connections *)

Section accept.
  Context {C : Type}.

(** [accept_loop]: what comes in, a connection or a handshake that fails, until
    the endpoint is closed; each is given a number before it shakes hands. *)
Fixpoint accept_loop (incoming : list (option C)) (id : Z) : list (Z * C) :=
  match incoming with
  | [] => []
  | None :: l => accept_loop l (Worker.next_id id)
  | Some c :: l => (id, c) :: accept_loop l (Worker.next_id id)
  end.

(** Every connection whose handshake succeeds is served, in its order, and no
    two under one number. *)
Theorem quic_accepted w l : ∀ n,
  (accept_loop l (Worker.conn_id w n)).*2 = omap id l ∧
  (accept_loop l (Worker.conn_id w n)).*1 `sublist_of` (Worker.conn_id w <$> seqZ n (Z.of_nat (length l))).
Proof.
  induction l as [|[c|] l IH]; intros n; [done | |]; cbn [accept_loop]; rewrite Worker.next_conn_id; destruct (IH (n + 1)) as [H1 H2];
    (rewrite (seqZ_cons n) by (cbn; lia); replace (Z.pred (Z.of_nat (length (_ :: l)))) with (Z.of_nat (length l)) by (cbn; lia);
     replace (Z.succ n) with (n + 1) by lia).
  - cbn. split; [by rewrite H1 | by constructor].
  - cbn. split; [done | by constructor].
Qed.
End accept.

(** ** The start of an HTTP/3 connection *)

(** The streams this end opens, by whether each can be opened and written; and
    whether all could *)
Fixpoint opened (want : list bytes) (can : list bool) : list bytes * bool :=
  match want, can with
  | [], _ => ([], true)
  | s :: want, true :: can => let '(ss, ok) := opened want can in (s :: ss, ok)
  | _ :: _, _ => ([], false)
  end.

Definition own_streams : list bytes :=
  [open_control; H3Frame.put_varint H3Frame.stream_type.QPACK_ENCODER; H3Frame.put_varint H3Frame.stream_type.QPACK_DECODER].

(** [serve]: what this end opens, and the requests it takes on, each with its
    number on the connection; a stream comes with its index. *)
Definition serve (can : list bool) (streams : list (Z * list Rx)) : list bytes * list (Z * Reader) :=
  let '(own, ok) := opened own_streams can in
  (own, if ok then (λ '(i, s), (i + 1, new_reader s)) <$> streams else []).

(** The code a failed request closes the connection with *)
Definition closing_code (e : Z) : Z := if decide (e ≤ VARINT_LIMIT) then e else 0.

Definition conn_closed {W} (t : Async (Task (W := W))) : option Z :=
  match t with H3Conn.Now (Drops e) => Some (closing_code e) | _ => None end.

Lemma opened_prefix want : ∀ can, (opened want can).1 `prefix_of` want ∧ ((opened want can).2 = true → (opened want can).1 = want).
Proof.
  induction want as [|s want IH]; intros [|[] can]; cbn; try (split; [apply prefix_nil | done]); try done.
  destruct (IH can) as [H1 H2]. destruct (opened want can) as [ss ok]. cbn in *. split; [by apply prefix_cons | by intros <-%H2].
Qed.

(** No request is taken on before the control stream and the two of QPACK are
    open; the first that is opened is the control stream, and its first frame
    is the settings; each request has the number of its stream. *)
Theorem settings_come_first can streams : let '(own, requests) := serve can streams in
  own `prefix_of` own_streams ∧ (requests ≠ [] → own = own_streams) ∧
  (own ≠ [] → ∃ rest n, own !! 0%nat = Some (H3Frame.put_varint H3Frame.stream_type.CONTROL ++ rest) ∧
     H3Frame.parse_head rest = Ok (Some n) ∧ H3Frame.head_kind n = H3Frame.kind.SETTINGS) ∧
  (requests = [] ∨ requests.*1 = (λ x, x.1 + 1) <$> streams).
Proof.
  unfold serve. destruct (opened_prefix own_streams can) as [H1 H2]. destruct (opened own_streams can) as [own ok]. cbn [fst snd] in *.
  split_and!; [done | destruct ok; [intros _; by apply H2 | done] | |].
  - intros Hn. destruct own as [|o own]; [done |]. destruct H1 as [k Hk]. injection Hk as <- _.
    exists (H3Frame.put_frame H3Frame.kind.SETTINGS (H3Frame.encode H3Frame.default)). eexists.
    split; [reflexivity |]. split; vm_compute; reflexivity.
  - destruct ok; [right | by left]. rewrite <-list_fmap_compose. apply list_fmap_ext. by intros i [].
Qed.

(** ** Instances *)

(** Three listeners, by number: the first is not an [ssl] one, the third has no
    certificate. *)
Definition sample_resolver (l : nat) : result unit (option nat) := Ok (if decide (l = 2)%nat then None else Some l).

Lemma tls_of_each_witness :
  build_tls sample_resolver (λ l, bool_decide (l ≠ 0)%nat) (λ l, bool_decide (l = 1)%nat) [0; 1; 2]%nat =
    Ok [None; Some (mkTls 1%nat [str "h2"; str "http/1.1"]); None] ∧
  Forall2 (λ l o, ∃ r, (if bool_decide (l ≠ 0)%nat then sample_resolver l else Ok None) = Ok r ∧
    t_resolver <$> o = r ∧ (∀ t, o = Some t → (t_alpn t !! 0%nat = Some (str "h2") ↔ bool_decide (l = 1)%nat = true) ∧ str "http/1.1" ∈ t_alpn t))
    [0; 1; 2]%nat [None; Some (mkTls 1%nat [str "h2"; str "http/1.1"]); None].
Proof.
  split; [vm_compute; reflexivity |].
  exact (tls_of_each sample_resolver (λ l, bool_decide (l ≠ 0)%nat) (λ l, bool_decide (l = 1)%nat) [0; 1; 2]%nat _ eq_refl).
Defined.

Lemma quic_of_each_witness :
  Forall2 (λ l o, ∃ r, sample_resolver l = Ok r ∧
    o = ((λ r, mkQuic r [ALPN_H3] 0 256 8 (idle_timeout (λ _ : nat, 75000) l)) <$> r) ∧ (∀ r', r = Some r' → Ok (E := unit) tt = Ok tt))
    [1; 2]%nat [Some (mkQuic 1%nat [ALPN_H3] 0 256 8 (Some 75000)); None].
Proof. exact (quic_of_each sample_resolver (λ _, 75000) (λ _, Ok tt) [1; 2]%nat _ eq_refl). Defined.

(** The second handshake fails: its number is skipped. *)
Example failed_handshake_takes_a_number : accept_loop [Some true; None; Some false] (Worker.conn_id 0 0) = [(0, true); (2, false)].
Proof. vm_compute. reflexivity. Qed.
